(* ===== verification/_CoqProject ===== *)
-Q . S2P
Prelude.v
Sched.v
Lock.v
Bytes.v
Text.v
Abi.v
Frames.v
Heap.v
Paging.v
Elf.v
Link.v
Session.v
Update.v
Calendar.v
Net.v
Interface.v
Lookup.v
Path.v
Process.v
Console.v
Effect.v
Mmio.v
Usb.v
UsbTree.v
Keys.v
Keyboard.v
Firmware.v
UsbHost.v
UsbTime.v
UsbDma.v
Uart.v
Disk.v
SdCard.v
SdTime.v
SdHost.v
SdDevice.v
Fat.v
FatTable.v
FatChains.v
FatData.v
FatNames.v
FatDirs.v
FatFiles.v
FatProps.v
Fs.v
SdDemo.v
NetTask.v
NetProps.v
Spaces.v
Programs.v
Launch.v
Ownership.v
Lifetimes.v
Calls.v
System.v
User.v
UserProps.v
