(* ===== verification/Prelude.v ===== *)
(** RustyPI, a kernel for the Raspberry Pi 3 in Rust: a verification library.

    The program is three crates and the kernel itself.  [rustypi-abi] is the system call
    interface, [rustypi-core] the parts of the kernel that need no hardware (scheduling
    decisions, memory management, file formats, protocols), [rustypi-user] the programs' side,
    and [src/] the kernel: architecture, drivers, processes, shell.  This library models
    [rustypi-abi], [rustypi-core], [rustypi-user] and the parts of [src/] whose correctness is a matter of
    logic (scheduler, mutex, SD card, USB host and serial drivers, file system, network task, processes and their system calls), as
    functions and step relations over explicit states, and proves the properties that make them correct.

    ** Conventions

    - A Rust function is a Rocq function of the same name in a module named after its type or
      file.  [&mut self] is a state passed in and returned.
    - [Result<A, E>] is [result E A]; Rust's [Option] is [option].  Where code may panic (an index
      out of range, an explicit [panic!]) the result is under an [option] whose [None] is the
      panic, so a theorem that gives [Some] shows there is none.
    - Integers are [Z] with their width written out: [uint w x] for the range, [wrap w x] where
      arithmetic can overflow (the kernel is built in release mode, where it wraps), [signed w x]
      for a cast to a signed type.  Indices and lengths are [nat] where they cannot overflow.
      Bytes, text and packets are [list Z]; text is UTF-8 ([Bytes.is_utf8]).
    - Loops that are not structural take fuel, chosen so that running out is impossible: the
      length of what they walk ([Dhcp.parse_options], [Lan7800.rx]), the number of blocks the heap
      can hold ([Heap.fuel_of]), or a small constant ([Checksum.fold_carries], three rounds for any
      32-bit sum; [Interface.poll], which calls itself at most twice; [UsbTree.device], as deep as
      hubs may be chained), or the time a loop may take ([Mmio.turns]: a register access takes time,
      so a loop that watches the clock ends).  Running out is a panic of
      the model, and the theorems exclude it.
    - Concurrency is interleaving: each lock section is one step of a relation and other tasks'
      steps come in between ([Lock.Mutex], [Process.Pipe], [Sched.RunQueue.steps], [NetTask.step],
      [System]).

    ** Files

    - [Prelude]: results, machine integers, bits; [Bytes]: byte strings, endianness, UTF-8,
      numbers in text, and the hint database [bytes].
    - [Sched]: the run queue ([rustypi-core/src/sched.rs]) and, in [Kernel], how the kernel's
      [switch], [on_irq] and [on_yield] use it ([src/sched.rs]).  No two cores run one task while
      the kernel keeps the queue's contract, a task that stays ready is picked within a round of any
      core's timer switches, wake-ups and notifications are not lost; and a run of the kernel's own operations that breaks the
      contract.
    - [Lock]: the lock's line of waiters ([lock.rs]) and the sleeping mutex
      ([src/synchronization.rs]), proved against the class [WaitQueue] of what it needs of a
      scheduler, which the run queue implements.  Mutual exclusion, first come first served, no
      lost hand-over.
    - [Abi]: system calls, errors, exit statuses and directory entries ([rustypi-abi/src/lib.rs]),
      with their round trips.
    - [Frames]: the page frame bitmap ([frames.rs]).  Frames are never shared; freeing takes
      exactly the frames held.
    - [Heap]: the kernel heap ([heap.rs]), [Heap.Heap] at the level of links in memory,
      [Heap.FreeList] as a sorted list of free ranges, which it refines; then what a user sees:
      blocks never overlap, freeing joins them again.
    - [Paging]: address spaces ([paging.rs]), over the class [FrameSource] that the frame bitmap
      implements ([PageFrames], [src/sys/memory.rs]).  Mapping adds one page, translation is
      exact, nothing is writable and executable, copies stay in the program's pages, dropping
      gives every frame back.
    - [Elf]: the program loader ([elf.rs]).  Accepted programs are safe; loading puts every
      segment in place or runs out of memory.
    - [Link], [Session], [Update]: the serial link's frames, the command session on it and the
      receiver of kernel images ([link.rs], [session.rs], [update.rs]).
    - [Calendar]: dates ([time.rs]) against the Gregorian calendar counted day by day.
    - [Net], [Interface]: the network formats ([net/]) and the interface that answers, resolves,
      pings and configures itself ([net/interface.rs]).  No frame makes it panic, its tables
      stay bounded, only DHCP changes its address, and a datagram to a neighbour that answers arrives.
    - [Path], [Console]: path resolution ([path.rs]) and the text console ([console.rs]).
    - [Disk], [Fat] and the files after it: the FAT16 and FAT32 file system ([block.rs], [mbr.rs],
      [fat/mod.rs], [fat/write.rs]).  [Disk] states what a block device promises as the class
      [LawfulDevice]: a write that fails may have written any part of what it was given.  It is
      implemented by a disk in memory that loses power after a number of writes, and by the SD card.  [Fat] is the driver, every operation in the monad
      of [Effect]; [Text] the standard library's text functions it uses.  The
      rest are its theorems, by weakest preconditions ([Effect.wp]) for any lawful device:
      [FatTable] the two cached sectors as one table, [FatChains] allocating, linking and freeing,
      [FatData] runs of clusters, [FatNames] long names and aliases, [FatDirs] directories,
      [FatFiles] replacing a file, [FatProps] what the driver promises and where it does not keep
      its word.
    - [Effect]: the monad of a state, errors and panics that the files after it share, with its
      weakest preconditions.
    - [Mmio]: registers as an interface, the timer and the pins ([src/drivers/mmio.rs], [timer.rs], [gpio.rs]),
      and how much time a computation may take ([Mmio.takes]), for registers with a clock ([Mmio.Clocked]).
    - [SdCard]: the SD card driver, register by register ([src/drivers/sdcard.rs]).  [SdTime]: every call
      ends within a known time, whatever the card does; initialising, within a known time besides the firmware's
      answer.  [SdHost] states what the controller and the card do
      as the class [SdSlot], on an abstract view of transfers under way, and what each part of the driver
      does with it; [SdDevice]: on a card that reports no errors in its status ([Faultless]) the driver is a
      [LawfulDevice], so all theorems on the file system hold on the card, with what holds of other cards; and initialisation finds out how the card counts.  [SdDemo] is a machine that behaves so; the
      file system is run on it, from switching on to files, and two runs show where a write's result cannot
      be taken at its word.
    - [Uart]: the serial port ([src/drivers/uart.rs]), and the queue its interrupt shares with the task that
      reads it, without a lock.  However the two interleave, what its callers see is a first in, first out queue
      that says when it dropped something; the order of memory accesses is taken to be one that all cores agree on.
    - [Usb], [UsbTree]: USB requests, descriptors, hub ports, keyboard reports and layouts
      ([usb/mod.rs]), and enumeration ([usb/tree.rs]) over the class [LawfulBus] of what a host
      controller promises.  Parsing never panics and reads back what a device describes;
      enumeration ends where the bus's transfers do, the addresses in use are exactly the tree's however devices come and go,
      and slow devices are reached through a high speed hub.
    - [UsbHost]: the USB host controller's driver ([src/drivers/usb.rs]), register by register: starting it, and
      control, interrupt and bulk transfers, straight or split through a hub.  [UsbTime]: every call ends
      within a known time, whatever the controller does (starting, besides the firmware's answer), control
      transfers straight to a device apart, which never end while it is not ready.  [UsbDma]: the driver is a [LawfulBus], so what holds of the tree holds
      over it; and the controller, which writes to memory by itself ([DmaController]), is never pointed
      outside the driver's buffers.
    - [Keys]: accents, key repeat ([keys.rs]) and line editing ([line.rs]), with what its echo
      leaves on the console's screen.
    - [Keyboard]: the USB task ([src/sys/usb.rs]), from a keyboard's reports to lines for the shell, and
      its following of devices.  The shell gets what the screen showed, whatever the keyboard sends, for lines
      that fit their row; a longer one is not wiped off the screen, and a keyboard stays in use when the hub it is on is pulled out.
    - [Firmware]: property messages ([mailbox/]), with what the firmware sees of a batch and what
      comes back to each handle; in [Exchange] how the hardware carries them ([src/drivers/mailbox/mod.rs]),
      which waits without limit; pixels ([graphics.rs]) and SD capacity ([sd.rs]).
    - [Process]: pipes, the budget of file bytes and the handle table ([src/process/pipe.rs],
      [buffer.rs], [handles.rs]).
    - [Fs]: the mounted volume behind its lock ([src/sys/fs.rs]).  Boot files are left alone, however
      their ASCII names are spelled; the write test leaves the card as it was.
    - [Lookup]: DNS lookups in flight, the SNTP clock ([src/sys/net/lookup.rs]) and the wall clock it
      sets ([src/sys/clock.rs]).
    - [NetTask], [NetProps]: the network task ([src/sys/net/mod.rs]) as a state machine, a step per turn
      of its round's loops, among the tasks that share its queues; and installing a kernel
      ([src/sys/update.rs]).  While the task is up every name asked for is answered once and in time, and the
      answer waits to be taken; the clock is never left waiting, replies go out whole, only a whole kernel goes onto the
      card, in the minute that a command or the datagram before armed; and where there is no controller [resolve] waits for ever.
    - [Programs]: user programs and every system call ([src/process/mod.rs], [handles.rs]).  A call
      is a tree of lock sections, waits and values from outside ([Programs.Call]); the file system
      behind it is the class [Files].
    - The files after it prove what holds of all programs together.  [Spaces]: operations on one
      address space leave others alone.  [Launch]: ASIDs, and a new program's memory.  [Ownership]:
      the invariant, that every counted thing belongs to one program or to the section that moves
      it.  [Lifetimes]: programs start and end.  [Calls]: every system call keeps the invariant,
      does not panic and leaves other programs alone, whatever others do between its sections (a
      rely and guarantee argument, [Calls.sound]).  [System]: user code, calls, kills, typed lines
      and the shell as one transition system; programs are isolated, the kernel's books are exact,
      nothing leaks, no program makes the kernel panic while its heap has room, lines reach who reads; and a kill that is
      missed.
    - [User], [UserProps]: the library programs are linked with ([rustypi-user/src/]), over the class [Os] of
      a kernel that answers system calls and the class [LawfulOs] of what it promises.  Text is printed whole,
      files read back as they were written and no handle is left open, the heap grows until the kernel
      refuses memory, random numbers are fair; and a write that fails cuts the old file.

    ** What is outside

    The commands a session runs are a parameter of [Session]; how much more than asked an
    allocator hands out is a parameter ([Process.Buffer.Allocator]), with a bound on it; the
    built-in programs' image is a parameter that fits below the stack.  Not modelled: that the kernel's heap
    runs out (an allocation that fails panics, and programs can bring that about: the budget does not count their
    stacks, pipes and listings), the drivers of the interrupt controller, the screen and the Ethernet controller, assembly, exception entry, saved contexts and stacks, cache and TLB maintenance, spin locks on
    atomics, the shell's commands, the font, what the kernel prints.  The Ethernet controller's
    transfers and the timer are inputs of the network task's steps ([NetTask.Hardware]). *)
From stdpp Require Export base tactics option list list_numbers numbers gmap.
From Stdlib Require Export ZArith Lia.

(** * Results

    Rust's [Result<A, E>].  A panic is modelled apart, as [None] of [option]. *)
Inductive result (E A : Type) : Type :=
| Ok (a : A)
| Err (e : E).
Arguments Ok {E A} a.
Arguments Err {E A} e.

#[export] Instance result_ret E : MRet (result E) := λ A a, Ok a.
#[export] Instance result_bind E : MBind (result E) := λ A B f r,
  match r with Ok a => f a | Err e => Err e end.
#[export] Instance result_fmap E : FMap (result E) := λ A B f r,
  match r with Ok a => Ok (f a) | Err e => Err e end.

(** [Option::ok_or]. *)
Definition ok_or {E A} (o : option A) (e : E) : result E A :=
  match o with Some a => Ok a | None => Err e end.

(** [Result::ok]. *)
Definition ok {E A} (r : result E A) : option A :=
  match r with Ok a => Some a | Err _ => None end.

(** [Result::map_err]. *)
Definition map_err {E F A} (f : E → F) (r : result E A) : result F A :=
  match r with Ok a => Ok a | Err e => Err (f e) end.

Definition is_ok {E A} (r : result E A) : bool :=
  match r with Ok _ => true | Err _ => false end.

#[export] Instance result_eq_dec `{EqDecision E, EqDecision A} : EqDecision (result E A).
Proof. solve_decision. Defined.

Section result_laws.
Context {E A B : Type}.

Lemma bind_Ok (r : result E A) (f : A → result E B) b :
  (r ≫= f) = Ok b ↔ ∃ a, r = Ok a ∧ f a = Ok b.
Proof. destruct r; cbn; naive_solver. Qed.

Lemma bind_Err (r : result E A) (f : A → result E B) e :
  (r ≫= f) = Err e ↔ r = Err e ∨ ∃ a, r = Ok a ∧ f a = Err e.
Proof. destruct r; cbn; naive_solver. Qed.

Lemma ok_or_Ok (o : option A) (e : E) a : ok_or o e = Ok a ↔ o = Some a.
Proof. destruct o; cbn; naive_solver. Qed.
End result_laws.

(** * Machine integers

    An unsigned integer of [w] bits is a [Z] in [0 <= x < 2 ^ w].  The kernel is built with
    [--release], where arithmetic that overflows wraps around. *)
Definition wrap (w x : Z) : Z := (x mod 2 ^ w)%Z.
Definition uint (w x : Z) : Prop := (0 <= x < 2 ^ w)%Z.

Lemma wrap_uint w x : (0 <= w)%Z → uint w (wrap w x).
Proof. intros. apply Z.mod_pos_bound. apply Z.pow_pos_nonneg; lia. Qed.

Lemma wrap_small w x : uint w x → wrap w x = x.
Proof. intros. by apply Z.mod_small. Qed.

(** Counting on by less than a whole turn never comes back to the same value. *)
Lemma wrap_offset_ne w x k : uint w x → (0 < k < 2 ^ w)%Z → wrap w (x + k) ≠ x.
Proof.
  unfold wrap, uint. generalize (2 ^ w)%Z. intros m Hx Hk H.
  pose proof (Z_div_mod_eq_full (x + k) m) as Hd. rewrite H in Hd.
  destruct (Z.le_gt_cases ((x + k) / m) 0); nia.
Qed.

(** A two's complement integer of [w] bits: [x as iW] and [x as uW]. *)
Definition signed (w x : Z) : Z :=
  let u := wrap w x in if (u <? 2 ^ (w - 1))%Z then u else (u - 2 ^ w)%Z.
Definition sint (w x : Z) : Prop := (- 2 ^ (w - 1) <= x < 2 ^ (w - 1))%Z.

Lemma pow_double w : (0 < w)%Z → (2 ^ w = 2 * 2 ^ (w - 1) ∧ 0 < 2 ^ (w - 1))%Z.
Proof.
  intros. split; [|apply Z.pow_pos_nonneg; lia].
  replace w with (Z.succ (w - 1)) at 1 by lia. apply Z.pow_succ_r. lia.
Qed.

Lemma signed_sint w x : (0 < w)%Z → sint w (signed w x).
Proof.
  intros Hw. unfold signed, sint. pose proof (wrap_uint w x ltac:(lia)) as Hu. unfold uint in Hu.
  destruct (pow_double w Hw). destruct (Z.ltb_spec (wrap w x) (2 ^ (w - 1))); lia.
Qed.

Lemma wrap_sub_pow w x : (0 <= w)%Z → wrap w (x - 2 ^ w) = wrap w x.
Proof.
  intros. unfold wrap. replace (x - 2 ^ w)%Z with (x + (-1) * 2 ^ w)%Z by lia.
  apply Z_mod_plus_full.
Qed.

Lemma wrap_idemp w x : (0 <= w)%Z → wrap w (wrap w x) = wrap w x.
Proof. intros. by apply wrap_small, wrap_uint. Qed.

(** Casting to signed and back changes nothing, either way round. *)
Lemma wrap_signed w x : (0 < w)%Z → wrap w (signed w x) = wrap w x.
Proof.
  intros. unfold signed. destruct (_ <? _)%Z; rewrite ?wrap_sub_pow by lia; apply wrap_idemp; lia.
Qed.

Lemma signed_wrap w x : (0 < w)%Z → sint w x → signed w (wrap w x) = x.
Proof.
  intros Hw Hx. unfold signed, sint in *. rewrite wrap_idemp by lia. destruct (pow_double w Hw).
  destruct (Z.le_gt_cases 0 x).
  - rewrite wrap_small by (unfold uint; lia). destruct (Z.ltb_spec x (2 ^ (w - 1))); lia.
  - replace (wrap w x) with (x + 2 ^ w)%Z.
    + destruct (Z.ltb_spec (x + 2 ^ w) (2 ^ (w - 1))); lia.
    + unfold wrap. rewrite <-(Z_mod_plus_full x 1), Z.mul_1_l. symmetry. apply Z.mod_small. lia.
Qed.

(** * Searching a range *)

(** [Iterator::find] over a mapped range stops at the first hit. *)
Lemma find_map_seq_Some {A} (p : A → bool) (f : nat → A) a n x :
  List.find p (map f (seq a n)) = Some x →
  ∃ i, a ≤ i < a + n ∧ x = f i ∧ p (f i) = true ∧ ∀ j, a ≤ j < i → p (f j) = false.
Proof.
  revert a. induction n as [|n IH]; intros a; cbn; [done|].
  destruct (p (f a)) eqn:E.
  - intros [= <-]. exists a. split_and!; [lia|lia|done|done|lia].
  - intros (i & Hi & -> & Hp & Hmin)%IH. exists i. split_and!; [lia|lia|done|done|].
    intros j Hj. destruct (decide (j = a)) as [->|]; [done|]. apply Hmin. lia.
Qed.

Lemma find_map_seq_None {A} (p : A → bool) (f : nat → A) a n :
  List.find p (map f (seq a n)) = None → ∀ i, a ≤ i < a + n → p (f i) = false.
Proof.
  intros H i Hi. apply (List.find_none _ _ H), in_map_iff. exists i. split; [done|]. apply in_seq. lia.
Qed.

(** Every residue is reached by the offsets [1..n] from any start. *)
Lemma offset_exists n cur t : cur < n → t < n → ∃ o, 1 ≤ o ≤ n ∧ (cur + o) mod n = t.
Proof.
  intros Hc Ht. destruct (decide (cur < t)).
  - exists (t - cur). split; [lia|]. rewrite <-(Nat.mod_small t n) at 2 by lia. f_equal. lia.
  - exists (n + t - cur). split; [lia|].
    replace (cur + (n + t - cur)) with (t + 1 * n) by lia.
    rewrite Nat.Div0.mod_add. by apply Nat.mod_small.
Qed.

Lemma offset_exists_0 n a t : t < n → ∃ i, i < n ∧ (a + i) mod n = t.
Proof.
  intros Ht. pose proof (Nat.mod_upper_bound a n ltac:(lia)). pose proof (Nat.div_mod_eq a n).
  exists (if decide (a mod n ≤ t) then t - a mod n else t + n - a mod n).
  case_decide; (split; [lia|]).
  - replace (a + (t - a mod n)) with (t + a / n * n) by lia. rewrite Nat.Div0.mod_add. by apply Nat.mod_small.
  - replace (a + (t + n - a mod n)) with (t + (a / n + 1) * n) by lia.
    rewrite Nat.Div0.mod_add. by apply Nat.mod_small.
Qed.

(** * Bits *)
Section bits.
Local Open Scope Z_scope.

(** [!0] and [!x] at [w] bits. *)
Definition ones (w : Z) : Z := 2 ^ w - 1.
Definition bnot (w x : Z) : Z := Z.lxor (ones w) x.
Definition bit (i : Z) : Z := Z.shiftl 1 i.

Lemma testbit_ones w i : 0 <= w → 0 <= i → Z.testbit (ones w) i = (i <? w).
Proof.
  intros. unfold ones. rewrite Z.sub_1_r, <-Z.ones_equiv. destruct (Z.ltb_spec i w).
  - apply Z.ones_spec_low. lia.
  - apply Z.ones_spec_high. lia.
Qed.

Lemma testbit_bit i j : 0 <= i → Z.testbit (bit i) j = (i =? j).
Proof.
  intros. unfold bit. rewrite Z.shiftl_1_l. destruct (Z.eqb_spec i j) as [->|]; [by apply Z.pow2_bits_true|].
  by apply Z.pow2_bits_false.
Qed.

Lemma testbit_high w x i : uint w x → 0 <= w <= i → Z.testbit x i = false.
Proof.
  intros [H0 Hx] Hi. destruct (decide (x = 0)) as [->|]; [apply Z.bits_0|].
  apply Z.bits_above_log2; [lia|]. apply Z.log2_lt_pow2; [lia|].
  apply Z.lt_le_trans with (2 ^ w); [done|]. apply Z.pow_le_mono_r; lia.
Qed.

(** Two words are equal when their bits below the width are. *)
Lemma uint_bits_eq w x y : 0 <= w → uint w x → uint w y →
  (∀ i, 0 <= i < w → Z.testbit x i = Z.testbit y i) → x = y.
Proof.
  intros Hw Hx Hy H. apply Z.bits_inj'. intros i Hi. destruct (Z.lt_ge_cases i w).
  - apply H. lia.
  - by rewrite !(testbit_high w) by (done || lia).
Qed.

Lemma uint_bits w x : 0 <= w → 0 <= x → (∀ i, w <= i → Z.testbit x i = false) → uint w x.
Proof.
  intros Hw Hx H. split; [done|]. destruct (decide (x = 0)) as [->|]; [apply Z.pow_pos_nonneg; lia|].
  apply Z.log2_lt_pow2; [lia|]. destruct (Z.lt_ge_cases (Z.log2 x) w) as [|Hge]; [done|].
  specialize (H _ Hge). rewrite Z.bit_log2 in H; [done|lia].
Qed.

Lemma uint_lor w x y : 0 <= w → uint w x → uint w y → uint w (Z.lor x y).
Proof.
  intros Hw Hx Hy. apply uint_bits; [done| |].
  - apply Z.lor_nonneg. split; [apply Hx|apply Hy].
  - intros i Hi. rewrite Z.lor_spec, !(testbit_high w) by (done || lia). done.
Qed.

Lemma uint_land w x y : 0 <= w → uint w x → 0 <= y → uint w (Z.land x y).
Proof.
  intros Hw Hx Hy. apply uint_bits; [done|apply Z.land_nonneg; auto|].
  intros i Hi. by rewrite Z.land_spec, (testbit_high w x) by (done || lia).
Qed.

Lemma uint_bit w i : 0 <= i < w → uint w (bit i).
Proof.
  intros. unfold bit, uint. rewrite Z.shiftl_1_l. split; [apply Z.pow_nonneg; lia|].
  apply Z.pow_lt_mono_r; lia.
Qed.

Lemma testbit_bnot w x i : 0 <= i < w → Z.testbit (bnot w x) i = negb (Z.testbit x i).
Proof.
  intros. unfold bnot. rewrite Z.lxor_spec, testbit_ones by lia.
  rewrite (proj2 (Z.ltb_lt _ _)) by lia. by destruct (Z.testbit x i).
Qed.

(** [!x] counts down from the biggest word. *)
Lemma bnot_sub w x : 0 <= w → uint w x → bnot w x = ones w - x.
Proof.
  intros Hw Hx. unfold bnot.
  assert (Hd : Z.ldiff x (ones w) = 0).
  { apply Z.bits_inj'. intros i Hi. rewrite Z.ldiff_spec, Z.bits_0, testbit_ones by lia.
    destruct (Z.ltb_spec i w); [apply andb_false_r|]. by rewrite (testbit_high w x) by (done || lia). }
  rewrite Z.sub_nocarry_ldiff by done. apply Z.bits_inj'. intros i Hi.
  rewrite Z.lxor_spec, Z.ldiff_spec, testbit_ones by lia.
  destruct (Z.ltb_spec i w); [by destruct (Z.testbit x i)|]. by rewrite (testbit_high w x) by (done || lia).
Qed.

Lemma land_bit_0 x i : 0 <= i → (Z.land x (bit i) =? 0) = negb (Z.testbit x i).
Proof.
  intros Hi. destruct (Z.testbit x i) eqn:E; cbn.
  - apply Z.eqb_neq. intros H. assert (Hf : Z.testbit (Z.land x (bit i)) i = true)
      by (by rewrite Z.land_spec, testbit_bit, E, Z.eqb_refl).
    by rewrite H, Z.bits_0 in Hf.
  - apply Z.eqb_eq, Z.bits_inj'. intros j Hj. rewrite Z.land_spec, testbit_bit, Z.bits_0 by done.
    destruct (Z.eqb_spec i j) as [<-|]; [by rewrite E|apply andb_false_r].
Qed.

(** Fields put side by side with [|] add up, and masking the high bits drops the low ones. *)
Lemma lor_shiftl_add a b k : 0 <= k → 0 <= b < 2 ^ k → Z.lor (Z.shiftl a k) b = a * 2 ^ k + b.
Proof.
  intros Hk Hb. rewrite <-Z.shiftl_mul_pow2 by done.
  assert (Hz : Z.land (Z.shiftl a k) b = 0).
  { apply Z.bits_inj'. intros i Hi. rewrite Z.land_spec, Z.shiftl_spec, Z.bits_0 by done.
    destruct (Z.lt_ge_cases i k); [by rewrite Z.testbit_neg_r by lia|].
    rewrite (testbit_high k b) by (done || lia). apply andb_false_r. }
  by rewrite <-Z.lxor_lor, Z.add_nocarry_lxor by done.
Qed.

Lemma land_high_mask x k m : 0 <= k → 0 <= m → uint (k + m) x →
  Z.land x (Z.shiftl (Z.ones m) k) = x / 2 ^ k * 2 ^ k.
Proof.
  intros Hk Hm Hx. rewrite <-Z.shiftr_div_pow2, <-Z.shiftl_mul_pow2 by done. apply Z.bits_inj'. intros i Hi.
  rewrite Z.land_spec, !Z.shiftl_spec by done. destruct (Z.lt_ge_cases i k).
  - rewrite !(Z.testbit_neg_r _ (i - k)) by lia. apply andb_false_r.
  - rewrite Z.shiftr_spec by lia. replace (i - k + k) with i by lia. destruct (Z.lt_ge_cases (i - k) m).
    + rewrite Z.ones_spec_low by lia. apply andb_true_r.
    + rewrite (testbit_high (k + m) x) by (done || lia). done.
Qed.

(** [trailing_ones] of a word of [w] bits. *)
Fixpoint trailing_ones (w : nat) (x : Z) : nat :=
  match w with
  | O => O
  | S w => if Z.odd x then S (trailing_ones w (Z.div2 x)) else O
  end.

Lemma testbit_div2 x i : 0 <= i → Z.testbit (Z.div2 x) i = Z.testbit x (Z.succ i).
Proof. intros. rewrite Z.div2_spec, Z.shiftr_spec by lia. by rewrite Z.add_1_r. Qed.

Lemma trailing_ones_spec w x :
  let t := trailing_ones w x in
  (t ≤ w)%nat ∧ ((t < w)%nat → Z.testbit x (Z.of_nat t) = false) ∧
  (∀ j, 0 <= j < Z.of_nat t → Z.testbit x j = true).
Proof.
  revert x. induction w as [|w IH]; intros x; cbn [trailing_ones].
  - split_and!; [lia|lia|cbn; lia].
  - destruct (Z.odd x) eqn:E.
    + destruct (IH (Z.div2 x)) as (H1 & H2 & H3). split_and!; [lia| |].
      * intros. rewrite Nat2Z.inj_succ, <-testbit_div2 by lia. apply H2. lia.
      * intros j Hj. destruct (decide (j = 0)) as [->|]; [by rewrite Z.bit0_odd|].
        replace j with (Z.succ (j - 1)) by lia. rewrite <-testbit_div2 by lia. apply H3. lia.
    + split_and!; [lia| |cbn; lia]. intros _. by rewrite Z.bit0_odd.
Qed.
End bits.
