(* ===== verification/Sched.v ===== *)
(** The scheduling policy ([rustypi-core/src/sched.rs]) and the part of the kernel's
    scheduler ([src/sched.rs]) that drives it on several cores.

    [Module RunQueue] translates the policy; an operation that can panic (a core index out
    of range, a core that has not started) returns [None].  [Module Kernel] adds the
    [LEAVING] words and the critical sections the kernel runs on the queue. *)
From S2P Require Import Prelude.
From stdpp Require Import strings.

Module RunQueue.

Notation TaskId := nat (only parsing).
Notation Event := nat (only parsing).
(** A [Generation] is the [u64] counter of an event. *)
Notation Generation := Z (only parsing).

Inductive State :=
| Running
| Ready
| Sleeping (until_us : Z)
| Waiting (event : Event)
| Blocked
| Finished.

#[export] Instance State_eq_dec : EqDecision State.
Proof. solve_decision. Defined.

Definition state_name (s : State) : string :=
  match s with
  | Running => "running"
  | Ready => "ready"
  | Sleeping _ => "sleeping"
  | Waiting _ => "waiting"
  | Blocked => "blocked"
  | Finished => "finished"
  end.

Record TaskInfo := mkTaskInfo {
  ti_id : TaskId;
  ti_name : string;
  ti_state : State;
  ti_core : option nat;
  ti_ticks : Z;
  ti_recent_ticks : Z;
}.

Definition CPU_WINDOW : Z := 100.

Record Entry := mkEntry {
  e_name : string;
  e_state : State;
  e_ticks : Z;
  e_window_ticks : Z;
  e_recent_ticks : Z;
  e_wake_pending : bool;
  e_interrupt_pending : bool;
}.

Definition new_entry (name : string) (s : State) : Entry :=
  mkEntry name s 0 0 0 false false.

(** Field updates of an [Entry]. *)
Definition with_state (s : State) (e : Entry) : Entry :=
  mkEntry (e_name e) s (e_ticks e) (e_window_ticks e) (e_recent_ticks e)
    (e_wake_pending e) (e_interrupt_pending e).
Definition with_wake_pending (b : bool) (e : Entry) : Entry :=
  mkEntry (e_name e) (e_state e) (e_ticks e) (e_window_ticks e) (e_recent_ticks e)
    b (e_interrupt_pending e).
Definition with_interrupt_pending (b : bool) (e : Entry) : Entry :=
  mkEntry (e_name e) (e_state e) (e_ticks e) (e_window_ticks e) (e_recent_ticks e)
    (e_wake_pending e) b.
Definition with_ticks (t w r : Z) (e : Entry) : Entry :=
  mkEntry (e_name e) (e_state e) t w r (e_wake_pending e) (e_interrupt_pending e).

Record RunQueue := mkRunQueue {
  rq_tasks : list (option Entry);
  rq_current : list (option TaskId);
  rq_idle : list (option TaskId);
  rq_generations : list Generation;
  rq_window_elapsed : Z;
}.

Definition with_tasks (ts : list (option Entry)) (q : RunQueue) : RunQueue :=
  mkRunQueue ts (rq_current q) (rq_idle q) (rq_generations q) (rq_window_elapsed q).
Definition with_current (cs : list (option TaskId)) (q : RunQueue) : RunQueue :=
  mkRunQueue (rq_tasks q) cs (rq_idle q) (rq_generations q) (rq_window_elapsed q).
Definition with_idle (ids : list (option TaskId)) (q : RunQueue) : RunQueue :=
  mkRunQueue (rq_tasks q) (rq_current q) ids (rq_generations q) (rq_window_elapsed q).
Definition with_generations (gs : list Generation) (q : RunQueue) : RunQueue :=
  mkRunQueue (rq_tasks q) (rq_current q) (rq_idle q) gs (rq_window_elapsed q).
Definition with_window_elapsed (w : Z) (q : RunQueue) : RunQueue :=
  mkRunQueue (rq_tasks q) (rq_current q) (rq_idle q) (rq_generations q) w.

(** [current[0] = Some(TaskId(0))] panics without cores. *)
Definition new (name : string) (cores : nat) : option RunQueue :=
  if decide (0 < cores) then
    Some (mkRunQueue [Some (new_entry name Running)] (<[0 := Some 0]> (replicate cores None))
      (replicate cores None) [] 0)
  else None.

Definition current (q : RunQueue) (core : nat) : option TaskId := mjoin (rq_current q !! core).

Definition core_of (q : RunQueue) (id : TaskId) : option nat :=
  fst <$> list_find (λ c, c = Some id) (rq_current q).

Definition entry (q : RunQueue) (id : TaskId) : option Entry := mjoin (rq_tasks q !! id).

Definition state (q : RunQueue) (id : TaskId) : option State := e_state <$> entry q id.

(** [entry_mut]: changes the entry in place, if there is one. *)
Definition update_entry (f : Entry → Entry) (id : TaskId) (q : RunQueue) : RunQueue :=
  with_tasks (alter (fmap (M:=option) f) id (rq_tasks q)) q.

(** [self.tasks.iter_mut().flatten()]: changes every entry in place. *)
Definition update_all (f : Entry → Entry) (q : RunQueue) : RunQueue :=
  with_tasks (fmap (M:=option) f <$> rq_tasks q) q.

Definition set_state (id : TaskId) (s : State) (q : RunQueue) : RunQueue :=
  update_entry (with_state s) id q.

Definition add (name : string) (q : RunQueue) : RunQueue * TaskId :=
  let q := with_tasks (rq_tasks q ++ [Some (new_entry name Ready)]) q in
  (q, length (rq_tasks q) - 1).

Definition add_idle (name : string) (core : nat) (q : RunQueue) : option (RunQueue * TaskId) :=
  let '(q, id) := add name q in
  _ ← rq_idle q !! core;
  Some (with_idle (<[core := Some id]> (rq_idle q)) q, id).

Definition start_core (name : string) (core : nat) (q : RunQueue) : option (RunQueue * TaskId) :=
  c ← rq_current q !! core;
  match c with
  | Some _ => None
  | None =>
      '(q, id) ← add_idle name core q;
      let q := set_state id Running q in
      Some (with_current (<[core := Some id]> (rq_current q)) q, id)
  end.

Definition is_idle (q : RunQueue) (id : TaskId) : bool := bool_decide (Some id ∈ rq_idle q).

Definition idle_core (except : nat) (q : RunQueue) : option nat :=
  List.find (λ core, bool_decide (core ≠ except) &&
                     match mjoin (rq_current q !! core) with
                     | Some id => is_idle q id
                     | None => false
                     end)
    (seq 0 (length (rq_current q))).

(** The current task, and whether an interrupt of it was pending (taken now). *)
Definition take_interrupt (core : nat) (q : RunQueue) : option (RunQueue * TaskId * bool) :=
  current ← current q core;
  let pending := match entry q current with
                 | Some e => e_interrupt_pending e
                 | None => false
                 end in
  Some (update_entry (with_interrupt_pending false) current q, current, pending).

Definition sleep_current (core : nat) (until_us : Z) (q : RunQueue) : option RunQueue :=
  '(q, current, interrupted) ← take_interrupt core q;
  Some (if interrupted : bool then q else set_state current (Sleeping until_us) q).

Definition generation (event : Event) (q : RunQueue) : Generation :=
  default 0%Z (rq_generations q !! event).

Definition wait_current (core : nat) (event : Event) (seen : Generation) (q : RunQueue)
  : option RunQueue :=
  '(q, current, interrupted) ← take_interrupt core q;
  Some (if negb interrupted && bool_decide (generation event q = seen)
        then set_state current (Waiting event) q else q).

Definition block_current (core : nat) (q : RunQueue) : option RunQueue :=
  current ← current q core;
  let woken := match entry q current with
               | Some e => e_wake_pending e
               | None => false
               end in
  let q := update_entry (with_wake_pending false) current q in
  Some (if woken : bool then q else set_state current Blocked q).

Definition wake (id : TaskId) (q : RunQueue) : RunQueue * bool :=
  match entry q id with
  | Some e =>
      match e_state e with
      | Blocked => (set_state id Ready q, true)
      | Finished => (q, false)
      | _ => (update_entry (with_wake_pending true) id q, false)
      end
  | None => (q, false)
  end.

Definition interrupt (id : TaskId) (q : RunQueue) : RunQueue * bool :=
  match entry q id with
  | Some e =>
      match e_state e with
      | Sleeping _ | Waiting _ => (set_state id Ready q, true)
      | Running | Ready => (update_entry (with_interrupt_pending true) id q, false)
      | _ => (q, false)
      end
  | None => (q, false)
  end.

Definition finish_current (core : nat) (q : RunQueue) : option RunQueue :=
  current ← current q core;
  Some (set_state current Finished q).

(** [self.generations[index] += 1] on a [u64]. *)
Definition bump_generation (event : Event) (gs : list Generation) : list Generation :=
  let gs := if decide (length gs ≤ event) then resize (event + 1) 0%Z gs else gs in
  alter (λ g, wrap 64 (g + 1)) event gs.

Definition notify (event : Event) (q : RunQueue) : RunQueue * bool :=
  let q := with_generations (bump_generation event (rq_generations q)) q in
  let waiting e := bool_decide (e_state e = Waiting event) in
  (update_all (λ e, if waiting e then with_state Ready e else e) q,
   existsb (λ t, match t with Some e => waiting e | None => false end) (rq_tasks q)).

(** A sleeper whose time has come becomes ready. *)
Definition wake_sleeper (now_us : Z) (e : Entry) : Entry :=
  match e_state e with
  | Sleeping until_us => if decide (until_us ≤ now_us)%Z then with_state Ready e else e
  | _ => e
  end.

Definition tick (core : nat) (now_us : Z) (q : RunQueue) : option RunQueue :=
  current ← current q core;
  let q := update_entry (λ e, with_ticks (wrap 64 (e_ticks e + 1)) (wrap 64 (e_window_ticks e + 1))
                                (e_recent_ticks e) e) current q in
  let q :=
    if decide (core = 0) then
      let q := with_window_elapsed (wrap 64 (rq_window_elapsed q + 1)) q in
      if decide (rq_window_elapsed q = CPU_WINDOW) then
        update_all (λ e, with_ticks (e_ticks e) 0 (e_window_ticks e) e) (with_window_elapsed 0 q)
      else q
    else q in
  Some (update_all (wake_sleeper now_us) q).

(** The round-robin search of [pick_next]: the first ready task after [current]. *)
Definition next_ready (busy : TaskId → bool) (current : TaskId) (q : RunQueue) : option TaskId :=
  let count := length (rq_tasks q) in
  List.find (λ id, bool_decide (state q id = Some Ready) && negb (is_idle q id) && negb (busy id))
    (map (λ offset, (current + offset) mod count) (seq 1 count)).

Definition pick_next (core : nat) (preempt : bool) (busy : TaskId → bool) (q : RunQueue)
  : option (RunQueue * TaskId) :=
  current ← current q core;
  let current_runnable := bool_decide (state q current = Some Running) in
  let keep_current := current_runnable && negb (is_idle q current) in
  next ← (if keep_current && negb preempt then Some current
          else idle ← rq_idle q !! core;
               Some (match next_ready busy current q with
                     | Some id => id
                     | None => if keep_current then current else default current idle
                     end));
  let q := if bool_decide (next ≠ current) && current_runnable
           then set_state current Ready q else q in
  let q := with_current (<[core := Some next]> (rq_current q)) q in
  Some (set_state next Running q, next).

Definition finished (q : RunQueue) : list TaskId :=
  filter (λ id, core_of q id = None ∧ state q id = Some Finished) (seq 0 (length (rq_tasks q))).

Definition remove (id : TaskId) (q : RunQueue) : RunQueue :=
  with_tasks (<[id := None]> (rq_tasks q)) q.

Definition tasks (q : RunQueue) : list TaskInfo :=
  omap (λ '(i, t), e ← t; Some (mkTaskInfo i (e_name e) (e_state e) (core_of q i) (e_ticks e)
                                  (e_recent_ticks e)))
    (imap pair (rq_tasks q)).

(** ** Reading an entry back after an update *)

Lemma entry_update_entry f id q t :
  entry (update_entry f id q) t = if decide (id = t) then f <$> entry q t else entry q t.
Proof.
  unfold entry, update_entry; cbn. rewrite list_lookup_alter.
  destruct (decide (id = t)) as [->|]; [by destruct (rq_tasks q !! t) | done].
Qed.

Lemma entry_update_all f q t : entry (update_all f q) t = f <$> entry q t.
Proof. unfold entry, update_all; cbn. rewrite list_lookup_fmap. by destruct (rq_tasks q !! t). Qed.

Lemma entry_app e q t :
  entry (with_tasks (rq_tasks q ++ [Some e]) q) t =
  if decide (t = length (rq_tasks q)) then Some e else entry q t.
Proof.
  unfold entry; cbn. case_decide as H.
  - subst. by rewrite lookup_app_r, Nat.sub_diag.
  - destruct (decide (t < length (rq_tasks q))).
    + by rewrite lookup_app_l.
    + rewrite lookup_app_r, (lookup_ge_None_2 [_]), (lookup_ge_None_2 (rq_tasks q)); cbn; lia || done.
Qed.

Lemma entry_remove id q t :
  entry (remove id q) t = if decide (id = t) then None else entry q t.
Proof.
  unfold entry, remove; cbn. rewrite list_lookup_insert. repeat case_decide; subst; naive_solver
    (rewrite lookup_ge_None_2 by lia; done).
Qed.

Lemma entry_lt q t : is_Some (entry q t) → t < length (rq_tasks q).
Proof. intros [e He]. unfold entry in He. apply lookup_lt_is_Some. by destruct (rq_tasks q !! t). Qed.

Lemma state_Some q t s : state q t = Some s ↔ ∃ e, entry q t = Some e ∧ e_state e = s.
Proof. unfold state. rewrite fmap_Some. naive_solver. Qed.

Lemma current_insert core next cs q c :
  core < length cs →
  current (with_current (<[core := Some next]> cs) q) c =
  if decide (core = c) then Some next else mjoin (cs !! c).
Proof. intros. unfold current; cbn. rewrite list_lookup_insert. repeat case_decide; naive_solver. Qed.

Lemma current_lt q core t : current q core = Some t → core < length (rq_current q).
Proof.
  unfold current. intros H. apply lookup_lt_is_Some. by destruct (rq_current q !! core).
Qed.

(** The idle task of a core, if it has one. *)
Definition idle_of (q : RunQueue) (core : nat) : option TaskId := mjoin (rq_idle q !! core).

Lemma is_idle_spec q t : is_idle q t = true ↔ ∃ c, idle_of q c = Some t.
Proof.
  unfold is_idle, idle_of. rewrite bool_decide_eq_true, list_elem_of_lookup.
  split; intros [c Hc]; exists c; [by rewrite Hc|]. by destruct (rq_idle q !! c) as [[]|]; simplify_eq/=.
Qed.

(** ** The invariant

    What the queue guarantees its callers, on every core at once: the task a core runs
    exists and runs on no other core, a task marked running is on some core, and an idle
    task runs on its own core only. *)
Record Inv (q : RunQueue) : Prop := {
  inv_len : length (rq_idle q) = length (rq_current q);
  inv_current : ∀ c t, current q c = Some t → is_Some (entry q t);
  inv_exclusive : ∀ c1 c2 t, current q c1 = Some t → current q c2 = Some t → c1 = c2;
  inv_idle : ∀ c t, idle_of q c = Some t → ∃ s, state q t = Some s ∧ s ≠ Finished;
  inv_idle_inj : ∀ c1 c2 t, idle_of q c1 = Some t → idle_of q c2 = Some t → c1 = c2;
  inv_idle_home : ∀ c1 c2 t, idle_of q c1 = Some t → current q c2 = Some t → c1 = c2;
  inv_running : ∀ t, state q t = Some Running → ∃ c, current q c = Some t;
}.

(** Changing entries only keeps the invariant as long as no entry disappears, no task
    starts running and no idle task finishes. *)
Lemma Inv_entries q q' :
  rq_current q' = rq_current q → rq_idle q' = rq_idle q →
  (∀ t, is_Some (entry q t) → is_Some (entry q' t) ∨ ∀ c, current q c ≠ Some t) →
  (∀ t, state q' t = Some Running → state q t = Some Running) →
  (∀ c t s, idle_of q c = Some t → state q t = Some s → s ≠ Finished →
     ∃ s', state q' t = Some s' ∧ s' ≠ Finished) →
  Inv q → Inv q'.
Proof.
  intros Hcur Hidle Hsome Hrun Hfin [].
  assert (Hc : ∀ c, current q' c = current q c) by (intros; unfold current; by rewrite Hcur).
  assert (Hi : ∀ c, idle_of q' c = idle_of q c) by (intros; unfold idle_of; by rewrite Hidle).
  split; intros *; rewrite ?Hcur, ?Hidle, ?Hc, ?Hi; eauto.
  - intros Ht. destruct (Hsome t); eauto. exfalso. naive_solver.
  - intros Ht. destruct (inv_idle0 _ _ Ht) as (? & ? & ?). eauto.
  - intros Ht%Hrun%inv_running0. destruct Ht as [c ?]. exists c. by rewrite Hc.
Qed.

(** An entry update that starts no task and finishes none. *)
Definition quiet (f : Entry → Entry) : Prop :=
  ∀ e, e_state (f e) = e_state e ∨ (e_state (f e) ≠ Running ∧ e_state (f e) ≠ Finished).

Lemma quiet_with_state s : s ≠ Running → s ≠ Finished → quiet (with_state s).
Proof. intros ?? e. by right. Qed.

Lemma quiet_flags f : (∀ e, e_state (f e) = e_state e) → quiet f.
Proof. intros ? e. by left. Qed.

Lemma Inv_update_entry f id q : quiet f → Inv q → Inv (update_entry f id q).
Proof.
  intros Hf HI. apply (Inv_entries q); try done.
  - intros t [e He]. left. rewrite entry_update_entry, He. case_decide; eauto.
  - intros t. rewrite !state_Some. intros (e & He & Hs). rewrite entry_update_entry in He.
    case_decide; [|eauto]. apply fmap_Some in He as (e0 & He0 & ->). destruct (Hf e0) as [E|[]]; [|done].
    exists e0. by rewrite <-E.
  - intros c t s _ (e & He & <-)%state_Some Hs. unfold state. rewrite entry_update_entry, He.
    case_decide; cbn; [|eauto]. destruct (Hf e) as [E|[]]; [rewrite E|]; eauto.
Qed.

Lemma Inv_update_all f q : quiet f → Inv q → Inv (update_all f q).
Proof.
  intros Hf HI. apply (Inv_entries q); try done.
  - intros t [e He]. left. rewrite entry_update_all, He. eauto.
  - intros t. rewrite !state_Some. intros (e & He & Hs). rewrite entry_update_all in He.
    apply fmap_Some in He as (e0 & He0 & ->). destruct (Hf e0) as [E|[]]; [|done].
    exists e0. by rewrite <-E.
  - intros c t s _ (e & He & <-)%state_Some Hs. unfold state. rewrite entry_update_all, He.
    cbn. destruct (Hf e) as [E|[]]; [rewrite E|]; eauto.
Qed.

Lemma Inv_same q q' :
  rq_tasks q' = rq_tasks q → rq_current q' = rq_current q → rq_idle q' = rq_idle q →
  Inv q → Inv q'.
Proof.
  intros Ht Hc Hi. assert (He : ∀ t, entry q' t = entry q t) by (intros; unfold entry; by rewrite Ht).
  assert (Hs : ∀ t, state q' t = state q t) by (intros; unfold state; by rewrite He).
  apply Inv_entries; try done; intros *; rewrite ?He, ?Hs; naive_solver.
Qed.

(** ** Every operation keeps the invariant *)


Lemma add_id name q : (add name q).2 = length (rq_tasks q).
Proof. unfold add; cbn. rewrite length_app; cbn. lia. Qed.

Lemma entry_add name q t :
  entry (add name q).1 t =
  if decide (t = length (rq_tasks q)) then Some (new_entry name Ready) else entry q t.
Proof. apply entry_app. Qed.

Lemma entry_fresh q : entry q (length (rq_tasks q)) = None.
Proof. unfold entry. by rewrite lookup_ge_None_2. Qed.

Lemma Inv_fresh q c : Inv q →
  current q c ≠ Some (length (rq_tasks q)) ∧ idle_of q c ≠ Some (length (rq_tasks q)).
Proof.
  intros HI. split; intros H.
  - apply (inv_current q HI) in H. rewrite entry_fresh in H. by destruct H.
  - apply (inv_idle q HI) in H as (s & (e & He & _)%state_Some & _). by rewrite entry_fresh in He.
Qed.

Lemma Inv_add name q : Inv q → Inv (add name q).1.
Proof.
  intros HI. apply (Inv_entries q); try done.
  - intros t Ht. left. rewrite entry_add. case_decide; eauto.
  - intros t. unfold state. rewrite entry_add. case_decide; [by intros|done].
  - intros c t s Ht Hs ?. exists s. split; [|done]. unfold state. rewrite entry_add, decide_False; [done|].
    intros ->. by apply (Inv_fresh q c HI).
Qed.

Lemma idle_of_insert core id q c :
  core < length (rq_idle q) →
  idle_of (with_idle (<[core := Some id]> (rq_idle q)) q) c =
  if decide (core = c) then Some id else idle_of q c.
Proof. intros. unfold idle_of; cbn. rewrite list_lookup_insert. repeat case_decide; naive_solver. Qed.

Lemma Inv_add_idle name core q q' id :
  idle_of q core = None → add_idle name core q = Some (q', id) → Inv q →
  Inv q' ∧ id = length (rq_tasks q) ∧ rq_current q' = rq_current q ∧ idle_of q' core = Some id ∧
  is_Some (entry q' id).
Proof.
  unfold add_idle. pose proof (add_id name q) as Hid. pose proof (Inv_add name q) as HA.
  pose proof (entry_add name q) as He.
  assert (Hc : rq_current (add name q).1 = rq_current q) by done.
  assert (Hi : rq_idle (add name q).1 = rq_idle q) by done.
  destruct (add name q) as [q1 i]; cbn in *. subst i. intros Hnone Hsome HI.
  apply bind_Some in Hsome as (o & Ho & [= <- <-]). specialize (HA HI).
  assert (Hlt : core < length (rq_idle q1)) by (by eapply lookup_lt_Some).
  assert (Hfresh : ∀ c, idle_of q1 c ≠ Some (length (rq_tasks q))).
  { intros c. unfold idle_of. rewrite Hi. by apply (Inv_fresh q c HI). }
  split_and!; cbn; try done.
  - split.
    + cbn. rewrite length_insert. apply HA.
    + apply HA.
    + apply HA.
    + intros c t. rewrite idle_of_insert by done. case_decide; [|apply HA].
      intros [= <-]. exists Ready. split; [|done]. unfold state.
      change (entry _ ?t) with (entry q1 t). by rewrite He, decide_True.
    + intros c1 c2 t. rewrite !idle_of_insert by done. repeat case_decide; try naive_solver. apply HA.
    + intros c1 c2 t. rewrite !idle_of_insert by done. case_decide; [|apply HA].
      intros [= <-] Hcu. exfalso. unfold current in Hcu. cbn in Hcu. rewrite Hc in Hcu.
      by destruct (Inv_fresh q c2 HI).
    + apply HA.
  - rewrite idle_of_insert by done. by rewrite decide_True.
  - change (entry _ ?t) with (entry q1 t). rewrite He, decide_True; eauto.
Qed.

Lemma Inv_start_core name core q q' id :
  idle_of q core = None → start_core name core q = Some (q', id) → Inv q → Inv q'.
Proof.
  unfold start_core. intros Hnone H HI.
  apply bind_Some in H as ([t|] & Hcore & H); [done|].
  apply bind_Some in H as ([q1 id1] & Hadd & [= <- <-]).
  destruct (Inv_add_idle _ _ _ _ _ Hnone Hadd HI) as (HI1 & -> & Hcur & Hidle & Hent).
  set (id := length (rq_tasks q)) in *.
  assert (Hlt : core < length (rq_current q1)).
  { rewrite Hcur. by eapply lookup_lt_Some. }
  assert (Hfresh : ∀ c, current q1 c ≠ Some id).
  { intros c. unfold current. rewrite Hcur. by apply (Inv_fresh q c HI). }
  assert (Hcurr : ∀ c, mjoin (rq_current q1 !! c) = current q1 c) by done.
  assert (Hst : ∀ t, entry (with_current (<[core:=Some id]> (rq_current q1)) (set_state id Running q1)) t
                = if decide (id = t) then with_state Running <$> entry q1 t else entry q1 t).
  { intros t. rewrite <-entry_update_entry. done. }
  change (rq_current (set_state id Running q1)) with (rq_current q1). split.
  - cbn. rewrite length_insert. apply HI1.
  - intros c t. rewrite current_insert by done. rewrite Hst, Hcurr.
    case_decide; [intros [= <-]|intros Ht%(inv_current q1 HI1)].
    + rewrite decide_True by done. by apply fmap_is_Some.
    + case_decide; by rewrite ?fmap_is_Some.
  - intros c1 c2 t. rewrite !current_insert, !Hcurr by done. repeat case_decide; try naive_solver. apply HI1.
  - intros c t Ht. destruct (inv_idle q1 HI1 c t Ht) as (s & (e & He & <-)%state_Some & Hs).
    unfold state. rewrite Hst, He. case_decide; cbn; eauto.
  - apply HI1.
  - intros c1 c2 t Ht. rewrite current_insert, Hcurr by done. case_decide; [|by apply (inv_idle_home q1 HI1 c1)].
    intros [= <-]. subst. by eapply (inv_idle_inj q1 HI1).
  - intros t. rewrite state_Some. intros (e & He & Hs). rewrite Hst in He.
    destruct (decide (id = t)) as [<-|].
    + exists core. by rewrite current_insert, decide_True by done.
    + destruct (inv_running q1 HI1 t) as [c Hc]; [by apply state_Some; eauto|].
      exists c. rewrite current_insert, Hcurr, decide_False; try done.
      intros ->. unfold current in Hc. rewrite Hcur, Hcore in Hc. done.
Qed.

(** What [pick_next] can choose: the task already there, a ready task that is no idle task
    and that [busy] lets through, or the core's own idle task. *)
Definition choice (core : nat) (busy : TaskId → bool) (q : RunQueue) (cur next : TaskId) : Prop :=
  next = cur ∨ (state q next = Some Ready ∧ is_idle q next = false ∧ busy next = false) ∨
  idle_of q core = Some next.

Lemma next_ready_Some busy cur q next :
  next_ready busy cur q = Some next →
  state q next = Some Ready ∧ is_idle q next = false ∧ busy next = false.
Proof.
  unfold next_ready. intros [_ H]%List.find_some.
  apply andb_prop in H as [[H1 H2]%andb_prop H3]. apply bool_decide_eq_true in H1.
  apply negb_true_iff in H2, H3. done.
Qed.

Definition after_pick (core : nat) (cur next : TaskId) (q : RunQueue) : RunQueue :=
  let q := if bool_decide (next ≠ cur) && bool_decide (state q cur = Some Running)
           then set_state cur Ready q else q in
  set_state next Running (with_current (<[core := Some next]> (rq_current q)) q).

Lemma pick_next_Some core preempt busy q q' next :
  pick_next core preempt busy q = Some (q', next) →
  ∃ cur, current q core = Some cur ∧ choice core busy q cur next ∧ q' = after_pick core cur next q.
Proof.
  unfold pick_next. intros (cur & Hcur & H)%bind_Some. exists cur. split; [done|].
  apply bind_Some in H as (nx & Hnx & [= <- <-]). split; [|done].
  unfold choice. destruct (_ && negb preempt); [left; congruence|].
  apply bind_Some in Hnx as (idle & Hidle & [= <-]).
  destruct (next_ready busy cur q) eqn:Hr; [right; left; by apply next_ready_Some in Hr|].
  destruct (_ && _); [by left|]. unfold idle_of. rewrite Hidle. destruct idle; cbn; auto.
Qed.

Lemma after_pick_current core cur next q c :
  core < length (rq_current q) →
  current (after_pick core cur next q) c = if decide (core = c) then Some next else current q c.
Proof.
  intros Hlt. unfold after_pick. destruct (_ && _); cbn -[current]; by apply current_insert.
Qed.

Lemma after_pick_entry core cur next q t :
  entry (after_pick core cur next q) t =
  if decide (next = t) then with_state Running <$> entry q t
  else if decide (cur = t ∧ state q cur = Some Running) then with_state Ready <$> entry q t
  else entry q t.
Proof.
  unfold after_pick, set_state. rewrite entry_update_entry.
  set (q1 := if _ && _ then _ else _).
  assert (Hq1 : entry q1 t = if decide (next ≠ cur ∧ cur = t ∧ state q cur = Some Running)
                             then with_state Ready <$> entry q t else entry q t).
  { subst q1. destruct (bool_decide_reflect (next ≠ cur)); cbn.
    - destruct (bool_decide_reflect (state q cur = Some Running)); cbn.
      + rewrite entry_update_entry. repeat case_decide; naive_solver.
      + rewrite decide_False; naive_solver.
    - rewrite decide_False; naive_solver. }
  change (entry (with_current _ q1) t) with (entry q1 t). rewrite Hq1.
  destruct (decide (next = t)) as [->|].
  - case_decide; [naive_solver|done].
  - destruct (decide (cur = t ∧ state q cur = Some Running)).
    + rewrite decide_True; naive_solver.
    + rewrite decide_False; naive_solver.
Qed.

(** The caller must not let a core take a task another core still runs: if such a task is
    ready again already, [busy] has to say so. *)
Definition covers (core : nat) (busy : TaskId → bool) (q : RunQueue) : Prop :=
  ∀ c t, c ≠ core → current q c = Some t → state q t = Some Ready → busy t = true.

Lemma Inv_pick_next core preempt busy q q' next :
  covers core busy q → pick_next core preempt busy q = Some (q', next) → Inv q → Inv q'.
Proof.
  intros Hcov (cur & Hcur & Hch & ->)%pick_next_Some HI.
  pose proof (current_lt _ _ _ Hcur) as Hlt.
  assert (Hex : is_Some (entry q next)).
  { destruct Hch as [->|[(Hs & _)|Hi]].
    - by eapply (inv_current q HI).
    - apply state_Some in Hs as (e & -> & _). eauto.
    - apply (inv_idle q HI) in Hi as (s & (e & -> & _)%state_Some & _). eauto. }
  assert (Hother : ∀ c, current q c = Some next → core = c).
  { intros c Hc. destruct Hch as [->|[(Hs & _ & Hb)|Hi]].
    - by eapply (inv_exclusive q HI).
    - destruct (decide (c = core)) as [->|Hne]; [done|]. by rewrite (Hcov c next) in Hb.
    - by eapply (inv_idle_home q HI). }
  assert (Hidle : ∀ c, idle_of (after_pick core cur next q) c = idle_of q c).
  { intros c. unfold after_pick. by destruct (_ && _). }
  split.
  - replace (rq_idle _) with (rq_idle q) by (unfold after_pick; by destruct (_ && _)).
    replace (length (rq_current _)) with (length (rq_current q)); [apply HI|].
    unfold after_pick. destruct (_ && _); cbn; by rewrite length_insert.
  - intros c t. rewrite after_pick_current, after_pick_entry by done.
    intros Ht. assert (is_Some (entry q t)) as [e ->]; [|repeat case_decide; eauto].
    case_decide; [naive_solver|by eapply (inv_current q HI)].
  - intros c1 c2 t. rewrite !after_pick_current by done.
    repeat case_decide; try naive_solver. apply HI.
  - intros c t. rewrite Hidle. intros (s & (e & He & <-)%state_Some & Hs)%(inv_idle q HI).
    unfold state. rewrite after_pick_entry, He. repeat case_decide; cbn; eauto.
  - intros c1 c2 t. rewrite !Hidle. apply HI.
  - intros c1 c2 t. rewrite Hidle, after_pick_current by done. intros Hi.
    case_decide as Hc; [|by apply (inv_idle_home q HI)]. intros [= <-]. subst c2.
    destruct Hch as [->|[(_ & Hn & _)|Hi']].
    + by eapply (inv_idle_home q HI).
    + assert (is_idle q next = true) by (apply is_idle_spec; eauto). congruence.
    + by eapply (inv_idle_inj q HI).
  - intros t. rewrite state_Some. intros (e & He & Hs). rewrite after_pick_entry in He.
    destruct (decide (next = t)) as [<-|Hne].
    + exists core. by rewrite after_pick_current, decide_True by done.
    + case_decide as Hcr; [apply fmap_Some in He as (e0 & _ & ->); done|].
      destruct (inv_running q HI t) as [c Hc]; [apply state_Some; eauto|].
      exists c. rewrite after_pick_current, decide_False; [done| |done].
      intros ->. apply Hcr. assert (cur = t) as -> by congruence. split; [done|apply state_Some; eauto].
Qed.

Lemma current_update_entry f id q c : current (update_entry f id q) c = current q c.
Proof. done. Qed.

Lemma take_interrupt_Some core q q' cur b :
  take_interrupt core q = Some (q', cur, b) →
  current q core = Some cur ∧ q' = update_entry (with_interrupt_pending false) cur q.
Proof. unfold take_interrupt. intros (c & Hc & [= <- <- _])%bind_Some. done. Qed.

Create HintDb sched.
#[export] Hint Resolve Inv_update_entry Inv_update_all quiet_with_state quiet_flags Inv_add : sched.

Lemma Inv_set_state id st q : st ≠ Running → st ≠ Finished → Inv q → Inv (set_state id st q).
Proof. unfold set_state. auto with sched. Qed.
#[export] Hint Resolve Inv_set_state : sched.
#[export] Hint Extern 1 (_ ≠ _) => discriminate : sched.

Lemma Inv_sleep_current core u q q' : sleep_current core u q = Some q' → Inv q → Inv q'.
Proof.
  unfold sleep_current. intros ([[q1 cur] b] & [_ ->]%take_interrupt_Some & [= <-])%bind_Some ?.
  destruct b; eauto with sched.
Qed.

Lemma Inv_wait_current core ev seen q q' : wait_current core ev seen q = Some q' → Inv q → Inv q'.
Proof.
  unfold wait_current. intros ([[q1 cur] b] & [_ ->]%take_interrupt_Some & [= <-])%bind_Some ?.
  destruct (_ && _); eauto with sched.
Qed.

Lemma Inv_block_current core q q' : block_current core q = Some q' → Inv q → Inv q'.
Proof.
  unfold block_current. intros (cur & _ & [= <-])%bind_Some ?.
  destruct (entry q cur) as [e|]; [destruct (e_wake_pending e)|]; eauto with sched.
Qed.

Lemma Inv_wake id q : Inv q → Inv (wake id q).1.
Proof.
  intros. unfold wake. destruct (entry q id) as [e|]; [destruct (e_state e)|]; cbn; eauto with sched.
Qed.

Lemma Inv_interrupt id q : Inv q → Inv (interrupt id q).1.
Proof.
  intros. unfold interrupt. destruct (entry q id) as [e|]; [destruct (e_state e)|]; cbn; eauto with sched.
Qed.

Lemma Inv_notify ev q : Inv q → Inv (notify ev q).1.
Proof.
  intros. apply Inv_update_all.
  - intros e. case_bool_decide; [by right|by left].
  - by apply (Inv_same q).
Qed.

Lemma quiet_wake_sleeper now : quiet (wake_sleeper now).
Proof. intros e. unfold wake_sleeper. destruct (e_state e) eqn:?; auto. case_decide; auto. Qed.

Lemma Inv_tick core now q q' : tick core now q = Some q' → Inv q → Inv q'.
Proof.
  unfold tick. intros (cur & _ & [= <-])%bind_Some HI.
  apply Inv_update_all; [apply quiet_wake_sleeper|].
  set (q1 := update_entry _ _ _). assert (HI1 : Inv q1) by (apply Inv_update_entry; auto with sched).
  assert (HIw : ∀ w, Inv (with_window_elapsed w q1)) by (intros; by apply (Inv_same q1)).
  repeat case_decide; [|apply HIw|done]. apply Inv_update_all; [auto with sched|]. by apply (Inv_same q1).
Qed.

Lemma Inv_finish_current core q q' :
  (∀ cur, current q core = Some cur → is_idle q cur = false) →
  finish_current core q = Some q' → Inv q → Inv q'.
Proof.
  unfold finish_current. intros Hidle (cur & Hcur & [= <-])%bind_Some HI.
  specialize (Hidle cur Hcur). apply (Inv_entries q); try done.
  - intros t [e He]. left. unfold set_state. rewrite entry_update_entry, He. case_decide; eauto.
  - intros t. rewrite !state_Some. intros (e & He & Hs). unfold set_state in He.
    rewrite entry_update_entry in He. case_decide; [|eauto]. by apply fmap_Some in He as (? & ? & ->).
  - intros c t s Ht (e & He & <-)%state_Some Hs. exists (e_state e). split; [|done].
    unfold state, set_state. rewrite entry_update_entry, decide_False, He; [done|].
    intros ->. assert (is_idle q t = true) by (apply is_idle_spec; eauto). congruence.
Qed.

Lemma core_of_None q t : core_of q t = None ↔ ∀ c, current q c ≠ Some t.
Proof.
  unfold core_of, current. rewrite fmap_None, list_find_None, Forall_lookup. split.
  - intros H c Hc. destruct (rq_current q !! c) as [o|] eqn:E; [|done]. by apply (H c o).
  - intros H c o Hc ->. apply (H c). by rewrite Hc.
Qed.

Lemma elem_of_finished q t :
  t ∈ finished q → (∀ c, current q c ≠ Some t) ∧ state q t = Some Finished.
Proof. unfold finished. rewrite list_elem_of_filter, core_of_None. naive_solver. Qed.

Lemma Inv_remove id q : id ∈ finished q → Inv q → Inv (remove id q).
Proof.
  intros [Hc Hf]%elem_of_finished HI. apply (Inv_entries q); try done.
  - intros t Ht. rewrite entry_remove. case_decide; subst; eauto.
  - intros t. unfold state. rewrite entry_remove. by case_decide.
  - intros c t s Ht Hs ?. exists s. unfold state. rewrite entry_remove, decide_False; [done|].
    intros ->. congruence.
Qed.

(** ** Operations in sequence

    The calls the kernel makes on the queue, each one critical section of the scheduler's
    lock, on whichever core.  [allowed] is what the caller owes: a core gets one idle task
    and that task never ends, only finished tasks are forgotten, and [pick_next] is not let
    loose on a task another core still runs. *)
Inductive Op :=
| OAdd (name : string)
| OAddIdle (name : string) (core : nat)
| OStartCore (name : string) (core : nat)
| OSleep (core : nat) (until_us : Z)
| OWait (core : nat) (event : Event) (seen : Generation)
| OBlock (core : nat)
| OFinish (core : nat)
| OWake (id : TaskId)
| OInterrupt (id : TaskId)
| ONotify (event : Event)
| OTick (core : nat) (now_us : Z)
| OPick (core : nat) (preempt : bool) (busy : TaskId → bool)
| ORemove (id : TaskId).

Definition exec (o : Op) (q : RunQueue) : option RunQueue :=
  match o with
  | OAdd name => Some (add name q).1
  | OAddIdle name core => fst <$> add_idle name core q
  | OStartCore name core => fst <$> start_core name core q
  | OSleep core until_us => sleep_current core until_us q
  | OWait core event seen => wait_current core event seen q
  | OBlock core => block_current core q
  | OFinish core => finish_current core q
  | OWake id => Some (wake id q).1
  | OInterrupt id => Some (interrupt id q).1
  | ONotify event => Some (notify event q).1
  | OTick core now_us => tick core now_us q
  | OPick core preempt busy => fst <$> pick_next core preempt busy q
  | ORemove id => Some (remove id q)
  end.

Definition allowed (o : Op) (q : RunQueue) : Prop :=
  match o with
  | OAddIdle _ core | OStartCore _ core => idle_of q core = None
  | OFinish core => ∀ cur, current q core = Some cur → is_idle q cur = false
  | OPick core _ busy => covers core busy q
  | ORemove id => id ∈ finished q
  | _ => True
  end.

Inductive steps : RunQueue → list Op → RunQueue → Prop :=
| steps_nil q : steps q [] q
| steps_cons q o q1 os q2 :
    allowed o q → exec o q = Some q1 → steps q1 os q2 → steps q (o :: os) q2.

Lemma Inv_exec o q q' : allowed o q → exec o q = Some q' → Inv q → Inv q'.
Proof.
  destruct o; unfold exec, allowed; intros Ha He HI;
    try (apply fmap_Some in He as ([q1 i] & He & ->)); try (injection He as <-);
    eauto using Inv_add, Inv_start_core, Inv_sleep_current, Inv_wait_current, Inv_block_current,
      Inv_finish_current, Inv_wake, Inv_interrupt, Inv_notify, Inv_tick, Inv_pick_next, Inv_remove.
  - by apply (Inv_add name q).
  - by apply (Inv_add_idle name core q q1 i).
  - by apply (Inv_notify event q).
Qed.

Lemma Inv_steps q os q' : steps q os q' → Inv q → Inv q'.
Proof. induction 1; eauto using Inv_exec. Qed.

Lemma Inv_new name cores q : new name cores = Some q → Inv q.
Proof.
  unfold new. case_decide as Hc; [|done]. intros [= <-].
  assert (Hcur : ∀ c t, current (mkRunQueue [Some (new_entry name Running)]
    (<[0:=Some 0]> (replicate cores None)) (replicate cores None) [] 0) c = Some t → c = 0 ∧ t = 0).
  { intros c t. unfold current; cbn. destruct (decide (c = 0)) as [->|].
    - rewrite list_lookup_insert_eq by (by rewrite length_replicate). naive_solver.
    - rewrite list_lookup_insert_ne by done. intros H. exfalso.
      destruct (replicate cores None !! c) as [o|] eqn:E; [|done].
      apply lookup_replicate in E as [-> _]. done. }
  assert (Hidle : ∀ c t, idle_of (mkRunQueue [Some (new_entry name Running)]
    (<[0:=Some 0]> (replicate cores None)) (replicate cores None) [] 0) c ≠ Some t).
  { intros c t. unfold idle_of; cbn. destruct (replicate cores None !! c) as [o|] eqn:E; [|done].
    apply lookup_replicate in E as [-> _]. done. }
  split.
  - cbn. by rewrite length_insert, !length_replicate.
  - intros c t [-> ->]%Hcur. cbn. eauto.
  - intros c1 c2 t [-> ->]%Hcur [-> _]%Hcur. done.
  - intros c t H. by apply Hidle in H.
  - intros c1 c2 t H. by apply Hidle in H.
  - intros c1 c2 t H. by apply Hidle in H.
  - intros [|t]; cbn; [|done]. intros _. exists 0. unfold current; cbn.
    by rewrite list_lookup_insert_eq by (by rewrite length_replicate).
Qed.

(** ** Round robin *)

Lemma next_ready_first busy cur q t :
  cur < length (rq_tasks q) → state q t = Some Ready → is_idle q t = false → busy t = false →
  ∀ o, 1 ≤ o ≤ length (rq_tasks q) → (cur + o) mod length (rq_tasks q) = t →
  ∃ o' next, next_ready busy cur q = Some next ∧ 1 ≤ o' ≤ o ∧
    (cur + o') mod length (rq_tasks q) = next.
Proof.
  intros Hcur Hs Hi Hb o Ho Ht. unfold next_ready.
  set (p := λ id, _ && _ && _). set (f := λ offset, (cur + offset) `mod` _).
  assert (Hp : p (f o) = true).
  { subst p f; cbn. rewrite Ht. by rewrite bool_decide_true, Hi, Hb. }
  destruct (List.find p (map f (seq 1 _))) as [x|] eqn:E.
  - apply find_map_seq_Some in E as (i & Hi' & -> & _ & Hmin). exists i, (f i). split_and!; try done; [lia|].
    destruct (decide (i ≤ o)); [done|]. rewrite (Hmin o) in Hp; [done|lia].
  - rewrite (find_map_seq_None _ _ _ _ E) in Hp; [done|lia].
Qed.

Lemma next_ready_None busy cur q t :
  cur < length (rq_tasks q) → next_ready busy cur q = None →
  state q t = Some Ready → is_idle q t = false → busy t = true.
Proof.
  intros Hc Hn Hs Hi. destruct (busy t) eqn:Hb; [done|]. exfalso.
  assert (t < length (rq_tasks q)) as Ht by (apply entry_lt; apply state_Some in Hs as (? & -> & _); eauto).
  destruct (offset_exists _ _ _ Hc Ht) as (d & Hd & Hdt).
  destruct (next_ready_first busy cur q t Hc Hs Hi Hb d Hd Hdt) as (o & x & Hx & _). congruence.
Qed.



Lemma pick_next_preempt core busy q cur next :
  current q core = Some cur → core < length (rq_idle q) → next_ready busy cur q = Some next →
  pick_next core true busy q = Some (after_pick core cur next q, next).
Proof.
  intros Hcur Hi Hn. unfold pick_next. rewrite Hcur; cbn. rewrite andb_false_r.
  destruct (lookup_lt_is_Some_2 _ _ Hi) as [idle ->]; cbn. by rewrite Hn.
Qed.























(** ** Wake-ups that come early *)

Definition wake_kept (q : RunQueue) (t : TaskId) : Prop :=
  ∃ e, entry q t = Some e ∧ e_wake_pending e = true.

Lemma wake_kept_update_entry f id q t :
  (∀ e, e_wake_pending e = true → e_wake_pending (f e) = true) ∨ id ≠ t →
  wake_kept q t → wake_kept (update_entry f id q) t.
Proof.
  intros Hf (e & He & Hw). unfold wake_kept. rewrite entry_update_entry, He.
  case_decide; cbn; [|eauto]. destruct Hf; [eauto|done].
Qed.

Lemma wake_kept_update_all f q t :
  (∀ e, e_wake_pending (f e) = e_wake_pending e) → wake_kept q t → wake_kept (update_all f q) t.
Proof.
  intros Hf (e & He & Hw). unfold wake_kept. rewrite entry_update_all, He; cbn.
  exists (f e). by rewrite Hf.
Qed.

Lemma wake_kept_same q q' t : rq_tasks q' = rq_tasks q → wake_kept q t → wake_kept q' t.
Proof. unfold wake_kept, entry. by intros ->. Qed.

Lemma wake_kept_add name q t : wake_kept q t → wake_kept (add name q).1 t.
Proof.
  intros (e & He & Hw). exists e. rewrite entry_add, decide_False; [done|].
  intros ->. by rewrite entry_fresh in He.
Qed.

#[export] Hint Resolve wake_kept_update_entry wake_kept_update_all wake_kept_add : sched.

Lemma wake_kept_set_state id st q t : wake_kept q t → wake_kept (set_state id st q) t.
Proof. unfold set_state. auto with sched. Qed.

Lemma wake_kept_after_pick core cur next q t : wake_kept q t → wake_kept (after_pick core cur next q) t.
Proof.
  intros H. unfold after_pick. apply wake_kept_set_state.
  destruct (_ && _); eapply wake_kept_same; try done. by apply wake_kept_set_state.
Qed.

Lemma wake_kept_add_idle name core q q' id t :
  add_idle name core q = Some (q', id) → wake_kept q t → wake_kept q' t.
Proof.
  unfold add_idle. pose proof (wake_kept_add name q t). destruct (add name q) as [q1 i]; cbn in *.
  intros (o & _ & [= <- <-])%bind_Some ?. apply (wake_kept_same q1); auto.
Qed.

Lemma wake_kept_block core q q' t :
  block_current core q = Some q' → wake_kept q t →
  wake_kept q' t ∨ current q core = Some t ∧ state q' t = state q t.
Proof.
  unfold block_current. intros (cur & Hcur & [= <-])%bind_Some Hk.
  destruct (decide (cur = t)) as [->|Hne].
  - right. split; [done|]. destruct Hk as (e & He & Hw). rewrite He, Hw.
    unfold state. by rewrite entry_update_entry, He, decide_True.
  - left. assert (wake_kept (update_entry (with_wake_pending false) cur q) t) by auto with sched.
    destruct (entry q cur) as [e|]; [destruct (e_wake_pending e)|]; auto using wake_kept_set_state.
Qed.

Lemma wake_kept_tick core now q q' t : tick core now q = Some q' → wake_kept q t → wake_kept q' t.
Proof.
  unfold tick. intros (cur & _ & [= <-])%bind_Some Hk.
  apply wake_kept_update_all.
  { intros e. unfold wake_sleeper. destruct (e_state e); try done. by case_decide. }
  set (q1 := update_entry _ _ _). assert (H1 : wake_kept q1 t) by (apply wake_kept_update_entry; auto).
  assert (Hw : ∀ w, wake_kept (with_window_elapsed w q1) t) by (intros; by apply (wake_kept_same q1)).
  repeat case_decide; [|apply Hw|done]. apply wake_kept_update_all; [done|]. by apply (wake_kept_same q1).
Qed.

Lemma wake_kept_exec o q q' t :
  exec o q = Some q' → wake_kept q t →
  wake_kept q' t ∨ (∃ c, o = OBlock c ∧ current q c = Some t ∧ state q' t = state q t) ∨ o = ORemove t.
Proof.
  destruct o; unfold exec; intros He Hk;
    try (apply fmap_Some in He as ([q1 i] & He & ->)); try (injection He as <-).
  - left. by apply (wake_kept_add name q).
  - left. by eapply wake_kept_add_idle.
  - left. unfold start_core in He. apply bind_Some in He as ([c|] & _ & He); [done|].
    apply bind_Some in He as ([q2 i2] & Ha & [= <- <-]).
    eapply wake_kept_same; [reflexivity|]. by eapply wake_kept_set_state, wake_kept_add_idle.
  - left. unfold sleep_current in He.
    apply bind_Some in He as ([[q1 cur] b] & [_ ->]%take_interrupt_Some & [= <-]).
    destruct b; auto using wake_kept_set_state with sched.
  - left. unfold wait_current in He.
    apply bind_Some in He as ([[q1 cur] b] & [_ ->]%take_interrupt_Some & [= <-]).
    destruct (_ && _); auto using wake_kept_set_state with sched.
  - destruct (wake_kept_block _ _ _ _ He Hk) as [|[??]]; eauto 6.
  - left. unfold finish_current in He. apply bind_Some in He as (cur & _ & [= <-]).
    by apply wake_kept_set_state.
  - left. unfold wake. destruct (entry q id) as [e|]; [destruct (e_state e)|]; cbn;
      auto using wake_kept_set_state with sched.
  - left. unfold interrupt. destruct (entry q id) as [e|]; [destruct (e_state e)|]; cbn;
      auto using wake_kept_set_state with sched.
  - left. apply wake_kept_update_all; [intros e; by case_bool_decide|]. by apply (wake_kept_same q).
  - left. by eapply wake_kept_tick.
  - left. apply pick_next_Some in He as (cur & _ & _ & ->). by apply wake_kept_after_pick.
  - destruct (decide (id = t)) as [->|]; [by eauto|]. left. destruct Hk as (e & He & Hw).
    exists e. by rewrite entry_remove, decide_False.
Qed.

(** ** Counting notifications *)

Fixpoint notifies (event : Event) (os : list Op) : nat :=
  match os with
  | [] => 0
  | ONotify e :: os => if decide (e = event) then S (notifies event os) else notifies event os
  | _ :: os => notifies event os
  end.

Lemma bump_generation_spec ev gs j :
  default 0%Z (bump_generation ev gs !! j) =
  if decide (ev = j) then wrap 64 (default 0%Z (gs !! ev) + 1) else default 0%Z (gs !! j).
Proof.
  unfold bump_generation. rewrite list_lookup_alter.
  assert (Hd : ∀ i, default 0%Z (resize (ev + 1) 0%Z gs !! i) = default 0%Z (gs !! i) ∨ i > ev).
  { intros i. destruct (decide (i < ev + 1)); [|right; lia]. left.
    destruct (decide (i < length gs)).
    - by rewrite lookup_resize by lia.
    - rewrite lookup_resize_new, lookup_ge_None_2 by lia. done. }
  destruct (decide (length gs ≤ ev)) as [Hle|Hgt].
  - destruct (decide (ev = j)) as [<-|Hne].
    + rewrite lookup_resize_new, (lookup_ge_None_2 gs) by lia. done.
    + destruct (Hd j) as [->|]; [done|]. rewrite lookup_resize_old, (lookup_ge_None_2 gs) by lia. done.
  - destruct (decide (ev = j)) as [<-|Hne]; [|done].
    destruct (lookup_lt_is_Some_2 gs ev) as [g ->]; [lia|]. done.
Qed.

Lemma generations_add_idle name core q q' id :
  add_idle name core q = Some (q', id) → rq_generations q' = rq_generations q.
Proof.
  unfold add_idle. assert (rq_generations (add name q).1 = rq_generations q) by done.
  destruct (add name q) as [q1 i]; cbn in *. by intros (o & _ & [= <- <-])%bind_Some.
Qed.

Lemma generation_exec o q q' ev :
  exec o q = Some q' →
  generation ev q' = match o with
                     | ONotify e => if decide (e = ev) then wrap 64 (generation ev q + 1) else generation ev q
                     | _ => generation ev q
                     end.
Proof.
  assert (Hsame : ∀ q2, rq_generations q2 = rq_generations q → generation ev q2 = generation ev q).
  { unfold generation. by intros q2 ->. }
  destruct o; unfold exec; intros He;
    try (apply fmap_Some in He as ([q1 i] & He & ->)); try (injection He as <-); try by apply Hsame.
  - eapply Hsame, generations_add_idle; eauto.
  - apply Hsame. unfold start_core in He. apply bind_Some in He as ([c|] & _ & He); [done|].
    apply bind_Some in He as ([q2 i2] & Ha & [= <- <-]). by apply generations_add_idle in Ha.
  - apply Hsame. unfold sleep_current in He.
    apply bind_Some in He as ([[q1 cur] b] & [_ ->]%take_interrupt_Some & [= <-]). by destruct b.
  - apply Hsame. unfold wait_current in He.
    apply bind_Some in He as ([[q1 cur] b] & [_ ->]%take_interrupt_Some & [= <-]). by destruct (_ && _).
  - apply Hsame. unfold block_current in He. apply bind_Some in He as (cur & _ & [= <-]).
    destruct (entry q cur) as [e|]; [destruct (e_wake_pending e)|]; done.
  - apply Hsame. unfold finish_current in He. by apply bind_Some in He as (cur & _ & [= <-]).
  - apply Hsame. unfold wake. destruct (entry q id) as [e|]; [destruct (e_state e)|]; done.
  - apply Hsame. unfold interrupt. destruct (entry q id) as [e|]; [destruct (e_state e)|]; done.
  - unfold generation; cbn -[bump_generation]. rewrite bump_generation_spec. by case_decide; subst.
  - apply Hsame. unfold tick in He. apply bind_Some in He as (cur & _ & [= <-]). by repeat case_decide.
  - apply Hsame. apply pick_next_Some in He as (cur & _ & _ & ->). unfold after_pick. by destruct (_ && _).
Qed.

Lemma generation_steps q os q' ev :
  steps q os q' → uint 64 (generation ev q) →
  generation ev q' = wrap 64 (generation ev q + Z.of_nat (notifies ev os)).
Proof.
  induction 1 as [q|q o q1 os q2 Ha He Hs IH]; intros Hu.
  - cbn. by rewrite Z.add_0_r, wrap_small.
  - pose proof (generation_exec _ _ _ ev He) as Hg.
    destruct o; cbn [notifies]; try (rewrite <-Hg; apply IH; congruence).
    destruct (decide (event = ev)) as [->|]; [|rewrite <-Hg; apply IH; congruence].
    rewrite IH, Hg by (rewrite Hg; apply wrap_uint; lia).
    unfold wrap. rewrite Zplus_mod_idemp_l. f_equal. lia.
Qed.

Lemma core_of_current q c t : Inv q → current q c = Some t → core_of q t = Some c.
Proof.
  intros HI Hc. destruct (core_of q t) as [c'|] eqn:E.
  - f_equal. apply (inv_exclusive q HI _ _ t); [|done]. unfold core_of in E.
    apply fmap_Some in E as ([i x] & (Hi & -> & _)%list_find_Some & ->). unfold current; cbn. by rewrite Hi.
  - apply core_of_None with (c := c) in E. done.
Qed.

(** [allowed], decided, and a checked run of a list of operations. *)
Definition allowedb (o : Op) (q : RunQueue) : bool :=
  match o with
  | OAddIdle _ core | OStartCore _ core => bool_decide (idle_of q core = None)
  | OFinish core => match current q core with Some cur => negb (is_idle q cur) | None => true end
  | OPick core _ busy =>
      forallb (λ c, match current q c with
                    | Some t => bool_decide (c = core) || negb (bool_decide (state q t = Some Ready)) || busy t
                    | None => true
                    end) (seq 0 (length (rq_current q)))
  | ORemove id => bool_decide (id ∈ finished q)
  | _ => true
  end.

Fixpoint run (os : list Op) (q : RunQueue) : option RunQueue :=
  match os with
  | [] => Some q
  | o :: os => if allowedb o q then q ← exec o q; run os q else None
  end.

Lemma allowedb_sound o q : allowedb o q = true → allowed o q.
Proof.
  destruct o; cbn; try done; intros H; try by apply bool_decide_eq_true in H.
  - intros cur Hc. rewrite Hc in H. by apply negb_true_iff.
  - intros c t Hne Hc Hs. rewrite forallb_forall in H.
    specialize (H c). rewrite Hc, (bool_decide_false (c = core)), (bool_decide_true (state q t = _)) in H by done.
    apply H, in_seq. pose proof (current_lt _ _ _ Hc). lia.
Qed.

Lemma run_steps os : ∀ q q', run os q = Some q' → steps q os q'.
Proof.
  induction os as [|o os IH]; cbn; intros q q' H; [simplify_eq; constructor|].
  destruct (allowedb o q) eqn:Ha; [|done]. apply bind_Some in H as (q1 & He & H).
  econstructor; eauto using allowedb_sound.
Qed.

(** * Theorems *)

(** C1: whatever the kernel does to the queue, in any order and on any cores, as long as it
    keeps its side ([allowed]): the task a core runs exists and [core_of] finds that core and
    no other for it, so two cores never run the same task; and a task marked running is on
    some core. *)
Theorem cores_never_share_a_task name cores q0 os q :
  new name cores = Some q0 → steps q0 os q →
  (∀ c t, current q c = Some t → core_of q t = Some c ∧ is_Some (state q t)) ∧
  (∀ t, state q t = Some Running → ∃ c, current q c = Some t ∧ core_of q t = Some c).
Proof.
  intros Hnew Hs. assert (HI : Inv q) by eauto using Inv_steps, Inv_new. split.
  - intros c t Hc. split; [by apply core_of_current|].
    unfold state. rewrite fmap_is_Some. by eapply inv_current.
  - intros t [c Hc]%(inv_running q HI). eauto using core_of_current.
Qed.

(** Two cores, a task asleep on each side of a switch. *)
Definition demo_ops : list Op :=
  [OAddIdle "idle0" 0; OStartCore "idle1" 1; OAdd "a"; OPick 1 false (λ _, false); OBlock 0;
   OPick 0 true (λ _, false); OWake 0; OTick 0 5; OPick 0 true (λ _, false)].

Lemma cores_never_share_a_task_witness :
  ∃ q0 q, new "main" 2 = Some q0 ∧ steps q0 demo_ops q ∧ core_of q 3 = Some 1.
Proof.
  destruct (new "main" 2) as [q0|] eqn:E0; [|discriminate].
  destruct (run demo_ops q0) as [q|] eqn:E; [|injection E0 as <-; vm_compute in E; discriminate].
  exists q0, q. split_and!; [done|by apply run_steps|].
  apply (cores_never_share_a_task "main" 2 q0 demo_ops q E0 (run_steps _ _ _ E)).
  injection E0 as <-. vm_compute in E. by injection E as <-.
Defined.


(** A core goes to an idle task only if it could not go on with its own task and nothing
    else can run: every ready task is an idle one or still held by another core. *)
Theorem idle_runs_only_when_nothing_can core preempt busy q q' next :
  Inv q → pick_next core preempt busy q = Some (q', next) → is_idle q next = true →
  ∃ cur, current q core = Some cur ∧ (state q cur = Some Running → is_idle q cur = true) ∧
    ∀ t, state q t = Some Ready → is_idle q t = false → busy t = true.
Proof.
  unfold pick_next. intros HI (cur & Hcur & H)%bind_Some Hn. exists cur. split; [done|].
  apply bind_Some in H as (nx & Hnx & [= <- ->]).
  set (keep := bool_decide (state q cur = Some Running) && negb (is_idle q cur)) in *.
  assert (Hk : keep = false).
  { destruct keep eqn:Hk; [|done]. exfalso. apply andb_prop in Hk as [_ Hk%negb_true_iff].
    destruct preempt; cbn in Hnx; [|congruence]. apply bind_Some in Hnx as (idle & _ & [= E]).
    destruct (next_ready busy cur q) as [x|] eqn:Hx; [|congruence].
    apply next_ready_Some in Hx as (_ & ? & _). congruence. }
  rewrite Hk in Hnx. cbn in Hnx. apply bind_Some in Hnx as (idle & _ & [= E]). split.
  - intros Hr. subst keep. rewrite bool_decide_true in Hk by done. by apply negb_false_iff.
  - destruct (next_ready busy cur q) as [x|] eqn:Hx.
    + apply next_ready_Some in Hx as (_ & ? & _). congruence.
    + intros t Hs Hi. eapply next_ready_None; eauto. by eapply entry_lt, inv_current.
Qed.

(** A queue as the witnesses below use it: [main] (0) on core 0, the idle tasks 1 and 2, and
    the tasks [a] (3) and [b] (4), both ready. *)
Definition demo_setup : list Op := [OAddIdle "idle0" 0; OStartCore "idle1" 1; OAdd "a"; OAdd "b"].

Lemma demo_Inv os q : (q0 ← new "main" 2; run os q0) = Some q → Inv q.
Proof. intros (q0 & H0 & H)%bind_Some. eauto using Inv_steps, Inv_new, run_steps. Qed.



Lemma idle_runs_only_when_nothing_can_witness :
  ∃ q q', (q0 ← new "main" 2; run (demo_setup ++ [OBlock 0]) q0) = Some q ∧
    pick_next 0 false (λ id, bool_decide (3 ≤ id)) q = Some (q', 1) ∧
    ∃ cur, current q 0 = Some cur ∧ (state q cur = Some Running → is_idle q cur = true) ∧
      ∀ t, state q t = Some Ready → is_idle q t = false → bool_decide (3 ≤ t) = true.
Proof.
  destruct (q0 ← new "main" 2; run (demo_setup ++ [OBlock 0]) q0) as [q|] eqn:E;
    [|vm_compute in E; discriminate].
  pose proof (demo_Inv _ _ E) as HI. vm_compute in E. injection E as E.
  destruct (pick_next 0 false (λ id, bool_decide (3 ≤ id)) q) as [[q' n]|] eqn:Ep;
    [|subst q; vm_compute in Ep; discriminate].
  assert (n = 1) as -> by (subst q; vm_compute in Ep; congruence).
  exists q, q'. split_and!; [by rewrite <-E|done|].
  apply (idle_runs_only_when_nothing_can 0 false _ q q' 1 HI Ep). by subst q.
Defined.

(** A wake-up that comes before its task blocks is never lost: whatever any core does to
    the queue next, it stays pending until the task's own [block_current], which then leaves
    the task as it was instead of blocking it (or until the task is gone). *)
Theorem early_wake_is_kept o q q' t :
  exec o q = Some q' → wake_kept q t →
  wake_kept q' t ∨ (∃ c, o = OBlock c ∧ current q c = Some t ∧ state q' t = state q t) ∨ o = ORemove t.
Proof. apply wake_kept_exec. Qed.

Lemma early_wake_is_kept_witness :
  ∃ q q', (q0 ← new "main" 2; run (demo_setup ++ [OWake 0]) q0) = Some q ∧
    exec (OBlock 0) q = Some q' ∧ (wake_kept q' 0 ∨ state q' 0 = state q 0).
Proof.
  destruct (q0 ← new "main" 2; run (demo_setup ++ [OWake 0]) q0) as [q|] eqn:E;
    [|vm_compute in E; discriminate].
  assert (Hk : wake_kept q 0).
  { vm_compute in E. injection E as <-. eexists. split; reflexivity. }
  destruct (exec (OBlock 0) q) as [q'|] eqn:Ex; [|vm_compute in E; injection E as <-; discriminate].
  exists q, q'. split_and!; [done|done|].
  destruct (early_wake_is_kept _ _ _ _ Ex Hk) as [?|[(c & _ & _ & ?)|[=]]]; auto.
Defined.

(** A task that looked at an event's generation and then waits for the event does not
    wait if the event was notified in between (fewer than 2^64 times), whatever else the
    cores did meanwhile: its state stays what it was. *)
Theorem notify_in_between_is_seen q os q1 core ev cur q2 :
  steps q os q1 → uint 64 (generation ev q) →
  (0 < Z.of_nat (notifies ev os) < 2 ^ 64)%Z →
  current q1 core = Some cur → wait_current core ev (generation ev q) q1 = Some q2 →
  state q2 cur = state q1 cur.
Proof.
  intros Hs Hu Hk Hc Hw. unfold wait_current in Hw.
  apply bind_Some in Hw as ([[q3 cur'] b] & [Hc' ->]%take_interrupt_Some & [= <-]).
  assert (cur' = cur) as -> by congruence.
  change (generation ev (update_entry _ _ q1)) with (generation ev q1).
  rewrite bool_decide_false, andb_false_r.
  - unfold state. rewrite entry_update_entry, decide_True by done. by destruct (entry q1 cur).
  - rewrite (generation_steps _ _ _ _ Hs Hu). by apply wrap_offset_ne.
Qed.

Lemma notify_in_between_is_seen_witness :
  ∃ q q1 q2, (q0 ← new "main" 2; run demo_setup q0) = Some q ∧
    steps q [OAdd "c"; ONotify 1] q1 ∧ wait_current 0 1 (generation 1 q) q1 = Some q2 ∧
    state q2 0 = state q1 0.
Proof.
  destruct (q0 ← new "main" 2; run demo_setup q0) as [q|] eqn:E; [|vm_compute in E; discriminate].
  destruct (run [OAdd "c"; ONotify 1] q) as [q1|] eqn:E1;
    [|vm_compute in E; injection E as <-; discriminate].
  destruct (wait_current 0 1 (generation 1 q) q1) as [q2|] eqn:E2;
    [|vm_compute in E; injection E as <-; vm_compute in E1; injection E1 as <-; discriminate].
  exists q, q1, q2. split_and!; [done|by apply run_steps|done|].
  apply (notify_in_between_is_seen q [OAdd "c"; ONotify 1] q1 0 1 0 q2); [by apply run_steps| | | |done].
  - vm_compute in E. injection E as <-. vm_compute. split; congruence.
  - vm_compute. split; congruence.
  - vm_compute in E. injection E as <-. vm_compute in E1. by injection E1 as <-.
Defined.

End RunQueue.

(** * The kernel's use of the queue

    [src/sched.rs] keeps, beside the queue, a word per core naming the task (id plus one) it
    is switching away from.  Its critical sections are the constructors of [KOp]: a task
    that gives up the processor first marks itself (one critical section) and then traps
    into [on_yield] (another), so other cores' critical sections can come between. *)
Module Kernel.
Import RunQueue.

Record Scheduler := mkScheduler {
  k_queue : RunQueue;
  k_leaving : list nat;
  k_running : list nat;
  k_preempt_disabled : list Z;
  k_switch_pending : list bool;
}.

Definition with_queue (q : RunQueue) (k : Scheduler) : Scheduler :=
  mkScheduler q (k_leaving k) (k_running k) (k_preempt_disabled k) (k_switch_pending k).

Definition UART_RX : Event := 1.
Definition CORES : nat := 4.

Definition leaving_elsewhere (core : nat) (leaving : list nat) (id : TaskId) : bool :=
  existsb (λ '(other, l), bool_decide (other ≠ core) && bool_decide (l = id + 1)) (imap pair leaving).

(** The reaping loop of [switch]: forgets finished tasks nobody is on the stack of. *)
Definition reap (core current : nat) (leaving : list nat) (q : RunQueue) : RunQueue :=
  foldl (λ q id, if bool_decide (id = current) || leaving_elsewhere core leaving id
                 then q else remove id q)
    q (finished q).

Definition switch (core : nat) (preempt : bool) (k : Scheduler) : option Scheduler :=
  cur ← current (k_queue k) core;
  '(q, next) ← pick_next core preempt (leaving_elsewhere core (k_leaving k)) (k_queue k);
  let q := reap core cur (k_leaving k) q in
  Some (mkScheduler q
          (if decide (next ≠ cur) then <[core := cur + 1]> (k_leaving k) else k_leaving k)
          (<[core := next + 1]> (k_running k)) (k_preempt_disabled k) (k_switch_pending k)).

Definition sched_finish_switch (core : nat) (k : Scheduler) : Scheduler :=
  mkScheduler (k_queue k) (<[core := 0]> (k_leaving k)) (k_running k) (k_preempt_disabled k)
    (k_switch_pending k).

Definition on_yield (core : nat) (k : Scheduler) : option Scheduler := switch core true k.

(** [uart] and [timer] are what [interrupt::handle] serviced, [now_us] the clock. *)
Definition on_irq (core : nat) (uart timer : bool) (now_us : Z) (k : Scheduler) : option Scheduler :=
  let q := k_queue k in
  let q := if uart then (notify UART_RX q).1 else q in
  q ← (if timer then tick core now_us q else Some q);
  _ ← current q core;
  let k := with_queue q k in
  depth ← k_preempt_disabled k !! core;
  if decide (0 < depth)%Z then
    Some (mkScheduler (k_queue k) (k_leaving k) (k_running k) (k_preempt_disabled k)
            (if timer then <[core := true]> (k_switch_pending k) else k_switch_pending k))
  else switch core timer k.

Definition init (name : string) : option Scheduler :=
  q ← new name CORES;
  '(q, _) ← add_idle "idle0" 0 q;
  Some (mkScheduler q (replicate CORES 0) (replicate CORES 0) (replicate CORES 0%Z)
          (replicate CORES false)).

Definition start_core (name : string) (core : nat) (k : Scheduler) : option Scheduler :=
  '(q, id) ← RunQueue.start_core name core (k_queue k);
  Some (mkScheduler q (k_leaving k) (<[core := id + 1]> (k_running k)) (k_preempt_disabled k)
          (k_switch_pending k)).

Inductive KOp :=
| KSpawn (name : string)
| KStartCore (name : string) (core : nat)
| KSleep (core : nat) (until_us : Z)
| KWait (core : nat) (event : Event) (seen : Generation)
| KBlock (core : nat)
| KExit (core : nat)
| KWake (id : TaskId)
| KInterrupt (id : TaskId)
| KNotify (event : Event)
| KYield (core : nat)
| KFinishSwitch (core : nat)
| KIrq (core : nat) (uart timer : bool) (now_us : Z).

Definition kexec (o : KOp) (k : Scheduler) : option Scheduler :=
  let on (f : RunQueue → option RunQueue) := q ← f (k_queue k); Some (with_queue q k) in
  match o with
  | KSpawn name => on (λ q, Some (add name q).1)
  | KStartCore name core => start_core name core k
  | KSleep core until_us => on (sleep_current core until_us)
  | KWait core event seen => on (wait_current core event seen)
  | KBlock core => on (block_current core)
  | KExit core => on (finish_current core)
  | KWake id => on (λ q, Some (wake id q).1)
  | KInterrupt id => on (λ q, Some (interrupt id q).1)
  | KNotify event => on (λ q, Some (notify event q).1)
  | KYield core => on_yield core k
  | KFinishSwitch core => Some (sched_finish_switch core k)
  | KIrq core uart timer now_us => on_irq core uart timer now_us k
  end.

Definition kexec_all (os : list KOp) (k : Scheduler) : option Scheduler :=
  foldl (λ k o, k ← k; kexec o k) (Some k) os.

(** [main] blocks on core 0 (as in a contended [Mutex::lock]); before its core traps into
    [on_yield], core 1 wakes it and takes its next timer interrupt. *)
Definition race_ops : list KOp :=
  [KStartCore "idle1" 1; KSpawn "a"; KIrq 1 false true 10; KFinishSwitch 1; KBlock 0; KWake 0;
   KIrq 1 false true 20].

(** The kernel does not keep its side of the queue's contract: [LEAVING] is only set once
    a core switches, so between a task's [block_current] (or [wait_current], [sleep_current])
    and its trap into [on_yield], another core can wake it and pick it, and then two cores run
    the same task. *)
Theorem waking_before_the_trap_runs_a_task_twice :
  ∃ k0 k, init "main" = Some k0 ∧ kexec_all race_ops k0 = Some k ∧
    current (k_queue k) 0 = Some 0 ∧ current (k_queue k) 1 = Some 0 ∧
    state (k_queue k) 0 = Some Running.
Proof. do 2 eexists. split_and!; [reflexivity|vm_compute; reflexivity|reflexivity..]. Qed.

End Kernel.
