(* ===== verification/Lock.v ===== *)
(** The sleeping mutex: its bookkeeping ([rustypi-core/src/lock.rs]) and the protocol the
    kernel's [Mutex::lock] runs on it with [sched::block] and [sched::wake]
    ([src/synchronization.rs]).

    [Module LockState] translates the bookkeeping.  [Class WaitQueue] is what the protocol
    relies on of the scheduler; [Module Mutex] proves the protocol against that interface,
    and the run queue of [Sched] is an instance of it. *)
From S2P Require Import Prelude Sched.
From stdpp Require Import strings.

Module LockState.

Notation TaskId := nat (only parsing).

Inductive Acquire := Acquired | Queued.
Inductive LockError := AlreadyHeld | NotOwner.

Record LockState := mkLockState {
  owner : option TaskId;
  waiters : list TaskId;
}.

Definition new : LockState := mkLockState None [].

Definition lock (task : TaskId) (l : LockState) : LockState * result LockError Acquire :=
  match owner l with
  | None => (mkLockState (Some task) (waiters l), Ok Acquired)
  | Some o =>
      if decide (o = task) then (l, Err AlreadyHeld)
      else (mkLockState (owner l) (waiters l ++ [task]), Ok Queued)
  end.

Definition unlock (task : TaskId) (l : LockState) : LockState * result LockError (option TaskId) :=
  if decide (owner l = Some task) then
    let l := match waiters l with
             | [] => mkLockState None []
             | next :: rest => mkLockState (Some next) rest
             end in
    (l, Ok (owner l))
  else (l, Err NotOwner).

(** The tasks that asked for the lock and have not given it back, oldest first. *)
Definition line (l : LockState) : list TaskId := option_list (owner l) ++ waiters l.

(** Nobody waits for a free lock, and nobody is in line twice. *)
Definition wf (l : LockState) : Prop := (owner l = None → waiters l = []) ∧ NoDup (line l).

Lemma wf_lock t l : wf l → t ∉ waiters l → wf (lock t l).1.
Proof.
  unfold wf, lock, line. destruct l as [[o|] ws]; cbn; intros [Hn Hd] Ht.
  - case_decide; cbn; [done|]. split; [done|]. rewrite app_comm_cons. apply NoDup_app.
    split_and!; [done|set_solver|apply NoDup_singleton].
  - rewrite (Hn eq_refl) in *; cbn in *. split; [done|apply NoDup_singleton].
Qed.

Lemma wf_unlock t l : wf l → wf (unlock t l).1.
Proof.
  unfold wf, unlock, line. destruct l as [[o|] ws]; cbn; intros [Hn Hd]; case_decide; try done; cbn.
  apply NoDup_cons in Hd as [_ Hd]. destruct ws; cbn; [split; [done|constructor]|]. by split.
Qed.

Lemma line_lock t l : wf l → owner l ≠ Some t →
  line (lock t l).1 = line l ++ [t] ∧ is_ok (lock t l).2 = true.
Proof.
  unfold wf, lock, line. destruct l as [[o|] ws]; cbn; intros [Hn Hd] Ho.
  - rewrite decide_False by congruence. done.
  - by rewrite (Hn eq_refl).
Qed.

Lemma line_unlock t l : owner l = Some t → line l = t :: line (unlock t l).1.
Proof.
  unfold unlock, line. destruct l as [o ws]; cbn; intros ->. rewrite decide_True by done. by destruct ws.
Qed.

(** A history of calls: [Lock t] and [Unlock t] by task [t]. *)
Inductive Call := Lock (t : TaskId) | Unlock (t : TaskId).

Definition call (c : Call) (l : LockState) : LockState :=
  match c with Lock t => (lock t l).1 | Unlock t => (unlock t l).1 end.

(** Only tasks not in line lock (a queued one is blocked); only the owner's unlock works. *)
Definition valid (c : Call) (l : LockState) : Prop :=
  match c with Lock t => t ∉ line l | Unlock t => owner l = Some t end.

Inductive history : list Call → LockState → Prop :=
| history_nil : history [] new
| history_snoc cs l c : history cs l → valid c l → history (cs ++ [c]) (call c l).

Definition requests (cs : list Call) : list TaskId :=
  omap (λ c, match c with Lock t => Some t | _ => None end) cs.
Definition releases (cs : list Call) : list TaskId :=
  omap (λ c, match c with Unlock t => Some t | _ => None end) cs.

(** The lock is handed over strictly in the order it was asked for: the tasks that asked
    are, in order, the ones that have held it and given it back, then its owner, then the
    waiters.  Nobody overtakes, so nobody starves. *)
Theorem lock_is_first_come_first_served cs l :
  history cs l → wf l ∧ requests cs = releases cs ++ option_list (owner l) ++ waiters l.
Proof.
  induction 1 as [|cs l c _ [Hwf IH] Hv]; [split; [split; [done|constructor]|done]|].
  unfold requests, releases in *. rewrite !omap_app, IH. destruct c as [t|t]; cbn in *.
  - destruct (line_lock t l Hwf) as [Hl _].
    { intros Ho. apply Hv. unfold line. rewrite Ho. cbn. set_solver. }
    split; [apply wf_lock; [done|]; unfold line in Hv; set_solver|].
    unfold line in Hl. rewrite Hl, app_nil_r. by rewrite <-!app_assoc.
  - split; [by apply wf_unlock|]. pose proof (line_unlock t l Hv) as Hl. unfold line in Hl.
    rewrite Hl, app_nil_r, <-app_assoc. done.
Qed.

Lemma lock_is_first_come_first_served_witness :
  history [Lock 1; Lock 2; Lock 3; Unlock 1; Lock 4] (mkLockState (Some 2) [3; 4]) ∧
  requests [Lock 1; Lock 2; Lock 3; Unlock 1; Lock 4] = [1] ++ [2] ++ [3; 4].
Proof.
  assert (H : history ([] ++ [Lock 1] ++ [Lock 2] ++ [Lock 3] ++ [Unlock 1] ++ [Lock 4])
                (call (Lock 4) (call (Unlock 1) (call (Lock 3) (call (Lock 2) (call (Lock 1) new)))))).
  { rewrite !app_assoc. repeat apply history_snoc; [constructor|..]; cbn; set_solver. }
  split; [exact H|]. apply (proj2 (lock_is_first_come_first_served _ _ H)).
Defined.

End LockState.

(** * What the mutex needs of the scheduler

    A task that blocks goes to sleep unless a wake-up is pending for it, which it takes; a
    wake-up makes a sleeping task runnable and is kept for one that is not asleep. *)
Class WaitQueue (Q : Type) := {
  wq_block : nat → Q → option Q;
  wq_wake : nat → Q → Q;
  wq_live : Q → nat → Prop;
  wq_blocked : Q → nat → bool;
  wq_pending : Q → nat → bool;
  wq_block_pending q q' t : wq_block t q = Some q' → wq_pending q t = true →
    wq_pending q' t = false ∧ wq_blocked q' t = wq_blocked q t;
  wq_block_sleeps q q' t : wq_block t q = Some q' → wq_live q t → wq_pending q t = false →
    wq_pending q' t = false ∧ wq_blocked q' t = true;
  wq_block_live q q' t t' : wq_block t q = Some q' → wq_live q t' → wq_live q' t';
  wq_block_other q q' t t' : wq_block t q = Some q' → t' ≠ t →
    wq_pending q' t' = wq_pending q t' ∧ wq_blocked q' t' = wq_blocked q t';
  wq_wake_blocked q t : wq_blocked q t = true →
    wq_blocked (wq_wake t q) t = false ∧ wq_pending (wq_wake t q) t = wq_pending q t;
  wq_wake_early q t : wq_live q t → wq_blocked q t = false →
    wq_blocked (wq_wake t q) t = false ∧ wq_pending (wq_wake t q) t = true;
  wq_wake_live q t t' : wq_live q t' → wq_live (wq_wake t q) t';
  wq_wake_other q t t' : t' ≠ t →
    wq_pending (wq_wake t q) t' = wq_pending q t' ∧ wq_blocked (wq_wake t q) t' = wq_blocked q t';
}.

Module RunQueueWaits.
Import RunQueue.

(** [sched::block], by the task that runs. *)
Definition block (t : TaskId) (q : RunQueue) : option RunQueue :=
  core ← core_of q t; block_current core q.

Definition live (q : RunQueue) (t : TaskId) : Prop :=
  ∃ e, entry q t = Some e ∧ e_state e ≠ Finished.
Definition blocked (q : RunQueue) (t : TaskId) : bool := bool_decide (state q t = Some Blocked).
Definition pending (q : RunQueue) (t : TaskId) : bool :=
  match entry q t with Some e => e_wake_pending e | None => false end.

Lemma block_spec t q q' : block t q = Some q' →
  q' = (if pending q t then update_entry (with_wake_pending false) t q
        else set_state t Blocked (update_entry (with_wake_pending false) t q)).
Proof.
  unfold block. intros (core & Hc & H)%bind_Some. unfold core_of in Hc.
  apply fmap_Some in Hc as ([i o] & (Hi & -> & _)%list_find_Some & ->). cbn in H.
  unfold block_current in H. apply bind_Some in H as (cur & Hcur & [= <-]).
  unfold current in Hcur. rewrite Hi in Hcur. injection Hcur as <-. done.
Qed.

Lemma block_entry t q q' t' : block t q = Some q' →
  entry q' t' = if decide (t = t') then
                  (λ e, let e' := with_wake_pending false e in
                        if e_wake_pending e then e' else with_state Blocked e') <$> entry q t'
                else entry q t'.
Proof.
  intros ->%block_spec. unfold pending. destruct (decide (t = t')) as [<-|Hne].
  - destruct (entry q t) as [e|] eqn:He; cbn; [destruct (e_wake_pending e) eqn:Hw|];
      unfold set_state; rewrite !entry_update_entry, ?decide_True, He by done; cbn; by rewrite ?Hw.
  - destruct (match entry q t with Some _ => _ | None => _ end);
      unfold set_state; by rewrite !entry_update_entry, ?decide_False by done.
Qed.

Lemma wake_entry t q t' :
  entry (wake t q).1 t' = if decide (t = t') then
                  (λ e, match e_state e with
                        | Blocked => with_state Ready e
                        | Finished => e
                        | _ => with_wake_pending true e
                        end) <$> entry q t'
                else entry q t'.
Proof.
  unfold wake, set_state. destruct (decide (t = t')) as [<-|Hne].
  - destruct (entry q t) as [e|] eqn:He; [|done].
    destruct (e_state e) eqn:Hs; cbn; rewrite ?entry_update_entry, ?decide_True, He by done; cbn;
      by rewrite ?Hs.
  - destruct (entry q t) as [e|] eqn:He; [|done].
    destruct (e_state e) eqn:Hs; cbn; by rewrite ?entry_update_entry, ?decide_False by done.
Qed.

(** The run queue keeps that promise. *)
#[export] Program Instance run_queue_waits : WaitQueue RunQueue := {|
  wq_block := block;
  wq_wake t q := (wake t q).1;
  wq_live := live;
  wq_blocked := blocked;
  wq_pending := pending;
|}.
Next Obligation.
  intros q q' t H Hp. unfold pending, blocked, state in *. rewrite !(block_entry _ _ _ _ H), !decide_True by done.
  destruct (entry q t) as [e|]; [|done]. cbn in *. by rewrite Hp.
Qed.
Next Obligation.
  intros q q' t H (e & He & _) Hp. unfold pending, blocked, state in *.
  rewrite !(block_entry _ _ _ _ H), !decide_True by done. rewrite He in *. cbn. rewrite Hp. done.
Qed.
Next Obligation.
  intros q q' t t' H (e & He & Hf). unfold live. rewrite (block_entry _ _ _ _ H), He.
  case_decide; cbn; [|eauto]. destruct (e_wake_pending e); eauto.
Qed.
Next Obligation.
  intros q q' t t' H Hne. unfold pending, blocked, state. by rewrite !(block_entry _ _ _ _ H), !decide_False by done.
Qed.
Next Obligation.
  intros q t Hb%bool_decide_eq_true. unfold pending, blocked, state in *.
  rewrite !wake_entry, !decide_True by done. destruct (entry q t) as [e|]; [|done].
  cbn in *. injection Hb as ->. done.
Qed.
Next Obligation.
  intros q t (e & He & Hf) Hb%bool_decide_eq_false. unfold pending, blocked, state in *.
  rewrite !wake_entry, !decide_True, He in * by done. cbn in *.
  by destruct (e_state e) eqn:Hs; cbn; rewrite ?Hs.
Qed.
Next Obligation.
  intros q t t' (e & He & Hf). unfold live. rewrite wake_entry, He. case_decide; cbn; [|eauto].
  eexists. split; [done|]. by destruct (e_state e) eqn:Hs; cbn; rewrite ?Hs.
Qed.
Next Obligation.
  intros q t t' Hne. unfold pending, blocked, state. by rewrite !wake_entry, !decide_False by done.
Qed.

End RunQueueWaits.

(** * The mutex protocol *)
Module Mutex.
Section protocol.
Context `{WaitQueue Q}.

(** Where a task is in [Mutex::lock]. *)
Inductive Pc :=
| Outside
| ToBlock              (* queued, about to call [sched::block] *)
| Asleep               (* in [sched::block] *)
| Inside               (* running its closure *)
| ToWake (next : nat). (* unlocked, about to call [sched::wake(next)] *)

Record System := mkSystem {
  s_lock : LockState.LockState;
  s_pc : gmap nat Pc;
  s_queue : Q;
}.

Definition pc (s : System) (t : nat) : Pc := default Outside (s_pc s !! t).
Definition goto (t : nat) (p : Pc) (s : System) : System :=
  mkSystem (s_lock s) (<[t := p]> (s_pc s)) (s_queue s).
Definition with_lock (l : LockState.LockState) (s : System) : System :=
  mkSystem l (s_pc s) (s_queue s).
Definition with_queue (q : Q) (s : System) : System := mkSystem (s_lock s) (s_pc s) q.

(** [state.lock(me)] and what follows on its answer; [None] is a panic. *)
Definition request (can_block : bool) (t : nat) (s : System) : option System :=
  let '(l, answer) := LockState.lock t (s_lock s) in
  let s := with_lock l s in
  match answer with
  | Ok LockState.Acquired => Some (goto t Inside s)
  | Ok LockState.Queued => if can_block then Some (goto t ToBlock s) else None
  | Err _ => None
  end.

(** [sched::block()]: on it goes if a wake-up was pending, else it sleeps. *)
Definition block (t : nat) (s : System) : option System :=
  q ← wq_block t (s_queue s);
  Some (goto t (if wq_blocked q t then Asleep else Inside) (with_queue q s)).

(** [state.unlock(me)]. *)
Definition release (t : nat) (s : System) : option System :=
  let '(l, answer) := LockState.unlock t (s_lock s) in
  let s := with_lock l s in
  match answer with
  | Ok (Some next) => Some (goto t (ToWake next) s)
  | Ok None => Some (goto t Outside s)
  | Err _ => None
  end.

(** [sched::wake(next)]. *)
Definition wake (t next : nat) (s : System) : System :=
  goto t Outside (with_queue (wq_wake next (s_queue s)) s).

(** One step of some task, or of the rest of the system, which may do anything to the queue
    but end the tasks that are in the protocol and block or wake those that wait in it
    ([sched::wake] has no other caller).  A task that asks for the lock is running and has
    no wake-up pending: every wake-up is taken by the [block] it was sent for. *)
Inductive step : System → System → Prop :=
| step_request s t can_block s' :
    pc s t = Outside → wq_live (s_queue s) t → wq_blocked (s_queue s) t = false →
    wq_pending (s_queue s) t = false → request can_block t s = Some s' → step s s'
| step_block s t s' : pc s t = ToBlock → block t s = Some s' → step s s'
| step_resume s t : pc s t = Asleep → wq_blocked (s_queue s) t = false → step s (goto t Inside s)
| step_release s t s' : pc s t = Inside → release t s = Some s' → step s s'
| step_wake s t next : pc s t = ToWake next → step s (wake t next s)
| step_other s q :
    (∀ t, pc s t ≠ Outside → wq_live q t) →
    (∀ t, pc s t = ToBlock ∨ pc s t = Asleep → wq_blocked q t = wq_blocked (s_queue s) t ∧
                                               wq_pending q t = wq_pending (s_queue s) t) →
    step s (with_queue q s).

Inductive reachable : System → Prop :=
| reachable_init q : reachable (mkSystem LockState.new ∅ q)
| reachable_step s s' : reachable s → step s s' → reachable s'.

(** In line behind the owner. *)
Definition waits (s : System) (t : nat) : Prop := pc s t = ToBlock ∨ pc s t = Asleep.

(** The hand-over to [t] is under way: its wake-up is pending, has reached it, or is yet to
    be sent by exactly one task. *)
Definition handed (s : System) (t : nat) : Prop :=
  (pc s t = ToBlock ∧ wq_pending (s_queue s) t = true ∧ ∀ u, pc s u ≠ ToWake t) ∨
  (pc s t = Asleep ∧ wq_pending (s_queue s) t = false ∧ wq_blocked (s_queue s) t = false ∧
     ∀ u, pc s u ≠ ToWake t) ∨
  (∃ u, pc s u = ToWake t ∧ wq_pending (s_queue s) t = false ∧
        (pc s t = Asleep → wq_blocked (s_queue s) t = true) ∧ ∀ u', pc s u' = ToWake t → u' = u).

Record Inv (s : System) : Prop := {
  inv_wf : LockState.wf (s_lock s);
  inv_inside : ∀ t, pc s t = Inside →
                 LockState.owner (s_lock s) = Some t ∧ ∀ u, pc s u ≠ ToWake t;
  inv_waiters : ∀ t, t ∈ LockState.waiters (s_lock s) → waits s t;
  inv_line : ∀ t, waits s t → t ∈ LockState.line (s_lock s);
  inv_owner : ∀ t, LockState.owner (s_lock s) = Some t → pc s t = Inside ∨ (waits s t ∧ handed s t);
  inv_wake : ∀ u t, pc s u = ToWake t → LockState.owner (s_lock s) = Some t;
  inv_live : ∀ t, pc s t ≠ Outside → wq_live (s_queue s) t;
  inv_quiet : ∀ t, t ∈ LockState.waiters (s_lock s) → wq_pending (s_queue s) t = false;
  inv_awake : ∀ t, pc s t = ToBlock → wq_blocked (s_queue s) t = false;
  inv_asleep : ∀ t, t ∈ LockState.waiters (s_lock s) → pc s t = Asleep → wq_blocked (s_queue s) t = true;
}.

Lemma pc_goto t p s t' : pc (goto t p s) t' = if decide (t = t') then p else pc s t'.
Proof. unfold pc, goto; cbn. rewrite lookup_insert. by case_decide. Qed.

Lemma pc_with_lock l s t : pc (with_lock l s) t = pc s t.
Proof. done. Qed.
Lemma pc_with_queue q s t : pc (with_queue q s) t = pc s t.
Proof. done. Qed.

Lemma line_cases l t : t ∈ LockState.line l → LockState.owner l = Some t ∨ t ∈ LockState.waiters l.
Proof. unfold LockState.line. destruct (LockState.owner l); set_solver. Qed.

Lemma owner_not_waiter s t : Inv s → LockState.owner (s_lock s) = Some t → t ∉ LockState.waiters (s_lock s).
Proof.
  intros HI Ho. destruct (inv_wf s HI) as [_ Hd]. unfold LockState.line in Hd. rewrite Ho in Hd.
  by apply NoDup_cons in Hd as [? _].
Qed.

(** A task outside the protocol is neither owner nor waiter. *)
Lemma outside_not_in_line s t : Inv s → pc s t = Outside → t ∉ LockState.line (s_lock s).
Proof.
  intros HI Ht [Ho|Hw]%line_cases.
  - destruct (inv_owner s HI t Ho) as [?|[[?|?] _]]; congruence.
  - destruct (inv_waiters s HI t Hw); congruence.
Qed.

(** A task that moves without being the owner, or anyone's target, leaves a hand-over alone. *)
Lemma handed_frame s s' t o :
  (∀ t', pc s' t' = if decide (t = t') then pc s' t else pc s t') → t ≠ o →
  (∀ x, pc s t ≠ ToWake x) → (∀ x, pc s' t ≠ ToWake x) →
  wq_pending (s_queue s') o = wq_pending (s_queue s) o →
  wq_blocked (s_queue s') o = wq_blocked (s_queue s) o →
  waits s o ∧ handed s o → waits s' o ∧ handed s' o.
Proof.
  intros Hpc Hne Hs Hs' Hp Hb [Hw Hh]. assert (Ho : pc s' o = pc s o) by (by rewrite Hpc, decide_False).
  assert (Hto : ∀ u x, pc s' u = ToWake x ↔ pc s u = ToWake x).
  { intros u x. rewrite Hpc. case_decide; subst; naive_solver. }
  unfold waits, handed in *. rewrite Ho, Hp, Hb. split; [done|].
  destruct Hh as [(?&?&Hn)|[(?&?&?&Hn)|(u&Hu&?&?&Hn)]].
  - left. split_and!; [done..|]. intros u ?%Hto. naive_solver.
  - right; left. split_and!; [done..|]. intros u ?%Hto. naive_solver.
  - right; right. exists u. rewrite Hto. split_and!; [done..|]. intros u' ?%Hto. naive_solver.
Qed.

Lemma Inv_queued s t o :
  pc s t = Outside → wq_live (s_queue s) t → wq_blocked (s_queue s) t = false →
  wq_pending (s_queue s) t = false → LockState.owner (s_lock s) = Some o → o ≠ t → Inv s →
  Inv (goto t ToBlock (with_lock
         (LockState.mkLockState (Some o) (LockState.waiters (s_lock s) ++ [t])) s)).
Proof.
  intros Hpc Hlive Hb Hp Ho Hto HI. pose proof (outside_not_in_line s t HI Hpc) as Hnl.
  set (s' := goto _ _ _).
  assert (Hpc' : ∀ t', pc s' t' = if decide (t = t') then ToBlock else pc s t')
    by (intros; subst s'; by rewrite pc_goto).
  pose proof (LockState.wf_lock t (s_lock s) (inv_wf s HI)) as Hwf.
  unfold LockState.lock in Hwf. rewrite Ho, decide_False in Hwf by done.
  split; cbn [s' goto with_lock s_lock s_queue LockState.owner LockState.waiters].
  - apply Hwf. unfold LockState.line in Hnl. set_solver.
  - intros x. rewrite Hpc'. case_decide; [done|]. intros [Hx Hn]%(inv_inside s HI).
    split; [congruence|]. intros u. rewrite Hpc'. case_decide; [done|apply Hn].
  - intros x [Hx|Hx]%elem_of_app; unfold waits; rewrite Hpc'.
    + case_decide; [auto|by apply (inv_waiters s HI)].
    + rewrite decide_True by set_solver. auto.
  - unfold waits. intros x. rewrite Hpc'. unfold LockState.line. cbn. case_decide; [set_solver|].
    intros Hx%(inv_line s HI). unfold LockState.line in Hx. rewrite Ho in Hx. set_solver.
  - intros x [= <-]. destruct (inv_owner s HI o Ho) as [Hi|Hh].
    + left. by rewrite Hpc', decide_False.
    + right. apply (handed_frame s s' t o); try done.
      * intros t'. rewrite !Hpc', (decide_True (P := t = t)) by done. by case_decide.
      * intros x. by rewrite Hpc.
      * intros x. by rewrite Hpc', decide_True.
  - intros u x. rewrite Hpc'. case_decide; [done|]. intros Hu%(inv_wake s HI). congruence.
  - intros x. rewrite Hpc'. case_decide; [by subst|apply (inv_live s HI)].
  - intros x [Hx|Hx]%elem_of_app; [by apply (inv_quiet s HI)|].
    assert (x = t) as -> by set_solver. done.
  - intros x. rewrite Hpc'. case_decide; [by subst|apply (inv_awake s HI)].
  - intros x Hx. rewrite Hpc'. case_decide; [done|]. apply (inv_asleep s HI). set_solver.
Qed.

Lemma Inv_acquired s t :
  wq_live (s_queue s) t → wq_pending (s_queue s) t = false →
  LockState.owner (s_lock s) = None → Inv s →
  Inv (goto t Inside (with_lock (LockState.mkLockState (Some t) (LockState.waiters (s_lock s))) s)).
Proof.
  intros Hlive Hp Ho HI. destruct (inv_wf s HI) as [Hnil _]. specialize (Hnil Ho).
  assert (Hno : ∀ u x, pc s u ≠ ToWake x) by (intros u x Hu%(inv_wake s HI); congruence).
  assert (Hnw : ∀ x, ¬ waits s x).
  { intros x Hx%(inv_line s HI). unfold LockState.line in Hx. rewrite Ho, Hnil in Hx. set_solver. }
  set (s' := goto _ _ _).
  assert (Hpc' : ∀ t', pc s' t' = if decide (t = t') then Inside else pc s t')
    by (intros; subst s'; by rewrite pc_goto).
  split; cbn [s' goto with_lock s_lock s_queue LockState.owner LockState.waiters]; rewrite ?Hnil.
  - split; [done|apply NoDup_singleton].
  - intros x. rewrite Hpc'. case_decide as E.
    + intros _. rewrite E. split; [done|]. intros u. rewrite Hpc'. case_decide; [done|apply Hno].
    + intros [Hx _]%(inv_inside s HI). congruence.
  - intros x Hx. set_solver.
  - unfold waits. intros x. rewrite Hpc'. case_decide; [naive_solver|]. intros Hx. by destruct (Hnw x).
  - intros x [= <-]. left. by rewrite Hpc', decide_True.
  - intros u x. rewrite Hpc'. case_decide; [done|]. intros Hu. by destruct (Hno u x).
  - intros x. rewrite Hpc'. case_decide; [by subst|apply (inv_live s HI)].
  - intros x Hx. set_solver.
  - intros x. rewrite Hpc'. case_decide; [done|apply (inv_awake s HI)].
  - intros x Hx. set_solver.
Qed.

Lemma Inv_request s t can_block s' :
  pc s t = Outside → wq_live (s_queue s) t → wq_blocked (s_queue s) t = false →
  wq_pending (s_queue s) t = false → request can_block t s = Some s' → Inv s → Inv s'.
Proof.
  intros Hpc Hlive Hb Hp Hr HI. unfold request, LockState.lock in Hr.
  destruct (LockState.owner (s_lock s)) as [o|] eqn:Ho.
  - case_decide; [done|]. destruct can_block; [|done]. injection Hr as <-. by apply Inv_queued.
  - injection Hr as <-. by apply Inv_acquired.
Qed.

Lemma Inv_goto_inside s t q :
  LockState.owner (s_lock s) = Some t → waits s t → (∀ u, pc s u ≠ ToWake t) →
  wq_live q t → wq_pending q t = false →
  (∀ x, x ≠ t → (wq_live (s_queue s) x → wq_live q x) ∧
        wq_pending q x = wq_pending (s_queue s) x ∧ wq_blocked q x = wq_blocked (s_queue s) x) →
  Inv s → Inv (goto t Inside (with_queue q s)).
Proof.
  intros Ho Hw Hn Hl Hp Hq HI. set (s' := goto _ _ _).
  assert (Hpc' : ∀ t', pc s' t' = if decide (t = t') then Inside else pc s t')
    by (intros; subst s'; by rewrite pc_goto).
  pose proof (owner_not_waiter s t HI Ho) as Hnw.
  split; cbn [s' goto with_queue s_lock s_queue].
  - apply HI.
  - intros x. rewrite Hpc'. case_decide as E.
    + intros _. rewrite <-E. split; [done|]. intros u. rewrite Hpc'. case_decide; [done|apply Hn].
    + intros [Hx _]%(inv_inside s HI). congruence.
  - intros x Hx. unfold waits. rewrite Hpc', decide_False by congruence. by apply (inv_waiters s HI).
  - unfold waits. intros x. rewrite Hpc'. case_decide; [naive_solver|]. apply (inv_line s HI).
  - intros x Hx. assert (x = t) as -> by congruence. left. by rewrite Hpc', decide_True.
  - intros u x. rewrite Hpc'. case_decide; [done|apply (inv_wake s HI)].
  - intros x. rewrite Hpc'. case_decide; [by subst|]. intros. by apply Hq, (inv_live s HI).
  - intros x Hx. destruct (decide (x = t)) as [->|Hne]; [done|].
    rewrite (proj1 (proj2 (Hq x Hne))). by apply (inv_quiet s HI).
  - intros x. rewrite Hpc'. case_decide; [done|]. rewrite (proj2 (proj2 (Hq x ltac:(done)))).
    apply (inv_awake s HI).
  - intros x Hx. rewrite Hpc'. case_decide; [done|]. rewrite (proj2 (proj2 (Hq x ltac:(done)))).
    by apply (inv_asleep s HI).
Qed.

(** What the waker left behind is exactly what [handed] says. *)
Lemma handed_to_block s t : Inv s → LockState.owner (s_lock s) = Some t → pc s t = ToBlock →
  if wq_pending (s_queue s) t then ∀ u, pc s u ≠ ToWake t
  else ∃ u, pc s u = ToWake t ∧ ∀ u', pc s u' = ToWake t → u' = u.
Proof.
  intros HI Ho Hpc. destruct (inv_owner s HI t Ho) as [?|[_ Hh]]; [congruence|].
  destruct Hh as [(_&->&?)|[(?&_)|(u&?&->&_&?)]]; [done|congruence|eauto].
Qed.

Lemma Inv_goto_asleep s t q :
  pc s t = ToBlock → wq_pending (s_queue s) t = false → wq_live q t →
  wq_pending q t = false → wq_blocked q t = true →
  (∀ x, x ≠ t → (wq_live (s_queue s) x → wq_live q x) ∧
        wq_pending q x = wq_pending (s_queue s) x ∧ wq_blocked q x = wq_blocked (s_queue s) x) →
  Inv s → Inv (goto t Asleep (with_queue q s)).
Proof.
  intros Hpc Hnp Hl Hp Hb Hq HI. set (s' := goto _ _ _).
  assert (Hpc' : ∀ t', pc s' t' = if decide (t = t') then Asleep else pc s t')
    by (intros; subst s'; by rewrite pc_goto).
  split; cbn [s' goto with_queue s_lock s_queue].
  - apply HI.
  - intros x. rewrite Hpc'. case_decide; [done|]. intros [Hx Hn]%(inv_inside s HI).
    split; [done|]. intros u. rewrite Hpc'. case_decide; [done|apply Hn].
  - intros x Hx%(inv_waiters s HI). unfold waits in *. rewrite Hpc'. case_decide; auto.
  - unfold waits. intros x. rewrite Hpc'. intros Hx. apply (inv_line s HI). unfold waits.
    case_decide; [subst; auto|done].
  - intros o Ho. destruct (decide (t = o)) as [<-|Hne].
    + right. unfold waits, handed. rewrite Hpc', decide_True by done. split; [auto|].
      pose proof (handed_to_block s t HI Ho Hpc) as Hh. rewrite Hnp in Hh.
      destruct Hh as (u & Hu & Hn). right; right. exists u. cbn. rewrite !Hpc'.
      split_and!; [by rewrite decide_False by congruence|done|done|].
      intros u'. rewrite Hpc'. case_decide; [done|apply Hn].
    + destruct (inv_owner s HI o Ho) as [Hi|Hh]; [left; by rewrite Hpc', decide_False|].
      right. apply (handed_frame s s' t o); try done.
      * intros t'. rewrite !Hpc', (decide_True (P := t = t)) by done. by case_decide.
      * intros x. by rewrite Hpc.
      * intros x. by rewrite Hpc', decide_True.
      * by apply Hq.
      * by apply Hq.
  - intros u x. rewrite Hpc'. case_decide; [done|apply (inv_wake s HI)].
  - intros x. rewrite Hpc'. case_decide; [by subst|]. intros. by apply Hq, (inv_live s HI).
  - intros x Hx. destruct (decide (x = t)) as [->|Hne]; [done|].
    rewrite (proj1 (proj2 (Hq x Hne))). by apply (inv_quiet s HI).
  - intros x. rewrite Hpc'. case_decide; [done|]. rewrite (proj2 (proj2 (Hq x ltac:(done)))).
    apply (inv_awake s HI).
  - intros x Hx. rewrite Hpc'. case_decide; [by subst|]. rewrite (proj2 (proj2 (Hq x ltac:(done)))).
    by apply (inv_asleep s HI).
Qed.

Lemma Inv_block s t s' : pc s t = ToBlock → block t s = Some s' → Inv s → Inv s'.
Proof.
  intros Hpc (q & Hq & [= <-])%bind_Some HI.
  assert (Hlive : wq_live (s_queue s) t) by (apply (inv_live s HI); congruence).
  assert (Hw : waits s t) by (by left).
  assert (Hother : ∀ x, x ≠ t → (wq_live (s_queue s) x → wq_live q x) ∧
        wq_pending q x = wq_pending (s_queue s) x ∧ wq_blocked q x = wq_blocked (s_queue s) x).
  { intros x Hx. split; [by apply (wq_block_live _ _ t)|by apply (wq_block_other _ _ t)]. }
  destruct (wq_pending (s_queue s) t) eqn:Hp.
  - destruct (wq_block_pending _ _ _ Hq Hp) as [Hp' Hb']. rewrite Hb', (inv_awake s HI t Hpc).
    assert (Ho : LockState.owner (s_lock s) = Some t).
    { destruct (line_cases _ _ (inv_line s HI t Hw)) as [|Hin]; [done|].
      pose proof (inv_quiet s HI t Hin). congruence. }
    pose proof (handed_to_block s t HI Ho Hpc) as Hh. rewrite Hp in Hh.
    apply Inv_goto_inside; try done. by apply (wq_block_live _ _ _ _ Hq).
  - destruct (wq_block_sleeps _ _ _ Hq Hlive Hp) as [Hp' Hb']. rewrite Hb'.
    apply Inv_goto_asleep; try done. by apply (wq_block_live _ _ _ _ Hq).
Qed.

Lemma Inv_resume s t :
  pc s t = Asleep → wq_blocked (s_queue s) t = false → Inv s → Inv (goto t Inside s).
Proof.
  intros Hpc Hb HI. assert (Hw : waits s t) by (by right).
  assert (Ho : LockState.owner (s_lock s) = Some t).
  { destruct (line_cases _ _ (inv_line s HI t Hw)) as [|Hin]; [done|].
    pose proof (inv_asleep s HI t Hin Hpc). congruence. }
  destruct (inv_owner s HI t Ho) as [?|[_ Hh]]; [congruence|].
  destruct Hh as [(?&_)|[(_&Hp&_&Hn)|(u&_&_&Hbl&_)]]; [congruence| |by rewrite Hbl in Hb].
  replace (goto t Inside s) with (goto t Inside (with_queue (s_queue s) s)) by (by destruct s).
  apply Inv_goto_inside; try done. apply (inv_live _ HI). congruence.
Qed.

(** Giving the lock back: it goes to the first waiter, if any. *)
Lemma Inv_release s t s' : pc s t = Inside → release t s = Some s' → Inv s → Inv s'.
Proof.
  intros Hpc Hr HI. destruct (inv_inside s HI t Hpc) as [Ho Hn].
  pose proof (owner_not_waiter s t HI Ho) as Hnw.
  pose proof (LockState.wf_unlock t _ (inv_wf s HI)) as Hwf.
  assert (Hno : ∀ u x, pc s u ≠ ToWake x).
  { intros u x Hu. assert (x = t) as -> by (apply (inv_wake s HI) in Hu; congruence). by destruct (Hn u). }
  unfold release, LockState.unlock in *. rewrite decide_True in Hr, Hwf by done.
  set (p := match LockState.waiters (s_lock s) with [] => Outside | n :: _ => ToWake n end).
  set (l := match LockState.waiters (s_lock s) with
            | [] => LockState.mkLockState None [] | n :: r => LockState.mkLockState (Some n) r end) in *.
  assert (s' = goto t p (with_lock l s)) as ->.
  { subst l p. destruct (LockState.waiters (s_lock s)); cbn in Hr; congruence. }
  assert (Hpc' : ∀ t', pc (goto t p (with_lock l s)) t' = if decide (t = t') then p else pc s t')
    by (intros; by rewrite pc_goto).
  assert (Hline : LockState.waiters (s_lock s) = LockState.line l)
    by (subst l; unfold LockState.line; by destruct (LockState.waiters _)).
  assert (Hsub : ∀ x, x ∈ LockState.waiters l → x ∈ LockState.waiters (s_lock s)).
  { intros x Hx. rewrite Hline. unfold LockState.line. set_solver. }
  split; cbn [goto with_lock s_lock s_queue].
  - done.
  - intros x. rewrite Hpc'. case_decide; [by subst p; destruct (LockState.waiters _)|].
    intros [Hx _]%(inv_inside s HI). congruence.
  - intros x Hx. unfold waits. rewrite Hpc', decide_False by (intros ->; by apply Hnw, Hsub).
    by apply (inv_waiters s HI), Hsub.
  - unfold waits. intros x. rewrite Hpc'. case_decide.
    { subst p. destruct (LockState.waiters _); intros [?|?]; done. }
    intros Hx%(inv_line s HI). rewrite <-Hline. destruct (line_cases _ _ Hx); [congruence|done].
  - intros x Hx. assert (Hin : x ∈ LockState.waiters (s_lock s)).
    { rewrite Hline. unfold LockState.line. rewrite Hx. set_solver. }
    assert (t ≠ x) by congruence. right. unfold waits, handed. cbn.
    rewrite Hpc', decide_False by done. split; [by apply (inv_waiters s HI)|]. right; right.
    exists t. rewrite Hpc', decide_True by done. split_and!.
    + subst p l. destruct (LockState.waiters _); cbn in Hx; congruence.
    + by apply (inv_quiet s HI).
    + by apply (inv_asleep s HI).
    + intros u'. rewrite Hpc'. case_decide; [done|]. intros Hu. by destruct (Hno u' x).
  - intros u x. rewrite Hpc'. case_decide; [|intros Hu; by destruct (Hno u x)].
    subst p l. destruct (LockState.waiters _); cbn; congruence.
  - intros x. rewrite Hpc'. case_decide; [|apply (inv_live s HI)]. subst x. intros _.
    apply (inv_live s HI). congruence.
  - intros x Hx. by apply (inv_quiet s HI), Hsub.
  - intros x. rewrite Hpc'. case_decide; [by subst p; destruct (LockState.waiters _)|apply (inv_awake s HI)].
  - intros x Hx. rewrite Hpc'. case_decide; [by subst p; destruct (LockState.waiters _)|].
    by apply (inv_asleep s HI), Hsub.
Qed.

(** The wake-up reaches the new owner, asleep or not. *)
Lemma handed_woken s t next : pc s t = ToWake next → Inv s →
  let s' := wake t next s in waits s' next ∧ handed s' next.
Proof.
  intros Hpc HI s'. pose proof (inv_wake s HI t next Hpc) as Ho.
  assert (Hpc' : ∀ t', pc s' t' = if decide (t = t') then Outside else pc s t')
    by (intros; subst s'; unfold wake; by rewrite pc_goto).
  destruct (inv_owner s HI next Ho) as [Hi|[Hw Hh]].
  { destruct (inv_inside s HI next Hi) as [_ Hn]. by destruct (Hn t). }
  assert (Hne : t ≠ next) by (intros ->; destruct Hw; congruence).
  destruct Hh as [(_&_&Hn)|[(_&_&_&Hn)|(u&Hu&Hp&Hb&Hn)]]; [by destruct (Hn t)..|].
  assert (u = t) as -> by (symmetry; by apply Hn).
  assert (Hno : ∀ u, pc s' u ≠ ToWake next).
  { intros u. rewrite Hpc'. case_decide; [done|]. intros E%Hn. congruence. }
  assert (Hl : wq_live (s_queue s) next) by (apply (inv_live s HI); destruct Hw; congruence).
  unfold waits, handed. rewrite Hpc', decide_False by done. split; [done|]. destruct Hw as [Hw|Hw].
  - left. split_and!; [done| |done]. apply (wq_wake_early _ _ Hl (inv_awake s HI next Hw)).
  - right; left. destruct (wq_wake_blocked _ _ (Hb Hw)) as [Hb' Hp']. cbn. rewrite Hp'. done.
Qed.

Lemma Mutex_Inv_wake s t next : pc s t = ToWake next → Inv s → Inv (wake t next s).
Proof.
  intros Hpc HI. pose proof (inv_wake s HI t next Hpc) as Ho.
  pose proof (handed_woken s t next Hpc HI) as Hh. cbv zeta in Hh. set (s' := wake t next s) in *.
  assert (Hpc' : ∀ t', pc s' t' = if decide (t = t') then Outside else pc s t')
    by (intros; subst s'; unfold wake; by rewrite pc_goto).
  pose proof (owner_not_waiter s next HI Ho) as Hnw.
  assert (Hq : ∀ x, x ∈ LockState.waiters (s_lock s) → wq_pending (s_queue s') x = wq_pending (s_queue s) x ∧
                 wq_blocked (s_queue s') x = wq_blocked (s_queue s) x).
  { intros x Hx. apply wq_wake_other. congruence. }
  split; cbn [s' wake goto with_queue s_lock s_queue] in *.
  - apply HI.
  - intros x. rewrite Hpc'. case_decide; [done|]. intros [Hx Hn]%(inv_inside s HI).
    split; [done|]. intros u. rewrite Hpc'. case_decide; [done|apply Hn].
  - intros x Hx%(inv_waiters s HI). unfold waits in *. rewrite Hpc'. case_decide; [subst x|done].
    destruct Hx; congruence.
  - unfold waits. intros x. rewrite Hpc'. case_decide; [naive_solver|]. apply (inv_line s HI).
  - intros x Hx. assert (x = next) as -> by congruence. by right.
  - intros u x. rewrite Hpc'. case_decide; [done|apply (inv_wake s HI)].
  - intros x. rewrite Hpc'. case_decide; [done|]. intros. by apply wq_wake_live, (inv_live s HI).
  - intros x Hx. rewrite (proj1 (Hq x Hx)). by apply (inv_quiet s HI).
  - intros x. rewrite Hpc'. case_decide; [done|]. intros Hx. destruct (decide (x = next)) as [->|Hne].
    + apply wq_wake_early; [apply (inv_live s HI); congruence|by apply (inv_awake s HI)].
    + rewrite (proj2 (wq_wake_other _ next x Hne)). by apply (inv_awake s HI).
  - intros x Hx. rewrite Hpc'. case_decide; [done|]. rewrite (proj2 (Hq x Hx)). by apply (inv_asleep s HI).
Qed.

Lemma Inv_other s q :
  (∀ t, pc s t ≠ Outside → wq_live q t) →
  (∀ t, waits s t → wq_blocked q t = wq_blocked (s_queue s) t ∧
                    wq_pending q t = wq_pending (s_queue s) t) →
  Inv s → Inv (with_queue q s).
Proof.
  intros Hl Hq HI. split; cbn [with_queue s_lock s_queue]; try by apply HI.
  - intros t Ho. destruct (inv_owner s HI t Ho) as [Hi|[Hw Hh]]; [by left|].
    right. split; [done|]. unfold handed. cbn. destruct (Hq t Hw) as [-> ->]. exact Hh.
  - done.
  - intros t Ht. rewrite (proj2 (Hq t (inv_waiters s HI t Ht))). by apply (inv_quiet s HI).
  - intros t Ht. rewrite (proj1 (Hq t (or_introl Ht))). by apply (inv_awake s HI).
  - intros t Ht Ha. rewrite (proj1 (Hq t (or_intror Ha))). by apply (inv_asleep s HI).
Qed.

Lemma Inv_init q : Inv (mkSystem LockState.new ∅ q).
Proof.
  assert (Hpc : ∀ t, pc (mkSystem LockState.new ∅ q) t = Outside)
    by (intros; unfold pc; cbn; by rewrite lookup_empty).
  split; unfold waits; cbn; intros; rewrite ?Hpc in *; try done; try set_solver.
  split; [done|constructor].
Qed.

Lemma Inv_reachable s : reachable s → Inv s.
Proof.
  induction 1 as [|s s' _ IH Hs]; [apply Inv_init|].
  destruct Hs; eauto using Inv_request, Inv_block, Inv_resume, Inv_release, Mutex_Inv_wake, Inv_other.
Qed.

(** C13: mutual exclusion.  Over any scheduler that keeps the [WaitQueue] promise and in any
    interleaving of the tasks' steps, at most one task runs its closure, that task is the
    lock's owner, its unlock succeeds, and [lock] never reports [AlreadyHeld] to a task that
    is not inside. *)
Theorem mutex_exclusive s t :
  reachable s → pc s t = Inside →
  LockState.owner (s_lock s) = Some t ∧
  (∀ u, pc s u = Inside → u = t) ∧
  is_Some (release t s) ∧
  (∀ u, pc s u = Outside → is_Some (request true u s)).
Proof.
  intros HI%Inv_reachable Ht. destruct (inv_inside s HI t Ht) as [Ho _]. split_and!; [done|..].
  - intros u Hu. destruct (inv_inside s HI u Hu). congruence.
  - unfold release, LockState.unlock. rewrite decide_True by done.
    destruct (LockState.waiters (s_lock s)); cbn; eauto.
  - intros u Hu. unfold request, LockState.lock. rewrite Ho, decide_False by congruence. eauto.
Qed.

(** C33: no wake-up is lost.  When the lock has an owner, that task is running its closure,
    or it will find its wake-up pending when it blocks, or it has been woken, or exactly one
    task is about to wake it; and a waiter that is asleep is never first in line for a free
    lock. *)
Theorem handover_not_lost s :
  reachable s →
  (∀ t, LockState.owner (s_lock s) = Some t → pc s t = Inside ∨ (waits s t ∧ handed s t)) ∧
  (LockState.owner (s_lock s) = None → ∀ t, ¬ waits s t ∧ pc s t ≠ Inside).
Proof.
  intros HI%Inv_reachable. split; [apply (inv_owner s HI)|]. intros Ho t. split.
  - intros Hw%(inv_line s HI). destruct (inv_wf s HI) as [Hnil _].
    unfold LockState.line in Hw. rewrite Ho, (Hnil Ho) in Hw. set_solver.
  - intros [Hi _]%(inv_inside s HI). congruence.
Qed.

End protocol.
End Mutex.

(** The protocol on the kernel's run queue: two tasks on two cores contend for the lock. *)
Module OnRunQueue.
Import RunQueue RunQueueWaits Mutex.

Definition two_cores : RunQueue :=
  mkRunQueue [Some (new_entry "a" Running); Some (new_entry "b" Running)] [Some 0; Some 1]
    [None; None] [] 0.

Definition start : System (Q := RunQueue) := mkSystem LockState.new ∅ two_cores.

(** Task 0 takes the lock, task 1 queues and falls asleep. *)
Definition contended : option System :=
  s ← request true 0 start; s ← request true 1 s; block 1 s.

Lemma contended_reachable s : contended = Some s → reachable s.
Proof.
  unfold contended. intros (s1 & H1 & (s2 & H2 & H3)%bind_Some)%bind_Some.
  eapply reachable_step; [eapply reachable_step; [eapply reachable_step; [apply (reachable_init two_cores)|]|]|].
  - apply (step_request start 0 true s1); [done| |done|done|done]. eexists. by split.
  - vm_compute in H1. injection H1 as <-.
    eapply (step_request _ 1 true); [done| |done|done|exact H2]. eexists. by split.
  - vm_compute in H1. injection H1 as <-. vm_compute in H2. injection H2 as <-.
    by eapply (step_block _ 1).
Qed.

Lemma mutex_exclusive_witness :
  ∃ s, contended = Some s ∧ pc s 0 = Inside ∧ pc s 1 = Asleep ∧ LockState.owner (s_lock s) = Some 0 ∧
    is_Some (release 0 s).
Proof.
  destruct contended as [s|] eqn:E; [|vm_compute in E; discriminate].
  pose proof (contended_reachable s E) as Hr. vm_compute in E. injection E as <-.
  eexists. split; [done|]. split; [done|]. split; [done|].
  destruct (mutex_exclusive _ 0 Hr eq_refl) as (H1 & _ & H2 & _). split; [exact H1|exact H2].
Defined.

Lemma handover_not_lost_witness :
  ∃ s, (s ← contended; release 0 s) = Some s ∧ LockState.owner (s_lock s) = Some 1 ∧
    pc s 0 = ToWake 1 ∧ waits s 1 ∧ handed s 1.
Proof.
  destruct contended as [s|] eqn:E; [|vm_compute in E; discriminate].
  pose proof (contended_reachable s E) as Hr. vm_compute in E. injection E as <-. cbn [mbind option_bind].
  match goal with |- ∃ _, ?r = _ ∧ _ => destruct r as [s'|] eqn:E'; [|vm_compute in E'; discriminate] end.
  assert (Hr' : reachable s').
  { eapply reachable_step; [exact Hr|]. eapply (step_release _ 0); [|exact E']. reflexivity. }
  exists s'. split; [done|]. destruct (handover_not_lost _ Hr') as [H _].
  vm_compute in E'. injection E' as <-. split_and!; [done|done|..];
  destruct (H 1 eq_refl) as [?|[? ?]]; [discriminate|assumption|discriminate|assumption].
Defined.

End OnRunQueue.
