(* ===== verification/Bytes.v ===== *)
(** Bytes: what the kernel uses of Rust's slices, integer byte orders and [str].

    A byte is a [Z] in [0..256].  Slicing out of range is [None] here; the caller says whether
    the source panics there or handles it. *)
From S2P Require Import Prelude.
From stdpp Require Import strings.
Open Scope Z_scope.

(** The bytes of an ASCII string literal. *)
Fixpoint str (s : string) : list Z :=
  match s with
  | EmptyString => []
  | String c s => Z.of_N (Ascii.N_of_ascii c) :: str s
  end.

Notation bytes := (list Z) (only parsing).
Definition is_bytes (l : list Z) : Prop := Forall (uint 8) l.

(** [to_le_bytes], [from_le_bytes] and the big-endian ones, at any width. *)
Fixpoint le_bytes (n : nat) (x : Z) : list Z :=
  match n with
  | O => []
  | S n => x mod 256 :: le_bytes n (x / 256)
  end.

Fixpoint le_value (l : list Z) : Z :=
  match l with
  | [] => 0
  | b :: l => b + 256 * le_value l
  end.

Definition be_bytes (n : nat) (x : Z) : list Z := rev (le_bytes n x).
Definition be_value (l : list Z) : Z := le_value (rev l).

Lemma length_le_bytes n x : length (le_bytes n x) = n.
Proof. revert x. induction n; intros; cbn; auto. Qed.

Lemma length_be_bytes n x : length (be_bytes n x) = n.
Proof. unfold be_bytes. by rewrite length_rev, length_le_bytes. Qed.

Lemma is_bytes_le_bytes n x : is_bytes (le_bytes n x).
Proof.
  revert x. induction n; intros; constructor; [|apply IHn]. apply Z.mod_pos_bound. lia.
Qed.

Lemma is_bytes_be_bytes n x : is_bytes (be_bytes n x).
Proof. unfold be_bytes, is_bytes. apply Forall_rev, is_bytes_le_bytes. Qed.

Lemma is_bytes_nil : is_bytes [].
Proof. constructor. Qed.

Lemma is_bytes_cons b l : uint 8 b → is_bytes l → is_bytes (b :: l).
Proof. by constructor. Qed.

Lemma is_bytes_app l1 l2 : is_bytes l1 → is_bytes l2 → is_bytes (l1 ++ l2).
Proof. intros. by apply Forall_app. Qed.

Lemma is_bytes_replicate n b : uint 8 b → is_bytes (replicate n b).
Proof. intros. by apply Forall_replicate. Qed.

Lemma is_bytes_take n l : is_bytes l → is_bytes (take n l).
Proof. apply Forall_take. Qed.

Lemma is_bytes_drop n l : is_bytes l → is_bytes (drop n l).
Proof. apply Forall_drop. Qed.

Lemma is_bytes_lookup l i b : is_bytes l → l !! i = Some b → uint 8 b.
Proof. intros H. by apply Forall_lookup. Qed.

(** Whether a composed message is made of bytes: [auto with bytes]. *)
Create HintDb bytes.
#[export] Hint Resolve is_bytes_nil is_bytes_cons is_bytes_app is_bytes_replicate is_bytes_take
  is_bytes_drop is_bytes_le_bytes is_bytes_be_bytes : bytes.
#[export] Hint Extern 1 (uint 8 _) => done || (unfold uint; lia) : bytes.

Lemma le_value_le_bytes n x : uint (8 * Z.of_nat n) x → le_value (le_bytes n x) = x.
Proof.
  revert x. induction n as [|n IH]; intros x Hx; cbn [le_bytes le_value].
  - unfold uint in Hx. cbn in Hx. lia.
  - unfold uint in *. rewrite Nat2Z.inj_succ in Hx.
    replace (8 * Z.succ (Z.of_nat n)) with (8 + 8 * Z.of_nat n) in Hx by lia.
    rewrite Z.pow_add_r in Hx by lia. change (2 ^ 8) with 256 in Hx.
    pose proof (Z.div_mod x 256 ltac:(lia)). rewrite IH; [lia|].
    split; [apply Z.div_pos; lia|apply Z.div_lt_upper_bound; lia].
Qed.

Lemma le_value_bound l : is_bytes l → uint (8 * Z.of_nat (length l)) (le_value l).
Proof.
  induction 1 as [|b l Hb _ IH]; unfold uint in *; cbn [le_value length]; [done|].
  rewrite Nat2Z.inj_succ. replace (8 * Z.succ (Z.of_nat (length l))) with (8 + 8 * Z.of_nat (length l)) by lia.
  rewrite Z.pow_add_r by lia. change (2 ^ 8) with 256 in *. nia.
Qed.

Lemma le_value_uint n l : is_bytes l → (length l ≤ n)%nat → uint (8 * Z.of_nat n) (le_value l).
Proof.
  intros Hl Hn. pose proof (le_value_bound l Hl) as [H0 H1]. split; [done|].
  eapply Z.lt_le_trans; [done|]. apply Z.pow_le_mono_r; lia.
Qed.

Lemma le_bytes_le_value l : is_bytes l → le_bytes (length l) (le_value l) = l.
Proof.
  induction 1 as [|b l Hb _ IH]; cbn [length le_bytes le_value]; [done|].
  unfold uint in Hb. change (2 ^ 8) with 256 in Hb.
  replace (b + 256 * le_value l) with (b + le_value l * 256) by lia.
  rewrite Z.mod_add, Z.div_add by lia. rewrite Z.mod_small, Z.div_small, Z.add_0_l by lia. by rewrite IH.
Qed.

Lemma be_value_be_bytes n x : uint (8 * Z.of_nat n) x → be_value (be_bytes n x) = x.
Proof. intros. unfold be_value, be_bytes. rewrite rev_involutive. by apply le_value_le_bytes. Qed.

Lemma be_value_bound l : is_bytes l → uint (8 * Z.of_nat (length l)) (be_value l).
Proof.
  intros H. unfold be_value. rewrite <-length_rev. apply le_value_bound.
  by apply Forall_rev.
Qed.

Lemma be_bytes_be_value l : is_bytes l → be_bytes (length l) (be_value l) = l.
Proof.
  intros H. unfold be_value, be_bytes. rewrite <-(length_rev l), le_bytes_le_value; [by rewrite rev_involutive|].
  by apply Forall_rev.
Qed.

(** [bytes.get(a..b)]. *)
Definition slice {A} (a b : nat) (l : list A) : option (list A) :=
  if decide (a ≤ b ∧ b ≤ length l)%nat then Some (take (b - a) (drop a l)) else None.

Lemma slice_Some {A} a b (l s : list A) :
  slice a b l = Some s ↔ (a ≤ b ≤ length l)%nat ∧ s = take (b - a) (drop a l).
Proof. unfold slice. case_decide; naive_solver. Qed.

Lemma slice_length {A} a b (l s : list A) : slice a b l = Some s → length s = (b - a)%nat.
Proof. intros [? ->]%slice_Some. rewrite length_take, length_drop. lia. Qed.

Lemma slice_app {A} (l1 l2 l3 : list A) :
  slice (length l1) (length l1 + length l2) (l1 ++ l2 ++ l3) = Some l2.
Proof.
  apply slice_Some. rewrite !length_app. split; [lia|]. rewrite drop_app_length.
  replace (length l1 + length l2 - length l1)%nat with (length l2) by lia. by rewrite take_app_length.
Qed.

(** * UTF-8

    A [str] is a byte string that [next_char] can cut up whole; the ranges are those of
    [core::str::from_utf8]. *)
Definition cont (b : Z) : bool := (0x80 <=? b) && (b <=? 0xBF).
Definition between (lo hi b : Z) : bool := (lo <=? b) && (b <=? hi).

(** The first character's length, if the bytes start with a whole, valid one. *)
Definition next_char (l : list Z) : option nat :=
  match l with
  | [] => None
  | b0 :: l =>
    if between 0 0x7F b0 then Some 1%nat else
    match l with
    | [] => None
    | b1 :: l =>
      if between 0xC2 0xDF b0 then (if cont b1 then Some 2%nat else None) else
      match l with
      | [] => None
      | b2 :: l =>
        if between 0xE0 0xEF b0 then
          if (if b0 =? 0xE0 then between 0xA0 0xBF b1
              else if b0 =? 0xED then between 0x80 0x9F b1 else cont b1) && cont b2
          then Some 3%nat else None
        else
        match l with
        | [] => None
        | b3 :: _ =>
          if between 0xF0 0xF4 b0 then
            if (if b0 =? 0xF0 then between 0x90 0xBF b1
                else if b0 =? 0xF4 then between 0x80 0x8F b1 else cont b1) && cont b2 && cont b3
            then Some 4%nat else None
          else None
        end
      end
    end
  end.

Fixpoint utf8_fuel (fuel : nat) (l : list Z) : bool :=
  match fuel, l with
  | _, [] => true
  | O, _ => false
  | S fuel, _ => match next_char l with Some n => utf8_fuel fuel (drop n l) | None => false end
  end.

(** [core::str::from_utf8(l).is_ok()]: a character is at least a byte, so [length l] rounds
    are enough. *)
Definition is_utf8 (l : list Z) : bool := utf8_fuel (length l) l.

(** [str::is_char_boundary]. *)
Definition is_char_boundary (l : list Z) (i : nat) : bool :=
  if decide (i = 0%nat) then true else
  match l !! i with
  | None => bool_decide (i = length l)
  | Some b => negb (cont b)
  end.

Lemma next_char_bounds l n : next_char l = Some n → (1 ≤ n ≤ length l)%nat.
Proof.
  unfold next_char. intros H.
  repeat (case_match; try discriminate; cbn [length] in *; simplify_eq); cbn; lia.
Qed.

Lemma utf8_fuel_enough f l : (length l ≤ f)%nat → utf8_fuel f l = is_utf8 l.
Proof.
  unfold is_utf8. revert l. induction f as [f IH] using lt_wf_ind; intros l Hf.
  destruct l as [|b l]; [by destruct f|]. destruct f as [|f]; [cbn in Hf; lia|].
  cbn [length utf8_fuel] in *. destruct (next_char (b :: l)) as [n|] eqn:E; [|done].
  apply next_char_bounds in E. cbn [length] in E.
  assert (length (drop n (b :: l)) ≤ length l)%nat by (rewrite length_drop; cbn [length]; lia).
  rewrite (IH f), (IH (length l)); [done|lia..].
Qed.

Lemma is_utf8_cons l : l ≠ [] →
  is_utf8 l = match next_char l with Some n => is_utf8 (drop n l) | None => false end.
Proof.
  destruct l as [|b l]; [done|]. intros _. unfold is_utf8 at 1. cbn [length utf8_fuel].
  destruct (next_char (b :: l)) as [n|] eqn:E; [|done]. apply next_char_bounds in E.
  apply utf8_fuel_enough. rewrite length_drop. cbn [length]. lia.
Qed.

(** A character's later bytes are continuation bytes, and what follows it does not matter. *)
Lemma next_char_shape l n i : next_char l = Some n → (0 < i < n)%nat → ∃ b, l !! i = Some b ∧ cont b = true.
Proof.
  unfold next_char. intros H Hi.
  assert (Hb : ∀ lo hi b, 0x80 <= lo → hi <= 0xBF → between lo hi b = true → cont b = true).
  { unfold between, cont. intros lo hi b ? ?. rewrite !andb_true_iff, !Z.leb_le. lia. }
  repeat (case_match; try discriminate; simplify_eq); try lia;
    repeat match goal with Hx : (_ && _)%bool = true |- _ => apply andb_true_iff in Hx as [? ?] end;
    (destruct i as [|[|[|[|]]]]; try lia); cbn; eexists; (split; [reflexivity|]);
    first [assumption|eapply Hb; [| |eassumption]; lia].
Qed.

Lemma next_char_take l n i : next_char l = Some n → (n ≤ i)%nat → next_char (take i l) = Some n.
Proof.
  unfold next_char. intros H Hi. destruct l as [|b0 l]; [done|]. destruct (between 0 0x7F b0) eqn:E0.
  { injection H as <-. destruct i; [lia|]. cbn. by rewrite E0. }
  destruct l as [|b1 l]; [done|]. destruct (between 0xC2 0xDF b0) eqn:E1.
  { destruct (cont b1) eqn:C1; [|done]. injection H as <-. do 2 (destruct i; [lia|]). cbn. by rewrite E0, E1, C1. }
  destruct l as [|b2 l]; [done|]. destruct (between 0xE0 0xEF b0) eqn:E2.
  { destruct (_ && _)%bool eqn:C2 in H; [|done]. injection H as <-. do 3 (destruct i; [lia|]). cbn.
    by rewrite E0, E1, E2, C2. }
  destruct l as [|b3 l]; [done|]. destruct (between 0xF0 0xF4 b0) eqn:E3; [|done].
  destruct (_ && _)%bool eqn:C3 in H; [|done]. injection H as <-. do 4 (destruct i; [lia|]). cbn.
  by rewrite E0, E1, E2, E3, C3.
Qed.

Lemma is_char_boundary_drop l n i :
  (n < i)%nat → is_char_boundary l i = true → is_char_boundary (drop n l) (i - n) = true.
Proof.
  intros Hn. unfold is_char_boundary. rewrite decide_False by lia. case_decide; [done|].
  rewrite lookup_drop. replace (n + (i - n))%nat with i by lia. destruct (l !! i) eqn:E; [done|].
  rewrite !bool_decide_eq_true, length_drop. lia.
Qed.

(** Cutting valid UTF-8 at a character boundary leaves valid UTF-8. *)
Lemma is_utf8_take l i : is_utf8 l = true → is_char_boundary l i = true → is_utf8 (take i l) = true.
Proof.
  remember (length l) as k eqn:Hk. revert l i Hk. induction k as [k IH] using lt_wf_ind; intros l i -> Hl Hi.
  destruct (decide (i = 0%nat)) as [->|Hi0]; [done|].
  destruct (decide (l = [])) as [->|Hne]; [by rewrite take_nil|].
  rewrite is_utf8_cons in Hl by done. destruct (next_char l) as [n|] eqn:E; [|done].
  pose proof (next_char_bounds _ _ E).
  assert (n ≤ i)%nat.
  { destruct (Nat.le_gt_cases n i) as [|Hlt]; [done|].
    destruct (next_char_shape l n i E ltac:(lia)) as (b & Hb & Hc).
    unfold is_char_boundary in Hi. by rewrite decide_False, Hb, Hc in Hi by done. }
  rewrite is_utf8_cons by (destruct l, i; cbn in *; done || lia).
  rewrite (next_char_take l n i E) by done. rewrite skipn_firstn_comm.
  destruct (decide (i = n)) as [->|]; [by rewrite Nat.sub_diag|].
  apply (IH (length (drop n l))); [rewrite length_drop; lia|done|done|].
  apply is_char_boundary_drop; [lia|done].
Qed.

(** Cuts at or below [i], down to the nearest boundary. *)
Fixpoint floor_char_boundary (l : list Z) (i : nat) : nat :=
  if is_char_boundary l i then i else
  match i with O => O | S i => floor_char_boundary l i end.

Lemma floor_char_boundary_spec l i :
  let n := floor_char_boundary l i in
  (n ≤ i)%nat ∧ is_char_boundary l n = true ∧ ∀ j, (n < j ≤ i)%nat → is_char_boundary l j = false.
Proof.
  induction i as [|i IH]; cbn [floor_char_boundary].
  - split_and!; [done|done|lia].
  - destruct (is_char_boundary l (S i)) eqn:E; [split_and!; [done|done|lia]|].
    destruct IH as (? & ? & Hj). split_and!; [lia|done|]. intros j Hlt.
    destruct (decide (j = S i)) as [->|]; [done|]. apply Hj. lia.
Qed.

Lemma next_char_app l r n : next_char l = Some n → next_char (l ++ r) = Some n.
Proof.
  unfold next_char. intros H. destruct l as [|b0 l]; [done|]. cbn [app]. destruct (between 0 0x7F b0); [done|].
  destruct l as [|b1 l]; [done|]. cbn [app]. destruct (between 0xC2 0xDF b0); [done|].
  destruct l as [|b2 l]; [done|]. cbn [app]. destruct (between 0xE0 0xEF b0); [done|].
  destruct l as [|b3 l]; done.
Qed.

Lemma is_utf8_ind (Q : list Z → Prop) :
  Q [] → (∀ l n, l ≠ [] → next_char l = Some n → is_utf8 (drop n l) = true → Q (drop n l) → Q l) →
  ∀ l, is_utf8 l = true → Q l.
Proof.
  intros H0 Hs l. remember (length l) as k eqn:Hk. revert l Hk.
  induction k as [k IH] using lt_wf_ind; intros l -> Hl. destruct (decide (l = [])) as [->|Hne]; [done|].
  pose proof Hl as Hl'. rewrite is_utf8_cons in Hl' by done. destruct (next_char l) as [n|] eqn:E; [|done].
  pose proof (next_char_bounds _ _ E). apply (Hs l n Hne E Hl'). apply (IH (length (drop n l))); [|done|done].
  rewrite length_drop. lia.
Qed.

Lemma is_utf8_app l r : is_utf8 l = true → is_utf8 r = true → is_utf8 (l ++ r) = true.
Proof.
  intros Hl Hr. revert l Hl. apply (is_utf8_ind (λ l, is_utf8 (l ++ r) = true)); [done|].
  intros l n Hne Hn _ IH. rewrite is_utf8_cons by (by destruct l). rewrite (next_char_app l r n Hn).
  apply next_char_bounds in Hn. rewrite drop_app_le by lia. done.
Qed.

Lemma is_utf8_ascii b : 0 <= b <= 0x7F → is_utf8 [b] = true.
Proof.
  intros Hb. rewrite is_utf8_cons by done. unfold next_char, between.
  rewrite (proj2 (Z.leb_le _ _)), (proj2 (Z.leb_le _ _)) by lia. done.
Qed.

(** Swapping ASCII characters for ASCII characters. *)
Definition ascii_map (f : Z → Z) : Prop := ∀ b, f b = b ∨ (0 <= b <= 0x7F ∧ 0 <= f b <= 0x7F).

Lemma next_char_map f l : ascii_map f → next_char (f <$> l) = next_char l.
Proof.
  intros Hf. assert (Hb : ∀ lo hi b, 0x80 <= lo → between lo hi (f b) = between lo hi b).
  { intros lo hi b Hlo. destruct (Hf b) as [->|[? ?]]; [done|]. unfold between.
    by rewrite (proj2 (Z.leb_gt lo (f b))), (proj2 (Z.leb_gt lo b)) by lia. }
  assert (H0 : ∀ b, between 0 0x7F (f b) = between 0 0x7F b).
  { intros b. destruct (Hf b) as [->|[? ?]]; [done|]. unfold between.
    rewrite (proj2 (Z.leb_le 0 (f b))), (proj2 (Z.leb_le 0 b)), (proj2 (Z.leb_le (f b) _)), (proj2 (Z.leb_le b _)) by lia. done. }
  assert (Hc : ∀ b, cont (f b) = cont b) by (intros b; apply (Hb 0x80 0xBF b); lia).
  assert (He : ∀ b k, 0x80 <= k → (f b =? k) = (b =? k)).
  { intros b k Hk. destruct (Hf b) as [->|[? ?]]; [done|]. by rewrite (proj2 (Z.eqb_neq (f b) k)), (proj2 (Z.eqb_neq b k)) by lia. }
  destruct l as [|b0 [|b1 [|b2 [|b3 l]]]]; unfold next_char; cbn [fmap list_fmap]; [done|..];
    repeat first [rewrite H0|rewrite Hc|rewrite Hb by lia|rewrite He by lia]; done.
Qed.

Lemma is_utf8_map f l : ascii_map f → is_utf8 (f <$> l) = is_utf8 l.
Proof.
  intros Hf. remember (length l) as k eqn:Hk. revert l Hk. induction k as [k IH] using lt_wf_ind; intros l ->.
  destruct (decide (l = [])) as [->|Hne]; [done|].
  rewrite !is_utf8_cons by (try done; by destruct l). rewrite next_char_map by done.
  destruct (next_char l) as [n|] eqn:E; [|done]. apply next_char_bounds in E. rewrite <-fmap_drop.
  apply (IH (length (drop n l))); [rewrite length_drop; lia|done].
Qed.

(** [str::split_once] on an ASCII character. *)
Fixpoint split_once (sep : Z) (l : list Z) : option (list Z * list Z) :=
  match l with
  | [] => None
  | b :: l => if b =? sep then Some ([], l)
              else '(a, r) ← split_once sep l; Some (b :: a, r)
  end.

Lemma split_once_app sep a r : sep ∉ a → split_once sep (a ++ sep :: r) = Some (a, r).
Proof.
  induction a as [|b a IH]; intros Ha; cbn; [by rewrite Z.eqb_refl|].
  apply not_elem_of_cons in Ha as [Hb Ha]. rewrite (proj2 (Z.eqb_neq b sep)) by done. by rewrite IH.
Qed.

Lemma split_once_None sep a : sep ∉ a → split_once sep a = None.
Proof.
  induction a as [|b a IH]; intros Ha; cbn; [done|]. apply not_elem_of_cons in Ha as [Hb Ha].
  rewrite (proj2 (Z.eqb_neq b sep)) by done. by rewrite IH.
Qed.

Lemma split_once_Some sep l a r : split_once sep l = Some (a, r) → l = a ++ sep :: r ∧ sep ∉ a.
Proof.
  revert a. induction l as [|b l IH]; intros a; cbn; [done|]. destruct (Z.eqb_spec b sep) as [->|Hne].
  - intros [= <- <-]. split; [done|]. apply not_elem_of_nil.
  - intros ([a' r'] & Hs & [= <- <-])%bind_Some. destruct (IH _ Hs) as [-> Ha]. split; [done|].
    by apply not_elem_of_cons.
Qed.

(** [str::split] on one byte. *)
Fixpoint split (sep : Z) (l : list Z) : list (list Z) :=
  match l with
  | [] => [[]]
  | b :: l => if b =? sep then [] :: split sep l
              else match split sep l with p :: r => (b :: p) :: r | [] => [[b]] end
  end.

(** [str::split_inclusive]: pieces that end with a character [p] accepts, but for the last. *)
Fixpoint split_inclusive (p : Z → bool) (l : list Z) : list (list Z) :=
  match l with
  | [] => []
  | b :: l => if p b then [b] :: split_inclusive p l
              else match split_inclusive p l with
                   | [] => [[b]]
                   | piece :: rest => (b :: piece) :: rest
                   end
  end.

(** [str::strip_suffix] of one such character. *)
Definition strip_suffix (p : Z → bool) (l : list Z) : option (list Z) :=
  match last l with
  | Some b => if p b then Some (removelast l) else None
  | None => None
  end.

Lemma split_inclusive_nonempty p l : Forall (λ s, s ≠ []) (split_inclusive p l).
Proof.
  induction l as [|b l IH]; cbn; [constructor|]. destruct (p b); [by constructor|].
  destruct (split_inclusive p l) as [|s r]; [by constructor|]. apply Forall_cons in IH as [_ IH]. by constructor.
Qed.

(** Replaces the marker at the end of a piece. *)
Definition replace_end (p : Z → bool) (q : Z) (piece : list Z) : list Z :=
  match strip_suffix p piece with Some text => text ++ [q] | None => piece end.

Lemma replace_end_cons p q b piece : piece ≠ [] → replace_end p q (b :: piece) = b :: replace_end p q piece.
Proof.
  intros Hne. unfold replace_end, strip_suffix. rewrite last_cons. destruct (last piece) as [z|] eqn:El.
  - destruct (p z); [|done]. by destruct piece.
  - by apply last_None in El.
Qed.

(** Doing so to every piece replaces every marker. *)
Lemma split_inclusive_replace p (q : Z) l :
  concat (replace_end p q <$> split_inclusive p l) = (λ b, if p b then q else b) <$> l.
Proof.
  induction l as [|b l IH]; [done|]. cbn [split_inclusive]. rewrite fmap_cons, <-IH. clear IH. destruct (p b) eqn:Hb.
  - unfold replace_end at 1, strip_suffix. cbn. by rewrite Hb.
  - pose proof (split_inclusive_nonempty p l) as Hne. destruct (split_inclusive p l) as [|piece rest].
    + unfold replace_end, strip_suffix. cbn. by rewrite Hb.
    + apply Forall_cons in Hne as [Hp _]. rewrite !fmap_cons, !concat_cons, replace_end_cons by done. done.
Qed.

(** * Decimal numbers *)

(** [{}] of an unsigned integer: 20 digits are enough for 64 bits. *)
Fixpoint dec_fuel (fuel : nat) (n : Z) : list Z :=
  match fuel with
  | O => []
  | S fuel => (if n <? 10 then [] else dec_fuel fuel (n / 10)) ++ [0x30 + n mod 10]
  end.
Definition dec (n : Z) : list Z := dec_fuel 20 n.

(** [str::parse] of an unsigned integer up to [max]: a [+] may come first. *)
Fixpoint parse_digits (max acc : Z) (l : list Z) : option Z :=
  match l with
  | [] => Some acc
  | c :: l => if between 0x30 0x39 c then
                let v := acc * 10 + (c - 0x30) in
                if v <=? max then parse_digits max v l else None
              else None
  end.
Definition parse_uint (max : Z) (l : list Z) : option Z :=
  match l with
  | [] | [0x2B] | [0x2D] => None
  | 0x2B :: l => parse_digits max 0 l
  | _ => parse_digits max 0 l
  end.

Lemma parse_digits_app max acc l r :
  parse_digits max acc (l ++ r) = parse_digits max acc l ≫= λ v, parse_digits max v r.
Proof.
  revert acc. induction l as [|c l IH]; intros acc; cbn; [done|]. destruct (between _ _ c); [|done].
  destruct (_ <=? max); [apply IH|done].
Qed.

Lemma parse_dec_fuel max fuel n : 0 <= n < 10 ^ Z.of_nat fuel → n <= max → (0 < fuel)%nat →
  parse_digits max 0 (dec_fuel fuel n) = Some n.
Proof.
  revert n. induction fuel as [|fuel IH]; intros n Hn Hm Hf; [lia|]. cbn [dec_fuel].
  pose proof (Z.mod_pos_bound n 10 ltac:(lia)). pose proof (Z.div_mod n 10 ltac:(lia)).
  assert (Hd : ∀ acc, acc * 10 + n mod 10 = n → parse_digits max acc [0x30 + n mod 10] = Some n).
  { intros acc Hacc. cbn [parse_digits]. unfold between.
    rewrite (proj2 (Z.leb_le 0x30 _)), (proj2 (Z.leb_le _ 0x39)) by lia. cbn [andb].
    replace (acc * 10 + (0x30 + n mod 10 - 0x30)) with n by lia. by rewrite (proj2 (Z.leb_le n max)). }
  destruct (Z.ltb_spec n 10) as [Hlt|Hge]; [apply Hd; lia|].
  rewrite parse_digits_app, IH; [cbn [mbind option_bind]; apply Hd; lia|..].
  - rewrite Nat2Z.inj_succ, Z.pow_succ_r in Hn by lia. split; [apply Z.div_pos; lia|]. apply Z.div_lt_upper_bound; lia.
  - assert (n / 10 <= n) by (apply Z.div_le_upper_bound; lia). lia.
  - destruct fuel; [|lia]. cbn in Hn. lia.
Qed.

Lemma dec_digits fuel n : 0 <= n → Forall (λ c, 0x30 <= c <= 0x39) (dec_fuel fuel n).
Proof.
  revert n. induction fuel as [|fuel IH]; intros n Hn; cbn; [constructor|].
  apply Forall_app. split.
  - destruct (n <? 10); [constructor|]. apply IH, Z.div_pos; lia.
  - constructor; [|constructor]. pose proof (Z.mod_pos_bound n 10). lia.
Qed.

Lemma dec_nonempty n : dec n ≠ [].
Proof. unfold dec. cbn [dec_fuel]. intros []%app_nil. done. Qed.

Lemma length_dec_fuel fuel n k : 0 <= n < 10 ^ Z.of_nat k → (0 < k)%nat → (length (dec_fuel fuel n) ≤ k)%nat.
Proof.
  revert n k. induction fuel as [|fuel IH]; intros n k Hn Hk; cbn; [lia|]. rewrite length_app. cbn.
  destruct (Z.ltb_spec n 10); cbn; [lia|]. destruct k as [|[|k]]; [lia|cbn in Hn; lia|].
  rewrite (Nat2Z.inj_succ (S k)), Z.pow_succ_r in Hn by lia.
  assert (length (dec_fuel fuel (n / 10)) ≤ S k)%nat; [|lia]. apply IH; [|lia].
  split; [apply Z.div_pos; lia|]. apply Z.div_lt_upper_bound; lia.
Qed.

(** Printing a number and reading it back. *)
Lemma parse_dec max n : 0 <= n <= max → max < 10 ^ 20 → parse_uint max (dec n) = Some n.
Proof.
  intros Hn Hmax. assert (Hp : parse_digits max 0 (dec n) = Some n) by (apply parse_dec_fuel; cbn; lia).
  pose proof (dec_digits 20 n ltac:(lia)) as Hd. fold (dec n) in Hd. unfold parse_uint.
  destruct (dec n) as [|c l] eqn:E; [by apply dec_nonempty in E|]. apply Forall_cons in Hd as [Hc _].
  rewrite <-Hp. destruct c as [|c|c]; [lia| |lia].
  repeat (destruct c as [c|c|]; try lia; try done).
Qed.
