(* ===== verification/Text.v ===== *)
(** Text as characters: the parts of [char] and [str] that work on Unicode scalar values rather
    than on bytes.  A [&str] is modelled by the list of its characters here; UTF-16 as the FAT
    long names use it, the lossy UTF-8 decoding of a volume label, and the trimming and splitting
    methods.  [char::to_lowercase] is a table of the Unicode version the compiler ships, so it is
    an argument (class [Unicode]) of which only the ASCII part is relied on. *)
From S2P Require Import Prelude Bytes.
Open Scope Z_scope.

Module Text.

(** A Unicode scalar value. *)
Definition is_char (c : Z) : Prop := 0 <= c < 0xD800 ∨ 0xE000 <= c < 0x110000.

Definition REPLACEMENT_CHARACTER : Z := 0xFFFD.

Definition is_ascii_uppercase (c : Z) : bool := between 0x41 0x5A c.
Definition is_ascii_lowercase (c : Z) : bool := between 0x61 0x7A c.
Definition is_ascii_digit (c : Z) : bool := between 0x30 0x39 c.
Definition is_ascii_alphanumeric (c : Z) : bool :=
  is_ascii_uppercase c || is_ascii_lowercase c || is_ascii_digit c.
Definition to_ascii_uppercase (c : Z) : Z := if is_ascii_lowercase c then c - 32 else c.
Definition to_ascii_lowercase (c : Z) : Z := if is_ascii_uppercase c then c + 32 else c.

Class Unicode := {
  to_lowercase : Z → list Z;
  to_lowercase_ascii c : 0 <= c < 128 → to_lowercase c = [to_ascii_lowercase c] }.

(** Only ASCII letters have a case: enough to run the definitions on concrete names. *)
Definition ascii_only : Unicode := {|
  to_lowercase c := [to_ascii_lowercase c];
  to_lowercase_ascii c _ := eq_refl |}.

(** [flat_map(char::to_lowercase)]. *)
Definition lowercase `{Unicode} (s : list Z) : list Z := concat (to_lowercase <$> s).

(** [char::is_whitespace]. *)
Definition is_whitespace (c : Z) : bool :=
  between 0x09 0x0D c || (c =? 0x20) || (c =? 0x85) || (c =? 0xA0) || (c =? 0x1680) ||
  between 0x2000 0x200A c || (c =? 0x2028) || (c =? 0x2029) || (c =? 0x202F) || (c =? 0x205F) ||
  (c =? 0x3000).

Fixpoint trim_start_by (p : Z → bool) (s : list Z) : list Z :=
  match s with
  | c :: r => if p c then trim_start_by p r else s
  | [] => []
  end.
Definition trim_end_by (p : Z → bool) (s : list Z) : list Z := rev (trim_start_by p (rev s)).
Definition trim_end (s : list Z) : list Z := trim_end_by is_whitespace s.

(** [str::rsplit_once] on one character. *)
Definition rsplit_once (sep : Z) (s : list Z) : option (list Z * list Z) :=
  '(a, b) ← split_once sep (rev s); Some (rev b, rev a).

(** [str::len]: the bytes of the UTF-8 form. *)
Definition len_utf8 (c : Z) : Z :=
  if c <? 0x80 then 1 else if c <? 0x800 then 2 else if c <? 0x10000 then 3 else 4.
Definition str_len (s : list Z) : Z := foldr (λ c n, len_utf8 c + n) 0 s.

(** [str::encode_utf16]. *)
Definition encode_char (c : Z) : list Z :=
  if c <? 0x10000 then [c]
  else let c := c - 0x10000 in
       [Z.lor 0xD800 (Z.shiftr c 10); Z.lor 0xDC00 (Z.land c 0x3FF)].
Definition encode_utf16 (s : list Z) : list Z := concat (encode_char <$> s).

(** [char::decode_utf16], an unpaired surrogate becoming U+FFFD. *)
Fixpoint decode_utf16 (us : list Z) : list Z :=
  match us with
  | [] => []
  | u :: us =>
    if negb (Z.land u 0xF800 =? 0xD800) then u :: decode_utf16 us
    else if 0xDC00 <=? u then REPLACEMENT_CHARACTER :: decode_utf16 us
    else match us with
         | [] => [REPLACEMENT_CHARACTER]
         | u2 :: us' =>
           if between 0xDC00 0xDFFF u2
           then Z.lor (Z.shiftl (Z.land u 0x3FF) 10) (Z.land u2 0x3FF) + 0x10000 :: decode_utf16 us'
           else REPLACEMENT_CHARACTER :: decode_utf16 us
         end
  end.

(** [String::from_utf8_lossy]: each maximal piece that is not UTF-8 becomes one U+FFFD. *)
Definition char_at (l : list Z) (n : nat) : Z :=
  match l, n with
  | b0 :: _, 1%nat => b0
  | b0 :: b1 :: _, 2%nat => Z.lor (Z.shiftl (Z.land b0 0x1F) 6) (Z.land b1 0x3F)
  | b0 :: b1 :: b2 :: _, 3%nat =>
      Z.lor (Z.lor (Z.shiftl (Z.land b0 0xF) 12) (Z.shiftl (Z.land b1 0x3F) 6)) (Z.land b2 0x3F)
  | b0 :: b1 :: b2 :: b3 :: _, _ =>
      Z.lor (Z.lor (Z.lor (Z.shiftl (Z.land b0 0x7) 18) (Z.shiftl (Z.land b1 0x3F) 12))
        (Z.shiftl (Z.land b2 0x3F) 6)) (Z.land b3 0x3F)
  | _, _ => REPLACEMENT_CHARACTER
  end.

(** How many bytes of an invalid sequence are passed over at once. *)
Definition invalid_len (l : list Z) : nat :=
  match l with
  | b0 :: b1 :: l =>
    let second :=
      (between 0xE1 0xEC b0 || between 0xEE 0xEF b0 || between 0xF1 0xF3 b0) && cont b1 ||
      (b0 =? 0xE0) && between 0xA0 0xBF b1 || (b0 =? 0xED) && between 0x80 0x9F b1 ||
      (b0 =? 0xF0) && between 0x90 0xBF b1 || (b0 =? 0xF4) && between 0x80 0x8F b1 in
    if negb second then 1%nat else
    match l with
    | b2 :: _ => if between 0xF0 0xF4 b0 && cont b2 then 3%nat else 2%nat
    | [] => 2%nat
    end
  | _ => 1%nat
  end.

Fixpoint from_utf8_lossy (fuel : nat) (l : list Z) : list Z :=
  match fuel, l with
  | S fuel, _ :: _ =>
    match next_char l with
    | Some n => char_at l n :: from_utf8_lossy fuel (drop n l)
    | None => REPLACEMENT_CHARACTER :: from_utf8_lossy fuel (drop (invalid_len l) l)
    end
  | _, _ => []
  end.

(** * Lemmas *)

(** Encoding and decoding UTF-16 gives the characters back. *)
Lemma high_half v : 0 <= v < 2 ^ 20 → Z.lor 0xD800 (Z.shiftr v 10) = 0xD800 + v / 2 ^ 10.
Proof.
  intros. rewrite Z.shiftr_div_pow2 by lia. change 0xD800 with (Z.shiftl 54 10).
  rewrite lor_shiftl_add, Z.shiftl_mul_pow2; Z.to_euclidean_division_equations; lia.
Qed.

Lemma low_half v : Z.lor 0xDC00 (Z.land v 0x3FF) = 0xDC00 + v mod 2 ^ 10.
Proof.
  change 0x3FF with (Z.ones 10). rewrite Z.land_ones by lia. change 0xDC00 with (Z.shiftl 55 10).
  by rewrite lor_shiftl_add, Z.shiftl_mul_pow2 by (lia || apply Z.mod_pos_bound; lia).
Qed.

Lemma surrogate_mask u : 0 <= u < 0x10000 → Z.land u 0xF800 = u / 2 ^ 11 * 2 ^ 11.
Proof. intros. change 0xF800 with (Z.shiftl (Z.ones 5) 11). by apply land_high_mask. Qed.

Lemma decode_encode_char c us : is_char c → decode_utf16 (encode_char c ++ us) = c :: decode_utf16 us.
Proof.
  intros Hc. unfold encode_char, is_char in *. destruct (Z.ltb_spec c 0x10000) as [Hs|Hs]; cbn [app decode_utf16].
  - rewrite surrogate_mask by lia. destruct (Z.eqb_spec (c / 2 ^ 11 * 2 ^ 11) 0xD800); cbn [negb]; [|done].
    Z.to_euclidean_division_equations; lia.
  - set (v := c - 0x10000). assert (Hv : 0 <= v < 2 ^ 20) by lia.
    rewrite high_half, low_half by done.
    assert (Hq : 0 <= v / 2 ^ 10 < 2 ^ 10) by (Z.to_euclidean_division_equations; lia).
    pose proof (Z.mod_pos_bound v (2 ^ 10) ltac:(lia)) as Hr. pose proof (Z.div_mod v (2 ^ 10) ltac:(lia)) as Hd.
    rewrite surrogate_mask by lia.
    rewrite (proj2 (Z.eqb_eq _ _)) by (Z.to_euclidean_division_equations; lia). cbn [negb].
    rewrite (proj2 (Z.leb_gt _ _)) by lia.
    unfold between. rewrite (proj2 (Z.leb_le 0xDC00 _)), (proj2 (Z.leb_le _ 0xDFFF)) by lia. cbn [andb].
    f_equal. change 0x3FF with (Z.ones 10). rewrite !Z.land_ones by lia.
    rewrite lor_shiftl_add by (lia || apply Z.mod_pos_bound; lia).
    change 0xD800 with (54 * 2 ^ 10). change 0xDC00 with (55 * 2 ^ 10).
    rewrite !(Z.add_comm (_ * _)), !Z_mod_plus_full, Z.mod_mod, (Z.mod_small (v / 2 ^ 10)) by lia. lia.
Qed.

Lemma decode_encode_utf16 s : Forall is_char s → decode_utf16 (encode_utf16 s) = s.
Proof.
  unfold encode_utf16. induction 1 as [|c s Hc _ IH]; cbn [fmap list_fmap concat]; [done|].
  rewrite decode_encode_char by done. by f_equal.
Qed.

Lemma encode_char_units c : is_char c →
  Forall (λ u, uint 16 u ∧ (u < 0xD800 → u = c) ∧ (0xE000 <= u → u = c)) (encode_char c).
Proof.
  intros Hc. unfold encode_char, is_char, uint in *. destruct (Z.ltb_spec c 0x10000).
  - constructor; [lia|constructor].
  - rewrite high_half, low_half by lia.
    constructor; [|constructor; [|constructor]]; Z.to_euclidean_division_equations; lia.
Qed.

Lemma rsplit_once_Some sep s a b : rsplit_once sep s = Some (a, b) → s = a ++ sep :: b ∧ sep ∉ b.
Proof.
  unfold rsplit_once. intros ([x y] & Hs & [= <- <-])%bind_Some.
  apply split_once_Some in Hs as [Hs Hn]. split.
  - apply (f_equal (@rev Z)) in Hs. rewrite rev_involutive, rev_app_distr in Hs. cbn [rev] in Hs.
    by rewrite <-app_assoc in Hs.
  - by rewrite list_elem_of_In, <-in_rev, <-list_elem_of_In.
Qed.

Lemma rsplit_once_None sep s : rsplit_once sep s = None → sep ∉ s.
Proof.
  unfold rsplit_once. intros H Hin. apply list_elem_of_split in Hin as (a & b & ->).
  assert (∃ x y, rev (a ++ sep :: b) = x ++ sep :: y ∧ sep ∉ x) as (x & y & E & Hx).
  { rewrite rev_app_distr. cbn [rev]. rewrite <-app_assoc. cbn [app].
    generalize (rev b) (rev a). intros l r. induction l as [|z l IH]; cbn [app].
    - exists [], r. split; [done|apply not_elem_of_nil].
    - destruct (decide (z = sep)) as [->|Hz].
      + exists [], (l ++ sep :: r). split; [done|apply not_elem_of_nil].
      + destruct IH as (x & y & E & Hx). exists (z :: x), y. cbn [app]. rewrite E. split; [done|].
        by apply not_elem_of_cons. }
  rewrite E, split_once_app in H by done. done.
Qed.

(** Trimming leaves alone what does not end in the trimmed characters. *)
Lemma trim_start_by_id p s : (∀ c, head s = Some c → p c = false) → trim_start_by p s = s.
Proof. destruct s as [|c s]; cbn; [done|]. intros H. by rewrite H. Qed.

Lemma trim_end_by_app p s : Forall (λ c, p c = true) s → ∀ r, (∀ c, last r = Some c → p c = false) →
  trim_end_by p (r ++ s) = r.
Proof.
  intros Hs r Hr. unfold trim_end_by. rewrite rev_app_distr.
  assert (Ht : ∀ t, trim_start_by p (rev s ++ t) = trim_start_by p t).
  { intros t. apply Forall_rev in Hs. induction Hs as [|c l Hc _ IH]; cbn; [done|]. by rewrite Hc. }
  rewrite Ht, trim_start_by_id; [apply rev_involutive|]. intros c Hc. apply Hr.
  rewrite <-(rev_involutive r). destruct (rev r) as [|x l]; [done|]. cbn in Hc. injection Hc as ->.
  cbn [rev]. by rewrite last_snoc.
Qed.

End Text.
