(* ===== verification/Abi.v ===== *)
(** The system call interface ([rustypi-abi/src/lib.rs]): constants, the typed calls and the
    registers they travel in, error codes, exit statuses and directory entries. *)
From S2P Require Import Prelude Bytes.
Open Scope Z_scope.

Module layout.
Definition PAGE_SIZE : Z := 4096.
Definition USER_BASE : Z := 0x80000000.
Definition USER_END : Z := 0xC0000000.
Definition STACK_TOP : Z := USER_END - PAGE_SIZE.
Definition STACK_SIZE : Z := 64 * 1024.
Definition PROGRAM_END : Z := STACK_TOP - STACK_SIZE - PAGE_SIZE.
Definition MAX_ARGS : Z := 1024.
End layout.

Definition MAX_WRITE : Z := 256.
Definition MAX_READ : Z := 256.
Definition MAX_RANDOM : Z := 256.
Definition MAX_PATH : Z := 256.
Definition MAX_FILE : Z := 4 * 1024 * 1024.
Definition MAX_HANDLES : Z := 16.
Definition INPUT : Z := 0.
Definition OUTPUT : Z := 1.
Definition PIPE_CAPACITY : Z := 4096.

Module Number.
Inductive Number :=
| Exit | Write | Yield | Sleep | Uptime | Map | Read | Random | Open | OpenDir | ReadDir
| Close | Spawn | Wait | Pipe | OpenScreen | Draw | Create | Remove | MakeDir | ChangeDir
| CurrentDir.

Definition as_u64 (n : Number) : Z :=
  match n with
  | Exit => 0 | Write => 1 | Yield => 2 | Sleep => 3 | Uptime => 4 | Map => 5 | Read => 6
  | Random => 7 | Open => 8 | OpenDir => 9 | ReadDir => 10 | Close => 11 | Spawn => 12
  | Wait => 13 | Pipe => 14 | OpenScreen => 15 | Draw => 16 | Create => 17 | Remove => 18
  | MakeDir => 19 | ChangeDir => 20 | CurrentDir => 21
  end.

Definition from_raw (raw : Z) : option Number :=
  match raw with
  | 0 => Some Exit | 1 => Some Write | 2 => Some Yield | 3 => Some Sleep | 4 => Some Uptime
  | 5 => Some Map | 6 => Some Read | 7 => Some Random | 8 => Some Open | 9 => Some OpenDir
  | 10 => Some ReadDir | 11 => Some Close | 12 => Some Spawn | 13 => Some Wait
  | 14 => Some Pipe | 15 => Some OpenScreen | 16 => Some Draw | 17 => Some Create
  | 18 => Some Remove | 19 => Some MakeDir | 20 => Some ChangeDir | 21 => Some CurrentDir
  | _ => None
  end.

Lemma from_raw_as_u64 n : from_raw (as_u64 n) = Some n.
Proof. by destruct n. Qed.

Lemma from_raw_Some raw n : from_raw raw = Some n → raw = as_u64 n.
Proof.
  intros H. destruct (decide (0 <= raw <= 21)) as [Hr|Hr].
  - assert (∃ k, (k ≤ 21)%nat ∧ raw = Z.of_nat k) as (k & Hk & ->) by (exists (Z.to_nat raw); lia).
    do 22 (destruct k as [|k]; [by injection H as <-|]). lia.
  - exfalso. destruct raw as [|p|]; cbn in H; [lia| |done].
    do 5 (try (destruct p as [p|p|]; try (cbn in H; discriminate); try lia)).
Qed.
End Number.

Module Errno.
Inductive Errno :=
| NoSys | Invalid | Fault | NoMemory | NotFound | IsADirectory | NotADirectory | BadHandle
| TooMany | Io | NotExecutable | BrokenPipe | NoDevice | Busy | NoSpace | Protected
| AlreadyExists | NotEmpty | Unknown.

#[export] Instance Errno_eq_dec : EqDecision Errno.
Proof. solve_decision. Defined.

Definition code (e : Errno) : Z :=
  match e with
  | NoSys => 1 | Invalid => 2 | Fault => 3 | NoMemory => 4 | NotFound => 5 | IsADirectory => 6
  | NotADirectory => 7 | BadHandle => 8 | TooMany => 9 | Io => 10 | NotExecutable => 11
  | BrokenPipe => 12 | NoDevice => 13 | Busy => 14 | NoSpace => 15 | Protected => 16
  | AlreadyExists => 17 | NotEmpty => 18 | Unknown => 4095
  end.

Definition from_code (c : Z) : Errno :=
  match c with
  | 1 => NoSys | 2 => Invalid | 3 => Fault | 4 => NoMemory | 5 => NotFound | 6 => IsADirectory
  | 7 => NotADirectory | 8 => BadHandle | 9 => TooMany | 10 => Io | 11 => NotExecutable
  | 12 => BrokenPipe | 13 => NoDevice | 14 => Busy | 15 => NoSpace | 16 => Protected
  | 17 => AlreadyExists | 18 => NotEmpty | _ => Unknown
  end.

Lemma from_code_code e : from_code (code e) = e.
Proof. by destruct e. Qed.
Lemma code_bounds e : 1 <= code e <= 4095.
Proof. destruct e; cbn; lia. Qed.
End Errno.

Module Syscall.
Import Errno.

(** An [i32] code is a [Z] between [-2^31] and [2^31 - 1]; every other field is a [u64]. *)
Inductive Syscall :=
| Exit (code : Z)
| Write (handle ptr len : Z)
| Yield
| Sleep (micros : Z)
| Uptime
| Map (len : Z)
| Read (handle ptr len : Z)
| Random (ptr len : Z)
| Open (path len : Z)
| OpenDir (path len : Z)
| ReadDir (handle entry : Z)
| Close (handle : Z)
| Spawn (path path_len args args_len input output : Z)
| Wait (handle : Z)
| Pipe (ends : Z)
| OpenScreen (size : Z)
| Draw (handle x y width height pixels : Z)
| Create (path len : Z)
| Remove (path len : Z)
| MakeDir (path len : Z)
| ChangeDir (path len : Z)
| CurrentDir (buf len : Z).

(** [args: [u64; 6]]. *)
Record Registers := mkRegisters {
  r_number : Z;
  r_args : Z * Z * Z * Z * Z * Z;
}.

Definition number (s : Syscall) : Number.Number :=
  match s with
  | Exit _ => Number.Exit
  | Write _ _ _ => Number.Write
  | Yield => Number.Yield
  | Sleep _ => Number.Sleep
  | Uptime => Number.Uptime
  | Map _ => Number.Map
  | Read _ _ _ => Number.Read
  | Random _ _ => Number.Random
  | Open _ _ => Number.Open
  | OpenDir _ _ => Number.OpenDir
  | ReadDir _ _ => Number.ReadDir
  | Close _ => Number.Close
  | Spawn _ _ _ _ _ _ => Number.Spawn
  | Wait _ => Number.Wait
  | Pipe _ => Number.Pipe
  | OpenScreen _ => Number.OpenScreen
  | Draw _ _ _ _ _ _ => Number.Draw
  | Create _ _ => Number.Create
  | Remove _ _ => Number.Remove
  | MakeDir _ _ => Number.MakeDir
  | ChangeDir _ _ => Number.ChangeDir
  | CurrentDir _ _ => Number.CurrentDir
  end.

(** [code as i64 as u64] sign-extends. *)
Definition encode (s : Syscall) : Registers :=
  let args := match s with
  | Exit code => (wrap 64 code, 0, 0, 0, 0, 0)
  | Random ptr len => (ptr, len, 0, 0, 0, 0)
  | Read handle ptr len | Write handle ptr len => (handle, ptr, len, 0, 0, 0)
  | Pipe ends => (ends, 0, 0, 0, 0, 0)
  | OpenScreen size => (size, 0, 0, 0, 0, 0)
  | Draw handle x y width height pixels => (handle, x, y, width, height, pixels)
  | Open path len | OpenDir path len | Create path len | Remove path len
  | MakeDir path len | ChangeDir path len => (path, len, 0, 0, 0, 0)
  | CurrentDir buf len => (buf, len, 0, 0, 0, 0)
  | ReadDir handle entry => (handle, entry, 0, 0, 0, 0)
  | Close handle | Wait handle => (handle, 0, 0, 0, 0, 0)
  | Spawn path path_len args args_len input output =>
      (path, path_len, args, args_len, input, output)
  | Sleep micros => (micros, 0, 0, 0, 0, 0)
  | Map len => (len, 0, 0, 0, 0, 0)
  | Yield | Uptime => (0, 0, 0, 0, 0, 0)
  end in
  mkRegisters (Number.as_u64 (number s)) args.

(** [i32::try_from]. *)
Definition i32_try_from (x : Z) : option Z :=
  if (- 2 ^ 31 <=? x) && (x <? 2 ^ 31) then Some x else None.

Definition decode (registers : Registers) : result Errno Syscall :=
  let '(a0, a1, a2, a3, a4, a5) := r_args registers in
  number ← ok_or (Number.from_raw (r_number registers)) NoSys;
  match number with
  | Number.Exit => code ← ok_or (i32_try_from (signed 64 a0)) Invalid; Ok (Exit code)
  | Number.Write => Ok (Write a0 a1 a2)
  | Number.Yield => Ok Yield
  | Number.Sleep => Ok (Sleep a0)
  | Number.Uptime => Ok Uptime
  | Number.Map => Ok (Map a0)
  | Number.Read => Ok (Read a0 a1 a2)
  | Number.Random => Ok (Random a0 a1)
  | Number.Open => Ok (Open a0 a1)
  | Number.OpenDir => Ok (OpenDir a0 a1)
  | Number.ReadDir => Ok (ReadDir a0 a1)
  | Number.Close => Ok (Close a0)
  | Number.Spawn => Ok (Spawn a0 a1 a2 a3 a4 a5)
  | Number.Wait => Ok (Wait a0)
  | Number.Pipe => Ok (Pipe a0)
  | Number.OpenScreen => Ok (OpenScreen a0)
  | Number.Draw => Ok (Draw a0 a1 a2 a3 a4 a5)
  | Number.Create => Ok (Create a0 a1)
  | Number.Remove => Ok (Remove a0 a1)
  | Number.MakeDir => Ok (MakeDir a0 a1)
  | Number.ChangeDir => Ok (ChangeDir a0 a1)
  | Number.CurrentDir => Ok (CurrentDir a0 a1)
  end.

(** What the types of the fields say: only the exit code can be out of range. *)
Definition typed (s : Syscall) : Prop :=
  match s with Exit code => sint 32 code | _ => True end.

(** The arguments a call takes. *)
Definition arity (n : Number.Number) : nat :=
  match n with
  | Number.Yield | Number.Uptime => 0
  | Number.Exit | Number.Sleep | Number.Map | Number.Close | Number.Wait | Number.Pipe
  | Number.OpenScreen => 1
  | Number.Write | Number.Read => 3
  | Number.Spawn | Number.Draw => 6
  | _ => 2
  end.

Definition args_list (r : Registers) : list Z :=
  let '(a0, a1, a2, a3, a4, a5) := r_args r in [a0; a1; a2; a3; a4; a5].

Lemma i32_try_from_Some x c : i32_try_from x = Some c ↔ x = c ∧ sint 32 c.
Proof.
  unfold i32_try_from, sint. change (32 - 1) with 31.
  destruct (Z.leb_spec (- 2 ^ 31) x), (Z.ltb_spec x (2 ^ 31)); cbn;
    (split; [intros [=]; subst; done || lia|intros [-> ?]; done || lia]).
Qed.

Lemma sint_weaken x : sint 32 x → sint 64 x.
Proof. unfold sint. lia. Qed.

Lemma decode_exit a0 a1 a2 a3 a4 a5 c :
  uint 64 a0 → decode (mkRegisters 0 (a0, a1, a2, a3, a4, a5)) = Ok (Exit c) ↔ a0 = wrap 64 c ∧ sint 32 c.
Proof.
  intros Ha. unfold decode. cbn. rewrite bind_Ok. setoid_rewrite ok_or_Ok. setoid_rewrite i32_try_from_Some.
  split.
  - intros (? & [<- Hc] & [= <-]). split; [|done]. by rewrite wrap_signed, wrap_small.
  - intros [-> Hc]. exists c. split; [|done]. split; [|done]. apply signed_wrap; [lia|by apply sint_weaken].
Qed.

(** A call survives the registers.  Decoding what a program encoded gives the call back;
    and whatever registers the kernel accepts are the encoding of the call it decodes them
    to, in the number and in every argument the call takes. *)
Theorem syscall_registers_roundtrip :
  (∀ s, typed s → decode (encode s) = Ok s) ∧
  (∀ r s, Forall (uint 64) (args_list r) → decode r = Ok s →
     typed s ∧ r_number (encode s) = r_number r ∧
     args_list (encode s) = take (arity (number s)) (args_list r) ++ replicate (6 - arity (number s)) 0).
Proof.
  split.
  - intros [] Ht; try reflexivity. apply decode_exit; [by apply wrap_uint|done].
  - intros [n [[[[[a0 a1] a2] a3] a4] a5]] s Ha%Forall_cons_1 H. destruct Ha as [Ha _].
    unfold decode in H. cbn in H. apply bind_Ok in H as (num & Hn%ok_or_Ok%Number.from_raw_Some & H).
    cbn in Hn. subst n. destruct num; try (injection H as <-; done).
    apply bind_Ok in H as (c & (<- & Hc)%ok_or_Ok%i32_try_from_Some & [= <-]).
    cbn in Ha |- *. split_and!; [done|done|]. rewrite wrap_signed, wrap_small by (done || lia). done.
Qed.

Lemma syscall_registers_roundtrip_witness :
  decode (encode (Exit (-7))) = Ok (Exit (-7)) ∧
  args_list (encode (Sleep 5)) = take 1 [5; 9; 9; 9; 9; 9] ++ replicate 5 0.
Proof.
  split.
  - apply (proj1 syscall_registers_roundtrip). unfold typed, sint. lia.
  - apply (proj2 syscall_registers_roundtrip (mkRegisters 3 (5, 9, 9, 9, 9, 9)) (Sleep 5)); [|reflexivity].
    repeat constructor; lia.
Defined.

(** The kernel refuses exactly the unknown numbers, with [NoSys], and the exit codes that
    do not fit an [i32], with [Invalid]; no other registers are refused. *)
Theorem decode_refuses_exactly r e :
  decode r = Err e ↔
  (e = NoSys ∧ ¬ 0 <= r_number r <= 21) ∨
  (e = Invalid ∧ r_number r = 0 ∧ ∃ a0, head (args_list r) = Some a0 ∧ ¬ sint 32 (signed 64 a0)).
Proof.
  destruct r as [n [[[[[a0 a1] a2] a3] a4] a5]]. unfold decode. cbn [r_args r_number args_list head].
  destruct (Number.from_raw n) as [num|] eqn:Hn; cbn [ok_or mbind result_bind].
  - apply Number.from_raw_Some in Hn as ->.
    assert (0 <= Number.as_u64 num <= 21) by (destruct num; cbn; lia).
    destruct num; cbn in *; try (split; [done|intros [[_ ?]|(_ & ? & _)]; lia]).
    destruct (i32_try_from (signed 64 a0)) as [c|] eqn:Hc; cbn.
    + apply i32_try_from_Some in Hc as [<- Hc]. split; [done|]. intros [[_ ?]|(_ & _ & ? & [= <-] & ?)]; [lia|done].
    + split; [|intros [[_ ?]|(-> & _)]; [lia|done]]. intros [= <-]. right. split_and!; [done..|].
      exists a0. split; [done|]. intros Hs. assert (i32_try_from (signed 64 a0) = Some (signed 64 a0)); [|congruence].
      by apply i32_try_from_Some.
  - assert (¬ 0 <= n <= 21).
    { intros Hb. assert (∃ k, (k ≤ 21)%nat ∧ n = Z.of_nat k) as (k & Hk & ->) by (exists (Z.to_nat n); lia).
      do 22 (destruct k as [|k]; [discriminate|]). lia. }
    split; [intros [= <-]; by left|]. intros [[-> _]|(_ & -> & _)]; [done|lia].
Qed.

End Syscall.

(** [u32::to_le_bytes] of both sides. *)
Module ScreenSize.
Record ScreenSize := mkScreenSize { width : Z; height : Z }.
Definition as_bytes (s : ScreenSize) : list Z := le_bytes 4 (width s) ++ le_bytes 4 (height s).
End ScreenSize.

Module ExitStatus.
Inductive ExitStatus := Code (code : Z) | Crashed | Killed.

Definition STATUS_CODE : Z := 0.
Definition STATUS_CRASHED : Z := 1.
Definition STATUS_KILLED : Z := 2.

Definition encode (s : ExitStatus) : Z :=
  match s with
  | Code code => Z.lor (Z.shiftl STATUS_CODE 32) (wrap 32 code)
  | Crashed => Z.shiftl STATUS_CRASHED 32
  | Killed => Z.shiftl STATUS_KILLED 32
  end.

Definition decode (value : Z) : option ExitStatus :=
  let kind := Z.shiftr value 32 in
  if kind =? STATUS_CODE then Some (Code (signed 32 (wrap 32 value)))
  else if (kind =? STATUS_CRASHED) && (wrap 32 value =? 0) then Some Crashed
  else if (kind =? STATUS_KILLED) && (wrap 32 value =? 0) then Some Killed
  else None.

Definition typed (s : ExitStatus) : Prop :=
  match s with Code code => sint 32 code | _ => True end.

Lemma kind_split v : 0 <= v → v = Z.shiftr v 32 * 2 ^ 32 + wrap 32 v.
Proof. intros. rewrite Z.shiftr_div_pow2 by lia. unfold wrap. pose proof (Z.div_mod v (2 ^ 32)). lia. Qed.

(** Exit statuses survive being a system call result, in both directions: each status
    fits a result and decodes to itself, and a value that decodes is that status's only
    encoding. *)
Theorem exit_status_roundtrip :
  (∀ s, typed s → decode (encode s) = Some s ∧ 0 <= encode s < 2 ^ 34) ∧
  (∀ v s, uint 64 v → decode v = Some s → typed s ∧ encode s = v).
Proof.
  split.
  - intros [c| |] Ht; [|by vm_compute..]. unfold encode, decode. cbn [Z.shiftl STATUS_CODE Z.lor].
    pose proof (wrap_uint 32 c ltac:(lia)) as Hu. rewrite Z.shiftl_0_l, Z.lor_0_l.
    rewrite Z.shiftr_div_pow2, Z.div_small by (done || lia). cbn [Z.eqb]. rewrite wrap_idemp by lia.
    split; [by rewrite signed_wrap by (done || lia)|unfold uint in Hu; lia].
  - intros v s Hv Hd. pose proof (kind_split v (proj1 Hv)) as Hs. unfold decode in Hd.
    destruct (Z.eqb_spec (Z.shiftr v 32) STATUS_CODE) as [E|_].
    + injection Hd as <-. split; [apply signed_sint; lia|]. cbn [encode].
      rewrite wrap_signed, wrap_idemp by lia. rewrite Hs at 2. rewrite E. done.
    + destruct (Z.eqb_spec (wrap 32 v) 0) as [E0|_]; [|by rewrite !andb_false_r in Hd].
      rewrite !andb_true_r in Hd. rewrite E0 in Hs.
      destruct (Z.eqb_spec (Z.shiftr v 32) STATUS_CRASHED) as [E|_];
        [|destruct (Z.eqb_spec (Z.shiftr v 32) STATUS_KILLED) as [E|_]; [|done]];
        injection Hd as <-; rewrite E in Hs; (split; [done|]; by rewrite Hs).
Qed.

Lemma exit_status_roundtrip_witness :
  decode (encode (Code (-9))) = Some (Code (-9)) ∧ encode Killed = 2 ^ 33.
Proof.
  split.
  - apply (proj1 exit_status_roundtrip). unfold typed, sint. lia.
  - apply (proj2 exit_status_roundtrip); [unfold uint; lia|reflexivity].
Defined.
End ExitStatus.

Definition MAX_RESULT : Z := 2 ^ 63 - 1.

(** [None] is the panic of the assertion. *)
Definition encode_result (r : result Errno.Errno Z) : option Z :=
  match r with
  | Ok value => if value <=? MAX_RESULT then Some value else None
  | Err errno => Some (wrap 64 (- Errno.code errno))
  end.

Definition decode_result (x0 : Z) : result Errno.Errno Z :=
  if x0 <=? MAX_RESULT then Ok x0
  else Err (Errno.from_code (wrap 64 (- signed 64 x0))).

(** A result survives x0.  Every error, and every value up to [MAX_RESULT], encodes to
    a [u64] that decodes to the same result, so no value reads as an error and no error as a
    value; only a larger value panics. *)
Theorem result_roundtrip r :
  (∀ v, r = Ok v → uint 64 v) →
  match encode_result r with
  | Some x0 => uint 64 x0 ∧ decode_result x0 = r
  | None => ∃ v, r = Ok v ∧ MAX_RESULT < v
  end.
Proof.
  intros Hr. unfold encode_result, decode_result, MAX_RESULT. destruct r as [v|e].
  - specialize (Hr v eq_refl). destruct (Z.leb_spec v (2 ^ 63 - 1)) as [H|]; [|eauto].
    split; [done|]. by rewrite (proj2 (Z.leb_le _ _) H).
  - split; [by apply wrap_uint|]. by destruct e.
Qed.

Lemma result_roundtrip_witness :
  decode_result (wrap 64 (-2)) = Err Errno.Invalid ∧ encode_result (Ok (2 ^ 63)) = None.
Proof.
  split; [|reflexivity]. apply (result_roundtrip (Err Errno.Invalid)). discriminate.
Defined.

Definition MAX_NAME : nat := 248.

Module DirEntry.
Record DirEntry := mkDirEntry {
  size : Z;
  name_len : Z;
  kind : Z;
  reserved : list Z;
  name_bytes : list Z;
}.

Definition KIND_FILE : Z := 0.
Definition KIND_DIRECTORY : Z := 1.

Definition EMPTY : DirEntry := mkDirEntry 0 0 KIND_FILE (replicate 5 0) (replicate MAX_NAME 0).

(** The loop that moves [len] down to a character boundary is [floor_char_boundary]. *)
Definition new (name : list Z) (is_dir : bool) (sz : Z) : DirEntry :=
  let len := floor_char_boundary name (length name `min` MAX_NAME) in
  mkDirEntry sz (wrap 16 (Z.of_nat len)) (if is_dir then KIND_DIRECTORY else KIND_FILE)
    (reserved EMPTY) (take len name ++ drop len (name_bytes EMPTY)).

Definition name (e : DirEntry) : list Z :=
  let len := (Z.to_nat (name_len e) `min` MAX_NAME)%nat in
  let bytes := take len (name_bytes e) in
  if is_utf8 bytes then bytes else [].

Definition is_dir (e : DirEntry) : bool := kind e =? KIND_DIRECTORY.

(** The fields in memory order; the layout has no padding. *)
Definition as_bytes (e : DirEntry) : list Z :=
  le_bytes 8 (size e) ++ le_bytes 2 (name_len e) ++ [kind e] ++ reserved e ++ name_bytes e.

(** A directory entry carries its name: what the program reads back is the name itself
    when it fits, else its longest prefix of at most [MAX_NAME] bytes that ends between two
    characters; the kind comes back too, and the entry always takes 264 bytes. *)
Theorem dir_entry_carries_name n d sz :
  is_utf8 n = true →
  let e := new n d sz in
  let len := length (name e) in
  name e = take len n ∧ is_dir e = d ∧ length (as_bytes e) = 264%nat ∧
  ((length n ≤ MAX_NAME)%nat → name e = n) ∧
  ((MAX_NAME < length n)%nat → (len ≤ MAX_NAME)%nat ∧ is_char_boundary n len = true ∧
     ∀ j, (len < j ≤ MAX_NAME)%nat → is_char_boundary n j = false).
Proof.
  intros Hn. cbv zeta. destruct (floor_char_boundary_spec n (length n `min` MAX_NAME)) as (Hle & Hb & Hmax).
  set (len := floor_char_boundary n (length n `min` MAX_NAME)) in *.
  assert (Hname : name (new n d sz) = take len n).
  { unfold name, new. fold len. cbn [name_len name_bytes].
    unfold MAX_NAME in *. rewrite wrap_small, Nat2Z.id by (unfold uint; lia).
    rewrite (Nat.min_l len) by lia. rewrite take_app_le, take_take, Nat.min_id by (rewrite length_take; lia).
    by rewrite is_utf8_take. }
  rewrite Hname. rewrite length_take, Nat.min_l by lia. split_and!.
  - done.
  - by destruct d.
  - unfold as_bytes, new. fold len. cbn [size name_len kind reserved name_bytes EMPTY].
    rewrite !length_app, length_take, length_drop, !length_replicate, !length_le_bytes. cbn [length].
    unfold MAX_NAME in *. lia.
  - intros Hs. replace len with (length n); [by rewrite take_ge|]. subst len.
    rewrite Nat.min_l by done. destruct (length n) as [|k] eqn:E; cbn [floor_char_boundary]; [done|].
    replace (is_char_boundary n (S k)) with true; [done|]. unfold is_char_boundary.
    rewrite decide_False, lookup_ge_None_2 by lia. rewrite bool_decide_eq_true_2; [done|lia].
  - intros Hs. rewrite Nat.min_r in * by lia. done.
Qed.

(** 247 letters and an [é], whose two bytes do not both fit. *)
Lemma dir_entry_carries_name_witness :
  let n := replicate 247 0x61 ++ [0xC3; 0xA9] in
  name (new n true 0) = take (length (name (new n true 0))) n ∧ length (name (new n true 0)) = 247%nat.
Proof.
  cbv zeta. split; [|vm_compute; reflexivity].
  apply (dir_entry_carries_name (replicate 247 0x61 ++ [0xC3; 0xA9]) true 0). vm_compute. reflexivity.
Defined.
End DirEntry.
