(* ===== verification/Frames.v ===== *)
(** Physical page frames ([rustypi-core/src/frames.rs]): a bitmap with a next-fit search.

    [Module Frames] translates the allocator; [free_set] is its abstract state, the set of
    frame numbers that can still be handed out, and every operation is proved to be the
    obvious one on that set.  [Class FrameSource] is what address spaces rely on
    ([rustypi-core/src/paging.rs]); the bitmap is an instance. *)
From S2P Require Import Prelude Abi.
Import layout.
Open Scope Z_scope.

Module Frames.

Inductive FrameError := NotAFrame | NotAllocated.

Record FrameStats := mkFrameStats { total : nat; stats_free : Z }.

Record Frames := mkFrames {
  base : Z;
  count : nat;
  used : list Z;
  free_count : Z;
  next : nat;
}.

(** [u64::next_multiple_of], in a build without overflow checks. *)
Definition next_multiple_of (x m : Z) : Z :=
  if x mod m =? 0 then x else wrap 64 (x + (m - x mod m)).

Definition saturating_sub (x y : Z) : Z := Z.max 0 (x - y).

Definition div_ceil (n m : nat) : nat :=
  (if decide (n mod m = 0) then n / m else n / m + 1)%nat.

Definition new (start end_ : Z) : Frames :=
  let base := next_multiple_of start PAGE_SIZE in
  let count := Z.to_nat (saturating_sub end_ base / PAGE_SIZE) in
  let used := replicate (div_ceil count 64) 0 in
  let used := if decide (count mod 64 = 0)%nat then used
              else <[(length used - 1)%nat :=
                       wrap 64 (Z.shiftl (ones 64) (Z.of_nat (count mod 64)))]> used in
  mkFrames base count used (Z.of_nat count) 0.

(** Words are only indexed in range: [word] comes from [% words], or from a frame number
    below [count]. *)
Definition allocate (f : Frames) : option (Frames * Z) :=
  let words := length (used f) in
  word ← List.find (λ w, negb ((used f !!! w) =? ones 64))
           (map (λ i, (next f + i) mod words)%nat (seq 0 words));
  let bit_ := trailing_ones 64 (used f !!! word) in
  Some (mkFrames (base f) (count f)
          (<[word := Z.lor (used f !!! word) (bit (Z.of_nat bit_))]> (used f))
          (wrap 64 (free_count f - 1)) word,
        wrap 64 (base f + Z.of_nat (word * 64 + bit_) * PAGE_SIZE)).

Definition free (frame : Z) (f : Frames) : result FrameError Frames :=
  if frame <? base f then Err NotAFrame else
  let offset := frame - base f in
  let n := Z.to_nat (offset / PAGE_SIZE) in
  if negb (offset mod PAGE_SIZE =? 0) || bool_decide (count f ≤ n)%nat then Err NotAFrame else
  let word := (n / 64)%nat in
  let bit_ := Z.of_nat (n mod 64) in
  if Z.land (used f !!! word) (bit bit_) =? 0 then Err NotAllocated else
  Ok (mkFrames (base f) (count f)
        (<[word := Z.land (used f !!! word) (bnot 64 (bit bit_))]> (used f))
        (wrap 64 (free_count f + 1)) (next f)).

Definition stats (f : Frames) : FrameStats := mkFrameStats (count f) (free_count f).

(** * The set of free frames *)

(** Bit [n] of the bitmap. *)
Definition used_bit (f : Frames) (n : nat) : bool :=
  Z.testbit (used f !!! (n / 64)%nat) (Z.of_nat (n mod 64)).

Definition free_set (f : Frames) : gset nat :=
  filter (λ n, used_bit f n = false) (set_seq 0 (count f)).

Definition address (f : Frames) (n : nat) : Z := base f + Z.of_nat n * PAGE_SIZE.

Record Inv (f : Frames) : Prop := {
  inv_length : length (used f) = div_ceil (count f) 64;
  inv_words : Forall (uint 64) (used f);
  inv_past : ∀ n, (count f ≤ n < 64 * length (used f))%nat → used_bit f n = true;
  inv_free : free_count f = Z.of_nat (size (free_set f));
  inv_base : 0 <= base f;
  inv_end : base f + Z.of_nat (count f) * PAGE_SIZE < 2 ^ 64;
}.

Lemma div_ceil_bounds n : (n ≤ 64 * div_ceil n 64 ∧ 64 * div_ceil n 64 < n + 64)%nat.
Proof.
  unfold div_ceil. pose proof (Nat.div_mod_eq n 64). pose proof (Nat.mod_upper_bound n 64).
  case_decide; lia.
Qed.

Lemma word_in_range f n : Inv f → (n < count f)%nat → (n / 64 < length (used f))%nat.
Proof.
  intros HI Hn. rewrite (inv_length f HI). pose proof (div_ceil_bounds (count f)).
  apply Nat.Div0.div_lt_upper_bound. lia.
Qed.

Lemma elem_of_free_set f n : n ∈ free_set f ↔ (n < count f)%nat ∧ used_bit f n = false.
Proof. unfold free_set. rewrite elem_of_filter, elem_of_set_seq. naive_solver lia. Qed.

Lemma uint_word f w : Inv f → uint 64 (used f !!! w).
Proof.
  intros HI. destruct (decide (w < length (used f))%nat) as [H|H].
  - apply (Forall_lookup_total_1 _ _ _ (inv_words f HI) H).
  - rewrite list_lookup_total_alt, lookup_ge_None_2 by lia. cbn. unfold uint. vm_compute. done.
Qed.

(** Frame numbers and their place in the bitmap. *)
Lemma split_index (w b : nat) : (b < 64 → (w * 64 + b) / 64 = w ∧ (w * 64 + b) mod 64 = b)%nat.
Proof.
  intros. rewrite Nat.add_comm, Nat.Div0.mod_add, Nat.div_add by lia.
  rewrite Nat.div_small, Nat.mod_small by lia. lia.
Qed.

Lemma index_inj (m n : nat) : (m / 64 = n / 64 → m mod 64 = n mod 64 → m = n)%nat.
Proof. intros. rewrite (Nat.div_mod_eq m 64), (Nat.div_mod_eq n 64). lia. Qed.

(** Changing one bit of one word changes one frame. *)
Lemma used_bit_update f f' n v w :
  used f' = <[(n / 64)%nat := w]> (used f) → (n / 64 < length (used f))%nat →
  (∀ i, 0 <= i < 64 → Z.testbit w i = if i =? Z.of_nat (n mod 64) then v else Z.testbit (used f !!! (n / 64)%nat) i) →
  ∀ m, used_bit f' m = if decide (m = n) then v else used_bit f m.
Proof.
  intros Hu Hlt Hw m. unfold used_bit. rewrite Hu.
  pose proof (Nat.mod_upper_bound m 64). pose proof (Nat.mod_upper_bound n 64).
  destruct (decide (m / 64 = n / 64)%nat) as [E|E].
  - rewrite E, list_lookup_total_insert_eq, Hw by lia.
    destruct (Z.eqb_spec (Z.of_nat (m mod 64)) (Z.of_nat (n mod 64))) as [E'|E'].
    + rewrite decide_True; [done|]. apply index_inj; [done|lia].
    + rewrite decide_False; [by rewrite <-E|]. congruence.
  - rewrite list_lookup_total_insert_ne, decide_False by congruence. done.
Qed.

Lemma free_set_update f f' n :
  count f' = count f → (∀ m, used_bit f' m = if decide (m = n) then true else used_bit f m) →
  free_set f' = free_set f ∖ {[n]}.
Proof.
  intros Hc Hu. apply set_eq. intros m. rewrite elem_of_difference, not_elem_of_singleton, !elem_of_free_set, Hc, Hu.
  case_decide; naive_solver.
Qed.

Lemma free_set_update_free f f' n :
  count f' = count f → (n < count f)%nat →
  (∀ m, used_bit f' m = if decide (m = n) then false else used_bit f m) →
  free_set f' = free_set f ∪ {[n]}.
Proof.
  intros Hc Hn Hu. apply set_eq. intros m. rewrite elem_of_union, elem_of_singleton, !elem_of_free_set, Hc, Hu.
  case_decide; naive_solver.
Qed.

Lemma free_set_size f : (size (free_set f) ≤ count f)%nat.
Proof.
  etrans; [apply (subseteq_size _ (set_seq 0 (count f)))|by rewrite size_set_seq].
  unfold free_set. set_solver.
Qed.

Lemma count_bound f : Inv f → Z.of_nat (count f) < 2 ^ 52.
Proof. intros HI. pose proof (inv_end f HI). pose proof (inv_base f HI). unfold PAGE_SIZE in *. lia. Qed.

(** A word that is not all ones has a free frame at its first zero. *)
Lemma trailing_ones_free x : uint 64 x → x ≠ ones 64 →
  (trailing_ones 64 x < 64)%nat ∧ Z.testbit x (Z.of_nat (trailing_ones 64 x)) = false.
Proof.
  intros Hx Hne. destruct (trailing_ones_spec 64 x) as (Hle & Hf & Ht).
  destruct (decide (trailing_ones 64 x = 64%nat)) as [E|E]; [|split; [lia|apply Hf; lia]].
  destruct Hne. apply (uint_bits_eq 64); [done|done|by vm_compute|].
  intros i Hi. rewrite testbit_ones, Ht, (proj2 (Z.ltb_lt _ _)) by lia. done.
Qed.

Lemma mark_used f f' n : Inv f → n ∈ free_set f →
  used f' = <[(n / 64)%nat := Z.lor (used f !!! (n / 64)%nat) (bit (Z.of_nat (n mod 64)))]> (used f) →
  base f' = base f → count f' = count f → free_count f' = wrap 64 (free_count f - 1) →
  free_set f' = free_set f ∖ {[n]} ∧ Inv f'.
Proof.
  intros HI Hin Hu Hb Hc Hf. destruct (proj1 (elem_of_free_set f n) Hin) as [Hn _].
  pose proof (word_in_range f n HI Hn). pose proof (Nat.mod_upper_bound n 64).
  assert (Hupd := used_bit_update f f' n true _ Hu ltac:(done)). ospecialize (Hupd _).
  { intros j Hj. rewrite Z.lor_spec, testbit_bit, Z.eqb_sym by lia.
    destruct (j =? _); [apply orb_true_r|apply orb_false_r]. }
  pose proof (free_set_update f f' n Hc Hupd) as Hset. split; [done|].
  pose proof (count_bound f HI). pose proof (free_set_size f).
  split; rewrite ?Hb, ?Hc; try apply HI.
  - rewrite Hu, length_insert. apply HI.
  - rewrite Hu. apply Forall_insert; [apply HI|].
    apply uint_lor; [done|by apply uint_word|apply uint_bit; lia].
  - intros m. rewrite Hu, length_insert. intros Hm'. rewrite Hupd. case_decide; [done|by apply (inv_past f HI)].
  - rewrite Hf, Hset, size_difference by (by apply singleton_subseteq_l). rewrite size_singleton, (inv_free f HI).
    assert (0 < size (free_set f))%nat.
    { apply Nat.neq_0_lt_0. intros E%size_empty_inv. by apply E, not_elem_of_empty in Hin. }
    rewrite wrap_small by (unfold uint; lia). lia.
Qed.

Lemma mark_free f f' n : Inv f → (n < count f)%nat → n ∉ free_set f →
  used f' = <[(n / 64)%nat := Z.land (used f !!! (n / 64)%nat) (bnot 64 (bit (Z.of_nat (n mod 64))))]> (used f) →
  base f' = base f → count f' = count f → free_count f' = wrap 64 (free_count f + 1) →
  free_set f' = free_set f ∪ {[n]} ∧ Inv f'.
Proof.
  intros HI Hn Hin Hu Hb Hc Hf.
  pose proof (word_in_range f n HI Hn). pose proof (Nat.mod_upper_bound n 64).
  assert (Hupd := used_bit_update f f' n false _ Hu ltac:(done)). ospecialize (Hupd _).
  { intros j Hj. rewrite Z.land_spec, testbit_bnot, testbit_bit, Z.eqb_sym by lia.
    destruct (j =? _); [apply andb_false_r|apply andb_true_r]. }
  pose proof (free_set_update_free f f' n Hc Hn Hupd) as Hset. split; [done|].
  pose proof (count_bound f HI). pose proof (free_set_size f').
  split; rewrite ?Hb, ?Hc; try apply HI.
  - rewrite Hu, length_insert. apply HI.
  - rewrite Hu. apply Forall_insert; [apply HI|]. apply uint_land; [done|by apply uint_word|].
    apply Z.lxor_nonneg. split; intros _; [|done]. apply (uint_bit 64). lia.
  - intros m. rewrite Hu, length_insert. intros Hm'. rewrite Hupd. case_decide; [lia|by apply (inv_past f HI)].
  - rewrite Hf, (inv_free f HI). rewrite Hset, size_union, size_singleton in * by (by apply disjoint_singleton_r).
    rewrite wrap_small by (unfold uint; lia). lia.
Qed.

Lemma allocate_Some f f' a : Inv f → allocate f = Some (f', a) →
  ∃ n, n ∈ free_set f ∧ a = address f n ∧ free_set f' = free_set f ∖ {[n]} ∧
       base f' = base f ∧ count f' = count f ∧ Inv f'.
Proof.
  intros HI. unfold allocate. intros (word & Hw & H)%bind_Some.
  apply find_map_seq_Some in Hw as (i & Hi & -> & Hw & _).
  set (word := ((next f + i) mod length (used f))%nat) in *.
  assert (Hlt : (word < length (used f))%nat) by (apply Nat.mod_upper_bound; lia).
  apply negb_true_iff, Z.eqb_neq in Hw.
  destruct (trailing_ones_free _ (uint_word f word HI) Hw) as [Hb Hz].
  set (b := trailing_ones 64 (used f !!! word)) in *.
  destruct (split_index word b Hb) as [Hd Hm]. set (n := (word * 64 + b)%nat) in *.
  assert (Hfree : used_bit f n = false) by (unfold used_bit; by rewrite Hd, Hm).
  assert (Hn : (n < count f)%nat).
  { destruct (Nat.lt_ge_cases n (count f)) as [|Hge]; [done|].
    assert (used_bit f n = true); [|congruence]. apply (inv_past f HI). subst n. lia. }
  injection H as <- <-. assert (Hin : n ∈ free_set f) by (by apply elem_of_free_set).
  exists n. split; [done|]. split.
  { unfold address. apply wrap_small. pose proof (inv_base f HI). pose proof (inv_end f HI).
    unfold uint, PAGE_SIZE in *. lia. }
  match goal with |- context [Inv ?f'] => destruct (mark_used f f' n HI Hin) as [Hs HI'] end;
    [cbn [used]; by rewrite Hd, Hm|done..|]. done.
Qed.

Lemma allocate_None f : Inv f → allocate f = None → free_set f = ∅.
Proof.
  intros HI H. apply bind_None in H as [H|(? & ? & ?)]; [|done].
  apply set_eq. intros n. rewrite elem_of_free_set. split; [|set_solver]. intros [Hn Hu]. exfalso.
  destruct (offset_exists_0 _ (next f) _ (word_in_range f n HI Hn)) as (i & Hi & Hw).
  pose proof (find_map_seq_None _ _ _ _ H i ltac:(lia)) as Hones. cbn beta in Hones. rewrite Hw in Hones.
  apply negb_false_iff, Z.eqb_eq in Hones. unfold used_bit in Hu.
  pose proof (Nat.mod_upper_bound n 64). rewrite Hones, testbit_ones, (proj2 (Z.ltb_lt _ _)) in Hu by lia. done.
Qed.

Lemma free_cases f a : Inv f → 0 <= a →
  (free a f = Err NotAFrame ∧ ∀ n, (n < count f)%nat → a ≠ address f n) ∨
  (∃ n, (n < count f)%nat ∧ a = address f n ∧
     if decide (n ∈ free_set f) then free a f = Err NotAllocated
     else ∃ f', free a f = Ok f' ∧ free_set f' = free_set f ∪ {[n]} ∧
                base f' = base f ∧ count f' = count f ∧ Inv f').
Proof.
  intros HI Ha. unfold free, address, PAGE_SIZE. destruct (Z.ltb_spec a (base f)) as [|Hge].
  { left. split; [done|]. intros. lia. }
  pose proof (Z.div_mod (a - base f) 4096 ltac:(lia)) as Hdm.
  assert (0 <= (a - base f) / 4096) by (apply Z.div_pos; lia).
  set (n := Z.to_nat ((a - base f) / 4096)).
  destruct (Z.eqb_spec ((a - base f) mod 4096) 0) as [E|E]; cbn [negb orb].
  2: { left. split; [done|]. intros m Hm ->. apply E.
       replace (_ + _ - _) with (Z.of_nat m * 4096) by lia. apply Z.mod_mul. lia. }
  destruct (decide (count f ≤ n)%nat) as [Hn|Hn].
  { left. rewrite bool_decide_eq_true_2 by done. split; [done|]. intros m Hm ->. subst n. lia. }
  rewrite bool_decide_eq_false_2 by done. right. exists n. split_and!; [lia|lia|].
  rewrite land_bit_0 by lia. case_decide as Hin.
  - apply elem_of_free_set in Hin as [_ Hu]. unfold used_bit in Hu. rewrite Hu. done.
  - assert (Hu : used_bit f n = true).
    { destruct (used_bit f n) eqn:E'; [done|]. destruct Hin. apply elem_of_free_set. split; [lia|done]. }
    unfold used_bit in Hu. rewrite Hu. cbn [negb]. eexists. split; [reflexivity|].
    match goal with |- context [Inv ?f'] => destruct (mark_free f f' n HI ltac:(lia) Hin) as [Hs HI'] end; done.
Qed.

Lemma next_multiple_of_spec start :
  0 <= start → start + PAGE_SIZE <= 2 ^ 64 →
  let b := next_multiple_of start PAGE_SIZE in start <= b < start + PAGE_SIZE ∧ b mod PAGE_SIZE = 0.
Proof.
  unfold next_multiple_of, PAGE_SIZE. intros H0 H1. pose proof (Z.mod_pos_bound start 4096 ltac:(lia)).
  destruct (Z.eqb_spec (start mod 4096) 0) as [E|E]; [lia|].
  rewrite wrap_small by (unfold uint; lia). split; [lia|].
  rewrite <-Zplus_mod_idemp_l. replace (start mod 4096 + _) with (1 * 4096) by lia. apply Z.mod_mul. lia.
Qed.

Lemma used_bit_new start end_ n : (n < 64 * length (used (new start end_)))%nat →
  used_bit (new start end_) n = bool_decide (count (new start end_) ≤ n)%nat.
Proof.
  unfold used_bit. cbn [new used count]. set (c := Z.to_nat _).
  pose proof (div_ceil_bounds c). pose proof (Nat.div_mod_eq n 64). pose proof (Nat.mod_upper_bound n 64).
  pose proof (Nat.div_mod_eq c 64). pose proof (Nat.mod_upper_bound c 64). rewrite length_replicate.
  case_decide as E.
  - rewrite length_replicate. unfold div_ceil in *. rewrite decide_True in * by done. intros Hn.
    rewrite lookup_total_replicate_2, Z.bits_0 by lia. symmetry. apply bool_decide_eq_false. lia.
  - rewrite length_insert, length_replicate. unfold div_ceil in *. rewrite decide_False in * by done. intros Hn.
    replace (c / 64 + 1 - 1)%nat with (c / 64)%nat by lia.
    destruct (decide (n / 64 = c / 64)%nat) as [E'|E'].
    + rewrite E', list_lookup_total_insert_eq by (rewrite length_replicate; lia).
      unfold wrap. rewrite Z.mod_pow2_bits_low, Z.shiftl_spec by lia.
      destruct (decide (c mod 64 ≤ n mod 64)%nat).
      * rewrite testbit_ones, bool_decide_eq_true_2 by lia. apply Z.ltb_lt. lia.
      * rewrite Z.testbit_neg_r, bool_decide_eq_false_2 by lia. done.
    + rewrite list_lookup_total_insert_ne, lookup_total_replicate_2, Z.bits_0 by lia.
      symmetry. apply bool_decide_eq_false. lia.
Qed.

Lemma free_set_new start end_ : free_set (new start end_) = set_seq 0 (count (new start end_)).
Proof.
  apply set_eq. intros n. rewrite elem_of_free_set, elem_of_set_seq. split; [lia|]. intros [_ Hn].
  split; [lia|]. rewrite used_bit_new; [apply bool_decide_eq_false; lia|].
  pose proof (div_ceil_bounds (count (new start end_))). cbn [new used count] in *.
  case_decide; rewrite ?length_insert, length_replicate; lia.
Qed.

Lemma Frames_Inv_new start end_ : 0 <= start → start + PAGE_SIZE <= 2 ^ 64 → end_ < 2 ^ 64 →
  Inv (new start end_) ∧ start <= base (new start end_) ∧ base (new start end_) mod PAGE_SIZE = 0 ∧
  (count (new start end_) = 0%nat ∨
   base (new start end_) + Z.of_nat (count (new start end_)) * PAGE_SIZE <= end_).
Proof.
  intros H0 H1 H2. destruct (next_multiple_of_spec start H0 H1) as [Hb Hm]. cbv zeta in Hb, Hm.
  assert (Hend : count (new start end_) = 0%nat ∨
      base (new start end_) + Z.of_nat (count (new start end_)) * PAGE_SIZE <= end_).
  { cbn [new base count]. unfold saturating_sub, PAGE_SIZE in *. set (b := next_multiple_of start 4096) in *.
    destruct (Z.le_gt_cases end_ b); [left; rewrite Z.max_l by lia; done|right].
    rewrite Z.max_r by lia. pose proof (Z.mul_div_le (end_ - b) 4096 ltac:(lia)).
    assert (0 <= (end_ - b) / 4096) by (apply Z.div_pos; lia). lia. }
  split; [|split_and!; [apply Hb|done|done]]. split.
  - cbn [new used count]. case_decide; by rewrite ?length_insert, length_replicate.
  - cbn [new used]. case_decide; [|apply Forall_insert];
      [apply Forall_replicate; by vm_compute|apply Forall_replicate; by vm_compute|apply wrap_uint; lia].
  - intros n Hn. rewrite used_bit_new by lia. apply bool_decide_eq_true. lia.
  - rewrite free_set_new, size_set_seq. done.
  - cbn [new base]. lia.
  - destruct Hend as [->|]; [|lia]. cbn [new base]. unfold PAGE_SIZE in *. lia.
Qed.

(** * The allocator in use: the frames handed out and not yet given back *)
Inductive reachable (start end_ : Z) : Frames → gset Z → Prop :=
| reachable_new : reachable start end_ (new start end_) ∅
| reachable_allocate f held f' a :
    reachable start end_ f held → allocate f = Some (f', a) →
    reachable start end_ f' (held ∪ {[a]})
| reachable_free f held f' a :
    reachable start end_ f held → 0 <= a → free a f = Ok f' →
    reachable start end_ f' (held ∖ {[a]}).

Lemma address_inj f m n : address f m = address f n → m = n.
Proof. unfold address, PAGE_SIZE. lia. Qed.

(** The abstraction: the frames held are those not in the free set. *)
Lemma reachable_abs start end_ f held :
  0 <= start → start + PAGE_SIZE <= 2 ^ 64 → end_ < 2 ^ 64 → reachable start end_ f held →
  Inv f ∧ base f = base (new start end_) ∧ count f = count (new start end_) ∧
  (∀ a, a ∈ held ↔ ∃ n, (n < count f)%nat ∧ n ∉ free_set f ∧ a = address f n) ∧
  (size held + size (free_set f) = count f)%nat.
Proof.
  intros H0 H1 H2. induction 1 as [|f held f' a _ (HI & Hb & Hc & Hh & Hs) Ha|f held f' a _ (HI & Hb & Hc & Hh & Hs) Ha0 Ha].
  - split; [by apply Frames_Inv_new|]. split_and!; [done..| |].
    + intros a. split; [set_solver|]. intros (n & Hn & Hf & _). rewrite free_set_new, elem_of_set_seq in Hf. lia.
    + by rewrite free_set_new, size_set_seq.
  - apply allocate_Some in Ha as (n & Hn & -> & Hset & Hb' & Hc' & HI'); [|done].
    destruct (proj1 (elem_of_free_set f n) Hn) as [Hlt _].
    assert (Hfresh : address f n ∉ held) by (intros (m & _ & Hm & <-%address_inj)%Hh; done).
    rewrite Hb', Hc', Hset. split_and!; [done..| |].
    + intros a. rewrite elem_of_union, elem_of_singleton, Hh. unfold address. rewrite Hb'.
      setoid_rewrite not_elem_of_difference. setoid_rewrite elem_of_singleton. split.
      * intros [(m & ? & ? & ->)| ->]; eauto.
      * intros (m & ? & [?| ->] & ->); eauto.
    + rewrite size_union, size_singleton, size_difference by
        (by apply disjoint_singleton_r || by apply singleton_subseteq_l). rewrite size_singleton.
      pose proof (subseteq_size {[n]} (free_set f) ltac:(by apply singleton_subseteq_l)) as Hge.
      rewrite size_singleton in Hge. lia.
  - destruct (free_cases f a HI Ha0) as [[? _]|(n & Hn & -> & Hf)]; [congruence|].
    case_decide as Hin; [congruence|]. destruct Hf as (f'' & ? & Hset & Hb' & Hc' & HI').
    assert (f'' = f') as -> by congruence. rewrite Hb', Hc', Hset.
    assert (Hold : address f n ∈ held) by (apply Hh; eauto).
    split_and!; [done..| |].
    + intros a. rewrite elem_of_difference, not_elem_of_singleton, Hh. unfold address. rewrite Hb'. split.
      * intros [(m & ? & ? & ->) Hne]. exists m. split_and!; [done|set_solver|done].
      * intros (m & ? & [? Hne]%not_elem_of_union & ->). split; [eauto|].
        intros E%address_inj. set_solver.
    + rewrite (size_union (free_set f)) by (by apply disjoint_singleton_r).
      rewrite (size_difference held) by (by apply singleton_subseteq_l). rewrite !size_singleton.
      pose proof (subseteq_size {[address f n]} held ltac:(by apply singleton_subseteq_l)) as Hge.
      rewrite size_singleton in Hge. lia.
Qed.

(** C5: the allocator never hands out a frame that is in use.  However it has been used since
    [new start end], the frames held are whole pages inside [start..end], the next frame is
    not one of them, there is one until every frame is held, and the free count is the number
    of frames not held. *)
Theorem frames_are_never_shared start end_ f held :
  0 <= start → start + PAGE_SIZE <= 2 ^ 64 → end_ < 2 ^ 64 → reachable start end_ f held →
  (∀ a, a ∈ held → start <= a ∧ a + PAGE_SIZE <= end_ ∧ a mod PAGE_SIZE = 0) ∧
  (match allocate f with
   | Some (_, a) => a ∉ held ∧ start <= a ∧ a + PAGE_SIZE <= end_ ∧ a mod PAGE_SIZE = 0
   | None => size held = count (new start end_)
   end) ∧
  stats f = mkFrameStats (count (new start end_)) (Z.of_nat (count (new start end_) - size held)).
Proof.
  intros H0 H1 H2 Hr. destruct (reachable_abs _ _ _ _ H0 H1 H2 Hr) as (HI & Hb & Hc & Hh & Hs).
  destruct (Frames_Inv_new start end_ H0 H1 H2) as (_ & Hlo & Hal & Hend).
  assert (Hin : ∀ n, (n < count f)%nat →
    start <= address f n ∧ address f n + PAGE_SIZE <= end_ ∧ address f n mod PAGE_SIZE = 0).
  { intros n Hn. rewrite Hc in Hn. unfold address. rewrite Hb. unfold PAGE_SIZE in *.
    split_and!; [lia|lia|]. by rewrite Z.mod_add. }
  split_and!.
  - intros a (n & Hn & _ & ->)%Hh. by apply Hin.
  - destruct (allocate f) as [[f' a]|] eqn:E.
    + apply allocate_Some in E as (n & Hn & -> & _); [|done].
      destruct (proj1 (elem_of_free_set f n) Hn) as [Hlt _]. split; [|by apply Hin].
      intros (m & _ & Hm & <-%address_inj)%Hh. done.
    + apply allocate_None in E; [|done]. rewrite E, size_empty in Hs. lia.
  - unfold stats. rewrite (inv_free f HI). f_equal; [done|lia].
Qed.

Lemma frames_are_never_shared_witness :
  ∃ f a, allocate (new 1 0x4000) = Some (f, a) ∧ a = 0x1000 ∧ stats f = mkFrameStats 3 2.
Proof.
  destruct (allocate (new 1 0x4000)) as [[f a]|] eqn:E; [|vm_compute in E; discriminate].
  exists f, a. assert (Hr : reachable 1 0x4000 f (∅ ∪ {[a]})) by (eapply reachable_allocate; [constructor|done]).
  destruct (frames_are_never_shared 1 0x4000 f (∅ ∪ {[a]}) ltac:(lia) ltac:(vm_compute; congruence)
              ltac:(lia) Hr) as (_ & _ & Hs).
  vm_compute in E. injection E as <- <-. split_and!; [done|done|]. exact Hs.
Defined.

(** C39: giving frames back.  Exactly the frames held can be freed; an address that is not a
    frame is refused as [NotAFrame] and a frame that is not held, like one freed twice, as
    [NotAllocated].  A freed frame can be handed out again. *)
Theorem free_takes_exactly_held start end_ f held a :
  0 <= start → start + PAGE_SIZE <= 2 ^ 64 → end_ < 2 ^ 64 → reachable start end_ f held → 0 <= a →
  match free a f with
  | Ok f' => a ∈ held ∧ (∃ n, n ∈ free_set f' ∧ a = address f' n) ∧ free a f' = Err NotAllocated
  | Err NotAllocated => a ∉ held ∧ ∃ n, (n < count f)%nat ∧ a = address f n
  | Err NotAFrame => a ∉ held ∧ ∀ n, (n < count f)%nat → a ≠ address f n
  end.
Proof.
  intros H0 H1 H2 Hr Ha. destruct (reachable_abs _ _ _ _ H0 H1 H2 Hr) as (HI & Hb & Hc & Hh & Hs).
  destruct (free_cases f a HI Ha) as [[-> Hn]|(n & Hn & -> & Hf)].
  - split; [|done]. intros (n & Hlt & _ & ->)%Hh. by apply (Hn n).
  - case_decide as Hin.
    + rewrite Hf. split; [|eauto]. intros (m & _ & Hm & <-%address_inj)%Hh. done.
    + destruct Hf as (f' & -> & Hset & Hb' & Hc' & HI').
      assert (Ha' : address f n = address f' n) by (unfold address; by rewrite Hb').
      assert (Hin' : n ∈ free_set f') by (rewrite Hset; set_solver).
      split_and!; [apply Hh; eauto|eauto|]. rewrite Ha' in *.
      destruct (free_cases f' (address f' n) HI' Ha) as [[_ Hno]|(m & Hm & <-%address_inj & Hf)].
      * destruct (Hno n); [congruence|done].
      * by rewrite decide_True in Hf by done.
Qed.

Lemma free_takes_exactly_held_witness :
  ∃ f, free 0x1000 (new 0 0x4000) = Err NotAllocated ∧ allocate (new 0 0x4000) = Some (f, 0) ∧
       0x1000 ∉ (∅ : gset Z) ∧ ∃ n, (n < count (new 0 0x4000))%nat ∧ 0x1000 = address (new 0 0x4000) n.
Proof.
  eexists. split; [reflexivity|]. split; [reflexivity|].
  apply (free_takes_exactly_held 0 0x4000 (new 0 0x4000) ∅ 0x1000); [lia|vm_compute; congruence|lia|constructor|lia].
Defined.

End Frames.
