(* ===== verification/Heap.v ===== *)
(** The kernel's (and every program's) heap ([rustypi-core/src/heap.rs]): a first-fit
    allocator whose free blocks are linked through headers stored in the free memory.

    [Module Heap] translates it over an explicit store of headers, pointers included.
    [Module FreeList] is its specification: the same operations on a plain list of free
    ranges.  The pointer code is proved to implement the list operations, and those to
    behave as an allocator should. *)
From S2P Require Import Prelude.
Open Scope Z_scope.

Module Heap.

Definition BLOCK_ALIGN : Z := 16.

Record FreeBlock := mkFreeBlock { size : Z; next : Z }.

#[export] Instance FreeBlock_eq_dec : EqDecision FreeBlock.
Proof. solve_decision. Defined.

Record Stats := mkStats { st_total : Z; st_used : Z; st_largest_free : Z }.

Record Heap := mkHeap { head : Z; total : Z; used : Z }.

(** The heap and the headers in memory, by address; a null pointer is 0. *)
Record State := mkState { heap : Heap; mem : gmap Z FreeBlock }.

(** The panic of [free], or behaviour the model does not give a meaning (a pointer to no
    header, a list that never ends). *)
Inductive Failure := AlreadyFree | Undefined.

Definition align_up (value align : Z) : Z :=
  Z.land (wrap 64 (wrap 64 (value + align) - 1)) (bnot 64 (align - 1)).

Record Layout := mkLayout { l_size : Z; l_align : Z }.

Definition block_size (layout : Layout) : Z := align_up (Z.max (l_size layout) 1) BLOCK_ALIGN.

Definition empty : Heap := mkHeap 0 0 0.

(** [link] is where a pointer to a block is kept: the head, or a block's [next]. *)
Definition read_link (link : option Z) (s : State) : result Failure Z :=
  match link with
  | None => Ok (head (heap s))
  | Some p => next <$> ok_or (mem s !! p) Undefined
  end.

Definition set_head (p : Z) (s : State) : State :=
  mkState (mkHeap p (total (heap s)) (used (heap s))) (mem s).
Definition set_used (u : Z) (s : State) : State :=
  mkState (mkHeap (head (heap s)) (total (heap s)) (wrap 64 u)) (mem s).
Definition set_total (t : Z) (s : State) : State :=
  mkState (mkHeap (head (heap s)) (wrap 64 t) (used (heap s))) (mem s).
Definition write (p : Z) (b : FreeBlock) (s : State) : State :=
  mkState (heap s) (<[p := b]> (mem s)).

Definition write_link (link : option Z) (to : Z) (s : State) : result Failure State :=
  match link with
  | None => Ok (set_head to s)
  | Some p => b ← ok_or (mem s !! p) Undefined; Ok (write p (mkFreeBlock (size b) to) s)
  end.

Fixpoint alloc_from (fuel : nat) (link : option Z) (sz align : Z) (s : State) :
    result Failure (State * Z) :=
  match fuel with
  | O => Err Undefined
  | S fuel =>
    block ← read_link link s;
    if block =? 0 then Ok (s, 0) else
    b ← ok_or (mem s !! block) Undefined;
    let block_end := wrap 64 (block + size b) in
    let start := align_up block align in
    if wrap 64 (start + sz) <=? block_end then
      let end_ := wrap 64 (start + sz) in
      let '(s, rest) :=
        if end_ <? block_end
        then (write end_ (mkFreeBlock (wrap 64 (block_end - end_)) (next b)) s, end_)
        else (s, next b) in
      s ← (if block <? start
           then Ok (write block (mkFreeBlock (wrap 64 (start - block)) rest) s)
           else write_link link rest s);
      Ok (set_used (used (heap s) + sz) s, start)
    else alloc_from fuel (Some block) sz align s
  end.

(** The list has at most as many blocks as there are headers, so that many rounds are enough. *)
Definition fuel_of (s : State) : nat := S (base.size (mem s)).

(** A null pointer is 0. *)
Definition alloc (layout : Layout) (s : State) : result Failure (State * Z) :=
  alloc_from (fuel_of s) None (block_size layout) (Z.max (l_align layout) BLOCK_ALIGN) s.

(** The free blocks right before and after [start]. *)
Fixpoint neighbours (fuel : nat) (start prev nxt : Z) (s : State) : result Failure (Z * Z) :=
  match fuel with
  | O => Err Undefined
  | S fuel =>
    if negb (nxt =? 0) && (nxt <? start) then
      b ← ok_or (mem s !! nxt) Undefined;
      neighbours fuel start nxt (next b) s
    else Ok (prev, nxt)
  end.

Definition free (start sz : Z) (s : State) : result Failure State :=
  '(prev, nxt) ← neighbours (fuel_of s) start 0 (head (heap s)) s;
  let end_ := wrap 64 (start + sz) in
  prev_end ← (if prev =? 0 then Ok 0
              else b ← ok_or (mem s !! prev) Undefined; Ok (wrap 64 (prev + size b)));
  if (start <? prev_end) || (negb (nxt =? 0) && (nxt <? end_)) then Err AlreadyFree else
  '(sz, after) ← (if negb (nxt =? 0) && (end_ =? nxt)
                  then b ← ok_or (mem s !! nxt) Undefined; Ok (wrap 64 (sz + size b), next b)
                  else Ok (sz, nxt));
  if negb (prev =? 0) && (prev_end =? start) then
    b ← ok_or (mem s !! prev) Undefined;
    Ok (write prev (mkFreeBlock (wrap 64 (size b + sz)) after) s)
  else
    let s := write start (mkFreeBlock sz after) s in
    if prev =? 0 then Ok (set_head start s)
    else b ← ok_or (mem s !! prev) Undefined; Ok (write prev (mkFreeBlock (size b) start) s).

Definition align_down (x : Z) : Z := Z.land x (bnot 64 (BLOCK_ALIGN - 1)).

Definition init (start end_ : Z) (s : State) : result Failure State :=
  let start := align_up start BLOCK_ALIGN in
  let end_ := align_down end_ in
  let s := set_used 0 (set_total (end_ - start) (set_head 0 s)) in
  free start (wrap 64 (end_ - start)) s.

Definition extend (start end_ : Z) (s : State) : result Failure State :=
  let start := align_up start BLOCK_ALIGN in
  let end_ := align_down end_ in
  if start <? end_ then free start (wrap 64 (end_ - start)) (set_total (total (heap s) + (end_ - start)) s)
  else Ok s.

Definition dealloc (ptr : Z) (layout : Layout) (s : State) : result Failure State :=
  let sz := block_size layout in
  s ← free ptr sz s;
  Ok (set_used (used (heap s) - sz) s).

Fixpoint largest_from (fuel : nat) (block acc : Z) (s : State) : result Failure Z :=
  match fuel with
  | O => Err Undefined
  | S fuel =>
    if block =? 0 then Ok acc else
    b ← ok_or (mem s !! block) Undefined;
    largest_from fuel (next b) (Z.max acc (size b)) s
  end.

Definition stats (s : State) : result Failure Stats :=
  largest_free ← largest_from (fuel_of s) (head (heap s)) 0 s;
  Ok (mkStats (total (heap s)) (used (heap s)) largest_free).

End Heap.

(** * The specification: a list of free ranges *)
Module FreeList.
Import Heap.

Notation Range := (Z * Z)%type (only parsing).

(** Addresses are far below the top of the address space (physical addresses have 48 bits, user
    ones 32), so nothing in a block's arithmetic wraps. *)
Definition LIMIT : Z := 2 ^ 62.

Definition block_ok (b : Range) : Prop :=
  b.1 mod 16 = 0 ∧ 0 < b.2 ∧ b.2 mod 16 = 0 ∧ b.1 + b.2 <= LIMIT.

(** Blocks in address order, each strictly above the end [lo] of what precedes it: neighbours
    have been merged. *)
Fixpoint sorted (lo : Z) (l : list Range) : Prop :=
  match l with
  | [] => True
  | b :: l => lo < b.1 ∧ block_ok b ∧ sorted (b.1 + b.2) l
  end.

Definition wf (l : list Range) : Prop := sorted 0 l.

Definition is_free (l : list Range) (x : Z) : Prop := ∃ b, b ∈ l ∧ b.1 <= x < b.1 + b.2.

Definition free_bytes (l : list Range) : Z := foldr (λ b n, b.2 + n) 0 l.

Definition ceil (x align : Z) : Z := (x + align - 1) / align * align.

Fixpoint alloc_list (sz align : Z) (l : list Range) : list Range * Z :=
  match l with
  | [] => ([], 0)
  | (a, n) :: l =>
      let start := ceil a align in
      if start + sz <=? a + n then
        ((if a <? start then [(a, start - a)] else []) ++
         (if start + sz <? a + n then [(start + sz, a + n - (start + sz))] else []) ++ l, start)
      else let '(l', p) := alloc_list sz align l in ((a, n) :: l', p)
  end.

(** Joins [start..start+sz] onto what follows it. *)
Definition join_after (start sz : Z) (l : list Range) : list Range :=
  match l with
  | (a, n) :: l' => if start + sz =? a then (start, sz + n) :: l' else (start, sz) :: l
  | [] => [(start, sz)]
  end.

Fixpoint free_list (start sz : Z) (l : list Range) : option (list Range) :=
  match l with
  | (a, n) :: l' =>
      if a <? start then
        if start <? a + n then None else
        if a + n =? start then
          match l' with
          | (a', _) :: _ => if a' <? start + sz then None else Some ()
          | [] => Some ()
          end ≫= λ _, match join_after start sz l' with
                      | (_, sz') :: l'' => Some ((a, n + sz') :: l'')
                      | [] => None
                      end
        else l'' ← free_list start sz l'; Some ((a, n) :: l'')
      else if a <? start + sz then None else Some (join_after start sz l)
  | [] => Some [(start, sz)]
  end.

Lemma sorted_weaken lo lo' l : lo' <= lo → sorted lo l → sorted lo' l.
Proof. destruct l; cbn; [done|]. intros ? (? & ? & ?). split_and!; [lia|done|done]. Qed.

Lemma sorted_elem lo l b : sorted lo l → b ∈ l → lo < b.1 ∧ block_ok b.
Proof.
  revert lo. induction l as [|b' l IH]; intros lo; [set_solver|]. cbn. intros (Hlo & Hb & Hs).
  intros [->|Hin]%elem_of_cons; [done|]. destruct (IH _ Hs Hin). destruct Hb as (_ & ? & _ & _).
  split; [lia|done].
Qed.

Lemma sorted_above lo l x : sorted lo l → is_free l x → lo < x.
Proof. intros Hs (b & Hb & Hx). destruct (sorted_elem _ _ _ Hs Hb). lia. Qed.

Lemma is_free_cons b l x : is_free (b :: l) x ↔ b.1 <= x < b.1 + b.2 ∨ is_free l x.
Proof.
  unfold is_free. setoid_rewrite elem_of_cons. naive_solver.
Qed.

Lemma is_free_nil x : ¬ is_free [] x.
Proof. intros (b & Hb & _). set_solver. Qed.

Lemma is_free_app l1 l2 x : is_free (l1 ++ l2) x ↔ is_free l1 x ∨ is_free l2 x.
Proof. unfold is_free. setoid_rewrite elem_of_app. naive_solver. Qed.

Lemma ceil_spec x align : 0 < align →
  x <= ceil x align < x + align ∧ ceil x align mod align = 0 ∧
  ∀ y, x <= y → y mod align = 0 → ceil x align <= y.
Proof.
  intros Ha. unfold ceil. pose proof (Z.div_mod (x + align - 1) align ltac:(lia)).
  pose proof (Z.mod_pos_bound (x + align - 1) align Ha). split_and!; [lia|lia|by apply Z.mod_mul; lia|].
  intros y Hy Hm. apply Z.mod_divide in Hm as [k ->]; [|lia].
  apply Z.mul_le_mono_nonneg_r; [lia|].
  assert ((x + align - 1) / align < k + 1); [|lia]. apply Z.div_lt_upper_bound; lia.
Qed.

(** A request the heap can be asked for: block sizes are multiples of 16, and alignments
    powers of two from 16. *)
Definition request_ok (sz align : Z) : Prop :=
  0 < sz ∧ sz mod 16 = 0 ∧ 0 < align ∧ align mod 16 = 0.

Lemma mod16_add x y : x mod 16 = 0 → y mod 16 = 0 → (x + y) mod 16 = 0.
Proof. intros. rewrite Z.add_mod, H, H0 by lia. done. Qed.
Lemma mod16_sub x y : x mod 16 = 0 → y mod 16 = 0 → (x - y) mod 16 = 0.
Proof. intros. rewrite Zminus_mod, H, H0 by lia. done. Qed.
Lemma mod16_align x align : align mod 16 = 0 → 0 < align → x mod align = 0 → x mod 16 = 0.
Proof.
  intros [k ->]%Z.mod_divide ? [j ->]%Z.mod_divide; [|lia..]. apply Z.mod_divide; [lia|].
  exists (j * k). lia.
Qed.

(** What carving [start..start+sz] out of the block [(a, n)] leaves. *)
Definition carve (a n start sz : Z) : list Range :=
  (if a <? start then [(a, start - a)] else []) ++
  (if start + sz <? a + n then [(start + sz, a + n - (start + sz))] else []).

Lemma carve_spec lo a n start sz l :
  lo < a → block_ok (a, n) → sorted (a + n) l → a <= start → 0 < sz → start + sz <= a + n →
  start mod 16 = 0 → sz mod 16 = 0 →
  sorted lo (carve a n start sz ++ l) ∧
  (∀ x, is_free (carve a n start sz ++ l) x ↔ is_free ((a, n) :: l) x ∧ ¬ start <= x < start + sz) ∧
  free_bytes (carve a n start sz ++ l) + sz = free_bytes ((a, n) :: l).
Proof.
  intros Hlo (Hm & Hn & Hnm & Hlim) Hs Ha Hsz Hle Hst Hszm. cbn in Hm, Hn, Hnm, Hlim. unfold carve.
  pose proof (mod16_add start sz Hst Hszm) as Hm1. pose proof (mod16_sub start a Hst Hm) as Hm2.
  pose proof (mod16_sub _ _ (mod16_add a n Hm Hnm) Hm1) as Hm3.
  split_and!.
  - destruct (Z.ltb_spec a start), (Z.ltb_spec (start + sz) (a + n)); cbn; unfold block_ok; cbn;
      split_and?; try done; try lia; apply sorted_weaken with (a + n); done || lia.
  - intros x. pose proof (sorted_above _ _ x Hs) as Hl. rewrite !is_free_app, is_free_cons. cbn [fst snd].
    revert Hl. generalize (is_free l x). intros F Hl.
    destruct (Z.ltb_spec a start), (Z.ltb_spec (start + sz) (a + n)); rewrite ?is_free_cons; cbn [fst snd];
      pose proof (is_free_nil x); intuition lia.
  - destruct (Z.ltb_spec a start), (Z.ltb_spec (start + sz) (a + n)); cbn; lia.
Qed.

Lemma alloc_list_spec sz align lo l l' p :
  request_ok sz align → 0 <= lo → sorted lo l → alloc_list sz align l = (l', p) →
  sorted lo l' ∧
  ((p = 0 ∧ l' = l ∧ ∀ q, q mod align = 0 → ¬ ∀ x, q <= x < q + sz → is_free l x) ∨
   (lo < p ∧ p mod align = 0 ∧ (∀ x, p <= x < p + sz → is_free l x) ∧
    (∀ x, is_free l' x ↔ is_free l x ∧ ¬ p <= x < p + sz) ∧
    free_bytes l' + sz = free_bytes l)).
Proof.
  intros (Hsz & Hszm & Hal & Halm). revert lo l' p. induction l as [|[a n] l IH]; intros lo l' p Hlo Hs H.
  - injection H as <- <-. split; [done|]. left. split_and!; [done..|]. intros q _ Hq.
    apply (is_free_nil q), Hq. lia.
  - cbn in Hs. destruct Hs as (Ha & Hok & Hs). destruct (ceil_spec a align Hal) as (Hc1 & Hc2 & Hc3).
    cbn [alloc_list] in H. destruct (Z.leb_spec (ceil a align + sz) (a + n)) as [Hfit|Hfit].
    + rewrite app_assoc in H. injection H as <- <-.
      destruct (carve_spec lo a n (ceil a align) sz l) as (H1 & H2 & H3); try done; try lia.
      { by apply mod16_align with align. }
      split; [done|]. right. split_and!; [lia|done| |done|done].
      intros x Hx. apply is_free_cons. left. cbn. lia.
    + destruct (alloc_list sz align l) as [l1 p1] eqn:E. injection H as <- <-.
      destruct Hok as (Hm & Hn & Hnm & Hlim). cbn in Hm, Hn, Hnm, Hlim.
      destruct (IH (a + n) l1 p1 ltac:(lia) Hs eq_refl) as [Hs' Hr]. split; [done|].
      destruct Hr as [(-> & -> & Hno)|(Hp & Hpm & Hfree & Hiff & Hbytes)].
      * left. split_and!; [done..|]. intros q Hq Hall.
        assert (Hl : ∀ x, is_free l x → a + n < x) by (intros x; by apply sorted_above).
        destruct (proj1 (is_free_cons _ _ _) (Hall q ltac:(lia))) as [Hq'|Hq']; cbn in Hq'.
        -- assert (q <= a + n < q + sz) by (specialize (Hc3 q); lia).
           destruct (proj1 (is_free_cons _ _ _) (Hall (a + n) ltac:(lia))) as [Hx|Hx]; [cbn in Hx; lia|].
           apply Hl in Hx. lia.
        -- apply (Hno q Hq). intros x Hx. destruct (proj1 (is_free_cons _ _ _) (Hall x Hx)) as [Hx'|]; [|done].
           cbn in Hx'. apply Hl in Hq'. lia.
      * right. split_and!; [lia|done| | |unfold free_bytes in *; cbn; lia].
        -- intros x Hx. apply is_free_cons. right. by apply Hfree.
        -- intros x. rewrite !is_free_cons, Hiff. cbn. intuition lia.
Qed.

Lemma join_after_spec lo start sz l :
  lo < start → block_ok (start, sz) → sorted (start + sz - 1) l →
  sorted lo (join_after start sz l) ∧
  (∀ x, is_free (join_after start sz l) x ↔ is_free l x ∨ start <= x < start + sz) ∧
  free_bytes (join_after start sz l) = free_bytes l + sz ∧
  ∃ sz' l', join_after start sz l = (start, sz') :: l'.
Proof.
  intros Hlo Hok Hs. pose proof Hok as (Hm & Hn & Hnm & Hlim). cbn in Hm, Hn, Hnm, Hlim.
  destruct l as [|[a n] l]; cbn [join_after].
  - split_and!; [done| |cbn; lia|eauto]. intros x. rewrite is_free_cons. cbn. pose proof (is_free_nil x). tauto.
  - cbn in Hs. destruct Hs as (Ha & (Hm' & Hn' & Hnm' & Hlim') & Hs). cbn in *.
    destruct (Z.eqb_spec (start + sz) a) as [<-|Hne].
    + split_and!; [|intros x; rewrite !is_free_cons; cbn; intuition lia|cbn; lia|eauto].
      cbn. unfold block_ok; cbn. split_and!; [lia|done|lia|by apply mod16_add|lia|].
      apply sorted_weaken with (start + sz + n); [lia|done].
    + split_and!; [|intros x; rewrite !is_free_cons; cbn; intuition lia|cbn; lia|eauto].
      cbn. unfold block_ok; cbn. split_and!; done || lia.
Qed.

Lemma sorted_raise lo lo' l :
  sorted lo l → match l with [] => True | b :: _ => lo' < b.1 end → sorted lo' l.
Proof. destruct l; cbn; [done|]. intros (_ & ? & ?) ?. done. Qed.

(** Gluing a block onto the one that starts where it ends. *)
Lemma glue_spec lo a n sz l :
  lo < a → block_ok (a, n) → sorted (a + n - 1) ((a + n, sz) :: l) →
  sorted lo ((a, n + sz) :: l) ∧
  (∀ x, is_free ((a, n + sz) :: l) x ↔ is_free ((a, n) :: (a + n, sz) :: l) x) ∧
  free_bytes ((a, n + sz) :: l) = free_bytes ((a, n) :: (a + n, sz) :: l).
Proof.
  intros Hlo (Hm & Hn & Hnm & Hlim) (_ & (Hm' & Hn' & Hnm' & Hlim') & Hs). cbn in *. split_and!.
  - done.
  - unfold block_ok; cbn. split_and!; [done|lia|by apply mod16_add|lia].
  - apply sorted_weaken with (a + n + sz); [lia|done].
  - intros x. rewrite !is_free_cons. cbn. intuition lia.
  - cbn. lia.
Qed.

Lemma free_list_spec start sz lo l :
  lo < start → block_ok (start, sz) → sorted lo l →
  match free_list start sz l with
  | Some l' => (∀ x, start <= x < start + sz → ¬ is_free l x) ∧ sorted lo l' ∧
               (∀ x, is_free l' x ↔ is_free l x ∨ start <= x < start + sz) ∧
               free_bytes l' = free_bytes l + sz
  | None => ∃ x, start <= x < start + sz ∧ is_free l x
  end.
Proof.
  intros Hlo Hok. pose proof Hok as (Hm & Hn & Hnm & Hlim). cbn in Hm, Hn, Hnm, Hlim.
  revert lo Hlo. induction l as [|[a n] l IH]; intros lo Hlo Hs; cbn [free_list].
  { split_and!; [intros x _; apply is_free_nil|done| |cbn; lia].
    intros x. rewrite is_free_cons. cbn. pose proof (is_free_nil x). tauto. }
  cbn in Hs. destruct Hs as (Ha & Hb & Hs). pose proof Hb as (Hm' & Hn' & Hnm' & Hlim').
  cbn in Hm', Hn', Hnm', Hlim'. destruct (Z.ltb_spec a start) as [Hlt|Hge].
  - destruct (Z.ltb_spec start (a + n)) as [Hov|Hno].
    { exists start. split; [lia|]. apply is_free_cons. left. cbn. lia. }
    destruct (Z.eqb_spec (a + n) start) as [Heq|Hne].
    + destruct (match l with (a', _) :: _ => if a' <? start + sz then None else Some () | [] => Some () end)
        as [[]|] eqn:El; cbn.
      * assert (Hs' : sorted (start + sz - 1) l).
        { apply sorted_raise with (a + n); [done|]. destruct l as [|[a' n'] l]; [done|]. cbn.
          destruct (Z.ltb_spec a' (start + sz)); [done|lia]. }
        destruct (join_after_spec (start - 1) start sz l) as (J1 & J2 & J3 & sz' & l' & J4); [lia|done..|].
        rewrite J4 in *. rewrite <-Heq in J1.
        destruct (glue_spec lo a n sz' l' Ha Hb J1) as (G1 & G2 & G3). rewrite Heq in *. split_and!.
        -- intros x Hx [Hx'|Hx']%is_free_cons; [cbn in Hx'; lia|]. apply (sorted_above _ _ _ Hs') in Hx'. lia.
        -- done.
        -- intros x. rewrite G2, !(is_free_cons (a, n)), J2. tauto.
        -- rewrite G3. unfold free_bytes in *. cbn in *. lia.
      * destruct l as [|[a' n'] l]; [done|]. destruct (Z.ltb_spec a' (start + sz)); [|done].
        cbn in Hs. destruct Hs as (? & (_ & ? & _) & _). cbn in *. exists a'. split; [lia|].
        apply is_free_cons. right. apply is_free_cons. left. cbn. lia.
    + specialize (IH (a + n) ltac:(lia) Hs). destruct (free_list start sz l) as [l'|]; cbn.
      * destruct IH as (I1 & I2 & I3 & I4). split_and!; try done.
        -- intros x Hx [Hx'|Hx']%is_free_cons; [cbn in Hx'; lia|]. by apply (I1 x).
        -- intros x. rewrite !is_free_cons, I3. tauto.
        -- unfold free_bytes in *. cbn. lia.
      * destruct IH as (x & Hx & Hf). exists x. split; [done|]. apply is_free_cons. by right.
  - destruct (Z.ltb_spec a (start + sz)) as [Hov|Hno].
    { exists a. split; [lia|]. apply is_free_cons. left. cbn. lia. }
    assert (Hs' : sorted (start + sz - 1) ((a, n) :: l)) by (cbn; split_and!; done || lia).
    destruct (join_after_spec lo start sz ((a, n) :: l)) as (J1 & J2 & J3 & _); [done..|].
    split_and!; [|done..]. intros x Hx Hf%(sorted_above _ _ _ Hs'). lia.
Qed.

(** * The pointers hold the list *)

(** From [p], following [next] through the headers of [l] leads to [q]. *)
Fixpoint chain (m : gmap Z FreeBlock) (p : Z) (l : list Range) (q : Z) : Prop :=
  match l with
  | [] => p = q
  | (a, n) :: l => p = a ∧ ∃ nx, m !! a = Some (mkFreeBlock n nx) ∧ chain m nx l q
  end.

Definition starts (l : list Range) : list Z := l.*1.

Lemma chain_frame m p l q x b : x ∉ starts l → chain m p l q → chain (<[x := b]> m) p l q.
Proof.
  revert p. induction l as [|[a n] l IH]; intros p; cbn; [done|]. intros Hx (-> & nx & Hm & Hc).
  split; [done|]. exists nx. rewrite lookup_insert_ne by set_solver. split; [done|]. apply IH; [set_solver|done].
Qed.

Lemma chain_app m p l1 l2 q : chain m p (l1 ++ l2) q ↔ ∃ r, chain m p l1 r ∧ chain m r l2 q.
Proof.
  revert p. induction l1 as [|[a n] l1 IH]; intros p; cbn; [naive_solver|].
  setoid_rewrite IH. split.
  - intros (-> & nx & Hm & r & H1 & H2). eauto 10.
  - intros (r & (-> & nx & Hm & H1) & H2). eauto 10.
Qed.

Lemma sorted_starts lo l x : sorted lo l → x ∈ starts l → lo < x.
Proof. intros Hs (b & -> & Hb)%list_elem_of_fmap. by apply (sorted_elem _ _ _ Hs). Qed.

Lemma chain_head lo m p l : 0 <= lo → sorted lo l → chain m p l 0 → p = 0 ↔ l = [].
Proof.
  destruct l as [|[a n] l]; cbn; [naive_solver|]. intros ? (? & _) (-> & _). split; [lia|done].
Qed.

Lemma sorted_app lo l1 b l2 : sorted lo (l1 ++ b :: l2) →
  sorted (b.1 + b.2) l2 ∧ block_ok b ∧ lo < b.1 ∧ ∀ x, x ∈ starts l1 → lo < x < b.1.
Proof.
  revert lo. induction l1 as [|b1 l1 IH]; intros lo; cbn.
  - intros (? & ? & ?). split_and!; [done..|]. set_solver.
  - intros (Hlo & Hok & Hs). destruct (IH _ Hs) as (? & ? & ? & Hx). destruct Hok as (_ & ? & _).
    split_and!; [done|done|lia|]. intros x [->|Hin]%elem_of_cons; [lia|]. specialize (Hx x Hin). lia.
Qed.

Lemma sorted_NoDup lo l : sorted lo l → NoDup (starts l).
Proof.
  revert lo. induction l as [|b l IH]; intros lo; cbn; [constructor|]. intros (_ & (_ & ? & _) & Hs).
  constructor; [|by eapply IH]. intros Hin%(sorted_starts _ _ _ Hs). lia.
Qed.

(** The link that leads past the blocks [pre]. *)
Definition link_after (pre : list Range) (link : option Z) : Prop :=
  (pre = [] ∧ link = None) ∨ ∃ pre' b, pre = pre' ++ [b] ∧ link = Some b.1.

Lemma read_link_spec pre link s r :
  link_after pre link → chain (mem s) (head (heap s)) pre r → read_link link s = Ok r.
Proof.
  intros [[-> ->]|(pre' & [a n] & -> & ->)]; cbn; [by intros ->|].
  rewrite chain_app. intros (r' & _ & -> & nx & -> & ->). done.
Qed.

Lemma write_link_spec pre link s r to :
  link_after pre link → NoDup (starts pre) → chain (mem s) (head (heap s)) pre r →
  ∃ s', write_link link to s = Ok s' ∧ chain (mem s') (head (heap s')) pre to ∧
    total (heap s') = total (heap s) ∧ used (heap s') = used (heap s) ∧
    ∀ p l q, starts l ## starts pre → chain (mem s) p l q → chain (mem s') p l q.
Proof.
  intros [[-> ->]|(pre' & [a n] & -> & ->)] Hnd.
  - intros _. eexists. split; [reflexivity|]. done.
  - rewrite chain_app. intros (r' & Hpre & -> & nx & Hm & ->). cbn [write_link fst]. rewrite Hm. cbn [ok_or mbind result_bind].
    eexists. split; [reflexivity|]. unfold starts in *. rewrite fmap_app in Hnd. cbn in Hnd.
    apply NoDup_app in Hnd as (_ & Hd & _). cbn. split_and!; [|done|done|].
    + apply chain_app. exists a. split; [|cbn; rewrite lookup_insert_eq; eauto].
      apply chain_frame; [|done]. intros Hin. by apply (Hd a Hin), list_elem_of_singleton.
    + intros p l q Hdis. apply chain_frame. rewrite fmap_app in Hdis. set_solver.
Qed.

Lemma land_bnot x k : uint 64 x → 0 <= k <= 64 → Z.land x (bnot 64 (2 ^ k - 1)) = x / 2 ^ k * 2 ^ k.
Proof.
  intros Hx Hk. transitivity (Z.ldiff x (Z.ones k)).
  - apply Z.bits_inj'. intros i Hi. rewrite Z.land_spec, Z.ldiff_spec, Z.ones_equiv, <-Z.sub_1_r.
    destruct (Z.lt_ge_cases i 64); [by rewrite testbit_bnot by lia|].
    by rewrite (testbit_high 64 x) by (done || lia).
  - rewrite Z.ldiff_ones_r, Z.shiftl_mul_pow2, Z.shiftr_div_pow2 by lia. done.
Qed.

Definition power_of_two (align : Z) : Prop := ∃ k, 0 <= k <= 63 ∧ align = 2 ^ k.

Lemma align_up_ceil x align :
  0 <= x <= 2 ^ 63 - 1 → power_of_two align → align_up x align = ceil x align.
Proof.
  intros Hx (k & Hk & ->). assert (0 < 2 ^ k <= 2 ^ 63) by (split; [apply Z.pow_pos_nonneg; lia|apply Z.pow_le_mono_r; lia]).
  unfold align_up, ceil. rewrite !(wrap_small 64) by (unfold uint; rewrite ?wrap_small; unfold uint; lia).
  apply land_bnot; [unfold uint; lia|lia].
Qed.

(** Bounds that keep the arithmetic of a request from wrapping. *)
Definition small (sz align : Z) : Prop := power_of_two align ∧ sz + align <= 2 ^ 63 + 31.

Lemma alloc_from_sim fuel pre l link s sz align :
  request_ok sz align → small sz align → link_after pre link → sorted 0 (pre ++ l) →
  chain (mem s) (head (heap s)) (pre ++ l) 0 → (length l < fuel)%nat →
  ∃ s', alloc_from fuel link sz align s = Ok (s', (alloc_list sz align l).2) ∧
    chain (mem s') (head (heap s')) (pre ++ (alloc_list sz align l).1) 0 ∧
    total (heap s') = total (heap s) ∧
    used (heap s') = if (alloc_list sz align l).2 =? 0 then used (heap s) else wrap 64 (used (heap s) + sz).
Proof.
  intros (Hsz & Hszm & Hal & Halm) [Hpow Hsm]. revert pre link fuel.
  induction l as [|[a n] l IH]; intros pre link fuel Hlink Hs Hc Hfuel; (destruct fuel as [|fuel]; [cbn in Hfuel; lia|]);
    apply chain_app in Hc as (r & Hpre & Hl); cbn [alloc_from]; rewrite (read_link_spec pre link s r) by done; cbn [mbind result_bind].
  - cbn in Hl. subst r. exists s. split_and!; [done| |done|done]. apply chain_app. by exists 0.
  - cbn in Hl. destruct Hl as (-> & nx & Hm & Hl). apply sorted_app in Hs as Hsa.
    destruct Hsa as (Hsl & Hok & Ha0 & Hpa). cbn in Hsl, Ha0, Hpa. pose proof Hok as (Ham & Hn & Hnm & Hlim).
    cbn in Ham, Hn, Hnm, Hlim. unfold LIMIT in Hlim.
    rewrite (proj2 (Z.eqb_neq a 0)) by lia. rewrite Hm. cbn [ok_or mbind result_bind size next].
    rewrite align_up_ceil by (done || lia). destruct (ceil_spec a align Hal) as (Hc1 & Hc2 & Hc3).
    rewrite !(wrap_small 64) by (unfold uint; lia). cbn [alloc_list].
    destruct (Z.leb_spec (ceil a align + sz) (a + n)) as [Hfit|Hfit].
    + rewrite app_assoc. fold (carve a n (ceil a align) sz). cbn [fst snd].
      set (start := ceil a align) in *. rewrite (proj2 (Z.eqb_neq start 0)) by lia.
      assert (Hpre' : starts pre ⊆ starts pre) by done.
      assert (Hend : start + sz ∉ starts pre ∧ start + sz ∉ starts l).
      { split; [intros Hin%Hpa; lia|intros Hin%(sorted_starts _ _ _ Hsl); lia]. }
      set (tail := if start + sz <? a + n then [(start + sz, a + n - (start + sz))] else []).
      assert (Htail : ∃ s1 rest,
        (if start + sz <? a + n then (write (start + sz) (mkFreeBlock (wrap 64 (a + n - (start + sz))) nx) s, start + sz)
         else (s, nx)) = (s1, rest) ∧ heap s1 = heap s ∧ chain (mem s1) (head (heap s1)) pre a ∧
        chain (mem s1) rest (tail ++ l) 0).
      { subst tail. destruct (Z.ltb_spec (start + sz) (a + n)); eexists _, _; (split; [reflexivity|]); [|done].
        split; [done|]. cbn [heap mem write]. split; [apply chain_frame; [apply Hend|done]|].
        cbn. split; [done|]. exists nx. rewrite lookup_insert_eq, wrap_small by (unfold uint; lia).
        split; [done|]. apply chain_frame; [apply Hend|done]. }
      destruct Htail as (s1 & rest & -> & Hh & Hp1 & Hr1). unfold carve. fold tail.
      destruct (Z.ltb_spec a start) as [Hlt|Hge].
      * cbn [mbind result_bind]. eexists. split; [reflexivity|].
        cbn [set_used write heap mem head total used] in *. rewrite Hh in *. split_and!; [|done..].
        apply chain_app. exists a. split; [apply chain_frame; [intros Hin%Hpa; lia|done]|].
        cbn. split; [done|]. exists rest. rewrite lookup_insert_eq, wrap_small by (unfold uint; lia).
        split; [done|]. apply chain_frame; [|done]. subst tail. unfold starts. rewrite fmap_app.
        intros [Hin|Hin]%elem_of_app; [|apply (sorted_starts _ _ _ Hsl) in Hin; lia].
        destruct (Z.ltb_spec (start + sz) (a + n)); cbn in Hin; [|set_solver].
        apply list_elem_of_singleton in Hin. lia.
      * destruct (write_link_spec pre link s1 a rest) as (s2 & -> & Hc2' & Ht & Hu & Hframe); [done| |done|].
        { apply sorted_NoDup in Hs. unfold starts in *. rewrite fmap_app in Hs. by apply NoDup_app in Hs as [? _]. }
        cbn [mbind result_bind]. eexists. split; [reflexivity|].
        cbn [set_used heap mem head total used] in *. rewrite Ht, Hu, Hh. split_and!; [|done..].
        apply chain_app. exists rest. split; [done|]. apply Hframe; [|done].
        intros x. subst tail. unfold starts at 1. rewrite fmap_app.
        intros [Hin|Hin]%elem_of_app Hx%Hpa; [|apply (sorted_starts _ _ _ Hsl) in Hin; lia].
        destruct (Z.ltb_spec (start + sz) (a + n)); cbn in Hin; [|set_solver].
        apply list_elem_of_singleton in Hin. lia.
    + destruct (IH (pre ++ [(a, n)]) (Some a) fuel) as (s' & Hr & Hrest).
      * right. exists pre, (a, n). done.
      * by rewrite <-app_assoc.
      * rewrite <-app_assoc. apply chain_app. exists a. split; [done|]. cbn. eauto.
      * cbn in Hfuel. lia.
      * rewrite Hr. destruct (alloc_list sz align l) as [l' p]. cbn [fst snd] in *.
        rewrite <-app_assoc in Hrest. eauto.
Qed.

Definition first_start (l : list Range) : Z := match l with [] => 0 | b :: _ => b.1 end.
Definition last_start (l : list Range) (d : Z) : Z := match last l with Some b => b.1 | None => d end.

Lemma chain_first m p l : chain m p l 0 → p = first_start l.
Proof. destruct l as [|[a n] l]; cbn; [done|]. by intros [-> _]. Qed.

Lemma neighbours_sim fuel start prev p s lo l :
  0 <= lo → sorted lo l → chain (mem s) p l 0 → (length l < fuel)%nat →
  ∃ l1 l2, l = l1 ++ l2 ∧ Forall (λ b, b.1 < start) l1 ∧
    match l2 with [] => True | b :: _ => start <= b.1 end ∧
    neighbours fuel start prev p s = Ok (last_start l1 prev, first_start l2).
Proof.
  intros Hlo. revert fuel prev p lo Hlo. induction l as [|[a n] l IH]; intros fuel prev p lo Hlo Hs Hc Hf;
    (destruct fuel as [|fuel]; [cbn in Hf; lia|]); cbn [neighbours].
  - cbn in Hc. subst p. exists [], []. done.
  - cbn in Hs, Hc, Hf. destruct Hs as (Ha & (_ & Hn & _) & Hs). destruct Hc as (-> & nx & Hm & Hc). cbn in Hn.
    rewrite (proj2 (Z.eqb_neq a 0)) by lia. cbn [negb andb]. destruct (Z.ltb_spec a start) as [Hlt|Hge].
    + rewrite Hm. cbn [ok_or mbind result_bind next].
      destruct (IH fuel a nx (a + n) ltac:(lia) Hs Hc ltac:(lia)) as (l1 & l2 & -> & H1 & H2 & ->).
      exists ((a, n) :: l1), l2. split_and!; [done|by constructor|done|].
      unfold last_start. rewrite last_cons. by destruct (last l1).
    + exists [], ((a, n) :: l). split_and!; [done|constructor|done|done].
Qed.

Lemma free_list_app lo start sz l1 b l2 : sorted lo (l1 ++ b :: l2) → b.1 < start →
  free_list start sz (l1 ++ b :: l2) = app l1 <$> free_list start sz (b :: l2).
Proof.
  intros Hs Hb. remember (free_list start sz (b :: l2)) as o eqn:Ho.
  revert lo Hs. induction l1 as [|[a n] l1 IH]; intros lo Hs; [subst o; by destruct (free_list _ _ _)|].
  cbn in Hs. destruct Hs as (_ & (_ & Hn & _) & Hs). cbn in Hn, Hs.
  destruct (sorted_app _ _ _ _ Hs) as (_ & _ & Hlt & _).
  cbn [app free_list]. rewrite (proj2 (Z.ltb_lt a start)), (proj2 (Z.ltb_ge start (a + n))) by lia.
  rewrite (proj2 (Z.eqb_neq (a + n) start)) by lia. rewrite (IH _ Hs).
  by destruct o.
Qed.

(** Joining with the following block, and whether the freed range runs into it. *)
Definition clear (start sz : Z) (l : list Range) : bool :=
  match l with [] => true | b :: _ => negb (b.1 <? start + sz) end.

Lemma free_list_front start sz l : match l with [] => True | b :: _ => start <= b.1 end →
  free_list start sz l = if clear start sz l then Some (join_after start sz l) else None.
Proof.
  destruct l as [|[a n] l]; cbn; [done|]. intros Hge. rewrite (proj2 (Z.ltb_ge a start)) by done.
  by destruct (a <? start + sz).
Qed.

Lemma free_list_behind start sz a n l : a < start → match l with [] => True | b :: _ => start <= b.1 end →
  free_list start sz ((a, n) :: l) =
  if start <? a + n then None else
  if clear start sz l then
    Some (if a + n =? start then
            match join_after start sz l with (_, sz') :: l' => (a, n + sz') :: l' | [] => [] end
          else (a, n) :: join_after start sz l)
  else None.
Proof.
  intros Ha Hl. cbn [free_list]. rewrite (proj2 (Z.ltb_lt a start)) by done.
  destruct (start <? a + n); [done|]. destruct (Z.eqb_spec (a + n) start).
  - destruct l as [|[a' n'] l]; cbn; [done|]. destruct (a' <? start + sz); [done|]. cbn.
    by destruct (start + sz =? a').
  - rewrite free_list_front by done. by destruct (clear start sz l).
Qed.

(** The header [free] writes for the block after joining, and what follows it. *)
Lemma join_sim m start sz l : uint 64 (start + sz) → Forall (λ b, 0 < b.1 ∧ 0 < b.2 ∧ b.1 + b.2 <= LIMIT) l →
  0 < start → 0 < sz → chain m (first_start l) l 0 → clear start sz l = true →
  ∃ sz' after l', (if negb (first_start l =? 0) && (wrap 64 (start + sz) =? first_start l)
     then b ← ok_or (m !! first_start l) Undefined; Ok (wrap 64 (sz + size b), next b)
     else Ok (sz, first_start l)) = Ok (sz', after) ∧
    join_after start sz l = (start, sz') :: l' ∧ chain m after l' 0 ∧ (∀ x, x ∈ starts l' → x ∈ starts l) ∧ uint 64 sz'.
Proof.
  intros Hu Hok Hst Hsz Hc Hcl. rewrite (wrap_small 64 (start + sz)) by done. destruct l as [|[a n] l].
  { cbn. exists sz, 0, []. split_and!; try done; unfold uint in *; lia. }
  apply Forall_cons in Hok as [(Ha & Hn & Hlim) _]. cbn in Ha, Hn, Hlim, Hc. unfold LIMIT in Hlim. cbn [first_start join_after fst].
  rewrite (proj2 (Z.eqb_neq a 0)) by lia. cbn [negb andb]. destruct Hc as (_ & nx & Hm & Hc).
  destruct (Z.eqb_spec (start + sz) a) as [E|E].
  - rewrite Hm. cbn [ok_or mbind result_bind size next]. rewrite wrap_small by (unfold uint in *; lia).
    exists (sz + n), nx, l. split_and!; [done|done|done|cbn; set_solver|unfold uint in *; lia..].
  - exists sz, a, ((a, n) :: l). split_and!; [done|done|cbn; eauto|done|unfold uint in *; lia..].
Qed.

Lemma sorted_all lo l : 0 <= lo → sorted lo l → Forall (λ b, 0 < b.1 ∧ 0 < b.2 ∧ b.1 + b.2 <= LIMIT) l.
Proof.
  intros Hlo Hs. apply Forall_forall. intros b Hb. destruct (sorted_elem _ _ _ Hs Hb) as [? (_ & ? & _ & ?)].
  split_and!; [lia|done|done].
Qed.

Definition holds (s : State) (l : list Range) : Prop := chain (mem s) (head (heap s)) l 0.

Lemma holds_length s l : wf l → holds s l → (length l < fuel_of s)%nat.
Proof.
  unfold holds, wf, fuel_of. intros Hs Hc. apply Nat.lt_succ_r. rewrite <-(size_dom (mem s)).
  assert (Hsub : ∀ p l, chain (mem s) p l 0 → ∀ x, x ∈ starts l → x ∈ dom (mem s)).
  { clear. intros p l. revert p. induction l as [|[a n] l IH]; intros p; cbn; [set_solver|].
    intros (-> & nx & Hm & Hc) x [->|Hx]%elem_of_cons; [by eapply elem_of_dom_2|by apply (IH nx)]. }
  rewrite <-(length_fmap fst l). fold (starts l).
  rewrite <-(size_list_to_set (C := gset Z) (starts l)) by by eapply sorted_NoDup.
  apply subseteq_size. intros x Hx%elem_of_list_to_set. by eapply Hsub.
Qed.

Lemma clear_next start sz l lo : 0 <= lo → sorted lo l →
  negb (first_start l =? 0) && (first_start l <? start + sz) = negb (clear start sz l).
Proof.
  intros Hlo. destruct l as [|b l]; cbn; [done|]. intros (? & _). rewrite (proj2 (Z.eqb_neq b.1 0)) by lia.
  by rewrite negb_involutive.
Qed.

Lemma clear_starts start sz l lo x : sorted lo l → clear start sz l = true → x ∈ starts l → start + sz <= x.
Proof.
  destruct l as [|b l]; cbn; [set_solver|]. intros (_ & (_ & ? & _) & Hs) Hb%negb_true_iff%Z.ltb_ge.
  intros [->|Hx%(sorted_starts _ _ _ Hs)]%elem_of_cons; lia.
Qed.

(** The pointer code of [free] does what [free_list] does, panic included. *)
Lemma free_sim start sz s l :
  wf l → holds s l → block_ok (start, sz) → 0 < start →
  match free_list start sz l with
  | Some l' => ∃ s', free start sz s = Ok s' ∧ holds s' l' ∧
                 total (heap s') = total (heap s) ∧ used (heap s') = used (heap s)
  | None => free start sz s = Err AlreadyFree
  end.
Proof.
  intros Hwf Hc (_ & Hsz & _ & Hlim) Hst. cbn in Hsz, Hlim. unfold LIMIT in Hlim. unfold holds in Hc.
  destruct (neighbours_sim (fuel_of s) start 0 (head (heap s)) s 0 l) as (l1 & l2 & -> & H1 & H2 & Hn);
    [done|done|done|by apply holds_length|]. unfold free. rewrite Hn. cbn [mbind result_bind].
  apply chain_app in Hc as (r & Hc1 & Hc2). pose proof (chain_first _ _ _ Hc2) as ->.
  assert (Hu : uint 64 (start + sz)) by (unfold uint; lia). rewrite (wrap_small 64 (start + sz)) by done.
  destruct l1 as [|[a n] l1 _] using rev_ind.
  - cbn in Hc1 |- *. rewrite (proj2 (Z.ltb_ge start 0)) by lia. cbn [orb].
    rewrite (clear_next _ _ _ 0) by done. rewrite free_list_front by done.
    destruct (clear start sz l2) eqn:Hcl; cbn [negb]; [|done].
    destruct (join_sim (mem s) start sz l2) as (sz' & after & l' & Hj & -> & Hc' & Hsub & Hsz');
      [done|by apply (sorted_all 0)|done..|].
    rewrite (wrap_small 64 (start + sz)) in Hj by done. rewrite Hj. cbn [mbind result_bind].
    eexists. split; [reflexivity|]. split; [|done]. unfold holds. cbn. split; [done|]. exists after.
    rewrite lookup_insert_eq. split; [done|]. apply chain_frame; [|done].
    intros Hin%Hsub%(clear_starts _ _ _ 0 _ Hwf Hcl). lia.
  - rewrite <-app_assoc in Hwf |- *. cbn [app] in Hwf |- *. pose proof (sorted_app _ _ _ _ Hwf) as (Hs2 & Hok & Ha0 & Hl1).
    apply Forall_app in H1 as [_ [H1 _]%Forall_cons]. cbn in Hs2, Ha0, Hl1, H1. destruct Hok as (_ & Hn0 & _ & Hl0).
    cbn in Hn0, Hl0. unfold LIMIT in Hl0.
    unfold last_start. rewrite last_snoc. cbn [fst]. rewrite (proj2 (Z.eqb_neq a 0)) by lia.
    apply chain_app in Hc1 as (r & Hc0 & -> & nx & Hm & Hnx). cbn in Hnx. subst nx.
    rewrite Hm. cbn [ok_or mbind result_bind size negb andb]. rewrite (wrap_small 64 (a + n)) by (unfold uint; lia).
    rewrite (free_list_app 0 start sz l1 (a, n) l2 Hwf H1). rewrite free_list_behind by done.
    destruct (start <? a + n) eqn:Hov; cbn [orb fmap option_fmap option_map]; [done|]. apply Z.ltb_ge in Hov.
    rewrite (clear_next _ _ _ (a + n)) by (done || lia).
    destruct (clear start sz l2) eqn:Hcl; cbn [negb fmap option_fmap option_map]; [|done].
    destruct (join_sim (mem s) start sz l2) as (sz' & after & l' & Hj & Hjoin & Hc' & Hsub & Hsz');
      [done|apply (sorted_all (a + n)); [lia|done]|done..|].
    rewrite (wrap_small 64 (start + sz)) in Hj by done. rewrite Hj, Hjoin. cbn [mbind result_bind].
    assert (Hnew : ∀ x, x ∈ starts l' → start + sz <= x) by (intros x Hin%Hsub; by apply (clear_starts _ _ _ _ _ Hs2 Hcl)).
    destruct (a + n =? start) eqn:Hadj.
    + cbn [ok_or mbind result_bind size]. eexists. split; [reflexivity|]. split; [|done].
      unfold holds. cbn [mem write heap]. apply chain_app. exists a.
      split; [apply chain_frame; [intros Hin%Hl1; lia|done]|]. cbn. split; [done|]. exists after.
      rewrite lookup_insert_eq. split; [|apply chain_frame; [intros Hin%Hnew; lia|done]].
      rewrite wrap_small; [done|]. unfold uint in *.
      destruct l2 as [|[a2 n2] l2]; cbn in Hjoin; [injection Hjoin as <- <-; lia|].
      cbn in Hs2. destruct Hs2 as (_ & (_ & ? & _ & Hl2) & _). cbn in *. unfold LIMIT in Hl2.
      destruct (Z.eqb_spec (start + sz) a2); injection Hjoin as <- <-; lia.
    + cbn [mem write]. rewrite lookup_insert_ne, Hm by lia. cbn [ok_or mbind result_bind size].
      eexists. split; [reflexivity|]. split; [|done]. unfold holds. cbn [mem write heap].
      apply chain_app. exists a. split.
      * apply chain_frame; [intros Hin%Hl1; lia|]. apply chain_frame; [intros Hin%Hl1; lia|done].
      * cbn. split; [done|]. exists start. rewrite lookup_insert_eq. split; [done|]. split; [done|].
        exists after. rewrite lookup_insert_ne, lookup_insert_eq by lia. split; [done|].
        apply chain_frame; [intros Hin%Hnew; lia|]. apply chain_frame; [intros Hin%Hnew; lia|done].
Qed.

(** A merged list is determined by the bytes it covers. *)
Lemma sorted_unique lo l1 l2 :
  sorted lo l1 → sorted lo l2 → (∀ x, is_free l1 x ↔ is_free l2 x) → l1 = l2.
Proof.
  revert lo l2. induction l1 as [|[a1 n1] l1 IH]; intros lo [|[a2 n2] l2] H1 H2 Hx; [done| | |].
  - cbn in H2. destruct H2 as (_ & (_ & ? & _) & _). cbn in *. destruct (is_free_nil a2). apply Hx, is_free_cons. cbn. lia.
  - cbn in H1. destruct H1 as (_ & (_ & ? & _) & _). cbn in *. destruct (is_free_nil a1). apply Hx, is_free_cons. cbn. lia.
  - cbn in H1, H2. destruct H1 as (? & (_ & Hn1 & _) & H1), H2 as (? & (_ & Hn2 & _) & H2). cbn in Hn1, Hn2.
    assert (L1 : ∀ x, is_free l1 x → a1 + n1 < x) by (intros x; by apply sorted_above).
    assert (L2 : ∀ x, is_free l2 x → a2 + n2 < x) by (intros x; by apply sorted_above).
    setoid_rewrite is_free_cons in Hx. cbn in Hx.
    assert (a2 <= a1) by (destruct (proj1 (Hx a1)) as [?|?%L2]; [left; lia|lia..]).
    assert (a1 <= a2) by (destruct (proj2 (Hx a2)) as [?|?%L1]; [left; lia|lia..]).
    assert (a1 = a2) as <- by lia.
    assert (¬ n1 < n2) by (intros ?; destruct (proj2 (Hx (a1 + n1))) as [?|?%L1]; [left; lia|lia..]).
    assert (¬ n2 < n1) by (intros ?; destruct (proj1 (Hx (a1 + n2))) as [?|?%L2]; [left; lia|lia..]).
    assert (n1 = n2) as <- by lia.
    f_equal. apply (IH _ _ H1 H2). intros x. specialize (Hx x). specialize (L1 x). specialize (L2 x). intuition lia.
Qed.

(** What [Layout] promises: a power-of-two alignment, and a size that does not overflow
    [isize] when rounded up to it. *)
Definition layout_ok (L : Layout) : Prop :=
  power_of_two (l_align L) ∧ 0 <= l_size L ∧ l_size L + l_align L <= 2 ^ 63.

Record Inv (s : State) (l : list Range) : Prop := {
  inv_wf : wf l;
  inv_holds : holds s l;
  inv_used : 0 <= used (heap s);
  inv_total : total (heap s) = used (heap s) + free_bytes l;
  inv_uint : total (heap s) < 2 ^ 63;
}.

Lemma free_bytes_nonneg lo l : sorted lo l → 0 <= free_bytes l.
Proof.
  revert lo. induction l as [|b l IH]; intros lo; cbn; [lia|]. intros (_ & (_ & ? & _) & Hs).
  specialize (IH _ Hs). unfold free_bytes in IH. lia.
Qed.

Lemma power_of_two_16 : power_of_two 16.
Proof. exists 4. split; [lia|done]. Qed.

Lemma block_size_spec L : layout_ok L →
  let sz := block_size L in l_size L <= sz ∧ 0 < sz ∧ sz mod 16 = 0 ∧
  request_ok sz (Z.max (l_align L) 16) ∧ small sz (Z.max (l_align L) 16).
Proof.
  intros (Hp & Hs & Hb). cbv zeta. unfold block_size, BLOCK_ALIGN.
  pose proof Hp as (k & Hk & Hal). assert (Hpos : 0 < 2 ^ k) by (apply Z.pow_pos_nonneg; lia).
  rewrite align_up_ceil by (apply power_of_two_16 || lia).
  destruct (ceil_spec (Z.max (l_size L) 1) 16 ltac:(lia)) as (H1 & H2 & _).
  assert (Hmax : power_of_two (Z.max (l_align L) 16) ∧ Z.max (l_align L) 16 mod 16 = 0).
  { destruct (Z.le_gt_cases 4 k).
    - rewrite Z.max_l; [|rewrite Hal; change 16 with (2 ^ 4); apply Z.pow_le_mono_r; lia].
      split; [done|]. rewrite Hal. replace k with (k - 4 + 4) by lia. rewrite Z.pow_add_r by lia. by apply Z.mod_mul.
    - rewrite Z.max_r; [split; [apply power_of_two_16|done]|].
      rewrite Hal. change 16 with (2 ^ 4). apply Z.pow_le_mono_r; lia. }
  destruct Hmax as [Hm1 Hm2]. split_and!; [lia|lia|done|split_and!; [lia|done|lia|done]|split; [done|lia]].
Qed.

Lemma alloc_sim L s l : layout_ok L → Inv s l →
  let sz := block_size L in
  let '(l', p) := alloc_list sz (Z.max (l_align L) 16) l in
  ∃ s', alloc L s = Ok (s', p) ∧ Inv s' l' ∧ total (heap s') = total (heap s) ∧
        used (heap s') = if p =? 0 then used (heap s) else used (heap s) + sz.
Proof.
  intros HL HI. destruct (block_size_spec L HL) as (_ & Hsz & _ & Hreq & Hsm). cbv zeta in *.
  unfold alloc, BLOCK_ALIGN. set (sz := block_size L) in *.
  destruct (alloc_from_sim (fuel_of s) [] l None s sz (Z.max (l_align L) 16)) as (s' & -> & Hc & Ht & Hu);
    [done|done|by left|apply HI|apply HI|apply holds_length; apply HI|].
  pose proof (alloc_list_spec sz (Z.max (l_align L) 16) 0 l) as Hspec.
  destruct (alloc_list sz (Z.max (l_align L) 16) l) as [l' p]. cbn [fst snd app] in *.
  destruct (Hspec l' p Hreq ltac:(lia) (inv_wf s l HI) eq_refl) as [Hwf' Hcase].
  assert (Hu' : used (heap s') = (if p =? 0 then used (heap s) else used (heap s) + sz) ∧
                (if p =? 0 then 0 else sz) + free_bytes l' = free_bytes l).
  { pose proof (inv_used s l HI). pose proof (inv_total s l HI). pose proof (inv_uint s l HI).
    pose proof (free_bytes_nonneg _ _ Hwf').
    destruct Hcase as [(-> & -> & _)|(Hp & _ & _ & _ & Hb)]; [done|].
    rewrite (proj2 (Z.eqb_neq p 0)) in * by lia. rewrite Hu, wrap_small by (unfold uint; lia). lia. }
  destruct Hu' as [Hu' Hb]. exists s'. split_and!; [done| |done|done].
  pose proof (inv_used s l HI). pose proof (inv_total s l HI). pose proof (inv_uint s l HI).
  split; rewrite ?Ht, ?Hu'; [done|done|destruct (p =? 0); lia|destruct (p =? 0); lia|done].
Qed.

(** C16: [alloc] for any layout.  It never fails to terminate or follows a bad pointer.  When
    it returns a block, the block is aligned, was free, and exactly its bytes stop being
    free; when it returns null, no aligned range of that size is free anywhere in the heap,
    so memory is never refused because of how the free list is cut up. *)
Theorem alloc_takes_a_free_block L s l :
  layout_ok L → Inv s l →
  let sz := block_size L in
  ∃ s' p l', alloc L s = Ok (s', p) ∧ Inv s' l' ∧ total (heap s') = total (heap s) ∧ l_size L <= sz ∧
  ((p = 0 ∧ l' = l ∧ used (heap s') = used (heap s) ∧
    ∀ q, q mod Z.max (l_align L) 16 = 0 → ¬ ∀ x, q <= x < q + sz → is_free l x) ∨
   (0 < p ∧ p mod Z.max (l_align L) 16 = 0 ∧ used (heap s') = used (heap s) + sz ∧
    (∀ x, p <= x < p + sz → is_free l x) ∧
    (∀ x, is_free l' x ↔ is_free l x ∧ ¬ p <= x < p + sz))).
Proof.
  intros HL HI. pose proof (alloc_sim L s l HL HI) as Hsim. cbv zeta in *.
  destruct (block_size_spec L HL) as (Hge & _ & _ & Hreq & _).
  destruct (alloc_list _ _ l) as [l' p] eqn:E. destruct Hsim as (s' & Ha & HI' & Ht & Hu).
  destruct (alloc_list_spec _ _ 0 l l' p Hreq ltac:(lia) (inv_wf s l HI) E) as [_ Hcase].
  exists s', p, l'. split_and!; [done..|]. destruct Hcase as [(-> & -> & Hno)|(Hp & Hm & Hf & Hiff & _)].
  - left. done.
  - right. rewrite (proj2 (Z.eqb_neq p 0)) in Hu by lia. done.
Qed.

(** The heap 0x1000..0x2000 with one block taken from its middle. *)
Definition demo : State :=
  mkState (mkHeap 0x1000 0x1000 0x100)
    {[ 0x1000 := mkFreeBlock 0x700 0x1800; 0x1800 := mkFreeBlock 0x800 0 ]}.

Definition demo_list : list Range := [(0x1000, 0x700); (0x1800, 0x800)].

Lemma demo_heap_Inv : Inv demo demo_list.
Proof.
  split; [by vm_compute| |by vm_compute..]. unfold holds. cbn. split; [done|].
  exists 0x1800. split; [reflexivity|]. split; [done|]. exists 0. split; reflexivity.
Qed.

Lemma alloc_takes_a_free_block_witness :
  ∃ s' p l', alloc (mkLayout 100 2048) demo = Ok (s', p) ∧ p = 0x1000 ∧ Inv s' l' ∧ ¬ is_free l' 0x1000.
Proof.
  destruct (alloc_takes_a_free_block (mkLayout 100 2048) demo demo_list) as (s' & p & l' & H1 & H2 & _ & _ & H3);
    [|exact demo_heap_Inv|].
  - split_and!; [by exists 11|cbn; lia..].
  - assert (p = 0x1000) as -> by (vm_compute in H1; congruence).
    exists s', 0x1000, l'. split_and!; [done..|]. destruct H3 as [(? & _)|(_ & _ & _ & _ & H)]; [done|].
    rewrite H. intros [_ Hno]. apply Hno. vm_compute. done.
Defined.

Lemma free_Inv start sz s l : Inv s l → block_ok (start, sz) → 0 < start → sz <= used (heap s) →
  (∃ x, start <= x < start + sz ∧ is_free l x) ∧ free start sz s = Err AlreadyFree ∨
  (∀ x, start <= x < start + sz → ¬ is_free l x) ∧
  ∃ s' l', free start sz s = Ok s' ∧ Inv (set_used (used (heap s') - sz) s') l' ∧
    total (heap s') = total (heap s) ∧ used (heap s') = used (heap s) ∧
    ∀ x, is_free l' x ↔ is_free l x ∨ start <= x < start + sz.
Proof.
  intros HI Hok Hst Hused. pose proof (free_list_spec start sz 0 l Hst Hok (inv_wf s l HI)) as Hspec.
  pose proof (free_sim start sz s l (inv_wf s l HI) (inv_holds s l HI) Hok Hst) as Hsim.
  destruct (free_list start sz l) as [l'|]; [right|by left].
  destruct Hspec as (Hno & Hwf & Hiff & Hb), Hsim as (s' & Hf & Hh & Ht & Hu). split; [done|].
  exists s', l'. split_and!; [done| |done|done|done].
  pose proof (inv_used s l HI). pose proof (inv_total s l HI). pose proof (inv_uint s l HI).
  pose proof (free_bytes_nonneg 0 l (inv_wf s l HI)). destruct Hok as (_ & Hpos & _). cbn in Hpos.
  split; cbn [set_used heap used total]; rewrite ?Ht, ?Hu; [done|done|rewrite wrap_small by (unfold uint; lia); lia..|done].
Qed.

(** [dealloc] of a block-sized range.  If none of its bytes is free they all become free
    and nothing else changes; if any is free already (a block freed twice, or part of one),
    it panics rather than corrupting the list. *)
Theorem dealloc_frees_exactly_its_block L p s l :
  layout_ok L → Inv s l → 0 < p → p mod 16 = 0 → p + block_size L <= LIMIT → block_size L <= used (heap s) →
  (∃ x, p <= x < p + block_size L ∧ is_free l x) ∧ dealloc p L s = Err AlreadyFree ∨
  (∀ x, p <= x < p + block_size L → ¬ is_free l x) ∧
  ∃ s' l', dealloc p L s = Ok s' ∧ Inv s' l' ∧ used (heap s') = used (heap s) - block_size L ∧
    ∀ x, is_free l' x ↔ is_free l x ∨ p <= x < p + block_size L.
Proof.
  intros HL HI Hp Hm Hlim Hused. destruct (block_size_spec L HL) as (_ & Hsz & Hszm & _). cbv zeta in *.
  unfold dealloc. destruct (free_Inv p (block_size L) s l HI) as [[Hx ->]|(Hno & s' & l' & -> & HI' & Ht & Hu & Hiff)];
    [by split_and!|done|done|by left|right].
  split; [done|]. eexists _, l'. split; [reflexivity|]. split_and!; [done| |done].
  pose proof (inv_uint s l HI). pose proof (inv_total s l HI).
  pose proof (free_bytes_nonneg 0 l (inv_wf s l HI)).
  cbn. rewrite Hu, wrap_small; [done|unfold uint; lia].
Qed.

Lemma dealloc_frees_exactly_its_block_witness :
  dealloc 0x1000 (mkLayout 16 16) demo = Err AlreadyFree ∧
  ∃ s' l', dealloc 0x1700 (mkLayout 256 16) demo = Ok s' ∧ Inv s' l' ∧ used (heap s') = 0x100 - 256.
Proof.
  split.
  - destruct (dealloc_frees_exactly_its_block (mkLayout 16 16) 0x1000 demo demo_list) as [[_ H]|[_ (s' & l' & H & _)]];
      [|exact demo_heap_Inv|..|exact H|vm_compute in H; discriminate].
    + split_and!; [by exists 4|cbn; lia..].
    + lia.
    + done.
    + vm_compute. done.
    + vm_compute. done.
  - destruct (dealloc_frees_exactly_its_block (mkLayout 256 16) 0x1700 demo demo_list) as [[_ H]|[_ (s' & l' & H & H' & Hu & _)]];
      [|exact demo_heap_Inv|..|vm_compute in H; discriminate|by exists s', l'].
    + split_and!; [by exists 4|cbn; lia..].
    + lia.
    + done.
    + vm_compute. done.
    + vm_compute. done.
Defined.

(** * The heap in use *)

(** How many of the blocks held by callers cover the byte [x]. *)
Fixpoint owners (held : list (Z * Layout)) (x : Z) : nat :=
  match held with
  | [] => 0
  | (p, L) :: held => (if (p <=? x)%Z && (x <? p + block_size L)%Z then 1 else 0) + owners held x
  end.

(** Runs of the heap over the memory [start..end]: blocks are taken and given back, and their
    holders write to them (and so to any old header in them) as they like. *)
Inductive reachable (start end_ : Z) : State → list (Z * Layout) → Prop :=
| reachable_init s0 s : init start end_ s0 = Ok s → reachable start end_ s []
| reachable_alloc s held L s' p :
    reachable start end_ s held → layout_ok L → alloc L s = Ok (s', p) → p ≠ 0 →
    reachable start end_ s' ((p, L) :: held)
| reachable_dealloc s h1 p L h2 s' :
    reachable start end_ s (h1 ++ (p, L) :: h2) → dealloc p L s = Ok s' →
    reachable start end_ s' (h1 ++ h2)
| reachable_write s held m :
    reachable start end_ s held → (∀ x, m !! x ≠ mem s !! x → (0 < owners held x)%nat) →
    reachable start end_ (mkState (heap s) m) held.

Definition block_in (lo hi : Z) (b : Z * Layout) : Prop :=
  lo <= b.1 ∧ b.1 + block_size b.2 <= hi ∧ b.1 mod l_align b.2 = 0 ∧ b.1 mod 16 = 0 ∧ layout_ok b.2.

Definition held_bytes (held : list (Z * Layout)) : Z := foldr (λ b n, block_size b.2 + n) 0 held.

Lemma owners_app h1 h2 x : owners (h1 ++ h2) x = (owners h1 x + owners h2 x)%nat.
Proof. induction h1 as [|[p L] h1 IH]; cbn; [done|]. rewrite IH. lia. Qed.

Lemma held_bytes_app h1 h2 : held_bytes (h1 ++ h2) = held_bytes h1 + held_bytes h2.
Proof. unfold held_bytes. induction h1 as [|b h1 IH]; cbn; [done|]. rewrite IH. lia. Qed.

Lemma held_bytes_nonneg lo hi h : Forall (block_in lo hi) h → 0 <= held_bytes h.
Proof.
  unfold held_bytes. induction 1 as [|b h (_ & _ & _ & _ & HL) _ IH]; cbn; [lia|].
  destruct (block_size_spec _ HL) as (_ & ? & _). lia.
Qed.

Lemma range_test a b x : (a <=? x) && (x <? b) = bool_decide (a <= x < b).
Proof.
  destruct (Z.leb_spec a x), (Z.ltb_spec x b); cbn; symmetry;
    (apply bool_decide_eq_true || apply bool_decide_eq_false); lia.
Qed.

Lemma owners_cons p L held x :
  owners ((p, L) :: held) x = ((if decide (p <= x < p + block_size L)%Z then 1 else 0) + owners held x)%nat.
Proof. cbn. rewrite range_test. by repeat case_decide || case_bool_decide. Qed.

(** The region, cut to whole blocks. *)
Definition lo (start : Z) : Z := align_up start BLOCK_ALIGN.
Definition hi (end_ : Z) : Z := align_down end_.

Record Used (start end_ : Z) (s : State) (held : list (Z * Layout)) (l : list Range) : Prop := {
  used_inv : Inv s l;
  used_total : total (heap s) = hi end_ - lo start;
  used_free : ∀ x, is_free l x ↔ lo start <= x < hi end_ ∧ owners held x = 0%nat;
  used_once : ∀ x, (owners held x ≤ 1)%nat;
  used_in : Forall (block_in (lo start) (hi end_)) held;
  used_used : used (heap s) = held_bytes held;
}.

Section region.
Context (start end_ : Z).
Hypothesis start_ok : 0 < start.
Hypothesis end_ok : end_ <= LIMIT.
Hypothesis room : start + 32 <= end_.

Lemma lo_hi : 0 < lo start ∧ start <= lo start < hi end_ ∧ hi end_ <= end_ ∧
  lo start mod 16 = 0 ∧ hi end_ mod 16 = 0.
Proof.
  unfold lo, hi, align_down, LIMIT, BLOCK_ALIGN in *.
  rewrite align_up_ceil by (apply power_of_two_16 || lia). change (16 - 1) with (2 ^ 4 - 1).
  rewrite land_bnot by (unfold uint; lia). change (2 ^ 4) with 16.
  destruct (ceil_spec start 16 ltac:(lia)) as (H1 & H2 & _).
  pose proof (Z.div_mod end_ 16 ltac:(lia)). pose proof (Z.mod_pos_bound end_ 16 ltac:(lia)).
  split_and!; [lia..|done|by apply Z.mod_mul].
Qed.

Lemma Used_init s0 s : init start end_ s0 = Ok s → Used start end_ s [] [(lo start, hi end_ - lo start)].
Proof.
  destruct lo_hi as (H0 & H1 & H2 & H3 & H4). unfold init. fold (lo start) (hi end_).
  assert (Hok : block_ok (lo start, hi end_ - lo start)).
  { unfold block_ok, LIMIT in *. cbn. split_and!; [done|lia|by apply mod16_sub|lia]. }
  unfold LIMIT in *. rewrite wrap_small by (unfold uint; lia). set (s1 := set_used 0 _).
  assert (Hh : holds s1 []) by done. intros Hf.
  pose proof (free_sim (lo start) (hi end_ - lo start) s1 [] I Hh Hok H0) as (s' & Hf' & Hc & Ht & Hu).
  rewrite Hf' in Hf. injection Hf as <-. cbn in Ht, Hu. rewrite wrap_small in Ht by (unfold uint; lia).
  split; [|done| |cbn; lia|constructor|done].
  - split; [cbn; done|done|rewrite Hu; done|rewrite Ht, Hu; cbn; change (wrap 64 0) with 0; lia|lia].
  - intros x. rewrite is_free_cons. cbn. pose proof (is_free_nil x). intuition lia.
Qed.

Lemma Used_alloc s held l L s' p :
  Used start end_ s held l → layout_ok L → alloc L s = Ok (s', p) → p ≠ 0 →
  ∃ l', Used start end_ s' ((p, L) :: held) l'.
Proof.
  intros HU HL Ha Hp. pose proof (alloc_sim L s l HL (used_inv _ _ _ _ _ HU)) as Hsim. cbv zeta in Hsim.
  destruct (block_size_spec L HL) as (_ & Hsz & Hszm & Hreq & _).
  destruct (alloc_list _ _ l) as [l' p'] eqn:E. destruct Hsim as (s'' & Ha' & HI' & Ht & Hu).
  rewrite Ha in Ha'. injection Ha' as <- <-. rewrite (proj2 (Z.eqb_neq p 0)) in Hu by done.
  destruct (alloc_list_spec _ _ 0 l l' p Hreq ltac:(lia) (inv_wf _ _ (used_inv _ _ _ _ _ HU)) E)
    as [_ [(? & _)|(Hpos & Hm & Hf & Hiff & _)]]; [done|].
  assert (Hown : ∀ x, p <= x < p + block_size L → lo start <= x < hi end_ ∧ owners held x = 0%nat)
    by (intros x Hx; by apply (used_free _ _ _ _ _ HU), Hf).
  exists l'. split; [done|by rewrite Ht, (used_total _ _ _ _ _ HU)| | | |].
  - intros x. rewrite Hiff, (used_free _ _ _ _ _ HU), owners_cons. case_decide; intuition lia.
  - intros x. rewrite owners_cons. case_decide as Hx; [destruct (Hown x Hx); lia|apply (used_once _ _ _ _ _ HU)].
  - constructor; [|apply HU]. pose proof (Hown p ltac:(lia)). pose proof (Hown (p + block_size L - 1) ltac:(lia)).
    pose proof HL as (Hpow & _). unfold block_in. cbn [fst snd]. split_and!; [lia|lia| | |done..].
    + destruct (Z.le_gt_cases 16 (l_align L)) as [Hle|]; [rewrite (Z.max_l _ _ Hle) in Hm; exact Hm|].
      rewrite Z.max_r in Hm by lia. destruct Hpow as (k & Hk & Hal). rewrite Hal in *.
      apply Z.mod_divide in Hm as [j ->]; [|lia]. apply Z.mod_divide; [apply Z.pow_nonzero; lia|].
      assert (k < 4) by (apply (Z.pow_lt_mono_r_iff 2 k 4); [lia..|change (2 ^ 4) with 16; lia]).
      exists (j * 2 ^ (4 - k)). rewrite <-Z.mul_assoc, <-Z.pow_add_r by lia. replace (4 - k + k) with 4 by lia. done.
    + apply mod16_align with (Z.max (l_align L) 16); [apply Hreq|lia|done].
  - rewrite Hu, (used_used _ _ _ _ _ HU). unfold held_bytes. cbn. lia.
Qed.

Lemma Used_dealloc s h1 p L h2 l :
  Used start end_ s (h1 ++ (p, L) :: h2) l →
  ∃ s' l', dealloc p L s = Ok s' ∧ Used start end_ s' (h1 ++ h2) l'.
Proof.
  intros HU. destruct lo_hi as (H0 & H1 & H2 & _). pose proof (used_in _ _ _ _ _ HU) as Hin.
  apply Forall_app in Hin as [Hin1 (Hb & Hin2)%Forall_cons]. destruct Hb as (Hlo & Hhi & Hm & Hm16 & HL). cbn [fst snd] in *.
  destruct (block_size_spec L HL) as (_ & Hsz & Hszm & _). cbv zeta in *. pose proof (used_inv _ _ _ _ _ HU) as HI.
  assert (Hub : used (heap s) = held_bytes (h1 ++ h2) + block_size L).
  { rewrite (used_used _ _ _ _ _ HU), !held_bytes_app. unfold held_bytes. cbn. lia. }
  assert (Hnn : 0 <= held_bytes (h1 ++ h2)).
  { apply (held_bytes_nonneg (lo start) (hi end_)). by apply Forall_app. }
  assert (Hown : ∀ x, owners (h1 ++ (p, L) :: h2) x =
                      ((if decide (p <= x < p + block_size L)%Z then 1 else 0) + owners (h1 ++ h2) x)%nat).
  { intros x. rewrite !owners_app, owners_cons. lia. }
  unfold dealloc. cbv zeta. destruct (free_Inv p (block_size L) s l HI) as [[(x & Hx & Hf) _]|(_ & s' & l' & Hfr & HI' & Ht & Hu & Hiff)];
    [unfold block_ok; cbn; split_and!; done || lia|lia|lia| |].
  - apply (used_free _ _ _ _ _ HU) in Hf as [_ Hf]. rewrite Hown, decide_True in Hf by done. lia.
  - rewrite Hfr. eexists _, l'. split; [reflexivity|]. pose proof (inv_total _ _ HI). pose proof (inv_uint _ _ HI).
    pose proof (free_bytes_nonneg 0 l (inv_wf s l HI)).
    split; [done|cbn; by rewrite Ht, (used_total _ _ _ _ _ HU)| | |by apply Forall_app|].
    + intros x. rewrite Hiff, (used_free _ _ _ _ _ HU), Hown.
      pose proof (used_once _ _ _ _ _ HU x) as Ho. rewrite Hown in Ho. case_decide; intuition lia.
    + intros x. pose proof (used_once _ _ _ _ _ HU x) as Ho. rewrite Hown in Ho. lia.
    + cbn. rewrite Hu, Hub, wrap_small by (unfold uint; lia). lia.
Qed.

Lemma chain_agree m m' p l q : (∀ x, x ∈ starts l → m' !! x = m !! x) → chain m p l q → chain m' p l q.
Proof.
  revert p. induction l as [|[a n] l IH]; intros p Hag; cbn; [done|]. intros (-> & nx & Hm & Hc).
  split; [done|]. exists nx. split; [rewrite Hag by (cbn; set_solver); done|].
  apply IH; [|done]. intros x Hx. apply Hag. cbn. set_solver.
Qed.

Lemma Used_write s held l m :
  Used start end_ s held l → (∀ x, m !! x ≠ mem s !! x → (0 < owners held x)%nat) →
  Used start end_ (mkState (heap s) m) held l.
Proof.
  intros HU Hm. destruct HU as [HI Ht Hf Ho Hin Hu]. destruct HI as [Hwf Hh Hi1 Hi2 Hi3].
  split; try done. split; try done. unfold holds in *. cbn. apply chain_agree with (mem s); [|done].
  intros x (b & -> & Hb)%list_elem_of_fmap. destruct (sorted_elem _ _ _ Hwf Hb) as (_ & _ & Hn & _).
  destruct (proj1 (Hf b.1)) as [_ H0]; [exists b; split; [done|lia]|].
  destruct (decide (m !! b.1 = mem s !! b.1)) as [|Hne]; [done|]. specialize (Hm _ Hne). lia.
Qed.

Lemma Used_reachable s held : reachable start end_ s held → ∃ l, Used start end_ s held l.
Proof.
  induction 1 as [s0 s Hi|s held L s' p _ [l HU] HL Ha Hp|s h1 p L h2 s' _ [l HU] Hd|s held m _ [l HU] Hm].
  - eexists. by apply Used_init with s0.
  - by apply (Used_alloc s held l L s' p).
  - destruct (Used_dealloc _ _ _ _ _ _ HU) as (s'' & l' & Hd' & HU'). rewrite Hd in Hd'.
    injection Hd' as <-. eauto.
  - exists l. by apply Used_write.
Qed.

Lemma Used_empty s l : Used start end_ s [] l → l = [(lo start, hi end_ - lo start)].
Proof.
  intros HU. destruct lo_hi as (H0 & H1 & H2 & H3 & H4). unfold LIMIT in *.
  apply (sorted_unique 0); [apply HU| |].
  - cbn. unfold block_ok, LIMIT. cbn. split_and!; [lia|done|lia|by apply mod16_sub|lia|done].
  - intros x. rewrite (used_free _ _ _ _ _ HU), is_free_cons. cbn. pose proof (is_free_nil x). intuition lia.
Qed.

(** C9: the heap in use.  Over memory [start..end], after any run of allocations, frees and
    writes by the holders to their blocks: the blocks held lie inside the memory, are aligned
    as asked and never overlap; freeing one never panics; and when all have been given back,
    the free memory is one block again, however it was cut up in between. *)
Theorem heap_blocks_never_overlap s held :
  reachable start end_ s held →
  (∀ p L, (p, L) ∈ held → start <= p ∧ p + l_size L <= end_ ∧ p mod l_align L = 0) ∧
  (∀ x, (owners held x ≤ 1)%nat) ∧
  (∀ h1 p L h2, held = h1 ++ (p, L) :: h2 → ∃ s', dealloc p L s = Ok s') ∧
  (held = [] → stats s = Ok (mkStats (hi end_ - lo start) 0 (hi end_ - lo start))).
Proof.
  intros Hr. destruct (Used_reachable s held Hr) as (l & HU). destruct lo_hi as (H0 & H1 & H2 & _). split_and!.
  - intros p L Hin. pose proof (proj1 (Forall_forall _ _) (used_in _ _ _ _ _ HU) _ Hin) as (? & ? & ? & _ & HL).
    cbn in *. destruct (block_size_spec L HL) as (? & _). cbv zeta in *. split_and!; [lia|lia|done].
  - apply HU.
  - intros h1 p L h2 ->. destruct (Used_dealloc _ _ _ _ _ _ HU) as (s' & l' & Hd & _). eauto.
  - intros ->. pose proof (Used_empty s l HU) as ->. unfold stats.
    pose proof (used_inv _ _ _ _ _ HU) as HI. pose proof (inv_holds _ _ HI) as Hh. unfold holds in Hh. cbn in Hh.
    destruct Hh as (Hhd & nx & Hm & ->). rewrite Hhd, (used_total _ _ _ _ _ HU), (used_used _ _ _ _ _ HU).
    unfold fuel_of. destruct (base.size (mem s)) as [|k] eqn:Hk.
    { apply map_size_empty_inv in Hk. by rewrite Hk, lookup_empty in Hm. }
    cbn [largest_from]. rewrite (proj2 (Z.eqb_neq (lo start) 0)) by lia. rewrite Hm.
    cbn [ok_or mbind result_bind next size largest_from Z.eqb]. by rewrite Z.max_r by lia.
Qed.

End region.

(** Two blocks are taken and given back in the order they were taken. *)
Lemma heap_blocks_never_overlap_witness :
  ∃ s, reachable 0x1001 0x2000 s [] ∧ stats s = Ok (mkStats 0xFF0 0 0xFF0).
Proof.
  set (A := mkLayout 100 32). set (B := mkLayout 24 8).
  destruct (init 0x1001 0x2000 (mkState empty ∅)) as [s1|] eqn:E1; [|vm_compute in E1; discriminate].
  pose proof (reachable_init 0x1001 0x2000 _ _ E1) as R1. vm_compute in E1. injection E1 as E1.
  destruct (alloc A s1) as [[s2 p]|] eqn:E2; [|subst s1; vm_compute in E2; discriminate].
  assert (R2 : reachable 0x1001 0x2000 s2 [(p, A)]).
  { apply (reachable_alloc _ _ s1 [] A s2 p R1); [split_and!; [by exists 5|cbn; lia..]|done|].
    subst s1. vm_compute in E2. congruence. }
  subst s1. vm_compute in E2. injection E2 as E2 Ep.
  destruct (alloc B s2) as [[s3 q]|] eqn:E3; [|subst s2; vm_compute in E3; discriminate].
  assert (R3 : reachable 0x1001 0x2000 s3 [(q, B); (p, A)]).
  { apply (reachable_alloc _ _ s2 [(p, A)] B s3 q R2); [split_and!; [by exists 3|cbn; lia..]|done|].
    subst s2. vm_compute in E3. congruence. }
  subst s2. vm_compute in E3. injection E3 as E3 Eq.
  destruct (dealloc p A s3) as [s4|] eqn:E4; [|subst s3 p; vm_compute in E4; discriminate].
  pose proof (reachable_dealloc _ _ s3 [(q, B)] p A [] s4 R3 E4) as R4. cbn [app] in R4.
  subst s3 p. vm_compute in E4. injection E4 as E4.
  destruct (dealloc q B s4) as [s5|] eqn:E5; [|subst s4 q; vm_compute in E5; discriminate].
  pose proof (reachable_dealloc _ _ s4 [] q B [] s5 R4 E5) as R5. cbn [app] in R5.
  exists s5. split; [exact R5|].
  destruct (heap_blocks_never_overlap 0x1001 0x2000 ltac:(lia) ltac:(vm_compute; congruence) ltac:(lia) s5 []
              R5) as (_ & _ & _ & H). exact (H eq_refl).
Defined.
End FreeList.
