(* ===== verification/Paging.v ===== *)
(** Page tables of user address spaces ([rustypi-core/src/paging.rs]).

    Physical memory is modelled byte by byte, as the kernel's identity mapping sees it: tables
    are 512 little-endian words in a frame, written and walked at their addresses.
    [Class FrameSource] is the trait of that name with its laws; the bitmap allocator of
    [Frames] is an instance ([src/sys/memory.rs] wraps it). *)
From S2P Require Import Prelude Bytes Abi Frames.
Import layout.
Open Scope Z_scope.

(** A frame: a whole page below the 48-bit limit on physical addresses. *)
Definition frame_ok (a : Z) : Prop := a mod PAGE_SIZE = 0 ∧ 0 <= a ∧ a + PAGE_SIZE <= 2 ^ 48.

(** What address spaces rely on: [allocate] gives a frame nobody holds, and [free] takes back
    a frame that is held (it panics, [None], on others). *)
Class FrameSource (S : Type) := {
  fs_allocate : S → option (S * Z);
  fs_free : Z → S → option S;
  fs_ok : S → Prop;
  fs_held : S → gset Z;
  fs_allocate_ok s s' a : fs_ok s → fs_allocate s = Some (s', a) →
    fs_ok s' ∧ a ∉ fs_held s ∧ fs_held s' = fs_held s ∪ {[a]} ∧ frame_ok a;
  fs_free_ok s a : fs_ok s → a ∈ fs_held s →
    ∃ s', fs_free a s = Some s' ∧ fs_ok s' ∧ fs_held s' = fs_held s ∖ {[a]};
}.

Module PageFrames.
Import Frames.

(** [impl FrameSource for PageFrames], once [init] has run. *)
Definition allocate (f : Frames) : option (Frames * Z) := Frames.allocate f.
Definition free (frame : Z) (f : Frames) : option Frames := ok (Frames.free frame f).

Definition ok_frames (f : Frames) : Prop :=
  Inv f ∧ base f mod PAGE_SIZE = 0 ∧ base f + Z.of_nat (count f) * PAGE_SIZE <= 2 ^ 48.
Definition held (f : Frames) : gset Z :=
  set_map (address f) (set_seq (C := gset nat) 0 (count f) ∖ free_set f).

Lemma elem_of_held f a : a ∈ held f ↔ ∃ n, a = address f n ∧ (n < count f)%nat ∧ n ∉ free_set f.
Proof.
  unfold held. rewrite elem_of_map. setoid_rewrite elem_of_difference. setoid_rewrite elem_of_set_seq.
  naive_solver lia.
Qed.

Lemma frame_ok_address f n : ok_frames f → (n < count f)%nat → frame_ok (address f n).
Proof.
  intros (HI & Hm & He) Hn. pose proof (inv_base f HI). unfold frame_ok, address, PAGE_SIZE in *.
  rewrite Z.mod_add by lia. split_and!; [done|lia|lia].
Qed.

#[export] Program Instance page_frames : FrameSource Frames := {|
  fs_allocate := allocate;
  fs_free := free;
  fs_ok := ok_frames;
  fs_held := held;
|}.
Next Obligation.
  intros f f' a Hok Ha. pose proof Hok as (HI & Hm & He).
  apply allocate_Some in Ha as (n & Hn & -> & Hset & Hb & Hc & HI'); [|done].
  destruct (proj1 (elem_of_free_set f n) Hn) as [Hlt _]. split_and!.
  - split_and!; [done|by rewrite Hb|by rewrite Hb, Hc].
  - intros (m & <-%address_inj & _ & Hm')%elem_of_held. done.
  - apply set_eq. intros a. rewrite elem_of_union, elem_of_singleton, !elem_of_held.
    unfold address. rewrite Hb, Hc, Hset. split.
    + intros (m & -> & Hlt' & Hno). destruct (decide (m = n)) as [->|]; [by right|]. left. set_solver.
    + intros [(m & -> & Hlt' & Hno)| ->]; [exists m|exists n]; set_solver.
  - by apply frame_ok_address.
Qed.
Next Obligation.
  intros f a Hok (n & -> & Hlt & Hno)%elem_of_held. pose proof Hok as (HI & Hm & He).
  pose proof (frame_ok_address f n Hok Hlt) as (_ & H0 & _). unfold free.
  destruct (free_cases f (address f n) HI H0) as [[_ Hn]|(m & Hm' & <-%address_inj & Hf)]; [by destruct (Hn n)|].
  rewrite decide_False in Hf by done. destruct Hf as (f' & -> & Hset & Hb & Hc & HI').
  exists f'. split; [done|]. split; [split_and!; [done|by rewrite Hb|by rewrite Hb, Hc]|].
  apply set_eq. intros a. rewrite elem_of_difference, not_elem_of_singleton, !elem_of_held.
  unfold address. rewrite Hb, Hc, Hset. split.
  - intros (m & -> & Hlt' & [Hno' Hne]%not_elem_of_union). split; [eauto|]. intros E. apply Hne.
    apply elem_of_singleton, (address_inj f). done.
  - intros [(m & -> & Hlt' & Hno') Hne]. exists m. split_and!; [done..|].
    apply not_elem_of_union. split; [done|]. intros ->%elem_of_singleton. done.
Qed.

End PageFrames.

Module Paging.

Definition ENTRIES : Z := 512.
Notation PAGE := PAGE_SIZE (only parsing).

(** * Physical memory *)
Definition Mem := Z → Z.

(** [core::ptr::write_bytes] and [copy_nonoverlapping]. *)
Definition fill (a n v : Z) (m : Mem) : Mem := λ x, if (a <=? x) && (x <? a + n) then v else m x.
Definition store (a : Z) (l : list Z) (m : Mem) : Mem :=
  λ x, if (a <=? x) && (x <? a + Z.of_nat (length l)) then l !!! Z.to_nat (x - a) else m x.
Definition fetch (a : Z) (n : nat) (m : Mem) : list Z := (λ i, m (a + Z.of_nat i)) <$> seq 0 n.

(** Entry [i] of the table in the frame at [physical]. *)
Definition entry (m : Mem) (physical i : Z) : Z := le_value (fetch (physical + 8 * i) 8 m).
Definition set_entry (physical i v : Z) (m : Mem) : Mem := store (physical + 8 * i) (le_bytes 8 v) m.

(** * Descriptors *)
Definition VALID : Z := bit 0.
Definition TABLE_OR_PAGE : Z := bit 1.
Definition ATTR_NORMAL : Z := 0.
Definition AP_EL0 : Z := bit 6.
Definition AP_READ_ONLY : Z := bit 7.
Definition INNER_SHAREABLE : Z := Z.shiftl 3 8.
Definition ACCESS_FLAG : Z := bit 10.
Definition NOT_GLOBAL : Z := bit 11.
Definition PRIVILEGED_EXECUTE_NEVER : Z := bit 53.
Definition USER_EXECUTE_NEVER : Z := bit 54.
Definition ADDRESS : Z := 0x0000FFFFFFFFF000.

Inductive Access := ReadOnly | ReadWrite | ReadExecute.

#[export] Instance Access_eq_dec : EqDecision Access.
Proof. solve_decision. Defined.

Definition ALL : list Access := [ReadOnly; ReadWrite; ReadExecute].

Definition descriptor_bits (a : Access) : Z :=
  let common := Z.lor (Z.lor (Z.lor (Z.lor (Z.lor (Z.lor (Z.lor VALID TABLE_OR_PAGE) ATTR_NORMAL)
    AP_EL0) INNER_SHAREABLE) ACCESS_FLAG) NOT_GLOBAL) PRIVILEGED_EXECUTE_NEVER in
  match a with
  | ReadOnly => Z.lor (Z.lor common AP_READ_ONLY) USER_EXECUTE_NEVER
  | ReadWrite => Z.lor common USER_EXECUTE_NEVER
  | ReadExecute => Z.lor common AP_READ_ONLY
  end.

Definition from_descriptor (descriptor : Z) : option Access :=
  List.find (λ a, descriptor_bits a =? Z.land descriptor (bnot 64 ADDRESS)) ALL.

Definition writable (a : Access) : bool := bool_decide (a = ReadWrite).

Inductive MapError := NotAligned | OutsideWindow | AlreadyMapped | OutOfMemory.
Record AccessFault := mkAccessFault { fault_address : Z }.

(** * Address spaces *)
Record AddressSpace := mkAddressSpace {
  root : Z;
  level2 : Z;
  level3 : gmap Z Z;
  frames : gmap Z Z;
}.

Definition level1_index (va : Z) : Z := Z.shiftr va 30 mod ENTRIES.
Definition level2_index (va : Z) : Z := Z.shiftr va 21 mod ENTRIES.
Definition level3_index (va : Z) : Z := Z.shiftr va 12 mod ENTRIES.

Definition in_window (va : Z) : bool := (USER_BASE <=? va) && (va <? USER_END).

Section address_space.
Context {Src : Type} `{FrameSource Src}.

(** The memory and the frame source, which all address spaces share. *)
Record Machine := mkMachine { mem : Mem; source : Src }.

Definition with_mem (m : Mem) (c : Machine) : Machine := mkMachine m (source c).

(** [None]: no frame left. *)
Definition zeroed_frame (c : Machine) : option (Machine * Z) :=
  '(s, frame) ← fs_allocate (source c);
  Some (mkMachine (fill frame PAGE_SIZE 0 (mem c)) s, frame).

(** [kernel] is the kernel's level 1 table; [None] from [fs_free] would be a panic. *)
Definition new (kernel : list Z) (c : Machine) : option (Machine * option AddressSpace) :=
  match zeroed_frame c with
  | None => Some (c, None)
  | Some (c, root) =>
    match zeroed_frame c with
    | None => s ← fs_free root (source c); Some (mkMachine (mem c) s, None)
    | Some (c, level2) =>
      let m := store root (kernel ≫= le_bytes 8) (mem c) in
      let m := set_entry root (level1_index USER_BASE) (Z.lor (Z.lor level2 VALID) TABLE_OR_PAGE) m in
      Some (with_mem m c, Some (mkAddressSpace root level2 ∅ ∅))
    end
  end.

Definition translation_base (asid : Z) (a : AddressSpace) : Z := Z.lor (root a) (Z.shiftl asid 48).

(** The level 3 table for [va], made if there is none. *)
Definition level3_for (va : Z) (a : AddressSpace) (c : Machine) : option (AddressSpace * Machine * Z) :=
  match level3 a !! level2_index va with
  | Some l3 => Some (a, c, l3)
  | None =>
      '(c, l3) ← zeroed_frame c;
      let m := set_entry (level2 a) (level2_index va) (Z.lor (Z.lor l3 VALID) TABLE_OR_PAGE) (mem c) in
      Some (mkAddressSpace (root a) (level2 a) (<[level2_index va := l3]> (level3 a)) (frames a),
            with_mem m c, l3)
  end.

Definition map (va : Z) (access : Access) (a : AddressSpace) (c : Machine) :
    AddressSpace * Machine * result MapError unit :=
  if negb (va mod PAGE =? 0) then (a, c, Err NotAligned) else
  if negb (in_window va) then (a, c, Err OutsideWindow) else
  if decide (is_Some (frames a !! va)) then (a, c, Err AlreadyMapped) else
  match level3_for va a c with
  | None => (a, c, Err OutOfMemory)
  | Some (a, c, l3) =>
    match zeroed_frame c with
    | None => (a, c, Err OutOfMemory)
    | Some (c, frame) =>
      let m := set_entry l3 (level3_index va) (Z.lor frame (descriptor_bits access)) (mem c) in
      (mkAddressSpace (root a) (level2 a) (level3 a) (<[va := frame]> (frames a)), with_mem m c, Ok tt)
    end
  end.

(** [try_for_each] over the pages of the range. *)
Fixpoint map_all (vas : list Z) (access : Access) (a : AddressSpace) (c : Machine) :
    AddressSpace * Machine * result MapError unit :=
  match vas with
  | [] => (a, c, Ok tt)
  | va :: vas =>
      match map va access a c with
      | (a, c, Ok _) => map_all vas access a c
      | (a, c, Err e) => (a, c, Err e)
      end
  end.

Definition pages_of (start len : Z) : list Z :=
  (λ k, start + Z.of_nat k * PAGE) <$> seq 0 (Z.to_nat ((len + PAGE - 1) / PAGE)).

Definition map_range (start len : Z) (access : Access) (a : AddressSpace) (c : Machine) :
    AddressSpace * Machine * result MapError unit :=
  if 2 ^ 64 <=? start + len then (a, c, Err OutsideWindow)
  else map_all (pages_of start len) access a c.

(** The table a descriptor points to, at levels 1 and 2. *)
Definition next_table (descriptor : Z) : option Z :=
  if Z.land descriptor (Z.lor VALID TABLE_OR_PAGE) =? Z.lor VALID TABLE_OR_PAGE
  then Some (Z.land descriptor ADDRESS) else None.

Definition descriptor (va : Z) (a : AddressSpace) (m : Mem) : option Z :=
  if negb (in_window va) then None else
  l2 ← next_table (entry m (root a) (level1_index va));
  l3 ← next_table (entry m l2 (level2_index va));
  let d := entry m l3 (level3_index va) in
  if negb (Z.land d VALID =? 0) then Some d else None.

Definition translate (va : Z) (a : AddressSpace) (m : Mem) : option (Z * Access) :=
  d ← descriptor va a m;
  access ← from_descriptor d;
  Some (Z.lor (Z.land d ADDRESS) (va mod PAGE), access).

(** Each round does at least a byte, so [len] rounds are enough.  [f] is given the physical
    address, the offset in the range and the length of the piece. *)
Fixpoint pieces {A} (fuel : nat) (va len : Z) (allowed : Access → bool) (f : Z → Z → Z → A → A)
    (sp : AddressSpace) (read : A → Mem) (done_ : Z) (acc : A) : A * result AccessFault unit :=
  match fuel with
  | O => (acc, Ok tt)
  | S fuel =>
    if negb (done_ <? len) then (acc, Ok tt) else
    if 2 ^ 64 <=? va + done_ then (acc, Err (mkAccessFault (ones 64))) else
    let address := va + done_ in
    let piece := Z.min (PAGE - address mod PAGE) (len - done_) in
    match translate address sp (read acc) with
    | Some (physical, access) =>
        if allowed access
        then pieces fuel va len allowed f sp read (done_ + piece) (f physical done_ piece acc)
        else (acc, Err (mkAccessFault address))
    | None => (acc, Err (mkAccessFault address))
    end
  end.

Definition for_each_piece {A} (va len : Z) (allowed : Access → bool) (f : Z → Z → Z → A → A)
    (sp : AddressSpace) (read : A → Mem) (acc : A) : A * result AccessFault unit :=
  pieces (Z.to_nat len) va len allowed f sp read 0 acc.

Definition copy_in (bytes : list Z) (physical offset len : Z) (m : Mem) : Mem :=
  store physical (take (Z.to_nat len) (drop (Z.to_nat offset) bytes)) m.

Definition load (va : Z) (bytes : list Z) (sp : AddressSpace) (m : Mem) : Mem * result AccessFault unit :=
  for_each_piece va (Z.of_nat (length bytes)) (λ _, true) (copy_in bytes) sp (λ m, m) m.

(** The buffer after the call; [buf] is what it held before. *)
Definition read_user (va : Z) (buf : list Z) (sp : AddressSpace) (m : Mem) :
    list Z * result AccessFault unit :=
  for_each_piece va (Z.of_nat (length buf)) (λ _, true)
    (λ physical offset len buf, take (Z.to_nat offset) buf ++ fetch physical (Z.to_nat len) m ++
                                drop (Z.to_nat (offset + len)) buf)
    sp (λ _, m) buf.

Definition write_user (va : Z) (bytes : list Z) (sp : AddressSpace) (m : Mem) : Mem * result AccessFault unit :=
  for_each_piece va (Z.of_nat (length bytes)) writable (copy_in bytes) sp (λ m, m) m.

Definition pages (a : AddressSpace) : nat := size (frames a).

(** Frees each frame in turn; [None] is the panic of [free]. *)
Fixpoint free_all (l : list Z) (s : Src) : option Src :=
  match l with
  | [] => Some s
  | a :: l => s ← fs_free a s; free_all l s
  end.

(** The frames an address space owns, in the order [drop] frees them (maps are in key order in
    the source; the order does not matter to the set freed). *)
Definition owned (a : AddressSpace) : list Z :=
  (map_to_list (frames a)).*2 ++ [root a; level2 a] ++ (map_to_list (level3 a)).*2.

Definition drop_space (a : AddressSpace) (c : Machine) : option Machine :=
  s ← free_all (owned a) (source c); Some (mkMachine (mem c) s).


(** * Memory *)
Lemma fetch_ext a n m m' : (∀ x, a <= x < a + Z.of_nat n → m' x = m x) → fetch a n m' = fetch a n m.
Proof.
  intros Hx. unfold fetch. apply list_fmap_ext. intros i k Hk. apply lookup_seq in Hk as [-> Hlt].
  apply Hx. lia.
Qed.

Lemma length_fetch a n m : length (fetch a n m) = n.
Proof. unfold fetch. by rewrite length_fmap, length_seq. Qed.

Lemma store_outside a l m x : x < a ∨ a + Z.of_nat (length l) <= x → store a l m x = m x.
Proof.
  intros Hx. unfold store. destruct (Z.leb_spec a x), (Z.ltb_spec x (a + Z.of_nat (length l))); cbn; done || lia.
Qed.

Lemma store_inside a l m i : (i < length l)%nat → store a l m (a + Z.of_nat i) = l !!! i.
Proof.
  intros Hi. unfold store. rewrite (proj2 (Z.leb_le _ _)), (proj2 (Z.ltb_lt _ _)) by lia. cbn.
  f_equal. lia.
Qed.

Lemma fill_outside a n v m x : x < a ∨ a + n <= x → fill a n v m x = m x.
Proof. intros Hx. unfold fill. destruct (Z.leb_spec a x), (Z.ltb_spec x (a + n)); cbn; done || lia. Qed.

Lemma fill_inside a n v m x : a <= x < a + n → fill a n v m x = v.
Proof. intros Hx. unfold fill. by rewrite (proj2 (Z.leb_le _ _)), (proj2 (Z.ltb_lt _ _)) by lia. Qed.

Lemma fetch_store a l m : fetch a (length l) (store a l m) = l.
Proof.
  apply list_eq. intros i. unfold fetch. rewrite list_lookup_fmap.
  destruct (decide (i < length l)%nat) as [Hi|Hi].
  - rewrite lookup_seq_lt by done. cbn. rewrite store_inside by done. symmetry. by apply list_lookup_lookup_total_lt.
  - rewrite lookup_seq_ge, lookup_ge_None_2 by lia. done.
Qed.

Lemma le_value_zeros n : le_value (replicate n 0) = 0.
Proof. induction n as [|n IH]; cbn [replicate le_value]; lia. Qed.

Lemma fetch_fill a n b k m : b <= a → a + Z.of_nat n <= b + k → fetch a n (fill b k 0 m) = replicate n 0.
Proof.
  intros H1 H2. apply list_eq. intros i. unfold fetch. rewrite list_lookup_fmap.
  destruct (decide (i < n)%nat) as [Hi|Hi].
  - rewrite lookup_seq_lt, lookup_replicate_2 by done. cbn. by rewrite fill_inside by lia.
  - rewrite lookup_seq_ge, lookup_ge_None_2 by (rewrite ?length_replicate; lia). done.
Qed.

(** * Table entries *)
Definition index_ok (i : Z) : Prop := 0 <= i < ENTRIES.

Lemma entry_ext m m' t i : index_ok i → (∀ x, t <= x < t + PAGE → m' x = m x) → entry m' t i = entry m t i.
Proof.
  unfold index_ok, ENTRIES, entry, PAGE_SIZE. intros Hi Hx. f_equal. apply fetch_ext. intros x Hx'. apply Hx. lia.
Qed.

Lemma entry_set_entry m t i j v : uint 64 v →
  entry (set_entry t i v m) t j = if decide (i = j) then v else entry m t j.
Proof.
  intros Hv. unfold entry, set_entry. case_decide as E.
  - subst j. rewrite <-(length_le_bytes 8 v) at 1. rewrite fetch_store. by apply le_value_le_bytes.
  - f_equal. apply fetch_ext. intros x Hx. apply store_outside. rewrite length_le_bytes. lia.
Qed.

(** Writing an entry touches its own table only. *)
Lemma set_entry_outside m t i v x : index_ok i → x < t ∨ t + PAGE <= x → set_entry t i v m x = m x.
Proof.
  unfold index_ok, ENTRIES, PAGE_SIZE. intros Hi Hx. apply store_outside. rewrite length_le_bytes. lia.
Qed.

Lemma entry_fill m t i : index_ok i → entry (fill t PAGE 0 m) t i = 0.
Proof.
  unfold index_ok, ENTRIES, entry, PAGE_SIZE. intros Hi. rewrite fetch_fill by lia. apply le_value_zeros.
Qed.

Lemma frames_disjoint a b : frame_ok a → frame_ok b → a ≠ b → a + PAGE <= b ∨ b + PAGE <= a.
Proof.
  unfold frame_ok, PAGE_SIZE. intros ([i ->]%Z.mod_divide & _) ([j ->]%Z.mod_divide & _) Hne; lia.
Qed.

(** * Descriptors *)
Definition page_bits (d : Z) : Prop := d = 0 ∨ ∃ a, d = descriptor_bits a.

Lemma testbit_frame f i : frame_ok f → 0 <= i → i < 12 ∨ 48 <= i → Z.testbit f i = false.
Proof.
  unfold frame_ok, PAGE_SIZE. intros (Hm & H0 & H1) Hi [Hlt|Hge].
  - apply Z.mod_divide in Hm as [k ->]; [|lia]. change 4096 with (2 ^ 12). by rewrite Z.mul_pow2_bits_low.
  - apply (testbit_high 48); [unfold uint; lia|lia].
Qed.

Lemma ADDRESS_bits i : 0 <= i → Z.testbit ADDRESS i = (12 <=? i) && (i <? 48).
Proof.
  intros Hi. assert (E : ADDRESS = Z.shiftl (ones 36) 12) by reflexivity. rewrite E.
  rewrite Z.shiftl_spec by done. destruct (Z.leb_spec 12 i); cbn.
  - rewrite testbit_ones by lia. destruct (Z.ltb_spec (i - 12) 36), (Z.ltb_spec i 48); lia || done.
  - apply Z.testbit_neg_r. lia.
Qed.

(** A frame's bits are those of [ADDRESS]; the other half of a descriptor has none of them. *)
Lemma frame_address f : frame_ok f → Z.land f ADDRESS = f.
Proof.
  intros Hf. apply Z.bits_inj'. intros i Hi. rewrite Z.land_spec, ADDRESS_bits by done.
  destruct (Z.leb_spec 12 i), (Z.ltb_spec i 48); cbn; rewrite ?andb_true_r, ?andb_false_r;
    try done; symmetry; apply testbit_frame; done || lia.
Qed.

Lemma frame_not_address f : frame_ok f → Z.land f (bnot 64 ADDRESS) = 0.
Proof.
  intros Hf. apply Z.bits_inj'. intros i Hi. rewrite Z.land_spec, Z.bits_0. unfold bnot.
  rewrite Z.lxor_spec, testbit_ones, ADDRESS_bits by lia.
  destruct (Z.leb_spec 12 i), (Z.ltb_spec i 48), (Z.ltb_spec i 64); cbn; rewrite ?andb_true_r, ?andb_false_r;
    try done; apply testbit_frame; done || lia.
Qed.

Lemma frame_low f b : frame_ok f → 0 <= b < PAGE → Z.land f b = 0.
Proof.
  unfold PAGE_SIZE. intros Hf Hb. apply Z.bits_inj'. intros i Hi. rewrite Z.land_spec, Z.bits_0.
  destruct (Z.lt_ge_cases i 12); [by rewrite testbit_frame by (done || lia)|].
  rewrite (testbit_high 12 b) by (unfold uint; lia). apply andb_false_r.
Qed.

Lemma frame_lor_add f b : frame_ok f → 0 <= b < PAGE → Z.lor f b = f + b.
Proof. intros. rewrite <-Z.lxor_lor, Z.add_nocarry_lxor by (by apply frame_low). done. Qed.

Lemma frame_uint f : frame_ok f → uint 64 f.
Proof. unfold frame_ok, uint, PAGE_SIZE. lia. Qed.

Lemma descriptor_address f a : frame_ok f → Z.land (Z.lor f (descriptor_bits a)) ADDRESS = f.
Proof. intros Hf. rewrite Z.land_lor_distr_l, frame_address by done. by destruct a; rewrite Z.lor_0_r. Qed.

Lemma descriptor_valid f a : frame_ok f → Z.land (Z.lor f (descriptor_bits a)) VALID = 1.
Proof. intros Hf. rewrite Z.land_lor_distr_l, frame_low by (done || unfold PAGE_SIZE; cbn; lia). by destruct a. Qed.

Lemma from_descriptor_bits f a : frame_ok f → from_descriptor (Z.lor f (descriptor_bits a)) = Some a.
Proof.
  intros Hf. unfold from_descriptor. rewrite Z.land_lor_distr_l, frame_not_address by done. by destruct a.
Qed.

Lemma table_descriptor t : frame_ok t →
  next_table (Z.lor (Z.lor t VALID) TABLE_OR_PAGE) = Some t ∧ uint 64 (Z.lor (Z.lor t VALID) TABLE_OR_PAGE).
Proof.
  intros Ht. unfold next_table. rewrite <-Z.lor_assoc, !Z.land_lor_distr_l, frame_address by done.
  rewrite frame_low by (done || unfold PAGE_SIZE; cbn; lia). split; [by rewrite Z.lor_0_r|].
  apply uint_lor; [done|by apply frame_uint|done].
Qed.

Lemma uint_descriptor f a : frame_ok f → uint 64 (Z.lor f (descriptor_bits a)).
Proof. intros. apply uint_lor; [done|by apply frame_uint|by destruct a]. Qed.

(** * The user window *)
Definition page (va : Z) : Z := va - va mod PAGE.

Ltac window :=
  unfold in_window, page, level1_index, level2_index, level3_index, index_ok, ENTRIES,
    USER_BASE, USER_END, PAGE_SIZE in *;
  rewrite ?andb_true_iff, ?Z.leb_le, ?Z.ltb_lt in *;
  rewrite ?Z.shiftr_div_pow2 in * by lia;
  Z.to_euclidean_division_equations; lia.

Lemma level2_index_ok va : index_ok (level2_index va).
Proof. apply Z.mod_pos_bound. unfold ENTRIES. lia. Qed.
Lemma level3_index_ok va : index_ok (level3_index va).
Proof. apply Z.mod_pos_bound. unfold ENTRIES. lia. Qed.

Lemma window_level1 va : in_window va = true → level1_index va = level1_index USER_BASE.
Proof. intros. window. Qed.

Lemma page_window va : in_window va = true → in_window (page va) = true.
Proof. intros. window. Qed.

Lemma page_aligned va : page va mod PAGE = 0.
Proof. window. Qed.

Lemma page_index va : in_window va = true →
  level2_index (page va) = level2_index va ∧ level3_index (page va) = level3_index va.
Proof. intros. split; window. Qed.

(** Inside the window, the indices name the page. *)
Lemma window_inj va va' : in_window va = true → in_window va' = true →
  va mod PAGE = 0 → va' mod PAGE = 0 →
  level2_index va = level2_index va' → level3_index va = level3_index va' → va = va'.
Proof. intros. window. Qed.

(** * The address space holds a page table

    [Rep a c P]: the tables of [a] in the memory of [c] map exactly the pages of [P]. *)
Definition tables (a : AddressSpace) : list Z := [root a; level2 a] ++ (map_to_list (level3 a)).*2.

Record Rep (a : AddressSpace) (c : Machine) (P : gmap Z (Z * Access)) : Prop := {
  rep_source : fs_ok (source c);
  rep_nodup : NoDup (owned a);
  rep_held : ∀ x, x ∈ owned a → x ∈ fs_held (source c) ∧ frame_ok x;
  rep_frames : frames a = fst <$> P;
  rep_root : entry (mem c) (root a) (level1_index USER_BASE) = Z.lor (Z.lor (level2 a) VALID) TABLE_OR_PAGE;
  rep_level2 : ∀ i, index_ok i →
    entry (mem c) (level2 a) i = match level3 a !! i with
                                 | Some t => Z.lor (Z.lor t VALID) TABLE_OR_PAGE
                                 | None => 0
                                 end;
  rep_level3 : ∀ va t, in_window va = true → va mod PAGE = 0 → level3 a !! level2_index va = Some t →
    entry (mem c) t (level3_index va) = match P !! va with
                                        | Some (f, acc) => Z.lor f (descriptor_bits acc)
                                        | None => 0
                                        end;
  rep_pages : ∀ va, is_Some (P !! va) →
    in_window va = true ∧ va mod PAGE = 0 ∧ is_Some (level3 a !! level2_index va);
}.

Lemma elem_of_values (m : gmap Z Z) x : x ∈ (map_to_list m).*2 ↔ ∃ k, m !! k = Some x.
Proof.
  rewrite list_elem_of_fmap. split.
  - intros ([k v] & -> & Hkv%elem_of_map_to_list). eauto.
  - intros (k & Hk). exists (k, x). split; [done|]. by apply elem_of_map_to_list.
Qed.

Lemma elem_of_owned a x : x ∈ owned a ↔ (∃ va, frames a !! va = Some x) ∨ x ∈ tables a.
Proof. unfold owned, tables. rewrite elem_of_app, elem_of_values. done. Qed.

Lemma elem_of_tables a x : x ∈ tables a ↔ x = root a ∨ x = level2 a ∨ ∃ i, level3 a !! i = Some x.
Proof. unfold tables. rewrite elem_of_app, elem_of_values. set_solver. Qed.

Lemma table_ok a c P t : Rep a c P → t ∈ tables a → frame_ok t.
Proof. intros HR Ht. apply (rep_held a c P HR), elem_of_owned. by right. Qed.

Lemma frame_of a c P va f acc : Rep a c P → P !! va = Some (f, acc) → f ∈ owned a ∧ frame_ok f ∧ f ∉ tables a.
Proof.
  intros HR Hp. assert (Hf : frames a !! va = Some f) by (rewrite (rep_frames a c P HR), lookup_fmap, Hp; done).
  assert (Hin : f ∈ owned a) by (apply elem_of_owned; eauto). split_and!; [done|by apply (rep_held a c P HR)|].
  intros Ht. pose proof (rep_nodup a c P HR) as Hnd. unfold owned in Hnd. apply NoDup_app in Hnd as (_ & Hd & _).
  apply (Hd f); [apply elem_of_values; eauto|done].
Qed.

(** The walk finds the page [P] says. *)
Lemma descriptor_rep a c P va : Rep a c P →
  descriptor va a (mem c) =
  if in_window va then '(f, acc) ← P !! page va; Some (Z.lor f (descriptor_bits acc)) else None.
Proof.
  intros HR. unfold descriptor. destruct (in_window va) eqn:Hw; cbn [negb]; [|done].
  rewrite window_level1, (rep_root a c P HR) by done.
  assert (H2 : frame_ok (level2 a)) by (apply (table_ok a c P _ HR), elem_of_tables; auto).
  rewrite (proj1 (table_descriptor _ H2)). cbn [mbind option_bind].
  rewrite (rep_level2 a c P HR) by apply level2_index_ok.
  destruct (page_index va Hw) as [Hi2 Hi3].
  destruct (level3 a !! level2_index va) as [t|] eqn:Ht.
  - assert (H3 : frame_ok t) by (apply (table_ok a c P _ HR), elem_of_tables; eauto).
    rewrite (proj1 (table_descriptor _ H3)). cbn [mbind option_bind].
    rewrite <-Hi3, (rep_level3 a c P HR (page va) t) by (by rewrite ?page_window, ?page_aligned, ?Hi2).
    destruct (P !! page va) as [[f acc]|] eqn:Hp; [|done].
    destruct (frame_of a c P _ f acc HR Hp) as (_ & Hf & _). by rewrite descriptor_valid.
  - destruct (P !! page va) as [p|] eqn:Hp; [|done].
    destruct (rep_pages a c P HR (page va)) as (_ & _ & [t Ht']); [by rewrite Hp|].
    rewrite Hi2 in Ht'. congruence.
Qed.

Lemma translate_rep a c P va : Rep a c P →
  translate va a (mem c) =
  if in_window va then '(f, acc) ← P !! page va; Some (f + va mod PAGE, acc) else None.
Proof.
  intros HR. unfold translate. rewrite (descriptor_rep a c P va HR). destruct (in_window va); [|done].
  destruct (P !! page va) as [[f acc]|] eqn:Hp; [|done]. cbn [mbind option_bind].
  destruct (frame_of a c P _ f acc HR Hp) as (_ & Hf & _).
  rewrite from_descriptor_bits, descriptor_address by done. cbn [mbind option_bind].
  rewrite frame_lor_add; [done|done|]. unfold PAGE_SIZE. apply Z.mod_pos_bound. lia.
Qed.

(** Memory outside the tables does not matter to the walk. *)
Lemma Rep_memory a c P m : Rep a c P → (∀ t x, t ∈ tables a → t <= x < t + PAGE → m x = mem c x) →
  Rep a (with_mem m c) P.
Proof.
  intros HR Hm. split; cbn [with_mem mem source]; try by apply HR.
  - rewrite <-(rep_root a c P HR). apply entry_ext; [by vm_compute|].
    intros x. apply Hm, elem_of_tables. auto.
  - intros i Hi. rewrite <-(rep_level2 a c P HR i Hi). apply entry_ext; [done|].
    intros x. apply Hm, elem_of_tables. auto.
  - intros va t H1 H2 H3. rewrite <-(rep_level3 a c P HR va t H1 H2 H3). apply entry_ext; [apply level3_index_ok|].
    intros x. apply Hm, elem_of_tables. eauto.
Qed.

Lemma Rep_source a c P s : Rep a c P → fs_ok s → (∀ x, x ∈ owned a → x ∈ fs_held s) →
  Rep a (mkMachine (mem c) s) P.
Proof.
  intros HR Hok Hh. split; cbn [mem source]; try apply HR; [done|].
  intros x Hx. split; [by apply Hh|by apply (rep_held a c P HR)].
Qed.

(** * Mapping *)

(** [c'] differs from [c] only in frames that [c] had not handed out, and in [ts]. *)
Definition untouched (ts : list Z) (c c' : Machine) : Prop :=
  (∀ y, y ∈ fs_held (source c) → y ∈ fs_held (source c')) ∧
  ∀ y x, y ∈ fs_held (source c) → frame_ok y → y ∉ ts → y <= x < y + PAGE → mem c' x = mem c x.

Lemma untouched_refl ts c : untouched ts c c.
Proof. done. Qed.

Lemma untouched_trans ts c c' c'' : untouched ts c c' → untouched ts c' c'' → untouched ts c c''.
Proof.
  intros [H1 H2] [H3 H4]. split; [by auto|]. intros y x Hy Hok Hts Hx. rewrite (H4 y x) by auto. by apply (H2 y).
Qed.

Lemma untouched_weaken ts ts' c c' : (∀ y, y ∈ fs_held (source c) → y ∈ ts → y ∈ ts') →
  untouched ts c c' → untouched ts' c c'.
Proof. intros Hs [H1 H2]. split; [done|]. intros y x Hy Hok Hts. apply (H2 y); auto. Qed.

Lemma untouched_set_entry ts t i v c0 c : untouched ts c0 c → frame_ok t → index_ok i →
  t ∈ ts ∨ t ∉ fs_held (source c0) → untouched ts c0 (with_mem (set_entry t i v (mem c)) c).
Proof.
  intros [Hh Hm] Ht Hi Hin. split; [done|]. intros y x Hy Hok Hts Hx. rewrite <-(Hm y x) by done.
  apply set_entry_outside; [done|].
  destruct (frames_disjoint y t) as [?|?]; [done|done|intros ->; by destruct Hin|lia|lia].
Qed.

Lemma zeroed_frame_spec c c' f : fs_ok (source c) → zeroed_frame c = Some (c', f) →
  fs_ok (source c') ∧ f ∉ fs_held (source c) ∧ fs_held (source c') = fs_held (source c) ∪ {[f]} ∧ frame_ok f ∧
  mem c' = fill f PAGE 0 (mem c) ∧ untouched [] c c'.
Proof.
  unfold zeroed_frame. intros Hok ([s a] & Ha & [= <- <-])%bind_Some.
  destruct (fs_allocate_ok _ _ _ Hok Ha) as (H1 & H2 & H3 & H4). split_and!; try done.
  split; [cbn [source]; rewrite H3; set_solver|].
  intros y x Hy Hy' _ Hx. cbn. apply fill_outside.
    destruct (frames_disjoint y a) as [?|?]; [done|done|by intros ->|lia|lia].
Qed.

(** A fresh frame leaves an address space as it was. *)
Lemma Rep_untouched ts a c c' P : Rep a c P → fs_ok (source c') → untouched ts c c' →
  (∀ t, t ∈ tables a → t ∉ ts) → Rep a c' P.
Proof.
  intros HR Hok [Hh Hm] Hts. destruct c' as [m s]. apply (Rep_source a (with_mem m c)); [|done|].
  - apply Rep_memory; [done|]. intros t x Ht Hx.
    destruct (rep_held a c P HR t) as [? ?]; [apply elem_of_owned; by right|]. apply (Hm t); auto.
  - intros x Hx. apply Hh. by apply (rep_held a c P HR).
Qed.

Lemma fresh_not_owned a c P f : Rep a c P → f ∉ fs_held (source c) → f ∉ owned a.
Proof. intros HR Hf Hin. apply Hf. by apply (rep_held a c P HR). Qed.

Lemma values_insert (m : gmap Z Z) k v : m !! k = None → (map_to_list (<[k := v]> m)).*2 ≡ₚ v :: (map_to_list m).*2.
Proof. intros Hk. rewrite map_to_list_insert by done. done. Qed.

Lemma owned_level3 a i t : level3 a !! i = None →
  owned (mkAddressSpace (root a) (level2 a) (<[i := t]> (level3 a)) (frames a)) ≡ₚ t :: owned a.
Proof.
  intros Hi. unfold owned. cbn. rewrite values_insert by done. solve_Permutation.
Qed.

Lemma owned_frames a va f : frames a !! va = None →
  owned (mkAddressSpace (root a) (level2 a) (level3 a) (<[va := f]> (frames a))) ≡ₚ f :: owned a.
Proof. intros Hi. unfold owned. cbn. by rewrite values_insert. Qed.

Lemma level3_for_spec va a c P a' c' t :
  Rep a c P → in_window va = true → level3_for va a c = Some (a', c', t) →
  Rep a' c' P ∧ level3 a' !! level2_index va = Some t ∧ frames a' = frames a ∧ untouched (tables a) c c' ∧
  (∀ x, x ∈ tables a' → x ∈ tables a ∨ x ∉ fs_held (source c)).
Proof.
  intros HR Hw. unfold level3_for. destruct (level3 a !! level2_index va) as [t0|] eqn:Ht.
  { intros [= <- <- <-]. split_and!; [done..|by left]. }
  intros ([c1 f] & Hz & E)%bind_Some. apply Some_inj, pair_equal_spec in E as [[E1 E2]%pair_equal_spec <-]. subst a' c'.
  destruct (zeroed_frame_spec c c1 f (rep_source a c P HR) Hz) as (Hok & Hfresh & Hheld & Hf & Hmem & Hun).
  pose proof (fresh_not_owned a c P f HR Hfresh) as Hno.
  assert (HR1 : Rep a c1 P) by (apply (Rep_untouched [] a c); [done..|intros ? _; apply not_elem_of_nil]).
  assert (H2 : frame_ok (level2 a) ∧ level2 a ∈ tables a ∧ level2 a ∈ owned a).
  { split_and!; [apply (table_ok a c P _ HR)|..]; rewrite ?elem_of_owned; rewrite ?elem_of_tables; auto. }
  destruct H2 as (H2 & H2t & H2o). pose proof (level2_index_ok va) as Hi2.
  destruct (table_descriptor f Hf) as [_ Hu].
  set (d := Z.lor (Z.lor f VALID) TABLE_OR_PAGE) in *. set (m := set_entry (level2 a) (level2_index va) d (mem c1)).
  assert (Hsame : ∀ y x, y ∈ owned a ∨ y = f → y ≠ level2 a → y <= x < y + PAGE → m x = mem c1 x).
  { intros y x Hy Hne Hx. apply set_entry_outside; [done|].
    destruct (frames_disjoint y (level2 a)) as [?|?]; [|done|done|lia|lia].
    destruct Hy as [Hy| ->]; [by apply (rep_held a c P HR)|done]. }
  assert (Hdist : level2 a ≠ root a ∧ ∀ i t, level3 a !! i = Some t → t ≠ level2 a).
  { pose proof (rep_nodup a c P HR) as Hnd. unfold owned in Hnd. apply NoDup_app in Hnd as (_ & _ & Hnd).
    cbn in Hnd. apply NoDup_cons in Hnd as [H1 [H3 _]%NoDup_cons]. split; [intros E; apply H1, elem_of_cons; by left|].
    intros i t Hi ->. apply H3, elem_of_values. eauto. }
  destruct Hdist as [Hd1 Hd2]. pose proof (owned_level3 a (level2_index va) f Ht) as Hperm.
  split_and!.
  - split; cbn [with_mem mem source frames root level2 level3]; try apply HR1.
    + rewrite Hperm. constructor; [done|apply HR].
    + intros x. rewrite Hperm. intros [->|Hx]%elem_of_cons; [|by apply (rep_held a c1 P HR1)].
      split; [rewrite Hheld; by apply elem_of_union_r, elem_of_singleton|done].
    + rewrite <-(rep_root a c1 P HR1). apply entry_ext; [by vm_compute|]. intros x.
      apply Hsame; [left; apply elem_of_owned; rewrite elem_of_tables; auto|done].
    + intros i Hi. unfold m. rewrite entry_set_entry by done. case_decide as E.
      * by rewrite <-E, lookup_insert_eq.
      * rewrite lookup_insert_ne by done. by apply (rep_level2 a c1 P HR1).
    + intros va' t Hw' Hal. destruct (decide (level2_index va' = level2_index va)) as [E|E].
      * rewrite E, lookup_insert_eq. intros [= <-].
        transitivity (entry (mem c1) f (level3_index va')).
        { apply entry_ext; [apply level3_index_ok|]. intros x. apply Hsame; [by right|congruence]. }
        rewrite Hmem, entry_fill by apply level3_index_ok.
        destruct (P !! va') as [p|] eqn:Hp; [|done].
        destruct (rep_pages a c P HR va') as (_ & _ & [t Ht']); [by rewrite Hp|]. rewrite E in Ht'. congruence.
      * rewrite lookup_insert_ne by done. intros Ht'. rewrite <-(rep_level3 a c1 P HR1 va' t Hw' Hal Ht').
        apply entry_ext; [apply level3_index_ok|]. intros x.
        apply Hsame; [left; apply elem_of_owned; rewrite elem_of_tables; eauto|by eapply Hd2].
    + intros va' Hp. destruct (rep_pages a c P HR va' Hp) as (H3 & H4 & H5). split_and!; [done..|].
      destruct (decide (level2_index va' = level2_index va)) as [->|]; [rewrite lookup_insert_eq; eauto|].
      by rewrite lookup_insert_ne by done.
  - cbn. by rewrite lookup_insert_eq.
  - done.
  - apply untouched_set_entry; [|done|done|by left]. by apply (untouched_weaken []); [intros ? _ []%not_elem_of_nil|].
  - intros x. rewrite !elem_of_tables. cbn. intros [?|[?|(i & Hi)]]; [auto..|].
    destruct (decide (level2_index va = i)) as [<-|]; [|rewrite lookup_insert_ne in Hi by done; eauto].
    rewrite lookup_insert_eq in Hi. injection Hi as <-. by right.
Qed.

Lemma values_inj (m : gmap Z Z) i j x : NoDup (map_to_list m).*2 → m !! i = Some x → m !! j = Some x → i = j.
Proof.
  intros Hnd Hi Hj. destruct (decide (i = j)) as [|Hne]; [done|exfalso].
  rewrite <-(insert_delete_id m i x Hi) in Hnd. rewrite values_insert in Hnd by apply lookup_delete_eq.
  apply NoDup_cons in Hnd as [Hx _]. apply Hx, elem_of_values. exists j. by rewrite lookup_delete_ne.
Qed.

Lemma Rep_map_page va acc a c P c1 f t :
  Rep a c P → in_window va = true → va mod PAGE = 0 → P !! va = None →
  level3 a !! level2_index va = Some t → zeroed_frame c = Some (c1, f) →
  Rep (mkAddressSpace (root a) (level2 a) (level3 a) (<[va := f]> (frames a)))
      (with_mem (set_entry t (level3_index va) (Z.lor f (descriptor_bits acc)) (mem c1)) c1)
      (<[va := (f, acc)]> P).
Proof.
  intros HR Hw Hal Hp Ht Hz.
  destruct (zeroed_frame_spec c c1 f (rep_source a c P HR) Hz) as (Hok & Hfresh & Hheld & Hf & Hmem & Hun).
  assert (HR1 : Rep a c1 P) by (apply (Rep_untouched [] a c); [done..|intros ? _; apply not_elem_of_nil]).
  assert (Hfr : frames a !! va = None) by (by rewrite (rep_frames a c P HR), lookup_fmap, Hp).
  pose proof (owned_frames a va f Hfr) as Hperm. pose proof (level3_index_ok va) as Hi3.
  assert (Htt : t ∈ tables a) by (apply elem_of_tables; eauto).
  pose proof (table_ok a c P t HR Htt) as Hto.
  assert (Hsame : ∀ y x, y ∈ tables a → y ≠ t → y <= x < y + PAGE →
    set_entry t (level3_index va) (Z.lor f (descriptor_bits acc)) (mem c1) x = mem c1 x).
  { intros y x Hy Hne Hx. apply set_entry_outside; [done|].
    destruct (frames_disjoint y t) as [?|?]; [by apply (table_ok a c P _ HR)|done..|lia|lia]. }
  pose proof (rep_nodup a c P HR) as Hnd. unfold owned in Hnd. apply NoDup_app in Hnd as (_ & _ & Hnd). cbn in Hnd.
  apply NoDup_cons in Hnd as [Hr [Hl Hnd]%NoDup_cons].
  split; cbn [with_mem mem source frames root level2 level3]; try apply HR1.
  - rewrite Hperm. constructor; [by apply (fresh_not_owned a c P f HR)|apply HR].
  - intros x. rewrite Hperm. intros [->|Hx]%elem_of_cons; [|by apply (rep_held a c1 P HR1)].
    split; [rewrite Hheld; by apply elem_of_union_r, elem_of_singleton|done].
  - by rewrite fmap_insert, (rep_frames a c P HR).
  - rewrite <-(rep_root a c1 P HR1). apply entry_ext; [by vm_compute|]. intros x.
    apply Hsame; [apply elem_of_tables; auto|]. intros E. apply Hr, elem_of_cons. right. apply elem_of_values. rewrite E. eauto.
  - intros i Hi. rewrite <-(rep_level2 a c1 P HR1 i Hi). apply entry_ext; [done|]. intros x.
    apply Hsame; [apply elem_of_tables; auto|]. intros E. apply Hl, elem_of_values. rewrite E. eauto.
  - intros va' t' Hw' Hal' Ht'. destruct (decide (t' = t)) as [->|Hne].
    + pose proof (values_inj _ _ _ _ Hnd Ht' Ht) as E2.
      rewrite entry_set_entry by (by apply uint_descriptor). destruct (decide (va = va')) as [<-|Hne].
      * by rewrite decide_True, lookup_insert_eq.
      * rewrite lookup_insert_ne, decide_False by (try done; intros E; apply Hne; by apply window_inj).
        by apply (rep_level3 a c1 P HR1).
    + rewrite lookup_insert_ne by congruence. rewrite <-(rep_level3 a c1 P HR1 va' t') by done.
      apply entry_ext; [apply level3_index_ok|]. intros x. apply Hsame; [apply elem_of_tables; eauto|done].
  - intros va'. destruct (decide (va = va')) as [<-|]; [intros _; by eauto|].
    rewrite lookup_insert_ne by done. apply (rep_pages a c P HR).
Qed.

(** What [map] may leave behind. *)
Definition mapped (va : Z) (acc : Access) (a : AddressSpace) (c : Machine) (P : gmap Z (Z * Access))
    (a' : AddressSpace) (c' : Machine) (r : result MapError unit) : Prop :=
  untouched (tables a) c c' ∧
  match r with
  | Ok _ => va mod PAGE = 0 ∧ in_window va = true ∧ P !! va = None ∧
      ∃ f, f ∉ fs_held (source c) ∧ Rep a' c' (<[va := (f, acc)]> P) ∧
        ∀ x, f <= x < f + PAGE → mem c' x = 0
  | Err e => Rep a' c' P ∧
      match e with
      | NotAligned => va mod PAGE ≠ 0
      | OutsideWindow => va mod PAGE = 0 ∧ in_window va = false
      | AlreadyMapped => is_Some (P !! va)
      | OutOfMemory => va mod PAGE = 0 ∧ in_window va = true ∧ P !! va = None ∧ fs_allocate (source c') = None
      end
  end.

Lemma map_spec va acc a c P : Rep a c P →
  let '(a', c', r) := map va acc a c in mapped va acc a c P a' c' r.
Proof.
  intros HR. unfold mapped, map. destruct (Z.eqb_spec (va mod PAGE) 0) as [Hal|Hal]; cbn [negb]; [|done].
  destruct (in_window va) eqn:Hw; cbn [negb]; [|done].
  assert (Hdom : is_Some (frames a !! va) ↔ is_Some (P !! va)) by (by rewrite (rep_frames a c P HR), lookup_fmap, fmap_is_Some).
  case_decide as Hm; [apply Hdom in Hm; done|]. assert (Hp : P !! va = None) by (destruct (P !! va); [destruct Hm; apply Hdom; eauto|done]).
  destruct (level3_for va a c) as [[[a1 c1] t]|] eqn:El.
  - destruct (level3_for_spec va a c P a1 c1 t HR Hw El) as (HR1 & Ht & Hfr & Hun1 & Htab).
    destruct (zeroed_frame c1) as [[c2 f]|] eqn:Ez.
    + destruct (zeroed_frame_spec c1 c2 f (rep_source _ _ _ HR1) Ez) as (Hok & Hfresh & Hheld & Hf & Hmem & Hun2).
      pose proof (Rep_map_page va acc a1 c1 P c2 f t HR1 Hw Hal Hp Ht Ez) as HR2.
      assert (Htt : t ∈ tables a1) by (apply elem_of_tables; eauto).
      pose proof (table_ok a1 c1 P t HR1 Htt) as Hto. split; [|split_and!; [done..|]].
      * apply untouched_set_entry; [|done|apply level3_index_ok|by apply Htab].
        apply untouched_trans with c1; [done|]. by apply (untouched_weaken []); [intros ? _ []%not_elem_of_nil|].
      * exists f. split_and!; [|done|].
        -- intros Hin. apply Hfresh. by apply Hun1.
        -- intros x Hx. cbn [with_mem mem]. rewrite set_entry_outside; [by rewrite Hmem, fill_inside|apply level3_index_ok|].
           assert (f ≠ t) by (intros ->; apply (fresh_not_owned a1 c1 P t HR1 Hfresh), elem_of_owned; by right).
           destruct (frames_disjoint f t) as [?|?]; [done..|lia|lia].
    + split; [done|]. split; [done|]. split_and!; [done..|]. unfold zeroed_frame in Ez.
      destruct (fs_allocate (source c1)) as [[? ?]|]; done.
  - split; [done|]. split; [done|]. split_and!; [done..|]. unfold level3_for in El.
    destruct (level3 a !! level2_index va); [done|]. unfold zeroed_frame in El.
    destruct (fs_allocate (source c)) as [[? ?]|]; done.
Qed.

(** C4: [map], on every branch.  On success the page was inside the window and not mapped; it
    is now backed by a fresh, zeroed frame with the access asked for, and every other page
    is mapped as before.  Each error is given exactly for its reason and leaves the mapping
    as it was ([OutOfMemory] only when the source has no frame left).  No frame handed out
    before, other than this address space's own tables, is written to. *)
Theorem map_adds_exactly_one_page va acc a c P :
  Rep a c P →
  let '(a', c', r) := map va acc a c in
  untouched (tables a) c c' ∧
  match r with
  | Ok _ => va mod PAGE = 0 ∧ in_window va = true ∧ P !! va = None ∧
      ∃ f, f ∉ fs_held (source c) ∧ Rep a' c' (<[va := (f, acc)]> P) ∧
        ∀ x, f <= x < f + PAGE → mem c' x = 0
  | Err e => Rep a' c' P ∧
      match e with
      | NotAligned => va mod PAGE ≠ 0
      | OutsideWindow => va mod PAGE = 0 ∧ in_window va = false
      | AlreadyMapped => is_Some (P !! va)
      | OutOfMemory => va mod PAGE = 0 ∧ in_window va = true ∧ P !! va = None ∧ fs_allocate (source c') = None
      end
  end.
Proof. exact (map_spec va acc a c P). Qed.

(** What the MMU makes of a level 3 descriptor's permission bits. *)
Definition el0_writes (d : Z) : bool := Z.testbit d 6 && negb (Z.testbit d 7).
Definition el0_executes (d : Z) : bool := Z.testbit d 6 && negb (Z.testbit d 54).
Definition el1_executes (d : Z) : bool := negb (Z.testbit d 53).

Lemma testbit_descriptor f acc i : frame_ok f → 0 <= i → i < 12 ∨ 48 <= i →
  Z.testbit (Z.lor f (descriptor_bits acc)) i = Z.testbit (descriptor_bits acc) i.
Proof. intros Hf H0 Hi. by rewrite Z.lor_spec, testbit_frame. Qed.

(** C12: the tables say what was mapped, and nothing a program can reach is both writable and
    executable.  For every address, inside the window or not, the walk finds exactly the
    frame and access of its page, or nothing; the descriptor the MMU sees lets EL0 write the
    page only if its access is [ReadWrite], execute it only if [ReadExecute], never both, and
    never lets the kernel execute it; and it is tagged with the program's ASID. *)
Theorem translation_is_exact_and_w_xor_x a c P va :
  Rep a c P →
  translate va a (mem c) =
    (if in_window va then '(f, acc) ← P !! page va; Some (f + va mod PAGE, acc) else None) ∧
  match descriptor va a (mem c) with
  | None => translate va a (mem c) = None
  | Some d => ∃ f acc, P !! page va = Some (f, acc) ∧
      el0_writes d = writable acc ∧ el0_executes d = bool_decide (acc = ReadExecute) ∧
      el0_writes d && el0_executes d = false ∧ el1_executes d = false ∧ Z.testbit d 11 = true
  end.
Proof.
  intros HR. split; [by apply translate_rep|]. rewrite (translate_rep a c P va HR), (descriptor_rep a c P va HR).
  destruct (in_window va); [|done]. destruct (P !! page va) as [[f acc]|] eqn:Hp; [|done].
  destruct (frame_of a c P _ f acc HR Hp) as (_ & Hf & _). cbn [mbind option_bind].
  exists f, acc. unfold el0_writes, el0_executes, el1_executes. rewrite !testbit_descriptor by (done || lia).
  by destruct acc.
Qed.

(** * Making and dropping address spaces *)

Lemma free_all_spec l s : fs_ok s → NoDup l → (∀ x, x ∈ l → x ∈ fs_held s) →
  ∃ s', free_all l s = Some s' ∧ fs_ok s' ∧ ∀ x, x ∈ fs_held s' ↔ x ∈ fs_held s ∧ x ∉ l.
Proof.
  revert s. induction l as [|a l IH]; intros s Hok Hnd Hh; cbn.
  { exists s. split_and!; [done..|]. intros x. pose proof (not_elem_of_nil x). tauto. }
  apply NoDup_cons in Hnd as [Ha Hnd].
  destruct (fs_free_ok s a Hok (Hh a ltac:(by left))) as (s1 & -> & Hok1 & Hs1). cbn.
  destruct (IH s1 Hok1 Hnd) as (s2 & -> & Hok2 & Hs2).
  { intros x Hx. rewrite Hs1. apply elem_of_difference. split; [apply Hh; by right|].
    rewrite elem_of_singleton. by intros ->. }
  exists s2. split_and!; [done..|]. intros x. rewrite Hs2, Hs1, elem_of_difference, elem_of_singleton, not_elem_of_cons. tauto.
Qed.

(** [c'] holds the frames of [c] and those of [a'], and the ones [a'] gained were free in [c]. *)
Definition grows (a : AddressSpace) (c : Machine) (a' : AddressSpace) (c' : Machine) : Prop :=
  (∀ x, x ∈ fs_held (source c') ↔ x ∈ fs_held (source c) ∨ x ∈ owned a') ∧
  (∀ x, x ∈ owned a → x ∈ owned a') ∧
  (∀ x, x ∈ owned a' → x ∈ owned a ∨ x ∉ fs_held (source c)).

Lemma grows_refl a c P : Rep a c P → grows a c a c.
Proof.
  intros HR. split_and!; [|done|by left]. intros x. split; [by left|]. intros [?|Hx]; [done|].
  by apply (rep_held a c P HR).
Qed.

Lemma grows_trans a c a' c' a'' c'' : grows a c a' c' → grows a' c' a'' c'' → grows a c a'' c''.
Proof.
  intros (H1 & H2 & H3) (H4 & H5 & H6). split_and!; [|by auto|].
  - intros x. rewrite H4, H1. split; [intros [[?|?%H5]|?]; auto|intros [?|?]; auto].
  - intros x [Hx|Hx]%H6; [by apply H3|]. right. intros Hc. apply Hx, H1. by left.
Qed.

Lemma grows_fresh a c a' c' f : (∀ x, x ∈ owned a → x ∈ fs_held (source c)) → f ∉ fs_held (source c) →
  fs_held (source c') = fs_held (source c) ∪ {[f]} → owned a' ≡ₚ f :: owned a → grows a c a' c'.
Proof.
  intros Hh Hf Hc Hp. split_and!.
  - intros x. rewrite Hc, Hp, elem_of_union, elem_of_singleton, elem_of_cons. split; [tauto|].
    intros [?|[?|?%Hh]]; auto.
  - intros x Hx. rewrite Hp. by right.
  - intros x. rewrite Hp. intros [->|?]%elem_of_cons; auto.
Qed.

Lemma level3_for_grows va a c P a' c' t : Rep a c P → level3_for va a c = Some (a', c', t) → grows a c a' c'.
Proof.
  intros HR. unfold level3_for. destruct (level3 a !! level2_index va) as [t0|] eqn:Ht.
  { intros E. apply Some_inj, pair_equal_spec in E as [[-> ->]%pair_equal_spec _]. by apply (grows_refl a' c' P). }
  intros ([c1 f] & Hz & E)%bind_Some. apply Some_inj, pair_equal_spec in E as [[E1 E2]%pair_equal_spec _]. subst a' c'.
  destruct (zeroed_frame_spec c c1 f (rep_source a c P HR) Hz) as (_ & Hfresh & Hheld & _).
  apply (grows_fresh a c _ _ f); [apply HR|done|done|by apply owned_level3].
Qed.

Lemma map_grows va acc a c P : Rep a c P →
  let '(a', c', _) := map va acc a c in (∃ P', Rep a' c' P') ∧ grows a c a' c'.
Proof.
  intros HR. unfold map. destruct (Z.eqb_spec (va mod PAGE) 0) as [Hal|Hal]; cbn [negb]; [|eauto using grows_refl].
  destruct (in_window va) eqn:Hw; cbn [negb]; [|eauto using grows_refl].
  case_decide as Hm; [eauto using grows_refl|]. destruct (level3_for va a c) as [[[a1 c1] t]|] eqn:El; [|eauto using grows_refl].
  destruct (level3_for_spec va a c P a1 c1 t HR Hw El) as (HR1 & Ht & Hfr & _).
  pose proof (level3_for_grows va a c P a1 c1 t HR El) as Hg1.
  destruct (zeroed_frame c1) as [[c2 f]|] eqn:Ez; [|eauto].
  destruct (zeroed_frame_spec c1 c2 f (rep_source _ _ _ HR1) Ez) as (_ & Hfresh & Hheld & _).
  assert (Hn : frames a1 !! va = None) by (rewrite Hfr; by apply eq_None_not_Some).
  assert (Hp : P !! va = None).
  { rewrite (rep_frames a1 c1 P HR1), lookup_fmap in Hn. by destruct (P !! va). }
  split; [eexists; by apply (Rep_map_page va acc a1 c1 P c2 f t)|].
  apply (grows_trans a c a1 c1); [done|]. apply (grows_fresh a1 c1 _ _ f); [apply HR1|done|done|by apply owned_frames].
Qed.

(** A program's life: any number of [map]s, whatever they answer. *)
Fixpoint maps (reqs : list (Z * Access)) (a : AddressSpace) (c : Machine) : AddressSpace * Machine :=
  match reqs with
  | [] => (a, c)
  | (va, acc) :: reqs => let '(a, c, _) := map va acc a c in maps reqs a c
  end.

Lemma maps_grows reqs a c P : Rep a c P →
  (∃ P', Rep (maps reqs a c).1 (maps reqs a c).2 P') ∧ grows a c (maps reqs a c).1 (maps reqs a c).2.
Proof.
  revert a c P. induction reqs as [|[va acc] reqs IH]; intros a c P HR; cbn; [eauto using grows_refl|].
  pose proof (map_grows va acc a c P HR) as Hm. destruct (map va acc a c) as [[a1 c1] r]. destruct Hm as [[P1 HR1] Hg].
  destruct (IH a1 c1 P1 HR1) as [HR2 Hg2]. split; [done|]. by apply (grows_trans a c a1 c1).
Qed.

(** A table's words, one after the other. *)
Lemma length_words (l : list Z) : length (l ≫= le_bytes 8) = (8 * length l)%nat.
Proof. induction l as [|v l IH]; [done|]. rewrite bind_cons, length_app, IH, length_le_bytes. cbn. lia. Qed.

Lemma lookup_words (l : list Z) i k v : l !! i = Some v → (k < 8)%nat →
  (l ≫= le_bytes 8) !! (8 * i + k)%nat = le_bytes 8 v !! k.
Proof.
  revert i. induction l as [|w l IH]; intros [|i] Hi Hk; try done; rewrite bind_cons.
  - injection Hi as ->. rewrite lookup_app_l by (rewrite length_le_bytes; lia). done.
  - rewrite lookup_app_r by (rewrite length_le_bytes; lia). rewrite length_le_bytes, <-(IH i Hi Hk). f_equal. lia.
Qed.

Lemma entry_store_words (l : list Z) m t i v : l !! i = Some v → uint 64 v →
  entry (store t (l ≫= le_bytes 8) m) t (Z.of_nat i) = v.
Proof.
  intros Hi Hv. unfold entry. rewrite <-(le_value_le_bytes 8 v Hv) at 1. f_equal.
  apply list_eq. intros k. unfold fetch. rewrite list_lookup_fmap. pose proof (lookup_lt_Some _ _ _ Hi).
  destruct (decide (k < 8)%nat) as [Hk|Hk].
  - rewrite lookup_seq_lt by done. cbn [fmap option_fmap option_map].
    replace (t + 8 * Z.of_nat i + Z.of_nat (0 + k)) with (t + Z.of_nat (8 * i + k)) by lia.
    rewrite store_inside by (rewrite length_words; lia). rewrite <-(lookup_words l i k v Hi Hk). symmetry.
    apply list_lookup_lookup_total_lt. rewrite length_words. lia.
  - rewrite lookup_seq_ge, lookup_ge_None_2 by (rewrite ?length_le_bytes; lia). done.
Qed.

Definition kernel_ok (kernel : list Z) : Prop := length kernel = 512%nat ∧ Forall (uint 64) kernel.

Lemma new_spec kernel c c' oa : kernel_ok kernel → fs_ok (source c) → new kernel c = Some (c', oa) →
  match oa with
  | None => fs_ok (source c') ∧ ∀ x, x ∈ fs_held (source c') ↔ x ∈ fs_held (source c)
  | Some a => Rep a c' ∅ ∧ (∀ x, x ∈ fs_held (source c') ↔ x ∈ fs_held (source c) ∨ x ∈ owned a) ∧
      (∀ x, x ∈ owned a → x ∉ fs_held (source c)) ∧
      ∀ i v, kernel !! i = Some v → Z.of_nat i ≠ level1_index USER_BASE → entry (mem c') (root a) (Z.of_nat i) = v
  end.
Proof.
  intros [Hlen Hwords] Hok. unfold new. destruct (zeroed_frame c) as [[c1 r]|] eqn:E1; [|by intros [= <- <-]].
  destruct (zeroed_frame_spec c c1 r Hok E1) as (Hok1 & Hf1 & Hh1 & Hr & Hm1 & _).
  destruct (zeroed_frame c1) as [[c2 l2]|] eqn:E2.
  - destruct (zeroed_frame_spec c1 c2 l2 Hok1 E2) as (Hok2 & Hf2 & Hh2 & Hl2 & Hm2 & _).
    intros E. apply Some_inj, pair_equal_spec in E as [<- <-].
    assert (Hne : r ≠ l2) by (intros ->; apply Hf2; rewrite Hh1; by apply elem_of_union_r, elem_of_singleton).
    assert (Howned : owned (mkAddressSpace r l2 ∅ ∅) = [r; l2]) by (unfold owned; cbn; by rewrite map_to_list_empty).
    destruct (table_descriptor l2 Hl2) as [_ Hu].
    assert (Hheld : ∀ x, x ∈ fs_held (source c2) ↔ x ∈ fs_held (source c) ∨ x ∈ [r; l2]).
    { intros x. rewrite Hh2, Hh1, !elem_of_union, !elem_of_singleton, !elem_of_cons. pose proof (not_elem_of_nil x). tauto. }
    assert (Hl2z : ∀ m x, l2 <= x < l2 + PAGE → set_entry r (level1_index USER_BASE)
        (Z.lor (Z.lor l2 VALID) TABLE_OR_PAGE) (store r (kernel ≫= le_bytes 8) m) x = m x).
    { intros m x Hx. destruct (frames_disjoint l2 r Hl2 Hr) as [?|?]; [done|..];
        (rewrite set_entry_outside by (done || lia); apply store_outside; rewrite length_words, Hlen;
         unfold PAGE_SIZE in *; lia). }
    cbn [with_mem mem source root]. rewrite Howned. split_and!.
    + split; cbn [with_mem mem source frames root level2 level3].
      * done.
      * rewrite Howned. repeat constructor; [|apply not_elem_of_nil]. rewrite list_elem_of_singleton. done.
      * intros x. rewrite Howned. intros Hx. split; [apply Hheld; by right|].
        apply elem_of_cons in Hx as [->|[->|[]%not_elem_of_nil]%elem_of_cons]; done.
      * by rewrite fmap_empty.
      * rewrite entry_set_entry by done. by rewrite decide_True.
      * intros i Hi. rewrite lookup_empty. rewrite <-(entry_fill (mem c1) l2 i Hi), <-Hm2.
        apply entry_ext; [done|apply Hl2z].
      * intros va t _ _. by rewrite lookup_empty.
      * intros va. rewrite lookup_empty. by intros [? ?].
    + done.
    + intros x [->|[->|[]%not_elem_of_nil]%elem_of_cons]%elem_of_cons; [done|].
      intros Hx. apply Hf2. rewrite Hh1. by apply elem_of_union_l.
    + intros i v Hi Hne'. rewrite entry_set_entry, decide_False by done. apply entry_store_words; [done|].
      by apply (proj1 (Forall_lookup _ _) Hwords i).
  - intros (s & Hs & [= <- <-])%bind_Some. cbn.
    destruct (fs_free_ok (source c1) r Hok1) as (s' & Hs' & Hoks & Hhs).
    { rewrite Hh1. by apply elem_of_union_r, elem_of_singleton. }
    assert (s' = s) as -> by congruence. split; [done|]. intros x.
    rewrite Hhs, Hh1, elem_of_difference, elem_of_union, elem_of_singleton. split; [tauto|].
    intros Hx. split; [by left|]. by intros ->.
Qed.

(** Address spaces do not leak or steal frames.  From making one, through any sequence of
    [map]s whatever their results, to dropping it, dropping never panics and leaves exactly
    the frames handed out before it was made; and an address space that could not be made
    for want of memory leaves nothing behind. *)
Theorem drop_gives_back_every_frame kernel c c1 oa :
  kernel_ok kernel → fs_ok (source c) → new kernel c = Some (c1, oa) →
  match oa with
  | None => ∀ x, x ∈ fs_held (source c1) ↔ x ∈ fs_held (source c)
  | Some a => ∀ reqs, ∃ c2, drop_space (maps reqs a c1).1 (maps reqs a c1).2 = Some c2 ∧
      ∀ x, x ∈ fs_held (source c2) ↔ x ∈ fs_held (source c)
  end.
Proof.
  intros Hk Hok Hn. pose proof (new_spec kernel c c1 oa Hk Hok Hn) as Hs. destruct oa as [a|]; [|by destruct Hs].
  destruct Hs as (HR & Hheld & Hfresh & _). intros reqs.
  destruct (maps_grows reqs a c1 ∅ HR) as [[P HR'] (Hg1 & Hg2 & Hg3)].
  destruct (maps reqs a c1) as [a' c']. cbn [fst snd] in *. unfold drop_space.
  destruct (free_all_spec (owned a') (source c')) as (s & -> & Hoks & Hss); [apply HR'|apply HR'|apply HR'|].
  eexists. split; [reflexivity|]. cbn. intros x. rewrite Hss, Hg1, Hheld. split.
  - intros [[[?|?]|?] Hno]; [done|by destruct Hno; apply Hg2|done].
  - intros Hx. split; [by left; left|]. intros Ho. destruct (Hg3 x Ho) as [Hin|Hin]; [by apply (Hfresh x)|].
    apply Hin, Hheld. by left.
Qed.

(** * A program's memory *)

(** Where the page table puts [x]. *)
Definition at_ (P : gmap Z (Z * Access)) (x : Z) : option (Z * Access) :=
  if in_window x then '(f, acc) ← P !! page x; Some (f + x mod PAGE, acc) else None.

Lemma at_Some P x p acc : at_ P x = Some (p, acc) ↔
  in_window x = true ∧ ∃ f, P !! page x = Some (f, acc) ∧ p = f + x mod PAGE.
Proof.
  unfold at_. destruct (in_window x); [|naive_solver]. destruct (P !! page x) as [[f acc']|]; cbn; naive_solver.
Qed.

Lemma values_inj_P a c P va va' f acc acc' : Rep a c P →
  P !! va = Some (f, acc) → P !! va' = Some (f, acc') → va = va'.
Proof.
  intros HR H1 H2. pose proof (rep_nodup a c P HR) as Hnd. unfold owned in Hnd. apply NoDup_app in Hnd as (Hnd & _).
  apply (values_inj (frames a) va va' f Hnd); by rewrite (rep_frames a c P HR), lookup_fmap, ?H1, ?H2.
Qed.

(** Different addresses are different bytes of memory. *)
Lemma at_inj a c P x x' p acc acc' : Rep a c P → at_ P x = Some (p, acc) → at_ P x' = Some (p, acc') → x = x'.
Proof.
  intros HR (_ & f & Hf & ->)%at_Some (_ & f' & Hf' & Hp)%at_Some.
  destruct (frame_of a c P _ f acc HR Hf) as (_ & Hok & _), (frame_of a c P _ f' acc' HR Hf') as (_ & Hok' & _).
  assert (f = f') as <-.
  { destruct (decide (f = f')) as [|Hne]; [done|]. destruct (frames_disjoint f f' Hok Hok' Hne);
      unfold PAGE_SIZE in *; pose proof (Z.mod_pos_bound x 4096 ltac:(lia)); pose proof (Z.mod_pos_bound x' 4096 ltac:(lia)); lia. }
  pose proof (values_inj_P a c P _ _ f acc acc' HR Hf Hf') as Hpage. unfold page in Hpage. lia.
Qed.

(** Up to the end of its page, memory is contiguous. *)
Lemma at_same_page P x k p acc : at_ P x = Some (p, acc) → 0 <= k < PAGE - x mod PAGE → at_ P (x + k) = Some (p + k, acc).
Proof.
  intros (Hw & f & Hf & ->)%at_Some Hk. apply at_Some.
  assert (Hm : (x + k) mod PAGE = x mod PAGE + k).
  { unfold PAGE_SIZE in *. rewrite Z.add_mod, (Z.mod_small k) by (pose proof (Z.mod_pos_bound x 4096); lia).
    apply Z.mod_small. pose proof (Z.mod_pos_bound x 4096). lia. }
  assert (Hp : page (x + k) = page x) by (unfold page; lia). split.
  - pose proof (page_window x Hw) as Hpw. revert Hpw. rewrite <-Hp. unfold page. rewrite Hm. clear -Hk Hw.
    intros Hpw. unfold PAGE_SIZE in *. window.
  - exists f. rewrite Hp. split; [done|lia].
Qed.

Lemma at_not_table a c P x p acc t : Rep a c P → at_ P x = Some (p, acc) → t ∈ tables a → ¬ t <= p < t + PAGE.
Proof.
  intros HR (_ & f & Hf & ->)%at_Some Ht. destruct (frame_of a c P _ f acc HR Hf) as (_ & Hok & Hnt).
  destruct (frames_disjoint f t Hok (table_ok a c P t HR Ht)); [by intros ->|..];
    unfold PAGE_SIZE in *; pose proof (Z.mod_pos_bound x 4096 ltac:(lia)); lia.
Qed.

(** What a copy that stopped at [r] has done to memory: bytes of allowed pages in
    [from..to] only, and, if it finished, all of them. *)
Definition copied (P : gmap Z (Z * Access)) (allowed : Access → bool) (va : Z) (bytes : list Z)
    (from to : Z) (m m' : Mem) (r : result AccessFault unit) : Prop :=
  (∀ p, (∀ x acc, from <= x < to → at_ P x = Some (p, acc) → allowed acc = false) → m' p = m p) ∧
  match r with
  | Ok _ => ∀ x, from <= x < to → ∃ p acc, at_ P x = Some (p, acc) ∧ allowed acc = true ∧
              m' p = bytes !!! Z.to_nat (x - va)
  | Err e => ∃ x, from <= x < to ∧ ¬ (x < 2 ^ 64 ∧ ∃ p acc, at_ P x = Some (p, acc) ∧ allowed acc = true) ∧
               fault_address e = Z.min x (ones 64)
  end.

Lemma copy_pieces fuel a c P va bytes allowed done_ m :
  let len := Z.of_nat (length bytes) in
  Rep a (with_mem m c) P → 0 <= va → 0 <= done_ <= len → len - done_ <= Z.of_nat fuel →
  let '(m', r) := pieces fuel va len allowed (copy_in bytes) a (λ m, m) done_ m in
  Rep a (with_mem m' c) P ∧ copied P allowed va bytes (va + done_) (va + len) m m' r.
Proof.
  cbv zeta. intros HR Hva. revert done_ m HR. induction fuel as [|fuel IH]; intros done_ m HR Hd Hf; cbn [pieces].
  { split; [done|]. split; [done|]. intros x Hx. lia. }
  destruct (Z.ltb_spec done_ (Z.of_nat (length bytes))) as [Hlt|Hge]; cbn [negb].
  2: { split; [done|]. split; [done|]. intros x Hx. lia. }
  destruct (Z.leb_spec (2 ^ 64) (va + done_)) as [Hov|Hov].
  { split; [done|]. split; [done|]. exists (va + done_). split; [lia|]. split; [lia|]. cbn. rewrite Z.min_r; [done|]. unfold ones. lia. }
  rewrite (translate_rep a _ P _ HR). fold (at_ P (va + done_)).
  destruct (at_ P (va + done_)) as [[p acc]|] eqn:Hat.
  2: { split; [done|]. split; [done|]. exists (va + done_). split; [lia|]. split; [intros (_ & ? & ? & ? & _); congruence|].
       cbn. rewrite Z.min_l; [done|]. unfold ones. lia. }
  destruct (allowed acc) eqn:Hal.
  2: { split; [done|]. split; [done|]. exists (va + done_). split; [lia|]. split; [intros (_ & ? & ? & ? & ?); congruence|].
       cbn. rewrite Z.min_l; [done|]. unfold ones. lia. }
  set (piece := Z.min _ _). set (m1 := copy_in bytes p done_ piece m).
  assert (Hpc : 0 < piece <= PAGE - (va + done_) mod PAGE ∧ done_ + piece <= Z.of_nat (length bytes)).
  { subst piece. unfold PAGE_SIZE in *. pose proof (Z.mod_pos_bound (va + done_) 4096). lia. }
  assert (Hlen : length (take (Z.to_nat piece) (drop (Z.to_nat done_) bytes)) = Z.to_nat piece)
    by (rewrite length_take, length_drop; lia).
  assert (Hout : ∀ q, q < p ∨ p + piece <= q → m1 q = m q).
  { intros q Hq. unfold m1, copy_in. apply store_outside. rewrite Hlen. lia. }
  assert (Hin : ∀ k, 0 <= k < piece → m1 (p + k) = bytes !!! Z.to_nat (done_ + k)).
  { intros k Hk. unfold m1, copy_in. replace k with (Z.of_nat (Z.to_nat k)) by lia.
    rewrite store_inside by lia. rewrite lookup_total_take_lt, lookup_total_drop by lia. f_equal. lia. }
  assert (Hpg : ∀ k, 0 <= k < piece → at_ P (va + done_ + k) = Some (p + k, acc)) by (intros k Hk; apply at_same_page; [done|lia]).
  assert (HR1 : Rep a (with_mem m1 c) P).
  { apply (Rep_memory a (with_mem m c) P m1 HR). intros t q Ht Hq. cbn. apply Hout.
    destruct (decide (p <= q < p + piece)) as [Hr|]; [|lia].
    destruct (at_not_table a _ P _ (p + (q - p)) acc t HR (Hpg (q - p) ltac:(lia)) Ht). lia. }
  specialize (IH (done_ + piece) m1 HR1 ltac:(lia) ltac:(lia)).
  destruct (pieces fuel va _ allowed (copy_in bytes) a (λ m, m) (done_ + piece) m1) as [m' r].
  destruct IH as (HR' & Hkeep & Hres). split; [done|]. split.
  - intros q Hq. rewrite Hkeep by (intros x acc' Hx; apply Hq; lia). apply Hout.
    destruct (decide (p <= q < p + piece)) as [Hr|]; [|lia].
    pose proof (Hpg (q - p) ltac:(lia)) as Hqp. replace (p + (q - p)) with q in Hqp by lia.
    specialize (Hq (va + done_ + (q - p)) acc ltac:(lia) Hqp). congruence.
  - destruct r as [u|e].
    + intros x Hx. destruct (decide (va + (done_ + piece) <= x)) as [Hge|Hlt']; [apply Hres; lia|].
      pose proof (Hpg (x - va - done_) ltac:(lia)) as Hxp. replace (va + done_ + (x - va - done_)) with x in Hxp by lia.
      exists (p + (x - va - done_)), acc. split_and!; [done..|]. rewrite Hkeep.
      * rewrite Hin by lia. f_equal. lia.
      * intros x' acc' Hx' Hat'. pose proof (at_inj a _ P _ _ _ _ _ HR Hxp Hat'). lia.
    + destruct Hres as (x & Hx & Hr). exists x. split; [lia|done].
Qed.

Definition fetch_piece (m : Mem) (physical offset len : Z) (buf : list Z) : list Z :=
  take (Z.to_nat offset) buf ++ fetch physical (Z.to_nat len) m ++ drop (Z.to_nat (offset + len)) buf.

Lemma fetch_lookup a n m i : (i < n)%nat → fetch a n m !!! i = m (a + Z.of_nat i).
Proof.
  intros Hi. apply list_lookup_total_correct. unfold fetch. by rewrite list_lookup_fmap, lookup_seq_lt by done.
Qed.

Lemma read_pieces fuel a c P va n done_ buf :
  Rep a c P → 0 <= va → length buf = n → 0 <= done_ <= Z.of_nat n → Z.of_nat n - done_ <= Z.of_nat fuel →
  let '(buf', r) := pieces fuel va (Z.of_nat n) (λ _, true) (fetch_piece (mem c)) a (λ _, mem c) done_ buf in
  length buf' = n ∧ take (Z.to_nat done_) buf' = take (Z.to_nat done_) buf ∧
  match r with
  | Ok _ => ∀ x, va + done_ <= x < va + Z.of_nat n → ∃ p acc, at_ P x = Some (p, acc) ∧
              buf' !!! Z.to_nat (x - va) = mem c p
  | Err e => ∃ x, va + done_ <= x < va + Z.of_nat n ∧ ¬ (x < 2 ^ 64 ∧ is_Some (at_ P x)) ∧
               fault_address e = Z.min x (ones 64)
  end.
Proof.
  intros HR Hva. revert done_ buf. induction fuel as [|fuel IH]; intros done_ buf Hb Hd Hf; cbn [pieces].
  { split_and!; [done..|]. intros x Hx. lia. }
  destruct (Z.ltb_spec done_ (Z.of_nat n)) as [Hlt|Hge]; cbn [negb].
  2: { split_and!; [done..|]. intros x Hx. lia. }
  destruct (Z.leb_spec (2 ^ 64) (va + done_)) as [Hov|Hov].
  { split_and!; [done..|]. exists (va + done_). split; [lia|]. split; [lia|]. cbn. rewrite Z.min_r; [done|]. unfold ones. lia. }
  rewrite (translate_rep a _ P _ HR). fold (at_ P (va + done_)).
  destruct (at_ P (va + done_)) as [[p acc]|] eqn:Hat.
  2: { split_and!; [done..|]. exists (va + done_). split; [lia|]. split; [intros [_ [? ?]]; congruence|].
       cbn. rewrite Z.min_l; [done|]. unfold ones. lia. }
  set (piece := Z.min _ _). set (buf1 := fetch_piece (mem c) p done_ piece buf).
  assert (Hpc : 0 < piece <= PAGE - (va + done_) mod PAGE ∧ done_ + piece <= Z.of_nat n).
  { subst piece. unfold PAGE_SIZE in *. pose proof (Z.mod_pos_bound (va + done_) 4096). lia. }
  assert (Hb1 : length buf1 = n).
  { unfold buf1, fetch_piece. rewrite !length_app, length_take, length_drop, length_fetch. lia. }
  specialize (IH (done_ + piece) buf1 Hb1 ltac:(lia) ltac:(lia)).
  destruct (pieces fuel va _ _ _ a _ (done_ + piece) buf1) as [buf' r]. destruct IH as (Hl & Ht & Hres).
  assert (Hpre : ∀ i, (i < Z.to_nat (done_ + piece))%nat → buf' !!! i = buf1 !!! i).
  { intros i Hi. rewrite <-(lookup_total_take_lt buf' (Z.to_nat (done_ + piece))), Ht by done.
    by rewrite lookup_total_take_lt. }
  split_and!; [done| |].
  - replace (Z.to_nat done_) with (Z.to_nat done_ `min` Z.to_nat (done_ + piece))%nat by lia.
    rewrite <-!take_take, Ht, !take_take, Nat.min_l by lia. unfold buf1, fetch_piece.
    rewrite take_app_le by (rewrite length_take; lia). by rewrite take_take, Nat.min_id.
  - destruct r as [u|e].
    + intros x Hx. destruct (decide (va + (done_ + piece) <= x)) as [Hge|Hlt']; [apply Hres; lia|].
      pose proof (at_same_page P (va + done_) (x - va - done_) p acc Hat ltac:(lia)) as Hxp.
      replace (va + done_ + (x - va - done_)) with x in Hxp by lia.
      eexists _, _. split; [done|]. rewrite Hpre by lia. unfold buf1, fetch_piece.
      rewrite lookup_total_app_r by (rewrite length_take; lia). rewrite length_take, Nat.min_l by lia.
      rewrite lookup_total_app_l by (rewrite length_fetch; lia). rewrite fetch_lookup by lia. f_equal. lia.
    + destruct Hres as (x & Hx & Hr). exists x. split; [lia|done].
Qed.

(** C14: [write_user] on every outcome.  It answers [Ok] exactly when the program may write
    every byte of the range (no byte is past the end of the address space), and then each
    byte is in place; otherwise it reports an address the program may not write.  Either way
    it has written only to bytes of the range in pages the program can write, so neither
    the tables, nor read-only or executable pages, nor any other memory. *)
Theorem write_user_is_confined a c P va bytes m' r :
  Rep a c P → 0 <= va → write_user va bytes a (mem c) = (m', r) →
  let allowed x := x < 2 ^ 64 ∧ ∃ p, at_ P x = Some (p, ReadWrite) in
  let range x := va <= x < va + Z.of_nat (length bytes) in
  Rep a (with_mem m' c) P ∧
  (∀ p, m' p ≠ mem c p → ∃ x, range x ∧ at_ P x = Some (p, ReadWrite)) ∧
  match r with
  | Ok _ => ∀ x, range x → ∃ p, at_ P x = Some (p, ReadWrite) ∧ m' p = bytes !!! Z.to_nat (x - va)
  | Err e => ∃ x, range x ∧ ¬ allowed x ∧ fault_address e = Z.min x (ones 64)
  end ∧
  ((∀ x, range x → allowed x) → r = Ok tt).
Proof.
  intros HR Hva Hw. cbv zeta.
  assert (HR0 : Rep a (with_mem (mem c) c) P) by (by destruct c).
  pose proof (copy_pieces (length bytes) a c P va bytes writable 0 (mem c) HR0 Hva ltac:(lia) ltac:(lia)) as Hc.
  unfold write_user, for_each_piece in Hw. rewrite Nat2Z.id in Hw. rewrite Hw, Z.add_0_r in Hc. destruct Hc as (HR' & Hkeep & Hres).
  assert (Hww : ∀ acc, writable acc = true ↔ acc = ReadWrite) by (intros []; done).
  split; [done|]. split_and!.
  - intros p Hp. destruct (decide (Exists (λ k, at_ P (va + Z.of_nat k) = Some (p, ReadWrite)) (seq 0 (length bytes)))) as [Hex|Hex].
    + apply Exists_exists in Hex as (k & Hk%elem_of_seq & Hat). exists (va + Z.of_nat k). split; [lia|done].
    + destruct Hp. apply Hkeep. intros x acc Hx Hat. destruct (writable acc) eqn:E; [|done].
      apply Hww in E as ->. destruct Hex. apply Exists_exists. exists (Z.to_nat (x - va)).
      split; [apply elem_of_seq; lia|]. by replace (va + Z.of_nat (Z.to_nat (x - va))) with x by lia.
  - destruct r as [u|e].
    + intros x Hx. destruct (Hres x Hx) as (p & acc & Hat & ->%Hww & Hm). eauto.
    + destruct Hres as (x & Hx & Hno & He). exists x. split_and!; try done; [lia..|].
      intros (Hlt & p & Hp). apply Hno. eauto.
  - intros Hall. destruct r as [[]|e]; [done|]. destruct Hres as (x & Hx & Hno & _). destruct Hno.
    destruct (Hall x Hx) as (Hlt & p & Hp). eauto.
Qed.

(** What is written to a program can be read back from it: after a successful
    [write_user], [read_user] of the same range succeeds and returns the same bytes, however
    the range is spread over pages and wherever their frames are. *)
Theorem read_user_after_write_user a c P va bytes m' buf :
  Rep a c P → 0 <= va → write_user va bytes a (mem c) = (m', Ok tt) → va + Z.of_nat (length bytes) <= 2 ^ 64 →
  length buf = length bytes → read_user va buf a m' = (bytes, Ok tt).
Proof.
  intros HR Hva Hw Hend Hlen. assert (HR0 : Rep a (with_mem (mem c) c) P) by (by destruct c).
  pose proof (copy_pieces (length bytes) a c P va bytes writable 0 (mem c) HR0 Hva ltac:(lia) ltac:(lia)) as Hc.
  unfold write_user, for_each_piece in Hw. rewrite Nat2Z.id in Hw. rewrite Hw, Z.add_0_r in Hc. destruct Hc as (HR' & _ & Hres).
  pose proof (read_pieces (length buf) a _ P va (length buf) 0 buf HR' Hva eq_refl ltac:(lia) ltac:(lia)) as Hr.
  unfold read_user, for_each_piece. rewrite Nat2Z.id. unfold fetch_piece in Hr. cbn [with_mem mem] in Hr. rewrite Z.add_0_r in Hr.
  destruct (pieces (length buf) va _ _ _ a _ 0 buf) as [buf' r]. destruct Hr as (Hl & _ & Hr).
  destruct r as [[]|e].
  - f_equal. apply list_eq_same_length with (length buf); [done|done|]. intros i x y Hi Hx Hy.
    destruct (Hr (va + Z.of_nat i)) as (p & acc & Hat & Hp); [lia|].
    destruct (Hres (va + Z.of_nat i)) as (p' & acc' & Hat' & _ & Hp'); [lia|].
    rewrite Hat in Hat'. injection Hat' as <- <-.
    replace (Z.to_nat (va + Z.of_nat i - va)) with i in * by lia.
    apply list_lookup_total_correct in Hx, Hy. congruence.
  - destruct Hr as (x & Hx & Hno & _). destruct Hno. split; [lia|].
    destruct (Hres x) as (p & acc & Hat & _); [lia|]. by rewrite Hat.
Qed.

End address_space.

(** * Witnesses: a small machine *)
Section demo.
Import PageFrames.

Definition demo_kernel : list Z := replicate 512 0.
Definition demo_start : Machine := mkMachine (λ _, 7) (Frames.new 0x1000 0x10000).

(** The address space just made, and its machine. *)
Definition demo_empty : AddressSpace * Machine :=
  match new demo_kernel demo_start with
  | Some (c, Some a) => (a, c)
  | _ => (mkAddressSpace 0 0 ∅ ∅, demo_start)
  end.

(** Two pages of it mapped, the second read-only. *)
Definition demo_one : AddressSpace * Machine := (map USER_BASE ReadWrite demo_empty.1 demo_empty.2).1.
Definition demo_two : AddressSpace * Machine := (map (USER_BASE + 4096) ReadOnly demo_one.1 demo_one.2).1.

Lemma demo_kernel_ok : kernel_ok demo_kernel.
Proof. split; [done|]. apply Forall_replicate. by vm_compute. Qed.

Lemma demo_start_ok : fs_ok (source demo_start).
Proof. split; [apply Frames.Frames_Inv_new; [lia|by vm_compute|lia]|]. split; by vm_compute. Qed.

Lemma demo_new : new demo_kernel demo_start = Some (demo_empty.2, Some demo_empty.1).
Proof.
  assert (H : match new demo_kernel demo_start with Some (_, Some _) => true | _ => false end = true)
    by (vm_compute; reflexivity).
  unfold demo_empty. by destruct (new demo_kernel demo_start) as [[c [a|]]|].
Qed.

Lemma demo_empty_Rep : Rep demo_empty.1 demo_empty.2 ∅.
Proof. apply (new_spec _ _ _ _ demo_kernel_ok demo_start_ok demo_new). Qed.

Lemma demo_one_Rep : ∃ f, Rep demo_one.1 demo_one.2 {[USER_BASE := (f, ReadWrite)]}.
Proof.
  pose proof (map_spec USER_BASE ReadWrite _ _ ∅ demo_empty_Rep) as Hm.
  assert (Hr : (map USER_BASE ReadWrite demo_empty.1 demo_empty.2).2 = Ok tt) by (vm_compute; reflexivity).
  unfold demo_one. destruct (map USER_BASE ReadWrite _ _) as [[a c] r]. cbn in Hr |- *. subst r.
  destruct Hm as (_ & _ & _ & _ & f & _ & HR & _). exists f. exact HR.
Qed.

Lemma demo_two_Rep : ∃ f f', Rep demo_two.1 demo_two.2
  (<[USER_BASE + 4096 := (f', ReadOnly)]> {[USER_BASE := (f, ReadWrite)]}).
Proof.
  destruct demo_one_Rep as (f & HR1). pose proof (map_spec (USER_BASE + 4096) ReadOnly _ _ _ HR1) as Hm.
  assert (Hr : (map (USER_BASE + 4096) ReadOnly demo_one.1 demo_one.2).2 = Ok tt) by (vm_compute; reflexivity).
  unfold demo_two. destruct (map (USER_BASE + 4096) ReadOnly _ _) as [[a c] r]. cbn in Hr |- *. subst r.
  destruct Hm as (_ & _ & _ & _ & f' & _ & HR & _). exists f, f'. exact HR.
Qed.

Lemma map_adds_exactly_one_page_witness :
  (map (USER_BASE + 1) ReadOnly demo_empty.1 demo_empty.2).2 = Err NotAligned ∧ (USER_BASE + 1) mod PAGE ≠ 0.
Proof.
  pose proof (map_adds_exactly_one_page (USER_BASE + 1) ReadOnly _ _ ∅ demo_empty_Rep) as Hm.
  assert (Hr : (map (USER_BASE + 1) ReadOnly demo_empty.1 demo_empty.2).2 = Err NotAligned) by (vm_compute; reflexivity).
  split; [exact Hr|]. destruct (map (USER_BASE + 1) ReadOnly _ _) as [[a c] r]. cbn in Hr. subst r. apply Hm.
Defined.

Lemma translation_is_exact_and_w_xor_x_witness :
  ∃ f, translate (USER_BASE + 5) demo_one.1 (mem demo_one.2) = Some (f + 5, ReadWrite) ∧
       translate (USER_BASE + 4096) demo_one.1 (mem demo_one.2) = None.
Proof.
  destruct demo_one_Rep as (f & HR). exists f. generalize dependent demo_one. intros [a c] HR. cbn [fst snd] in *. split.
  - rewrite (proj1 (translation_is_exact_and_w_xor_x a c {[USER_BASE := (f, ReadWrite)]} (USER_BASE + 5) HR)). reflexivity.
  - rewrite (proj1 (translation_is_exact_and_w_xor_x a c {[USER_BASE := (f, ReadWrite)]} (USER_BASE + 4096) HR)). reflexivity.
Defined.

Lemma drop_gives_back_every_frame_witness :
  ∃ c2, drop_space demo_one.1 demo_one.2 = Some c2 ∧
    ∀ x, x ∈ fs_held (source c2) ↔ x ∈ fs_held (source demo_start).
Proof.
  pose proof (drop_gives_back_every_frame _ _ _ _ demo_kernel_ok demo_start_ok demo_new [(USER_BASE, ReadWrite)]) as H.
  unfold demo_one. cbn [maps] in H. destruct (map USER_BASE ReadWrite _ _) as [[a c] r]. exact H.
Defined.

(** Two bytes are written at the end of the writable page; a third would be in the next one. *)
Lemma write_user_is_confined_witness :
  ∃ m' f, write_user (USER_BASE + 4094) [1; 2; 3] demo_two.1 (mem demo_two.2) =
            (m', Err (mkAccessFault (USER_BASE + 4096))) ∧
  ∀ p, m' p ≠ mem demo_two.2 p → ∃ x, USER_BASE + 4094 <= x < USER_BASE + 4097 ∧
     ∃ acc, at_ (<[USER_BASE + 4096 := (f, ReadOnly)]> {[USER_BASE := acc]}) x = Some (p, ReadWrite).
Proof.
  destruct demo_two_Rep as (f & f' & HR).
  assert (Hr : (write_user (USER_BASE + 4094) [1; 2; 3] demo_two.1 (mem demo_two.2)).2 =
               Err (mkAccessFault (USER_BASE + 4096))) by (vm_compute; reflexivity).
  revert Hr HR. generalize demo_two. intros [a c] Hr HR. cbn [fst snd] in *.
  destruct (write_user (USER_BASE + 4094) [1; 2; 3] a (mem c)) as [m' r] eqn:E. cbn in Hr. subst r.
  exists m', f'. split; [done|]. assert (Hva : 0 <= USER_BASE + 4094) by (vm_compute; congruence).
  destruct (write_user_is_confined a c _ (USER_BASE + 4094) [1; 2; 3] m' _ HR Hva E) as (_ & H & _).
  intros p Hp. destruct (H p Hp) as (x & Hx & Hat). exists x. split; [exact Hx|]. eexists. exact Hat.
Defined.

Lemma read_user_after_write_user_witness :
  ∃ m', write_user (USER_BASE + 10) [1; 2; 3] demo_two.1 (mem demo_two.2) = (m', Ok tt) ∧
        read_user (USER_BASE + 10) [0; 0; 0] demo_two.1 m' = ([1; 2; 3], Ok tt).
Proof.
  destruct demo_two_Rep as (f & f' & HR).
  assert (Hr : (write_user (USER_BASE + 10) [1; 2; 3] demo_two.1 (mem demo_two.2)).2 = Ok tt) by (vm_compute; reflexivity).
  revert Hr HR. generalize demo_two. intros [a c] Hr HR. cbn [fst snd] in *.
  destruct (write_user (USER_BASE + 10) [1; 2; 3] a (mem c)) as [m' r] eqn:E. cbn in Hr. subst r.
  exists m'. split; [done|]. assert (Hva : 0 <= USER_BASE + 10) by (vm_compute; congruence).
  apply (read_user_after_write_user a c _ (USER_BASE + 10) [1; 2; 3] m' [0; 0; 0] HR Hva E); [vm_compute; congruence|done].
Defined.
End demo.
End Paging.
