(* ===== verification/Elf.v ===== *)
(** The program loader ([rustypi-core/src/elf.rs]): checking an ELF file and loading its
    segments into an address space. *)
From S2P Require Import Prelude Bytes Abi Frames Paging.
Import layout.
Open Scope Z_scope.

Module Elf.
Import Paging PageFrames.

Inductive ElfError :=
| Truncated | NotElf | WrongArchitecture | NotExecutable | NoSegments | Unaligned
| OutsideProgramArea | BadSize | WritableAndExecutable | Overlapping | BadEntry.

Record Segment := mkSegment { address : Z; size : Z; data : list Z; access : Access }.
Record Program := mkProgram { entry_point : Z; segments : list Segment }.

Definition end_ (s : Segment) : Z := wrap 64 (address s + size s).

Definition MAGIC : list Z := [0x7F; 0x45; 0x4C; 0x46].
Definition CLASS_64 : Z := 2.
Definition LITTLE_ENDIAN : Z := 1.
Definition TYPE_EXECUTABLE : Z := 2.
Definition MACHINE_AARCH64 : Z := 183.
Definition HEADER_SIZE : nat := 64.
Definition PROGRAM_HEADER_SIZE : Z := 56.
Definition PT_LOAD : Z := 1.
Definition PF_X : Z := 1.
Definition PF_W : Z := 2.

(** [bytes.get(a..b)] with [usize] bounds. *)
Definition get (a b : Z) (bytes : list Z) : option (list Z) :=
  if (a <=? b) && (b <=? Z.of_nat (length bytes)) then slice (Z.to_nat a) (Z.to_nat b) bytes else None.

Definition field (n : nat) (bytes : list Z) (at_ : Z) : result ElfError Z :=
  le_value <$> ok_or (get at_ (wrap 64 (at_ + Z.of_nat n)) bytes) Truncated.

Definition u16_at (bytes : list Z) (at_ : Z) : result ElfError Z := field 2 bytes at_.
Definition u32_at (bytes : list Z) (at_ : Z) : result ElfError Z := field 4 bytes at_.
Definition u64_at (bytes : list Z) (at_ : Z) : result ElfError Z := field 8 bytes at_.

Definition checked_add (x y : Z) : option Z := if x + y <? 2 ^ 64 then Some (x + y) else None.

(** One round of the loop over program headers: the segment it adds, if any. *)
Definition parse_header (bytes : list Z) (header : Z) : result ElfError (option Segment) :=
  kind ← u32_at bytes header;
  if negb (kind =? PT_LOAD) then Ok None else
  flags ← u32_at bytes (wrap 64 (header + 4));
  offset ← u64_at bytes (wrap 64 (header + 8));
  address ← u64_at bytes (wrap 64 (header + 16));
  file_size ← u64_at bytes (wrap 64 (header + 32));
  size ← u64_at bytes (wrap 64 (header + 40));
  if negb (address mod PAGE_SIZE =? 0) then Err Unaligned else
  end_ ← ok_or (checked_add address size) OutsideProgramArea;
  if (address <? USER_BASE) || (PROGRAM_END <? end_) then Err OutsideProgramArea else
  if size <? file_size then Err BadSize else
  data ← ok_or (data_end ← checked_add offset file_size; get offset data_end bytes) Truncated;
  access ← match negb (Z.land flags PF_W =? 0), negb (Z.land flags PF_X =? 0) with
           | true, true => Err WritableAndExecutable
           | true, false => Ok ReadWrite
           | false, true => Ok ReadExecute
           | false, false => Ok ReadOnly
           end;
  Ok (if 0 <? size then Some (mkSegment address size data access) else None).

(** The loop, from header number [i] on. *)
Fixpoint parse_headers (bytes : list Z) (table entry_size : Z) (i : Z) (count : nat) :
    result ElfError (list Segment) :=
  match count with
  | O => Ok []
  | S count =>
      header ← ok_or (checked_add table (i * entry_size)) Truncated;
      segment ← parse_header bytes header;
      rest ← parse_headers bytes table entry_size (i + 1) count;
      Ok (option_list segment ++ rest)
  end.

(** [sort_by_key], which is stable. *)
Fixpoint insert_by_address (s : Segment) (l : list Segment) : list Segment :=
  match l with
  | [] => [s]
  | s' :: l' => if address s <=? address s' then s :: l else s' :: insert_by_address s l'
  end.
Definition sort_by_address (l : list Segment) : list Segment := foldr insert_by_address [] l.

(** [segments.windows(2)], looking for two that share a page. *)
Fixpoint overlapping (l : list Segment) : bool :=
  match l with
  | s :: (s' :: _) as l' => (address s' <? Frames.next_multiple_of (end_ s) PAGE_SIZE) || overlapping l'
  | _ => false
  end.

Definition runs_entry (entry : Z) (s : Segment) : bool :=
  bool_decide (access s = ReadExecute) && (address s <=? entry) && (entry <? end_ s).

Definition parse (bytes : list Z) : result ElfError Program :=
  if bool_decide (length bytes < HEADER_SIZE)%nat then
    Err (if bool_decide (take 4 bytes = MAGIC) then Truncated else NotElf) else
  if negb (bool_decide (take 4 bytes = MAGIC)) then Err NotElf else
  machine_ok ← (if negb (bytes !!! 4%nat =? CLASS_64) || negb (bytes !!! 5%nat =? LITTLE_ENDIAN) then Ok false
                else machine ← u16_at bytes 18; Ok (machine =? MACHINE_AARCH64));
  if negb machine_ok then Err WrongArchitecture else
  type ← u16_at bytes 16;
  if negb (type =? TYPE_EXECUTABLE) then Err NotExecutable else
  entry ← u64_at bytes 24;
  table ← u64_at bytes 32;
  entry_size ← u16_at bytes 54;
  count ← u16_at bytes 56;
  if (0 <? count) && (entry_size <? PROGRAM_HEADER_SIZE) then Err Truncated else
  segments ← parse_headers bytes table entry_size 0 (Z.to_nat count);
  match segments with
  | [] => Err NoSegments
  | _ =>
      let segments := sort_by_address segments in
      if overlapping segments then Err Overlapping else
      if negb (existsb (runs_entry entry) segments) then Err BadEntry else
      Ok (mkProgram entry segments)
  end.

Inductive LoadError := Map (e : MapError) | AccessError (f : AccessFault).

Section load.
Context {Src : Type} `{FrameSource Src}.

Fixpoint load_segments (l : list Segment) (a : AddressSpace) (c : Machine) :
    AddressSpace * Machine * result LoadError unit :=
  match l with
  | [] => (a, c, Ok tt)
  | s :: l =>
      match map_range (address s) (size s) (access s) a c with
      | (a, c, Err e) => (a, c, Err (Map e))
      | (a, c, Ok _) =>
          match load (address s) (data s) a (mem c) with
          | (m, Err f) => (a, with_mem m c, Err (AccessError f))
          | (m, Ok _) => load_segments l a (with_mem m c)
          end
      end
  end.

Definition load_program (p : Program) (a : AddressSpace) (c : Machine) :
    AddressSpace * Machine * result LoadError unit := load_segments (segments p) a c.

End load.

(** * What a parsed program is *)

(** A segment as the loader needs it: whole, in the program area, from the file. *)
Record segment_ok (bytes : list Z) (s : Segment) : Prop := {
  seg_aligned : address s mod PAGE_SIZE = 0;
  seg_low : USER_BASE <= address s;
  seg_high : address s + size s <= PROGRAM_END;
  seg_size : 0 < size s;
  seg_data : Z.of_nat (length (data s)) <= size s;
  seg_file : ∃ offset, slice offset (offset + length (data s)) bytes = Some (data s);
}.

Definition page_end (s : Segment) : Z := Frames.next_multiple_of (address s + size s) PAGE_SIZE.

(** In address order, no two on a page. *)
Fixpoint apart (l : list Segment) : Prop :=
  match l with
  | s :: (s' :: _) as l' => page_end s <= address s' ∧ apart l'
  | _ => True
  end.

Lemma get_Some a b bytes l : 0 <= a → get a b bytes = Some l →
  a <= b <= Z.of_nat (length bytes) ∧ slice (Z.to_nat a) (Z.to_nat b) bytes = Some l.
Proof.
  unfold get. intros Ha. destruct (Z.leb_spec a b), (Z.leb_spec b (Z.of_nat (length bytes))); cbn; try done.
Qed.

Lemma is_bytes_slice a b bytes l : is_bytes bytes → slice a b bytes = Some l → is_bytes l.
Proof. intros Hb [_ ->]%slice_Some. by apply Forall_take, Forall_drop. Qed.

Lemma field_bound n bytes x v : is_bytes bytes → 0 <= x → field n bytes x = Ok v → 0 <= v.
Proof.
  unfold field. intros Hb Hx. destruct (get _ _ bytes) as [l|] eqn:E; cbn; [|done]. intros [= <-].
  apply get_Some in E as [_ E]; [|done]. apply (is_bytes_slice _ _ _ _ Hb), le_value_bound in E. apply E.
Qed.

Lemma checked_add_Some x y z : checked_add x y = Some z ↔ z = x + y ∧ x + y < 2 ^ 64.
Proof. unfold checked_add. destruct (Z.ltb_spec (x + y) (2 ^ 64)); naive_solver lia. Qed.

Lemma parse_header_ok bytes header s :
  is_bytes bytes → 0 <= header → parse_header bytes header = Ok (Some s) → segment_ok bytes s.
Proof.
  intros Hb Hh. unfold parse_header.
  assert (Hw : ∀ k, 0 <= wrap 64 (header + k)) by (intros; by apply wrap_uint).
  intros (kind & _ & H)%bind_Ok. destruct (negb (kind =? PT_LOAD)); [done|].
  apply bind_Ok in H as (flags & _ & H). apply bind_Ok in H as (offset & Ho%field_bound & H); [|done|apply Hw].
  apply bind_Ok in H as (addr & Ha & H). apply bind_Ok in H as (fsz & Hf%field_bound & H); [|done|apply Hw].
  apply bind_Ok in H as (sz & Hs & H).
  destruct (Z.eqb_spec (addr mod PAGE_SIZE) 0) as [Hal|]; cbn [negb] in H; [|done].
  apply bind_Ok in H as (e & [-> He]%ok_or_Ok%checked_add_Some & H).
  destruct (Z.ltb_spec addr USER_BASE) as [|Hlo]; cbn [orb] in H; [done|].
  destruct (Z.ltb_spec PROGRAM_END (addr + sz)) as [|Hhi]; [done|].
  destruct (Z.ltb_spec sz fsz) as [|Hsz]; [done|].
  apply bind_Ok in H as (d & (de & [-> Hde]%checked_add_Some & Hd)%ok_or_Ok%bind_Some & H).
  apply bind_Ok in H as (acc & _ & [= H]). destruct (Z.ltb_spec 0 sz) as [Hpos|]; [|done]. injection H as <-.
  apply get_Some in Hd as [Hle Hd]; [|done]. pose proof (slice_length _ _ _ _ Hd) as Hlen.
  split; cbn [address size data]; try done; [lia|].
  exists (Z.to_nat offset). rewrite Hlen. replace (Z.to_nat offset + _)%nat with (Z.to_nat (offset + fsz)) by lia. done.
Qed.

Lemma parse_headers_ok bytes table entry_size i n l :
  is_bytes bytes → 0 <= table → 0 <= entry_size → 0 <= i →
  parse_headers bytes table entry_size i n = Ok l → Forall (segment_ok bytes) l.
Proof.
  intros Hb Ht He. revert i l. induction n as [|n IH]; intros i l Hi; cbn.
  { intros [= <-]. constructor. }
  intros (h & [-> Hh]%ok_or_Ok%checked_add_Some & (s & Hs & (rest & Hr & [= <-])%bind_Ok)%bind_Ok)%bind_Ok.
  apply Forall_app. split; [|apply (IH (i + 1)); [lia|done]].
  destruct s as [s|]; [|constructor]. apply Forall_singleton.
  apply (parse_header_ok bytes (table + i * entry_size)); [done|nia|done].
Qed.

Lemma insert_perm s l : insert_by_address s l ≡ₚ s :: l.
Proof.
  induction l as [|s' l IH]; cbn; [done|]. destruct (_ <=? _); [done|]. rewrite IH. constructor.
Qed.

Lemma sort_perm l : sort_by_address l ≡ₚ l.
Proof. induction l as [|s l IH]; cbn; [done|]. by rewrite insert_perm, IH. Qed.

Lemma end_small bytes s : segment_ok bytes s → end_ s = address s + size s.
Proof.
  intros Hs. unfold end_. pose proof (seg_low _ _ Hs). pose proof (seg_high _ _ Hs). pose proof (seg_size _ _ Hs).
  apply wrap_small. unfold uint, PROGRAM_END, STACK_TOP, STACK_SIZE, USER_BASE, USER_END, PAGE_SIZE in *. lia.
Qed.

Lemma overlapping_apart bytes l : Forall (segment_ok bytes) l → overlapping l = false → apart l.
Proof.
  induction 1 as [|s l Hs Hl IH]; [done|]. destruct l as [|s' l]; [done|].
  cbn [overlapping apart]. intros [Ho Hr]%orb_false_iff. apply Z.ltb_ge in Ho.
  rewrite (end_small bytes s Hs) in Ho. split; [done|by apply IH].
Qed.

(** What [parse] promises of the program it returns. *)
Record program_ok (bytes : list Z) (p : Program) : Prop := {
  prog_segments : Forall (segment_ok bytes) (segments p);
  prog_apart : apart (segments p);
  prog_entry : ∃ s, s ∈ segments p ∧ access s = ReadExecute ∧ address s <= entry_point p < address s + size s;
}.

Lemma parse_ok bytes p : is_bytes bytes → parse bytes = Ok p → program_ok bytes p.
Proof.
  intros Hb. unfold parse. destruct (bool_decide (length bytes < _)%nat); [done|]. destruct (negb _); [done|].
  intros (mok & _ & H)%bind_Ok. destruct (negb mok); [done|].
  apply bind_Ok in H as (type & _ & H). destruct (negb _); [done|].
  apply bind_Ok in H as (entry & _ & H). apply bind_Ok in H as (table & Ht%field_bound & H); [|done..].
  apply bind_Ok in H as (esz & He%field_bound & H); [|done..]. apply bind_Ok in H as (count & _ & H).
  destruct (_ && _)%bool; [done|]. apply bind_Ok in H as (segs & Hs & H).
  apply parse_headers_ok in Hs; [|done..]. rewrite <-(sort_perm segs) in Hs.
  destruct segs as [|s0 segs]; [done|]. set (l := sort_by_address _) in *.
  destruct (overlapping l) eqn:Ho; [done|]. destruct (existsb _ _) eqn:Hx; cbn [negb] in H; [|done]. injection H as <-.
  split; cbn [segments entry_point]; [done|by apply (overlapping_apart bytes)|].
  apply existsb_exists in Hx as (s & Hin%list_elem_of_In & Hr). exists s. split; [done|].
  pose proof (proj1 (Forall_forall _ _) Hs s Hin) as Hok. unfold runs_entry in Hr. rewrite (end_small bytes s Hok) in Hr.
  apply andb_true_iff in Hr as [[Hacc%bool_decide_eq_true Hlo%Z.leb_le]%andb_true_iff Hhi%Z.ltb_lt]. done.
Qed.

(** C15: a file [parse] accepts is safe to run: every segment is page aligned, inside the
    program area (so below the stack and its guard page), at least as big in memory as in
    the file, and its data lies in the file; the segments are in address order and no two
    share a page; and the entry point is inside an executable (so not writable) segment. *)
Theorem parse_accepts_only_safe_programs bytes p :
  is_bytes bytes → parse bytes = Ok p →
  Forall (segment_ok bytes) (segments p) ∧ apart (segments p) ∧
  ∃ s, s ∈ segments p ∧ access s = ReadExecute ∧ address s <= entry_point p < address s + size s.
Proof. intros Hb Hp. by destruct (parse_ok bytes p Hb Hp). Qed.

(** * Loading *)
Section loading.
Context {Src : Type} `{FrameSource Src}.
Implicit Types (a : AddressSpace) (c : Machine (Src := Src)) (P : gmap Z (Z * Access)).

Definition zero_page (m : Mem) (f : Z) : Prop := ∀ x, f <= x < f + PAGE_SIZE → m x = 0.

(** The pages of [P] are still there, with the same contents. *)
Definition kept P (m : Mem) P' (m' : Mem) : Prop :=
  P ⊆ P' ∧ ∀ va f acc x, P !! va = Some (f, acc) → f <= x < f + PAGE_SIZE → m' x = m x.

Lemma kept_refl P m : kept P m P m.
Proof. done. Qed.

Lemma kept_trans P m P' m' P'' m'' : kept P m P' m' → kept P' m' P'' m'' → kept P m P'' m''.
Proof.
  intros [H1 H2] [H3 H4]. split; [by transitivity P'|]. intros va f acc x Hp Hx.
  rewrite (H4 va f acc x) by (try done; by eapply lookup_weaken). by apply (H2 va f acc).
Qed.

Lemma at_of_frame a c P va f acc x : Rep a c P → P !! va = Some (f, acc) → f <= x < f + PAGE_SIZE →
  at_ P (va + (x - f)) = Some (x, acc).
Proof.
  intros HR Hp Hx. destruct (rep_pages a c P HR va) as (Hw & Hal & _); [by rewrite Hp|].
  assert (Hat : at_ P va = Some (f, acc)).
  { apply at_Some. split; [done|]. exists f. unfold page. rewrite Hal, Z.sub_0_r, Z.add_0_r. done. }
  replace (Some (x, acc)) with (Some (f + (x - f), acc)) by (do 2 f_equal; lia).
  apply at_same_page; [done|]. rewrite Hal. lia.
Qed.

Lemma at_kept P P' x p acc : P ⊆ P' → at_ P x = Some (p, acc) → at_ P' x = Some (p, acc).
Proof.
  intros Hs (Hw & f & Hf & ->)%at_Some. apply at_Some. split; [done|]. exists f. split; [|done].
  by eapply lookup_weaken.
Qed.

(** Mapping pages that are free to map: they are all mapped, or memory ran out. *)
Lemma map_all_spec vas acc a c P :
  Rep a c P → NoDup vas → Forall (λ va, va mod PAGE_SIZE = 0 ∧ in_window va = true ∧ P !! va = None) vas →
  let '(a', c', r) := map_all vas acc a c in
  ∃ P', Rep a' c' P' ∧ kept P (mem c) P' (mem c') ∧
  match r with
  | Ok _ => (∀ va, va ∈ vas → ∃ f, P' !! va = Some (f, acc) ∧ zero_page (mem c') f) ∧
            (∀ va, va ∉ vas → P' !! va = P !! va)
  | Err e => e = OutOfMemory
  end.
Proof.
  revert a c P. induction vas as [|va vas IH]; intros a c P HR Hnd Hok; cbn [map_all].
  { exists P. split_and!; [done|apply kept_refl|intros va []%not_elem_of_nil|done]. }
  apply NoDup_cons in Hnd as [Hva Hnd]. apply Forall_cons in Hok as [(Hal & Hw & Hp) Hok].
  pose proof (map_spec va acc a c P HR) as Hm. destruct (map va acc a c) as [[a1 c1] r].
  destruct Hm as [[Hheld Hun] Hm].
  assert (Hkeep : ∀ va f acc x, P !! va = Some (f, acc) → f <= x < f + PAGE_SIZE → mem c1 x = mem c x).
  { intros va' f acc' x Hf Hx. destruct (frame_of a c P _ _ _ HR Hf) as (Hin & Hfok & Hnt).
    apply (Hun f); [by apply (rep_held a c P HR)|done..]. }
  destruct r as [u|e].
  - destruct Hm as (_ & _ & _ & f & Hfresh & HR1 & Hz).
    specialize (IH a1 c1 _ HR1 Hnd). destruct (map_all vas acc a1 c1) as [[a2 c2] r2].
    destruct IH as (P2 & HR2 & Hk2 & Hr2).
    { apply Forall_forall. intros va' Hin. destruct (proj1 (Forall_forall _ _) Hok va' Hin) as (? & ? & ?).
      split_and!; [done..|]. rewrite lookup_insert_ne; [done|]. by intros ->. }
    exists P2. split; [done|]. split.
    { apply kept_trans with (<[va := (f, acc)]> P) (mem c1); [|done]. split; [by apply insert_subseteq|done]. }
    destruct r2 as [u2|e2]; [|done]. destruct Hr2 as [Hin Hout]. split.
    + intros va' [->|Hv]%elem_of_cons; [|by apply Hin]. exists f. rewrite Hout, lookup_insert_eq by done.
      split; [done|]. intros x Hx. rewrite (proj2 Hk2 va f acc x) by (try done; apply lookup_insert_eq). by apply Hz.
    + intros va' [Hne Hv]%not_elem_of_cons. rewrite Hout by done. by apply lookup_insert_ne.
  - destruct Hm as [HR1 He]. exists P. split_and!; [done|by split|]. destruct e; try done.
    + by destruct He as [_ ?]; congruence.
    + destruct He as [? ?]. congruence.
Qed.

Lemma elem_of_pages_of start len va : 0 < len →
  va ∈ pages_of start len ↔ ∃ k, 0 <= k ∧ va = start + k * PAGE_SIZE ∧ va < start + len.
Proof.
  intros Hlen. unfold pages_of, PAGE_SIZE. rewrite list_elem_of_fmap. split.
  - intros (k & -> & Hk%elem_of_seq). exists (Z.of_nat k). split_and!; [lia|done|].
    Z.to_euclidean_division_equations. lia.
  - intros (k & Hk & -> & Hlt). exists (Z.to_nat k). split; [lia|]. apply elem_of_seq.
    Z.to_euclidean_division_equations. lia.
Qed.

Lemma NoDup_pages_of start len : NoDup (pages_of start len).
Proof. apply NoDup_fmap_2; [|apply NoDup_seq]. intros i j. unfold PAGE_SIZE. lia. Qed.

Lemma page_end_spec bytes s : segment_ok bytes s →
  address s + size s <= page_end s < address s + size s + PAGE_SIZE ∧ page_end s mod PAGE_SIZE = 0 ∧
  page_end s <= USER_END.
Proof.
  intros Hs. pose proof (seg_low _ _ Hs). pose proof (seg_high _ _ Hs). pose proof (seg_size _ _ Hs).
  unfold page_end. destruct (Frames.next_multiple_of_spec (address s + size s)) as [Hn1 Hn2];
    unfold PROGRAM_END, STACK_TOP, STACK_SIZE, USER_BASE, USER_END, PAGE_SIZE in *; lia.
Qed.

(** The pages of a segment: the page of every address up to [page_end]. *)
Lemma segment_pages bytes s x : segment_ok bytes s → address s <= x < page_end s →
  in_window x = true ∧ page x ∈ pages_of (address s) (size s).
Proof.
  intros Hs Hx. destruct (page_end_spec bytes s Hs) as (H1 & H2 & H3). pose proof (seg_low _ _ Hs) as Hlo.
  pose proof (seg_aligned _ _ Hs) as Hal. pose proof (seg_size _ _ Hs) as Hsz. split.
  { unfold in_window. rewrite (proj2 (Z.leb_le _ _)), (proj2 (Z.ltb_lt _ _)) by lia. done. }
  rewrite elem_of_pages_of by done. unfold page, PAGE_SIZE in *. clear Hlo H3.
  exists ((x - x mod 4096 - address s) / 4096). Z.to_euclidean_division_equations. lia.
Qed.

Lemma segment_pages_ok bytes s va : segment_ok bytes s → va ∈ pages_of (address s) (size s) →
  va mod PAGE_SIZE = 0 ∧ in_window va = true ∧ address s <= va < page_end s.
Proof.
  intros Hs. pose proof (seg_size _ _ Hs) as Hsz. pose proof (seg_aligned _ _ Hs) as Hal. pose proof (seg_low _ _ Hs) as Hlo.
  destruct (page_end_spec bytes s Hs) as (H1 & H2 & H3). rewrite elem_of_pages_of by done.
  intros (k & Hk & -> & Hlt). unfold PAGE_SIZE in *. split_and!; [by rewrite Z.mod_add| |lia|lia].
  unfold in_window. rewrite (proj2 (Z.leb_le _ _)), (proj2 (Z.ltb_lt _ _)) by lia. done.
Qed.

(** [s] is in place: every byte up to the end of its last page is mapped with its access, and
    holds its data, then zeros. *)
Definition placed P (m : Mem) (s : Segment) : Prop :=
  ∀ x, address s <= x < page_end s → ∃ p, at_ P x = Some (p, access s) ∧
    m p = default 0 (data s !! Z.to_nat (x - address s)).

Lemma placed_kept P m P' m' s : kept P m P' m' → placed P m s → placed P' m' s.
Proof.
  intros [Hs Hk] Hp x Hx. destruct (Hp x Hx) as (p & Hat & Hm). exists p. split; [by apply (at_kept P)|].
  rewrite <-Hm. apply at_Some in Hat as (_ & f & Hf & ->). apply (Hk (page x) f (access s)); [done|].
  unfold PAGE_SIZE. pose proof (Z.mod_pos_bound x 4096). lia.
Qed.

(** Filling a segment's fresh pages with its data always works. *)
Lemma load_data bytes s a c P :
  Rep a c P → segment_ok bytes s →
  (∀ va, va ∈ pages_of (address s) (size s) → ∃ f, P !! va = Some (f, access s) ∧ zero_page (mem c) f) →
  ∃ m, load (address s) (data s) a (mem c) = (m, Ok tt) ∧ Rep a (with_mem m c) P ∧ placed P m s ∧
    ∀ P0, P0 ⊆ P → (∀ va, is_Some (P0 !! va) → va < address s) → kept P0 (mem c) P m.
Proof.
  intros HR Hs Hpages. pose proof (seg_low _ _ Hs) as Hlo. pose proof (seg_aligned _ _ Hs) as Hal.
  pose proof (seg_data _ _ Hs) as Hdata. destruct (page_end_spec bytes s Hs) as (He1 & He2 & He3).
  assert (Hat : ∀ x, address s <= x < page_end s → ∃ f, P !! page x = Some (f, access s) ∧ zero_page (mem c) f ∧
                  at_ P x = Some (f + x mod PAGE_SIZE, access s)).
  { intros x Hx. destruct (segment_pages bytes s x Hs Hx) as [Hw Hin]. destruct (Hpages _ Hin) as (f & Hf & Hz).
    exists f. split_and!; [done..|]. apply at_Some. eauto. }
  assert (HR0 : Rep a (with_mem (mem c) c) P) by (by destruct c).
  pose proof (copy_pieces (length (data s)) a c P (address s) (data s) (λ _, true) 0 (mem c) HR0) as Hc.
  unfold load, for_each_piece. rewrite Nat2Z.id.
  destruct (pieces _ _ _ _ _ _ _ 0 (mem c)) as [m r].
  destruct Hc as (HR' & Hkeep & Hres); [unfold USER_BASE in *; lia|lia|lia|]. rewrite Z.add_0_r in *.
  destruct r as [[]|e].
  2: { destruct Hres as (x & Hx & Hno & _). destruct Hno. destruct (Hat x ltac:(lia)) as (f & _ & _ & Hx').
       unfold USER_END in *. split; [lia|eauto]. }
  exists m. split; [done|]. split; [done|]. split.
  - intros x Hx. destruct (Hat x Hx) as (f & Hf & Hz & Hx'). eexists. split; [done|].
    destruct (decide (x < address s + Z.of_nat (length (data s)))) as [Hlt|Hge].
    + destruct (Hres x ltac:(lia)) as (p & acc & Hp & _ & Hm). rewrite Hx' in Hp. injection Hp as <- <-. rewrite Hm.
      rewrite list_lookup_lookup_total_lt by lia. done.
    + rewrite lookup_ge_None_2 by lia. cbn. rewrite Hkeep.
      * apply Hz. unfold PAGE_SIZE. pose proof (Z.mod_pos_bound x 4096). lia.
      * intros x' acc' Hr Hat'. pose proof (at_inj a _ P _ _ _ _ _ HR Hx' Hat'). lia.
  - intros P0 Hsub Hlow. split; [done|]. intros va f acc x Hf Hx.
    assert (Hf' : P !! va = Some (f, acc)) by (by eapply lookup_weaken).
    pose proof (at_of_frame a c P va f acc x HR Hf' Hx) as Hxa.
    destruct (rep_pages a c P HR va) as (_ & Hval & _); [by rewrite Hf'|].
    specialize (Hlow va ltac:(by rewrite Hf)). apply Hkeep. intros x' acc' Hr Hat'.
    pose proof (at_inj a _ P _ _ _ _ _ HR Hxa Hat') as E. exfalso. clear Hkeep Hres.
    unfold PAGE_SIZE in *. Z.to_euclidean_division_equations. lia.
Qed.

Lemma load_segments_spec bytes l a c P :
  Rep a c P → Forall (segment_ok bytes) l → apart l →
  match l with [] => True | s :: _ => ∀ va, is_Some (P !! va) → va < address s end →
  let '(a', c', r) := load_segments l a c in
  match r with
  | Ok _ => ∃ P', Rep a' c' P' ∧ kept P (mem c) P' (mem c') ∧ (∀ s, s ∈ l → placed P' (mem c') s) ∧
              ∀ va, is_Some (P' !! va) → is_Some (P !! va) ∨ ∃ s, s ∈ l ∧ address s <= va < page_end s
  | Err e => e = Map OutOfMemory
  end.
Proof.
  revert a c P. induction l as [|s l IH]; intros a c P HR Hok Hap Hlow; cbn [load_segments].
  { exists P. split_and!; [done|apply kept_refl|intros s []%not_elem_of_nil|by left]. }
  apply Forall_cons in Hok as [Hs Hok]. destruct (page_end_spec bytes s Hs) as (He1 & He2 & He3).
  pose proof (seg_low _ _ Hs) as Hlo. pose proof (seg_size _ _ Hs) as Hsz.
  unfold map_range. assert (Hno : 2 ^ 64 <=? address s + size s = false) by (apply Z.leb_gt; unfold USER_END in *; lia).
  rewrite Hno. pose proof (map_all_spec (pages_of (address s) (size s)) (access s) a c P HR (NoDup_pages_of _ _)) as Hm.
  destruct (map_all _ _ a c) as [[a1 c1] r1]. destruct Hm as (P1 & HR1 & Hk1 & Hr1).
  { apply Forall_forall. intros va Hva. destruct (segment_pages_ok bytes s va Hs Hva) as (? & ? & ?).
    split_and!; [done..|]. apply eq_None_not_Some. intros Hp%Hlow. lia. }
  destruct r1 as [u|e]; [|by subst e]. destruct Hr1 as [Hin Hout].
  destruct (load_data bytes s a1 c1 P1 HR1 Hs Hin) as (m & -> & HR2 & Hplaced & Hkept).
  assert (Hk2 : kept P (mem c) P1 m).
  { apply kept_trans with P (mem c1); [split; [done|apply Hk1]|]. apply Hkept; [apply Hk1|done]. }
  assert (Hnew : ∀ va, is_Some (P1 !! va) → is_Some (P !! va) ∨ address s <= va < page_end s).
  { intros va Hva. destruct (decide (va ∈ pages_of (address s) (size s))) as [Hp|Hp].
    - right. by apply (segment_pages_ok bytes s va Hs).
    - left. by rewrite <-(Hout va Hp). }
  specialize (IH a1 (with_mem m c1) P1 HR2 Hok).
  destruct (load_segments l a1 (with_mem m c1)) as [[a2 c2] r2].
  assert (Hnext : match l with [] => True | s' :: _ => ∀ va, is_Some (P1 !! va) → va < address s' end).
  { destruct l as [|s' l]; [done|]. destruct Hap as [Hle _].
    intros va Hva. destruct (Hnew va Hva) as [Hp%Hlow|?]; lia. }
  specialize (IH ltac:(by destruct l; [|destruct Hap]) Hnext). destruct r2 as [u2|e2]; [|done].
  destruct IH as (P2 & HR3 & Hk3 & Hpl & Hall). exists P2. split_and!.
  - done.
  - by apply kept_trans with P1 m.
  - intros s' [->|Hs']%elem_of_cons; [|by apply Hpl]. by apply (placed_kept P1 m).
  - intros va [Hva|(s' & Hs' & Hva)]%Hall.
    + destruct (Hnew va Hva) as [?|?]; [by left|]. right. exists s. split; [by left|done].
    + right. exists s'. split; [by right|done].
Qed.

(** C34: loading a parsed program into an empty address space either puts every segment in
    place (its data at its address, zeros up to the end of its last page, mapped with its
    access), mapping nothing else, or fails because memory ran out: never because of the
    file. *)
Theorem load_places_every_segment bytes p a c :
  is_bytes bytes → parse bytes = Ok p → Rep a c ∅ →
  let '(a', c', r) := load_program p a c in
  match r with
  | Ok _ => ∃ P, Rep a' c' P ∧ (∀ s, s ∈ segments p → placed P (mem c') s) ∧
              ∀ va, is_Some (P !! va) → ∃ s, s ∈ segments p ∧ address s <= va < page_end s
  | Err e => e = Map OutOfMemory
  end.
Proof.
  intros Hb Hp HR. destruct (parse_ok bytes p Hb Hp) as [Hok Hap _]. unfold load_program.
  pose proof (load_segments_spec bytes (segments p) a c ∅ HR Hok Hap) as Hl.
  destruct (load_segments (segments p) a c) as [[a' c'] r].
  assert (Hlow : match segments p with [] => True | s :: _ => ∀ va, is_Some ((∅ : gmap Z (Z * Access)) !! va) → va < address s end).
  { destruct (segments p); [done|]. intros va. rewrite lookup_empty. by intros [? ?]. }
  specialize (Hl Hlow). destruct r as [u|e]; [|done]. destruct Hl as (P & HR' & _ & Hpl & Hall).
  exists P. split_and!; [done..|]. intros va Hva. destruct (Hall va Hva) as [Hn|?]; [|done].
  rewrite lookup_empty in Hn. by destruct Hn.
Qed.
End loading.

(** * Witnesses: a file with one executable segment of four bytes *)
Definition demo_elf : list Z :=
  MAGIC ++ [2; 1; 1; 0] ++ replicate 8 0 ++ le_bytes 2 2 ++ le_bytes 2 183 ++ le_bytes 4 1 ++
  le_bytes 8 USER_BASE ++ le_bytes 8 64 ++ le_bytes 8 0 ++ le_bytes 4 0 ++ le_bytes 2 64 ++
  le_bytes 2 56 ++ le_bytes 2 1 ++ replicate 6 0 ++
  le_bytes 4 1 ++ le_bytes 4 5 ++ le_bytes 8 120 ++ le_bytes 8 USER_BASE ++ le_bytes 8 0 ++
  le_bytes 8 4 ++ le_bytes 8 100 ++ le_bytes 8 4096 ++ [1; 2; 3; 4].

Definition demo_segment : Segment := mkSegment USER_BASE 100 [1; 2; 3; 4] ReadExecute.

Lemma demo_elf_bytes : is_bytes demo_elf.
Proof.
  unfold is_bytes. apply Forall_forall. intros b Hb.
  assert (Hall : forallb (λ b, (0 <=? b) && (b <? 256)) demo_elf = true) by (vm_compute; reflexivity).
  rewrite forallb_forall in Hall. specialize (Hall b (proj1 (list_elem_of_In _ _) Hb)).
  apply andb_true_iff in Hall as [H1%Z.leb_le H2%Z.ltb_lt]. unfold uint. lia.
Qed.

Lemma parse_accepts_only_safe_programs_witness :
  parse demo_elf = Ok (mkProgram USER_BASE [demo_segment]) ∧ segment_ok demo_elf demo_segment.
Proof.
  assert (Hp : parse demo_elf = Ok (mkProgram USER_BASE [demo_segment])) by (vm_compute; reflexivity).
  split; [exact Hp|]. destruct (parse_accepts_only_safe_programs _ _ demo_elf_bytes Hp) as (H & _ & _).
  by apply Forall_cons in H as [H _].
Defined.

Lemma load_places_every_segment_witness :
  ∃ P, let '(a, c, r) := load_program (mkProgram USER_BASE [demo_segment]) demo_empty.1 demo_empty.2 in
  r = Ok tt ∧ placed P (mem c) demo_segment.
Proof.
  assert (Hp : parse demo_elf = Ok (mkProgram USER_BASE [demo_segment])) by (vm_compute; reflexivity).
  pose proof (load_places_every_segment _ _ _ _ demo_elf_bytes Hp demo_empty_Rep) as H.
  assert (Hr : (load_program (mkProgram USER_BASE [demo_segment]) demo_empty.1 demo_empty.2).2 = Ok tt)
    by (vm_compute; reflexivity).
  destruct (load_program _ _ _) as [[a c] r]. cbn in Hr. subst r.
  destruct H as (P & _ & H & _). exists P. split; [reflexivity|]. apply H. by left.
Defined.
End Elf.
