(* ===== verification/Link.v ===== *)
(** The framed serial protocol spoken with the Arduino bridge ([rustypi-core/src/link.rs]).

    Text is bytes ([Bytes]); what a [fmt::Arguments] writes is the list of strings it passes to
    [write_str]. *)
From S2P Require Import Prelude Bytes.
Open Scope Z_scope.

Module Link.

Definition MAX_LINE : nat := 160.

Definition DOLLAR : Z := 0x24.
Definition CR : Z := 0x0D.
Definition LF : Z := 0x0A.
Definition STAR : Z := 0x2A.
Definition COMMA : Z := 0x2C.
Definition QUESTION : Z := 0x3F.

Record Stats := mkStats { rx_bytes : Z; rx_errors : Z; dropped : Z; bad_frames : Z; overflows : Z }.

(** Why a line is answered with an [ERR] frame: ["line too long"] or ["bad frame"]. *)
Inductive Reason := LineTooLong | BadFrame.

Inductive Event := Frame (kind payload : list Z) | Rejected (reason : Reason).

Record Receiver := mkReceiver { buf : list Z; len : nat; overflow : bool; stats : Stats }.

Definition new : Receiver := mkReceiver (replicate MAX_LINE 0) 0 false (mkStats 0 0 0 0 0).

(** [wrapping_add(1)] on a counter. *)
Definition bump (x : Z) : Z := wrap 32 (x + 1).

Definition with_stats (f : Stats → Stats) (r : Receiver) : Receiver :=
  mkReceiver (buf r) (len r) (overflow r) (f (stats r)).
Definition clear (r : Receiver) : Receiver := mkReceiver (buf r) 0 false (stats r).

Definition count_dropped (s : Stats) : Stats :=
  mkStats (rx_bytes s) (rx_errors s) (bump (dropped s)) (bad_frames s) (overflows s).
Definition count_byte (s : Stats) : Stats :=
  mkStats (bump (rx_bytes s)) (rx_errors s) (dropped s) (bad_frames s) (overflows s).
Definition count_error (s : Stats) : Stats :=
  mkStats (rx_bytes s) (bump (rx_errors s)) (dropped s) (bad_frames s) (overflows s).
Definition count_bad (s : Stats) : Stats :=
  mkStats (rx_bytes s) (rx_errors s) (dropped s) (bump (bad_frames s)) (overflows s).
Definition count_overflow (s : Stats) : Stats :=
  mkStats (rx_bytes s) (rx_errors s) (dropped s) (bad_frames s) (bump (overflows s)).

Definition store (byte : Z) (r : Receiver) : Receiver :=
  if bool_decide (len r < MAX_LINE)%nat
  then mkReceiver (<[len r := byte]> (buf r)) (len r + 1) (overflow r) (stats r)
  else mkReceiver (buf r) (len r) true (stats r).

Definition discard (r : Receiver) : Receiver :=
  clear (if bool_decide (0 < len r)%nat || overflow r then with_stats count_dropped r else r).

Definition checksum (bytes : list Z) : Z := foldl Z.lxor 0 bytes.

Definition nibble (c : Z) : option Z :=
  if between 0x30 0x39 c then Some (c - 0x30)
  else if between 0x41 0x46 c then Some (c - 0x41 + 10)
  else if between 0x61 0x66 c then Some (c - 0x61 + 10)
  else None.

Definition hex_byte (hi lo : Z) : option Z :=
  h ← nibble hi; l ← nibble lo; Some (Z.lor (Z.shiftl h 4) l).

(** Indices are in range once the length has been checked. *)
Definition parse (line : list Z) : option (list Z * list Z) :=
  let n := length line in
  if bool_decide (n < 4)%nat || negb (line !!! 0%nat =? DOLLAR) || negb (line !!! (n - 3)%nat =? STAR) then None else
  let body := take (n - 4) (drop 1 line) in
  expected ← hex_byte (line !!! (n - 2)%nat) (line !!! (n - 1)%nat);
  if negb (checksum body =? expected) then None else
  if negb (is_utf8 body) then None else
  Some (default (body, []) (split_once COMMA body)).

Definition dispatch (r : Receiver) : Receiver * list Event :=
  let line := take (len r) (buf r) in
  if negb (line !!! 0%nat =? DOLLAR) then (with_stats count_dropped r, []) else
  match parse line with
  | Some (kind, payload) => (r, [Frame kind payload])
  | None => (with_stats count_bad r, [Rejected BadFrame])
  end.

(** The receiver and the events [on_event] is called with, for one byte; [Err] is a byte the
    UART flagged. *)
Definition push (received : result Z Z) (r : Receiver) : Receiver * list Event :=
  let r := with_stats count_byte r in
  match received with
  | Err _ => (discard (with_stats count_error r), [])
  | Ok byte =>
      if byte =? CR then (r, [])
      else if byte =? LF then
        let '(r, events) :=
          if overflow r then (with_stats count_overflow r, [Rejected LineTooLong])
          else if bool_decide (0 < len r)%nat then dispatch r
          else (r, []) in
        (clear r, events)
      else if byte =? DOLLAR then (store byte (discard r), [])
      else (store byte r, [])
  end.

(** A whole stretch of input. *)
Fixpoint receive (input : list (result Z Z)) (r : Receiver) : Receiver * list Event :=
  match input with
  | [] => (r, [])
  | b :: input =>
      let '(r, events) := push b r in
      let '(r, more) := receive input r in
      (r, events ++ more)
  end.

(** * Sending *)
Definition FRAME_BREAKING (b : Z) : bool := (b =? DOLLAR) || (b =? CR) || (b =? LF).

Definition HEX : list Z :=
  [0x30; 0x31; 0x32; 0x33; 0x34; 0x35; 0x36; 0x37; 0x38; 0x39; 0x41; 0x42; 0x43; 0x44; 0x45; 0x46].

Record FrameWriter := mkFrameWriter { out : list Z; sum : Z; has_payload : bool }.

(** The loop over the pieces of a string. *)
Fixpoint write_pieces (pieces : list (list Z)) (w : FrameWriter) : FrameWriter :=
  match pieces with
  | [] => w
  | piece :: pieces =>
      let '(text, replaced) := match strip_suffix FRAME_BREAKING piece with
                               | Some text => (text, true)
                               | None => (piece, false)
                               end in
      let w := mkFrameWriter (out w ++ text) (Z.lxor (sum w) (checksum text)) (has_payload w) in
      let w := if replaced
               then mkFrameWriter (out w ++ [QUESTION]) (Z.lxor (sum w) QUESTION) (has_payload w)
               else w in
      write_pieces pieces w
  end.

Definition write_str (s : list Z) (w : FrameWriter) : FrameWriter :=
  match s with
  | [] => w
  | _ =>
      let w := if has_payload w then w
               else mkFrameWriter (out w ++ [COMMA]) (Z.lxor (sum w) COMMA) true in
      write_pieces (split_inclusive FRAME_BREAKING s) w
  end.

(** The bytes of one frame. *)
Definition write_frame (kind : list Z) (payload : list (list Z)) : list Z :=
  let w := mkFrameWriter ([DOLLAR] ++ kind) (checksum kind) false in
  let w := foldl (λ w s, write_str s w) w payload in
  out w ++ [STAR; HEX !!! Z.to_nat (Z.shiftr (sum w) 4); HEX !!! Z.to_nat (Z.land (sum w) 0xF); LF].

(** * Facts *)

(** What a frame carries of a text. *)
Definition sanitize (b : Z) : Z := if FRAME_BREAKING b then QUESTION else b.

Lemma checksum_app l r : checksum (l ++ r) = Z.lxor (checksum l) (checksum r).
Proof.
  unfold checksum. rewrite foldl_app. generalize (foldl Z.lxor 0 l). clear l. intros x.
  revert x. induction r as [|b r IH]; intros x; cbn [foldl]; [by rewrite Z.lxor_0_r|].
  rewrite IH, (IH (Z.lxor 0 b)), Z.lxor_0_l. by rewrite Z.lxor_assoc.
Qed.

Lemma checksum_cons b l : checksum (b :: l) = Z.lxor b (checksum l).
Proof. change (b :: l) with ([b] ++ l). by rewrite checksum_app. Qed.

Lemma checksum_uint l : is_bytes l → uint 8 (checksum l).
Proof.
  induction 1 as [|b l Hb _ IH]; [by vm_compute|]. rewrite checksum_cons.
  apply uint_bits; [lia| |].
  - apply Z.lxor_nonneg. split; intros _; [apply IH|apply Hb].
  - intros i Hi. by rewrite Z.lxor_spec, !(testbit_high 8) by (done || lia).
Qed.

Lemma hex_byte_HEX x : uint 8 x →
  hex_byte (HEX !!! Z.to_nat (Z.shiftr x 4)) (HEX !!! Z.to_nat (Z.land x 0xF)) = Some x.
Proof.
  intros [H0 H1]. assert (Hall : forallb (λ n, bool_decide (hex_byte (HEX !!! Z.to_nat (Z.shiftr (Z.of_nat n) 4))
    (HEX !!! Z.to_nat (Z.land (Z.of_nat n) 0xF)) = Some (Z.of_nat n))) (seq 0 256) = true) by (vm_compute; reflexivity).
  rewrite forallb_forall in Hall. specialize (Hall (Z.to_nat x)). rewrite Z2Nat.id in Hall by done.
  eapply bool_decide_eq_true_1, Hall, in_seq. change (2 ^ 8) with 256 in H1. lia.
Qed.

(** One piece of text, as it goes out. *)
Lemma write_pieces_spec pieces w :
  let text := concat (replace_end FRAME_BREAKING QUESTION <$> pieces) in
  write_pieces pieces w = mkFrameWriter (out w ++ text) (Z.lxor (sum w) (checksum text)) (has_payload w).
Proof.
  cbv zeta. revert w. induction pieces as [|piece pieces IH]; intros w; cbn [write_pieces].
  { cbn. rewrite app_nil_r, Z.lxor_0_r. by destruct w. }
  rewrite fmap_cons, concat_cons. unfold replace_end at 1 3.
  destruct (strip_suffix FRAME_BREAKING piece) as [text|]; rewrite IH; cbn [out sum has_payload];
    rewrite ?checksum_app, <-?app_assoc, ?Z.lxor_assoc; done.
Qed.

Lemma write_str_spec s w :
  write_str s w = match s with
                  | [] => w
                  | _ => let text := (if has_payload w then [] else [COMMA]) ++ (sanitize <$> s) in
                         mkFrameWriter (out w ++ text) (Z.lxor (sum w) (checksum text)) true
                  end.
Proof.
  destruct s as [|b s]; [done|]. unfold write_str. rewrite write_pieces_spec. cbv zeta.
  rewrite split_inclusive_replace. fold sanitize.
  destruct w as [o x [|]]; cbn [has_payload out sum app]; [done|].
  rewrite <-app_assoc, (checksum_cons COMMA), Z.lxor_assoc. done.
Qed.

(** The text after the kind: nothing, or a comma and the payload. *)
Definition tail (payload : list Z) : list Z :=
  match payload with [] => [] | _ => COMMA :: (sanitize <$> payload) end.

Lemma write_frame_spec kind payload :
  let body := kind ++ tail (concat payload) in
  write_frame kind payload =
  [DOLLAR] ++ body ++ [STAR; HEX !!! Z.to_nat (Z.shiftr (checksum body) 4);
                       HEX !!! Z.to_nat (Z.land (checksum body) 0xF); LF].
Proof.
  cbv zeta. unfold write_frame.
  assert (Hw : ∀ w, foldl (λ w s, write_str s w) w payload =
    match concat payload with
    | [] => w
    | s => let text := (if has_payload w then [] else [COMMA]) ++ (sanitize <$> s) in
           mkFrameWriter (out w ++ text) (Z.lxor (sum w) (checksum text)) true
    end).
  { induction payload as [|s payload IH]; intros w; [done|]. cbn [foldl]. rewrite IH, write_str_spec.
    rewrite concat_cons. destruct s as [|b s]; [done|].
    destruct (concat payload) as [|b' s'] eqn:E; cbv zeta; cbn [has_payload out sum app].
    - by rewrite app_nil_r.
    - change (b :: s ++ b' :: s') with ((b :: s) ++ (b' :: s')).
      rewrite fmap_app, !checksum_app, !Z.lxor_assoc, <-!app_assoc. done. }
  rewrite Hw. destruct (concat payload) as [|b s]; cbn [has_payload out sum tail].
  - by rewrite app_nil_r.
  - rewrite (checksum_app kind). cbn [app]. rewrite <-!app_assoc. done.
Qed.

(** * The receiver *)

(** What the buffer holds; it never runs past its end. *)
Definition wf (r : Receiver) : Prop := length (buf r) = MAX_LINE ∧ (len r ≤ MAX_LINE)%nat.
Definition line (r : Receiver) : list Z := take (len r) (buf r).

Lemma wf_new : wf new.
Proof. split; [done|]. cbn. lia. Qed.

Lemma wf_clear r : wf r → wf (clear r).
Proof. intros [H1 H2]. split; [done|]. cbn. lia. Qed.

Lemma wf_with_stats f r : wf r → wf (with_stats f r).
Proof. done. Qed.

Lemma wf_store b r : wf r → wf (store b r).
Proof.
  intros [H1 H2]. unfold store. case_bool_decide; [|done]. split; cbn; [by rewrite length_insert|lia].
Qed.

Lemma wf_discard r : wf r → wf (discard r).
Proof. intros H. unfold discard. destruct (_ || _)%bool; by apply wf_clear. Qed.

Lemma wf_dispatch r : wf r → wf (dispatch r).1.
Proof. intros H. unfold dispatch. destruct (negb _); [done|]. by destruct (parse _) as [[? ?]|]. Qed.

Lemma wf_push b r : wf r → wf (push b r).1.
Proof.
  intros H. unfold push. destruct b as [b|b]; [|by apply wf_discard].
  destruct (b =? CR); [done|]. destruct (b =? LF).
  - cbn [overflow with_stats len]. destruct (overflow r); [by apply wf_clear|].
    destruct (bool_decide _); [|by apply wf_clear].
    pose proof (wf_dispatch (with_stats count_byte r) H) as Hd.
    destruct (dispatch _) as [r' ev]. by apply wf_clear.
  - destruct (b =? DOLLAR); [|by apply wf_store]. by apply wf_store, wf_discard.
Qed.

Lemma line_store b r : wf r → (len r < MAX_LINE)%nat → line (store b r) = line r ++ [b] ∧
  len (store b r) = (len r + 1)%nat ∧ overflow (store b r) = overflow r.
Proof.
  intros [H1 H2] Hl. unfold store, line. rewrite bool_decide_eq_true_2 by done. cbn. split; [|done].
  rewrite Nat.add_1_r. rewrite (take_S_r _ _ b) by (rewrite list_lookup_insert_eq; [done|lia]).
  by rewrite take_insert_ge.
Qed.

(** A byte that goes into the line. *)
Definition plain (b : Z) : Prop := b ≠ CR ∧ b ≠ LF ∧ b ≠ DOLLAR.

Lemma receive_app i1 i2 r :
  receive (i1 ++ i2) r = let '(r1, e1) := receive i1 r in let '(r2, e2) := receive i2 r1 in (r2, e1 ++ e2).
Proof.
  revert r. induction i1 as [|b i1 IH]; intros r; cbn [receive app].
  - by destruct (receive i2 r).
  - destruct (push b r) as [r1 e1]. rewrite IH. destruct (receive i1 r1) as [r2 e2].
    destruct (receive i2 r2) as [r3 e3]. by rewrite app_assoc.
Qed.

Lemma receive_plain text r : wf r → Forall plain text → (len r + length text ≤ MAX_LINE)%nat →
  let '(r', ev) := receive (Ok <$> text) r in
  ev = [] ∧ wf r' ∧ line r' = line r ++ text ∧ len r' = (len r + length text)%nat ∧ overflow r' = overflow r.
Proof.
  revert r. induction text as [|b text IH]; intros r Hr Ht Hl; cbn [fmap list_fmap receive].
  { rewrite app_nil_r, Nat.add_0_r. done. }
  apply Forall_cons in Ht as [(H1 & H2 & H3) Ht]. cbn [length] in Hl.
  unfold push. rewrite !(proj2 (Z.eqb_neq _ _)) by done.
  set (r1 := with_stats count_byte r). assert (Hr1 : wf r1) by done.
  destruct (line_store b r1 Hr1) as (Hs1 & Hs2 & Hs3); [cbn; lia|].
  specialize (IH (store b r1) (wf_store b r1 Hr1) Ht). fold (fmap (M := list) (A := Z) (B := result Z Z) Ok text).
  destruct (receive (Ok <$> text) (store b r1)) as [r' ev].
  destruct IH as (-> & Hw & Hln & Hlen & Hov); [rewrite Hs2; cbn; lia|]. split_and!; [done|done| | |].
  - rewrite Hln, Hs1, <-app_assoc. done.
  - rewrite Hlen, Hs2. cbn. lia.
  - by rewrite Hov, Hs3.
Qed.

(** From any state, [$] starts a new line. *)
Lemma push_dollar r : wf r →
  let '(r', ev) := push (Ok DOLLAR) r in ev = [] ∧ wf r' ∧ line r' = [DOLLAR] ∧ len r' = 1%nat ∧ overflow r' = false.
Proof.
  intros Hr. unfold push. cbn [Z.eqb DOLLAR CR LF Pos.eqb]. set (r1 := discard (with_stats count_byte r)).
  assert (Hr1 : wf r1) by (by apply wf_discard). assert (Hl1 : len r1 = 0%nat ∧ overflow r1 = false) by done.
  destruct Hl1 as [Hl1 Ho1]. destruct (line_store DOLLAR r1 Hr1) as (Hs1 & Hs2 & Hs3); [rewrite Hl1; cbv; lia|].
  split_and!; [done|by apply wf_store| |by rewrite Hs2, Hl1|by rewrite Hs3].
  rewrite Hs1. unfold line. by rewrite Hl1.
Qed.

Lemma push_newline r : (0 < len r)%nat → overflow r = false → line r !!! 0%nat = DOLLAR →
  (push (Ok LF) r).2 = match parse (line r) with Some (k, p) => [Frame k p] | None => [Rejected BadFrame] end ∧
  len (push (Ok LF) r).1 = 0%nat ∧ overflow (push (Ok LF) r).1 = false.
Proof.
  intros Hl Ho Hd. unfold push. cbn [Z.eqb LF CR Pos.eqb with_stats overflow len]. rewrite Ho, bool_decide_eq_true_2 by done.
  unfold dispatch. cbn [with_stats len buf]. fold (line r). rewrite Hd. cbn [DOLLAR Z.eqb Pos.eqb negb].
  by destruct (parse (line r)) as [[k p]|].
Qed.

(** A line made of [$], a body and its checksum parses to the body's two halves. *)
Lemma parse_frame body hi lo : hex_byte hi lo = Some (checksum body) → is_utf8 body = true →
  parse ([DOLLAR] ++ body ++ [STAR; hi; lo]) = Some (default (body, []) (split_once COMMA body)).
Proof.
  intros Hh Hu. unfold parse. set (l := [DOLLAR] ++ body ++ [STAR; hi; lo]).
  assert (Hlen : length l = (length body + 4)%nat) by (subst l; rewrite !length_app; cbn; lia).
  assert (Hat : ∀ k, (k < 3)%nat → l !!! (length l - 3 + k)%nat = [STAR; hi; lo] !!! k).
  { intros k Hk. subst l. rewrite Hlen. rewrite app_assoc, lookup_total_app_r by (rewrite !length_app; cbn; lia).
    f_equal. rewrite !length_app. cbn. lia. }
  rewrite bool_decide_eq_false_2 by lia. pose proof (Hat 0%nat ltac:(lia)) as H0. rewrite Nat.add_0_r in H0.
  pose proof (Hat 1%nat ltac:(lia)) as H1. replace (length l - 3 + 1)%nat with (length l - 2)%nat in H1 by lia.
  pose proof (Hat 2%nat ltac:(lia)) as H2. replace (length l - 3 + 2)%nat with (length l - 1)%nat in H2 by lia.
  rewrite H0, H1, H2, Hlen. change ([STAR; hi; lo] !!! 0%nat) with STAR. change ([STAR; hi; lo] !!! 1%nat) with hi.
  change ([STAR; hi; lo] !!! 2%nat) with lo. change (l !!! 0%nat) with DOLLAR. rewrite !Z.eqb_refl. cbn [negb orb].
  assert (Hb : take (length body + 4 - 4) (drop 1 l) = body).
  { change (drop 1 l) with (body ++ [STAR; hi; lo]).
    replace (length body + 4 - 4)%nat with (length body) by lia. by rewrite take_app_length. }
  rewrite Hb, Hh. cbn [mbind option_bind]. rewrite Z.eqb_refl, Hu. done.
Qed.

Lemma sanitize_ascii : ascii_map sanitize.
Proof.
  intros b. unfold sanitize, FRAME_BREAKING. destruct (Z.eqb_spec b DOLLAR) as [->|]; [right; cbv; done|].
  destruct (Z.eqb_spec b CR) as [->|]; [right; cbv; done|].
  destruct (Z.eqb_spec b LF) as [->|]; [right; cbv; done|]. by left.
Qed.

Lemma sanitize_plain b : plain (sanitize b).
Proof.
  unfold sanitize, FRAME_BREAKING, plain. destruct (Z.eqb_spec b DOLLAR), (Z.eqb_spec b CR), (Z.eqb_spec b LF); done.
Qed.

Lemma HEX_plain i : plain (HEX !!! i).
Proof. do 16 (destruct i as [|i]; [done|]). unfold plain. rewrite list_lookup_total_alt, lookup_ge_None_2 by (cbn; lia). done. Qed.

Lemma is_utf8_concat l : Forall (λ s, is_utf8 s = true) l → is_utf8 (concat l) = true.
Proof. induction 1; [done|]. rewrite concat_cons. by apply is_utf8_app. Qed.

(** The texts [write_frame] is called with: a kind without separators, and payload strings. *)
Record sendable (kind : list Z) (payload : list (list Z)) : Prop := {
  send_utf8 : is_utf8 kind = true;
  send_plain : Forall plain kind;
  send_comma : COMMA ∉ kind;
  send_payload : Forall (λ s, is_utf8 s = true) payload;
  send_bytes : is_bytes (kind ++ concat payload);
  send_fits : (length kind + length (tail (concat payload)) + 4 ≤ MAX_LINE)%nat;
}.

Lemma body_facts kind payload : sendable kind payload →
  let body := kind ++ tail (concat payload) in
  is_utf8 body = true ∧ Forall plain body ∧ is_bytes body ∧
  default (body, []) (split_once COMMA body) = (kind, sanitize <$> concat payload).
Proof.
  intros [Hu Hp Hc Hpl Hb Hf]. cbv zeta. apply is_utf8_concat in Hpl. apply Forall_app in Hb as [Hb1 Hb2].
  destruct (concat payload) as [|b s] eqn:E; cbn [tail].
  { rewrite app_nil_r, split_once_None by done. done. }
  split_and!.
  - apply is_utf8_app; [done|]. change (COMMA :: (sanitize <$> b :: s)) with ([COMMA] ++ (sanitize <$> b :: s)).
    apply is_utf8_app; [done|]. by rewrite is_utf8_map by apply sanitize_ascii.
  - apply Forall_app. split; [done|]. constructor; [done|]. apply Forall_fmap, Forall_true, sanitize_plain.
  - apply Forall_app. split; [done|]. constructor; [by vm_compute|]. apply Forall_fmap.
    eapply Forall_impl; [exact Hb2|]. intros x Hx. cbn. destruct (sanitize_ascii x) as [->|[_ ?]]; [done|].
    unfold uint. change (2 ^ 8) with 256. lia.
  - by rewrite split_once_app.
Qed.

(** C35: a frame arrives whatever came before it.  From any state of the receiver, the bytes of
    a frame that fits a line produce exactly one event, the frame, with its kind and its
    payload (the characters that would break the framing as [?]), and leave the receiver
    ready for the next line. *)
Theorem frame_survives_the_link kind payload r :
  sendable kind payload → wf r →
  let '(r', events) := receive (Ok <$> write_frame kind payload) r in
  events = [Frame kind (sanitize <$> concat payload)] ∧ wf r' ∧ len r' = 0%nat ∧ overflow r' = false.
Proof.
  intros Hs Hr. destruct (body_facts kind payload Hs) as (Hu & Hp & Hb & Hsplit). cbv zeta in *.
  rewrite write_frame_spec. cbv zeta. set (body := kind ++ tail (concat payload)) in *.
  set (hi := HEX !!! _). set (lo := HEX !!! Z.to_nat (Z.land _ _)).
  replace ([DOLLAR] ++ body ++ [STAR; hi; lo; LF]) with ([DOLLAR] ++ (body ++ [STAR; hi; lo]) ++ [LF])
    by (by rewrite <-app_assoc).
  rewrite fmap_app. change (Ok <$> [DOLLAR]) with [Ok (E := Z) DOLLAR]. rewrite receive_app.
  rewrite (fmap_app _ _ [LF]). change (Ok <$> [LF]) with [Ok (E := Z) LF]. cbn [receive].
  pose proof (push_dollar r Hr) as H1.
  destruct (push (Ok DOLLAR) r) as [r1 e1]. destruct H1 as (-> & Hw1 & Hl1 & Hn1 & Ho1).
  assert (Hplain : Forall plain (body ++ [STAR; hi; lo])).
  { apply Forall_app. split; [done|]. repeat constructor; try done; apply HEX_plain. }
  assert (Hlen : (len r1 + length (body ++ [STAR; hi; lo]) ≤ MAX_LINE)%nat).
  { pose proof (send_fits _ _ Hs). rewrite Hn1. subst body. rewrite !length_app in *. cbn [length] in *. lia. }
  pose proof (receive_plain _ r1 Hw1 Hplain Hlen) as H2. cbn [app].
  rewrite receive_app.
  destruct (receive (Ok <$> body ++ [STAR; hi; lo]) r1) as [r2 e2]. destruct H2 as (-> & Hw2 & Hl2 & Hn2 & Ho2).
  assert (Hline : line r2 = [DOLLAR] ++ body ++ [STAR; hi; lo]) by (by rewrite Hl2, Hl1).
  destruct (push_newline r2) as (He & Hl3 & Ho3); [lia|by rewrite Ho2|by rewrite Hline|].
  pose proof (wf_push (Ok LF) r2 Hw2) as Hw3. cbn [receive]. destruct (push (Ok LF) r2) as [r3 e3]. cbn [fst snd] in *.
  rewrite Hline, parse_frame in He; [|apply hex_byte_HEX, checksum_uint, Hb|done]. rewrite Hsplit in He. subst e3.
  done.
Qed.

(** A receiver in the middle of a damaged line; ["LED"] and [["o$"; "n"]]. *)
Lemma frame_survives_the_link_witness :
  (receive (Ok <$> write_frame [0x4C; 0x45; 0x44] [[0x6F; 0x24]; [0x6E]])
     (receive [Ok 0x24; Ok 0x41; Ok 0x42] new).1).2 = [Frame [0x4C; 0x45; 0x44] [0x6F; 0x3F; 0x6E]].
Proof.
  pose proof (frame_survives_the_link [0x4C; 0x45; 0x44] [[0x6F; 0x24]; [0x6E]]
    (receive [Ok 0x24; Ok 0x41; Ok 0x42] new).1) as H.
  destruct (receive (Ok <$> _) _) as [r e]. apply H.
  - split; [reflexivity| | | | |].
    + repeat constructor; done.
    + rewrite !not_elem_of_cons. split_and!; [done..|apply not_elem_of_nil].
    + repeat constructor; reflexivity.
    + repeat constructor; unfold uint; cbn; lia.
    + cbv. lia.
  - split; vm_compute; [reflexivity|lia].
Defined.

Lemma checksum_one l1 x y l2 : checksum (l1 ++ x :: l2) = checksum (l1 ++ y :: l2) → x = y.
Proof.
  rewrite !checksum_app, !checksum_cons. intros H%(f_equal (Z.lxor (checksum l1))).
  rewrite <-!Z.lxor_assoc, Z.lxor_nilpotent, !Z.lxor_0_l in H.
  apply (f_equal (λ z, Z.lxor z (checksum l2))) in H. by rewrite !Z.lxor_assoc, Z.lxor_nilpotent, !Z.lxor_0_r in H.
Qed.

(** One damaged byte in the body of a frame is always noticed: change any byte between
    the [$] and the [*] of a line that parses, and it no longer does. *)
Theorem one_damaged_byte_is_rejected line i b :
  is_Some (parse line) → (1 ≤ i < length line - 3)%nat → b ≠ line !!! i → parse (<[i := b]> line) = None.
Proof.
  intros [[k p] Hp] Hi Hb. unfold parse in *. rewrite length_insert.
  destruct (bool_decide (length line < 4)%nat) eqn:El; [done|]. apply bool_decide_eq_false in El. cbn [orb] in *.
  rewrite !list_lookup_total_insert_ne by lia. destruct (_ || _)%bool; [done|].
  destruct (hex_byte _ _) as [e|]; cbn [mbind option_bind] in *; [|done].
  rewrite drop_insert_ge, take_insert_lt by lia. set (body := take (length line - 4) (drop 1 line)) in *.
  destruct (Z.eqb_spec (checksum body) e) as [He|He]; cbn [negb] in Hp; [|done].
  destruct (Z.eqb_spec (checksum (<[(i - 1)%nat:=b]> body)) e) as [He'|He']; cbn [negb]; [|done].
  exfalso. assert (Hbi : body !! (i - 1)%nat = Some (line !!! i)).
  { subst body. rewrite lookup_take_lt, lookup_drop by lia. replace (1 + (i - 1))%nat with i by lia.
    apply list_lookup_lookup_total_lt. lia. }
  rewrite <-He in He'. rewrite <-(take_drop_middle body (i - 1) _ Hbi) in He'.
  rewrite insert_app_r_alt in He' by (rewrite length_take; lia).
  assert (length body = length line - 4)%nat by (subst body; rewrite length_take, length_drop; lia).
  rewrite length_take, Nat.min_l, Nat.sub_diag in He' by lia. cbn [insert list_insert] in He'.
  apply Hb. by apply checksum_one in He'.
Qed.

(** [$A*41], with the [A] turned into a [B]. *)
Lemma one_damaged_byte_is_rejected_witness :
  parse [0x24; 0x41; 0x2A; 0x34; 0x31] = Some ([0x41], []) ∧ parse [0x24; 0x42; 0x2A; 0x34; 0x31] = None.
Proof.
  split; [reflexivity|].
  apply (one_damaged_byte_is_rejected [0x24; 0x41; 0x2A; 0x34; 0x31] 1 0x42); [eexists; reflexivity|cbn; lia|done].
Defined.

(** * Console text *)

(** The second byte a lead byte allows, as [Utf8Chunks] checks it. *)
Definition second_ok (b0 b1 : Z) : bool :=
  if b0 =? 0xE0 then between 0xA0 0xBF b1
  else if b0 =? 0xED then between 0x80 0x9F b1
  else if b0 =? 0xF0 then between 0x90 0xBF b1
  else if b0 =? 0xF4 then between 0x80 0x8F b1
  else cont b1.

(** How much of [l] is skipped as invalid where no whole character starts: the bytes that
    could have begun one.  Past the end, a byte reads as 0. *)
Definition bad_len (l : list Z) : nat :=
  let b i := default 0 (l !! i) in
  if between 0xE0 0xEF (b 0%nat) then
    if second_ok (b 0%nat) (b 1%nat) then 2 else 1
  else if between 0xF0 0xF4 (b 0%nat) then
    if second_ok (b 0%nat) (b 1%nat) then if cont (b 2%nat) then 3 else 2 else 1
  else 1.

(** [bytes.utf8_chunks()]: a valid stretch and what is invalid after it; [valid] is the stretch
    so far.  Every round takes at least a byte. *)
Fixpoint utf8_chunks (fuel : nat) (valid l : list Z) : list (list Z * list Z) :=
  match fuel, l with
  | _, [] | O, _ => match valid with [] => [] | _ => [(valid, [])] end
  | S fuel, _ =>
      match next_char l with
      | Some n => utf8_chunks fuel (valid ++ take n l) (drop n l)
      | None => (valid, take (bad_len l) l) :: utf8_chunks fuel [] (drop (bad_len l) l)
      end
  end.

Definition is_dollar (b : Z) : bool := b =? DOLLAR.

(** The strings [emit] is called with. *)
Definition plain_text (bytes : list Z) : list (list Z) :=
  utf8_chunks (length bytes) [] bytes ≫= λ '(valid, invalid),
    (split_inclusive is_dollar valid ≫= λ piece,
       match strip_suffix is_dollar piece with
       | Some text => [text; [QUESTION]]
       | None => [piece]
       end) ++
    match invalid with [] => [] | _ => [[QUESTION]] end.

Definition hide_dollar (b : Z) : Z := if is_dollar b then QUESTION else b.

Lemma hide_dollar_ascii : ascii_map hide_dollar.
Proof. intros b. unfold hide_dollar, is_dollar. destruct (Z.eqb_spec b DOLLAR) as [->|]; [right; cbv; done|by left]. Qed.

Lemma bad_len_pos l : (1 ≤ bad_len l)%nat.
Proof. unfold bad_len. repeat case_match; lia. Qed.

Lemma is_utf8_char l n : next_char l = Some n → is_utf8 (take n l) = true.
Proof.
  intros Hn. pose proof (next_char_bounds _ _ Hn). rewrite is_utf8_cons by (destruct l, n; cbn in *; done || lia).
  rewrite (next_char_take l n n Hn) by done. by rewrite drop_ge by (rewrite length_take; lia).
Qed.

Lemma utf8_chunks_valid fuel valid l : is_utf8 valid = true →
  Forall (λ c, is_utf8 c.1 = true) (utf8_chunks fuel valid l).
Proof.
  revert valid l. induction fuel as [|fuel IH]; intros valid l Hv; cbn.
  - destruct l, valid; by repeat constructor.
  - destruct l as [|b l]; [destruct valid; by repeat constructor|].
    destruct (next_char (b :: l)) as [n|] eqn:E; [|constructor; [done|by apply IH]].
    apply IH, is_utf8_app; [done|by apply is_utf8_char].
Qed.

Lemma utf8_chunks_whole fuel valid l : is_utf8 l = true → (length l ≤ fuel)%nat →
  concat (fst <$> utf8_chunks fuel valid l) = valid ++ l ∧ Forall (λ c, c.2 = []) (utf8_chunks fuel valid l).
Proof.
  intros Hl. revert fuel valid. revert l Hl. apply (is_utf8_ind (λ l, ∀ fuel valid, (length l ≤ fuel)%nat → _)).
  - intros fuel valid _. destruct fuel, valid; cbn; rewrite ?app_nil_r; split; try done; by repeat constructor.
  - intros l n Hne Hn _ IH fuel valid Hf. pose proof (next_char_bounds _ _ Hn).
    destruct l as [|b l]; [done|]. destruct fuel as [|fuel]; [cbn in Hf; lia|]. cbn [utf8_chunks]. rewrite Hn.
    destruct (IH fuel (valid ++ take n (b :: l))) as [H1 H2]; [rewrite length_drop; cbn in *; lia|].
    split; [|done]. by rewrite H1, <-app_assoc, take_drop.
Qed.

Lemma emit_valid v : concat (split_inclusive is_dollar v ≫= λ piece,
    match strip_suffix is_dollar piece with Some text => [text; [QUESTION]] | None => [piece] end) = hide_dollar <$> v.
Proof.
  change (hide_dollar <$> v) with ((λ b, if is_dollar b then QUESTION else b) <$> v).
  rewrite <-(split_inclusive_replace is_dollar QUESTION v). induction (split_inclusive is_dollar v) as [|p l IH]; [done|].
  rewrite bind_cons, concat_app, IH, fmap_cons, concat_cons. f_equal. unfold replace_end.
  destruct (strip_suffix is_dollar p); cbn; by rewrite ?app_nil_r.
Qed.

(** The text that comes out, all together. *)
Lemma concat_plain_text bytes : concat (plain_text bytes) =
  concat ((λ '(v, i), (hide_dollar <$> v) ++ match i with [] => [] | _ => [QUESTION] end) <$> utf8_chunks (length bytes) [] bytes).
Proof.
  unfold plain_text. induction (utf8_chunks (length bytes) [] bytes) as [|[v i] l IH]; [done|].
  rewrite bind_cons, concat_app, IH, fmap_cons, concat_cons, concat_app, emit_valid. do 2 f_equal. by destruct i.
Qed.

(** A program's output cannot forge frames.  Whatever bytes it writes, the console text is
    valid UTF-8 without a single [$]; and text that was valid comes out as it was, but for
    its [$]. *)
Theorem plain_text_cannot_forge_frames bytes :
  is_utf8 (concat (plain_text bytes)) = true ∧ DOLLAR ∉ concat (plain_text bytes) ∧
  (is_utf8 bytes = true → concat (plain_text bytes) = hide_dollar <$> bytes).
Proof.
  rewrite concat_plain_text. pose proof (utf8_chunks_valid (length bytes) [] bytes eq_refl) as Hv. split_and!.
  - apply is_utf8_concat, Forall_fmap. eapply Forall_impl; [exact Hv|]. intros [v i] Hvi. cbn in *.
    apply is_utf8_app; [by rewrite is_utf8_map by apply hide_dollar_ascii|]. by destruct i.
  - intros Hd. apply list_elem_of_In, in_concat in Hd as (s & Hs%list_elem_of_In & Hd%list_elem_of_In).
    apply list_elem_of_fmap in Hs as ([v i] & -> & _). apply elem_of_app in Hd as [Hd|Hd].
    + apply list_elem_of_fmap in Hd as (b & Hb & _). unfold hide_dollar, is_dollar in Hb.
      destruct (Z.eqb_spec b DOLLAR); [done|congruence].
    + destruct i; [by apply not_elem_of_nil in Hd|]. apply list_elem_of_singleton in Hd. done.
  - intros Hu. destruct (utf8_chunks_whole (length bytes) [] bytes Hu (le_n _)) as [H1 H2]. cbn [app] in H1.
    transitivity (hide_dollar <$> concat (utf8_chunks (length bytes) [] bytes).*1); [|by rewrite H1].
    clear Hv H1 Hu. induction H2 as [|[v i] l Hi _ IH]; [done|]. cbn in Hi. subst i.
    rewrite !fmap_cons, !concat_cons, IH, fmap_app, app_nil_r. done.
Qed.

(** [a$], a stray [0xFF], and [b]. *)
Lemma plain_text_cannot_forge_frames_witness :
  concat (plain_text [0x61; 0x24; 0xFF; 0x62]) = [0x61; 0x3F; 0x3F; 0x62] ∧
  concat (plain_text [0x61; 0x24; 0x62]) = [0x61; 0x3F; 0x62].
Proof.
  split; [reflexivity|]. destruct (plain_text_cannot_forge_frames [0x61; 0x24; 0x62]) as (_ & _ & H).
  apply H. reflexivity.
Defined.
End Link.
