(* ===== verification/Session.v ===== *)
(** Reliable request/response over the link ([rustypi-core/src/session.rs]).

    A command is a function that fills in a reply and changes the world: [run].  It is code the
    caller supplies, so it is a parameter of the model. *)
From S2P Require Import Prelude Bytes Link.
From stdpp Require Import strings.
Open Scope Z_scope.

Module Session.

(** ["$HELP,65535,99,*HH".len()]. *)
Definition MAX_TEXT : nat := Link.MAX_LINE - 18.

Inductive LineKind := Rsp | Help.

Definition frame_kind (k : LineKind) : list Z :=
  match k with
  | Rsp => str "RSP"
  | Help => str "HELP"
  end.
Definition END : list Z := str "END".
Definition ERR : list Z := str "ERR".

(** Lines as they are kept: cut to [MAX_TEXT]. *)
Record Reply := mkReply { lines : list (LineKind * list Z) }.

Definition new_reply : Reply := mkReply [].

(** [text] is what the format arguments write. *)
Definition line (kind : LineKind) (text : list Z) (r : Reply) : Reply :=
  let text := if bool_decide (MAX_TEXT < length text)%nat
              then take (floor_char_boundary text MAX_TEXT) text else text in
  mkReply (lines r ++ [(kind, text)]).

Definition rsp (text : list Z) (r : Reply) : Reply := line Rsp text r.

Record Session := mkSession { last_seq : option Z; reply : Reply }.

Definition new : Session := mkSession None new_reply.
Definition reset (s : Session) : Session := mkSession None (reply s).

(** A frame handed to [send]: its kind and the strings of its payload. *)
Notation Sent := (list Z * list (list Z))%type (only parsing).

Definition parse_request (payload : list Z) : option (Z * list Z) :=
  let '(seq, text) := default (payload, []) (split_once Link.COMMA payload) in
  seq ← parse_uint (2 ^ 16 - 1) seq;
  Some (seq, text).

Definition request_seq (payload : list Z) : option Z := fst <$> parse_request payload.

Definition send_reply (seq : Z) (s : Session) : list Sent :=
  imap (λ index '(kind, text),
          (frame_kind kind, [dec seq; [Link.COMMA]; dec (Z.of_nat index); [Link.COMMA]; text])) (lines (reply s)) ++
  [(END, [dec seq; [Link.COMMA]; dec (Z.of_nat (length (lines (reply s))))])].

Section handle.
Context {World A : Type}.
(** Runs a command: its action, and the reply and the world after it. *)
Context (run : list Z → Reply → World → option A * Reply * World).

Definition NEEDS_SEQ : list Z := str "MSG needs a sequence number".

Definition handle (payload : list Z) (s : Session) (w : World) : Session * World * list Sent * option A :=
  match parse_request payload with
  | None => (s, w, [(ERR, [NEEDS_SEQ])], None)
  | Some (seq, text) =>
      if decide (last_seq s = Some seq) then (s, w, send_reply seq s, None)
      else
        let '(action, r, w) := run text new_reply w in
        let s := mkSession (Some seq) r in
        (s, w, send_reply seq s, action)
  end.

(** Several requests, and the frames sent for each. *)
Fixpoint handle_all (payloads : list (list Z)) (s : Session) (w : World) : Session * World * list (list Sent) :=
  match payloads with
  | [] => (s, w, [])
  | p :: payloads =>
      let '(s, w, sent, _) := handle p s w in
      let '(s, w, rest) := handle_all payloads s w in
      (s, w, sent :: rest)
  end.

Lemma handle_again payload payload' seq s w s' w' w2 sent action :
  request_seq payload = Some seq → request_seq payload' = Some seq →
  handle payload s w = (s', w', sent, action) → handle payload' s' w2 = (s', w2, sent, None).
Proof.
  unfold request_seq, handle. intros ([seq1 t1] & -> & E1)%fmap_Some ([seq2 t2] & -> & E2)%fmap_Some.
  cbn in E1, E2. subst seq1 seq2. case_decide as Hd.
  - intros [= <- <- <- <-]. by rewrite decide_True.
  - destruct (run t1 new_reply w) as [[a r] w1]. intros [= <- <- <- <-]. cbn. by rewrite decide_True.
Qed.

(** A request is carried out once, however often it is sent.  After a request with some
    sequence number, any number of retransmissions (requests with that number) leave the
    world and the session as the first one did, and each is answered with the same frames. *)
Theorem retransmits_run_once payload seq s w s' w' sent action again :
  request_seq payload = Some seq → handle payload s w = (s', w', sent, action) →
  Forall (λ p, request_seq p = Some seq) again →
  handle_all again s' w' = (s', w', replicate (length again) sent).
Proof.
  intros Hp Hh. induction 1 as [|p again Hs _ IH]; cbn; [done|].
  rewrite (handle_again _ _ _ _ _ _ _ w' _ _ Hp Hs Hh), IH. done.
Qed.

End handle.

(** ["1,x"] against a counter of commands run, and two retransmissions. *)
Lemma retransmits_run_once_witness :
  let run (text : list Z) (r : Reply) (w : nat) := (None : option unit, rsp text r, S w) in
  let msg := [0x31; 0x2C; 0x78] in
  ∃ s' sent, handle run msg new 0%nat = (s', 1%nat, sent, None) ∧
             handle_all run [msg; msg] s' 1%nat = (s', 1%nat, [sent; sent]).
Proof.
  cbv zeta. eexists _, _. split; [reflexivity|].
  eapply (retransmits_run_once _ [0x31; 0x2C; 0x78] 1 new 0%nat _ 1%nat _ None [_; _]);
    [reflexivity|reflexivity|]. repeat constructor.
Defined.

(** * Replies fit the link *)

(** A reply whose lines were added with [line]. *)
Inductive built : Reply → Prop :=
| built_new : built new_reply
| built_line r kind text : built r → is_utf8 text = true → is_bytes text → built (line kind text r).

Lemma built_lines r : built r →
  Forall (λ l, (length l.2 ≤ MAX_TEXT)%nat ∧ is_utf8 l.2 = true ∧ is_bytes l.2) (lines r).
Proof.
  induction 1 as [|r kind text _ IH Hu Hb]; [constructor|]. unfold line. cbn [lines].
  apply Forall_app. split; [done|].
  constructor; [|constructor]. cbn [snd]. case_bool_decide; [|split_and!; done || lia].
  destruct (floor_char_boundary_spec text MAX_TEXT) as (H1 & H2 & _). split_and!.
  - rewrite length_take. lia.
  - by apply is_utf8_take.
  - by apply Forall_take.
Qed.

Lemma dec_ascii n : 0 <= n → is_utf8 (dec n) = true ∧ is_bytes (dec n).
Proof.
  intros Hn. pose proof (dec_digits 20 n Hn) as Hd. fold (dec n) in Hd. revert Hd. generalize (dec n). intros l.
  induction 1 as [|c l Hc _ [IH1 IH2]]; [split; [done|constructor]|]. split.
  - change (c :: l) with ([c] ++ l). apply is_utf8_app; [apply is_utf8_ascii; lia|done].
  - constructor; [unfold uint; lia|done].
Qed.

Lemma length_dec n k : 0 <= n < 10 ^ Z.of_nat k → (0 < k)%nat → (length (dec n) ≤ k)%nat.
Proof. apply length_dec_fuel. Qed.

Lemma frame_kind_ok k : is_utf8 (frame_kind k) = true ∧ Forall Link.plain (frame_kind k) ∧
  Link.COMMA ∉ frame_kind k ∧ is_bytes (frame_kind k) ∧ (length (frame_kind k) ≤ 4)%nat.
Proof.
  destruct k; (split_and!; [reflexivity|by repeat constructor|set_solver|by repeat constructor|cbn; lia]).
Qed.

(** Replies fit the link: every frame of a reply of at most a hundred lines, whatever
    their text, can be sent whole and arrives as one frame. *)
Theorem reply_frames_fit seq s frame :
  built (reply s) → (length (lines (reply s)) ≤ 100)%nat → uint 16 seq →
  frame ∈ send_reply seq s → Link.sendable frame.1 frame.2.
Proof.
  intros Hb Hn Hs. pose proof (built_lines _ Hb) as Hl. unfold uint in Hs.
  assert (Hseq : (length (dec seq) ≤ 5)%nat) by (apply length_dec; cbn; lia).
  destruct (dec_ascii seq ltac:(lia)) as [Hsu Hsb].
  unfold send_reply. intros [Hin|Hin]%elem_of_app.
  - apply elem_of_lookup_imap in Hin as (i & [kind text] & -> & Hi). cbn [fst snd].
    pose proof (lookup_lt_Some _ _ _ Hi) as Hlt.
    destruct (proj1 (Forall_lookup _ _) Hl i _ Hi) as (Hlen & Htu & Htb). cbn [snd] in Hlen, Htu, Htb.
    assert (Hidx : (length (dec (Z.of_nat i)) ≤ 2)%nat) by (apply length_dec; cbn; lia).
    destruct (dec_ascii (Z.of_nat i) ltac:(lia)) as [Hiu Hib].
    destruct (frame_kind_ok kind) as (Hk1 & Hk2 & Hk3 & Hk4 & Hk5). split; [done..| | |].
    + repeat constructor; done.
    + cbn [concat]. unfold is_bytes. rewrite !Forall_app. split_and!; try done; by repeat constructor.
    + cbn [concat]. rewrite app_nil_r. unfold Link.tail. destruct (_ ++ _) as [|b l] eqn:E; [cbn [length]; unfold Link.MAX_LINE; lia|].
      rewrite <-E. cbn [length]. rewrite length_fmap, !length_app. unfold MAX_TEXT, Link.MAX_LINE in *. cbn [length]. lia.
  - apply list_elem_of_singleton in Hin as ->. cbn [fst snd].
    assert (Hidx : (length (dec (Z.of_nat (length (lines (reply s))))) ≤ 3)%nat) by (apply length_dec; cbn; lia).
    destruct (dec_ascii (Z.of_nat (length (lines (reply s)))) ltac:(lia)) as [Hiu Hib].
    split; [reflexivity|by repeat constructor|set_solver|by repeat constructor| |].
    + cbn [concat]. unfold is_bytes. rewrite !Forall_app. split_and!; try done; by repeat constructor.
    + cbn [concat]. rewrite app_nil_r. unfold Link.tail. destruct (_ ++ _) as [|b l] eqn:E; [cbn [length END str]; unfold Link.MAX_LINE; lia|].
      rewrite <-E. cbn [length]. rewrite length_fmap, !length_app. unfold Link.MAX_LINE. cbn [length END str]. lia.
Qed.

Lemma reply_frames_fit_witness :
  Link.sendable END [dec 7; [Link.COMMA]; dec 1] ∧
  send_reply 7 (mkSession (Some 7) (rsp (replicate 200 0x61) new_reply)) !! 1%nat = Some (END, [dec 7; [Link.COMMA]; dec 1]).
Proof.
  split; [|reflexivity].
  apply (reply_frames_fit 7 (mkSession (Some 7) (rsp (replicate 200 0x61) new_reply)) (END, [dec 7; [Link.COMMA]; dec 1])).
  - apply built_line; [constructor|reflexivity|]. apply Forall_replicate. by vm_compute.
  - cbn. lia.
  - unfold uint. lia.
  - right. left.
Defined.

End Session.
