(* ===== verification/Update.v ===== *)
(** Receiving a kernel image over UDP ([rustypi-core/src/update.rs]). *)
From S2P Require Import Prelude Bytes.
From stdpp Require Import strings.
Open Scope Z_scope.

Module Update.

Definition CHUNK : nat := 1024.
Definition MAX_IMAGE : Z := 8 * 1024 * 1024.

Definition crc_bit (crc : Z) : Z :=
  if negb (Z.land crc 1 =? 0) then Z.lxor (Z.shiftr crc 1) 0xEDB88320 else Z.shiftr crc 1.
Definition crc_byte (crc byte : Z) : Z := Nat.iter 8 crc_bit (Z.lxor crc byte).
Definition crc32 (data : list Z) : Z := bnot 32 (foldl crc_byte (ones 32) data).

Inductive Response := Reply (bytes : list Z) | Complete (image : list Z).

Definition refuse (reason : string) : Response := Reply ([0x58] ++ str reason).

Record Transfer := mkTransfer { crc : Z; image : list Z; arrived : list bool; missing : Z }.

Definition Receiver := option Transfer.
Definition new : Receiver := None.
Definition reset (_ : Receiver) : Receiver := None.

Definition word (at_ : nat) (datagram : list Z) : option Z := le_value <$> slice at_ (at_ + 4) datagram.

Definition div_ceil (n m : nat) : nat := (if decide (n mod m = 0) then n / m else n / m + 1)%nat.

(** A data datagram, once a transfer has begun. *)
Definition take_chunk (datagram : list Z) (t : Transfer) : Transfer * Response :=
  match word 1 datagram with
  | None => (t, refuse "short data")
  | Some offset =>
      let offset := Z.to_nat offset in
      let bytes := drop 5 datagram in
      let expected := ((length (image t) - offset) `min` CHUNK)%nat in
      if decide (offset mod CHUNK ≠ 0 ∨ length (image t) ≤ offset ∨ length bytes ≠ expected)%nat
      then (t, refuse "bad chunk")
      else
        let index := (offset / CHUNK)%nat in
        let t := if (arrived t !!! index : bool) then t
                 else mkTransfer (crc t) (take offset (image t) ++ bytes ++ drop (offset + length bytes) (image t))
                        (<[index := true]> (arrived t)) (wrap 64 (missing t - 1)) in
        (t, Reply ([0x41] ++ le_bytes 4 (Z.of_nat offset)))
  end.

Definition handle (datagram : list Z) (r : Receiver) : Receiver * Response :=
  match head datagram with
  | Some 0x42 =>
      match word 1 datagram, word 5 datagram with
      | Some size, Some crc =>
          if (size =? 0) || (MAX_IMAGE <? size) then (None, refuse "bad size")
          else
            let size := Z.to_nat size in
            let chunks := div_ceil size CHUNK in
            (Some (mkTransfer crc (replicate size 0) (replicate chunks false) (Z.of_nat chunks)), Reply [0x4B])
      | _, _ => (r, refuse "short begin")
      end
  | Some 0x44 =>
      match r with
      | None => (r, refuse "not begun")
      | Some t => let '(t, response) := take_chunk datagram t in (Some t, response)
      end
  | Some 0x45 =>
      match r with
      | None => (None, refuse "not begun")
      | Some t =>
          if negb (missing t =? 0) then (Some t, refuse "chunks missing")
          else if negb (crc32 (image t) =? crc t) then (None, refuse "CRC-32 mismatch")
          else (None, Complete (image t))
      end
  | _ => (r, refuse "unknown")
  end.

(** The check value every CRC-32 (IEEE) implementation gives for ["123456789"]. *)
Example crc32_check : crc32 (str "123456789") = 0xCBF43926.
Proof. reflexivity. Qed.

(** * What the receiver knows *)

(** Chunk [i] of an image. *)
Definition chunk (i : nat) (img : list Z) : list Z := take CHUNK (drop (i * CHUNK) img).

Definition begins (d : list Z) (size : nat) (crc : Z) : Prop :=
  head d = Some 0x42 ∧ word 1 d = Some (Z.of_nat size) ∧ word 5 d = Some crc.
(** A begin datagram that is long enough: it begins a transfer, or is refused for its size, but ends any before it. *)
Definition is_begin (d : list Z) : Prop := head d = Some 0x42 ∧ is_Some (word 1 d) ∧ is_Some (word 5 d).
Definition delivers (d : list Z) (i : nat) (bytes : list Z) : Prop :=
  head d = Some 0x44 ∧ word 1 d = Some (Z.of_nat (i * CHUNK)) ∧ drop 5 d = bytes.

(** [t] is what the datagrams [ds] since the beginning have made of the transfer. *)
Record Inv (size : nat) (c : Z) (ds : list (list Z)) (t : Transfer) : Prop := {
  inv_crc : crc t = c;
  inv_size : length (image t) = size;
  inv_max : 0 < Z.of_nat size <= MAX_IMAGE;
  inv_chunks : length (arrived t) = div_ceil size CHUNK;
  inv_missing : missing t = Z.of_nat (length (filter (λ b, b = false) (arrived t)));
  inv_arrived : ∀ i, arrived t !! i = Some true → ∃ d, d ∈ ds ∧ delivers d i (chunk i (image t));
}.

Lemma CHUNK_pos : (0 < CHUNK)%nat.
Proof. cbv. lia. Qed.

Lemma div_ceil_lt i n : (i * CHUNK < n)%nat ↔ (i < div_ceil n CHUNK)%nat.
Proof.
  unfold div_ceil. pose proof CHUNK_pos. pose proof (Nat.div_mod_eq n CHUNK).
  pose proof (Nat.mod_upper_bound n CHUNK ltac:(lia)). case_decide; split; nia.
Qed.

Lemma filter_insert_false (l : list bool) i : l !! i = Some false →
  length (filter (λ b, b = false) l) = S (length (filter (λ b, b = false) (<[i := true]> l))).
Proof.
  intros Hi. rewrite (insert_take_drop l i true) by (by apply lookup_lt_Some in Hi).
  rewrite <-(take_drop_middle l i false Hi) at 1. rewrite !filter_app, !filter_cons, decide_True, decide_False by done.
  rewrite !length_app. cbn. lia.
Qed.

(** Writing a chunk changes that chunk only. *)
Lemma chunk_write i j img bytes :
  length bytes = ((length img - i * CHUNK) `min` CHUNK)%nat → (i * CHUNK < length img)%nat →
  chunk j (take (i * CHUNK) img ++ bytes ++ drop (i * CHUNK + length bytes) img) =
  if decide (i = j) then bytes else chunk j img.
Proof.
  intros Hb Hi. pose proof CHUNK_pos. unfold chunk. case_decide as E.
  - subst j. rewrite drop_app_length' by (rewrite length_take; lia).
    destruct (decide (length bytes = CHUNK)) as [E'|E'].
    + rewrite take_app_length' by done. done.
    + rewrite (drop_ge img) by lia. rewrite app_nil_r. apply take_ge. lia.
  - apply list_eq. intros k. destruct (decide (k < CHUNK)%nat) as [Hk|Hk].
    2: { rewrite !lookup_take_ge by lia. done. }
    rewrite !lookup_take_lt, !lookup_drop by lia. set (x := (j * CHUNK + k)%nat).
    assert (Hx : (x < i * CHUNK ∨ i * CHUNK + CHUNK ≤ x)%nat) by (subst x; nia). destruct Hx as [Hx|Hx].
    + rewrite lookup_app_l by (rewrite length_take; lia). by rewrite lookup_take_lt.
    + rewrite lookup_app_r by (rewrite length_take; lia). rewrite length_take, Nat.min_l by lia.
      rewrite lookup_app_r by lia. rewrite lookup_drop. f_equal. lia.
Qed.

Lemma Inv_chunk size c ds d t : is_bytes d → head d = Some 0x44 → Inv size c ds t →
  Inv size c (ds ++ [d]) (take_chunk d t).1.
Proof.
  intros Hbytes Hd HI. assert (Hkeep : Inv size c (ds ++ [d]) t).
  { destruct HI as [H1 H2 H3 H4 H5 H6]. split; try done. intros i (d' & Hin & Hdel)%H6. exists d'. split; [set_solver|done]. }
  unfold take_chunk. destruct (word 1 d) as [off|] eqn:Hw; [|done]. case_decide as Hc; [done|].
  assert (Hoff : (Z.to_nat off = Z.to_nat off / CHUNK * CHUNK)%nat).
  { pose proof (Nat.div_mod_eq (Z.to_nat off) CHUNK). assert (Z.to_nat off mod CHUNK = 0)%nat by (destruct (decide (Z.to_nat off mod CHUNK = 0)%nat); tauto). lia. }
  assert (H0 : 0 <= off).
  { unfold word in Hw. apply fmap_Some in Hw as (l & [_ ->]%slice_Some & ->).
    apply le_value_bound, Forall_take, Forall_drop, Hbytes. }
  set (i := (Z.to_nat off / CHUNK)%nat) in *. cbn [fst]. destruct (arrived t !!! i) eqn:Ha; [done|].
  assert (Hlt : (i * CHUNK < length (image t))%nat) by lia.
  assert (Hlen : length (drop 5 d) = ((length (image t) - i * CHUNK) `min` CHUNK)%nat) by lia.
  assert (Hi : (i < length (arrived t))%nat) by (rewrite (inv_chunks _ _ _ _ HI), <-(inv_size _ _ _ _ HI); by apply div_ceil_lt).
  assert (Hai : arrived t !! i = Some false) by (rewrite <-Ha; by apply list_lookup_lookup_total_lt).
  rewrite Hoff. split; cbn [crc image arrived missing].
  - apply HI.
  - rewrite !length_app, length_take, Hlen, length_drop. pose proof (inv_size _ _ _ _ HI). lia.
  - apply HI.
  - rewrite length_insert. apply HI.
  - rewrite (inv_missing _ _ _ _ HI), (filter_insert_false _ i Hai).
    pose proof (length_filter (λ b, b = false) (arrived t)) as Hf. rewrite (filter_insert_false _ i Hai) in Hf.
    assert (length (arrived t) <= length (image t))%nat.
    { rewrite (inv_chunks _ _ _ _ HI), (inv_size _ _ _ _ HI). unfold div_ceil. pose proof (inv_max _ _ _ _ HI).
      pose proof (Nat.div_mod_eq size CHUNK). case_decide; unfold CHUNK in *; lia. }
    pose proof (inv_size _ _ _ _ HI). pose proof (inv_max _ _ _ _ HI). unfold MAX_IMAGE in *.
    rewrite wrap_small by (unfold uint; lia). lia.
  - intros j Hj. rewrite chunk_write by done. destruct (decide (i = j)) as [<-|Hne].
    + exists d. split; [set_solver|]. split_and!; [done| |done]. rewrite Hw. f_equal. lia.
    + rewrite list_lookup_insert_ne in Hj by done. destruct (inv_arrived _ _ _ _ HI j Hj) as (d' & Hin & Hdel).
      exists d'. split; [set_solver|done].
Qed.

(** A run of datagrams, with the response to each. *)
Fixpoint receive (ds : list (list Z)) (r : Receiver) : Receiver * list Response :=
  match ds with
  | [] => (r, [])
  | d :: ds => let '(r, x) := handle d r in let '(r, xs) := receive ds r in (r, x :: xs)
  end.

(** A transfer under way goes back to a begin datagram in the history [h]. *)
Definition traced (h : list (list Z)) (r : Receiver) : Prop :=
  ∀ t, r = Some t → ∃ pre b ds size c, h = pre ++ b :: ds ∧ begins b size c ∧ Forall (λ d, ¬ is_begin d) ds ∧ Inv size c ds t.

Lemma handle_data d r : head d = Some 0x44 → handle d r =
  match r with
  | None => (None, refuse "not begun")
  | Some t => (Some (take_chunk d t).1, (take_chunk d t).2)
  end.
Proof. unfold handle. intros ->. destruct r as [t|]; [|done]. by destruct (take_chunk d t). Qed.

Lemma Inv_begin size c : 0 < Z.of_nat size <= MAX_IMAGE →
  Inv size c [] (mkTransfer c (replicate size 0) (replicate (div_ceil size CHUNK) false) (Z.of_nat (div_ceil size CHUNK))).
Proof.
  intros Hs. split; cbn [crc image arrived missing]; [done|by rewrite length_replicate|done|by rewrite length_replicate| |].
  - f_equal. generalize (div_ceil size CHUNK). induction n as [|n IH]; [done|]. cbn [replicate].
    rewrite filter_cons_True by done. cbn. by rewrite <-IH.
  - intros i [? _]%lookup_replicate. done.
Qed.

Lemma Inv_more size c ds d t : Inv size c ds t → Inv size c (ds ++ [d]) t.
Proof.
  intros [H1 H2 H3 H4 H5 H6]. split; try done. intros i (d' & Hin & Hdel)%H6. exists d'. split; [set_solver|done].
Qed.

(** A datagram that begins nothing, after which the transfer is [t']. *)
Lemma traced_more h d t t' : ¬ is_begin d → traced h (Some t) → (∀ size c ds, Inv size c ds t → Inv size c (ds ++ [d]) t') →
  traced (h ++ [d]) (Some t').
Proof.
  intros Hn Hr Hi t0 [= <-]. destruct (Hr t eq_refl) as (pre & b & ds & size & c & -> & Hb & Hds & HI).
  exists pre, b, (ds ++ [d]), size, c. split_and!; [by rewrite <-app_assoc|done|by apply Forall_app; split; [|constructor]|by apply Hi].
Qed.

Lemma traced_handle h d r : is_bytes d → traced h r → traced (h ++ [d]) (handle d r).1.
Proof.
  intros Hd Hr. assert (Hkeep : ¬ is_begin d → traced (h ++ [d]) r).
  { intros Hn. destruct r as [t|]; [|done]. apply (traced_more h d t); [done|done|]. intros; by apply Inv_more. }
  assert (Hnone : traced (h ++ [d]) None) by done.
  destruct (head d) as [x|] eqn:Hh; [|unfold handle; rewrite Hh; apply Hkeep; by intros [? _]; congruence].
  destruct (decide (x = 0x42)) as [->|H42].
  2: assert (Hnb : ¬ is_begin d) by (intros [? _]; congruence); specialize (Hkeep Hnb);
     destruct (decide (x = 0x44)) as [->|H44]; [|destruct (decide (x = 0x45)) as [->|H45]].
  - unfold handle. rewrite Hh. destruct (word 1 d) as [size|] eqn:H1, (word 5 d) as [c|] eqn:H5;
      [|apply Hkeep; intros (_ & [? ?] & [? ?]); congruence..].
    destruct (Z.eqb_spec size 0) as [|Hs0]; [done|]. destruct (Z.ltb_spec MAX_IMAGE size) as [|Hsm]; [done|]. cbn [orb fst].
    assert (H0 : 0 <= size).
    { unfold word in H1. apply fmap_Some in H1 as (l & [_ ->]%slice_Some & ->).
      apply le_value_bound, Forall_take, Forall_drop, Hd. }
    intros t [= <-]. exists h, d, [], (Z.to_nat size), c. split_and!; [done|split_and!; [done|by rewrite Z2Nat.id|done]|constructor|].
    apply Inv_begin. lia.
  - rewrite handle_data by done. destruct r as [t0|]; [|done]. cbn [fst].
    apply (traced_more h d t0); [done|done|]. intros; by apply Inv_chunk.
  - unfold handle. rewrite Hh. destruct r as [t0|]; [|done]. destruct (negb _); [done|]. by destruct (negb _).
  - unfold handle. rewrite Hh. destruct x as [|x|x]; try done. repeat (destruct x as [x|x|]; try done).
Qed.

Lemma receive_datagrams_app h d r : receive (h ++ [d]) r =
  let '(r1, xs) := receive h r in let '(r2, x) := handle d r1 in (r2, xs ++ [x]).
Proof.
  revert r. induction h as [|d0 h IH]; intros r; cbn [receive app]; [by destruct (handle d r)|].
  destruct (handle d0 r) as [r0 x0]. rewrite IH. destruct (receive h r0) as [r1 xs]. by destruct (handle d r1).
Qed.

Lemma traced_receive h : Forall is_bytes h → traced h (receive h new).1.
Proof.
  induction h as [|d h IH] using rev_ind; intros Hh; [done|]. apply Forall_app in Hh as [Hh [Hd _]%Forall_cons].
  rewrite receive_datagrams_app. specialize (IH Hh). destruct (receive h new) as [r1 xs]. pose proof (traced_handle h d r1 Hd IH) as Ht.
  by destruct (handle d r1).
Qed.

Lemma all_arrived size c ds t : Inv size c ds t → missing t = 0 → ∀ i, (i < div_ceil size CHUNK)%nat → arrived t !! i = Some true.
Proof.
  intros HI Hm i Hi. rewrite (inv_missing _ _ _ _ HI) in Hm. destruct (arrived t !! i) as [[|]|] eqn:E; [done| |].
  - rewrite (filter_insert_false _ _ E) in Hm. lia.
  - apply lookup_ge_None in E. rewrite (inv_chunks _ _ _ _ HI) in E. lia.
Qed.

(** An image is complete when the last begin datagram of the history announced exactly its size and CRC-32 and,
    since then, a data datagram has delivered each of its chunks. *)
Definition was_sent (h : list (list Z)) (img : list Z) : Prop :=
  ∃ pre b ds, h = pre ++ b :: ds ∧ begins b (length img) (crc32 img) ∧ Forall (λ d, ¬ is_begin d) ds ∧
    ∀ i, (i < div_ceil (length img) CHUNK)%nat → ∃ x, x ∈ ds ∧ delivers x i (chunk i img).

Lemma complete_traced h d r r' img : traced h r → handle d r = (r', Complete img) → was_sent h img.
Proof.
  intros Ht Hd.
  destruct (head d) as [x|] eqn:Hx; [|unfold handle in Hd; by rewrite Hx in Hd].
  destruct (decide (x = 0x44)) as [->|H44].
  { rewrite handle_data in Hd by done. destruct r as [t|]; [|done]. injection Hd as _ Hd.
    unfold take_chunk in Hd. destruct (word 1 d); [|done]. by case_decide. }
  unfold handle in Hd. rewrite Hx in Hd. destruct (decide (x = 0x45)) as [->|H45].
  - destruct r as [t|]; [|done]. destruct (Z.eqb_spec (missing t) 0) as [Hm|]; cbn [negb] in Hd; [|done].
    destruct (Z.eqb_spec (crc32 (image t)) (crc t)) as [Hc|]; cbn [negb] in Hd; [|done]. injection Hd as _ <-.
    destruct (Ht t eq_refl) as (pre & b & ds & size & c & -> & Hb & Hnb & HI). exists pre, b, ds. split; [done|].
    pose proof (inv_size _ _ _ _ HI) as <-. rewrite Hc, (inv_crc _ _ _ _ HI). split; [done|]. split; [done|].
    intros i Hi. apply (inv_arrived _ _ _ _ HI). by apply (all_arrived _ _ _ _ HI Hm).
  - exfalso. destruct (decide (x = 0x42)) as [->|H42].
    + destruct (word 1 d), (word 5 d); try done. by destruct (_ || _)%bool.
    + destruct x as [|x|x]; try done. repeat (destruct x as [x|x|]; try done).
Qed.

(** Only a whole, intact image comes out.  Whatever datagrams arrive, when the receiver
    says an image is complete, the last begin datagram announced exactly its size
    and CRC-32, and since then a data datagram delivered each of its chunks. *)
Theorem complete_image_was_sent h d r' img :
  Forall is_bytes h → handle d (receive h new).1 = (r', Complete img) → was_sent h img.
Proof. intros Hh. by apply complete_traced, traced_receive. Qed.

(** * An honest sender *)
Definition begin_datagram (img : list Z) : list Z :=
  [0x42] ++ le_bytes 4 (Z.of_nat (length img)) ++ le_bytes 4 (crc32 img).
Definition data_datagram (img : list Z) (i : nat) : list Z :=
  [0x44] ++ le_bytes 4 (Z.of_nat (i * CHUNK)) ++ chunk i img.

Lemma uint_lxor w x y : 0 <= w → uint w x → uint w y → uint w (Z.lxor x y).
Proof.
  intros Hw Hx Hy. apply uint_bits; [done| |].
  - apply Z.lxor_nonneg. split; intros _; [apply Hy|apply Hx].
  - intros i Hi. by rewrite Z.lxor_spec, !(testbit_high w) by (done || lia).
Qed.

Lemma crc_bit_uint x : uint 32 x → uint 32 (crc_bit x).
Proof.
  intros Hx. assert (Hs : uint 32 (Z.shiftr x 1)).
  { rewrite Z.shiftr_div_pow2 by lia. unfold uint in *. change (2 ^ 1) with 2.
    split; [apply Z.div_pos; lia|apply Z.div_lt_upper_bound; lia]. }
  unfold crc_bit. destruct (negb _); [|done]. apply uint_lxor; [lia|done|by vm_compute].
Qed.

Lemma crc32_uint l : is_bytes l → uint 32 (crc32 l).
Proof.
  intros Hl. unfold crc32, bnot. apply uint_lxor; [lia|by vm_compute|].
  assert (H : ∀ x, uint 32 x → uint 32 (foldl crc_byte x l)); [|apply H; by vm_compute].
  induction Hl as [|b l Hb _ IH]; intros x Hx; cbn [foldl]; [done|]. apply IH. unfold crc_byte.
  assert (H0 : uint 32 (Z.lxor x b)) by (apply uint_lxor; [lia|done|unfold uint in *; lia]).
  revert H0. generalize (Z.lxor x b). intros y Hy. cbn [Nat.iter]. by repeat apply crc_bit_uint.
Qed.

Lemma word_at pre x post k : length pre = k → uint 32 x → word k (pre ++ le_bytes 4 x ++ post) = Some x.
Proof.
  intros <- Hx. unfold word. replace 4%nat with (length (le_bytes 4 x)) by apply length_le_bytes.
  rewrite slice_app. cbn [fmap option_fmap option_map]. rewrite length_le_bytes. f_equal. by apply le_value_le_bytes.
Qed.

Lemma chunk_length i img : (i * CHUNK < length img)%nat → length (chunk i img) = ((length img - i * CHUNK) `min` CHUNK)%nat.
Proof. intros. unfold chunk. rewrite length_take, length_drop. lia. Qed.

Lemma data_word img i : Z.of_nat (length img) <= MAX_IMAGE → (i * CHUNK < length img)%nat →
  word 1 (data_datagram img i) = Some (Z.of_nat (i * CHUNK)) ∧ drop 5 (data_datagram img i) = chunk i img.
Proof.
  unfold MAX_IMAGE. intros Hm Hi. split.
  - apply (word_at [0x44]); [done|unfold uint; lia].
  - unfold data_datagram. rewrite app_assoc, drop_app_length'; [done|]. rewrite length_app, length_le_bytes. done.
Qed.

(** Two images with the same chunks are the same. *)
Lemma chunks_eq (l1 l2 : list Z) : length l1 = length l2 →
  (∀ i, (i * CHUNK < length l1)%nat → chunk i l1 = chunk i l2) → l1 = l2.
Proof.
  intros Hl Hc. pose proof CHUNK_pos. apply list_eq. intros k. destruct (decide (k < length l1)%nat) as [Hk|Hk].
  - pose proof (Nat.div_mod_eq k CHUNK). pose proof (Nat.mod_upper_bound k CHUNK ltac:(lia)).
    specialize (Hc (k / CHUNK)%nat ltac:(lia)). apply (f_equal (λ l, l !! (k mod CHUNK)%nat)) in Hc.
    unfold chunk in Hc. rewrite !lookup_take_lt, !lookup_drop in Hc by lia.
    replace (k / CHUNK * CHUNK + k mod CHUNK)%nat with k in Hc by lia. done.
  - rewrite !lookup_ge_None_2 by lia. done.
Qed.

Lemma take_chunk_arrived img c ds t i :
  Z.of_nat (length img) <= MAX_IMAGE → Inv (length img) c ds t → (i * CHUNK < length img)%nat →
  let t' := (take_chunk (data_datagram img i) t).1 in
  arrived t' !! i = Some true ∧ ∀ j, arrived t !! j = Some true → arrived t' !! j = Some true.
Proof.
  intros Hm HI Hi. destruct (data_word img i Hm Hi) as [Hw Hd]. unfold take_chunk. rewrite Hw, Hd, Nat2Z.id.
  pose proof CHUNK_pos. rewrite (inv_size _ _ _ _ HI), (chunk_length i img Hi).
  rewrite decide_False.
  2: { rewrite Nat.Div0.mod_mul. intros [?|[?|?]]; [done|lia|done]. }
  rewrite Nat.div_mul by lia. cbn [fst].
  assert (Hlt : (i < length (arrived t))%nat) by (rewrite (inv_chunks _ _ _ _ HI); by apply div_ceil_lt).
  destruct (arrived t !!! i) eqn:Ha; cbn [arrived].
  - split; [rewrite <-Ha; by apply list_lookup_lookup_total_lt|done].
  - split; [by apply list_lookup_insert_eq|]. intros j Hj. destruct (decide (i = j)) as [<-|Hne].
    + by apply list_lookup_insert_eq.
    + by rewrite list_lookup_insert_ne.
Qed.

Lemma receive_data img c ds order t :
  is_bytes img → Z.of_nat (length img) <= MAX_IMAGE → Inv (length img) c ds t →
  Forall (λ i, (i * CHUNK < length img)%nat) order →
  ∃ t', (receive (data_datagram img <$> order) (Some t)).1 = Some t' ∧
    Inv (length img) c (ds ++ (data_datagram img <$> order)) t' ∧
    (∀ i, i ∈ order ∨ arrived t !! i = Some true → arrived t' !! i = Some true).
Proof.
  intros Hb Hm. revert ds t. induction order as [|i order IH]; intros ds t HI Ho.
  { exists t. rewrite app_nil_r. split_and!; [done|done|]. intros i [[]%not_elem_of_nil|?]; done. }
  apply Forall_cons in Ho as [Hi Ho]. rewrite fmap_cons. cbn [receive]. rewrite handle_data by done.
  assert (Hdb : is_bytes (data_datagram img i)).
  { unfold data_datagram, chunk. apply Forall_app; split; [by repeat constructor|].
    apply Forall_app; split; [apply is_bytes_le_bytes|]. by apply Forall_take, Forall_drop. }
  pose proof (Inv_chunk _ _ _ (data_datagram img i) t Hdb eq_refl HI) as HI1.
  destruct (take_chunk_arrived img c ds t i Hm HI Hi) as [Ha Hk]. cbv zeta in *.
  destruct (take_chunk (data_datagram img i) t) as [t1 x1]. cbn [fst snd] in *.
  destruct (IH (ds ++ [data_datagram img i]) t1 HI1 Ho) as (t' & Hr & HI' & Hall).
  destruct (receive _ (Some t1)) as [r' xs]. cbn [fst] in *. exists t'. split_and!; [done| |].
  - by rewrite <-app_assoc in HI'.
  - intros j [[->|Hj]%elem_of_cons|Hj]; apply Hall; auto.
Qed.

Lemma none_missing size c ds t : Inv size c ds t → (∀ i, (i < div_ceil size CHUNK)%nat → arrived t !! i = Some true) → missing t = 0.
Proof.
  intros HI Hall. rewrite (inv_missing _ _ _ _ HI). replace (filter (λ b, b = false) (arrived t)) with (@nil bool); [done|].
  assert (Ht : Forall (λ b, b = true) (arrived t)).
  { apply Forall_lookup. intros i b Hi. rewrite Hall in Hi; [by injection Hi as <-|].
    apply lookup_lt_Some in Hi. by rewrite (inv_chunks _ _ _ _ HI) in Hi. }
  clear -Ht. induction Ht as [|b l -> _ IH]; [done|]. rewrite filter_cons_False by done. done.
Qed.

(** C38: a kernel image gets through however the network treats its chunks.  From any state of the receiver, a begin
    datagram of an image of at most 8 MB, data datagrams of its chunks in any order, each at least once and as often
    as it may be, and an end datagram make exactly that image come out. *)
Theorem image_arrives_in_any_order img order r :
  is_bytes img → 0 < Z.of_nat (length img) <= MAX_IMAGE →
  (∀ i, i ∈ order ↔ (i * CHUNK < length img)%nat) →
  last (receive ([begin_datagram img] ++ (data_datagram img <$> order) ++ [[0x45]]) r).2 = Some (Complete img).
Proof.
  intros Hb Hm Hin. rewrite app_assoc, receive_datagrams_app. cbn [app receive].
  assert (Hbegin : ∃ x, handle (begin_datagram img) r = (Some (mkTransfer (crc32 img) (replicate (length img) 0)
     (replicate (div_ceil (length img) CHUNK) false) (Z.of_nat (div_ceil (length img) CHUNK))), x)).
  { unfold handle. change (head (begin_datagram img)) with (Some 0x42). unfold begin_datagram, MAX_IMAGE in *.
    rewrite (word_at [0x42]) by (done || unfold uint; lia). rewrite app_assoc.
    rewrite <-(app_nil_r (le_bytes 4 (crc32 img))), word_at by (done || by apply crc32_uint).
    rewrite (proj2 (Z.eqb_neq _ 0)), (proj2 (Z.ltb_ge _ _)), Nat2Z.id by lia. cbn [orb]. eauto. }
  destruct Hbegin as (x & ->).
  destruct (receive_data img (crc32 img) [] order _ Hb (proj2 Hm) (Inv_begin (length img) (crc32 img) Hm)) as (t & Ht & HI & Hall).
  { apply Forall_forall. intros i Hi. by apply Hin. }
  destruct (receive (data_datagram img <$> order) (Some _)) as [r1 xs]. cbn [fst] in Ht. subst r1.
  assert (Hall' : ∀ i, (i < div_ceil (length img) CHUNK)%nat → arrived t !! i = Some true).
  { intros i Hi%div_ceil_lt. apply Hall. left. by apply Hin. }
  assert (Himg : image t = img).
  { apply chunks_eq; [apply HI|]. intros i Hi. rewrite (inv_size _ _ _ _ HI) in Hi.
    destruct (inv_arrived _ _ _ _ HI i) as (d & Hd & _ & Hw & Hdrop); [by apply Hall', div_ceil_lt|].
    apply list_elem_of_fmap in Hd as (j & -> & Hj). destruct (data_word img j (proj2 Hm)) as [Hw' Hd']; [by apply Hin|].
    rewrite Hw' in Hw. injection Hw as Hw. rewrite <-Hdrop, Hd'. f_equal. unfold CHUNK in Hw. lia. }
  unfold handle. cbn [head]. rewrite (none_missing _ _ _ _ HI Hall'), Himg, (inv_crc _ _ _ _ HI). cbn [negb Z.eqb].
  rewrite Z.eqb_refl. cbn [negb snd]. by rewrite last_snoc.
Qed.

Lemma image_arrives_in_any_order_witness :
  last (receive ([begin_datagram [7; 8; 9]] ++ (data_datagram [7; 8; 9] <$> [0; 0]%nat) ++ [[0x45]]) None).2 =
    Some (Complete [7; 8; 9]).
Proof.
  apply (image_arrives_in_any_order [7; 8; 9] [0; 0]%nat None).
  - repeat constructor; unfold uint; cbn; lia.
  - unfold MAX_IMAGE. cbn. lia.
  - intros i. unfold CHUNK. cbn [length]. rewrite !elem_of_cons. split.
    + intros [->|[->|[]%not_elem_of_nil]]; lia.
    + intros Hi. left. lia.
Defined.

Lemma complete_image_was_sent_witness :
  ∃ pre b ds, [begin_datagram [7; 8; 9]; data_datagram [7; 8; 9] 0] = pre ++ b :: ds ∧
    begins b 3 (crc32 [7; 8; 9]).
Proof.
  set (h := [begin_datagram [7; 8; 9]; data_datagram [7; 8; 9] 0]).
  assert (Hh : Forall is_bytes h) by (repeat constructor; vm_compute; done).
  assert (Hr : (handle [0x45] (receive h new).1).2 = Complete [7; 8; 9]) by (vm_compute; reflexivity).
  destruct (handle [0x45] (receive h new).1) as [r' x] eqn:E. cbn in Hr. subst x.
  destruct (complete_image_was_sent h [0x45] r' [7; 8; 9] Hh E) as (pre & b & ds & H1 & H2 & _).
  exists pre, b, ds. split; [exact H1|exact H2].
Defined.
End Update.
