(* ===== verification/Calendar.v ===== *)
(** Calendar dates ([rustypi-core/src/time.rs]): Unix time to dates, the Swedish time zone, FAT
    time stamps and the text of a date, with the proleptic Gregorian calendar (counted one day
    at a time) as the specification. *)
From Stdlib Require Import String Ascii.
From S2P Require Import Prelude Bytes.
Local Open Scope Z_scope.

Module Calendar.

Record DateTime := mkDateTime {
  year : Z; month : Z; day : Z; hour : Z; minute : Z; second : Z; weekday : Z;
}.

Definition WEEKDAYS : list (list Z) :=
  str <$> ["Mon"; "Tue"; "Wed"; "Thu"; "Fri"; "Sat"; "Sun"]%string.

(** Every quotient and remainder below has a non-negative dividend, so the truncating [/] and
    [%] of [i64] are [Z.div] and [Z.modulo]. *)
Definition days_from_civil (year month day : Z) : Z :=
  let '(year, month) := if 12 <? month then (year + 1, month - 12) else (year, month) in
  let year := if month <=? 2 then year - 1 else year in
  let era := year / 400 in
  let yoe := year mod 400 in
  let mp := (month + 9) mod 12 in
  let doy := (153 * mp + 2) / 5 + day - 1 in
  let doe := yoe * 365 + yoe / 4 - yoe / 100 + doy in
  era * 146097 + doe - 719468.

Definition last_sunday (year month : Z) : Z :=
  let last := days_from_civil year (wrap 8 (month + 1)) 1 - 1 in
  last - ((last + 3) mod 7 + 1) mod 7.

Definition from_unix (unix : Z) : DateTime :=
  let days := signed 64 (unix / 86400) in
  let seconds := unix mod 86400 in
  let z := days + 719468 in
  let era := z / 146097 in
  let doe := z mod 146097 in
  let yoe := (doe - doe / 1460 + doe / 36524 - doe / 146096) / 365 in
  let doy := doe - (365 * yoe + yoe / 4 - yoe / 100) in
  let mp := (5 * doy + 2) / 153 in
  let day := wrap 8 (doy - (153 * mp + 2) / 5 + 1) in
  let month := wrap 8 (if mp <? 10 then mp + 3 else mp - 9) in
  let year := yoe + era * 400 + Z.b2z (month <=? 2) in
  mkDateTime year month day (wrap 8 (seconds / 3600)) (wrap 8 (seconds / 60 mod 60))
    (wrap 8 (seconds mod 60)) (wrap 8 ((days + 3) mod 7)).

Inductive Zone := Utc | Sweden.
#[export] Instance Zone_eq_dec : EqDecision Zone.
Proof. solve_decision. Defined.

Definition ALL : list Zone := [Utc; Sweden].

Definition name (z : Zone) : list Z :=
  match z with Utc => str "utc" | Sweden => str "sv" end.

Definition from_name (name : list Z) : option Zone :=
  if decide (name = str "utc") then Some Utc else
  if decide (name = str "sv" ∨ name = str "se" ∨ name = str "cet") then Some Sweden else None.

Definition offset (z : Zone) (unix : Z) : Z * list Z :=
  match z with
  | Utc => (0, str "UTC")
  | Sweden =>
    let year := year (from_unix unix) in
    let start := signed 64 (signed 64 (last_sunday year 3 * 86400) + 3600) in
    let end_ := signed 64 (signed 64 (last_sunday year 10 * 86400) + 3600) in
    let now := signed 64 unix in
    if (start <=? now) && (now <? end_) then (7200, str "CEST") else (3600, str "CET")
  end.

Definition local (z : Zone) (unix : Z) : DateTime * list Z :=
  let '(offset, name) := offset z unix in
  (from_unix (wrap 64 (unix + offset)), name).

(** The packed date and time; shifts at 16 bits. *)
Definition fat (d : DateTime) : Z * Z :=
  if year d <? 1980 then (Z.lor (Z.shiftl 1 5) 1, 0) else
  let year := wrap 16 (Z.min (year d - 1980) 127) in
  let date := Z.lor (Z.lor (wrap 16 (Z.shiftl year 9)) (wrap 16 (Z.shiftl (month d) 5))) (day d) in
  let time := Z.lor (Z.lor (wrap 16 (Z.shiftl (hour d) 11)) (wrap 16 (Z.shiftl (minute d) 5)))
                (second d / 2) in
  (date, time).

(** [{:02}], [{}] of an [i64], and the text of a date ([None]: indexing [WEEKDAYS] panics). *)
Definition dec02 (n : Z) : list Z := if n <? 10 then 0x30 :: dec n else dec n.
Definition dec_i64 (n : Z) : list Z := if n <? 0 then str "-" ++ dec (- n) else dec n.
Definition fmt (d : DateTime) : option (list Z) :=
  w ← WEEKDAYS !! Z.to_nat (weekday d);
  Some (w ++ str " " ++ dec_i64 (year d) ++ str "-" ++ dec02 (month d) ++ str "-" ++ dec02 (day d) ++
        str " " ++ dec02 (hour d) ++ str ":" ++ dec02 (minute d) ++ str ":" ++ dec02 (second d)).

Example fmt_example : fmt (from_unix 1709251199) = Some (str "Thu 2024-02-29 23:59:59").
Proof. reflexivity. Qed.
Example local_example :
  (fmt ∘ fst ∘ local Sweden <$> [1774745999; 1774746000; 1792889999; 1792890000]) =
  [Some (str "Sun 2026-03-29 01:59:59"); Some (str "Sun 2026-03-29 03:00:00");
   Some (str "Sun 2026-10-25 02:59:59"); Some (str "Sun 2026-10-25 02:00:00")].
Proof. reflexivity. Qed.

(** * The Gregorian calendar *)
Definition leap (y : Z) : bool := (y mod 4 =? 0) && (negb (y mod 100 =? 0) || (y mod 400 =? 0)).

Definition days_in_month (y m : Z) : Z :=
  if m =? 2 then (if leap y then 29 else 28)
  else if bool_decide (m ∈ [4; 6; 9; 11]) then 30 else 31.

Definition date_ok (d : Z * Z * Z) : Prop :=
  let '(y, m, n) := d in 1 <= m <= 12 ∧ 1 <= n <= days_in_month y m.

(** The next day's date. *)
Definition next_day (d : Z * Z * Z) : Z * Z * Z :=
  let '(y, m, n) := d in
  if n <? days_in_month y m then (y, m, n + 1)
  else if m <? 12 then (y, m + 1, 1) else (y + 1, 1, 1).

Definition date (t : DateTime) : Z * Z * Z := (year t, month t, day t).
Definition seconds (t : DateTime) : Z := hour t * 3600 + minute t * 60 + second t.
(** Days from the start of an era (March 1 of a year that 400 divides) to March 1 of its year [y]. *)
Definition year_start (y : Z) : Z := 365 * y + y / 4 - y / 100.
(** A day of an era, split into centuries, four-year cycles, years and days. *)
Definition era_split (doe c q r doy : Z) : Prop :=
  0 <= c < 4 ∧ 0 <= q < 25 ∧ 0 <= r < 4 ∧ 0 <= doy <= 365 ∧
  (doy = 365 → r = 3 ∧ (q < 24 ∨ c = 3)) ∧ doe = 36524 * c + 1461 * q + 365 * r + doy.

Lemma era_split_exists doe : 0 <= doe < 146097 → ∃ c q r doy, era_split doe c q r doy.
Proof.
  intros Hd. destruct (decide (doe = 146096)) as [->|]; [exists 3, 24, 3, 365; unfold era_split; lia|].
  set (a := doe mod 36524). set (b := a mod 1461).
  exists (doe / 36524), (a / 1461), (Z.min 3 (b / 365)), (b - 365 * Z.min 3 (b / 365)).
  unfold era_split.
  assert (doe = 36524 * (doe / 36524) + a) by (subst a; apply Z_div_mod_eq_full).
  assert (a = 1461 * (a / 1461) + b) by (subst b; apply Z_div_mod_eq_full).
  assert (0 <= a < 36524) by (subst a; apply Z.mod_pos_bound; lia).
  assert (0 <= b < 1461) by (subst b; apply Z.mod_pos_bound; lia).
  clearbody a b. Z.to_euclidean_division_equations; lia.
Qed.

Lemma era_split_year doe c q r doy : era_split doe c q r doy →
  let y := 100 * c + 4 * q + r in
  (doe - doe / 1460 + doe / 36524 - doe / 146096) / 365 = y ∧ doe - year_start y = doy ∧
  0 <= y < 400 ∧ doy <= (if leap (y + 1) then 365 else 364).
Proof.
  intros (Hc & Hq & Hr & Hdoy & Hleap & ->) y.
  assert (Hy4 : y / 4 = 25 * c + q) by (subst y; Z.to_euclidean_division_equations; lia).
  assert (Hy100 : y / 100 = c) by (subst y; Z.to_euclidean_division_equations; lia).
  assert (Hl : doy = 365 → leap (y + 1) = true).
  { intros E. destruct (Hleap E) as [-> Hor]. unfold leap.
    rewrite (proj2 (Z.eqb_eq ((y + 1) mod 4) 0)) by (subst y; Z.to_euclidean_division_equations; lia).
    destruct Hor as [Hor| ->].
    - rewrite (proj2 (Z.eqb_neq ((y + 1) mod 100) 0)); [done|]. subst y; Z.to_euclidean_division_equations; lia.
    - destruct (decide (q = 24)) as [->|].
      + subst y. reflexivity. 
      + rewrite (proj2 (Z.eqb_neq ((y + 1) mod 100) 0)); [done|]. subst y; Z.to_euclidean_division_equations; lia. }
  split_and!.
  - set (doe := 36524 * c + 1461 * q + 365 * r + doy) in *.
    subst y.
    destruct (decide (doe = 146096)) as [E|].
    + rewrite E. replace c with 3 by lia. replace q with 24 by lia. replace r with 3 by lia. reflexivity.
    + assert (doe / 146096 = 0) as -> by (apply Z.div_small; lia).
      assert (doe / 36524 = c) as -> by (subst doe; Z.to_euclidean_division_equations; lia).
      Z.to_euclidean_division_equations; lia.
  - unfold year_start. rewrite Hy4, Hy100. subst y. lia.
  - subst y; lia.
  - subst y; lia.
  - destruct (leap (y + 1)); [lia|]. destruct (decide (doy = 365)); [|lia]. by specialize (Hl ltac:(done)).
Qed.

Definition month_of (mp : Z) : Z := if mp <? 10 then mp + 3 else mp - 9.

(** The date of the day [z], counted from March 1 of year 0. *)
Definition civil (z : Z) : Z * Z * Z :=
  let era := z / 146097 in
  let doe := z mod 146097 in
  let yoe := (doe - doe / 1460 + doe / 36524 - doe / 146096) / 365 in
  let doy := doe - year_start yoe in
  let mp := (5 * doy + 2) / 153 in
  (yoe + era * 400 + Z.b2z (month_of mp <=? 2), month_of mp, doy - (153 * mp + 2) / 5 + 1).

Lemma leap_era y k : leap (y + k * 400) = leap y.
Proof.
  unfold leap. replace (y + k * 400) with (y + k * 100 * 4) at 1 by lia.
  replace (y + k * 400) with (y + k * 4 * 100) at 1 by lia. by rewrite !Z_mod_plus_full.
Qed.

(** The months counted from March: number, month, days before it, and its most days. *)
Definition months : list (Z * Z * Z * Z) :=
  [(0, 3, 0, 31); (1, 4, 31, 30); (2, 5, 61, 31); (3, 6, 92, 30); (4, 7, 122, 31); (5, 8, 153, 31);
   (6, 9, 184, 30); (7, 10, 214, 31); (8, 11, 245, 30); (9, 12, 275, 31); (10, 1, 306, 31);
   (11, 2, 337, 29)].

Lemma months_spec : Forall (λ '(mp, m, s, n),
  (∀ doy, s <= doy < s + n → (5 * doy + 2) / 153 = mp) ∧ (153 * mp + 2) / 5 = s ∧
  month_of mp = m ∧ (m + 9) mod 12 = mp ∧ 1 <= m <= 12 ∧
  ∀ y, days_in_month y m = n - Z.b2z ((m =? 2) && negb (leap y))) months.
Proof.
  repeat constructor; try (intros doy Hd; Z.to_euclidean_division_equations; lia);
    intros y; unfold days_in_month; cbn; try done; by destruct (leap y).
Qed.

Lemma month_row mp m s n : (mp, m, s, n) ∈ months →
  (∀ doy, s <= doy < s + n → (5 * doy + 2) / 153 = mp) ∧ (153 * mp + 2) / 5 = s ∧
  month_of mp = m ∧ (m + 9) mod 12 = mp ∧ 1 <= m <= 12 ∧
  ∀ y, days_in_month y m = n - Z.b2z ((m =? 2) && negb (leap y)).
Proof. intros H. apply (proj1 (Forall_forall _ _) months_spec _ H). Qed.

Lemma month_of_doy doy : 0 <= doy <= 365 → ∃ mp m s n, (mp, m, s, n) ∈ months ∧ s <= doy < s + n.
Proof.
  intros Hd. assert (He : Exists (λ '(_, _, s, n), s <= doy < s + n) months).
  { unfold months. rewrite !Exists_cons, Exists_nil. lia. }
  apply Exists_exists in He as ([[[mp m] s] n] & Hin & Hs). eauto 6.
Qed.

Lemma month_by_number m : 1 <= m <= 12 → ∃ mp s n, (mp, m, s, n) ∈ months.
Proof.
  intros Hm. assert (He : Exists (λ '(_, m', _, _), m' = m) months).
  { unfold months. rewrite !Exists_cons, Exists_nil. lia. }
  apply Exists_exists in He as ([[[mp m'] s] n] & Hin & ->). eauto.
Qed.

(** The last day of the year is the leap day. *)
Lemma months_end mp m s n : (mp, m, s, n) ∈ months → s + n <= 366 ∧ (m = 2 ∧ s + n = 366 ∨ s + n < 366) ∧ 0 <= s ∧ 0 < n.
Proof.
  assert (H : Forall (λ '(_, m, s, n), s + n <= 366 ∧ (m = 2 ∧ s + n = 366 ∨ s + n < 366) ∧ 0 <= s ∧ 0 < n) months)
    by (repeat constructor; lia).
  intros Hin. apply (proj1 (Forall_forall _ _) H _ Hin).
Qed.

Lemma days_from_civil_row y mp m s n d : (mp, m, s, n) ∈ months →
  let y' := if m <=? 2 then y - 1 else y in
  days_from_civil y m d = y' / 400 * 146097 + year_start (y' mod 400) + s + d - 1 - 719468.
Proof.
  intros (_ & Hs & _ & Hmp & Hm & _)%month_row. unfold days_from_civil, year_start.
  rewrite (proj2 (Z.ltb_ge 12 m)) by lia. cbn zeta. rewrite Hmp, Hs. lia.
Qed.

(** [civil] finds a valid date, and [days_from_civil] its day again. *)
Lemma civil_ok z : date_ok (civil z) ∧ (let '(y, m, d) := civil z in days_from_civil y m d = z - 719468).
Proof.
  unfold civil. pose proof (Z.mod_pos_bound z 146097 ltac:(lia)) as Hdoe.
  pose proof (Z_div_mod_eq_full z 146097) as Hz.
  set (doe := z mod 146097) in *. set (era := z / 146097) in *. clearbody doe era.
  destruct (era_split_exists doe Hdoe) as (c & q & r & doy & Hsp).
  pose proof Hsp as (_ & _ & _ & Hdoy & _).
  apply era_split_year in Hsp. set (y := 100 * c + 4 * q + r) in *. cbn zeta in Hsp.
  destruct Hsp as (-> & Hdy & Hy & Hleap). rewrite Hdy. clearbody y.
  destruct (month_of_doy doy ltac:(lia)) as (mp & m & s & n & Hrow & Hs).
  pose proof (month_row _ _ _ _ Hrow) as (Hmp & Hps & Hm & _ & Hm12 & Hdim).
  pose proof (months_end _ _ _ _ Hrow) as (_ & Hend & _).
  rewrite (Hmp doy Hs), Hps, Hm. split.
  - split; [done|]. rewrite Hdim. 
    destruct (Z.eqb_spec m 2) as [->|]; cbn [andb]; [|cbn; lia].
    cbn [Z.leb Z.b2z]. change (Z.b2z (2 <=? 2)) with 1.
    replace (y + era * 400 + 1) with (y + 1 + era * 400) by lia. rewrite leap_era.
    assert (s = 337 ∧ n = 29) as [-> ->] by (clear -Hrow; unfold months in Hrow; rewrite !elem_of_cons, elem_of_nil in Hrow; naive_solver).
    destruct (leap (y + 1)); cbn; lia.
  - rewrite (days_from_civil_row _ _ _ _ _ _ Hrow). cbn zeta.
    assert ((if m <=? 2 then y + era * 400 + Z.b2z (m <=? 2) - 1 else y + era * 400 + Z.b2z (m <=? 2)) = y + era * 400) as ->
      by (destruct (m <=? 2); cbn; lia).
    rewrite Z_div_plus_full, Z_mod_plus_full, Z.div_small, Z.mod_small by lia.
    lia.
Qed.

(** Every valid date is the date of its day. *)
Lemma civil_days_from_civil y m d : date_ok (y, m, d) →
  civil (days_from_civil y m d + 719468) = (y, m, d).
Proof.
  intros [Hm Hd]. destruct (month_by_number m Hm) as (mp & s & n & Hrow).
  pose proof (month_row _ _ _ _ Hrow) as (Hmp & Hps & Hmm & _ & _ & Hdim).
  pose proof (months_end _ _ _ _ Hrow) as (Hend & Hlast & Hs0 & Hn).
  rewrite (days_from_civil_row _ _ _ _ _ _ Hrow). cbn zeta. rewrite Hdim in Hd.
  set (y' := if m <=? 2 then y - 1 else y).
  assert (Hy' : y = y' + Z.b2z (m <=? 2)) by (subst y'; destruct (m <=? 2); cbn; lia). clearbody y'.
  pose proof (Z.mod_pos_bound y' 400 ltac:(lia)) as Hb. pose proof (Z_div_mod_eq_full y' 400) as Hde.
  set (yoe := y' mod 400) in *. set (era := y' / 400) in *.
  set (doy := s + d - 1).
  assert (Hsp : era_split (year_start yoe + doy) (yoe / 100) (yoe mod 100 / 4) (yoe mod 4) doy).
  { assert (Hl : doy = 365 → leap (yoe + 1) = true).
    { intros E. assert (m = 2) as -> by (subst doy; destruct ((m =? 2) && _); cbn in Hd; lia).
      destruct (leap (yoe + 1)) eqn:El; [done|]. exfalso. subst doy.
      replace y with (yoe + 1 + era * 400) in Hd by (change (Z.b2z (2 <=? 2)) with 1 in Hy'; lia). rewrite leap_era, El in Hd. cbn in Hd. lia. }
    assert (Hdoy : 0 <= doy <= 365) by (subst doy; destruct ((m =? 2) && _); cbn in Hd; lia).
    clearbody doy yoe. unfold era_split, year_start. split_and!; try (Z.to_euclidean_division_equations; lia).
    intros E. specialize (Hl E). unfold leap in Hl. apply andb_true_iff in Hl as [H4%Z.eqb_eq H100%orb_true_iff].
    rewrite negb_true_iff, Z.eqb_neq, Z.eqb_eq in H100. Z.to_euclidean_division_equations; lia. }
  pose proof (era_split_year _ _ _ _ _ Hsp) as (Hf & Hdy & _ & _).
  replace (100 * (yoe / 100) + 4 * (yoe mod 100 / 4) + yoe mod 4) with yoe in Hf, Hdy
    by (clear; Z.to_euclidean_division_equations; lia).
  assert (Hdoe : 0 <= year_start yoe + doy < 146097).
  { destruct Hsp as (? & ? & ? & ? & Hlp & ->). lia. }
  unfold civil. replace (era * 146097 + year_start yoe + s + d - 1 - 719468 + 719468)
    with (year_start yoe + doy + era * 146097) by (subst doy; lia).
  rewrite Z_div_plus_full, Z_mod_plus_full, (Z.div_small _ 146097), (Z.mod_small _ 146097) by lia. cbn zeta.
  rewrite Hf, Hdy, (Hmp doy), Hps, Hmm by (subst doy; destruct ((m =? 2) && _); cbn in Hd; lia).
  f_equal; [f_equal|]; subst doy; lia.
Qed.

Definition before (m : Z) : Z := (153 * ((m + 9) mod 12) + 2) / 5.

Lemma days_from_civil_linear y m d : 1 <= m <= 12 →
  let y' := if m <=? 2 then y - 1 else y in
  days_from_civil y m d = 365 * y' + y' / 4 - y' / 100 + y' / 400 + before m + d - 1 - 719468.
Proof.
  intros Hm y'. unfold days_from_civil, before. rewrite (proj2 (Z.ltb_ge 12 m)) by lia. fold y'.
  clearbody y'. generalize ((153 * ((m + 9) mod 12) + 2) / 5). intros b.
  Z.to_euclidean_division_equations; lia.
Qed.

Lemma leap_step y : y / 4 - y / 100 + y / 400 =
  (y - 1) / 4 - (y - 1) / 100 + (y - 1) / 400 + Z.b2z (leap y).
Proof.
  unfold leap. destruct (Z.eqb_spec (y mod 4) 0), (Z.eqb_spec (y mod 100) 0), (Z.eqb_spec (y mod 400) 0);
    cbn; Z.to_euclidean_division_equations; lia.
Qed.

Lemma before_next m : 1 <= m < 12 → m ≠ 2 → before (m + 1) = before m + days_in_month 0 m.
Proof.
  intros. assert (m = 1 ∨ m = 3 ∨ m = 4 ∨ m = 5 ∨ m = 6 ∨ m = 7 ∨ m = 8 ∨ m = 9 ∨ m = 10 ∨ m = 11) as Hc by lia.
  by destruct_or! Hc; subst.
Qed.

(** The day after a valid date is one day later. *)
Lemma next_day_days y m d : date_ok (y, m, d) →
  date_ok (next_day (y, m, d)) ∧
  (let '(y', m', d') := next_day (y, m, d) in days_from_civil y' m' d' = days_from_civil y m d + 1).
Proof.
  intros [Hm Hd]. unfold next_day.
  assert (Hpos : ∀ y m, 28 <= days_in_month y m).
  { intros. unfold days_in_month. repeat case_match; lia. }
  destruct (Z.ltb_spec d (days_in_month y m)).
  { split; [split; lia|]. rewrite !days_from_civil_linear by lia. lia. }
  assert (d = days_in_month y m) as -> by lia.
  destruct (Z.ltb_spec m 12) as [Hlt|].
  - specialize (Hpos y (m + 1)). split; [split; lia|]. rewrite !days_from_civil_linear by lia. cbn zeta.
    destruct (decide (m = 2)) as [->|].
    + change (2 + 1 <=? 2) with false. change (2 <=? 2) with true. change (2 + 1) with 3. cbn beta match.
      change (before 3) with 0. change (before 2) with 337. unfold days_in_month. cbn [Z.eqb Pos.eqb].
      pose proof (leap_step y). destruct (leap y); cbn [Z.b2z] in *; lia.
    + rewrite before_next by lia.
      assert (days_in_month y m = days_in_month 0 m) as ->.
      { unfold days_in_month. destruct (Z.eqb_spec m 2); [lia|done]. }
      destruct (Z.leb_spec m 2), (Z.leb_spec (m + 1) 2); lia.
  - assert (m = 12) as -> by lia. split; [split; [lia|split; [lia|]; specialize (Hpos (y + 1) 1); lia]|].
    rewrite !days_from_civil_linear by lia. cbn zeta.
    change (1 <=? 2) with true. change (12 <=? 2) with false. cbn beta match.
    change (before 1) with 306. change (before 12) with 275. change (days_in_month y 12) with 31.
    replace (y + 1 - 1) with y by lia. lia.
Qed.

Lemma from_unix_date unix : date_ok (civil (signed 64 (unix / 86400) + 719468)) →
  date (from_unix unix) = civil (signed 64 (unix / 86400) + 719468).
Proof.
  unfold date, from_unix. cbn zeta. cbn [year month day]. generalize (signed 64 (unix / 86400) + 719468).
  intros z. unfold civil, year_start, month_of, date_ok. cbn zeta.
  match goal with |- context [wrap 8 (if ?c then ?a else ?b)] => set (mm := if c then a else b) end.
  match goal with |- context [wrap 8 (?x - ?y + 1)] => set (dd := x - y + 1) end.
  intros [Hm Hd]. assert (Hdim : ∀ y m, days_in_month y m <= 31).
  { intros. unfold days_in_month. repeat case_match; lia. }
  pose proof (Z.le_trans _ _ _ (proj2 Hd) (Hdim _ mm)). clearbody mm dd.
  by rewrite !wrap_small by (unfold uint; lia).
Qed.

Lemma days_signed unix : uint 64 unix → signed 64 (unix / 86400) = unix / 86400.
Proof.
  intros Hu. unfold uint in Hu. change (2 ^ 64) with 18446744073709551616 in Hu.
  rewrite <-(wrap_small 64 (unix / 86400)) at 1
    by (unfold uint; change (2 ^ 64) with 18446744073709551616; Z.to_euclidean_division_equations; lia).
  apply signed_wrap; [lia|]. unfold sint. change (2 ^ (64 - 1)) with 9223372036854775808.
  Z.to_euclidean_division_equations; lia.
Qed.

(** What [from_unix] computes, field by field. *)
Lemma from_unix_spec unix : uint 64 unix → let t := from_unix unix in
  date t = civil (unix / 86400 + 719468) ∧ date_ok (date t) ∧
  days_from_civil (year t) (month t) (day t) = unix / 86400 ∧
  hour t = unix mod 86400 / 3600 ∧ minute t = unix mod 86400 / 60 mod 60 ∧ second t = unix mod 60 ∧
  weekday t = (unix / 86400 + 3) mod 7.
Proof.
  intros Hu t. pose proof (days_signed unix Hu) as Hs.
  pose proof (from_unix_date unix) as Hd. rewrite Hs in Hd.
  destruct (civil_ok (unix / 86400 + 719468)) as [Hok Hdays]. specialize (Hd Hok). fold t in Hd.
  rewrite <-Hd in Hok, Hdays. cbn [date] in Hdays. split_and!; [done..|lia| | | |];
    subst t; unfold from_unix; cbn [hour minute second weekday]; rewrite ?Hs;
    rewrite wrap_small by (unfold uint; change (2 ^ 8) with 256; Z.to_euclidean_division_equations; lia); [done..| |done].
  Z.to_euclidean_division_equations; lia.
Qed.

Lemma from_unix_ext d s : 0 <= s < 86400 → uint 64 (d * 86400 + s) →
  (d * 86400 + s) / 86400 = d ∧ (d * 86400 + s) mod 86400 = s.
Proof. intros. split; Z.to_euclidean_division_equations; lia. Qed.

(** [from_unix] follows the Gregorian calendar, counted one day at a time: the first day is
    Thursday 1970-01-01, and a day later is the next day of the calendar (leap years and
    century rules included), the next day of the week and the same time of day.  Every date it
    gives exists, and its time of day is the second of the day. *)
Theorem from_unix_counts_days :
  (∀ s, 0 <= s < 86400 → date (from_unix s) = (1970, 1, 1) ∧ weekday (from_unix s) = 3) ∧
  ∀ unix, uint 64 unix →
    date_ok (date (from_unix unix)) ∧ seconds (from_unix unix) = unix mod 86400 ∧
    hour (from_unix unix) < 24 ∧ minute (from_unix unix) < 60 ∧ second (from_unix unix) < 60 ∧
    (uint 64 (unix + 86400) →
     date (from_unix (unix + 86400)) = next_day (date (from_unix unix)) ∧
     weekday (from_unix (unix + 86400)) = (weekday (from_unix unix) + 1) mod 7 ∧
     seconds (from_unix (unix + 86400)) = seconds (from_unix unix)).
Proof.
  assert (Hsec : ∀ u, uint 64 u → seconds (from_unix u) = u mod 86400).
  { intros u (_ & _ & _ & Hh & Hmin & Hs & _)%from_unix_spec. unfold seconds. rewrite Hh, Hmin, Hs.
    Z.to_euclidean_division_equations; lia. }
  split.
  - intros s Hs. assert (Hu : uint 64 s) by (unfold uint; lia).
    destruct (from_unix_spec s Hu) as (Hd & _ & _ & _ & _ & _ & Hw).
    rewrite Hd, Hw, Z.div_small by lia. done.
  - intros u Hu. destruct (from_unix_spec u Hu) as (Hd & Hok & Hdays & Hh & Hmin & Hs & Hw).
    split_and!; [done|auto|rewrite Hh; Z.to_euclidean_division_equations; lia
                |rewrite Hmin; apply Z.mod_pos_bound; lia|rewrite Hs; apply Z.mod_pos_bound; lia|].
    intros Hu'. destruct (from_unix_spec _ Hu') as (Hd' & _ & _ & _ & _ & _ & Hw').
    replace (u + 86400) with (u + 1 * 86400) in Hd', Hw' by lia. rewrite Z_div_plus_full in Hd', Hw' by lia.
    replace (u + 1 * 86400) with (u + 86400) in Hd', Hw' by lia. split_and!.
    + rewrite Hd'. unfold date in Hok. destruct (next_day_days _ _ _ Hok) as [Hok' Hn].
      unfold date. destruct (next_day _) as [[y' m'] d'] eqn:En. rewrite <-(civil_days_from_civil y' m' d') by done.
      f_equal. lia.
    + rewrite Hw', Hw, Zplus_mod_idemp_l. f_equal. lia.
    + rewrite !Hsec by done. replace (u + 86400) with (u + 1 * 86400) by lia. apply Z_mod_plus_full.
Qed.

Lemma from_unix_counts_days_witness :
  date (from_unix (1709164800 + 86400)) = next_day (date (from_unix 1709164800)) ∧
  date (from_unix 1709164800) = (2024, 2, 29).
Proof.
  split; [|reflexivity]. apply (proj2 from_unix_counts_days 1709164800); unfold uint; lia.
Defined.

(** Dates and days convert both ways: a date that exists, from 1970 on and within 64-bit
    time, comes back from its day number and time of day, and the day number of the date of
    any time is that time's. *)
Theorem date_roundtrip y m d s : date_ok (y, m, d) → 0 <= s < 86400 →
  uint 64 (days_from_civil y m d * 86400 + s) →
  date (from_unix (days_from_civil y m d * 86400 + s)) = (y, m, d) ∧
  seconds (from_unix (days_from_civil y m d * 86400 + s)) = s ∧
  ∀ unix, uint 64 unix → let t := from_unix unix in
    days_from_civil (year t) (month t) (day t) * 86400 + seconds t = unix.
Proof.
  intros Hok Hs Hu. destruct (from_unix_ext _ _ Hs Hu) as [Hq Hr].
  destruct (from_unix_spec _ Hu) as (Hd & _ & _ & Hh & Hmin & Hsec & _). split_and!.
  - rewrite Hd, Hq. by apply civil_days_from_civil.
  - unfold seconds. rewrite Hh, Hmin, Hsec, Hr. rewrite <-Hr at 4. Z.to_euclidean_division_equations; lia.
  - intros u (_ & _ & H1 & H2 & H3 & H4 & _)%from_unix_spec. cbn zeta. unfold seconds.
    rewrite H1, H2, H3, H4. Z.to_euclidean_division_equations; lia.
Qed.

Lemma date_roundtrip_witness : date (from_unix (days_from_civil 2024 2 29 * 86400 + 3661)) = (2024, 2, 29).
Proof.
  apply (date_roundtrip 2024 2 29 3661).
  - split; [lia|]. change (days_in_month 2024 2) with 29. lia.
  - lia.
  - change (days_from_civil 2024 2 29) with 19782. unfold uint. lia.
Defined.

End Calendar.
