(* ===== verification/Net.v ===== *)
(** The network protocols ([rustypi-core/src/net/]): addresses and the Internet checksum, and
    the parsing and building of Ethernet, ARP, IPv4, ICMP echo, UDP, DHCP, DNS and SNTP messages
    and of the LAN7800 controller's framing.

    A parser has type [option (option A)]: the outer [None] is a panic (an index out of range),
    the inner one Rust's [None]. *)
From Stdlib Require Import String Ascii.
From S2P Require Import Prelude Bytes.
Local Open Scope Z_scope.

(** Rust's [||] on tests that may panic. *)
Definition or_else (a b : option bool) : option bool :=
  match a with Some false => b | _ => a end.
Infix "∥" := or_else (at level 50, left associativity).

Definition u16_at (bytes : list Z) (at_ : nat) : option Z :=
  a ← bytes !! at_; b ← bytes !! S at_; Some (a * 256 + b).
Definition ipv4_at (bytes : list Z) (at_ : nat) : option (list Z) :=
  a ← bytes !! at_; b ← bytes !! (at_ + 1)%nat; c ← bytes !! (at_ + 2)%nat; d ← bytes !! (at_ + 3)%nat;
  Some [a; b; c; d].
Definition mac_at (bytes : list Z) (at_ : nat) : option (list Z) := slice at_ (at_ + 6) bytes.

(** [dst[at..at + src.len()].copy_from_slice(src)]. *)
Definition copy_at (at_ : nat) (src dst : list Z) : option (list Z) :=
  if decide (at_ + length src ≤ length dst)%nat
  then Some (take at_ dst ++ src ++ drop (at_ + length src) dst) else None.

(** [Vec::resize] with a filler. *)
Definition resize (n : nat) (x : Z) (l : list Z) : list Z := take n l ++ replicate (n - length l) x.

(** * Addresses *)
Module Addr.
(** A [Mac] is its 6 bytes, an [Ipv4] its 4. *)
Definition mac_ok (m : list Z) : Prop := length m = 6%nat ∧ is_bytes m.
Definition ip_ok (a : list Z) : Prop := length a = 4%nat ∧ is_bytes a.

Definition MAC_BROADCAST : list Z := replicate 6 0xFF.
Definition UNSPECIFIED : list Z := replicate 4 0.
Definition BROADCAST : list Z := replicate 4 255.

Definition octet (part : list Z) : option Z :=
  if bool_decide (part = []) || bool_decide (3 < length part)%nat || negb (forallb (between 0x30 0x39) part)
  then None else parse_uint 255 part.

Definition parse (text : list Z) : option (list Z) :=
  match split 0x2E text with
  | p0 :: p1 :: p2 :: p3 :: rest =>
    a ← octet p0; b ← octet p1; c ← octet p2; d ← octet p3;
    if bool_decide (rest = []) then Some [a; b; c; d] else None
  | _ => None
  end.

(** [Display]. *)
Definition fmt (addr : list Z) : list Z :=
  match addr with
  | [a; b; c; d] => dec a ++ str "." ++ dec b ++ str "." ++ dec c ++ str "." ++ dec d
  | _ => []
  end.

Definition bits (a : list Z) : Z := be_value a.
Definition same_network (a other netmask : list Z) : bool :=
  Z.land (bits a) (bits netmask) =? Z.land (bits other) (bits netmask).
End Addr.

(** * The Internet checksum *)
Module Checksum.
Fixpoint sum (acc : Z) (data : list Z) : Z :=
  match data with
  | a :: b :: data => sum (wrap 32 (acc + (a * 256 + b))) data
  | [last] => wrap 32 (acc + Z.shiftl last 8)
  | [] => acc
  end.

(** The loop of [finish]; three rounds are enough for any 32-bit sum. *)
Fixpoint fold_carries (fuel : nat) (acc : Z) : option Z :=
  if Z.shiftr acc 16 =? 0 then Some acc else
  match fuel with
  | O => None
  | S fuel => fold_carries fuel (Z.land acc 0xFFFF + Z.shiftr acc 16)
  end.
Definition finish (acc : Z) : Z := bnot 16 (wrap 16 (default 0 (fold_carries 3 acc))).
Definition checksum (data : list Z) : Z := finish (sum 0 data).

(** The sum of a message's 16-bit words, the last one padded. *)
Fixpoint words (data : list Z) : Z :=
  match data with
  | a :: b :: data => a * 256 + b + words data
  | [last] => last * 256
  | [] => 0
  end.

Lemma pair_ind (P : list Z → Prop) : P [] → (∀ a, P [a]) → (∀ a b l, P l → P (a :: b :: l)) → ∀ l, P l.
Proof.
  intros H0 H1 H2 l. assert (H : P l ∧ ∀ a, P (a :: l)); [|apply H].
  induction l as [|b l [IH1 IH2]]; split; auto.
Qed.

Lemma words_bound l : is_bytes l → 0 <= words l <= 65535 * ((Z.of_nat (length l) + 1) / 2).
Proof.
  induction l as [|a|a b l IH] using pair_ind; cbn [words length]; intros Hb.
  - done.
  - apply Forall_cons in Hb as [Ha _]. unfold uint in Ha. change (2 ^ 8) with 256 in Ha.
    change ((Z.of_nat 1 + 1) / 2) with 1. lia.
  - apply Forall_cons in Hb as [Ha [Hb Hl]%Forall_cons]. specialize (IH Hl). unfold uint in *. change (2 ^ 8) with 256 in *.
    replace (Z.of_nat (S (S (length l))) + 1) with (Z.of_nat (length l) + 1 + 1 * 2) by lia.
    rewrite Z_div_plus_full by lia. lia.
Qed.

Lemma words_app l1 l2 : Nat.Even (length l1) → words (l1 ++ l2) = words l1 + words l2.
Proof.
  induction l1 as [|a|a b l1 IH] using pair_ind; cbn [words app length]; intros He; [done| |].
  - destruct He as [k Hk]. lia.
  - rewrite IH; [lia|]. destruct He as [k Hk]. exists (k - 1)%nat. lia.
Qed.

Lemma sum_words acc l : is_bytes l → 0 <= acc → acc + words l < 2 ^ 32 → sum acc l = acc + words l.
Proof.
  revert acc. induction l as [|a|a b l IH] using pair_ind; cbn [words sum]; intros acc Hb Ha Hs.
  - lia.
  - apply Forall_cons in Hb as [Hx _]. unfold uint in Hx. rewrite Z.shiftl_mul_pow2 by lia.
    apply wrap_small. unfold uint. change (2 ^ 8) with 256 in *. lia.
  - apply Forall_cons in Hb as [Hx [Hy Hl]%Forall_cons]. pose proof (words_bound l Hl) as [Hw _].
    unfold uint in *. change (2 ^ 8) with 256 in *.
    rewrite wrap_small by (unfold uint; lia). rewrite IH by (done || lia). lia.
Qed.

Lemma land_ffff a : Z.land a 0xFFFF = a mod 2 ^ 16.
Proof. by apply (Z.land_ones a 16). Qed.

(** The folded sum is the sum modulo 65535, and 0 only for 0. *)
Lemma fold_carries_spec acc : uint 32 acc → ∃ v, fold_carries 3 acc = Some v ∧ uint 16 v ∧
  v mod 65535 = acc mod 65535 ∧ (v = 0 ↔ acc = 0).
Proof.
  assert (Hstep : ∀ a, 0 <= a → ∃ v, v = Z.land a 0xFFFF + Z.shiftr a 16 ∧
    v mod 65535 = a mod 65535 ∧ (v = 0 ↔ a = 0) ∧ 0 <= v <= 65535 + a / 65536).
  { intros a Ha. eexists. split; [done|]. rewrite land_ffff, Z.shiftr_div_pow2 by lia.
    change (2 ^ 16) with 65536. pose proof (Z_div_mod_eq_full a 65536). pose proof (Z.mod_pos_bound a 65536 ltac:(lia)).
    assert (0 <= a / 65536) by (apply Z.div_pos; lia). split; [|split; [split; intros; lia|lia]].
    replace a with (a mod 65536 + a / 65536 + (a / 65536) * 65535) at 3 by lia. by rewrite Z_mod_plus_full. }
  assert (Hend : ∀ n a, 0 <= a < 65536 → fold_carries n a = Some a).
  { intros n a Ha. destruct n; cbn [fold_carries]; rewrite Z.shiftr_div_pow2, Z.div_small by lia; done. }
  assert (Hnext : ∀ n a, fold_carries (S n) a = if decide (a / 65536 = 0) then Some a else fold_carries n (Z.land a 0xFFFF + Z.shiftr a 16)).
  { intros n a. cbn [fold_carries]. rewrite Z.shiftr_div_pow2 by lia. change (2 ^ 16) with 65536.
    destruct (Z.eqb_spec (a / 65536) 0); by case_decide. }
  intros Ha. unfold uint in Ha. rewrite Hnext. case_decide.
  { exists acc. split_and!; try done. unfold uint. Z.to_euclidean_division_equations; lia. }
  destruct (Hstep acc ltac:(lia)) as (v1 & <- & Hm1 & Hz1 & Hb1).
  assert (acc / 65536 <= 65535) by (apply Z.lt_succ_r, Z.div_lt_upper_bound; lia).
  rewrite Hnext. case_decide.
  { exists v1. split_and!; try done. unfold uint. Z.to_euclidean_division_equations; lia. }
  destruct (Hstep v1 ltac:(lia)) as (v2 & E & Hm2 & Hz2 & Hb2).
  exists v2. assert (v2 < 65536).
  { rewrite E. rewrite land_ffff, Z.shiftr_div_pow2 by lia. change (2 ^ 16) with 65536.
    Z.to_euclidean_division_equations; lia. }
  rewrite <-E, Hend by lia. split_and!; [done|unfold uint; lia|congruence|tauto].
Qed.

Lemma finish_spec acc : uint 32 acc → uint 16 (finish acc) ∧ (finish acc + acc) mod 65535 = 0 ∧
  0 < finish acc + acc ∧
  (finish acc = 0 ↔ 0 < acc ∧ acc mod 65535 = 0).
Proof.
  intros Ha. destruct (fold_carries_spec acc Ha) as (v & Hf & Hv & Hm & Hz). unfold finish. rewrite Hf. change (default 0 (Some v)) with v.
  rewrite wrap_small, bnot_sub by (done || lia). unfold ones.
  unfold uint in *. change (2 ^ 16) with 65536 in *. split; [lia|split; [|split; [destruct (decide (acc = 0)); lia|]]].
  - rewrite <-Z.add_mod_idemp_r, <-Hm, Z.add_mod_idemp_r by lia. replace (65536 - 1 - v + v) with (1 * 65535) by lia. done.
  - split; intros H.
    + assert (v = 65535) by lia. rewrite <-Hm. subst v. split; [|done]. destruct (decide (acc = 0)); lia.
    + assert (0 < v) by (destruct (decide (v = 0)); [lia|lia]). rewrite <-Hm in H.
      assert (v = 65535); [|lia]. destruct H as [_ H]. Z.to_euclidean_division_equations; lia.
Qed.

Lemma words_splice l1 x l2 : Nat.Even (length l1) → uint 16 x →
  words (l1 ++ be_bytes 2 x ++ l2) = words (l1 ++ [0; 0] ++ l2) + x.
Proof.
  intros He Hx. rewrite (words_app l1 (be_bytes _ _ ++ _)), (words_app l1 ([0; 0] ++ _)) by done. unfold uint in Hx. change (2 ^ 16) with 65536 in Hx.
  unfold be_bytes. cbn [le_bytes rev app words]. assert (x / 256 mod 256 = x / 256) as -> by (apply Z.mod_small; Z.to_euclidean_division_equations; lia).
  pose proof (Z_div_mod_eq_full x 256). lia.
Qed.

(** What a message adds up to, when it is not too long for a 32-bit sum. *)
Definition summable (l : list Z) : Prop := is_bytes l ∧ words l < 2 ^ 32 - 2 ^ 16.

Lemma summable_length l : is_bytes l → Z.of_nat (length l) <= 131068 → summable l.
Proof.
  intros Hb Hl. split; [done|]. pose proof (words_bound l Hb) as [_ Hw].
  assert ((Z.of_nat (length l) + 1) / 2 <= 65534) by (Z.to_euclidean_division_equations; lia). lia.
Qed.

Lemma checksum_zero l : is_bytes l → words l < 2 ^ 32 →
  checksum l = 0 ↔ 0 < words l ∧ words l mod 65535 = 0.
Proof.
  intros Hb Hs. unfold checksum. pose proof (words_bound l Hb) as [Hw _]. rewrite sum_words by (done || lia).
  apply finish_spec. unfold uint. lia.
Qed.

(** A message with its checksum in an aligned field that was 0 adds up to 0. *)
Lemma checksum_splice l1 l2 (l := l1 ++ [0; 0] ++ l2) (c := checksum l) :
  Nat.Even (length l1) → summable l →
  uint 16 c ∧ checksum (l1 ++ be_bytes 2 c ++ l2) = 0.
Proof.
  intros He [Hb Hs]. assert (Hc : c = finish (words l)).
  { subst c. unfold checksum. by rewrite sum_words by (done || lia). }
  pose proof (words_bound l Hb) as [Hw _].
  destruct (finish_spec (words l)) as (Hu & Hm & Hp & _); [unfold uint; lia|]. rewrite <-Hc in Hu, Hm, Hp.
  split; [done|]. assert (Hb' : is_bytes (l1 ++ be_bytes 2 c ++ l2)).
  { unfold l, is_bytes in *. rewrite !Forall_app in *. destruct Hb as (? & _ & ?). split_and!; try done.
    apply is_bytes_be_bytes. }
  pose proof (words_splice l1 c l2 He Hu) as E. fold l in E. unfold uint in Hu.
  apply checksum_zero; [done|lia|]. rewrite E, Z.add_comm. done.
Qed.
End Checksum.

(** * Ethernet *)
Module Ethernet.
Definition ARP : Z := 0x0806.
Definition IPV4 : Z := 0x0800.
Definition HEADER : nat := 14.
Definition MIN_FRAME : nat := 60.

Record Frame := mkFrame { dst : list Z; src : list Z; ethertype : Z; payload : list Z }.

Definition parse (bytes : list Z) : option (option Frame) :=
  if decide (length bytes < HEADER)%nat then Some None else
  dst ← mac_at bytes 0; src ← mac_at bytes 6; ethertype ← u16_at bytes 12;
  payload ← slice HEADER (length bytes) bytes;
  Some (Some (mkFrame dst src ethertype payload)).

Definition build (dst src : list Z) (ethertype : Z) (payload : list Z) : list Z :=
  let frame := dst ++ src ++ be_bytes 2 ethertype ++ payload in
  resize (length frame `max` MIN_FRAME) 0 frame.
End Ethernet.

(** * ARP *)
Module Arp.
Definition REQUEST : Z := 1.
Definition REPLY : Z := 2.
Definition LENGTH : nat := 28.

Record Arp := mkArp {
  op : Z; sender_mac : list Z; sender_ip : list Z; target_mac : list Z; target_ip : list Z;
}.

Definition parse (bytes : list Z) : option (option Arp) :=
  bad ← Some (bool_decide (length bytes < LENGTH)%nat)
        ∥ ((λ x, negb (x =? 1)) <$> u16_at bytes 0)
        ∥ ((λ x, negb (x =? 0x0800)) <$> u16_at bytes 2)
        ∥ ((λ x, negb (x =? 6)) <$> bytes !! 4%nat)
        ∥ ((λ x, negb (x =? 4)) <$> bytes !! 5%nat);
  if (bad : bool) then Some None else
  op ← u16_at bytes 6; smac ← mac_at bytes 8; sip ← ipv4_at bytes 14;
  tmac ← mac_at bytes 18; tip ← ipv4_at bytes 24;
  Some (Some (mkArp op smac sip tmac tip)).

(** The copies fill the array from end to end. *)
Definition to_bytes (a : Arp) : list Z :=
  [0; 1; 0x08; 0x00; 6; 4] ++ be_bytes 2 (op a) ++ sender_mac a ++ sender_ip a ++ target_mac a ++ target_ip a.
End Arp.

(** * IPv4 *)
Module Ipv4.
Import Checksum.
Definition ICMP : Z := 1.
Definition UDP : Z := 17.
Definition HEADER : nat := 20.
Definition TTL : Z := 64.
Definition DONT_FRAGMENT : Z := 0x4000.
Definition FRAGMENTED : Z := 0x3FFF.

Record Packet := mkPacket { src : list Z; dst : list Z; protocol : Z; payload : list Z }.

Definition parse (bytes : list Z) : option (option Packet) :=
  bad ← Some (bool_decide (length bytes < HEADER)%nat)
        ∥ ((λ x, negb (Z.shiftr x 4 =? 4)) <$> bytes !! 0%nat);
  if (bad : bool) then Some None else
  first ← bytes !! 0%nat;
  let header := (Z.to_nat (Z.land first 0x0F) * 4)%nat in
  total ← Z.to_nat <$> u16_at bytes 2;
  bad ← Some (bool_decide (header < HEADER)%nat) ∥ Some (bool_decide (total < header)%nat)
        ∥ Some (bool_decide (length bytes < total)%nat)
        ∥ ((λ h, negb (checksum h =? 0)) <$> slice 0 header bytes);
  if (bad : bool) then Some None else
  flags ← u16_at bytes 6;
  if negb (Z.land flags FRAGMENTED =? 0) then Some None else
  src ← ipv4_at bytes 12; dst ← ipv4_at bytes 16; protocol ← bytes !! 9%nat;
  payload ← slice header total bytes;
  Some (Some (mkPacket src dst protocol payload)).

Definition build (src dst : list Z) (protocol id : Z) (payload : list Z) : option (list Z) :=
  let total := (HEADER + length payload)%nat in
  let packet := [0x45; 0] ++ be_bytes 2 (wrap 16 (Z.of_nat total)) ++ be_bytes 2 id ++
                be_bytes 2 DONT_FRAGMENT ++ [TTL; protocol; 0; 0] ++ src ++ dst in
  let sum := be_bytes 2 (checksum packet) in
  packet ← copy_at 10 sum packet;
  Some (packet ++ payload).
End Ipv4.

(** * ICMP echo *)
Module Icmp.
Import Checksum.
Definition ECHO_REPLY : Z := 0.
Definition ECHO_REQUEST : Z := 8.

Record Echo := mkEcho { kind : Z; id : Z; seq : Z; data : list Z }.

Definition parse (bytes : list Z) : option (option Echo) :=
  bad ← Some (bool_decide (length bytes < 8)%nat)
        ∥ ((λ x, negb ((x =? ECHO_REQUEST) || (x =? ECHO_REPLY))) <$> bytes !! 0%nat)
        ∥ ((λ x, negb (x =? 0)) <$> bytes !! 1%nat)
        ∥ Some (negb (checksum bytes =? 0));
  if (bad : bool) then Some None else
  kind ← bytes !! 0%nat; id ← u16_at bytes 4; seq ← u16_at bytes 6;
  data ← slice 8 (length bytes) bytes;
  Some (Some (mkEcho kind id seq data)).

Definition to_bytes (e : Echo) : option (list Z) :=
  let bytes := [kind e; 0; 0; 0] ++ be_bytes 2 (id e) ++ be_bytes 2 (seq e) ++ data e in
  copy_at 2 (be_bytes 2 (checksum bytes)) bytes.
End Icmp.

(** * UDP *)
Module Udp.
Import Checksum.
Definition HEADER : nat := 8.

Record Datagram := mkDatagram { src_port : Z; dst_port : Z; payload : list Z }.

Definition datagram_checksum (src dst datagram : list Z) : Z :=
  let acc := sum 0 src in
  let acc := sum acc dst in
  let acc := wrap 32 (acc + wrap 32 (Ipv4.UDP + wrap 32 (Z.of_nat (length datagram)))) in
  finish (sum acc datagram).

Definition parse (bytes src dst : list Z) : option (option Datagram) :=
  if decide (length bytes < HEADER)%nat then Some None else
  len ← Z.to_nat <$> u16_at bytes 4;
  if decide (len < HEADER ∨ length bytes < len)%nat then Some None else
  datagram ← slice 0 len bytes;
  sent ← u16_at bytes 6;
  if negb (sent =? 0) && negb (datagram_checksum src dst datagram =? 0) then Some None else
  sport ← u16_at bytes 0; dport ← u16_at bytes 2; payload ← slice HEADER (length datagram) datagram;
  Some (Some (mkDatagram sport dport payload)).

Definition build (src : list Z) (sport : Z) (dst : list Z) (dport : Z) (payload : list Z) : option (list Z) :=
  let len := (HEADER + length payload)%nat in
  let datagram := be_bytes 2 sport ++ be_bytes 2 dport ++ be_bytes 2 (wrap 16 (Z.of_nat len)) ++
                  [0; 0] ++ payload in
  let checksum := datagram_checksum src dst datagram in
  let checksum := if checksum =? 0 then 0xFFFF else checksum in
  copy_at 6 (be_bytes 2 checksum) datagram.
End Udp.

(** * DHCP *)
Module Dhcp.
Definition SERVER_PORT : Z := 67.
Definition CLIENT_PORT : Z := 68.

Inductive Kind := Discover | Offer | Request | Ack | Nak.
#[export] Instance Kind_eq_dec : EqDecision Kind.
Proof. solve_decision. Defined.
Definition kind_u8 (k : Kind) : Z :=
  match k with Discover => 1 | Offer => 2 | Request => 3 | Ack => 5 | Nak => 6 end.

Definition FIXED : nat := 236.
Definition MAGIC : list Z := [99; 130; 83; 99].
Definition MIN_LENGTH : nat := 300.
Definition PAD : Z := 0.
Definition SUBNET_MASK : Z := 1.
Definition ROUTER : Z := 3.
Definition DNS : Z := 6.
Definition REQUESTED_IP : Z := 50.
Definition LEASE_TIME : Z := 51.
Definition MESSAGE_TYPE : Z := 53.
Definition SERVER_ID : Z := 54.
Definition PARAMETERS : Z := 55.
Definition END : Z := 255.

Definition message (mac : list Z) (xid : Z) (kind : Kind) (options : list (Z * list Z)) : list Z :=
  let bytes := [1; 1; 6; 0] ++ be_bytes 4 xid ++ [0; 0; 0x80; 0] ++ replicate 16 0 ++ mac in
  let bytes := resize FIXED 0 bytes ++ MAGIC ++ [MESSAGE_TYPE; 1; kind_u8 kind] in
  let bytes := foldl (λ bytes '(code, value), bytes ++ [code; wrap 8 (Z.of_nat (length value))] ++ value)
                 bytes options in
  let bytes := bytes ++ [PARAMETERS; 3; SUBNET_MASK; ROUTER; DNS; END] in
  resize (length bytes `max` MIN_LENGTH) PAD bytes.

Definition discover (mac : list Z) (xid : Z) : list Z := message mac xid Discover [].
Definition request (mac : list Z) (xid : Z) (address server : list Z) : list Z :=
  message mac xid Request [(REQUESTED_IP, address); (SERVER_ID, server)].

Record Reply := mkReply {
  kind : Kind; address : list Z; server : option (list Z); netmask : option (list Z);
  router : option (list Z); dns : option (list Z); lease_secs : option Z;
}.

(** One option of a reply: the reply and the kind seen so far, with it. *)
Definition take_option (code : Z) (value : list Z) (r : Reply) (k : option Kind) : option (Reply * option Kind) :=
  let len := length value in
  address ← (if decide (4 ≤ len)%nat then Some <$> ipv4_at value 0 else Some None);
  if (code =? MESSAGE_TYPE) && bool_decide (len = 1%nat) then
    v ← value !! 0%nat;
    Some (r, match v with 2 => Some Offer | 5 => Some Ack | 6 => Some Nak | _ => None end)
  else if code =? SUBNET_MASK then
    Some (mkReply (kind r) (Dhcp.address r) (server r) address (router r) (dns r) (lease_secs r), k)
  else if code =? ROUTER then
    Some (mkReply (kind r) (Dhcp.address r) (server r) (netmask r) address (dns r) (lease_secs r), k)
  else if code =? DNS then
    Some (mkReply (kind r) (Dhcp.address r) (server r) (netmask r) (router r) address (lease_secs r), k)
  else if code =? SERVER_ID then
    Some (mkReply (kind r) (Dhcp.address r) address (netmask r) (router r) (dns r) (lease_secs r), k)
  else if (code =? LEASE_TIME) && bool_decide (len = 4%nat) then
    hi ← u16_at value 0; lo ← u16_at value 2;
    Some (mkReply (kind r) (Dhcp.address r) (server r) (netmask r) (router r) (dns r)
            (Some (Z.lor (wrap 32 (Z.shiftl hi 16)) lo)), k)
  else Some (r, k).

(** The loop over the options from [at_]; every turn goes on by a byte at least, so [fuel] as
    long as the message is enough. *)
Fixpoint parse_options (fuel : nat) (bytes : list Z) (at_ : nat) (r : Reply) (k : option Kind)
    : option (option (Reply * option Kind)) :=
  if decide (length bytes ≤ at_)%nat then Some (Some (r, k)) else
  match fuel with
  | O => None
  | S fuel =>
    code ← bytes !! at_;
    if code =? PAD then parse_options fuel bytes (at_ + 1) r k else
    if code =? END then Some (Some (r, k)) else
    match bytes !! (at_ + 1)%nat with
    | None => Some None
    | Some len =>
      let len := Z.to_nat len in
      match slice (at_ + 2) (at_ + 2 + len) bytes with
      | None => Some None
      | Some value =>
        '(r, k) ← take_option code value r k;
        parse_options fuel bytes (at_ + (2 + len)) r k
      end
    end
  end.

Definition parse_reply (bytes : list Z) (xid : Z) (mac : list Z) : option (option Reply) :=
  bad ← Some (bool_decide (length bytes < FIXED + 4)%nat)
        ∥ ((λ x, negb (x =? 2)) <$> bytes !! 0%nat)
        ∥ ((λ x, bool_decide (x ≠ be_bytes 4 xid)) <$> slice 4 8 bytes)
        ∥ ((λ x, bool_decide (x ≠ mac)) <$> slice 28 34 bytes);
  if (bad : bool) then Some None else
  magic ← slice FIXED (FIXED + 4) bytes;
  if decide (magic ≠ MAGIC) then Some None else
  address ← ipv4_at bytes 16;
  parsed ← parse_options (length bytes) bytes (FIXED + 4)
             (mkReply Offer address None None None None None) None;
  Some (match parsed with
        | Some (r, Some k) =>
          Some (mkReply k (Dhcp.address r) (server r) (netmask r) (router r) (dns r) (lease_secs r))
        | _ => None
        end).
End Dhcp.

(** * DNS *)
Module Dns.
Definition PORT : Z := 53.
Definition HEADER : nat := 12.
Definition RECURSION_DESIRED : Z := Z.shiftl 1 8.
Definition RESPONSE : Z := Z.shiftl 1 15.
Definition TYPE_A : Z := 1.
Definition CLASS_IN : Z := 1.
Definition MAX_NAME : nat := 253.
Definition MAX_LABEL : nat := 63.

(** [trim_end_matches('.')]. *)
Fixpoint trim_end (l : list Z) : list Z :=
  match l with
  | [] => []
  | b :: l => match trim_end l with [] => if b =? 0x2E then [] else [b] | l => b :: l end
  end.

Fixpoint query_labels (labels : list (list Z)) : option (list Z) :=
  match labels with
  | [] => Some []
  | label :: labels =>
    if bool_decide (label = []) || bool_decide (MAX_LABEL < length label)%nat ||
       negb (forallb (between 0 0x7F) label)
    then None
    else rest ← query_labels labels; Some (wrap 8 (Z.of_nat (length label)) :: label ++ rest)
  end.

Definition query (name : list Z) (id : Z) : option (list Z) :=
  let name := trim_end name in
  if decide (name = [] ∨ MAX_NAME < length name)%nat then None else
  labels ← query_labels (split 0x2E name);
  Some (be_bytes 2 id ++ be_bytes 2 RECURSION_DESIRED ++ [0; 1; 0; 0; 0; 0; 0; 0] ++ labels ++
        [0] ++ be_bytes 2 TYPE_A ++ be_bytes 2 CLASS_IN).

Inductive Answer := Addresses (l : list (list Z)) | NoSuchName | Failed (code : Z).

(** At most [n] labels. *)
Fixpoint skip_labels (n : nat) (bytes : list Z) (at_ : nat) : option nat :=
  match n with
  | O => None
  | S n =>
    len ← bytes !! at_;
    if len =? 0 then Some (at_ + 1)%nat else
    if Z.land len 0xC0 =? 0xC0 then
      if decide (at_ + 2 ≤ length bytes)%nat then Some (at_ + 2)%nat else None
    else if negb (Z.land len 0xC0 =? 0) then None
    else skip_labels n bytes (at_ + (1 + Z.to_nat len))
  end.
Definition skip_name (bytes : list Z) (at_ : nat) : option nat := skip_labels MAX_NAME bytes at_.

Fixpoint skip_questions (n : nat) (bytes : list Z) (at_ : nat) : option nat :=
  match n with
  | O => Some at_
  | S n => at_ ← skip_name bytes at_; skip_questions n bytes (at_ + 4)
  end.

(** The loop over the answers: [None] is a panic, [Some None] a broken message. *)
Fixpoint read_answers (n : nat) (bytes : list Z) (at_ : nat) : option (option (list (list Z))) :=
  match n with
  | O => Some (Some [])
  | S n =>
    match skip_name bytes at_ with
    | None => Some None
    | Some at_ =>
      match slice at_ (at_ + 10) bytes with
      | None => Some None
      | Some record =>
        kind ← u16_at record 0; class ← u16_at record 2; len ← Z.to_nat <$> u16_at record 8;
        match slice (at_ + 10) (at_ + 10 + len) bytes with
        | None => Some None
        | Some data =>
          found ← (if (kind =? TYPE_A) && (class =? CLASS_IN) && bool_decide (len = 4%nat)
                   then (λ a, [a]) <$> ipv4_at data 0 else Some []);
          rest ← read_answers n bytes (at_ + (10 + len));
          Some (option_map (app found) rest)
        end
      end
    end
  end.

Definition parse (bytes : list Z) (id : Z) : option (option Answer) :=
  bad ← Some (bool_decide (length bytes < HEADER)%nat)
        ∥ ((λ x, negb (x =? id)) <$> u16_at bytes 0)
        ∥ ((λ x, Z.land x RESPONSE =? 0) <$> u16_at bytes 2);
  if (bad : bool) then Some None else
  flags ← u16_at bytes 2;
  let code := Z.land flags 0xF in
  if code =? 3 then Some (Some NoSuchName) else
  if negb (code =? 0) then Some (Some (Failed code)) else
  questions ← Z.to_nat <$> u16_at bytes 4; answers ← Z.to_nat <$> u16_at bytes 6;
  match skip_questions questions bytes HEADER with
  | None => Some None
  | Some at_ => addresses ← read_answers answers bytes at_; Some (option_map Addresses addresses)
  end.
End Dns.

(** * SNTP *)
Module Sntp.
Definition PORT : Z := 123.
Definition LENGTH : nat := 48.
Definition UNIX_OFFSET : Z := 2208988800.
Definition CLIENT : Z := Z.lor (Z.shiftl 4 3) 3.
Definition MODE_SERVER : Z := 4.

Definition request (cookie : Z) : list Z := [CLIENT] ++ replicate 39 0 ++ be_bytes 8 cookie.

Definition parse (bytes : list Z) (cookie round_trip_us : Z) : option (option Z) :=
  bad ← Some (bool_decide (length bytes < LENGTH)%nat)
        ∥ ((λ x, negb (Z.land x 7 =? MODE_SERVER)) <$> bytes !! 0%nat)
        ∥ ((λ x, x =? 0) <$> bytes !! 1%nat)
        ∥ ((λ x, bool_decide (x ≠ be_bytes 8 cookie)) <$> slice 24 32 bytes);
  if (bad : bool) then Some None else
  s1 ← u16_at bytes 40; s0 ← u16_at bytes 42; f1 ← u16_at bytes 44; f0 ← u16_at bytes 46;
  let seconds := Z.lor (Z.shiftl s1 16) s0 in
  let fraction := Z.lor (Z.shiftl f1 16) f0 in
  if seconds <? UNIX_OFFSET then Some None else
  let unix := seconds - UNIX_OFFSET in
  Some (Some (wrap 64 (wrap 64 (wrap 64 (unix * 1000000) + Z.shiftr (wrap 64 (fraction * 1000000)) 32)
                       + round_trip_us / 2))).
End Sntp.

(** * The LAN7800's framing *)
Module Lan7800.
Definition TX_CMD_A_FCS : Z := Z.shiftl 1 22.
Definition TX_CMD_A_LEN : Z := 0x000FFFFF.
Definition RX_CMD_A_ERROR : Z := Z.shiftl 1 22.
Definition RX_CMD_A_LEN : Z := 0x3FFF.
Definition RX_HEADER : nat := 10.
Definition FCS : nat := 4.

Definition tx (frame : list Z) : list Z :=
  le_bytes 4 (Z.lor (Z.land (wrap 32 (Z.of_nat (length frame))) TX_CMD_A_LEN) TX_CMD_A_FCS) ++
  le_bytes 4 0 ++ frame.

(** The loop from [at_]; every turn goes on by a header at least. *)
Fixpoint rx_from (fuel : nat) (transfer : list Z) (at_ : nat) : option (list (list Z)) :=
  if decide (length transfer < at_ + RX_HEADER)%nat then Some [] else
  match fuel with
  | O => None
  | S fuel =>
    cmd_a ← le_value <$> slice at_ (at_ + 4) transfer;
    let size := Z.to_nat (Z.land cmd_a RX_CMD_A_LEN) in
    let start := (at_ + RX_HEADER)%nat in
    if decide (length transfer < start + size)%nat then Some [] else
    frames ← (if (Z.land cmd_a RX_CMD_A_ERROR =? 0) && bool_decide (FCS < size)%nat
              then (λ f, [f]) <$> slice start (start + size - FCS) transfer else Some []);
    let padding := ((4 - (size + 2) mod 4) mod 4)%nat in
    rest ← rx_from fuel transfer (start + size + padding);
    Some (frames ++ rest)
  end.
Definition rx (transfer : list Z) : option (list (list Z)) := rx_from (length transfer) transfer 0.
End Lan7800.

(** * Building and parsing agree *)
Module Formats.
Import Checksum.
Lemma be_bytes_2 x : be_bytes 2 x = [x / 256 mod 256; x mod 256].
Proof. done. Qed.

Lemma be_bytes_2_value x : uint 16 x → x / 256 mod 256 * 256 + x mod 256 = x.
Proof.
  unfold uint. change (2 ^ 16) with 65536. intros Hx.
  rewrite (Z.mod_small (x / 256)) by (Z.to_euclidean_division_equations; lia).
  pose proof (Z_div_mod_eq_full x 256). lia.
Qed.

Lemma list_4 {A} (l : list A) : length l = 4%nat → ∃ a b c d, l = [a; b; c; d].
Proof. destruct l as [|a [|b [|c [|d [|]]]]]; try done. eauto. Qed.

Lemma list_6 {A} (l : list A) : length l = 6%nat → ∃ a b c d e f, l = [a; b; c; d; e; f].
Proof. destruct l as [|a [|b [|c [|d [|e [|f [|]]]]]]]; try done. eauto 7. Qed.

Lemma slice_tail {A} (l1 l2 : list A) : slice (length l1) (length (l1 ++ l2)) (l1 ++ l2) = Some l2.
Proof. rewrite <-(app_nil_r l2) at 2. rewrite length_app. apply (slice_app l1 l2 []). Qed.

Lemma copy_at_app l1 src old l2 : length old = length src →
  copy_at (length l1) src (l1 ++ old ++ l2) = Some (l1 ++ src ++ l2).
Proof.
  intros Hl. unfold copy_at. rewrite decide_True by (rewrite !length_app; lia).
  rewrite take_app_length, (app_assoc l1 old l2), drop_app_length' by (rewrite length_app; lia). done.
Qed.

Lemma u16_at_uint l i x : is_bytes l → u16_at l i = Some x → uint 16 x.
Proof.
  intros Hb (a & Ha & (b & Hb' & [= <-])%bind_Some)%bind_Some.
  pose proof (is_bytes_lookup _ _ _ Hb Ha). pose proof (is_bytes_lookup _ _ _ Hb Hb').
  unfold uint in *. change (2 ^ 16) with 65536. change (2 ^ 8) with 256 in *. lia.
Qed.

(** The first twenty bytes of an IPv4 packet and what follows them. *)
Lemma ipv4_build_eq src dst protocol id payload : Addr.ip_ok src → Addr.ip_ok dst → uint 8 protocol →
  ∃ h, Ipv4.build src dst protocol id payload = Some (h ++ payload) ∧ length h = 20%nat ∧ is_bytes h ∧
    checksum h = 0 ∧ h !! 0%nat = Some 0x45 ∧
    (uint 16 (20 + Z.of_nat (length payload)) → u16_at h 2 = Some (20 + Z.of_nat (length payload))) ∧
    u16_at h 6 = Some 0x4000 ∧ h !! 9%nat = Some protocol ∧ ipv4_at h 12 = Some src ∧ ipv4_at h 16 = Some dst.
Proof.
  intros [Hs Hbs] [Hd Hbd] Hp. unfold Ipv4.build.
  set (t := wrap 16 _). set (l1 := [0x45; 0] ++ be_bytes 2 t ++ be_bytes 2 id ++ be_bytes 2 Ipv4.DONT_FRAGMENT ++ [Ipv4.TTL; protocol]).
  set (l2 := src ++ dst).
  change ([0x45; 0] ++ be_bytes 2 t ++ be_bytes 2 id ++ be_bytes 2 Ipv4.DONT_FRAGMENT ++ [Ipv4.TTL; protocol; 0; 0] ++ l2)
    with (l1 ++ [0; 0] ++ l2).
  assert (Hb1 : is_bytes l1).
  { subst l1. auto 10 with bytes. }
  assert (Hb2 : is_bytes l2) by (subst l2; auto with bytes).
  assert (Hsum : summable (l1 ++ [0; 0] ++ l2)).
  { apply summable_length; [auto 10 with bytes|]. rewrite !length_app. cbn [length].
    subst l2. rewrite length_app, Hs, Hd. done. }
  destruct (checksum_splice l1 l2) as [Hu Hz]; [by exists 5%nat|done|].
  set (c := checksum (l1 ++ [0; 0] ++ l2)) in *.
  exists (l1 ++ be_bytes 2 c ++ l2). split.
  { assert (copy_at 10 (be_bytes 2 c) (l1 ++ [0; 0] ++ l2) = Some (l1 ++ be_bytes 2 c ++ l2)) as ->
      by (by apply (copy_at_app l1)). cbn [mbind option_bind]. by rewrite <-!app_assoc. }
  destruct (list_4 src Hs) as (s1 & s2 & s3 & s4 & ->). destruct (list_4 dst Hd) as (d1 & d2 & d3 & d4 & ->).
  split_and!; try done.
  - auto with bytes.
  - intros Ht. change (u16_at _ 2) with (Some (t / 256 mod 256 * 256 + t mod 256)). f_equal.
    assert (t = 20 + Z.of_nat (length payload)) as <-; [|apply be_bytes_2_value].
    + subst t. rewrite wrap_small; unfold Ipv4.HEADER; [lia|]. unfold uint in *. lia.
    + subst t. apply wrap_uint. lia.
Qed.

Lemma lookup_app_Some {A} (l k : list A) i x : l !! i = Some x → (l ++ k) !! i = Some x.
Proof. intros H. by apply lookup_app_l_Some. Qed.

Lemma u16_at_app l k i x : u16_at l i = Some x → u16_at (l ++ k) i = Some x.
Proof.
  intros (a & Ha & (b & Hb & [= <-])%bind_Some)%bind_Some. unfold u16_at.
  by rewrite (lookup_app_Some _ _ _ _ Ha), (lookup_app_Some _ _ _ _ Hb).
Qed.

Lemma ipv4_at_app l k i x : ipv4_at l i = Some x → ipv4_at (l ++ k) i = Some x.
Proof.
  intros (a & Ha & (b & Hb & (c & Hc & (d & Hd & [= <-])%bind_Some)%bind_Some)%bind_Some)%bind_Some.
  unfold ipv4_at. by rewrite (lookup_app_Some _ _ _ _ Ha), (lookup_app_Some _ _ _ _ Hb),
    (lookup_app_Some _ _ _ _ Hc), (lookup_app_Some _ _ _ _ Hd).
Qed.

(** A packet comes back from what it was built into, padding or not. *)
Lemma ipv4_roundtrip src dst protocol id payload pad :
  Addr.ip_ok src → Addr.ip_ok dst → uint 8 protocol → Z.of_nat (length payload) <= 65515 →
  ∃ bytes, Ipv4.build src dst protocol id payload = Some bytes ∧ length bytes = (20 + length payload)%nat ∧
    Ipv4.parse (bytes ++ pad) = Some (Some (Ipv4.mkPacket src dst protocol payload)).
Proof.
  intros Hs Hd Hp Hl.
  destruct (ipv4_build_eq src dst protocol id payload Hs Hd Hp) as
    (h & -> & Hlen & Hb & Hsum & H0 & H2 & H6 & H9 & H12 & H16).
  exists (h ++ payload). split; [done|]. split; [rewrite length_app; lia|]. rewrite <-app_assoc.
  specialize (H2 ltac:(unfold uint; lia)).
  assert (Hle : length (h ++ payload ++ pad) = (20 + length payload + length pad)%nat) by (rewrite !length_app; lia).
  unfold Ipv4.parse. rewrite (lookup_app_Some _ _ _ _ H0), (u16_at_app _ _ _ _ H2). unfold Ipv4.HEADER.
  rewrite bool_decide_eq_false_2 by lia.
  change (or_else (Some false) ((λ x, negb (Z.shiftr x 4 =? 4)) <$> Some 69)) with (Some false). cbn [mbind option_bind].
  change (Z.to_nat (Z.land 69 15) * 4)%nat with 20%nat. cbn [fmap option_fmap option_map mbind option_bind].
  replace (Z.to_nat (20 + Z.of_nat (length payload))) with (20 + length payload)%nat by lia.
  rewrite (bool_decide_eq_false_2 (20 < 20)%nat), (bool_decide_eq_false_2 (20 + length payload < 20)%nat),
    (bool_decide_eq_false_2 (length (h ++ payload ++ pad) < 20 + length payload)%nat) by lia.
  assert (slice 0 20 (h ++ payload ++ pad) = Some h) as ->.
  { rewrite <-Hlen. apply (slice_app [] h). }
  cbn [or_else fmap option_fmap option_map]. rewrite Hsum. cbn [Z.eqb negb mbind option_bind].
  rewrite (u16_at_app _ _ _ _ H6). cbn [mbind option_bind]. change (negb (Z.land 16384 Ipv4.FRAGMENTED =? 0)) with false. cbn match.
  rewrite (ipv4_at_app _ _ _ _ H12), (ipv4_at_app _ _ _ _ H16), (lookup_app_Some _ _ _ _ H9). cbn [mbind option_bind].
  assert (slice 20 (20 + length payload) (h ++ payload ++ pad) = Some payload) as ->
    by (rewrite <-Hlen; apply slice_app). done.
Qed.

Lemma ethernet_roundtrip dst src ethertype payload :
  length dst = 6%nat → length src = 6%nat → uint 16 ethertype →
  Ethernet.parse (Ethernet.build dst src ethertype payload) =
    Some (Some (Ethernet.mkFrame dst src ethertype (payload ++ replicate (46 - length payload) 0))).
Proof.
  intros Hd Hs Ht. unfold Ethernet.build, resize. rewrite take_ge by lia.
  destruct (list_6 dst Hd) as (d1 & d2 & d3 & d4 & d5 & d6 & ->).
  destruct (list_6 src Hs) as (s1 & s2 & s3 & s4 & s5 & s6 & ->).
  set (h := [d1; d2; d3; d4; d5; d6; s1; s2; s3; s4; s5; s6] ++ be_bytes 2 ethertype).
  change ([d1; d2; d3; d4; d5; d6] ++ [s1; s2; s3; s4; s5; s6] ++ be_bytes 2 ethertype ++ payload) with (h ++ payload).
  assert (length h = 14%nat) as Hh by done. rewrite <-app_assoc, length_app, Hh.
  replace ((14 + length payload) `max` Ethernet.MIN_FRAME - (14 + length payload))%nat with (46 - length payload)%nat
    by (unfold Ethernet.MIN_FRAME; lia).
  unfold Ethernet.parse. rewrite decide_False by (rewrite length_app, Hh; unfold Ethernet.HEADER; lia).
  set (rest := payload ++ replicate _ 0).
  assert (mac_at (h ++ rest) 0 = Some [d1; d2; d3; d4; d5; d6]) as ->
    by (apply (slice_app [] [d1; d2; d3; d4; d5; d6] ([s1; s2; s3; s4; s5; s6] ++ be_bytes 2 ethertype ++ rest))).
  assert (mac_at (h ++ rest) 6 = Some [s1; s2; s3; s4; s5; s6]) as ->
    by (apply (slice_app [d1; d2; d3; d4; d5; d6] [s1; s2; s3; s4; s5; s6] (be_bytes 2 ethertype ++ rest))).
  assert (u16_at h 12 = Some ethertype) as Hu.
  { change (u16_at h 12) with (Some (ethertype / 256 mod 256 * 256 + ethertype mod 256)). by rewrite be_bytes_2_value. }
  rewrite (u16_at_app _ _ _ _ Hu). cbn [mbind option_bind]. change Ethernet.HEADER with (length h). by rewrite slice_tail.
Qed.

Lemma arp_roundtrip a pad : uint 16 (Arp.op a) → length (Arp.sender_mac a) = 6%nat → length (Arp.sender_ip a) = 4%nat →
  length (Arp.target_mac a) = 6%nat → length (Arp.target_ip a) = 4%nat →
  Arp.parse (Arp.to_bytes a ++ pad) = Some (Some a).
Proof.
  destruct a as [op sm si tm ti]; cbn [Arp.op Arp.sender_mac Arp.sender_ip Arp.target_mac Arp.target_ip].
  intros Ho (m1 & m2 & m3 & m4 & m5 & m6 & ->)%list_6 (i1 & i2 & i3 & i4 & ->)%list_4
    (n1 & n2 & n3 & n4 & n5 & n6 & ->)%list_6 (j1 & j2 & j3 & j4 & ->)%list_4.
  unfold Arp.parse, Arp.to_bytes. cbn [Arp.op Arp.sender_mac Arp.sender_ip Arp.target_mac Arp.target_ip].
  rewrite bool_decide_eq_false_2 by (rewrite !length_app, length_be_bytes; cbn [length]; unfold Arp.LENGTH; lia).
  set (p := [0; 1; 8; 0; 6; 4] ++ be_bytes 2 op).
  set (bytes := _ ++ pad).
  assert (u16_at bytes 6 = Some op) as ->.
  { change (u16_at bytes 6) with (Some (op / 256 mod 256 * 256 + op mod 256)). by rewrite be_bytes_2_value. }
  assert (mac_at bytes 8 = Some [m1; m2; m3; m4; m5; m6]) as ->
    by (apply (slice_app p [m1; m2; m3; m4; m5; m6] ([i1; i2; i3; i4] ++ [n1; n2; n3; n4; n5; n6] ++ [j1; j2; j3; j4] ++ pad))).
  assert (mac_at bytes 18 = Some [n1; n2; n3; n4; n5; n6]) as ->
    by (apply (slice_app (p ++ [m1; m2; m3; m4; m5; m6; i1; i2; i3; i4]) [n1; n2; n3; n4; n5; n6] ([j1; j2; j3; j4] ++ pad))).
  done.
Qed.

Lemma icmp_roundtrip kind id seq data : kind = Icmp.ECHO_REQUEST ∨ kind = Icmp.ECHO_REPLY → uint 16 id → uint 16 seq →
  is_bytes data → Z.of_nat (length data) <= 65000 →
  ∃ bytes, Icmp.to_bytes (Icmp.mkEcho kind id seq data) = Some bytes ∧ length bytes = (8 + length data)%nat ∧
    Icmp.parse bytes = Some (Some (Icmp.mkEcho kind id seq data)).
Proof.
  intros Hk Hi Hs Hb Hl. unfold Icmp.to_bytes. cbn [Icmp.kind Icmp.id Icmp.seq Icmp.data].
  set (l2 := be_bytes 2 id ++ be_bytes 2 seq ++ data).
  change ([kind; 0; 0; 0] ++ l2) with ([kind; 0] ++ [0; 0] ++ l2).
  assert (Hu8 : uint 8 kind) by (destruct Hk as [-> | ->]; done).
  assert (Hb2 : is_bytes l2) by (subst l2; auto with bytes).
  destruct (checksum_splice [kind; 0] l2) as [Hu Hz].
  - by exists 1%nat.
  - apply summable_length; [auto with bytes|]. cbn [length app]. subst l2. rewrite !length_app, !length_be_bytes. lia.
  - set (c := checksum _) in *.
    assert (copy_at 2 (be_bytes 2 c) ([kind; 0] ++ [0; 0] ++ l2) = Some ([kind; 0] ++ be_bytes 2 c ++ l2)) as ->
      by (by apply (copy_at_app [kind; 0])).
    eexists. split; [done|]. split; [subst l2; by rewrite !length_app, !length_be_bytes|].
    unfold Icmp.parse. rewrite bool_decide_eq_false_2 by (subst l2; rewrite !length_app, !length_be_bytes; cbn [length]; lia).
    rewrite Hz. set (bytes := _ ++ _).
    assert (u16_at bytes 4 = Some id) as ->.
    { change (u16_at bytes 4) with (Some (id / 256 mod 256 * 256 + id mod 256)). by rewrite be_bytes_2_value. }
    assert (u16_at bytes 6 = Some seq) as ->.
    { change (u16_at bytes 6) with (Some (seq / 256 mod 256 * 256 + seq mod 256)). by rewrite be_bytes_2_value. }
    change (slice 8 (length bytes) bytes) with (slice 8 (length (take 8 bytes ++ data)) (take 8 bytes ++ data)).
    assert (slice 8 (length (take 8 bytes ++ data)) (take 8 bytes ++ data) = Some data) as -> by (apply (slice_tail (take 8 bytes) data)).
    by destruct Hk as [-> | ->].
Qed.

Lemma words_ip a : Addr.ip_ok a → 0 <= words a <= 131070.
Proof. intros [Hl Hb]. pose proof (words_bound a Hb). rewrite Hl in *. change ((Z.of_nat 4 + 1) / 2) with 2 in *. lia. Qed.

Lemma datagram_checksum_eq src dst d : Addr.ip_ok src → Addr.ip_ok dst → is_bytes d → Z.of_nat (length d) <= 65535 →
  let s := words src + words dst + (17 + Z.of_nat (length d)) + words d in
  Udp.datagram_checksum src dst d = finish s ∧ 0 < s < 2 ^ 32 - 2 ^ 16.
Proof.
  intros Hs Hd Hb Hl s. pose proof (words_ip _ Hs). pose proof (words_ip _ Hd). pose proof (words_bound d Hb) as Hw.
  assert ((Z.of_nat (length d) + 1) / 2 <= 32768) by (Z.to_euclidean_division_equations; lia).
  destruct Hs as [_ Hbs], Hd as [_ Hbd]. unfold Udp.datagram_checksum, Ipv4.UDP.
  rewrite (sum_words 0 src), (sum_words _ dst) by (done || lia).
  rewrite (wrap_small 32 (Z.of_nat _)) by (unfold uint; lia).
  rewrite (wrap_small 32 (17 + _)), wrap_small by (unfold uint; lia).
  rewrite sum_words by (done || lia). split; [f_equal; lia|lia].
Qed.

Lemma udp_roundtrip src sport dst dport payload pad :
  Addr.ip_ok src → Addr.ip_ok dst → uint 16 sport → uint 16 dport → is_bytes payload →
  Z.of_nat (length payload) <= 65527 →
  ∃ bytes, Udp.build src sport dst dport payload = Some bytes ∧ length bytes = (8 + length payload)%nat ∧
    is_bytes bytes ∧
    Udp.parse (bytes ++ pad) src dst = Some (Some (Udp.mkDatagram sport dport payload)).
Proof.
  intros Hs Hd Hsp Hdp Hb Hl. unfold Udp.build. set (len := wrap 16 _).
  assert (Hlen : len = 8 + Z.of_nat (length payload)).
  { subst len. unfold Udp.HEADER. rewrite wrap_small; [lia|]. unfold uint. lia. }
  clearbody len. set (l1 := be_bytes 2 sport ++ be_bytes 2 dport ++ be_bytes 2 len).
  change (be_bytes 2 sport ++ be_bytes 2 dport ++ be_bytes 2 len ++ [0; 0] ++ payload) with (l1 ++ [0; 0] ++ payload).
  set (c := if Udp.datagram_checksum src dst _ =? 0 then _ else _).
  assert (Hb1 : is_bytes l1) by (subst l1; auto with bytes).
  assert (Hlength : ∀ x, length (l1 ++ be_bytes 2 x ++ payload) = (8 + length payload)%nat).
  { intros. subst l1. rewrite !length_app, !length_be_bytes. done. }
  assert (Hc : uint 16 c ∧ c ≠ 0 ∧ Udp.datagram_checksum src dst (l1 ++ be_bytes 2 c ++ payload) = 0).
  { destruct (datagram_checksum_eq src dst (l1 ++ [0; 0] ++ payload)) as [E Hr]; try done.
    { auto with bytes. } { pose proof (Hlength 0). change (be_bytes 2 0) with [0; 0] in *. lia. }
    subst c. rewrite E. set (s := words src + _ + _ + _) in *.
    destruct (finish_spec s) as (Hu & Hm & Hp & _); [unfold uint; lia|]. set (f := finish s) in *.
    assert (Hm' : ∃ c', (if f =? 0 then 65535 else f) = c' ∧ uint 16 c' ∧ c' ≠ 0 ∧ (c' + s) mod 65535 = 0).
    { exists (if decide (f = 0) then 65535 else f). split; [destruct (Z.eqb_spec f 0); by case_decide|]. case_decide as E0; [|done].
      split_and!; [done..|]. replace (65535 + s) with (0 + s + 1 * 65535) by lia. rewrite Z_mod_plus_full. by rewrite <-E0 at 1. }
    destruct Hm' as (c & -> & Hu' & Hne & Hz). split; [done|]. split; [done|]. unfold uint in Hu'.
    destruct (datagram_checksum_eq src dst (l1 ++ be_bytes 2 c ++ payload)) as [E' _]; try done.
    { auto with bytes. } { rewrite Hlength. lia. }
    rewrite E', words_splice, Hlength by (done || by exists 3%nat).
    assert (length (l1 ++ [0; 0] ++ payload) = (8 + length payload)%nat) as E2 by apply (Hlength 0).
    clear -Hr Hz Hu' E2. subst s. rewrite E2 in Hr, Hz.
    apply finish_spec; [unfold uint; lia|]. split; [lia|]. etrans; [|exact Hz]. f_equal. lia. }
  destruct Hc as (Hu & Hne & Hz).
  assert (copy_at 6 (be_bytes 2 c) (l1 ++ [0; 0] ++ payload) = Some (l1 ++ be_bytes 2 c ++ payload)) as ->
    by (by apply (copy_at_app l1)).
  eexists. split; [done|]. split; [apply Hlength|]. split; [auto with bytes|].
  set (bytes := l1 ++ be_bytes 2 c ++ payload) in *. unfold Udp.parse.
  specialize (Hlength c). fold bytes in Hlength.
  rewrite decide_False by (rewrite length_app; unfold Udp.HEADER; lia).
  assert (u16_at bytes 4 = Some len) as H4.
  { change (u16_at bytes 4) with (Some (len / 256 mod 256 * 256 + len mod 256)). rewrite be_bytes_2_value; [done|].
    unfold uint. lia. }
  rewrite (u16_at_app _ _ _ _ H4). cbn [fmap option_fmap option_map mbind option_bind].
  replace (Z.to_nat len) with (length bytes) by lia. rewrite decide_False by (rewrite length_app; unfold Udp.HEADER; lia).
  rewrite (slice_app [] bytes pad : slice 0 (length bytes) (bytes ++ pad) = Some bytes). cbn [mbind option_bind].
  assert (u16_at bytes 6 = Some c) as H6.
  { change (u16_at bytes 6) with (Some (c / 256 mod 256 * 256 + c mod 256)). by rewrite be_bytes_2_value. }
  rewrite (u16_at_app _ _ _ _ H6), Hz. cbn [mbind option_bind]. rewrite andb_false_r.
  assert (u16_at bytes 0 = Some sport) as H0.
  { change (u16_at bytes 0) with (Some (sport / 256 mod 256 * 256 + sport mod 256)). by rewrite be_bytes_2_value. }
  assert (u16_at bytes 2 = Some dport) as H2.
  { change (u16_at bytes 2) with (Some (dport / 256 mod 256 * 256 + dport mod 256)). by rewrite be_bytes_2_value. }
  rewrite (u16_at_app _ _ _ _ H0), (u16_at_app _ _ _ _ H2). cbn [mbind option_bind].
  change (slice Udp.HEADER (length bytes) bytes) with (slice 8 (length (take 8 bytes ++ payload)) (take 8 bytes ++ payload)).
  assert (slice 8 (length (take 8 bytes ++ payload)) (take 8 bytes ++ payload) = Some payload) as ->
    by (apply (slice_tail (take 8 bytes) payload)).
  done.
Qed.

(** * Parsers never panic *)

Lemma u16_at_Some l i : (S i < length l)%nat → is_Some (u16_at l i).
Proof.
  intros H. unfold u16_at. destruct (lookup_lt_is_Some_2 l i ltac:(lia)) as [a ->].
  destruct (lookup_lt_is_Some_2 l (S i) H) as [b ->]. by eexists.
Qed.

Lemma ipv4_at_Some l i : (i + 3 < length l)%nat → ∃ a, ipv4_at l i = Some a ∧ length a = 4%nat.
Proof.
  intros H. unfold ipv4_at.
  destruct (lookup_lt_is_Some_2 l i ltac:(lia)) as [a ->], (lookup_lt_is_Some_2 l (i + 1)%nat ltac:(lia)) as [b ->],
    (lookup_lt_is_Some_2 l (i + 2)%nat ltac:(lia)) as [c ->], (lookup_lt_is_Some_2 l (i + 3)%nat ltac:(lia)) as [d ->].
  by eexists.
Qed.

Lemma ipv4_at_bytes l i a : is_bytes l → ipv4_at l i = Some a → is_bytes a.
Proof.
  intros Hl (a1 & H1 & (b & H2 & (c & H3 & (d & H4 & [= <-])%bind_Some)%bind_Some)%bind_Some)%bind_Some.
  eauto 10 using is_bytes_lookup with bytes.
Qed.

Lemma slice_bytes l a b s : is_bytes l → slice a b l = Some s → is_bytes s.
Proof. intros Hl [_ ->]%slice_Some. auto with bytes. Qed.

Lemma slice_is_Some {A} a b (l : list A) : (a ≤ b)%nat → (b ≤ length l)%nat →
  ∃ s, slice a b l = Some s ∧ length s = (b - a)%nat.
Proof. intros. exists (take (b - a) (drop a l)). split; [by apply slice_Some|]. rewrite length_take, length_drop. lia. Qed.

Lemma mac_at_Some l i : (i + 6 ≤ length l)%nat → ∃ m, mac_at l i = Some m ∧ length m = 6%nat.
Proof. intros. destruct (slice_is_Some i (i + 6) l) as (m & ? & ?); [lia..|]. exists m. split; [done|lia]. Qed.

(** One step of a parser: the next read is in range. *)
Ltac read_step :=
  match goal with
  | |- context [u16_at ?l ?i] => let x := fresh "x" in let E := fresh "E" in
      destruct (u16_at_Some l i) as [x E]; [lia|rewrite E]
  | |- context [ipv4_at ?l ?i] => let x := fresh "x" in let E := fresh "E" in let H := fresh "H" in
      destruct (ipv4_at_Some l i) as (x & E & H); [lia|rewrite E]
  | |- context [mac_at ?l ?i] => let x := fresh "x" in let E := fresh "E" in let H := fresh "H" in
      destruct (mac_at_Some l i) as (x & E & H); [lia|rewrite E]
  | |- context [slice ?a ?b ?l] => let x := fresh "x" in let E := fresh "E" in let H := fresh "H" in
      destruct (slice_is_Some a b l) as (x & E & H); [lia..|rewrite E]
  | |- context [lookup ?i ?l] => let x := fresh "x" in let E := fresh "E" in
      destruct (lookup_lt_is_Some_2 l i) as [x E]; [lia|rewrite E]
  end; cbn [mbind option_bind fmap option_fmap option_map or_else].

Ltac refused := eexists; split; [reflexivity|intros ? [=]].

Lemma ethernet_parse_safe bytes : ∃ r, Ethernet.parse bytes = Some r ∧
  ∀ f, r = Some f → length (Ethernet.dst f) = 6%nat ∧ length (Ethernet.src f) = 6%nat ∧
    (is_bytes bytes → is_bytes (Ethernet.src f) ∧ is_bytes (Ethernet.payload f)).
Proof.
  unfold Ethernet.parse. case_decide; [refused|]. unfold Ethernet.HEADER in *.
  read_step. read_step. read_step. read_step. eexists. split; [done|]. intros f [= <-].
  cbn [Ethernet.dst Ethernet.src Ethernet.payload]. split; [done|]. split; [done|]. intros Hb.
  unfold mac_at in *. eauto using slice_bytes.
Qed.

Lemma arp_parse_safe bytes : ∃ r, Arp.parse bytes = Some r ∧ ∀ a, r = Some a →
  length (Arp.sender_mac a) = 6%nat ∧ length (Arp.sender_ip a) = 4%nat ∧ (is_bytes bytes → is_bytes (Arp.sender_mac a)).
Proof.
  unfold Arp.parse. case_bool_decide; [refused|]. unfold Arp.LENGTH in *. cbn [or_else].
  do 9 read_step. repeat (destruct (negb _); cbn [or_else mbind option_bind]; [refused|]).
  eexists. split; [done|]. intros a [= <-]. cbn [Arp.sender_mac Arp.sender_ip].
  split; [done|]. split; [done|]. intros Hb. unfold mac_at in *. eauto using slice_bytes.
Qed.

Lemma ipv4_parse_safe bytes : ∃ r, Ipv4.parse bytes = Some r ∧ ∀ p, r = Some p →
  length (Ipv4.src p) = 4%nat ∧ length (Ipv4.dst p) = 4%nat ∧ (is_bytes bytes → is_bytes (Ipv4.src p) ∧ is_bytes (Ipv4.payload p)).
Proof.
  unfold Ipv4.parse. case_bool_decide; [refused|]. unfold Ipv4.HEADER in *. cbn [or_else]. do 5 read_step.
  destruct (bytes !! 0%nat) as [first|] eqn:E4; [|apply lookup_ge_None in E4; lia]. 
  destruct (bytes !! 9%nat) as [proto|] eqn:E5; [|apply lookup_ge_None in E5; lia]. 
  cbn [fmap option_fmap option_map mbind option_bind].
  destruct (negb _); [refused|]. set (header := (Z.to_nat (Z.land first 15) * 4)%nat). set (total := Z.to_nat x).
  repeat (case_bool_decide; cbn [or_else mbind option_bind]; [refused|]).
  do 2 read_step. repeat (destruct (negb _); cbn [or_else mbind option_bind]; [refused|]).
  eexists. split; [done|]. intros p [= <-]. cbn [Ipv4.src Ipv4.dst Ipv4.payload]. split; [done|]. split; [done|]. intros Hb.
  eauto using ipv4_at_bytes, slice_bytes.
Qed.

Lemma icmp_parse_safe bytes : ∃ r, Icmp.parse bytes = Some r ∧ ∀ e, r = Some e →
  (Icmp.kind e = Icmp.ECHO_REQUEST ∨ Icmp.kind e = Icmp.ECHO_REPLY) ∧ length (Icmp.data e) = (length bytes - 8)%nat ∧
  (is_bytes bytes → uint 16 (Icmp.id e) ∧ uint 16 (Icmp.seq e) ∧ is_bytes (Icmp.data e)).
Proof.
  unfold Icmp.parse. case_bool_decide; [refused|]. cbn [or_else].
  destruct (bytes !! 0%nat) as [kind|] eqn:E0; [|apply lookup_ge_None in E0; lia].
  destruct (bytes !! 1%nat) as [one|] eqn:E1; [|apply lookup_ge_None in E1; lia].
  cbn [fmap option_fmap option_map or_else].
  destruct ((kind =? Icmp.ECHO_REQUEST) || (kind =? Icmp.ECHO_REPLY)) eqn:Ek; cbn [negb]; [|refused].
  repeat (destruct (negb _); cbn [or_else mbind option_bind]; [refused|]). do 3 read_step.
  eexists. split; [done|]. intros e [= <-]. cbn [Icmp.kind Icmp.id Icmp.seq Icmp.data].
  apply orb_true_iff in Ek. rewrite !Z.eqb_eq in Ek. split; [done|]. split; [done|]. intros Hb.
  split_and!; eauto using u16_at_uint, slice_bytes.
Qed.

Lemma udp_parse_safe bytes src dst : ∃ r, Udp.parse bytes src dst = Some r ∧ ∀ d, r = Some d →
  (is_bytes bytes → is_bytes (Udp.payload d)).
Proof.
  unfold Udp.parse. case_decide; [refused|]. unfold Udp.HEADER in *. do 4 read_step.
  case_decide; [refused|]. read_step. destruct (_ && _); [refused|]. read_step.
  eexists. split; [done|]. intros d [= <-] Hb. cbn [Udp.payload]. eauto using slice_bytes.
Qed.

Lemma take_option_safe code value r k : is_Some (Dhcp.take_option code value r k).
Proof.
  unfold Dhcp.take_option.
  destruct (if decide (4 ≤ length value)%nat then _ else _) as [a|] eqn:Ea.
  2:{ case_decide; [|done]. destruct (ipv4_at_Some value 0) as (x & E & _); [lia|]. by rewrite E in Ea. }
  cbn [mbind option_bind].
  repeat (destruct (_ && bool_decide _) eqn:E; [apply andb_true_iff in E as [_ E%bool_decide_eq_true]; do 2 try read_step; by eexists|clear E]);
  repeat (destruct (_ =? _); [by eexists|]).
  destruct (_ && bool_decide _) eqn:E; [apply andb_true_iff in E as [_ E%bool_decide_eq_true]; do 2 try read_step; by eexists|].
  by eexists.
Qed.

Lemma parse_options_safe fuel bytes at_ r k : (length bytes ≤ at_ + fuel)%nat → is_Some (Dhcp.parse_options fuel bytes at_ r k).
Proof.
  revert at_ r k. induction fuel as [|fuel IH]; intros at_ r k Hf; cbn [Dhcp.parse_options]; case_decide as Ha; try (by eexists); [lia|].
  destruct (lookup_lt_is_Some_2 bytes at_) as [code ->]; [lia|]. cbn [mbind option_bind].
  destruct (code =? _); [apply IH; lia|]. destruct (code =? _); [by eexists|].
  destruct (bytes !! (at_ + 1)%nat) as [len|]; [|by eexists].
  destruct (slice _ _ _) as [value|]; [|by eexists].
  destruct (take_option_safe code value r k) as [[r' k'] ->]. cbn [mbind option_bind]. apply IH. lia.
Qed.

Lemma parse_reply_safe bytes xid mac : is_Some (Dhcp.parse_reply bytes xid mac).
Proof.
  unfold Dhcp.parse_reply. case_bool_decide; [by eexists|]. unfold Dhcp.FIXED in *. cbn [or_else].
  destruct (bytes !! 0%nat) as [op|] eqn:E0; [|apply lookup_ge_None in E0; lia].
  cbn [fmap option_fmap option_map or_else]. do 4 read_step.
  destruct (negb _); [by eexists|]. do 2 (case_bool_decide; cbn [mbind option_bind]; [by eexists|]).
  case_decide; [by eexists|].
  destruct (parse_options_safe (length bytes) bytes (236 + 4) (Dhcp.mkReply Dhcp.Offer x None None None None None) None ltac:(lia))
    as [p ->]. by eexists.
Qed.
End Formats.
