(* ===== verification/Interface.v ===== *)
(** One network interface ([rustypi-core/src/net/interface.rs]): what it does with the frames it
    receives, its timers, ARP resolution, pings, DHCP and UDP, over the formats of [Net].

    Every operation returns the interface and the frames to send; [None] is a panic. *)
From S2P Require Import Prelude Bytes Net.
Local Open Scope Z_scope.

Module Interface.

Record Config := mkConfig {
  c_address : list Z; c_netmask : list Z; c_gateway : option (list Z); c_dns : option (list Z); c_lease_secs : Z;
}.
#[export] Instance Config_eq_dec : EqDecision Config.
Proof. solve_decision. Defined.

Inductive Event :=
| Configured (c : Config)
| Unconfigured
| PingReply (from : list Z) (seq rtt_us : Z)
| UdpEvent (from : list Z) (from_port port : Z) (data : list Z).

Definition DHCP_RETRY_US : Z := 4000000.
Definition DHCP_REQUEST_TRIES : Z := 3.
Definition MIN_RENEW_US : Z := 60000000.
Definition ARP_RETRY_US : Z := 1000000.
Definition ARP_GIVE_UP_US : Z := 3000000.
Definition ARP_CACHE : nat := 16.
Definition PING_TIMEOUT_US : Z := 10000000.

Inductive Dhcp :=
| Discovering (xid next_try : Z)
| Requesting (xid : Z) (offered server : list Z) (next_try tries : Z)
| Bound (server : list Z) (renew_at : Z).

Record Waiting := mkWaiting { w_next_hop : list Z; w_packet : list Z; w_queued_at : Z; w_asked_at : Z }.

Record Interface := mkInterface {
  i_mac : list Z;
  i_config : option Config;
  i_dhcp : Dhcp;
  i_arp : list (list Z * list Z);
  i_waiting : list Waiting;
  i_next_id : Z;
  i_ping_id : Z;
  i_pings : list (Z * Z);
  i_events : list Event;
  i_random : Z;
}.

Definition with_config (x : option Config) (i : Interface) : Interface :=
  mkInterface (i_mac i) x (i_dhcp i) (i_arp i) (i_waiting i) (i_next_id i) (i_ping_id i) (i_pings i) (i_events i) (i_random i).
Definition with_dhcp (x : Dhcp) (i : Interface) : Interface :=
  mkInterface (i_mac i) (i_config i) x (i_arp i) (i_waiting i) (i_next_id i) (i_ping_id i) (i_pings i) (i_events i) (i_random i).
Definition with_arp (x : list (list Z * list Z)) (i : Interface) : Interface :=
  mkInterface (i_mac i) (i_config i) (i_dhcp i) x (i_waiting i) (i_next_id i) (i_ping_id i) (i_pings i) (i_events i) (i_random i).
Definition with_waiting (x : list Waiting) (i : Interface) : Interface :=
  mkInterface (i_mac i) (i_config i) (i_dhcp i) (i_arp i) x (i_next_id i) (i_ping_id i) (i_pings i) (i_events i) (i_random i).
Definition with_next_id (x : Z) (i : Interface) : Interface :=
  mkInterface (i_mac i) (i_config i) (i_dhcp i) (i_arp i) (i_waiting i) x (i_ping_id i) (i_pings i) (i_events i) (i_random i).
Definition with_pings (x : list (Z * Z)) (i : Interface) : Interface :=
  mkInterface (i_mac i) (i_config i) (i_dhcp i) (i_arp i) (i_waiting i) (i_next_id i) (i_ping_id i) x (i_events i) (i_random i).
Definition with_events (x : list Event) (i : Interface) : Interface :=
  mkInterface (i_mac i) (i_config i) (i_dhcp i) (i_arp i) (i_waiting i) (i_next_id i) (i_ping_id i) (i_pings i) x (i_random i).
Definition with_random (x : Z) (i : Interface) : Interface :=
  mkInterface (i_mac i) (i_config i) (i_dhcp i) (i_arp i) (i_waiting i) (i_next_id i) (i_ping_id i) (i_pings i) (i_events i) x.
Definition push_event (e : Event) (i : Interface) : Interface := with_events (i_events i ++ [e]) i.

Definition new (mac : list Z) (seed : Z) : Interface :=
  mkInterface mac None (Discovering seed 0) [] [] (wrap 16 seed) (wrap 16 (Z.shiftr seed 16)) [] [] (Z.lor seed 1).

Definition take_events (i : Interface) : Interface * list Event := (with_events [] i, i_events i).

Definition next_xid (i : Interface) : Interface * Z :=
  let r := i_random i in
  let r := Z.lxor r (wrap 32 (Z.shiftl r 13)) in
  let r := Z.lxor r (Z.shiftr r 17) in
  let r := Z.lxor r (wrap 32 (Z.shiftl r 5)) in
  (with_random r i, r).

Definition take_id (i : Interface) : Interface * Z :=
  let id := wrap 16 (i_next_id i + 1) in (with_next_id id i, id).

Definition dhcp_frame (message : list Z) (i : Interface) : option (Interface * list Z) :=
  datagram ← Udp.build Addr.UNSPECIFIED Dhcp.CLIENT_PORT Addr.BROADCAST Dhcp.SERVER_PORT message;
  let '(i, id) := take_id i in
  packet ← Ipv4.build Addr.UNSPECIFIED Addr.BROADCAST Ipv4.UDP id datagram;
  Some (i, Ethernet.build Addr.MAC_BROADCAST (i_mac i) Ethernet.IPV4 packet).

Definition arp_request (ip : list Z) (i : Interface) : option (list Z) :=
  config ← i_config i;
  let request := Arp.mkArp Arp.REQUEST (i_mac i) (c_address config) (replicate 6 0) ip in
  Some (Ethernet.build Addr.MAC_BROADCAST (i_mac i) Ethernet.ARP (Arp.to_bytes request)).

Definition lookup_arp (ip : list Z) (i : Interface) : option (list Z) :=
  snd <$> List.find (λ '(known, _), bool_decide (known = ip)) (rev (i_arp i)).

Definition learn (ip mac : list Z) (i : Interface) (out : list (list Z)) : Interface * list (list Z) :=
  let arp := filter (λ '(known, _), known ≠ ip) (i_arp i) in
  let arp := if decide (length arp = ARP_CACHE) then drop 1 arp else arp in
  let i := with_arp (arp ++ [(ip, mac)]) i in
  let ready := filter (λ w, w_next_hop w = ip) (i_waiting i) in
  let i := with_waiting (filter (λ w, w_next_hop w ≠ ip) (i_waiting i)) i in
  (i, out ++ ((λ w, Ethernet.build mac (i_mac i) Ethernet.IPV4 (w_packet w)) <$> ready)).

Definition send_ip (dst : list Z) (protocol : Z) (payload : list Z) (now : Z) (i : Interface) (out : list (list Z))
    : option (Interface * list (list Z)) :=
  match i_config i with
  | None => Some (i, out)
  | Some config =>
    match (if Addr.same_network dst (c_address config) (c_netmask config) then Some dst else c_gateway config) with
    | None => Some (i, out)
    | Some next_hop =>
      let '(i, id) := take_id i in
      packet ← Ipv4.build (c_address config) dst protocol id payload;
      match lookup_arp next_hop i with
      | Some mac => Some (i, out ++ [Ethernet.build mac (i_mac i) Ethernet.IPV4 packet])
      | None =>
        let waiting := filter (λ w, w_next_hop w ≠ next_hop) (i_waiting i) in
        let i := with_waiting (waiting ++ [mkWaiting next_hop packet now now]) i in
        Some (i, out ++ option_list (arp_request next_hop i))
      end
    end
  end.

(** The timers of [poll] below DHCP's: waiting packets and pings. *)
Definition poll_waiting (now : Z) (i : Interface) (out : list (list Z)) : Interface * list (list Z) :=
  let waiting := filter (λ w, now < wrap 64 (w_queued_at w + ARP_GIVE_UP_US)) (i_waiting i) in
  let due w := bool_decide (wrap 64 (w_asked_at w + ARP_RETRY_US) <= now) in
  let ask := w_next_hop <$> filter (λ w, due w = true) waiting in
  let i := with_waiting ((λ w, if due w then mkWaiting (w_next_hop w) (w_packet w) (w_queued_at w) now else w) <$> waiting) i in
  let out := out ++ omap (λ ip, arp_request ip i) ask in
  (with_pings (filter (λ '(_, sent), now < wrap 64 (sent + PING_TIMEOUT_US)) (i_pings i)) i, out).

(** [poll] calls itself at most twice: a lease due for renewal goes on as a request, a request
    tried too often as a discovery. *)
Fixpoint poll_fuel (fuel : nat) (now : Z) (i : Interface) : option (Interface * list (list Z)) :=
  match i_dhcp i with
  | Discovering xid next_try =>
    if next_try <=? now then
      let i := with_dhcp (Discovering xid (wrap 64 (now + DHCP_RETRY_US))) i in
      '(i, frame) ← dhcp_frame (Dhcp.discover (i_mac i) xid) i;
      Some (poll_waiting now i [frame])
    else Some (poll_waiting now i [])
  | Requesting xid offered server next_try tries =>
    if next_try <=? now then
      if DHCP_REQUEST_TRIES <=? tries then
        let '(i, xid) := next_xid i in
        match fuel with
        | O => None
        | S fuel => poll_fuel fuel now (with_dhcp (Discovering xid now) i)
        end
      else
        let i := with_dhcp (Requesting xid offered server (wrap 64 (now + DHCP_RETRY_US)) (wrap 32 (tries + 1))) i in
        '(i, frame) ← dhcp_frame (Dhcp.request (i_mac i) xid offered server) i;
        Some (poll_waiting now i [frame])
    else Some (poll_waiting now i [])
  | Bound server renew_at =>
    if renew_at <=? now then
      let offered := match i_config i with Some config => c_address config | None => Addr.UNSPECIFIED end in
      let '(i, xid) := next_xid i in
      match fuel with
      | O => None
      | S fuel => poll_fuel fuel now (with_dhcp (Requesting xid offered server now 0) i)
      end
    else Some (poll_waiting now i [])
  end.
Definition poll (now : Z) (i : Interface) : option (Interface * list (list Z)) := poll_fuel 2 now i.

Definition awaiting (i : Interface) : bool :=
  negb (bool_decide (i_pings i = [])) || bool_decide (i_waiting i ≠ []).

Definition send_udp (to : list Z) (port from_port : Z) (data : list Z) (now : Z) (i : Interface)
    : option (Interface * list (list Z)) :=
  match i_config i with
  | None => Some (i, [])
  | Some config =>
    datagram ← Udp.build (c_address config) from_port to port data;
    send_ip to Ipv4.UDP datagram now i []
  end.

Definition ping (target : list Z) (seq now : Z) (i : Interface) : option (Interface * list (list Z)) :=
  let data := Z.of_nat <$> List.seq 0 32 in
  echo ← Icmp.to_bytes (Icmp.mkEcho Icmp.ECHO_REQUEST (i_ping_id i) seq data);
  let i := with_pings (filter (λ '(pending, _), pending ≠ seq) (i_pings i) ++ [(seq, now)]) i in
  send_ip target Ipv4.ICMP echo now i [].

Definition receive_arp (arp : Arp.Arp) (i : Interface) (out : list (list Z)) : Interface * list (list Z) :=
  match i_config i with
  | None => (i, out)
  | Some config =>
    let '(i, out) := if decide (Arp.sender_ip arp ≠ Addr.UNSPECIFIED)
                     then learn (Arp.sender_ip arp) (Arp.sender_mac arp) i out else (i, out) in
    if (Arp.op arp =? Arp.REQUEST) && bool_decide (Arp.target_ip arp = c_address config) then
      let reply := Arp.mkArp Arp.REPLY (i_mac i) (c_address config) (Arp.sender_mac arp) (Arp.sender_ip arp) in
      (i, out ++ [Ethernet.build (Arp.sender_mac arp) (i_mac i) Ethernet.ARP (Arp.to_bytes reply)])
    else (i, out)
  end.

Definition receive_dhcp (payload : list Z) (now : Z) (i : Interface) (out : list (list Z))
    : option (Interface * list (list Z)) :=
  match (match i_dhcp i with Discovering xid _ | Requesting xid _ _ _ _ => Some xid | Bound _ _ => None end) with
  | None => Some (i, out)
  | Some xid =>
    reply ← Dhcp.parse_reply payload xid (i_mac i);
    match reply with
    | None => Some (i, out)
    | Some reply =>
      match i_dhcp i, Dhcp.kind reply with
      | Discovering _ _, Dhcp.Offer =>
        match Dhcp.server reply with
        | None => Some (i, out)
        | Some server =>
          let i := with_dhcp (Requesting xid (Dhcp.address reply) server (wrap 64 (now + DHCP_RETRY_US)) 1) i in
          '(i, frame) ← dhcp_frame (Dhcp.request (i_mac i) xid (Dhcp.address reply) server) i;
          Some (i, out ++ [frame])
        end
      | Requesting _ _ server _ _, Dhcp.Ack =>
        let lease_secs := default 3600 (Dhcp.lease_secs reply) in
        let config := mkConfig (Dhcp.address reply) (default [255; 255; 255; 0] (Dhcp.netmask reply))
                        (Dhcp.router reply) (Dhcp.dns reply) lease_secs in
        let renew_in := Z.max (lease_secs * 1000000 / 2) MIN_RENEW_US in
        let i := with_dhcp (Bound (default server (Dhcp.server reply)) (wrap 64 (now + renew_in))) i in
        if decide (i_config i ≠ Some config)
        then Some (push_event (Configured config) (with_config (Some config) i), out)
        else Some (i, out)
      | Requesting _ _ _ _ _, Dhcp.Nak =>
        let had := i_config i in
        let i := with_config None i in
        let i := match had with Some _ => push_event Unconfigured i | None => i end in
        let '(i, xid) := next_xid i in
        Some (with_dhcp (Discovering xid now) i, out)
      | _, _ => Some (i, out)
      end
    end
  end.

Definition receive_echo (from : list Z) (packet : Ipv4.Packet) (echo : Icmp.Echo) (config : Config) (now : Z)
    (i : Interface) (out : list (list Z)) : option (Interface * list (list Z)) :=
  if Icmp.kind echo =? Icmp.ECHO_REQUEST then
    let '(i, out) := if Addr.same_network (c_address config) (Ipv4.src packet) (c_netmask config)
                     then learn (Ipv4.src packet) from i out else (i, out) in
    reply ← Icmp.to_bytes (Icmp.mkEcho Icmp.ECHO_REPLY (Icmp.id echo) (Icmp.seq echo) (Icmp.data echo));
    let '(i, id) := take_id i in
    answer ← Ipv4.build (c_address config) (Ipv4.src packet) Ipv4.ICMP id reply;
    Some (i, out ++ [Ethernet.build from (i_mac i) Ethernet.IPV4 answer])
  else if (Icmp.kind echo =? Icmp.ECHO_REPLY) && (Icmp.id echo =? i_ping_id i) then
    match list_find (λ '(seq, _), seq = Icmp.seq echo) (i_pings i) with
    | None => Some (i, out)
    | Some (index, (seq, sent)) =>
      let i := with_pings (delete index (i_pings i)) i in
      Some (push_event (PingReply (Ipv4.src packet) seq (Z.max 0 (now - sent))) i, out)
    end
  else Some (i, out).

Definition receive_ipv4 (from : list Z) (packet : Ipv4.Packet) (now : Z) (i : Interface) (out : list (list Z))
    : option (Interface * list (list Z)) :=
  if Ipv4.protocol packet =? Ipv4.UDP then
    datagram ← Udp.parse (Ipv4.payload packet) (Ipv4.src packet) (Ipv4.dst packet);
    match datagram with
    | None => Some (i, out)
    | Some datagram =>
      if (Udp.dst_port datagram =? Dhcp.CLIENT_PORT) && (Udp.src_port datagram =? Dhcp.SERVER_PORT) then
        receive_dhcp (Udp.payload datagram) now i out
      else
        match i_config i with
        | Some config =>
          if decide (Ipv4.dst packet = c_address config) then
            Some (push_event (UdpEvent (Ipv4.src packet) (Udp.src_port datagram) (Udp.dst_port datagram)
                                (Udp.payload datagram)) i, out)
          else Some (i, out)
        | None => Some (i, out)
        end
    end
  else
    match i_config i with
    | None => Some (i, out)
    | Some config =>
      if bool_decide (Ipv4.dst packet ≠ c_address config) || negb (Ipv4.protocol packet =? Ipv4.ICMP)
      then Some (i, out)
      else
        echo ← Icmp.parse (Ipv4.payload packet);
        match echo with
        | None => Some (i, out)
        | Some echo => receive_echo from packet echo config now i out
        end
    end.

Definition receive (bytes : list Z) (now : Z) (i : Interface) : option (Interface * list (list Z)) :=
  frame ← Ethernet.parse bytes;
  match frame with
  | None => Some (i, [])
  | Some frame =>
    if bool_decide (Ethernet.dst frame ≠ i_mac i) && bool_decide (Ethernet.dst frame ≠ Addr.MAC_BROADCAST)
    then Some (i, [])
    else if Ethernet.ethertype frame =? Ethernet.ARP then
      arp ← Arp.parse (Ethernet.payload frame);
      match arp with Some arp => Some (receive_arp arp i []) | None => Some (i, []) end
    else if Ethernet.ethertype frame =? Ethernet.IPV4 then
      packet ← Ipv4.parse (Ethernet.payload frame);
      match packet with
      | Some packet => receive_ipv4 (Ethernet.src frame) packet now i []
      | None => Some (i, [])
      end
    else Some (i, [])
  end.

(** An interface that asks for an address, is offered one, takes it, and is pinged. *)
Definition demo_mac : list Z := [2; 0; 0; 0; 0; 1].
Definition demo_server : list Z := [2; 0; 0; 0; 0; 9].
Definition demo_reply (xid kind : Z) : list Z :=
  [2; 1; 6; 0] ++ be_bytes 4 xid ++ replicate 8 0 ++ [10; 0; 0; 5] ++ replicate 8 0 ++ demo_mac ++
  replicate 202 0 ++ Dhcp.MAGIC ++ [53; 1; kind; 54; 4; 10; 0; 0; 1; 1; 4; 255; 255; 255; 0; 255].
Definition demo_dhcp (xid kind : Z) : option (list Z) :=
  datagram ← Udp.build [10; 0; 0; 1] Dhcp.SERVER_PORT Addr.BROADCAST Dhcp.CLIENT_PORT (demo_reply xid kind);
  packet ← Ipv4.build [10; 0; 0; 1] Addr.BROADCAST Ipv4.UDP 7 datagram;
  Some (Ethernet.build Addr.MAC_BROADCAST demo_server Ethernet.IPV4 packet).
Definition demo_start : option Interface :=
  '(i, _) ← poll 0 (new demo_mac 0x12345678);
  offer ← demo_dhcp 0x12345678 2;
  '(i, _) ← receive offer 1000 i;
  ack ← demo_dhcp 0x12345678 5;
  '(i, _) ← receive ack 2000 i;
  Some i.

Import Formats.

(** ** No panics *)
Lemma copy_at_Some n src dst : (n + length src ≤ length dst)%nat → is_Some (copy_at n src dst).
Proof. intros. unfold copy_at. rewrite decide_True by lia. by eexists. Qed.

Lemma ipv4_build_safe src dst protocol id payload : is_Some (Ipv4.build src dst protocol id payload).
Proof.
  unfold Ipv4.build. match goal with |- context [copy_at ?n ?s ?d] => destruct (copy_at_Some n s d) as [x ->] end.
  - rewrite !length_app, !length_be_bytes. cbn [length]. lia.
  - by eexists.
Qed.

Lemma udp_build_safe src sport dst dport payload : is_Some (Udp.build src sport dst dport payload).
Proof. unfold Udp.build. apply copy_at_Some. rewrite !length_app, !length_be_bytes. cbn [length]. lia. Qed.

Lemma icmp_to_bytes_safe e : is_Some (Icmp.to_bytes e).
Proof. unfold Icmp.to_bytes. apply copy_at_Some. rewrite !length_app, !length_be_bytes. cbn [length]. lia. Qed.

Lemma dhcp_frame_safe m i : ∃ i' f, dhcp_frame m i = Some (i', f) ∧ i' = (take_id i).1.
Proof.
  unfold dhcp_frame. destruct (udp_build_safe Addr.UNSPECIFIED Dhcp.CLIENT_PORT Addr.BROADCAST Dhcp.SERVER_PORT m) as [d ->].
  cbn [mbind option_bind]. unfold take_id. destruct (ipv4_build_safe Addr.UNSPECIFIED Addr.BROADCAST Ipv4.UDP (wrap 16 (i_next_id i + 1)) d) as [p ->].
  by do 2 eexists.
Qed.

Lemma send_ip_safe dst protocol payload now i out : is_Some (send_ip dst protocol payload now i out).
Proof.
  unfold send_ip. destruct (i_config i) as [c|]; [|by eexists]. destruct (if Addr.same_network dst (c_address c) (c_netmask c) then Some dst else c_gateway c) as [hop|]; [|by eexists].
  unfold take_id. destruct (ipv4_build_safe (c_address c) dst protocol (wrap 16 (i_next_id i + 1)) payload) as [p ->].
  cbn [mbind option_bind]. destruct (lookup_arp _ _); by eexists.
Qed.

Lemma poll_fuel_requesting n now i xid o s next tries : i_dhcp i = Requesting xid o s next tries →
  is_Some (poll_fuel (S n) now i).
Proof.
  intros E. cbn [poll_fuel]. rewrite E. destruct (next <=? now); [|by eexists]. destruct (_ <=? _).
  - unfold next_xid. cbn zeta beta match. destruct n; cbn [poll_fuel i_dhcp with_dhcp]; destruct (_ <=? _); try (by eexists);
      match goal with |- context [dhcp_frame ?m ?i] => destruct (dhcp_frame_safe m i) as (i' & f & -> & _) end; by eexists.
  - match goal with |- context [dhcp_frame ?m ?i] => destruct (dhcp_frame_safe m i) as (i' & f & -> & _) end. by eexists.
Qed.

Lemma poll_safe now i : is_Some (poll now i).
Proof.
  unfold poll. cut (∀ n, is_Some (poll_fuel (S (S n)) now i)); [intros H; apply H|]. intros n. destruct (i_dhcp i) as [xid next|xid o s next tries|s renew] eqn:E.
  - cbn [poll_fuel]. rewrite E. destruct (_ <=? _); [|by eexists].
    match goal with |- context [dhcp_frame ?m ?i] => destruct (dhcp_frame_safe m i) as (i' & f & -> & _) end. by eexists.
  - by eapply poll_fuel_requesting.
  - cbn [poll_fuel]. rewrite E. destruct (_ <=? _); [|by eexists]. unfold next_xid. cbn zeta beta match.
    eapply poll_fuel_requesting. done.
Qed.

Lemma receive_dhcp_safe payload now i out : is_Some (receive_dhcp payload now i out).
Proof.
  unfold receive_dhcp. destruct (match i_dhcp i with Discovering xid _ | Requesting xid _ _ _ _ => Some xid | Bound _ _ => None end) as [xid|]; [|by eexists].
  destruct (parse_reply_safe payload xid (i_mac i)) as [r ->]. cbn [mbind option_bind]. destruct r as [r|]; [|by eexists].
  destruct (i_dhcp i), (Dhcp.kind r); try (by eexists).
  - destruct (Dhcp.server r); [|by eexists].
    match goal with |- context [dhcp_frame ?m ?i] => destruct (dhcp_frame_safe m i) as (i' & f & -> & _) end. by eexists.
  - case_decide; by eexists.
Qed.

Lemma receive_echo_safe from packet echo config now i out : is_Some (receive_echo from packet echo config now i out).
Proof.
  unfold receive_echo. destruct (_ =? _).
  - destruct (if Addr.same_network (c_address config) (Ipv4.src packet) (c_netmask config)
                     then learn (Ipv4.src packet) from i out else (i, out)) as [i' out'].
    destruct (icmp_to_bytes_safe (Icmp.mkEcho Icmp.ECHO_REPLY (Icmp.id echo) (Icmp.seq echo) (Icmp.data echo))) as [r ->].
    cbn [mbind option_bind]. unfold take_id.
    match goal with |- context [Ipv4.build ?a ?b ?c ?d ?e] => destruct (ipv4_build_safe a b c d e) as [p ->] end. by eexists.
  - destruct (_ && _); [|by eexists]. destruct (list_find _ _) as [[? [? ?]]|]; by eexists.
Qed.

Lemma receive_safe bytes now i : is_Some (receive bytes now i).
Proof.
  unfold receive. destruct (ethernet_parse_safe bytes) as (r & -> & _). cbn [mbind option_bind].
  destruct r as [f|]; [|by eexists]. destruct (_ && _); [by eexists|]. destruct (_ =? _).
  { destruct (arp_parse_safe (Ethernet.payload f)) as (r & -> & _). cbn [mbind option_bind]. destruct r; by eexists. }
  destruct (_ =? _); [|by eexists].
  destruct (ipv4_parse_safe (Ethernet.payload f)) as (r & -> & _). cbn [mbind option_bind].
  destruct r as [p|]; [|by eexists]. unfold receive_ipv4. destruct (_ =? _).
  + destruct (udp_parse_safe (Ipv4.payload p) (Ipv4.src p) (Ipv4.dst p)) as (d & -> & _). cbn [mbind option_bind].
    destruct d as [d|]; [|by eexists]. destruct (_ && _); [apply receive_dhcp_safe|].
    destruct (i_config i); [case_decide|]; by eexists.
  + destruct (i_config i) as [c|]; [|by eexists]. destruct (_ || _); [by eexists|].
    destruct (icmp_parse_safe (Ipv4.payload p)) as (e & -> & _). cbn [mbind option_bind].
    destruct e; [apply receive_echo_safe|by eexists].
Qed.

(** C36: nothing that arrives from the network, and nothing the kernel asks of it, makes the
    interface panic: every received frame (any bytes at all), every timer tick, ping and datagram
    gives a result, and [poll] ends, calling itself at most twice. *)
Theorem interface_never_panics i now :
  (∀ bytes, is_Some (receive bytes now i)) ∧ is_Some (poll now i) ∧
  (∀ target seq, is_Some (ping target seq now i)) ∧
  (∀ to port from_port data, is_Some (send_udp to port from_port data now i)).
Proof.
  split; [|split; [apply poll_safe|split]].
  - intros bytes. apply receive_safe.
  - intros target seq. unfold ping.
    match goal with |- context [Icmp.to_bytes ?e] => destruct (icmp_to_bytes_safe e) as [b ->] end. apply send_ip_safe.
  - intros to port from_port data. unfold send_udp. destruct (i_config i) as [c|]; [|by eexists].
    destruct (udp_build_safe (c_address c) from_port to port data) as [d ->]. apply send_ip_safe.
Qed.

(** ** The address *)
Lemma learn_config ip mac i out : i_config (learn ip mac i out).1 = i_config i ∧ i_mac (learn ip mac i out).1 = i_mac i.
Proof. done. Qed.

Lemma dhcp_frame_eq m i i' f : dhcp_frame m i = Some (i', f) → i' = (take_id i).1.
Proof. intros H. destruct (dhcp_frame_safe m i) as (j & g & E & ->). rewrite E in H. by injection H as <- _. Qed.

Lemma send_ip_config dst protocol payload now i out i' out' : send_ip dst protocol payload now i out = Some (i', out') →
  i_config i' = i_config i ∧ i_dhcp i' = i_dhcp i.
Proof.
  unfold send_ip. destruct (i_config i) as [c|] eqn:E; [|intros [= <- _]; by rewrite E].
  destruct (if Addr.same_network dst (c_address c) (c_netmask c) then Some dst else c_gateway c) as [hop|]; [|intros [= <- _]; by rewrite E].
  unfold take_id. intros (p & _ & H)%bind_Some. destruct (lookup_arp _ _); injection H as <- _; by rewrite <-E.
Qed.

(** What the timers do not touch. *)
Section kept_by_poll.
Context {A : Type} (f : Interface → A).
Hypothesis f_dhcp : ∀ x i, f (with_dhcp x i) = f i.
Hypothesis f_waiting : ∀ x i, f (with_waiting x i) = f i.
Hypothesis f_pings : ∀ x i, f (with_pings x i) = f i.
Hypothesis f_next_id : ∀ x i, f (with_next_id x i) = f i.
Hypothesis f_random : ∀ x i, f (with_random x i) = f i.

Lemma poll_waiting_keeps now i out : f (poll_waiting now i out).1 = f i.
Proof. unfold poll_waiting. cbn [fst]. by rewrite f_pings, f_waiting. Qed.

Lemma dhcp_poll_keeps m i now i' out :
  ('(i, frame) ← dhcp_frame m i; Some (poll_waiting now i [frame])) = Some (i', out) → f i' = f i.
Proof.
  intros ([j g] & ->%dhcp_frame_eq & H)%bind_Some. apply Some_inj in H. change i' with (i', out).1.
  rewrite <-H, poll_waiting_keeps. apply f_next_id.
Qed.

Lemma poll_fuel_keeps n now i i' out : poll_fuel n now i = Some (i', out) → f i' = f i.
Proof.
  assert (Hidle : ∀ i, Some (poll_waiting now i []) = Some (i', out) → f i' = f i).
  { intros j H%Some_inj. change i' with (i', out).1. by rewrite <-H, poll_waiting_keeps. }
  assert (Hxid : ∀ i, f (next_xid i).1 = f i) by (intros; apply f_random).
  revert i. induction n as [|n IH]; intros i H; cbn [poll_fuel] in H; specialize (Hxid i);
    destruct (next_xid i) as [j x]; cbn [fst] in Hxid; destruct (i_dhcp i) as [xid next|xid o s next tries|s renew];
    (destruct (_ <=? now); [|by apply Hidle in H]); repeat (destruct (_ <=? _); [|]); try done;
    (apply dhcp_poll_keeps in H || apply IH in H); rewrite H, ?f_dhcp; done.
Qed.
End kept_by_poll.

Lemma poll_fuel_config n now i i' out : poll_fuel n now i = Some (i', out) → i_config i' = i_config i.
Proof. by apply poll_fuel_keeps. Qed.

(** What an acknowledgement gives the interface. *)
Definition config_of (r : Dhcp.Reply) : Config :=
  mkConfig (Dhcp.address r) (default [255; 255; 255; 0] (Dhcp.netmask r)) (Dhcp.router r) (Dhcp.dns r)
    (default 3600 (Dhcp.lease_secs r)).

Lemma receive_dhcp_config payload now i out i' out' : receive_dhcp payload now i out = Some (i', out') →
  i_config i' = i_config i ∨
  ∃ xid offered server next tries r, i_dhcp i = Requesting xid offered server next tries ∧
    Dhcp.parse_reply payload xid (i_mac i) = Some (Some r) ∧
    (Dhcp.kind r = Dhcp.Ack ∧ i_config i' = Some (config_of r) ∧ (∃ s at_, i_dhcp i' = Bound s at_) ∨
     Dhcp.kind r = Dhcp.Nak ∧ i_config i' = None ∧ ∃ x, i_dhcp i' = Discovering x now).
Proof.
  unfold receive_dhcp. destruct (i_dhcp i) as [xid next|xid offered server next tries|s renew] eqn:E.
  - intros (r & _ & H)%bind_Some. left. destruct r as [r|]; [|by injection H as <- _].
    destruct (Dhcp.kind r); try (by injection H as <- _). destruct (Dhcp.server r); [|by injection H as <- _].
    apply bind_Some in H as ([j f] & ->%dhcp_frame_eq & [= <- _]). done.
  - intros (r & Hr & H)%bind_Some. destruct r as [r|]; [|left; by injection H as <- _].
    destruct (Dhcp.kind r) eqn:Hk; try (left; by injection H as <- _); right; exists xid, offered, server, next, tries, r;
      (split; [done|]; split; [done|]).
    + left. split; [done|]. case_decide as Hc.
      * injection H as <- _. split; [done|]. by do 2 eexists.
      * injection H as <- _. split; [exact Hc|]. by do 2 eexists.
    + right. split; [done|]. injection H as <- _. destruct (i_config i); (split; [done|]); by eexists.
  - intros [= <- _]. by left.
Qed.

(** The interface's address is only ever what DHCP says: it changes only when a frame for
    this interface brings a reply to the very request it is making (same transaction, its own
    MAC address), to the acknowledged configuration or, refused, to none; timers, pings and
    datagrams leave it alone. *)
Theorem address_only_changes_by_dhcp i i' now out :
  (∀ bytes, receive bytes now i = Some (i', out) → i_config i' ≠ i_config i →
     ∃ frame packet datagram xid offered server next tries r,
       Ethernet.parse bytes = Some (Some frame) ∧
       (Ethernet.dst frame = i_mac i ∨ Ethernet.dst frame = Addr.MAC_BROADCAST) ∧
       Ipv4.parse (Ethernet.payload frame) = Some (Some packet) ∧
       Udp.parse (Ipv4.payload packet) (Ipv4.src packet) (Ipv4.dst packet) = Some (Some datagram) ∧
       i_dhcp i = Requesting xid offered server next tries ∧
       Dhcp.parse_reply (Udp.payload datagram) xid (i_mac i) = Some (Some r) ∧
       (Dhcp.kind r = Dhcp.Ack ∧ i_config i' = Some (config_of r) ∧ (∃ s at_, i_dhcp i' = Bound s at_) ∨
        Dhcp.kind r = Dhcp.Nak ∧ i_config i' = None ∧ ∃ x, i_dhcp i' = Discovering x now)) ∧
  (poll now i = Some (i', out) → i_config i' = i_config i) ∧
  (∀ target seq, ping target seq now i = Some (i', out) → i_config i' = i_config i) ∧
  (∀ to port from_port data, send_udp to port from_port data now i = Some (i', out) → i_config i' = i_config i).
Proof.
  split; [|split; [apply poll_fuel_config|split]].
  - intros bytes H Hne. unfold receive in H. apply bind_Some in H as (f & Hf & H).
    destruct f as [f|]; [|by injection H as <- _].
    destruct (bool_decide (Ethernet.dst f ≠ i_mac i) && bool_decide (Ethernet.dst f ≠ Addr.MAC_BROADCAST)) eqn:Hd; [by injection H as <- _|].
    apply andb_false_iff in Hd. rewrite !bool_decide_eq_false in Hd.
    assert (Hdst : Ethernet.dst f = i_mac i ∨ Ethernet.dst f = Addr.MAC_BROADCAST) by (destruct Hd as [Hd|Hd]; apply dec_stable in Hd; auto).
    destruct (_ =? Ethernet.ARP).
    { apply bind_Some in H as (a & _ & H). destruct a as [a|]; [|by injection H as <- _]. exfalso. apply Hne.
      apply Some_inj in H. unfold receive_arp in H. destruct (i_config i) as [c|] eqn:Ec; [|by injection H as <- _].
      assert (Hl : i_config (if decide (Arp.sender_ip a ≠ Addr.UNSPECIFIED) then learn (Arp.sender_ip a) (Arp.sender_mac a) i []
                             else (i, [])).1 = Some c) by (by case_decide).
      destruct (if decide (Arp.sender_ip a ≠ Addr.UNSPECIFIED) then _ else _) as [j o]. cbn in Hl.
      destruct (_ && _); by injection H as <- _. }
    destruct (_ =? Ethernet.IPV4); [|by injection H as <- _].
    apply bind_Some in H as (p & Hp & H). destruct p as [p|]; [|by injection H as <- _].
    unfold receive_ipv4 in H. destruct (_ =? _).
    + apply bind_Some in H as (d & Hdg & H). destruct d as [d|]; [|by injection H as <- _].
      destruct (_ && _).
      * destruct (receive_dhcp_config _ _ _ _ _ _ H) as [|(xid & offered & server & next & tries & r & H1 & H2 & H3)]; [done|].
        by exists f, p, d, xid, offered, server, next, tries, r.
      * exfalso. apply Hne. destruct (i_config i) as [c|] eqn:Ec; [case_decide|]; injection H as <- _; by rewrite <-Ec.
    + exfalso. apply Hne. destruct (i_config i) as [c|] eqn:Ec; [|by injection H as <- _].
      destruct (_ || _); [by injection H as <- _|]. apply bind_Some in H as (e & _ & H).
      destruct e as [e|]; [|by injection H as <- _]. unfold receive_echo in H. destruct (_ =? Icmp.ECHO_REQUEST).
      * assert (Hl : i_config (if Addr.same_network (c_address c) (Ipv4.src p) (c_netmask c)
                     then learn (Ipv4.src p) (Ethernet.src f) i [] else (i, [])).1 = Some c) by (by destruct (Addr.same_network _ _ _)).
        destruct (if Addr.same_network _ _ _ then _ else _) as [j o]. cbn in Hl.
        apply bind_Some in H as (rp & _ & H). unfold take_id in H. apply bind_Some in H as (an & _ & [= <- _]). done.
      * destruct (_ && _); [|by injection H as <- _]. destruct (list_find _ _) as [[? [? ?]]|]; by injection H as <- _.
  - intros target seq H. unfold ping in H. apply bind_Some in H as (e & _ & H). by apply send_ip_config in H as [-> _].
  - intros to port from_port data H. unfold send_udp in H. destruct (i_config i) as [c|] eqn:Ec; [|by injection H as <- _].
    apply bind_Some in H as (d & _ & H). apply send_ip_config in H as [-> _]. done.
Qed.

(** ** Delivery *)
Definition for_us (dst : list Z) (i : Interface) : Prop := dst = i_mac i ∨ dst = Addr.MAC_BROADCAST.

Lemma for_us_passes dst i : for_us dst i →
  bool_decide (dst ≠ i_mac i) && bool_decide (dst ≠ Addr.MAC_BROADCAST) = false.
Proof. intros [->| ->]; apply andb_false_iff; [left|right]; apply bool_decide_eq_false_2; intros H; by apply H. Qed.

Lemma receive_arp_frame dst src a now i : for_us dst i → length dst = 6%nat → length src = 6%nat →
  uint 16 (Arp.op a) → length (Arp.sender_mac a) = 6%nat → length (Arp.sender_ip a) = 4%nat →
  length (Arp.target_mac a) = 6%nat → length (Arp.target_ip a) = 4%nat →
  receive (Ethernet.build dst src Ethernet.ARP (Arp.to_bytes a)) now i = Some (receive_arp a i []).
Proof.
  intros Hus Hd Hs Ho H1 H2 H3 H4. unfold receive. rewrite ethernet_roundtrip by done.
  cbn [mbind option_bind Ethernet.dst Ethernet.ethertype Ethernet.payload]. rewrite for_us_passes by done.
  change (Ethernet.ARP =? Ethernet.ARP) with true. cbn match. rewrite arp_roundtrip by done. reflexivity.
Qed.

Lemma receive_ip_frame dst src bytes p now i : for_us dst i → length dst = 6%nat → length src = 6%nat →
  Ipv4.parse (bytes ++ replicate (46 - length bytes) 0) = Some (Some p) →
  receive (Ethernet.build dst src Ethernet.IPV4 bytes) now i = receive_ipv4 src p now i [].
Proof.
  intros Hus Hd Hs Hp. unfold receive. rewrite ethernet_roundtrip by done.
  cbn [mbind option_bind Ethernet.dst Ethernet.ethertype Ethernet.payload]. rewrite for_us_passes by done.
  change (Ethernet.IPV4 =? Ethernet.ARP) with false. change (Ethernet.IPV4 =? Ethernet.IPV4) with true.
  cbn match. rewrite Hp. reflexivity.
Qed.

Lemma filter_filter_not {A} (P Q : A → Prop) `{∀ x, Decision (P x), ∀ x, Decision (Q x)} l :
  (∀ x, Q x → ¬ P x) → filter P (filter Q l) = [].
Proof.
  intros HPQ. induction l as [|x l IH]; [done|]. rewrite (filter_cons Q). case_decide as Hq; [|done].
  rewrite filter_cons_False by auto. done.
Qed.

(** A neighbour that has an address answers who asks for it, with where it is. *)
Lemma receive_arp_request c src sip i now : i_config i = Some c → Addr.mac_ok (i_mac i) → Addr.ip_ok (c_address c) →
  Addr.mac_ok src → Addr.ip_ok sip → sip ≠ Addr.UNSPECIFIED → filter (λ w, w_next_hop w = sip) (i_waiting i) = [] →
  ∃ i', receive (Ethernet.build Addr.MAC_BROADCAST src Ethernet.ARP
                   (Arp.to_bytes (Arp.mkArp Arp.REQUEST src sip (replicate 6 0) (c_address c)))) now i =
        Some (i', [Ethernet.build src (i_mac i) Ethernet.ARP
                     (Arp.to_bytes (Arp.mkArp Arp.REPLY (i_mac i) (c_address c) src sip))]) ∧
    i_config i' = i_config i ∧ i_mac i' = i_mac i ∧ i_events i' = i_events i.
Proof.
  intros Hc [Hm _] [Ha _] [Hs _] [Hi _] Hne Hw. rewrite receive_arp_frame by (done || by right).
  unfold receive_arp. rewrite Hc. cbn [Arp.sender_ip Arp.sender_mac Arp.op Arp.target_ip].
  rewrite decide_True by done. unfold learn. cbn [i_waiting with_arp]. rewrite Hw. cbn [fmap list_fmap app].
  rewrite bool_decide_eq_true_2 by done. change (Arp.REQUEST =? Arp.REQUEST) with true. cbn match.
  eexists. split; [reflexivity|]. done.
Qed.

(** A datagram of at most 1472 bytes for a neighbour whose MAC address is not known yet gets there, when the
    neighbour answers before the sender's next poll (which asks again, and gives up in the end) and has
    nothing waiting for the sender itself: sending it asks for the address, the neighbour answers, the answer
    sends the waiting packet, and the neighbour's kernel is handed exactly the bytes that were sent, from the
    sender's address and port. *)
Theorem datagram_reaches_its_neighbour a b ca cb port from_port data t0 t1 t2 t3 :
  i_config a = Some ca → Addr.mac_ok (i_mac a) → Addr.ip_ok (c_address ca) → c_address ca ≠ Addr.UNSPECIFIED →
  i_config b = Some cb → Addr.mac_ok (i_mac b) → Addr.ip_ok (c_address cb) → c_address cb ≠ Addr.UNSPECIFIED →
  Addr.same_network (c_address cb) (c_address ca) (c_netmask ca) = true →
  lookup_arp (c_address cb) a = None → filter (λ w, w_next_hop w = c_address ca) (i_waiting b) = [] →
  uint 16 port → uint 16 from_port → ¬ (port = Dhcp.CLIENT_PORT ∧ from_port = Dhcp.SERVER_PORT) →
  is_bytes data → Z.of_nat (length data) <= 1472 →
  ∃ a1 req b1 rep a2 frame b2,
    send_udp (c_address cb) port from_port data t0 a = Some (a1, [req]) ∧
    receive req t1 b = Some (b1, [rep]) ∧
    receive rep t2 a1 = Some (a2, [frame]) ∧
    receive frame t3 b1 = Some (b2, []) ∧
    i_events b2 = i_events b ++ [UdpEvent (c_address ca) from_port port data].
Proof.
  intros Hca Hma Hia Hua Hcb Hmb Hib Hub Hnet Harp Hwait Hp Hfp Hdhcp Hd Hl.
  destruct (udp_roundtrip (c_address ca) from_port (c_address cb) port data [] Hia Hib Hfp Hp Hd ltac:(lia))
    as (d & Hbuild & Hdl & Hdb & Hparse). rewrite app_nil_r in Hparse.
  destruct (ipv4_roundtrip (c_address ca) (c_address cb) Ipv4.UDP (wrap 16 (i_next_id a + 1)) d
              (replicate (46 - (20 + length d)) 0) Hia Hib ltac:(done) ltac:(lia)) as (p & Hip & Hpl & Hipp).
  rewrite <-Hpl in Hipp.
  unfold send_udp. rewrite Hca, Hbuild. cbn [mbind option_bind]. unfold send_ip. rewrite Hca, Hnet. cbn [take_id]. unfold take_id.
  rewrite Hip. cbn [mbind option_bind].
  set (a0 := with_next_id (wrap 16 (i_next_id a + 1)) a).
  assert (lookup_arp (c_address cb) a0 = None) as -> by exact Harp.
  set (w := mkWaiting (c_address cb) p t0 t0).
  set (a1 := with_waiting (filter (λ w, w_next_hop w ≠ c_address cb) (i_waiting a0) ++ [w]) a0).
  assert (Ereq : arp_request (c_address cb) a1 = Some (Ethernet.build Addr.MAC_BROADCAST (i_mac a) Ethernet.ARP
            (Arp.to_bytes (Arp.mkArp Arp.REQUEST (i_mac a) (c_address ca) (replicate 6 0) (c_address cb))))).
  { unfold arp_request. change (i_config a1) with (i_config a). by rewrite Hca. }
  rewrite Ereq. cbn [option_list app].
  destruct (receive_arp_request cb (i_mac a) (c_address ca) b t1) as (b1 & Hrep & Hcb1 & Hmb1 & Heb1); try done.
  do 7 eexists. split; [reflexivity|]. split; [exact Hrep|].
  destruct Hma as [Hma Hma'], Hmb as [Hmb Hmb'], Hia as [Hia Hia'], Hib as [Hib Hib'].
  split; [|split].
  - rewrite receive_arp_frame by (done || by left). unfold receive_arp. change (i_config a1) with (i_config a). rewrite Hca.
    cbn [Arp.sender_ip Arp.sender_mac Arp.op Arp.target_ip]. rewrite decide_True by done. unfold learn. cbn [i_waiting with_arp].
    change (i_waiting a1) with (filter (λ w, w_next_hop w ≠ c_address cb) (i_waiting a0) ++ [w]).
    rewrite (filter_app (λ w, w_next_hop w = c_address cb)), (filter_filter_not (λ w, w_next_hop w = c_address cb)) by (intros ? H; exact H).
    rewrite (filter_cons_True (λ w, w_next_hop w = c_address cb)) by done. cbn [app fmap list_fmap].
    change (Arp.REPLY =? Arp.REQUEST) with false. cbn [andb]. cbn match. reflexivity.
  - rewrite receive_ip_frame with (p := Ipv4.mkPacket (c_address ca) (c_address cb) Ipv4.UDP d);
      [|left; by rewrite Hmb1|done|done|exact Hipp].
    unfold receive_ipv4. cbn [Ipv4.protocol Ipv4.payload Ipv4.src Ipv4.dst].
    change (Ipv4.UDP =? Ipv4.UDP) with true. cbn match. rewrite Hparse. cbn [mbind option_bind Udp.dst_port Udp.src_port Udp.payload].
    assert ((port =? Dhcp.CLIENT_PORT) && (from_port =? Dhcp.SERVER_PORT) = false) as ->.
    { apply andb_false_iff. rewrite !Z.eqb_neq.
      destruct (decide (port = Dhcp.CLIENT_PORT)); [right; intros ?; by apply Hdhcp|by left]. }
    rewrite Hcb1, Hcb. rewrite decide_True by done. reflexivity.
  - cbn. by rewrite Heb1.
Qed.

(** ** The tables *)
Record tables_ok (arp : list (list Z * list Z)) (waiting : list Waiting) (pings : list (Z * Z)) : Prop := {
  arp_once : NoDup arp.*1;
  arp_bounded : (length arp ≤ ARP_CACHE)%nat;
  waiting_once : NoDup (w_next_hop <$> waiting);
  waiting_unknown : ∀ w, w ∈ waiting → w_next_hop w ∉ arp.*1;
  pings_once : NoDup pings.*1;
}.
Definition Inv (i : Interface) : Prop := tables_ok (i_arp i) (i_waiting i) (i_pings i).

Lemma NoDup_fmap_sublist {A B} (f : A → B) l1 l2 :
  l1 `sublist_of` l2 → NoDup (f <$> l2) → NoDup (f <$> l1).
Proof. intros Hs H. eapply sublist_NoDup; [exact H|]. by apply fmap_sublist. Qed.

Lemma NoDup_fmap_filter {A B} (f : A → B) (P : A → Prop) `{∀ x, Decision (P x)} l :
  NoDup (f <$> l) → NoDup (f <$> filter P l).
Proof. apply NoDup_fmap_sublist, sublist_filter. Qed.

Lemma NoDup_replace {A B} (f : A → B) (y : A) l :
  (∀ x, x ∈ l → f x ≠ f y) → NoDup (f <$> l) → NoDup (f <$> (l ++ [y])).
Proof.
  intros Hne H. rewrite fmap_app. apply NoDup_app. split; [done|]. split; [|apply NoDup_singleton].
  intros x (z & -> & Hz)%list_elem_of_fmap Hy%list_elem_of_singleton. by apply (Hne z).
Qed.

Lemma lookup_arp_None ip i : lookup_arp ip i = None → ip ∉ (i_arp i).*1.
Proof.
  unfold lookup_arp. intros H%fmap_None ((known & mac) & -> & Hin)%list_elem_of_fmap.
  apply (List.find_none _ _) with (x := (known, mac)) in H.
  - by apply bool_decide_eq_false in H.
  - apply -> in_rev. by apply list_elem_of_In.
Qed.

Lemma learn_inv ip mac i out : Inv i → Inv (learn ip mac i out).1.
Proof.
  intros [Ha Hb Hw Hu Hp]. unfold Inv, learn. cbn [fst i_arp i_waiting i_pings with_arp with_waiting].
  set (arp := filter (λ '(known, _), known ≠ ip) (i_arp i)).
  assert (Hsub : arp `sublist_of` i_arp i) by apply sublist_filter.
  set (arp' := if decide (length arp = ARP_CACHE) then drop 1 arp else arp).
  assert (Hsub' : arp' `sublist_of` arp) by (subst arp'; case_decide; [apply sublist_drop|done]).
  assert (Hlen : (length arp' < ARP_CACHE)%nat).
  { apply sublist_length in Hsub. subst arp'. case_decide; [rewrite length_drop; unfold ARP_CACHE in *; lia|lia]. }
  assert (Hne : ∀ x, x ∈ arp' → x.1 ≠ ip).
  { intros x Hx. apply (sublist_submseteq _ _) in Hsub'. apply (elem_of_submseteq _ _ _ Hx) in Hsub'.
    apply list_elem_of_filter in Hsub' as [Hx' _]. by destruct x. }
  assert (Hin : ∀ x, x ∈ arp' → x ∈ i_arp i).
  { intros x Hx. eapply elem_of_submseteq; [done|]. by apply sublist_submseteq, (transitivity Hsub' Hsub). }
  split.
  - apply NoDup_replace; [done|]. eapply NoDup_fmap_sublist; [|exact Ha]. by transitivity arp.
  - rewrite length_app. cbn [length]. lia.
  - by apply NoDup_fmap_filter.
  - intros w [Hwne Hwin]%list_elem_of_filter. rewrite fmap_app. intros [Hx|Hx%list_elem_of_singleton]%elem_of_app; [|done].
    apply (Hu w Hwin). apply list_elem_of_fmap in Hx as (x & -> & Hx). apply list_elem_of_fmap. eauto.
  - done.
Qed.

Lemma send_ip_inv dst protocol payload now i out i' out' : Inv i →
  send_ip dst protocol payload now i out = Some (i', out') → Inv i'.
Proof.
  intros HI. unfold send_ip. destruct (i_config i) as [c|]; [|by intros [= <- _]].
  destruct (if Addr.same_network dst (c_address c) (c_netmask c) then Some dst else c_gateway c) as [hop|]; [|by intros [= <- _]].
  unfold take_id. intros (p & _ & H)%bind_Some. destruct (lookup_arp _ _) eqn:El; injection H as <- _; [done|].
  apply lookup_arp_None in El. destruct HI as [Ha Hb Hw Hu Hp]. cbn [i_arp with_next_id] in El. split; try done.
  - apply NoDup_replace; [|by apply NoDup_fmap_filter]. by intros w [Hne _]%list_elem_of_filter.
  - intros w [Hx|Hx]%elem_of_app.
    + apply list_elem_of_filter in Hx as [_ Hx]. by apply Hu.
    + apply list_elem_of_singleton in Hx as ->. done.
Qed.

Lemma poll_waiting_inv now i out : Inv i → Inv (poll_waiting now i out).1.
Proof.
  intros [Ha Hb Hw Hu Hp]. unfold poll_waiting, Inv.
  cbn [fst i_arp i_waiting i_pings with_waiting with_pings]. split; try done.
  - rewrite <-list_fmap_compose.
    rewrite (list_fmap_ext _ w_next_hop) by (intros k w _; cbn; by case_match). by apply NoDup_fmap_filter.
  - intros w (w0 & -> & [_ Hin]%list_elem_of_filter)%list_elem_of_fmap. specialize (Hu w0 Hin). by case_match.
  - by apply NoDup_fmap_filter.
Qed.

Lemma poll_fuel_inv n now i i' out : Inv i → poll_fuel n now i = Some (i', out) → Inv i'.
Proof.
  assert (Hidle : ∀ i, Inv i → Some (poll_waiting now i []) = Some (i', out) → Inv i').
  { intros j Hj H%Some_inj. change i' with (i', out).1. rewrite <-H. by apply poll_waiting_inv. }
  assert (Hdhcp : ∀ m i, Inv i → ('(i, frame) ← dhcp_frame m i; Some (poll_waiting now i [frame])) = Some (i', out) → Inv i').
  { intros m j Hj ([k f] & ->%dhcp_frame_eq & H)%bind_Some. apply Some_inj in H. change i' with (i', out).1. rewrite <-H.
    by apply poll_waiting_inv. }
  assert (Hxid : ∀ i, Inv i → Inv (next_xid i).1) by done.
  revert i. induction n as [|n IH]; intros i HI H; cbn [poll_fuel] in H; specialize (Hxid i HI);
    destruct (next_xid i) as [j x]; cbn [fst] in Hxid; destruct (i_dhcp i) as [xid next|xid o s next tries|s renew].
  - destruct (_ <=? _); [eapply Hdhcp in H|eapply Hidle in H]; done.
  - destruct (_ <=? _); [|eapply Hidle in H; done]. destruct (_ <=? _); [done|]. eapply Hdhcp in H; done.
  - destruct (_ <=? _); [done|eapply Hidle in H; done].
  - destruct (_ <=? _); [eapply Hdhcp in H|eapply Hidle in H]; done.
  - destruct (_ <=? _); [|eapply Hidle in H; done]. destruct (_ <=? _); [eapply IH in H|eapply Hdhcp in H]; done.
  - destruct (_ <=? _); [|eapply Hidle in H; done]. eapply IH in H; done.
Qed.

Lemma receive_inv bytes now i i' out : Inv i → receive bytes now i = Some (i', out) → Inv i'.
Proof.
  intros HI H. unfold receive in H. apply bind_Some in H as (f & _ & H). destruct f as [f|]; [|by injection H as <- _].
  destruct (_ && _); [by injection H as <- _|]. destruct (_ =? Ethernet.ARP).
  { apply bind_Some in H as (a & _ & H). destruct a as [a|]; [|by injection H as <- _].
    apply Some_inj in H. unfold receive_arp in H. destruct (i_config i) as [c|]; [|by injection H as <- _].
    assert (Hl : Inv (if decide (Arp.sender_ip a ≠ Addr.UNSPECIFIED) then learn (Arp.sender_ip a) (Arp.sender_mac a) i []
                      else (i, [])).1) by (case_decide; [by apply learn_inv|done]).
    destruct (if decide (Arp.sender_ip a ≠ Addr.UNSPECIFIED) then _ else _) as [j o]. cbn [fst] in Hl.
    destruct (_ && _); by injection H as <- _. }
  destruct (_ =? Ethernet.IPV4); [|by injection H as <- _].
  apply bind_Some in H as (p & _ & H). destruct p as [p|]; [|by injection H as <- _]. unfold receive_ipv4 in H. destruct (_ =? _).
  - apply bind_Some in H as (d & _ & H). destruct d as [d|]; [|by injection H as <- _]. destruct (_ && _).
    + unfold receive_dhcp in H. destruct (i_dhcp i); [| |by injection H as <- _];
        apply bind_Some in H as (r & _ & H); (destruct r as [r|]; [|by injection H as <- _]);
        destruct (Dhcp.kind r); try (by injection H as <- _).
      * destruct (Dhcp.server r); [|by injection H as <- _]. apply bind_Some in H as ([j g] & ->%dhcp_frame_eq & [= <- _]). done.
      * case_decide; by injection H as <- _.
      * injection H as <- _. by destruct (i_config i).
    + destruct (i_config i); [case_decide|]; by injection H as <- _.
  - destruct (i_config i) as [c|]; [|by injection H as <- _]. destruct (_ || _); [by injection H as <- _|].
    apply bind_Some in H as (e & _ & H). destruct e as [e|]; [|by injection H as <- _].
    unfold receive_echo in H. destruct (_ =? Icmp.ECHO_REQUEST).
    + assert (Hl : Inv (if Addr.same_network (c_address c) (Ipv4.src p) (c_netmask c)
                 then learn (Ipv4.src p) (Ethernet.src f) i [] else (i, [])).1)
        by (destruct (Addr.same_network _ _ _); [by apply learn_inv|done]).
      destruct (if Addr.same_network _ _ _ then _ else _) as [j o]. cbn [fst] in Hl.
      apply bind_Some in H as (rp & _ & H). unfold take_id in H. apply bind_Some in H as (an & _ & [= <- _]). done.
    + destruct (_ && _); [|by injection H as <- _]. destruct (list_find _ _) as [[n [s0 t0]]|]; [|by injection H as <- _].
      injection H as <- _. destruct HI as [Ha Hb Hw Hu Hp]. split; try done. cbn [i_pings push_event with_events with_pings].
      eapply NoDup_fmap_sublist; [apply sublist_delete|exact Hp].
Qed.

(** ** Events *)
Definition event_bytes (e : Event) : Prop := match e with UdpEvent _ _ _ data => is_bytes data | _ => True end.

Lemma poll_events now i i' out : poll now i = Some (i', out) → i_events i' = i_events i.
Proof. by apply poll_fuel_keeps. Qed.

Lemma send_ip_events dst protocol payload now i out i' out' : send_ip dst protocol payload now i out = Some (i', out') →
  i_events i' = i_events i.
Proof.
  unfold send_ip. destruct (i_config i) as [c|]; [|by intros [= <- _]].
  destruct (if Addr.same_network dst (c_address c) (c_netmask c) then Some dst else c_gateway c) as [hop|]; [|by intros [= <- _]].
  unfold take_id. intros (p & _ & H)%bind_Some. by destruct (lookup_arp _ _); injection H as <- _.
Qed.

Lemma send_udp_events to port from_port data now i i' out : send_udp to port from_port data now i = Some (i', out) →
  i_events i' = i_events i.
Proof.
  unfold send_udp. destruct (i_config i); [|by intros [= <- _]]. intros (d & _ & H)%bind_Some. by apply send_ip_events in H.
Qed.

Lemma ping_events target seq now i i' out : ping target seq now i = Some (i', out) → i_events i' = i_events i.
Proof. unfold ping. intros (e & _ & H)%bind_Some. by apply send_ip_events in H. Qed.

Lemma receive_dhcp_events payload now i out i' out' : receive_dhcp payload now i out = Some (i', out') →
  Forall event_bytes (i_events i) → Forall event_bytes (i_events i').
Proof.
  intros H HI. unfold receive_dhcp in H. destruct (i_dhcp i); [| |by injection H as <- _];
    apply bind_Some in H as (r & _ & H); (destruct r as [r|]; [|by injection H as <- _]);
    destruct (Dhcp.kind r); try (by injection H as <- _).
  - destruct (Dhcp.server r); [|by injection H as <- _]. apply bind_Some in H as ([j g] & ->%dhcp_frame_eq & [= <- _]). done.
  - case_decide; injection H as <- _; [|done]. cbn. apply Forall_app. by repeat constructor.
  - injection H as <- _. destruct (i_config i); [|done]. cbn. apply Forall_app. by repeat constructor.
Qed.

Lemma learn_events ip mac i out : i_events (learn ip mac i out).1 = i_events i.
Proof. done. Qed.

(** Datagrams of bytes are handed on from frames of bytes. *)
Lemma receive_events bytes now i i' out : is_bytes bytes → Forall event_bytes (i_events i) →
  receive bytes now i = Some (i', out) → Forall event_bytes (i_events i').
Proof.
  intros Hb HI H. unfold receive in H. destruct (ethernet_parse_safe bytes) as (f & Hf & Hfb). rewrite Hf in H. cbn [mbind option_bind] in H.
  destruct f as [f|]; [|by injection H as <- _]. destruct (Hfb f eq_refl) as (_ & _ & Hfp). destruct (Hfp Hb) as [_ Hpay].
  destruct (_ && _); [by injection H as <- _|]. destruct (_ =? Ethernet.ARP).
  { apply bind_Some in H as (a & _ & H). destruct a as [a|]; [|by injection H as <- _].
    apply Some_inj in H. unfold receive_arp in H. destruct (i_config i) as [c|]; [|by injection H as <- _].
    destruct (if decide (Arp.sender_ip a ≠ Addr.UNSPECIFIED) then _ else _) as [j o] eqn:Ej.
    assert (Hj : i_events j = i_events i) by (case_decide; injection Ej as <- _; done).
    destruct (_ && _); injection H as <- _; by rewrite Hj. }
  destruct (_ =? Ethernet.IPV4); [|by injection H as <- _].
  destruct (ipv4_parse_safe (Ethernet.payload f)) as (p & Hp & Hpb). rewrite Hp in H. cbn [mbind option_bind] in H.
  destruct p as [p|]; [|by injection H as <- _]. destruct (Hpb p eq_refl) as (_ & _ & Hpp). destruct (Hpp Hpay) as [_ Hpk].
  unfold receive_ipv4 in H. destruct (_ =? _).
  - destruct (udp_parse_safe (Ipv4.payload p) (Ipv4.src p) (Ipv4.dst p)) as (d & Hd & Hdb). rewrite Hd in H. cbn [mbind option_bind] in H.
    destruct d as [d|]; [|by injection H as <- _]. destruct (_ && _); [by apply receive_dhcp_events in H|].
    destruct (i_config i); [case_decide|]; injection H as <- _; [|done..]. cbn. apply Forall_app. split; [done|].
    repeat constructor. by apply (Hdb d).
  - destruct (i_config i) as [c|]; [|by injection H as <- _]. destruct (_ || _); [by injection H as <- _|].
    apply bind_Some in H as (e & _ & H). destruct e as [e|]; [|by injection H as <- _].
    unfold receive_echo in H. destruct (_ =? Icmp.ECHO_REQUEST).
    + destruct (if Addr.same_network _ _ _ then _ else _) as [j o] eqn:Ej.
      assert (Hj : i_events j = i_events i) by (destruct (Addr.same_network _ _ _); injection Ej as <- _; done).
      apply bind_Some in H as (rp & _ & H). unfold take_id in H. apply bind_Some in H as (an & _ & [= <- _]). cbn. by rewrite Hj.
    + destruct (_ && _); [|by injection H as <- _]. destruct (list_find _ _) as [[n [s0 t0]]|]; [|by injection H as <- _].
      injection H as <- _. cbn. apply Forall_app. by repeat constructor.
Qed.

(** What the kernel does with an interface, in any order. *)
Inductive reachable : Interface → Prop :=
| reachable_new mac seed : reachable (new mac seed)
| reachable_poll i now i' out : reachable i → poll now i = Some (i', out) → reachable i'
| reachable_receive i bytes now i' out : reachable i → receive bytes now i = Some (i', out) → reachable i'
| reachable_ping i target seq now i' out : reachable i → ping target seq now i = Some (i', out) → reachable i'
| reachable_send i to port from_port data now i' out : reachable i →
    send_udp to port from_port data now i = Some (i', out) → reachable i'
| reachable_take i : reachable i → reachable (take_events i).1.

(** Whatever frames arrive and whatever is asked of it, the interface's tables stay small
    and clean: at most [ARP_CACHE] neighbours, each known once; at most one packet waiting per
    next hop, and only for neighbours that are not known; at most one pending ping per sequence
    number. *)
Theorem tables_stay_clean i : reachable i → tables_ok (i_arp i) (i_waiting i) (i_pings i).
Proof.
  induction 1 as [mac seed|i now i' out _ IH H|i bytes now i' out _ IH H|i target seq now i' out _ IH H
                 |i to port from_port data now i' out _ IH H|i _ IH].
  - split; try apply NoDup_nil_2; [cbn; unfold ARP_CACHE; lia|]. intros w Hw. by apply elem_of_nil in Hw.
  - by eapply poll_fuel_inv.
  - by eapply receive_inv.
  - unfold ping in H. apply bind_Some in H as (e & _ & H). eapply send_ip_inv; [|exact H].
    destruct IH as [Ha Hb Hw Hu Hp]. split; try done. cbn [i_pings with_pings].
    apply NoDup_replace; [|by apply NoDup_fmap_filter]. intros [s t] [Hne _]%list_elem_of_filter. done.
  - unfold send_udp in H. destruct (i_config i) as [c|]; [|by injection H as <- _].
    apply bind_Some in H as (d & _ & H). by eapply send_ip_inv.
  - exact IH.
Qed.

(** ** Witnesses *)
Definition demo_requesting : Interface :=
  default (new demo_mac 0) ('(i, _) ← poll 0 (new demo_mac 0x12345678);
    offer ← demo_dhcp 0x12345678 2; '(i, _) ← receive offer 1000 i; Some i).
Definition demo_ack : list Z := default [] (demo_dhcp 0x12345678 5).
Definition demo_bound : Interface := (default (demo_requesting, []) (receive demo_ack 2000 demo_requesting)).1.
Definition demo_peer : Interface :=
  mkInterface demo_server (Some (mkConfig [10; 0; 0; 1] [255; 255; 255; 0] None None 3600)) (Bound [10; 0; 0; 1] 9)
    [] [] 0 0 [] [] 1.

Lemma address_only_changes_by_dhcp_witness : i_config demo_bound ≠ i_config demo_requesting ∧
  ∃ xid offered server next tries, i_dhcp demo_requesting = Requesting xid offered server next tries.
Proof.
  assert (Hne : i_config demo_bound ≠ i_config demo_requesting) by (vm_compute; discriminate).
  split; [exact Hne|].
  destruct (proj1 (address_only_changes_by_dhcp demo_requesting demo_bound 2000 []) demo_ack)
    as (f & p & d & xid & offered & server & next & tries & r & _ & _ & _ & _ & H & _);
    [vm_compute; reflexivity|exact Hne|]. by exists xid, offered, server, next, tries.
Defined.

Lemma datagram_reaches_its_neighbour_witness :
  ∃ a1 req b1 rep a2 frame b2,
    send_udp [10; 0; 0; 1] 9 1234 [1; 2; 3] 5000 demo_bound = Some (a1, [req]) ∧
    receive req 6000 demo_peer = Some (b1, [rep]) ∧ receive rep 7000 a1 = Some (a2, [frame]) ∧
    receive frame 8000 b1 = Some (b2, []) ∧
    i_events b2 = i_events demo_peer ++ [UdpEvent [10; 0; 0; 5] 1234 9 [1; 2; 3]].
Proof.
  apply (datagram_reaches_its_neighbour demo_bound demo_peer
           (mkConfig [10; 0; 0; 5] [255; 255; 255; 0] None None 3600)
           (mkConfig [10; 0; 0; 1] [255; 255; 255; 0] None None 3600) 9 1234 [1; 2; 3] 5000 6000 7000 8000);
    try (vm_compute; reflexivity); try (vm_compute; discriminate).
  all: try (split; [vm_compute; reflexivity|]).
  all: try (vm_compute; repeat constructor; discriminate).
  all: try (vm_compute; intuition discriminate).
Defined.

Lemma tables_stay_clean_witness :
  tables_ok (i_arp demo_requesting) (i_waiting demo_requesting) (i_pings demo_requesting).
Proof.
  apply tables_stay_clean.
  destruct (poll 0 (new demo_mac 0x12345678)) as [[i out]|] eqn:E1; [|exfalso; revert E1; vm_compute; discriminate].
  destruct (demo_dhcp 0x12345678 2) as [offer|] eqn:E2; [|exfalso; revert E2; vm_compute; discriminate].
  destruct (receive offer 1000 i) as [[j out']|] eqn:E3.
  - replace demo_requesting with j by (unfold demo_requesting; by rewrite E1; cbn [mbind option_bind]; rewrite E2; cbn [mbind option_bind]; rewrite E3).
    eapply reachable_receive; [|exact E3]. eapply reachable_poll; [|exact E1]. apply reachable_new.
  - exfalso. destruct (receive_safe offer 1000 i) as [x Hx]. by rewrite Hx in E3.
Defined.

End Interface.
