(* ===== verification/Lookup.v ===== *)
(** Asking other hosts ([src/src/sys/net/lookup.rs]): the DNS lookups in flight and the SNTP clock,
    over the formats of [Net], with the wall clock they set ([src/src/sys/clock.rs]).

    Both hand their caller the datagrams to send.  The parsers can only panic where [Net]'s can: the
    operations that call them return an option, which [receive_total] shows to be there always. *)
From S2P Require Import Prelude Bytes Net Calendar.
From stdpp Require Import strings.
Local Open Scope Z_scope.

(** * The wall clock *)
Module WallClock.
#[local] Existing Instance Calendar.Zone_eq_dec.

(** [EPOCH_US] and [ZONE]. *)
Record WallClock := mkWallClock { epoch_us : Z; zone_index : nat }.
Definition unset : WallClock := mkWallClock 0 0.

(** [uptime] is what [timer::now_us] reads. *)
Definition set (unix_us uptime : Z) (c : WallClock) : WallClock :=
  mkWallClock ((unix_us - uptime) `max` 0 `max` 1) (zone_index c).

Definition unix (uptime : Z) (c : WallClock) : option Z :=
  if epoch_us c =? 0 then None else Some (wrap 64 (epoch_us c + uptime) / 1000000).

Definition zone (c : WallClock) : option Calendar.Zone := Calendar.ALL !! zone_index c.

(** Outside, [None] is an index out of [Zone::ALL]: a panic. *)
Definition now (uptime : Z) (c : WallClock) : option (option (Calendar.DateTime * list Z)) :=
  match unix uptime c with
  | None => Some None
  | Some unix => z ← zone c; Some (Some (Calendar.local z unix))
  end.

(** [None]: the zone is not in [Zone::ALL], which [expect] rules out. *)
Definition use_zone (z : Calendar.Zone) (c : WallClock) : option WallClock :=
  index ← fst <$> list_find (λ z', z' = z) Calendar.ALL;
  Some (mkWallClock (epoch_us c) index).

Lemma zone_of_use_zone z c : ∃ c', use_zone z c = Some c' ∧ zone c' = Some z ∧ epoch_us c' = epoch_us c.
Proof. destruct z; by eexists. Qed.

(** A clock set by an answer tells the time the answer gave, and keeps time from then on: whatever
    the uptime was when it was set and is when it is asked. *)
Theorem set_clock_keeps_time unix_us uptime later c :
  0 <= uptime → uptime < unix_us → 0 <= later → unix_us + later < 2 ^ 64 →
  unix (uptime + later) (set unix_us uptime c) = Some ((unix_us + later) / 1000000).
Proof.
  intros. unfold set, unix. cbn [epoch_us]. replace ((unix_us - uptime) `max` 0 `max` 1) with (unix_us - uptime) by lia.
  destruct (Z.eqb_spec (unix_us - uptime) 0); [lia|]. rewrite wrap_small by (unfold uint; lia). do 2 f_equal. lia.
Qed.
End WallClock.

(** * Lookups *)
Module Lookup.
Definition DNS_PORT : Z := 49152.
Definition SNTP_PORT : Z := 49153.
Definition DNS_RETRY_US : Z := 1000000.
Definition DNS_TRIES : Z := 3.
Definition SNTP_RETRY_US : Z := 2000000.
Definition SNTP_TRIES : Z := 3.
Definition RESYNC_US : Z := 3600000000.
Definition RETRY_US : Z := 30000000.
Definition TIME_SERVERS : list Z := str "pool.ntp.org".
Definition FALLBACK_TIME_SERVER : list Z := [162; 159; 200; 123].

Record Datagram := mkDatagram { d_to : list Z; d_port : Z; d_from_port : Z; d_data : list Z }.

Inductive ResolveError := NoNetwork | NoServer | BadName | NoSuchName | Failed (code : Z) | Timeout.

Definition fmt (e : ResolveError) : list Z :=
  match e with
  | NoNetwork => str "no network address yet"
  | NoServer => str "no DNS server"
  | BadName => str "not a name DNS can look up"
  | NoSuchName => str "no such name"
  | Failed code => str "the DNS server failed (code " ++ dec code ++ str ")"
  | Timeout => str "the DNS server didn't answer"
  end.

Definition Resolved : Type := result ResolveError (list (list Z)).

Inductive Purpose := Command (number : Z) | Clock.
#[export] Instance Purpose_eq_dec : EqDecision Purpose.
Proof. solve_decision. Defined.

Record Lookup := mkLookup {
  l_id : Z; l_query : list Z; l_server : list Z; l_purpose : Purpose; l_sent_at : Z; l_tries : Z;
}.

Record Resolver := mkResolver { next_id : Z; pending : list Lookup }.

(** ** The resolver *)
Definition new (seed : Z) : Resolver := mkResolver seed [].

Definition start (name server : list Z) (purpose : Purpose) (now : Z) (r : Resolver) (out : list Datagram)
    : Resolver * list Datagram * result ResolveError unit :=
  let id := wrap 16 (next_id r + 1) in
  match Dns.query name id with
  | None => (mkResolver id (pending r), out, Err BadName)
  | Some query =>
    (mkResolver id (pending r ++ [mkLookup id query server purpose now 1]),
     out ++ [mkDatagram server Dns.PORT DNS_PORT query], Ok tt)
  end.

(** What [poll]'s closure makes of one lookup: whether it stays, the query sent again, the result. *)
Definition poll_one (now : Z) (l : Lookup) : option Lookup * list Datagram * list (Purpose * Resolved) :=
  if now <? wrap 64 (l_sent_at l + DNS_RETRY_US) then (Some l, [], []) else
  if DNS_TRIES <=? l_tries l then (None, [], [(l_purpose l, Err Timeout)]) else
  (Some (mkLookup (l_id l) (l_query l) (l_server l) (l_purpose l) now (wrap 32 (l_tries l + 1))),
   [mkDatagram (l_server l) Dns.PORT DNS_PORT (l_query l)], []).

(** [retain_mut], in order. *)
Fixpoint poll_pending (now : Z) (ls : list Lookup) : list Lookup * list Datagram * list (Purpose * Resolved) :=
  match ls with
  | [] => ([], [], [])
  | l :: ls =>
    let '(l, sent, result) := poll_one now l in
    let '(kept, out, done) := poll_pending now ls in
    (option_list l ++ kept, sent ++ out, result ++ done)
  end.

Definition poll (now : Z) (r : Resolver) (out : list Datagram) : Resolver * list Datagram * list (Purpose * Resolved) :=
  let '(kept, sent, done) := poll_pending now (pending r) in
  (mkResolver (next_id r) kept, out ++ sent, done).

(** The first lookup at [from] whose answer [data] is; [None] outside is a panic. *)
Fixpoint find_answer (from data : list Z) (index : nat) (ls : list Lookup) : option (option (nat * Dns.Answer)) :=
  match ls with
  | [] => Some None
  | l :: ls =>
    if decide (l_server l = from) then
      parsed ← Dns.parse data (l_id l);
      match parsed with
      | Some answer => Some (Some (index, answer))
      | None => find_answer from data (S index) ls
      end
    else find_answer from data (S index) ls
  end.

Definition result_of (answer : Dns.Answer) : Resolved :=
  match answer with
  | Dns.Addresses [] => Err NoSuchName
  | Dns.Addresses addresses => Ok addresses
  | Dns.NoSuchName => Err NoSuchName
  | Dns.Failed code => Err (Failed code)
  end.

Definition receive (from data : list Z) (r : Resolver) : option (Resolver * option (Purpose * Resolved)) :=
  found ← find_answer from data 0 (pending r);
  match found with
  | None => Some (r, None)
  | Some (index, answer) =>
    l ← pending r !! index;
    Some (mkResolver (next_id r) (delete index (pending r)), Some (l_purpose l, result_of answer))
  end.

(** ** Setting the clock *)
Inductive Sync :=
| Waiting (next_at : Z)
| Resolving
| Asking (server : list Z) (cookie sent_at tries : Z).

Record ClockSync := mkClockSync { sync : Sync; set_once : bool }.

Definition new_clock : ClockSync := mkClockSync (Waiting 0) false.
Definition with_sync (s : Sync) (c : ClockSync) : ClockSync := mkClockSync s (set_once c).

(** [cookie] is the random number drawn. *)
Definition ask (server : list Z) (now tries cookie : Z) (c : ClockSync) (out : list Datagram)
    : ClockSync * list Datagram :=
  (with_sync (Asking server cookie now tries) c,
   out ++ [mkDatagram server Sntp.PORT SNTP_PORT (Sntp.request cookie)]).

Definition poll_clock (now : Z) (dns : option (list Z)) (cookie : Z) (c : ClockSync) (r : Resolver) (out : list Datagram)
    : ClockSync * Resolver * list Datagram :=
  match sync c with
  | Waiting next_at =>
    if next_at <=? now then
      match dns with
      | Some server =>
        let '(r, out, started) := start TIME_SERVERS server Clock now r out in
        (with_sync (match started with Ok _ => Resolving | Err _ => Waiting (wrap 64 (now + RETRY_US)) end) c, r, out)
      | None => let '(c, out) := ask FALLBACK_TIME_SERVER now 1 cookie c out in (c, r, out)
      end
    else (c, r, out)
  | Asking server _ sent_at tries =>
    if wrap 64 (sent_at + SNTP_RETRY_US) <=? now then
      if SNTP_TRIES <=? tries then (with_sync (Waiting (wrap 64 (now + RETRY_US))) c, r, out)
      else let '(c, out) := ask server now (wrap 32 (tries + 1)) cookie c out in (c, r, out)
    else (c, r, out)
  | Resolving => (c, r, out)
  end.

Definition resolved (res : Resolved) (now cookie : Z) (c : ClockSync) (out : list Datagram) : ClockSync * list Datagram :=
  match (match res with Ok addresses => head addresses | Err _ => None end) with
  | Some server => ask server now 1 cookie c out
  | None => (with_sync (Waiting (wrap 64 (now + RETRY_US))) c, out)
  end.

(** The clock that is set, from the uptime read for it; what it then prints is left out.  [None] is
    a panic. *)
Definition receive_clock (from data : list Z) (now uptime : Z) (c : ClockSync) (w : WallClock.WallClock)
    : option (ClockSync * WallClock.WallClock) :=
  match sync c with
  | Asking server cookie sent_at _ =>
    if decide (from ≠ server) then Some (c, w) else
    parsed ← Sntp.parse data cookie (wrap 64 (now - sent_at));
    match parsed with
    | None => Some (c, w)
    | Some unix_us => Some (mkClockSync (Waiting (wrap 64 (now + RESYNC_US))) true, WallClock.set unix_us uptime w)
    end
  | _ => Some (c, w)
  end.

(** ** The parsers give a result *)
Lemma read_answers_safe n bytes at_ : is_Some (Dns.read_answers n bytes at_).
Proof.
  revert at_. induction n as [|n IH]; intros at_; cbn [Dns.read_answers]; [by eexists|].
  destruct (Dns.skip_name bytes at_) as [a|]; [|by eexists].
  destruct (slice a (a + 10) bytes) as [record|] eqn:E; [|by eexists].
  assert (length record = 10%nat) by (apply slice_Some in E as [? ->]; rewrite length_take, length_drop; lia).
  Formats.read_step. Formats.read_step. Formats.read_step.
  destruct (slice (a + 10) _ bytes) as [data|] eqn:E'; [|by eexists].
  destruct (_ && _ && _) eqn:Ec; cbn [mbind option_bind].
  - apply andb_true_iff in Ec as [_ Hl%bool_decide_eq_true]. apply slice_Some in E' as [? ->].
    match goal with |- context [ipv4_at ?l 0] => destruct (Formats.ipv4_at_Some l 0) as (y & -> & _) end.
    { rewrite length_take, length_drop. lia. }
    cbn [fmap option_fmap option_map mbind option_bind]. destruct (IH (a + (10 + Z.to_nat x))%nat) as [r ->]. by eexists.
  - destruct (IH (a + (10 + Z.to_nat x))%nat) as [r ->]. by eexists.
Qed.

Lemma dns_parse_safe bytes id : is_Some (Dns.parse bytes id).
Proof.
  unfold Dns.parse. case_bool_decide; [by eexists|]. unfold Dns.HEADER in *. cbn [or_else].
  do 4 Formats.read_step.
  destruct (_ =? id), (_ =? 0), (_ =? 3), (_ =? 0); cbn [negb or_else mbind option_bind]; try (by eexists).
  destruct (Dns.skip_questions _ _ _) as [a|]; [|by eexists].
  match goal with |- context [Dns.read_answers ?n ?l ?i] => destruct (read_answers_safe n l i) as [r ->] end. by eexists.
Qed.

Lemma sntp_parse_safe bytes cookie rtt : is_Some (Sntp.parse bytes cookie rtt).
Proof.
  unfold Sntp.parse. case_bool_decide; [by eexists|]. unfold Sntp.LENGTH in *. cbn [or_else].
  destruct (bytes !! 0%nat) as [b0|] eqn:E0; [|apply lookup_ge_None in E0; lia].
  destruct (bytes !! 1%nat) as [b1|] eqn:E1; [|apply lookup_ge_None in E1; lia].
  cbn [fmap option_fmap option_map or_else]. do 5 Formats.read_step.
  destruct (negb _); cbn [or_else mbind option_bind]; [by eexists|].
  destruct (_ =? 0); cbn [or_else mbind option_bind]; [by eexists|].
  case_bool_decide; cbn [or_else mbind option_bind]; [by eexists|]. destruct (_ <? _); by eexists.
Qed.

Lemma receive_clock_total from data now uptime c w : is_Some (receive_clock from data now uptime c w).
Proof.
  unfold receive_clock. destruct (sync c) as [| |s k t n]; try (by eexists). case_decide; [by eexists|].
  destruct (sntp_parse_safe data k (wrap 64 (now - t))) as [[p|] ->]; by eexists.
Qed.

Lemma find_answer_spec from data ls i : ∃ found, find_answer from data i ls = Some found ∧
  ∀ j answer, found = Some (j, answer) → ∃ k l, j = (i + k)%nat ∧ ls !! k = Some l ∧ l_server l = from ∧
    Dns.parse data (l_id l) = Some (Some answer).
Proof.
  revert i. induction ls as [|l ls IH]; intros i; cbn [find_answer]; [by exists None|].
  assert (Hrest : ∃ found, find_answer from data (S i) ls = Some found ∧ ∀ j answer, found = Some (j, answer) →
    ∃ k l', j = (i + k)%nat ∧ (l :: ls) !! k = Some l' ∧ l_server l' = from ∧ Dns.parse data (l_id l') = Some (Some answer)).
  { destruct (IH (S i)) as (found & -> & Hf). exists found. split; [done|]. intros j answer Hj.
    destruct (Hf j answer Hj) as (k & l' & -> & Hk & Hs & Hp). exists (S k), l'. split_and!; [lia|done..]. }
  case_decide as Hs; [|done]. destruct (dns_parse_safe data (l_id l)) as [[answer|] Hp]; rewrite Hp; cbn [mbind option_bind]; [|done].
  eexists. split; [done|]. intros j a [= <- <-]. exists 0%nat, l. split_and!; [lia|done..].
Qed.

(** An answer ends one lookup, at the server it was asked of and by the number it was asked with. *)
Lemma receive_total from data r : ∃ r' done, receive from data r = Some (r', done) ∧
  (done = None → r' = r) ∧
  ∀ p res, done = Some (p, res) → ∃ i l answer, pending r !! i = Some l ∧ l_purpose l = p ∧ l_server l = from ∧
    Dns.parse data (l_id l) = Some (Some answer) ∧ res = result_of answer ∧
    r' = mkResolver (next_id r) (delete i (pending r)).
Proof.
  unfold receive. destruct (find_answer_spec from data (pending r) 0) as (found & -> & Hf). cbn [mbind option_bind].
  destruct found as [[i answer]|]; [|by exists r, None].
  destruct (Hf i answer eq_refl) as (k & l & -> & Hk & Hs & Hp). cbn [Nat.add]. rewrite Hk. cbn [mbind option_bind].
  do 2 eexists. split; [done|]. split; [done|]. intros p res [= <- <-]. exists k, l, answer. done.
Qed.

(** ** No lookup is lost and none is answered twice *)
Definition purposes (r : Resolver) : list Purpose := l_purpose <$> pending r.

Lemma start_purposes name server purpose now r out r' out' res :
  start name server purpose now r out = (r', out', res) →
  match res with
  | Ok _ => ∃ query, pending r' = pending r ++ [mkLookup (next_id r') query server purpose now 1]
  | Err _ => pending r' = pending r
  end.
Proof. unfold start. destruct (Dns.query _ _) as [q|]; intros [= <- <- <-]; [by exists q|done]. Qed.

Lemma poll_pending_purposes now ls kept sent done : poll_pending now ls = (kept, sent, done) →
  l_purpose <$> ls ≡ₚ (l_purpose <$> kept) ++ done.*1.
Proof.
  revert kept sent done. induction ls as [|l ls IH]; intros kept sent done; cbn [poll_pending]; [by intros [= <- <- <-]|].
  destruct (poll_pending now ls) as [[kept' sent'] done'] eqn:E. specialize (IH _ _ _ eq_refl).
  unfold poll_one. destruct (_ <? _); [|destruct (_ <=? _)]; intros [= <- <- <-]; cbn; rewrite IH; [done| |done].
  by rewrite <-Permutation_middle.
Qed.

Lemma delete_purposes i (l : Lookup) ls : ls !! i = Some l → l_purpose <$> ls ≡ₚ l_purpose l :: (l_purpose <$> delete i ls).
Proof. intros H. rewrite <-fmap_cons. apply fmap_Permutation. by apply delete_Permutation. Qed.

(** What a poll does to one lookup that was pending. *)
Lemma poll_pending_elem now ls kept sent done l : poll_pending now ls = (kept, sent, done) → l ∈ ls →
  (∃ l', (poll_one now l).1.1 = Some l' ∧ l' ∈ kept) ∨ (l_purpose l, Err Timeout) ∈ done.
Proof.
  revert kept sent done. induction ls as [|l0 ls IH]; intros kept sent done; cbn [poll_pending]; [by intros _ ?%elem_of_nil|].
  destruct (poll_one now l0) as [[o s] d] eqn:E0, (poll_pending now ls) as [[kept' sent'] done'] eqn:E.
  intros [= <- <- <-] [->|Hl]%elem_of_cons.
  - unfold poll_one in *. destruct (_ <? _); [|destruct (_ <=? _)]; injection E0 as <- <- <-; cbn; try by right; left.
    all: left; eexists; split; [done|left].
  - destruct (IH _ _ _ eq_refl Hl) as [(l' & H1 & H2)|H]; [left; exists l'; split; [done|]|right]; apply elem_of_app; by right.
Qed.

Lemma poll_pending_back now ls kept sent done l' : poll_pending now ls = (kept, sent, done) → l' ∈ kept →
  ∃ l, l ∈ ls ∧ (poll_one now l).1.1 = Some l'.
Proof.
  revert kept sent done. induction ls as [|l0 ls IH]; intros kept sent done; cbn [poll_pending].
  { intros [= <- <- <-] []%elem_of_nil. }
  destruct (poll_one now l0) as [[o s] d] eqn:E0, (poll_pending now ls) as [[kept' sent'] done'] eqn:E.
  intros [= <- <- <-] [Hl|Hl]%elem_of_app.
  - exists l0. split; [left|]. rewrite E0. destruct o as [l1|]; cbn in *; [by apply list_elem_of_singleton in Hl as ->|by apply elem_of_nil in Hl].
  - destruct (IH _ _ _ eq_refl Hl) as (l & H1 & H2). exists l. split; [by right|done].
Qed.

(** A lookup asked for the first time at [b], when polls are never more than [G] apart: how late its
    last query can have gone out. *)
Definition timely (G b : Z) (l : Lookup) : Prop :=
  1 <= l_tries l <= DNS_TRIES ∧ 0 <= b <= l_sent_at l ∧ l_sent_at l <= b + (l_tries l - 1) * (DNS_RETRY_US + G).

Lemma poll_one_timely G b prev now l l' : timely G b l → prev < l_sent_at l + DNS_RETRY_US → l_sent_at l <= now →
  now <= prev + G → now + DNS_RETRY_US < 2 ^ 64 → (poll_one now l).1.1 = Some l' →
  timely G b l' ∧ l_purpose l' = l_purpose l ∧ l_sent_at l' <= now < l_sent_at l' + DNS_RETRY_US.
Proof.
  unfold timely, poll_one, DNS_TRIES, DNS_RETRY_US in *. intros (Ht & Hs & Hd) Hp Hsn Hg Hmax.
  rewrite wrap_small by (unfold uint; lia). destruct (Z.ltb_spec now (l_sent_at l + 1000000)); cbn [fst].
  { intros [= <-]. split_and!; (done || lia). }
  destruct (Z.leb_spec 3 (l_tries l)); cbn [fst]; intros [= <-]; cbn [l_tries l_sent_at l_purpose].
  rewrite wrap_small by (unfold uint; lia). split_and!; (done || nia).
Qed.

Lemma timely_bound G b now l : timely G b l → 0 <= G → now < l_sent_at l + DNS_RETRY_US →
  now < b + DNS_TRIES * (DNS_RETRY_US + G).
Proof. unfold timely, DNS_TRIES, DNS_RETRY_US. intros (? & ? & ?) ? ?. nia. Qed.
End Lookup.
