(* ===== verification/Path.v ===== *)
(** Paths: [rustypi-core/src/path.rs], absolute paths from a current directory. *)
From Stdlib Require Import String Ascii.
From S2P Require Import Prelude Bytes.
Local Open Scope Z_scope.

Module Path.
Definition SLASH : Z := 0x2F.

(** What one part of a path does to the parts so far. *)
Definition step (parts : list (list Z)) (part : list Z) : list (list Z) :=
  if decide (part = [] ∨ part = str ".") then parts
  else if decide (part = str "..") then removelast parts
  else parts ++ [part].

Definition render (parts : list (list Z)) : list Z :=
  let resolved := concat (cons SLASH <$> parts) in
  if decide (resolved = []) then [SLASH] else resolved.

Definition resolve (cwd path : list Z) : list Z :=
  let start := if decide (head path = Some SLASH) then [] else cwd in
  render (foldl step [] (split SLASH start ++ split SLASH path)).

Example resolve_examples :
  resolve (str "/docs/a") (str "../b/./c/") = str "/docs/b/c" ∧
  resolve (str "/docs") (str "../../../bin") = str "/bin" ∧ resolve (str "/docs") (str "..") = str "/" ∧
  resolve (str "/") (str "//bin///ls") = str "/bin/ls".
Proof. done. Qed.

(** A part of a resolved path. *)
Definition name_ok (part : list Z) : Prop :=
  part ≠ [] ∧ part ≠ str "." ∧ part ≠ str ".." ∧ SLASH ∉ part.

Lemma split_nonempty sep l : split sep l ≠ [].
Proof. destruct l as [|b l]; cbn; [done|]. destruct (b =? sep); [done|]. by destruct (split sep l). Qed.

Lemma split_app sep l1 l2 : split sep (l1 ++ sep :: l2) = split sep l1 ++ split sep l2.
Proof.
  induction l1 as [|b l1 IH]; cbn [app split].
  - by rewrite Z.eqb_refl.
  - rewrite IH. destruct (b =? sep); [done|]. pose proof (split_nonempty sep l1). by destruct (split sep l1).
Qed.

Lemma split_piece sep l : sep ∉ l → split sep l = [l].
Proof.
  induction l as [|b l IH]; [done|]. rewrite not_elem_of_cons. intros [Hb Hl]. cbn [split].
  rewrite (proj2 (Z.eqb_neq b sep)), IH by done. done.
Qed.

Lemma split_no_sep sep l : Forall (λ p, sep ∉ p) (split sep l).
Proof.
  induction l as [|b l IH]; cbn [split]; [constructor; [apply not_elem_of_nil|constructor]|].
  destruct (Z.eqb_spec b sep); [constructor; [apply not_elem_of_nil|done]|].
  destruct (split sep l) as [|p r]; (apply Forall_cons; split; [|try constructor]).
  - rewrite not_elem_of_cons. split; [done|apply not_elem_of_nil].
  - apply Forall_cons in IH as [Hp _]. by rewrite not_elem_of_cons.
  - by apply Forall_cons in IH as [_ Hr].
Qed.

Lemma step_ok parts part : Forall name_ok parts → SLASH ∉ part → Forall name_ok (step parts part).
Proof.
  intros Hp Hs. unfold step. case_decide as H1; [done|]. case_decide as H2.
  - rewrite removelast_firstn_len. by apply Forall_take.
  - apply Forall_app. split; [done|]. apply Forall_cons. split; [|constructor]. unfold name_ok. naive_solver.
Qed.

Lemma walk_ok l parts : Forall name_ok parts → Forall (λ p, SLASH ∉ p) l → Forall name_ok (foldl step parts l).
Proof.
  revert parts. induction l as [|p l IH]; intros parts Hp Hl; [done|]. apply Forall_cons in Hl as [? ?].
  cbn [foldl]. apply IH; [by apply step_ok|done].
Qed.

Lemma walk_names l parts : Forall name_ok l → foldl step parts l = parts ++ l.
Proof.
  revert parts. induction l as [|p l IH]; intros parts Hl; [by rewrite app_nil_r|].
  apply Forall_cons in Hl as [(H1 & H2 & H3 & _) Hl]. cbn [foldl]. rewrite IH by done.
  unfold step. rewrite decide_False, decide_False by naive_solver. by rewrite <-app_assoc.
Qed.

(** A rendered path splits into the names it was made of. *)
Lemma walk_render parts acc : Forall name_ok parts → foldl step acc (split SLASH (render parts)) = acc ++ parts.
Proof.
  intros Hp. unfold render. destruct parts as [|p parts]; [by rewrite app_nil_r|].
  rewrite decide_False by done. rewrite <-(walk_names (p :: parts)) by done.
  assert (E : ∀ ps, Forall name_ok ps → split SLASH (concat (cons SLASH <$> ps)) = [] :: ps).
  { induction ps as [|q ps IH]; intros Hps; [done|]. apply Forall_cons in Hps as [(_ & _ & _ & Hq) Hps].
    cbn [fmap list_fmap concat app split]. rewrite Z.eqb_refl. f_equal.
    destruct ps as [|q' ps]; [cbn; rewrite app_nil_r; by apply split_piece|].
    specialize (IH Hps). cbn [fmap list_fmap concat app] in *. rewrite split_app, split_piece by done. cbn [app].
    f_equal. cbn [split] in IH. rewrite Z.eqb_refl in IH. by injection IH. }
  rewrite E by done. done.
Qed.

Lemma render_head parts : Forall name_ok parts → head (render parts) = Some SLASH.
Proof. intros. unfold render. by destruct parts. Qed.

(** The names [resolve] ends up with. *)
Definition walk (cwd path : list Z) : list (list Z) :=
  foldl step [] (split SLASH (if decide (head path = Some SLASH) then [] else cwd) ++ split SLASH path).

Lemma walk_names_ok cwd path : Forall name_ok (walk cwd path).
Proof. apply walk_ok; [constructor|]. apply Forall_app. split; apply split_no_sep. Qed.

(** A resolved path is absolute and clean: [/], or names each after a slash, none of them
    empty, [.], [..] or with a slash in it; and resolving it again, from anywhere, changes
    nothing. *)
Theorem resolved_paths_are_clean cwd path :
  (∃ parts, Forall name_ok parts ∧
     resolve cwd path = match parts with [] => [SLASH] | _ => concat (cons SLASH <$> parts) end) ∧
  ∀ cwd', resolve cwd' (resolve cwd path) = resolve cwd path.
Proof.
  change (resolve cwd path) with (render (walk cwd path)). pose proof (walk_names_ok cwd path) as Hp.
  revert Hp. generalize (walk cwd path). intros parts Hp. split.
  - exists parts. split; [done|]. unfold render. by destruct parts.
  - intros cwd'. unfold resolve. rewrite render_head, decide_True by done.
    rewrite foldl_app. cbn [split foldl]. change (step [] []) with ([] : list (list Z)). by rewrite walk_render.
Qed.

(** Walking a path in two steps is walking it at once: changing directory to [first] and
    then resolving the relative path [rest] there is resolving [first/rest]. *)
Theorem resolve_composes cwd first rest : first ≠ [] → head rest ≠ Some SLASH →
  resolve (resolve cwd first) rest = resolve cwd (first ++ SLASH :: rest).
Proof.
  intros Hf Hr. change (resolve cwd first) with (render (walk cwd first)). unfold resolve.
  rewrite (decide_False (P := head rest = Some SLASH)) by done.
  rewrite foldl_app, walk_render by apply walk_names_ok. f_equal. cbn [app]. unfold walk.
  rewrite split_app, app_assoc, (foldl_app _ (_ ++ split SLASH first)). by destruct first.
Qed.

Lemma resolve_composes_witness :
  resolve (resolve (str "/home") (str "docs/..")) (str "bin/ls") = resolve (str "/home") (str "docs/.." ++ SLASH :: str "bin/ls").
Proof. apply resolve_composes; [discriminate|vm_compute; discriminate]. Defined.
End Path.
