(* ===== verification/Process.v ===== *)
(** What programs hold: pipes ([src/process/pipe.rs]), file bytes counted against a budget
    ([src/process/buffer.rs]) and the handle table ([src/process/handles.rs]). *)
From S2P Require Import Prelude Bytes Abi.
Local Open Scope Z_scope.

(** * Pipes *)
Module Pipe.

(** The counters are [usize]s. *)
Record State := mkState { bytes : list Z; readers : Z; writers : Z }.
Inductive End := Read | Write.
#[export] Instance End_eq_dec : EqDecision End.
Proof. solve_decision. Defined.

(** A new pipe, with one end of each kind. *)
Definition pair : State := mkState [] 1 1.

Definition duplicate (e : End) (s : State) : State :=
  match e with
  | Read => mkState (bytes s) (wrap 64 (readers s + 1)) (writers s)
  | Write => mkState (bytes s) (readers s) (wrap 64 (writers s + 1))
  end.

Definition drop_end (e : End) (s : State) : State :=
  match e with
  | Read => mkState (bytes s) (wrap 64 (readers s - 1)) (writers s)
  | Write => mkState (bytes s) (readers s) (wrap 64 (writers s - 1))
  end.

(** What [read] waits for, then what it does under the lock with a buffer of [n] bytes: the
    bytes it takes. *)
Definition readable (s : State) : bool := negb (bool_decide (bytes s = [])) || (writers s =? 0).
Definition read_section (n : nat) (s : State) : State * list Z :=
  let count := (n `min` length (bytes s))%nat in
  (mkState (drop count (bytes s)) (readers s) (writers s), take count (bytes s)).

(** The same for [write]. *)
Definition writable (s : State) : bool :=
  (Z.of_nat (length (bytes s)) <? PIPE_CAPACITY) || (readers s =? 0).
Definition write_section (bs : list Z) (s : State) : State * result Errno.Errno nat :=
  if readers s =? 0 then (s, Err Errno.BrokenPipe) else
  let count := (length bs `min` (Z.to_nat PIPE_CAPACITY - length (bytes s)))%nat in
  (mkState (bytes s ++ take count bs) (readers s) (writers s), Ok count).

(** ** Tasks using a pipe

    [read] and [write] take the pipe's lock twice: to see whether they can go on, and to do it.
    Other tasks run in between. *)
Inductive Pc :=
| Idle
| ReadWait (n : nat)        (* in [wait_until] of [read] *)
| ReadTake (n : nat)        (* past it *)
| WriteWait (bs : list Z)
| WritePut (bs : list Z).

Inductive Event :=
| Got (t : nat) (bs : list Z)                                      (* [read] returns these *)
| Put (t : nat) (bs : list Z) (answer : result Errno.Errno nat).  (* [write(bs)] returns this *)

Record System := mkSystem { pipe : State; pcs : gmap nat Pc; log : list Event }.
Definition pc (s : System) (t : nat) : Pc := default Idle (pcs s !! t).
Definition goto (t : nat) (p : Pc) (s : System) : System := mkSystem (pipe s) (<[t := p]> (pcs s)) (log s).

Definition do_read (t n : nat) (s : System) : System :=
  let '(p, bs) := read_section n (pipe s) in mkSystem p (<[t := Idle]> (pcs s)) (log s ++ [Got t bs]).
Definition do_write (t : nat) (bs : list Z) (s : System) : System :=
  let '(p, answer) := write_section bs (pipe s) in
  mkSystem p (<[t := Idle]> (pcs s)) (log s ++ [Put t bs answer]).

Definition count (e : End) (s : State) : Z := match e with Read => readers s | Write => writers s end.

(** [stop] is what the caller's [stop()] says (that the program was killed). *)
Inductive step : System → System → Prop :=
| step_read s t n : pc s t = Idle → step s (goto t (ReadWait n) s)
| step_read_ready s t n (stop : bool) : pc s t = ReadWait n → stop || readable (pipe s) = true →
    step s (goto t (ReadTake n) s)
| step_read_take s t n : pc s t = ReadTake n → step s (do_read t n s)
| step_write s t bs : pc s t = Idle → step s (goto t (WriteWait bs) s)
| step_write_ready s t bs (stop : bool) : pc s t = WriteWait bs → stop || writable (pipe s) = true →
    step s (goto t (WritePut bs) s)
| step_write_put s t bs : pc s t = WritePut bs → step s (do_write t bs s)
| step_duplicate s e : 0 < count e (pipe s) → step s (mkSystem (duplicate e (pipe s)) (pcs s) (log s))
| step_drop s e : 0 < count e (pipe s) → step s (mkSystem (drop_end e (pipe s)) (pcs s) (log s)).

Definition start : System := mkSystem pair ∅ [].
Inductive reachable : System → Prop :=
| reachable_start : reachable start
| reachable_step s s' : reachable s → step s s' → reachable s'.

(** The bytes writers were told went in, and the bytes readers were given. *)
Definition accepted (e : Event) : list Z :=
  match e with Put _ bs (Ok n) => take n bs | _ => [] end.
Definition received (e : Event) : list Z := match e with Got _ bs => bs | _ => [] end.

Record Inv (s : System) : Prop := {
  inv_fifo : concat (accepted <$> log s) = concat (received <$> log s) ++ bytes (pipe s);
  inv_room : Z.of_nat (length (bytes (pipe s))) <= PIPE_CAPACITY;
  inv_puts : Forall (λ e, match e with Put _ bs (Ok n) => (n ≤ length bs)%nat | _ => True end) (log s);
}.

Lemma inv_pipe s p : Inv s → bytes p = bytes (pipe s) → Inv (mkSystem p (pcs s) (log s)).
Proof. intros [H1 H2 H3] E. split; cbn [pipe log]; [by rewrite E|by rewrite E|done]. Qed.

Lemma inv_log s p pcs' e : Inv s → bytes (pipe s) ++ accepted e = received e ++ bytes p →
  Z.of_nat (length (bytes p)) <= PIPE_CAPACITY →
  match e with Put _ bs (Ok n) => (n ≤ length bs)%nat | _ => True end →
  Inv (mkSystem p pcs' (log s ++ [e])).
Proof.
  intros [H1 H2 H3] E Hr Hp. split; cbn [pipe log]; [|done|].
  - rewrite !fmap_app, !concat_app, H1. cbn [fmap list_fmap concat]. by rewrite !app_nil_r, <-!app_assoc, E.
  - apply Forall_app. split; [done|]. by apply Forall_cons.
Qed.

Lemma pipe_step_inv s s' : Inv s → step s s' → Inv s'.
Proof.
  intros HI Hs. revert HI. destruct Hs as [s0 t n _|s0 t n stop _ _|s0 t n _|s0 t bs _|s0 t bs stop _ _|s0 t bs _|s0 e _|s0 e _];
    intros HI; try (by destruct HI).
  - unfold do_read, read_section. apply inv_log; [done| | |done]; cbn [bytes accepted received].
    + by rewrite app_nil_r, take_drop.
    + rewrite length_drop. pose proof (inv_room _ HI). lia.
  - pose proof (inv_room _ HI) as Hroom. unfold do_write, write_section. destruct (_ =? 0); apply inv_log; try done; cbn [bytes accepted received].
    + by rewrite app_nil_r.
    + rewrite length_app, length_take. unfold PIPE_CAPACITY in *. lia.
    + lia.
  - apply inv_pipe; [done|]. by destruct e.
  - apply inv_pipe; [done|]. by destruct e.
Qed.

(** A pipe carries bytes in order and loses none: however reads, writes, duplicated and
    dropped ends interleave, the bytes writers were told went in are exactly the bytes readers
    were given, in order, followed by those still queued, of which there are never more than
    [PIPE_CAPACITY]. *)
Theorem pipe_is_first_in_first_out s : reachable s →
  concat (accepted <$> log s) = concat (received <$> log s) ++ bytes (pipe s) ∧
  Z.of_nat (length (bytes (pipe s))) <= PIPE_CAPACITY.
Proof.
  intros H. assert (HI : Inv s); [|destruct HI; auto].
  induction H as [|s s' _ IH Hs]; [split; [done|unfold PIPE_CAPACITY; cbn; lia|constructor]|]. by eapply pipe_step_inv.
Qed.

Lemma pipe_is_first_in_first_out_witness :
  bytes (pipe (do_read 2 2 (goto 2 (ReadTake 2) (goto 2 (ReadWait 2)
    (do_write 1 [7; 8; 9] (goto 1 (WritePut [7; 8; 9]) (goto 1 (WriteWait [7; 8; 9]) start))))))) = [9] ∧
  Z.of_nat (length [9]) <= PIPE_CAPACITY.
Proof.
  split; [reflexivity|].
  refine (proj2 (pipe_is_first_in_first_out (do_read 2 2 (goto 2 (ReadTake 2) (goto 2 (ReadWait 2)
    (do_write 1 [7; 8; 9] (goto 1 (WritePut [7; 8; 9]) (goto 1 (WriteWait [7; 8; 9]) start)))))) _)).
  eapply reachable_step; [|by apply step_read_take].
  eapply reachable_step; [|by apply (step_read_ready _ _ 2 false)].
  eapply reachable_step; [|by apply step_read].
  eapply reachable_step; [|by apply step_write_put].
  eapply reachable_step; [|by apply (step_write_ready _ _ [7; 8; 9] false)].
  eapply reachable_step; [|by apply step_write]. apply reachable_start.
Defined.

(** With two tasks reading one pipe (a program and the child it shares its [INPUT] with),
    [read] can return 0, the end of the input, while a writer is still there and nobody was
    killed: both see the byte that came, and the second finds it gone. *)
Theorem second_reader_sees_a_false_end :
  ∃ s, reachable s ∧ Got 3 [] ∈ log s ∧ writers (pipe s) = 1 ∧ pc s 1 = Idle.
Proof.
  exists (do_read 3 8 (do_read 2 8 (goto 3 (ReadTake 8) (goto 2 (ReadTake 8)
    (do_write 1 [7] (goto 1 (WritePut [7]) (goto 1 (WriteWait [7]) (goto 3 (ReadWait 8) (goto 2 (ReadWait 8)
      (mkSystem (duplicate Read pair) ∅ [])))))))))).
  split; [|split; [|done]].
  - eapply reachable_step; [|by apply step_read_take]. eapply reachable_step; [|by apply step_read_take].
    eapply reachable_step; [|by apply (step_read_ready _ _ 8 false)].
    eapply reachable_step; [|by apply (step_read_ready _ _ 8 false)].
    eapply reachable_step; [|by apply step_write_put].
    eapply reachable_step; [|by apply (step_write_ready _ _ [7] false)].
    eapply reachable_step; [|by apply step_write].
    eapply reachable_step; [|by apply step_read]. eapply reachable_step; [|by apply step_read].
    eapply (reachable_step start); [apply reachable_start|]. by apply (step_duplicate start Read).
  - by apply (list_elem_of_lookup_2 _ 2).
Qed.
End Pipe.

(** * File bytes on the kernel heap *)
Module Buffer.
Definition BUDGET : Z := 8 * 1024 * 1024.

(** [take] and [give_back] on [HELD], a [usize]. *)
Definition take (bytes held : Z) : result Errno.Errno Z :=
  let total := held + bytes in
  if (total <? 2 ^ 64) && (total <=? BUDGET) then Ok total else Err Errno.NoMemory.
Definition give_back (bytes held : Z) : Z := wrap 64 (held - bytes).

(** The bytes of a [Vec] and its capacity. *)
Record FileBuffer := mkFileBuffer { data : list Z; capacity : Z }.

Definition new : FileBuffer := mkFileBuffer [] 0.

(** [adopt] of a [Vec] with these bytes and capacity: [HELD] and the answer. *)
Definition adopt (v : FileBuffer) (held : Z) : Z * result Errno.Errno FileBuffer :=
  match take (capacity v) held with Ok held => (held, Ok v) | Err e => (held, Err e) end.

(** How much more than asked for [Vec::reserve_exact] makes of a capacity, which it may: at most [most], and never
    a capacity past [isize::MAX]. *)
Class Allocator := mkAllocator {
  surplus : Z → Z;
  most : Z;
  surplus_bound n : 0 <= surplus n <= most;
  most_bound : most < 2 ^ 62 }.

Section allocator.
Context `{allocator : Allocator}.

Definition extend (b : FileBuffer) (bytes : list Z) (held : Z) : Z * FileBuffer * result Errno.Errno unit :=
  let len := Z.of_nat (length (data b)) + Z.of_nat (length bytes) in
  if MAX_FILE <? len then (held, b, Err Errno.NoSpace) else
  if capacity b <? len then
    let grown := Z.min (Z.max len (capacity b * 2)) MAX_FILE in
    match take (grown - capacity b) held with
    | Err e => (held, b, Err e)
    | Ok held =>
      let cap := grown + surplus grown in
      (wrap 64 (held + (cap - grown)), mkFileBuffer (data b ++ bytes) cap, Ok tt)
    end
  else (held, mkFileBuffer (data b ++ bytes) (capacity b), Ok tt).

(** Every buffer there is, by a name of its own, and what happens to them. *)
Record World := mkWorld { held : Z; buffers : gmap nat FileBuffer }.

Inductive step : World → World → Prop :=
| step_new w k : buffers w !! k = None → step w (mkWorld (held w) (<[k := new]> (buffers w)))
| step_adopt w k v h b : buffers w !! k = None → 0 <= capacity v → Z.of_nat (length (data v)) <= capacity v →
    adopt v (held w) = (h, Ok b) → step w (mkWorld h (<[k := b]> (buffers w)))
| step_adopt_fails w v h e : adopt v (held w) = (h, Err e) → step w (mkWorld h (buffers w))
| step_extend w k b bytes h b' r : buffers w !! k = Some b → extend b bytes (held w) = (h, b', r) →
    step w (mkWorld h (<[k := b']> (buffers w)))
| step_drop w k b : buffers w !! k = Some b →
    step w (mkWorld (give_back (capacity b) (held w)) (delete k (buffers w))).

Inductive reachable : World → Prop :=
| reachable_start : reachable (mkWorld 0 ∅)
| reachable_step w w' : reachable w → step w w' → reachable w'.

Definition capacities (m : gmap nat FileBuffer) : Z := map_fold (λ _ b acc, capacity b + acc) 0 m.

Lemma capacities_insert k b m : m !! k = None → capacities (<[k := b]> m) = capacity b + capacities m.
Proof. intros. unfold capacities. rewrite map_fold_insert_L; [done| |done]. intros. lia. Qed.

Lemma capacities_delete k b m : m !! k = Some b → capacities m = capacity b + capacities (delete k m).
Proof. intros. unfold capacities. rewrite (map_fold_delete_L _ 0 k b m); [done| |done]. intros. lia. Qed.

Lemma capacities_update k b b' m : m !! k = Some b →
  capacities (<[k := b']> m) = capacity b' - capacity b + capacities m.
Proof.
  intros H. rewrite <-insert_delete_eq, capacities_insert by apply lookup_delete_eq.
  rewrite (capacities_delete k b m H). lia.
Qed.

Record Inv (w : World) : Prop := {
  inv_held : held w = capacities (buffers w);
  inv_budget : held w <= BUDGET + most;
  inv_buffers : ∀ k b, buffers w !! k = Some b →
    Z.of_nat (length (data b)) <= capacity b ∧ 0 <= capacity b;
}.

Lemma capacities_bound w k b : Inv w → buffers w !! k = Some b → capacity b <= held w.
Proof.
  intros [H1 H2 H3] Hb. rewrite H1, (capacities_delete _ _ _ Hb).
  assert (0 <= capacities (delete k (buffers w))); [|lia].
  assert (Hpos : ∀ m : gmap nat FileBuffer, (∀ k b, m !! k = Some b → 0 <= capacity b) → 0 <= capacities m).
  { intros m. unfold capacities. apply (map_fold_weak_ind (λ r m, (∀ k b, m !! k = Some b → 0 <= capacity b) → 0 <= r)); [lia|].
    intros i x m' r Hi IH Hm. specialize (Hm i x) as Hx. rewrite lookup_insert_eq in Hx. specialize (Hx eq_refl).
    assert (0 <= r); [|lia]. apply IH. intros j y Hj. apply (Hm j). rewrite lookup_insert_ne; [done|]. intros ->. congruence. }
  apply Hpos. intros j c Hj. apply (H3 j). by apply lookup_delete_Some in Hj as [_ ?].
Qed.

Lemma most_nonneg : 0 <= most.
Proof. pose proof (surplus_bound 0). lia. Qed.

Lemma take_Ok bytes h h' : take bytes h = Ok h' → h' = h + bytes ∧ h' <= BUDGET.
Proof.
  unfold take. destruct (_ && _) eqn:E; [|done]. intros [= <-]. apply andb_true_iff in E as [_ E%Z.leb_le]. lia.
Qed.

Lemma inv_insert w k b h : Inv w → buffers w !! k = None → h = held w + capacity b → h <= BUDGET + most →
  Z.of_nat (length (data b)) <= capacity b ∧ 0 <= capacity b → Inv (mkWorld h (<[k := b]> (buffers w))).
Proof.
  intros [H1 H2 H3] Hk -> Hb Hok. split; cbn [held buffers]; [rewrite capacities_insert by done; lia|done|].
  intros j c [[-> ->]|[_ Hj]]%lookup_insert_Some; [done|by eapply H3].
Qed.

Lemma inv_update w k b b' h : Inv w → buffers w !! k = Some b → h = held w + (capacity b' - capacity b) → h <= BUDGET + most →
  Z.of_nat (length (data b')) <= capacity b' ∧ 0 <= capacity b' → Inv (mkWorld h (<[k := b']> (buffers w))).
Proof.
  intros [H1 H2 H3] Hk -> Hb Hok. split; cbn [held buffers]; [rewrite (capacities_update _ b) by done; lia|done|].
  intros j c [[-> ->]|[_ Hj]]%lookup_insert_Some; [done|by eapply H3].
Qed.

Lemma extend_inv w k b bytes h b' r : Inv w → buffers w !! k = Some b → extend b bytes (held w) = (h, b', r) →
  Inv (mkWorld h (<[k := b']> (buffers w))).
Proof.
  intros HI Hk H. pose proof (inv_buffers _ HI k b Hk) as Hb. pose proof (inv_budget _ HI) as Hle.
  pose proof (capacities_bound _ _ _ HI Hk) as Hcap.
  assert (Hsame : Inv (mkWorld (held w) (<[k := b]> (buffers w)))) by (eapply inv_update; [done|done|lia|done|done]).
  unfold extend in H. destruct (Z.ltb_spec MAX_FILE (Z.of_nat (length (data b)) + Z.of_nat (length bytes))); [by injection H as <- <- _|].
  destruct (Z.ltb_spec (capacity b) (Z.of_nat (length (data b)) + Z.of_nat (length bytes))).
  - destruct (take _ _) as [h0|e] eqn:Et; [|by injection H as <- <- _]. injection H as <- <- _.
    apply take_Ok in Et as [-> Hbud]. set (grown := Z.min _ _) in *. pose proof (surplus_bound grown). pose proof most_bound.
    assert (capacity b <= grown) by lia. rewrite wrap_small by (unfold uint, BUDGET in *; lia).
    eapply inv_update; [done|done| | |]; cbn [capacity data]; [lia|lia|]. rewrite length_app. lia.
  - injection H as <- <- _. eapply inv_update; [done|done| |done|]; cbn [capacity data]; [lia|]. rewrite length_app. lia.
Qed.

Lemma buffer_step_inv w w' : Inv w → step w w' → Inv w'.
Proof.
  intros HI Hs. revert HI. destruct Hs as [w k Hk|w k v h b Hk Hc Hl Ha|w v h e Ha|w k b bytes h b' r Hk He|w k b Hk]; intros HI.
  - pose proof (inv_budget _ HI). apply inv_insert; [done|done|cbn; lia|done|cbn; lia].
  - unfold adopt in Ha. destruct (take _ _) as [h0|] eqn:Et; [|done]. injection Ha as <- <-.
    apply take_Ok in Et as [-> ?]. pose proof most_nonneg. apply inv_insert; [done|done|done|lia|done].
  - unfold adopt in Ha. destruct (take _ _); [done|]. injection Ha as <- _. by destruct HI.
  - by eapply extend_inv.
  - pose proof (capacities_bound _ _ _ HI Hk) as Hcap. destruct HI as [H1 H2 H3]. pose proof (H3 _ _ Hk) as [_ ?].
    pose proof most_bound. unfold give_back. rewrite wrap_small by (unfold uint, BUDGET in *; lia). split; cbn [held buffers].
    + rewrite H1, (capacities_delete _ _ _ Hk). lia.
    + lia.
    + intros j c [_ Hj]%lookup_delete_Some. by eapply H3.
Qed.

(** Programs cannot use up the kernel heap with file bytes: [HELD] is always exactly what
    the buffers that exist have allocated together, past [BUDGET] at most by what the allocator hands out beyond one
    request (and never wrapping around), and no buffer holds more than it allocated, whatever is opened, written, refused
    and closed. *)
Theorem file_bytes_stay_in_budget w : reachable w →
  held w = capacities (buffers w) ∧ 0 <= held w <= BUDGET + most ∧
  ∀ k b, buffers w !! k = Some b → Z.of_nat (length (data b)) <= capacity b <= held w.
Proof.
  intros H. assert (HI : Inv w).
  { induction H as [|w w' _ IH Hs]; [|by eapply buffer_step_inv].
    pose proof most_nonneg. split; cbn [held buffers]; [done|unfold BUDGET; lia|]. intros k b Hk. by rewrite lookup_empty in Hk. }
  pose proof HI as [H1 H2 H3]. split; [done|]. split; [split; [|done]|].
  - destruct (map_eq_dec_empty (buffers w)) as [E|E].
    + rewrite H1, E. done.
    + apply map_choose in E as (k & b & Hk). pose proof (capacities_bound _ _ _ HI Hk). pose proof (H3 _ _ Hk). lia.
  - intros k b Hk. split; [by eapply H3|]. by eapply capacities_bound.
Qed.
End allocator.

(** Whole words. *)
#[refine] Definition words : Allocator := {| surplus n := (8 - n mod 8) mod 8; most := 7 |}.
Proof. all: [> intros n; pose proof (Z.mod_pos_bound (8 - n mod 8) 8 ltac:(lia)); lia|lia]. Defined.

Lemma file_bytes_stay_in_budget_witness :
  held (mkWorld 8 (<[1%nat := mkFileBuffer [1; 2; 3] 8]> ∅)) = 8 ∧
  0 <= held (mkWorld 8 (<[1%nat := mkFileBuffer [1; 2; 3] 8]> ∅)) <= BUDGET + 7.
Proof.
  split; [reflexivity|].
  refine (proj1 (proj2 (file_bytes_stay_in_budget (allocator := words) _ _))).
  eapply (reachable_step (allocator := words) (mkWorld 0 (<[1%nat := new]> ∅))).
  - eapply reachable_step; [apply reachable_start|]. by apply (step_new (allocator := words) (mkWorld 0 ∅) 1).
  - refine (eq_ind (<[1%nat := mkFileBuffer [1; 2; 3] 8]> (<[1%nat := new]> ∅)) (λ m, step (allocator := words) _ (mkWorld 8 m))
              (step_extend (allocator := words) (mkWorld 0 (<[1%nat := new]> ∅)) 1 new [1; 2; 3] 8 (mkFileBuffer [1; 2; 3] 8) (Ok tt)
                 eq_refl eq_refl) _ eq_refl).
Defined.
End Buffer.

(** * The handle table *)
Module Handles.
Section table.
(** What a handle refers to: [enum Open]. *)
Context {Open : Type}.

Definition FIRST : Z := OUTPUT + 1.
Notation Handles := (list (option Open)).

Definition new : Handles := [].

(** The first slot that is empty. *)
Definition position (h : Handles) : option nat := fst <$> list_find (λ o, o = None) h.

Definition insert (h : Handles) (open : Open) : Handles * result Errno.Errno Z :=
  match position h with
  | Some slot => (<[slot := Some open]> h, Ok (Z.of_nat slot + FIRST))
  | None =>
    if Z.of_nat (length h) <? MAX_HANDLES then
      let h := h ++ [None] in
      let slot := (length h - 1)%nat in
      (<[slot := Some open]> h, Ok (Z.of_nat slot + FIRST))
    else (h, Err Errno.TooMany)
  end.

Definition free_slots (h : Handles) : Z := MAX_HANDLES - Z.of_nat (length (filter is_Some h)).
Definition has_room (h : Handles) : bool := 0 <? free_slots h.

(** The slot of a handle that is open. *)
Definition slot (h : Handles) (handle : Z) : result Errno.Errno nat :=
  if handle <? FIRST then Err Errno.BadHandle else
  let n := Z.to_nat (handle - FIRST) in
  match h !! n with Some (Some _) => Ok n | _ => Err Errno.BadHandle end.

Definition get_mut (h : Handles) (handle : Z) : result Errno.Errno Open :=
  match slot h handle with
  | Ok n => match h !! n with Some (Some open) => Ok open | _ => Err Errno.BadHandle end
  | Err e => Err e
  end.

Definition take (h : Handles) (handle : Z) : Handles * result Errno.Errno Open :=
  match slot h handle with
  | Ok n => match h !! n with Some (Some open) => (<[n := None]> h, Ok open) | _ => (h, Err Errno.BadHandle) end
  | Err e => (h, Err e)
  end.

(** What a handle is open on. *)
Definition view (h : Handles) (handle : Z) : option Open :=
  if handle <? FIRST then None else mjoin (h !! Z.to_nat (handle - FIRST)).
Definition wf (h : Handles) : Prop := Z.of_nat (length h) <= MAX_HANDLES.

Lemma get_mut_view (h : Handles) k : get_mut h k = ok_or (view h k) Errno.BadHandle.
Proof.
  unfold get_mut, slot, view. destruct (k <? FIRST); [done|]. by destruct (h !! _) as [[o|]|] eqn:E; rewrite ?E.
Qed.

Lemma view_insert (h : Handles) n o k : (n < length h)%nat →
  view (<[n := o]> h) k = if decide (k = Z.of_nat n + FIRST) then o else view h k.
Proof.
  intros Hn. unfold view. case_decide as Hk.
  - subst k. rewrite (proj2 (Z.ltb_ge _ _)) by lia. replace (Z.to_nat (Z.of_nat n + FIRST - FIRST)) with n by lia.
    by rewrite list_lookup_insert_eq.
  - destruct (Z.ltb_spec k FIRST); [done|]. rewrite list_lookup_insert_ne by lia. done.
Qed.

Lemma view_grow (h : Handles) k : view (h ++ [None]) k = view h k.
Proof.
  unfold view. destruct (k <? FIRST); [done|]. destruct (decide (Z.to_nat (k - FIRST) < length h)%nat).
  - by rewrite lookup_app_l.
  - rewrite lookup_app_r, (lookup_ge_None_2 h) by lia. by destruct (Z.to_nat (k - FIRST) - length h)%nat as [|[|?]].
Qed.

(** The slots that are taken, when none is empty. *)
Lemma filter_full (h : Handles) : (∀ n o, h !! n = Some o → is_Some o) → filter is_Some h = h.
Proof.
  induction h as [|o h IH]; intros H; [done|]. rewrite filter_cons_True by (by apply (H 0%nat)). f_equal.
  apply IH. intros n x Hx. by apply (H (S n)).
Qed.

Lemma filter_room (h : Handles) n : h !! n = Some None → (length (filter is_Some h) < length h)%nat.
Proof.
  revert n. induction h as [|o h IH]; intros n Hn; [done|]. destruct n as [|n]; cbn in Hn.
  - injection Hn as ->. rewrite filter_cons_False by (by intros [? ?]). cbn [length].
    pose proof (length_filter is_Some h). lia.
  - rewrite filter_cons. specialize (IH n Hn). case_decide; cbn [length]; lia.
Qed.

Lemma position_spec (h : Handles) : wf h →
  match position h with
  | Some n => h !! n = Some None ∧ 0 < free_slots h
  | None => free_slots h = MAX_HANDLES - Z.of_nat (length h)
  end.
Proof.
  intros Hw. unfold position, free_slots. destruct (list_find _ h) as [[n o]|] eqn:E; cbn [fmap option_fmap option_map fst].
  - apply list_find_Some in E as (Hn & -> & _). split; [done|]. pose proof (filter_room h n Hn). unfold wf in Hw. lia.
  - rewrite filter_full; [done|]. intros n o Hn. apply list_find_None in E.
    apply (Forall_lookup_1 _ _ _ _ E) in Hn. destruct o; [by eexists|done].
Qed.

(** A program's handles are a map with room for [MAX_HANDLES]: a new object gets a handle
    that was not in use, past [INPUT] and [OUTPUT], and no other handle changes; it is refused,
    with [TooMany] and nothing changed, exactly when no slot is free; getting or taking a handle
    finds what was put there or fails with [BadHandle]; and taking forgets that handle alone. *)
Theorem handles_are_a_bounded_map (h : Handles) open k : wf h →
  match insert h open with
  | (h', Ok new_k) => has_room h = true ∧ wf h' ∧ view h new_k = None ∧ FIRST <= new_k < FIRST + MAX_HANDLES ∧
      ∀ j, view h' j = if decide (j = new_k) then Some open else view h j
  | (h', Err e) => has_room h = false ∧ h' = h ∧ e = Errno.TooMany
  end ∧
  get_mut h k = ok_or (view h k) Errno.BadHandle ∧
  (take h k).2 = ok_or (view h k) Errno.BadHandle ∧ wf (take h k).1 ∧
  ∀ j, view (take h k).1 j = if decide (j = k) then None else view h j.
Proof.
  intros Hw. split; [|split; [apply get_mut_view|]].
  - pose proof (position_spec h Hw) as Hp. unfold insert, has_room. destruct (position h) as [n|] eqn:En.
    + destruct Hp as [Hn Hfree]. pose proof (lookup_lt_Some _ _ _ Hn) as Hlt. unfold wf in *.
      split; [by apply Z.ltb_lt|]. split; [by rewrite length_insert|]. split.
      { unfold view. rewrite (proj2 (Z.ltb_ge _ _)) by lia. replace (Z.to_nat (Z.of_nat n + FIRST - FIRST)) with n by lia.
        by rewrite Hn. }
      split; [lia|]. intros j. by rewrite view_insert.
    + rewrite Hp. destruct (Z.ltb_spec (Z.of_nat (length h)) MAX_HANDLES).
      * rewrite length_app. cbn [length]. replace (length h + 1 - 1)%nat with (length h) by lia.
        split; [apply Z.ltb_lt; lia|]. split; [unfold wf; rewrite length_insert, length_app; cbn [length]; lia|]. split.
        { unfold view. rewrite (proj2 (Z.ltb_ge _ _)) by lia. rewrite (lookup_ge_None_2 h) by lia. done. }
        split; [lia|]. intros j. rewrite view_insert by (rewrite length_app; cbn [length]; lia). by rewrite view_grow.
      * unfold wf in Hw. split; [apply Z.ltb_ge; lia|done].
  - unfold take, slot. rewrite <-(get_mut_view h k). unfold get_mut, slot, view.
    assert (Hbad : ∀ j : Z, view h k = None → view h j = if decide (j = k) then None else view h j) by (intros; by case_decide; subst).
    unfold view in Hbad. destruct (Z.ltb_spec k FIRST) as [Hk|Hk]; [split; [done|]; split; [done|]; intros; by apply Hbad|].
    destruct (h !! Z.to_nat (k - FIRST)) as [[o|]|] eqn:E; rewrite ?E;
      [|split; [done|]; split; [done|]; intros; by apply Hbad..].
    cbn [fst snd]. split; [done|]. split; [unfold wf; by rewrite length_insert|]. intros j.
    pose proof (lookup_lt_Some _ _ _ E) as Hlt. pose proof (view_insert h _ None j Hlt) as Hv. unfold view in Hv. rewrite Hv.
    replace (Z.of_nat (Z.to_nat (k - FIRST)) + FIRST) with k by lia. done.
Qed.
End table.

Lemma handles_are_a_bounded_map_witness : get_mut [Some true; None] 2 = Ok true ∧ insert [Some true; None] false = ([Some true; Some false], Ok 3).
Proof.
  split; [|reflexivity].
  refine (proj1 (proj2 (handles_are_a_bounded_map [Some true; None] false 2 _))). unfold wf, MAX_HANDLES. cbn. lia.
Defined.
End Handles.
