(* ===== verification/Console.v ===== *)
(** The text console ([rustypi-core/src/console.rs]): a grid of characters with a cursor, line
    wrapping and scrolling, and the surface it is drawn on. *)
From S2P Require Import Prelude.

Module Console.
(** Characters are code points. *)
Notation char := Z (only parsing).
Definition SPACE : Z := 0x20.
Definition TAB_WIDTH : nat := 8.

(** [Surface::draw_cell]: a surface is what it shows in each cell. *)
Definition Surface : Type := nat → nat → char.
Definition draw_cell (col row : nat) (c : char) (s : Surface) : Surface :=
  λ x y, if decide (x = col ∧ y = row) then c else s x y.

Record Console := mkConsole { cols : nat; rows : nat; cells : list char; col : nat; row : nat }.

Definition new (cols rows : nat) : Console :=
  let cols := cols `max` 1 in
  let rows := rows `max` 1 in
  mkConsole cols rows (replicate (cols * rows) SPACE) 0 0.

(** [None] is a panic: an index out of range. *)
Definition cell (x y : nat) (k : Console) : option char := cells k !! (y * cols k + x).

Definition with_cursor (col row : nat) (k : Console) : Console := mkConsole (cols k) (rows k) (cells k) col row.
Definition with_cells (cells : list char) (k : Console) : Console := mkConsole (cols k) (rows k) cells (col k) (row k).

(** The two loops of [redraw], over the cells in the order it draws them. *)
Fixpoint redraw_cells (at_ : list (nat * nat)) (k : Console) (s : Surface) : option Surface :=
  match at_ with
  | [] => Some s
  | (x, y) :: at_ => c ← cell x y k; redraw_cells at_ k (draw_cell x y c s)
  end.
Definition redraw (k : Console) (s : Surface) : option Surface :=
  redraw_cells (y ← seq 0 (rows k); (λ x, (x, y)) <$> seq 0 (cols k)) k s.

Definition clear (k : Console) (s : Surface) : option (Console * Surface) :=
  let k := with_cursor 0 0 (with_cells (replicate (length (cells k)) SPACE) k) in
  s ← redraw k s;
  Some (k, s).

(** [copy_within(cols.., 0)] leaves the end as it was; then the last row is blanked. *)
Definition scroll (k : Console) : option Console :=
  let l := cells k in
  if decide (cols k ≤ length l) then
    let l := drop (cols k) l ++ drop (length l - cols k) l in
    let last := (rows k - 1) * cols k in
    if decide (last ≤ length l) then Some (with_cells (take last l ++ replicate (length l - last) SPACE) k) else None
  else None.

Definition newline (k : Console) (s : Surface) : option (Console * Surface) :=
  let k := with_cursor 0 (row k) k in
  if decide (row k + 1 < rows k) then Some (with_cursor 0 (row k + 1) k, s)
  else k ← scroll k; s ← redraw k s; Some (k, s).

Definition put (c : char) (k : Console) (s : Surface) : option (Console * Surface) :=
  '(k, s) ← (if decide (col k = cols k) then newline k s else Some (k, s));
  let i := row k * cols k + col k in
  if decide (i < length (cells k)) then
    Some (with_cursor (col k + 1) (row k) (with_cells (<[i := c]> (cells k)) k), draw_cell (col k) (row k) c s)
  else None.

(** [char::is_control]. *)
Definition is_control (c : char) : bool := ((0 <=? c) && (c <? 0x20) || (0x7F <=? c) && (c <? 0xA0))%Z.

Definition write_char (c : char) (k : Console) (s : Surface) : option (Console * Surface) :=
  if (c =? 0x0A)%Z then newline k s
  else if (c =? 0x0D)%Z then Some (with_cursor 0 (row k) k, s)
  else if (c =? 0x08)%Z then Some (with_cursor (col k - 1) (row k) k, s)
  else if (c =? 0x09)%Z then
    Some (with_cursor (((col k / TAB_WIDTH + 1) * TAB_WIDTH) `min` cols k) (row k) k, s)
  else if is_control c then Some (k, s)
  else put c k s.

Fixpoint write_str (text : list char) (k : Console) (s : Surface) : option (Console * Surface) :=
  match text with
  | [] => Some (k, s)
  | c :: text => '(k, s) ← write_char c k s; write_str text k s
  end.

(** ** The screen shows the grid *)
Record wf (k : Console) : Prop := {
  wf_cols : 0 < cols k;
  wf_rows : 0 < rows k;
  wf_cells : length (cells k) = cols k * rows k;
  wf_col : col k ≤ cols k;
  wf_row : row k < rows k;
}.

(** Every cell of the screen is as the console has it. *)
Definition shows (s : Surface) (k : Console) : Prop :=
  ∀ x y, x < cols k → y < rows k → cell x y k = Some (s x y).

Lemma index_lt k x y : wf k → x < cols k → y < rows k → y * cols k + x < length (cells k).
Proof. intros [] ? ?. nia. Qed.

Lemma cell_Some k x y : wf k → x < cols k → y < rows k → is_Some (cell x y k).
Proof. intros. by apply lookup_lt_is_Some_2, index_lt. Qed.

Lemma redraw_cells_spec at_ k s : Forall (λ '(x, y), is_Some (cell x y k)) at_ →
  ∃ s', redraw_cells at_ k s = Some s' ∧
    ∀ x y, ((x, y) ∈ at_ → cell x y k = Some (s' x y)) ∧ ((x, y) ∉ at_ → s' x y = s x y).
Proof.
  revert s. induction at_ as [|[x0 y0] at_ IH]; intros s Hok; cbn [redraw_cells].
  - exists s. split; [done|]. intros x y. split; [intros H; by apply elem_of_nil in H|done].
  - apply Forall_cons in Hok as [[c Hc] Hok]. rewrite Hc. cbn [mbind option_bind].
    destruct (IH (draw_cell x0 y0 c s) Hok) as (s' & -> & Hs'). exists s'. split; [done|]. intros x y.
    destruct (Hs' x y) as [Hin Hout]. unfold draw_cell in Hout. split.
    + intros [[= -> ->]|H]%elem_of_cons; [|by apply Hin].
      destruct (decide ((x0, y0) ∈ at_)) as [H|H]; [by apply Hin|]. rewrite (Hout H), decide_True by done. done.
    + intros [Hne H]%not_elem_of_cons. rewrite (Hout H), decide_False by naive_solver. done.
Qed.

Lemma redraw_spec k s : wf k → ∃ s', redraw k s = Some s' ∧ shows s' k.
Proof.
  intros Hw. unfold redraw. set (at_ := _ ≫= _).
  assert (Hat : ∀ x y, (x, y) ∈ at_ ↔ x < cols k ∧ y < rows k).
  { intros x y. subst at_. rewrite list_elem_of_bind. split.
    - intros (y0 & (x0 & [= -> ->] & Hx%elem_of_seq)%list_elem_of_fmap & Hy%elem_of_seq). lia.
    - intros [Hx Hy]. exists y. split; [apply list_elem_of_fmap; exists x|]; rewrite ?elem_of_seq; split; (done || lia). }
  destruct (redraw_cells_spec at_ k s) as (s' & -> & Hs').
  - apply Forall_forall. intros [x y] [Hx Hy]%Hat. by apply cell_Some.
  - exists s'. split; [done|]. intros x y Hx Hy. by apply Hs', Hat.
Qed.

Lemma scroll_spec k : wf k → ∃ k', scroll k = Some k' ∧ wf k' ∧ cols k' = cols k ∧ rows k' = rows k ∧
  (∀ x y, x < cols k → y + 1 < rows k → cell x y k' = cell x (y + 1) k) ∧
  (∀ x, x < cols k → cell x (rows k - 1) k' = Some SPACE).
Proof.
  intros [Hc Hr Hl Hcol Hrow]. unfold scroll. rewrite decide_True by nia.
  set (l := drop (cols k) (cells k) ++ drop (length (cells k) - cols k) (cells k)).
  assert (Hll : length l = cols k * rows k) by (subst l; rewrite length_app, !length_drop; nia).
  rewrite decide_True by nia. set (last := (rows k - 1) * cols k). assert (Hlast : last + cols k = cols k * rows k) by (subst last; nia).
  eexists. split; [reflexivity|]. split; [|split; [done|split; [done|split]]].
  - split; cbn [cols rows cells col row with_cells]; try done. rewrite length_app, length_take, length_replicate. lia.
  - intros x y Hx Hy. unfold cell. cbn [cols cells with_cells].
    assert (y * cols k + x < last) by (subst last; nia).
    rewrite lookup_app_l, lookup_take_lt by (rewrite ?length_take; lia).
    subst l. rewrite lookup_app_l, lookup_drop by (rewrite length_drop; lia). f_equal. lia.
  - intros x Hx. unfold cell. cbn [cols cells with_cells]. fold last.
    rewrite lookup_app_r by (rewrite length_take; lia). rewrite length_take, lookup_replicate_2 by lia. done.
Qed.

(** [k'] is the console [k] a step later, on a surface that shows it. *)
Record follows (k : Console) (k' : Console) (s' : Surface) : Prop := {
  fo_wf : wf k';
  fo_shows : shows s' k';
  fo_cols : cols k' = cols k;
  fo_rows : rows k' = rows k;
}.

Lemma follows_trans k1 k2 k3 s2 s3 : follows k1 k2 s2 → follows k2 k3 s3 → follows k1 k3 s3.
Proof. intros [] []. split; [done|done|congruence|congruence]. Qed.

Lemma follows_cursor k s c r : wf k → shows s k → c ≤ cols k → r < rows k → follows k (with_cursor c r k) s.
Proof. intros [] Hs ? ?. by repeat split. Qed.

Lemma newline_follows k s : wf k → shows s k → ∃ k' s', newline k s = Some (k', s') ∧ follows k k' s' ∧ col k' = 0.
Proof.
  intros Hw Hs. unfold newline. cbn [row rows with_cursor]. case_decide.
  - do 2 eexists. split; [done|]. split; [|done].
    change (with_cursor 0 (row k + 1) (with_cursor 0 (row k) k)) with (with_cursor 0 (row k + 1) k).
    pose proof (wf_cols _ Hw). apply follows_cursor; (done || lia).
  - assert (Hw' : wf (with_cursor 0 (row k) k)) by (destruct Hw; split; cbn; (done || lia)).
    destruct (scroll_spec _ Hw') as (k' & Hk & Hwk & Hc & Hr & _ & _). rewrite Hk. cbn [mbind option_bind].
    destruct (redraw_spec k' s Hwk) as (s' & -> & Hs'). cbn [mbind option_bind].
    exists k', s'. split; [done|]. split; [by split|]. unfold scroll in Hk. repeat (case_decide; [|done]).
    by injection Hk as <-.
Qed.

Lemma put_follows c k s : wf k → shows s k → ∃ k' s', put c k s = Some (k', s') ∧ follows k k' s'.
Proof.
  intros Hw Hs. unfold put.
  assert (∃ k0 s0, (if decide (col k = cols k) then newline k s else Some (k, s)) = Some (k0, s0) ∧
            follows k k0 s0 ∧ col k0 < cols k0) as (k0 & s0 & -> & Hf & Hcol).
  { case_decide.
    - destruct (newline_follows k s Hw Hs) as (k0 & s0 & E & Hf & Hc). exists k0, s0. split; [done|]. split; [done|].
      rewrite Hc. apply Hf.
    - exists k, s. split; [done|]. split; [by split|]. destruct Hw. lia. }
  cbn [mbind option_bind]. pose proof Hf as [Hw0 Hs0 _ _]. pose proof (index_lt k0 _ _ Hw0 Hcol (wf_row _ Hw0)) as Hi.
  rewrite decide_True by lia. do 2 eexists. split; [done|]. eapply follows_trans; [done|].
  destruct Hw0 as [H1 H2 H3 H4 H5]. split; [|..|done|done].
  - split; cbn [cols rows cells col row with_cursor with_cells]; rewrite ?length_insert; (done || lia).
  - intros x y Hx Hy. cbn [cols rows with_cursor with_cells] in Hx, Hy. unfold cell, draw_cell.
    cbn [cells cols with_cursor with_cells]. case_decide as He.
    + destruct He as [-> ->]. apply list_lookup_insert_eq. lia.
    + rewrite list_lookup_insert_ne; [by apply Hs0|]. intros E. apply He.
      assert (y = row k0) as -> by (destruct (Nat.lt_trichotomy y (row k0)) as [|[|]]; nia). split; [lia|done].
Qed.

Lemma write_char_follows c k s : wf k → shows s k → ∃ k' s', write_char c k s = Some (k', s') ∧ follows k k' s'.
Proof.
  intros Hw Hs. pose proof Hw as [H1 H2 H3 H4 H5]. unfold write_char.
  destruct (_ =? _)%Z; [destruct (newline_follows k s Hw Hs) as (k' & s' & ? & ? & _); eauto|].
  destruct (_ =? _)%Z; [do 2 eexists; split; [done|]; apply follows_cursor; (done || lia)|].
  destruct (_ =? _)%Z; [do 2 eexists; split; [done|]; apply follows_cursor; (done || lia)|].
  destruct (_ =? _)%Z; [do 2 eexists; split; [done|]; apply follows_cursor; (done || lia)|].
  destruct (is_control c); [|by apply put_follows]. exists k, s. split; [done|]. by split.
Qed.

Lemma write_str_follows text k s : wf k → shows s k → ∃ k' s', write_str text k s = Some (k', s') ∧ follows k k' s'.
Proof.
  revert k s. induction text as [|c text IH]; intros k s Hw Hs; cbn [write_str].
  - exists k, s. split; [done|]. by split.
  - destruct (write_char_follows c k s Hw Hs) as (k1 & s1 & -> & Hf). cbn [mbind option_bind].
    destruct (IH k1 s1) as (k2 & s2 & -> & Hf2); [apply Hf..|]. exists k2, s2. split; [done|]. by eapply follows_trans.
Qed.

Definition printable (c : char) : Prop := is_control c = false.

Lemma write_printable text k s k' s' : wf k → Forall printable text → col k + length text ≤ cols k →
  write_str text k s = Some (k', s') →
  k' = mkConsole (cols k) (rows k)
         (take (row k * cols k + col k) (cells k) ++ text ++ drop (row k * cols k + col k + length text) (cells k))
         (col k + length text) (row k).
Proof.
  revert k s. induction text as [|c text IH]; intros k s Hw Hp Hl H.
  - injection H as <- _. cbn [length app]. rewrite !Nat.add_0_r, take_drop. by destruct k.
  - apply Forall_cons in Hp as [Hc Hp]. cbn [length] in Hl. cbn [write_str] in H.
    apply bind_Some in H as ([k1 s1] & H1 & H). pose proof Hw as [W1 W2 W3 W4 W5].
    pose proof (index_lt k (col k) (row k) Hw ltac:(lia) W5) as Hi.
    assert (k1 = with_cursor (col k + 1) (row k) (with_cells (<[row k * cols k + col k := c]> (cells k)) k)) as ->.
    { unfold write_char in H1. unfold printable, is_control in Hc.
      destruct (Z.eqb_spec c 0x0A), (Z.eqb_spec c 0x0D), (Z.eqb_spec c 0x08), (Z.eqb_spec c 0x09); try (by subst c).
      unfold is_control in H1. rewrite Hc in H1. unfold put in H1.
      rewrite decide_False in H1 by lia. cbn [mbind option_bind] in H1. rewrite decide_True in H1 by lia. by injection H1. }
    apply IH in H; [|split; cbn [cols rows cells col row with_cursor with_cells]; rewrite ?length_insert; (done || lia)|done
                   |cbn [cols col with_cursor with_cells]; lia].
    rewrite H. cbn [cols rows cells col row with_cursor with_cells]. f_equal; [|cbn [length]; lia].
    set (i := row k * cols k + col k) in *. replace (row k * cols k + (col k + 1)) with (i + 1) by lia.
    assert (Ht : length (take i (cells k)) = i) by (rewrite length_take; lia).
    rewrite insert_take_drop, take_app, drop_app, Ht by lia.
    replace (i + 1 - i) with 1 by lia. replace (i + 1 + length text - i) with (S (length text)) by lia.
    rewrite (take_ge (take i _)), (drop_ge (take i _)) by lia. cbn [take drop app length]. rewrite take_0, drop_drop, <-app_assoc.
    cbn [app]. do 4 f_equal. lia.
Qed.

(** C40: the screen always shows the console's grid: whatever text is written (control
    characters, wrapping and scrolling included) or if it is cleared, no index is out of range,
    the cursor stays on the grid, and every cell drawn on the surface is the console's.  Plain
    text that fits the rest of the line goes in after the cursor and changes nothing else. *)
Theorem screen_shows_the_console k s text : wf k → shows s k →
  (∃ k' s', write_str text k s = Some (k', s') ∧ wf k' ∧ shows s' k' ∧ cols k' = cols k ∧ rows k' = rows k ∧
     (Forall printable text → col k + length text ≤ cols k →
      cells k' = take (row k * cols k + col k) (cells k) ++ text ++ drop (row k * cols k + col k + length text) (cells k) ∧
      col k' = col k + length text ∧ row k' = row k)) ∧
  ∃ k' s', clear k s = Some (k', s') ∧ wf k' ∧ shows s' k' ∧ col k' = 0 ∧ row k' = 0 ∧ Forall (λ c, c = SPACE) (cells k').
Proof.
  intros Hw Hs. split.
  - destruct (write_str_follows text k s Hw Hs) as (k' & s' & E & [F1 F2 F3 F4]). exists k', s'. split_and!; try done.
    intros Hp Hl. by rewrite (write_printable text k s k' s' Hw Hp Hl E).
  - unfold clear. set (k' := with_cursor 0 0 _).
    assert (Hw' : wf k') by (destruct Hw; split; cbn; rewrite ?length_replicate; (done || lia)).
    destruct (redraw_spec k' s Hw') as (s' & -> & Hs'). exists k', s'. split_and!; try done.
    by apply Forall_replicate.
Qed.

Lemma screen_shows_the_console_witness :
  ∃ k' s', write_str [0x68; 0x69]%Z (new 4 2) (λ _ _, SPACE) = Some (k', s') ∧ wf k' ∧ shows s' k'.
Proof.
  assert (Hw : wf (new 4 2)) by (split; cbn; lia).
  assert (Hs : shows (λ _ _, SPACE) (new 4 2)).
  { intros x y Hx Hy. unfold cell, new. cbn [cells cols] in *. rewrite lookup_replicate_2; [done|]. cbn in *. lia. }
  destruct (proj1 (screen_shows_the_console (new 4 2) (λ _ _, SPACE) [0x68; 0x69]%Z Hw Hs)) as (k' & s' & H1 & H2 & H3 & _).
  by exists k', s'.
Defined.
End Console.
