(* ===== verification/Effect.v ===== *)
(** Programs with a state, errors and panics, and weakest preconditions for them: the monad of the
    components that thread a device and a table through fallible calls. *)
From S2P Require Import Prelude.

Module Effect.

Section effect.
Context {S X : Type}.

Inductive outcome (A : Type) :=
| Ret (s : S) (a : A)
| Fail (s : S) (e : X)
| Panic.
Arguments Ret {A}.
Arguments Fail {A}.
Arguments Panic {A}.

Definition Eff (A : Type) : Type := S → outcome A.

#[export] Instance Eff_ret : MRet Eff := λ A a s, Ret s a.
#[export] Instance Eff_bind : MBind Eff := λ A B k m s,
  match m s with Ret s a => k a s | Fail s e => Fail s e | Panic => Panic end.

Definition fail {A} (e : X) : Eff A := λ s, Fail s e.
Definition panic {A} : Eff A := λ _, Panic.
Definition get : Eff S := λ s, Ret s s.
Definition put (s : S) : Eff unit := λ _, Ret s tt.
Definition modify (f : S → S) : Eff unit := λ s, Ret (f s) tt.

(** A value the code unwraps or a range it indexes. *)
Definition unwrap {A} (o : option A) : Eff A := match o with Some a => mret a | None => panic end.

Definition lift {A} (r : result X A) : Eff A := match r with Ok a => mret a | Err e => fail e end.

(** The result of a call as a value, for the code that looks at it. *)
Definition catch {A} (m : Eff A) : Eff (result X A) := λ s,
  match m s with Ret s a => Ret s (Ok a) | Fail s e => Ret s (Err e) | Panic => Panic end.

(** [wp m s Q R]: run in state [s], [m] does not panic; it returns with [Q] or fails with [R]. *)
Definition wp {A} (m : Eff A) (s : S) (Q : S → A → Prop) (R : S → X → Prop) : Prop :=
  match m s with Ret s' a => Q s' a | Fail s' e => R s' e | Panic => False end.

Lemma wp_bind {A B} (m : Eff A) (k : A → Eff B) s Q R :
  wp m s (λ s' a, wp (k a) s' Q R) R → wp (m ≫= k) s Q R.
Proof. unfold wp, mbind, Eff_bind. by destruct (m s). Qed.

Lemma wp_mono {A} (m : Eff A) s (Q Q' : S → A → Prop) (R R' : S → X → Prop) :
  wp m s Q R → (∀ s' a, Q s' a → Q' s' a) → (∀ s' e, R s' e → R' s' e) → wp m s Q' R'.
Proof. unfold wp. destruct (m s); auto. Qed.

Lemma wp_call {A B} (m : Eff A) (k : A → Eff B) s Q0 R0 Q R :
  wp m s Q0 R0 → (∀ s' a, Q0 s' a → wp (k a) s' Q R) → (∀ s' e, R0 s' e → R s' e) → wp (m ≫= k) s Q R.
Proof. intros. apply wp_bind. by eapply wp_mono. Qed.

Lemma wp_ret {A} (a : A) s (Q : S → A → Prop) (R : S → X → Prop) : Q s a → wp (mret a) s Q R.
Proof. done. Qed.

Lemma wp_fail {A} (e : X) s (Q : S → A → Prop) (R : S → X → Prop) : R s e → wp (fail e) s Q R.
Proof. done. Qed.

Lemma wp_unwrap {A} (o : option A) a s (Q : S → A → Prop) (R : S → X → Prop) :
  o = Some a → Q s a → wp (unwrap o) s Q R.
Proof. by intros ->. Qed.

Lemma wp_catch {A} (m : Eff A) s (Q : S → result X A → Prop) R :
  wp m s (λ s' a, Q s' (Ok a)) (λ s' e, Q s' (Err e)) → wp (catch m) s Q R.
Proof. unfold wp, catch. by destruct (m s). Qed.

Lemma wp_if {A} (b : bool) (m m' : Eff A) s Q R :
  (b = true → wp m s Q R) → (b = false → wp m' s Q R) → wp (if b then m else m') s Q R.
Proof. destruct b; auto. Qed.

Lemma wp_get_bind {B} (k : S → Eff B) s Q R : wp (k s) s Q R → wp (get ≫= k) s Q R.
Proof. done. Qed.

Lemma wp_ret_bind {A B} (a : A) (k : A → Eff B) s Q R : wp (k a) s Q R → wp (mret a ≫= k) s Q R.
Proof. done. Qed.

Lemma wp_modify_bind {B} (f : S → S) (k : unit → Eff B) s Q R : wp (k tt) (f s) Q R → wp (modify f ≫= k) s Q R.
Proof. done. Qed.

Lemma wp_modify (f : S → S) s (Q : S → unit → Prop) (R : S → X → Prop) : Q (f s) tt → wp (modify f) s Q R.
Proof. done. Qed.
End effect.

Arguments outcome S X A : clear implicits.
Arguments Ret {S X A}.
Arguments Fail {S X A}.
Arguments Panic {S X A}.
Arguments Eff S X A : clear implicits.

(** What a specification says of a run that has been evaluated. *)
Definition returns {S X A} (o : outcome S X A) : bool := match o with Ret _ _ => true | _ => false end.
Definition fails {S X A} (o : outcome S X A) : bool := match o with Fail _ _ => true | _ => false end.

Lemma wp_returns {S X A} (m : Eff S X A) s Q R : wp m s Q R → returns (m s) = true → ∃ t a, m s = Ret t a ∧ Q t a.
Proof. unfold wp. destruct (m s); cbn; [|done..]. eauto. Qed.

Lemma wp_fails {S X A} (m : Eff S X A) s Q R : wp m s Q R → fails (m s) = true → ∃ t e, m s = Fail t e ∧ R t e.
Proof. unfold wp. destruct (m s); cbn; [done| |done]. eauto. Qed.

(** Steps through binds whose first part only reads the state, changes it or returns. *)
Ltac wp_step :=
  repeat (match goal with
          | |- wp (mbind _ get) _ _ _ => apply wp_get_bind
          | |- wp (mbind _ (mret _)) _ _ _ => apply wp_ret_bind
          | |- wp (mbind _ (modify _)) _ _ _ => apply wp_modify_bind
          | |- wp (mret _) _ _ _ => apply wp_ret
          | |- wp (modify _) _ _ _ => apply wp_modify
          | |- wp (fail _) _ _ _ => apply wp_fail
          end; cbn beta).
End Effect.
