(* ===== verification/Mmio.v ===== *)
(** Peripherals behind registers in memory: the reads and writes of [src/drivers/mmio.rs], the system
    timer ([src/drivers/timer.rs]) and the pins ([src/drivers/gpio.rs]).

    What is behind the registers is not code: a machine is any type with the two operations of
    [Mmio].  What is known of its clock is the class [Clocked]: every access takes some time and not
    too much of it, and the timer's two registers are halves of a counter of microseconds.  That is
    enough to prove that every loop of a driver that gives up after a while ends, whatever the device
    it polls does ([takes]). *)
From S2P Require Import Prelude Effect.
Open Scope Z_scope.

Module Mmio.
Import Effect.

(** * Registers: mmio.rs *)

(** [pace] bounds how many registers can be accessed in a microsecond; the loops below need a bound to be
    defined, no result depends on it. *)
Class Mmio (HW : Type) := {
  read : Z → HW → HW * Z;
  write : Z → Z → HW → HW;
  pace : positive }.

Definition PERIPHERAL_BASE : Z := 0x3F000000.

Section programs.
Context {HW X : Type} `{Mmio HW}.

Definition rd (r : Z) : Eff HW X Z := λ h, Ret (read r h).1 (read r h).2.
Definition wr (r v : Z) : Eff HW X unit := λ h, Ret (write r v h) tt.

(** ** Loops that run until they are done *)

(** At most [p] steps, without counting them one by one. *)
Fixpoint until {S B} (p : positive) (step : S → S + B) (s : S) : S + B :=
  match p with
  | xH => step s
  | xO p => match until p step s with inl s => until p step s | r => r end
  | xI p => match step s with
            | inl s => match until p step s with inl s => until p step s | r => r end
            | r => r
            end
  end.

(** [loop { if let Some(a) = body? { break a } }]. *)
Definition loop {A} (p : positive) (body : Eff HW X (option A)) : Eff HW X A := λ h,
  match until p (λ h, match body h with
                      | Ret h None => inl h
                      | Ret h (Some a) => inr (Ret h a)
                      | Fail h e => inr (Fail h e)
                      | Panic => inr Panic
                      end) h with
  | inl _ => Panic
  | inr o => o
  end.

(** A loop with variables of its own: [inl] goes on, [inr] ends it. *)
Definition loop_with {V A} (p : positive) (body : V → Eff HW X (V + A)) (v : V) : Eff HW X A := λ h,
  match until p (λ '(v, h), match body v h with
                            | Ret h (inl v) => inl (v, h)
                            | Ret h (inr a) => inr (Ret h a)
                            | Fail h e => inr (Fail h e)
                            | Panic => inr Panic
                            end) (v, h) with
  | inl _ => Panic
  | inr o => o
  end.

(** Enough turns for a loop that looks at the time in each and ends after [us]. *)
Definition turns (us : Z) : positive := Z.to_pos ((us + 1) * Z.pos pace + 2).

(** * The system timer: timer.rs *)
Definition TIMER_BASE : Z := PERIPHERAL_BASE + 0x3000.
Definition TIMER_CLO : Z := TIMER_BASE + 0x04.
Definition TIMER_CHI : Z := TIMER_BASE + 0x08.

Definition now_us : Eff HW X Z :=
  loop 2 (hi ← rd TIMER_CHI; lo ← rd TIMER_CLO; again ← rd TIMER_CHI;
          mret (if again =? hi then Some (Z.lor (Z.shiftl hi 32) lo) else None)).

Definition delay_us (us : Z) : Eff HW X unit :=
  start ← now_us;
  loop (turns us) (now ← now_us; mret (if wrap 64 (now - start) <? us then None else Some tt)).

(** The loops of the drivers: ask whether it is done, and give up once more than [timeout] has passed since
    [start]; otherwise [rest], if there is something to do before asking again. *)
Definition polling {A} (timeout : Z) (too_late : X) (ask : Eff HW X (option A)) (rest : Eff HW X unit) : Eff HW X A :=
  start ← now_us;
  loop (turns timeout)
    (r ← ask;
     match r with
     | Some a => mret (Some a)
     | None => now ← now_us;
               if timeout <? wrap 64 (now - start) then fail too_late else _ ← rest; mret None
     end).
End programs.

(** * Pins: gpio.rs *)
Definition GPIO_BASE : Z := PERIPHERAL_BASE + 0x200000.

Definition gpfsel (i : Z) : Z := GPIO_BASE + 4 * i.
Definition gpset (i : Z) : Z := GPIO_BASE + 0x1C + 4 * i.
Definition gpclr (i : Z) : Z := GPIO_BASE + 0x28 + 4 * i.
Definition gppud : Z := GPIO_BASE + 0x94.
Definition gppudclk (i : Z) : Z := GPIO_BASE + 0x98 + 4 * i.

Record Pin := mkPin { number : Z }.

Definition Pin_new (number : Z) : option Pin := if number <? 54 then Some (mkPin number) else None.

Inductive PinMode := Input | Output | Alt0 | Alt1 | Alt2 | Alt3 | Alt4 | Alt5.
Definition mode_bits (m : PinMode) : Z :=
  match m with Input => 0 | Output => 1 | Alt0 => 4 | Alt1 => 5 | Alt2 => 6 | Alt3 => 7 | Alt4 => 3 | Alt5 => 2 end.

Inductive PullMode := Off | Down | Up.
Definition pull_bits (m : PullMode) : Z := match m with Off => 0 | Down => 1 | Up => 2 end.

(** The value [set_pin_mode] writes back, from the one it read. *)
Definition with_mode (bit : Z) (mode : PinMode) (current : Z) : Z :=
  Z.lor (Z.land current (bnot 32 (Z.shiftl 7 bit))) (Z.shiftl (mode_bits mode) bit).

Section pins.
Context {HW X : Type} `{Mmio HW}.

Definition set_pin_mode (pin : Pin) (mode : PinMode) : Eff HW X unit :=
  let reg := gpfsel (number pin / 10) in
  current ← rd reg;
  wr reg (with_mode (number pin mod 10 * 3) mode current).

Definition set_pin_internal (pin : Pin) : Eff HW X unit := wr (gpset (number pin / 32)) (bit (number pin mod 32)).
Definition clear_pin_internal (pin : Pin) : Eff HW X unit := wr (gpclr (number pin / 32)) (bit (number pin mod 32)).
Definition write_pin (pin : Pin) (state : bool) : Eff HW X unit :=
  if state then set_pin_internal pin else clear_pin_internal pin.

(** The delays between the writes are of the processor's own. *)
Definition set_pin_pull (pin : Pin) (mode : PullMode) : Eff HW X unit :=
  _ ← wr gppud (pull_bits mode);
  _ ← wr (gppudclk (number pin / 32)) (bit (number pin mod 32));
  wr (gppudclk (number pin / 32)) 0.
End pins.

(** * Loops *)

Fixpoint until_nat {S B} (n : nat) (step : S → S + B) (s : S) : S + B :=
  match n with
  | O => inl s
  | Datatypes.S n => match step s with inl s => until_nat n step s | r => r end
  end.

Lemma until_nat_add {S B} n m (step : S → S + B) s :
  until_nat (n + m) step s = match until_nat n step s with inl s => until_nat m step s | r => r end.
Proof. revert s. induction n as [|n IH]; intros s; cbn; [done|]. by destruct (step s). Qed.

Lemma until_steps {S B} p (step : S → S + B) s : until p step s = until_nat (Pos.to_nat p) step s.
Proof.
  revert s. induction p as [p IH|p IH|]; intros s; cbn [until].
  - replace (Pos.to_nat p~1) with (Datatypes.S (Pos.to_nat p + Pos.to_nat p)%nat) by lia. cbn [until_nat].
    destruct (step s) as [s'|]; [|done]. rewrite until_nat_add, IH. by destruct (until_nat _ _ _).
  - replace (Pos.to_nat p~0) with (Pos.to_nat p + Pos.to_nat p)%nat by lia.
    rewrite until_nat_add, IH. by destruct (until_nat _ _ _).
  - change (Pos.to_nat 1) with 1%nat. cbn [until_nat]. by destruct (step s).
Qed.

(** A specification that leaves open whether the program ends. *)
Definition post {S X A} (m : Eff S X A) (s : S) (Q : S → A → Prop) (R : S → X → Prop) : Prop :=
  match m s with Ret s' a => Q s' a | Fail s' e => R s' e | Panic => True end.

Lemma post_any {S X A} (m : Eff S X A) s : post m s (λ _ _, True) (λ _ _, True).
Proof. unfold post. by destruct (m s). Qed.

Section loops.
Context {HW X : Type} `{Mmio HW}.

(** A loop that keeps an invariant counting its turns, which cannot hold for [p] of them, ends. *)
Lemma wp_loop {A} p (body : Eff HW X (option A)) (I : nat → HW → Prop) h Q R :
  (∀ k h, I k h → wp body h (λ h' r, match r with Some a => Q h' a | None => I (Datatypes.S k) h' end) R) →
  (∀ k h, I k h → (k < Pos.to_nat p)%nat) → I O h → wp (loop p body) h Q R.
Proof.
  intros Hbody Hend. unfold wp, loop. rewrite until_steps.
  assert (Hgo : ∀ n k h, I k h → (k + n = Pos.to_nat p)%nat →
    match until_nat n (λ h, match body h with Ret h None => inl h | Ret h (Some a) => inr (Ret h a)
      | Fail h e => inr (Fail h e) | Panic => inr Panic end) h with
    | inl _ => False | inr (Ret h a) => Q h a | inr (Fail h e) => R h e | inr Panic => False end).
  { induction n as [|n IH]; intros k h0 Hk Hn; cbn [until_nat].
    - specialize (Hend k h0 Hk). lia.
    - pose proof (Hbody k h0 Hk) as Hb. unfold wp in Hb. destruct (body h0) as [h1 [a|]|h1 e|]; [done| |done|done].
      apply (IH (Datatypes.S k)); [done|lia]. }
  intros H0. specialize (Hgo _ 0%nat h H0 eq_refl). by destruct (until_nat _ _ _) as [?|[]].
Qed.

Lemma post_loop {A} p (body : Eff HW X (option A)) (I : HW → Prop) h Q R :
  (∀ h, I h → post body h (λ h' r, match r with Some a => Q h' a | None => I h' end) R) →
  I h → post (loop p body) h Q R.
Proof.
  intros Hbody. unfold post, loop. rewrite until_steps. revert h.
  induction (Pos.to_nat p) as [|n IH]; intros h Hh; cbn [until_nat]; [done|].
  pose proof (Hbody h Hh) as Hb. unfold post in Hb. destruct (body h) as [h1 [a|]|h1 e|]; [done| |done|done].
  by apply IH.
Qed.

(** The same with variables. *)
Section with_variables.
Context {V A : Type} (body : V → Eff HW X (V + A)).

Let step : V * HW → V * HW + outcome HW X A := λ '(v, h),
  match body v h with Ret h (inl v) => inl (v, h) | Ret h (inr a) => inr (Ret h a) | Fail h e => inr (Fail h e) | Panic => inr Panic end.

Lemma wp_loop_with p (I : nat → V → HW → Prop) v h Q R :
  (∀ k v h, I k v h → wp (body v) h (λ h' r, match r with inr a => Q h' a | inl v' => I (Datatypes.S k) v' h' end) R) →
  (∀ k v h, I k v h → (k < Pos.to_nat p)%nat) → I O v h → wp (loop_with p body v) h Q R.
Proof.
  intros Hbody Hend. unfold wp, loop_with. rewrite until_steps.
  assert (Hgo : ∀ n k v h, I k v h → (k + n = Pos.to_nat p)%nat →
    match until_nat n step (v, h) with
    | inl _ => False | inr (Ret h a) => Q h a | inr (Fail h e) => R h e | inr Panic => False end).
  { induction n as [|n IH]; intros k v0 h0 Hk Hn; cbn [until_nat].
    - specialize (Hend k v0 h0 Hk). lia.
    - pose proof (Hbody k v0 h0 Hk) as Hb. unfold wp in Hb. cbn [step]. destruct (body v0 h0) as [h1 [v1|a]|h1 e|]; [|done|done|done].
      apply (IH (Datatypes.S k)); [done|lia]. }
  intros H0. specialize (Hgo _ 0%nat v h H0 eq_refl). unfold step in Hgo. by destruct (until_nat _ _ _) as [?|[]].
Qed.

Lemma post_loop_with p (I : V → HW → Prop) v h Q R :
  (∀ v h, I v h → post (body v) h (λ h' r, match r with inr a => Q h' a | inl v' => I v' h' end) R) →
  I v h → post (loop_with p body v) h Q R.
Proof.
  intros Hbody. unfold post, loop_with. rewrite until_steps. revert v h.
  induction (Pos.to_nat p) as [|n IH]; intros v h Hh; cbn [until_nat]; [done|].
  pose proof (Hbody v h Hh) as Hb. unfold post in Hb. destruct (body v h) as [h1 [v1|a]|h1 e|]; [|done|done|done].
  by apply IH.
Qed.
End with_variables.

(** A loop that never has anything to say goes on for ever. *)
Lemma loop_never {A} p (body : Eff HW X (option A)) h : (∀ h, ∃ h', body h = Ret h' None) → loop p body h = Panic.
Proof.
  intros Hb. unfold loop. rewrite until_steps. cut (∀ n h, ∃ h', until_nat n (λ h, match body h with
    | Ret h None => inl h | Ret h (Some a) => inr (Ret h a) | Fail h e => inr (Fail h e) | Panic => inr Panic end) h = inl h').
  { intros Hn. by destruct (Hn (Pos.to_nat p) h) as [h' ->]. }
  induction n as [|n IH]; intros h0; cbn [until_nat]; [by eexists|]. destruct (Hb h0) as [h1 ->]. apply IH.
Qed.
End loops.

Section post.
Context {S X : Type}.

Lemma post_bind {A B} (m : Eff S X A) (k : A → Eff S X B) s Q R :
  post m s (λ s' a, post (k a) s' Q R) R → post (m ≫= k) s Q R.
Proof. unfold post, mbind, Eff_bind. by destruct (m s). Qed.

Lemma post_mono {A} (m : Eff S X A) s (Q Q' : S → A → Prop) (R R' : S → X → Prop) :
  post m s Q R → (∀ s' a, Q s' a → Q' s' a) → (∀ s' e, R s' e → R' s' e) → post m s Q' R'.
Proof. unfold post. destruct (m s); auto. Qed.

Lemma post_call {A B} (m : Eff S X A) (k : A → Eff S X B) s Q0 R0 Q R :
  post m s Q0 R0 → (∀ s' a, Q0 s' a → post (k a) s' Q R) → (∀ s' e, R0 s' e → R s' e) → post (m ≫= k) s Q R.
Proof. intros. apply post_bind. by eapply post_mono. Qed.

Lemma post_ret {A} (a : A) s (Q : S → A → Prop) (R : S → X → Prop) : Q s a → post (mret a) s Q R.
Proof. done. Qed.

Lemma post_fail {A} (e : X) s (Q : S → A → Prop) (R : S → X → Prop) : R s e → post (fail e) s Q R.
Proof. done. Qed.

Lemma post_catch {A} (m : Eff S X A) s (Q : S → result X A → Prop) R :
  post m s (λ s' a, Q s' (Ok a)) (λ s' e, Q s' (Err e)) → post (catch m) s Q R.
Proof. unfold post, catch. by destruct (m s). Qed.

Lemma post_true {A} (m : Eff S X A) s : post m s (λ _ _, True) (λ _ _, True).
Proof. unfold post. by destruct (m s). Qed.

Lemma post_conj {A} (m : Eff S X A) s Q R Q' R' : post m s Q R → post m s Q' R' →
  post m s (λ s a, Q s a ∧ Q' s a) (λ s e, R s e ∧ R' s e).
Proof. unfold post. by destruct (m s). Qed.

(** [m] keeps [P], whether it returns or fails. *)
Definition keeps {A} (P : S → Prop) (m : Eff S X A) : Prop := ∀ s, P s → post m s (λ s' _, P s') (λ s' _, P s').

Lemma keeps_bind {A B} P (m : Eff S X A) (k : A → Eff S X B) : keeps P m → (∀ a, keeps P (k a)) → keeps P (m ≫= k).
Proof. intros Hm Hk s Hs. eapply post_call; [by apply Hm| |done]. intros s' a Ha. by apply Hk. Qed.

Lemma keeps_ret {A} P (a : A) : keeps P (mret a : Eff S X A).
Proof. by intros s. Qed.

Lemma keeps_fail {A} P (e : X) : keeps P (fail e : Eff S X A).
Proof. by intros s. Qed.

Lemma keeps_lift {A} P (r : result X A) : keeps P (lift r).
Proof. destruct r; [apply keeps_ret|apply keeps_fail]. Qed.

Lemma keeps_unwrap {A} P (o : option A) : keeps P (unwrap o : Eff S X A).
Proof. destruct o; [apply keeps_ret|by intros s]. Qed.

Lemma keeps_catch {A} P (m : Eff S X A) : keeps P m → keeps P (catch m).
Proof. intros Hm s Hs. apply post_catch. by apply Hm. Qed.

(** What ends and is right if it ends is right. *)
Lemma wp_post {A} (m : Eff S X A) s Q R Q' R' : wp m s Q R → post m s Q' R' →
  wp m s (λ s a, Q s a ∧ Q' s a) (λ s e, R s e ∧ R' s e).
Proof. unfold wp, post. by destruct (m s). Qed.
End post.

Section keeps.
Context {HW X : Type} `{Mmio HW} (P : HW → Prop).
Local Notation Eff := (Eff HW X).

Lemma keeps_rd r : (∀ h, P h → P (read r h).1) → keeps P (rd r : Eff Z).
Proof. intros Hr h Hh. by apply Hr. Qed.

Lemma keeps_wr r v : (∀ h, P h → P (write r v h)) → keeps P (wr r v : Eff unit).
Proof. intros Hr h Hh. by apply Hr. Qed.

Lemma keeps_loop {A} p (body : Eff (option A)) : keeps P body → keeps P (loop p body).
Proof.
  intros Hb h. apply post_loop. intros h1 H1. eapply post_mono; [by apply Hb| |done]. by intros h2 [a|].
Qed.

Hypothesis timers : ∀ r h, r = TIMER_CHI ∨ r = TIMER_CLO → P h → P (read r h).1.

Lemma post_now h : P h → post (now_us : Eff Z) h (λ h' _, P h') (λ _ _, False).
Proof.
  apply post_loop. intros h1 H1. unfold post, mbind, Eff_bind, rd, mret, Eff_ret.
  assert (H4 : P (read TIMER_CHI (read TIMER_CLO (read TIMER_CHI h1).1).1).1) by auto. by destruct (_ =? _).
Qed.

Lemma keeps_now : keeps P (now_us : Eff Z).
Proof. intros h Hh. eapply post_mono; [by apply post_now|done|done]. Qed.

Lemma keeps_delay us : keeps P (delay_us us : Eff unit).
Proof.
  apply keeps_bind; [apply keeps_now|intros ?]. apply keeps_loop. apply keeps_bind; [apply keeps_now|intros ?]. apply keeps_ret.
Qed.

Lemma keeps_polling {A} t e (ask : Eff (option A)) rest : keeps P ask → keeps P rest → keeps P (polling t e ask rest).
Proof.
  intros Ha Hr. apply keeps_bind; [apply keeps_now|intros start]. apply keeps_loop. apply keeps_bind; [done|].
  intros [a|]; [apply keeps_ret|]. apply keeps_bind; [apply keeps_now|intros now].
  destruct (_ <? _); [apply keeps_fail|]. apply keeps_bind; [done|intros; apply keeps_ret].
Qed.

(** What a polling loop found, when it asks with [P] and finds nothing with [P]. *)
Lemma post_polling {A} t e (ask : Eff (option A)) h Q R :
  (∀ h, P h → post ask h (λ h' r, match r with Some a => Q h' a | None => P h' end) R) →
  (∀ h, P h → R h e) → P h → post (polling t e ask (mret tt)) h Q R.
Proof.
  intros Ha Hlate Hh. unfold polling.
  assert (Hnow : ∀ h, P h → post (now_us : Eff Z) h (λ h' _, P h') R).
  { intros h1 H1. eapply post_mono; [by apply post_now|done|done]. }
  eapply post_call; [by apply Hnow| |done]. intros h1 start H1. apply (post_loop _ _ P); [|done].
  intros h2 H2. apply post_bind. eapply post_mono; [by apply Ha| |done]. intros h3 [a|] H3; [done|].
  eapply post_call; [by apply Hnow| |done]. intros h4 now H4. destruct (_ <? _); [by apply Hlate|done].
Qed.
End keeps.

(** * Time *)

(** Every access takes time, at most [latency] cycles, being interrupted included; the timer's registers are
    halves of the number of microseconds since a moment long ago, sampled during the access. *)
Class Clocked (HW : Type) `{Mmio HW} := {
  cycles : HW → Z;
  latency : Z;
  latency_range : 1 <= latency <= 2 ^ 28 * Z.pos pace;
  read_takes r h : cycles h < cycles (read r h).1 <= cycles h + latency;
  write_takes r v h : cycles h < cycles (write r v h) <= cycles h + latency;
  read_clo h : ∃ c, cycles h <= c <= cycles (read TIMER_CLO h).1 ∧ (read TIMER_CLO h).2 = wrap 32 (c / Z.pos pace);
  read_chi h : ∃ c, cycles h <= c <= cycles (read TIMER_CHI h).1 ∧
    (read TIMER_CHI h).2 = wrap 32 (c / Z.pos pace / 2 ^ 32) }.

Section time.
Context {HW X : Type} `{Clocked HW}.
Local Notation Eff := (Eff HW X).

(** [m] ends, returning or failing, within [c] cycles. *)
Definition takes {A} (m : Eff A) (c : Z) : Prop := 0 <= c ∧ ∀ h,
  wp m h (λ h' _, cycles h <= cycles h' <= cycles h + c) (λ h' _, cycles h <= cycles h' <= cycles h + c).

Lemma takes_bind {A B} (m : Eff A) (k : A → Eff B) c c' : takes m c → (∀ a, takes (k a) c') → 0 <= c' → takes (m ≫= k) (c + c').
Proof.
  intros [Hc0 Hm] Hk Hc. split; [lia|]. intros h. eapply wp_call; [apply Hm| |].
  - intros h1 a Ha. cbn beta in Ha. eapply wp_mono; [apply Hk| |]; cbn beta; intros; lia.
  - cbn beta. intros; lia.
Qed.

Lemma takes_le {A} (m : Eff A) c c' : takes m c → c <= c' → takes m c'.
Proof. intros [Hc0 Hm] Hc. split; [lia|]. intros h. eapply wp_mono; [apply Hm| |]; cbn beta; intros; lia. Qed.

Lemma takes_ret {A} (a : A) : takes (mret a) 0.
Proof. split; [done|]. intros h. apply wp_ret. lia. Qed.

Lemma takes_fail {A} (e : X) : takes (fail e : Eff A) 0.
Proof. split; [done|]. intros h. apply wp_fail. lia. Qed.

Lemma takes_lift {A} (r : result X A) : takes (lift r) 0.
Proof. destruct r; [apply takes_ret|apply takes_fail]. Qed.

Lemma takes_rd r : takes (rd r) latency.
Proof. pose proof latency_range. split; [lia|]. intros h. unfold wp, rd. pose proof (read_takes r h). lia. Qed.

Lemma takes_wr r v : takes (wr r v) latency.
Proof. pose proof latency_range. split; [lia|]. intros h. unfold wp, wr. pose proof (write_takes r v h). lia. Qed.

Lemma takes_catch {A} (m : Eff A) c : takes m c → takes (catch m) c.
Proof. intros [? Hm]. split; [done|]. intros h. apply wp_catch. apply Hm. Qed.

(** Reading the registers one after the other is reading the counter at one moment. *)
Lemma halves_of_one q c1 c2 c3 : 0 < q → c1 <= c2 <= c3 → c3 <= c1 + 3 * 2 ^ 28 * q →
  wrap 32 (c1 / q / 2 ^ 32) = wrap 32 (c3 / q / 2 ^ 32) →
  Z.lor (Z.shiftl (wrap 32 (c1 / q / 2 ^ 32)) 32) (wrap 32 (c2 / q)) = wrap 64 (c2 / q).
Proof.
  intros Hq Hc Hl He. rewrite lor_shiftl_add by (lia || apply wrap_uint; lia).
  assert (H13 : c1 / q <= c2 / q <= c3 / q) by (split; apply Z.div_le_mono; lia).
  assert (Hle : c3 / q <= c1 / q + 3 * 2 ^ 28).
  { rewrite <-Z.div_add by lia. apply Z.div_le_mono; lia. }
  unfold wrap in *. revert H13 Hle He. generalize (c1 / q), (c2 / q), (c3 / q). intros a b c. clear. intros.
  assert (Hb : b / 2 ^ 32 = a / 2 ^ 32) by (Z.to_euclidean_division_equations; lia).
  rewrite <-Hb. change (2 ^ 64) with (2 ^ 32 * 2 ^ 32). rewrite Z.rem_mul_r by lia. lia.
Qed.

(** [now_us] is the counter at a moment during the call; it reads the registers at most twice. *)
Lemma now_us_spec h :
  wp (now_us : Eff Z) h (λ h' t, cycles h < cycles h' <= cycles h + 6 * latency ∧
    ∃ c, cycles h < c <= cycles h' ∧ t = wrap 64 (c / Z.pos pace)) (λ _ _, False).
Proof.
  pose proof latency_range as Hl. set (q := Z.pos pace) in *. assert (Hq : 0 < q) by done.
  set (I := λ (k : nat) (h' : HW),
    match k with
    | O => h' = h
    | S O => cycles h < cycles h' <= cycles h + 3 * latency ∧
        ∃ c1 c3, cycles h <= c1 <= c3 ∧ c3 <= cycles h' ∧ c1 / q / 2 ^ 32 < c3 / q / 2 ^ 32
    | _ => False
    end).
  apply (wp_loop _ _ I); [|intros [|[|k]] h' Hk; [lia|lia|done]|done].
  intros k h0 Hk. unfold wp, rd, mbind, Eff_bind, mret, Eff_ret.
  destruct (read TIMER_CHI h0) as [h1 hi] eqn:E1. destruct (read TIMER_CLO h1) as [h2 lo] eqn:E2.
  destruct (read TIMER_CHI h2) as [h3 hi'] eqn:E3. cbn [fst snd]. rewrite ?E2. cbn [fst snd]. rewrite E3. cbn [fst snd].
  pose proof (read_chi h0) as (c1 & Hc1 & Hhi). pose proof (read_clo h1) as (c2 & Hc2 & Hlo).
  pose proof (read_chi h2) as (c3 & Hc3 & Hhi'). pose proof (read_takes TIMER_CHI h0) as T1.
  pose proof (read_takes TIMER_CLO h1) as T2. pose proof (read_takes TIMER_CHI h2) as T3.
  rewrite E1 in *. rewrite E2 in *. rewrite E3 in *. cbn [fst snd] in *. fold q in Hhi, Hlo, Hhi'.
  assert (Hmono : c1 / q <= c3 / q) by (apply Z.div_le_mono; lia).
  destruct (Z.eqb_spec hi' hi) as [->|Hne].
  - assert (Hh : cycles h <= cycles h0 ∧ cycles h3 <= cycles h + 6 * latency).
    { destruct k as [|[|k]]; cbn [I] in Hk; [subst h0; lia|lia|done]. }
    split; [lia|]. exists c2. split; [lia|]. subst lo. rewrite Hhi at 1. apply (halves_of_one q c1 c2 c3); [done|lia|nia|congruence].
  - destruct k as [|[|k]]; cbn [I] in Hk |- *; [| |done].
    + subst h0. split; [lia|]. exists c1, c3. split_and!; [lia|lia|lia|].
      destruct (Z.lt_ge_cases (c1 / q / 2 ^ 32) (c3 / q / 2 ^ 32)) as [|Hge]; [done|]. destruct Hne.
      rewrite Hhi, Hhi'. f_equal. pose proof (Z.div_le_mono _ _ (2 ^ 32) ltac:(lia) Hmono). lia.
    + destruct Hk as (Hh & d1 & d3 & Hd & Hd3 & Hlt). apply Hne. rewrite Hhi, Hhi'. f_equal.
      assert (Hle : c3 / q <= d1 / q + 6 * 2 ^ 28).
      { rewrite <-Z.div_add by lia. apply Z.div_le_mono; [lia|]. nia. }
      assert (Hd13 : d3 / q <= c1 / q) by (apply Z.div_le_mono; lia).
      revert Hle Hd13 Hmono Hlt. generalize (c1 / q), (c3 / q), (d1 / q), (d3 / q). clear. intros.
      Z.to_euclidean_division_equations; lia.
Qed.

Lemma takes_now : takes (now_us : Eff Z) (6 * latency).
Proof.
  pose proof latency_range. split; [lia|]. intros h. eapply wp_mono; [apply now_us_spec| |]; cbn beta; [intros; lia|done].
Qed.

(** Time that has passed, from two readings of the counter. *)
Lemma elapsed q c0 c : 0 < q → 0 <= c - c0 < 2 ^ 63 * q →
  wrap 64 (wrap 64 (c / q) - wrap 64 (c0 / q)) = c / q - c0 / q ∧ c / q - c0 / q <= (c - c0) / q + 1.
Proof.
  intros Hq Hc. assert (Hm : c0 / q <= c / q) by (apply Z.div_le_mono; lia).
  assert (Hb : c / q - c0 / q <= (c - c0) / q + 1).
  { Z.to_euclidean_division_equations. nia. }
  assert (Hs : (c - c0) / q < 2 ^ 63) by (apply Z.div_lt_upper_bound; lia). split; [|done].
  unfold wrap. rewrite <-Zminus_mod. apply Z.mod_small. lia.
Qed.

Lemma elapsed_cycles q c0 c us : 0 < q → c / q - c0 / q <= us → c - c0 < (us + 1) * q.
Proof. intros Hq Hu. Z.to_euclidean_division_equations. nia. Qed.

Lemma turns_enough us : 0 <= us → Z.of_nat (Pos.to_nat (turns us)) = (us + 1) * Z.pos pace + 2.
Proof. intros Hus. unfold turns. rewrite positive_nat_Z, Z2Pos.id by nia. done. Qed.

(** Waiting takes at least as long as asked for, to the microsecond, and not much longer. *)
Lemma delay_us_spec us h : 0 <= us < 2 ^ 62 →
  wp (delay_us us : Eff unit) h
    (λ h' _, cycles h <= cycles h' ∧ (us - 1) * Z.pos pace < cycles h' - cycles h <= (us + 1) * Z.pos pace + 18 * latency) (λ _ _, False).
Proof.
  intros Hus. pose proof latency_range as Hl. pose proof (turns_enough us ltac:(lia)) as Ht.
  set (q := Z.pos pace) in *. assert (Hq : 0 < q) by done. unfold delay_us.
  eapply wp_call; [apply now_us_spec| |done]. intros h1 start (Hh1 & c0 & Hc0 & ->). fold q.
  set (I := λ (k : nat) h', k = O ∧ h' = h1 ∨
    ∃ c, cycles h1 + Z.of_nat k <= c <= cycles h' ∧ cycles h' <= c + 6 * latency ∧ c - c0 < (us + 1) * q).
  assert (Hin : ∀ k h', I k h' → cycles h1 <= cycles h' ∧ Z.of_nat k <= Z.max 0 ((us + 1) * q) ∧
    cycles h' <= c0 + Z.max 0 ((us + 1) * q) + 6 * latency).
  { intros k h' [[-> ->]|(c & Hc & Hc' & Hlt)]; lia. }
  apply (wp_loop _ _ I); [|intros k h' Hk; apply Hin in Hk; nia|by left].
  intros k h2 Hk. pose proof (Hin _ _ Hk) as (Hh2 & _ & Hb2). eapply wp_call; [apply now_us_spec| |done].
  intros h3 now (Hh3 & c & Hc & ->). fold q. cbn beta. apply wp_ret.
  destruct (elapsed q c0 c Hq ltac:(nia)) as [-> _]. destruct (Z.ltb_spec (c / q - c0 / q) us) as [Hlt|Hge].
  - right. exists c. pose proof (elapsed_cycles q c0 c us Hq ltac:(lia)). split_and!; [|lia|lia|lia].
    destruct Hk as [[-> ->]|(c' & Hc' & _ & _)]; lia.
  - split; [lia|]. split; [|nia]. assert (Hd : (us - 1) * q < c - c0); [|lia]. revert Hge. clear -Hq. intros.
    Z.to_euclidean_division_equations. nia.
Qed.

Lemma takes_delay us : 0 <= us < 2 ^ 62 → takes (delay_us us : Eff unit) ((us + 1) * Z.pos pace + 18 * latency).
Proof.
  intros Hus. pose proof latency_range. split; [nia|]. intros h. eapply wp_mono; [by apply delay_us_spec| |]; cbn beta; [|done].
  intros h' _ Hh. lia.
Qed.

(** A polling loop ends within its time-out and a turn, whatever it polls. *)
Lemma takes_polling {A} timeout e (ask : Eff (option A)) (rest : Eff unit) ca cr :
  takes ask ca → takes rest cr → 0 <= timeout →
  (timeout + 1) * Z.pos pace + ca + cr + 18 * latency < 2 ^ 63 * Z.pos pace →
  takes (polling timeout e ask rest) ((timeout + 1) * Z.pos pace + ca + cr + 18 * latency).
Proof.
  intros [Hca Hask] [Hcr Hrest] Hto Hbig. pose proof latency_range as Hl. split; [nia|]. intros h.
  pose proof (turns_enough timeout Hto) as Ht.
  set (q := Z.pos pace) in *. assert (Hq : 0 < q) by done. unfold polling.
  eapply wp_call; [apply now_us_spec| |done]. intros h1 start (Hh1 & c0 & Hc0 & ->). fold q.
  set (I := λ (k : nat) h', k = O ∧ h' = h1 ∨
    ∃ c, cycles h1 + Z.of_nat k <= c <= cycles h' ∧ cycles h' <= c + 6 * latency + cr ∧ c - c0 < (timeout + 1) * q).
  assert (Hin : ∀ k h', I k h' → cycles h1 <= cycles h' ∧ Z.of_nat k <= (timeout + 1) * q ∧
    cycles h' <= c0 + (timeout + 1) * q + 6 * latency + cr).
  { intros k h' [[-> ->]|(c & Hc & Hc' & Hlt)]; nia. }
  apply (wp_loop _ _ I); [|intros k h' Hk; apply Hin in Hk; lia|by left].
  intros k h2 Hk. pose proof (Hin _ _ Hk) as (Hh2 & _ & Hb2).
  eapply wp_call; [apply Hask| |cbn beta; intros; lia]. cbn beta. intros h3 [a|] Hh3; [apply wp_ret; lia|].
  eapply wp_call; [apply now_us_spec| |done]. intros h4 now (Hh4 & c & Hc & ->). fold q. cbn beta.
  destruct (elapsed q c0 c Hq ltac:(lia)) as [-> _]. destruct (Z.ltb_spec timeout (c / q - c0 / q)) as [Hlt|Hge].
  - apply wp_fail. lia.
  - pose proof (elapsed_cycles q c0 c timeout Hq ltac:(lia)).
    eapply wp_call; [apply Hrest| |cbn beta; intros; lia]. cbn beta. intros h5 _ Hh5. apply wp_ret.
    right. exists c. split_and!; [|lia|lia|lia]. destruct Hk as [[-> ->]|(c' & Hc' & _ & _)]; lia.
Qed.
End time.

(** ** Costs *)
Section costs.
Context {HW : Type} `{Clocked HW}.

(** So many microseconds, and so many accesses to registers. *)
Definition span (us accesses : Z) : Z := us * Z.pos pace + accesses * latency.

Lemma span_pos us accesses : 0 <= us → 0 <= accesses → 0 <= span us accesses.
Proof. pose proof latency_range. unfold span. nia. Qed.

Lemma scaled t : 0 <= t < 2 ^ 62 → (t + 1) * Z.pos pace <= 2 ^ 62 * Z.pos pace.
Proof. intros Ht. apply Z.mul_le_mono_nonneg_r; lia. Qed.
End costs.

(** Costs are sums of spans: comparing them is linear. *)
Ltac span_lia := pose proof latency_range; unfold span in *; change (2 ^ 28) with 268435456 in *; lia.

Create HintDb takes.

(** Through binds, one program after the other. *)
Ltac takes_go :=
  lazymatch goal with
  | |- takes (mbind _ _) _ => eapply takes_bind; [takes_go|intros ?; takes_go|span_lia]
  | |- _ => solve [eauto with takes]
  end.
(** Within [span us accesses], by the costs of the parts. *)
Ltac takes := eapply takes_le; [takes_go|try span_lia].

#[export] Hint Resolve takes_ret takes_fail takes_lift takes_rd takes_wr takes_now : takes.

(** * Pins *)

(** Setting a pin's mode writes that pin's three bits and leaves the register's other pins as they are. *)
Lemma with_mode_bits k mode current : 0 <= k <= 9 → uint 32 current →
  uint 32 (with_mode (k * 3) mode current) ∧
  ∀ i, 0 <= i < 30 → Z.testbit (with_mode (k * 3) mode current) i =
    if i / 3 =? k then Z.testbit (mode_bits mode) (i mod 3) else Z.testbit current i.
Proof.
  intros Hk Hc. assert (Hmb : 0 <= mode_bits mode < 8) by (destruct mode; cbn; lia).
  assert (Hn : uint 32 (bnot 32 (Z.shiftl 7 (k * 3)))).
  { rewrite bnot_sub; [|lia|]; unfold uint, ones; rewrite Z.shiftl_mul_pow2 by lia.
    - assert (0 < 2 ^ (k * 3) <= 2 ^ 27) by (split; [apply Z.pow_pos_nonneg; lia|apply Z.pow_le_mono_r; lia]). lia.
    - assert (0 < 2 ^ (k * 3) <= 2 ^ 27) by (split; [apply Z.pow_pos_nonneg; lia|apply Z.pow_le_mono_r; lia]). lia. }
  split.
  - apply uint_lor; [lia|by apply uint_land; [lia| |apply Hn]|]. unfold uint. rewrite Z.shiftl_mul_pow2 by lia.
    assert (0 < 2 ^ (k * 3) <= 2 ^ 27) by (split; [apply Z.pow_pos_nonneg; lia|apply Z.pow_le_mono_r; lia]). nia.
  - intros i Hi. unfold with_mode. rewrite Z.lor_spec, Z.land_spec, testbit_bnot, !Z.shiftl_spec by lia.
    assert (H7 : Z.testbit 7 (i - k * 3) = (i / 3 =? k)).
    { change 7 with (Z.ones 3). destruct (Z.eqb_spec (i / 3) k).
      - apply Z.ones_spec_low. Z.to_euclidean_division_equations. lia.
      - destruct (Z.lt_ge_cases (i - k * 3) 0); [by apply Z.testbit_neg_r|].
        apply Z.ones_spec_high. Z.to_euclidean_division_equations. lia. }
    rewrite H7. destruct (Z.eqb_spec (i / 3) k) as [<-|Hne]; cbn [negb].
    + rewrite andb_false_r. cbn [orb]. f_equal. Z.to_euclidean_division_equations. lia.
    + rewrite andb_true_r. destruct (Z.lt_ge_cases (i - k * 3) 0); [by rewrite (Z.testbit_neg_r (mode_bits mode)), orb_false_r by lia|].
      rewrite (testbit_high 3 (mode_bits mode)); [by rewrite orb_false_r|done|]. Z.to_euclidean_division_equations. lia.
Qed.

End Mmio.
