(* ===== verification/Usb.v ===== *)
(** USB ([rustypi-core/src/usb/mod.rs]): control requests, the descriptors devices describe themselves
    with, hub port status, and keyboard reports with the layouts that turn keys into characters. *)
From Stdlib Require Import String.
From S2P Require Import Prelude Bytes.
Open Scope Z_scope.
Open Scope list_scope.

Module Usb.

Inductive Speed := Low | Full | High.
Inductive Direction := Out | In.
Inductive EndpointType := Control | Isochronous | Bulk | Interrupt.

#[export] Instance Speed_eq_dec : EqDecision Speed.
Proof. solve_decision. Defined.
#[export] Instance Direction_eq_dec : EqDecision Direction.
Proof. solve_decision. Defined.
#[export] Instance EndpointType_eq_dec : EqDecision EndpointType.
Proof. solve_decision. Defined.

Definition from_attributes (attributes : Z) : EndpointType :=
  let kind := Z.land attributes 3 in
  if kind =? 0 then Control else if kind =? 1 then Isochronous else if kind =? 2 then Bulk else Interrupt.

(** A descriptor's type, its second byte. *)
Module DescriptorType.
Definition DEVICE : Z := 1.
Definition CONFIGURATION : Z := 2.
Definition STRING : Z := 3.
Definition INTERFACE : Z := 4.
Definition ENDPOINT : Z := 5.
Definition HID : Z := 0x21.
Definition HUB : Z := 0x29.
End DescriptorType.

Module Class.
Definition PER_INTERFACE : Z := 0.
Definition HID : Z := 3.
Definition HUB : Z := 9.
Definition VENDOR : Z := 0xFF.

(** What the class is, for people. *)
Definition name (class : Z) : string :=
  match class with
  | 0x00 => "per interface"
  | 0x01 => "audio"
  | 0x02 => "communications"
  | 0x03 => "HID"
  | 0x06 => "imaging"
  | 0x07 => "printer"
  | 0x08 => "mass storage"
  | 0x09 => "hub"
  | 0x0A => "CDC data"
  | 0x0B => "smart card"
  | 0x0E => "video"
  | 0xE0 => "wireless"
  | 0xEF => "miscellaneous"
  | 0xFF => "vendor specific"
  | _ => "other"
  end%string.
End Class.

Definition HID_SUBCLASS_BOOT : Z := 1.
Definition HID_PROTOCOL_KEYBOARD : Z := 1.

(** * Control requests *)

Record SetupPacket := mkSetup { request_type : Z; request : Z; value : Z; index : Z; length_ : Z }.

Definition TYPE_IN : Z := 0x80.
Definition TYPE_CLASS : Z := Z.shiftl 1 5.
Definition TYPE_VENDOR : Z := Z.shiftl 2 5.
Definition TO_INTERFACE : Z := 1.
Definition TO_OTHER : Z := 3.

Definition GET_STATUS : Z := 0.
Definition CLEAR_FEATURE : Z := 1.
Definition SET_FEATURE : Z := 3.
Definition SET_ADDRESS : Z := 5.
Definition GET_DESCRIPTOR : Z := 6.
Definition SET_CONFIGURATION : Z := 9.
Definition SET_IDLE : Z := 0x0A.
Definition SET_PROTOCOL : Z := 0x0B.

Module PortFeature.
Definition ENABLE : Z := 1.
Definition RESET : Z := 4.
Definition POWER : Z := 8.
Definition CONNECTION_CHANGE : Z := 16.
Definition ENABLE_CHANGE : Z := 17.
Definition RESET_CHANGE : Z := 20.
End PortFeature.

Definition direction (s : SetupPacket) : Direction :=
  if negb (Z.land (request_type s) TYPE_IN =? 0) then In else Out.

Definition to_bytes (s : SetupPacket) : list Z :=
  [request_type s; request s] ++ le_bytes 2 (value s) ++ le_bytes 2 (index s) ++ le_bytes 2 (length_ s).

Definition get_descriptor (kind index length : Z) : SetupPacket :=
  mkSetup TYPE_IN GET_DESCRIPTOR (Z.lor (Z.shiftl kind 8) index) 0 length.
Definition set_address (address : Z) : SetupPacket := mkSetup 0 SET_ADDRESS address 0 0.
Definition set_configuration (value : Z) : SetupPacket := mkSetup 0 SET_CONFIGURATION value 0 0.
Definition get_hub_descriptor (length : Z) : SetupPacket :=
  mkSetup (Z.lor TYPE_IN TYPE_CLASS) GET_DESCRIPTOR (Z.shiftl DescriptorType.HUB 8) 0 length.
Definition get_port_status (port : Z) : SetupPacket :=
  mkSetup (Z.lor (Z.lor TYPE_IN TYPE_CLASS) TO_OTHER) GET_STATUS 0 port 4.
Definition set_port_feature (port feature : Z) : SetupPacket :=
  mkSetup (Z.lor TYPE_CLASS TO_OTHER) SET_FEATURE feature port 0.
Definition clear_port_feature (port feature : Z) : SetupPacket :=
  mkSetup (Z.lor TYPE_CLASS TO_OTHER) CLEAR_FEATURE feature port 0.
Definition set_protocol (interface : Z) (boot : bool) : SetupPacket :=
  mkSetup (Z.lor TYPE_CLASS TO_INTERFACE) SET_PROTOCOL (if boot then 0 else 1) interface 0.
Definition set_idle (interface : Z) : SetupPacket :=
  mkSetup (Z.lor TYPE_CLASS TO_INTERFACE) SET_IDLE 0 interface 0.
Definition vendor_request (d : Direction) (request value index length : Z) : SetupPacket :=
  mkSetup (Z.lor (if decide (d = In) then TYPE_IN else 0) TYPE_VENDOR) request value index length.

(** * Descriptors *)

Inductive DescriptorError := Truncated | WrongType (kind : Z).

(** Parsing a descriptor: a value, an error, or ([None]) an index out of range, which panics. *)
Definition Parsed (A : Type) : Type := option (result DescriptorError A).
#[export] Instance Parsed_ret : MRet Parsed := λ A a, Some (Ok a).
#[export] Instance Parsed_bind : MBind Parsed := λ A B k m,
  match m with Some (Ok a) => k a | Some (Err e) => Some (Err e) | None => None end.
Definition refuse {A} (e : DescriptorError) : Parsed A := Some (Err e).
Definition indexed {A} (o : option A) : Parsed A := match o with Some a => mret a | None => None end.

Definition byte (bytes : list Z) (i : nat) : Parsed Z := indexed (bytes !! i).
Definition u16_at (bytes : list Z) (at_ : nat) : Parsed Z :=
  lo ← byte bytes at_; hi ← byte bytes (at_ + 1); mret (le_value [lo; hi]).

(** [bytes] starts with a descriptor of type [kind] at least [min] bytes long. *)
Definition check (bytes : list Z) (kind : Z) (min : nat) : Parsed unit :=
  if ((length bytes <? 2) || (length bytes <? min))%nat then refuse Truncated else
  b0 ← byte bytes 0;
  if b0 <? Z.of_nat min then refuse Truncated else
  b1 ← byte bytes 1;
  if negb (b1 =? kind) then refuse (WrongType b1) else mret tt.

Record DeviceDescriptor := mkDeviceDescriptor {
  class : Z; subclass : Z; protocol : Z; max_packet_size : Z; vendor : Z; product : Z; configurations : Z }.

Definition DEVICE_LENGTH : nat := 18.

(** [DeviceDescriptor::max_packet_size]. *)
Definition parse_max_packet_size (bytes : list Z) : Parsed Z :=
  _ ← check bytes DescriptorType.DEVICE 8; byte bytes 7.

Definition parse_device (bytes : list Z) : Parsed DeviceDescriptor :=
  _ ← check bytes DescriptorType.DEVICE DEVICE_LENGTH;
  class ← byte bytes 4; subclass ← byte bytes 5; protocol ← byte bytes 6; max ← byte bytes 7;
  vendor ← u16_at bytes 8; product ← u16_at bytes 10; configurations ← byte bytes 17;
  mret (mkDeviceDescriptor class subclass protocol max vendor product configurations).

Record Endpoint := mkEndpoint {
  ep_number : Z; ep_direction : Direction; ep_kind : EndpointType; ep_max_packet_size : Z; interval : Z }.

Record Interface := mkInterface {
  number : Z; alternate : Z; if_class : Z; if_subclass : Z; if_protocol : Z; endpoints : list Endpoint }.

Definition is_boot_keyboard (i : Interface) : bool :=
  (if_class i =? Class.HID) && (if_subclass i =? HID_SUBCLASS_BOOT) && (if_protocol i =? HID_PROTOCOL_KEYBOARD).

Definition endpoint (kind : EndpointType) (d : Direction) (i : Interface) : option Endpoint :=
  List.find (λ e, bool_decide (ep_kind e = kind) && bool_decide (ep_direction e = d)) (endpoints i).

Record Configuration := mkConfiguration { cf_value : Z; interfaces : list Interface }.

Definition HEADER : nat := 9.

Definition total_length (bytes : list Z) : Parsed Z :=
  _ ← check bytes DescriptorType.CONFIGURATION HEADER; u16_at bytes 2.

Definition parse_interface (d : list Z) : Parsed Interface :=
  _ ← check d DescriptorType.INTERFACE 9;
  number ← byte d 2; alternate ← byte d 3; class ← byte d 5; subclass ← byte d 6; protocol ← byte d 7;
  mret (mkInterface number alternate class subclass protocol []).

Definition parse_endpoint (d : list Z) : Parsed Endpoint :=
  _ ← check d DescriptorType.ENDPOINT 7;
  address ← byte d 2; attributes ← byte d 3; max ← u16_at d 4; interval ← byte d 6;
  mret (mkEndpoint (Z.land address 0x0F) (if negb (Z.land address 0x80 =? 0) then In else Out)
          (from_attributes attributes) (Z.land max 0x7FF) interval).

(** An endpoint goes to the interface before it; one before any interface is dropped. *)
Definition add_endpoint (e : Endpoint) (l : list Interface) : list Interface :=
  match last l with
  | Some i => removelast l ++
      [mkInterface (number i) (alternate i) (if_class i) (if_subclass i) (if_protocol i) (endpoints i ++ [e])]
  | None => l
  end.

(** The loop of [Configuration::parse], from [at_]. *)
Fixpoint parse_descriptors (fuel : nat) (bytes : list Z) (total at_ : nat) (l : list Interface)
    : Parsed (list Interface) :=
  match fuel with
  | O => None
  | S fuel =>
    if negb (at_ + 2 <=? total)%nat then mret l else
    b ← byte bytes at_;
    let len := Z.to_nat b in
    if ((len <? 2) || (total <? at_ + len))%nat then refuse Truncated else
    d ← indexed (slice at_ (at_ + len) bytes);
    kind ← byte d 1;
    l ← (if kind =? DescriptorType.INTERFACE then i ← parse_interface d; mret (l ++ [i])
         else if kind =? DescriptorType.ENDPOINT then e ← parse_endpoint d; mret (add_endpoint e l)
         else mret l);
    parse_descriptors fuel bytes total (at_ + len) l
  end.

Definition parse_configuration (bytes : list Z) : Parsed Configuration :=
  total ← total_length bytes;
  let total := Z.to_nat total in
  if (length bytes <? total)%nat then refuse Truncated else
  value ← byte bytes 5;
  start ← byte bytes 0;
  l ← parse_descriptors (S total) bytes total (Z.to_nat start) [];
  mret (mkConfiguration value l).

Record HubDescriptor := mkHubDescriptor { ports : Z; power_on_to_good_ms : Z }.

Definition parse_hub (bytes : list Z) : Parsed HubDescriptor :=
  _ ← check bytes DescriptorType.HUB 7;
  ports ← byte bytes 2; power ← byte bytes 5; mret (mkHubDescriptor ports (power * 2)).

(** * Hub ports *)
Definition PortStatus : Type := Z.
Definition from_bytes (bytes : list Z) : PortStatus := le_value bytes.
Definition status_bit (s : PortStatus) (n : Z) : bool := negb (Z.land s (Z.shiftl 1 n) =? 0).
Definition connected (s : PortStatus) : bool := status_bit s 0.
Definition enabled (s : PortStatus) : bool := status_bit s 1.
Definition overcurrent (s : PortStatus) : bool := status_bit s 3.
Definition resetting (s : PortStatus) : bool := status_bit s 4.
Definition powered (s : PortStatus) : bool := status_bit s 8.
Definition port_speed (s : PortStatus) : Speed :=
  if status_bit s 9 then Low else if status_bit s 10 then High else Full.
Definition connection_changed (s : PortStatus) : bool := status_bit s 16.
Definition reset_changed (s : PortStatus) : bool := status_bit s 20.
(** * Keyboards *)
Record KeyboardReport := mkReport { modifiers : Z; keys : list Z }.

Definition CTRL : Z := Z.lor (Z.shiftl 1 0) (Z.shiftl 1 4).
Definition SHIFT : Z := Z.lor (Z.shiftl 1 1) (Z.shiftl 1 5).
Definition RIGHT_ALT : Z := Z.shiftl 1 6.
Definition ROLLOVER : Z := 1.
Definition REPORT_LENGTH : nat := 8.

Definition parse_report (bytes : list Z) : Parsed KeyboardReport :=
  if (length bytes <? REPORT_LENGTH)%nat then refuse Truncated else
  keys ← indexed (slice 2 8 bytes); modifiers ← byte bytes 0; mret (mkReport modifiers keys).

Record Modifiers := mkModifiers { shift : bool; alt_gr : bool; ctrl : bool }.

Definition held (r : KeyboardReport) : Modifiers :=
  mkModifiers (negb (Z.land (modifiers r) SHIFT =? 0)) (negb (Z.land (modifiers r) RIGHT_ALT =? 0))
    (negb (Z.land (modifiers r) CTRL =? 0)).

(** The keys held now that were not in [previous], in order. *)
Definition pressed_since (r previous : KeyboardReport) : list Z :=
  let rollover := bool_decide (ROLLOVER ∈ keys r) in
  List.filter (λ key, negb rollover && (ROLLOVER <? key) && negb (bool_decide (key ∈ keys previous))) (keys r).

(** ** Layouts
    Characters are code points. *)
Inductive Layout := Us | Swedish.

Definition layout_name (l : Layout) : string := match l with Us => "us"%string | Swedish => "sv"%string end.
Definition from_name (name : string) : option Layout :=
  if bool_decide (name = "us"%string) then Some Us
  else if bool_decide (name = "sv"%string) || bool_decide (name = "se"%string) || bool_decide (name = "fi"%string) then Some Swedish
  else None.

Inductive Typed := Char (c : Z) | Dead (accent : Z) | Ctrl (letter : Z).

(** A letter key: usages 0x04 to 0x1D are a to z. *)
Definition letter (usage : Z) (shift : bool) : option Z :=
  if (0x04 <=? usage) && (usage - 0x04 <? 26)
  then let letter := 0x61 + (usage - 0x04) in Some (if shift then letter - 0x20 else letter) else None.

Definition pick (shift : bool) (plain shifted : Z) : option Z := Some (if shift then shifted else plain).

(** The keys of digits are 0x1E to 0x27. *)
Definition digit (usage : Z) (digits shifted : list Z) (shift : bool) : option Z :=
  let i := Z.to_nat (usage - 0x1E) in
  d ← digits !! i; s ← shifted !! i; pick shift d s.

Definition DIGITS : list Z := [0x31; 0x32; 0x33; 0x34; 0x35; 0x36; 0x37; 0x38; 0x39; 0x30].
Definition US_SHIFTED : list Z := [0x21; 0x40; 0x23; 0x24; 0x25; 0x5E; 0x26; 0x2A; 0x28; 0x29].
Definition SWEDISH_SHIFTED : list Z := [0x21; 0x22; 0x23; 0xA4; 0x25; 0x26; 0x2F; 0x28; 0x29; 0x3D].

Definition us (usage : Z) (shift : bool) : option Z :=
  match usage with
  | 0x2D => pick shift 0x2D 0x5F
  | 0x2E => pick shift 0x3D 0x2B
  | 0x2F => pick shift 0x5B 0x7B
  | 0x30 => pick shift 0x5D 0x7D
  | 0x31 => pick shift 0x5C 0x7C
  | 0x32 => pick shift 0x23 0x7E
  | 0x33 => pick shift 0x3B 0x3A
  | 0x34 => pick shift 0x27 0x22
  | 0x35 => pick shift 0x60 0x7E
  | 0x36 => pick shift 0x2C 0x3C
  | 0x37 => pick shift 0x2E 0x3E
  | 0x38 => pick shift 0x2F 0x3F
  | 0x64 => pick shift 0x5C 0x7C
  | _ => if (0x1E <=? usage) && (usage <=? 0x27) then digit usage DIGITS US_SHIFTED shift else letter usage shift
  end.

Definition swedish (usage : Z) (shift : bool) : option Z :=
  match usage with
  | 0x2D => pick shift 0x2B 0x3F
  | 0x2E => pick shift 0xB4 0x60
  | 0x2F => pick shift 0xE5 0xC5
  | 0x30 => pick shift 0xA8 0x5E
  | 0x31 | 0x32 => pick shift 0x27 0x2A
  | 0x33 => pick shift 0xF6 0xD6
  | 0x34 => pick shift 0xE4 0xC4
  | 0x35 => pick shift 0xA7 0xBD
  | 0x36 => pick shift 0x2C 0x3B
  | 0x37 => pick shift 0x2E 0x3A
  | 0x38 => pick shift 0x2D 0x5F
  | 0x64 => pick shift 0x3C 0x3E
  | _ => if (0x1E <=? usage) && (usage <=? 0x27) then digit usage DIGITS SWEDISH_SHIFTED shift else letter usage shift
  end.

Definition swedish_alt_gr (usage : Z) : option Z :=
  match usage with
  | 0x1F => Some 0x40
  | 0x20 => Some 0xA3
  | 0x21 => Some 0x24
  | 0x22 | 0x08 => Some 0x20AC
  | 0x24 => Some 0x7B
  | 0x25 => Some 0x5B
  | 0x26 => Some 0x5D
  | 0x27 => Some 0x7D
  | 0x2D => Some 0x5C
  | 0x30 => Some 0x7E
  | 0x64 => Some 0x7C
  | _ => None
  end.

Definition is_dead (l : Layout) (usage : Z) : bool :=
  match l with Us => false | Swedish => (usage =? 0x2E) || (usage =? 0x30) end.

Definition char (l : Layout) (usage : Z) (m : Modifiers) : option Z :=
  if usage =? 0x28 then Some 0x0A
  else if usage =? 0x2A then Some 0x08
  else if usage =? 0x2B then Some 0x09
  else if usage =? 0x2C then Some 0x20
  else match l with
       | Us => us usage (shift m)
       | Swedish => if alt_gr m then swedish_alt_gr usage else swedish usage (shift m)
       end.

Definition key (l : Layout) (usage : Z) (m : Modifiers) : option Typed :=
  if ctrl m then Ctrl <$> letter usage false else
  c ← char l usage m; Some (if is_dead l usage then Dead c else Char c).

(** * Lemmas *)

Lemma byte_Some bytes i b : bytes !! i = Some b → byte bytes i = mret b.
Proof. unfold byte. by intros ->. Qed.

Lemma byte_lt bytes i : (i < length bytes)%nat → ∃ b, bytes !! i = Some b ∧ byte bytes i = mret b.
Proof. intros [b Hb]%lookup_lt_is_Some_2. exists b. split; [done|by apply byte_Some]. Qed.

Lemma u16_at_lt bytes i : (i + 1 < length bytes)%nat → ∃ v, u16_at bytes i = mret v.
Proof.
  intros Hi. destruct (byte_lt bytes i ltac:(lia)) as (a & _ & Ha). destruct (byte_lt bytes (i + 1) Hi) as (b & _ & Hb).
  unfold u16_at. rewrite Ha, Hb. eexists. reflexivity.
Qed.

(** [check] returns, and accepts only what is long enough. *)
Lemma check_total bytes kind min : ∃ r, check bytes kind min = Some r ∧ (r = Ok tt → (2 ≤ length bytes ∧ min ≤ length bytes)%nat).
Proof.
  unfold check. destruct (Nat.ltb_spec (length bytes) 2), (Nat.ltb_spec (length bytes) min); cbn [orb];
    try by eexists; split; [reflexivity|].
  destruct (byte_lt bytes 0 ltac:(lia)) as (b0 & _ & ->), (byte_lt bytes 1 ltac:(lia)) as (b1 & _ & ->).
  cbn [mbind Parsed_bind mret Parsed_ret]. destruct (_ <? _); [by eexists; split|]. destruct (negb _); by eexists; split.
Qed.

Lemma returns_bind {A B} (m : Parsed A) (k : A → Parsed B) : (∃ r, m = Some r) → (∀ a, m = mret a → ∃ r, k a = Some r) →
  ∃ r, m ≫= k = Some r.
Proof. intros [[a|e] ->] Hk; [by apply (Hk a)|by eexists]. Qed.

Lemma returns_check {B} bytes kind min (k : unit → Parsed B) :
  ((2 ≤ length bytes ∧ min ≤ length bytes)%nat → ∃ r, k tt = Some r) → ∃ r, check bytes kind min ≫= k = Some r.
Proof.
  intros Hk. destruct (check_total bytes kind min) as ([[]|e] & -> & Hl); [|by eexists]. apply Hk, Hl. done.
Qed.

Lemma returns_byte {B} bytes i (k : Z → Parsed B) : (i < length bytes)%nat →
  (∀ b, bytes !! i = Some b → ∃ r, k b = Some r) → ∃ r, byte bytes i ≫= k = Some r.
Proof. intros Hi Hk. destruct (byte_lt bytes i Hi) as (b & Hb & ->). by apply Hk. Qed.

Lemma returns_u16 {B} bytes i (k : Z → Parsed B) : (i + 1 < length bytes)%nat →
  (∀ b, ∃ r, k b = Some r) → ∃ r, u16_at bytes i ≫= k = Some r.
Proof. intros Hi Hk. destruct (u16_at_lt bytes i Hi) as (v & ->). apply Hk. Qed.

Lemma returns_ret {A} (a : A) : ∃ r, (mret a : Parsed A) = Some r.
Proof. by eexists. Qed.

(** Steps through a parser whose indices the length of the input covers. *)
Ltac returns := repeat first
  [ apply returns_ret | apply returns_check; intros [? ?] | apply returns_byte; [lia|intros ? ?] | apply returns_u16; [lia|intros ?] ].
Lemma parse_interface_total d : ∃ r, parse_interface d = Some r.
Proof. unfold parse_interface. returns. Qed.

Lemma parse_endpoint_total d : ∃ r, parse_endpoint d = Some r.
Proof. unfold parse_endpoint. returns. Qed.

Lemma parse_descriptors_total fuel bytes total at_ l : (total ≤ length bytes)%nat → (total - at_ < fuel)%nat →
  ∃ r, parse_descriptors fuel bytes total at_ l = Some r.
Proof.
  intros Hl. revert at_ l. induction fuel as [|fuel IH]; intros at_ l Hf; cbn [parse_descriptors]; [lia|].
  destruct (Nat.leb_spec (at_ + 2) total) as [Hat|]; cbn [negb]; [|apply returns_ret].
  apply returns_byte; [lia|]. intros b Hb. cbv zeta. set (len := Z.to_nat b).
  destruct (Nat.ltb_spec len 2), (Nat.ltb_spec total (at_ + len)); cbn [orb]; try by eexists.
  assert (Hs : slice at_ (at_ + len) bytes = Some (take (at_ + len - at_) (drop at_ bytes))) by (apply slice_Some; split; [lia|done]).
  rewrite Hs. cbn [indexed]. set (d := take _ _). assert (Hd : length d = len) by (unfold d; rewrite length_take, length_drop; lia).
  apply (returns_byte d 1); [lia|]. intros kind _. apply returns_bind; [|intros l' _; apply IH; lia].
  destruct (kind =? _); [apply returns_bind; [apply parse_interface_total|by eexists]|].
  destruct (kind =? _); [apply returns_bind; [apply parse_endpoint_total|by eexists]|by eexists].
Qed.

Lemma total_length_bytes bytes total : total_length bytes = mret total → (9 ≤ length bytes)%nat.
Proof.
  unfold total_length. destruct (check_total bytes DescriptorType.CONFIGURATION HEADER) as ([[]|e] & -> & Hl); [|done].
  intros _. by apply Hl.
Qed.

(** Whatever a device sends, parsing its descriptors and reports returns: a value or an error, and never
    an index out of range; and the loop over a configuration's descriptors ends. *)
Theorem descriptors_never_panic bytes :
  (∃ r, parse_max_packet_size bytes = Some r) ∧ (∃ r, parse_device bytes = Some r) ∧
  (∃ r, total_length bytes = Some r) ∧ (∃ r, parse_configuration bytes = Some r) ∧
  (∃ r, parse_hub bytes = Some r) ∧ (∃ r, parse_report bytes = Some r).
Proof.
  assert (Ht : ∃ r, total_length bytes = Some r).
  { unfold total_length, HEADER. returns. }
  split_and!; [| |done| | |].
  - unfold parse_max_packet_size. returns. destruct (byte_lt bytes 7) as (b & _ & ->); [lia|by eexists].
  - unfold parse_device, DEVICE_LENGTH. returns.
  - unfold parse_configuration. apply returns_bind; [done|]. intros total Htot%total_length_bytes. cbv zeta.
    destruct (Nat.ltb_spec (length bytes) (Z.to_nat total)); [by eexists|].
    apply returns_byte; [lia|]. intros v _. apply returns_byte; [lia|]. intros st _.
    apply returns_bind; [apply parse_descriptors_total; lia|by eexists].
  - unfold parse_hub. returns.
  - unfold parse_report, REPORT_LENGTH. destruct (Nat.ltb_spec (length bytes) 8); [by eexists|].
    assert (Hs : slice 2 8 bytes = Some (take (8 - 2) (drop 2 bytes))) by (apply slice_Some; split; [lia|done]).
    rewrite Hs. cbn [indexed]. apply returns_byte; [lia|]. intros b _. by eexists.
Qed.

(** ** Configurations as devices send them *)

(** Descriptors after the configuration's own: an endpoint or one of another kind, then what may follow
    what the specification gives them. *)
Inductive Part :=
| AnEndpoint (address attributes max interval : Z) (extra : list Z)
| Another (kind : Z) (payload : list Z).

(** An interface's fields, with the count and the name index the code passes over, and its parts. *)
Record Described := mkDescribed {
  d_interface : Interface; d_count : Z; d_name : Z; d_extra : list Z; d_parts : list Part }.

Definition part_bytes (p : Part) : list Z :=
  match p with
  | AnEndpoint address attributes max interval extra =>
      [7 + Z.of_nat (length extra); DescriptorType.ENDPOINT; address; attributes] ++ le_bytes 2 max ++ [interval] ++ extra
  | Another kind payload => [2 + Z.of_nat (length payload); kind] ++ payload
  end.

Definition interface_bytes (d : Described) : list Z :=
  let i := d_interface d in
  [9 + Z.of_nat (length (d_extra d)); DescriptorType.INTERFACE; number i; alternate i; d_count d; if_class i;
   if_subclass i; if_protocol i; d_name d] ++ d_extra d.

Definition described_bytes (d : Described) : list Z := interface_bytes d ++ concat (part_bytes <$> d_parts d).

Definition part_endpoint (p : Part) : option Endpoint :=
  match p with
  | AnEndpoint address attributes max interval _ =>
      Some (mkEndpoint (Z.land address 0x0F) (if negb (Z.land address 0x80 =? 0) then In else Out)
              (from_attributes attributes) (Z.land max 0x7FF) interval)
  | Another _ _ => None
  end.

(** The interface the parts belong to has their endpoints, in order. *)
Definition described (d : Described) : Interface :=
  let i := d_interface d in
  mkInterface (number i) (alternate i) (if_class i) (if_subclass i) (if_protocol i) (omap part_endpoint (d_parts d)).

Definition part_ok (p : Part) : Prop :=
  match p with
  | AnEndpoint _ _ max _ _ => uint 16 max
  | Another kind _ => kind ≠ DescriptorType.INTERFACE ∧ kind ≠ DescriptorType.ENDPOINT
  end.

Lemma check_ok d kind min b rest : d = b :: kind :: rest → (min ≤ length d)%nat → Z.of_nat min <= b → check d kind min = mret tt.
Proof.
  intros -> Hl Hb. unfold check. cbn [length] in *. rewrite !(proj2 (Nat.ltb_ge _ _)) by lia. cbn [orb].
  cbn [byte indexed lookup list_lookup mbind Parsed_bind mret Parsed_ret]. rewrite (proj2 (Z.ltb_ge _ _)) by lia.
  by rewrite Z.eqb_refl.
Qed.

Lemma parse_part_endpoint address attributes max interval extra : uint 16 max →
  parse_endpoint (part_bytes (AnEndpoint address attributes max interval extra)) =
  mret (mkEndpoint (Z.land address 0x0F) (if negb (Z.land address 0x80 =? 0) then In else Out)
          (from_attributes attributes) (Z.land max 0x7FF) interval).
Proof.
  intros Hm. unfold parse_endpoint. erewrite check_ok; [|reflexivity|cbn; lia|lia].
  cbn [part_bytes]. unfold u16_at. cbn [app le_bytes byte indexed lookup list_lookup mbind Parsed_bind mret Parsed_ret Nat.add].
  do 4 f_equal. exact (le_value_le_bytes 2 max Hm).
Qed.

Lemma parse_interface_back d : parse_interface (interface_bytes d) =
  mret (mkInterface (number (d_interface d)) (alternate (d_interface d)) (if_class (d_interface d))
          (if_subclass (d_interface d)) (if_protocol (d_interface d)) []).
Proof. unfold parse_interface. erewrite check_ok; [done|reflexivity|cbn; lia|lia]. Qed.
(** One descriptor, [d], at [at_]: it is parsed, and parsing goes on after it. *)
Lemma parse_descriptors_step fuel pre d rest total l : (2 ≤ length d)%nat → d !! 0%nat = Some (Z.of_nat (length d)) →
  (length pre + length d ≤ total)%nat →
  parse_descriptors (S fuel) (pre ++ d ++ rest) total (length pre) l =
  (kind ← byte d 1;
   l ← (if kind =? DescriptorType.INTERFACE then i ← parse_interface d; mret (l ++ [i])
        else if kind =? DescriptorType.ENDPOINT then e ← parse_endpoint d; mret (add_endpoint e l)
        else mret l);
   parse_descriptors fuel (pre ++ d ++ rest) total (length pre + length d) l).
Proof.
  intros H2 H0 Ht. cbn [parse_descriptors]. rewrite (proj2 (Nat.leb_le _ _)) by lia. cbn [negb].
  assert (Hb : byte (pre ++ d ++ rest) (length pre) = mret (Z.of_nat (length d))).
  { apply byte_Some. rewrite lookup_app_r, Nat.sub_diag by lia. by apply lookup_app_l_Some. }
  rewrite Hb. cbn [mbind Parsed_bind mret Parsed_ret]. rewrite Nat2Z.id, !(proj2 (Nat.ltb_ge _ _)) by lia. cbn [orb].
  assert (Hs : slice (length pre) (length pre + length d) (pre ++ d ++ rest) = Some d) by apply slice_app.
  rewrite Hs. done.
Qed.

Lemma length_part_bytes p : (2 ≤ length (part_bytes p))%nat ∧ part_bytes p !! 0%nat = Some (Z.of_nat (length (part_bytes p))).
Proof. destruct p; cbn [part_bytes app le_bytes length lookup list_lookup]; (split; [lia|f_equal; lia]). Qed.

Lemma length_interface_bytes d : (2 ≤ length (interface_bytes d))%nat ∧
  interface_bytes d !! 0%nat = Some (Z.of_nat (length (interface_bytes d))).
Proof. unfold interface_bytes. cbn [app length lookup list_lookup]. split; [lia|f_equal; lia]. Qed.

(** The parts after an interface add their endpoints to it. *)
Definition with_endpoints (i : Interface) (es : list Endpoint) : Interface :=
  mkInterface (number i) (alternate i) (if_class i) (if_subclass i) (if_protocol i) (endpoints i ++ es).

Lemma add_endpoint_last l i e : add_endpoint e (l ++ [i]) = l ++ [with_endpoints i [e]].
Proof. unfold add_endpoint. by rewrite last_snoc, removelast_last. Qed.

Lemma parse_parts ps pre rest fuel total l i : Forall part_ok ps →
  (length pre + length (concat (part_bytes <$> ps)) ≤ total)%nat →
  parse_descriptors (length ps + fuel) (pre ++ concat (part_bytes <$> ps) ++ rest) total (length pre) (l ++ [i]) =
  parse_descriptors fuel (pre ++ concat (part_bytes <$> ps) ++ rest) total
    (length pre + length (concat (part_bytes <$> ps))) (l ++ [with_endpoints i (omap part_endpoint ps)]).
Proof.
  revert pre i. induction ps as [|p ps IH]; intros pre i Hok Ht.
  { cbn [fmap list_fmap concat length omap list_omap Nat.add app]. rewrite Nat.add_0_r. unfold with_endpoints. rewrite app_nil_r. by destruct i. }
  apply Forall_cons in Hok as [Hp Hok]. cbn [fmap list_fmap concat length Nat.add] in *. rewrite length_app in Ht.
  destruct (length_part_bytes p) as [H2 H0]. rewrite <-app_assoc, parse_descriptors_step by (done || lia).
  assert (Hstep : ∀ i', parse_descriptors (length ps + fuel) (pre ++ part_bytes p ++ concat (part_bytes <$> ps) ++ rest) total
      (length pre + length (part_bytes p)) (l ++ [i']) =
    parse_descriptors fuel (pre ++ part_bytes p ++ concat (part_bytes <$> ps) ++ rest) total
      (length pre + length (part_bytes p ++ concat (part_bytes <$> ps))) (l ++ [with_endpoints i' (omap part_endpoint ps)])).
  { intros i'. rewrite app_assoc, <-length_app, IH by (rewrite ?length_app; done || lia). f_equal. rewrite !length_app. lia. }
  destruct p as [a b m v x|k x].
  - assert (Hk : byte (part_bytes (AnEndpoint a b m v x)) 1 = mret DescriptorType.ENDPOINT) by done.
    rewrite Hk. cbn [mbind Parsed_bind mret Parsed_ret]. rewrite (parse_part_endpoint a b m v x Hp).
    change (DescriptorType.ENDPOINT =? DescriptorType.INTERFACE) with false. rewrite Z.eqb_refl.
    cbn [mbind Parsed_bind mret Parsed_ret]. rewrite add_endpoint_last, Hstep. f_equal. f_equal. f_equal.
    cbn [omap list_omap part_endpoint]. unfold with_endpoints. cbn [number alternate if_class if_subclass if_protocol endpoints].
    by rewrite <-app_assoc.
  - assert (Hk : byte (part_bytes (Another k x)) 1 = mret k) by done. rewrite Hk. cbn [mbind Parsed_bind mret Parsed_ret].
    destruct Hp as [Hn1 Hn2]. rewrite (proj2 (Z.eqb_neq _ _) Hn1), (proj2 (Z.eqb_neq _ _) Hn2).
    cbn [mbind Parsed_bind mret Parsed_ret]. by rewrite Hstep.
Qed.
Definition descriptor_count (ds : list Described) : nat := sum_list_with (λ d, S (length (d_parts d))) ds.

Lemma parse_all ds pre rest fuel total l : Forall (λ d, Forall part_ok (d_parts d)) ds →
  (length pre + length (concat (described_bytes <$> ds)) ≤ total)%nat →
  parse_descriptors (descriptor_count ds + fuel) (pre ++ concat (described_bytes <$> ds) ++ rest) total (length pre) l =
  parse_descriptors fuel (pre ++ concat (described_bytes <$> ds) ++ rest) total
    (length pre + length (concat (described_bytes <$> ds))) (l ++ (described <$> ds)).
Proof.
  revert pre l. induction ds as [|d ds IH]; intros pre l Hok Ht.
  { cbn [fmap list_fmap concat length app descriptor_count sum_list_with Nat.add]. by rewrite Nat.add_0_r, app_nil_r. }
  apply Forall_cons in Hok as [Hd Hok]. unfold descriptor_count. cbn [fmap list_fmap concat sum_list_with] in *. fold (descriptor_count ds).
  assert (Hlen : length (described_bytes d) = (length (interface_bytes d) + length (concat (part_bytes <$> d_parts d)))%nat)
    by apply length_app.
  assert (Hall : pre ++ (described_bytes d ++ concat (described_bytes <$> ds)) ++ rest =
    pre ++ interface_bytes d ++ concat (part_bytes <$> d_parts d) ++ concat (described_bytes <$> ds) ++ rest)
    by (unfold described_bytes at 1; by rewrite <-!app_assoc).
  rewrite !Hall. rewrite !length_app in *. destruct (length_interface_bytes d) as [H2 H0].
  replace (S (length (d_parts d)) + descriptor_count ds + fuel)%nat
    with (S (length (d_parts d) + (descriptor_count ds + fuel))) by lia.
  rewrite parse_descriptors_step by (done || lia).
  assert (Hk : byte (interface_bytes d) 1 = mret DescriptorType.INTERFACE) by done.
  rewrite Hk. cbn [mbind Parsed_bind mret Parsed_ret]. rewrite Z.eqb_refl, parse_interface_back. cbn [mbind Parsed_bind mret Parsed_ret].
  rewrite (app_assoc pre), <-length_app, parse_parts by (done || rewrite length_app; lia).
  rewrite (app_assoc (pre ++ _)), <-(length_app (pre ++ _)).
  rewrite IH by (done || rewrite !length_app; lia). f_equal; [rewrite !length_app; lia|by rewrite <-app_assoc].
Qed.

(** A configuration as a device sends it, with the fields of its own descriptor that the code passes over. *)
Definition config_bytes (value count name attributes power : Z) (ds : list Described) : list Z :=
  [9; DescriptorType.CONFIGURATION] ++ le_bytes 2 (Z.of_nat (9 + length (concat (described_bytes <$> ds)))) ++
  [count; value; name; attributes; power] ++ concat (described_bytes <$> ds).

Lemma descriptor_count_le ds : (descriptor_count ds ≤ length (concat (described_bytes <$> ds)))%nat.
Proof.
  assert (Hp : ∀ ps, (length ps ≤ length (concat (part_bytes <$> ps)))%nat).
  { induction ps as [|p ps IH]; [done|]. cbn [fmap list_fmap concat length]. rewrite length_app.
    destruct (length_part_bytes p). lia. }
  induction ds as [|d ds IH]; [done|]. unfold descriptor_count. cbn [fmap list_fmap concat sum_list_with]. fold (descriptor_count ds).
  unfold described_bytes at 1. rewrite !length_app. destruct (length_interface_bytes d). specialize (Hp (d_parts d)). lia.
Qed.

(** A configuration is parsed into what it says: its value, and its interfaces in order, each with the
    endpoints that follow it, whatever descriptors of other kinds stand between them, however long each
    descriptor is made, and whatever follows the configuration. *)
Theorem configuration_reads_back value count name attributes power ds tail :
  Z.of_nat (9 + length (concat (described_bytes <$> ds))) < 2 ^ 16 → Forall (λ d, Forall part_ok (d_parts d)) ds →
  parse_configuration (config_bytes value count name attributes power ds ++ tail) =
  Some (Ok (mkConfiguration value (described <$> ds))).
Proof.
  intros Hlen Hok. set (body := concat (described_bytes <$> ds)) in *. set (total := (9 + length body)%nat) in *.
  set (all := config_bytes _ _ _ _ _ _ ++ tail).
  set (head := [9; DescriptorType.CONFIGURATION] ++ le_bytes 2 (Z.of_nat total) ++ [count; value; name; attributes; power]).
  assert (Hall : all = head ++ body ++ tail) by (unfold all, config_bytes, head; by rewrite <-!app_assoc).
  assert (Hhead : length head = 9%nat) by done.
  assert (Hck : check all DescriptorType.CONFIGURATION HEADER = mret tt).
  { eapply check_ok; [reflexivity|rewrite Hall, !length_app; unfold HEADER; lia|done]. }
  assert (Htot : total_length all = mret (Z.of_nat total)).
  { unfold total_length. rewrite Hck. cbn [mbind Parsed_bind mret Parsed_ret]. rewrite Hall.
    unfold u16_at, head. cbn [app le_bytes byte indexed lookup list_lookup mbind Parsed_bind mret Parsed_ret Nat.add].
    do 2 f_equal. apply (le_value_le_bytes 2). unfold uint. lia. }
  unfold parse_configuration. rewrite Htot. cbn [mbind Parsed_bind mret Parsed_ret]. rewrite Nat2Z.id.
  rewrite (proj2 (Nat.ltb_ge _ _)) by (rewrite Hall, !length_app; lia).
  assert (H5 : byte all 5 = mret value) by (by rewrite Hall). assert (H0 : byte all 0 = mret 9) by (by rewrite Hall).
  rewrite H5, H0. cbn [mbind Parsed_bind mret Parsed_ret]. change (Z.to_nat 9) with 9%nat.
  pose proof (descriptor_count_le ds) as Hc. fold body in Hc.
  replace (S total) with (descriptor_count ds + S (total - descriptor_count ds))%nat by lia.
  rewrite Hall, <-Hhead, (parse_all ds head tail) by (done || fold body; lia). fold body. cbn [parse_descriptors].
  rewrite (proj2 (Nat.leb_gt _ _)) by lia. done.
Qed.

(** An interface of a keyboard: a HID descriptor between it and its endpoint. *)
Definition keyboard : Described :=
  mkDescribed (mkInterface 0 0 Class.HID 1 1 []) 1 0 [] [Another DescriptorType.HID [1; 1]; AnEndpoint 0x81 3 8 10 []].

Lemma configuration_reads_back_witness :
  parse_configuration (config_bytes 1 1 0 0xA0 50 [keyboard] ++ [0xEE]) = Some (Ok (mkConfiguration 1 [described keyboard])).
Proof.
  apply (configuration_reads_back 1 1 0 0xA0 50 [keyboard] [0xEE]); [vm_compute; reflexivity|].
  repeat constructor; vm_compute; congruence.
Defined.
(** What a device reads from the eight bytes of a control request is the request. *)
Definition setup_of_bytes (b : list Z) : SetupPacket :=
  mkSetup (b !!! 0%nat) (b !!! 1%nat) (le_value (take 2 (drop 2 b))) (le_value (take 2 (drop 4 b))) (le_value (take 2 (drop 6 b))).

Lemma setup_reads_back s : uint 16 (value s) → uint 16 (index s) → uint 16 (length_ s) →
  setup_of_bytes (to_bytes s) = s ∧ length (to_bytes s) = 8%nat.
Proof.
  intros Hv Hi Hl. split; [|done]. destruct s as [t r v i l]. unfold setup_of_bytes, to_bytes.
  cbn [request_type request value index length_] in *. f_equal.
  - exact (le_value_le_bytes 2 v Hv).
  - exact (le_value_le_bytes 2 i Hi).
  - exact (le_value_le_bytes 2 l Hl).
Qed.

(** A key is typed when it is in this report and was not in the last, unless too many are held to tell. *)
Lemma elem_of_pressed_since r previous k :
  k ∈ pressed_since r previous ↔ ROLLOVER ∉ keys r ∧ 1 < k ∧ k ∈ keys r ∧ k ∉ keys previous.
Proof.
  unfold pressed_since. rewrite list_elem_of_In, filter_In, !andb_true_iff, <-list_elem_of_In, !negb_true_iff.
  rewrite !bool_decide_eq_false, Z.ltb_lt. unfold ROLLOVER. tauto.
Qed.

(** A key held over from one report to the next is not typed again. *)
Lemma held_key_types_once r previous : keys r ⊆ keys previous → pressed_since r previous = [].
Proof.
  intros Hs. destruct (pressed_since r previous) as [|k l] eqn:E; [done|]. exfalso.
  assert (Hk : k ∈ pressed_since r previous) by (rewrite E; by left). apply elem_of_pressed_since in Hk as (_ & _ & Hin & Hn). auto.
Qed.
End Usb.
