(* ===== verification/UsbTree.v ===== *)
(** The USB device tree ([rustypi-core/src/usb/tree.rs]): giving each device an address and a configuration,
    walking down through hubs, and following devices as they come and go, over any host controller. *)
From S2P Require Import Prelude Bytes Effect Usb.
Open Scope Z_scope.

Module UsbTree.
Import Effect Usb.

(** * Buses *)
Record Translator := mkTranslator { t_hub : Z; t_port : Z }.

(** Endpoint 0 of a device, as a control transfer needs it. *)
Record Target := mkTarget { tg_address : Z; max_packet : Z; tg_speed : Speed; tg_translator : option Translator }.

(** A host controller. [control] is given the buffer of the data stage and returns it filled, and how many
    bytes came. *)
Class Bus (B E : Type) := {
  bus_control : Target → SetupPacket → list Z → B → B * result E (list Z * nat);
  delay_ms : Z → B → B }.

(** What a controller promises: the buffer keeps its length and still holds bytes, and no more came than fits. *)
Class LawfulBus (B E : Type) `{!Bus B E} := {
  control_spec t s data b b' data' read : bus_control t s data b = (b', Ok (data', read)) →
    length data' = length data ∧ (is_bytes data → is_bytes data') ∧ (read ≤ length data)%nat }.

Definition MAX_DEPTH : nat := 6.
Definition MAX_ADDRESS : Z := 127.
Definition SET_ADDRESS_RECOVERY_MS : Z := 2.
Definition RESET_RECOVERY_MS : Z := 10.
Definition MIN_POWER_UP_MS : Z := 510.
Definition RESET_TIMEOUT_MS : Z := 500.
Definition RESET_POLL_MS : Z := 10.

Inductive Error (E : Type) :=
| BusError (e : E)
| Descriptor (e : DescriptorError)
| OutOfAddresses
| ResetTimedOut
| NotEnabled
| TooDeep.
Arguments BusError {E}.
Arguments Descriptor {E}.
Arguments OutOfAddresses {E}.
Arguments ResetTimedOut {E}.
Arguments NotEnabled {E}.
Arguments TooDeep {E}.

(** * Devices *)
Inductive Device (E : Type) :=
| mkDevice (address : Z) (speed : Speed) (translator : option Translator) (descriptor : DeviceDescriptor)
    (configuration : Configuration) (hub : option (Hub E))
with Hub (E : Type) :=
| mkHub (hub_descriptor : HubDescriptor) (hub_ports : list (Port E))
with Port (E : Type) :=
| Empty
| HasDevice (device : Device E)
| Failed (error : Error E).
Arguments mkDevice {E}.
Arguments mkHub {E}.
Arguments Empty {E}.
Arguments HasDevice {E}.
Arguments Failed {E}.

(** Which addresses are in use, by address: a list of 128. *)
Notation Addresses := (list bool) (only parsing).

Section devices.
Context {E : Type}.
Implicit Types (d : Device E) (p : Port E).

Definition address d : Z := let 'mkDevice a _ _ _ _ _ := d in a.
Definition speed d : Speed := let 'mkDevice _ s _ _ _ _ := d in s.
Definition translator d : option Translator := let 'mkDevice _ _ t _ _ _ := d in t.
Definition descriptor d : DeviceDescriptor := let 'mkDevice _ _ _ x _ _ := d in x.
Definition configuration d : Configuration := let 'mkDevice _ _ _ _ c _ := d in c.
Definition hub d : option (Hub E) := let 'mkDevice _ _ _ _ _ h := d in h.
Definition hub_ports (h : Hub E) : list (Port E) := let 'mkHub _ ps := h in ps.
Definition ports_of d : list (Port E) := match hub d with Some h => hub_ports h | None => [] end.

Definition target d : Target := mkTarget (address d) (max_packet_size (descriptor d)) (speed d) (translator d).

Definition device_class d : Z :=
  if class (descriptor d) =? Class.PER_INTERFACE
  then match interfaces (configuration d) with i :: _ => if_class i | [] => Class.PER_INTERFACE end
  else class (descriptor d).

Definition port_device p : option (Device E) := match p with HasDevice d => Some d | _ => None end.

(** [walk_into]: this device and everything behind it, depth first, each with its depth. *)
Fixpoint walk_into (depth : nat) d : list (nat * Device E) :=
  (depth, d) ::
  match d with
  | mkDevice _ _ _ _ _ (Some (mkHub _ ports)) =>
      flat_map (λ p, match p with HasDevice c => walk_into (S depth) c | _ => [] end) ports
  | mkDevice _ _ _ _ _ None => []
  end.
Definition walk d : list (nat * Device E) := walk_into 0 d.

(** * Addresses *)

Definition new_addresses : Addresses := replicate (Z.to_nat MAX_ADDRESS + 1) false.

(** The lowest free address, which is then in use; [None] inside is an index out of range. *)
Definition take_address (a : Addresses) : option (Z * Addresses) :=
  match List.find (λ n, negb (default true (a !! n))) (seq 1 (Z.to_nat MAX_ADDRESS)) with
  | Some n => Some (Z.of_nat n, <[n := true]> a)
  | None => None
  end.

(** [used[address] = value], which panics outside. *)
Definition set_used (address : Z) (value : bool) (a : Addresses) : option Addresses :=
  if (Z.to_nat address <? length a)%nat then Some (<[Z.to_nat address := value]> a) else None.

Fixpoint free_all (addresses : list Z) (a : Addresses) : option Addresses :=
  match addresses with
  | [] => Some a
  | x :: xs => a ← set_used x false a; free_all xs a
  end.
Definition free_device (a : Addresses) d : option Addresses :=
  free_all ((λ '(_, d), address d) <$> walk d) a.
End devices.

Record Tree (E : Type) := mkTree { tree_root : Device E; addresses : Addresses }.
Arguments mkTree {E}.
Arguments tree_root {E}.
Arguments addresses {E}.

Inductive Change := Added (address : Z) | Removed (address : Z).

(** * The enumerator *)
Section enumerator.
Context `{Bus B E}.

Record Enumerator := mkEnumerator { bus : B; used : Addresses }.
Definition with_used (a : Addresses) (s : Enumerator) : Enumerator := mkEnumerator (bus s) a.

Local Notation M := (Eff Enumerator (Error E)).

Definition control (t : Target) (s : SetupPacket) (data : list Z) : M (list Z * nat) := λ st,
  match bus_control t s data (bus st) with
  | (b, Ok r) => Ret (mkEnumerator b (used st)) r
  | (b, Err e) => Fail (mkEnumerator b (used st)) (BusError e)
  end.

Definition delay (ms : Z) : M unit := modify (λ s, mkEnumerator (delay_ms ms (bus s)) (used s)).

(** Parsing the first [read] bytes of a buffer. *)
Definition parsed {A} (parse : list Z → Parsed A) (data : list Z) (read : nat) : M A :=
  bytes ← unwrap (slice 0 read data);
  r ← unwrap (parse bytes);
  match r with Ok a => mret a | Err e => fail (Descriptor e) end.

Definition port_status (hub : Target) (port : Z) : M PortStatus :=
  '(bytes, _) ← control hub (get_port_status port) (replicate 4 0);
  mret (from_bytes bytes).

(** The loop of [reset_port]: the hub is asked every 10 ms, until it is done or time is up. *)
Fixpoint await_reset (fuel : nat) (hub : Target) (port waited : Z) : M PortStatus :=
  match fuel with
  | O => panic
  | S fuel =>
    _ ← delay RESET_POLL_MS;
    let waited := waited + RESET_POLL_MS in
    status ← port_status hub port;
    if reset_changed status || (negb (resetting status) && enabled status) then mret status
    else if RESET_TIMEOUT_MS <=? waited then fail ResetTimedOut
    else await_reset fuel hub port waited
  end.

Definition reset_port (hub : Target) (port : Z) : M Speed :=
  _ ← control hub (set_port_feature port PortFeature.RESET) [];
  status ← await_reset 50 hub port 0;
  _ ← control hub (clear_port_feature port PortFeature.RESET_CHANGE) [];
  _ ← control hub (clear_port_feature port PortFeature.CONNECTION_CHANGE) [];
  _ ← delay RESET_RECOVERY_MS;
  if negb (enabled status) then fail NotEnabled else mret (port_speed status).

(** Which translator a device of speed [s] on port [port] of [hub] is reached through. *)
Definition translator_for (hub : Target) (port : Z) (s : Speed) : option Translator :=
  match tg_speed hub, s with
  | High, (Low | Full) => Some (mkTranslator (tg_address hub) port)
  | High, High => None
  | _, _ => tg_translator hub
  end.

Section rec.
(** [Enumerator::device], for the devices behind a hub. *)
Variable device : Speed → option Translator → nat → M (Device E).

Definition port (hub : Target) (n : Z) (depth : nat) : M (Port E) :=
  r ← catch (port_status hub n);
  match r with
  | Err error => mret (Failed error)
  | Ok status =>
    if negb (connected status) then mret Empty else
    r ← catch (s ← reset_port hub n;
               if (MAX_DEPTH <=? depth + 1)%nat then fail TooDeep
               else device s (translator_for hub n s) (depth + 1));
    match r with
    | Ok d => mret (HasDevice d)
    | Err error =>
      _ ← catch (control hub (clear_port_feature n PortFeature.ENABLE) []);
      mret (Failed error)
    end
  end.

Fixpoint power_ports (hub : Target) (ns : list Z) : M unit :=
  match ns with
  | [] => mret tt
  | n :: ns => _ ← control hub (set_port_feature n PortFeature.POWER) []; power_ports hub ns
  end.

Fixpoint each_port (hub : Target) (depth : nat) (ns : list Z) : M (list (Port E)) :=
  match ns with
  | [] => mret []
  | n :: ns => p ← port hub n depth; ps ← each_port hub depth ns; mret (p :: ps)
  end.

Definition hub_of (t : Target) (depth : nat) : M (Hub E) :=
  '(bytes, read) ← control t (get_hub_descriptor 9) (replicate 9 0);
  descriptor ← parsed parse_hub bytes read;
  let ns := seqZ 1 (ports descriptor) in
  _ ← power_ports t ns;
  _ ← delay (Z.max (power_on_to_good_ms descriptor) MIN_POWER_UP_MS);
  ps ← each_port t depth ns;
  mret (mkHub descriptor ps).

Definition addressed (default : Target) (address : Z) (depth : nat) : M (Device E) :=
  _ ← control default (set_address address) [];
  _ ← delay SET_ADDRESS_RECOVERY_MS;
  let t := mkTarget address (max_packet default) (tg_speed default) (tg_translator default) in
  '(bytes, read) ← control t (get_descriptor DescriptorType.DEVICE 0 (Z.of_nat DEVICE_LENGTH)) (replicate DEVICE_LENGTH 0);
  descriptor ← parsed parse_device bytes read;
  '(head, read) ← control t (get_descriptor DescriptorType.CONFIGURATION 0 9) (replicate 9 0);
  total ← parsed total_length head read;
  '(whole, read) ← control t (get_descriptor DescriptorType.CONFIGURATION 0 total) (replicate (Z.to_nat total) 0);
  configuration ← parsed parse_configuration whole read;
  _ ← control t (set_configuration (cf_value configuration)) [];
  let is_hub := (class descriptor =? Class.HUB) || existsb (λ i, if_class i =? Class.HUB) (interfaces configuration) in
  h ← (if is_hub then h ← hub_of t depth; mret (Some h) else mret None);
  mret (mkDevice address (tg_speed default) (tg_translator default) descriptor configuration h).

(** The buffer has [DEVICE_LENGTH] bytes; the first transfer is given 8 of them. *)
Definition device_body (s : Speed) (tr : option Translator) (depth : nat) : M (Device E) :=
  let default := mkTarget 0 8 s tr in
  '(bytes, read) ← control default (get_descriptor DescriptorType.DEVICE 0 8) (replicate 8 0);
  max ← parsed parse_max_packet_size (bytes ++ replicate (DEVICE_LENGTH - 8) 0) read;
  st ← get;
  match take_address (used st) with
  | None => fail OutOfAddresses
  | Some (address, a) =>
    _ ← modify (with_used a);
    r ← catch (addressed (mkTarget 0 max s tr) address depth);
    match r with
    | Ok d => mret d
    | Err e => st ← get; a ← unwrap (set_used address false (used st)); _ ← modify (with_used a); fail e
    end
  end.
End rec.

(** [Enumerator::device]; hubs are at most [MAX_DEPTH] deep, which bounds the recursion. *)
Fixpoint device_fuel (fuel : nat) (s : Speed) (tr : option Translator) (depth : nat) : M (Device E) :=
  match fuel with
  | O => panic
  | S fuel => device_body (device_fuel fuel) s tr depth
  end.
Definition device (s : Speed) (tr : option Translator) (depth : nat) : M (Device E) := device_fuel MAX_DEPTH s tr depth.

Definition enumerate (b : B) (s : Speed) : outcome Enumerator (Error E) (Tree E) :=
  match device s None 0 (mkEnumerator b new_addresses) with
  | Ret st root => Ret st (mkTree root (used st))
  | Fail st e => Fail st e
  | Panic => Panic
  end.

Section poll.
(** [poll_hub], for the hubs on a hub's ports. *)
Variable poll : Device E → nat → M (Device E * list Change).
Variables (t : Target) (depth : nat).

(** A port of hub [t] whose connection changed: what was there is forgotten, what is there now enumerated. *)
Definition replace_port (n : Z) (p : Port E) (status : PortStatus) : M (Port E * list Change) :=
  _ ← catch (control t (clear_port_feature n PortFeature.CONNECTION_CHANGE) []);
  gone ← match p with
         | HasDevice gone =>
             st ← get; a ← unwrap (free_device (used st) gone); _ ← modify (with_used a);
             mret [Removed (address gone)]
         | _ => mret []
         end;
  if connected status then
    p ← port device t n depth;
    mret (p, gone ++ match p with HasDevice added => [Added (address added)] | _ => [] end)
  else mret (Empty, gone).

(** The loop over a hub's ports, from port [n]: the ports as they are afterwards, and what changed. *)
Fixpoint poll_ports (n : Z) (ps : list (Port E)) : M (list (Port E) * list Change) :=
  match ps with
  | [] => mret ([], [])
  | p :: ps =>
    r ← catch (port_status t n);
    '(p, changes) ←
      match r with
      | Err _ => mret (p, [])
      | Ok status =>
        if negb (connection_changed status) then
          match p with
          | HasDevice child => '(child, changes) ← poll child (depth + 1); mret (HasDevice child, changes)
          | _ => mret (p, [])
          end
        else replace_port n p status
      end;
    '(ps, more) ← poll_ports (wrap 8 (n + 1)) ps;
    mret (p :: ps, changes ++ more)
  end.
End poll.

(** The device as it is afterwards, and what changed. Nothing it meets is an error. *)
Fixpoint poll_hub (d : Device E) (depth : nat) : M (Device E * list Change) :=
  match d with
  | mkDevice a s tr x c None => mret (d, [])
  | mkDevice a s tr x c (Some (mkHub hd ps)) =>
    '(ps, changes) ← poll_ports poll_hub (target d) depth 1 ps;
    mret (mkDevice a s tr x c (Some (mkHub hd ps)), changes)
  end.

(** [Tree::poll_changes]. *)
Definition poll_changes (b : B) (t : Tree E) : outcome Enumerator (Error E) (Tree E * list Change) :=
  match poll_hub (tree_root t) 0 (mkEnumerator b (addresses t)) with
  | Ret st (root, changes) => Ret st (mkTree root (used st), changes)
  | Fail st e => Fail st e
  | Panic => Panic
  end.

(** [Tree::device]. *)
Definition find_device (t : Tree E) (a : Z) : option (Device E) :=
  List.find (λ d, address d =? a) (snd <$> walk (tree_root t)).
End enumerator.
(** * Addresses in a tree *)
Section trees.
Context {E : Type}.
Implicit Types (d c : Device E) (p : Port E).

(** Induction on devices, with the hypothesis for the devices on a hub's ports. *)
Lemma device_induction (P : Device E → Prop) :
  (∀ d, (∀ n c, ports_of d !! n = Some (HasDevice c) → P c) → P d) → ∀ d, P d.
Proof.
  intros Hstep. fix IH 1. intros [a s t x c [[hd ps]|]]; apply Hstep; cbn [ports_of hub hub_ports]; [|discriminate].
  induction ps as [|p ps IHps]; intros [|n] c0; cbn [lookup list_lookup]; [discriminate|discriminate| |apply IHps].
  destruct p as [|c'|e]; intros Hc; [discriminate| |discriminate]. injection Hc as <-. apply IH.
Qed.

Definition port_addrs (addrs : Device E → list Z) p : list Z := match p with HasDevice c => addrs c | _ => [] end.

(** The addresses of a device and of everything behind it. *)
Fixpoint addrs d : list Z :=
  address d ::
  match d with
  | mkDevice _ _ _ _ _ (Some (mkHub _ ports)) => flat_map (λ p, match p with HasDevice c => addrs c | _ => [] end) ports
  | mkDevice _ _ _ _ _ None => []
  end.

Lemma addrs_ports d : addrs d = address d :: flat_map (port_addrs addrs) (ports_of d).
Proof. by destruct d as [a s t x c [[hd ps]|]]. Qed.

Lemma walk_ports n d : walk_into n d =
  (n, d) :: flat_map (λ p, match p with HasDevice c => walk_into (S n) c | _ => [] end) (ports_of d).
Proof. by destruct d as [a s t x c [[hd ps]|]]. Qed.

Lemma flat_map_ports {A} (f g : Device E → list A) ps : (∀ n c, ps !! n = Some (HasDevice c) → f c = g c) →
  flat_map (λ p, match p with HasDevice c => f c | _ => [] end) ps = flat_map (λ p, match p with HasDevice c => g c | _ => [] end) ps.
Proof.
  induction ps as [|p ps IH]; intros Hfg; [done|]. cbn [flat_map]. rewrite IH by (intros n c Hc; by apply (Hfg (S n))).
  f_equal. destruct p as [|c|e]; [done| |done]. by apply (Hfg 0%nat).
Qed.

Lemma addrs_walk d : ∀ n, (λ '(_, d), address d) <$> walk_into n d = addrs d.
Proof.
  induction d as [d IH] using device_induction. intros n. rewrite walk_ports, addrs_ports. cbn [fmap list_fmap]. f_equal.
  transitivity (flat_map (λ p, match p with HasDevice c => (λ '(_, d), address d) <$> walk_into (S n) c | _ => [] end) (ports_of d)).
  - clear IH. induction (ports_of d) as [|p ps IHps]; [done|]. cbn [flat_map]. rewrite fmap_app, IHps. by destruct p.
  - apply flat_map_ports. intros k c Hk. by apply (IH k).
Qed.

(** [a] marks exactly the addresses [l], which are distinct and valid. *)
Record accounts (a : Addresses) (l : list Z) : Prop := {
  ac_length : length a = 128%nat;
  ac_NoDup : NoDup l;
  ac_range : Forall (λ x, 1 <= x <= MAX_ADDRESS) l;
  ac_used n : (n < 128)%nat → a !! n = Some (bool_decide (Z.of_nat n ∈ l)) }.

Lemma accounts_perm a l l' : l ≡ₚ l' → accounts a l → accounts a l'.
Proof.
  intros Hp [Hl Hn Hr Hu]. constructor; [done|by rewrite <-Hp|by rewrite <-Hp|].
  intros n Hlt. rewrite Hu by done. f_equal. apply bool_decide_ext. by rewrite Hp.
Qed.

Lemma accounts_new : accounts new_addresses [].
Proof.
  constructor; [done|constructor|constructor|]. intros n Hn.
  rewrite bool_decide_false by apply not_elem_of_nil. apply lookup_replicate_2. unfold MAX_ADDRESS. lia.
Qed.

(** Taking an address takes the lowest free one, unless all 127 are in use. *)
Lemma take_address_spec a l : accounts a l →
  match take_address a with
  | Some (x, a') => accounts a' (x :: l)
  | None => ∀ x, 1 <= x <= MAX_ADDRESS → x ∈ l
  end.
Proof.
  intros [Hl Hn Hr Hu]. unfold take_address. destruct (List.find _ _) as [n|] eqn:Ef.
  - apply List.find_some in Ef as [Hin Hfree]. apply in_seq in Hin. unfold MAX_ADDRESS in *.
    rewrite Hu in Hfree by lia. cbn [default] in Hfree. apply negb_true_iff, bool_decide_eq_false in Hfree.
    constructor; [by rewrite length_insert|by constructor|constructor; [unfold MAX_ADDRESS; lia|done]|].
    intros m Hm. destruct (decide (m = n)) as [->|Hne].
    + rewrite list_lookup_insert_eq by lia. by rewrite bool_decide_true by left.
    + rewrite list_lookup_insert_ne, Hu by done. f_equal. apply bool_decide_ext. rewrite elem_of_cons. split; [auto|].
      intros [?|?]; [lia|done].
  - intros x Hx. unfold MAX_ADDRESS in *. pose proof (List.find_none _ _ Ef (Z.to_nat x)) as Hnone. rewrite in_seq in Hnone.
    specialize (Hnone ltac:(lia)). rewrite Hu in Hnone by lia. cbn [default] in Hnone.
    apply negb_false_iff, bool_decide_eq_true in Hnone. by rewrite Z2Nat.id in Hnone by lia.
Qed.

Lemma set_used_spec a x l : accounts a (x :: l) → ∃ a', set_used x false a = Some a' ∧ accounts a' l.
Proof.
  intros [Hl Hn Hr Hu]. apply Forall_cons in Hr as [Hx Hr]. apply NoDup_cons in Hn as [Hnx Hn]. unfold MAX_ADDRESS in Hx.
  unfold set_used. rewrite Hl, (proj2 (Nat.ltb_lt _ _)) by lia. eexists. split; [done|].
  constructor; [by rewrite length_insert|done|done|]. intros n Hlt. destruct (decide (n = Z.to_nat x)) as [->|Hne].
  - rewrite list_lookup_insert_eq by lia. rewrite Z2Nat.id by lia. by rewrite bool_decide_false.
  - rewrite list_lookup_insert_ne, Hu by done. f_equal. apply bool_decide_ext. rewrite elem_of_cons. split; [|auto].
    intros [?|?]; [lia|done].
Qed.

Lemma free_addresses_spec xs a l : accounts a (xs ++ l) → ∃ a', free_all xs a = Some a' ∧ accounts a' l.
Proof.
  revert a. induction xs as [|x xs IH]; intros a Ha; cbn [free_all app] in *; [by exists a|].
  destruct (set_used_spec a x (xs ++ l) Ha) as (a' & -> & Ha'). cbn [mbind option_bind]. by apply IH.
Qed.

(** * Trees as they should be *)

(** [depth] hubs down, a device is not too deep, and what is on its ports is reached as it should be. *)
Inductive well_formed : nat → Device E → Prop :=
| well_formed_intro depth d : (depth < MAX_DEPTH)%nat → (length (ports_of d) ≤ 255)%nat →
    (∀ n c, ports_of d !! n = Some (HasDevice c) →
       translator c = translator_for (target d) (Z.of_nat n + 1) (speed c) ∧ well_formed (S depth) c) →
    well_formed depth d.

Lemma well_formed_depth d : ∀ n, well_formed n d → Forall (λ '(k, _), (k < MAX_DEPTH)%nat) (walk_into n d).
Proof.
  induction d as [d IH] using device_induction. intros n Hw. inversion Hw as [? ? Hn Hl Hp]; subst. rewrite walk_ports.
  constructor; [done|]. apply Forall_forall. intros [k c] Hin%list_elem_of_In%in_flat_map. destruct Hin as (p & Hp' & Hin).
  apply list_elem_of_In, list_elem_of_lookup in Hp' as [i Hi]. destruct p as [|c'|e]; [done| |done].
  destruct (Hp i c' Hi) as [_ Hwc]. specialize (IH i c' Hi (S n) Hwc). rewrite Forall_forall in IH.
  apply (IH (k, c)). by apply list_elem_of_In.
Qed.
End trees.
(** * The enumerator *)
Section specs.
Context `{LawfulBus B E}.
Implicit Types (st : Enumerator (B:=B)) (d c : Device E) (p : Port E) (l : list Z).
Local Notation M := (Eff (Enumerator (B:=B)) (Error E)).

(** ** Transfers leave the addresses alone *)
Definition kept st : Enumerator (B:=B) → Prop := λ st', used st' = used st.

Lemma control_spec_wp t s data st :
  wp (control t s data : M _) st
    (λ st' '(data', read), kept st st' ∧ length data' = length data ∧ (is_bytes data → is_bytes data') ∧ (read ≤ length data)%nat)
    (λ st' _, kept st st').
Proof.
  unfold wp, control. destruct (bus_control t s data (bus st)) as [b [[data' read]|e]] eqn:Eb; [|done].
  destruct (control_spec _ _ _ _ _ _ _ Eb) as (? & ? & ?). done.
Qed.

(** A transfer whose outcome does not matter to what follows. *)
Lemma control_bind {A} t s data (k : list Z * nat → M A) st Q R :
  (∀ st' data' read, kept st st' → length data' = length data → (is_bytes data → is_bytes data') → (read ≤ length data)%nat → wp (k (data', read)) st' Q R) →
  (∀ st' e, kept st st' → R st' e) → wp (control t s data ≫= k) st Q R.
Proof.
  intros Hk HR. eapply wp_call; [apply control_spec_wp| |].
  - intros st' [data' read] (Hs & Hl & Hb & Hr). by apply Hk.
  - intros st' e Hs. by apply HR.
Qed.

Lemma delay_bind {A} ms (k : unit → M A) st Q R :
  (∀ st', kept st st' → wp (k tt) st' Q R) → wp (delay ms ≫= k) st Q R.
Proof. intros Hk. unfold delay. wp_step. by apply Hk. Qed.

Lemma parsed_bind {A C} (parse : list Z → Parsed A) data read (k : A → M C) st Q R :
  (∀ b, ∃ r, parse b = Some r) → (read ≤ length data)%nat →
  (∀ a, parse (take read data) = Some (Ok a) → wp (k a) st Q R) → (∀ e, R st e) → wp (parsed parse data read ≫= k) st Q R.
Proof.
  intros Ht Hr Hk HR. apply wp_bind. unfold parsed. apply wp_bind. eapply wp_unwrap.
  { apply slice_Some. split; [split; [lia|exact Hr]|reflexivity]. }
  rewrite drop_0, Nat.sub_0_r. destruct (Ht (take read data)) as [r Hr']. apply wp_bind. eapply wp_unwrap; [exact Hr'|].
  destruct r as [a|e]; wp_step; auto.
Qed.

Ltac keep := unfold kept in *; congruence.

Lemma port_status_spec h n st : wp (port_status h n : M _) st (λ st' _, kept st st') (λ st' _, kept st st').
Proof. unfold port_status. apply control_bind; [|done]. intros. by wp_step. Qed.

Lemma kept_through st st' st'' : kept st st' → kept st' st'' → kept st st''.
Proof. unfold kept. congruence. Qed.

(** The wait for a reset ends: the hub is done, or 500 ms have passed. *)
Lemma await_reset_spec fuel h n waited st : RESET_TIMEOUT_MS <= waited + RESET_POLL_MS * Z.of_nat fuel → (0 < fuel)%nat →
  wp (await_reset fuel h n waited : M _) st (λ st' _, kept st st') (λ st' _, kept st st').
Proof.
  revert waited st. induction fuel as [|fuel IH]; intros waited st Hw Hf; [lia|]. cbn [await_reset].
  apply delay_bind. intros st1 Hk1. cbv zeta. eapply wp_call; [apply port_status_spec| |].
  - intros st2 status Hk2. destruct (_ || _); [wp_step; by eapply kept_through|].
    destruct (Z.leb_spec RESET_TIMEOUT_MS (waited + RESET_POLL_MS)); [wp_step; by eapply kept_through|].
    unfold RESET_POLL_MS, RESET_TIMEOUT_MS in *. eapply wp_mono; [apply IH; lia| |];
      intros; keep.
  - intros st2 e Hk2. by eapply kept_through.
Qed.

Lemma reset_port_spec h n st : wp (reset_port h n : M _) st (λ st' _, kept st st') (λ st' _, kept st st').
Proof.
  unfold reset_port. apply control_bind; [|done]. intros st1 ? ? Hk1 _ _ _.
  eapply wp_call; [apply await_reset_spec; unfold RESET_POLL_MS, RESET_TIMEOUT_MS; lia| |].
  2: { intros st2 e Hk2. by eapply kept_through. }
  intros st2 status Hk2. apply control_bind; [|intros; keep]. intros st3 ? ? Hk3 _ _ _.
  apply control_bind; [|intros; keep]. intros st4 ? ? Hk4 _ _ _. apply delay_bind. intros st5 Hk5.
  destruct (negb _); wp_step; keep.
Qed.

Lemma power_ports_spec h ns st : wp (power_ports h ns : M _) st (λ st' _, kept st st') (λ st' _, kept st st').
Proof.
  revert st. induction ns as [|n ns IH]; intros st; cbn [power_ports]; [by wp_step|].
  apply control_bind; [|done]. intros st1 ? ? Hk _ _ _. eapply wp_mono; [apply IH| |]; intros; keep.
Qed.

Lemma parse_hub_ports bytes h : is_bytes bytes → parse_hub bytes = Some (Ok h) → 0 <= ports h < 256.
Proof.
  intros Hb. unfold parse_hub. destruct (check bytes DescriptorType.HUB 7) as [[[]|e]|]; cbn [mbind Parsed_bind]; [|done|done].
  unfold byte. destruct (bytes !! 2%nat) as [x|] eqn:E2; cbn; [|done]. destruct (bytes !! 5%nat); cbn; [|done].
  intros [= <-]. exact (is_bytes_lookup _ _ _ Hb E2).
Qed.

(** ** Enumerating *)

Definition good_port (h : Target) (depth : nat) (n : Z) p : Prop :=
  ∀ c, p = HasDevice c → translator c = translator_for h n (speed c) ∧ well_formed (S depth) c.

(** What [device] does, given the addresses in use. *)
Definition device_spec (dev : Speed → option Translator → nat → M (Device E)) (depth : nat) : Prop :=
  ∀ s tr st l, accounts (used st) l →
    wp (dev s tr depth) st
      (λ st' d, accounts (used st') (addrs d ++ l) ∧ well_formed depth d ∧ speed d = s ∧ translator d = tr)
      (λ st' _, accounts (used st') l).

Section rec.
Context (dev : Speed → option Translator → nat → M (Device E)) (depth : nat).
Context (Hdev : (S depth < MAX_DEPTH)%nat → device_spec dev (S depth)).

(** A port whose device could not be enumerated is disabled and holds nothing. *)
Lemma fail_port h n st l (e : Error E) : accounts (used st) l →
  wp (_ ← catch (control h (clear_port_feature n PortFeature.ENABLE) []); mret (Failed e) : M (Port E)) st
    (λ st' p, accounts (used st') (port_addrs addrs p ++ l) ∧ good_port h depth n p) (λ _ _, False).
Proof.
  intros Ha. apply wp_bind, wp_catch. eapply wp_mono; [apply control_spec_wp| |].
  - intros st' [] (Hk & _). wp_step. rewrite Hk. by split; [|intros c ?].
  - intros st' e' Hk. wp_step. rewrite Hk. by split; [|intros c ?].
Qed.

Lemma port_spec h n st l : accounts (used st) l →
  wp (port dev h n depth) st (λ st' p, accounts (used st') (port_addrs addrs p ++ l) ∧ good_port h depth n p) (λ _ _, False).
Proof.
  intros Ha. unfold port. apply wp_bind, wp_catch. eapply wp_mono; [apply port_status_spec| |].
  2: { intros st1 e Hk. wp_step. rewrite Hk. by split; [|intros c ?]. }
  intros st1 status Hk1. rewrite <-Hk1 in Ha. destruct (negb (connected status)); [wp_step; by split; [|intros c ?]|].
  apply wp_bind, wp_catch.
  eapply wp_call; [apply reset_port_spec| |]; [|intros st2 e Hk2; apply fail_port; by rewrite Hk2].
  intros st2 s Hk2. rewrite <-Hk2 in Ha.
  destruct (Nat.leb_spec MAX_DEPTH (depth + 1)); [by wp_step; apply fail_port|].
  rewrite Nat.add_1_r. eapply wp_mono; [apply (Hdev ltac:(lia) s (translator_for h n s) st2 l Ha)| |].
  - intros st3 d (Had & Hw & Hs & Ht). wp_step. split; [done|]. intros c [= <-]. by rewrite Hs.
  - intros st3 e Hal. by apply fail_port.
Qed.

Lemma each_port_spec h ns st l : accounts (used st) l →
  wp (each_port dev h depth ns) st
    (λ st' ps, accounts (used st') (flat_map (port_addrs addrs) ps ++ l) ∧ Forall2 (good_port h depth) ns ps) (λ _ _, False).
Proof.
  revert st l. induction ns as [|n ns IH]; intros st l Ha; cbn [each_port]; [by wp_step|].
  eapply wp_call; [by apply port_spec| |done]. intros st1 p [Ha1 Hg]. eapply wp_call; [by apply IH| |done].
  intros st2 ps [Ha2 Hps]. wp_step. split; [|by constructor]. cbn [flat_map]. eapply accounts_perm; [|exact Ha2].
  rewrite <-app_assoc. apply Permutation_app_swap_app.
Qed.

Lemma hub_of_spec h st l : accounts (used st) l →
  wp (hub_of dev h depth) st
    (λ st' x, accounts (used st') (flat_map (port_addrs addrs) (hub_ports x) ++ l) ∧ (length (hub_ports x) ≤ 255)%nat ∧
       ∀ n c, hub_ports x !! n = Some (HasDevice c) →
         translator c = translator_for h (Z.of_nat n + 1) (speed c) ∧ well_formed (S depth) c)
    (λ st' _, accounts (used st') l).
Proof.
  intros Ha. unfold hub_of. apply control_bind; [|intros st1 e Hk; by rewrite Hk].
  intros st1 bytes read Hk1 Hl Hb Hr. specialize (Hb (is_bytes_replicate 9 0 ltac:(unfold uint; lia))). rewrite <-Hk1 in Ha. apply parsed_bind; [|lia| |done].
  { intros b. by apply descriptors_never_panic. }
  intros x Hx. pose proof (parse_hub_ports _ _ (is_bytes_take _ _ Hb) Hx) as Hp. cbv zeta.
  eapply wp_call; [apply power_ports_spec| |]; [|intros st2 e Hk2; by rewrite Hk2].
  intros st2 ? Hk2. rewrite <-Hk2 in Ha. apply delay_bind. intros st3 Hk3. rewrite <-Hk3 in Ha.
  eapply wp_call; [by apply each_port_spec| |done]. intros st4 ps [Ha4 Hps]. wp_step. cbn [hub_ports].
  pose proof (Forall2_length _ _ _ Hps) as Hlen. rewrite length_seqZ in Hlen.
  split_and!; [done|lia|]. intros n c Hn. pose proof (lookup_lt_Some _ _ _ Hn) as Hlt.
  destruct (Forall2_lookup_r _ _ _ _ _ Hps Hn) as (k & Hk & Hg). apply lookup_seqZ in Hk as [-> _].
  replace (Z.of_nat n + 1) with (1 + Z.of_nat n) by lia. by apply Hg.
Qed.

Lemma addressed_spec m s tr a st l : (depth < MAX_DEPTH)%nat → accounts (used st) (a :: l) →
  wp (addressed dev (mkTarget 0 m s tr) a depth) st
    (λ st' d, accounts (used st') (addrs d ++ l) ∧ well_formed depth d ∧ speed d = s ∧ translator d = tr)
    (λ st' _, accounts (used st') (a :: l)).
Proof.
  intros Hd Ha. unfold addressed. cbn [max_packet tg_speed tg_translator].
  apply control_bind; [|intros st1 e Hk; by rewrite Hk]. intros st1 ? ? Hk1 _ _ _. apply delay_bind. intros st2 Hk2. cbv zeta.
  assert (Ha2 : accounts (used st2) (a :: l)) by (by rewrite Hk2, Hk1).
  apply control_bind; [|intros st3 e Hk; by rewrite Hk]. intros st3 b3 r3 Hk3 Hl3 _ Hr3. rewrite <-Hk3 in Ha2.
  apply parsed_bind; [by intros b; apply descriptors_never_panic|lia| |done]. intros x Hx.
  apply control_bind; [|intros st4 e Hk; by rewrite Hk]. intros st4 b4 r4 Hk4 Hl4 _ Hr4. rewrite <-Hk4 in Ha2.
  apply parsed_bind; [by intros b; apply descriptors_never_panic|lia| |done]. intros total Ht.
  apply control_bind; [|intros st5 e Hk; by rewrite Hk]. intros st5 b5 r5 Hk5 Hl5 _ Hr5. rewrite <-Hk5 in Ha2.
  apply parsed_bind; [by intros b; apply descriptors_never_panic|lia| |done]. intros c Hc.
  apply control_bind; [|intros st6 e Hk; by rewrite Hk]. intros st6 ? ? Hk6 _ _ _. rewrite <-Hk6 in Ha2.
  destruct (_ || _).
  - apply wp_bind. eapply wp_call; [by apply hub_of_spec| |done]. intros st7 h (Ha7 & Hlen & Hg). wp_step.
    split_and!; [|constructor; [done|done|]|done|done].
    + rewrite addrs_ports. destruct h as [hd ps]. cbn [ports_of hub hub_ports address app] in *.
      eapply accounts_perm; [|exact Ha7]. by rewrite <-Permutation_middle.
    + destruct h as [hd ps]. exact Hg.
  - wp_step. split_and!; [done|by constructor; [|cbn; lia|]|done|done].
Qed.

Lemma device_body_spec : (depth < MAX_DEPTH)%nat → device_spec (device_body dev) depth.
Proof.
  intros Hd s tr st l Ha. unfold device_body. cbv zeta. apply control_bind; [|intros st1 e Hk; by rewrite Hk].
  intros st1 b1 r1 Hk1 Hl1 _ Hr1. rewrite <-Hk1 in Ha.
  apply parsed_bind; [by intros b; apply descriptors_never_panic|rewrite length_app; lia| |done]. intros m _. wp_step.
  pose proof (take_address_spec (used st1) l Ha) as Ht. destruct (take_address (used st1)) as [[a u]|]; [|by wp_step].
  wp_step. apply wp_bind, wp_catch. eapply wp_mono; [by apply (addressed_spec m s tr a _ l)| |].
  - intros st2 d Hd2. by wp_step.
  - intros st2 e Ha2. wp_step. destruct (set_used_spec _ _ _ Ha2) as (u' & Hu & Hacc). apply wp_bind. eapply wp_unwrap; [exact Hu|].
    by wp_step.
Qed.
End rec.

Lemma device_fuel_spec fuel depth : (depth < MAX_DEPTH)%nat → (MAX_DEPTH ≤ depth + fuel)%nat → device_spec (device_fuel fuel) depth.
Proof.
  revert depth. induction fuel as [|fuel IH]; intros depth Hd Hf; [lia|]. cbn [device_fuel].
  apply device_body_spec; [|done]. intros Hd'. apply IH; [done|lia].
Qed.

Lemma device_meets_spec depth : (depth < MAX_DEPTH)%nat → device_spec device depth.
Proof. intros Hd. apply device_fuel_spec; [done|lia]. Qed.
(** ** Polling *)
Lemma replace_port_spec t depth n p status st l : accounts (used st) (port_addrs addrs p ++ l) →
  wp (replace_port t depth n p status) st
    (λ st' '(p', _), accounts (used st') (port_addrs addrs p' ++ l) ∧ good_port t depth n p') (λ _ _, False).
Proof.
  intros Ha. unfold replace_port.
  apply (wp_call _ _ _ (λ st' _, kept st st') (λ _ _, False)); [|intros st1 ? Hk1|done].
  { apply wp_catch. eapply wp_mono; [apply control_spec_wp| |done]. by intros st1 [] (Hk & _). }
  rewrite <-Hk1 in Ha. apply (wp_call _ _ _ (λ st' _, accounts (used st') l) (λ _ _, False)); [|intros st2 gone Ha2|done].
  { destruct p as [|g|e]; cbn [port_addrs app] in Ha; [by wp_step| |by wp_step]. wp_step.
    destruct (free_addresses_spec (addrs g) _ _ Ha) as (u & Hu & Hacc). apply wp_bind. eapply wp_unwrap.
    { unfold free_device, walk. rewrite addrs_walk. exact Hu. }
    by wp_step. }
  destruct (connected status); [|wp_step; by split; [|intros c ?]].
  eapply wp_call; [by apply (port_spec device depth (λ Hd, device_meets_spec _ Hd))| |done].
  intros st3 p' [Ha3 Hg]. by wp_step.
Qed.

Definition poll_spec (poll : Device E → nat → M (Device E * list Change)) d : Prop :=
  ∀ depth st l, accounts (used st) (addrs d ++ l) → well_formed depth d →
    wp (poll d depth) st (λ st' '(d', _), accounts (used st') (addrs d' ++ l) ∧ well_formed depth d' ∧ target d' = target d)
      (λ _ _, False).

Lemma poll_ports_spec poll t depth ps : (∀ i c, ps !! i = Some (HasDevice c) → poll_spec poll c) →
  ∀ n st l, (ps ≠ [] → 1 <= n ∧ n + Z.of_nat (length ps) <= 256) →
  (∀ i p, ps !! i = Some p → good_port t depth (n + Z.of_nat i) p) →
  accounts (used st) (flat_map (port_addrs addrs) ps ++ l) →
  wp (poll_ports poll t depth n ps) st
    (λ st' '(ps', _), accounts (used st') (flat_map (port_addrs addrs) ps' ++ l) ∧ length ps' = length ps ∧
       ∀ i p, ps' !! i = Some p → good_port t depth (n + Z.of_nat i) p) (λ _ _, False).
Proof.
  induction ps as [|p ps IH]; intros Hpoll n st l Hn Hgood Ha; cbn [poll_ports]; [by wp_step|].
  specialize (Hn ltac:(done)). cbn [length flat_map] in *. rewrite <-app_assoc in Ha.
  assert (Hp : good_port t depth n p) by (rewrite <-(Z.add_0_r n); by apply (Hgood 0%nat)).
  set (l' := flat_map (port_addrs addrs) ps ++ l) in *.
  apply (wp_call _ _ _ (λ st' _, kept st st') (λ _ _, False)); [|intros st1 r Hk1|done].
  { apply wp_catch. eapply wp_mono; [apply port_status_spec| |]; done. }
  rewrite <-Hk1 in Ha.
  apply (wp_call _ _ _ (λ st' '(p', _), accounts (used st') (port_addrs addrs p' ++ l') ∧ good_port t depth n p') (λ _ _, False)); [| |done].
  { destruct r as [status|e]; [|by wp_step]. destruct (negb _); [|by apply replace_port_spec].
    destruct p as [|c|e]; [by wp_step| |by wp_step]. destruct (Hp c eq_refl) as [Htr Hw].
    rewrite Nat.add_1_r. eapply wp_call; [by apply (Hpoll 0%nat c eq_refl (S depth) st1 l')| |done].
    intros st2 [c' ch] (Ha2 & Hw2 & Ht2). wp_step. split; [done|]. intros c0 [= <-]. split; [|done].
    unfold target in Ht2. injection Ht2 as Hx1 Hx2 Hx3 Hx4. by rewrite Hx3, Hx4. }
  intros st2 [p' ch] [Ha2 Hp']. assert (Ha3 : accounts (used st2) (flat_map (port_addrs addrs) ps ++ port_addrs addrs p' ++ l)).
  { eapply accounts_perm; [|exact Ha2]. apply Permutation_app_swap_app. }
  assert (Hwrap : ps ≠ [] → wrap 8 (n + 1) = n + 1).
  { intros Hne. apply wrap_small. destruct ps; [done|]. cbn [length] in Hn. unfold uint. lia. }
  eapply wp_call; [apply IH; [| | |exact Ha3]| |done].
  - intros i c Hc. by apply (Hpoll (S i)).
  - intros Hne. rewrite Hwrap by done. lia.
  - intros i q Hq. rewrite Hwrap by (by destruct ps). replace (n + 1 + Z.of_nat i) with (n + Z.of_nat (S i)) by lia. by apply Hgood.
  - intros st3 [ps' more] (Ha4 & Hlen & Hg). wp_step. split_and!.
    + cbn [flat_map]. rewrite <-app_assoc. eapply accounts_perm; [|exact Ha4]. apply Permutation_app_swap_app.
    + cbn [length]. by rewrite Hlen.
    + intros [|i] q; cbn [lookup list_lookup]; [intros [= <-]; by rewrite Z.add_0_r|]. intros Hq.
      replace (n + Z.of_nat (S i)) with (wrap 8 (n + 1) + Z.of_nat i); [by apply Hg|].
      rewrite Hwrap; [lia|]. intros ->. destruct ps'; [done|]. cbn in Hlen. lia.
Qed.

Lemma poll_hub_spec d : poll_spec poll_hub d.
Proof.
  induction d as [d IH] using device_induction. intros depth st l Ha Hw. inversion Hw as [? ? Hd Hl Hp]; subst.
  destruct d as [a s tr x c [[hd ps]|]]; cbn [poll_hub]; [|by wp_step]. cbn [ports_of hub hub_ports] in *.
  set (t := target (mkDevice a s tr x c (Some (mkHub hd ps)))) in *.
  rewrite addrs_ports in Ha. cbn [ports_of hub hub_ports address app] in Ha.
  assert (Ha' : accounts (used st) (flat_map (port_addrs addrs) ps ++ a :: l)).
  { eapply accounts_perm; [|exact Ha]. by rewrite <-Permutation_middle. }
  eapply wp_call; [apply (poll_ports_spec poll_hub t depth ps IH 1 st (a :: l)); [intros _; lia| |exact Ha']| |done].
  - intros i p Hi c0 ->. replace (1 + Z.of_nat i) with (Z.of_nat i + 1) by lia. by apply Hp.
  - intros st' [ps' ch] (Ha2 & Hlen & Hg). wp_step. split_and!; [|constructor; [done|cbn; lia|]|done].
    + rewrite addrs_ports. cbn [ports_of hub hub_ports address app]. eapply accounts_perm; [|exact Ha2]. by rewrite <-Permutation_middle.
    + cbn [ports_of hub hub_ports]. intros n c0 Hn. replace (Z.of_nat n + 1) with (1 + Z.of_nat n) by lia.
      by apply (Hg n (HasDevice c0) Hn).
Qed.
(** * Trees over time *)

(** The trees a bus can lead to: enumerated once, then polled any number of times, whatever the bus does. *)
Inductive reached : Tree E → Prop :=
| reached_enumerate b s st t : enumerate b s = Ret st t → reached t
| reached_poll t b st t' changes : reached t → poll_changes b t = Ret st (t', changes) → reached t'.

Record tree_ok (t : Tree E) : Prop := {
  tr_addresses : accounts (addresses t) (addrs (tree_root t));
  tr_root : well_formed 0 (tree_root t);
  tr_translator : translator (tree_root t) = None }.

Lemma enumerate_ok b s : match enumerate b s with Ret _ t => tree_ok t | Fail _ _ => True | Panic => False end.
Proof.
  pose proof (device_meets_spec 0%nat ltac:(unfold MAX_DEPTH; lia) s None (mkEnumerator b new_addresses) [] accounts_new) as Hd.
  unfold enumerate. unfold wp in Hd. destruct (device _ _ _ _) as [st d|st e|]; [|done|done].
  destruct Hd as (Ha & Hw & _ & Ht). rewrite app_nil_r in Ha. by constructor.
Qed.

Lemma poll_ok b t : tree_ok t → ∃ st t' changes, poll_changes b t = Ret st (t', changes) ∧ tree_ok t'.
Proof.
  intros [Ha Hw Ht]. pose proof (poll_hub_spec (tree_root t) 0%nat (mkEnumerator b (addresses t)) []) as Hp.
  rewrite app_nil_r in Hp. specialize (Hp Ha Hw). unfold poll_changes. unfold wp in Hp.
  destruct (poll_hub _ _ _) as [st [d ch]|st e|]; [|done|done]. destruct Hp as (Ha' & Hw' & Htg). rewrite app_nil_r in Ha'.
  eexists _, _, _. split; [done|]. constructor; [done|done|]. cbn [tree_root]. unfold target in Htg. injection Htg as _ _ _ Htr.
  congruence.
Qed.

Lemma reached_ok t : reached t → tree_ok t.
Proof.
  induction 1 as [b s st t He|t b st t' ch Hr IH Hp].
  - pose proof (enumerate_ok b s) as Hok. by rewrite He in Hok.
  - destruct (poll_ok b t IH) as (st1 & t1 & ch1 & He & Hok). rewrite Hp in He. by injection He as _ <- _.
Qed.

(** Every device's translator is the one above it, or a high speed hub of the tree. *)
Lemma translators_above d : ∀ n, well_formed n d → ∀ k c, (k, c) ∈ walk_into n d → ∀ t, translator c = Some t →
  translator d = Some t ∨ ∃ j h, (j, h) ∈ walk_into n d ∧ address h = t_hub t ∧ speed h = High ∧
    1 <= t_port t <= Z.of_nat (length (ports_of h)).
Proof.
  induction d as [d IH] using device_induction. intros n Hw k c Hin t Ht. inversion Hw as [? ? Hn Hl Hp]; subst.
  rewrite walk_ports in Hin |- *. apply elem_of_cons in Hin as [[= -> ->]|Hin]; [by left|].
  apply list_elem_of_In, in_flat_map in Hin as (p & Hp' & Hin). apply list_elem_of_In, list_elem_of_lookup in Hp' as [i Hi].
  destruct p as [|c'|e]; [done| |done]. apply list_elem_of_In in Hin. destruct (Hp i c' Hi) as [Htr Hwc].
  assert (Hup : ∀ j h, (j, h) ∈ walk_into (S n) c' →
    (j, h) ∈ (n, d) :: flat_map (λ p, match p with HasDevice c => walk_into (S n) c | _ => [] end) (ports_of d)).
  { intros j h Hjh. right. apply list_elem_of_In, in_flat_map. exists (HasDevice c'). split; apply list_elem_of_In; [|done].
    by eapply list_elem_of_lookup_2. }
  destruct (IH i c' Hi (S n) Hwc k c Hin t Ht) as [Htc|(j & h & Hjh & Hrest)]; [|right; exists j, h; auto].
  rewrite Htr in Htc. unfold translator_for in Htc. cbn [target tg_speed tg_translator tg_address] in Htc.
  pose proof (lookup_lt_Some _ _ _ Hi) as Hlt.
  destruct (speed d) eqn:Es; [by left|by left|]. destruct (speed c'); [| |done]; injection Htc as <-; right; exists n, d;
    (split; [by left|]); cbn [t_hub t_port]; (split_and!; [done|done|lia|lia]).
Qed.

(** C20: However devices come and go and whatever they and the hubs answer, the addresses marked as used are
    exactly those of the devices in the tree: no two devices share one, all are between 1 and 127, and none
    is lost when a device goes or fails half way. Looking up an address finds the device that has it. *)
Theorem tree_addresses_are_exact (t : Tree E) : reached t →
  let devices := snd <$> walk (tree_root t) in
  NoDup (address <$> devices) ∧ (∀ d, d ∈ devices → 1 <= address d <= MAX_ADDRESS) ∧
  (∀ n, (n < 128)%nat → addresses t !! n = Some (bool_decide (Z.of_nat n ∈ address <$> devices))) ∧
  ∀ d, d ∈ devices → find_device t (address d) = Some d.
Proof.
  intros [Ha _ _]%reached_ok devices. pose proof (addrs_walk (tree_root t) 0%nat) as Haw.
  assert (Heq : address <$> devices = addrs (tree_root t)).
  { rewrite <-Haw. unfold devices. rewrite <-list_fmap_compose. apply list_fmap_ext. by intros i [] _. }
  rewrite Heq. pose proof Ha as [Hl Hn Hr Hu]. rewrite <-Heq in Hn. split_and!; [by rewrite <-Heq| |done|].
  - intros d Hd. rewrite <-Heq, Forall_fmap, Forall_forall in Hr. by apply (Hr d).
  - intros d Hd. unfold find_device. fold devices. clear Heq Hr Hu Ha Haw Hl. induction devices as [|d' ds IH]; [by apply elem_of_nil in Hd|].
    cbn [List.find]. apply NoDup_cons in Hn as [Hnd Hn]. destruct (Z.eqb_spec (address d') (address d)) as [He|He].
    + apply elem_of_cons in Hd as [->|Hd]; [done|]. destruct Hnd. rewrite He. by apply list_elem_of_fmap_2.
    + apply elem_of_cons in Hd as [->|Hd]; [done|]. by apply IH.
Qed.

(** In every tree, devices are at most five hubs below the root, and a device that is reached with split
    transactions is reached through a port of a high speed hub of the tree: the translator's address is that
    hub's, and the port is one it has. *)
Theorem translators_are_high_speed_hubs (t : Tree E) k d tr : reached t → (k, d) ∈ walk (tree_root t) →
  (k < MAX_DEPTH)%nat ∧ (translator d = Some tr →
  ∃ j h, (j, h) ∈ walk (tree_root t) ∧ address h = t_hub tr ∧ speed h = High ∧ 1 <= t_port tr <= Z.of_nat (length (ports_of h))).
Proof.
  intros [_ Hw Ht]%reached_ok Hin. split.
  - pose proof (well_formed_depth _ _ Hw) as Hd. rewrite Forall_forall in Hd. by apply (Hd (k, d)).
  - intros Htr. destruct (translators_above _ _ Hw _ _ Hin _ Htr) as [Hr|Hex]; [congruence|done].
Qed.

(** Polling any tree there was, whatever the bus is by then, gives a tree. *)
Lemma polling_never_fails (t : Tree E) b : reached t → ∃ st t' changes, poll_changes b t = Ret st (t', changes).
Proof. intros Hr%reached_ok. destruct (poll_ok b t Hr) as (st' & t' & ch & He & _). by exists st', t', ch. Qed.

(** C21: The enumeration code itself ends and does not panic, on a bus each of whose transfers ends, in an answer or
    an error, whatever bytes it answers (a [LawfulBus], which gives no more than was asked for): enumerating gives a
    tree or an error, and polling any tree reached since, any number of times over, gives a tree again, since
    errors stay on the ports they happened on. That transfers end is what the bus owes: the driver's do,
    but for a device that is never ready ([never_ready_never_ends]) and one that gives a packet size of 0
    ([no_packet_size_panics]). *)
Theorem enumeration_always_ends :
  (∀ (b : B) s, (∃ st (t : Tree E), enumerate b s = Ret st t ∧ reached t) ∨ ∃ st (e : Error E), enumerate b s = Fail st e) ∧
  ∀ (t : Tree E), reached t → ∀ b, ∃ st t' changes, poll_changes b t = Ret st (t', changes) ∧ reached t'.
Proof.
  split.
  - intros b s. pose proof (enumerate_ok b s) as Hok. destruct (enumerate b s) as [st t|st e|] eqn:He; [left|right; by exists st, e|done].
    exists st, t. split; [done|]. by eapply reached_enumerate.
  - intros t Hr b. destruct (polling_never_fails t b Hr) as (st & t' & ch & He). exists st, t', ch.
    split; [done|]. by eapply reached_poll.
Qed.
End specs.

(** * A bus that answers from a script *)
Module Script.
Definition answer (data script : list Z) : list Z :=
  take (length data) (((λ b, b mod 256) <$> script) ++ replicate (length data) 0).

#[export] Instance script_bus : Bus (list (list Z)) unit := {
  bus_control _ _ data script :=
    match script with
    | [] => ([], Err tt)
    | bytes :: script => (script, Ok (answer data bytes, Nat.min (length bytes) (length data)))
    end;
  delay_ms _ script := script }.

#[export] Program Instance script_lawful : LawfulBus (list (list Z)) unit.
Next Obligation.
  intros t s data [|bytes script] b' data' read; cbn; [done|]. intros [= <- <- <-]. unfold answer. split_and!; [|intros _|lia].
  - rewrite length_take, length_app, length_fmap, length_replicate. lia.
  - apply is_bytes_take, is_bytes_app; [|apply is_bytes_replicate; unfold uint; lia].
    apply Forall_fmap, Forall_true. intros x. unfold uint. cbn. apply Z.mod_pos_bound. lia.
Qed.

(** A high speed hub with one port, and a full speed device on it. *)
Definition device_bytes (class : Z) : list Z := [18; 1; 0; 2; class; 0; 0; 64; 1; 2; 3; 4; 0; 1; 0; 0; 0; 1].
Definition config : list Z := [9; 2; 9; 0; 0; 1; 0; 0x80; 50].
Definition enumerated (class : Z) : list (list Z) := [device_bytes class; []; device_bytes class; config; config; []].
Definition script : list (list Z) :=
  enumerated 9 ++ [[9; 0x29; 1; 0; 0; 50; 0]; []; [1; 1; 0; 0]; []; [3; 1; 0x10; 0]; []; []] ++ enumerated 0.

Definition tree : Tree unit :=
  match enumerate script High with Ret _ t => t | _ => mkTree (mkDevice 0 Low None (mkDeviceDescriptor 0 0 0 0 0 0 0) (mkConfiguration 0 []) None) [] end.

Lemma tree_reached : reached tree.
Proof.
  destruct (enumerate script High) as [st t|st e|] eqn:E; [|exfalso; revert E; vm_compute; discriminate..].
  apply (reached_enumerate script High st). unfold tree. rewrite E. reflexivity.
Qed.
End Script.
#[local] Existing Instances Script.script_bus Script.script_lawful.

Lemma tree_addresses_are_exact_witness : (address <$> (snd <$> walk (tree_root Script.tree))) = [1; 2] ∧
  NoDup (address <$> (snd <$> walk (tree_root Script.tree))).
Proof.
  split; [vm_compute; reflexivity|]. pose proof (tree_addresses_are_exact Script.tree Script.tree_reached) as [Hn _]. exact Hn.
Defined.

(** The tree can be polled, twice over, on a bus that no longer answers. *)
Lemma enumeration_always_ends_witness : ∃ st t changes st' t' changes',
  poll_changes [] Script.tree = Ret st (t, changes) ∧ poll_changes [] t = Ret st' (t', changes').
Proof.
  destruct enumeration_always_ends as [_ Hpoll].
  destruct (Hpoll Script.tree Script.tree_reached []) as (st & t & ch & He & Hr). destruct (Hpoll t Hr []) as (st' & t' & ch' & He' & _).
  exists st, t, ch, st', t', ch'. split; [exact He|exact He'].
Defined.

Lemma translators_are_high_speed_hubs_witness : ∃ j h, (j, h) ∈ walk (tree_root Script.tree) ∧ address h = 1 ∧ speed h = High.
Proof.
  assert (Hw : ∃ d, walk (tree_root Script.tree) !! 1%nat = Some (1%nat, d) ∧ translator d = Some (mkTranslator 1 1))
    by (eexists; vm_compute; split; reflexivity).
  destruct Hw as (d & Hd & Ht). apply list_elem_of_lookup_2 in Hd.
  destruct (translators_are_high_speed_hubs Script.tree 1 d (mkTranslator 1 1) Script.tree_reached Hd) as [_ Hex].
  destruct (Hex Ht) as (j & h & Hjh & Ha & Hs & _). exists j, h. split_and!; assumption.
Defined.
End UsbTree.
