(* ===== verification/Keys.v ===== *)
(** Keyboard input between keys and lines: accents that combine with the next letter and keys that repeat
    ([rustypi-core/src/keys.rs]), and the line being typed ([rustypi-core/src/line.rs]).  Characters are code
    points; what the code hands to its callback is the list of what it hands over. *)
From S2P Require Import Prelude Bytes Text Usb Console.
Open Scope Z_scope.

Module Keys.

(** * Accents *)
Record Composer := mkComposer { accent : option Z }.
Definition new : Composer := mkComposer None.

(** [letter] with [accent] on it, if Latin-1 has it: the two rows of the table, by position. *)
Definition compose (accent letter : Z) : option Z :=
  let rows :=
    if accent =? 0xB4 then
      Some ([0x61; 0x65; 0x69; 0x6F; 0x75; 0x79; 0x41; 0x45; 0x49; 0x4F; 0x55; 0x59],
            [0xE1; 0xE9; 0xED; 0xF3; 0xFA; 0xFD; 0xC1; 0xC9; 0xCD; 0xD3; 0xDA; 0xDD])
    else if accent =? 0x60 then
      Some ([0x61; 0x65; 0x69; 0x6F; 0x75; 0x41; 0x45; 0x49; 0x4F; 0x55],
            [0xE0; 0xE8; 0xEC; 0xF2; 0xF9; 0xC0; 0xC8; 0xCC; 0xD2; 0xD9])
    else if accent =? 0xA8 then
      Some ([0x61; 0x65; 0x69; 0x6F; 0x75; 0x79; 0x41; 0x45; 0x49; 0x4F; 0x55],
            [0xE4; 0xEB; 0xEF; 0xF6; 0xFC; 0xFF; 0xC4; 0xCB; 0xCF; 0xD6; 0xDC])
    else if accent =? 0x5E then
      Some ([0x61; 0x65; 0x69; 0x6F; 0x75; 0x41; 0x45; 0x49; 0x4F; 0x55],
            [0xE2; 0xEA; 0xEE; 0xF4; 0xFB; 0xC2; 0xCA; 0xCE; 0xD4; 0xDB])
    else if accent =? 0x7E then
      Some ([0x61; 0x6E; 0x6F; 0x41; 0x4E; 0x4F], [0xE3; 0xF1; 0xF5; 0xC3; 0xD1; 0xD5])
    else None in
  '(plain, accented) ← rows;
  '(index, _) ← list_find (λ c, c = letter) plain;
  accented !! index.

(** A dead key; the characters typed. *)
Definition dead (a : Z) (c : Composer) : Composer * list Z :=
  match accent c with
  | Some pending => if pending =? a then (mkComposer None, [a]) else (mkComposer (Some a), [pending])
  | None => (mkComposer (Some a), [])
  end.

Definition char (x : Z) (c : Composer) : Composer * list Z :=
  match accent c with
  | None => (mkComposer None, [x])
  | Some a =>
    (mkComposer None,
     match compose a x with
     | Some accented => [accented]
     | None => if x =? 0x08 then [] else if x =? 0x20 then [a] else [a; x]
     end)
  end.

Definition reset (c : Composer) : Composer := mkComposer None.

(** * Repeating *)
Record Repeater := mkRepeater { held : option (Z * Z) }.
Definition DELAY_US : Z := 500000.
Definition RATE_US : Z := 33000.
Definition new_repeater : Repeater := mkRepeater None.

Definition pressed (key now : Z) (r : Repeater) : Repeater := mkRepeater (Some (key, wrap 64 (now + DELAY_US))).
Definition stop (r : Repeater) : Repeater := mkRepeater None.

Definition due (keys : list Z) (now : Z) (r : Repeater) : Repeater * option Z :=
  match held r with
  | None => (r, None)
  | Some (key, next) =>
    if negb (bool_decide (key ∈ keys)) then (mkRepeater None, None)
    else if now <? next then (r, None)
    else
      let following := if now <? wrap 64 (next + RATE_US) then wrap 64 (next + RATE_US) else wrap 64 (now + RATE_US) in
      (mkRepeater (Some (key, following)), Some key)
  end.

(** * What comes of typing *)

(** Everything typed by a sequence of keys. *)
Definition typed (t : Usb.Typed) (c : Composer) : Composer * list Z :=
  match t with
  | Usb.Char x => char x c
  | Usb.Dead a => dead a c
  | Usb.Ctrl _ => (c, [])
  end.
Fixpoint type_all (ts : list Usb.Typed) (c : Composer) : Composer * list Z :=
  match ts with
  | [] => (c, [])
  | t :: ts => let '(c, out) := typed t c in let '(c, more) := type_all ts c in (c, out ++ more)
  end.

(** Characters the screen and the shell take: printable Latin-1, the euro sign, newline, tab and backspace. *)
Definition expected (x : Z) : bool :=
  ((0x20 <=? x) && (x <=? 0x7E)) || ((0xA0 <=? x) && (x <=? 0xFF)) || (x =? 0x20AC) || (x =? 0x0A) || (x =? 0x09) || (x =? 0x08).

Lemma compose_expected a x y : compose a x = Some y → 0xC0 <= y <= 0xFF.
Proof.
  unfold compose. intros ([plain accented] & Hr & Hy)%bind_Some. apply bind_Some in Hy as ([i z] & _ & Hy).
  assert (Hf : Forall (λ y, 0xC0 <= y <= 0xFF) accented).
  { repeat match type of Hr with (if ?b then _ else _) = _ => destruct b end; (injection Hr as <- <- || discriminate); repeat constructor; lia. }
  rewrite Forall_lookup in Hf. by apply (Hf i).
Qed.
(** Every key of every layout, with every combination of modifiers. *)
Definition all_modifiers : list Usb.Modifiers :=
  a ← [false; true]; b ← [false; true]; c ← [false; true]; [Usb.mkModifiers a b c].

Definition key_ok (l : Usb.Layout) (usage : Z) (m : Usb.Modifiers) : bool :=
  match Usb.key l usage m with
  | Some (Usb.Char x) | Some (Usb.Dead x) => expected x
  | Some (Usb.Ctrl x) => (0x61 <=? x) && (x <=? 0x7A)
  | None => true
  end.

Lemma keys_checked : forallb (λ l, forallb (λ u, forallb (key_ok l u) all_modifiers) (seqZ 0 256)) [Usb.Us; Usb.Swedish] = true.
Proof. vm_compute. reflexivity. Qed.

Lemma key_expected l usage m : 0 <= usage < 256 → key_ok l usage m = true.
Proof.
  intros Hu. pose proof keys_checked as Hk. rewrite forallb_forall in Hk.
  assert (Hl : l ∈ [Usb.Us; Usb.Swedish]) by (destruct l; [left|right; left]). specialize (Hk l (proj1 (list_elem_of_In _ _) Hl)).
  rewrite forallb_forall in Hk. assert (Hu' : usage ∈ seqZ 0 256) by (apply elem_of_seqZ; lia).
  specialize (Hk usage (proj1 (list_elem_of_In _ _) Hu')). rewrite forallb_forall in Hk. apply Hk. destruct m as [a b c].
  destruct a, b, c; vm_compute; tauto.
Qed.

Lemma expected_latin1 y : 0xC0 <= y <= 0xFF → expected y = true.
Proof. intros Hy. unfold expected. rewrite (proj2 (Z.leb_le 0xA0 y)), (proj2 (Z.leb_le y 0xFF)) by lia. by rewrite orb_true_r. Qed.

Definition settled (c : Composer) : Prop := ∀ a, accent c = Some a → expected a = true.

Lemma typed_expected t c c' out : settled c → typed t c = (c', out) →
  match t with Usb.Char x | Usb.Dead x => expected x = true | Usb.Ctrl _ => True end → settled c' ∧ Forall (λ x, expected x = true) out.
Proof.
  intros Hc. destruct t as [x|a|x]; cbn [typed]; [unfold char|unfold dead|]; intros Ht Hx.
  - destruct (accent c) as [a|] eqn:Ea; injection Ht as <- <-; (split; [by intros ?|]); [|by repeat constructor].
    destruct (compose a x) as [y|] eqn:Ey; [constructor; [|constructor]; by apply expected_latin1, (compose_expected a x)|].
    repeat case_match; repeat constructor; auto.
  - destruct (accent c) as [p|] eqn:Ea; [destruct (p =? a)|]; injection Ht as <- <-; split; try (by intros ? [= <-]); try done;
      repeat constructor; auto.
  - injection Ht as <- <-. split; [done|constructor].
Qed.

(** Whatever keys are pressed in whatever order and with whatever modifiers, in either layout, the characters
    that reach the screen and the shell are printable Latin-1 characters, the euro sign, newlines, tabs and
    backspaces, accents and the letters they combine into included. *)
Theorem keyboard_types_printable l presses : Forall (λ '(usage, _), 0 <= usage < 256) presses →
  Forall (λ x, expected x = true) (type_all (omap (λ '(usage, m), Usb.key l usage m) presses) new).2.
Proof.
  intros Hp. assert (Hok : Forall (λ t, match t with Usb.Char x | Usb.Dead x => expected x = true | Usb.Ctrl _ => True end)
    (omap (λ '(usage, m), Usb.key l usage m) presses)).
  { apply Forall_forall. intros t Ht. apply list_elem_of_omap in Ht as ([u m] & Hin & Hk). rewrite Forall_forall in Hp.
    specialize (Hp _ Hin). cbn in Hp. pose proof (key_expected l u m Hp) as Hx. unfold key_ok in Hx. rewrite Hk in Hx. by destruct t. }
  assert (Hc : settled new) by done. revert Hok Hc. generalize new. generalize (omap (λ '(usage, m), Usb.key l usage m) presses).
  induction l0 as [|t ts IH]; intros c Hok Hc; cbn [type_all]; [constructor|]. apply Forall_cons in Hok as [Ht Hok].
  destruct (typed t c) as [c' out] eqn:Et. destruct (typed_expected t c c' out Hc Et Ht) as [Hc' Hout].
  specialize (IH c' Hok Hc'). destruct (type_all ts c') as [c'' more]. cbn [snd] in *. by apply Forall_app.
Qed.

Lemma keyboard_types_printable_witness :
  (type_all (omap (λ '(usage, m), Usb.key Usb.Swedish usage m)
     [(0x2E, Usb.mkModifiers false false false); (0x08, Usb.mkModifiers false false false)]) new).2 = [0xE9] ∧
  Forall (λ x, expected x = true) [0xE9].
Proof.
  assert (Hp : Forall (λ '(usage, _), 0 <= usage < 256)
    [(0x2E, Usb.mkModifiers false false false); (0x08, Usb.mkModifiers false false false)])
    by (rewrite !Forall_cons, Forall_nil; lia).
  assert (He : (type_all (omap (λ '(usage, m), Usb.key Usb.Swedish usage m)
     [(0x2E, Usb.mkModifiers false false false); (0x08, Usb.mkModifiers false false false)]) new).2 = [0xE9]) by (vm_compute; reflexivity).
  split; [exact He|]. rewrite <-He. exact (keyboard_types_printable Usb.Swedish _ Hp).
Defined.

(** ** Repeats *)

(** What a sequence of polls types, each with the keys held and the time: the times and keys of the repeats. *)
Fixpoint repeats (r : Repeater) (polls : list (list Z * Z)) : list (Z * Z) :=
  match polls with
  | [] => []
  | (keys, now) :: polls =>
    let '(r, out) := due keys now r in
    match out with Some key => (now, key) :: repeats r polls | None => repeats r polls end
  end.

Lemma repeats_stopped polls : repeats (mkRepeater None) polls = [].
Proof. induction polls as [|[ks now] polls IH]; [done|]. exact IH. Qed.

Lemma repeats_spaced key next polls : 0 <= next → Forall (λ '(_, now), 0 <= now < 2 ^ 63) polls →
  ∀ k t key', repeats (mkRepeater (Some (key, next))) polls !! k = Some (t, key') →
  key' = key ∧ next + RATE_US * Z.of_nat k <= t.
Proof.
  intros Hn Ht. revert next Hn. induction polls as [|[ks now] polls IH]; intros next Hn k t key'; [done|].
  apply Forall_cons in Ht as [Hnow Ht]. cbn [repeats due held]. destruct (negb _); [by rewrite repeats_stopped|].
  destruct (Z.ltb_spec now next) as [Hlt|Hge]; [by apply IH|].
  assert (Hw1 : wrap 64 (next + RATE_US) = next + RATE_US) by (apply wrap_small; unfold uint, RATE_US; lia).
  assert (Hw2 : wrap 64 (now + RATE_US) = now + RATE_US) by (apply wrap_small; unfold uint, RATE_US; lia).
  rewrite Hw1, Hw2. destruct k as [|k]; cbn [lookup list_lookup]; [intros [= <- <-]; split; [done|unfold RATE_US; lia]|].
  intros Hk. destruct (Z.ltb_spec now (next + RATE_US)) as [Hl|Hl]; (eapply IH in Hk as [-> Hk]; [|done|unfold RATE_US in *; lia]);
    (split; [done|]); unfold RATE_US in *; lia.
Qed.

(** A held key repeats no faster than its rate: however often and however irregularly the repeater is asked,
    the first repeat comes no sooner than half a second after the key was pressed, and the k-th after it no
    sooner than k times 33 ms later. Only that key repeats, and never after it was let go. *)
Theorem repeats_keep_the_rate key at_ polls r : 0 <= at_ < 2 ^ 63 → Forall (λ '(_, now), 0 <= now < 2 ^ 63) polls →
  (∀ k t key', repeats (pressed key at_ r) polls !! k = Some (t, key') →
     key' = key ∧ at_ + DELAY_US + RATE_US * Z.of_nat k <= t) ∧
  ∀ keys now polls', key ∉ keys → repeats (pressed key at_ r) ((keys, now) :: polls') = [].
Proof.
  intros Ha Hp. unfold pressed. rewrite wrap_small by (unfold uint, DELAY_US; lia). split.
  - apply repeats_spaced; [unfold DELAY_US; lia|done].
  - intros keys now polls' Hk. cbn [repeats due held]. rewrite bool_decide_false by done. apply repeats_stopped.
Qed.

Lemma repeats_keep_the_rate_witness :
  repeats (pressed 4 0 new_repeater) [([4], 400000); ([4], 500000); ([4], 540000); ([], 600000)] = [(500000, 4); (540000, 4)] ∧
  0 + DELAY_US + RATE_US * Z.of_nat 1 <= 540000.
Proof.
  assert (He : repeats (pressed 4 0 new_repeater) [([4], 400000); ([4], 500000); ([4], 540000); ([], 600000)] = [(500000, 4); (540000, 4)])
    by (vm_compute; reflexivity).
  split; [exact He|].
  destruct (repeats_keep_the_rate 4 0 [([4], 400000); ([4], 500000); ([4], 540000); ([], 600000)] new_repeater
    ltac:(lia) ltac:(rewrite !Forall_cons, Forall_nil; lia)) as [Hr _].
  rewrite He in Hr. exact (proj2 (Hr 1%nat 540000 4 eq_refl)).
Defined.
End Keys.

(** * Lines *)
Module Line.
Import Text.

Record LineEditor := mkLineEditor { line : list Z; max : Z }.
Definition new (max : Z) : LineEditor := mkLineEditor [] max.

(** [char::is_control]: the C0 and C1 controls and delete. *)
Definition is_control (c : Z) : bool := (c <? 0x20) || ((0x7F <=? c) && (c <=? 0x9F)).

(** [String::pop]. *)
Definition pop (l : list Z) : option (list Z) := match l with [] => None | _ => Some (removelast l) end.

(** What wipes the last character off the screen: back over it, blank it, and back again. *)
Definition WIPE : list Z := [0x08; 0x20; 0x08].

(** The editor, what is echoed, and the line if it is finished. *)
Definition feed (c : Z) (e : LineEditor) : LineEditor * list Z * option (list Z) :=
  if c =? 0x0A then (mkLineEditor [] (max e), [0x0A], Some (line e))
  else if c =? 0x08 then
    match pop (line e) with
    | Some l => (mkLineEditor l (max e), WIPE, None)
    | None => (e, [], None)
    end
  else if is_control c then (e, [], None)
  else if str_len (line e) + len_utf8 c <=? max e then (mkLineEditor (line e ++ [c]) (max e), [c], None)
  else (e, [], None).

Definition clear (e : LineEditor) : LineEditor * list Z :=
  (mkLineEditor [] (max e), concat (replicate (length (line e)) WIPE)).

(** ** The screen
    The console, and what is drawn of it. *)
Definition Screen : Type := Console.Console * Console.Surface.
Definition echo (xs : list Z) (v : Screen) : option Screen := Console.write_str xs v.1 v.2.

(** The screen shows [l] in the row of the cursor, right before it, and nothing behind it or below. *)
Record displays (l : list Z) (v : Screen) : Prop := {
  di_wf : Console.wf v.1;
  di_shows : Console.shows v.2 v.1;
  di_row : (length l ≤ Console.col v.1)%nat;
  di_cells : ∃ above below, Console.cells v.1 = above ++ l ++ below ∧
    (length above + length l = Console.row v.1 * Console.cols v.1 + Console.col v.1)%nat ∧ Forall (eq Console.SPACE) below }.

(** What is written stays in the row: no character comes when the cursor is past its last column. *)
Fixpoint in_row (xs : list Z) (v : Screen) : Prop :=
  match xs with
  | [] => True
  | x :: xs => (is_control x = false → Console.col v.1 < Console.cols v.1)%nat ∧
      match Console.write_char x v.1 v.2 with Some v => in_row xs v | None => True end
  end.

Definition sound (e : LineEditor) : Prop := str_len (line e) <= max e ∧ Forall (λ c, is_control c = false) (line e).

Lemma console_control c : is_control c = false → Console.is_control c = false.
Proof. unfold is_control, Console.is_control. lia. Qed.

(** Writing a character in the row. *)
Lemma write_plain c k s : is_control c = false → Console.wf k → Console.shows s k → (Console.col k < Console.cols k)%nat →
  ∃ k' s', Console.write_char c k s = Some (k', s') ∧ Console.wf k' ∧ Console.shows s' k' ∧
    k' = Console.with_cursor (Console.col k + 1) (Console.row k)
           (Console.with_cells (<[(Console.row k * Console.cols k + Console.col k)%nat := c]> (Console.cells k)) k).
Proof.
  intros Hc Hw Hs Hcol. destruct (Console.write_char_follows c k s Hw Hs) as (k' & s' & E & [Hw' Hs' _ _]). exists k', s'.
  split_and!; try done. unfold Console.write_char in E. pose proof (console_control c Hc) as Hcc.
  assert (Hn : ∀ x, is_control x = true → (c =? x) = false) by (intros x Hx; apply Z.eqb_neq; congruence).
  rewrite !Hn, Hcc in E by done. unfold Console.put in E. rewrite decide_False in E by lia. cbn [mbind option_bind] in E.
  by case_decide; [injection E as <- _|].
Qed.

Lemma insert_between {A} (a b : list A) x y i : length a = i → <[i := y]> (a ++ x :: b) = a ++ y :: b.
Proof. intros <-. by rewrite insert_app_r_alt, Nat.sub_diag by lia. Qed.

Lemma displays_char v l c : displays l v → is_control c = false → (Console.col v.1 < Console.cols v.1)%nat →
  ∃ v', Console.write_char c v.1 v.2 = Some v' ∧ displays (l ++ [c]) v'.
Proof.
  destruct v as [k s]. intros [Hw Hs Hr (a & b & Hcells & Hpos & Hb)] Hc Hcol. cbn [fst snd] in *.
  destruct (write_plain c k s Hc Hw Hs Hcol) as (k' & s' & -> & Hw' & Hs' & Hk). exists (k', s'). split; [done|].
  pose proof (Console.index_lt k _ _ Hw Hcol (Console.wf_row _ Hw)) as Hi. rewrite Hcells, !length_app in Hi.
  destruct b as [|x b]; [cbn in Hi; lia|]. apply Forall_cons in Hb as [_ Hb].
  constructor; cbn [fst snd]; [done|done|rewrite Hk, length_app; cbn; lia|]. exists a, b. split_and!; [|rewrite Hk, length_app; cbn; lia|done].
  rewrite Hk. cbn [Console.cells Console.with_cursor Console.with_cells]. rewrite Hcells, app_assoc, insert_between by (rewrite length_app; lia).
  by rewrite <-!app_assoc.
Qed.

Lemma write_back k s : Console.write_char 0x08 k s = Some (Console.with_cursor (Console.col k - 1) (Console.row k) k, s).
Proof. done. Qed.

(** Wiping the last character, wherever in the row it is. *)
Lemma displays_wipe v l : displays l v → l ≠ [] → ∃ v', echo WIPE v = Some v' ∧ displays (removelast l) v'.
Proof.
  destruct v as [k s]. intros [Hw Hs Hr (a & b & Hcells & Hpos & Hb)] Hne. cbn [fst snd] in *.
  destruct (exists_last Hne) as (l' & x & ->). rewrite removelast_last. rewrite length_app in Hr, Hpos. cbn [length] in Hr, Hpos.
  unfold echo, WIPE. cbn [fst snd Console.write_str]. rewrite write_back. cbn [mbind option_bind].
  set (k1 := Console.with_cursor _ _ k). assert (Hw1 : Console.wf k1) by (destruct Hw; split; cbn; lia).
  destruct (write_plain 0x20 k1 s eq_refl Hw1 Hs) as (k' & s' & -> & Hw' & Hs' & Hk); [pose proof (Console.wf_col _ Hw); cbn; lia|].
  cbn [mbind option_bind]. rewrite write_back. cbn [mbind option_bind]. eexists. split; [reflexivity|].
  assert (Hw2 : Console.wf (Console.with_cursor (Console.col k' - 1) (Console.row k') k')) by (destruct Hw'; split; cbn; lia).
  constructor; cbn [fst snd]; [exact Hw2|exact Hs'|rewrite Hk; cbn; lia|]. exists a, (0x20 :: b).
  split_and!; [|rewrite Hk; cbn; lia|by constructor]. rewrite Hk. cbn [Console.cells Console.with_cursor Console.with_cells Console.row Console.cols Console.col k1].
  rewrite Hcells. replace (a ++ (l' ++ [x]) ++ b) with ((a ++ l') ++ x :: b) by (by rewrite <-!app_assoc).
  rewrite insert_between by (rewrite length_app; lia). by rewrite <-app_assoc.
Qed.

(** A new row is empty. *)
Lemma displays_newline v l : displays l v → ∃ v', echo [0x0A] v = Some v' ∧ displays [] v'.
Proof.
  destruct v as [k s]. intros [Hw Hs _ (a & b & Hcells & Hpos & Hb)]. cbn [fst snd] in *.
  destruct (Console.newline_follows k s Hw Hs) as (k' & s' & E & [Hw' Hs' _ _] & Hc0). unfold echo. cbn [fst snd Console.write_str].
  change (Console.write_char 0x0A k s) with (Console.newline k s). rewrite E. cbn [mbind option_bind]. eexists. split; [reflexivity|].
  constructor; cbn [fst snd length]; [done|done|lia|]. unfold Console.newline in E. cbn [Console.row Console.rows Console.with_cursor] in E.
  pose proof Hw as [W1 W2 W3 W4 W5]. case_decide as Hrow.
  - injection E as <- <-. cbn [Console.cells Console.row Console.cols Console.col Console.with_cursor].
    set (n := ((Console.row k + 1) * Console.cols k + 0)%nat). exists (take n (Console.cells k)), (drop n (Console.cells k)).
    split_and!; [by cbn; rewrite take_drop|rewrite length_take; cbn; nia|].
    rewrite Hcells, app_assoc. rewrite drop_app_ge by (rewrite length_app; nia). by apply Forall_drop.
  - apply bind_Some in E as (k1 & Hsc & E). apply bind_Some in E as (s1 & _ & [= <- <-]). unfold Console.scroll in Hsc.
    cbn [Console.cells Console.cols Console.rows Console.with_cursor] in Hsc. case_decide; [|done]. case_decide as Hlast; [|done].
    injection Hsc as <-. cbn [Console.cells Console.row Console.cols Console.col Console.with_cells Console.with_cursor].
    eexists _, (replicate _ Console.SPACE). cbn [app]. split_and!; [reflexivity| |by apply Forall_replicate].
    rewrite length_take. assert (Console.row k = Console.rows k - 1)%nat as -> by lia. lia.
Qed.

Lemma displays_clear v : Console.wf v.1 → ∃ v', Console.clear v.1 v.2 = Some v' ∧ displays [] v'.
Proof.
  destruct v as [k s]. intros Hw. cbn [fst snd] in *. unfold Console.clear. set (k' := Console.with_cursor 0 0 _).
  assert (Hw' : Console.wf k') by (destruct Hw; split; cbn; rewrite ?length_replicate; (done || lia)).
  destruct (Console.redraw_spec k' s Hw') as (s' & -> & Hs'). eexists. split; [reflexivity|]. constructor; cbn [fst snd length]; [done|done|lia|].
  exists [], (Console.cells k'). split_and!; [done|done|]. by apply Forall_replicate.
Qed.

Lemma echo_app xs ys v : echo (xs ++ ys) v = v' ← echo xs v; echo ys v'.
Proof.
  unfold echo. destruct v as [k s]. cbn [fst snd]. revert k s. induction xs as [|x xs IH]; intros k s; [done|]. cbn [app Console.write_str].
  destruct (Console.write_char x k s) as [[k' s']|]; [|done]. cbn [mbind option_bind]. apply IH.
Qed.

(** A line written in the row. *)
Lemma displays_line v l xs : displays l v → Forall (λ c, is_control c = false) xs → in_row xs v →
  ∃ v', echo xs v = Some v' ∧ displays (l ++ xs) v'.
Proof.
  revert v l. induction xs as [|x xs IH]; intros v l Hd Hxs Hin; [exists v; rewrite app_nil_r; by destruct v|].
  apply Forall_cons in Hxs as [Hx Hxs]. destruct Hin as [Hcol Hin]. destruct (displays_char v l x Hd Hx (Hcol Hx)) as ([k1 s1] & E & Hd1).
  rewrite E in Hin. unfold echo. cbn [Console.write_str]. rewrite E. cbn [mbind option_bind].
  destruct (IH (k1, s1) (l ++ [x]) Hd1 Hxs Hin) as (v' & Ev & Hd'). exists v'. split; [exact Ev|]. by rewrite <-app_assoc in Hd'.
Qed.

Lemma str_len_app l r : str_len (l ++ r) = str_len l + str_len r.
Proof. induction l as [|c l IH]; [done|]. cbn [app str_len foldr] in *. unfold str_len in *. cbn [foldr]. lia. Qed.

Lemma len_utf8_pos c : 1 <= len_utf8 c.
Proof. unfold len_utf8. repeat case_match; lia. Qed.

Lemma str_len_removelast l : str_len (removelast l) <= str_len l.
Proof.
  destruct (decide (l = [])) as [->|Hne]; [done|]. destruct (exists_last Hne) as (l' & x & ->).
  rewrite removelast_last, str_len_app. cbn. pose proof (len_utf8_pos x). lia.
Qed.

(** One character: the screen follows the line, as long as the line fits its row, or the line is finished as the screen
    shows it. *)
Lemma feed_sound c e : sound e → 0 <= max e → let '(e', out, r) := feed c e in
  sound e' ∧ max e' = max e ∧ match r with Some l => c = 0x0A ∧ l = line e ∧ e' = new (max e) | None => c ≠ 0x0A end.
Proof.
  intros [Hlen Hctl] Hmax. unfold feed. destruct (Z.eqb_spec c 0x0A) as [->|Hn]; [by split_and!; [split; cbn|..]|].
  destruct (Z.eqb_spec c 0x08) as [->|Hb].
  { destruct (line e) as [|x l] eqn:El; cbn [pop].
    - split_and!; [by split; rewrite El|done|done].
    - rewrite <-El in *. assert (Hne : line e ≠ []) by (by rewrite El). split_and!; [|done|done]. split; cbn [line max].
      + pose proof (str_len_removelast (line e)). lia.
      + destruct (exists_last Hne) as (l' & y & E). rewrite E in Hctl |- *. rewrite removelast_last. by apply Forall_app in Hctl as [? _]. }
  destruct (is_control c) eqn:Ec; [by split_and!|].
  destruct (Z.leb_spec (str_len (line e) + len_utf8 c) (max e)); [|by split_and!]. split_and!; [|done|done]. split; cbn [line max].
  - rewrite str_len_app. cbn. lia.
  - apply Forall_app. split; [done|by constructor].
Qed.

Lemma feed_displays c e v : displays (line e) v → let '(e', out, r) := feed c e in
  in_row out v → ∃ v', echo out v = Some v' ∧ displays (line e') v'.
Proof.
  intros Hd. assert (Hsame : ∃ v', echo [] v = Some v' ∧ displays (line e) v') by (exists v; by destruct v). unfold feed.
  destruct (Z.eqb_spec c 0x0A) as [->|Hn]; [intros _; by eapply displays_newline|]. destruct (Z.eqb_spec c 0x08) as [->|Hb].
  { destruct (line e) as [|x l] eqn:El; cbn [pop]; [by rewrite El|]. rewrite <-El in *. intros _. apply displays_wipe; [done|by rewrite El]. }
  destruct (is_control c) eqn:Ec; [done|]. destruct (_ <=? _); [|done]. intros Hin. apply displays_line; [done|by constructor|done].
Qed.

(** Throwing the line away wipes all of it. *)
Lemma clear_displays e v : displays (line e) v → ∃ v', echo (clear e).2 v = Some v' ∧ displays [] v'.
Proof.
  unfold clear. cbn [snd]. generalize (line e). clear e. intros l. revert v. induction l as [|x l IH] using rev_ind; intros v Hd; [by exists v; destruct v|].
  rewrite length_app, Nat.add_1_r. cbn [replicate concat]. destruct (displays_wipe v (l ++ [x]) Hd) as (v1 & E & Hd1); [by destruct l|].
  rewrite echo_app, E. cbn [mbind option_bind]. apply IH. by rewrite removelast_last in Hd1.
Qed.
End Line.
