(* ===== verification/Keyboard.v ===== *)
(** The USB task ([src/src/sys/usb.rs]): it finds a keyboard on the bus, polls it, turns its reports into
    lines for the shell with what is typed echoed on the screen, and follows devices as they come and go.

    What the host controller answers to a poll of the keyboard is an input ([Polled]); the data toggle is the
    controller's.  What the task shows and hands over is the list of its outputs, in order ([Output]).  Its
    messages are left out. *)
From S2P Require Import Prelude Bytes Text Link Console Effect Usb UsbTree Keys.
Open Scope Z_scope.

Module Keyboard.
Import Effect Usb UsbTree.

Definition MAX_LINE : Z := Z.of_nat Link.MAX_LINE.
Definition MIN_POLL_US : Z := 10000.
Definition HOTPLUG_POLL_US : Z := 500000.

Inductive Input := Line (l : list Z) | Interrupt.
Inductive Output := Echoed (shown : list Z) | Cleared | Given (i : Input).

(** ** Keyboards on the bus *)
Record InterruptIn := mkInterruptIn { in_target : Target; in_endpoint : Z; in_max_packet : Z }.
Record Keyboard := mkKeyboard { kb_target : Target; kb_interface : Z; input : InterruptIn; poll_us : Z }.

Definition keyboard_of {E} (d : Device E) : option Keyboard :=
  i ← List.find is_boot_keyboard (interfaces (configuration d));
  e ← endpoint Usb.Interrupt In i;
  Some (mkKeyboard (target d) (number i) (mkInterruptIn (target d) (ep_number e) (ep_max_packet_size e))
          (Z.max (interval e * 1000) MIN_POLL_US)).

Definition find_keyboard {E} (root : Device E) (skip : option Z) : option Keyboard :=
  head (omap keyboard_of (filter (λ d, Some (address d) ≠ skip) (snd <$> walk root))).

Definition set_up `{Bus B E} (k : Keyboard) (b : B) : B * result E unit :=
  match bus_control (kb_target k) (set_protocol (kb_interface k) true) [] b with
  | (b, Err e) => (b, Err e)
  | (b, Ok _) => ((bus_control (kb_target k) (set_idle (kb_interface k)) [] b).1, Ok tt)
  end.

(** ** Typing *)
Record KeyboardState := mkState {
  keyboard : Keyboard;
  previous : KeyboardReport;
  editor : Line.LineEditor;
  composer : Keys.Composer;
  repeater : Keys.Repeater;
  failing : bool;
}.

Definition new (k : Keyboard) : KeyboardState :=
  mkState k (mkReport 0 (replicate 6 0)) (Line.new MAX_LINE) Keys.new Keys.new_repeater false.

Definition with_typing (e : Line.LineEditor) (c : Keys.Composer) (s : KeyboardState) : KeyboardState :=
  mkState (keyboard s) (previous s) e c (repeater s) (failing s).
Definition with_previous (r : KeyboardReport) (s : KeyboardState) : KeyboardState :=
  mkState (keyboard s) r (editor s) (composer s) (repeater s) (failing s).
Definition with_repeater (r : Keys.Repeater) (s : KeyboardState) : KeyboardState :=
  mkState (keyboard s) (previous s) (editor s) (composer s) r (failing s).
Definition with_failing (f : bool) (s : KeyboardState) : KeyboardState :=
  mkState (keyboard s) (previous s) (editor s) (composer s) (repeater s) f.

(** [type_key]'s closure [edit], for each character typed: [feed] echoes, and then gives the line. *)
Fixpoint edit_all (cs : list Z) (e : Line.LineEditor) : Line.LineEditor * list Output :=
  match cs with
  | [] => (e, [])
  | c :: cs =>
    let '(e, shown, finished) := Line.feed c e in
    let '(e, more) := edit_all cs e in
    (e, Echoed shown :: match finished with Some l => [Given (Line l)] | None => [] end ++ more)
  end.

(** Whether the key repeats when held. *)
Definition type_key (layout : Layout) (key : Z) (m : Modifiers) (s : KeyboardState) : KeyboardState * list Output * bool :=
  match Usb.key layout key m with
  | None => (s, [], false)
  | Some (Char c) =>
    let '(composer, cs) := Keys.char c (composer s) in
    let '(editor, out) := edit_all cs (editor s) in
    (with_typing editor composer s, out, true)
  | Some (Dead accent) =>
    let '(composer, cs) := Keys.dead accent (composer s) in
    let '(editor, out) := edit_all cs (editor s) in
    (with_typing editor composer s, out, false)
  | Some (Ctrl letter) =>
    if letter =? 0x63 then
      (with_typing (Line.clear (editor s)).1 (Keys.reset (composer s)) s,
       [Echoed [0x5E; 0x43; 0x0A]; Given Interrupt], false)
    else if letter =? 0x75 then
      let '(editor, shown) := Line.clear (editor s) in
      (with_typing editor (Keys.reset (composer s)) s, [Echoed shown], false)
    else if letter =? 0x6C then (s, [Cleared; Echoed (Line.line (editor s))], false)
    else (s, [], false)
  end.

(** The loop over the keys pressed; [layouts] are the layouts in use, key by key. *)
Fixpoint type_keys (layouts : nat → Layout) (ks : list Z) (m : Modifiers) (now : Z) (s : KeyboardState)
    : KeyboardState * list Output :=
  match ks with
  | [] => (s, [])
  | key :: ks =>
    let '(s, out, repeats) := type_key (layouts 0%nat) key m s in
    let s := with_repeater (if repeats then Keys.pressed key now (repeater s) else Keys.stop (repeater s)) s in
    let '(s, more) := type_keys (λ i, layouts (S i)) ks m now s in
    (s, out ++ more)
  end.

(** What asking the keyboard gives: the buffer with how much of it is a report, nothing new, or an error. *)
Inductive Polled := Report (bytes : list Z) (count : nat) | Nothing | PollError | NoBus.

(** [now] and [later] are the timer's readings, [after] the layout for a key that repeats; [None] is a
    panic. *)
Definition poll (layouts : nat → Layout) (after : Layout) (p : Polled) (now later : Z) (s : KeyboardState)
    : option (KeyboardState * list Output) :=
  let repeat (s : KeyboardState) (out : list Output) :=
    let '(r, due) := Keys.due (keys (previous s)) later (repeater s) in
    let s := with_repeater r s in
    match due with
    | Some key => let '(s, more, _) := type_key after key (held (previous s)) s in (s, out ++ more)
    | None => (s, out)
    end in
  match p with
  | Report bytes count =>
    let s := with_failing false s in
    bytes ← slice 0 count bytes;
    parsed ← parse_report bytes;
    match parsed with
    | Err _ => Some (repeat s [])
    | Ok report =>
      let '(s, out) := type_keys layouts (pressed_since report (previous s)) (held report) now s in
      Some (repeat (with_previous report s) out)
    end
  | Nothing => Some (repeat (with_failing false s) [])
  | PollError => Some (with_failing true s, [])
  | NoBus => Some (s, [])
  end.

(** ** Devices come and go *)
Record Serve := mkServe { in_use : option KeyboardState; refused : option Z; next_hotplug : Z }.
Definition start : Serve := mkServe None None 0.

(** What a change does to the keyboard in use and to the one left alone. *)
Definition forget (c : Change) (v : Serve) : Serve :=
  match c with
  | Added _ => v
  | Removed a =>
    mkServe (match in_use v with
             | Some k => if tg_address (kb_target (keyboard k)) =? a then None else Some k
             | None => None
             end)
            (if bool_decide (refused v = Some a) then None else refused v) (next_hotplug v)
  end.

(** One turn of [serve]'s loop up to its sleep, with the bus running; what other tasks send on the bus between
    its transfers is not shown. *)
Definition serve_turn `{Bus B E} (now : Z) (b : B) (t : Tree E) (v : Serve) : option (B * Tree E * Serve) :=
  if next_hotplug v <=? now then
    match poll_changes b t with
    | Ret st (t, changes) =>
      let b := bus st in
      let v := foldl (λ v c, forget c v) (mkServe (in_use v) (refused v) (wrap 64 (now + HOTPLUG_POLL_US))) changes in
      match in_use v with
      | Some _ => Some (b, t, v)
      | None =>
        match find_keyboard (tree_root t) (refused v) with
        | None => Some (b, t, v)
        | Some found =>
          let '(b, r) := set_up found b in
          Some (b, t, match r with
                      | Ok _ => mkServe (Some (new found)) (refused v) (next_hotplug v)
                      | Err _ => mkServe None (Some (tg_address (kb_target found))) (next_hotplug v)
                      end)
        end
      end
    | _ => None
    end
  else Some (b, t, v).

Definition sleep_us (v : Serve) : Z := match in_use v with Some k => poll_us (keyboard k) | None => HOTPLUG_POLL_US end.

(** After the sleep. *)
Definition serve_poll (layouts : nat → Layout) (after : Layout) (p : Polled) (now later : Z) (v : Serve)
    : option (Serve * list Output) :=
  match in_use v with
  | None => Some (v, [])
  | Some k =>
    '(k, out) ← poll layouts after p now later k;
    Some (mkServe (Some k) (refused v) (next_hotplug v), out)
  end.

(** * The screen shows the line *)

(** What of the lines given does not depend on the screen. *)
Definition proper (o : Output) : Prop :=
  match o with
  | Given (Line l) => Text.str_len l <= MAX_LINE ∧ Forall (λ c, Line.is_control c = false) l
  | _ => True
  end.

(** Outputs on a screen that was [before] until its last change and [v] since, the editor being [e] in the end.  As long
    as what is echoed fits its row, it is shown; a line given is the one the screen showed before Enter moved on; and in
    the end the screen shows the line being typed. *)
Fixpoint obeys (before v : Line.Screen) (e : Line.LineEditor) (outs : list Output) : Prop :=
  match outs with
  | [] => Line.displays (Line.line e) v
  | Echoed xs :: outs => Line.in_row xs v → ∃ v', Line.echo xs v = Some v' ∧ obeys v v' e outs
  | Cleared :: outs => ∃ v', Console.clear v.1 v.2 = Some v' ∧ obeys v v' e outs
  | Given (Line l) :: outs => Line.displays l before ∧ obeys before v e outs
  | Given Interrupt :: outs => obeys before v e outs
  end.

Lemma obeys_app before v e e' outs1 outs2 : obeys before v e outs1 →
  (∀ before v, Line.displays (Line.line e) v → obeys before v e' outs2) → obeys before v e' (outs1 ++ outs2).
Proof.
  intros Ho Hnext. revert before v Ho. induction outs1 as [|o outs1 IH]; intros before v Ho; cbn [app obeys] in *; [by apply Hnext|].
  destruct o as [xs| |[l|]].
  - intros Hin. destruct (Ho Hin) as (v' & E & Ho'). exists v'. split; [done|by apply IH].
  - destruct Ho as (v' & E & Ho'). exists v'. split; [done|by apply IH].
  - destruct Ho as [Hd Ho']. split; [done|by apply IH].
  - by apply IH.
Qed.

Definition kept (e : Line.LineEditor) : Prop := Line.sound e ∧ Line.max e = MAX_LINE.

(** From an editor to another, what came out is in order, whatever screen showed the first one's line. *)
Definition screened (e e' : Line.LineEditor) (outs : list Output) : Prop :=
  kept e → kept e' ∧ Forall proper outs ∧ ∀ before v, Line.displays (Line.line e) v → obeys before v e' outs.

Lemma screened_nil e : screened e e [].
Proof. intros He. split_and!; [done|constructor|]. by intros before v Hd. Qed.

Lemma screened_app e e1 e' outs1 outs2 : screened e e1 outs1 → screened e1 e' outs2 → screened e e' (outs1 ++ outs2).
Proof.
  intros H1 H2 He. destruct (H1 He) as (He1 & Hp1 & Ho1). destruct (H2 He1) as (He2 & Hp2 & Ho2).
  split_and!; [done|by apply Forall_app|]. intros before v Hd. eapply obeys_app; [by apply Ho1|done].
Qed.

Lemma feed_screened c e : let '(e', shown, finished) := Line.feed c e in
  screened e e' (Echoed shown :: match finished with Some l => [Given (Line l)] | None => [] end).
Proof.
  pose proof (Line.feed_sound c e) as Hs. pose proof (λ v, Line.feed_displays c e v) as Hd.
  destruct (Line.feed c e) as [[e1 shown] finished]. intros [He Hm]. destruct (Hs He ltac:(by rewrite Hm)) as (He1 & Hm1 & Hl).
  split; [split; [done|congruence]|]. destruct finished as [l|].
  - destruct Hl as (_ & -> & _). destruct He as [Hlen Hctl]. rewrite Hm in Hlen. split; [by repeat constructor|].
    intros before v Hv Hin. destruct (Hd v Hv Hin) as (v' & E & Hd'). by exists v'.
  - split; [by repeat constructor|]. intros before v Hv Hin. destruct (Hd v Hv Hin) as (v' & E & Hd'). by exists v'.
Qed.

Lemma edit_all_screened cs e e' outs : edit_all cs e = (e', outs) → screened e e' outs.
Proof.
  revert e e' outs. induction cs as [|c cs IH]; intros e e' outs Hed; cbn [edit_all] in Hed; [injection Hed as <- <-; apply screened_nil|].
  pose proof (feed_screened c e) as Hf. destruct (Line.feed c e) as [[e1 shown] finished]. destruct (edit_all cs e1) as [e2 more] eqn:Em.
  injection Hed as <- <-. rewrite app_comm_cons. eapply screened_app; [exact Hf|by apply IH].
Qed.

Lemma in_row_app xs ys v : Line.in_row (xs ++ ys) v → Line.in_row xs v.
Proof.
  revert v. induction xs as [|x xs IH]; intros v; [done|]. cbn [app Line.in_row]. intros [Hc Hin]. split; [done|].
  destruct (Console.write_char x v.1 v.2); [by apply IH|done].
Qed.

(** Ctrl+C: the line is left as it is, and a new row begun. *)
Lemma interrupt_shown l v : Line.displays l v → Line.in_row [0x5E; 0x43; 0x0A] v →
  ∃ v', Line.echo [0x5E; 0x43; 0x0A] v = Some v' ∧ Line.displays [] v'.
Proof.
  intros Hd Hin%(in_row_app [0x5E; 0x43] [0x0A]). destruct (Line.displays_line v l [0x5E; 0x43] Hd ltac:(by repeat constructor) Hin) as (v1 & E1 & Hd1).
  destruct (Line.displays_newline v1 _ Hd1) as (v2 & E2 & Hd2). exists v2. split; [|done].
  change [0x5E; 0x43; 0x0A] with ([0x5E; 0x43] ++ [0x0A]). by rewrite Line.echo_app, E1.
Qed.

Lemma type_key_screened layout key m s s' outs b : type_key layout key m s = (s', outs, b) →
  screened (editor s) (editor s') outs.
Proof.
  intros Ht. unfold type_key in Ht. destruct (Usb.key layout key m) as [[c|accent|letter]|]; [| | |simplify_eq; apply screened_nil].
  - destruct (Keys.char c (composer s)) as [cp cs]. destruct (edit_all cs (editor s)) as [e out] eqn:Ee. simplify_eq.
    by eapply edit_all_screened.
  - destruct (Keys.dead accent (composer s)) as [cp cs]. destruct (edit_all cs (editor s)) as [e out] eqn:Ee. simplify_eq.
    by eapply edit_all_screened.
  - assert (Hempty : kept (editor s) → kept (Line.clear (editor s)).1).
    { intros [_ Hm]. split; [|done]. split; [cbn; rewrite Hm; done|by constructor]. }
    destruct (letter =? 0x63); [|destruct (letter =? 0x75); [|destruct (letter =? 0x6C)]].
    + injection Ht as <- <- _. intros He. split_and!; [by apply Hempty|by repeat constructor|]. intros before v Hd Hin.
      destruct (interrupt_shown _ v Hd Hin) as (v' & E & Hd'). by exists v'.
    + pose proof (Line.clear_displays (editor s)) as Hc. destruct (Line.clear (editor s)) as [e shown] eqn:Ec. injection Ht as <- <- _.
      intros He. split_and!; [by apply Hempty|by repeat constructor|]. intros before v Hd _. injection Ec as <- <-.
      destruct (Hc v Hd) as (v' & E & Hd'). by exists v'.
    + injection Ht as <- <- _. intros He. split_and!; [done|by repeat constructor|]. intros before v Hd.
      destruct (Line.displays_clear v (Line.di_wf _ _ Hd)) as (v1 & E1 & Hd1). exists v1. split; [done|]. intros Hin.
      destruct (Line.displays_line v1 [] (Line.line (editor s)) Hd1 ltac:(apply He) Hin) as (v2 & E2 & Hd2). by exists v2.
    + simplify_eq. apply screened_nil.
Qed.

Lemma type_keys_screened layouts ks m now s s' outs : type_keys layouts ks m now s = (s', outs) → screened (editor s) (editor s') outs.
Proof.
  revert layouts s s' outs. induction ks as [|key ks IH]; intros layouts s s' outs Ht; cbn [type_keys] in Ht; [injection Ht as <- <-; apply screened_nil|].
  destruct (type_key (layouts 0%nat) key m s) as [[s1 out] b] eqn:E1.
  destruct (type_keys _ ks m now (with_repeater _ s1)) as [s2 more] eqn:E2. injection Ht as <- <-.
  eapply screened_app; [by eapply type_key_screened|]. by apply IH in E2.
Qed.

Lemma poll_screened layouts after p now later s s' outs : poll layouts after p now later s = Some (s', outs) →
  screened (editor s) (editor s') outs.
Proof.
  intros Hp.
  assert (Hrep : ∀ s0 out, screened (editor s) (editor s0) out →
    (let '(r, due) := Keys.due (keys (previous s0)) later (repeater s0) in
     match due with
     | Some key => let '(s, more, _) := type_key after key (held (previous (with_repeater r s0))) (with_repeater r s0) in (s, out ++ more)
     | None => (with_repeater r s0, out)
     end) = (s', outs) → screened (editor s) (editor s') outs).
  { intros s0 out Hs0 He. destruct (Keys.due _ _ _) as [r [key|]]; [|by simplify_eq].
    destruct (type_key after key _ (with_repeater r s0)) as [[s1 more] b] eqn:E1. injection He as <- <-.
    eapply screened_app; [exact Hs0|]. by apply type_key_screened in E1. }
  unfold poll in Hp. destruct p as [bytes count| | |].
  - apply bind_Some in Hp as (bs & _ & Hp). apply bind_Some in Hp as ([report|e] & _ & Hp).
    + destruct (type_keys layouts _ _ now (with_failing false s)) as [s1 out] eqn:E1. apply Some_inj in Hp.
      apply type_keys_screened in E1. by apply (Hrep (with_previous report s1) out).
    + apply Some_inj in Hp. apply (Hrep (with_failing false s) []); [apply screened_nil|done].
  - apply Some_inj in Hp. apply (Hrep (with_failing false s) []); [apply screened_nil|done].
  - injection Hp as <- <-. apply screened_nil.
  - injection Hp as <- <-. apply screened_nil.
Qed.

(** The task's polls of one keyboard, one after the other, whatever it answers. *)
Fixpoint poll_all (inputs : list ((nat → Layout) * Layout * Polled * Z * Z)) (s : KeyboardState) : option (KeyboardState * list Output) :=
  match inputs with
  | [] => Some (s, [])
  | (layouts, after, p, now, later) :: inputs =>
    '(s, out) ← poll layouts after p now later s;
    '(s, more) ← poll_all inputs s;
    Some (s, out ++ more)
  end.

Lemma poll_all_screened inputs s s' outs : poll_all inputs s = Some (s', outs) → screened (editor s) (editor s') outs.
Proof.
  revert s outs. induction inputs as [|[[[[ls a] p] now] later] inputs IH]; intros s outs Hp; cbn [poll_all] in Hp; [injection Hp as <- <-; apply screened_nil|].
  apply bind_Some in Hp as ([s1 out] & H1 & Hp). apply bind_Some in Hp as ([s2 more] & H2 & [= <- <-]).
  eapply screened_app; [by eapply poll_screened|by apply IH].
Qed.

(** A report that fits its buffer. *)
Definition fits (p : Polled) : Prop := match p with Report bytes count => (count <= length bytes)%nat | _ => True end.

Lemma poll_total layouts after p now later s : fits p → is_Some (poll layouts after p now later s).
Proof.
  intros Hf. unfold poll. destruct p as [bytes count| | |]; try by eexists.
  assert (Hs : slice 0 count bytes = Some (take count bytes)).
  { unfold slice. rewrite decide_True by (cbn in Hf; lia). by rewrite drop_0, Nat.sub_0_r. }
  rewrite Hs. cbn [mbind option_bind]. destruct (descriptors_never_panic (take count bytes)) as (_ & _ & _ & _ & _ & r & ->).
  cbn [mbind option_bind]. destruct r as [report|e]; [|by eexists]. destruct (type_keys _ _ _ _ _). by eexists.
Qed.

(** C31: What is typed on the keyboard is what the screen shows and the shell gets, for lines that fit their row.
    Whatever reports the keyboard sends, errors and garbage included, however it is polled and the layout
    switched, the task does not panic, and every line it gives the shell fits in a line of the link and has no control
    characters.  On the console, from any column of a row that is empty from there on, and while nothing else is printed:
    as long as no character is echoed past the end of the row (lines may be longer than a row, and then
    [wrapped_line_stays_on_the_screen]), what is echoed leaves exactly the line being typed on the screen, the cursor
    after it and nothing behind, accents and repeated keys included, also after Ctrl+C, Ctrl+U and Ctrl+L; and every
    line given is the one the screen showed until Enter. *)
Theorem shell_gets_what_the_screen_shows k inputs v : Forall (λ '(_, _, p, _, _), fits p) inputs → Line.displays [] v →
  ∃ s outs, poll_all inputs (new k) = Some (s, outs) ∧ Forall proper outs ∧ obeys v v (editor s) outs ∧
    Text.str_len (Line.line (editor s)) <= MAX_LINE.
Proof.
  intros Hf Hv. assert (Hall : ∀ s, is_Some (poll_all inputs s)).
  { induction Hf as [|[[[[ls a] p] now] later] inputs Hp _ IH]; intros s; cbn [poll_all]; [by eexists|].
    destruct (poll_total ls a p now later s Hp) as [[s1 out] ->]. cbn [mbind option_bind]. destruct (IH s1) as [[s2 more] ->]. by eexists. }
  destruct (Hall (new k)) as [[s outs] Hp]. exists s, outs. split; [done|].
  destruct (poll_all_screened inputs _ _ _ Hp) as ([[Hl _] Hm] & Hpr & Ho); [by split; [split|]|]. rewrite Hm in Hl. split_and!; try done. by apply Ho.
Qed.

(** * Serving *)
Section serving.
Context `{LawfulBus B E}.

Lemma find_keyboard_Some (root : Device E) skip k : find_keyboard root skip = Some k →
  ∃ d, d ∈ (snd <$> walk root) ∧ keyboard_of d = Some k ∧ kb_target k = target d ∧ Some (address d) ≠ skip.
Proof.
  unfold find_keyboard. intros Hk. destruct (omap _ _) as [|k' ks] eqn:Eo; [done|]. injection Hk as ->.
  assert (Hin : k ∈ omap keyboard_of (filter (λ d, Some (address d) ≠ skip) (snd <$> walk root))) by (rewrite Eo; left).
  apply list_elem_of_omap in Hin as (d & [Hs Hd]%list_elem_of_filter & Hkd). exists d. split_and!; try done.
  unfold keyboard_of in Hkd. apply bind_Some in Hkd as (i & _ & Hkd). by apply bind_Some in Hkd as (e & _ & [= <-]).
Qed.

Lemma forget_all_keeps changes v k : in_use (foldl (λ v c, forget c v) v changes) = Some k → in_use v = Some k.
Proof.
  revert v. induction changes as [|c changes IH]; intros v Hk; [done|]. apply IH in Hk. destruct c as [a|a]; [done|].
  cbn [forget in_use] in Hk. destruct (in_use v) as [k1|]; [|done]. by destruct (_ =? a).
Qed.

(** Serving goes on, whatever the bus answers: a turn of the loop does not panic, the tree stays one the bus can lead to, and a
    keyboard taken into use is a boot keyboard of the tree other than the one that would not set up. *)
Theorem serving_goes_on now (b : B) (t : Tree E) v : reached t →
  ∃ b' t' v', serve_turn now b t v = Some (b', t', v') ∧ reached t' ∧
    ∀ k, in_use v' = Some k → (∃ k', in_use v = Some k' ∧ k = k') ∨
      ∃ d, d ∈ (snd <$> walk (tree_root t')) ∧ keyboard_of d = Some (keyboard k) ∧ k = new (keyboard k).
Proof.
  intros Hr. unfold serve_turn. destruct (next_hotplug v <=? now); [|exists b, t, v; split_and!; eauto].
  destruct (polling_never_fails t b Hr) as (st & t' & changes & Hp). rewrite Hp. pose proof (reached_poll _ _ _ _ _ Hr Hp) as Hr'.
  set (v0 := foldl _ _ changes).
  assert (Hkeep : ∀ k, in_use v0 = Some k → in_use v = Some k).
  { intros k Hk. by apply forget_all_keeps in Hk. }
  destruct (in_use v0) as [k0|] eqn:Ei.
  { do 3 eexists. split; [done|]. split; [done|]. intros k Hk. rewrite Ei in Hk. left. exists k. split; [|done]. apply Hkeep. congruence. }
  destruct (find_keyboard (tree_root t') (refused v0)) as [found|] eqn:Ef.
  - destruct (set_up found (bus st)) as [b' r]. do 3 eexists. split; [done|]. split; [done|]. intros k Hk. right.
    destruct r as [u|e]; [|done]. injection Hk as <-. destruct (find_keyboard_Some _ _ _ Ef) as (d & Hd & Hkd & _). by exists d.
  - do 3 eexists. split; [done|]. split; [done|]. intros k Hk. by rewrite Ei in Hk.
Qed.
End serving.

(** * A hub with a keyboard behind it *)
Module Demo.
#[local] Existing Instances Script.script_bus Script.script_lawful.

Definition hub_comes_up : list (list Z) := [[9; 0x29; 1; 0; 0; 50; 0]; []; [1; 1; 0; 0]; []; [3; 1; 0x10; 0]; []; []].
Definition keyboard_config : list Z := config_bytes 1 1 0 0xA0 50 [Usb.keyboard].
Definition keyboard_comes_up : list (list Z) :=
  [Script.device_bytes 0; []; Script.device_bytes 0; take 9 keyboard_config; keyboard_config; []].

(** The root hub at address 1, a hub at 2 on it, a keyboard at 3 on that. *)
Definition devices : Tree unit :=
  match enumerate (Script.enumerated 9 ++ hub_comes_up ++ Script.enumerated 9 ++ hub_comes_up ++ keyboard_comes_up) High with
  | Ret _ t => t
  | _ => Script.tree
  end.

Lemma devices_reached : reached devices.
Proof.
  destruct (enumerate (Script.enumerated 9 ++ hub_comes_up ++ Script.enumerated 9 ++ hub_comes_up ++ keyboard_comes_up) High) as [st t|st e|] eqn:E;
    [|exfalso; revert E; vm_compute; discriminate..].
  eapply reached_enumerate. unfold devices. rewrite E. reflexivity.
Qed.

(** Three turns: nothing changed, and the keyboard is taken into use; then the hub is pulled out; then the keyboard is plugged into the
    root hub. *)
Definition turns : option (Tree unit * Serve) :=
  '(_, t, v) ← serve_turn 0 [[3; 1; 0; 0]; [3; 1; 0; 0]; []; []] devices start;
  '(_, t, v) ← serve_turn 500000 [[0; 1; 1; 0]; []] t v;
  '(_, t, v) ← serve_turn 1000000 ([[1; 1; 1; 0]; []] ++ [[1; 1; 0; 0]; []; [3; 1; 0x10; 0]; []; []] ++ keyboard_comes_up) t v;
  Some (t, v).

(** A keyboard stays in use when the hub it is on is pulled out, since only the hub's address is reported as gone: although the tree no
    longer has it, the task polls its address on, and a keyboard plugged in afterwards is left alone. *)
Theorem pulled_hub_keeps_its_keyboard : ∃ t v k, turns = Some (t, v) ∧ in_use v = Some k ∧
  find_device t (tg_address (kb_target (keyboard k))) = None ∧ is_Some (find_keyboard (tree_root t) (refused v)).
Proof. do 3 eexists. split; [vm_compute; reflexivity|]. split; [reflexivity|]. split; [vm_compute; reflexivity|]. by vm_compute; eexists. Qed.

Lemma serving_goes_on_witness : ∃ b t v, serve_turn 0 [[3; 1; 0; 0]; [3; 1; 0; 0]; []; []] devices start = Some (b, t, v) ∧ reached t.
Proof.
  destruct (serving_goes_on 0 [[3; 1; 0; 0]; [3; 1; 0; 0]; []; []] devices start devices_reached) as (b & t & v & Ht & Hr & _).
  exists b, t, v. split; [exact Ht|exact Hr].
Defined.

(** An accent, an e and Enter on a Swedish keyboard. *)
Definition report (key : Z) : Polled := Report [0; 0; key; 0; 0; 0; 0; 0] 8.
Definition typing : list ((nat → Layout) * Layout * Polled * Z * Z) :=
  (λ key, (λ _, Swedish, Swedish, report key, 0, 0)) <$> [0x2E; 0; 0x08; 0; 0x28].
Definition found : Keyboard := mkKeyboard (mkTarget 3 8 Low None) 0 (mkInterruptIn (mkTarget 3 8 Low None) 1 8) 10000.

(** A console of 80 columns, as on a screen 1280 pixels wide. *)
Definition screen : Line.Screen := (Console.new 80 45, λ _ _, Console.SPACE).

Lemma screen_empty : Line.displays [] screen.
Proof.
  constructor; [constructor; (reflexivity || by apply Nat.leb_le)| |cbn; lia|].
  - intros x y Hx Hy. change (Console.cells screen.1 !! (y * 80 + x)%nat = Some Console.SPACE). change (Console.cells screen.1) with (replicate (80 * 45) Console.SPACE).
    cbn [screen Console.new Console.cols Console.rows fst Nat.max] in Hx, Hy. apply lookup_replicate_2. lia.
  - exists [], (Console.cells screen.1). split_and!; [done|done|]. by apply Forall_replicate.
Qed.

Lemma shell_gets_what_the_screen_shows_witness :
  ∃ s outs, poll_all typing (new found) = Some (s, outs) ∧ outs = [Echoed [0xE9]; Echoed [0x0A]; Given (Line [0xE9])] ∧
    ∃ v, Line.echo [0xE9] screen = Some v ∧ Line.displays [0xE9] v.
Proof.
  assert (Hf : Forall (λ '(_, _, p, _, _), fits p) typing) by (apply Forall_fmap, Forall_true; intros key; cbn; lia).
  destruct (shell_gets_what_the_screen_shows found typing screen Hf screen_empty) as (s & outs & Hp & _ & Ho & _). exists s, outs.
  assert (He : snd <$> poll_all typing (new found) = Some [Echoed [0xE9]; Echoed [0x0A]; Given (Line [0xE9])]) by (vm_compute; reflexivity).
  rewrite Hp in He. injection He as ->. split; [exact Hp|]. split; [reflexivity|]. cbn [obeys] in Ho.
  destruct Ho as (v & E & Ho); [split; [intros _; apply Nat.ltb_lt; vm_compute; reflexivity|exact I]|]. exists v. split; [exact E|].
  destruct Ho as (v' & _ & Hd & _); [|exact Hd]. split; [intros Hc; discriminate Hc|]. by destruct (Console.write_char 0x0A v.1 v.2).
Defined.

Definition echoed (outs : list Output) : list Z := concat (omap (λ o, match o with Echoed xs => Some xs | _ => None end) outs).

(** A line longer than the row is not wiped off the screen: the console's backspace stops at the start of a row, so after
    a hundred letters and Ctrl+U the editor's line is empty, but the first row still shows eighty of them, and the cursor
    stays below. *)
Theorem wrapped_line_stays_on_the_screen :
  let '(e, outs) := edit_all (replicate 100 0x61) (Line.new MAX_LINE) in
  let '(e', wiped) := Line.clear e in
  length (Line.line e) = 100%nat ∧ Line.line e' = [] ∧
  match Line.echo (echoed outs ++ wiped) screen with
  | Some v => take 81 (Console.cells v.1) = replicate 80 0x61 ++ [Console.SPACE] ∧ Console.row v.1 = 1%nat
  | None => False
  end.
Proof. vm_compute. split_and!; reflexivity. Qed.
End Demo.
End Keyboard.
