(* ===== verification/Firmware.v ===== *)
(** The VideoCore firmware's property messages ([rustypi-core/src/mailbox/mod.rs], [mailbox/tags.rs]), how the
    hardware carries them ([src/drivers/mailbox/mod.rs]), and two small formats of the hardware: pixels ([graphics.rs]) and the SD card's capacity ([sd.rs]).  A message is a
    list of 32-bit words; a request or response type is the number of words it takes. *)
From S2P Require Import Prelude Bytes Effect Mmio.
Open Scope Z_scope.

Module Mailbox.

Definition MESSAGE_WORDS : nat := 256.
Definition REQUEST : Z := 0.
Definition RESPONSE_OK : Z := 0x80000000.
Definition TAG_RESPONSE : Z := Z.shiftl 1 31.
Definition END_TAG : Z := 0.
Definition TAG_HEADER_WORDS : nat := 3.

(** A firmware property tag: its ID, the words of its request and response, and how many bytes of the
    response the firmware answers with. *)
Record Tag := mkTag { ID : Z; request_words : nat; response_words : nat; RESPONSE_BYTES : nat }.

Inductive MailboxError :=
| Firmware (code : Z)
| Unanswered (tag : Z)
| Truncated (tag : Z) (needed capacity : Z)
| ShortResponse (tag : Z) (len expected : Z)
| BatchFull
| WrongBatch (tag : Z).

(** [None] is [usize::MAX], the handle of a tag that did not fit. *)
Record Handle := mkHandle { offset : option nat }.

Record Batch := mkBatch { msg : list Z; len : nat; full : bool }.
Definition new : Batch := mkBatch (replicate MESSAGE_WORDS 0) 2 false.

Definition value_words (t : Tag) : nat := Nat.max (request_words t) (response_words t).

(** Overwrites [words] from [at_]. *)
Definition write (at_ : nat) (words m : list Z) : list Z := take at_ m ++ words ++ drop (at_ + length words) m.

(** [request] has [request_words t] words. *)
Definition add (t : Tag) (request : list Z) (b : Batch) : Batch * Handle :=
  let n := value_words t in
  let offset := len b in
  if (MESSAGE_WORDS <? offset + TAG_HEADER_WORDS + n + 1)%nat then (mkBatch (msg b) (len b) true, mkHandle None) else
  let m := write offset [ID t; Z.of_nat (n * 4); REQUEST] (msg b) in
  let value := (offset + TAG_HEADER_WORDS)%nat in
  let m := write value (replicate n 0) m in
  let m := write value request m in
  (mkBatch m (value + n) (full b), mkHandle (Some offset)).

Record Replies := mkReplies { reply : list Z; reply_len : nat }.

(** The message as the firmware gets it. *)
Definition sent (b : Batch) : list Z :=
  let m := <[len b := END_TAG]> (msg b) in
  let m := <[0%nat := Z.of_nat ((len b + 1) * 4)]> m in
  <[1%nat := REQUEST]> m.

(** [transport] is [Transport::call], which answers in place. *)
Definition send (transport : list Z → list Z) (b : Batch) : result MailboxError Replies :=
  if full b then Err BatchFull else
  let m := transport (sent b) in
  if negb ((m !!! 1%nat) =? RESPONSE_OK) then Err (Firmware (m !!! 1%nat)) else Ok (mkReplies m (len b)).

(** [None] is a read outside the message, which the unsafe code would make. *)
Definition get (t : Tag) (h : Handle) (r : Replies) : option (result MailboxError (list Z)) :=
  match offset h with
  | None => Some (Err (WrongBatch (ID t)))
  | Some offset =>
    if (reply_len r <? offset + TAG_HEADER_WORDS)%nat then Some (Err (WrongBatch (ID t))) else
    id ← reply r !! offset;
    if negb (id =? ID t) then Some (Err (WrongBatch (ID t))) else
    code ← reply r !! (offset + 2)%nat;
    if Z.land code TAG_RESPONSE =? 0 then Some (Err (Unanswered (ID t))) else
    let len := Z.land code (Z.ones 31) in
    capacity ← reply r !! (offset + 1)%nat;
    if capacity <? len then Some (Err (Truncated (ID t) len capacity)) else
    if len <? Z.of_nat (RESPONSE_BYTES t) then Some (Err (ShortResponse (ID t) len (Z.of_nat (RESPONSE_BYTES t)))) else
    words ← slice (offset + TAG_HEADER_WORDS) (offset + TAG_HEADER_WORDS + response_words t) (reply r);
    Some (Ok words)
  end.

Definition query (t : Tag) (transport : list Z → list Z) (request : list Z) : option (result MailboxError (list Z)) :=
  let '(b, h) := add t request new in
  match send transport b with Ok r => get t h r | Err e => Some (Err e) end.

(** Memory as the GPU sees it, and as the ARM cores do. *)
Definition to_arm (bus : Z) : Z := Z.land bus 0x3FFFFFFF.
Definition from_arm (addr : Z) : Z := Z.lor (wrap 32 (Z.land addr 0x3FFFFFFF)) 0xC0000000.

(** ** Tags *)
Definition GetFirmwareRevision : Tag := mkTag 0x00000001 0 1 4.
Definition GetBoardRevision : Tag := mkTag 0x00010002 0 1 4.
Definition GetMacAddress : Tag := mkTag 0x00010003 0 2 6.
Definition GetArmMemory : Tag := mkTag 0x00010005 0 2 8.
Definition GetTemperature : Tag := mkTag 0x00030006 1 2 8.
Definition GetClockRate : Tag := mkTag 0x00030002 1 2 8.
Definition SetPowerState : Tag := mkTag 0x00028001 2 2 8.
Definition GetPhysicalSize : Tag := mkTag 0x00040003 0 2 8.
Definition SetPhysicalSize : Tag := mkTag 0x00048003 2 2 8.
Definition SetVirtualSize : Tag := mkTag 0x00048004 2 2 8.
Definition SetVirtualOffset : Tag := mkTag 0x00048009 2 2 8.
Definition SetDepth : Tag := mkTag 0x00048005 1 1 4.
Definition SetPixelOrder : Tag := mkTag 0x00048006 1 1 4.
Definition AllocateBuffer : Tag := mkTag 0x00040001 1 2 8.
Definition GetPitch : Tag := mkTag 0x00040008 0 1 4.

(** What requests name: a sensor, a clock, a block of the SoC. *)
Definition SOC : Z := 0.
Definition EMMC : Z := 1.
Definition USB_HCD : Z := 3.

Definition POWER_ON : Z := Z.shiftl 1 0.
Definition POWER_WAIT : Z := Z.shiftl 1 1.
Definition NO_DEVICE : Z := Z.shiftl 1 1.
(** The two words of [PowerState]. *)
Definition power_on (device : Z) : list Z := [device; Z.lor POWER_ON POWER_WAIT].
Definition is_on (state : Z) : bool := negb (Z.land state POWER_ON =? 0) && (Z.land state NO_DEVICE =? 0).
(** * Messages *)

(** The words of one tag: header and value. *)
Definition tag_words (t : Tag) (code : Z) (value : list Z) : list Z := [ID t; Z.of_nat (value_words t * 4); code] ++ value.

(** A request's value: the request, zeroes behind. *)
Definition request_value (t : Tag) (request : list Z) : list Z := request ++ replicate (value_words t - length request) 0.

Definition request_tag (x : Tag * list Z) : list Z := tag_words x.1 REQUEST (request_value x.1 x.2).

(** The batch holds the tags [ts], in order. *)
Record built (b : Batch) (ts : list (Tag * list Z)) : Prop := {
  bu_length : length (msg b) = MESSAGE_WORDS;
  bu_room : (len b + 1 ≤ MESSAGE_WORDS)%nat;
  bu_len : len b = (2 + length (concat (request_tag <$> ts)))%nat;
  bu_words : take (len b - 2) (drop 2 (msg b)) = concat (request_tag <$> ts) }.

Lemma write_length at_ words m : (at_ + length words ≤ length m)%nat → length (write at_ words m) = length m.
Proof. intros Hl. unfold write. rewrite !length_app, length_take, length_drop. lia. Qed.

(** Writing [n] words at once, in pieces. *)
Lemma write_app at_ xs ys m : (at_ + length xs + length ys ≤ length m)%nat →
  write (at_ + length xs) ys (write at_ xs m) = write at_ (xs ++ ys) m.
Proof.
  intros Hl. unfold write. rewrite (app_assoc (take at_ m)).
  assert (Hp : length (take at_ m ++ xs) = (at_ + length xs)%nat) by (rewrite length_app, length_take; lia).
  rewrite (take_app_length' (take at_ m ++ xs)) by lia.
  replace (at_ + length xs + length ys)%nat with (length (take at_ m ++ xs) + length ys)%nat by lia.
  rewrite drop_app_add, drop_drop, length_app, <-!app_assoc. do 3 f_equal. f_equal. lia.
Qed.

Lemma write_over at_ xs ys m : (length ys ≤ length xs)%nat → (at_ + length xs ≤ length m)%nat →
  write at_ ys (write at_ xs m) = write at_ (ys ++ drop (length ys) xs) m.
Proof.
  intros Hl Hm. unfold write. assert (Hp : length (take at_ m) = at_) by (rewrite length_take; lia).
  rewrite take_app_length' by lia.
  assert (Hd : drop (at_ + length ys) (take at_ m ++ xs ++ drop (at_ + length xs) m) = drop (length ys) xs ++ drop (at_ + length xs) m).
  { rewrite <-Hp at 1. by rewrite drop_app_add, drop_app_le by lia. }
  rewrite Hd, length_app, length_drop, <-!app_assoc. do 3 f_equal. f_equal. lia.
Qed.

Lemma add_writes t request b : length request = request_words t → length (msg b) = MESSAGE_WORDS →
  (len b + TAG_HEADER_WORDS + value_words t + 1 ≤ MESSAGE_WORDS)%nat →
  add t request b = (mkBatch (write (len b) (request_tag (t, request)) (msg b)) (len b + TAG_HEADER_WORDS + value_words t) (full b),
                     mkHandle (Some (len b))).
Proof.
  intros Hr Hm Hl. unfold add. rewrite (proj2 (Nat.ltb_ge _ _)) by lia. f_equal. f_equal.
  assert (Hw : (length request ≤ value_words t)%nat) by (unfold value_words; lia). unfold TAG_HEADER_WORDS in *.
  rewrite write_over; rewrite ?length_replicate, ?write_length by (cbn; lia); [|lia|lia].
  rewrite drop_replicate. fold (request_value t request).
  assert (Hv : length (request_value t request) = value_words t) by (unfold request_value; rewrite length_app, length_replicate; lia).
  change 3%nat with (length [ID t; Z.of_nat (value_words t * 4); REQUEST]) at 1. rewrite write_app; [done|]. cbn. lia.
Qed.

Lemma length_request_tag t request : length request = request_words t →
  length (request_tag (t, request)) = (TAG_HEADER_WORDS + value_words t)%nat.
Proof.
  intros Hr. unfold request_tag, tag_words, request_value, TAG_HEADER_WORDS. cbn [fst snd app length].
  rewrite length_app, length_replicate. unfold value_words. lia.
Qed.

Lemma write_take at_ words m k : (at_ ≤ length m)%nat → k = (at_ + length words)%nat → take k (write at_ words m) = take at_ m ++ words.
Proof.
  intros Hl ->. unfold write. rewrite app_assoc, take_app_length'; [done|]. rewrite length_app, length_take. lia.
Qed.

Lemma built_new : built new [].
Proof. constructor; [done|by apply Nat.leb_le|done|done]. Qed.

Lemma built_add b ts t request b' h : built b ts → length request = request_words t → add t request b = (b', h) → full b' = false →
  built b' (ts ++ [(t, request)]) ∧ offset h = Some (len b) ∧ full b = false.
Proof.
  intros [Hm Hroom Hlen Hw] Hr Hadd Hf. assert (Hfit : (len b + TAG_HEADER_WORDS + value_words t + 1 ≤ MESSAGE_WORDS)%nat).
  { unfold add in Hadd. destruct (Nat.ltb_spec MESSAGE_WORDS (len b + TAG_HEADER_WORDS + value_words t + 1)); [|done].
    injection Hadd as <- <-. discriminate. }
  rewrite add_writes in Hadd by done. injection Hadd as <- <-. cbn [full] in Hf.
  pose proof (length_request_tag t request Hr) as Hlt. split_and!; [|done|done].
  constructor; cbn [msg len].
  - rewrite write_length; [done|lia].
  - lia.
  - rewrite fmap_app, concat_app. cbn [fmap list_fmap concat]. rewrite app_nil_r, length_app, Hlt. lia.
  - rewrite fmap_app, concat_app. cbn [fmap list_fmap concat]. rewrite app_nil_r, <-Hw.
    rewrite take_drop_commute. replace (2 + (len b + TAG_HEADER_WORDS + value_words t - 2))%nat
      with (len b + length (request_tag (t, request)))%nat by lia.
    rewrite write_take, drop_app_le by (rewrite ?length_take; lia). f_equal.
    rewrite take_drop_commute. f_equal. f_equal. lia.
Qed.

(** Adding several tags. *)
Fixpoint add_all (ts : list (Tag * list Z)) (b : Batch) : Batch * list Handle :=
  match ts with
  | [] => (b, [])
  | (t, request) :: ts => let '(b, h) := add t request b in let '(b, hs) := add_all ts b in (b, h :: hs)
  end.

Lemma add_full t request b : full b = true → full (add t request b).1 = true.
Proof. intros Hf. unfold add. by destruct (_ <? _)%nat. Qed.

Lemma add_all_full ts b : full b = true → full (add_all ts b).1 = true.
Proof.
  revert b. induction ts as [|[t request] ts IH]; intros b Hf; cbn [add_all]; [done|].
  pose proof (add_full t request b Hf) as Hf1. destruct (add t request b) as [b1 h]. specialize (IH b1 Hf1).
  by destruct (add_all ts b1).
Qed.

(** Where each tag's handle points. *)
Lemma built_add_all ts b ts0 b' hs : built b ts0 → Forall (λ x, length x.2 = request_words x.1) ts →
  add_all ts b = (b', hs) → full b' = false →
  built b' (ts0 ++ ts) ∧ ∀ i h, hs !! i = Some h →
    offset h = Some (2 + length (concat (request_tag <$> (ts0 ++ take i ts))))%nat.
Proof.
  revert b ts0 hs. induction ts as [|[t request] ts IH]; intros b ts0 hs Hb Hok Hadd Hf; cbn [add_all] in Hadd.
  { injection Hadd as <- <-. rewrite app_nil_r. by split. }
  apply Forall_cons in Hok as [Hr Hok]. destruct (add t request b) as [b1 h] eqn:Ea.
  destruct (add_all ts b1) as [b2 hs2] eqn:Eb. injection Hadd as <- <-.
  assert (Hf1 : full b1 = false).
  { destruct (full b1) eqn:Ef; [|done]. pose proof (add_all_full ts b1 Ef) as Hff. rewrite Eb in Hff. cbn in Hff. congruence. }
  destruct (built_add b ts0 t request b1 h Hb Hr Ea Hf1) as (Hb1 & Hh & _).
  destruct (IH b1 (ts0 ++ [(t, request)]) hs2 Hb1 Hok Eb Hf) as [Hb2 Hhs]. rewrite <-app_assoc in Hb2. split; [done|].
  intros [|i] h' Hi; cbn [lookup list_lookup] in Hi.
  - injection Hi as <-. cbn [take]. rewrite app_nil_r, Hh. f_equal. by apply Hb.
  - cbn [take]. rewrite (Hhs i h' Hi), <-app_assoc. done.
Qed.
(** ** What the firmware sees *)

(** The firmware's side: the tags of a message, each with its ID, buffer size, code and value words, up to the
    end tag. *)
Fixpoint read_tags (fuel : nat) (words : list Z) : option (list (Z * Z * Z * list Z)) :=
  match fuel, words with
  | S _, 0 :: _ => Some []
  | S fuel, id :: size :: code :: rest =>
      let n := Z.to_nat (size / 4) in
      value ← slice 0 n rest;
      tags ← read_tags fuel (drop n rest);
      Some ((id, size, code, value) :: tags)
  | _, _ => None
  end.

Lemma sent_words b ts : built b ts → ∃ rest,
  sent b = Z.of_nat ((len b + 1) * 4) :: REQUEST :: concat (request_tag <$> ts) ++ END_TAG :: rest.
Proof.
  intros [Hm Hroom Hlen Hw]. set (body := concat (request_tag <$> ts)) in *. unfold sent.
  destruct (msg b) as [|w0 [|w1 m]] eqn:Em; [by cbn in Hm|by cbn in Hm|]. change (drop 2 (w0 :: w1 :: m)) with m in Hw.
  assert (Hl2 : len b = S (S (length body))) by lia. rewrite Hl2 in *.
  replace (S (S (length body)) - 2)%nat with (length body) in Hw by lia. cbn [length] in Hm. unfold MESSAGE_WORDS in *.
  destruct (lookup_lt_is_Some_2 m (length body)) as [x Hx]; [lia|]. exists (drop (S (length body)) m).
  cbn [insert list_insert]. f_equal. f_equal. rewrite <-(take_drop_middle m _ _ Hx) at 1. rewrite Hw.
  etransitivity; [apply (insert_app_r_alt body (x :: drop (S (length body)) m) (length body) END_TAG); lia|].
  by rewrite Nat.sub_diag.
Qed.

Lemma read_tags_built ts fuel rest : Forall (λ x, ID x.1 ≠ 0 ∧ length x.2 = request_words x.1) ts → (length ts < fuel)%nat →
  read_tags fuel (concat (request_tag <$> ts) ++ END_TAG :: rest) =
  Some ((λ '(t, request), (ID t, Z.of_nat (value_words t * 4), REQUEST, request_value t request)) <$> ts).
Proof.
  revert fuel. induction ts as [|[t request] ts IH]; intros [|fuel] Hok Hf; cbn [length] in Hf; try lia; [done|].
  apply Forall_cons in Hok as [[Hid Hr] Hok]. cbn [fst snd] in *. cbn [fmap list_fmap concat]. unfold request_tag at 1, tag_words.
  cbn [fst snd app]. rewrite <-app_assoc.
  assert (Hv : length (request_value t request) = value_words t).
  { unfold request_value. rewrite length_app, length_replicate. unfold value_words. lia. }
  set (value := request_value t request) in *. set (more := concat (request_tag <$> ts) ++ END_TAG :: rest) in *.
  assert (Hn : Z.to_nat (Z.of_nat (value_words t * 4) / 4) = length value).
  { rewrite Hv, Nat2Z.inj_mul, Z.div_mul by lia. lia. }
  cbn [read_tags]. rewrite Hn. destruct (ID t) as [|p|p] eqn:Ei; [done| |];
    (assert (Hs : slice 0 (length value) (value ++ more) = Some value) by exact (slice_app [] value more));
    rewrite Hs; cbn [mbind option_bind]; rewrite drop_app_length; unfold more; rewrite IH by (done || lia); done.
Qed.

(** The firmware reads from a batch's message exactly what was put in: its size in bytes, a request code, and
    the tags in the order they were added, each with its ID, room for both the request and the response, and
    the request in it. *)
Theorem firmware_sees_every_request ts b hs :
  Forall (λ x, ID x.1 ≠ 0 ∧ length x.2 = request_words x.1) ts → add_all ts new = (b, hs) → full b = false →
  length (sent b) = MESSAGE_WORDS ∧
  sent b !! 0%nat = Some (Z.of_nat ((3 + length (concat (request_tag <$> ts))) * 4)) ∧ sent b !! 1%nat = Some REQUEST ∧
  read_tags MESSAGE_WORDS (drop 2 (sent b)) =
  Some ((λ '(t, request), (ID t, Z.of_nat (value_words t * 4), REQUEST, request_value t request)) <$> ts).
Proof.
  intros Hok Hadd Hf.
  assert (Hr : Forall (λ x, length x.2 = request_words x.1) ts) by (eapply Forall_impl; [exact Hok|]; by intros x []).
  destruct (built_add_all ts new [] b hs built_new Hr Hadd Hf) as [Hb _]. cbn [app] in Hb.
  destruct (sent_words b ts Hb) as [rest Hs].
  assert (Hlen : length (sent b) = MESSAGE_WORDS) by (unfold sent; rewrite !length_insert; apply Hb).
  assert (Hts : (length ts ≤ length (concat (request_tag <$> ts)))%nat).
  { clear. induction ts as [|x ts IH]; [done|]. cbn [fmap list_fmap concat length]. rewrite length_app. unfold request_tag at 1, tag_words. cbn. lia. }
  split_and!; [done| | |].
  - rewrite Hs. cbn. do 3 f_equal. rewrite (bu_len _ _ Hb). lia.
  - by rewrite Hs.
  - rewrite Hs. cbn [drop]. apply read_tags_built; [done|]. pose proof (bu_room _ _ Hb). rewrite (bu_len _ _ Hb) in *. unfold MESSAGE_WORDS in *. lia.
Qed.

Lemma firmware_sees_every_request_witness :
  read_tags MESSAGE_WORDS (drop 2 (sent (add_all [(GetBoardRevision, []); (GetTemperature, [0])] new).1)) =
  Some [(0x00010002, 4, 0, [0]); (0x00030006, 8, 0, [0; 0])].
Proof.
  destruct (add_all [(GetBoardRevision, []); (GetTemperature, [0])] new) as [b hs] eqn:Ea.
  assert (Hf : full b = false) by (apply (f_equal fst) in Ea; cbn [fst] in Ea; rewrite <-Ea; vm_compute; reflexivity).
  assert (Hok : Forall (λ x, ID x.1 ≠ 0 ∧ length x.2 = request_words x.1) [(GetBoardRevision, []); (GetTemperature, [0])])
    by (repeat constructor; discriminate).
  destruct (firmware_sees_every_request _ b hs Hok Ea Hf) as (_ & _ & _ & Hr). exact Hr.
Defined.
(** ** What comes back *)

(** The firmware's answer to a tag: its code, and the value words it leaves. *)
Definition Answer : Type := Z * list Z.

(** What a tag's answer means. *)
Definition meaning (t : Tag) (a : Answer) : result MailboxError (list Z) :=
  let '(code, value) := a in
  if Z.land code TAG_RESPONSE =? 0 then Err (Unanswered (ID t)) else
  let len := Z.land code (Z.ones 31) in
  let capacity := Z.of_nat (value_words t * 4) in
  if capacity <? len then Err (Truncated (ID t) len capacity) else
  if len <? Z.of_nat (RESPONSE_BYTES t) then Err (ShortResponse (ID t) len (Z.of_nat (RESPONSE_BYTES t))) else
  Ok (take (response_words t) value).

Definition answer_tag (x : Tag * Answer) : list Z := tag_words x.1 x.2.1 x.2.2.

(** Reading a tag's answer from the words before it, its own, and those after. *)
Lemma get_answer t (a : Answer) (pre rest : list Z) (n : nat) : length a.2 = value_words t →
  (length pre + length (answer_tag (t, a)) ≤ n)%nat →
  get t (mkHandle (Some (length pre))) (mkReplies (pre ++ answer_tag (t, a) ++ rest) n) = Some (meaning t a).
Proof.
  destruct a as [code value]. cbn [snd]. intros Hv Hn. unfold get. cbn [offset reply reply_len].
  unfold answer_tag, tag_words, TAG_HEADER_WORDS in *. cbn [fst snd app length] in *.
  rewrite (proj2 (Nat.ltb_ge _ _)) by lia.
  assert (Hk : ∀ k x, (ID t :: Z.of_nat (value_words t * 4) :: code :: value ++ rest) !! k = Some x →
    (pre ++ ID t :: Z.of_nat (value_words t * 4) :: code :: value ++ rest) !! (length pre + k)%nat = Some x).
  { intros k x Hx. rewrite lookup_app_r by lia. by replace (length pre + k - length pre)%nat with k by lia. }
  pose proof (Hk 0%nat (ID t) eq_refl) as H0. rewrite Nat.add_0_r in H0. rewrite H0, (Hk 2%nat code eq_refl), (Hk 1%nat _ eq_refl).
  cbn [mbind option_bind]. rewrite Z.eqb_refl. cbn [negb]. unfold meaning.
  destruct (Z.land code TAG_RESPONSE =? 0); [done|]. destruct (_ <? _); [done|]. destruct (_ <? _); [done|].
  assert (Hrw : (response_words t ≤ length value)%nat) by (rewrite Hv; unfold value_words; lia).
  assert (Hs : slice (length pre + 3) (length pre + 3 + response_words t)
      (pre ++ ID t :: Z.of_nat (value_words t * 4) :: code :: value ++ rest) = Some (take (response_words t) value)).
  { apply slice_Some. split; [rewrite length_app; cbn [length]; rewrite length_app; lia|].
    assert (Hd : drop (length pre + 3) (pre ++ ID t :: Z.of_nat (value_words t * 4) :: code :: value ++ rest) = value ++ rest)
      by (rewrite drop_app_add; reflexivity).
    rewrite Hd, take_app_le by lia. f_equal. lia. }
  rewrite Hs. done.
Qed.

Lemma lengths_agree ts (answers : list Answer) : Forall (λ x, length x.2 = request_words x.1) ts →
  Forall2 (λ x a, length a.2 = value_words x.1) ts answers →
  length (concat (request_tag <$> ts)) = length (concat (answer_tag <$> zip ts.*1 answers)).
Proof.
  intros Hr Ha. induction Ha as [|[t request] a ts answers Hv Ha IH]; [done|]. apply Forall_cons in Hr as [Hr0 Hr].
  cbn [fmap list_fmap zip zip_with concat fst snd] in *. rewrite !length_app, IH by done. f_equal.
  rewrite length_request_tag by done. unfold answer_tag, tag_words, TAG_HEADER_WORDS. cbn. by rewrite Hv.
Qed.

(** Each handle gets its own tag's answer. If the firmware accepts the message and answers the tags in place,
    each with a code and value of its own, then reading the reply with the handle of the i-th tag gives the
    response in the i-th answer, as many words as the tag's type has, or says how that answer falls short. *)
Theorem replies_reach_their_handles ts b hs transport (answers : list Answer) size rest :
  Forall (λ x, ID x.1 ≠ 0 ∧ length x.2 = request_words x.1) ts → add_all ts new = (b, hs) → full b = false →
  Forall2 (λ x a, length a.2 = value_words x.1) ts answers →
  transport (sent b) = size :: RESPONSE_OK :: concat (answer_tag <$> zip ts.*1 answers) ++ rest →
  ∃ r, send transport b = Ok r ∧
    ∀ i t request a h, ts !! i = Some (t, request) → answers !! i = Some a → hs !! i = Some h → get t h r = Some (meaning t a).
Proof.
  intros Hok Hadd Hf Ha Ht. unfold send. rewrite Hf, Ht. cbn [negb lookup_total list_lookup_total]. change (RESPONSE_OK =? RESPONSE_OK) with true.
  cbn [negb]. eexists. split; [reflexivity|]. intros i t request a h Hti Hai Hhi.
  assert (Hr : Forall (λ x, length x.2 = request_words x.1) ts) by (eapply Forall_impl; [exact Hok|]; by intros x []).
  destruct (built_add_all ts new [] b hs built_new Hr Hadd Hf) as [Hb Hhs]. cbn [app] in Hb, Hhs.
  destruct h as [off]. specialize (Hhs i _ Hhi). cbn [offset] in Hhs. subst off.
  assert (Hz : zip ts.*1 answers !! i = Some (t, a)) by (rewrite lookup_zip_with, list_lookup_fmap, Hti; cbn; by rewrite Hai).
  pose proof (take_drop_middle _ _ _ Hz) as Hsplit.
  assert (Hpre : length (concat (request_tag <$> take i ts)) = length (concat (answer_tag <$> take i (zip ts.*1 answers)))).
  { rewrite zip_with_take, <-fmap_take. apply lengths_agree; [by apply Forall_take|by apply Forall2_take]. }
  assert (Hall : length (concat (request_tag <$> ts)) = length (concat (answer_tag <$> zip ts.*1 answers))) by by apply lengths_agree.
  rewrite Hpre. set (pre := concat (answer_tag <$> take i (zip ts.*1 answers))).
  assert (Hbody : concat (answer_tag <$> zip ts.*1 answers) = pre ++ answer_tag (t, a) ++ concat (answer_tag <$> drop (S i) (zip ts.*1 answers))).
  { apply (f_equal (λ z, concat (answer_tag <$> z))) in Hsplit. rewrite fmap_app, concat_app in Hsplit. symmetry. exact Hsplit. }
  rewrite Hbody, <-!app_assoc. apply (get_answer t a (size :: RESPONSE_OK :: pre)).
  - exact (Forall2_lookup_lr _ _ _ _ _ _ Ha Hti Hai).
  - rewrite (bu_len _ _ Hb), Hall, Hbody. cbn [length]. rewrite !length_app. lia.
Qed.

(** The unsafe read of a response stays inside the message: whatever the firmware wrote, and whichever batch
    the handle came from, reading with a handle that [add] gave for the tag takes words of the message. *)
Theorem responses_are_read_inside t request b (r : Replies) : length (reply r) = MESSAGE_WORDS →
  ∃ x, get t (add t request b).2 r = Some x.
Proof.
  intros Hl. unfold add. destruct (Nat.ltb_spec MESSAGE_WORDS (len b + TAG_HEADER_WORDS + value_words t + 1)) as [|Hfit]; [by eexists|].
  cbn [snd]. unfold get. cbn [offset]. unfold MESSAGE_WORDS, TAG_HEADER_WORDS in *. destruct (_ <? _)%nat; [by eexists|].
  destruct (lookup_lt_is_Some_2 (reply r) (len b)) as [w0 ->]; [lia|]. cbn [mbind option_bind]. destruct (negb _); [by eexists|].
  destruct (lookup_lt_is_Some_2 (reply r) (len b + 2)) as [w2 ->]; [lia|]. cbn [mbind option_bind]. destruct (_ =? 0); [by eexists|].
  destruct (lookup_lt_is_Some_2 (reply r) (len b + 1)) as [w1 ->]; [lia|]. cbn [mbind option_bind].
  destruct (_ <? _); [by eexists|]. destruct (_ <? _); [by eexists|].
  assert (Hs : ∃ s, slice (len b + 3) (len b + 3 + response_words t) (reply r) = Some s).
  { eexists. apply slice_Some. split; [|reflexivity]. unfold value_words in Hfit. lia. }
  destruct Hs as [s ->]. by eexists.
Qed.

Lemma responses_are_read_inside_witness : ∃ x, get GetArmMemory (add GetArmMemory [] new).2 (mkReplies (replicate 256 0) 7) = Some x.
Proof. exact (responses_are_read_inside GetArmMemory [] new (mkReplies (replicate 256 0) 7) eq_refl). Defined.

Lemma replies_reach_their_handles_witness :
  ∃ r, send (λ _, 0 :: RESPONSE_OK :: concat (answer_tag <$> [(GetBoardRevision, (0x80000004, [0xA020D3]))])) (add_all [(GetBoardRevision, [])] new).1 = Ok r ∧
  get GetBoardRevision (mkHandle (Some 2%nat)) r = Some (Ok [0xA020D3]).
Proof.
  set (transport := λ _ : list Z, 0 :: RESPONSE_OK :: concat (answer_tag <$> [(GetBoardRevision, (0x80000004, [0xA020D3]))])).
  destruct (add_all [(GetBoardRevision, [])] new) as [b hs] eqn:Ea.
  assert (Hf : full b = false) by (apply (f_equal fst) in Ea; cbn [fst] in Ea; rewrite <-Ea; vm_compute; reflexivity).
  assert (Hh : hs = [mkHandle (Some 2%nat)]) by (apply (f_equal snd) in Ea; cbn [snd] in Ea; rewrite <-Ea; vm_compute; reflexivity).
  assert (Hok : Forall (λ x, ID x.1 ≠ 0 ∧ length x.2 = request_words x.1) [(GetBoardRevision, @nil Z)]) by (repeat constructor; discriminate).
  destruct (replies_reach_their_handles [(GetBoardRevision, [])] b hs transport [(0x80000004, [0xA020D3])] 0 [] Hok Ea Hf)
    as (r & Hs & Hg).
  - repeat constructor.
  - unfold transport. by rewrite app_nil_r.
  - exists r. split; [exact Hs|]. rewrite Hh in Hg. exact (Hg 0%nat _ _ _ _ eq_refl eq_refl eq_refl).
Defined.

(** Memory a DMA engine is given is the memory the cores mean. *)
Lemma to_arm_from_arm addr : 0 <= addr < 2 ^ 30 → to_arm (from_arm addr) = addr ∧ uint 32 (from_arm addr).
Proof.
  intros Ha. unfold to_arm, from_arm. change 0x3FFFFFFF with (Z.ones 30).
  rewrite (Z.land_ones addr 30), (Z.mod_small addr) by lia.
  rewrite wrap_small by (unfold uint; lia). change 0xC0000000 with (Z.shiftl 3 30). rewrite Z.lor_comm.
  rewrite lor_shiftl_add by lia. rewrite Z.land_ones by lia. split; [|unfold uint; lia].
  rewrite Z.add_comm, Z_mod_plus_full. apply Z.mod_small. lia.
Qed.
End Mailbox.

(** * The hardware's transport *)
Module Exchange.
Import Effect Mmio Mailbox.

Definition MBOX_BASE : Z := PERIPHERAL_BASE + 0xB880.
Definition MBOX0_READ : Z := MBOX_BASE.
Definition MBOX0_STATUS : Z := MBOX_BASE + 0x18.
Definition MBOX1_WRITE : Z := MBOX_BASE + 0x20.
Definition MBOX1_STATUS : Z := MBOX_BASE + 0x38.
Definition STATUS_FULL : Z := Z.shiftl 1 31.
Definition STATUS_EMPTY : Z := Z.shiftl 1 30.
Definition CHANNEL_PROPERTY : Z := 8.

Section exchange.
Context {HW X : Type} `{Mmio HW}.
Local Notation M := (Eff HW X).

(** [while read(r) & bits != 0 {}] *)
Definition wait_clear (patience : positive) (r bits : Z) : M unit :=
  loop patience (s ← rd r; mret (if Z.land s bits =? 0 then Some tt else None)).

(** Where the message is, and the channel in the low bits. *)
Definition mail (at_ : Z) : Z := Z.lor (wrap 32 at_) CHANNEL_PROPERTY.

(** The message, at [at_], is answered in place: [firmware] says how.  The code waits for room and for the answer
    without limit; [patience] bounds the turns of its loops, and running out of it stands for waiting on. *)
Definition exchange (patience : positive) (at_ : Z) (firmware : list Z → list Z) (m : list Z) : M (list Z) :=
  let value := mail at_ in
  _ ← wait_clear patience MBOX1_STATUS STATUS_FULL;
  _ ← wr MBOX1_WRITE value;
  _ ← loop patience (_ ← wait_clear patience MBOX0_STATUS STATUS_EMPTY;
                     v ← rd MBOX0_READ; mret (if v =? value then Some tt else None));
  mret (firmware m).

(** [query] over a transport that takes its time. *)
Definition query_on (t : Tag) (call : list Z → M (list Z)) (request : list Z) : M (result MailboxError (list Z)) :=
  let '(b, h) := add t request new in
  if full b then mret (Err BatchFull) else
  m ← call (sent b);
  unwrap (match send (λ _, m) b with Ok r => get t h r | Err e => Some (Err e) end).

Lemma keeps_query_on P t (call : list Z → M (list Z)) request : (∀ m, keeps P (call m)) → keeps P (query_on t call request).
Proof.
  intros Hc. unfold query_on. destruct (add t request new) as [b h]. destruct (full b); [apply keeps_ret|].
  apply keeps_bind; [apply Hc|intros m; apply keeps_unwrap].
Qed.

(** An exchange, if it ends, gives what the firmware answers. *)
Lemma exchange_answers p at_ firmware m h : post (exchange p at_ firmware m) h (λ _ r, r = firmware m) (λ _ _, True).
Proof. unfold exchange. cbv zeta. do 3 (eapply post_call; [apply post_any|intros; cbn beta|done]). by apply post_ret. Qed.
End exchange.

Section ends.
Context {HW X : Type} `{Clocked HW}.
Local Notation M := (Eff HW X).

(** A wait that is over at once. *)
Lemma takes_ready {A} p (body : M (option A)) c : takes body c →
  (∀ h, wp body h (λ _ r, r ≠ None) (λ _ _, True)) → takes (loop p body) c.
Proof.
  intros [Hc Hb] Hr. split; [done|]. intros h. apply (wp_loop p body (λ k h', k = O ∧ h' = h)); [|lia|done].
  intros k h' [-> ->]. specialize (Hb h). specialize (Hr h). unfold wp in *. by destruct (body h) as [h1 [a|]|h1 e|].
Qed.

(** A query takes as long as its message does. *)
Lemma takes_query_on t (call : list Z → M (list Z)) c firmware request : (∀ m, takes (call m) c) →
  (∀ m h, post (call m) h (λ _ r, r = firmware m) (λ _ _, True)) → query t firmware request ≠ None → takes (query_on t call request) c.
Proof.
  intros Hc Hr Hq. unfold query_on. unfold query in Hq. destruct (add t request new) as [b h]. unfold send in Hq |- *.
  assert (Hc0 : 0 <= c) by apply (Hc []). destruct (full b); [by apply (takes_le _ 0); [apply takes_ret|]|]. split; [done|]. intros s.
  eapply wp_call; [apply wp_post; [apply Hc|apply Hr]|..]; cbn beta; [|by intros s' e [? _]].
  intros s' m [Ht ->]. destruct (if negb _ then _ else _) as [r|e]; [destruct (get t h r); [|done]|]; apply wp_ret; lia.
Qed.

(** A firmware that has answered by the time it is asked whether it has. *)
Record prompt (at_ : Z) : Prop := {
  pr_room h : Z.land (read MBOX1_STATUS h).2 STATUS_FULL = 0;
  pr_there h : Z.land (read MBOX0_STATUS h).2 STATUS_EMPTY = 0;
  pr_mail h : (read MBOX0_READ h).2 = mail at_ }.

Lemma takes_prompt p at_ firmware m : prompt at_ → takes (exchange p at_ firmware m : M _) (4 * latency).
Proof.
  intros [Hroom Hthere Hmail]. assert (Hl : 0 <= latency) by apply (takes_rd (X:=X) 0).
  assert (Hw : ∀ r bits, (∀ h, Z.land (read r h).2 bits = 0) → takes (wait_clear p r bits : M unit) latency).
  { intros r bits Hr. apply takes_ready.
    - apply (takes_le _ (latency + 0)); [|lia]. apply takes_bind; [apply takes_rd|intros; apply takes_ret|lia].
    - intros h. unfold wp, mbind, Eff_bind, rd, mret, Eff_ret. by rewrite Hr. }
  assert (Hloop : takes (loop p (_ ← wait_clear p MBOX0_STATUS STATUS_EMPTY; v ← rd MBOX0_READ; mret (if v =? mail at_ then Some tt else None)) : M unit)
    (latency + latency)).
  { apply takes_ready.
    - apply takes_bind; [by apply Hw| |lia]. intros _. apply (takes_le _ (latency + 0)); [|lia].
      apply takes_bind; [apply takes_rd|intros; apply takes_ret|lia].
    - intros h. eapply wp_call; [apply (Hw MBOX0_STATUS STATUS_EMPTY); exact Hthere| |done]. intros h1 ? _.
      unfold wp, mbind, Eff_bind, rd, mret, Eff_ret. rewrite Hmail. by rewrite Z.eqb_refl. }
  unfold exchange. cbv zeta. apply (takes_le _ (latency + (latency + ((latency + latency) + 0)))); [|lia].
  apply takes_bind; [by apply Hw|intros _|lia]. apply takes_bind; [apply takes_wr|intros _|lia].
  apply takes_bind; [exact Hloop|intros _; apply takes_ret|lia].
Qed.
End ends.

(** A firmware that never answers is waited for, for ever. *)
Theorem silent_firmware_is_waited_for {HW X : Type} `{Mmio HW} p at_ firmware m h :
  (∀ h, Z.land (read MBOX0_STATUS h).2 STATUS_EMPTY ≠ 0) → (exchange p at_ firmware m : Eff HW X _) h = Panic.
Proof.
  intros He. assert (Hw : ∀ h, (wait_clear p MBOX0_STATUS STATUS_EMPTY : Eff HW X unit) h = Panic).
  { intros h0. apply loop_never. intros h1. exists (read MBOX0_STATUS h1).1. unfold mbind, Eff_bind, rd, mret, Eff_ret.
    by rewrite (proj2 (Z.eqb_neq _ _) (He h1)). }
  assert (Hl : ∀ h, (loop p (_ ← wait_clear p MBOX0_STATUS STATUS_EMPTY; v ← rd MBOX0_READ; mret (if v =? mail at_ then Some tt else None)) : Eff HW X unit) h = Panic).
  { intros h0. unfold loop. rewrite until_steps. destruct (Pos2Nat.is_succ p) as [n ->]. cbn [until_nat]. unfold mbind at 1, Eff_bind at 1. by rewrite Hw. }
  unfold exchange. cbv zeta. unfold mbind at 1, Eff_bind at 1. destruct (wait_clear p MBOX1_STATUS STATUS_FULL h) as [h1 ?|h1 e|] eqn:E1; [| |done].
  - unfold mbind at 1, Eff_bind at 1, wr. unfold mbind at 1, Eff_bind at 1. by rewrite Hl.
  - assert (Hn : post (wait_clear p MBOX1_STATUS STATUS_FULL : Eff HW X unit) h (λ _ _, True) (λ _ _, False)).
    { apply (post_loop _ _ (λ _, True)); [|done]. intros h2 _. unfold post, mbind, Eff_bind, rd, mret, Eff_ret. by destruct (_ =? 0). }
    unfold post in Hn. by rewrite E1 in Hn.
Qed.
End Exchange.

(** * Pixels *)
Module Graphics.
Record Color := mkColor { r : Z; g : Z; b : Z }.
Definition BLACK : Color := mkColor 0 0 0.
Definition WHITE : Color := mkColor 255 255 255.
Definition RED : Color := mkColor 255 0 0.
Definition GREEN : Color := mkColor 0 255 0.
Definition BLUE : Color := mkColor 0 0 255.
Definition LIGHT_GRAY : Color := mkColor 200 200 200.

(** The order of the channels in a pixel: 1 is RGB, anything else is drawn as BGR. *)
Definition PixelOrder : Type := Z.
Definition BGR : PixelOrder := 0.
Definition RGB : PixelOrder := 1.

Definition from_rgb (word : Z) : Color :=
  mkColor (wrap 8 (Z.shiftr word 16)) (wrap 8 (Z.shiftr word 8)) (wrap 8 word).

Definition encode (order : PixelOrder) (c : Color) : Z :=
  let '(low, high) := if order =? RGB then (r c, b c) else (b c, r c) in
  Z.lor (Z.lor (Z.lor 0xFF000000 (Z.shiftl high 16)) (Z.shiftl (g c) 8)) low.
(** A program's colour comes back from the pixel it is drawn as, and a pixel is opaque. *)
Lemma encode_from_rgb c : uint 8 (r c) → uint 8 (g c) → uint 8 (b c) →
  from_rgb (encode BGR c) = c ∧ uint 32 (encode BGR c) ∧ encode BGR c / 2 ^ 24 = 255.
Proof.
  destruct c as [x y z]. cbn [r g b]. unfold uint. intros Hx Hy Hz.
  assert (He : encode BGR (mkColor x y z) = 0xFF000000 + x * 2 ^ 16 + y * 2 ^ 8 + z).
  { unfold encode. change (BGR =? RGB) with false. cbn [r g b]. change 0xFF000000 with (Z.shiftl 0xFF00 16). rewrite <-Z.shiftl_lor.
    change 0xFF00 with (Z.shiftl 0xFF 8). rewrite (lor_shiftl_add 0xFF x 8) by lia.
    replace (Z.shiftl (0xFF * 2 ^ 8 + x) 16) with (Z.shiftl (Z.shiftl (0xFF * 2 ^ 8 + x) 8) 8) by (by rewrite Z.shiftl_shiftl).
    rewrite <-Z.shiftl_lor, (lor_shiftl_add (0xFF * 2 ^ 8 + x) y 8), (lor_shiftl_add _ z 8) by lia. rewrite !Z.shiftl_mul_pow2 by lia. lia. }
  rewrite He. split_and!; [|lia|lia|].
  - unfold from_rgb, wrap. rewrite !Z.shiftr_div_pow2 by lia. f_equal.
    + symmetry. apply (Z.mod_unique _ _ 255); [lia|]. symmetry. apply (Z.div_unique _ _ _ (y * 2 ^ 8 + z)); lia.
    + symmetry. apply (Z.mod_unique _ _ (255 * 2 ^ 8 + x)); [lia|]. symmetry. apply (Z.div_unique _ _ _ z); lia.
    + symmetry. apply (Z.mod_unique _ _ (255 * 2 ^ 16 + x * 2 ^ 8 + y)); lia.
  - symmetry. apply (Z.div_unique _ _ _ (x * 2 ^ 16 + y * 2 ^ 8 + z)); lia.
Qed.
End Graphics.

(** * SD card registers *)
Module Sd.
Definition bits (csd high low : Z) : Z := wrap 64 (Z.land (Z.shiftr csd low) (Z.ones (high - low + 1))).

Definition capacity_blocks (csd : Z) : option Z :=
  if bits csd 127 126 =? 1 then Some (wrap 64 ((bits csd 69 48 + 1) * 1024))
  else if bits csd 127 126 =? 0 then
    Some (Z.shiftr (wrap 64 (Z.shiftl (wrap 64 (Z.shiftl (bits csd 73 62 + 1) (bits csd 49 47 + 2))) (bits csd 83 80))) 9)
  else None.

Lemma bits_range csd high low : 0 <= low <= high → high - low < 63 → 0 <= bits csd high low < 2 ^ (high - low + 1).
Proof.
  intros Hl Hh. unfold bits. rewrite Z.land_ones by lia.
  assert (Hb : 0 <= Z.shiftr csd low mod 2 ^ (high - low + 1) < 2 ^ (high - low + 1)) by (apply Z.mod_pos_bound; lia).
  assert (2 ^ (high - low + 1) <= 2 ^ 64) by (apply Z.pow_le_mono_r; lia). rewrite wrap_small; [done|]. unfold uint. lia.
Qed.

(** The capacity computed from a card's register is the one the SD specification gives, in 512-byte blocks, for
    every 128-bit value: neither layout's shifts and products overflow, and a card has at most 2^32 blocks. *)
Theorem capacity_is_exact csd : 
  match capacity_blocks csd with
  | Some n => 0 <= n <= 2 ^ 32 ∧
      (bits csd 127 126 = 1 ∧ n = (bits csd 69 48 + 1) * 1024 ∨
       bits csd 127 126 = 0 ∧ n = (bits csd 73 62 + 1) * 2 ^ (bits csd 49 47 + 2) * 2 ^ bits csd 83 80 / 512)
  | None => 2 <= bits csd 127 126 <= 3
  end.
Proof.
  pose proof (bits_range csd 127 126 ltac:(lia) ltac:(lia)) as Hv. pose proof (bits_range csd 69 48 ltac:(lia) ltac:(lia)) as Hc.
  pose proof (bits_range csd 73 62 ltac:(lia) ltac:(lia)) as Hs. pose proof (bits_range csd 49 47 ltac:(lia) ltac:(lia)) as Hm.
  pose proof (bits_range csd 83 80 ltac:(lia) ltac:(lia)) as Hb. cbn [Z.sub Z.add Z.opp Z.pos_sub Pos.add Pos.pred_double] in *.
  unfold capacity_blocks. destruct (Z.eqb_spec (bits csd 127 126) 1) as [H1|H1].
  - rewrite wrap_small by (unfold uint; lia). split; [lia|left; done].
  - destruct (Z.eqb_spec (bits csd 127 126) 0) as [H0|H0]; [|lia].
    assert (Hp1 : 0 < 2 ^ (bits csd 49 47 + 2) <= 2 ^ 9) by (split; [lia|apply Z.pow_le_mono_r; lia]).
    assert (Hp2 : 0 < 2 ^ bits csd 83 80 <= 2 ^ 15) by (split; [lia|apply Z.pow_le_mono_r; lia]).
    rewrite !Z.shiftl_mul_pow2, Z.shiftr_div_pow2 by lia. change (2 ^ 9) with 512 in *.
    assert (Hx : 0 <= (bits csd 73 62 + 1) * 2 ^ (bits csd 49 47 + 2) <= 2 ^ 12 * 512) by nia.
    rewrite (wrap_small 64 (_ * 2 ^ (bits csd 49 47 + 2))) by (unfold uint; lia).
    rewrite wrap_small by (unfold uint; nia). split; [|right; done].
    split; [apply Z.div_pos; nia|]. apply Z.div_le_upper_bound; nia.
Qed.
End Sd.
