(* ===== verification/UsbHost.v ===== *)
(** The USB host controller ([src/drivers/usb.rs]): starting it, and control, interrupt and bulk transfers on
    one of its channels, over the registers of [Mmio].

    Besides registers the machine has the memory that the controller reads and writes by itself, and the
    scheduler's sleep ([Machine]); what the controller does is in [UsbDma] and [UsbTime].  A loop that watches
    the clock has enough turns; only how often a device is asked that is never ready has no bound in the code,
    and is an argument here ([patience]). *)
From S2P Require Import Prelude Bytes Text Effect Mmio Firmware Usb UsbTree Keyboard.
From stdpp Require Import strings.
Open Scope Z_scope.

Module UsbHost.
Import Effect Text Mmio Mailbox Exchange Usb UsbTree.

(** * The machine *)

(** [store] and [load]: the processor's accesses to memory. [clean]: its cache's lines there are written back
    and dropped. [sleep] is [sched::sleep], in microseconds. *)
Class Machine (HW : Type) := {
  store : Z → list Z → HW → HW;
  load : Z → nat → HW → list Z;
  clean : Z → Z → HW → HW;
  sleep : Z → HW → HW }.

(** * Registers *)
Definition USB_BASE : Z := PERIPHERAL_BASE + 0x980000.
Definition AHB_CFG : Z := USB_BASE + 0x008.
Definition USB_CFG : Z := USB_BASE + 0x00C.
Definition RESET : Z := USB_BASE + 0x010.
Definition INT_STATUS : Z := USB_BASE + 0x014.
Definition RX_FIFO_SIZE : Z := USB_BASE + 0x024.
Definition NP_TX_FIFO_SIZE : Z := USB_BASE + 0x028.
Definition VENDOR_ID : Z := USB_BASE + 0x040.
Definition HW_CFG2 : Z := USB_BASE + 0x048.
Definition HOST_PERIODIC_TX_FIFO_SIZE : Z := USB_BASE + 0x100.
Definition POWER : Z := USB_BASE + 0xE00.
Definition HOST_CFG : Z := USB_BASE + 0x400.
Definition HOST_FRAME_NUMBER : Z := USB_BASE + 0x408.
Definition HOST_PORT : Z := USB_BASE + 0x440.

Definition channel (n register : Z) : Z := USB_BASE + 0x500 + n * 0x20 + register.
Definition CHAN_CHARACTER : Z := 0x00.
Definition CHAN_SPLIT : Z := 0x04.
Definition CHAN_INT : Z := 0x08.
Definition CHAN_INT_MASK : Z := 0x0C.
Definition CHAN_XFER_SIZE : Z := 0x10.
Definition CHAN_DMA : Z := 0x14.

Definition VENDOR_OT : Z := 0x4F54.
Definition AHB_CFG_GLOBAL_INT : Z := Z.shiftl 1 0.
Definition AHB_CFG_DMA_ENABLE : Z := Z.shiftl 1 5.
Definition AHB_CFG_WAIT_AXI_WRITES : Z := Z.shiftl 1 4.
Definition AHB_CFG_MAX_AXI_BURST : Z := Z.shiftl 3 1.
Definition USB_CFG_PHYIF : Z := Z.shiftl 1 3.
Definition USB_CFG_ULPI_UTMI_SEL : Z := Z.shiftl 1 4.
Definition USB_CFG_ULPI_FSLS : Z := Z.shiftl 1 17.
Definition USB_CFG_ULPI_CLK_SUS_M : Z := Z.shiftl 1 19.
Definition USB_CFG_ULPI_EXT_VBUS_DRV : Z := Z.shiftl 1 20.
Definition USB_CFG_TERM_SEL_DL_PULSE : Z := Z.shiftl 1 22.
Definition USB_CFG_FORCE_HOST_MODE : Z := Z.shiftl 1 29.
Definition RESET_SOFT : Z := Z.shiftl 1 0.
Definition RESET_RX_FIFO_FLUSH : Z := Z.shiftl 1 4.
Definition RESET_TX_FIFO_FLUSH : Z := Z.shiftl 1 5.
Definition RESET_TX_FIFO_ALL : Z := Z.shiftl 0x10 6.
Definition RESET_AHB_IDLE : Z := Z.shiftl 1 31.
Definition INT_STATUS_HOST_MODE : Z := Z.shiftl 1 0.
Definition PORT_CONNECT : Z := Z.shiftl 1 0.
Definition PORT_ENABLE : Z := Z.shiftl 1 2.
Definition PORT_RESET : Z := Z.shiftl 1 8.
Definition PORT_POWER : Z := Z.shiftl 1 12.
Definition PORT_WRITE_CLEARS : Z := 0x2E.
Definition CHAN_SPLIT_ENABLE : Z := Z.shiftl 1 31.
Definition CHAN_SPLIT_COMPLETE : Z := Z.shiftl 1 16.
Definition CHAN_SPLIT_ALL : Z := 3.
Definition CHAR_EP_IN : Z := Z.shiftl 1 15.
Definition CHAR_LOW_SPEED : Z := Z.shiftl 1 17.
Definition CHAR_MULTI_COUNT_1 : Z := Z.shiftl 1 20.
Definition CHAR_ODD_FRAME : Z := Z.shiftl 1 29.
Definition CHAR_DISABLE : Z := Z.shiftl 1 30.
Definition CHAR_ENABLE : Z := Z.shiftl 1 31.
Definition INT_XFER_COMPLETE : Z := Z.shiftl 1 0.
Definition INT_HALTED : Z := Z.shiftl 1 1.
Definition INT_STALL : Z := Z.shiftl 1 3.
Definition INT_NAK : Z := Z.shiftl 1 4.
Definition INT_ACK : Z := Z.shiftl 1 5.
(** Bits 2, 3, 7, 8, 9 and 10. *)
Definition INT_ERRORS : Z := 0x78C.

Definition RX_FIFO_WORDS : Z := 1024.
Definition NP_TX_FIFO_WORDS : Z := 1024.
Definition PERIODIC_TX_FIFO_WORDS : Z := 1024.
Definition CONTROL_CHANNEL : Z := 0.

(** Durations, in microseconds. *)
Definition CONNECT_TIMEOUT : Z := 510000.
Definition DEBOUNCE : Z := 100000.
Definition RESET_HOLD : Z := 50000.
Definition RESET_RECOVERY : Z := 20000.
Definition TRANSFER_TIMEOUT_US : Z := 500000.
Definition SPLIT_TIMEOUT_US : Z := 1000000.
Definition MAX_SPLIT_ERRORS : Z := 3.
Definition MAX_NYETS : nat := 3.
Definition MICROFRAME_US : Z := 125.
Definition FRAME_WAIT_US : Z := 2000.
Definition REGISTER_TIMEOUT_US : Z := 100000.

(** * Data *)
Inductive Pid := Data0 | Data1 | Setup.
Definition pid_bits (p : Pid) : Z := match p with Data0 => 0 | Data1 => 2 | Setup => 3 end.
Definition toggled (p : Pid) : Pid := match p with Data0 => Data1 | Data1 | Setup => Data0 end.

(** [Toggle] is a [Pid], which starts as [Data0]. *)
Definition Toggle_new : Pid := Data0.

Record BulkEndpoint := mkBulkEndpoint { bk_target : Target; bk_endpoint : Z; bk_max_packet : Z }.

Inductive UsbError :=
| MailboxFailed (e : MailboxError)
| NoPower
| NotDwc2 (id : Z)
| Timeout (what : list Z)
| NoDevice
| TransferFailed (stage : list Z) (interrupts : Z)
| Stalled (stage : list Z)
| TooLong.

Record Controller := mkController { version : Z; channels : Z }.
Record RootPort := mkRootPort { speed : Speed }.

(** The three buffers are where the [Box] was put. *)
Record Host := mkHost { controller : Controller; port : RootPort; buffer : Z; bulk_in_buffer : Z; bulk_out_buffer : Z }.
Definition BUFFER_LEN : Z := 512.
Definition BULK_IN_LEN : Z := 4096.
Definition BULK_OUT_LEN : Z := 2048.

Inductive Kind := ControlKind | BulkKind | InterruptKind.
Definition kind_bits (k : Kind) : Z := match k with ControlKind => 0 | BulkKind => 2 | InterruptKind => 3 end.
Inductive Buffer := ControlBuffer | BulkIn | BulkOut.
Definition buffer_address (host : Host) (b : Buffer) : Z :=
  match b with ControlBuffer => buffer host | BulkIn => bulk_in_buffer host | BulkOut => bulk_out_buffer host end.
Definition buffer_len (b : Buffer) : Z :=
  match b with ControlBuffer => BUFFER_LEN | BulkIn => BULK_IN_LEN | BulkOut => BULK_OUT_LEN end.

Record Transaction := mkTransaction {
  x_target : Target; x_endpoint : Z; x_max_packet : Z; x_kind : Kind; x_direction : Direction; x_pid : Pid;
  x_offset : Z; x_length : Z; x_packets : Z; x_split : Z; x_odd_frame : bool; x_buffer : Buffer }.

Definition control_transaction (target : Target) (d : Direction) (pid : Pid) (offset length packets : Z) : Transaction :=
  mkTransaction target 0 (max_packet target) ControlKind d pid offset length packets 0 false ControlBuffer.
Definition with_split split t := mkTransaction (x_target t) (x_endpoint t) (x_max_packet t) (x_kind t) (x_direction t) (x_pid t)
  (x_offset t) (x_length t) (x_packets t) split (x_odd_frame t) (x_buffer t).
Definition with_odd_frame odd t := mkTransaction (x_target t) (x_endpoint t) (x_max_packet t) (x_kind t) (x_direction t) (x_pid t)
  (x_offset t) (x_length t) (x_packets t) (x_split t) odd (x_buffer t).

(** Whether any of [bits] is set. *)
Definition any (x bits : Z) : bool := negb (Z.land x bits =? 0).

Definition split_bits (tr : Translator) : Z :=
  Z.lor (Z.lor (Z.lor CHAN_SPLIT_ENABLE (Z.shiftl CHAN_SPLIT_ALL 14)) (Z.shiftl (Z.land (t_hub tr) 0x7F) 7)) (Z.land (t_port tr) 0x7F).

Definition character (t : Transaction) : Z :=
  let c := Z.lor (Z.lor (Z.lor (Z.lor (Z.land (x_max_packet t) 0x7FF) (Z.shiftl (Z.land (x_endpoint t) 0xF) 11))
             (Z.shiftl (kind_bits (x_kind t)) 18)) CHAR_MULTI_COUNT_1) (Z.shiftl (Z.land (tg_address (x_target t)) 0x7F) 22) in
  let c := if decide (x_direction t = In) then Z.lor c CHAR_EP_IN else c in
  let c := if decide (tg_speed (x_target t) = Low) then Z.lor c CHAR_LOW_SPEED else c in
  if x_odd_frame t then Z.lor c CHAR_ODD_FRAME else c.

Definition xfer_size (t : Transaction) : Z :=
  Z.lor (Z.lor (wrap 32 (x_length t)) (wrap 32 (Z.shiftl (x_packets t) 19))) (Z.shiftl (pid_bits (x_pid t)) 29).
Definition dma_address (host : Host) (t : Transaction) : Z :=
  wrap 32 (from_arm (buffer_address host (x_buffer t)) + wrap 32 (x_offset t)).

Definition div_ceil (a b : Z) : Z := (a + b - 1) / b.

(** * The driver *)
Section driver.
Context {HW : Type} `{Mmio HW} `{Machine HW}.
Local Notation M := (Eff HW UsbError).

Definition sleep_us (us : Z) : M unit := modify (sleep us).
Definition store_at (a : Z) (bytes : list Z) : M unit := modify (store a bytes).
Definition load_from (a : Z) (n : nat) : M (list Z) := λ h, Ret h (load a n h).
Definition clean_and_invalidate (a len : Z) : M unit := modify (clean a len).

Definition wait_for (what : list Z) (timeout_us : Z) (done : M bool) : M unit :=
  polling timeout_us (Timeout what) (b ← done : M bool; mret (if b : bool then Some tt else None)) (mret tt).

Definition change (r : Z) (f : Z → Z) : M unit := v ← rd r; wr r (f v).
Definition reads (r : Z) (p : Z → bool) : M bool := v ← rd r; mret (p v).

(** ** The channel *)
Definition halt_channel (n : Z) : M unit :=
  c ← rd (channel n CHAN_CHARACTER);
  if any c CHAR_ENABLE then
    _ ← change (channel n CHAN_CHARACTER) (λ c, Z.lor (Z.lor c CHAR_ENABLE) CHAR_DISABLE);
    _ ← catch (wait_for (str "a channel to halt") REGISTER_TIMEOUT_US (reads (channel n CHAN_INT) (λ i, any i INT_HALTED)));
    mret tt
  else mret tt.

Definition channel_pid : M Pid :=
  v ← rd (channel CONTROL_CHANNEL CHAN_XFER_SIZE); mret (if Z.land (Z.shiftr v 29) 3 =? 2 then Data1 else Data0).

Definition frame_number : M Z := v ← rd HOST_FRAME_NUMBER; mret (Z.land v 0xFFFF).
Definition wait_for_microframe (microframe : Z) : M unit :=
  wait_for (str "a microframe") FRAME_WAIT_US (f ← frame_number; mret (Z.land f 7 =? microframe)).

Definition run_channel (host : Host) (t : Transaction) : M (Z * Z) :=
  let n := CONTROL_CHANNEL in
  _ ← halt_channel n;
  let clean := clean_and_invalidate (buffer_address host (x_buffer t)) (buffer_len (x_buffer t)) in
  _ ← clean;
  _ ← wr (channel n CHAN_INT) 0xFFFFFFFF;
  _ ← wr (channel n CHAN_INT_MASK) 0;
  _ ← wr (channel n CHAN_SPLIT) (x_split t);
  _ ← wr (channel n CHAN_XFER_SIZE) (xfer_size t);
  _ ← wr (channel n CHAN_DMA) (dma_address host t);
  _ ← wr (channel n CHAN_CHARACTER) (Z.lor (character t) CHAR_ENABLE);
  r ← catch (wait_for (str "a transfer") TRANSFER_TIMEOUT_US (reads (channel n CHAN_INT) (λ i, any i INT_HALTED)));
  match r with
  | Err error => _ ← halt_channel n; fail error
  | Ok _ =>
    interrupts ← rd (channel n CHAN_INT);
    _ ← clean;
    v ← rd (channel n CHAN_XFER_SIZE);
    mret (interrupts, Z.min (Z.land v 0x7FFFF) (x_length t))
  end.

(** ** Control transfers *)

(** [div_ceil] by zero panics. *)
Definition direct_transfer (patience : positive) (host : Host) (target : Target) (d : Direction) (pid : Pid) (length : Z) (stage : list Z) : M Z :=
  if max_packet target =? 0 then panic else
  let packets := Z.max (div_ceil length (max_packet target)) 1 in
  loop patience
    (r ← run_channel host (control_transaction target d pid 0 length packets);
     let '(interrupts, remaining) := r in
     if any interrupts INT_STALL then fail (Stalled stage) else
     if any interrupts INT_NAK && negb (any interrupts INT_XFER_COMPLETE) then _ ← sleep_us 1000; mret None else
     if any interrupts INT_ERRORS || negb (any interrupts INT_XFER_COMPLETE) then fail (TransferFailed stage interrupts) else
     mret (Some (length - remaining))).

(** Errors so far, and one more: too many end the packet. *)
Definition count_error (errors interrupts : Z) (stage : list Z) : M Z :=
  if MAX_SPLIT_ERRORS <? errors + 1 then fail (TransferFailed stage interrupts) else mret (errors + 1).

(** Complete splits, as long as the translator says "not yet": [inl]: start over. *)
Fixpoint complete_splits (nyets : nat) (host : Host) (t : Transaction) (stage : list Z) (errors : Z) : M (Z + Z) :=
  r ← run_channel host t;
  let '(interrupts, remaining) := r in
  if any interrupts INT_STALL then fail (Stalled stage) else
  if any interrupts INT_XFER_COMPLETE then mret (inr (x_length t - remaining)) else
  if any interrupts INT_NAK then _ ← delay_us (5 * MICROFRAME_US); mret (inl errors) else
  if any interrupts INT_ERRORS then errors ← count_error errors interrupts stage; mret (inl errors) else
  match nyets with
  | O => mret (inl errors)
  | S nyets => _ ← delay_us (5 * MICROFRAME_US); complete_splits nyets host t stage errors
  end.

(** One turn of ['start]. *)
Definition split_try (host : Host) (tr : Translator) (t : Transaction) (stage : list Z) (errors : Z) : M (Z + Z) :=
  r ← run_channel host (with_split (split_bits tr) t);
  let interrupts := r.1 in
  if any interrupts INT_STALL then fail (Stalled stage) else
  if negb (any interrupts INT_ACK) then
    errors ← (if any interrupts INT_ERRORS then count_error errors interrupts stage else mret errors);
    _ ← delay_us MICROFRAME_US; mret (inl errors)
  else complete_splits MAX_NYETS host (with_split (Z.lor (split_bits tr) CHAN_SPLIT_COMPLETE) t) stage errors.

Definition split_packet (host : Host) (tr : Translator) (t : Transaction) (stage : list Z) (started : Z) : M Z :=
  loop_with (turns SPLIT_TIMEOUT_US) (λ errors,
    now ← now_us;
    if SPLIT_TIMEOUT_US <? wrap 64 (now - started) then fail (Timeout (str "a split transaction"))
    else split_try host tr t stage errors) 0.

Definition split_transfer (host : Host) (target : Target) (tr : Translator) (d : Direction) (pid : Pid) (length : Z) (stage : list Z) : M Z :=
  started ← now_us;
  loop_with (turns SPLIT_TIMEOUT_US) (λ '(done, pid),
    let size := Z.min (length - done) (max_packet target) in
    moved ← split_packet host tr (control_transaction target d pid done size 1) stage started;
    let done := done + moved in
    mret (if (moved <? size) || (length <=? done) then inr done else inl (done, toggled pid))) (0, pid).

Definition transfer (patience : positive) (host : Host) (target : Target) (d : Direction) (pid : Pid) (length : Z) (stage : list Z) : M Z :=
  match tg_translator target with
  | None => direct_transfer patience host target d pid length stage
  | Some tr => split_transfer host target tr d pid length stage
  end.

(** The data stage's buffer comes back, and how many bytes were received. *)
Definition control (patience : positive) (host : Host) (target : Target) (setup : SetupPacket) (data : list Z) : M (list Z * Z) :=
  let length := length_ setup in
  if (BUFFER_LEN <? length) || (Z.of_nat (List.length data) <? length) then fail TooLong else
  _ ← store_at (buffer host) (to_bytes setup);
  _ ← transfer patience host target Out Setup 8 (str "setup");
  let d := direction setup in
  r ← (if 0 <? length then
         _ ← (if decide (d = Out) then store_at (buffer host) (take (Z.to_nat length) data) else mret tt);
         received ← transfer patience host target d Data1 length (str "data");
         if decide (d = In) then
           bytes ← load_from (buffer host) (Z.to_nat received);
           mret (bytes ++ drop (Z.to_nat received) data, received)
         else mret (data, received)
       else mret (data, 0));
  let '(data, received) := r in
  let status := if (0 <? length) && bool_decide (d = In) then Out else In in
  _ ← transfer patience host target status Data1 0 (str "status");
  mret (data, if decide (d = In) then received else 0).

(** ** Interrupt transfers *)
Definition interrupt_outcome (interrupts : Z) : M (option Z) :=
  if any interrupts INT_STALL then fail (Stalled (str "interrupt")) else
  if any interrupts INT_NAK then mret None else fail (TransferFailed (str "interrupt") interrupts).

Definition is_odd (frame : Z) : bool := negb (Z.land frame 1 =? 0).

Definition direct_interrupt (host : Host) (t : Transaction) : M (option Z) :=
  now ← frame_number;
  _ ← wait_for (str "the next frame") FRAME_WAIT_US (f ← frame_number; mret (negb (f =? now)));
  f ← frame_number;
  r ← run_channel host (with_odd_frame (is_odd f) t);
  let '(interrupts, remaining) := r in
  if any interrupts INT_XFER_COMPLETE then mret (Some (x_length t - remaining)) else interrupt_outcome interrupts.

(** [None]: out of complete splits. *)
Fixpoint periodic_completes (tries : nat) (host : Host) (t : Transaction) (next : Z) : M (option (option Z)) :=
  _ ← wait_for_microframe next;
  f ← frame_number;
  r ← run_channel host (with_odd_frame (is_odd f) t);
  let '(interrupts, remaining) := r in
  if any interrupts INT_XFER_COMPLETE then mret (Some (Some (x_length t - remaining))) else
  if any interrupts (Z.lor (Z.lor INT_NAK INT_STALL) INT_ERRORS) then o ← interrupt_outcome interrupts; mret (Some o) else
  match tries with
  | O => mret None
  | S tries => periodic_completes tries host t (Z.land (next + 1) 7)
  end.

Fixpoint split_interrupt_from (attempts : nat) (host : Host) (t : Transaction) (tr : Translator) : M (option Z) :=
  match attempts with
  | O => fail (Timeout (str "a periodic split transaction"))
  | S attempts =>
    f ← frame_number;
    let next := Z.land (f + 1) 7 in
    let next := if next =? 6 then 7 else next in
    _ ← wait_for_microframe next;
    f ← frame_number;
    r ← run_channel host (with_odd_frame (is_odd f) (with_split (split_bits tr) t));
    if negb (any r.1 INT_ACK) then interrupt_outcome r.1 else
    o ← periodic_completes (if next =? 5 then 2 else 3) host (with_split (Z.lor (split_bits tr) CHAN_SPLIT_COMPLETE) t) (Z.land (next + 2) 7);
    match o with
    | Some o => mret o
    | None => _ ← delay_us (8 * MICROFRAME_US); split_interrupt_from attempts host t tr
    end
  end.
Definition split_interrupt (host : Host) (t : Transaction) (tr : Translator) : M (option Z) :=
  split_interrupt_from (Z.to_nat MAX_SPLIT_ERRORS) host t tr.

(** [len] is how much the caller's buffer holds; what came, and the toggle after it. *)
Definition interrupt_in (host : Host) (e : Keyboard.InterruptIn) (toggle : Pid) (len : Z) : M (option (list Z) * Pid) :=
  let length := Z.min (Z.min (Keyboard.in_max_packet e) len) BUFFER_LEN in
  let base := mkTransaction (Keyboard.in_target e) (Keyboard.in_endpoint e) (Keyboard.in_max_packet e) InterruptKind In toggle
                0 length 1 0 false ControlBuffer in
  received ← (match tg_translator (Keyboard.in_target e) with
              | None => direct_interrupt host base
              | Some tr => split_interrupt host base tr
              end);
  match received with
  | Some count => bytes ← load_from (buffer host) (Z.to_nat count); mret (Some bytes, toggled toggle)
  | None => mret (None, toggle)
  end.

(** ** Bulk transfers *)

(** [bulk] sets the caller's toggle as it goes, errors included: it comes back with the result. *)
Definition bulk (host : Host) (e : BulkEndpoint) (d : Direction) (toggle : Pid) (length : Z) : M (Pid * result UsbError Z) :=
  let max := Z.max (bk_max_packet e) 1 in
  started ← now_us;
  loop_with (turns TRANSFER_TIMEOUT_US) (λ '(done, toggle),
    let left := length - done in
    let packets := Z.max (div_ceil left max) 1 in
    r ← catch (run_channel host (mkTransaction (bk_target e) (bk_endpoint e) (bk_max_packet e) BulkKind d toggle done left packets
                                   0 false (if decide (d = In) then BulkIn else BulkOut)));
    match r with
    | Err error => mret (inr (toggle, Err error))
    | Ok (interrupts, remaining) =>
      let done := done + (left - remaining) in
      toggle ← channel_pid;
      if any interrupts INT_STALL then mret (inr (toggle, Err (Stalled (str "bulk")))) else
      if any interrupts INT_XFER_COMPLETE then mret (inr (toggle, Ok done)) else
      if negb (any interrupts INT_NAK) || any interrupts INT_ERRORS then mret (inr (toggle, Err (TransferFailed (str "bulk") interrupts))) else
      now ← now_us;
      if TRANSFER_TIMEOUT_US <? wrap 64 (now - started) then mret (inr (toggle, Err (Timeout (str "a bulk transfer")))) else
      _ ← sleep_us 1000; mret (inl (done, toggle))
    end) (0, toggle).

Definition bulk_out (host : Host) (e : BulkEndpoint) (toggle : Pid) (data : list Z) : M (Pid * result UsbError unit) :=
  if BULK_OUT_LEN <? Z.of_nat (List.length data) then mret (toggle, Err TooLong) else
  _ ← store_at (bulk_out_buffer host) data;
  r ← bulk host e Out toggle (Z.of_nat (List.length data));
  mret (r.1, (λ _, tt) <$> r.2).

Definition bulk_in (host : Host) (e : BulkEndpoint) (toggle : Pid) : M (Pid * result UsbError (list Z)) :=
  r ← bulk host e In toggle BULK_IN_LEN;
  match r with
  | (toggle, Ok received) => bytes ← load_from (bulk_in_buffer host) (Z.to_nat received); mret (toggle, Ok bytes)
  | (toggle, Err error) => mret (toggle, Err error)
  end.

(** ** Starting *)
Definition ulpi_full_speed (hw_cfg2 : Z) : bool := (Z.land (Z.shiftr hw_cfg2 6) 3 =? 2) && (Z.land (Z.shiftr hw_cfg2 8) 3 =? 1).

Definition init_core (hw_cfg2 : Z) : M unit :=
  _ ← change USB_CFG (λ v, Z.land v (bnot 32 (Z.lor USB_CFG_ULPI_EXT_VBUS_DRV USB_CFG_TERM_SEL_DL_PULSE)));
  _ ← wait_for (str "the AHB to go idle") REGISTER_TIMEOUT_US (reads RESET (λ v, any v RESET_AHB_IDLE));
  _ ← wr RESET RESET_SOFT;
  _ ← wait_for (str "the core to reset") REGISTER_TIMEOUT_US (reads RESET (λ v, negb (any v RESET_SOFT)));
  _ ← sleep_us 100000;
  _ ← change USB_CFG (λ v,
        let v := Z.land v (bnot 32 (Z.lor USB_CFG_ULPI_UTMI_SEL USB_CFG_PHYIF)) in
        let fsls := Z.lor USB_CFG_ULPI_FSLS USB_CFG_ULPI_CLK_SUS_M in
        Z.lor (if ulpi_full_speed hw_cfg2 then Z.lor v fsls else Z.land v (bnot 32 fsls)) USB_CFG_FORCE_HOST_MODE);
  _ ← sleep_us 50000;
  _ ← wait_for (str "host mode") REGISTER_TIMEOUT_US (reads INT_STATUS (λ v, any v INT_STATUS_HOST_MODE));
  change AHB_CFG (λ v, Z.lor (Z.lor (Z.land v (bnot 32 AHB_CFG_MAX_AXI_BURST)) AHB_CFG_DMA_ENABLE) AHB_CFG_WAIT_AXI_WRITES).

Definition init_host (hw_cfg2 : Z) : M unit :=
  _ ← wr POWER 0;
  _ ← change HOST_CFG (λ v, Z.lor (Z.land v (bnot 32 3)) (if ulpi_full_speed hw_cfg2 then 1 else 0));
  _ ← wr RX_FIFO_SIZE RX_FIFO_WORDS;
  _ ← wr NP_TX_FIFO_SIZE (Z.lor RX_FIFO_WORDS (Z.shiftl NP_TX_FIFO_WORDS 16));
  _ ← wr HOST_PERIODIC_TX_FIFO_SIZE (Z.lor (RX_FIFO_WORDS + NP_TX_FIFO_WORDS) (Z.shiftl PERIODIC_TX_FIFO_WORDS 16));
  _ ← wr RESET (Z.lor RESET_TX_FIFO_FLUSH RESET_TX_FIFO_ALL);
  _ ← wait_for (str "the TX FIFOs to flush") REGISTER_TIMEOUT_US (reads RESET (λ v, negb (any v RESET_TX_FIFO_FLUSH)));
  _ ← wr RESET RESET_RX_FIFO_FLUSH;
  _ ← wait_for (str "the RX FIFO to flush") REGISTER_TIMEOUT_US (reads RESET (λ v, negb (any v RESET_RX_FIFO_FLUSH)));
  v ← rd HOST_PORT;
  let port := Z.land v (bnot 32 PORT_WRITE_CLEARS) in
  if negb (any port PORT_POWER) then wr HOST_PORT (Z.lor port PORT_POWER) else mret tt.

Definition enable_root_port : M RootPort :=
  r ← catch (wait_for (str "a device on the root port") CONNECT_TIMEOUT (reads HOST_PORT (λ v, any v PORT_CONNECT)));
  _ ← (match r with Ok _ => mret tt | Err _ => fail NoDevice end);
  _ ← sleep_us DEBOUNCE;
  _ ← change HOST_PORT (λ v, Z.lor (Z.land v (bnot 32 PORT_WRITE_CLEARS)) PORT_RESET);
  _ ← sleep_us RESET_HOLD;
  _ ← change HOST_PORT (λ v, Z.land (Z.land v (bnot 32 PORT_WRITE_CLEARS)) (bnot 32 PORT_RESET));
  _ ← sleep_us RESET_RECOVERY;
  port ← rd HOST_PORT;
  if negb (any port PORT_ENABLE) then fail (Timeout (str "the root port to enable")) else
  let s := Z.land (Z.shiftr port 17) 3 in
  mret (mkRootPort (if s =? 0 then High else if s =? 1 then Full else Low)).

(** [call]: how a message gets to the firmware and its answer back; [b], [bi] and [bo]: where the [Box]'s
    buffers are. *)
Definition start_on (call : list Z → M (list Z)) (b bi bo : Z) : M Host :=
  answer ← query_on SetPowerState call (power_on USB_HCD);
  words ← (match answer with Ok words => mret words | Err e => fail (MailboxFailed e) end : M (list Z));
  if negb (is_on (words !!! 1%nat)) then fail NoPower else
  id ← rd VENDOR_ID;
  if negb (Z.shiftr id 16 =? VENDOR_OT) then fail (NotDwc2 id) else
  hw_cfg2 ← rd HW_CFG2;
  let controller := mkController (wrap 16 id) (Z.land (Z.shiftr hw_cfg2 14) 0xF + 1) in
  _ ← change AHB_CFG (λ v, Z.land v (bnot 32 AHB_CFG_GLOBAL_INT));
  _ ← init_core hw_cfg2;
  _ ← init_host hw_cfg2;
  port ← enable_root_port;
  mret (mkHost controller port b bi bo).

(** With [mailbox], how the firmware answers, its answer there at once. *)
Definition start (mailbox : list Z → list Z) (b bi bo : Z) : M Host := start_on (λ m, mret (mailbox m)) b bi bo.
End driver.
End UsbHost.
