(* ===== verification/UsbTime.v ===== *)
(** The USB host driver comes back, but for one loop: starting, polls and bulk transfers, and control transfers
    through a translator, end within a bounded time, whatever the controller and the devices do (starting, once the firmware has
    answered).  A control
    transfer straight to a device that is never ready does not; and a device that claims packets of no bytes
    makes the kernel panic. *)
From S2P Require Import Prelude Bytes Text Effect Mmio Firmware Usb UsbTree Keyboard UsbHost.
From stdpp Require Import strings.
Open Scope Z_scope.

Module UsbTime.
Import Effect Text Mmio Mailbox Exchange Usb UsbTree UsbHost.

(** Memory accesses take time too, and the scheduler wakes a task at most [slack] after it asked. *)
Class Sleeper (HW : Type) `{Clocked HW} `{Machine HW} := {
  slack : Z;
  slack_range : 0 <= slack <= 2 ^ 60 * Z.pos pace;
  sleep_takes us h : 0 <= us → cycles h <= cycles (sleep us h) <= cycles h + us * Z.pos pace + slack;
  store_takes a bytes h : cycles h <= cycles (store a bytes h) <= cycles h + latency;
  clean_takes a n h : cycles h <= cycles (clean a n h) <= cycles h + latency }.

Section costs.
Context {HW : Type} `{Sleeper HW}.

(** So many microseconds, accesses and sleeps. *)
Definition cost (us accesses sleeps : Z) : Z := span us accesses + sleeps * slack.
End costs.

Ltac cost_lia := pose proof latency_range; pose proof slack_range; unfold cost, span in *;
  change (2 ^ 28) with 268435456 in *; change (2 ^ 60) with 1152921504606846976 in *; lia.

Ltac cost_go :=
  lazymatch goal with
  | |- takes (mbind _ _) _ => eapply takes_bind; [cost_go|intros ?; cost_go|cost_lia]
  | |- _ => solve [eauto with takes]
  end.
Ltac costs := eapply takes_le; [cost_go|try cost_lia].

Section calls.
Context {HW : Type} `{Sleeper HW}.
Local Notation M := (Eff HW UsbError).

Lemma takes_if {A} (b : bool) (m m' : M A) c : (b = true → takes m c) → (b = false → takes m' c) → takes (if b then m else m') c.
Proof. destruct b; auto. Qed.

Lemma takes_0 {A} (m : M A) c : takes m 0 → 0 <= c → takes m c.
Proof. intros Hm Hc. by eapply takes_le. Qed.

Lemma takes_sleep us : 0 <= us → takes (sleep_us us : M unit) (cost us 0 1).
Proof.
  intros Hu. split; [cost_lia|]. intros h. unfold wp, sleep_us, modify. pose proof (sleep_takes us h Hu). cost_lia.
Qed.

Lemma takes_store a bytes : takes (store_at a bytes : M unit) (cost 0 1 0).
Proof. split; [cost_lia|]. intros h. unfold wp, store_at, modify. pose proof (store_takes a bytes h). cost_lia. Qed.

Lemma takes_clean a n : takes (clean_and_invalidate a n : M unit) (cost 0 1 0).
Proof. split; [cost_lia|]. intros h. unfold wp, clean_and_invalidate, modify. pose proof (clean_takes a n h). cost_lia. Qed.

Lemma takes_load a n : takes (load_from a n : M _) 0.
Proof. split; [done|]. intros h. unfold wp, load_from. lia. Qed.
Hint Resolve takes_store takes_clean takes_load : takes.

Lemma takes_usb_wait what t (done : M bool) : 0 <= t < 2 ^ 62 → takes done latency → takes (wait_for what t done) (cost (t + 1) 19 0).
Proof.
  intros Ht Hd. unfold wait_for. pose proof (scaled t Ht). eapply takes_le.
  - apply takes_polling; [cost_go|apply takes_ret|lia|]. cost_lia.
  - cost_lia.
Qed.

Lemma takes_reads r p : takes (reads r p : M bool) latency.
Proof. unfold reads. costs. Qed.

Lemma takes_register what r p : takes (wait_for what REGISTER_TIMEOUT_US (reads r p) : M unit) (cost 100001 19 0).
Proof. apply (takes_usb_wait what REGISTER_TIMEOUT_US); [split; vm_compute; congruence|apply takes_reads]. Qed.

Lemma takes_usb_change r f : takes (change r f : M unit) (cost 0 2 0).
Proof. unfold change. costs. Qed.
Hint Resolve takes_register takes_usb_change : takes.

Lemma takes_halt n : takes (halt_channel n : M unit) (cost 100001 22 0).
Proof.
  unfold halt_channel. assert (Hw : takes (catch (wait_for (str "a channel to halt") REGISTER_TIMEOUT_US
    (reads (channel n CHAN_INT) (λ i, any i INT_HALTED))) : M _) (cost 100001 19 0)) by apply takes_catch, takes_register.
  eapply takes_le; [eapply takes_bind; [apply takes_rd| |]|].
  - intros c. apply (takes_if _ _ _ (cost 100001 21 0)); intros _; [costs|apply takes_0; [apply takes_ret|cost_lia]].
  - cost_lia.
  - cost_lia.
Qed.
Hint Resolve takes_halt : takes.

Lemma takes_frame : takes (frame_number : M Z) latency.
Proof. unfold frame_number. costs. Qed.

Lemma takes_microframe f : takes (wait_for_microframe f : M unit) (cost 2001 19 0).
Proof. apply (takes_usb_wait _ FRAME_WAIT_US); [split; vm_compute; congruence|]. pose proof takes_frame. costs. Qed.

Lemma takes_pid : takes (channel_pid : M Pid) latency.
Proof. unfold channel_pid. costs. Qed.
Hint Resolve takes_frame takes_microframe takes_pid : takes.

(** One transaction. *)
Lemma takes_run host t : takes (run_channel host t : M (Z * Z)) (cost 700003 80 0).
Proof.
  unfold run_channel. assert (Hw : takes (catch (wait_for (str "a transfer") TRANSFER_TIMEOUT_US
    (reads (channel CONTROL_CHANNEL CHAN_INT) (λ i, any i INT_HALTED))) : M _) (cost 500001 19 0)).
  { apply takes_catch. apply (takes_usb_wait _ TRANSFER_TIMEOUT_US); [split; vm_compute; congruence|apply takes_reads]. }
  assert (Hk : ∀ r : result UsbError unit, takes (match r with
    | Err error => _ ← halt_channel CONTROL_CHANNEL; fail error
    | Ok _ => interrupts ← rd (channel CONTROL_CHANNEL CHAN_INT);
        _ ← clean_and_invalidate (buffer_address host (x_buffer t)) (buffer_len (x_buffer t));
        v ← rd (channel CONTROL_CHANNEL CHAN_XFER_SIZE); mret (interrupts, Z.min (Z.land v 0x7FFFF) (x_length t))
    end : M (Z * Z)) (cost 100001 22 0)).
  { intros [[]|e]; costs. }
  cbv zeta. costs.
Qed.
Hint Resolve takes_run : takes.

Lemma takes_delay_us us : 0 <= us < 2 ^ 62 → takes (delay_us us : M unit) (cost (us + 1) 18 0).
Proof. intros Hu. eapply takes_le; [by apply takes_delay|cost_lia]. Qed.

Lemma takes_frames n : 1 <= n <= 8 → takes (delay_us (n * MICROFRAME_US) : M unit) (cost (n * 125 + 1) 18 0).
Proof. intros Hn. apply takes_delay_us. unfold MICROFRAME_US. lia. Qed.

Lemma takes_count errors interrupts stage : takes (count_error errors interrupts stage : M Z) 0.
Proof. unfold count_error. apply takes_if; intros _; [apply takes_fail|apply takes_ret]. Qed.
Hint Resolve takes_count : takes.

(** What a run of the channel is followed by, case by case. *)
Ltac cases := repeat (apply takes_if; intros _); try (apply takes_0; [solve [eauto with takes]|cost_lia]).

Lemma takes_complete n host t stage errors :
  takes (complete_splits n host t stage errors : M (Z + Z)) (cost (Z.of_nat (S n) * 700629) (Z.of_nat (S n) * 98) 0).
Proof.
  assert (H5 : takes (delay_us (5 * MICROFRAME_US) : M unit) (cost 626 18 0)) by (apply (takes_frames 5); lia).
  revert errors. induction n as [|n IH]; intros errors; cbn [complete_splits].
  - apply (takes_le _ (cost 700003 80 0 + cost 626 18 0)); [|cost_lia].
    apply takes_bind; [apply takes_run|intros [i rem]|cost_lia]. cases; costs.
  - apply (takes_le _ (cost 700003 80 0 + cost (626 + Z.of_nat (S n) * 700629) (18 + Z.of_nat (S n) * 98) 0)); [|cost_lia].
    apply takes_bind; [apply takes_run|intros [i rem]|cost_lia]. specialize (IH errors). cases; costs.
Qed.

Definition TRY : Z := cost 3502519 472 0.

Lemma takes_try host tr t stage errors : takes (split_try host tr t stage errors : M (Z + Z)) TRY.
Proof.
  assert (H1' : takes (delay_us MICROFRAME_US : M unit) (cost 126 18 0)) by (apply (takes_frames 1); lia).
  pose proof (takes_complete MAX_NYETS host (with_split (Z.lor (split_bits tr) CHAN_SPLIT_COMPLETE) t) stage errors) as Hc.
  unfold split_try, TRY. apply (takes_le _ (cost 700003 80 0 + cost 2802516 392 0)); [|cost_lia].
  apply takes_bind; [apply takes_run|intros [i rem]|cost_lia]. cbn [fst]. cases; [|eapply takes_le; [exact Hc|unfold MAX_NYETS; cost_lia]].
  apply (takes_le _ (0 + (cost 126 18 0 + 0))); [|cost_lia]. apply takes_bind; [|intros e; apply takes_bind|]; try cost_lia; [|done|intros; apply takes_ret].
  apply takes_if; intros _; eauto with takes.
Qed.

(** A packet: the clock is looked at before every start split, so there is one that was in time, and no more than
    one try after it. *)
Lemma split_packet_time host tr t stage c0 h : c0 <= cycles h <= c0 + 2 ^ 61 * Z.pos pace →
  wp (split_packet host tr t stage (wrap 64 (c0 / Z.pos pace)) : M Z) h
    (λ h' _, cycles h < cycles h' ∧ (∃ c, cycles h < c <= cycles h' ∧ c - c0 < (SPLIT_TIMEOUT_US + 1) * Z.pos pace ∧ cycles h' <= c + 6 * latency + TRY))
    (λ h' _, cycles h <= cycles h' <= Z.max (cycles h) (c0 + (SPLIT_TIMEOUT_US + 1) * Z.pos pace + 6 * latency + TRY) + 6 * latency + TRY).
Proof.
  intros Hh. pose proof latency_range as Hl. pose proof slack_range as Hsl. unfold split_packet.
  pose proof (turns_enough SPLIT_TIMEOUT_US ltac:(done)) as Ht.
  assert (HT : 0 <= TRY <= 2 ^ 61 * Z.pos pace) by (unfold TRY; cost_lia).
  set (q := Z.pos pace) in *. assert (Hq : 0 < q) by done. set (T := SPLIT_TIMEOUT_US) in *. assert (0 < T < 2 ^ 21) by done.
  set (I := λ (k : nat) (_ : Z) h', k = O ∧ h' = h ∨
    ∃ c, cycles h + Z.of_nat k <= c <= cycles h' ∧ cycles h' <= c + 6 * latency + TRY ∧ c - c0 < (T + 1) * q).
  assert (Hin : ∀ k e h', I k e h' → cycles h <= cycles h' ∧ Z.of_nat k <= (T + 1) * q ∧
    cycles h' <= Z.max (cycles h) (c0 + (T + 1) * q + 6 * latency + TRY)).
  { intros k e h' [[-> ->]|(c & Hc & Hc' & Hlt)]; nia. }
  apply (wp_loop_with _ _ I); [|intros k e h' Hk; apply Hin in Hk; lia|by left].
  intros k e h2 Hk. pose proof (Hin _ _ _ Hk) as (Hh2 & _ & Hb2). eapply wp_call; [apply now_us_spec| |done].
  intros h3 now (Hh3 & c & Hc & ->). fold q. cbn beta.
  destruct (elapsed q c0 c Hq ltac:(nia)) as [-> _]. destruct (Z.ltb_spec T (c / q - c0 / q)) as [Hlt|Hge].
  - apply wp_fail. lia.
  - pose proof (elapsed_cycles q c0 c T Hq ltac:(lia)). eapply wp_mono; [apply (proj2 (takes_try host tr t stage e))|..]; cbn beta.
    + intros h4 [e'|moved] Hh4.
      * right. exists c. split_and!; [|lia|lia|lia]. destruct Hk as [[-> ->]|(c' & Hc' & _ & _)]; lia.
      * split; [lia|]. exists c. split_and!; lia.
    + intros h4 er Hh4. lia.
Qed.

Lemma takes_split host target tr d pid length stage :
  takes (split_transfer host target tr d pid length stage : M Z) (cost 8005039 962 0).
Proof.
  split; [cost_lia|]. intros h. pose proof latency_range as Hl. unfold split_transfer.
  eapply wp_call; [apply now_us_spec| |done]. intros h1 started (Hh1 & c0 & Hc0 & ->).
  assert (HT : 0 <= TRY ∧ (SPLIT_TIMEOUT_US + 1) * Z.pos pace + 18 * latency + 2 * TRY = cost 8005039 962 0 ∧
    6 * latency + TRY <= 2 ^ 60 * Z.pos pace) by (unfold TRY, SPLIT_TIMEOUT_US; split_and!; cost_lia).
  pose proof (turns_enough SPLIT_TIMEOUT_US ltac:(done)) as Ht. set (q := Z.pos pace) in *. assert (Hq : 0 < q) by done.
  set (T := SPLIT_TIMEOUT_US) in *. assert (0 < T < 2 ^ 21) by done.
  set (I := λ (k : nat) (_ : Z * Pid) h', k = O ∧ h' = h1 ∨
    ∃ c, cycles h1 + Z.of_nat k <= c <= cycles h' ∧ cycles h' <= c + 6 * latency + TRY ∧ c - c0 < (T + 1) * q).
  assert (Hin : ∀ k v h', I k v h' → cycles h1 <= cycles h' ∧ Z.of_nat k <= (T + 1) * q ∧
    cycles h' <= c0 + (T + 1) * q + 6 * latency + TRY).
  { intros k v h' [[-> ->]|(c & Hc & Hc' & Hlt)]; nia. }
  apply (wp_loop_with _ _ I); [|intros k v h' Hk; apply Hin in Hk; lia|by left].
  intros k [moved pid'] h2 Hk. pose proof (Hin _ _ _ Hk) as (Hh2 & _ & Hb2). cbv zeta.
  eapply wp_call; [apply (split_packet_time host tr _ stage c0); fold q; nia| |]; cbn beta; fold q.
  - intros h3 m (Hh3 & c & Hc & Hlt & Hh3'). apply wp_ret. destruct (_ || _); [lia|].
    right. exists c. split_and!; [|lia|lia|done]. destruct Hk as [[-> ->]|(c' & Hc' & _ & _)]; lia.
  - intros h3 er Hh3. fold T in Hh3. lia.
Qed.

(** ** Interrupt transfers *)
Lemma takes_outcome i : takes (interrupt_outcome i : M (option Z)) 0.
Proof. unfold interrupt_outcome. apply takes_if; intros _; [apply takes_fail|]. apply takes_if; intros _; [apply takes_ret|apply takes_fail]. Qed.
Hint Resolve takes_outcome : takes.

Lemma takes_direct_interrupt host t : takes (direct_interrupt host t : M (option Z)) (cost 702004 101 0).
Proof.
  unfold direct_interrupt. assert (Hw : ∀ now, takes (wait_for (str "the next frame") FRAME_WAIT_US (f ← frame_number; mret (negb (f =? now))) : M unit)
    (cost 2001 19 0)) by (intros now; apply (takes_usb_wait _ FRAME_WAIT_US); [split; vm_compute; congruence|costs]).
  assert (Hk : ∀ r : Z * Z, takes (let '(interrupts, remaining) := r in if any interrupts INT_XFER_COMPLETE then mret (Some (x_length t - remaining))
    else interrupt_outcome interrupts : M (option Z)) 0) by (intros [i rem]; apply takes_if; intros _; eauto with takes).
  costs.
Qed.

Lemma takes_periodic n host t next :
  takes (periodic_completes n host t next : M _) (cost (Z.of_nat (S n) * 702004) (Z.of_nat (S n) * 100) 0).
Proof.
  revert next. induction n as [|n IH]; intros next; cbn [periodic_completes].
  - apply (takes_le _ (cost 2001 19 0 + (latency + (cost 700003 80 0 + 0)))); [|cost_lia].
    apply takes_bind; [apply takes_microframe|intros ?|cost_lia]. apply takes_bind; [apply takes_frame|intros ?|cost_lia].
    apply takes_bind; [apply takes_run|intros [i rem]|lia]. cases. costs.
  - apply (takes_le _ (cost 2001 19 0 + (latency + (cost 700003 80 0 + cost (Z.of_nat (S n) * 702004) (Z.of_nat (S n) * 100) 0)))); [|cost_lia].
    apply takes_bind; [apply takes_microframe|intros ?|cost_lia]. apply takes_bind; [apply takes_frame|intros ?|cost_lia].
    apply takes_bind; [apply takes_run|intros [i rem]|cost_lia]. cases; [costs|apply IH].
Qed.

Lemma takes_split_interrupt n host t tr : takes (split_interrupt_from n host t tr : M (option Z)) (cost (Z.of_nat n * 3511021) (Z.of_nat n * 519) 0).
Proof.
  assert (H8 : takes (delay_us (8 * MICROFRAME_US) : M unit) (cost 1001 18 0)) by (apply (takes_frames 8); lia).
  induction n as [|n IH]; cbn [split_interrupt_from]; [apply takes_0; [apply takes_fail|cost_lia]|].
  set (rest := cost (Z.of_nat n * 3511021) (Z.of_nat n * 519) 0) in *. assert (Hr : 0 <= rest) by apply (proj1 IH).
  apply (takes_le _ (latency + (cost 2001 19 0 + (latency + (cost 700003 80 0 + (cost 2808016 400 0 + (cost 1001 18 0 + rest))))))); [|unfold rest; cost_lia].
  apply takes_bind; [apply takes_frame|intros f; cbv zeta|cost_lia]. apply takes_bind; [apply takes_microframe|intros ?|cost_lia].
  apply takes_bind; [apply takes_frame|intros ?|cost_lia]. apply takes_bind; [apply takes_run|intros [i rem]; cbn [fst]|cost_lia].
  apply takes_if; intros _; [apply takes_0; [apply takes_outcome|cost_lia]|]. apply takes_bind; [|intros [o|]|cost_lia].
  - eapply takes_le; [apply takes_periodic|]. destruct (_ =? 5); cost_lia.
  - apply takes_0; [apply takes_ret|cost_lia].
  - by apply takes_bind; [|intros ?|lia].
Qed.

Lemma takes_interrupt_in host e toggle len : takes (interrupt_in host e toggle len : M _) (cost 10533063 1557 0).
Proof.
  unfold interrupt_in. apply (takes_le _ (cost 10533063 1557 0 + 0)); [|cost_lia]. apply takes_bind; [|intros [count|]|lia].
  - destruct (tg_translator _) as [tr|].
    + eapply takes_le; [apply takes_split_interrupt|]. change (Z.of_nat (Z.to_nat MAX_SPLIT_ERRORS)) with 3. cost_lia.
    + eapply takes_le; [apply takes_direct_interrupt|cost_lia].
  - costs.
  - apply takes_ret.
Qed.

(** ** Bulk transfers *)
Lemma takes_bulk host e d toggle length : takes (bulk host e d toggle length : M _) (cost 1201004 99 1).
Proof.
  split; [cost_lia|]. intros h. pose proof latency_range as Hl. unfold bulk. cbv zeta.
  eapply wp_call; [apply now_us_spec| |done]. intros h1 started (Hh1 & c0 & Hc0 & ->).
  set (ca := cost 700003 81 0). set (cr := cost 1000 0 1).
  assert (HT : 0 <= ca ∧ 0 <= cr ∧ (TRANSFER_TIMEOUT_US + 1) * Z.pos pace + ca + cr + 18 * latency = cost 1201004 99 1 ∧
    ca + cr + 18 * latency <= 2 ^ 61 * Z.pos pace) by (unfold ca, cr, TRANSFER_TIMEOUT_US; split_and!; cost_lia).
  pose proof (turns_enough TRANSFER_TIMEOUT_US ltac:(done)) as Ht. pose proof (takes_sleep 1000 ltac:(lia)) as Hsleep. fold cr in Hsleep.
  set (q := Z.pos pace) in *. assert (Hq : 0 < q) by done. set (T := TRANSFER_TIMEOUT_US) in *. assert (0 < T < 2 ^ 20) by done.
  set (I := λ (k : nat) (_ : Z * Pid) h', k = O ∧ h' = h1 ∨
    ∃ c, cycles h1 + Z.of_nat k <= c <= cycles h' ∧ cycles h' <= c + 6 * latency + cr ∧ c - c0 < (T + 1) * q).
  assert (Hin : ∀ k v h', I k v h' → cycles h1 <= cycles h' ∧ Z.of_nat k <= (T + 1) * q ∧
    cycles h' <= c0 + (T + 1) * q + 6 * latency + cr).
  { intros k v h' [[-> ->]|(c & Hc & Hc' & Hlt)]; nia. }
  apply (wp_loop_with _ _ I); [|intros k v h' Hk; apply Hin in Hk; lia|by left].
  intros k [done pid] h2 Hk. pose proof (Hin _ _ _ Hk) as (Hh2 & _ & Hb2).
  eapply wp_call; [apply (proj2 (takes_catch _ _ (takes_run host _)))| |]; cbn beta; [|unfold ca in *; intros; cost_lia].
  intros h3 [[i rem]|er] Hh3; [|apply wp_ret; unfold ca in *; cost_lia].
  eapply wp_call; [apply (proj2 takes_pid)| |]; cbn beta; [|unfold ca in *; intros; cost_lia].
  intros h4 pid' Hh4. assert (Hh4' : cycles h2 <= cycles h4 <= cycles h2 + ca) by (unfold ca; cost_lia).
  assert (Hend : ∀ r, wp (mret (inr r) : M (Z * Pid + Pid * result UsbError Z)) h4
    (λ h' r, match r with inr _ => cycles h <= cycles h' <= cycles h + cost 1201004 99 1 | inl v => I (S k) v h' end)
    (λ h' _, cycles h <= cycles h' <= cycles h + cost 1201004 99 1)) by (intros r; apply wp_ret; lia).
  apply wp_if; intros _; [apply Hend|]. apply wp_if; intros _; [apply Hend|]. apply wp_if; intros _; [apply Hend|].
  eapply wp_call; [apply now_us_spec| |done]. intros h5 now (Hh5 & c & Hc & ->). fold q. cbn beta.
  destruct (elapsed q c0 c Hq ltac:(nia)) as [-> _]. destruct (Z.ltb_spec T (c / q - c0 / q)) as [Hlt|Hge]; [apply wp_ret; lia|].
  pose proof (elapsed_cycles q c0 c T Hq ltac:(lia)). eapply wp_call; [apply (proj2 Hsleep)| |]; cbn beta; [|intros; lia].
  intros h6 ? Hh6. apply wp_ret. right. exists c. split_and!; [|lia|lia|done].
  destruct Hk as [[-> ->]|(c' & Hc' & _ & _)]; lia.
Qed.

(** ** Starting *)
Lemma takes_init_core hw : takes (init_core hw : M unit) (cost 450003 64 2).
Proof. pose proof (takes_sleep 100000 ltac:(lia)). pose proof (takes_sleep 50000 ltac:(lia)). unfold init_core. costs. Qed.

Lemma takes_init_host hw : takes (init_host hw : M unit) (cost 200002 48 0).
Proof.
  unfold init_host. assert (Hk : ∀ v, takes (let port := Z.land v (bnot 32 PORT_WRITE_CLEARS) in
    if negb (any port PORT_POWER) then wr HOST_PORT (Z.lor port PORT_POWER) else mret tt : M unit) latency).
  { intros v. cbv zeta. apply takes_if; intros _; [apply takes_wr|apply takes_0; [apply takes_ret|cost_lia]]. }
  costs.
Qed.

Lemma takes_root_port : takes (enable_root_port : M RootPort) (cost 680001 24 3).
Proof.
  unfold enable_root_port. pose proof (takes_sleep DEBOUNCE ltac:(done)). pose proof (takes_sleep RESET_HOLD ltac:(done)).
  pose proof (takes_sleep RESET_RECOVERY ltac:(done)). unfold DEBOUNCE, RESET_HOLD, RESET_RECOVERY in *.
  assert (Hw : takes (catch (wait_for (str "a device on the root port") CONNECT_TIMEOUT (reads HOST_PORT (λ v, any v PORT_CONNECT))) : M _)
    (cost 510001 19 0)).
  { apply takes_catch. apply (takes_usb_wait _ CONNECT_TIMEOUT); [split; vm_compute; congruence|apply takes_reads]. }
  assert (Hr : ∀ r : result UsbError unit, takes (match r with Ok _ => mret tt | Err _ => fail NoDevice end : M unit) 0)
    by (intros [?|?]; [apply takes_ret|apply takes_fail]).
  assert (Hk : ∀ v, takes (if negb (any v PORT_ENABLE) then fail (Timeout (str "the root port to enable")) else
    let s := Z.land (Z.shiftr v 17) 3 in mret (mkRootPort (if s =? 0 then High else if s =? 1 then Full else Low)) : M RootPort) 0)
    by (intros v; apply takes_if; intros _; [apply takes_fail|apply takes_ret]).
  costs.
Qed.

Lemma takes_start call firmware c b bi bo : (∀ m, takes (call m : M (list Z)) c) →
  (∀ m h, post (call m : M _) h (λ _ r, r = firmware m) (λ _ _, True)) → query SetPowerState firmware (power_on USB_HCD) ≠ None →
  takes (start_on call b bi bo : M Host) (c + cost 1330006 140 5).
Proof.
  intros Hcall Hans Hq. unfold start_on. pose proof (takes_query_on SetPowerState call c firmware _ Hcall Hans Hq) as Hquery.
  assert (Hc0 : 0 <= c) by apply Hquery.
  pose proof (takes_init_core). pose proof takes_init_host. pose proof takes_root_port.
  apply (takes_le _ (c + (0 + cost 1330006 140 5))); [|cost_lia]. apply takes_bind; [exact Hquery|intros a|cost_lia].
  apply takes_bind; [destruct a; [apply takes_ret|apply takes_fail]|intros words|cost_lia]. cases.
  apply (takes_le _ (latency + cost 1330006 139 5)); [|cost_lia]. apply takes_bind; [apply takes_rd|intros id|cost_lia]. cases. cbv zeta. costs.
Qed.

(** ** Control transfers through a translator *)
Lemma takes_control patience host target setup data : tg_translator target ≠ None →
  takes (control patience host target setup data : M _) (cost 24015117 2888 0).
Proof.
  intros Htr. assert (Hs : ∀ d pid n stage, takes (transfer patience host target d pid n stage : M Z) (cost 8005039 962 0)).
  { intros. unfold transfer. destruct (tg_translator target); [apply takes_split|done]. }
  unfold control. cbv zeta. cases.
  assert (Hd : takes (if 0 <? length_ setup then
      _ ← (if decide (direction setup = Out) then store_at (buffer host) (take (Z.to_nat (length_ setup)) data) else mret tt);
      received ← transfer patience host target (direction setup) Data1 (length_ setup) (str "data");
      if decide (direction setup = In) then bytes ← load_from (buffer host) (Z.to_nat received); mret (bytes ++ drop (Z.to_nat received) data, received)
      else mret (data, received)
    else mret (data, 0) : M (list Z * Z)) (cost 8005039 963 0)).
  { apply takes_if; intros _; [|apply takes_0; [apply takes_ret|cost_lia]].
    apply (takes_le _ (cost 0 1 0 + (cost 8005039 962 0 + 0))); [|cost_lia].
    apply takes_bind; [|intros ?; apply takes_bind; [apply Hs|intros ?|lia]|cost_lia].
    - destruct (decide _); [apply takes_store|apply takes_0; [apply takes_ret|cost_lia]].
    - destruct (decide _); [costs|apply takes_ret]. }
  assert (Hk : ∀ r : list Z * Z, takes (let '(data, received) := r in
    _ ← transfer patience host target (if (0 <? length_ setup) && bool_decide (direction setup = In) then Out else In) Data1 0 (str "status");
    mret (data, if decide (direction setup = In) then received else 0) : M (list Z * Z)) (cost 8005039 962 0)).
  { intros [x y]. costs. }
  costs.
Qed.

(** C27: The USB host driver's calls end, within a time that is known beforehand, and do not panic, whatever the
    controller and the devices do: a poll of an endpoint in 11 seconds, a bulk transfer in 1.3, a control transfer
    through a translator in 25, besides register accesses and the scheduler's delays.  (A control transfer without a
    translator is not among them: [never_ready_never_ends].)  Starting takes 1.4 seconds besides the exchange of one
    message with the firmware, to switch the power on, which the driver waits for without a limit of its own
    ([silent_firmware_is_waited_for]): if that takes at most [c] and the answer is a message, whether it says yes or
    no, starting takes 1.4 seconds more. *)
Theorem usb_calls_end host :
  (∀ patience at_ firmware b bi bo c, (∀ m, takes (exchange patience at_ firmware m : M _) c) →
     query SetPowerState firmware (power_on USB_HCD) ≠ None →
     takes (start_on (exchange patience at_ firmware) b bi bo : M Host) (c + cost 1330006 140 5)) ∧
  (∀ e toggle len, takes (interrupt_in host e toggle len : M _) (cost 10533063 1557 0)) ∧
  (∀ e toggle, takes (bulk_in host e toggle : M _) (cost 1201004 99 1)) ∧
  (∀ e toggle data, takes (bulk_out host e toggle data : M _) (cost 1201004 100 1)) ∧
  (∀ patience target setup data, tg_translator target ≠ None →
     takes (control patience host target setup data : M _) (cost 24015117 2888 0)).
Proof.
  split_and!; [|apply takes_interrupt_in| | |intros; by apply takes_control].
  { intros p at_ firmware b bi bo c Hc Hq. by apply (takes_start _ firmware); [|intros; apply exchange_answers|]. }
  all: intros e toggle.
  - unfold bulk_in. apply (takes_le _ (cost 1201004 99 1 + 0)); [|lia]. apply takes_bind; [apply takes_bulk|intros [t [n|er]]|lia]; costs.
  - intros data. unfold bulk_out. cases. pose proof (takes_bulk host e Out toggle (Z.of_nat (length data))). costs.
Qed.
End calls.

(** * Where it does not *)

(** A device that is never ready: no channel is left going, and every transaction is halted by a NAK. *)
Class NeverReady (HW : Type) `{Sleeper HW} := {
  not_going h : any (read (channel CONTROL_CHANNEL CHAN_CHARACTER) h).2 CHAR_ENABLE = false;
  always_nak h : let v := (read (channel CONTROL_CHANNEL CHAN_INT) h).2 in
    any v INT_HALTED = true ∧ any v INT_NAK = true ∧ any v INT_STALL = false ∧ any v INT_XFER_COMPLETE = false }.

Section never.
Context {HW : Type} `{NeverReady HW}.
Local Notation M := (Eff HW UsbError).

Definition nak (i : Z) : Prop := any i INT_NAK = true ∧ any i INT_STALL = false ∧ any i INT_XFER_COMPLETE = false.

Lemma halt_never n h : n = CONTROL_CHANNEL → wp (halt_channel n : M unit) h (λ _ _, True) (λ _ _, False).
Proof. intros ->. unfold halt_channel, wp, mbind, Eff_bind, rd. by rewrite not_going. Qed.

Lemma wait_never what t h : wp (wait_for what t (reads (channel CONTROL_CHANNEL CHAN_INT) (λ i, any i INT_HALTED)) : M unit) h (λ _ _, True) (λ _ _, False).
Proof.
  unfold wait_for, polling. eapply wp_call; [apply now_us_spec| |done]. intros h1 start _. cbn beta.
  apply (wp_loop _ _ (λ k h', k = 0%nat)); [|intros; lia|done]. intros k h2 ->.
  eapply (wp_call _ _ _ (λ _ r, r = Some tt) (λ _ _, False)); [|by intros h3 ? ->|done].
  unfold reads, wp, mbind, Eff_bind, rd, mret, Eff_ret. by destruct (always_nak h2) as [-> _].
Qed.

Lemma run_never host t h : wp (run_channel host t : M (Z * Z)) h (λ _ r, nak r.1) (λ _ _, False).
Proof.
  unfold run_channel. cbv zeta. eapply wp_call; [by apply halt_never| |done]. intros h1 ? _. cbn beta.
  do 7 (eapply (wp_call _ _ _ (λ _ _, True) (λ _ _, False)); [done| |done]; intros ? ? _).
  eapply (wp_call _ _ _ (λ _ r, r = Ok tt) (λ _ _, False)); [apply wp_catch; eapply wp_mono; [apply wait_never| |done]| |done].
  { by intros ? [] _. }
  intros h2 ? ->. eapply (wp_call _ _ _ (λ _ i, nak i) (λ _ _, False)); [| |done].
  { unfold wp, rd. by destruct (always_nak h2) as (_ & ? & ? & ?). }
  intros h3 i Hi. done.
Qed.

(** A control transfer to a device that is never ready never ends: however often it is asked, the transfer goes
    on asking.  Nothing else the driver does waits without a limit. *)
Theorem never_ready_never_ends patience host target d pid length stage h : max_packet target ≠ 0 →
  direct_transfer patience host target d pid length stage h = (Panic : outcome HW UsbError Z).
Proof.
  intros Hm. unfold direct_transfer. rewrite (proj2 (Z.eqb_neq _ _)) by done. apply loop_never. clear h. intros h.
  pose proof (run_never host (control_transaction target d pid 0 length (Z.max (div_ceil length (max_packet target)) 1)) h) as Hr.
  unfold wp in Hr. unfold mbind at 1, Eff_bind at 1. destruct (run_channel _ _ h) as [h' [i rem]|h' e|]; [|done..].
  destruct Hr as (Hn & Hs & Hx). cbn [fst] in *. rewrite Hs, Hn, Hx. cbn [andb negb]. by eexists.
Qed.
End never.

(** A device that says its packets have no bytes divides the kernel by zero.  Such a descriptor is accepted, and
    the first control transfer to the device, which gives it its address, panics, whatever the controller does. *)
Theorem no_packet_size_panics {HW : Type} `{Mmio HW} `{Machine HW} patience host s h :
  parse_max_packet_size [18; 1; 0; 2; 0; 0; 0; 0] = Some (Ok 0) ∧
  ∀ address, control patience host (mkTarget 0 0 s None) (set_address address) [] h = (Panic : outcome HW UsbError _).
Proof. by split. Qed.

(** * A machine *)
Module Silent.

(** A controller that answers every transaction with NAK, after a millisecond an access. *)
Definition Silent : Type := Z.

Definition answer (r t : Z) : Z :=
  if r =? TIMER_CLO then wrap 32 t else if r =? TIMER_CHI then wrap 32 (t / 2 ^ 32)
  else if r =? channel CONTROL_CHANNEL CHAN_INT then Z.lor INT_HALTED INT_NAK
  else if r =? MBOX0_READ then mail 0 else 0.

#[export] Instance silent_mmio : Mmio Silent := { read r t := (t + 1000, answer r t); write _ _ t := t + 1000; pace := 1 }.
#[export] Instance silent_machine : Machine Silent := {
  store _ _ t := t; load _ n _ := replicate n 0; clean _ _ t := t; sleep us t := t + us }.

#[export] Program Instance silent_clocked : Clocked Silent := { cycles t := t; latency := 1000 }.
Next Obligation. cbn. lia. Qed.
Next Obligation. intros r t. cbn. lia. Qed.
Next Obligation. intros r v t. cbn. lia. Qed.
Next Obligation. intros t. exists t. cbn [read silent_mmio pace fst snd]. rewrite Z.div_1_r. split; [lia|done]. Qed.
Next Obligation. intros t. exists t. cbn [read silent_mmio pace fst snd]. rewrite Z.div_1_r. split; [lia|done]. Qed.

#[export] Program Instance silent_sleeper : Sleeper Silent := { slack := 0 }.
Next Obligation. cbn. lia. Qed.
Next Obligation. intros us t Hu. cbn. lia. Qed.
Next Obligation. intros a bs t. cbn. lia. Qed.
Next Obligation. intros a n t. cbn. lia. Qed.

#[export] Instance silent_never : NeverReady Silent.
Proof. split; intros t; [done|]. by vm_compute. Qed.
End Silent.
Import Silent.

Definition demo_host : Host := mkHost (mkController 0x280A 8) (mkRootPort High) 0x100000 0x101000 0x102000.
Definition keyboard_target : Target := mkTarget 5 8 Low (Some (mkTranslator 2 1)).

(** Firmware that switches on what it is asked to. *)
Definition switched_on (message : list Z) : list Z :=
  <[1%nat := RESPONSE_OK]> (<[4%nat := Z.lor TAG_RESPONSE 8]> (<[6%nat := POWER_ON]> message)).

Lemma usb_calls_end_witness :
  takes (control (HW := Silent) 1 demo_host keyboard_target (set_address 5) []) (cost (HW := Silent) 24015117 2888 0) ∧
  takes (interrupt_in (HW := Silent) demo_host (Keyboard.mkInterruptIn keyboard_target 1 8) Data0 8) (cost (HW := Silent) 10533063 1557 0) ∧
  takes (start_on (HW := Silent) (exchange 1 0 switched_on) 0 0 0) (4 * latency (HW := Silent) + cost (HW := Silent) 1330006 140 5).
Proof.
  destruct (usb_calls_end (HW := Silent) demo_host) as (Hs & Hi & _ & _ & Hc). split_and!; [by apply Hc|apply Hi|].
  apply Hs; [intros m; apply takes_prompt; constructor; intros h; vm_compute; reflexivity|vm_compute; discriminate].
Defined.

Lemma never_ready_never_ends_witness :
  direct_transfer (HW := Silent) 1000 demo_host (mkTarget 1 64 High None) In Data1 18 (str "data") 0 = Panic.
Proof. apply never_ready_never_ends. discriminate. Defined.
End UsbTime.
