(* ===== verification/UsbDma.v ===== *)
(** The USB host driver and memory.  The controller moves data by itself: it writes where the channel was
    pointed, at any moment until the transfer is over, which may be after the driver gave up on it.  Yet nothing
    outside the driver's buffers is ever written, whatever the controller, the devices and the driver's caller
    do; and a control transfer keeps what enumeration relies on ([UsbTree.LawfulBus]). *)
From S2P Require Import Prelude Bytes Text Effect Mmio Firmware Usb UsbTree Keyboard UsbHost.
From stdpp Require Import strings.
Open Scope Z_scope.

Module UsbDma.
Import Effect Text Mmio Mailbox Exchange Usb UsbTree UsbHost.

(** A load gives as many bytes as asked for. *)
Class Loads (HW : Type) `{Machine HW} := load_bytes a n h : length (load a n h) = n ∧ is_bytes (load a n h).

(** ** Control transfers
    What they need of the channel, whatever is kept ([I]): it moves no more than it was told to. *)
Section transfers.
Context {HW : Type} `{Mmio HW} `{Machine HW} `{!Loads HW} (host : Host).
Local Notation M := (Eff HW UsbError).
Context (I : HW → Prop) (fits : Transaction → Prop) (good : Target → Prop).
Hypothesis read_keeps : ∀ r, keeps I (rd r : M Z).
Hypothesis sleep_keeps : ∀ us, keeps I (sleep_us us : M unit).
Hypothesis store_keeps : ∀ bytes, Z.of_nat (length bytes) <= BUFFER_LEN → keeps I (store_at (buffer host) bytes : M unit).
Hypothesis run_keeps : ∀ t h, fits t → I h →
  post (run_channel host t : M _) h (λ h' r, I h' ∧ Z.min 0 (x_length t) <= r.2 <= x_length t) (λ h' _, I h').
Hypothesis fits_split : ∀ split t, fits t → fits (with_split split t).
Hypothesis good_fits : ∀ target d pid offset left size packets, good target → 0 <= offset → 0 <= left → offset + left <= BUFFER_LEN →
  size = left ∨ size = Z.min left (max_packet target) → fits (control_transaction target d pid offset size packets).

Lemma timer_keeps r h : r = TIMER_CHI ∨ r = TIMER_CLO → I h → I (Mmio.read r h).1.
Proof. intros _. apply read_keeps. Qed.

Lemma keeps_now_ : keeps I (now_us : M Z).
Proof. apply keeps_now, timer_keeps. Qed.

Lemma keeps_delay_ us : keeps I (delay_us us : M unit).
Proof. apply keeps_delay, timer_keeps. Qed.

(** [m] keeps [I] and gives a number of bytes from 0 to [n]. *)
Definition moves (m : M Z) (n : Z) : Prop := ∀ h, I h → post m h (λ h' k, I h' ∧ 0 <= k <= Z.max 0 n) (λ h' _, I h').

Lemma direct_moves patience target d pid length stage : 0 <= length <= BUFFER_LEN → good target →
  moves (direct_transfer patience host target d pid length stage) length.
Proof.
  intros Hl Hg h Hh. unfold direct_transfer. destruct (_ =? _); [done|]. cbv zeta. set (n := Z.max _ _).
  apply (post_loop _ _ I); [|done]. clear h Hh. intros h Hh.
  eapply post_call; [apply run_keeps; [|done]| |done]; [apply (good_fits _ _ _ 0 length length); (done || lia || by left)|]. cbn beta.
  intros h1 [i rem] [H1' Hr]. cbn [snd x_length control_transaction] in Hr. destruct (any i INT_STALL); [by apply post_fail|].
  destruct (_ && _); [|destruct (_ || _); [by apply post_fail|apply post_ret; split; [done|lia]]].
  eapply post_call; [by apply sleep_keeps| |done]. cbn beta. intros h2 ? H2. by apply post_ret.
Qed.

(** One packet of a split stage. *)
Definition tries (m : M (Z + Z)) (n : Z) : Prop :=
  ∀ h, I h → post m h (λ h' r, I h' ∧ match r with inr k => 0 <= k <= Z.max 0 n | inl _ => True end) (λ h' _, I h').

Lemma keeps_count errors i stage : keeps I (count_error errors i stage : M Z).
Proof. unfold count_error. destruct (_ <? _); [apply keeps_fail|apply keeps_ret]. Qed.

Lemma later_tries us errors n : tries (_ ← delay_us us; mret (inl errors)) n.
Proof. intros h Hh. eapply post_call; [by apply keeps_delay_| |done]. cbn beta. intros h1 ? H1'. by apply post_ret. Qed.

Lemma complete_tries n t stage errors : fits t → tries (complete_splits n host t stage errors) (x_length t).
Proof.
  intros Hin. revert errors. induction n as [|n IH]; intros errors h Hh; cbn [complete_splits];
    (eapply post_call; [by apply run_keeps| |done]; cbn beta; intros h1 [i rem] [H1' Hr]; cbn [snd] in Hr);
    (destruct (any i INT_STALL); [by apply post_fail|]);
    (destruct (any i INT_XFER_COMPLETE); [apply post_ret; split; [done|lia]|]);
    (destruct (any i INT_NAK); [by apply later_tries|]);
    (destruct (any i INT_ERRORS); [eapply post_call; [by apply keeps_count| |done]; cbn beta; intros h2 ? H2; by apply post_ret|]).
  - by apply post_ret.
  - eapply post_call; [by apply keeps_delay_| |done]. cbn beta. intros h2 ? H2. by apply IH.
Qed.

Lemma split_try_spec tr t stage errors : fits t → tries (split_try host tr t stage errors) (x_length t).
Proof.
  intros Hin h Hh. unfold split_try. eapply post_call; [apply run_keeps; [by apply fits_split|done]| |done]. cbn beta. intros h1 [i rem] [H1' Hr]. cbn [fst snd] in *.
  destruct (any i INT_STALL); [by apply post_fail|]. destruct (negb _);
    [|apply (complete_tries _ (with_split (Z.lor (split_bits tr) CHAN_SPLIT_COMPLETE) t)); [by apply fits_split|done]].
  eapply (post_call _ _ _ (λ h' _, I h') (λ h' _, I h')); [|by intros; apply later_tries|done].
  destruct (any i INT_ERRORS); [by apply keeps_count|by apply post_ret].
Qed.

Lemma packet_moves tr t stage started : fits t → moves (split_packet host tr t stage started) (x_length t).
Proof.
  intros Hin h Hh. unfold split_packet. apply (post_loop_with _ _ (λ _, I)); [|done]. clear h Hh. intros errors h Hh.
  eapply post_call; [by apply keeps_now_| |done]. cbn beta. intros h1 now H1'. destruct (_ <? _); [by apply post_fail|].
  eapply post_mono; [by apply split_try_spec| |done]. cbn beta. intros h2 [e|k] [H2 Hk]; done.
Qed.

Lemma split_moves target tr d pid length stage : 0 <= length <= BUFFER_LEN → good target →
  moves (split_transfer host target tr d pid length stage) length.
Proof.
  intros Hl Hm h Hh. unfold split_transfer. eapply post_call; [by apply keeps_now_| |done]. cbn beta. intros h1 started H1'.
  apply (post_loop_with _ _ (λ v h, I h ∧ 0 <= v.1 <= length)); [|split; [done|cbn; lia]]. intros [done_ pid'] h2 [H2 Hd]. cbn [fst] in Hd. cbv zeta.
  eapply post_call; [apply packet_moves; [|done]| |done]; [apply (good_fits _ _ _ done_ (length - done_)); (done || lia || by right)|]. cbn beta. intros h3 moved [H3 Hmv]. cbn [x_length control_transaction] in Hmv.
  apply post_ret. destruct (_ || _); (split; [done|cbn [fst]; lia]).
Qed.

Lemma transfer_moves patience target d pid length stage : 0 <= length <= BUFFER_LEN → good target →
  moves (transfer patience host target d pid length stage) length.
Proof. intros Hl Hm. unfold transfer. destruct (tg_translator target); [by apply split_moves|by apply direct_moves]. Qed.

(** A control transfer gives back a buffer of the same length, of bytes, and no more came than it holds. *)
Lemma control_spec_ patience target setup data h : good target → I h →
  post (control patience host target setup data : M _) h
    (λ h' r, I h' ∧ length r.1 = length data ∧ (is_bytes data → is_bytes r.1) ∧ 0 <= r.2 <= Z.of_nat (length data)) (λ h' _, I h').
Proof.
  intros Hm Hh. unfold control. cbv zeta. destruct (Z.ltb_spec BUFFER_LEN (length_ setup)) as [|Hb]; [by apply post_fail|].
  destruct (Z.ltb_spec (Z.of_nat (length data)) (length_ setup)) as [|Hd0]; [by apply post_fail|]. cbn [orb].
  eapply post_call; [by apply store_keeps| |done]. cbn beta. intros h1 ? H1'.
  eapply post_call; [by apply transfer_moves| |done]. cbn beta. intros h2 ? [H2 _].
  eapply (post_call _ _ _ (λ h' r, I h' ∧ length r.1 = length data ∧ (is_bytes data → is_bytes r.1) ∧ 0 <= r.2 <= Z.max 0 (length_ setup)) (λ h' _, I h')).
  - destruct (Z.ltb_spec 0 (length_ setup)) as [Hpos|Hpos]; [|apply post_ret; cbn [fst snd]; split_and!; [done|done|done|lia..]].
    eapply (post_call _ _ _ (λ h' _, I h') (λ h' _, I h')).
    + destruct (decide _); [|by apply post_ret]. apply store_keeps; [|done]. rewrite length_take. cbn [buffer_len]. lia.
    + intros h3 ? H3. eapply post_call; [apply transfer_moves; [lia|done|done]| |done]. cbn beta. intros h4 received [H4 Hr].
      destruct (decide _); [|apply post_ret; cbn [fst snd]; split_and!; [done|done|done|lia..]].
      unfold post, mbind, Eff_bind, load_from, mret, Eff_ret. cbn [fst snd].
      destruct (load_bytes (buffer host) (Z.to_nat received) h4) as [Hlen Hby]. split_and!; [done| | |lia..].
      * rewrite length_app, Hlen, length_drop. lia.
      * intros Hd. unfold is_bytes. apply Forall_app. split; [exact Hby|by apply Forall_drop].
    + done.
  - intros h3 [data' received] (H3 & Hlen & Hby & Hr). cbn [fst snd] in *.
    eapply post_call; [by apply transfer_moves| |done]. cbn beta. intros h4 ? [H4 _]. apply post_ret. cbn [fst snd].
    split_and!; [done..|destruct (decide _); lia|destruct (decide _); lia].
  - done.
Qed.
End transfers.

(** ** The driver is a bus
    [None]: the kernel panicked, or the transfer never ended. *)
Section lawful.
Context {HW : Type} `{Mmio HW} `{Machine HW} `{!Loads HW} (patience : positive) (host : Host).

#[local] Instance driver_bus : Bus (option HW) UsbError := {
  bus_control t s data b :=
    match b with
    | None => (None, Err TooLong)
    | Some h =>
      match control patience host t s data h with
      | Ret h (data, received) => (Some h, Ok (data, Z.to_nat received))
      | Fail h e => (Some h, Err e)
      | Panic => (None, Err TooLong)
      end
    end;
  delay_ms ms b := sleep (ms * 1000) <$> b }.

Lemma run_sized t h : post (run_channel host t : Eff HW UsbError _) h (λ _ r, True ∧ Z.min 0 (x_length t) <= r.2 <= x_length t) (λ _ _, True).
Proof.
  unfold run_channel. cbv zeta. do 8 (eapply post_call; [apply post_any| |done]; intros ? ? _).
  eapply post_call; [apply post_any| |done]. intros h9 [[]|e] _; [|eapply post_call; [apply post_any| |done]; intros; by apply post_fail].
  do 2 (eapply post_call; [apply post_any| |done]; intros ? ? _). eapply post_call; [apply post_any| |done]. intros h12 v _.
  apply post_ret. split; [done|]. cbn [snd]. assert (0 <= Z.land v 0x7FFFF) by (apply Z.land_nonneg; right; done). lia.
Qed.

Lemma lawful_control t s data h : post (control patience host t s data : Eff HW UsbError _) h
  (λ _ r, True ∧ length r.1 = length data ∧ (is_bytes data → is_bytes r.1) ∧ 0 <= r.2 <= Z.of_nat (length data)) (λ _ _, True).
Proof.
  apply (control_spec_ host (λ _, True) (λ _, True) (λ _, True)); try done; intros; try apply post_any. apply run_sized.
Qed.

#[local] Instance driver_lawful : LawfulBus (option HW) UsbError.
Proof.
  split. intros t s data b b' data' read. cbn [bus_control driver_bus]. destruct b as [h|]; [|done].
  pose proof (lawful_control t s data h) as Hc. unfold post in Hc.
  destruct (control _ _ _ _ _ h) as [h' [d r]|h' e|]; [|done..]. destruct Hc as (_ & Hl & Hb & Hr). cbn [fst snd] in *.
  intros [= <- <- <-]. split_and!; [done|done|lia].
Qed.

(** C22: The driver is the bus that enumeration expects.  A control transfer over any hardware gives back a buffer
    of the length it was given, still of bytes, and counts no more bytes than it holds; so every tree that
    enumeration and polling reach over the driver, whatever the hardware answers, has each device at an address
    of its own, marked as taken, ports and translators that match, and no more than the allowed depth. *)
Theorem driver_serves_enumeration :
  (∀ t s data h, match control patience host t s data h with
     | Ret _ (data', received) => length data' = length data ∧ (is_bytes data → is_bytes data') ∧ 0 <= received <= Z.of_nat (length data)
     | _ => True end) ∧
  ∀ t, reached (Bus0 := driver_bus) t → tree_ok t.
Proof.
  split; [|intros t Ht; by apply reached_ok in Ht]. intros t s data h. pose proof (lawful_control t s data h) as Hc.
  unfold post in Hc. destruct (control _ _ _ _ _ h) as [h' [d r]|h' e|]; [|done..]. by destruct Hc as (_ & ? & ? & ?).
Qed.
End lawful.

(** A range of bus addresses. *)
Definition within (r : option (Z * Z)) (x : Z) : Prop := match r with Some (start, len) => start <= x < start + len | None => False end.

(** [memory]: bytes by bus address. [target_]: where the channel's transfer under way may still write. [dma] and
    [xsize]: what was last written to the channel's address and size registers. *)
Record View := mkView { memory : Z → Z; target_ : option (Z * Z); dma : Z; xsize : Z }.

(** The transfer goes on, or ends. *)
Definition goes_on (v v' : View) : Prop :=
  (∀ x, within (target_ v') x → within (target_ v) x) ∧ (∀ x, ¬ within (target_ v) x → memory v' x = memory v x) ∧
  dma v' = dma v ∧ xsize v' = xsize v.

(** Writing the channel's registers. Enabling it, without the bit that stops it, starts a transfer of the number
    of bytes in the size register. *)
Definition programmed (r value : Z) (v v' : View) : Prop :=
  if r =? channel CONTROL_CHANNEL CHAN_DMA then v' = mkView (memory v) (target_ v) value (xsize v)
  else if r =? channel CONTROL_CHANNEL CHAN_XFER_SIZE then v' = mkView (memory v) (target_ v) (dma v) value
  else if (r =? channel CONTROL_CHANNEL CHAN_CHARACTER) && any value CHAR_ENABLE && negb (any value CHAR_DISABLE)
  then v' = mkView (memory v) (Some (dma v, Z.land (xsize v) 0x7FFFF)) (dma v) (xsize v)
  else v' = v.

(** What the controller does to memory, as its documentation has it: it writes where the transfer under way goes,
    between any two steps, and nowhere else. *)
Class DmaController (HW : Type) `{Mmio HW} `{Machine HW} := {
  view : HW → View;
  read_dma r h : goes_on (view h) (view (Mmio.read r h).1);
  write_dma r value h : ∃ v, goes_on (view h) v ∧ programmed r value v (view (Mmio.write r value h));
  sleep_dma us h : goes_on (view h) (view (sleep us h));
  clean_dma a n h : goes_on (view h) (view (clean a n h));
  store_dma a bytes h : ∃ v, goes_on (view h) v ∧ target_ (view (store a bytes h)) = target_ v ∧
    ∀ x, ¬ (from_arm a <= x < from_arm a + Z.of_nat (length bytes)) → memory (view (store a bytes h)) x = memory v x }.

Section safety.
Context {HW : Type} `{DmaController HW} `{!Loads HW} (host : Host).
Local Notation M := (Eff HW UsbError).

Definition bus (b : Buffer) : Z := from_arm (buffer_address host b).
Definition in_buffers (x : Z) : Prop := ∃ b, bus b <= x < bus b + buffer_len b.

(** The buffers are in memory, whole. *)
Hypothesis in_memory : ∀ b, 0 <= bus b ∧ bus b + buffer_len b <= 2 ^ 32.

Context (m0 : Z → Z).

(** Memory outside the buffers is as it was, and no transfer goes there. *)
Definition guarded (v : View) : Prop := (∀ x, ¬ in_buffers x → memory v x = m0 x) ∧ ∀ x, within (target_ v) x → in_buffers x.
Definition P (h : HW) : Prop := guarded (view h).

Lemma goes_on_guarded v v' : goes_on v v' → guarded v → guarded v'.
Proof.
  intros (Ht & Hm & _) [Hg Hw]. split; [|auto]. intros x Hx. rewrite Hm; [by apply Hg|]. intros Hin. by apply Hx, Hw.
Qed.

Lemma P_read r h : P h → P (Mmio.read r h).1.
Proof. apply goes_on_guarded, read_dma. Qed.

(** Writes that do not start a transfer. *)
Definition harmless (r value : Z) : Prop := r ≠ channel CONTROL_CHANNEL CHAN_CHARACTER ∨ any value CHAR_DISABLE = true.

Lemma P_write r value h : harmless r value → P h → P (Mmio.write r value h).
Proof.
  intros Hr Hh. destruct (write_dma r value h) as (v & Hv & Hp). pose proof (goes_on_guarded _ _ Hv Hh) as Hg.
  unfold P, programmed in *. destruct (_ =? _); [by rewrite Hp|]. destruct (_ =? _); [by rewrite Hp|].
  destruct (Z.eqb_spec r (channel CONTROL_CHANNEL CHAN_CHARACTER)); [|cbn [andb] in Hp; by rewrite Hp].
  destruct Hr as [|Hr]; [done|]. rewrite Hr, andb_false_r in Hp. by rewrite Hp.
Qed.

Lemma keeps_read r : keeps P (rd r : M Z).
Proof. apply keeps_rd, P_read. Qed.

Lemma keeps_write r value : harmless r value → keeps P (wr r value : M unit).
Proof. intros Hr. apply keeps_wr. intros h. by apply P_write. Qed.

Lemma keeps_sleep us : keeps P (sleep_us us : M unit).
Proof. intros h Hh. exact (goes_on_guarded _ _ (sleep_dma us h) Hh). Qed.

Lemma keeps_clean a n : keeps P (clean_and_invalidate a n : M unit).
Proof. intros h Hh. exact (goes_on_guarded _ _ (clean_dma a n h) Hh). Qed.

Lemma keeps_store b bytes : Z.of_nat (length bytes) <= buffer_len b → keeps P (store_at (buffer_address host b) bytes : M unit).
Proof.
  intros Hl h Hh. unfold post, store_at, modify. destruct (store_dma (buffer_address host b) bytes h) as (v & Hv & Ht & Hm).
  destruct (goes_on_guarded _ _ Hv Hh) as [Hg Hw]. split; [|intros x; rewrite Ht; apply Hw].
  intros x Hx. rewrite Hm; [by apply Hg|]. intros Hin. apply Hx. exists b. unfold bus. lia.
Qed.

Lemma keeps_load a n : keeps P (load_from a n : M _).
Proof. by intros h Hh. Qed.

Lemma keeps_reads r p : keeps P (reads r p : M bool).
Proof. apply keeps_bind; [apply keeps_read|intros; apply keeps_ret]. Qed.

Lemma timer_reads r h : r = TIMER_CHI ∨ r = TIMER_CLO → P h → P (Mmio.read r h).1.
Proof. intros _. apply P_read. Qed.

Lemma keeps_usb_wait what t (done : M bool) : keeps P done → keeps P (wait_for what t done).
Proof.
  intros Hd. apply keeps_polling; [apply timer_reads| |apply keeps_ret]. apply keeps_bind; [done|intros; apply keeps_ret].
Qed.

Lemma keeps_usb_change r f : (∀ v, harmless r (f v)) → keeps P (change r f : M unit).
Proof. intros Hf. apply keeps_bind; [apply keeps_read|intros v]. by apply keeps_write. Qed.

Lemma keeps_halt n : keeps P (halt_channel n : M unit).
Proof.
  apply keeps_bind; [apply keeps_read|intros c]. destruct (any c CHAR_ENABLE); [|apply keeps_ret].
  apply keeps_bind; [apply keeps_usb_change|intros ?].
  - intros v. right. unfold any. apply negb_true_iff, Z.eqb_neq. intros Hz. apply (f_equal (λ z, Z.testbit z 30)) in Hz.
    by rewrite Z.land_spec, !Z.lor_spec, orb_true_r in Hz.
  - apply keeps_bind; [by apply keeps_catch, keeps_usb_wait, keeps_reads|intros; apply keeps_ret].
Qed.

(** Transactions whose data is inside their buffer. *)
Definition inside (t : Transaction) : Prop := 0 <= x_offset t ∧ 0 <= x_length t ∧ x_offset t + x_length t <= buffer_len (x_buffer t).

Lemma size_field t : 0 <= x_length t < 2 ^ 19 → Z.land (xfer_size t) 0x7FFFF = x_length t.
Proof.
  intros Hl. change 0x7FFFF with (Z.ones 19). apply Z.bits_inj'. intros i Hi. rewrite Z.land_spec.
  destruct (Z.lt_ge_cases i 19) as [Hlt|Hge].
  - rewrite Z.ones_spec_low, andb_true_r by lia. unfold xfer_size, wrap. rewrite !Z.lor_spec, !Z.mod_pow2_bits_low by lia.
    rewrite !Z.shiftl_spec_low, !orb_false_r by lia. done.
  - rewrite Z.ones_spec_high, andb_false_r by lia. symmetry. apply (testbit_high 19); [exact Hl|lia].
Qed.

Lemma buffer_len_small b : 0 < buffer_len b <= 4096.
Proof. destruct b; cbn; unfold BUFFER_LEN, BULK_IN_LEN, BULK_OUT_LEN; lia. Qed.

(** Running the channel starts a transfer into the transaction's buffer. *)
Definition set_up (t : Transaction) (h : HW) : Prop := P h ∧ xsize (view h) = xfer_size t.
Definition pointed (t : Transaction) (h : HW) : Prop := set_up t h ∧ dma (view h) = dma_address host t.

Lemma starts_inside t value h : inside t → pointed t h → P (Mmio.write (channel CONTROL_CHANNEL CHAN_CHARACTER) value h).
Proof.
  intros (Ho & Hl & Hb) [[Hh Hs] Hd]. pose proof (buffer_len_small (x_buffer t)) as Hsmall. destruct (in_memory (x_buffer t)) as [Hb0 Hb1].
  destruct (any value CHAR_DISABLE) eqn:Edis; [by apply P_write; [right|]|].
  destruct (write_dma (channel CONTROL_CHANNEL CHAN_CHARACTER) value h) as (v & Hv & Hp).
  pose proof (goes_on_guarded _ _ Hv Hh) as [Hg Hw]. destruct Hv as (_ & _ & Hdma & Hsize). unfold P, programmed in *.
  change (channel CONTROL_CHANNEL CHAN_CHARACTER =? channel CONTROL_CHANNEL CHAN_DMA) with false in Hp.
  change (channel CONTROL_CHANNEL CHAN_CHARACTER =? channel CONTROL_CHANNEL CHAN_XFER_SIZE) with false in Hp.
  rewrite Z.eqb_refl, Edis, andb_true_r in Hp. cbn [andb] in Hp. destruct (any value CHAR_ENABLE); rewrite Hp; [|done].
  split; [done|]. cbn [target_ within memory]. rewrite Hdma, Hd, Hsize, Hs, size_field by lia. intros x Hx.
  exists (x_buffer t). unfold dma_address, bus in *. rewrite (wrap_small 32 (x_offset t)) in Hx by (unfold uint; lia).
  rewrite wrap_small in Hx by (unfold uint; lia). lia.
Qed.

Lemma run_spec t h : inside t → P h →
  post (run_channel host t : M (Z * Z)) h (λ h' r, P h' ∧ 0 <= r.2 <= x_length t) (λ h' _, P h').
Proof.
  intros Hin Hh. unfold run_channel. cbv zeta.
  eapply post_call; [by apply keeps_halt| |done]. intros h1 ? H1'. cbn beta.
  eapply post_call; [by apply keeps_clean| |done]. intros h2 ? H2. cbn beta in *.
  eapply post_call; [apply keeps_write; [by left|eassumption]| |done]. intros h3 ? H13. cbn beta in *.
  eapply post_call; [apply keeps_write; [by left|eassumption]| |done]. intros h4 ? H14. cbn beta in *.
  eapply post_call; [apply keeps_write; [by left|eassumption]| |done]. intros h5 ? H15. cbn beta in *.
  eapply (post_call _ _ _ (λ h' _, set_up t h') (λ h' _, P h')); [| |done].
  { destruct (write_dma (channel CONTROL_CHANNEL CHAN_XFER_SIZE) (xfer_size t) h5) as (v & _ & Hp).
    split; [apply P_write; [by left|done]|]. by rewrite Hp. }
  intros h6 ? [Hh6 Hs]. eapply (post_call _ _ _ (λ h' _, pointed t h') (λ h' _, P h')); [| |done].
  { destruct (write_dma (channel CONTROL_CHANNEL CHAN_DMA) (dma_address host t) h6) as (v & (_ & _ & _ & Hv) & Hp).
    split; [split; [apply P_write; [by left|done]|]|]; rewrite Hp; [by rewrite <-Hs|done]. }
  intros h7 ? Hh7. eapply (post_call _ _ _ (λ h' _, P h') (λ h' _, P h')); [by apply (starts_inside t)| |done]. cbn beta.
  assert (Hc : keeps P (catch (wait_for (str "a transfer") TRANSFER_TIMEOUT_US (reads (channel CONTROL_CHANNEL CHAN_INT)
    (λ i, any i INT_HALTED))) : M _)) by (apply keeps_catch, keeps_usb_wait, keeps_reads).
  intros h8 ? Hh8. eapply post_call; [by apply Hc| |done]. cbn beta. intros h9 [[]|e] Hh9.
  - eapply post_call; [by apply keeps_read| |done]. cbn beta. intros h10 i H10. eapply post_call; [by apply keeps_clean| |done]. cbn beta.
    intros h11 ? H11. eapply post_call; [by apply keeps_read| |done]. cbn beta. intros h12 v H12. apply post_ret. split; [done|].
    cbn [snd]. assert (0 <= Z.land v 0x7FFFF) by (apply Z.land_nonneg; right; done). destruct Hin as (_ & Hl & _). lia.
  - eapply post_call; [by apply keeps_halt| |done]. cbn beta. intros h10 ? H10. by apply post_fail.
Qed.

Lemma inside_control target d pid offset left size packets : 0 <= max_packet target → 0 <= offset → 0 <= left → offset + left <= BUFFER_LEN →
  size = left ∨ size = Z.min left (max_packet target) → inside (control_transaction target d pid offset size packets).
Proof. intros Hm Ho Hl Hb Hs. unfold inside. cbn [x_offset x_length x_buffer control_transaction buffer_len]. lia. Qed.

Lemma keeps_control patience target setup data : 0 <= max_packet target → keeps P (control patience host target setup data : M _).
Proof.
  intros Hm h Hh. eapply post_mono.
  - apply (control_spec_ host P inside (λ t, 0 <= max_packet t)); [apply keeps_read|apply keeps_sleep|apply (keeps_store ControlBuffer)| |done|apply inside_control|done..].
    intros t h' Hin Hh'. eapply post_mono; [by apply run_spec| |done]. cbn beta. intros h1 r [H1' Hr]. split; [done|lia].
  - by intros h' r [? _].
  - done.
Qed.

(** ** Interrupt transfers *)
Definition polls (m : M (option Z)) (n : Z) : Prop :=
  ∀ h, P h → post m h (λ h' r, P h' ∧ match r with Some k => 0 <= k <= n | None => True end) (λ h' _, P h').

Lemma outcome_polls i n : polls (interrupt_outcome i) n.
Proof. intros h Hh. unfold interrupt_outcome. destruct (any i INT_STALL); [by apply post_fail|]. destruct (any i INT_NAK); [by apply post_ret|by apply post_fail]. Qed.

Lemma keeps_frame : keeps P (frame_number : M Z).
Proof. apply keeps_bind; [apply keeps_read|intros; apply keeps_ret]. Qed.

Lemma keeps_microframe f : keeps P (wait_for_microframe f : M unit).
Proof. apply keeps_usb_wait, keeps_bind; [apply keeps_frame|intros; apply keeps_ret]. Qed.

Lemma direct_polls t : inside t → polls (direct_interrupt host t) (x_length t).
Proof.
  intros Hin h Hh. unfold direct_interrupt. eapply post_call; [by apply keeps_frame| |done]. cbn beta. intros h1 now H1'.
  assert (Hw : keeps P (wait_for (str "the next frame") FRAME_WAIT_US (f ← frame_number; mret (negb (f =? now))) : M unit)).
  { apply keeps_usb_wait, keeps_bind; [apply keeps_frame|intros; apply keeps_ret]. }
  eapply post_call; [by apply Hw| |done]. cbn beta. intros h2 ? H2. eapply post_call; [by apply keeps_frame| |done]. cbn beta. intros h3 f H3.
  eapply post_call; [by apply run_spec| |done]. cbn beta. intros h4 [i rem] [H4 Hr]. cbn [snd x_length with_odd_frame] in Hr.
  destruct (any i INT_XFER_COMPLETE); [apply post_ret; split; [done|lia]|by apply outcome_polls].
Qed.

Lemma periodic_polls n t next h : inside t → P h → post (periodic_completes n host t next : M _) h
  (λ h' r, P h' ∧ match r with Some (Some k) => 0 <= k <= x_length t | _ => True end) (λ h' _, P h').
Proof.
  intros Hin. revert next h. induction n as [|n IH]; intros next h Hh; cbn [periodic_completes];
    (eapply post_call; [by apply keeps_microframe| |done]; cbn beta; intros h1 ? H1');
    (eapply post_call; [by apply keeps_frame| |done]; cbn beta; intros h2 f H2);
    (eapply post_call; [by apply run_spec| |done]; cbn beta; intros h3 [i rem] [H3 Hr]; cbn [snd x_length with_odd_frame] in Hr);
    (destruct (any i INT_XFER_COMPLETE); [apply post_ret; split; [done|lia]|]);
    (destruct (any i _); [eapply post_call; [by apply (outcome_polls i (x_length t))| |done]; cbn beta; intros h4 o [H4 Ho]; by apply post_ret|]).
  - by apply post_ret.
  - by apply IH.
Qed.

Lemma split_polls n t tr : inside t → polls (split_interrupt_from n host t tr) (x_length t).
Proof.
  intros Hin. induction n as [|n IH]; intros h Hh; cbn [split_interrupt_from]; [by apply post_fail|].
  eapply post_call; [by apply keeps_frame| |done]. cbn beta. intros h1 f H1'. cbv zeta.
  eapply post_call; [by apply keeps_microframe| |done]. cbn beta. intros h2 ? H2. eapply post_call; [by apply keeps_frame| |done]. cbn beta.
  intros h3 f' H3. eapply post_call; [by apply run_spec| |done]. cbn beta. intros h4 r [H4 _]. destruct (negb _); [by apply outcome_polls|].
  eapply post_call; [by apply (periodic_polls _ (with_split (Z.lor (split_bits tr) CHAN_SPLIT_COMPLETE) t))| |done]. cbn beta.
  intros h5 [o|] [H5 Ho]; [by apply post_ret|]. eapply post_call; [apply keeps_delay_; [apply keeps_read|done]| |done]. cbn beta. intros h6 ? H6. by apply IH.
Qed.

Lemma interrupt_spec e toggle len h : 0 <= Keyboard.in_max_packet e → 0 <= len → P h →
  post (interrupt_in host e toggle len : M _) h
    (λ h' r, P h' ∧ match r.1 with Some bytes => is_bytes bytes ∧ Z.of_nat (length bytes) <= len | None => True end) (λ h' _, P h').
Proof.
  intros Hm Hl Hh. unfold interrupt_in. cbv zeta. set (t := mkTransaction _ _ _ _ _ _ _ _ _ _ _ _).
  assert (Hin : inside t) by (unfold inside, t; cbn [x_offset x_length x_buffer buffer_len]; unfold BUFFER_LEN; lia).
  eapply (post_call _ _ _ (λ h' r, P h' ∧ match r with Some k => 0 <= k <= x_length t | None => True end) (λ h' _, P h')); [| |done].
  - destruct (tg_translator _) as [tr|]; [by apply split_polls|by apply direct_polls].
  - intros h1 [k|] [H1' Hk]; [|by apply post_ret]. unfold post, mbind, Eff_bind, load_from, mret, Eff_ret. cbn [fst].
    destruct (load_bytes (buffer host) (Z.to_nat k) h1) as [Hlen Hby]. split_and!; [done|done|]. rewrite Hlen. unfold t in Hk. cbn [x_length] in Hk. lia.
Qed.

(** ** Bulk transfers *)
Lemma bulk_spec e d toggle length h : 0 <= length <= buffer_len (if decide (d = In) then BulkIn else BulkOut) → P h →
  post (bulk host e d toggle length : M _) h
    (λ h' r, P h' ∧ match r.2 with Ok k => 0 <= k <= length | Err _ => True end) (λ _ _, False).
Proof.
  intros Hl Hh. unfold bulk. cbv zeta. eapply post_call; [apply post_now; [apply timer_reads|done]| |done]. intros h1 started H1'.
  apply (post_loop_with _ _ (λ v h, P h ∧ 0 <= v.1 <= length)); [|split; [done|cbn; lia]]. intros [done_ pid] h2 [H2 Hd]. cbn [fst] in Hd.
  eapply (post_call _ _ _ (λ h' r, P h' ∧ match r with Ok (_, rem) => 0 <= rem <= length - done_ | Err _ => True end) (λ _ _, False)); [| |done].
  - apply post_catch. eapply post_mono; [apply run_spec; [|done]|..]; cbn beta; [unfold inside; cbn [x_offset x_length x_buffer]; lia| |done]. by intros h3 [i rem] [H3 Hr].
  - intros h3 [[i rem]|er] [H3 Hr]; [|by apply post_ret].
    eapply (post_call _ _ _ (λ h' _, P h') (λ _ _, False)); [| |done].
    { unfold channel_pid, post, mbind, Eff_bind, rd. by apply P_read. }
    intros h4 pid' H4. destruct (any i INT_STALL); [by apply post_ret|].
    destruct (any i INT_XFER_COMPLETE); [apply post_ret; split; [done|cbn [snd]; lia]|]. destruct (_ || _); [by apply post_ret|].
    eapply post_call; [apply post_now; [apply timer_reads|done]| |done]. intros h5 now H5. cbn beta in *. destruct (_ <? _); [by apply post_ret|].
    unfold post, mbind, Eff_bind, sleep_us, modify, mret, Eff_ret. split; [|cbn [fst]; lia]. exact (goes_on_guarded _ _ (sleep_dma 1000 h5) H5).
Qed.

Lemma keeps_bulk_in e toggle : keeps P (bulk_in host e toggle : M _).
Proof.
  intros h Hh. unfold bulk_in. eapply post_call; [apply bulk_spec; [by cbn|done]| |done]. cbn beta.
  intros h1 [t [k|er]] [H1' _]; [|by apply post_ret]. exact H1'.
Qed.

Lemma keeps_bulk_out e toggle data : keeps P (bulk_out host e toggle data : M _).
Proof.
  intros h Hh. unfold bulk_out. destruct (Z.ltb_spec BULK_OUT_LEN (Z.of_nat (length data))) as [|Hd]; [by apply post_ret|].
  eapply post_call; [by apply (keeps_store BulkOut)| |done]. cbn beta. intros h1 ? H1'.
  eapply post_call; [apply bulk_spec; [change (buffer_len _) with BULK_OUT_LEN; lia|done]| |done]. cbn beta. intros h2 r [H2 _]. by apply post_ret.
Qed.

(** ** Starting *)
Ltac keep :=
  repeat match goal with
  | |- keeps _ (mbind _ _) => apply keeps_bind; [|intros ?]
  | |- keeps _ (if ?b then _ else _) => destruct b
  | |- keeps _ (wait_for _ _ (reads _ _)) => apply keeps_usb_wait, keeps_reads
  | |- keeps _ (change _ _) => apply keeps_usb_change; by left
  | |- keeps _ (rd _) => apply keeps_read
  | |- keeps _ (wr _ _) => apply keeps_write; by left
  | |- keeps _ (sleep_us _) => apply keeps_sleep
  | |- keeps _ (mret _) => apply keeps_ret
  | |- keeps _ (fail _) => apply keeps_fail
  | |- keeps _ (unwrap _) => apply keeps_unwrap
  | |- keeps _ (catch _) => apply keeps_catch
  | |- keeps _ (match ?r with Ok _ => _ | Err _ => _ end) => destruct r
  end; cbv zeta.

Lemma keeps_start mailbox b bi bo : keeps P (start mailbox b bi bo : M Host).
Proof.
  unfold start, start_on, init_core, init_host, enable_root_port.
  apply keeps_bind; [apply keeps_query_on; intros; apply keeps_ret|intros answer]. keep; keep.
Qed.
End safety.

(** C8: The controller never writes outside the driver's buffers.  It moves data by itself, at any time after it
    is pointed somewhere, also when the driver has long given up on a transfer; but whatever the devices answer,
    whatever lengths and packet sizes they claim, and whatever the driver is asked for, all it is ever pointed at is the
    buffer of the transfer, and memory outside the three buffers stays as it was. *)
Theorem dma_stays_in_the_buffers {HW : Type} `{DmaController HW} `{!Loads HW} host m0 :
  (∀ b, 0 <= bus host b ∧ bus host b + buffer_len b <= 2 ^ 32) →
  (∀ patience target setup data, 0 <= max_packet target →
     keeps (P host m0) (control patience host target setup data : Eff HW UsbError _)) ∧
  (∀ e toggle len, 0 <= Keyboard.in_max_packet e → 0 <= len → keeps (P host m0) (interrupt_in host e toggle len : Eff HW UsbError _)) ∧
  (∀ e toggle, keeps (P host m0) (bulk_in host e toggle : Eff HW UsbError _)) ∧
  (∀ e toggle data, keeps (P host m0) (bulk_out host e toggle data : Eff HW UsbError _)) ∧
  ∀ mailbox b bi bo, keeps (P host m0) (start mailbox b bi bo : Eff HW UsbError Host).
Proof.
  intros Hb. split_and!; [| |by apply keeps_bulk_in|by apply keeps_bulk_out|by apply keeps_start].
  - by apply keeps_control.
  - intros e toggle len Hm Hl h Hh. eapply post_mono; [by apply interrupt_spec|by intros h' r [? _]|done].
Qed.

(** * A controller that fills what it is pointed at
    The bytes of the transfer under way become the answer to the last request, and 0xEE after it, whenever
    anything is accessed and until the next transfer is started, whichever way the transfer goes; an access takes
    a millisecond, and every transfer completes in full. *)
Module Filler.

(** [seen]: controller and memory. [clock]: microseconds. [request]: what was stored last. *)
Record Filler := mkFiller { seen : View; clock : Z; request : list Z }.

(** The device and its one configuration, for requests for their descriptors. *)
Definition reply (request : list Z) : list Z :=
  match request with
  | [_; _; _; kind; _; _; _; _] =>
    if kind =? DescriptorType.DEVICE then Script.device_bytes 0 else if kind =? DescriptorType.CONFIGURATION then Script.config else []
  | _ => []
  end.

Definition inside_ (r : option (Z * Z)) (x : Z) : bool :=
  match r with Some (start, len) => (start <=? x) && (x <? start + len) | None => false end.
Definition filled_with (bytes : list Z) (r : option (Z * Z)) (x : Z) : Z :=
  match r with Some (start, _) => default 0xEE (bytes !! Z.to_nat (x - start)) | None => 0 end.
Definition fill (bytes : list Z) (v : View) : View :=
  mkView (λ x, if inside_ (target_ v) x then filled_with bytes (target_ v) x else memory v x) (target_ v) (dma v) (xsize v).
Definition go (us : Z) (h : Filler) : Filler := mkFiller (fill (reply (request h)) (seen h)) (clock h + us) (request h).
Definition written (a : Z) (bytes : list Z) (m : Z → Z) : Z → Z :=
  λ x, if (a <=? x) && (x <? a + Z.of_nat (length bytes)) then default 0 (bytes !! Z.to_nat (x - a)) else m x.
Definition program (r value : Z) (v : View) : View :=
  if r =? channel CONTROL_CHANNEL CHAN_DMA then mkView (memory v) (target_ v) value (xsize v)
  else if r =? channel CONTROL_CHANNEL CHAN_XFER_SIZE then mkView (memory v) (target_ v) (dma v) value
  else if (r =? channel CONTROL_CHANNEL CHAN_CHARACTER) && any value CHAR_ENABLE && negb (any value CHAR_DISABLE)
  then mkView (memory v) (Some (dma v, Z.land (xsize v) 0x7FFFF)) (dma v) (xsize v)
  else v.
Definition answer (r t : Z) : Z :=
  if r =? TIMER_CLO then wrap 32 t else if r =? TIMER_CHI then wrap 32 (t / 2 ^ 32)
  else if r =? channel CONTROL_CHANNEL CHAN_INT then Z.lor INT_HALTED INT_XFER_COMPLETE else 0.

#[export] Instance filler_mmio : Mmio Filler := {
  read r h := (go 1000 h, answer r (clock h));
  write r value h := mkFiller (program r value (seen (go 1000 h))) (clock h + 1000) (request h);
  pace := 1 }.
#[export] Instance filler_machine : Machine Filler := {
  store a bytes h := mkFiller (mkView (written (from_arm a) bytes (memory (seen h))) (target_ (seen h)) (dma (seen h)) (xsize (seen h))) (clock h) bytes;
  load a n h := (λ i, wrap 8 (memory (seen h) (from_arm a + Z.of_nat i))) <$> seq 0 n;
  clean _ _ h := h;
  sleep := go }.

#[export] Instance filler_loads : Loads Filler.
Proof.
  intros a n h. cbn [load filler_machine]. rewrite length_fmap, length_seq. split; [done|]. apply Forall_fmap, Forall_true.
  intros i. unfold uint, wrap. apply Z.mod_pos_bound. lia.
Qed.

Lemma fill_goes_on bytes v : goes_on v (fill bytes v).
Proof.
  split_and!; [done| |done|done]. intros x Hx. cbn [memory fill]. destruct (inside_ (target_ v) x) eqn:E; [|done]. destruct Hx.
  unfold inside_ in E. destruct (target_ v) as [[a n]|]; [|done]. cbn [within]. lia.
Qed.

#[export] Program Instance filler_dma : DmaController Filler := { view := seen }.
Next Obligation. intros r h. apply fill_goes_on. Qed.
Next Obligation.
  intros r value h. exists (seen (go 1000 h)). split; [apply fill_goes_on|]. cbn [Mmio.write filler_mmio seen view]. unfold programmed, program.
  repeat match goal with |- context [if ?b then _ else _] => destruct b end; done.
Qed.
Next Obligation. intros us h. apply fill_goes_on. Qed.
Next Obligation. done. Qed.
Next Obligation.
  intros a bytes h. exists (seen h). split_and!; [done|done|]. intros x Hx. cbn [store filler_machine seen memory]. unfold written.
  by replace ((from_arm a <=? x) && (x <? from_arm a + Z.of_nat (length bytes))) with false by lia.
Qed.
End Filler.
Import Filler.

Definition demo_host : Host := mkHost (mkController 0x280A 8) (mkRootPort High) 0x100000 0x101000 0x102000.
Definition demo_target : Target := mkTarget 1 64 High None.
Definition zeros : Filler := mkFiller (mkView (λ _, 0) None 0 0) 0 [].

(** The buffer is filled, and the byte after it is not. *)
Example filled :
  match control (HW := Filler) 1 demo_host demo_target (get_descriptor DescriptorType.DEVICE 0 20) (replicate 20 0) zeros with
  | Ret h (data, received) => (data, received, memory (seen h) (from_arm 0x100000 + 19), memory (seen h) (from_arm 0x100000 + 20))
      = (Script.device_bytes 0 ++ [0xEE; 0xEE], 20, 0xEE, 0)
  | _ => False end.
Proof. by vm_compute. Qed.

(** The device on the root port, enumerated through the driver. *)
#[local] Instance demo_bus : Bus (option Filler) UsbError := driver_bus 1 demo_host.
Definition demo_tree : Tree UsbError :=
  match enumerate (Some zeros) High with Ret _ t => t | _ => mkTree (mkDevice 0 Low None (mkDeviceDescriptor 0 0 0 0 0 0 0) (mkConfiguration 0 []) None) [] end.

Lemma demo_reached : reached demo_tree.
Proof.
  assert (He : match enumerate (Some zeros) High with Ret _ _ => true | _ => false end = true) by (vm_compute; reflexivity).
  destruct (enumerate (Some zeros) High) as [st t|st e|] eqn:E; [|done..].
  apply (reached_enumerate (Some zeros) High st). unfold demo_tree. rewrite E. reflexivity.
Qed.

Lemma dma_stays_in_the_buffers_witness :
  (∀ b, 0 <= bus demo_host b ∧ bus demo_host b + buffer_len b <= 2 ^ 32) ∧ P (HW := Filler) demo_host (λ _, 0) zeros ∧
  keeps (P demo_host (λ _, 0)) (control (HW := Filler) 1 demo_host demo_target (get_descriptor DescriptorType.DEVICE 0 18) (replicate 18 0)).
Proof.
  assert (Hb : ∀ b, 0 <= bus demo_host b ∧ bus demo_host b + buffer_len b <= 2 ^ 32) by (intros []; by vm_compute).
  split_and!; [done|by split|]. destruct (dma_stays_in_the_buffers (HW := Filler) demo_host (λ _, 0) Hb) as (Hc & _). by apply Hc.
Defined.

Lemma driver_serves_enumeration_witness : reached demo_tree ∧ UsbTree.address (tree_root demo_tree) = 1 ∧ tree_ok demo_tree.
Proof.
  split_and!; [exact demo_reached|by vm_compute|]. apply (driver_serves_enumeration (HW := Filler) 1 demo_host). exact demo_reached.
Defined.
End UsbDma.
