(* ===== verification/Uart.v ===== *)
(** The serial port ([src/drivers/uart.rs]): the PL011's registers, and the queue between its interrupt and the
    task that reads it, which share no lock.

    The queue's two ends run at once.  [advance] lets either make one access to shared memory, so a list of
    [Action]s is an interleaving; [Fifo] is what the queue is for. *)
From S2P Require Import Prelude Effect Mmio.
Open Scope Z_scope.

Module Uart.
Import Effect Mmio.

Definition UART0_BASE : Z := PERIPHERAL_BASE + 0x201000.

Definition UART_FR_TXFF : Z := Z.shiftl 1 5.
Definition UART_FR_RXFE : Z := Z.shiftl 1 4.
Definition UART_FR_BUSY : Z := Z.shiftl 1 3.
Definition UART_DR_ERRORS : Z := Z.shiftl 0xF 8.
Definition UART_CR_UARTEN : Z := Z.shiftl 1 0.
Definition UART_CR_TXE : Z := Z.shiftl 1 8.
Definition UART_CR_RXE : Z := Z.shiftl 1 9.
Definition UART_INT_RX : Z := Z.shiftl 1 4.
Definition UART_INT_RT : Z := Z.shiftl 1 6.
Definition UART_LCRH_FEN : Z := Z.shiftl 1 4.
Definition UART_LCRH_WLEN_8BIT : Z := Z.shiftl 3 5.
Definition UART_CLOCK_HZ : Z := 48000000.

(** The fields of [UartRegisters]. *)
Definition dr : Z := UART0_BASE + 0x00.
Definition fr : Z := UART0_BASE + 0x18.
Definition ibrd : Z := UART0_BASE + 0x24.
Definition fbrd : Z := UART0_BASE + 0x28.
Definition lcrh : Z := UART0_BASE + 0x2C.
Definition cr : Z := UART0_BASE + 0x30.
Definition imsc : Z := UART0_BASE + 0x38.
Definition icr : Z := UART0_BASE + 0x44.

(** * The receive queue *)
Definition RX_QUEUE_LEN : nat := 1024.

Record RxQueue := mkRxQueue { entries : list Z; head : nat; tail : nat; overflowed : bool }.
Definition RX_QUEUE : RxQueue := mkRxQueue (replicate RX_QUEUE_LEN 0) 0 0 false.

Definition next (i : nat) : nat := (i + 1) mod RX_QUEUE_LEN.
Definition with_entry i e q := mkRxQueue (<[i := e]> (entries q)) (head q) (tail q) (overflowed q).
Definition with_head h q := mkRxQueue (entries q) h (tail q) (overflowed q).
Definition with_tail t q := mkRxQueue (entries q) (head q) t (overflowed q).
Definition with_overflowed b q := mkRxQueue (entries q) (head q) (tail q) b.

Definition push (entry : Z) (q : RxQueue) : RxQueue :=
  if (next (head q) =? tail q)%nat then with_overflowed true q
  else with_head (next (head q)) (with_entry (head q) entry q).

Definition pop (q : RxQueue) : RxQueue * option Z :=
  if overflowed q then (with_overflowed false q, Some UART_DR_ERRORS)
  else if (tail q =? head q)%nat then (q, None)
  else (with_tail (next (tail q)) q, Some (entries q !!! tail q)).

Definition has_input (q : RxQueue) : bool := overflowed q || negb (tail q =? head q)%nat.

(** [Ok] is a good byte, [Err] a damaged one. *)
Definition receive_checked (q : RxQueue) : RxQueue * option (result Z Z) :=
  let '(q, entry) := pop q in
  (q, (λ e, if Z.land e UART_DR_ERRORS =? 0 then Ok (wrap 8 e) else Err (wrap 8 e)) <$> entry).

(** * The port *)

(** 64 times the divisor of the clock, rounded. *)
Definition divisor_x64 (baud : Z) : Z := wrap 32 (wrap 32 (UART_CLOCK_HZ * 4) + baud / 2) / baud.

Section port.
Context {HW X : Type} `{Mmio HW}.
Local Notation M := (Eff HW X).

(** [patience]: how often the flag register is read.  The code has no limit. *)
Definition await (patience : positive) (busy : Z) : M unit :=
  loop patience (v ← rd fr; mret (if Z.land v busy =? 0 then Some tt else None)).

(** [Pin::new] of a pin that does not exist panics, as a division by zero does. *)
Definition init (baud : Z) : M unit :=
  _ ← wr cr 0;
  tx_pin ← unwrap (Pin_new 14);
  rx_pin ← unwrap (Pin_new 15);
  _ ← set_pin_mode tx_pin Alt0;
  _ ← set_pin_mode rx_pin Alt0;
  _ ← set_pin_pull tx_pin Off;
  _ ← set_pin_pull rx_pin Off;
  _ ← wr icr 0x7FF;
  if baud =? 0 then panic else
  _ ← wr ibrd (Z.shiftr (divisor_x64 baud) 6);
  _ ← wr fbrd (Z.land (divisor_x64 baud) 0x3F);
  _ ← wr lcrh (Z.lor UART_LCRH_FEN UART_LCRH_WLEN_8BIT);
  _ ← wr imsc 0;
  wr cr (Z.lor (Z.lor UART_CR_UARTEN UART_CR_TXE) UART_CR_RXE).

Definition send (patience : positive) (c : Z) : M unit := _ ← await patience UART_FR_TXFF; wr dr c.
Definition flush (patience : positive) : M unit := await patience UART_FR_BUSY.
Definition enable_rx_interrupt : M unit := wr imsc (Z.lor UART_INT_RX UART_INT_RT).

Fixpoint send_string (patience : positive) (s : list Z) : M unit :=
  match s with [] => mret tt | byte :: s => _ ← send patience byte; send_string patience s end.
End port.

(** With the queue beside the registers. *)
#[export] Instance beside_queue {HW} `{Mmio HW} : Mmio (HW * RxQueue) := {
  read r '(h, q) := let '(h, v) := read r h in (h, q, v);
  write r v '(h, q) := (write r v h, q);
  pace := pace }.

Section interrupt.
Context {HW X : Type} `{Mmio HW}.

Definition handle_interrupt (patience : positive) : Eff (HW * RxQueue) X unit :=
  _ ← loop patience
    (v ← rd fr;
     if Z.land v UART_FR_RXFE =? 0 then
       entry ← rd dr;
       _ ← modify (λ '(h, q), (h, push (Z.land entry 0xFFF) q)); mret None
     else mret (Some tt));
  wr icr (Z.lor UART_INT_RX UART_INT_RT).
End interrupt.

(** * Both ends at once *)

(** What the producer has done of a [push], and knows. *)
Inductive Producer :=
| PIdle
| PNext (entry : Z) (head : nat)
| PStore (entry : Z) (head : nat)
| PPublish (entry : Z) (head : nat)
| POverflow.

(** What the consumer has done of a [pop]. *)
Inductive Consumer :=
| CIdle
| CTail
| CHead (tail : nat)
| CRead (tail : nat)
| CRelease (tail : nat) (entry : Z).

Record Running := mkRunning { queue : RxQueue; producer : Producer; consumer : Consumer }.
Definition idle : Running := mkRunning RX_QUEUE PIdle CIdle.

(** [push], an access at a time; [entry] is for a new one.  It returns once it is [PIdle] again. *)
Definition produce (entry : Z) (q : RxQueue) (p : Producer) : RxQueue * Producer :=
  match p with
  | PIdle => (q, PNext entry (head q))
  | PNext e h => if (next h =? tail q)%nat then (q, POverflow) else (q, PStore e h)
  | PStore e h => (with_entry h e q, PPublish e h)
  | PPublish e h => (with_head (next h) q, PIdle)
  | POverflow => (with_overflowed true q, PIdle)
  end.

(** [pop], an access at a time, and what it returns once it does. *)
Definition consume (q : RxQueue) (c : Consumer) : RxQueue * Consumer * option (option Z) :=
  match c with
  | CIdle => if overflowed q then (with_overflowed false q, CIdle, Some (Some UART_DR_ERRORS)) else (q, CTail, None)
  | CTail => (q, CHead (tail q), None)
  | CHead t => if (t =? head q)%nat then (q, CIdle, Some None) else (q, CRead t, None)
  | CRead t => (q, CRelease t (entries q !!! t), None)
  | CRelease t e => (with_tail (next t) q, CIdle, Some (Some e))
  end.

(** What the callers see: [push] is called, [push] returns, [pop] returns. *)
Inductive Call := Began (entry : Z) | Sent | Gave (result : option Z).

Definition is_idle (p : Producer) : bool := match p with PIdle => true | _ => false end.

Inductive Action := Produce (entry : Z) | Consume.
Definition advance (a : Action) (s : Running) : Running * list Call :=
  match a with
  | Produce e => let '(q, p) := produce e (queue s) (producer s) in
                 (mkRunning q p (consumer s), (if is_idle (producer s) then [Began e] else []) ++ if is_idle p then [Sent] else [])
  | Consume => let '(q, c, r) := consume (queue s) (consumer s) in
               (mkRunning q (producer s) c, match r with Some r => [Gave r] | None => [] end)
  end.
Fixpoint run (actions : list Action) (s : Running) : Running * list Call :=
  match actions with
  | [] => (s, [])
  | a :: actions => let '(s, cs) := advance a s in let '(s, cs') := run actions s in (s, cs ++ cs')
  end.

(** ** What it is for *)

(** A bounded queue that refuses what does not fit, and says so. [offer]: the entry being pushed, if it is not
    refused yet. [flagged]: something was refused since the reader was last told. [asked]: the reader is not to be
    told anything first. *)
Inductive Offer := NoOffer | Offered (entry : Z) | Refused.
Record Fifo := mkFifo { waiting : list Z; offer : Offer; flagged : bool; asked : bool }.

Inductive fifo_step : Fifo → list Call → Fifo → Prop :=
| fifo_begin w fl a e : fifo_step (mkFifo w NoOffer fl a) [Began e] (mkFifo w (Offered e) fl a)
| fifo_accept w fl a e : (length w + 1 < RX_QUEUE_LEN)%nat → fifo_step (mkFifo w (Offered e) fl a) [Sent] (mkFifo (w ++ [e]) NoOffer fl a)
| fifo_refuse w fl a e : (length w + 1 = RX_QUEUE_LEN)%nat → fifo_step (mkFifo w (Offered e) fl a) [] (mkFifo w Refused fl a)
| fifo_flag w fl a : fifo_step (mkFifo w Refused fl a) [Sent] (mkFifo w NoOffer true a)
| fifo_report w o : fifo_step (mkFifo w o true false) [Gave (Some UART_DR_ERRORS)] (mkFifo w o false false)
| fifo_ask w o : fifo_step (mkFifo w o false false) [] (mkFifo w o false true)
| fifo_take x w o fl : fifo_step (mkFifo (x :: w) o fl true) [Gave (Some x)] (mkFifo w o fl false)
| fifo_nothing o fl : fifo_step (mkFifo [] o fl true) [Gave None] (mkFifo [] o fl false).

Inductive fifo_steps : Fifo → list Call → Fifo → Prop :=
| fifo_refl f : fifo_steps f [] f
| fifo_more f cs f' cs' f'' : fifo_step f cs f' → fifo_steps f' cs' f'' → fifo_steps f (cs ++ cs') f''.
Definition empty : Fifo := mkFifo [] NoOffer false false.

(** The divisor is as near as one in 64ths can be. *)
Lemma divisor_is_nearest baud : 0 < baud → uint 32 baud → 2 * Z.abs (divisor_x64 baud * baud - 4 * UART_CLOCK_HZ) <= baud.
Proof.
  unfold uint, divisor_x64, UART_CLOCK_HZ. intros H0 Hu. rewrite (wrap_small 32 (48000000 * 4)) by (unfold uint; lia).
  rewrite wrap_small by (unfold uint; Z.to_euclidean_division_equations; lia).
  pose proof (Z_div_mod_eq_full (48000000 * 4 + baud / 2) baud). pose proof (Z.mod_pos_bound (48000000 * 4 + baud / 2) baud H0).
  pose proof (Z_div_mod_eq_full baud 2). pose proof (Z.mod_pos_bound baud 2 ltac:(lia)). lia.
Qed.

(** * Slots *)
Lemma queue_len : (1 < RX_QUEUE_LEN)%nat.
Proof. unfold RX_QUEUE_LEN. lia. Qed.
#[local] Opaque RX_QUEUE_LEN.

Definition slot (t i : nat) : nat := (t + i) mod RX_QUEUE_LEN.
Definition occupied (q : RxQueue) : nat := (head q + RX_QUEUE_LEN - tail q) mod RX_QUEUE_LEN.
Definition contents (q : RxQueue) : list Z := (λ i, entries q !!! slot (tail q) i) <$> seq 0 (occupied q).

Record well_formed (q : RxQueue) : Prop := {
  wf_entries : length (entries q) = RX_QUEUE_LEN; wf_head : (head q < RX_QUEUE_LEN)%nat; wf_tail : (tail q < RX_QUEUE_LEN)%nat }.

Lemma mod_once a : (a < 2 * RX_QUEUE_LEN)%nat → (a mod RX_QUEUE_LEN = if decide (a < RX_QUEUE_LEN) then a else a - RX_QUEUE_LEN)%nat.
Proof.
  intros Ha. pose proof queue_len. destruct (decide _); [by apply Nat.mod_small|].
  replace a with (a - RX_QUEUE_LEN + 1 * RX_QUEUE_LEN)%nat at 1 by lia. rewrite Nat.Div0.mod_add. apply Nat.mod_small. lia.
Qed.

Lemma occupied_cases q : well_formed q →
  (tail q ≤ head q ∧ occupied q = head q - tail q ∨ head q < tail q ∧ occupied q + tail q = head q + RX_QUEUE_LEN)%nat.
Proof. intros []. pose proof queue_len. unfold occupied. rewrite mod_once by lia. destruct (decide _); lia. Qed.

Lemma next_lt i : (next i < RX_QUEUE_LEN)%nat.
Proof. pose proof queue_len. apply Nat.mod_upper_bound. lia. Qed.

Lemma next_cases i : (i < RX_QUEUE_LEN → i + 1 < RX_QUEUE_LEN ∧ next i = i + 1 ∨ i + 1 = RX_QUEUE_LEN ∧ next i = 0)%nat.
Proof. intros Hi. pose proof queue_len. unfold next. rewrite mod_once by lia. destruct (decide _); lia. Qed.

Lemma occupied_lt q : (occupied q < RX_QUEUE_LEN)%nat.
Proof. pose proof queue_len. apply Nat.mod_upper_bound. lia. Qed.

Ltac slots q := match goal with Hq : well_formed q |- _ =>
  pose proof (occupied_cases q Hq); pose proof (occupied_lt q); pose proof queue_len; destruct Hq end;
  unfold slot, next in *; rewrite ?mod_once in * by lia; repeat (destruct (decide _)); lia.

(** Changes that keep the ends in range. *)
Lemma wf_with_entry i e q : well_formed q → well_formed (with_entry i e q).
Proof. intros []. constructor; [|done..]. cbn [entries with_entry]. by rewrite length_insert. Qed.

Lemma wf_with_head h q : well_formed q → (h < RX_QUEUE_LEN)%nat → well_formed (with_head h q).
Proof. by intros []. Qed.

Lemma wf_with_tail t q : well_formed q → (t < RX_QUEUE_LEN)%nat → well_formed (with_tail t q).
Proof. by intros []. Qed.

Lemma wf_with_overflowed b q : well_formed q → well_formed (with_overflowed b q).
Proof. by intros []. Qed.

Section queue_facts.
Context (q : RxQueue) (Hq : well_formed q).

Lemma full_iff : next (head q) = tail q ↔ (occupied q + 1 = RX_QUEUE_LEN)%nat.
Proof. slots q. Qed.

Lemma empty_iff : tail q = head q ↔ occupied q = 0%nat.
Proof. slots q. Qed.

Lemma length_contents : length (contents q) = occupied q.
Proof. unfold contents. by rewrite length_fmap, length_seq. Qed.

(** The slot being written is not among those that are read. *)
Lemma contents_store e : contents (with_entry (head q) e q) = contents q.
Proof.
  unfold contents. change (occupied (with_entry _ _ _)) with (occupied q). apply list_fmap_ext. intros i x Hx.
  apply lookup_seq in Hx as [-> Hi]. cbn [entries tail with_entry]. apply list_lookup_total_insert_ne. cbn [Nat.add]. slots q.
Qed.

Lemma occupied_publish : (occupied q + 1 < RX_QUEUE_LEN)%nat → occupied (with_head (next (head q)) q) = S (occupied q).
Proof.
  intros Ho. pose proof (occupied_cases _ (wf_with_head _ _ Hq (next_lt (head q)))) as Hc. cbn [head tail with_head] in Hc. slots q.
Qed.

Lemma contents_publish : (occupied q + 1 < RX_QUEUE_LEN)%nat → contents (with_head (next (head q)) q) = contents q ++ [entries q !!! head q].
Proof.
  intros Ho. unfold contents. rewrite occupied_publish, seq_S, fmap_app by done. cbn [entries tail with_head fmap list_fmap]. do 3 f_equal. slots q.
Qed.

Lemma occupied_release : (0 < occupied q)%nat → occupied q = S (occupied (with_tail (next (tail q)) q)).
Proof.
  intros Ho. pose proof (occupied_cases _ (wf_with_tail _ _ Hq (next_lt (tail q)))) as Hc. cbn [head tail with_tail] in Hc. slots q.
Qed.

Lemma contents_release : (0 < occupied q)%nat → contents q = entries q !!! tail q :: contents (with_tail (next (tail q)) q).
Proof.
  intros Ho. pose proof (occupied_release Ho) as Hn. unfold contents. rewrite Hn at 1. cbn [entries tail with_tail seq fmap list_fmap]. f_equal.
  - f_equal. slots q.
  - rewrite <-fmap_S_seq, <-list_fmap_compose. apply list_fmap_ext. intros i x Hx. apply lookup_seq in Hx as [-> Hi]. cbn [compose Nat.add]. f_equal.
    destruct (next_cases (tail q)) as [[? ->]|[? ->]]; [by destruct Hq|slots q..].
Qed.
End queue_facts.

(** * The queue is what it is for *)

(** What each end knows is true of the queue, for as long as it relies on it. *)
Definition producer_ok (q : RxQueue) (p : Producer) (o : Offer) : Prop :=
  match p with
  | PIdle => o = NoOffer
  | PNext e h => h = head q ∧ o = Offered e
  | PStore e h => h = head q ∧ (occupied q + 1 < RX_QUEUE_LEN)%nat ∧ o = Offered e
  | PPublish e h => h = head q ∧ (occupied q + 1 < RX_QUEUE_LEN)%nat ∧ entries q !!! h = e ∧ o = Offered e
  | POverflow => o = Refused
  end.
Definition consumer_ok (q : RxQueue) (c : Consumer) (asked : bool) : Prop :=
  match c with
  | CIdle => asked = false
  | CTail => asked = true
  | CHead t => t = tail q ∧ asked = true
  | CRead t => t = tail q ∧ (0 < occupied q)%nat ∧ asked = true
  | CRelease t e => t = tail q ∧ (0 < occupied q)%nat ∧ entries q !!! t = e ∧ asked = true
  end.

Record implements (s : Running) (f : Fifo) : Prop := {
  im_wf : well_formed (queue s);
  im_waiting : waiting f = contents (queue s);
  im_flagged : flagged f = overflowed (queue s);
  im_producer : producer_ok (queue s) (producer s) (offer f);
  im_consumer : consumer_ok (queue s) (consumer s) (asked f) }.

Lemma wf_idle : well_formed RX_QUEUE.
Proof. pose proof queue_len. unfold RX_QUEUE. constructor; cbn [entries head tail]; [apply length_replicate|lia..]. Qed.

Lemma idle_implements : implements idle empty.
Proof.
  assert (Ho : occupied RX_QUEUE = 0%nat) by by apply (empty_iff _ wf_idle).
  constructor; [exact wf_idle| |done..]. unfold contents. cbn [queue idle]. by rewrite Ho.
Qed.

Lemma tail_slot_ne q : well_formed q → (0 < occupied q)%nat → tail q ≠ head q.
Proof. intros Hq Ho. slots q. Qed.

Lemma fifo_one f cs f' : fifo_step f cs f' → fifo_steps f cs f'.
Proof. intros Hs. rewrite <-(app_nil_r cs). by eapply fifo_more; [|apply fifo_refl]. Qed.

Lemma fifo_trans f cs f' cs' f'' : fifo_steps f cs f' → fifo_steps f' cs' f'' → fifo_steps f (cs ++ cs') f''.
Proof. induction 1 as [|f cs1 f1 cs2 f2 Hs _ IH]; [done|]. intros H2. rewrite <-app_assoc. eapply fifo_more; [done|by apply IH]. Qed.

Lemma produce_implements e s f : implements s f →
  ∃ f', fifo_steps f (advance (Produce e) s).2 f' ∧ implements (advance (Produce e) s).1 f'.
Proof.
  intros [Hq Hw Hf Hp Hc]. destruct s as [q p c], f as [w o fl a]. cbn [queue producer consumer waiting offer flagged asked] in *. subst w fl.
  unfold advance. cbn [queue producer consumer]. destruct p as [|x h|x h|x h|]; cbn [produce producer_ok] in *.
  - subst o. exists (mkFifo (contents q) (Offered e) (overflowed q) a). split; [apply fifo_one, fifo_begin|]. by constructor.
  - destruct Hp as [-> ->]. destruct (Nat.eqb_spec (next (head q)) (tail q)) as [Hn|Hn]; apply full_iff in Hn || rewrite full_iff in Hn; try done.
    + exists (mkFifo (contents q) Refused (overflowed q) a). split; [apply fifo_one, fifo_refuse; by rewrite length_contents|]. by constructor.
    + exists (mkFifo (contents q) (Offered x) (overflowed q) a). split; [apply fifo_refl|]. constructor; try done. split_and!; [done| |done].
      pose proof (occupied_lt q). cbn [queue fst]. lia.
  - destruct Hp as (-> & Ho & ->). exists (mkFifo (contents q) (Offered x) (overflowed q) a). split; [apply fifo_refl|].
    constructor; cbn [fst queue producer consumer waiting offer flagged asked]; [by apply wf_with_entry|by rewrite contents_store|done| |].
    + split_and!; [done|done| |done]. cbn [entries with_entry]. destruct Hq. rewrite list_lookup_total_insert_eq; [done|lia].
    + pose proof (tail_slot_ne q Hq) as Ht. destruct c as [| |t|t|t x']; try done.
      destruct Hc as (-> & Hpos & He & Ha). split_and!; [done|done| |done]. cbn [entries with_entry]. rewrite list_lookup_total_insert_ne; [done|]. by apply not_eq_sym, Ht.
  - destruct Hp as (-> & Ho & He & ->). exists (mkFifo (contents q ++ [x]) NoOffer (overflowed q) a).
    split; [apply fifo_one, fifo_accept; by rewrite length_contents|].
    constructor; cbn [fst queue producer consumer waiting offer flagged asked]; [by apply wf_with_head, next_lt| |done|done|].
    + by rewrite contents_publish, He by done.
    + destruct c as [| |t|t|t x']; try done; cbn [consumer_ok] in *; rewrite occupied_publish by done; [split_and!; [apply Hc|lia|apply Hc]|split_and!; [apply Hc|lia|apply Hc|apply Hc]].
  - subst o. exists (mkFifo (contents q) NoOffer true a). split; [apply fifo_one, fifo_flag|]. constructor; try done. by apply wf_with_overflowed.
Qed.

Lemma consume_implements s f : implements s f → ∃ f', fifo_steps f (advance Consume s).2 f' ∧ implements (advance Consume s).1 f'.
Proof.
  intros [Hq Hw Hf Hp Hc]. destruct s as [q p c], f as [w o fl a]. cbn [queue producer consumer waiting offer flagged asked] in *. subst w fl.
  unfold advance. cbn [queue producer consumer]. destruct c as [| |t|t|t x]; cbn [consume consumer_ok] in *.
  - subst a. destruct (overflowed q) eqn:Eo; eexists.
    + split; [apply fifo_one, fifo_report|]. constructor; try done. by apply wf_with_overflowed.
    + split; [apply fifo_one, fifo_ask|]. by constructor.
  - subst a. exists (mkFifo (contents q) o (overflowed q) true). split; [apply fifo_refl|]. by constructor.
  - destruct Hc as [-> ->]. destruct (Nat.eqb_spec (tail q) (head q)) as [He|He]; rewrite empty_iff in He by done.
    + exists (mkFifo (contents q) o (overflowed q) false). assert (Hn : contents q = []) by (apply length_zero_iff_nil; by rewrite length_contents).
      split; [rewrite Hn; apply fifo_one, fifo_nothing|]. by constructor.
    + exists (mkFifo (contents q) o (overflowed q) true). split; [apply fifo_refl|]. constructor; try done. split_and!; [done| |done]. cbn [queue fst]. lia.
  - destruct Hc as (-> & Ho & ->). exists (mkFifo (contents q) o (overflowed q) true). split; [apply fifo_refl|]. by constructor.
  - destruct Hc as (-> & Ho & He & ->). rewrite contents_release, He by done. eexists. split; [apply fifo_one, fifo_take|].
    pose proof (occupied_release q Hq Ho) as Hr.
    constructor; cbn [fst queue producer consumer waiting offer flagged asked]; [by apply wf_with_tail, next_lt|done|done| |done].
    destruct p as [|y h|y h|y h|]; cbn [producer_ok] in *; [done|done| | |done]; split_and!; try apply Hp; lia.
Qed.

Lemma run_implements actions s f : implements s f → ∃ f', fifo_steps f (run actions s).2 f' ∧ implements (run actions s).1 f'.
Proof.
  revert s f. induction actions as [|a actions IH]; intros s f Hs; cbn [run]; [by exists f; split; [apply fifo_refl|]|].
  assert (Ha : ∃ f', fifo_steps f (advance a s).2 f' ∧ implements (advance a s).1 f') by (destruct a; [by apply produce_implements|by apply consume_implements]).
  destruct Ha as (f1 & Hf1 & H1). destruct (advance a s) as [s1 cs]. cbn [fst snd] in *. destruct (IH s1 f1 H1) as (f2 & Hf2 & H2).
  destruct (run actions s1) as [s2 cs']. cbn [fst snd] in *. exists f2. split; [by eapply fifo_trans|done].
Qed.

(** Alone, the accesses make up [push] and [pop]. *)
Lemma push_alone e q : ∃ n, (run (replicate n (Produce e)) (mkRunning q PIdle CIdle)).1 = mkRunning (push e q) PIdle CIdle.
Proof.
  unfold push. destruct (next (head q) =? tail q)%nat eqn:E; [exists 3%nat|exists 4%nat]; cbn [run replicate advance queue producer consumer produce]; rewrite E; done.
Qed.

Lemma pop_alone q : ∃ n, (run (replicate n Consume) (mkRunning q PIdle CIdle)).1 = mkRunning (pop q).1 PIdle CIdle.
Proof.
  unfold pop. destruct (overflowed q) eqn:Eo; [exists 1%nat|destruct (tail q =? head q)%nat eqn:E; [exists 3%nat|exists 5%nat]];
    repeat (cbn [run replicate advance queue producer consumer consume fst]; rewrite ?Eo, ?E); done.
Qed.

(** How many accesses a call has left, at most, and how many of them there are in a run. *)
Definition pop_left (c : Consumer) : nat := match c with CIdle => 5 | CTail => 4 | CHead _ => 3 | CRead _ => 2 | CRelease _ _ => 1 end.
Definition push_left (p : Producer) : nat := match p with PIdle => 4 | PNext _ _ => 3 | PStore _ _ => 2 | PPublish _ _ | POverflow => 1 end.
#[export] Instance Action_eq_dec : EqDecision Action.
Proof. solve_decision. Defined.

Definition pops (actions : list Action) : nat := length (filter (λ a, a = Consume) actions).
Definition pushes (actions : list Action) : nat := length (filter (λ a, a ≠ Consume) actions).

Lemma pop_returns actions s : (pop_left (consumer s) ≤ pops actions)%nat → ∃ r, Gave r ∈ (run actions s).2.
Proof.
  unfold pops. revert s. induction actions as [|a actions IH]; intros s Hl; [cbn in Hl; by destruct (consumer s); cbn in Hl; lia|].
  cbn [run]. assert (Ha : (∃ r, Gave r ∈ (advance a s).2) ∨ (pop_left (consumer (advance a s).1) ≤ length (filter (λ a, a = Consume) actions))%nat).
  { destruct a as [e|].
    - right. rewrite filter_cons_False in Hl by done. cbn [advance]. by destruct (produce e (queue s) (producer s)).
    - rewrite filter_cons_True in Hl by done. cbn [length advance] in *. unfold consume. destruct (consumer s) as [| |t|t|t x]; cbn [pop_left] in Hl;
        [destruct (overflowed _)| |destruct (_ =? _)%nat| |]; cbn [fst snd]; try (left; eexists; by left); right; cbn; lia. }
  destruct (advance a s) as [s1 cs]. cbn [fst snd] in Ha. destruct Ha as [[r Hr]|Hl1].
  - destruct (run actions s1). exists r. cbn. set_solver.
  - destruct (IH s1 Hl1) as [r Hr]. destruct (run actions s1). exists r. cbn in *. set_solver.
Qed.

Lemma push_returns actions s : (push_left (producer s) ≤ pushes actions)%nat → Sent ∈ (run actions s).2.
Proof.
  unfold pushes. revert s. induction actions as [|a actions IH]; intros s Hl; [cbn in Hl; by destruct (producer s); cbn in Hl; lia|].
  cbn [run]. assert (Ha : Sent ∈ (advance a s).2 ∨ (push_left (producer (advance a s).1) ≤ length (filter (λ a, a ≠ Consume) actions))%nat).
  { destruct a as [e|].
    - rewrite filter_cons_True in Hl by done. cbn [length advance] in *. unfold produce. destruct (producer s) as [|x h|x h|x h|]; cbn [push_left] in Hl;
        [|destruct (_ =? _)%nat| | |]; cbn [fst snd is_idle app]; try (left; by left); right; cbn; lia.
    - right. rewrite filter_cons_False in Hl by (intros Hn; by apply Hn). cbn [advance]. by destruct (consume (queue s) (consumer s)) as [[q c] r]. }
  destruct (advance a s) as [s1 cs]. cbn [fst snd] in Ha. destruct Ha as [Hr|Hl1].
  - destruct (run actions s1). cbn. set_solver.
  - pose proof (IH s1 Hl1) as Hr. destruct (run actions s1). cbn in *. set_solver.
Qed.

(** C23: The interrupt and the task that reads never get in each other's way.  However their accesses to the queue
    interleave, what callers see, that is the entries push is called with, when it returns and what pop returns, is
    what a bounded queue with those two calls does: an entry is accepted, or refused while 1023 are waiting; pop gives
    what was accepted, in order and each entry once, nothing only when nothing waits, and reports a refusal
    first if there was one that it has not reported; and the slot being written is never the one being read.  Neither
    waits for the other: [push] returns after at most four accesses of its own, and [pop] after five. *)
Theorem rx_queue_is_a_fifo actions :
  let '(s, calls) := run actions idle in
  (∃ f, fifo_steps empty calls f ∧ waiting f = contents (queue s) ∧ flagged f = overflowed (queue s)) ∧
  match producer s, consumer s with PStore _ h, CRead t => h ≠ t | _, _ => True end ∧
  ∀ more, ((4 ≤ pushes more)%nat → Sent ∈ (run more s).2) ∧ ((5 ≤ pops more)%nat → ∃ r, Gave r ∈ (run more s).2).
Proof.
  destruct (run_implements actions idle empty idle_implements) as (f & Hf & [Hq Hw Hfl Hp Hc]).
  destruct (run actions idle) as [s calls]. cbn [fst snd] in *. split; [by exists f|]. split.
  2: { intros more. split; intros Hm; [apply push_returns|apply pop_returns]; [destruct (producer s)|destruct (consumer s)]; cbn [push_left pop_left]; lia. }
  destruct (producer s) as [| |x h| |]; try done. destruct (consumer s) as [| | |t|]; try done.
  destruct Hp as [-> _], Hc as (-> & Ho & _). by apply not_eq_sym, tail_slot_ne.
Qed.

(** A byte is received while the task looks for one: the first pop finds nothing, the next the byte. *)
Definition meeting : list Action := [Consume; Consume; Produce 7; Consume; Produce 7; Produce 7; Produce 7] ++ replicate 5 Consume.

Lemma rx_queue_is_a_fifo_witness : (run meeting idle).2 = [Began 7; Gave None; Sent; Gave (Some 7)] ∧
  ∃ f, fifo_steps empty [Began 7; Gave None; Sent; Gave (Some 7)] f.
Proof.
  assert (Hc : (run meeting idle).2 = [Began 7; Gave None; Sent; Gave (Some 7)]) by (vm_compute; reflexivity). split; [exact Hc|].
  pose proof (rx_queue_is_a_fifo meeting) as Hf. rewrite (surjective_pairing (run meeting idle)), Hc in Hf.
  destruct Hf as [(f & Hf & _) _]. exists f. exact Hf.
Defined.

(** A loss is reported as soon as it has happened, ahead of the 1023 bytes that came before what was lost, and
    nothing marks where the gap is. *)
Theorem overflow_is_reported_early :
  let q := foldl (λ q e, push e q) RX_QUEUE (seqZ 0 1024) in
  contents q = seqZ 0 1023 ∧ (pop q).2 = Some UART_DR_ERRORS ∧ (pop (pop q).1).2 = Some 0.
Proof. by vm_compute. Qed.
End Uart.
