(* ===== verification/Disk.v ===== *)
(** Block devices and partition tables: rustypi-core/src/block.rs and mbr.rs.

    A device is anything that reads and writes 512-byte blocks, each call of which may fail.  The
    traits are the classes [BlockDevice] and [WritableBlockDevice]; what the file system relies on
    is the class [LawfulDevice]: the blocks read are the ones last written, and a call that fails to
    write has written a prefix of what it was given, which may be all of it: a card can take a block
    and then not answer in time.  A disk that loses power is such a device too: from that moment
    every call fails.  [MemDisk] is the instance used to
    run the model: a disk in memory that can be set to stop after a number of writes. *)
From S2P Require Import Prelude Bytes.
Open Scope Z_scope.

Module Disk.

Definition BLOCK_SIZE : Z := 512.

(** [\[u8; BLOCK_SIZE\]]. *)
Definition Block : Type := list Z.
Definition is_block (b : Block) : Prop := length b = 512%nat ∧ is_bytes b.

Definition Lba : Type := Z.

Definition offset (lba : Lba) (blocks : Z) : Lba := wrap 64 (lba + blocks).

Class BlockDevice (D E : Type) := {
  read_block : Lba → D → D * result E Block;
  read_blocks : Lba → nat → D → D * result E (list Block) }.

Class WritableBlockDevice (D E : Type) `{!BlockDevice D E} := {
  write_block : Lba → Block → D → D * result E unit;
  write_blocks : Lba → list Block → D → D * result E unit }.

(** The default methods: one block at a time, stopping at the first error. *)
Section defaults.
Context {D E : Type}.

Fixpoint read_blocks_default (read : Lba → D → D * result E Block) (lba : Lba) (i n : nat) (d : D)
  : D * result E (list Block) :=
  match n with
  | O => (d, Ok [])
  | S n =>
    match read (offset lba (Z.of_nat i)) d with
    | (d, Err e) => (d, Err e)
    | (d, Ok b) => match read_blocks_default read lba (S i) n d with
                   | (d, Ok bs) => (d, Ok (b :: bs))
                   | r => r
                   end
    end
  end.

Fixpoint write_blocks_default (write : Lba → Block → D → D * result E unit) (lba : Lba) (i : nat)
    (bs : list Block) (d : D) : D * result E unit :=
  match bs with
  | [] => (d, Ok tt)
  | b :: bs => match write (offset lba (Z.of_nat i)) b d with
               | (d, Err e) => (d, Err e)
               | (d, Ok _) => write_blocks_default write lba (S i) bs d
               end
  end.
End defaults.

(** What a disk holds after [bs] are written from [lba] on. *)
Definition overlay (lba : Lba) (bs : list Block) (c : Lba → Block) (l : Lba) : Block :=
  if (lba <=? l) && (l <? lba + Z.of_nat (length bs)) then bs !!! Z.to_nat (l - lba) else c l.

(** The run of blocks [n] long from [lba] on, whose byte addresses fit in 64 bits. *)
Definition in_reach (lba : Lba) (n : nat) : Prop := 0 <= lba ∧ lba + Z.of_nat n <= 2 ^ 55.

(** What a call that was to write [bs] did: all of it if it says so, else a prefix. *)
Definition wrote (lba : Lba) (bs : list Block) (all : bool) (c c' : Lba → Block) : Prop :=
  ∃ n, (n ≤ length bs)%nat ∧ (all = true → n = length bs) ∧ ∀ k, c' k = overlay lba (take n bs) c k.

(** ** What is relied on *)
Class LawfulDevice (D E : Type) `{WritableBlockDevice D E} := {
  contents : D → Lba → Block;
  contents_block d l : is_block (contents d l);
  read_block_spec l d d' r : read_block l d = (d', r) → in_reach l 1 →
    (∀ k, contents d' k = contents d k) ∧ ∀ b, r = Ok b → b = contents d l;
  read_blocks_spec l n d d' r : read_blocks l n d = (d', r) → in_reach l n →
    (∀ k, contents d' k = contents d k) ∧
    ∀ bs, r = Ok bs → bs = (λ i, contents d (l + Z.of_nat i)) <$> seq 0 n;
  write_block_spec l b d d' r : write_block l b d = (d', r) → is_block b → in_reach l 1 →
    wrote l [b] (is_ok r) (contents d) (contents d');
  write_blocks_spec l bs d d' r : write_blocks l bs d = (d', r) → Forall is_block bs →
    in_reach l (length bs) → wrote l bs (is_ok r) (contents d) (contents d') }.

Lemma overlay_nil l c k : overlay l [] c k = c k.
Proof.
  unfold overlay. cbn [length].
  destruct (Z.leb_spec l k); cbn [andb]; [|done]. by rewrite (proj2 (Z.ltb_ge _ _)) by lia.
Qed.

Lemma overlay_outside l bs c k : ¬ (l <= k < l + Z.of_nat (length bs)) → overlay l bs c k = c k.
Proof. unfold overlay. intros H. destruct (Z.leb_spec l k), (Z.ltb_spec k (l + Z.of_nat (length bs))); cbn; [lia|done..]. Qed.

Lemma overlay_inside l bs c (i : nat) : (i < length bs)%nat → overlay l bs c (l + Z.of_nat i) = bs !!! i.
Proof.
  intros H. unfold overlay. rewrite (proj2 (Z.leb_le _ _)), (proj2 (Z.ltb_lt _ _)) by lia. cbn [andb].
  f_equal. lia.
Qed.

Lemma overlay_cons l b bs c k : overlay l (b :: bs) c k = overlay (l + 1) bs (overlay l [b] c) k.
Proof.
  unfold overlay. cbn [length].
  destruct (Z.leb_spec l k), (Z.ltb_spec k (l + Z.of_nat (S (length bs)))),
    (Z.leb_spec (l + 1) k), (Z.ltb_spec k (l + 1 + Z.of_nat (length bs))), (Z.ltb_spec k (l + Z.of_nat 1));
    cbn [andb]; try lia; try done.
  - replace (Z.to_nat (k - l)) with (S (Z.to_nat (k - (l + 1)))) by lia. done.
  - by replace (Z.to_nat (k - l)) with O by lia.
Qed.

Lemma wrote_single l b (r : bool) c c' :
  (∀ k, c' k = if r then overlay l [b] c k else c k) → wrote l [b] r c c'.
Proof.
  intros Hk. destruct r.
  - exists 1%nat. split_and!; [done|done|exact Hk].
  - exists O. split_and!; [cbn; lia|done|]. intros k. cbn [take]. by rewrite overlay_nil.
Qed.

(** One block was written or not. *)
Lemma wrote_one l b r c c' : wrote l [b] r c c' →
  (∀ k, c' k = overlay l [b] c k) ∨ r = false ∧ ∀ k, c' k = c k.
Proof.
  intros (n & Hn & Hr & Hk). cbn [length] in *. destruct n as [|[|n]]; [|by left|lia]. right. cbn [take] in Hk. split.
  - destruct r; [discriminate (Hr eq_refl)|done].
  - intros k. by rewrite Hk, overlay_nil.
Qed.

Lemma overlay_block l bs c k : Forall is_block bs → is_block (c k) → is_block (overlay l bs c k).
Proof.
  intros Hbs Hc. unfold overlay. destruct (Z.leb_spec l k), (Z.ltb_spec k (l + Z.of_nat (length bs))); cbn; try done.
  eapply Forall_lookup_1; [done|]. apply list_lookup_lookup_total_lt. lia.
Qed.

Lemma overlay_proper l bs c c' k : (∀ k, c k = c' k) → overlay l bs c k = overlay l bs c' k.
Proof. intros H. unfold overlay. by rewrite H. Qed.

(** ** A disk in memory *)
Module MemDisk.

(** Blocks never written are zero; [budget] writes are left before the power goes. *)
Record MemDisk := mkMemDisk { blocks : gmap Z Block; size : Z; budget : option nat }.

Inductive DiskError := OutOfRange | NoPower.

Definition zero_block : Block := replicate 512 0.

Definition get (l : Lba) (d : MemDisk) : Block := default zero_block (blocks d !! l).

Definition good_block (b : Block) : bool :=
  (length b =? 512)%nat && forallb (λ x, (0 <=? x) && (x <? 256)) b.

Definition read (l : Lba) (d : MemDisk) : MemDisk * result DiskError Block :=
  if bool_decide (budget d = Some O) then (d, Err NoPower) else
  if (0 <=? l) && (l <? size d)
  then (d, Ok (if good_block (get l d) then get l d else zero_block)) else (d, Err OutOfRange).

Definition write (l : Lba) (b : Block) (d : MemDisk) : MemDisk * result DiskError unit :=
  if bool_decide (budget d = Some O) then (d, Err NoPower) else
  if (0 <=? l) && (l <? size d)
  then (mkMemDisk (<[l := b]> (blocks d)) (size d) (pred <$> budget d), Ok tt) else (d, Err OutOfRange).

#[export] Instance mem_device : BlockDevice MemDisk DiskError := {
  read_block := read;
  read_blocks l n d := read_blocks_default read l 0 n d }.
#[export] Instance mem_writable : WritableBlockDevice MemDisk DiskError := {
  write_block := write;
  write_blocks l bs d := write_blocks_default write l 0 bs d }.

Definition mem_contents (d : MemDisk) (l : Lba) : Block :=
  if good_block (get l d) then get l d else zero_block.

Lemma good_block_spec b : good_block b = true ↔ is_block b.
Proof.
  unfold good_block, is_block, is_bytes. rewrite andb_true_iff, Nat.eqb_eq, forallb_forall, Forall_forall.
  unfold uint. setoid_rewrite list_elem_of_In. split; (intros [Hl H]; split; [done|]; intros x Hx; specialize (H x Hx)).
  - apply andb_prop in H as [?%Z.leb_le ?%Z.ltb_lt]. lia.
  - apply andb_true_iff. rewrite Z.leb_le, Z.ltb_lt. lia.
Qed.

Lemma mem_contents_block d l : is_block (mem_contents d l).
Proof.
  unfold mem_contents. destruct (good_block _) eqn:E; [by apply good_block_spec|].
  by apply good_block_spec.
Qed.

Lemma read_spec l d d' r : read l d = (d', r) → d' = d ∧ ∀ b, r = Ok b → b = mem_contents d l.
Proof.
  unfold read. repeat case_match; intros [= <- <-]; split; try done; intros ? [= <-]; unfold mem_contents;
    by repeat case_match.
Qed.

Lemma write_spec l b d d' r : write l b d = (d', r) → is_block b →
  ∀ k, mem_contents d' k = if is_ok r then overlay l [b] (mem_contents d) k else mem_contents d k.
Proof.
  unfold write. intros Hw Hb k. apply good_block_spec in Hb.
  repeat case_match; injection Hw as <- <-; cbn [is_ok]; try done.
  destruct (decide (k = l)) as [->|Hne].
  - pose proof (overlay_inside l [b] (mem_contents d) 0 ltac:(cbn; lia)) as Ho. cbn in Ho. rewrite Z.add_0_r in Ho.
    rewrite Ho. unfold mem_contents, get.
    cbn [blocks]. rewrite lookup_insert_eq. change (default zero_block (Some b)) with b. by rewrite Hb.
  - rewrite overlay_outside by (cbn; lia). unfold mem_contents, get. cbn [blocks]. by rewrite lookup_insert_ne.
Qed.

Lemma read_blocks_mem l i n d d' r : read_blocks_default read l i n d = (d', r) →
  in_reach l (i + n) →
  d' = d ∧ ∀ bs, r = Ok bs → bs = (λ i, mem_contents d (l + Z.of_nat i)) <$> seq i n.
Proof.
  unfold in_reach. revert i d d' r. induction n as [|n IH]; intros i d d' r; cbn [read_blocks_default].
  { intros [= <- <-] _. split; [done|]. by intros bs [= <-]. }
  intros H Hr. destruct (read _ d) as [d1 [b|e]] eqn:E.
  - destruct (read_spec _ _ _ _ E) as [-> Hb]. destruct (read_blocks_default read l (S i) n d) as [d2 r2] eqn:E2.
    destruct (IH _ _ _ _ E2 ltac:(lia)) as [-> Hbs]. destruct r2 as [bs2|e2]; injection H as <- <-; split; try done.
    intros bs [= <-]. cbn [seq fmap list_fmap]. rewrite (Hb _ eq_refl), (Hbs _ eq_refl). f_equal. f_equal.
    unfold offset. rewrite wrap_small; [done|]. unfold uint. lia.
  - destruct (read_spec _ _ _ _ E) as [-> _]. by injection H as <- <-.
Qed.

Lemma write_blocks_mem l i bs d d' r : write_blocks_default write l i bs d = (d', r) →
  Forall is_block bs → in_reach l (i + length bs) →
  wrote (l + Z.of_nat i) bs (is_ok r) (mem_contents d) (mem_contents d').
Proof.
  unfold in_reach. revert i d d' r. induction bs as [|b bs IH]; intros i d d' r; cbn [write_blocks_default].
  { intros [= <- <-] _ _. exists O. split_and!; [done|done|]. intros k. by rewrite overlay_nil. }
  intros H [Hb Hbs]%Forall_cons Hr. cbn [length] in *.
  assert (Ho : offset l (Z.of_nat i) = l + Z.of_nat i) by (unfold offset, wrap; rewrite Z.mod_small; lia).
  destruct (write _ b d) as [d1 [[]|e]] eqn:E; pose proof (write_spec _ _ _ _ _ E Hb) as Hw; cbn [is_ok] in Hw;
    rewrite ?Ho in Hw.
  - destruct (IH _ _ _ _ H Hbs ltac:(lia)) as (n & Hn & Hok & Hc). exists (S n). split_and!; [cbn [length]; lia| |].
    + intros Hr'. cbn [length]; by rewrite (Hok Hr').
    + intros k. cbn [take]. rewrite overlay_cons, Hc. replace (l + Z.of_nat (S i)) with (l + Z.of_nat i + 1) by lia.
      by apply overlay_proper.
  - injection H as <- <-. exists O. split_and!; [lia|done|]. intros k. cbn [take]. by rewrite overlay_nil, Hw.
Qed.

#[export] Program Instance mem_lawful : LawfulDevice MemDisk DiskError := { contents := mem_contents }.
Next Obligation. apply mem_contents_block. Qed.
Next Obligation. intros l d d' r H _. destruct (read_spec _ _ _ _ H) as [-> Hb]. done. Qed.
Next Obligation. intros l n d d' r H Hr. destruct (read_blocks_mem _ _ _ _ _ _ H Hr) as [-> Hb]. done. Qed.
Next Obligation. intros l b d d' r H Hb _. by apply wrote_single, write_spec. Qed.
Next Obligation.
  intros l bs d d' r H Hb Hr. pose proof (write_blocks_mem _ _ _ _ _ _ H Hb Hr) as Hc. by rewrite Z.add_0_r in Hc.
Qed.
End MemDisk.

End Disk.

(** * The partition table: mbr.rs *)
Module Mbr.
Import Disk.

Definition PartitionType : Type := Z.

Definition is_fat (t : PartitionType) : bool :=
  (t =? 0x04) || (t =? 0x06) || (t =? 0x0B) || (t =? 0x0C) || (t =? 0x0E).

Record Partition := mkPartition { kind : PartitionType; start : Lba; blocks : Z }.

Inductive Volume :=
| InPartition (index : nat) (partition : Partition)
| WholeDisk.

Definition volume_start (v : Volume) : Lba :=
  match v with InPartition _ p => start p | WholeDisk => 0 end.

Definition has_boot_signature (block : Block) : bool :=
  ((block !!! 510%nat) =? 0x55) && ((block !!! 511%nat) =? 0xAA).

(** [u8::is_power_of_two]. *)
Definition is_power_of_two (x : Z) : bool := (0 <? x) && (Z.land x (x - 1) =? 0).

Definition is_fat_boot_sector (block : Block) : bool :=
  let jump := ((block !!! 0%nat) =? 0xEB) || ((block !!! 0%nat) =? 0xE9) in
  let bytes_per_sector := le_value [block !!! 11%nat; block !!! 12%nat] in
  let sectors_per_cluster := block !!! 13%nat in
  jump && has_boot_signature block && (bytes_per_sector =? 512) &&
  is_power_of_two sectors_per_cluster && (0 <? block !!! 16%nat).

Definition partition_at (block : Block) (i : nat) : option Partition :=
  let entry := take 16 (drop (446 + i * 16) block) in
  let kind := entry !!! 4%nat in
  let start := le_value (take 4 (drop 8 entry)) in
  let blocks := le_value (take 4 (drop 12 entry)) in
  if negb (kind =? 0) && negb (blocks =? 0) then Some (mkPartition kind start blocks) else None.

Definition partitions (block : Block) : option (list (option Partition)) :=
  if negb (has_boot_signature block) then None else Some (partition_at block <$> [0; 1; 2; 3]%nat).

Fixpoint first_fat (index : nat) (ps : list (option Partition)) : option Volume :=
  match ps with
  | [] => None
  | Some p :: ps => if is_fat (kind p) then Some (InPartition index p) else first_fat (S index) ps
  | None :: ps => first_fat (S index) ps
  end.

Definition find_fat_volume (block0 : Block) : option Volume :=
  if is_fat_boot_sector block0 then Some WholeDisk
  else ps ← partitions block0; first_fat 0 ps.

Definition first_partition_start (block0 : Block) : option Lba :=
  if is_fat_boot_sector block0 then None
  else ps ← partitions block0;
       match start <$> omap id ps with
       | [] => None
       | s :: ss => Some (foldr Z.min s ss)
       end.

(** A volume found in the table starts within 32 bits, at or after the earliest partition. *)
Lemma first_fat_Some i ps v : first_fat i ps = Some v →
  ∃ j p, v = InPartition (i + j) p ∧ ps !! j = Some (Some p) ∧ is_fat (kind p) = true.
Proof.
  revert i. induction ps as [|[p|] ps IH]; intros i; cbn [first_fat]; [done| |].
  - destruct (is_fat (kind p)) eqn:E.
    + intros [= <-]. exists O, p. by rewrite Nat.add_0_r.
    + intros (j & q & -> & Hj & Hq)%IH. exists (S j), q. split_and!; [f_equal; lia|done|done].
  - intros (j & q & -> & Hj & Hq)%IH. exists (S j), q. split_and!; [f_equal; lia|done|done].
Qed.

Lemma partition_at_start block i p : is_bytes block → partition_at block i = Some p → uint 32 (start p).
Proof.
  intros Hb. unfold partition_at. case_match; [|done]. intros [= <-]. cbn [start].
  apply (le_value_uint 4); [auto with bytes|]. rewrite length_take. lia.
Qed.

Lemma volume_start_small block v : is_bytes block → find_fat_volume block = Some v → uint 32 (volume_start v).
Proof.
  intros Hb. unfold find_fat_volume. case_match; [by intros [= <-]|].
  intros (ps & Hps & (j & p & -> & Hj & _)%first_fat_Some)%bind_Some. cbn [volume_start].
  unfold partitions in Hps. case_match; [done|]. apply (inj Some) in Hps. subst ps.
  apply list_lookup_fmap_Some in Hj as (i & Hj & _). by eapply partition_at_start.
Qed.

Lemma foldr_min_le s ss x : x ∈ s :: ss → foldr Z.min s ss <= x.
Proof.
  intros H. apply elem_of_cons in H as [->|H].
  - induction ss as [|y ss IH]; cbn; lia.
  - induction ss as [|y ss IH]; [by apply elem_of_nil in H|]. cbn. apply elem_of_cons in H as [->|H]; [lia|].
    specialize (IH H). lia.
Qed.

Lemma first_partition_small block s : is_bytes block → first_partition_start block = Some s → uint 32 s.
Proof.
  intros Hb. unfold first_partition_start. case_match; [done|]. intros (ps & Hps & Hs)%bind_Some.
  assert (Hall : Forall (uint 32) (start <$> omap id ps)).
  { unfold partitions in Hps. destruct (negb _); [done|]. apply (inj Some) in Hps. subst ps.
    apply Forall_forall. intros x (p & -> & (o & Ho & E)%list_elem_of_omap)%list_elem_of_fmap.
    apply list_elem_of_fmap in Ho as (i & -> & _). by eapply partition_at_start. }
  destruct (start <$> omap id ps) as [|x xs]; [done|]. apply (inj Some) in Hs. subst s. apply Forall_cons in Hall as [Hx Hxs].
  induction Hxs as [|y ys Hy _ IH]; [done|]. cbn [foldr]. unfold uint in *. lia.
Qed.

Lemma volume_after_first_partition block i p : find_fat_volume block = Some (InPartition i p) →
  ∃ s, first_partition_start block = Some s ∧ s <= start p.
Proof.
  unfold find_fat_volume, first_partition_start. case_match; [done|].
  intros (ps & -> & (j & q & [= -> ->] & Hj & _)%first_fat_Some)%bind_Some. cbn [mbind option_bind].
  assert (Hin : start q ∈ start <$> omap id ps).
  { apply list_elem_of_fmap. exists q. split; [done|]. apply list_elem_of_omap. exists (Some q).
    split; [|done]. by eapply list_elem_of_lookup_2. }
  destruct (start <$> omap id ps) as [|s ss]; [by apply elem_of_nil in Hin|].
  eexists. split; [done|]. by apply foldr_min_le.
Qed.

End Mbr.
