(* ===== verification/SdCard.v ===== *)
(** The SD card driver ([src/drivers/sdcard.rs]): commands, transfers and initialisation, over the
    registers of [Mmio].  A method that changes the driver's fields gives back the changed record, which
    the code does only where it succeeds.  What the controller and the card do is in [SdHost]. *)
From S2P Require Import Prelude Bytes Text Effect Mmio Disk Firmware.
From stdpp Require Import strings.
Open Scope Z_scope.

Module SdCard.
Import Effect Text Mmio Mailbox Exchange Disk.

(** * Registers *)
Definition EMMC_BASE : Z := PERIPHERAL_BASE + 0x300000.
Definition BLKSIZECNT : Z := EMMC_BASE + 0x04.
Definition ARG1 : Z := EMMC_BASE + 0x08.
Definition CMDTM : Z := EMMC_BASE + 0x0C.
Definition RESP0 : Z := EMMC_BASE + 0x10.
Definition DATA : Z := EMMC_BASE + 0x20.
Definition STATUS : Z := EMMC_BASE + 0x24.
Definition CONTROL0 : Z := EMMC_BASE + 0x28.
Definition CONTROL1 : Z := EMMC_BASE + 0x2C.
Definition INTERRUPT : Z := EMMC_BASE + 0x30.
Definition IRPT_MASK : Z := EMMC_BASE + 0x34.
Definition IRPT_EN : Z := EMMC_BASE + 0x38.
Definition SLOTISR_VER : Z := EMMC_BASE + 0xFC.

Definition CMD_INHIBIT : Z := Z.shiftl 1 0.
Definition DAT_INHIBIT : Z := Z.shiftl 1 1.
Definition HCTL_DWIDTH_4 : Z := Z.shiftl 1 1.
Definition HCTL_HS_EN : Z := Z.shiftl 1 2.
Definition CLK_INTLEN : Z := Z.shiftl 1 0.
Definition CLK_STABLE : Z := Z.shiftl 1 1.
Definition CLK_EN : Z := Z.shiftl 1 2.
Definition CLK_DIVIDER_MASK : Z := 0xFFC0.
Definition DATA_TIMEOUT_MAX : Z := Z.shiftl 0xE 16.
Definition SRST_HC : Z := Z.shiftl 1 24.
Definition SRST_CMD : Z := Z.shiftl 1 25.
Definition SRST_DATA : Z := Z.shiftl 1 26.
Definition INT_CMD_DONE : Z := Z.shiftl 1 0.
Definition INT_DATA_DONE : Z := Z.shiftl 1 1.
Definition INT_WRITE_RDY : Z := Z.shiftl 1 4.
Definition INT_READ_RDY : Z := Z.shiftl 1 5.
Definition INT_ERROR : Z := Z.shiftl 1 15.
Definition INT_ALL : Z := 0xFFFFFFFF.
Definition TM_BLKCNT_EN : Z := Z.shiftl 1 1.
Definition TM_AUTO_CMD12 : Z := Z.shiftl 1 2.
Definition TM_MULTI_BLOCK : Z := Z.shiftl 1 5.
Definition CMD_RESPONSE_136 : Z := Z.shiftl 1 16.
Definition CMD_RESPONSE_48 : Z := Z.shiftl 2 16.
Definition CMD_RESPONSE_48_BUSY : Z := Z.shiftl 3 16.
Definition CMD_CRC_CHECK : Z := Z.shiftl 1 19.
Definition CMD_INDEX_CHECK : Z := Z.shiftl 1 20.
Definition CMD_DATA : Z := Z.shiftl 1 21.
Definition CMD_READ : Z := Z.shiftl 1 4.

Definition IDENTIFICATION_HZ : Z := 400000.
Definition TRANSFER_HZ : Z := 25000000.
Definition HIGH_SPEED_HZ : Z := 50000000.
Definition BUS_WIDTH_4 : Z := 2.
Definition SWITCH_HIGH_SPEED : Z := 0x80FFFFF1.
Definition SWITCH_STATUS_LEN : nat := 64.
Definition MAX_BLOCKS_PER_TRANSFER : Z := 0xFFFF.
Definition STATUS_READY_FOR_DATA : Z := Z.shiftl 1 8.
Definition STATUS_STATE_TRANSFER : Z := Z.shiftl 4 9.
Definition STATUS_STATE_MASK : Z := Z.shiftl 0xF 9.
Definition PROGRAMMING_TIMEOUT : Z := 1000000.
Definition IF_COND_ARG : Z := 0x1AA.
Definition OCR_VOLTAGE : Z := 0x00FF8000.
Definition OCR_HCS : Z := Z.shiftl 1 30.
Definition OCR_READY : Z := Z.shiftl 1 31.
Definition RESET_TIMEOUT : Z := 100000.
Definition COMMAND_TIMEOUT : Z := 100000.
Definition DATA_TIMEOUT : Z := 500000.
Definition POWER_UP_TIMEOUT : Z := 1000000.

(** * Commands *)
Inductive ResponseKind := NoResponse | Short | ShortBusy | ShortNoCheck | Long.
Inductive DataKind := NoData | ReadData | WriteData.

Record Command := mkCommand { index : Z; response : ResponseKind; data : DataKind; multi_block : bool }.

Definition Command_new (index : Z) (response : ResponseKind) : Command := mkCommand index response NoData false.
Definition reading (index : Z) : Command := mkCommand index Short ReadData false.
Definition writing (index : Z) : Command := mkCommand index Short WriteData false.

Definition encode (c : Command) : Z :=
  let response := match response c with
                  | NoResponse => 0
                  | Short => Z.lor (Z.lor CMD_RESPONSE_48 CMD_CRC_CHECK) CMD_INDEX_CHECK
                  | ShortBusy => Z.lor (Z.lor CMD_RESPONSE_48_BUSY CMD_CRC_CHECK) CMD_INDEX_CHECK
                  | ShortNoCheck => CMD_RESPONSE_48
                  | Long => Z.lor CMD_RESPONSE_136 CMD_CRC_CHECK
                  end in
  let data := match data c with
              | NoData => 0
              | ReadData => Z.lor CMD_DATA CMD_READ
              | WriteData => CMD_DATA
              end in
  let multi := if multi_block c then Z.lor (Z.lor TM_MULTI_BLOCK TM_BLKCNT_EN) TM_AUTO_CMD12 else 0 in
  Z.lor (Z.lor (Z.lor (Z.shiftl (index c) 24) response) data) multi.

Definition GO_IDLE_STATE := Command_new 0 NoResponse.
Definition ALL_SEND_CID := Command_new 2 Long.
Definition SEND_RELATIVE_ADDR := Command_new 3 Short.
Definition SELECT_CARD := Command_new 7 ShortBusy.
Definition SEND_IF_COND := Command_new 8 Short.
Definition SEND_CSD := Command_new 9 Long.
Definition SEND_STATUS := Command_new 13 Short.
Definition SET_BLOCKLEN := Command_new 16 Short.
Definition SWITCH_FUNC := reading 6.
Definition READ_SINGLE_BLOCK := reading 17.
Definition READ_MULTIPLE_BLOCK := mkCommand 18 Short ReadData true.
Definition STOP_TRANSMISSION := Command_new 12 ShortBusy.
Definition WRITE_BLOCK := writing 24.
Definition WRITE_MULTIPLE_BLOCK := mkCommand 25 Short WriteData true.
Definition APP_CMD := Command_new 55 Short.
Definition SET_BUS_WIDTH := Command_new 6 Short.
Definition SD_SEND_OP_COND := Command_new 41 ShortNoCheck.

Inductive SdError :=
| Timeout (what : list Z)
| CommandFailed (index interrupt : Z)
| BadIfCond (response : Z)
| Clock (error : MailboxError)
| NoClock
| OutOfRange (lba : Lba).

Record Card := mkCard {
  rca : Z; high_capacity : bool; blocks : option Z; base_clock : Z; bus_width : Z; clock_hz : Z }.

Definition with_rca r (c : Card) := mkCard r (high_capacity c) (blocks c) (base_clock c) (bus_width c) (clock_hz c).
Definition with_high_capacity hc (c : Card) := mkCard (rca c) hc (blocks c) (base_clock c) (bus_width c) (clock_hz c).
Definition with_blocks bs (c : Card) := mkCard (rca c) (high_capacity c) bs (base_clock c) (bus_width c) (clock_hz c).
Definition with_bus_width w (c : Card) := mkCard (rca c) (high_capacity c) (blocks c) (base_clock c) w (clock_hz c).
Definition with_clock_hz hz (c : Card) := mkCard (rca c) (high_capacity c) (blocks c) (base_clock c) (bus_width c) hz.

Definition bus (c : Card) : Z * Z := (bus_width c, clock_hz c).

(** Whether any of [bits] is set. *)
Definition any (x bits : Z) : bool := negb (Z.land x bits =? 0).

(** The CSD as the controller presents it is without its CRC byte. *)
Definition csd_register (response : list Z) : Z :=
  let value := Z.lor (Z.lor (Z.lor (Z.shiftl (response !!! 3%nat) 96) (Z.shiftl (response !!! 2%nat) 64))
                            (Z.shiftl (response !!! 1%nat) 32)) (response !!! 0%nat) in
  wrap 128 (Z.shiftl value 8).

(** [u32::next_power_of_two]. *)
Definition next_power_of_two (x : Z) : Z := if x <=? 1 then 1 else 2 ^ Z.log2_up x.

(** The divider [set_clock] chooses, for the controller's version. *)
Definition clock_divider (base_clock hz spec_version : Z) : Z :=
  let divider := (base_clock + 2 * hz - 1) / (2 * hz) in
  let divider := if spec_version <? 2 then Z.min (next_power_of_two divider) 0x80 else divider in
  Z.min divider 0x3FF.
Definition divider_bits (divider : Z) : Z :=
  Z.lor (Z.shiftl (Z.land divider 0xFF) 8) (Z.shiftl (Z.land (Z.shiftr divider 8) 0x3) 6).

Definition address (self : Card) (lba : Lba) : result SdError Z :=
  let address := if high_capacity self then lba else wrap 64 (lba * BLOCK_SIZE) in
  if address <? 2 ^ 32 then Ok address else Err (OutOfRange lba).

(** * The driver *)
Section driver.
Context {HW : Type} `{Mmio HW}.
Local Notation M := (Eff HW SdError).

Definition wait (what : list Z) (timeout_us : Z) (done : M bool) : M unit :=
  polling timeout_us (Timeout what) (b ← done : M bool; mret (if b : bool then Some tt else None)) (mret tt).

(** [write(r, f(read(r)))]. *)
Definition change (r : Z) (f : Z → Z) : M unit := v ← rd r; wr r (f v).

(** The closure keeps what it read in [interrupt]. *)
Definition wait_for (cmd : Command) (flag : Z) (what : list Z) (timeout_us : Z) : M unit :=
  interrupt ← polling timeout_us (Timeout what)
    (i ← rd INTERRUPT; mret (if any i (Z.lor flag INT_ERROR) then Some i else None)) (mret tt);
  if any interrupt INT_ERROR
  then _ ← wr INTERRUPT INT_ALL; fail (CommandFailed (index cmd) (Z.land interrupt 0xFFFF0000))
  else wr INTERRUPT flag.

Definition uses_data (cmd : Command) : bool :=
  match data cmd, response cmd with NoData, ShortBusy => true | NoData, _ => false | _, _ => true end.
Definition is_busy_response (cmd : Command) : bool := match response cmd with ShortBusy => true | _ => false end.

Definition command (cmd : Command) (arg : Z) : M (list Z) :=
  let busy := Z.lor CMD_INHIBIT (if uses_data cmd then DAT_INHIBIT else 0) in
  _ ← wait (str "command line") COMMAND_TIMEOUT (s ← rd STATUS; mret (negb (any s busy)));
  _ ← wr INTERRUPT INT_ALL;
  _ ← wr ARG1 arg;
  _ ← wr CMDTM (encode cmd);
  _ ← wait_for cmd INT_CMD_DONE (str "command") COMMAND_TIMEOUT;
  _ ← (if is_busy_response cmd then wait_for cmd INT_DATA_DONE (str "card busy") DATA_TIMEOUT else mret tt);
  r0 ← rd RESP0; r1 ← rd (RESP0 + 4); r2 ← rd (RESP0 + 8); r3 ← rd (RESP0 + 12);
  mret [r0; r1; r2; r3].

Definition reset_command_line : M unit :=
  _ ← change CONTROL1 (λ v, Z.lor v SRST_CMD);
  wait (str "command line reset") RESET_TIMEOUT (v ← rd CONTROL1; mret (negb (any v SRST_CMD))).

Definition reset_lines : M unit :=
  _ ← change CONTROL1 (λ v, Z.lor (Z.lor v SRST_CMD) SRST_DATA);
  wait (str "line reset") RESET_TIMEOUT (v ← rd CONTROL1; mret (negb (any v (Z.lor SRST_CMD SRST_DATA)))).

Definition set_clock (self : Card) (hz : Z) : M Card :=
  _ ← wait (str "idle lines") COMMAND_TIMEOUT (s ← rd STATUS; mret (negb (any s (Z.lor CMD_INHIBIT DAT_INHIBIT))));
  _ ← change CONTROL1 (λ v, Z.land v (bnot 32 CLK_EN));
  _ ← delay_us 10;
  version ← rd SLOTISR_VER;
  let spec_version := Z.land (Z.shiftr version 16) 0xFF in
  let divider := clock_divider (base_clock self) hz spec_version in
  _ ← change CONTROL1 (λ v, Z.lor (Z.land v (bnot 32 CLK_DIVIDER_MASK)) (divider_bits divider));
  _ ← delay_us 10;
  _ ← wait (str "clock to stabilise") COMMAND_TIMEOUT (v ← rd CONTROL1; mret (any v CLK_STABLE));
  _ ← change CONTROL1 (λ v, Z.lor v CLK_EN);
  _ ← delay_us 10;
  mret (with_clock_hz (base_clock self / (2 * Z.max divider 1)) self).

(** ** Data *)
Fixpoint read_words (n : nat) : M (list Z) :=
  match n with
  | O => mret []
  | S n => w ← rd DATA; ws ← read_words n; mret (le_bytes 4 w ++ ws)
  end.

Fixpoint write_words (buf : list Z) : M unit :=
  match buf with
  | a :: b :: c :: d :: buf => _ ← wr DATA (le_value [a; b; c; d]); write_words buf
  | _ => mret tt
  end.

(** The bytes of a buffer [len] long. *)
Definition read_data (cmd : Command) (len : nat) : M (list Z) :=
  _ ← wait_for cmd INT_READ_RDY (str "data") DATA_TIMEOUT;
  read_words (len / 4).

Definition write_data (cmd : Command) (buf : list Z) : M unit :=
  _ ← wait_for cmd INT_WRITE_RDY (str "room for data") DATA_TIMEOUT;
  write_words buf.

(** The card is ready for data, and in the transfer state. *)
Definition is_programmed (status : Z) : bool :=
  any status STATUS_READY_FOR_DATA && (Z.land status STATUS_STATE_MASK =? STATUS_STATE_TRANSFER).

Definition wait_until_programmed (self : Card) : M unit :=
  polling PROGRAMMING_TIMEOUT (Timeout (str "card to finish writing"))
    (r ← command SEND_STATUS (rca self); mret (if is_programmed (r !!! 0%nat) then Some tt else None)) (mret tt).

Definition block_count (n : nat) : Z := Z.lor (wrap 32 (Z.shiftl (wrap 32 (Z.of_nat n)) 16)) BLOCK_SIZE.

Definition read_one (self : Card) (lba : Lba) : M Block :=
  address ← lift (address self lba);
  _ ← wr BLKSIZECNT (block_count 1);
  _ ← command READ_SINGLE_BLOCK address;
  block ← read_data READ_SINGLE_BLOCK (Z.to_nat BLOCK_SIZE);
  _ ← wait_for READ_SINGLE_BLOCK INT_DATA_DONE (str "end of data") DATA_TIMEOUT;
  mret block.

Fixpoint read_each (cmd : Command) (n : nat) : M (list Block) :=
  match n with
  | O => mret []
  | S n => b ← read_data cmd (Z.to_nat BLOCK_SIZE); bs ← read_each cmd n; mret (b :: bs)
  end.

(** One multi-block command. *)
Definition read_run (self : Card) (lba : Lba) (n : nat) : M (list Block) :=
  address ← lift (address self lba);
  _ ← wr BLKSIZECNT (block_count n);
  _ ← command READ_MULTIPLE_BLOCK address;
  bs ← read_each READ_MULTIPLE_BLOCK n;
  _ ← wait_for READ_MULTIPLE_BLOCK INT_DATA_DONE (str "end of data") DATA_TIMEOUT;
  mret bs.

(** [fuel] is the number of blocks: each turn takes at least one. *)
Fixpoint read_chunks (fuel : nat) (self : Card) (lba : Lba) (n : nat) : M (list Block) :=
  match fuel, n with
  | S fuel, S _ =>
    let k := Nat.min (Z.to_nat MAX_BLOCKS_PER_TRANSFER) n in
    bs ← (if (k =? 1)%nat then b ← read_one self lba; mret [b] else read_run self lba k);
    rest ← read_chunks fuel self (offset lba (Z.of_nat k)) (n - k)%nat;
    mret (bs ++ rest)
  | _, _ => mret []
  end.
Definition read_many (self : Card) (lba : Lba) (n : nat) : M (list Block) := read_chunks n self lba n.

Definition write_one (self : Card) (lba : Lba) (block : Block) : M unit :=
  address ← lift (address self lba);
  _ ← wr BLKSIZECNT (block_count 1);
  _ ← command WRITE_BLOCK address;
  _ ← write_data WRITE_BLOCK block;
  _ ← wait_for WRITE_BLOCK INT_DATA_DONE (str "end of data") PROGRAMMING_TIMEOUT;
  wait_until_programmed self.

Fixpoint write_each (cmd : Command) (bs : list Block) : M unit :=
  match bs with
  | [] => mret tt
  | b :: bs => _ ← write_data cmd b; write_each cmd bs
  end.

Definition write_run (self : Card) (lba : Lba) (bs : list Block) : M unit :=
  address ← lift (address self lba);
  _ ← wr BLKSIZECNT (block_count (length bs));
  _ ← command WRITE_MULTIPLE_BLOCK address;
  _ ← write_each WRITE_MULTIPLE_BLOCK bs;
  _ ← wait_for WRITE_MULTIPLE_BLOCK INT_DATA_DONE (str "end of data") PROGRAMMING_TIMEOUT;
  wait_until_programmed self.

Definition write_chunk (self : Card) (lba : Lba) (chunk : list Block) : M unit :=
  match chunk with [block] => write_one self lba block | _ => write_run self lba chunk end.

Fixpoint write_chunks (fuel : nat) (self : Card) (lba : Lba) (bs : list Block) : M unit :=
  match fuel, bs with
  | S fuel, _ :: _ =>
    let chunk := take (Z.to_nat MAX_BLOCKS_PER_TRANSFER) bs in
    _ ← write_chunk self lba chunk;
    write_chunks fuel self (offset lba (Z.of_nat (length chunk))) (drop (Z.to_nat MAX_BLOCKS_PER_TRANSFER) bs)
  | _, _ => mret tt
  end.
Definition write_many (self : Card) (lba : Lba) (bs : list Block) : M unit := write_chunks (length bs) self lba bs.

(** Runs a transfer; if it fails the controller's lines are reset and the card told to stop. *)
Definition transfer {A} (f : M A) : M A :=
  result ← catch f;
  _ ← (match result with
       | Err _ => _ ← catch reset_lines; _ ← catch (command STOP_TRANSMISSION 0); _ ← catch reset_lines; mret tt
       | Ok _ => mret tt
       end);
  lift result.

Definition read_block (self : Card) (lba : Lba) : M Block := transfer (read_one self lba).
Definition read_blocks (self : Card) (lba : Lba) (n : nat) : M (list Block) := transfer (read_many self lba n).
Definition write_block (self : Card) (lba : Lba) (block : Block) : M unit := transfer (write_one self lba block).
Definition write_blocks (self : Card) (lba : Lba) (bs : list Block) : M unit := transfer (write_many self lba bs).

(** ** Initialisation *)
Definition use_4_bit_bus (self : Card) : M Card :=
  _ ← command APP_CMD (rca self);
  _ ← command SET_BUS_WIDTH BUS_WIDTH_4;
  _ ← change CONTROL0 (λ v, Z.lor v HCTL_DWIDTH_4);
  mret (with_bus_width 4 self).

Definition use_high_speed (self : Card) : M Card :=
  _ ← wr BLKSIZECNT (Z.lor (Z.shiftl 1 16) (Z.of_nat SWITCH_STATUS_LEN));
  _ ← command SWITCH_FUNC SWITCH_HIGH_SPEED;
  status ← read_data SWITCH_FUNC SWITCH_STATUS_LEN;
  _ ← wait_for SWITCH_FUNC INT_DATA_DONE (str "end of switch status") DATA_TIMEOUT;
  if negb (Z.land (status !!! 16%nat) 0xF =? 1) then mret self else
  _ ← change CONTROL0 (λ v, Z.lor v HCTL_HS_EN);
  set_clock self HIGH_SPEED_HZ.

Fixpoint take_pins (pins : list Z) : M unit :=
  match pins with
  | [] => mret tt
  | n :: pins =>
    pin ← unwrap (Pin_new n);
    _ ← set_pin_mode pin Alt3;
    _ ← set_pin_pull pin (if number pin =? 48 then Off else Up);
    take_pins pins
  end.

(** Whether the card is of version 2: those echo the check pattern, older ones do not answer. *)
Definition check_version (r : result SdError (list Z)) : M bool :=
  match r with
  | Ok r => if Z.land (r !!! 0%nat) 0xFFF =? IF_COND_ARG then mret true else fail (BadIfCond (r !!! 0%nat))
  | Err (CommandFailed _ _) => _ ← reset_command_line; mret false
  | Err e => fail e
  end.

Definition power_up (ocr_request : Z) : M Z :=
  polling POWER_UP_TIMEOUT (Timeout (str "card power-up"))
    (_ ← command APP_CMD 0; r ← command SD_SEND_OP_COND ocr_request;
     mret (if any (r !!! 0%nat) OCR_READY then Some (r !!! 0%nat) else None))
    (delay_us 10000).

(** A speed-up the card may turn down. *)
Definition optionally (self : Card) (speed_up : M Card) (recover : M unit) : M Card :=
  r ← catch speed_up;
  match r with Ok self => mret self | Err _ => _ ← recover; mret self end.

(** [call]: how a message of properties gets to the firmware and its answer back. *)
Definition init_on (call : list Z → M (list Z)) : M Card :=
  _ ← take_pins (seqZ 48 6);
  answer ← query_on GetClockRate call [EMMC];
  words ← (match answer with Ok words => mret words | Err e => fail (Clock e) end : M (list Z));
  let base_clock := words !!! 1%nat in
  if base_clock =? 0 then fail NoClock else
  let self := mkCard 0 false None base_clock 1 0 in
  _ ← wr CONTROL0 0;
  _ ← change CONTROL1 (λ v, Z.lor v SRST_HC);
  _ ← wait (str "controller reset") RESET_TIMEOUT (v ← rd CONTROL1; mret (negb (any v SRST_HC)));
  _ ← change CONTROL1 (λ v, Z.lor (Z.lor v CLK_INTLEN) DATA_TIMEOUT_MAX);
  self ← set_clock self IDENTIFICATION_HZ;
  _ ← wr IRPT_EN 0;
  _ ← wr IRPT_MASK INT_ALL;
  _ ← wr INTERRUPT INT_ALL;
  _ ← command GO_IDLE_STATE 0;
  if_cond ← catch (command SEND_IF_COND IF_COND_ARG);
  version2 ← check_version if_cond;
  ocr ← power_up (Z.lor OCR_VOLTAGE (if (version2 : bool) then OCR_HCS else 0));
  let self := with_high_capacity (any ocr OCR_HCS) self in
  _ ← command ALL_SEND_CID 0;
  r ← command SEND_RELATIVE_ADDR 0;
  let self := with_rca (Z.land (r !!! 0%nat) 0xFFFF0000) self in
  csd ← command SEND_CSD (rca self);
  let self := with_blocks (Sd.capacity_blocks (csd_register csd)) self in
  _ ← command SELECT_CARD (rca self);
  self ← set_clock self TRANSFER_HZ;
  _ ← (if high_capacity self then mret [] else command SET_BLOCKLEN BLOCK_SIZE);
  self ← optionally self (use_4_bit_bus self) reset_command_line;
  optionally self (use_high_speed self) reset_lines.

(** With [mailbox], how the firmware answers, its answer there at once. *)
Definition init (mailbox : list Z → list Z) : M Card := init_on (λ m, mret (mailbox m)).
End driver.

End SdCard.
