(* ===== verification/SdTime.v ===== *)
(** The SD card driver always comes back: every call ends within a bounded time, whatever the controller
    and the card do, and no call panics; initialising also waits for the firmware, for as long as that takes.  Theorems about SdCard, from the clock of [Mmio.Clocked] alone. *)
From S2P Require Import Prelude Bytes Text Effect Mmio Disk Firmware SdCard.
From stdpp Require Import strings.
Open Scope Z_scope.

Module SdTime.
Import Effect Text Mmio Mailbox Exchange Disk SdCard.

Section calls.
Context {HW : Type} `{Clocked HW}.
Local Notation M := (Eff HW SdError).

Lemma takes_change r f : takes (change r f : M unit) (span 0 2).
Proof. unfold change. takes. Qed.
Hint Resolve takes_change : takes.

Lemma takes_wait what t (done : M bool) : 0 <= t < 2 ^ 62 → takes done latency → takes (wait what t done) (span (t + 1) 19).
Proof.
  intros Ht Hd. unfold wait. pose proof (scaled t Ht). eapply takes_le.
  - apply takes_polling; [takes_go|apply takes_ret|lia|]. span_lia.
  - span_lia.
Qed.

Lemma takes_wait_for cmd flag what t : 0 <= t < 2 ^ 62 → takes (wait_for cmd flag what t) (span (t + 1) 21).
Proof.
  intros Ht. unfold wait_for. pose proof (scaled t Ht). eapply takes_le.
  - eapply takes_bind; [apply takes_polling; [takes_go|apply takes_ret|lia|span_lia]| |].
    + intros i. apply (takes_le _ latency); [|reflexivity]. destruct (any _ _); [|apply takes_wr].
      eapply takes_le; [takes_go|lia].
    + span_lia.
  - span_lia.
Qed.

Lemma takes_polled (t : Z) (ask : M bool) : takes ask latency →
  takes (b ← ask; mret (if b : bool then Some tt else None)) (latency + 0).
Proof. intros Ha. eapply takes_bind; [exact Ha|intros; apply takes_ret|done]. Qed.

Lemma takes_test (r : Z) (f : Z → bool) : takes (v ← rd r; mret (f v) : M bool) latency.
Proof. eapply takes_le; [takes_go|lia]. Qed.
Hint Resolve takes_test : takes.

Lemma takes_command cmd arg : takes (command cmd arg : M (list Z)) (span 700003 70).
Proof.
  unfold command. assert (Hw1 : ∀ f what, takes (wait_for cmd f what COMMAND_TIMEOUT : M unit) (span 100001 21)).
  { intros. apply takes_wait_for. split; vm_compute; congruence. }
  assert (Hw2 : takes (if is_busy_response cmd then wait_for cmd INT_DATA_DONE (str "card busy") DATA_TIMEOUT else mret tt : M unit)
    (span 500001 21)).
  { destruct (is_busy_response cmd); [apply takes_wait_for; split; vm_compute; congruence|].
    eapply takes_le; [apply takes_ret|span_lia]. }
  assert (Hw3 : ∀ what f, takes (wait what COMMAND_TIMEOUT (v ← rd STATUS; mret (f v)) : M unit) (span 100001 19)).
  { intros. apply takes_wait; [split; vm_compute; congruence|apply takes_test]. }
  takes.
Qed.

Lemma takes_reset (f : Z → Z) what g :
  takes (_ ← change CONTROL1 f; wait what RESET_TIMEOUT (v ← rd CONTROL1; mret (g v)) : M unit) (span 100001 21).
Proof.
  assert (Hw : takes (wait what RESET_TIMEOUT (v ← rd CONTROL1; mret (g v)) : M unit) (span 100001 19)).
  { apply takes_wait; [split; vm_compute; congruence|apply takes_test]. }
  takes.
Qed.

Lemma takes_read_words n : takes (read_words n : M (list Z)) (span 0 (Z.of_nat n)).
Proof. induction n as [|n IH]; cbn [read_words]; takes. Qed.

Lemma takes_write_words buf : takes (write_words buf : M unit) (span 0 (Z.of_nat (length buf))).
Proof.
  cut (∀ n, (length buf ≤ n)%nat → takes (write_words buf : M unit) (span 0 (Z.of_nat (length buf)))); [eauto|].
  intros n. revert buf. induction n as [|n IH]; intros [|a [|b [|c [|d buf]]]] Hn; cbn [write_words length] in *; try lia;
    try (eapply takes_le; [apply takes_ret|span_lia]).
  specialize (IH buf ltac:(lia)). takes.
Qed.
Hint Resolve takes_command takes_read_words takes_write_words : takes.

Lemma takes_data_wait cmd flag what t : t = DATA_TIMEOUT ∨ t = PROGRAMMING_TIMEOUT →
  takes (wait_for cmd flag what t : M unit) (span (t + 1) 21).
Proof. intros [-> | ->]; apply takes_wait_for; split; vm_compute; congruence. Qed.

Lemma takes_read_data cmd : takes (read_data cmd (Z.to_nat BLOCK_SIZE) : M (list Z)) (span 500001 149).
Proof.
  unfold read_data. pose proof (takes_data_wait cmd INT_READ_RDY (str "data") _ (or_introl eq_refl)) as Hw.
  change (DATA_TIMEOUT + 1) with 500001 in Hw. change (Z.to_nat BLOCK_SIZE / 4)%nat with 128%nat.
  pose proof (takes_read_words 128) as Hr. takes.
Qed.

Lemma takes_write_data cmd (b : Block) : length b = 512%nat → takes (write_data cmd b : M unit) (span 500001 533).
Proof.
  intros Hb. unfold write_data. pose proof (takes_data_wait cmd INT_WRITE_RDY (str "room for data") _ (or_introl eq_refl)) as Hw.
  change (DATA_TIMEOUT + 1) with 500001 in Hw. pose proof (takes_write_words b) as Hr. rewrite Hb in Hr. takes.
Qed.

Lemma takes_programmed self : takes (wait_until_programmed self : M unit) (span 1700004 88).
Proof.
  unfold wait_until_programmed. eapply takes_le.
  - apply takes_polling; [takes_go|apply takes_ret|by vm_compute|unfold PROGRAMMING_TIMEOUT; span_lia].
  - unfold PROGRAMMING_TIMEOUT. span_lia.
Qed.
Hint Resolve takes_read_data takes_programmed : takes.

Lemma takes_end cmd what : takes (wait_for cmd INT_DATA_DONE what DATA_TIMEOUT : M unit) (span 500001 21).
Proof. apply (takes_data_wait cmd INT_DATA_DONE what DATA_TIMEOUT). by left. Qed.

Lemma takes_end_write cmd what : takes (wait_for cmd INT_DATA_DONE what PROGRAMMING_TIMEOUT : M unit) (span 1000001 21).
Proof. apply (takes_data_wait cmd INT_DATA_DONE what PROGRAMMING_TIMEOUT). by right. Qed.
Hint Resolve takes_end takes_end_write : takes.

Lemma takes_read_one self lba : takes (read_one self lba : M Block) (span 1700005 241).
Proof. unfold read_one. takes. Qed.

Lemma takes_read_each cmd n : takes (read_each cmd n : M (list Block)) (Z.of_nat n * span 500001 149).
Proof. induction n as [|n IH]; cbn [read_each]; [eapply takes_le; [apply takes_ret|lia]|]. takes. Qed.

Lemma takes_read_run self lba n : takes (read_run self lba n : M (list Block)) (span 1200004 92 + Z.of_nat n * span 500001 149).
Proof. unfold read_run. pose proof (takes_read_each READ_MULTIPLE_BLOCK n). takes. Qed.

Lemma takes_write_one self lba (b : Block) : length b = 512%nat → takes (write_one self lba b : M unit) (span 3900009 713).
Proof. intros Hb. unfold write_one. pose proof (takes_write_data WRITE_BLOCK b Hb). takes. Qed.

Lemma takes_write_each cmd bs : Forall is_block bs →
  takes (write_each cmd bs : M unit) (Z.of_nat (length bs) * span 500001 533).
Proof.
  induction 1 as [|b bs [Hb _] _ IH]; cbn [write_each length]; [eapply takes_le; [apply takes_ret|lia]|].
  pose proof (takes_write_data cmd b Hb). takes.
Qed.

Lemma takes_write_run self lba bs : Forall is_block bs →
  takes (write_run self lba bs : M unit) (span 3400008 180 + Z.of_nat (length bs) * span 500001 533).
Proof. intros Hb. unfold write_run. pose proof (takes_write_each WRITE_MULTIPLE_BLOCK bs Hb). takes. Qed.

(** A transfer that fails takes a reset, a command and another reset more. *)
Lemma takes_transfer {A} (f : M A) c : takes f c → takes (transfer f) (c + span 900005 112).
Proof.
  intros Hf. pose proof (proj1 Hf). unfold transfer. assert (Hr : takes (_ ← catch reset_lines; _ ← catch (command STOP_TRANSMISSION 0);
    _ ← catch reset_lines; mret tt : M unit) (span 900005 112)).
  { assert (Hl : takes (catch reset_lines : M _) (span 100001 21)) by apply takes_catch, takes_reset.
    assert (Hc : takes (catch (command STOP_TRANSMISSION 0) : M _) (span 700003 70)) by apply takes_catch, takes_command.
    takes. }
  apply takes_bind; [by apply takes_catch| |by apply span_pos].
  intros r. rewrite <-(Z.add_0_r (span _ _)). apply takes_bind; [|intros; apply takes_lift|done].
  destruct r; [|exact Hr]. eapply takes_le; [apply takes_ret|span_lia].
Qed.

Lemma takes_read_chunks fuel self lba n :
  takes (read_chunks fuel self lba n : M (list Block)) (Z.of_nat n * span 1700005 241).
Proof.
  revert lba n. induction fuel as [|fuel IH]; intros lba [|n]; cbn [read_chunks];
    try (eapply takes_le; [apply takes_ret|pose proof (span_pos 1700005 241); nia]).
  set (k := Nat.min (Z.to_nat MAX_BLOCKS_PER_TRANSFER) (S n)).
  assert (Hk : (1 ≤ k ≤ S n)%nat) by (unfold k, MAX_BLOCKS_PER_TRANSFER; lia). clearbody k.
  eapply takes_le; [eapply (takes_bind _ _ (Z.of_nat k * span 1700005 241) (Z.of_nat (S n - k) * span 1700005 241))|].
  - pose proof (takes_read_one self lba). pose proof (takes_read_run self lba k).
    destruct (Nat.eqb_spec k 1) as [->|]; [takes|]. eapply takes_le; [eassumption|].
    pose proof (span_pos 1200004 92). replace (span 1700005 241) with (span 1200004 92 + span 500001 149) by (unfold span; lia). nia.
  - intros bs. specialize (IH (offset lba (Z.of_nat k)) (S n - k)%nat). takes.
  - pose proof (span_pos 1700005 241). nia.
  - rewrite <-Z.mul_add_distr_r. replace (Z.of_nat k + Z.of_nat (S n - k)) with (Z.of_nat (S n)) by lia. done.
Qed.

Lemma takes_write_chunks fuel self lba bs : Forall is_block bs →
  takes (write_chunks fuel self lba bs : M unit) (Z.of_nat (length bs) * span 3900009 713).
Proof.
  revert lba bs. induction fuel as [|fuel IH]; intros lba [|b bs] Hb; cbn [write_chunks];
    try (eapply takes_le; [apply takes_ret|pose proof (span_pos 3900009 713); nia]).
  set (m := Z.to_nat MAX_BLOCKS_PER_TRANSFER). assert (Hm : (1 ≤ m)%nat) by (unfold m, MAX_BLOCKS_PER_TRANSFER; lia). clearbody m.
  remember (b :: bs) as l eqn:El. assert (Hl : (1 ≤ length l)%nat) by (subst; cbn; lia). clear El b bs.
  pose proof (length_take l m) as Ht. pose proof (length_drop l m) as Hd.
  assert (Hbt : Forall is_block (take m l)) by by apply Forall_take.
  assert (Hbd : Forall is_block (drop m l)) by by apply Forall_drop.
  specialize (IH (offset lba (Z.of_nat (length (take m l)))) _ Hbd). rewrite Hd in IH.
  eapply takes_le; [eapply (takes_bind _ _ (Z.of_nat (length (take m l)) * span 3900009 713)); [|intros _; exact IH|]|].
  - assert (Hrun := takes_write_run self lba (take m l) Hbt). unfold write_chunk.
    destruct (take m l) as [|b1 [|b2 bs]] eqn:Et; [cbn in Ht; lia| |].
    + eapply takes_le; [apply takes_write_one, (Forall_cons_1 _ _ _ Hbt)|cbn [length]; span_lia].
    + eapply takes_le; [exact Hrun|]. pose proof (span_pos 3400008 180).
      replace (span 3900009 713) with (span 3400008 180 + span 500001 533) by (unfold span; lia). nia.
  - pose proof (span_pos 3900009 713). nia.
  - rewrite <-Z.mul_add_distr_r. replace (Z.of_nat (length (take m l)) + Z.of_nat (length l - m)) with (Z.of_nat (length l)) by lia. done.
Qed.

(** ** Initialisation *)
Lemma takes_delay_short us : 0 <= us <= 10000 → takes (delay_us us : M unit) (span (us + 1) 18).
Proof. intros Hus. eapply takes_le; [apply takes_delay; lia|span_lia]. Qed.

Lemma takes_set_clock self hz : takes (set_clock self hz : M Card) (span 200035 99).
Proof.
  unfold set_clock. assert (Hw : ∀ what r f, takes (wait what COMMAND_TIMEOUT (v ← rd r; mret (f v)) : M unit) (span 100001 19)).
  { intros. apply takes_wait; [split; vm_compute; congruence|apply takes_test]. }
  pose proof (takes_delay_short 10 ltac:(lia)) as Hd. takes.
Qed.
Hint Resolve takes_set_clock : takes.

Lemma takes_use_4_bit self : takes (use_4_bit_bus self : M Card) (span 1400006 142).
Proof. unfold use_4_bit_bus. takes. Qed.

Lemma takes_use_high_speed self : takes (use_high_speed self : M Card) (span 1900040 245).
Proof.
  unfold use_high_speed. assert (Hr : takes (read_data SWITCH_FUNC SWITCH_STATUS_LEN : M _) (span 500001 37)).
  { unfold read_data. pose proof (takes_data_wait SWITCH_FUNC INT_READ_RDY (str "data") _ (or_introl eq_refl)) as Hw.
    change (DATA_TIMEOUT + 1) with 500001 in Hw. change (SWITCH_STATUS_LEN / 4)%nat with 16%nat.
    pose proof (takes_read_words 16) as Hrw. takes. }
  assert (Hi : ∀ status : list Z, takes (if negb (Z.land (status !!! 16%nat) 0xF =? 1) then mret self else
    _ ← change CONTROL0 (λ v, Z.lor v HCTL_HS_EN); set_clock self HIGH_SPEED_HZ : M Card) (span 200035 101)).
  { intros. destruct (negb _); [eapply takes_le; [apply takes_ret|span_lia]|takes]. }
  takes.
Qed.

Lemma takes_optionally self f (r : M unit) us n : takes f (span us n) → takes r (span 100001 21) →
  takes (optionally self f r : M Card) (span (us + 100001) (n + 21)).
Proof.
  intros Hf Hr. unfold optionally. eapply takes_le; [eapply (takes_bind _ _ _ (span 100001 21)); [by apply takes_catch| |]|].
  - intros [c|e]; [eapply takes_le; [apply takes_ret|span_lia]|takes].
  - span_lia.
  - span_lia.
Qed.

Lemma takes_power_up req : takes (power_up req : M Z) (span 2410008 176).
Proof.
  unfold power_up. pose proof (takes_delay_short 10000 ltac:(lia)) as Hd. eapply takes_le.
  - apply takes_polling; [takes_go|exact Hd|by vm_compute|unfold POWER_UP_TIMEOUT; span_lia].
  - unfold POWER_UP_TIMEOUT. span_lia.
Qed.

Lemma takes_check_version r : takes (check_version r : M bool) (span 100001 21).
Proof.
  assert (Hr : takes reset_command_line (span 100001 21) ) by apply takes_reset.
  destruct r as [r|[]]; cbn [check_version]; [destruct (_ =? _)|..];
    try (eapply takes_le; [apply takes_ret || apply takes_fail|span_lia]). takes.
Qed.

Lemma takes_pins pins : Forall (λ n, n < 54) pins → takes (take_pins pins : M unit) (span 0 (5 * Z.of_nat (length pins))).
Proof.
  induction 1 as [|n pins Hn _ IH]; cbn [take_pins length]; [eapply takes_le; [apply takes_ret|span_lia]|].
  unfold Pin_new. rewrite (proj2 (Z.ltb_lt _ _) Hn). cbn [unwrap].
  assert (Hm : ∀ pin mode, takes (set_pin_mode pin mode : M unit) (span 0 2)) by (intros; unfold set_pin_mode; takes).
  assert (Hp : ∀ pin mode, takes (set_pin_pull pin mode : M unit) (span 0 3)) by (intros; unfold set_pin_pull; takes).
  takes.
Qed.
Hint Resolve takes_power_up takes_check_version : takes.

Lemma takes_init_on call firmware c : (∀ m, takes (call m : M (list Z)) c) → (∀ m h, post (call m : M _) h (λ _ r, r = firmware m) (λ _ _, True)) →
  query GetClockRate firmware [EMMC] ≠ None → takes (init_on call : M Card) (c + span 16000000 2000).
Proof.
  intros Hcall Hans Hq. unfold init_on. pose proof (takes_pins (seqZ 48 6) ltac:(repeat constructor; lia)) as Hp.
  change (length (seqZ 48 6)) with 6%nat in Hp.
  pose proof (takes_query_on GetClockRate call c firmware [EMMC] Hcall Hans Hq) as Hquery. assert (Hc0 : 0 <= c) by apply Hquery.
  assert (Ha : ∀ answer, takes (match answer with Ok words => mret words | Err e => fail (Clock e) end : M (list Z)) 0)
    by (intros []; [apply takes_ret|apply takes_fail]).
  assert (Hw : ∀ f, takes (wait (str "controller reset") RESET_TIMEOUT (v ← rd CONTROL1; mret (f v)) : M unit) (span 100001 19)).
  { intros. apply takes_wait; [split; vm_compute; congruence|apply takes_test]. }
  assert (Hc : takes (catch (command SEND_IF_COND IF_COND_ARG) : M _) (span 700003 70)) by apply takes_catch, takes_command.
  assert (Hb : ∀ self : Card, takes (if high_capacity self then mret [] else command SET_BLOCKLEN BLOCK_SIZE : M (list Z)) (span 700003 70)).
  { intros. destruct (high_capacity _); [eapply takes_le; [apply takes_ret|span_lia]|apply takes_command]. }
  assert (Ho1 : ∀ self, takes (optionally self (use_4_bit_bus self) reset_command_line : M Card) (span 1500007 163)).
  { intros. apply (takes_optionally _ _ _ 1400006 142); [apply takes_use_4_bit|apply takes_reset]. }
  assert (Ho2 : ∀ self, takes (optionally self (use_high_speed self) reset_lines : M Card) (span 2000041 266)).
  { intros. apply (takes_optionally _ _ _ 1900040 245); [apply takes_use_high_speed|apply takes_reset]. }
  apply (takes_le _ (span 0 30 + (c + (0 + span 15999999 1970)))); [|span_lia].
  eapply takes_bind; [exact Hp| |span_lia]. intros _. eapply takes_bind; [exact Hquery| |span_lia]. intros a.
  eapply takes_bind; [apply Ha| |span_lia]. intros words. cbv zeta.
  destruct (words !!! 1%nat =? 0); [eapply takes_le; [apply takes_fail|span_lia]|]. takes.
Qed.

Lemma takes_init mailbox : query GetClockRate mailbox [EMMC] ≠ None → takes (init mailbox : M Card) (span 16000000 2000).
Proof. intros Hq. apply (takes_init_on _ mailbox 0); [intros; apply takes_ret|done|done]. Qed.

(** ** The calls of the block device *)
Lemma takes_read_block self lba : takes (read_block self lba : M _) (span 2600010 353).
Proof. eapply takes_le; [apply takes_transfer, takes_read_one|span_lia]. Qed.

Lemma takes_read_blocks self lba n :
  takes (read_blocks self lba n : M _) (Z.of_nat n * span 1700005 241 + span 900005 112).
Proof. apply takes_transfer, takes_read_chunks. Qed.

Lemma takes_write_block self lba b : is_block b → takes (write_block self lba b : M _) (span 4800014 825).
Proof. intros [Hb _]. eapply takes_le; [by apply takes_transfer, takes_write_one|span_lia]. Qed.

Lemma takes_write_blocks self lba bs : Forall is_block bs →
  takes (write_blocks self lba bs : M _) (Z.of_nat (length bs) * span 3900009 713 + span 900005 112).
Proof. intros Hbs. by apply takes_transfer, takes_write_chunks. Qed.

(** C26: Every call of the SD card driver that reads or writes comes back, within a time that is known beforehand, and
    none panics, whatever the controller and the card answer: for a block 2.6 seconds to read and 4.8 to write, and
    the time of so many register accesses.  Only the clock is relied on.  Initialising takes 16 seconds
    besides the exchange of one message with the firmware, which the driver waits for without a limit of its own
    ([silent_firmware_is_waited_for]): if that takes at most [c] and the answer is a message, initialising takes
    16 seconds more. *)
Theorem card_calls_end self lba :
  takes (read_block self lba : M _) (span 2600010 353) ∧
  (∀ n, takes (read_blocks self lba n : M _) (Z.of_nat n * span 1700005 241 + span 900005 112)) ∧
  (∀ b, is_block b → takes (write_block self lba b : M _) (span 4800014 825)) ∧
  (∀ bs, Forall is_block bs →
     takes (write_blocks self lba bs : M _) (Z.of_nat (length bs) * span 3900009 713 + span 900005 112)) ∧
  ∀ patience at_ firmware c, (∀ m, takes (exchange patience at_ firmware m : M _) c) →
    query GetClockRate firmware [EMMC] ≠ None → takes (init_on (exchange patience at_ firmware) : M _) (c + span 16000000 2000).
Proof.
  split_and!; [apply takes_read_block|intros; apply takes_read_blocks|intros; by apply takes_write_block|
    intros; by apply takes_write_blocks|].
  intros p at_ firmware c Hc Hq. by apply (takes_init_on _ firmware); [|intros; apply exchange_answers|].
Qed.
End calls.
End SdTime.
