(* ===== verification/SdHost.v ===== *)
(** What the SD card driver relies on of the controller and the card, and that with it the driver is the
    block device the file system relies on.

    The hardware is any type with registers ([Mmio.Mmio]).  What the SDHCI and SD specifications document
    of it is the class [SdSlot], stated on an abstract view of its state: the registers that matter, the
    data transfer under way ([Stage]), and what is stored on the card.  Between two accesses the hardware
    may go on by itself ([evolves]): the card takes blocks it has received in full, one after the other,
    and buffers fill and empty.  Commands start and end transfers when the controller reports them done
    ([begins]).  Errors and time-outs may come at any moment and leave everything where it was. *)
From S2P Require Import Prelude Bytes Text Effect Mmio Disk Firmware SdCard SdTime.
From stdpp Require Import strings.
Open Scope Z_scope.

Module SdHost.
Import Effect Text Mailbox Mmio Disk SdCard SdTime.

(** * The hardware's state as the specifications have it *)

(** The data transfer under way.  [Receive]: blocks on their way from the card, the first of them partly
    read, and whether it is in the controller's buffer.  [Send]: where the blocks go, how many are
    announced, the bytes sent so far, the number of blocks the card has stored, and whether there is room
    in the buffer. *)
Inductive Stage :=
| Quiet
| Receive (blocks : list (list Z)) (ready : bool)
| Send (lba : Lba) (count : nat) (got : list Z) (taken : nat) (room : bool).

Record Ctl := mkCtl { size : Z; arg : Z; issued : option Z; resp : Z; stage : Stage }.

(** Blocks [m] to [m'] of what was sent. *)
Definition sent_blocks (got : list Z) (m m' : nat) : list Block :=
  (λ i, take 512 (drop (i * 512) got)) <$> seq m (m' - m).

(** What may happen of itself. *)
Definition evolves (st : Stage) (c : Lba → Block) (st' : Stage) (c' : Lba → Block) : Prop :=
  match st with
  | Quiet => st' = Quiet ∧ ∀ k, c' k = c k
  | Receive bs ready =>
      (∀ k, c' k = c k) ∧ ((∃ ready', st' = Receive bs ready' ∧ (ready = true → ready' = true)) ∨ bs = [] ∧ st' = Quiet)
  | Send l n got m room =>
      ∃ m' room', st' = Send l n got m' room' ∧ (room = true → room' = true) ∧
        (m ≤ m')%nat ∧ (m' = m ∨ m' * 512 ≤ length got)%nat ∧
        ∀ k, c' k = overlay (l + Z.of_nat m) (sent_blocks got m m') c k
  end.

(** ** Commands, as the controller sees them in CMDTM *)
Definition cmd_index (cmd : Z) : Z := Z.land (Z.shiftr cmd 24) 63.
Definition is_data (cmd : Z) : bool := Z.testbit cmd 21.
Definition is_read (cmd : Z) : bool := Z.testbit cmd 4.
Definition is_multi (cmd : Z) : bool := Z.testbit cmd 5.
Definition writes_data (cmd : Z) : bool := is_data cmd && negb (is_read cmd).

(** BLKSIZECNT: bytes of a block, and how many blocks. *)
Definition block_size (size : Z) : Z := Z.land size 0x3FF.
Definition blocks_of (cmd size : Z) : nat := if is_multi cmd then Z.to_nat (Z.shiftr size 16) else 1%nat.

(** The bits of the card status that report an error: 31 to 26, 24 to 19, 16, 15, 13 and 3. *)
Definition STATUS_ERRORS : Z := 0xFDF9A008.

Section begins.
Context (block_addressed : bool).

Definition target (arg : Z) : Lba := if block_addressed then arg else arg / BLOCK_SIZE.

(** What a command that is done has started: [r] is the card's response, [c] what it stores. *)
Definition begins (cmd arg size r : Z) (c : Lba → Block) (st st' : Stage) : Prop :=
  if is_data cmd then
    if is_read cmd then
      ∃ bs, st' = Receive bs false ∧
        (cmd_index cmd = 17 ∨ cmd_index cmd = 18 → block_size size = BLOCK_SIZE →
           bs = (λ i, c (target arg + Z.of_nat i)) <$> seq 0 (blocks_of cmd size))
    else block_size size = BLOCK_SIZE → st' = Send (target arg) (blocks_of cmd size) [] 0 false
  else if cmd_index cmd =? 12 then st' = Quiet
  else if cmd_index cmd =? 13 then
    if is_programmed r then
      st' = Quiet ∧ (Z.land r STATUS_ERRORS = 0 →
        match st with Send _ _ got m _ => m = (length got / 512)%nat | _ => True end)
    else st' = st
  else st' = st ∧ (cmd_index cmd = 41 → any r OCR_READY = true → any r OCR_HCS = block_addressed).
End begins.

(** What the interrupt flags tell of the transfer. *)
Definition tells (v : Z) (st : Stage) : Prop :=
  match st with
  | Quiet => True
  | Receive bs ready => (any v INT_READ_RDY = true → ready = true ∧ bs ≠ []) ∧ any v INT_DATA_DONE = false
  | Send _ n got _ room => any v INT_WRITE_RDY = true → room = true
  end.

Definition with_stage st (C : Ctl) := mkCtl (size C) (arg C) (issued C) (resp C) st.
Definition with_issued i (C : Ctl) := mkCtl (size C) (arg C) i (resp C) (stage C).

(** The registers are as they were. *)
Definition same_registers (C C' : Ctl) : Prop :=
  size C' = size C ∧ arg C' = arg C ∧ issued C' = issued C ∧ resp C' = resp C.

(** The buffer once four bytes of [b] are read. *)
Definition popped (b : list Z) (bs : list (list Z)) (more : bool) : Stage :=
  match drop 4 b with [] => Receive bs more | b' => Receive (b' :: bs) true end.

Section access.
Context (block_addressed : bool).

(** Reading register [r] gives [v] and takes the view from [C], [c] to [C'], [c']. *)
Definition on_read (r v : Z) (C : Ctl) (c : Lba → Block) (C' : Ctl) (c' : Lba → Block) : Prop :=
  if r =? DATA then
    same_registers C C' ∧ ∃ st c1, evolves (stage C) c st c1 ∧ (∀ k, c' k = c1 k) ∧
      match st with
      | Receive (b :: bs) true => v = le_value (take 4 b) ∧ ∃ more, stage C' = popped b bs more
      | _ => stage C' = st
      end
  else if r =? INTERRUPT then
    if any v INT_ERROR then
      evolves (stage C) c (stage C') c' ∧ size C' = size C ∧ arg C' = arg C ∧ (issued C' = issued C ∨ issued C' = None)
    else tells v (stage C') ∧
      match issued C with
      | Some cmd =>
        if any v INT_CMD_DONE then
          size C' = size C ∧ arg C' = arg C ∧ issued C' = None ∧
          ∃ st1 c1 st2, evolves (stage C) c st1 c1 ∧
            begins block_addressed cmd (arg C) (size C) (resp C') c1 st1 st2 ∧ evolves st2 c1 (stage C') c'
        else same_registers C C' ∧ evolves (stage C) c (stage C') c'
      | None => same_registers C C' ∧ evolves (stage C) c (stage C') c'
      end
  else same_registers C C' ∧ evolves (stage C) c (stage C') c' ∧ (r = RESP0 → v = resp C).

(** Writing [v] to register [r]: the transfer evolves, then the write takes effect. *)
Definition written (r v : Z) (C C' : Ctl) : Prop :=
  if r =? DATA then
    same_registers C C' ∧
    match stage C with
    | Send l n got m true => ∃ room, stage C' = Send l n (got ++ le_bytes 4 v) m room ∧
        ((length got + 4) mod 512 ≠ 0 → room = true)%nat
    | st => stage C' = st
    end
  else if r =? CMDTM then C' = with_issued (Some v) C
  else if r =? ARG1 then C' = mkCtl (size C) v (issued C) (resp C) (stage C)
  else if r =? BLKSIZECNT then C' = mkCtl v (arg C) (issued C) (resp C) (stage C)
  else if r =? CONTROL1 then
    if any v (Z.lor SRST_DATA SRST_HC) then C' = with_issued None (with_stage Quiet C)
    else if any v SRST_CMD then C' = with_issued None C
    else C' = C
  else C' = C.

Definition on_write (r v : Z) (C : Ctl) (c : Lba → Block) (C' : Ctl) (c' : Lba → Block) : Prop :=
  ∃ st, evolves (stage C) c st c' ∧ written r v (with_stage st C) C'.
End access.

(** * What is relied on *)
Class SdSlot (HW : Type) `{Clocked HW} := {
  ctl : HW → Ctl;
  stored : HW → Lba → Block;
  block_addressed : bool;
  stored_block h l : is_block (stored h l);
  read_acts r h : on_read block_addressed r (read r h).2 (ctl h) (stored h) (ctl (read r h).1) (stored (read r h).1);
  write_acts r v h : on_write r v (ctl h) (stored h) (ctl (write r v h)) (stored (write r v h)) }.

(** A card that never reports an error in its status: it is not write protected, and can program what it took.  The driver
    polls that status and does not look at its error bits, so for other cards less holds. *)
Class Faultless (HW : Type) `{SdSlot HW} :=
  no_errors h : issued (ctl h) = Some (encode SEND_STATUS) → any (read INTERRUPT h).2 INT_CMD_DONE = true →
    any (read INTERRUPT h).2 INT_ERROR = false → Z.land (resp (ctl (read INTERRUPT h).1)) STATUS_ERRORS = 0.

(** The last status reports no error. *)
Definition clean {HW : Type} `{SdSlot HW} (h : HW) : Prop := Z.land (resp (ctl h)) STATUS_ERRORS = 0.
#[export] Instance clean_dec {HW : Type} `{SdSlot HW} (h : HW) : Decision (clean h) := decide_rel (=) _ _.

(** The last status reports an error, and is the one a SEND_STATUS was answered with. *)
Definition complained {HW : Type} `{SdSlot HW} (h : HW) : Prop :=
  ¬ clean h ∧ ∃ h0, issued (ctl h0) = Some (encode SEND_STATUS) ∧ any (read INTERRUPT h0).2 INT_CMD_DONE = true ∧
    any (read INTERRUPT h0).2 INT_ERROR = false ∧ resp (ctl (read INTERRUPT h0).1) = resp (ctl h).

Lemma faultless_quiet {HW : Type} `{SdSlot HW} (h : HW) : Faultless HW → ¬ complained h.
Proof. intros Hf [Hn (h0 & Hi & Hd & He & Hr)]. apply Hn. unfold clean. rewrite <-Hr. by apply Hf. Qed.

(** * How transfers evolve *)

Lemma overlay_app l xs ys c k : overlay l (xs ++ ys) c k = overlay (l + Z.of_nat (length xs)) ys (overlay l xs c) k.
Proof.
  revert l c. induction xs as [|x xs IH]; intros l c; cbn [app length].
  - rewrite Z.add_0_r. apply overlay_proper. intros. by rewrite overlay_nil.
  - rewrite overlay_cons, IH. replace (l + 1 + Z.of_nat (length xs)) with (l + Z.of_nat (S (length xs))) by lia.
    apply overlay_proper. intros. by rewrite overlay_cons.
Qed.

Lemma length_sent_blocks got m m' : length (sent_blocks got m m') = (m' - m)%nat.
Proof. unfold sent_blocks. by rewrite length_fmap, length_seq. Qed.

Lemma sent_blocks_app got m m' m'' : (m ≤ m')%nat → (m' ≤ m'')%nat →
  sent_blocks got m m'' = sent_blocks got m m' ++ sent_blocks got m' m''.
Proof.
  intros H1 H2. unfold sent_blocks. replace (m'' - m)%nat with ((m' - m) + (m'' - m'))%nat by lia.
  rewrite seq_app, fmap_app. by replace (m + (m' - m))%nat with m' by lia.
Qed.

Lemma evolves_refl st c : evolves st c st c.
Proof.
  destruct st as [|bs ready|l n got m room]; cbn [evolves]; [done|eauto|].
  exists m, room. split_and!; [done|done|done|by left|]. intros k. unfold sent_blocks. rewrite Nat.sub_diag. by rewrite overlay_nil.
Qed.

Lemma evolves_ext st c c0 st' c' c0' : (∀ k, c0 k = c k) → (∀ k, c0' k = c' k) → evolves st c st' c' → evolves st c0 st' c0'.
Proof.
  intros Hc Hc'. destruct st as [|bs ready|l n got m room]; cbn [evolves].
  - intros [-> Hk]. split; [done|]. intros k. by rewrite Hc', Hc.
  - intros [Hk Hs]. split; [|done]. intros k. by rewrite Hc', Hc.
  - intros (m' & room' & Hs & Hr & Hm & Hl & Hk). exists m', room'. split_and!; try done.
    intros k. rewrite Hc', Hk. symmetry. by apply overlay_proper.
Qed.

Lemma evolves_trans st c st1 c1 st2 c2 : evolves st c st1 c1 → evolves st1 c1 st2 c2 → evolves st c st2 c2.
Proof.
  destruct st as [|bs ready|l n got m room]; cbn [evolves].
  - intros [-> Hk] [-> Hk']. split; [done|]. intros k. by rewrite Hk', Hk.
  - intros [Hk [(r' & -> & Hr)|[-> ->]]]; cbn [evolves].
    + intros [Hk' Hs]. split; [intros k; by rewrite Hk', Hk|]. destruct Hs as [(r'' & -> & Hr')|[-> ->]]; [|by right]. left. eauto.
    + intros [-> Hk']. split; [intros k; by rewrite Hk', Hk|]. by right.
  - intros (m' & room' & -> & Hr & Hm & Hl & Hk). cbn [evolves]. intros (m'' & room'' & -> & Hr' & Hm' & Hl' & Hk').
    exists m'', room''. split_and!; [done|auto|lia|lia|]. intros k.
    rewrite Hk', (sent_blocks_app got m m' m'') by lia. rewrite overlay_app, length_sent_blocks.
    replace (l + Z.of_nat m + Z.of_nat (m' - m)) with (l + Z.of_nat m') by lia. by apply overlay_proper.
Qed.

(** ** Writes that got part of the way *)

Lemma length_concat_blocks bs : Forall is_block bs → length (concat bs) = (length bs * 512)%nat.
Proof. induction 1 as [|b bs [Hb _] _ IH]; [done|]. cbn [concat length]. rewrite length_app, Hb, IH. lia. Qed.

(** The blocks in a prefix of the bytes are the first blocks. *)
Lemma sent_prefix_blocks bs got m n : Forall is_block bs → drop (m * 512) got `prefix_of` concat bs →
  ((m + n) * 512 ≤ length got)%nat → sent_blocks got m (m + n) = take n bs ∧ (n ≤ length bs)%nat.
Proof.
  revert bs m. induction n as [|n IH]; intros bs m Hb [tail Ht] Hl.
  { unfold sent_blocks. rewrite Nat.add_0_r, Nat.sub_diag. split; [done|lia]. }
  pose proof (f_equal length Ht) as Hlen. rewrite length_app, length_drop, length_concat_blocks in Hlen by done.
  destruct bs as [|b bs]; [cbn [length] in Hlen; lia|]. apply Forall_cons in Hb as [[Hbl Hbb] Hbs].
  assert (Hhead : take 512 (drop (m * 512) got) = b).
  { apply (f_equal (take 512)) in Ht. cbn [concat] in Ht. rewrite take_app_length' in Ht by lia.
    rewrite Ht, take_app_le by (rewrite length_drop; lia). done. }
  destruct (IH bs (S m) Hbs) as [He Hn].
  - exists tail. apply (f_equal (drop 512)) in Ht. cbn [concat] in Ht. rewrite drop_app_length' in Ht by lia.
    rewrite Ht, drop_app_le by (rewrite length_drop; lia). rewrite drop_drop. f_equal. f_equal. lia.
  - lia.
  - split; [|cbn [length]; lia]. rewrite (sent_blocks_app got m (S m)) by lia. cbn [take].
    replace (m + S n)%nat with (S m + n)%nat by lia. rewrite He. f_equal. unfold sent_blocks.
    replace (S m - m)%nat with 1%nat by lia. cbn [seq fmap list_fmap]. by rewrite Hhead.
Qed.

Section writing.
Context (c0 : Lba → Block) (lba : Lba) (bs : list Block) (Hbs : Forall is_block bs).

(** With [k] blocks of [bs] on the card: those a transfer under way has sent besides are the next ones. *)
Definition stage_fits (k : nat) (st : Stage) : Prop :=
  match st with
  | Send l n got m _ => l + Z.of_nat m = lba + Z.of_nat k ∧ (m * 512 ≤ length got)%nat ∧
      drop (m * 512) got `prefix_of` concat (drop k bs)
  | _ => True
  end.

Definition has_written (k : nat) (c : Lba → Block) : Prop :=
  (k ≤ length bs)%nat ∧ ∀ x, c x = overlay lba (take k bs) c0 x.

Lemma evolves_fits k st c st' c' : has_written k c → stage_fits k st → evolves st c st' c' →
  ∃ k', has_written k' c' ∧ stage_fits k' st' ∧ match st with Send _ _ _ _ _ => True | _ => k' = k end.
Proof.
  intros [Hk Hc] Hf. destruct st as [|ds ready|l n got m room]; cbn [evolves stage_fits] in *.
  - intros [-> Hx]. exists k. split_and!; [split; [done|]|done|done]. intros x. by rewrite Hx.
  - intros [Hx Hs]. exists k. split_and!; [split; [done|]|by destruct Hs as [(? & -> & _)|[_ ->]]|done]. intros x. by rewrite Hx.
  - destruct Hf as (Hl & Hm & Hp). intros (m' & room' & -> & _ & Hmm & Hend & Hx).
    destruct (sent_prefix_blocks (drop k bs) got m (m' - m)) as [Hsb Hn]; [by apply Forall_drop|done|lia|].
    replace (m + (m' - m))%nat with m' in Hsb by lia. rewrite length_drop in Hn.
    exists (k + (m' - m))%nat. split_and!; [split; [lia|]|split_and!; [lia|lia|]|done].
    + intros x. rewrite Hx, Hsb, <-(take_take_drop bs k (m' - m)). rewrite overlay_app, length_take, Nat.min_l by lia.
      rewrite Hl. by apply overlay_proper.
    + destruct Hp as [tail Ht]. exists tail.
      assert (Hcat : concat (drop k bs) = concat (take (m' - m) (drop k bs)) ++ concat (drop (m' - m) (drop k bs)))
        by (by rewrite <-concat_app, take_drop).
      apply (f_equal (drop ((m' - m) * 512))) in Ht. rewrite Hcat, drop_drop in Ht.
      assert (Hlt : length (concat (take (m' - m) (drop k bs))) = ((m' - m) * 512)%nat).
      { rewrite length_concat_blocks by (by apply Forall_take, Forall_drop). rewrite length_take, length_drop. lia. }
      rewrite drop_app_length' in Ht by done. rewrite drop_app_le in Ht by (rewrite length_drop; lia).
      rewrite drop_drop in Ht. rewrite Ht. f_equal. f_equal. lia.
Qed.
End writing.

Section slot.
Context {HW : Type} `{SdSlot HW}.
Local Notation M := (Eff HW SdError).
Implicit Types (h : HW).

(** ** Drifting: nothing but what happens of itself *)
Definition drift h h' : Prop :=
  same_registers (ctl h) (ctl h') ∧ evolves (stage (ctl h)) (stored h) (stage (ctl h')) (stored h').

Lemma drift_refl h : drift h h.
Proof. split; [done|apply evolves_refl]. Qed.

Lemma same_registers_trans C C1 C2 : same_registers C C1 → same_registers C1 C2 → same_registers C C2.
Proof. unfold same_registers. intros (-> & -> & -> & ->). done. Qed.

Lemma drift_trans h h1 h2 : drift h h1 → drift h1 h2 → drift h h2.
Proof. intros [Hr He] [Hr' He']. split; [by eapply same_registers_trans|by eapply evolves_trans]. Qed.

(** Registers that are not read or written for what they do. *)
Definition dull_read (r : Z) : bool := negb ((r =? DATA) || (r =? INTERRUPT)).
Definition dull_write (r : Z) : bool :=
  negb ((r =? DATA) || (r =? CMDTM) || (r =? ARG1) || (r =? BLKSIZECNT) || (r =? CONTROL1)).

Lemma read_dull r h : dull_read r = true → drift h (read r h).1 ∧ (r = RESP0 → (read r h).2 = resp (ctl h)).
Proof.
  intros Hd. pose proof (read_acts r h) as Ha. unfold on_read in Ha. unfold dull_read in Hd.
  destruct (r =? DATA); [done|]. destruct (r =? INTERRUPT); [done|]. destruct Ha as (Hr & He & Hv). by split.
Qed.

Lemma write_dull r v h : dull_write r = true → drift h (write r v h).
Proof.
  intros Hd. destruct (write_acts r v h) as (st & He & Hw). unfold written in Hw. unfold dull_write in Hd.
  destruct (r =? DATA); [done|]. destruct (r =? CMDTM); [done|]. destruct (r =? ARG1); [done|].
  destruct (r =? BLKSIZECNT); [done|]. destruct (r =? CONTROL1); [done|]. unfold drift. rewrite Hw. by split.
Qed.

Lemma drift_read h h1 r : drift h h1 → dull_read r = true → drift h (read r h1).1.
Proof. intros Hd Hr. eapply drift_trans; [done|]. by apply read_dull. Qed.

Lemma timer_dull r : r = TIMER_CHI ∨ r = TIMER_CLO → dull_read r = true.
Proof. by intros [-> | ->]. Qed.

Lemma drift_timers h r h1 : r = TIMER_CHI ∨ r = TIMER_CLO → drift h h1 → drift h (read r h1).1.
Proof. intros Hr Hd. eapply drift_trans; [done|]. by apply read_dull, timer_dull. Qed.

(** Waiting for something in a register that is only looked at. *)
Lemma wait_drifts what t r (f : Z → bool) h : dull_read r = true →
  post (wait what t (v ← rd r; mret (f v)) : M unit) h (λ h' _, drift h h') (λ h' _, drift h h').
Proof.
  intros Hr. apply (keeps_polling (drift h)); [intros; by apply drift_timers| |apply keeps_ret|apply drift_refl].
  apply keeps_bind; [apply keeps_bind; [apply keeps_rd|intros; apply keeps_ret]|intros; apply keeps_ret].
  intros h1 Hd. eapply drift_trans; [done|]. by apply read_dull.
Qed.

(** Reading INTERRUPT with no command under way. *)
Lemma read_interrupt h : issued (ctl h) = None → any (read INTERRUPT h).2 INT_ERROR = false →
  drift h (read INTERRUPT h).1 ∧ tells (read INTERRUPT h).2 (stage (ctl (read INTERRUPT h).1)).
Proof.
  intros Hi He. pose proof (read_acts INTERRUPT h) as Ha. unfold on_read in Ha.
  change (INTERRUPT =? DATA) with false in Ha. rewrite Z.eqb_refl, He, Hi in Ha. destruct Ha as (Ht & Hr & Hv). by split.
Qed.

Lemma any_lor x a b : any x (Z.lor a b) = any x a || any x b.
Proof.
  unfold any. rewrite Z.land_lor_distr_r. destruct (Z.eqb_spec (Z.land x a) 0) as [->|Ha].
  - rewrite Z.lor_0_l. done.
  - cbn. destruct (Z.eqb_spec (Z.lor (Z.land x a) (Z.land x b)) 0) as [Hl|]; [|done]. by apply Z.lor_eq_0_l in Hl.
Qed.

(** Waiting for a flag of a transfer: when it is seen, it tells of the transfer. *)
Lemma wait_for_flag cmd flag what t h : issued (ctl h) = None →
  post (wait_for cmd flag what t : M unit) h
    (λ h' _, ∃ h1 v, drift h h1 ∧ tells v (stage (ctl h1)) ∧ any v flag = true ∧ drift h1 h') (λ _ _, True).
Proof.
  intros Hi. apply post_bind.
  apply (post_polling (drift h)); [intros; by apply drift_timers| |done|apply drift_refl].
  intros h1 Hd. apply post_bind. unfold post at 1, rd. cbn beta iota. apply post_ret.
  destruct (any (read INTERRUPT h1).2 INT_ERROR) eqn:Ee.
  - rewrite any_lor, Ee, orb_true_r. rewrite Ee. exact I.
  - assert (Hi1 : issued (ctl h1) = None) by (destruct Hd as [(_ & _ & -> & _) _]; done).
    destruct (read_interrupt h1 Hi1 Ee) as [Hd1 Ht]. rewrite any_lor, Ee, orb_false_r.
    destruct (any (read INTERRUPT h1).2 flag) eqn:Ef; [|by eapply drift_trans]. rewrite Ee. unfold post, wr.
    exists (read INTERRUPT h1).1, (read INTERRUPT h1).2. split_and!; [by eapply drift_trans|done|done|by apply write_dull].
Qed.

(** The controller reported [cmd] done with response [v]. *)
Definition answered (cmd : Command) (v : Z) : Prop := ∃ h, issued (ctl h) = Some (encode cmd) ∧
  any (read INTERRUPT h).2 INT_CMD_DONE = true ∧ any (read INTERRUPT h).2 INT_ERROR = false ∧ resp (ctl (read INTERRUPT h).1) = v.

(** A command that is answered: what happened before it, what it started, what happened since. *)
Definition commanded cmd a h (r : list Z) h' : Prop :=
  issued (ctl h') = None ∧ size (ctl h') = size (ctl h) ∧ resp (ctl h') = r !!! 0%nat ∧
  answered cmd (r !!! 0%nat) ∧ ∃ st1 c1 st2,
    evolves (stage (ctl h)) (stored h) st1 c1 ∧
    begins block_addressed (encode cmd) a (size (ctl h)) (r !!! 0%nat) c1 st1 st2 ∧
    evolves st2 c1 (stage (ctl h')) (stored h').

Definition evo h h' : Prop := evolves (stage (ctl h)) (stored h) (stage (ctl h')) (stored h').

Lemma evo_trans h h1 h2 : evo h h1 → evo h1 h2 → evo h h2.
Proof. apply evolves_trans. Qed.

Lemma write_arg a h : evo h (write ARG1 a h) ∧ arg (ctl (write ARG1 a h)) = a ∧
  size (ctl (write ARG1 a h)) = size (ctl h) ∧ issued (ctl (write ARG1 a h)) = issued (ctl h).
Proof. destruct (write_acts ARG1 a h) as (st & He & Hw). cbn in Hw. unfold evo. by rewrite Hw. Qed.

Lemma write_size v h : evo h (write BLKSIZECNT v h) ∧ size (ctl (write BLKSIZECNT v h)) = v ∧
  issued (ctl (write BLKSIZECNT v h)) = issued (ctl h).
Proof. destruct (write_acts BLKSIZECNT v h) as (st & He & Hw). cbn in Hw. unfold evo. by rewrite Hw. Qed.

Lemma write_command v h : evo h (write CMDTM v h) ∧ issued (ctl (write CMDTM v h)) = Some v ∧
  size (ctl (write CMDTM v h)) = size (ctl h) ∧ arg (ctl (write CMDTM v h)) = arg (ctl h).
Proof. destruct (write_acts CMDTM v h) as (st & He & Hw). cbn in Hw. unfold evo. by rewrite Hw. Qed.

(** Command [v] has been issued, and not answered yet. *)
Definition awaiting v a h h1 : Prop :=
  issued (ctl h1) = Some v ∧ arg (ctl h1) = a ∧ size (ctl h1) = size (ctl h) ∧ evo h h1.

Lemma awaiting_drift v a h h1 h2 : awaiting v a h h1 → drift h1 h2 → awaiting v a h h2.
Proof.
  intros (Hi & Ha & Hs & He) [(Hs' & Ha' & Hi' & _) He']. unfold awaiting. rewrite Hs', Ha', Hi'. split_and!; try done.
  by eapply evo_trans.
Qed.

Lemma command_done cmd what t a h h0 : awaiting (encode cmd) a h h0 →
  post (wait_for cmd INT_CMD_DONE what t : M unit) h0 (λ h' _, commanded cmd a h [resp (ctl h')] h') (λ _ _, True).
Proof.
  intros Hw. apply post_bind. apply (post_polling (awaiting (encode cmd) a h)); [|clear h0 Hw|done|done].
  { intros r h1 Hr Hw1. eapply awaiting_drift; [done|]. by apply read_dull, timer_dull. }
  intros h1 (Hi & Ha & Hs & He). apply post_bind. unfold post at 1, rd. cbn beta iota. apply post_ret.
  pose proof (read_acts INTERRUPT h1) as Hr. unfold on_read in Hr. change (INTERRUPT =? DATA) with false in Hr.
  rewrite Z.eqb_refl in Hr. rewrite any_lor. destruct (any (read INTERRUPT h1).2 INT_ERROR) eqn:Ee.
  { rewrite orb_true_r. rewrite Ee. exact I. }
  rewrite orb_false_r. rewrite Hi in Hr. destruct Hr as [Ht Hr]. destruct (any (read INTERRUPT h1).2 INT_CMD_DONE) eqn:Ec.
  - rewrite Ee. unfold post, wr. set (h2 := (read INTERRUPT h1).1) in *.
    pose proof (write_dull INTERRUPT INT_CMD_DONE h2 eq_refl) as [(Hs3 & Ha3 & Hi3 & Hr3) He3].
    destruct Hr as (Hs2 & Ha2 & Hi2 & st1 & c1 & st2 & He1 & Hb & He2).
    unfold commanded. cbn [lookup_total list_lookup_total].
    split_and!; [congruence|congruence|done|by exists h1; rewrite Hr3|]. exists st1, c1, st2. cbn [lookup_total list_lookup_total].
    split_and!; [by eapply evolves_trans| |by eapply evolves_trans]. rewrite Hr3. rewrite <-Hs. by rewrite <-Ha.
  - eapply (awaiting_drift _ _ _ h1); [by split_and!|]. exact Hr.
Qed.

Lemma commanded_drift cmd a h r h1 h2 : commanded cmd a h r h1 → drift h1 h2 → commanded cmd a h r h2.
Proof.
  intros (Hi & Hs & Hr & Hat & st1 & c1 & st2 & He1 & Hb & He2) [(Hs' & Ha' & Hi' & Hr') He']. unfold commanded.
  split_and!; [congruence..|done|]. exists st1, c1, st2. split_and!; [done|done|by eapply evolves_trans].
Qed.

Lemma command_spec cmd a h : is_busy_response cmd = false →
  post (command cmd a : M (list Z)) h (λ h' r, commanded cmd a h r h') (λ _ _, True).
Proof.
  intros Hb. unfold command. rewrite Hb. eapply post_call; [by apply wait_drifts| |done].
  intros h1 ? Hd. cbn beta in Hd. do 3 (apply post_bind; unfold post at 1, wr; cbn beta iota).
  set (h2 := write INTERRUPT INT_ALL h1). pose proof (write_dull INTERRUPT INT_ALL h1 eq_refl) as Hd2. fold h2 in Hd2.
  pose proof (drift_trans _ _ _ Hd Hd2) as [(Hs & _) He].
  destruct (write_arg a h2) as (He3 & Ha3 & Hs3 & _). set (h3 := write ARG1 a h2) in *.
  destruct (write_command (encode cmd) h3) as (He4 & Hi4 & Hs4 & Ha4).
  eapply post_call; [apply (command_done _ _ _ a h)| |done].
  { split_and!; [done|congruence|congruence|]. eapply evo_trans; [|done]. by eapply evo_trans. }
  intros h5 ? Hc. cbn beta in Hc. apply post_bind, post_ret. do 4 (apply post_bind; unfold post at 1, rd; cbn beta iota). apply post_ret.
  pose proof (read_dull RESP0 h5 eq_refl) as [Hd5 Hv]. rewrite (Hv eq_refl).
  assert (Hd9 : drift h5 (read (RESP0 + 12) (read (RESP0 + 8) (read (RESP0 + 4) (read RESP0 h5).1).1).1).1).
  { repeat (apply drift_read; [|done]). apply drift_refl. }
  pose proof (commanded_drift _ _ _ _ _ _ Hc Hd9) as (Hi & Hs9 & Hr & Hat & st1 & c1 & st2 & Hx). unfold commanded. eauto 10.
Qed.

(** ** What holds of a write all along, and still when it fails *)
Section partial.
Context (c0 : Lba → Block) (lba : Lba) (bs : list Block) (Hbs : Forall is_block bs).

(** A write command is only issued for the next blocks, with no transfer under way. *)
Definition armed (k : nat) h : Prop :=
  target block_addressed (arg (ctl h)) = lba + Z.of_nat k ∧ block_size (size (ctl h)) = BLOCK_SIZE ∧
  match stage (ctl h) with Send _ _ _ _ _ => False | _ => True end.

Definition partial h : Prop := ∃ k,
  has_written c0 lba bs k (stored h) ∧ stage_fits lba bs k (stage (ctl h)) ∧
  ∀ cmd, issued (ctl h) = Some cmd → writes_data cmd = true → armed k h.

(** No write command is waiting. *)
Definition unarmed h : Prop := ∀ cmd, issued (ctl h) = Some cmd → writes_data cmd = false.

Lemma evolves_not_send st c st' c' : evolves st c st' c' → match st with Send _ _ _ _ _ => False | _ => True end →
  match st' with Send _ _ _ _ _ => False | _ => True end.
Proof. destruct st; cbn [evolves]; [by intros [-> _]|by intros [_ [(? & -> & _)|[_ ->]]]|done]. Qed.

Lemma partial_evo h h' : evo h h' →
  unarmed h' ∨ issued (ctl h') = issued (ctl h) ∧ arg (ctl h') = arg (ctl h) ∧ size (ctl h') = size (ctl h) →
  partial h → partial h'.
Proof.
  intros He Hi (k & Hk & Hf & Ha). destruct (evolves_fits _ _ _ Hbs _ _ _ _ _ Hk Hf He) as (k' & Hk' & Hf' & Hkk).
  exists k'. split_and!; [done|done|]. intros cmd Hc Hw. destruct Hi as [Hi|(Hi & Harg & Hsize)].
  - by rewrite (Hi cmd Hc) in Hw.
  - rewrite Hi in Hc. destruct (Ha cmd Hc Hw) as (Ht & Hs & Hn). unfold armed. rewrite Harg, Hsize.
    pose proof (evolves_not_send _ _ _ _ He Hn) as Hn'. destruct (stage (ctl h)); [subst k'..|done]; done.
Qed.

Lemma partial_drift h h' : drift h h' → partial h → partial h'.
Proof. intros [(Hs & Ha & Hi & _) He]. apply partial_evo; [done|]. by right. Qed.

Lemma begins_fits k cmd a sz r c st st' : (writes_data cmd = true → target block_addressed a = lba + Z.of_nat k ∧ block_size sz = BLOCK_SIZE) →
  stage_fits lba bs k st → begins block_addressed cmd a sz r c st st' → stage_fits lba bs k st'.
Proof.
  intros Hw Hf. unfold begins, writes_data in *. destruct (is_data cmd).
  - destruct (is_read cmd); [by intros (ds & -> & _)|]. destruct (Hw eq_refl) as [Ht Hs]. intros ->; [|done]. cbn [stage_fits].
    split_and!; [lia|lia|]. rewrite drop_nil. apply prefix_nil.
  - destruct (_ =? 12); [by intros ->|]. destruct (_ =? 13); [|by intros [-> _]]. destruct (is_programmed r); [by intros [-> _]|by intros ->].
Qed.

Lemma partial_read r h : partial h → partial (read r h).1.
Proof.
  intros Hp. pose proof (read_acts r h) as Hr. unfold on_read in Hr. destruct (r =? DATA).
  - destruct Hr as ((Hs & Ha & Hi & _) & st & c1 & He & Hc & Hst). destruct Hp as (k & Hk & Hf & Harm).
    destruct (evolves_fits _ _ _ Hbs _ _ _ _ _ Hk Hf He) as (k' & [Hk' Hc'] & Hf' & Hkk). exists k'. split_and!.
    + split; [done|]. intros x. by rewrite Hc, Hc'.
    + destruct st as [|[|b ds] []|]; rewrite ?Hst; try done. destruct Hst as (_ & more & ->). unfold popped. by destruct (drop 4 b).
    + intros cmd Hcmd Hw. rewrite Hi in Hcmd. destruct (Harm cmd Hcmd Hw) as (Ht & Hsz & Hn). unfold armed. rewrite Ha, Hs.
      pose proof (evolves_not_send _ _ _ _ He Hn) as Hn'. split_and!; [destruct (stage (ctl h)); [subst k'..|done]; done|done|].
      destruct st as [|[|b ds] []|]; rewrite ?Hst; try done. destruct Hst as (_ & more & ->). unfold popped. by destruct (drop 4 b).
  - destruct (r =? INTERRUPT); [|destruct Hr as (Hs & He & _); by apply (partial_drift h)].
    destruct (any _ INT_ERROR).
    { destruct Hr as (He & Hs & Ha & Hi). apply (partial_evo h); [done| |done]. destruct Hi as [Hi|Hi]; [by right|].
      left. intros cmd. by rewrite Hi. }
    destruct Hr as [_ Hr]. destruct (issued (ctl h)) as [cmd|] eqn:Ei; [|destruct Hr; by apply (partial_drift h)].
    destruct (any _ INT_CMD_DONE); [|destruct Hr; by apply (partial_drift h)].
    destruct Hr as (_ & _ & Hi & st1 & c1 & st2 & He & Hb & He2). destruct Hp as (k & Hk & Hf & Harm).
    destruct (evolves_fits _ _ _ Hbs _ _ _ _ _ Hk Hf He) as (k1 & Hk1 & Hf1 & Hkk).
    assert (Hf2 : stage_fits lba bs k1 st2).
    { eapply begins_fits; [|exact Hf1|exact Hb]. intros Hw. destruct (Harm cmd Ei Hw) as (Ht & Hsz & Hn).
      destruct (stage (ctl h)); [subst k1..|done]; done. }
    destruct (evolves_fits _ _ _ Hbs _ _ _ _ _ Hk1 Hf2 He2) as (k2 & Hk2 & Hf3 & _). exists k2. split_and!; [done|done|].
    intros cmd' Hc'. by rewrite Hi in Hc'.
Qed.

Lemma unarmed_read r h : unarmed h → unarmed (read r h).1.
Proof.
  intros Hu. pose proof (read_acts r h) as Hr. unfold on_read in Hr. unfold unarmed in *. destruct (r =? DATA).
  { destruct Hr as ((_ & _ & -> & _) & _). done. }
  destruct (r =? INTERRUPT); [|destruct Hr as ((_ & _ & -> & _) & _); done].
  destruct (any _ INT_ERROR). { destruct Hr as (_ & _ & _ & [-> | ->]); done. }
  destruct Hr as [_ Hr]. destruct (issued (ctl h)) as [cmd|] eqn:Ei; [|destruct Hr as [(_ & _ & -> & _) _]; by rewrite Ei].
  destruct (any _ INT_CMD_DONE); [destruct Hr as (_ & _ & -> & _); done|destruct Hr as [(_ & _ & -> & _) _]; by rewrite Ei].
Qed.

(** With no write command waiting, any register but DATA may be written, CMDTM with a command that writes nothing. *)
Lemma partial_write r v h : r ≠ DATA → (r = CMDTM → writes_data v = false) →
  partial h ∧ unarmed h → partial (write r v h) ∧ unarmed (write r v h).
Proof.
  intros Hd Hcm [Hp Hu]. destruct (write_acts r v h) as (st & He & Hw).
  assert (Hun : unarmed (write r v h) ∧ (stage (ctl (write r v h)) = st ∨ stage (ctl (write r v h)) = Quiet)).
  { unfold written in Hw. unfold unarmed in *. rewrite (proj2 (Z.eqb_neq _ _) Hd) in Hw.
    destruct (Z.eqb_spec r CMDTM) as [Hr|_]; [rewrite Hw; cbn; split; [|by left]; intros cmd [= <-]; by apply Hcm|].
    destruct (r =? ARG1); [rewrite Hw; cbn; split; [done|by auto]|]. destruct (r =? BLKSIZECNT); [rewrite Hw; cbn; split; [done|by auto]|].
    destruct (r =? CONTROL1); [|rewrite Hw; cbn; split; [done|by auto]].
    destruct (any v (Z.lor SRST_DATA SRST_HC)); [rewrite Hw; cbn; split; [done|by auto]|]. destruct (any v SRST_CMD); (rewrite Hw; cbn; split; [done|by auto]). }
  destruct Hun as [Hun Hst]. split; [|done]. destruct Hp as (k & Hk & Hf & _).
  destruct (evolves_fits _ _ _ Hbs _ _ _ _ _ Hk Hf He) as (k' & Hk' & Hf' & _). exists k'. split_and!; [done| |].
  - by destruct Hst as [-> | ->].
  - intros cmd Hc Hwd. by rewrite (Hun cmd Hc) in Hwd.
Qed.

Definition safe h : Prop := partial h ∧ unarmed h.

Lemma keeps_partial_wait_for cmd flag what t : keeps partial (wait_for cmd flag what t : M unit).
Proof.
  assert (Hw : ∀ v, keeps partial (wr INTERRUPT v : M unit)).
  { intros v. apply keeps_wr. intros h. apply partial_drift. by apply write_dull. }
  assert (Hr : ∀ r, keeps partial (rd r : M Z)) by (intros r; apply keeps_rd; intros h; apply partial_read).
  apply keeps_bind.
  - apply keeps_polling; [intros r h _; apply partial_read| |apply keeps_ret]. apply keeps_bind; [apply Hr|intros; apply keeps_ret].
  - intros i. destruct (any i INT_ERROR); [|apply Hw]. apply keeps_bind; [apply Hw|intros; apply keeps_fail].
Qed.
End partial.

(** ** Everything but writing data keeps what is written *)

(** Kept by every access that sends no data and issues no command to write. *)
Class Steady (P : HW → Prop) : Prop := {
  steady_read r h : P h → P (read r h).1;
  steady_write r v h : r ≠ DATA → (r = CMDTM → writes_data v = false) → P h → P (write r v h) }.

Lemma safe_steady c0 lba bs : Forall is_block bs → Steady (safe c0 lba bs).
Proof.
  intros Hbs. constructor.
  - intros r h [Hp Hu]. split; [by apply partial_read|by apply unarmed_read].
  - intros r v h Hd Hc. by apply partial_write.
Qed.

Section keeping.
Context (P : HW → Prop) {HP : Steady P}.

Lemma keeps_steady_rd r : keeps P (rd r : M Z).
Proof. apply keeps_rd. intros h. apply steady_read. Qed.

Lemma keeps_steady_wr r v : r ≠ DATA → r ≠ CMDTM → keeps P (wr r v : M unit).
Proof. intros Hd Hc. apply keeps_wr. intros h Hs. by apply steady_write. Qed.

Create HintDb keeps.
#[local] Hint Resolve keeps_ret keeps_fail keeps_lift keeps_unwrap keeps_catch keeps_steady_rd : keeps.
#[local] Hint Extern 1 (keeps _ (mbind _ _)) => apply keeps_bind; [|intros ?] : keeps.
#[local] Hint Extern 1 (keeps _ (wr _ _)) => apply keeps_steady_wr; discriminate : keeps.
#[local] Hint Extern 1 (keeps _ (match ?x with _ => _ end)) => destruct x : keeps.

Lemma keeps_change r f : r ≠ DATA → r ≠ CMDTM → keeps P (change r f : M unit).
Proof. intros Hd Hc. apply keeps_bind; [auto with keeps|intros v]. by apply keeps_steady_wr. Qed.
#[local] Hint Extern 1 (keeps _ (change _ _)) => apply keeps_change; discriminate : keeps.

Lemma keeps_steady_polling {A} t e (ask : M (option A)) rest : keeps P ask → keeps P rest → keeps P (polling t e ask rest).
Proof. apply keeps_polling. intros r h _. apply steady_read. Qed.

Lemma keeps_steady_delay us : keeps P (delay_us us : M unit).
Proof. apply keeps_delay. intros r h _. apply steady_read. Qed.
Hint Resolve keeps_steady_polling keeps_steady_delay : keeps.

Lemma keeps_wait what t done : keeps P done → keeps P (wait what t done : M unit).
Proof. intros Hd. unfold wait. auto 8 with keeps. Qed.

Lemma keeps_wait_for cmd flag what t : keeps P (wait_for cmd flag what t : M unit).
Proof. unfold wait_for. auto 8 with keeps. Qed.
Hint Resolve keeps_wait keeps_wait_for : keeps.

Lemma keeps_command cmd a : writes_data (encode cmd) = false → keeps P (command cmd a : M (list Z)).
Proof.
  intros Hw. unfold command. apply keeps_bind; [auto 8 with keeps|intros _]. do 2 (apply keeps_bind; [auto with keeps|intros _]).
  apply keeps_bind; [apply keeps_wr; intros h; apply steady_write; done|intros _]. auto 20 with keeps.
Qed.

Lemma keeps_reset_lines : keeps P (reset_lines : M unit).
Proof. unfold reset_lines. apply keeps_bind; [by apply keeps_change|intros _]. auto 8 with keeps. Qed.

Lemma keeps_reset_command_line : keeps P (reset_command_line : M unit).
Proof. unfold reset_command_line. apply keeps_bind; [by apply keeps_change|intros _]. auto 8 with keeps. Qed.

Lemma keeps_read_words n : keeps P (read_words n : M (list Z)).
Proof. induction n as [|n IH]; cbn [read_words]; auto 8 with keeps. Qed.
Hint Resolve keeps_reset_lines keeps_reset_command_line keeps_read_words : keeps.

Lemma keeps_read_data cmd n : keeps P (read_data cmd n : M (list Z)).
Proof. unfold read_data. auto with keeps. Qed.
Hint Resolve keeps_read_data : keeps.

Lemma keeps_read_one self l : keeps P (read_one self l : M Block).
Proof.
  unfold read_one. apply keeps_bind; [auto with keeps|intros a]. apply keeps_bind; [auto with keeps|intros _].
  apply keeps_bind; [by apply keeps_command|intros _]. auto 8 with keeps.
Qed.

Lemma keeps_read_run self l n : keeps P (read_run self l n : M (list Block)).
Proof.
  assert (Hr : ∀ cmd, keeps P (read_each cmd n : M (list Block))).
  { intros cmd. induction n as [|k IH]; cbn [read_each]; auto 8 with keeps. }
  unfold read_run. apply keeps_bind; [auto with keeps|intros a]. apply keeps_bind; [auto with keeps|intros _].
  apply keeps_bind; [by apply keeps_command|intros _]. auto 8 with keeps.
Qed.
Hint Resolve keeps_read_one keeps_read_run : keeps.

Lemma keeps_read_many self l n : keeps P (read_many self l n : M (list Block)).
Proof.
  unfold read_many. generalize n at 1. intros fuel. revert l n. induction fuel as [|fuel IH]; intros l [|n]; cbn [read_chunks]; auto with keeps.
Qed.
End keeping.

(** ** Reading *)
Definition idle h : Prop := stage (ctl h) = Quiet ∧ issued (ctl h) = None.
Definition kept (c : Lba → Block) h : Prop := ∀ k, stored h k = c k.

(** The blocks [ds] are still to be read, if [ready] with the first in the buffer. *)
Definition receiving (c : Lba → Block) (ds : list (list Z)) (ready : bool) h : Prop :=
  issued (ctl h) = None ∧ kept c h ∧
  ((∃ r, stage (ctl h) = Receive ds r ∧ (ready = true → r = true)) ∨ ds = [] ∧ stage (ctl h) = Quiet).

Lemma receiving_evolves c ds (ready : bool) st (c1 : Lba → Block) st' (c' : Lba → Block) :
  (∀ k, c1 k = c k) → ((∃ r, st = Receive ds r ∧ (ready = true → r = true)) ∨ ds = [] ∧ st = Quiet) → evolves st c1 st' c' →
  (∀ k, c' k = c k) ∧ ((∃ r, st' = Receive ds r ∧ (ready = true → r = true)) ∨ ds = [] ∧ st' = Quiet).
Proof.
  intros Hc [(r & -> & Hr)|[-> ->]]; cbn [evolves].
  - intros [Hk Hs]. split; [intros k; by rewrite Hk|]. destruct Hs as [(r' & -> & Hr')|[-> ->]]; [left; eauto|by right].
  - intros [-> Hk]. split; [intros k; by rewrite Hk|by right].
Qed.

Lemma receiving_drift c ds ready h h' : drift h h' → receiving c ds ready h → receiving c ds ready h'.
Proof.
  intros [(_ & _ & Hi & _) He] (Hi' & Hk & Hs). destruct (receiving_evolves _ _ _ _ _ _ _ Hk Hs He) as [? ?].
  unfold receiving. by rewrite Hi.
Qed.

Lemma await_block cmd what t c b ds ready h : receiving c (b :: ds) ready h →
  post (wait_for cmd INT_READ_RDY what t : M unit) h (λ h' _, receiving c (b :: ds) true h') (λ _ _, True).
Proof.
  intros Hr. eapply post_mono; [apply wait_for_flag, Hr| |done]. intros h' _ (h1 & v & Hd & Ht & Hf & Hd').
  apply (receiving_drift _ _ _ h1); [done|]. apply (receiving_drift _ _ _ _ _ Hd) in Hr as (Hi & Hk & [(r & Hs & _)|[? _]]); [|done].
  rewrite Hs in Ht. destruct Ht as [Ht _]. destruct (Ht Hf) as [-> _]. split_and!; [done|done|left; eauto].
Qed.

Lemma await_end cmd what t c ready h : receiving c [] ready h →
  post (wait_for cmd INT_DATA_DONE what t : M unit) h (λ h' _, idle h' ∧ kept c h') (λ _ _, True).
Proof.
  intros Hr. eapply post_mono; [apply wait_for_flag, Hr| |done]. intros h' _ (h1 & v & Hd & Ht & Hf & Hd').
  pose proof (receiving_drift _ _ _ _ _ Hd Hr) as (Hi & Hk & [(r & Hs & _)|[_ Hs]]).
  { rewrite Hs in Ht. destruct Ht as [_ Ht]. congruence. }
  destruct Hd' as [(_ & _ & Hi' & _) He']. rewrite Hs in He'. destruct He' as [Hq Hk']. split; [split; [done|congruence]|].
  intros k. by rewrite Hk'.
Qed.

(** Reading the buffer gives the block, four bytes at a time. *)
Lemma read_words_spec n c b ds h : length b = (4 * S n)%nat → is_bytes b → receiving c (b :: ds) true h →
  post (read_words (S n) : M (list Z)) h (λ h' r, r = b ∧ receiving c ds false h') (λ _ _, True).
Proof.
  revert b h. induction n as [|n IH]; intros b h Hl Hb (Hi & Hk & Hs); cbn [read_words]; apply post_bind; unfold post at 1, rd; cbn beta iota.
  all: pose proof (read_acts DATA h) as Hr; unfold on_read in Hr; rewrite Z.eqb_refl in Hr;
    destruct Hr as ((_ & _ & Hi' & _) & st & c1 & He & Hc' & Hst);
    destruct (receiving_evolves _ _ true _ _ _ _ Hk Hs He) as [Hk1 [(r & -> & Hr)|[? _]]]; [|done];
    rewrite (Hr eq_refl) in Hst; destruct Hst as (Hv & more & Hst');
    assert (Hkept : kept c (read DATA h).1) by (intros k; by rewrite Hc', Hk1);
    rewrite Hi in Hi'; assert (Hle : le_bytes 4 (read DATA h).2 = take 4 b) by
      (rewrite Hv; replace 4%nat with (length (take 4 b)) at 1 by (rewrite length_take; lia);
       apply le_bytes_le_value; auto with bytes); unfold popped in Hst'.
  - do 2 (apply post_bind || apply post_ret). apply post_ret. rewrite Hle, app_nil_r. split; [by apply take_ge; lia|].
    rewrite drop_ge in Hst' by lia. split_and!; [done|done|left; by exists more].
  - apply post_bind. assert (Hd : length (drop 4 b) = (4 * S n)%nat) by (rewrite length_drop; lia).
    eapply post_mono; [apply (IH (drop 4 b)); [done|auto with bytes|]| |done].
    + split_and!; [done|done|]. left. exists true. split; [|done]. by destruct (drop 4 b).
    + intros h' r' [-> Hrec]. apply post_ret. rewrite Hle. split; [apply take_drop|done].
Qed.

Lemma read_data_spec cmd c b ds ready h : is_block b → receiving c (b :: ds) ready h →
  post (read_data cmd (Z.to_nat BLOCK_SIZE) : M (list Z)) h (λ h' r, r = b ∧ receiving c ds false h') (λ _ _, True).
Proof.
  intros [Hl Hb] Hr. eapply post_call; [by eapply await_block| |done]. intros h1 ? Hr1. cbn beta in Hr1.
  change (Z.to_nat BLOCK_SIZE / 4)%nat with (S 127). by apply read_words_spec.
Qed.

Lemma read_each_block_spec cmd c ds ready h : Forall is_block ds → receiving c ds ready h →
  post (read_each cmd (length ds) : M (list Block)) h (λ h' r, r = ds ∧ receiving c [] false h') (λ _ _, True).
Proof.
  intros Hds. revert h ready. induction Hds as [|b ds Hb _ IH]; intros h ready Hr; cbn [length read_each].
  { apply post_ret. split; [done|]. destruct Hr as (Hi & Hk & Hs). split_and!; [done|done|].
    destruct Hs as [(r & Hs & _)|Hs]; [left; by exists r|by right]. }
  eapply post_call; [by eapply read_data_spec| |done]. intros h1 r [-> Hr1].
  eapply post_call; [by eapply IH| |done]. intros h2 r [-> Hr2]. by apply post_ret.
Qed.

Lemma block_count_spec n : Z.of_nat n <= 65535 →
  block_size (block_count n) = BLOCK_SIZE ∧ Z.to_nat (Z.shiftr (block_count n) 16) = n.
Proof.
  intros Hn. unfold block_count, block_size, BLOCK_SIZE. rewrite (wrap_small 32 (Z.of_nat n)) by (unfold uint; lia).
  rewrite wrap_small by (unfold uint; rewrite Z.shiftl_mul_pow2 by lia; lia). rewrite lor_shiftl_add by lia.
  change 0x3FF with (Z.ones 10). rewrite Z.land_ones, Z.shiftr_div_pow2 by lia.
  split; [|apply Nat2Z.inj; rewrite Z2Nat.id]; Z.to_euclidean_division_equations; lia.
Qed.

Lemma address_target self l a : high_capacity self = block_addressed → in_reach l 1 → address self l = Ok a →
  target block_addressed a = l.
Proof.
  intros Hh [Hl Hr]. unfold address, target, BLOCK_SIZE. rewrite Hh. destruct block_addressed.
  - destruct (_ <? _); [|done]. by intros [= <-].
  - rewrite wrap_small by (unfold uint; lia). destruct (_ <? _); [|done]. intros [= <-]. apply Z.div_mul. lia.
Qed.

(** Blocks [l] and on, [n] of them. *)
Definition run_of (c : Lba → Block) (l : Lba) (n : nat) : list Block := (λ i, c (l + Z.of_nat i)) <$> seq 0 n.

Lemma length_run_of c l n : length (run_of c l n) = n.
Proof. unfold run_of. by rewrite length_fmap, length_seq. Qed.

Lemma run_of_ext c c' l n : (∀ k, c' k = c k) → run_of c' l n = run_of c l n.
Proof. intros Hc. apply list_fmap_ext. intros. apply Hc. Qed.

Lemma run_of_add c l n m : run_of c l (n + m) = run_of c l n ++ run_of c (l + Z.of_nat n) m.
Proof.
  unfold run_of. rewrite seq_app, fmap_app. f_equal.
  replace (seq (0 + n) m) with (Nat.add n <$> seq 0 m) by (rewrite fmap_add_seq; f_equal; lia). rewrite <-list_fmap_compose.
  apply list_fmap_ext. intros _ i _. cbn. f_equal. lia.
Qed.

Definition reads_run (cmd : Command) (n : nat) : Prop :=
  cmd = READ_SINGLE_BLOCK ∧ n = 1%nat ∨ cmd = READ_MULTIPLE_BLOCK ∧ Z.of_nat n <= 65535.

Lemma read_command cmd a n h : reads_run cmd n → size (ctl h) = block_count n → idle h →
  post (command cmd a : M (list Z)) h
    (λ h' _, receiving (stored h) (run_of (stored h) (target block_addressed a) n) false h') (λ _ _, True).
Proof.
  intros Hc Hs [Hq Hi]. eapply post_mono; [apply command_spec; by destruct Hc as [[-> _]|[-> _]]| |done].
  intros h' r (Hi' & _ & _ & _ & st1 & c1 & st2 & He1 & Hb & He2). rewrite Hq in He1. destruct He1 as [-> Hk].
  assert (Hrun : st2 = Receive (run_of (stored h) (target block_addressed a) n) false).
  { rewrite Hs in Hb. destruct (block_count_spec n) as [Hz Hn]; [destruct Hc as [[_ ->]|[_ ?]]; lia|].
    assert (Hd : is_data (encode cmd) = true ∧ is_read (encode cmd) = true ∧ (cmd_index (encode cmd) = 17 ∨ cmd_index (encode cmd) = 18) ∧
      blocks_of (encode cmd) (block_count n) = n).
    { destruct Hc as [[-> ->]|[-> _]]; split_and!; try reflexivity; [by left|by right|]. unfold blocks_of.
      change (is_multi (encode READ_MULTIPLE_BLOCK)) with true. exact Hn. }
    destruct Hd as (Hd & Hr & Hx & Hm). unfold begins in Hb. rewrite Hd, Hr in Hb. destruct Hb as (ds & -> & Hds).
    rewrite (Hds Hx Hz), Hm. f_equal. by apply run_of_ext. }
  subst st2. destruct (receiving_evolves (stored h) (run_of (stored h) (target block_addressed a) n) false _ _ _ _ Hk
    ltac:(left; by exists false) He2) as [Hk' Hs']. by split_and!.
Qed.

Lemma stored_run_blocks c l n : (∀ k, is_block (c k)) → Forall is_block (run_of c l n).
Proof. intros Hc. apply Forall_fmap, Forall_true. intros i. apply Hc. Qed.

(** The address the driver works out for block [l] is that of [l'] on the card. *)
Definition reaches self l l' : Prop := ∀ a, address self l = Ok a → target block_addressed a = l'.

Lemma reaches_some self l : ∃ l', reaches self l l'.
Proof.
  unfold reaches. destruct (address self l) as [a|e]; [|by exists 0]. exists (target block_addressed a). by intros a' [= ->].
Qed.

(** One command reads the run, and leaves the controller idle. *)
Lemma reads_spec {A} cmd n self l l' (get : M A) h Q :
  reads_run cmd n → reaches self l l' → idle h →
  (∀ h1, receiving (stored h) (run_of (stored h) l' n) false h1 →
     post get h1 (λ h2 r, Q r ∧ receiving (stored h) [] false h2) (λ _ _, True)) →
  post (a ← lift (address self l); _ ← wr BLKSIZECNT (block_count n); _ ← command cmd a;
        r ← get; _ ← wait_for cmd INT_DATA_DONE (str "end of data") DATA_TIMEOUT; mret r : M A) h
    (λ h' r, Q r ∧ idle h' ∧ kept (stored h) h') (λ _ _, True).
Proof.
  intros Hc Hr [Hq Hi] Hget. apply post_bind. unfold reaches in Hr. destruct (address self l) as [a|e]; [|done].
  apply post_ret, post_bind. unfold post at 1, wr. destruct (write_size (block_count n) h) as (He & Hs & Hi1).
  set (h1 := write BLKSIZECNT (block_count n) h) in *. unfold evo in He. rewrite Hq in He. destruct He as [Hq1 Hk1].
  eapply post_call; [apply (read_command cmd a n); [done|done|split; [done|congruence]]| |done].
  intros h2 ? (Hi2 & Hk2 & Hs2). cbn beta in *. rewrite (Hr a eq_refl) in Hs2.
  rewrite (run_of_ext (stored h) (stored h1)) in Hs2 by done.
  eapply post_call; [apply Hget; split_and!; [done|intros k; by rewrite Hk2, Hk1|done]| |done].
  intros h3 r [HQ Hr3]. eapply post_call; [by eapply await_end| |done]. intros h4 ? [Hi4 Hk4]. by apply post_ret.
Qed.

Lemma read_one_spec self l l' h : reaches self l l' → idle h →
  post (read_one self l : M Block) h (λ h' b, b = stored h l' ∧ idle h' ∧ kept (stored h) h') (λ _ _, True).
Proof.
  intros Hr Hi. apply (reads_spec READ_SINGLE_BLOCK 1 self l l'); [by left|done|done|].
  intros h1 Hrec. unfold run_of in Hrec. cbn [seq fmap list_fmap] in Hrec. rewrite Z.add_0_r in Hrec.
  by eapply read_data_spec; [apply stored_block|].
Qed.

Lemma read_run_spec self l l' n h : reaches self l l' → Z.of_nat n <= 65535 → idle h →
  post (read_run self l n : M (list Block)) h (λ h' bs, bs = run_of (stored h) l' n ∧ idle h' ∧ kept (stored h) h') (λ _ _, True).
Proof.
  intros Hr Hn Hi. apply (reads_spec READ_MULTIPLE_BLOCK n self l l'); [by right|done|done|].
  intros h1 Hrec. pose proof (read_each_block_spec READ_MULTIPLE_BLOCK (stored h) (run_of (stored h) l' n) false h1) as He.
  rewrite length_run_of in He. apply He; [|done]. apply stored_run_blocks. intros k. apply stored_block.
Qed.

Lemma read_chunk_spec self l l' k h : reaches self l l' → Z.of_nat k <= 65535 → idle h →
  post (if (k =? 1)%nat then b ← read_one self l; mret [b] else read_run self l k : M (list Block)) h
    (λ h' bs, bs = run_of (stored h) l' k ∧ idle h' ∧ kept (stored h) h') (λ _ _, True).
Proof.
  intros Hr Hk Hi. destruct (Nat.eqb_spec k 1) as [->|]; [|by apply read_run_spec].
  eapply post_call; [by apply read_one_spec| |done]. intros h1 b (-> & Hi1 & Hk1). apply post_ret.
  split_and!; [|done|done]. unfold run_of. cbn. by rewrite Z.add_0_r.
Qed.

Lemma read_many_idle self l n h : idle h → post (read_many self l n : M (list Block)) h (λ h' _, idle h') (λ _ _, True).
Proof.
  unfold read_many. generalize n at 1. intros fuel. revert l n h. induction fuel as [|fuel IH]; intros l [|n] h Hi; cbn [read_chunks].
  1-3: by apply post_ret.
  destruct (reaches_some self l) as [l' Hl]. eapply post_call; [apply (read_chunk_spec self l l'); [done| |done]| |done].
  { unfold MAX_BLOCKS_PER_TRANSFER. lia. }
  intros h1 bs (_ & Hi1 & _). eapply post_call; [by apply IH| |done]. intros h2 ? Hi2. by apply post_ret.
Qed.

Lemma reaches_in self l : high_capacity self = block_addressed → in_reach l 1 → reaches self l l.
Proof. intros Hh Hr a. by apply address_target. Qed.

Lemma read_many_spec self l n h : high_capacity self = block_addressed → in_reach l n → idle h →
  post (read_many self l n : M (list Block)) h (λ h' bs, bs = run_of (stored h) l n ∧ idle h' ∧ kept (stored h) h') (λ _ _, True).
Proof.
  intros Hh. unfold read_many. cut (∀ fuel l n h, (n ≤ fuel)%nat → in_reach l n → idle h →
    post (read_chunks fuel self l n : M (list Block)) h (λ h' bs, bs = run_of (stored h) l n ∧ idle h' ∧ kept (stored h) h') (λ _ _, True)).
  { intros Hc Hr Hi. by apply Hc. }
  clear l n h. intros fuel. induction fuel as [|fuel IH]; intros l [|n] h Hf Hr Hi; cbn [read_chunks]; try lia.
  1-2: by apply post_ret.
  set (k := Nat.min (Z.to_nat MAX_BLOCKS_PER_TRANSFER) (S n)).
  assert (Hk : (1 ≤ k ≤ S n)%nat ∧ Z.of_nat k <= 65535) by (unfold k, MAX_BLOCKS_PER_TRANSFER; lia). clearbody k.
  eapply post_call; [apply (read_chunk_spec self l l); [apply reaches_in; [done|unfold in_reach in *; lia]|lia|done]| |done].
  intros h1 bs (-> & Hi1 & Hk1).
  assert (Ho : offset l (Z.of_nat k) = l + Z.of_nat k) by (unfold in_reach in Hr; apply wrap_small; unfold uint; lia).
  rewrite Ho. eapply post_call; [apply IH; [lia|unfold in_reach in *; lia|done]| |done].
  intros h2 rest (-> & Hi2 & Hk2). apply post_ret. split_and!; [|done|].
  - rewrite (run_of_ext (stored h) (stored h1)) by done. rewrite <-run_of_add. f_equal. lia.
  - intros x. by rewrite Hk2, Hk1.
Qed.

(** ** Writing *)
Section sending.
Context (c0 : Lba → Block) (lba : Lba) (bs : list Block) (Hbs : Forall is_block bs).

(** The bytes [got] of [bs] are sent, of which the card has stored so many blocks. *)
Definition sending (got : list Z) (ready : bool) h : Prop :=
  issued (ctl h) = None ∧ got `prefix_of` concat bs ∧ ∃ n m room,
    stage (ctl h) = Send lba n got m room ∧ (ready = true → room = true) ∧ (m * 512 ≤ length got)%nat ∧
    has_written c0 lba bs m (stored h).

Lemma drop_concat m : (m ≤ length bs)%nat → drop (m * 512) (concat bs) = concat (drop m bs).
Proof.
  intros Hm. rewrite <-(take_drop m bs) at 1. rewrite concat_app. apply drop_app_length'.
  rewrite length_concat_blocks by by apply Forall_take. rewrite length_take. lia.
Qed.

Lemma sending_fits got m : got `prefix_of` concat bs → (m ≤ length bs)%nat → (m * 512 ≤ length got)%nat →
  drop (m * 512) got `prefix_of` concat (drop m bs).
Proof.
  intros [tail Ht] Hm Hl. exists tail. rewrite <-drop_concat, Ht by done. rewrite drop_app_le by lia. done.
Qed.

Lemma sending_safe got ready h : sending got ready h → safe c0 lba bs h.
Proof.
  intros (Hi & Hp & n & m & room & Hs & _ & Hl & Hw). split; [|intros cmd; by rewrite Hi].
  exists m. split_and!; [done| |intros cmd; by rewrite Hi]. rewrite Hs. cbn [stage_fits].
  split_and!; [done|done|]. apply sending_fits; [done|apply Hw|done].
Qed.

Lemma sending_evolves got n m room c st' c' : got `prefix_of` concat bs → (m * 512 ≤ length got)%nat →
  has_written c0 lba bs m c → evolves (Send lba n got m room) c st' c' →
  ∃ m' room', st' = Send lba n got m' room' ∧ (room = true → room' = true) ∧ (m' * 512 ≤ length got)%nat ∧
    has_written c0 lba bs m' c'.
Proof.
  intros Hp Hl Hw He. assert (Hfit : stage_fits lba bs m (Send lba n got m room)).
  { split_and!; [done|done|]. apply sending_fits; [done|apply Hw|done]. }
  destruct (evolves_fits c0 lba bs Hbs m _ _ _ _ Hw Hfit He) as (k & Hk & Hf & _).
  destruct He as (m' & room' & -> & Hr & _). destruct Hf as (He & Hl' & _). exists m', room'.
  assert (k = m') as -> by lia. done.
Qed.

Lemma sending_drift got ready h h' : drift h h' → sending got ready h → sending got ready h'.
Proof.
  intros [(_ & _ & Hi & _) He] (Hi' & Hp & n & m & room & Hs & Hr & Hl & Hw). rewrite Hs in He.
  destruct (sending_evolves _ _ _ _ _ _ _ Hp Hl Hw He) as (m' & room' & Hs' & Hr' & Hl' & Hw').
  unfold sending. rewrite Hi. split_and!; [done|done|]. exists n, m', room'. split_and!; auto.
Qed.

Lemma await_room cmd what t got ready h : sending got ready h →
  post (wait_for cmd INT_WRITE_RDY what t : M unit) h (λ h' _, sending got true h') (λ _ _, True).
Proof.
  intros Hr. eapply post_mono; [apply wait_for_flag, Hr| |done]. intros h' _ (h1 & v & Hd & Ht & Hf & Hd').
  apply (sending_drift _ _ h1); [done|]. apply (sending_drift _ _ _ _ Hd) in Hr as (Hi & Hp & n & m & room & Hs & Hr & Hl & Hw).
  rewrite Hs in Ht. cbn [tells] in Ht. split_and!; [done|done|]. exists n, m, room. split_and!; auto.
Qed.

Lemma sending_write got v h : sending got true h → got ++ le_bytes 4 v `prefix_of` concat bs →
  sending (got ++ le_bytes 4 v) (negb ((length got + 4) mod 512 =? 0)%nat) (write DATA v h).
Proof.
  intros (Hi & Hp & n & m & room & Hs & Hr & Hl & Hw) Hpre. destruct (write_acts DATA v h) as (st & He & Hwr).
  rewrite Hs in He. destruct (sending_evolves _ _ _ _ _ _ _ Hp Hl Hw He) as (m' & room' & -> & Hr' & Hl' & Hw').
  unfold written in Hwr. rewrite Z.eqb_refl in Hwr. rewrite (Hr' (Hr eq_refl)) in Hwr. cbn [stage with_stage] in Hwr.
  destruct Hwr as ((_ & _ & Hi' & _) & room'' & Hs' & Hr''). cbn [issued with_stage] in Hi'.
  split_and!; [congruence|done|]. exists n, m', room''. split_and!; [done| |rewrite length_app; lia|done].
  intros Hn. apply Hr''. by apply negb_true_iff, Nat.eqb_neq in Hn.
Qed.

(** The block goes out four bytes at a time while there is room for it. *)
Lemma write_words_spec buf got h : is_bytes buf → (length buf mod 4 = 0)%nat → (length got mod 512 + length buf ≤ 512)%nat →
  sending got true h → got ++ buf `prefix_of` concat bs →
  post (write_words buf : M unit) h (λ h' _, sending (got ++ buf) false h') (λ _ _, False).
Proof.
  remember (length buf) as len eqn:Hlen. revert buf Hlen got h. induction (lt_wf len) as [len _ IH]. intros buf Hlen got h Hb H4 Hroom Hs Hp.
  destruct buf as [|a [|b [|c [|d buf]]]]; cbn [length] in Hlen; try (subst len; done).
  { apply post_ret. rewrite app_nil_r. destruct Hs as (Hi & Hpp & n & m & room & Hs & Hr & Hx). split_and!; [done|done|].
    exists n, m, room. split_and!; [done|done|apply Hx|apply Hx]. }
  cbn [write_words]. apply post_bind. unfold post at 1, wr.
  assert (Hle : le_bytes 4 (le_value [a; b; c; d]) = [a; b; c; d]).
  { apply (le_bytes_le_value [a; b; c; d]). unfold is_bytes in *. repeat (apply Forall_cons in Hb as [? Hb]). repeat (constructor; [done|]). constructor. }
  assert (Hpre : got ++ [a; b; c; d] `prefix_of` concat bs).
  { etrans; [|exact Hp]. exists buf. by rewrite <-app_assoc. }
  pose proof (sending_write got (le_value [a; b; c; d]) h Hs) as Hsw. rewrite Hle in Hsw. specialize (Hsw Hpre).
  assert (Hbuf : is_bytes buf) by (unfold is_bytes in *; by repeat (apply Forall_cons in Hb as [_ Hb])).
  replace (got ++ a :: b :: c :: d :: buf) with ((got ++ [a; b; c; d]) ++ buf) in * by (by rewrite <-app_assoc).
  destruct buf as [|x buf'] eqn:Ebuf.
  { cbn [write_words]. apply post_ret. rewrite app_nil_r. destruct Hsw as (Hi & Hpp & n & m & room & Hst & Hr & Hx).
    split_and!; [done|done|]. exists n, m, room. split_and!; [done|done|apply Hx|apply Hx]. }
  rewrite <-Ebuf in *. assert (Hpos : (0 < length buf)%nat) by (subst buf; cbn; lia). clear Ebuf x buf'.
  pose proof (Nat.div_mod_eq (length got) 512) as Hg. pose proof (Nat.mod_upper_bound (length got) 512 ltac:(lia)) as Hgm.
  assert (Hmod : ((length got + 4) mod 512 = length got mod 512 + 4)%nat).
  { rewrite Hg at 1. replace (512 * (length got / 512) + length got mod 512 + 4)%nat
      with (length got mod 512 + 4 + (length got / 512) * 512)%nat by lia.
    rewrite Nat.Div0.mod_add. apply Nat.mod_small. lia. }
  apply (IH (length buf)); [lia|done|done| | | |done].
  - subst len. replace (S (S (S (S (length buf)))))%nat with (length buf + 1 * 4)%nat in H4 by lia. by rewrite Nat.Div0.mod_add in H4.
  - rewrite length_app. cbn [length]. rewrite Hmod. lia.
  - rewrite Hmod in Hsw. replace (length got mod 512 + 4 =? 0)%nat with false in Hsw; [exact Hsw|]. symmetry. apply Nat.eqb_neq. lia.
Qed.

Lemma write_data_spec cmd b got ready h : is_block b → (length got mod 512 = 0)%nat → got ++ b `prefix_of` concat bs →
  sending got ready h →
  post (write_data cmd b : M unit) h (λ h' _, sending (got ++ b) false h') (λ h' _, safe c0 lba bs h').
Proof.
  intros [Hl Hb] Hm Hp Hs. eapply post_call.
  - apply post_conj; [by eapply await_room|apply (keeps_wait_for _ (HP := safe_steady c0 lba bs Hbs)); by eapply sending_safe].
  - intros h1 ? [Hs1 _]. eapply post_mono; [apply (write_words_spec b got); [done|by rewrite Hl|rewrite Hm, Hl; lia|done|done]|done|done].
  - by intros h1 e [_ ?].
Qed.

Lemma write_each_spec cmd ds got ready h : Forall is_block ds → (length got mod 512 = 0)%nat →
  got ++ concat ds `prefix_of` concat bs → sending got ready h →
  post (write_each cmd ds : M unit) h (λ h' _, sending (got ++ concat ds) false h') (λ h' _, safe c0 lba bs h').
Proof.
  intros Hds. revert got ready h. induction Hds as [|b ds Hb _ IH]; intros got ready h Hm Hp Hs; cbn [write_each concat].
  { apply post_ret. rewrite app_nil_r. destruct Hs as (Hi & Hpp & n & m & room & Hst & Hr & Hx). split_and!; [done|done|].
    exists n, m, room. split_and!; [done|done|apply Hx|apply Hx]. }
  cbn [concat] in Hp. rewrite app_assoc in Hp |- *. eapply post_call; [eapply write_data_spec; [done|done| |done]| |done].
  - etrans; [|exact Hp]. apply prefix_app_r. done.
  - intros h1 ? Hs1. apply (IH (got ++ b) false h1); [|exact Hp|exact Hs1]. destruct Hb as [Hl _]. rewrite length_app, Hl.
    replace (length got + 512)%nat with (length got + 1 * 512)%nat by lia. by rewrite Nat.Div0.mod_add.
Qed.

Definition writes_run (cmd : Command) : Prop :=
  cmd = WRITE_BLOCK ∧ length bs = 1%nat ∨ cmd = WRITE_MULTIPLE_BLOCK ∧ Z.of_nat (length bs) <= 65535.

Lemma write_command_spec cmd a h : writes_run cmd → size (ctl h) = block_count (length bs) → idle h → kept c0 h →
  target block_addressed a = lba →
  post (command cmd a : M (list Z)) h (λ h' _, sending [] false h') (λ h' _, partial c0 lba bs h').
Proof.
  intros Hc Hs [Hq Hi] Hk Ht. destruct (block_count_spec (length bs)) as [Hz Hn]; [destruct Hc as [[_ ->]|[_ ?]]; lia|].
  assert (Hd : is_data (encode cmd) = true ∧ is_read (encode cmd) = false ∧ is_busy_response cmd = false)
    by (by destruct Hc as [[-> _]|[-> _]]).
  destruct Hd as (Hd & Hr & Hbr). assert (Hw0 : has_written c0 lba bs 0 (stored h)).
  { split; [lia|]. intros x. rewrite Hk. cbn [take]. by rewrite overlay_nil. }
  eapply post_mono; [apply post_conj; [by apply command_spec|]| |].
  - instantiate (1 := λ h' _, partial c0 lba bs h'). instantiate (1 := λ _ _, True). unfold command. rewrite Hbr.
    assert (Hp : partial c0 lba bs h) by (exists O; split_and!; [done|by rewrite Hq|intros cmd'; by rewrite Hi]).
    eapply post_call; [by apply wait_drifts| |intros h1 ? Hd1; by apply (partial_drift c0 lba bs Hbs h)].
    intros h1 ? Hd1. cbn beta in Hd1. do 3 (apply post_bind; unfold post at 1, wr; cbn beta iota).
    pose proof (drift_trans _ _ _ Hd1 (write_dull INTERRUPT INT_ALL h1 eq_refl)) as [(Hs2 & _) He2]. rewrite Hq in He2.
    set (h2 := write INTERRUPT INT_ALL h1) in *. destruct He2 as [Hq2 Hk2].
    destruct (write_arg a h2) as (He3 & Ha3 & Hs3 & _). set (h3 := write ARG1 a h2) in *. unfold evo in He3. rewrite Hq2 in He3. destruct He3 as [Hq3 Hk3].
    destruct (write_command (encode cmd) h3) as (He4 & Hi4 & Hs4 & Ha4). set (h4 := write CMDTM (encode cmd) h3) in *.
    unfold evo in He4. rewrite Hq3 in He4. destruct He4 as [Hq4 Hk4].
    assert (Hp4 : partial c0 lba bs h4).
    { exists O. split_and!; [split; [lia|]|by rewrite Hq4|].
      - intros x. rewrite Hk4, Hk3, Hk2, Hk. cbn [take]. by rewrite overlay_nil.
      - intros cmd' _ _. unfold armed. rewrite Ha4, Ha3, Hs4, Hs3, Hs2, Hs, Hq4, Z.add_0_r. done. }
    eapply post_call; [by apply (keeps_partial_wait_for c0 lba bs Hbs)| |done].
    intros h5 ? _. apply post_bind, post_ret. do 4 (apply post_bind; unfold post at 1, rd; cbn beta iota). by apply post_ret.
  - intros h' r [(Hi' & _ & _ & _ & st1 & c1 & st2 & He1 & Hb & He2) _]. rewrite Hq in He1. destruct He1 as [-> Hk1].
    unfold begins in Hb. rewrite Hd, Hr, Hs, Ht in Hb. rewrite (Hb Hz) in He2.
    assert (Hw1 : has_written c0 lba bs 0 c1) by (split; [lia|]; intros x; rewrite Hk1; apply Hw0).
    destruct (sending_evolves _ _ O _ _ _ _ (prefix_nil _) (Nat.le_0_l _) Hw1 He2) as (m' & room' & Hs' & _ & Hl' & Hw').
    split_and!; [done|apply prefix_nil|]. by exists (blocks_of (encode cmd) (block_count (length bs))), m', room'.
  - by intros h' e [_ ?].
Qed.

(** ** The card says it is done *)

(** The run is stored, or the card has complained: then some of it is. *)
Definition concluded h : Prop :=
  ∃ m, has_written c0 lba bs m (stored h) ∧ (m = length bs ∨ complained h).

Lemma programmed_spec self h ready : sending (concat bs) ready h →
  post (wait_until_programmed self : M unit) h (λ h' _, idle h' ∧ concluded h') (λ h' _, safe c0 lba bs h').
Proof.
  intros Hs. apply (post_polling (sending (concat bs) false)).
  - intros r h1 Hr. apply sending_drift. by apply read_dull, timer_dull.
  - intros h1 Hs1. apply post_bind. eapply post_mono.
    + apply post_conj; [apply command_spec; reflexivity|apply (keeps_command _ (HP := safe_steady c0 lba bs Hbs)); [reflexivity|by eapply sending_safe]].
    + intros h2 r [(Hi & _ & Hresp & (h0 & Hi0 & Hd0 & He0 & Hr0) & st1 & c1 & st2 & He1 & Hb & He2) _]. apply post_ret.
      destruct Hs1 as (Hi1 & Hp & n & m & room & Hst & _ & Hl & Hw). rewrite Hst in He1.
      destruct (sending_evolves _ _ _ _ _ _ _ Hp Hl Hw He1) as (m1 & room1 & -> & _ & Hl1 & Hw1).
      unfold begins in Hb. change (is_data (encode SEND_STATUS)) with false in Hb. change (cmd_index (encode SEND_STATUS)) with 13 in Hb.
      change (13 =? 12) with false in Hb. change (13 =? 13) with true in Hb. cbn match in Hb.
      destruct (is_programmed (r !!! 0%nat)).
      * destruct Hb as [-> Hm]. destruct He2 as [Hq Hk]. split; [by split|].
        exists m1. split; [split; [apply Hw1|]; intros x; rewrite Hk; apply Hw1|].
        destruct (decide (Z.land (r !!! 0%nat) STATUS_ERRORS = 0)) as [Hclean|Hn].
        { left. specialize (Hm Hclean). by rewrite length_concat_blocks, Nat.div_mul in Hm by (done || lia). }
        right. split; [unfold clean; by rewrite Hresp|]. exists h0. by rewrite Hresp.
      * subst st2. destruct (sending_evolves _ _ _ _ _ _ _ Hp Hl1 Hw1 He2) as (m2 & room2 & Hs2 & _ & Hl2 & Hw2).
        split_and!; [done|done|]. exists n, m2, room2. by split_and!.
    + by intros h2 e [_ ?].
  - intros h1 Hs1. by eapply sending_safe.
  - destruct Hs as (Hi & Hp & n & m & room & Hst & _ & Hx). split_and!; [done|done|]. exists n, m, room. by split_and!; [..|apply Hx|apply Hx].
Qed.

(** One command writes the blocks; if something fails on the way, some of them are written. *)
Lemma writes_spec cmd self l (put : M unit) h : writes_run cmd → reaches self l lba → idle h → kept c0 h →
  (∀ h1, sending [] false h1 → post put h1 (λ h2 _, sending (concat bs) false h2) (λ h2 _, safe c0 lba bs h2)) →
  post (a ← lift (address self l); _ ← wr BLKSIZECNT (block_count (length bs)); _ ← command cmd a; _ ← put;
        _ ← wait_for cmd INT_DATA_DONE (str "end of data") PROGRAMMING_TIMEOUT; wait_until_programmed self : M unit) h
    (λ h' _, idle h' ∧ concluded h') (λ h' _, partial c0 lba bs h').
Proof.
  intros Hc Hr [Hq Hi] Hk Hput. apply post_bind. unfold reaches in Hr. destruct (address self l) as [a|e].
  2: { exists O. split_and!; [split; [lia|]|by rewrite Hq|intros cmd'; by rewrite Hi]. intros x. rewrite Hk. cbn [take]. by rewrite overlay_nil. }
  apply post_ret, post_bind. unfold post at 1, wr. destruct (write_size (block_count (length bs)) h) as (He & Hs & Hi1).
  set (h1 := write BLKSIZECNT (block_count (length bs)) h) in *. unfold evo in He. rewrite Hq in He. destruct He as [Hq1 Hk1].
  eapply post_call; [apply (write_command_spec cmd a); [done|done|by split; [|congruence]| |by apply Hr]| |done].
  { intros x. by rewrite Hk1. }
  intros h2 ? Hs2. cbn beta in Hs2. eapply post_call; [by apply Hput| |by intros h3 e [? _]].
  intros h3 ? Hs3. cbn beta in Hs3. eapply post_call.
  - apply post_conj; [apply wait_for_flag, Hs3|apply (keeps_wait_for _ (HP := safe_steady c0 lba bs Hbs)); by eapply sending_safe].
  - intros h4 ? [(h5 & v & Hd & _ & _ & Hd') _]. eapply post_mono; [eapply programmed_spec|done|by intros h6 e [? _]].
    eapply sending_drift; [exact Hd'|]. by eapply sending_drift.
  - by intros h4 e [_ [? _]].
Qed.
End sending.

(** ** Any number of blocks *)
Lemma partial_app_l c l ds rest h : Forall is_block ds → partial c l ds h → partial c l (ds ++ rest) h.
Proof.
  intros Hds (k & [Hk Hc] & Hf & Ha). exists k. split_and!; [split|  |done].
  - rewrite length_app. lia.
  - intros x. by rewrite take_app_le.
  - destruct (stage (ctl h)); [done..|]. cbn [stage_fits] in *. destruct Hf as (? & ? & Hp). split_and!; [done|done|].
    rewrite drop_app_le, concat_app by done. by apply prefix_app_r.
Qed.

Lemma partial_app_r c c1 l ds rest h : (∀ x, c1 x = overlay l ds c x) → partial c1 (l + Z.of_nat (length ds)) rest h →
  partial c l (ds ++ rest) h.
Proof.
  intros Hc1 (k & [Hk Hc] & Hf & Ha). exists (length ds + k)%nat. split_and!; [split| |].
  - rewrite length_app. lia.
  - intros x. rewrite Hc, take_app_add, overlay_app. by apply overlay_proper.
  - destruct (stage (ctl h)); [done..|]. cbn [stage_fits] in *. destruct Hf as (? & ? & Hp). split_and!; [lia|done|].
    by rewrite drop_app_add.
  - intros cmd Hi Hw. destruct (Ha cmd Hi Hw) as (Ht & Hx). split; [lia|done].
Qed.

Section transfers.

Lemma write_chunk_concluded self l0 l ds h : Forall is_block ds → ds ≠ [] → Z.of_nat (length ds) <= 65535 →
  reaches self l0 l → idle h →
  post (write_chunk self l0 ds : M unit) h
    (λ h' _, idle h' ∧ concluded (stored h) l ds h') (λ h' _, partial (stored h) l ds h').
Proof.
  intros Hds Hne Hlen Hr Hi. unfold write_chunk. destruct ds as [|b [|b2 ds]]; [done| |].
  - apply (writes_spec (stored h) l [b] Hds WRITE_BLOCK); [by left|done|done|done|]. intros h1 Hs1.
    cbn [concat]. rewrite app_nil_r. eapply (write_data_spec (stored h) l [b] Hds WRITE_BLOCK b [] false); [by apply Forall_cons in Hds as [? _]|done| |done].
    cbn [concat]. by rewrite app_nil_r.
  - apply (writes_spec (stored h) l _ Hds WRITE_MULTIPLE_BLOCK); [by right|done|done|done|]. intros h1 Hs1.
    apply (write_each_spec (stored h) l (b :: b2 :: ds) Hds WRITE_MULTIPLE_BLOCK (b :: b2 :: ds) [] false h1); done.
Qed.

Lemma write_chunk_spec self l0 l ds h : Faultless HW → Forall is_block ds → ds ≠ [] → Z.of_nat (length ds) <= 65535 →
  reaches self l0 l → idle h →
  post (write_chunk self l0 ds : M unit) h
    (λ h' _, idle h' ∧ has_written (stored h) l ds (length ds) (stored h')) (λ h' _, partial (stored h) l ds h').
Proof.
  intros Hf Hds Hne Hlen Hr Hi. eapply post_mono; [by apply (write_chunk_concluded self l0 l)| |done].
  intros h' ? (Hi' & m & Hw & [->|Hc]); [done|]. by apply faultless_quiet in Hc.
Qed.

(** Something was being written, or is still. *)
Definition disturbed h : Prop := ∃ c l ds, Forall is_block ds ∧ partial c l ds h.

Lemma write_many_idle self l ds h : Forall is_block ds → idle h →
  post (write_many self l ds : M unit) h (λ h' _, idle h') (λ h' _, disturbed h').
Proof.
  unfold write_many. generalize (length ds). intros fuel. revert l ds h.
  induction fuel as [|fuel IH]; intros l [|b ds] h Hds Hi; cbn [write_chunks]; [by apply post_ret..|].
  destruct (reaches_some self l) as [l' Hl]. set (m := Z.to_nat MAX_BLOCKS_PER_TRANSFER).
  assert (Hm : (1 ≤ m)%nat ∧ Z.of_nat m <= 65535) by (unfold m, MAX_BLOCKS_PER_TRANSFER; lia). clearbody m.
  assert (Hbt : Forall is_block (take m (b :: ds))) by by apply Forall_take.
  eapply post_call; [apply (write_chunk_concluded self l l'); [done|by destruct m; [lia|]| |done|done]| |].
  - rewrite length_take. lia.
  - intros h1 ? [Hi1 _]. apply IH; [by apply Forall_drop|done].
  - intros h1 e Hp. by exists (stored h), l', (take m (b :: ds)).
Qed.

Lemma write_many_spec self l ds h : Faultless HW → Forall is_block ds → high_capacity self = block_addressed → in_reach l (length ds) → idle h →
  post (write_many self l ds : M unit) h
    (λ h' _, idle h' ∧ ∀ x, stored h' x = overlay l ds (stored h) x) (λ h' _, partial (stored h) l ds h').
Proof.
  intros Hf' Hds Hh. unfold write_many. cut (∀ fuel l ds h, Forall is_block ds → (length ds ≤ fuel)%nat → in_reach l (length ds) → idle h →
    post (write_chunks fuel self l ds : M unit) h (λ h' _, idle h' ∧ ∀ x, stored h' x = overlay l ds (stored h) x)
      (λ h' _, partial (stored h) l ds h')).
  { intros Hc Hr Hi. by apply Hc. }
  clear l ds h Hds. intros fuel. induction fuel as [|fuel IH]; intros l [|b ds] h Hds Hf Hr Hi; cbn [write_chunks]; try (cbn [length] in Hf; lia).
  1-2: apply post_ret; split; [done|]; intros x; by rewrite overlay_nil.
  set (m := Z.to_nat MAX_BLOCKS_PER_TRANSFER). assert (Hm : (1 ≤ m)%nat ∧ Z.of_nat m <= 65535) by (unfold m, MAX_BLOCKS_PER_TRANSFER; lia).
  clearbody m. remember (b :: ds) as all eqn:Eall. assert (Hne : (1 ≤ length all)%nat) by (subst; cbn; lia). clear b ds Eall.
  pose proof (length_take all m) as Hlt. assert (Hbt : Forall is_block (take m all)) by by apply Forall_take.
  assert (Hbd : Forall is_block (drop m all)) by by apply Forall_drop.
  eapply post_call; [apply (write_chunk_spec self l l (take m all)); [done|done| |lia|apply reaches_in; [done|unfold in_reach in *; lia]|done]| |].
  - intros Ht. apply (f_equal length) in Ht. cbn in Ht. lia.
  - intros h1 ? [Hi1 [_ Hw1]]. rewrite firstn_all in Hw1.
    assert (Ho : offset l (Z.of_nat (length (take m all))) = l + Z.of_nat (length (take m all)))
      by (unfold in_reach in Hr; apply wrap_small; unfold uint; lia).
    rewrite Ho. eapply post_mono; [apply (IH (l + Z.of_nat (length (take m all))) (drop m all) h1); [done| | |done]| |].
    + rewrite length_drop. lia.
    + unfold in_reach in *. rewrite length_drop. lia.
    + intros h2 ? [Hi2 Hw2]. split; [done|]. intros x. rewrite Hw2. rewrite <-(take_drop m all) at 3. rewrite overlay_app. by apply overlay_proper.
    + intros h2 e Hp. rewrite <-(take_drop m all). by eapply partial_app_r.
  - intros h1 e Hp. rewrite <-(take_drop m all). by apply partial_app_l.
Qed.

(** A run that one command takes, on any card. *)
Lemma write_many_concluded self l ds h : Forall is_block ds → Z.of_nat (length ds) <= MAX_BLOCKS_PER_TRANSFER →
  high_capacity self = block_addressed → in_reach l (length ds) → idle h →
  post (write_many self l ds : M unit) h (λ h' _, idle h' ∧ concluded (stored h) l ds h') (λ h' _, partial (stored h) l ds h').
Proof.
  intros Hds Hlen Hh Hr Hi. unfold write_many. destruct ds as [|b ds].
  { apply post_ret. split; [done|]. exists O. split; [|by left]. split; [done|]. intros x. cbn [take]. by rewrite overlay_nil. }
  cbn [length write_chunks]. rewrite take_ge, drop_ge by (cbn [length] in *; lia).
  eapply post_call; [apply (write_chunk_concluded self l l (b :: ds)); [done|done|exact Hlen| |done]| |done].
  { apply reaches_in; [done|]. unfold in_reach in *. cbn [length] in *. lia. }
  intros h1 ? Hc. destruct (length ds); by apply post_ret.
Qed.
End transfers.
End slot.

End SdHost.
