(* ===== verification/SdDevice.v ===== *)
(** The SD card as a block device: the driver of SdCard, on a controller and a card that behave as SdHost
    says, keeps the promises of [Disk.LawfulDevice] if the card reports no errors in its status; of
    other cards, that a write is done if its status says so.  So everything proved of the file system for lawful
    devices holds on the SD card.  Then initialisation: it writes nothing, finds out how the card is
    addressed, and leaves the controller idle. *)
From S2P Require Import Prelude Bytes Text Effect Mmio Disk Firmware SdCard SdTime SdHost.
From stdpp Require Import strings.
Open Scope Z_scope.

Module SdDevice.
Import Effect Text Mailbox Exchange Mmio Disk SdCard SdTime SdHost.

Section device.
Context {HW : Type} `{SdSlot HW}.
Local Notation M := (Eff HW SdError).
Implicit Types (h : HW).

(** * After an error *)
Lemma idle_drift h h' : drift h h' → idle h → idle h'.
Proof. intros [(_ & _ & Hi & _) He] [Hq Hn]. rewrite Hq in He. destruct He as [Hq' _]. split; [done|congruence]. Qed.

Lemma any_lor_self x b : b ≠ 0 → any (Z.lor x b) b = true.
Proof.
  intros Hb. unfold any. apply negb_true_iff, Z.eqb_neq. intros He. rewrite Z.land_lor_distr_l, Z.land_diag in He.
  apply Z.lor_eq_0_iff in He as [_ He]. done.
Qed.

(** Resetting the data line ends any transfer; what was written by then stays written. *)
Lemma reset_write c l ds v h : Forall is_block ds → any v SRST_DATA = true ∨ any v SRST_HC = true → partial c l ds h →
  idle (write CONTROL1 v h) ∧ partial c l ds (write CONTROL1 v h).
Proof.
  intros Hds Hv (k & Hk & Hf & _). destruct (write_acts CONTROL1 v h) as (st & He & Hw).
  assert (Hrst : any v (Z.lor SRST_DATA SRST_HC) = true) by (rewrite any_lor; destruct Hv as [-> | ->]; [done|apply orb_true_r]).
  unfold written in Hw. change (CONTROL1 =? DATA) with false in Hw. change (CONTROL1 =? CMDTM) with false in Hw.
  change (CONTROL1 =? ARG1) with false in Hw. change (CONTROL1 =? BLKSIZECNT) with false in Hw.
  rewrite Z.eqb_refl, Hrst in Hw. destruct (evolves_fits _ _ _ Hds _ _ _ _ _ Hk Hf He) as (k' & Hk' & _).
  split; [split; by rewrite Hw|]. exists k'. rewrite Hw. done.
Qed.

Lemma reset_lines_spec c l ds h : Forall is_block ds → partial c l ds h →
  post (reset_lines : M unit) h (λ h' _, idle h' ∧ partial c l ds h') (λ h' _, idle h' ∧ partial c l ds h').
Proof.
  intros Hds Hp. unfold reset_lines, change. apply post_bind, post_bind. unfold post at 1, rd. cbn beta iota. unfold post at 1, wr.
  set (v := Z.lor (Z.lor (read CONTROL1 h).2 SRST_CMD) SRST_DATA). set (h1 := (read CONTROL1 h).1).
  destruct (reset_write c l ds v h1) as [Hi Hp2]; [done|left; by apply any_lor_self|by apply partial_read|].
  assert (Hd : ∀ h', drift (write CONTROL1 v h1) h' → idle h' ∧ partial c l ds h').
  { intros h' Hd. split; [by eapply idle_drift|by eapply partial_drift]. }
  eapply post_mono; [by apply wait_drifts|intros h' ?; apply Hd|intros h' ?; apply Hd].
Qed.

Lemma reset_lines_tried c l ds h : Forall is_block ds → partial c l ds h →
  post (catch reset_lines : M _) h (λ h' _, idle h' ∧ partial c l ds h') (λ _ _, False).
Proof. intros Hds Hp. apply post_catch. by apply reset_lines_spec. Qed.

Lemma stop_tried c l ds h : Forall is_block ds → safe c l ds h →
  post (catch (command STOP_TRANSMISSION 0) : M _) h (λ h' _, partial c l ds h') (λ _ _, False).
Proof.
  intros Hds Hs. apply post_catch. eapply post_mono; [apply (keeps_command _ (HP := safe_steady c l ds Hds)); [done|exact Hs]|..];
    by intros h' ? [? _].
Qed.

Lemma transfer_spec {A} (f : M A) c l ds h Q : Forall is_block ds → post f h Q (λ h' _, partial c l ds h') →
  post (transfer f) h Q (λ h' _, idle h' ∧ partial c l ds h').
Proof.
  intros Hds Hf. unfold transfer. apply post_bind, post_catch. eapply post_mono; [exact Hf| |].
  - intros h' a Ha. by apply post_bind, post_ret.
  - intros h1 e Hp. apply post_bind. eapply post_call; [by apply (reset_lines_tried c l ds)| |done]. intros h2 ? [[Hq2 Hi2] Hp2].
    assert (Hs2 : safe c l ds h2) by (split; [done|]; intros cmd; by rewrite Hi2).
    eapply post_call; [by apply (stop_tried c l ds)| |done]. intros h3 ? Hp3.
    eapply post_call; [by apply (reset_lines_tried c l ds)| |done]. intros h4 ? Hx. by apply post_ret.
Qed.

(** Whatever the call, the controller is idle afterwards. *)
Lemma transfer_idle {A} (f : M A) h : post f h (λ h' _, idle h') (λ h' _, disturbed h') →
  post (transfer f) h (λ h' _, idle h') (λ h' _, idle h').
Proof.
  intros Hf. unfold post in *. pose proof (λ c l ds Hds, transfer_spec (λ h0 : HW, f h) c l ds h (λ h' _, idle h') Hds) as Ht.
  unfold post, transfer, mbind, Eff_bind, catch in *. destruct (f h) as [h' a|h' e|]; [done| |done].
  destruct Hf as (c & l & ds & Hds & Hp). specialize (Ht c l ds Hds Hp). clear Hp.
  destruct (reset_lines h') as [h1 ?|h1 ?|]; [..|done]; (destruct (command STOP_TRANSMISSION 0 h1) as [h2 ?|h2 ?|]; [..|done]);
    (destruct (reset_lines h2) as [h3 ?|h3 ?|]; [..|done]); apply Ht.
Qed.

Lemma idle_undisturbed h : idle h → partial (stored h) 0 [] h.
Proof.
  intros [Hq Hi]. exists O. split_and!; [split; [done|]|by rewrite Hq|intros cmd; by rewrite Hi].
  intros x. cbn [take]. by rewrite overlay_nil.
Qed.

Lemma partial_nothing c l h : partial c l [] h → kept c h.
Proof. intros (k & [_ Hc] & _) x. rewrite Hc, firstn_nil. by rewrite overlay_nil. Qed.

(** A call that only reads changes nothing, whether it works or not. *)
Lemma reading_spec {A} (f : M A) h Q :
  idle h → post f h (λ h' a, Q a ∧ idle h' ∧ kept (stored h) h') (λ _ _, True) → keeps (safe (stored h) 0 []) f →
  post (transfer f) h (λ h' a, Q a ∧ idle h' ∧ kept (stored h) h') (λ h' _, idle h' ∧ kept (stored h) h').
Proof.
  intros Hi Hf Hkeep. assert (Hs : safe (stored h) 0 [] h) by (split; [by apply idle_undisturbed|intros cmd; by rewrite (proj2 Hi)]).
  eapply post_mono; [apply (transfer_spec f (stored h) 0 [])|by intros h' a Hx; apply Hx|].
  - constructor.
  - eapply post_mono; [apply (post_conj _ _ _ _ _ _ Hf (Hkeep h Hs))|by intros h' a [? _]|by intros h' e [_ [? _]]].
  - intros h' e [Hi' Hp]. split; [done|by eapply partial_nothing].
Qed.

(** * The calls *)
Lemma read_block_spec self l h : high_capacity self = block_addressed → in_reach l 1 → idle h →
  post (SdCard.read_block self l : M Block) h
    (λ h' b, b = stored h l ∧ idle h' ∧ kept (stored h) h') (λ h' _, idle h' ∧ kept (stored h) h').
Proof.
  intros Hh Hr Hi. apply reading_spec; [done|apply read_one_spec; [by apply reaches_in|done]|].
  apply keeps_read_one. apply safe_steady. constructor.
Qed.

Lemma read_blocks_spec self l n h : high_capacity self = block_addressed → in_reach l n → idle h →
  post (SdCard.read_blocks self l n : M (list Block)) h
    (λ h' bs, bs = run_of (stored h) l n ∧ idle h' ∧ kept (stored h) h') (λ h' _, idle h' ∧ kept (stored h) h').
Proof.
  intros Hh Hr Hi. apply reading_spec; [done|by apply read_many_spec|]. apply keeps_read_many. apply safe_steady. constructor.
Qed.

Lemma partial_wrote c l ds h : partial c l ds h → wrote l ds false c (stored h).
Proof. intros (k & [Hk Hc] & _). by exists k. Qed.

Lemma write_blocks_spec self l ds h : Faultless HW → high_capacity self = block_addressed → Forall is_block ds → in_reach l (length ds) → idle h →
  post (SdCard.write_blocks self l ds : M unit) h
    (λ h' _, idle h' ∧ wrote l ds true (stored h) (stored h')) (λ h' _, idle h' ∧ wrote l ds false (stored h) (stored h')).
Proof.
  intros Hf Hh Hds Hr Hi. eapply post_mono; [apply (transfer_spec _ (stored h) l ds); [done|]|..].
  - by apply write_many_spec.
  - intros h' ? [Hi' Hw]. split; [done|]. exists (length ds). split_and!; [done|done|]. by rewrite firstn_all.
  - intros h' e [Hi' Hp]. split; [done|]. by apply partial_wrote.
Qed.

(** What one command has stored, on any card: some of its blocks, and all if the status it ended with is clean. *)
Lemma concluded_wrote c l ds h : concluded c l ds h → wrote l ds (bool_decide (clean h)) c (stored h).
Proof.
  intros (m & [Hm Hk] & Hc). exists m. split_and!; [done| |done].
  intros Hcl%bool_decide_eq_true. destruct Hc as [->|[Hn _]]; done.
Qed.

(** A transfer of one command. *)
Lemma one_command_spec (f : M unit) l ds h : Forall is_block ds →
  post f h (λ h' _, idle h' ∧ concluded (stored h) l ds h') (λ h' _, partial (stored h) l ds h') →
  post (transfer f) h (λ h' _, idle h' ∧ wrote l ds (bool_decide (clean h')) (stored h) (stored h'))
    (λ h' _, idle h' ∧ wrote l ds false (stored h) (stored h')).
Proof.
  intros Hds Hf. eapply post_mono; [by apply (transfer_spec _ (stored h) l ds)|..].
  - intros h' ? [Hi' Hc]. split; [done|]. by apply concluded_wrote.
  - intros h' e [Hi' Hp]. split; [done|]. by apply partial_wrote.
Qed.

Lemma write_one_concluded self l b h : high_capacity self = block_addressed → is_block b → in_reach l 1 → idle h →
  post (write_one self l b : M unit) h (λ h' _, idle h' ∧ concluded (stored h) l [b] h') (λ h' _, partial (stored h) l [b] h').
Proof.
  intros Hh Hb Hr Hi. apply (write_chunk_concluded self l l [b]); [by constructor|done|cbn; lia|by apply reaches_in|done].
Qed.

Lemma write_block_spec self l b h : Faultless HW → high_capacity self = block_addressed → is_block b → in_reach l 1 → idle h →
  post (SdCard.write_block self l b : M unit) h
    (λ h' _, idle h' ∧ wrote l [b] true (stored h) (stored h')) (λ h' _, idle h' ∧ wrote l [b] false (stored h) (stored h')).
Proof.
  intros Hf Hh Hb Hr Hi. eapply post_mono; [apply (transfer_spec _ (stored h) l [b]); [by constructor|]|..].
  - by apply write_one_concluded.
  - intros h' ? (Hi' & m & [Hm Hk] & [->|Hc]); [split; [done|]; by exists 1%nat|by apply faultless_quiet in Hc].
  - intros h' e [Hi' Hp]. split; [done|]. by apply partial_wrote.
Qed.

(** A call that ends, with what is known of it whenever it does. *)
Lemma ends_with {A} (m : M A) c h Q R : takes m c → post m h Q R → wp m h Q R.
Proof. intros Hc Hp. eapply wp_mono; [apply wp_post; [apply (proj2 Hc)|exact Hp]|..]; by intros h' ? [_ ?]. Qed.

(** The card has stored a prefix of [bs] from [l] on, all of it if [whole], and is otherwise as it was. *)
Definition holds (c : Lba → Block) (l : Lba) (bs : list Block) (whole : Prop) h : Prop :=
  ∃ n, (n ≤ length bs)%nat ∧ (whole → n = length bs) ∧ ∀ k, stored h k = overlay l (take n bs) c k.

Lemma wrote_holds c l bs (r : bool) (whole : Prop) h : wrote l bs r c (stored h) → (whole → r = true) → holds c l bs whole h.
Proof. intros (n & Hn & Hr & Hk) Hw. exists n. split_and!; [done|auto|done]. Qed.

(** C7: The driver keeps what a block device promises, on any controller and card that behave as [SdSlot] says:
    every call returns or fails, and leaves the controller ready for the next one.  A block read is the block stored
    there, and reading changes nothing, nor does a read that fails.  A write that one command can carry (a block, or
    up to 65535 of them) stores a prefix of its blocks and changes nothing else on the card; if it succeeds and the
    status the card ended it with reports no error, all of them.  The condition is needed, as the driver does not look
    at the error bits of that status ([status_errors_are_ignored]).  For longer runs, which take several
    commands, the same holds of a card that never reports such an error ([Faultless]): one that is not write protected
    and can program what it took. *)
Theorem driver_keeps_its_word self h l : high_capacity self = block_addressed → idle h →
  (∀ n, in_reach l n → wp (SdCard.read_blocks self l n : M _) h
     (λ h' bs, idle h' ∧ kept (stored h) h' ∧ bs = (λ i, stored h (l + Z.of_nat i)) <$> seq 0 n)
     (λ h' _, idle h' ∧ kept (stored h) h')) ∧
  (in_reach l 1 → wp (SdCard.read_block self l : M _) h
     (λ h' b, idle h' ∧ kept (stored h) h' ∧ b = stored h l) (λ h' _, idle h' ∧ kept (stored h) h')) ∧
  (∀ b, is_block b → in_reach l 1 → wp (SdCard.write_block self l b : M _) h
     (λ h' _, idle h' ∧ holds (stored h) l [b] (clean h') h') (λ h' _, idle h' ∧ holds (stored h) l [b] False h')) ∧
  (∀ bs, Forall is_block bs → in_reach l (length bs) → Z.of_nat (length bs) <= MAX_BLOCKS_PER_TRANSFER →
     wp (SdCard.write_blocks self l bs : M _) h
       (λ h' _, idle h' ∧ holds (stored h) l bs (clean h') h') (λ h' _, idle h' ∧ holds (stored h) l bs False h')) ∧
  (Faultless HW → ∀ bs, Forall is_block bs → in_reach l (length bs) →
     wp (SdCard.write_blocks self l bs : M _) h
       (λ h' _, idle h' ∧ holds (stored h) l bs True h') (λ h' _, idle h' ∧ holds (stored h) l bs False h')).
Proof.
  intros Hh Hi. split_and!.
  - intros n Hr. eapply wp_mono; [apply (ends_with _ _ _ _ _ (takes_read_blocks self l n)); by apply read_blocks_spec|..]; [|done].
    intros h' bs (Hb & Hi' & Hk). done.
  - intros Hr. eapply wp_mono; [apply (ends_with _ _ _ _ _ (takes_read_block self l)); by apply read_block_spec|..]; [|done].
    intros h' bs (Hb & Hi' & Hk). done.
  - intros b Hb Hr. eapply wp_mono; [apply (ends_with _ _ _ _ _ (takes_write_block self l b Hb));
      apply (one_command_spec _ l [b]); [by constructor|by apply write_one_concluded]|..];
      intros h' ? [Hi' Hw]; (split; [done|]); (eapply wrote_holds; [exact Hw|]); [intros ?; by apply bool_decide_eq_true_2|done].
  - intros bs Hbs Hr Hn. eapply wp_mono; [apply (ends_with _ _ _ _ _ (takes_write_blocks self l bs Hbs));
      apply (one_command_spec _ l bs); [done|by apply write_many_concluded]|..];
      intros h' ? [Hi' Hw]; (split; [done|]); (eapply wrote_holds; [exact Hw|]); [intros ?; by apply bool_decide_eq_true_2|done].
  - intros Hf bs Hbs Hr. eapply wp_mono; [apply (ends_with _ _ _ _ _ (takes_write_blocks self l bs Hbs)); by apply write_blocks_spec|..];
      intros h' ? [Hi' Hw]; (split; [done|]); (eapply wrote_holds; [exact Hw|]); done.
Qed.

(** * The block device *)

(** A card that is initialised, on a controller that is idle, which it always is between calls. *)
Definition Device : Type := { d : Card * HW | high_capacity d.1 = block_addressed ∧ idle d.2 }.
Definition card (d : Device) : Card := (`d).1.
Definition hw (d : Device) : HW := (`d).2.

(** No call panics: [takes_read_block] and the like. *)
Definition attempt {A} (m : M A) h : HW * result SdError A :=
  match m h with Ret h a => (h, Ok a) | Fail h e => (h, Err e) | Panic => (h, Err NoClock) end.

Definition leaves_idle {A} (m : Card → M A) : Prop := ∀ self h, idle h → post (m self) h (λ h' _, idle h') (λ h' _, idle h').

Lemma attempt_idle {A} (m : Card → M A) self h : leaves_idle m → idle h → idle (attempt (m self) h).1.
Proof. intros Hm Hi. specialize (Hm self h Hi). unfold post, attempt in *. by destruct (m self h). Qed.

Definition call {A} (m : Card → M A) (Hm : leaves_idle m) (d : Device) : Device * result SdError A :=
  let r := attempt (m (card d)) (hw d) in
  (exist _ (card d, r.1) (conj (proj1 (proj2_sig d)) (attempt_idle m (card d) (hw d) Hm (proj2 (proj2_sig d)))), r.2).

Lemma call_spec {A} (m : Card → M A) Hm d (Q : HW → result SdError A → Prop) c :
  takes (m (card d)) c → post (m (card d)) (hw d) (λ h a, Q h (Ok a)) (λ h e, Q h (Err e)) →
  ∀ d' r, call m Hm d = (d', r) → Q (hw d') r.
Proof.
  intros Hc Hp d' r [= <- <-]. cbn [hw card proj1_sig fst snd]. pose proof (proj2 Hc (hw d)) as Hw. unfold wp, post, attempt in *.
  by destruct (m (card d) (hw d)).
Qed.

Lemma read_blocks_idle l n : leaves_idle (λ self, SdCard.read_blocks self l n).
Proof.
  intros self h Hi. apply transfer_idle. assert (Hs : safe (stored h) 0 [] h).
  { split; [by apply idle_undisturbed|intros cmd; by rewrite (proj2 Hi)]. }
  assert (Hst : Steady (safe (stored h) 0 [])) by (apply safe_steady; constructor).
  eapply post_mono; [apply post_conj; [by apply read_many_idle|by apply (keeps_read_many _ (HP := Hst))]|..].
  - by intros h' a [? _].
  - intros h' e [_ [Hp _]]. exists (stored h), 0, []. split; [constructor|done].
Qed.

Lemma read_block_idle l : leaves_idle (λ self, SdCard.read_block self l).
Proof.
  intros self h Hi. apply transfer_idle. assert (Hs : safe (stored h) 0 [] h).
  { split; [by apply idle_undisturbed|intros cmd; by rewrite (proj2 Hi)]. }
  assert (Hst : Steady (safe (stored h) 0 [])) by (apply safe_steady; constructor).
  destruct (reaches_some self l) as [l' Hl].
  eapply post_mono; [apply post_conj; [by apply (read_one_spec self l l')|by apply (keeps_read_one _ (HP := Hst))]|..].
  - by intros h' a [(_ & ? & _) _].
  - intros h' e [_ [Hp _]]. exists (stored h), 0, []. split; [constructor|done].
Qed.

(** A block is an array of 512 bytes in the code: the test is of its type. *)
Definition typed {A} (good : bool) (m : M A) : M A := if good then m else fail NoClock.

Lemma write_block_idle l b : leaves_idle (λ self, typed (MemDisk.good_block b) (SdCard.write_block self l b)).
Proof.
  intros self h Hi. unfold typed. destruct (MemDisk.good_block b) eqn:Hb; [|done]. apply MemDisk.good_block_spec in Hb.
  apply transfer_idle. destruct (reaches_some self l) as [l' Hl]. assert (Hds : Forall is_block [b]) by (constructor; [done|constructor]).
  eapply post_mono; [apply (write_chunk_concluded self l l' [b]); [done|done|cbn; lia|done|done]|by intros h' a [? _]|].
  intros h' e Hp. by exists (stored h), l', [b].
Qed.

Lemma write_blocks_idle l bs : leaves_idle (λ self, typed (forallb MemDisk.good_block bs) (SdCard.write_blocks self l bs)).
Proof.
  intros self h Hi. unfold typed. destruct (forallb MemDisk.good_block bs) eqn:Hb; [|done].
  apply transfer_idle, write_many_idle; [|done]. apply Forall_forall. intros b Hin. apply MemDisk.good_block_spec.
  rewrite forallb_forall in Hb. by apply Hb, list_elem_of_In.
Qed.

Lemma good_blocks bs : Forall is_block bs → forallb MemDisk.good_block bs = true.
Proof. intros Hbs. apply forallb_forall. intros b Hin. apply MemDisk.good_block_spec. rewrite Forall_forall in Hbs. by apply Hbs, list_elem_of_In. Qed.

#[export] Instance sd_device : BlockDevice Device SdError := {
  read_block l := call _ (read_block_idle l);
  read_blocks l n := call _ (read_blocks_idle l n) }.
#[export] Instance sd_writable : WritableBlockDevice Device SdError := {
  write_block l b := call _ (write_block_idle l b);
  write_blocks l bs := call _ (write_blocks_idle l bs) }.

#[export] Program Instance sd_lawful `{!Faultless HW} : LawfulDevice Device SdError := { contents d := stored (hw d) }.
Next Obligation. intros ? d l. apply stored_block. Qed.
Next Obligation.
  intros Hf l d d' r Hc Hr. revert d' r Hc. eapply (call_spec _ _ _ (λ h r, kept (stored (hw d)) h ∧ ∀ b, r = Ok b → b = stored (hw d) l)).
  - apply takes_read_block.
  - eapply post_mono; [apply read_block_spec; [apply (proj2_sig d)|done|apply (proj2_sig d)]|..].
    + intros h' b (-> & _ & Hk). split; [done|]. by intros b' [= ->].
    + by intros h' e [_ Hk].
Qed.
Next Obligation.
  intros Hf l n d d' r Hc Hr. revert d' r Hc.
  eapply (call_spec _ _ _ (λ h r, kept (stored (hw d)) h ∧ ∀ bs, r = Ok bs → bs = run_of (stored (hw d)) l n)).
  - apply takes_read_blocks.
  - eapply post_mono; [apply read_blocks_spec; [apply (proj2_sig d)|done|apply (proj2_sig d)]|..].
    + intros h' b (-> & _ & Hk). split; [done|]. by intros b' [= ->].
    + by intros h' e [_ Hk].
Qed.
Next Obligation.
  intros Hf l b d d' r Hc Hb Hr. revert d' r Hc. eapply (call_spec _ _ _ (λ h r, wrote l [b] (is_ok r) (stored (hw d)) (stored h))).
  - unfold typed. rewrite (proj2 (MemDisk.good_block_spec b) Hb). by apply takes_write_block.
  - unfold typed. rewrite (proj2 (MemDisk.good_block_spec b) Hb).
    eapply post_mono; [apply write_block_spec; [done|apply (proj2_sig d)|done|done|apply (proj2_sig d)]|..]; by intros h' ? [_ ?].
Qed.
Next Obligation.
  intros Hf l bs d d' r Hc Hb Hr. revert d' r Hc. eapply (call_spec _ _ _ (λ h r, wrote l bs (is_ok r) (stored (hw d)) (stored h))).
  - unfold typed. rewrite (good_blocks bs Hb). by apply takes_write_blocks.
  - unfold typed. rewrite (good_blocks bs Hb).
    eapply post_mono; [apply write_blocks_spec; [done|apply (proj2_sig d)|done|done|apply (proj2_sig d)]|..]; by intros h' ? [_ ?].
Qed.

(** * Initialisation *)

(** No write is under way, none is asked for, and the card is as it was. *)
Definition calm (c : Lba → Block) h : Prop :=
  kept c h ∧ unarmed h ∧ match stage (ctl h) with Send _ _ _ _ _ => False | _ => True end.

Lemma calm_evolves c st c1 st' c' : (∀ k, c1 k = c k) → match st with Send _ _ _ _ _ => False | _ => True end →
  evolves st c1 st' c' → (∀ k, c' k = c k) ∧ match st' with Send _ _ _ _ _ => False | _ => True end.
Proof.
  intros Hc Hn He. split; [|by eapply evolves_not_send]. intros k. rewrite <-Hc.
  destruct st; cbn [evolves] in He; [apply He|apply He|done].
Qed.

Lemma calm_drift c h h' : drift h h' → calm c h → calm c h'.
Proof.
  intros [(_ & _ & Hi & _) He] (Hk & Hu & Hn). destruct (calm_evolves c _ _ _ _ Hk Hn He) as [Hk' Hn'].
  split_and!; [done| |done]. unfold unarmed. by rewrite Hi.
Qed.

Lemma begins_calm cmd a sz r c st st' : writes_data cmd = false → match st with Send _ _ _ _ _ => False | _ => True end →
  begins block_addressed cmd a sz r c st st' → match st' with Send _ _ _ _ _ => False | _ => True end.
Proof.
  intros Hw Hn. unfold begins, writes_data in *. destruct (is_data cmd).
  - destruct (is_read cmd); [by intros (ds & -> & _)|done].
  - destruct (_ =? 12); [by intros ->|]. destruct (_ =? 13); [|by intros [-> _]]. destruct (is_programmed r); [by intros [-> _]|by intros ->].
Qed.

Lemma calm_read c r h : calm c h → calm c (read r h).1.
Proof.
  intros (Hk & Hu & Hn). cut (kept c (read r h).1 ∧ match stage (ctl (read r h).1) with Send _ _ _ _ _ => False | _ => True end).
  { intros [? ?]. split_and!; [done|by apply unarmed_read|done]. }
  pose proof (read_acts r h) as Hr. unfold on_read in Hr. destruct (r =? DATA).
  - destruct Hr as (_ & st & c1 & He & Hc & Hst). destruct (calm_evolves c _ _ _ _ Hk Hn He) as [Hk' Hn'].
    split; [intros k; by rewrite Hc|]. destruct st as [|[|b ds] []|]; rewrite ?Hst; try done.
    destruct Hst as (_ & more & ->). unfold popped. by destruct (drop 4 b).
  - destruct (r =? INTERRUPT); [|destruct Hr as (_ & He & _); by apply (calm_evolves c _ _ _ _ Hk Hn He)].
    destruct (any _ INT_ERROR); [destruct Hr as (He & _); by apply (calm_evolves c _ _ _ _ Hk Hn He)|].
    destruct Hr as [_ Hr]. destruct (issued (ctl h)) as [cmd|] eqn:Ei; [|destruct Hr as [_ He]; by apply (calm_evolves c _ _ _ _ Hk Hn He)].
    destruct (any _ INT_CMD_DONE); [|destruct Hr as [_ He]; by apply (calm_evolves c _ _ _ _ Hk Hn He)].
    destruct Hr as (_ & _ & _ & st1 & c1 & st2 & He & Hb & He2). destruct (calm_evolves c _ _ _ _ Hk Hn He) as [Hk1 Hn1].
    apply (calm_evolves c _ _ _ _ Hk1 (begins_calm _ _ _ _ _ _ _ (Hu cmd Ei) Hn1 Hb) He2).
Qed.

Lemma calm_write c r v h : r ≠ DATA → (r = CMDTM → writes_data v = false) → calm c h → calm c (write r v h).
Proof.
  intros Hd Hcm (Hk & Hu & Hn). destruct (write_acts r v h) as (st & He & Hw).
  destruct (calm_evolves c _ _ _ _ Hk Hn He) as [Hk' Hn']. unfold calm, unarmed. split_and!; [done|..].
  all: unfold written in Hw; rewrite (proj2 (Z.eqb_neq _ _) Hd) in Hw;
    destruct (Z.eqb_spec r CMDTM) as [Hr|_]; [rewrite Hw; cbn; try done; intros cmd [= <-]; by apply Hcm|];
    destruct (r =? ARG1); [by rewrite Hw|]; destruct (r =? BLKSIZECNT); [by rewrite Hw|];
    destruct (r =? CONTROL1); [|by rewrite Hw];
    destruct (any v (Z.lor SRST_DATA SRST_HC)); [by rewrite Hw|]; destruct (any v SRST_CMD); by rewrite Hw.
Qed.

#[local] Instance calm_steady c : Steady (calm c).
Proof. constructor; [intros; by apply calm_read|intros; by apply calm_write]. Qed.
End device.

(** Through programs whose accesses keep a steady invariant. *)
Ltac keep_side := solve [assumption | discriminate | reflexivity | apply _].
Ltac keep :=
  repeat first
    [ apply keeps_ret | apply keeps_fail | apply keeps_lift | apply keeps_unwrap | apply keeps_catch
    | apply keeps_steady_rd; keep_side | apply keeps_steady_wr; keep_side | apply keeps_change; keep_side
    | apply keeps_wait; [keep_side|] | apply keeps_wait_for; keep_side | apply keeps_steady_delay; keep_side
    | apply keeps_steady_polling; [keep_side|..] | apply keeps_command; keep_side | apply keeps_read_data; keep_side
    | apply keeps_reset_lines; keep_side | apply keeps_reset_command_line; keep_side
    | apply keeps_bind; [|intros ?]
    | match goal with |- keeps _ (match ?x with _ => _ end) => destruct x end ].

Section init.
Context {HW : Type} `{SdSlot HW}.
Local Notation M := (Eff HW SdError).
Implicit Types (h : HW).

Section keeping.
Context (P : HW → Prop) {HP : Steady P}.

Lemma keeps_set_clock self hz : keeps P (set_clock self hz : M Card).
Proof. unfold set_clock. keep. Qed.

Lemma keeps_use_4_bit self : keeps P (use_4_bit_bus self : M Card).
Proof. unfold use_4_bit_bus. keep. Qed.

Lemma keeps_use_high_speed self : keeps P (use_high_speed self : M Card).
Proof. unfold use_high_speed. keep. Qed.

Lemma keeps_power_up req : keeps P (power_up req : M Z).
Proof. unfold power_up. keep. Qed.

Lemma keeps_check_version r : keeps P (check_version r : M bool).
Proof.
  destruct r as [r|[]]; cbn [check_version]; [destruct (_ =? _); [apply keeps_ret|apply keeps_fail]|apply keeps_fail| |apply keeps_fail..].
  apply keeps_bind; [by apply keeps_reset_command_line|intros; apply keeps_ret].
Qed.

Lemma keeps_optionally self f r : keeps P f → keeps P r → keeps P (optionally self f r : M Card).
Proof. intros Hf Hr. unfold optionally. apply keeps_bind; [by apply keeps_catch|]. intros [c|e]; [apply keeps_ret|]. apply keeps_bind; [done|intros; apply keeps_ret]. Qed.

Lemma keeps_pins pins : Forall (λ n, 0 <= n) pins → keeps P (take_pins pins : M unit).
Proof.
  assert (Hg : ∀ r v, r < EMMC_BASE → keeps P (wr r v : M unit)).
  { intros r v Hr. apply keeps_steady_wr; [done|intros ->; revert Hr; vm_compute; discriminate..]. }
  induction 1 as [|n pins Hn _ IH]; cbn [take_pins]; [apply keeps_ret|]. unfold Pin_new. destruct (Z.ltb_spec n 54); [|by intros s].
  cbn [unwrap]. intros h Hh. apply post_bind, post_ret. revert h Hh. change (keeps P
    (_ ← set_pin_mode (mkPin n) Alt3; _ ← set_pin_pull (mkPin n) (if number (mkPin n) =? 48 then Off else Up); take_pins pins : M unit)).
  assert (Hm : 0 <= n / 10 <= 5 ∧ 0 <= n / 32 <= 1) by (Z.to_euclidean_division_equations; lia).
  unfold set_pin_mode, set_pin_pull. cbn [number]. repeat (apply keeps_bind; [|intros ?]); [keep|..|exact IH].
  all: apply Hg; unfold gpfsel, gppud, gppudclk, GPIO_BASE, EMMC_BASE, PERIPHERAL_BASE; lia.
Qed.
End keeping.

(** The card is ready when it says how it is addressed. *)
Lemma power_up_spec req h :
  post (power_up req : M Z) h (λ _ ocr, any ocr OCR_HCS = block_addressed) (λ _ _, True).
Proof.
  unfold power_up, polling. eapply post_call; [apply post_true| |done]. intros h1 start _.
  apply (post_loop _ _ (λ _, True)); [|done]. intros h2 _. apply post_bind, post_bind.
  eapply post_mono; [apply post_true| |done]. intros h3 ? _. apply post_bind.
  eapply post_mono; [apply command_spec; reflexivity| |done].
  intros h4 r (_ & _ & _ & _ & st1 & c1 & st2 & _ & Hb & _). apply post_ret.
  destruct (any (r !!! 0%nat) OCR_READY) eqn:Er.
  - apply post_ret. unfold begins in Hb. change (is_data (encode SD_SEND_OP_COND)) with false in Hb.
    change (cmd_index (encode SD_SEND_OP_COND)) with 41 in Hb. change (41 =? 12) with false in Hb. change (41 =? 13) with false in Hb.
    cbn match in Hb. by apply Hb.
  - eapply post_call; [apply post_true| |done]. intros h5 now _. destruct (_ <? _); [done|].
    eapply post_call; [apply post_true| |done]. intros h6 ? _. by apply post_ret.
Qed.

(** Setting the clock changes nothing else of the driver's record, and disturbs nothing. *)
Lemma set_clock_card self hz h : post (set_clock self hz : M Card) h (λ _ c, high_capacity c = high_capacity self) (λ _ _, True).
Proof.
  unfold set_clock. repeat (eapply post_call; [apply post_true| |done]; intros ? ? _). by apply post_ret.
Qed.

Lemma idle_write r v h : dull_write r = true ∨ r = CONTROL1 → idle h → idle (write r v h).
Proof.
  intros [Hd| ->] Hi; [eapply idle_drift; [by apply write_dull|done]|].
  destruct (write_acts CONTROL1 v h) as (st & He & Hw). destruct Hi as [Hq Hn]. rewrite Hq in He. destruct He as [-> _].
  unfold written in Hw. change (CONTROL1 =? DATA) with false in Hw. change (CONTROL1 =? CMDTM) with false in Hw.
  change (CONTROL1 =? ARG1) with false in Hw. change (CONTROL1 =? BLKSIZECNT) with false in Hw. rewrite Z.eqb_refl in Hw.
  unfold idle. destruct (any v _); [by rewrite Hw|]. destruct (any v SRST_CMD); by rewrite Hw.
Qed.

Lemma keeps_idle_rd r : dull_read r = true → keeps idle (rd r : M Z).
Proof. intros Hr. apply keeps_rd. intros h. apply idle_drift. by apply read_dull. Qed.

Lemma keeps_idle_change r f : dull_read r = true → dull_write r = true ∨ r = CONTROL1 → keeps idle (change r f : M unit).
Proof. intros Hr Hw. apply keeps_bind; [by apply keeps_idle_rd|intros v]. apply keeps_wr. intros h. by apply idle_write. Qed.

Lemma idle_timers r h : r = TIMER_CHI ∨ r = TIMER_CLO → idle h → idle (read r h).1.
Proof. intros Hr. apply idle_drift. by apply read_dull, timer_dull. Qed.

Lemma keeps_idle_wait what t r f : dull_read r = true → keeps idle (wait what t (v ← rd r; mret (f v)) : M unit).
Proof.
  intros Hr h Hi. eapply post_mono; [by apply wait_drifts|..]; intros h' ? Hd; (apply (idle_drift h); [exact Hd|exact Hi]).
Qed.

Lemma keeps_idle_set_clock self hz : keeps idle (set_clock self hz : M Card).
Proof.
  assert (Hd : ∀ us, keeps idle (delay_us us : M unit)) by (intros; apply keeps_delay; intros; by apply idle_timers).
  unfold set_clock. repeat (apply keeps_bind; [first [by apply keeps_idle_wait | by apply keeps_idle_change; auto | apply Hd | by apply keeps_idle_rd]|intros ?]).
  apply keeps_ret.
Qed.

Lemma read_words_issued n h : post (read_words n : M (list Z)) h (λ h' _, issued (ctl h') = issued (ctl h)) (λ _ _, False).
Proof.
  revert h. induction n as [|n IH]; intros h; cbn [read_words]; [by apply post_ret|].
  apply post_bind. unfold post at 1, rd. cbn beta iota. apply post_bind. eapply post_mono; [apply IH| |done].
  intros h1 ws Hi. apply post_ret. rewrite Hi. pose proof (read_acts DATA h) as Hr. unfold on_read in Hr. rewrite Z.eqb_refl in Hr.
  apply Hr.
Qed.

Lemma use_high_speed_spec self c h : calm c h →
  post (use_high_speed self : M Card) h (λ h' self', idle h' ∧ high_capacity self' = high_capacity self) (λ _ _, True).
Proof.
  intros Hc. pose proof (calm_steady c) as Hst. unfold use_high_speed. apply post_bind. unfold post at 1, wr.
  assert (Hc1 : calm c (write BLKSIZECNT (Z.lor (Z.shiftl 1 16) (Z.of_nat SWITCH_STATUS_LEN)) h)) by by apply calm_write.
  eapply post_call; [apply post_conj; [apply command_spec; reflexivity|apply (keeps_command (calm c)); [reflexivity|exact Hc1]]| |done].
  intros h2 ? [(Hi2 & _) Hc2].
  eapply (post_call _ _ _ (λ h' _, issued (ctl h') = None ∧ calm c h') (λ _ _, True)); [| |done].
  { eapply post_mono; [apply (post_conj _ _ (λ h' _, issued (ctl h') = None) (λ _ _, True)); [|apply (keeps_read_data (calm c)); exact Hc2]|done|done].
    eapply post_call; [by apply wait_for_flag| |done]. intros h3 ? (h4 & v & Hd & _ & _ & Hd').
    eapply post_mono; [apply read_words_issued| |done]. intros h5 ? ->.
    destruct (drift_trans _ _ _ Hd Hd') as [(_ & _ & -> & _) _]. done. }
  intros h3 status [Hi3 Hc3]. eapply post_call; [by apply wait_for_flag| |done].
  intros h4 ? (h5 & v & Hd & Ht & Hf & Hd'). assert (Hi4 : idle h4).
  { apply (idle_drift h5); [done|]. pose proof (calm_drift c _ _ Hd Hc3) as (_ & _ & Hn).
    split; [|by destruct Hd as [(_ & _ & -> & _) _]]. destruct (stage (ctl h5)) as [|ds ready|]; [done| |done].
    destruct Ht as [_ Ht]. congruence. }
  destruct (negb _); [by apply post_ret|]. eapply post_call; [apply keeps_idle_change; [done|by left|exact Hi4]| |done].
  intros h6 ? Hi6. eapply post_mono; [apply post_conj; [apply set_clock_card|apply keeps_idle_set_clock; exact Hi6]| |done].
  by intros h7 c' [? ?].
Qed.

(** The rest of [init], once the card has powered up. *)
Lemma select_spec self h c : calm c h → high_capacity self = block_addressed →
  post (_ ← command ALL_SEND_CID 0;
        r ← command SEND_RELATIVE_ADDR 0;
        let self := with_rca (Z.land (r !!! 0%nat) 0xFFFF0000) self in
        csd ← command SEND_CSD (rca self);
        let self := with_blocks (Sd.capacity_blocks (csd_register csd)) self in
        _ ← command SELECT_CARD (rca self);
        self ← set_clock self TRANSFER_HZ;
        _ ← (if high_capacity self then mret [] else command SET_BLOCKLEN BLOCK_SIZE);
        self ← optionally self (use_4_bit_bus self) reset_command_line;
        optionally self (use_high_speed self) reset_lines : M Card) h
    (λ h' self', high_capacity self' = block_addressed ∧ idle h') (λ h' _, calm c h').
Proof.
  intros Hc Hh. pose proof (calm_steady c) as Hst.
  assert (Hcmd : ∀ cmd a, writes_data (encode cmd) = false → keeps (calm c) (command cmd a : M (list Z))) by (intros; by apply keeps_command).
  eapply post_call; [apply Hcmd; [reflexivity|exact Hc]| |done]. intros h1 ? Hc1.
  eapply post_call; [apply Hcmd; [reflexivity|exact Hc1]| |done]. intros h2 r Hc2. cbv zeta.
  eapply post_call; [apply Hcmd; [reflexivity|exact Hc2]| |done]. intros h3 csd Hc3.
  eapply post_call; [apply Hcmd; [reflexivity|exact Hc3]| |done]. intros h4 ? Hc4.
  eapply post_call; [apply post_conj; [apply set_clock_card|apply (keeps_set_clock (calm c)); exact Hc4]| |by intros ? ? [_ ?]].
  intros h5 self1 [Hh1 Hc5]. cbn [high_capacity with_blocks with_rca] in Hh1.
  eapply (post_call _ _ _ (λ h' _, calm c h') (λ h' _, calm c h')); [| |done].
  { destruct (high_capacity self1); [by apply post_ret|]. apply Hcmd; [reflexivity|exact Hc5]. }
  intros h6 ? Hc6. cbn beta in Hc6.
  eapply (post_call _ _ _ (λ h' self', high_capacity self' = block_addressed ∧ calm c h') (λ h' _, calm c h')); [| |done].
  { unfold optionally. apply post_bind, post_catch. eapply post_mono.
    - apply (post_conj _ _ (λ _ self', high_capacity self' = block_addressed) (λ _ _, True)); [|apply (keeps_use_4_bit (calm c)); exact Hc6].
      unfold use_4_bit_bus. repeat (eapply post_call; [apply post_true| |done]; intros ? ? _). apply post_ret. cbn. congruence.
    - intros h7 self2 [Hh2 Hc7]. by apply post_ret.
    - intros h7 e [_ Hc7]. eapply post_call; [apply (keeps_reset_command_line (calm c)); exact Hc7| |done].
      intros h8 ? Hc8. apply post_ret. split; [congruence|done]. }
  intros h7 self2 [Hh2 Hc7]. unfold optionally. apply post_bind, post_catch. eapply post_mono.
  - apply post_conj; [by apply (use_high_speed_spec self2 c)|apply (keeps_use_high_speed (calm c)); exact Hc7].
  - intros h8 self3 [[Hi Hh3] _]. apply post_ret. split; [congruence|done].
  - intros h8 e [_ Hc8]. destruct Hc8 as (Hk & Hu & Hn).
    assert (Hp : partial c 0 [] h8).
    { exists O. split_and!; [split; [done|]; intros x; rewrite Hk; cbn [take]; by rewrite overlay_nil|by destruct (stage (ctl h8))|].
      intros cmd Hi Hw. by rewrite (Hu cmd Hi) in Hw. }
    eapply post_call; [apply post_conj; [apply (reset_lines_spec c 0 []); [constructor|exact Hp]|apply (keeps_reset_lines (calm c)); by split_and!]| |].
    + intros h9 ? [[Hi _] _]. by apply post_ret.
    + by intros h9 ? [_ ?].
Qed.

Lemma keeps_init (P : HW → Prop) {HP : Steady P} mailbox : keeps P (init mailbox : M Card).
Proof.
  unfold init, init_on. apply keeps_bind; [apply keeps_pins; [done|repeat constructor; lia]|intros _].
  apply keeps_bind; [apply keeps_query_on; intros; apply keeps_ret|intros answer]. apply keeps_bind; [destruct answer; [apply keeps_ret|apply keeps_fail]|intros words].
  cbv zeta. destruct (_ =? 0); [apply keeps_fail|].
  do 4 (apply keeps_bind; [keep|intros ?]). apply keeps_bind; [by apply keeps_set_clock|intros self]. do 5 (apply keeps_bind; [keep|intros ?]).
  apply keeps_bind; [by apply keeps_check_version|intros version]. apply keeps_bind; [by apply keeps_power_up|intros ocr].
  do 4 (apply keeps_bind; [keep|intros ?]). apply keeps_bind; [by apply keeps_set_clock|intros self']. apply keeps_bind; [keep|intros ?].
  apply keeps_bind; [apply keeps_optionally; [by apply keeps_use_4_bit|by apply keeps_reset_command_line]|intros self''].
  apply keeps_optionally; [by apply keeps_use_high_speed|by apply keeps_reset_lines].
Qed.

Lemma init_spec mailbox c h : calm c h →
  post (init mailbox : M Card) h (λ h' self, high_capacity self = block_addressed ∧ idle h') (λ _ _, True).
Proof.
  intros Hc. pose proof (calm_steady c) as Hst.
  assert (Hstep : ∀ A B (m : M A) (k : A → M B) h Q, calm c h → keeps (calm c) m → (∀ h' a, calm c h' → post (k a) h' Q (λ _ _, True)) →
    post (m ≫= k) h Q (λ _ _, True)).
  { intros A B m k h0 Q H0' Hm Hk. eapply post_call; [by apply Hm|exact Hk|done]. }
  unfold init, init_on. apply Hstep; [done|apply keeps_pins; [done|repeat constructor; lia]|]. intros h1 ? Hc1.
  apply Hstep; [done|apply keeps_query_on; intros; apply keeps_ret|]. intros h2 answer Hc2.
  apply Hstep; [done|destruct answer; [apply keeps_ret|apply keeps_fail]|]. intros h3 words Hc3. cbv zeta. destruct (_ =? 0); [done|].
  do 4 (apply Hstep; [done|keep|]; intros ? ? ?). apply Hstep; [done|by apply keeps_set_clock|]. intros h4 self Hc4.
  do 5 (apply Hstep; [done|keep|]; intros ? ? ?). apply Hstep; [done|by apply keeps_check_version|]. intros h5 version Hc5.
  eapply post_call; [apply post_conj; [apply power_up_spec|apply (keeps_power_up (calm c)); exact Hc5]| |done].
  intros h6 ocr [Ho Hc6]. eapply post_mono; [apply (select_spec _ _ c); [exact Hc6|exact Ho]|done|done].
Qed.

Lemma init_device mailbox h : calm (stored h) h →
  match (init mailbox : M Card) h with Ret h' self => high_capacity self = block_addressed ∧ idle h' | _ => True end.
Proof. intros Hc. pose proof (init_spec mailbox _ h Hc) as Hp. unfold post in Hp. by destruct (init mailbox h). Qed.

(** The block device that initialisation gives. *)
Definition start (mailbox : list Z → list Z) h (Hc : calm (stored h) h) : result SdError (Device (HW := HW)) :=
  match (init mailbox : M Card) h as r
    return match r with Ret h' self => high_capacity self = block_addressed ∧ idle h' | _ => True end → result SdError (Device (HW := HW)) with
  | Ret h' self => λ Hd, Ok (exist _ (self, h') Hd)
  | Fail _ e => λ _, Err e
  | Panic => λ _, Err NoClock
  end (init_device mailbox h Hc).

(** C28: Initialisation writes nothing to the card, whether it succeeds or not.  When it does, the driver knows
    how the card counts (in blocks or in bytes) and the controller is idle, whatever speed-ups the card turned
    down: every call of the block device can be made. *)
Theorem init_finds_the_card mailbox h : calm (stored h) h → query GetClockRate mailbox [EMMC] ≠ None →
  wp (init mailbox : M Card) h
    (λ h' self, high_capacity self = block_addressed ∧ idle h' ∧ kept (stored h) h') (λ h' _, kept (stored h) h').
Proof.
  intros Hc Hq. eapply wp_mono; [apply wp_post; [apply (proj2 (takes_init mailbox Hq))|apply post_conj]|..].
  - by eapply init_spec.
  - apply (keeps_init (calm (stored h)) (HP := calm_steady _)). exact Hc.
  - by intros h' self (_ & [? ?] & [? _]).
  - by intros h' e (_ & _ & [? _]).
Qed.
End init.

End SdDevice.
