(* ===== verification/Fat.v ===== *)
(** The FAT file system: rustypi-core/src/fat/mod.rs and fat/write.rs, every operation.

    The fields of the [Fat] struct that [mount] sets and nothing changes are the record [Volume];
    the device, the two cached FAT sectors, the free-cluster count, the time stamp and the
    next-free hint are the rest of [Fat].  Operations are in the monad of [Effect], whose
    outcome also says when the code would panic, so that a proof about an operation shows that it
    never does.  A [&str] is the list of its characters (see Text).  Loops that the code bounds by
    the cluster count carry that bound as fuel; running out of it counts as a panic. *)
From S2P Require Import Prelude Bytes Text Calendar Effect Disk.
From stdpp Require Import strings.
Open Scope Z_scope.

Module Fat.
Import Effect Text Disk.

Definition DIR_ENTRY_SIZE : nat := 32.
Definition ATTR_DIRECTORY : Z := 0x10.
Definition ATTR_VOLUME_ID : Z := 0x08.
Definition ATTR_LONG_NAME : Z := 0x0F.
Definition ENTRY_END : Z := 0x00.
Definition ENTRY_DELETED : Z := 0xE5.
Definition ENTRY_KANJI_E5 : Z := 0x05.
Definition LFN_LAST : Z := 0x40.
Definition LFN_CHARS : nat := 13.
Definition LFN_OFFSETS : list nat := [1; 3; 5; 7; 9; 14; 16; 18; 20; 22; 24; 28; 30]%nat.
Definition CASE_LOWER_BASE : Z := 0x08.
Definition CASE_LOWER_EXT : Z := 0x10.
Definition MAX_RUN_SECTORS : Z := 256.
Definition DEFAULT_STAMP : Z * Z := (Z.lor (Z.lor (Z.shiftl (2026 - 1980) 9) (Z.shiftl 1 5)) 1, 0).
Definition ATTR_ARCHIVE : Z := 0x20.
Definition MAX_NAME : nat := 255.
(** The characters a name may not contain. *)
Definition FORBIDDEN : list Z := [0x22; 0x2A; 0x2F; 0x3A; 0x3C; 0x3E; 0x3F; 0x5C; 0x7C].
(** What an 8.3 name may contain besides letters and digits. *)
Definition SHORT_EXTRA : list Z :=
  [0x21; 0x23; 0x24; 0x25; 0x26; 0x27; 0x28; 0x29; 0x2D; 0x40; 0x5E; 0x5F; 0x60; 0x7B; 0x7D; 0x7E].
Definition FSINFO_LEAD : Z := 0x41615252.
Definition FSINFO_STRUCT : Z := 0x61417272.

Definition Cluster : Type := Z.

Inductive FatType := Fat16 | Fat32.
#[export] Instance FatType_eq_dec : EqDecision FatType.
Proof. solve_decision. Defined.

Inductive FatError (E : Type) :=
| Device (e : E)
| NotFat (reason : string)
| UnsupportedSectorSize (size : Z)
| Fat12
| BadCluster (cluster : Z)
| ChainLoop
| Truncated
| NotFound
| NotADirectory
| NotAFile
| AlreadyExists
| NotEmpty
| InvalidName
| NoSpace
| DirectoryFull
| TooBig.
Arguments Device {E} e.
Arguments NotFat {E} reason.
Arguments UnsupportedSectorSize {E} size.
Arguments Fat12 {E}.
Arguments BadCluster {E} cluster.
Arguments ChainLoop {E}.
Arguments Truncated {E}.
Arguments NotFound {E}.
Arguments NotADirectory {E}.
Arguments NotAFile {E}.
Arguments AlreadyExists {E}.
Arguments NotEmpty {E}.
Arguments InvalidName {E}.
Arguments NoSpace {E}.
Arguments DirectoryFull {E}.
Arguments TooBig {E}.

Inductive EntryKind := File | Directory.
#[export] Instance EntryKind_eq_dec : EqDecision EntryKind.
Proof. solve_decision. Defined.

Record Stamp := mkStamp { date : Z; time : Z }.

Record DirEntry := mkDirEntry {
  name : list Z; kind : EntryKind; size : Z; modified : Stamp; first_cluster : Cluster }.

Inductive RootDir :=
| Fixed (start sectors : Z)
| RootChain (cluster : Cluster).

Inductive Dir :=
| Root
| Chain (cluster : Cluster).

(** The part of [Fat] that is fixed when the volume is mounted. *)
Record Volume := mkVolume {
  start : Lba;
  fat_type : FatType;
  sectors_per_cluster : Z;
  fat_start : Z;
  root : RootDir;
  data_start : Z;
  cluster_count : Z;
  label : list Z;
  fat_count : Z;
  fat_size : Z;
  fsinfo : option Z }.

Record Fat (D : Type) := mkFat {
  device : D;
  vol : Volume;
  free_count : option Z;
  fat_cache : option (Z * Block);
  fat_dirty : option (Z * Block);
  stamp : Z * Z;
  next_free : Z }.
Arguments mkFat {D}.
Arguments device {D}.
Arguments vol {D}.
Arguments free_count {D}.
Arguments fat_cache {D}.
Arguments fat_dirty {D}.
Arguments stamp {D}.
Arguments next_free {D}.

Section setters.
Context {D : Type}.
Definition with_device d (f : Fat D) : Fat D :=
  mkFat d (vol f) (free_count f) (fat_cache f) (fat_dirty f) (stamp f) (next_free f).
Definition with_free_count n (f : Fat D) : Fat D :=
  mkFat (device f) (vol f) n (fat_cache f) (fat_dirty f) (stamp f) (next_free f).
Definition with_fat_cache c (f : Fat D) : Fat D :=
  mkFat (device f) (vol f) (free_count f) c (fat_dirty f) (stamp f) (next_free f).
Definition with_fat_dirty c (f : Fat D) : Fat D :=
  mkFat (device f) (vol f) (free_count f) (fat_cache f) c (stamp f) (next_free f).
Definition with_stamp s (f : Fat D) : Fat D :=
  mkFat (device f) (vol f) (free_count f) (fat_cache f) (fat_dirty f) s (next_free f).
Definition with_next_free n (f : Fat D) : Fat D :=
  mkFat (device f) (vol f) (free_count f) (fat_cache f) (fat_dirty f) (stamp f) n.
End setters.

(** * Bytes *)

(** Little-endian fields; the code only reads ones inside the block or entry. *)
Definition u16_at (bytes : list Z) (at_ : nat) : Z := le_value (take 2 (drop at_ bytes)).
Definition u32_at (bytes : list Z) (at_ : nat) : Z := le_value (take 4 (drop at_ bytes)).

(** [bytes\[at..at + data.len()\].copy_from_slice(data)], for a range inside. *)
Definition put (at_ : nat) (data bytes : list Z) : list Z :=
  take at_ bytes ++ data ++ drop (at_ + length data) bytes.

(** [chunks_exact]. *)
Fixpoint chunks_fuel (fuel n : nat) (l : list Z) : list (list Z) :=
  match fuel with
  | O => []
  | S fuel => if (length l <? n)%nat then [] else take n l :: chunks_fuel fuel n (drop n l)
  end.
Definition chunks (n : nat) (l : list Z) : list (list Z) := chunks_fuel (length l) n l.

Definition div_ceil (a b : Z) : Z := (a + b - 1) / b.

(** * FAT entries *)

Definition entry_width (t : FatType) : Z := match t with Fat16 => 2 | Fat32 => 4 end.

Definition entry_mask (t : FatType) : Z := match t with Fat16 => 0xFFFF | Fat32 => 0x0FFFFFFF end.

Definition decode (t : FatType) (block : Block) (at_ : nat) : Z :=
  let raw := if decide (t = Fat16) then u16_at block at_ else u32_at block at_ in
  Z.land raw (entry_mask t).

(** * Geometry *)

Definition cluster_size (v : Volume) : Z := sectors_per_cluster v * BLOCK_SIZE.

Definition first_sector (v : Volume) (cluster : Cluster) : Z :=
  data_start v + (cluster - 2) * sectors_per_cluster v.

Definition fat_position (v : Volume) (cluster : Z) : Z * nat :=
  let offset := cluster * entry_width (fat_type v) in
  (fat_start v + offset / BLOCK_SIZE, Z.to_nat (offset mod BLOCK_SIZE)).

(** * Mounting *)

Definition boot_volume {E} (at_ : Lba) (boot : Block) : result (FatError E) Volume :=
  if negb ((boot !!! 510%nat) =? 0x55) || negb ((boot !!! 511%nat) =? 0xAA)
  then Err (NotFat "no boot signature") else
  let bytes_per_sector := u16_at boot 11 in
  if negb (bytes_per_sector =? BLOCK_SIZE) then Err (UnsupportedSectorSize bytes_per_sector) else
  let sectors_per_cluster := boot !!! 13%nat in
  if negb (Mbr.is_power_of_two sectors_per_cluster)
  then Err (NotFat "cluster size is not a power of two") else
  let reserved := u16_at boot 14 in
  let fat_count := boot !!! 16%nat in
  let root_entries := u16_at boot 17 in
  let total := if u16_at boot 19 =? 0 then u32_at boot 32 else u16_at boot 19 in
  let fat_size := if u16_at boot 22 =? 0 then u32_at boot 36 else u16_at boot 22 in
  if (reserved =? 0) || (fat_count =? 0) || (fat_size =? 0)
  then Err (NotFat "empty reserved area or FAT") else
  let root_sectors := div_ceil (root_entries * Z.of_nat DIR_ENTRY_SIZE) BLOCK_SIZE in
  let root_start := reserved + fat_count * fat_size in
  let data_start := root_start + root_sectors in
  if total <=? data_start then Err (NotFat "no room for data") else
  let cluster_count := Z.min ((total - data_start) / sectors_per_cluster) 0x0FFFFFF5 in
  '(fat_type, root, label_at) ←
    (if cluster_count <? 4085 then Err Fat12
     else if cluster_count <? 65525 then Ok (Fat16, Fixed root_start root_sectors, 43%nat)
     else Ok (Fat32, RootChain (u32_at boot 44), 71%nat));
  let label := trim_end (from_utf8_lossy 11 (take 11 (drop label_at boot))) in
  let fsinfo :=
    let sector := u16_at boot 48 in
    if bool_decide (fat_type = Fat32) && negb (sector =? 0) && negb (sector =? 0xFFFF)
    then Some sector else None in
  Ok (mkVolume at_ fat_type sectors_per_cluster reserved root data_start cluster_count label
        fat_count fat_size fsinfo).

(** * Names *)

Definition names_match `{Unicode} (a b : list Z) : bool := bool_decide (lowercase a = lowercase b).

Definition rotate_right_1 (b : Z) : Z := Z.lor (Z.shiftr b 1) (Z.shiftl (Z.land b 1) 7).

Definition short_name_checksum (name : list Z) : Z :=
  foldl (λ sum b, wrap 8 (rotate_right_1 sum + b)) 0 name.

(** One part of an 8.3 name: Latin-1 characters without the padding, in the case the flag says. *)
Definition short_part `{Unicode} (bytes : list Z) (lower : bool) : list Z :=
  let text := trim_end bytes in if lower then lowercase text else text.

Definition short_name `{Unicode} (entry : list Z) : list Z :=
  let case := entry !!! 12%nat in
  let base := short_part (take 8 entry) (negb (Z.land case CASE_LOWER_BASE =? 0)) in
  let base := if (entry !!! 0%nat) =? ENTRY_KANJI_E5 then 0xE5 :: drop 1 base else base in
  let ext := short_part (take 3 (drop 8 entry)) (negb (Z.land case CASE_LOWER_EXT =? 0)) in
  match ext with [] => base | _ => base ++ 0x2E :: ext end.

(** The pieces of a long name collected so far. *)
Record LongName := mkLongName { units : list Z; checksum : Z; expected : Z }.

Definition reset (n : LongName) : LongName := mkLongName [] (checksum n) 0.

(** [None] is a write outside [units], which would panic. *)
Definition add_piece (entry : list Z) (n : LongName) : option LongName :=
  let seq := Z.land (entry !!! 0%nat) 0x1F in
  let n := if negb (Z.land (entry !!! 0%nat) LFN_LAST =? 0)
           then mkLongName (replicate (Z.to_nat seq * LFN_CHARS) 0xFFFF) (entry !!! 13%nat) seq
           else n in
  if (seq =? 0) || negb (seq =? expected n) || negb ((entry !!! 13%nat) =? checksum n)
  then Some (reset n) else
  let base := (Z.to_nat (seq - 1) * LFN_CHARS)%nat in
  if (length (units n) <? base + LFN_CHARS)%nat then None else
  Some (mkLongName (put base (u16_at entry <$> LFN_OFFSETS) (units n)) (checksum n) (wrap 8 (expected n - 1))).

Definition is_end_unit (u : Z) : bool := (u =? 0) || (u =? 0xFFFF).

Fixpoint until_end (us : list Z) : list Z :=
  match us with
  | [] => []
  | u :: us => if is_end_unit u then [] else u :: until_end us
  end.

Definition take_name (short : list Z) (n : LongName) : LongName * option (list Z) :=
  let complete := (expected n =? 0) && negb (bool_decide (units n = [])) in
  (reset n, if complete && (checksum n =? short_name_checksum short)
            then Some (decode_utf16 (until_end (units n))) else None).

(** [Located]: an entry and the slots it takes up. *)
Record Located := mkLocated { entry : DirEntry; slots : nat * nat }.

Definition is_dot (name : list Z) : bool := bool_decide (name = [0x2E]) || bool_decide (name = [0x2E; 0x2E]).

Definition dir_entry (t : FatType) (name e : list Z) : DirEntry :=
  let high := if decide (t = Fat32) then u16_at e 20 else 0 in
  let directory := negb (Z.land (e !!! 11%nat) ATTR_DIRECTORY =? 0) in
  mkDirEntry name (if directory then Directory else File) (if directory then 0 else u32_at e 28)
    (mkStamp (u16_at e 24) (u16_at e 22)) (Z.lor (Z.shiftl high 16) (u16_at e 26)).

(** The loop of [parse_located] over the entries from slot [index] on. *)
Fixpoint parse_from `{Unicode} (t : FatType) (index long_start : nat) (long : LongName)
    (es : list (list Z)) : option (list Located) :=
  match es with
  | [] => Some []
  | e :: es =>
    let attr := e !!! 11%nat in
    let e0 := e !!! 0%nat in
    if e0 =? ENTRY_END then Some []
    else if e0 =? ENTRY_DELETED then parse_from t (S index) long_start (reset long) es
    else if Z.land attr 0x3F =? ATTR_LONG_NAME then
      let long_start := if negb (Z.land e0 LFN_LAST =? 0) then index else long_start in
      long ← add_piece e long;
      parse_from t (S index) long_start long es
    else if negb (Z.land attr ATTR_VOLUME_ID =? 0) then parse_from t (S index) long_start (reset long) es
    else
      let '(long, long_name) := take_name (take 11 e) long in
      let slots := match long_name with Some _ => (long_start, S index) | None => (index, S index) end in
      let name := match long_name with Some n => n | None => short_name e end in
      if is_dot name then parse_from t (S index) long_start long es
      else rest ← parse_from t (S index) long_start long es;
           Some (mkLocated (dir_entry t name e) slots :: rest)
  end.

Definition parse_located `{Unicode} (t : FatType) (bytes : list Z) : option (list Located) :=
  parse_from t 0 0 (mkLongName [] 0 0) (chunks DIR_ENTRY_SIZE bytes).

Definition parse_entries `{Unicode} (t : FatType) (bytes : list Z) : option (list DirEntry) :=
  located ← parse_located t bytes; Some (map entry located).

(** * Directory images and new entries: write.rs *)

Record DirImage := mkDirImage { sectors : list Z; bytes : list Z }.

Definition image_slots (i : DirImage) : nat := (length (bytes i) / DIR_ENTRY_SIZE)%nat.

(** [image.entry(index)], read and written; [None] is an index outside, which panics. *)
Definition image_entry (index : nat) (i : DirImage) : option (list Z) :=
  slice (index * DIR_ENTRY_SIZE) ((index + 1) * DIR_ENTRY_SIZE) (bytes i).
Definition set_image_entry (index : nat) (e : list Z) (i : DirImage) : option DirImage :=
  _ ← image_entry index i;
  Some (mkDirImage (sectors i) (put (index * DIR_ENTRY_SIZE) e (bytes i))).

Fixpoint before_end (es : list (list Z)) : list (list Z) :=
  match es with
  | [] => []
  | e :: es => if (e !!! 0%nat) =? ENTRY_END then [] else e :: before_end es
  end.

Definition short_names (i : DirImage) : list (list Z) :=
  take 11 <$> List.filter (λ e, negb ((e !!! 0%nat) =? ENTRY_DELETED) &&
                               negb (Z.land (e !!! 11%nat) 0x3F =? ATTR_LONG_NAME))
    (before_end (chunks DIR_ENTRY_SIZE (bytes i))).

Fixpoint free_run_from (count slots run index : nat) (es : list (list Z)) : option nat :=
  match es with
  | [] => None
  | e :: es =>
    if (e !!! 0%nat) =? ENTRY_END
    then (if (index - run + count <=? slots)%nat then Some (index - run)%nat else None)
    else let run := if (e !!! 0%nat) =? ENTRY_DELETED then S run else 0%nat in
         if (run =? count)%nat then Some (index + 1 - count)%nat
         else free_run_from count slots run (S index) es
  end.

Definition free_run (count : nat) (i : DirImage) : option nat :=
  free_run_from count (image_slots i) 0 0 (chunks DIR_ENTRY_SIZE (bytes i)).

Definition ends_with (c : Z) (s : list Z) : bool := bool_decide (last s = Some c).

Definition contains (c : Z) (s : list Z) : bool := bool_decide (c ∈ s).

(** [check_name(name).is_ok()]. *)
Definition valid_name (name : list Z) : bool :=
  negb (bool_decide (name = []) || (MAX_NAME <? length (encode_utf16 name))%nat || is_dot name ||
        ends_with 0x20 name || ends_with 0x2E name ||
        existsb (λ c, (c <? 0x20) || contains c FORBIDDEN) name).

Definition check_name {E} (name : list Z) : result (FatError E) unit :=
  if valid_name name then Ok tt else Err InvalidName.

Definition split_path (path : list Z) : list Z * list Z :=
  let path := trim_end_by (Z.eqb 0x2F) path in
  default ([], path) (rsplit_once 0x2F path).

Definition is_short_char (c : Z) : bool := is_ascii_alphanumeric c || contains c SHORT_EXTRA.

(** Whether a part of an 8.3 name is in lower case; [None] if it is not one. *)
Definition part_case (part : list Z) : option bool :=
  let lower := existsb is_ascii_lowercase part in
  let upper := existsb is_ascii_uppercase part in
  if forallb is_short_char part && negb (lower && upper) then Some lower else None.

Definition exact_short_name (name : list Z) : option (list Z * Z) :=
  let '(base, ext) := default (name, []) (split_once 0x2E name) in
  if bool_decide (base = []) || (8 <? str_len base) || (3 <? str_len ext) || contains 0x2E ext then None else
  base_lower ← part_case base;
  ext_lower ← part_case ext;
  let short := put 0 (to_ascii_uppercase <$> base) (replicate 11 0x20) in
  let short := put 8 (to_ascii_uppercase <$> ext) short in
  Some (short, Z.lor (if base_lower : bool then CASE_LOWER_BASE else 0)
                     (if ext_lower : bool then CASE_LOWER_EXT else 0)).

Definition clean (part : list Z) (max : nat) : list Z :=
  take max ((λ c, if is_short_char c then to_ascii_uppercase c else 0x5F) <$>
            List.filter (λ c, negb (c =? 0x20) && negb (c =? 0x2E)) part).

(** The alias with number [n]; [None] when the number no longer fits, where the slice panics. *)
Definition numbered (basis ext : list Z) (n : Z) : option (list Z) :=
  let tail := 0x7E :: dec n in
  let keep := Nat.min (length basis) (Z.to_nat (wrap 64 (8 - Z.of_nat (length tail)))) in
  if (11 <? keep + length tail)%nat then None else
  let short := put 8 ext (replicate 11 0x20) in
  let short := put 0 (replicate 8 0x20) short in
  Some (put keep tail (put 0 (take keep basis) short)).

Fixpoint alias_from (fuel : nat) (basis ext : list Z) (taken : list (list Z)) (n : Z) : option (list Z) :=
  match fuel with
  | O => None
  | S fuel => short ← numbered basis ext n;
              if decide (short ∈ taken) then alias_from fuel basis ext taken (n + 1) else Some short
  end.

Definition alias (name : list Z) (taken : list (list Z)) : option (list Z) :=
  let trimmed := trim_start_by (Z.eqb 0x2E) name in
  let '(base, ext) := default (trimmed, []) (rsplit_once 0x2E trimmed) in
  let basis := match clean base 6 with [] => [0x5F] | b => b end in
  alias_from (S (length taken)) basis (clean ext 3) taken 1.

Definition set_modified (stamp : Z * Z) (e : list Z) : list Z :=
  put 24 (le_bytes 2 stamp.1) (put 22 (le_bytes 2 stamp.2) e).

Definition set_cluster_and_size (cluster size : Z) (e : list Z) : list Z :=
  let e := put 20 (le_bytes 2 (Z.shiftr cluster 16)) e in
  let e := put 26 (le_bytes 2 cluster) e in
  put 28 (le_bytes 4 size) e.

Definition short_entry (short : list Z) (case attr cluster size : Z) (stamp : Z * Z) : list Z :=
  let '(date, time) := stamp in
  let e := replicate DIR_ENTRY_SIZE 0 in
  let e := put 0 short e in
  let e := put 11 [attr] e in
  let e := put 12 [case] e in
  let e := put 14 (le_bytes 2 time) e in
  let e := put 16 (le_bytes 2 date) e in
  let e := put 18 (le_bytes 2 date) e in
  let e := set_modified stamp e in
  set_cluster_and_size cluster size e.

Definition long_piece (checksum : Z) (units : list Z) (pieces seq : nat) : list Z :=
  let e := replicate DIR_ENTRY_SIZE 0 in
  let e := put 0 [Z.lor (Z.of_nat seq) (if (seq =? pieces)%nat then LFN_LAST else 0)] e in
  let e := put 11 [ATTR_LONG_NAME] e in
  let e := put 13 [checksum] e in
  let chars := take LFN_CHARS (drop ((seq - 1) * LFN_CHARS) units) in
  foldl (λ e '(unit, at_), put at_ (le_bytes 2 unit) e) e (zip chars LFN_OFFSETS).

(** [Vec::resize]. *)
Definition resize (n : nat) (x : Z) (l : list Z) : list Z := take n l ++ replicate (n - length l) x.

Definition long_entries (name short : list Z) : list (list Z) :=
  let checksum := short_name_checksum short in
  let us := encode_utf16 name in
  let pieces := Z.to_nat (div_ceil (Z.of_nat (length us)) (Z.of_nat LFN_CHARS)) in
  let us := if (length us mod LFN_CHARS =? 0)%nat then us else us ++ [0] in
  let us := resize (pieces * LFN_CHARS) 0xFFFF us in
  long_piece checksum us pieces <$> rev (seq 1 pieces).

(** * The monad *)

Section monad.
Context {D E : Type}.

Local Notation M := (Eff (Fat D) (FatError E)).

Definition volume : M Volume := λ f, Ret f (vol f).

(** A call of the device. *)
Definition dev {A} (op : D → D * result E A) : M A := λ f,
  match op (device f) with
  | (d, Ok a) => Ret (with_device d f) a
  | (d, Err e) => Fail (with_device d f) (Device e)
  end.
End monad.
Notation M D E := (Eff (Fat D) (FatError E)).

(** * Reading *)
Section reading.
Context `{BlockDevice D E} `{Unicode}.
Local Notation M := (M D E).

Definition mount (d : D) (at_ : Lba) : result (FatError E) (Fat D) :=
  match read_block at_ d with
  | (_, Err e) => Err (Device e)
  | (d, Ok boot) => v ← boot_volume at_ boot;
                    Ok (mkFat d v None None None DEFAULT_STAMP 2)
  end.

(** Sector [sector] of the volume, as the device numbers it. *)
Definition lba (v : Volume) (sector : Z) : Lba := offset (start v) sector.

Definition check (cluster : Z) : M unit :=
  v ← volume;
  if (cluster <? 2) || (cluster_count v + 2 <=? cluster) then fail (BadCluster cluster) else mret tt.

Definition fat_entry (cluster : Z) : M Z :=
  v ← volume;
  let '(sector, at_) := fat_position v cluster in
  f ← get;
  let read :=
    block ← dev (read_block (lba v sector));
    let value := decode (fat_type v) block at_ in
    _ ← modify (with_fat_cache (Some (sector, block)));
    mret value in
  let cached :=
    match fat_cache f with
    | Some (cached, block) => if cached =? sector then mret (decode (fat_type v) block at_) else read
    | None => read
    end in
  match fat_dirty f with
  | Some (dirty, block) => if dirty =? sector then mret (decode (fat_type v) block at_) else cached
  | None => cached
  end.

Definition next (cluster : Cluster) : M (option Cluster) :=
  v ← volume;
  let '(end_, bad) := match fat_type v with
                      | Fat16 => (0xFFF8, 0xFFF7)
                      | Fat32 => (0x0FFFFFF8, 0x0FFFFFF7)
                      end in
  value ← fat_entry cluster;
  if end_ <=? value then mret None
  else if value =? bad then fail (BadCluster cluster)
  else mret (Some value).

(** The bytes of [count] sectors from [sector] on. *)
Definition read_sectors (sector count : Z) : M (list Z) :=
  v ← volume;
  blocks ← dev (read_blocks (lba v sector) (Z.to_nat count));
  mret (concat blocks).

Definition covered (limit : option Z) (n : Z) : bool :=
  match limit with Some l => l <=? n | None => false end.

(** The inner loop of [read_chain]: how long the run of consecutive clusters is, the steps taken
    so far, and where the chain goes on. *)
Fixpoint extend_run (fuel : nat) (limit : option Z) (len max_run : Z) (current : Cluster) (run steps : Z)
  : M (Z * Z * option Cluster) :=
  match fuel with
  | O => panic
  | S fuel =>
    v ← volume;
    _ ← check current;
    let steps := steps + 1 in
    if cluster_count v <? steps then fail ChainLoop else
    let run := run + 1 in
    cluster ← next current;
    match cluster with
    | Some n =>
        if (n =? current + 1) && (run <? max_run) && negb (covered limit (len + run * cluster_size v))
        then extend_run fuel limit len max_run n run steps
        else mret (run, steps, cluster)
    | None => mret (run, steps, cluster)
    end
  end.

(** The outer loop: one run after the other. *)
Fixpoint read_runs (fuel : nat) (limit : option Z) (max_run : Z) (cluster : option Cluster)
    (bytes : list Z) (steps : Z) : M (list Z) :=
  match fuel with
  | O => panic
  | S fuel =>
    v ← volume;
    match cluster with
    | None => mret bytes
    | Some first =>
      if covered limit (Z.of_nat (length bytes)) then mret bytes else
      '(run, steps, cluster) ←
        extend_run (S (Z.to_nat (cluster_count v))) limit (Z.of_nat (length bytes)) max_run first 0 steps;
      more ← read_sectors (first_sector v first) (run * sectors_per_cluster v);
      read_runs fuel limit max_run cluster (bytes ++ more) steps
    end
  end.

Definition read_chain (first : Cluster) (limit : option Z) : M (list Z) :=
  if bool_decide (limit = Some 0) then mret [] else
  v ← volume;
  let max_run := Z.max (MAX_RUN_SECTORS / sectors_per_cluster v) 1 in
  bytes ← read_runs (S (S (Z.to_nat (cluster_count v)))) limit max_run (Some first) [] 0;
  match limit with
  | Some limit => if Z.of_nat (length bytes) <? limit then fail Truncated
                  else mret (take (Z.to_nat limit) bytes)
  | None => mret bytes
  end.

Definition entries (dir : Dir) : M (list DirEntry) :=
  v ← volume;
  bytes ← match dir, root v with
          | Root, Fixed start sectors => read_sectors start sectors
          | Root, RootChain cluster | Chain cluster, _ => read_chain cluster None
          end;
  unwrap (parse_entries (fat_type v) bytes).

Definition find_in (dir : Dir) (wanted : list Z) : M DirEntry :=
  es ← entries dir;
  match List.find (λ e, names_match (name e) wanted) es with
  | Some e => mret e
  | None => fail NotFound
  end.

Fixpoint walk (dir : Dir) (names : list (list Z)) : M Dir :=
  match names with
  | [] => mret dir
  | wanted :: names =>
    e ← find_in dir wanted;
    if negb (bool_decide (kind e = Directory)) then fail NotADirectory
    else walk (if first_cluster e =? 0 then Root else Chain (first_cluster e)) names
  end.

Definition find_dir (path : list Z) : M Dir :=
  walk Root (List.filter (λ part, negb (bool_decide (part = []))) (Bytes.split 0x2F path)).

Definition read_dir (path : list Z) : M (list DirEntry) :=
  dir ← find_dir path; entries dir.

Definition metadata (path : list Z) : M DirEntry :=
  let whole := trim_start_by (Z.eqb 0x2F) (trim_end_by (Z.eqb 0x2F) path) in
  let otherwise := match whole with [] => None | _ => Some ([], whole) end in
  let target := match rsplit_once 0x2F (trim_end_by (Z.eqb 0x2F) path) with
                | Some (parent, (_ :: _) as name) => Some (parent, name)
                | _ => otherwise
                end in
  match target with
  | None => fail NotFound
  | Some (parent, name) => dir ← find_dir parent; find_in dir name
  end.

Definition read_file (path : list Z) : M (list Z) :=
  e ← metadata path;
  if negb (bool_decide (kind e = File)) then fail NotAFile
  else read_chain (first_cluster e) (Some (size e)).
End reading.

(** * Writing *)
Section writing.
Context `{WritableBlockDevice D E} `{Unicode}.
Local Notation M := (M D E).

Definition set_time (now : Calendar.DateTime) : M unit := modify (with_stamp (Calendar.fat now)).

(** Clusters from [cluster] on, [n] of them, with a FAT entry of 0. *)
Fixpoint count_free (n : nat) (cluster free : Z) : M Z :=
  match n with
  | O => mret free
  | S n => value ← fat_entry cluster;
           count_free n (cluster + 1) (if value =? 0 then free + 1 else free)
  end.

Definition free_clusters : M Z :=
  v ← volume; count_free (Z.to_nat (cluster_count v)) 2 0.

Definition begin_change : M unit :=
  f ← get;
  if bool_decide (fsinfo (vol f) = None) || negb (bool_decide (free_count f = None)) then mret tt else
  n ← free_clusters;
  modify (with_free_count (Some n)).

Definition finish_change (result : result (FatError E) unit) : M unit :=
  f ← get;
  _ ← match fsinfo (vol f), free_count f with
      | Some sector, Some free =>
          block ← dev (read_block (lba (vol f) sector));
          if (u32_at block 0 =? FSINFO_LEAD) && (u32_at block 484 =? FSINFO_STRUCT) then
            let block := put 488 (le_bytes 4 free) block in
            let block := put 492 (le_bytes 4 (next_free f)) block in
            dev (write_block (lba (vol f) sector) block)
          else mret tt
      | _, _ => mret tt
      end;
  lift result.

(** Writes the pending sector to copies [copy], [copy + 1], ... of the FAT, [n] of them. *)
Fixpoint flush_copies (n : nat) (copy sector : Z) (block : Block) : M unit :=
  match n with
  | O => mret tt
  | S n => v ← volume;
           _ ← dev (write_block (lba v (sector + copy * fat_size v)) block);
           flush_copies n (copy + 1) sector block
  end.

Definition flush_fat : M unit :=
  f ← get;
  match fat_dirty f with
  | None => mret tt
  | Some (sector, block) =>
      _ ← modify (with_fat_dirty None);
      _ ← flush_copies (Z.to_nat (fat_count (vol f))) 0 sector block;
      modify (with_fat_cache (Some (sector, block)))
  end.

(** A FAT sector with the entry at [at_] changed to [value]. *)
Definition patch (t : FatType) (at_ : nat) (value : Z) (block : Block) : Block :=
  match t with
  | Fat16 => put at_ (le_bytes 2 value) block
  | Fat32 => let kept := Z.land (u32_at block at_) (bnot 32 (entry_mask t)) in
             put at_ (le_bytes 4 (Z.lor kept value)) block
  end.

Definition set_fat_entry (cluster value : Z) : M unit :=
  v ← volume;
  let '(sector, at_) := fat_position v cluster in
  f ← get;
  _ ← match fat_dirty f with
      | Some (dirty, _) => if dirty =? sector then mret tt else flush_fat
      | None => mret tt
      end;
  f ← get;
  _ ← match fat_dirty f with
      | Some _ => mret tt
      | None =>
          _ ← modify (with_fat_cache None);
          let read := dev (read_block (lba v sector)) in
          block ← match fat_cache f with
                  | Some (cached, block) => if cached =? sector then mret block else read
                  | None => read
                  end;
          modify (with_fat_dirty (Some (sector, block)))
      end;
  f ← get;
  match fat_dirty f with
  | None => panic
  | Some (dirty, block) => modify (with_fat_dirty (Some (dirty, patch (fat_type v) at_ value block)))
  end.

(** The search of [allocate]: clusters [2 + (first - 2 + i) % total] for [i] from [i] on. *)
Fixpoint find_free (n : nat) (first i : Z) (count : nat) (clusters : list Z) : M (list Z) :=
  match n with
  | O => mret clusters
  | S n =>
    if (length clusters =? count)%nat then mret clusters else
    v ← volume;
    let cluster := 2 + (first - 2 + i) mod cluster_count v in
    value ← fat_entry cluster;
    find_free n first (i + 1) count (if value =? 0 then clusters ++ [cluster] else clusters)
  end.

Definition clamp (lo hi x : Z) : Z := Z.max lo (Z.min hi x).

Definition allocate (count : nat) : M (list Z) :=
  f ← get;
  let total := cluster_count (vol f) in
  let first := clamp 2 (total + 1) (next_free f) in
  clusters ← find_free (Z.to_nat total) first 0 count [];
  if (length clusters <? count)%nat then fail NoSpace else
  _ ← modify (with_next_free (match last clusters with Some l => l + 1 | None => 2 end));
  mret clusters.

(** How far the run of consecutive clusters at [i] goes, from [run] on. *)
Fixpoint run_length (fuel : nat) (clusters : list Z) (i run : nat) (max_run : nat) : nat :=
  match fuel with
  | O => run
  | S fuel =>
    if (i + run <? length clusters)%nat &&
       bool_decide (clusters !! (i + run)%nat = (λ c, c + Z.of_nat run) <$> clusters !! i) &&
       (run <? max_run)%nat
    then run_length fuel clusters i (S run) max_run else run
  end.

Fixpoint write_runs (fuel : nat) (clusters : list Z) (blocks : list Block) (i : nat) : M unit :=
  match fuel with
  | O => panic
  | S fuel =>
    if negb (i <? length clusters)%nat then mret tt else
    v ← volume;
    let per_cluster := Z.to_nat (sectors_per_cluster v) in
    let max_run := Nat.max (Z.to_nat MAX_RUN_SECTORS / per_cluster) 1 in
    let run := run_length (length clusters) clusters i 1 max_run in
    first ← unwrap (clusters !! i);
    piece ← unwrap (slice (i * per_cluster) ((i + run) * per_cluster) blocks);
    _ ← dev (write_blocks (lba v (first_sector v first)) piece);
    write_runs fuel clusters blocks (i + run)
  end.

Definition write_clusters (clusters data : list Z) : M unit :=
  v ← volume;
  let padded := resize (length clusters * Z.to_nat (cluster_size v)) 0 data in
  write_runs (S (length clusters)) clusters (chunks (Z.to_nat BLOCK_SIZE) padded) 0.

Fixpoint link_from (clusters : list Z) : M unit :=
  match clusters with
  | [] => mret tt
  | cluster :: rest =>
    v ← volume;
    _ ← set_fat_entry cluster (default (entry_mask (fat_type v)) (head rest));
    link_from rest
  end.

Definition link (clusters : list Z) : M unit :=
  _ ← link_from clusters;
  _ ← flush_fat;
  f ← get;
  match free_count f with
  | Some free => modify (with_free_count (Some (wrap 32 (free - Z.of_nat (length clusters)))))
  | None => mret tt
  end.

Definition write_chain (data : list Z) : M Z :=
  match data with
  | [] => mret 0
  | _ =>
    v ← volume;
    clusters ← allocate (Z.to_nat (div_ceil (Z.of_nat (length data)) (cluster_size v)));
    _ ← write_clusters clusters data;
    _ ← link clusters;
    unwrap (head clusters)
  end.

Fixpoint chain_from (fuel : nat) (cluster : option Cluster) (chain : list Z) : M (list Z) :=
  match fuel with
  | O => panic
  | S fuel =>
    match cluster with
    | None => mret chain
    | Some current =>
      v ← volume;
      _ ← check current;
      if cluster_count v <=? Z.of_nat (length chain) then fail ChainLoop else
      n ← next current;
      chain_from fuel n (chain ++ [current])
    end
  end.

Definition chain (first : Z) : M (list Z) :=
  v ← volume; chain_from (S (S (Z.to_nat (cluster_count v)))) (Some first) [].

Fixpoint set_all (clusters : list Z) (value : Z) : M unit :=
  match clusters with
  | [] => mret tt
  | cluster :: rest => _ ← set_fat_entry cluster value; set_all rest value
  end.

Definition free_chain (first : Z) : M unit :=
  chain ← (if first =? 0 then mret [] else chain first);
  _ ← set_all chain 0;
  _ ← flush_fat;
  f ← get;
  _ ← match free_count f with
      | Some free => modify (with_free_count (Some (wrap 32 (free + Z.of_nat (length chain)))))
      | None => mret tt
      end;
  match chain with
  | [] => mret tt
  | c :: cs => modify (λ f, with_next_free (Z.min (next_free f) (foldr Z.min c cs)) f)
  end.

(** The sectors of the clusters of a chain, in order. *)
Definition chain_sectors (v : Volume) (clusters : list Z) : list Z :=
  concat ((λ c, seqZ (first_sector v c) (sectors_per_cluster v)) <$> clusters).

Fixpoint read_each (sectors : list Z) : M (list Z) :=
  match sectors with
  | [] => mret []
  | sector :: rest =>
    v ← volume;
    block ← dev (read_block (lba v sector));
    more ← read_each rest;
    mret (block ++ more)
  end.

Definition load_dir (dir : Dir) : M DirImage :=
  v ← volume;
  sectors ← match dir, root v with
            | Root, Fixed start sectors => mret (seqZ start sectors)
            | Root, RootChain first | Chain first, _ =>
                clusters ← chain first; mret (chain_sectors v clusters)
            end;
  bytes ← read_each sectors;
  mret (mkDirImage sectors bytes).

Fixpoint store_from (n index : nat) (image : DirImage) : M unit :=
  match n with
  | O => mret tt
  | S n =>
    v ← volume;
    block ← unwrap (slice (index * Z.to_nat BLOCK_SIZE) ((index + 1) * Z.to_nat BLOCK_SIZE) (bytes image));
    sector ← unwrap (sectors image !! index);
    _ ← dev (write_block (lba v sector) block);
    store_from n (S index) image
  end.

Definition store_dir (image : DirImage) (slots : nat * nat) : M unit :=
  let per_sector := 16%nat in
  let first := (slots.1 / per_sector)%nat in
  let last := ((slots.2 + per_sector - 1) / per_sector)%nat in
  store_from (last - first) first image.

Fixpoint position_of_end (index : nat) (es : list (list Z)) : option nat :=
  match es with
  | [] => None
  | e :: es => if (e !!! 0%nat) =? ENTRY_END then Some index else position_of_end (S index) es
  end.

Definition grow_dir (dir : Dir) (image : DirImage) (needed : nat) : M (DirImage * nat) :=
  v ← volume;
  first ← match dir, root v with
          | Root, Fixed _ _ => fail DirectoryFull
          | Root, RootChain first | Chain first, _ => mret first
          end;
  old ← chain first;
  let end_ := default (image_slots image) (position_of_end 0 (chunks DIR_ENTRY_SIZE (bytes image))) in
  let free_at_end := (image_slots image - end_)%nat in
  let per_cluster := cluster_size v / Z.of_nat DIR_ENTRY_SIZE in
  let clusters := Z.to_nat (div_ceil (wrap 64 (Z.of_nat needed - Z.of_nat free_at_end)) per_cluster) in
  new ← allocate clusters;
  let zeroes := replicate (clusters * Z.to_nat (cluster_size v)) 0 in
  _ ← write_clusters new zeroes;
  _ ← link new;
  last_old ← unwrap (last old);
  first_new ← unwrap (head new);
  _ ← set_fat_entry last_old first_new;
  _ ← flush_fat;
  let sectors := sectors image ++ chain_sectors v new in
  mret (mkDirImage sectors (resize (length sectors * Z.to_nat BLOCK_SIZE) 0 (bytes image)), end_).

Fixpoint put_entries (at_ : nat) (es : list (list Z)) (image : DirImage) : option DirImage :=
  match es with
  | [] => Some image
  | e :: es => image ← set_image_entry at_ e image; put_entries (S at_) es image
  end.

(** The entries [add_entry] makes for a name. *)
Definition new_entries (name : list Z) (taken : list (list Z)) (attr cluster size : Z) (stamp : Z * Z)
  : option (list (list Z)) :=
  match exact_short_name name with
  | Some (short, case) => Some [short_entry short case attr cluster size stamp]
  | None => short ← alias name taken;
            Some (long_entries name short ++ [short_entry short 0 attr cluster size stamp])
  end.

Definition add_entry (dir : Dir) (image : DirImage) (name : list Z) (attr cluster size : Z) : M unit :=
  f ← get;
  es ← unwrap (new_entries name (short_names image) attr cluster size (stamp f));
  '(image, at_) ← match free_run (length es) image with
                  | Some at_ => mret (image, at_)
                  | None => grow_dir dir image (length es)
                  end;
  image ← unwrap (put_entries at_ es image);
  store_dir image (at_, at_ + length es)%nat.

Definition find_located (wanted : list Z) (ls : list Located) : option Located :=
  List.find (λ l, names_match (name (entry l)) wanted) ls.

(** The branch of [write_file_inner] for a file that exists: its entry is pointed at the new chain,
    then the old one is freed. *)
Definition replace_entry (image : DirImage) (l : Located) (first size : Z) : M unit :=
  let slot := ((slots l).2 - 1)%nat in
  e ← unwrap (image_entry slot image);
  f ← get;
  image ← unwrap (set_image_entry slot (set_modified (stamp f) (set_cluster_and_size first size e)) image);
  _ ← store_dir image (slot, S slot);
  free_chain (first_cluster (entry l)).

(** [add_entry], giving the chain back if it fails. *)
Definition add_or_free (dir : Dir) (image : DirImage) (name : list Z) (attr first size : Z) : M unit :=
  r ← catch (add_entry dir image name attr first size);
  match r with
  | Ok _ => mret tt
  | Err error => _ ← free_chain first; fail error
  end.

Definition write_file_inner (path data : list Z) : M unit :=
  if 2 ^ 32 <=? Z.of_nat (length data) then fail TooBig else
  let size := Z.of_nat (length data) in
  let '(parent, name) := split_path path in
  _ ← lift (check_name name);
  dir ← find_dir parent;
  image ← load_dir dir;
  v ← volume;
  located ← unwrap (parse_located (fat_type v) (bytes image));
  let existing := find_located name located in
  if match existing with Some l => bool_decide (kind (entry l) = Directory) | None => false end
  then fail NotAFile else
  _ ← begin_change;
  first ← write_chain data;
  match existing with
  | Some l => replace_entry image l first size
  | None => add_or_free dir image name ATTR_ARCHIVE first size
  end.

Definition write_file (path data : list Z) : M unit :=
  r ← catch (write_file_inner path data); finish_change r.

(** The two entries a new directory starts with. *)
Definition dot_entries (v : Volume) (cluster parent : Z) (stamp : Z * Z) : list Z :=
  let contents := replicate (Z.to_nat (cluster_size v)) 0 in
  let dot := 0x2E :: replicate 10 0x20 in
  let dotdot := 0x2E :: 0x2E :: replicate 9 0x20 in
  let contents := put 0 (short_entry dot 0 ATTR_DIRECTORY cluster 0 stamp) contents in
  put DIR_ENTRY_SIZE (short_entry dotdot 0 ATTR_DIRECTORY parent 0 stamp) contents.

Definition create_dir_inner (path : list Z) : M unit :=
  let '(parent, name) := split_path path in
  _ ← lift (check_name name);
  dir ← find_dir parent;
  image ← load_dir dir;
  v ← volume;
  located ← unwrap (parse_located (fat_type v) (bytes image));
  if existsb (λ l, names_match (Fat.name (entry l)) name) located then fail AlreadyExists else
  _ ← begin_change;
  clusters ← allocate 1;
  cluster ← unwrap (head clusters);
  let parent_cluster := match dir with Root => 0 | Chain c => c end in
  f ← get;
  _ ← write_clusters [cluster] (dot_entries v cluster parent_cluster (stamp f));
  _ ← link [cluster];
  add_or_free dir image name ATTR_DIRECTORY cluster 0.

Definition create_dir (path : list Z) : M unit :=
  r ← catch (create_dir_inner path); finish_change r.

Fixpoint delete_slots (n slot : nat) (image : DirImage) : option DirImage :=
  match n with
  | O => Some image
  | S n => e ← image_entry slot image;
           image ← set_image_entry slot (put 0 [ENTRY_DELETED] e) image;
           delete_slots n (S slot) image
  end.

Definition remove_inner (path : list Z) : M unit :=
  let '(parent, name) := split_path path in
  dir ← find_dir parent;
  image ← load_dir dir;
  v ← volume;
  ls ← unwrap (parse_located (fat_type v) (bytes image));
  match find_located name ls with
  | None => fail NotFound
  | Some located =>
    let first := first_cluster (entry located) in
    _ ← (if bool_decide (kind (entry located) = Directory) then
           contents ← load_dir (Chain first);
           inside ← unwrap (parse_located (fat_type v) (bytes contents));
           match inside with [] => mret tt | _ => fail NotEmpty end
         else mret tt);
    _ ← begin_change;
    image ← unwrap (delete_slots ((slots located).2 - (slots located).1) (slots located).1 image);
    _ ← store_dir image (slots located);
    free_chain first
  end.

Definition remove (path : list Z) : M unit :=
  r ← catch (remove_inner path); finish_change r.
End writing.
End Fat.
