(* ===== verification/FatTable.v ===== *)
(** The file allocation table: what mount guarantees about the layout, and that the FAT sectors the
    driver caches and holds back behave as one table from clusters to values.  Theorems about
    [mount], [fat_entry], [set_fat_entry], [flush_fat], [chain], [allocate], [link] and
    [free_chain] of Fat. *)
From S2P Require Import Prelude Bytes Text Effect Disk Fat.
Open Scope Z_scope.

Module FatTable.
Import Effect Text Disk Fat.

(** * Byte lemmas *)

Lemma put_length at_ data l : (at_ + length data ≤ length l)%nat → length (put at_ data l) = length l.
Proof. intros. unfold put. rewrite !length_app, length_take, length_drop. lia. Qed.

Lemma put_bytes at_ data l : is_bytes data → is_bytes l → is_bytes (put at_ data l).
Proof. intros. unfold put. auto with bytes. Qed.
#[export] Hint Resolve put_bytes : bytes.

Lemma put_field at_ data l : (at_ ≤ length l)%nat → take (length data) (drop at_ (put at_ data l)) = data.
Proof.
  intros. unfold put. rewrite drop_app_le, drop_ge by (rewrite length_take; lia). cbn [app].
  rewrite take_app_le, take_ge by lia. done.
Qed.

Lemma put_lookup_out at_ data l i : (at_ + length data ≤ length l)%nat →
  ¬ (at_ ≤ i < at_ + length data)%nat → put at_ data l !! i = l !! i.
Proof.
  intros Hl Hi. unfold put. destruct (decide (i < at_)%nat).
  - rewrite lookup_app_l by (rewrite length_take; lia). rewrite lookup_take_lt by lia. done.
  - rewrite lookup_app_r by (rewrite length_take; lia). rewrite length_take, Nat.min_l by lia.
    rewrite lookup_app_r by lia. rewrite lookup_drop. f_equal. lia.
Qed.

Lemma put_lookup_in at_ data l i : (at_ ≤ length l)%nat → (i < length data)%nat →
  put at_ data l !! (at_ + i)%nat = data !! i.
Proof.
  intros Hl Hi. unfold put. rewrite lookup_app_r by (rewrite length_take; lia).
  rewrite length_take, Nat.min_l by lia. rewrite lookup_app_l by lia. f_equal. lia.
Qed.

Lemma put_other at_ data l n at' : (at_ + length data ≤ length l)%nat →
  (at' + n ≤ at_ ∨ at_ + length data ≤ at')%nat →
  take n (drop at' (put at_ data l)) = take n (drop at' l).
Proof.
  intros Hl Hd. apply list_eq. intros i. destruct (decide (i < n)%nat).
  - rewrite !lookup_take_lt, !lookup_drop by done. rewrite put_lookup_out; [done|done|lia].
  - by rewrite !lookup_take_ge by lia.
Qed.

Lemma Ok_inj {E A} (a b : A) : @Ok E A a = Ok b → a = b.
Proof. by intros [= ->]. Qed.

(** * The volume *)

(** What [mount] makes sure of: the regions follow one another, in bounds of the numbers used. *)
Record laid_out (v : Volume) : Prop := {
  lo_start : 0 <= start v;
  lo_spc : 1 <= sectors_per_cluster v <= 128;
  lo_fat_start : 1 <= fat_start v < 2 ^ 16;
  lo_fats : 1 <= fat_count v < 256 ∧ 1 <= fat_size v < 2 ^ 32;
  lo_root : match root v with
            | Fixed s n => fat_type v = Fat16 ∧ s = fat_start v + fat_count v * fat_size v ∧
                           0 <= n ∧ s + n = data_start v
            | RootChain c => fat_type v = Fat32 ∧ uint 32 c
            end;
  lo_data : fat_start v + fat_count v * fat_size v <= data_start v < 2 ^ 32;
  lo_count : match fat_type v with
             | Fat16 => 4085 <= cluster_count v < 65525
             | Fat32 => 65525 <= cluster_count v <= 0x0FFFFFF5
             end;
  lo_end : data_start v + cluster_count v * sectors_per_cluster v < 2 ^ 32;
  lo_fsinfo : match fsinfo v with Some s => fat_type v = Fat32 ∧ 0 < s < 0xFFFF | None => True end }.

Lemma u16_field_uint l n : is_bytes l → uint 16 (u16_at l n).
Proof. intros. apply (le_value_uint 2); [auto with bytes|]. rewrite length_take. lia. Qed.

Lemma u32_field_uint l n : is_bytes l → uint 32 (u32_at l n).
Proof. intros. apply (le_value_uint 4); [auto with bytes|]. rewrite length_take. lia. Qed.

Lemma block_byte (b : Block) i : is_block b → (i < 512)%nat → uint 8 (b !!! i).
Proof.
  intros [Hl Hb] Hi. eapply is_bytes_lookup; [done|]. apply list_lookup_lookup_total_lt. lia.
Qed.

Lemma power_of_two_bound x : uint 8 x → Mbr.is_power_of_two x = true → 1 <= x <= 128.
Proof.
  intros Hx Hp.
  assert (Hall : forallb (λ x, negb (Mbr.is_power_of_two x) || (x <=? 128)) (seqZ 0 256) = true) by done.
  rewrite forallb_forall in Hall.
  specialize (Hall x). rewrite Hp in Hall. cbn [negb orb] in Hall. unfold uint in Hx.
  assert (x <= 128) by (apply Z.leb_le, Hall, list_elem_of_In, elem_of_seqZ; lia).
  unfold Mbr.is_power_of_two in Hp. apply andb_prop in Hp as [?%Z.ltb_lt _]. lia.
Qed.

(** ** What the boot sector says
    Fields of the BIOS parameter block, as the FAT specification has them: where they are and how long. *)
Definition field (at_ size : nat) (boot : list Z) : Z := le_value (take size (drop at_ boot)).

(** A field that has a long form for when the short one is 0. *)
Definition either (short long : Z) : Z := if decide (short = 0) then long else short.
Definition total_sectors (boot : list Z) : Z := either (field 19 2 boot) (field 32 4 boot).

(** The volume is the one described: every cluster that is whole, up to the largest number there can be. *)
Record described (boot : list Z) (v : Volume) : Prop := {
  de_signature : boot !!! 510%nat = 0x55 ∧ boot !!! 511%nat = 0xAA ∧ field 11 2 boot = 512;
  de_cluster : sectors_per_cluster v = boot !!! 13%nat;
  de_reserved : fat_start v = field 14 2 boot;
  de_fats : fat_count v = boot !!! 16%nat ∧ fat_size v = either (field 22 2 boot) (field 36 4 boot);
  de_data : let root := data_start v - (fat_start v + fat_count v * fat_size v) in 512 * (root - 1) < 32 * field 17 2 boot <= 512 * root;
  de_root : match root v with RootChain c => c = field 44 4 boot | Fixed _ _ => True end;
  de_inside : data_start v + cluster_count v * sectors_per_cluster v <= total_sectors boot;
  de_all : cluster_count v = 0x0FFFFFF5 ∨ total_sectors boot < data_start v + (cluster_count v + 1) * sectors_per_cluster v }.

Lemma either_spec short long : (if short =? 0 then long else short) = either short long.
Proof. unfold either. destruct (Z.eqb_spec short 0); by case_decide. Qed.

Lemma boot_volume_described {E} at_ boot v : is_block boot → boot_volume (E:=E) at_ boot = Ok v → described boot v.
Proof.
  intros Hb. pose proof Hb as [_ Hbytes]. unfold boot_volume. pose proof (block_byte boot 13 Hb ltac:(lia)) as H13.
  pose proof (u16_field_uint boot 17 Hbytes) as H17. rewrite !either_spec.
  change (either (u16_at boot 19) (u32_at boot 32)) with (total_sectors boot). remember (total_sectors boot) as total eqn:Htotal.
  change (either (u16_at boot 22) (u32_at boot 36)) with (either (field 22 2 boot) (field 36 4 boot)).
  remember (either (field 22 2 boot) (field 36 4 boot)) as fs eqn:Hfs.
  change (u16_at boot 14) with (field 14 2 boot). change (u16_at boot 17) with (field 17 2 boot) in *. change (u32_at boot 44) with (field 44 4 boot).
  destruct (Z.eqb_spec (boot !!! 510%nat) 0x55); cbn [negb orb]; [|done]. destruct (Z.eqb_spec (boot !!! 511%nat) 0xAA); cbn [negb]; [|done].
  destruct (Z.eqb_spec (u16_at boot 11) BLOCK_SIZE); cbn [negb]; [|done].
  destruct (Mbr.is_power_of_two (boot !!! 13%nat)) eqn:Hp; cbn [negb]; [|done]. apply power_of_two_bound in Hp; [|done].
  destruct (_ || _); [done|]. set (rs := div_ceil (field 17 2 boot * Z.of_nat DIR_ENTRY_SIZE) BLOCK_SIZE).
  assert (Hrs : 512 * (rs - 1) < 32 * field 17 2 boot <= 512 * rs).
  { unfold rs, div_ceil, BLOCK_SIZE. change (Z.of_nat DIR_ENTRY_SIZE) with 32. unfold uint in H17. Z.to_euclidean_division_equations. lia. }
  clearbody rs. set (ds := field 14 2 boot + boot !!! 16%nat * fs + rs). destruct (Z.leb_spec total ds) as [|Hds]; [done|].
  set (q := (total - ds) / boot !!! 13%nat).
  assert (Hq : q * (boot !!! 13%nat) <= total - ds < (q + 1) * (boot !!! 13%nat)).
  { unfold q. generalize (total - ds). intros a. generalize dependent (boot !!! 13%nat). intros b **.
    pose proof (Z_div_mod_eq_full a b). pose proof (Z.mod_pos_bound a b ltac:(lia)). nia. }
  clearbody q. set (cnt := Z.min q 0x0FFFFFF5). assert (Hn : cnt = 0x0FFFFFF5 ∧ cnt <= q ∨ cnt = q) by (unfold cnt; lia). clearbody cnt.
  destruct (Z.ltb_spec cnt 4085); [done|]. set (lab := λ n, trim_end (from_utf8_lossy 11 (take 11 (drop n boot)))). clearbody lab.
  destruct (Z.ltb_spec cnt 65525); cbn [mbind result_bind]; intros Hv%Ok_inj; subst v; constructor;
    cbn [sectors_per_cluster fat_start fat_count fat_size data_start cluster_count root]; try done; try (unfold ds; lia);
    rewrite <- Htotal; nia.
Qed.

Lemma boot_volume_laid_out {E} at_ boot v : 0 <= at_ → is_block boot →
  boot_volume (E:=E) at_ boot = Ok v → laid_out v ∧ start v = at_.
Proof.
  intros Hat Hb. pose proof Hb as [_ Hbytes]. unfold boot_volume.
  pose proof (block_byte boot 13 Hb ltac:(lia)) as H13. pose proof (block_byte boot 16 Hb ltac:(lia)) as H16.
  pose proof (u16_field_uint boot 14 Hbytes) as H14. pose proof (u16_field_uint boot 17 Hbytes) as H17.
  pose proof (u16_field_uint boot 19 Hbytes) as H19. pose proof (u16_field_uint boot 22 Hbytes) as H22.
  pose proof (u32_field_uint boot 32 Hbytes) as H32. pose proof (u32_field_uint boot 36 Hbytes) as H36.
  pose proof (u32_field_uint boot 44 Hbytes) as H44. pose proof (u16_field_uint boot 48 Hbytes) as H48.
  destruct (_ || _); [done|]. destruct (negb (u16_at boot 11 =? BLOCK_SIZE)); [done|].
  destruct (Mbr.is_power_of_two (boot !!! 13%nat)) eqn:Hp; cbn [negb]; [|done].
  apply power_of_two_bound in Hp; [|done].
  set (total := if u16_at boot 19 =? 0 then u32_at boot 32 else u16_at boot 19).
  set (fs := if u16_at boot 22 =? 0 then u32_at boot 36 else u16_at boot 22).
  assert (Ht : uint 32 total) by (unfold total; destruct (u16_at boot 19 =? 0); unfold uint in *; lia).
  assert (Hfs : uint 32 fs) by (unfold fs; destruct (u16_at boot 22 =? 0); unfold uint in *; lia).
  clearbody total fs.
  destruct (Z.eqb_spec (u16_at boot 14) 0); [done|]. destruct (Z.eqb_spec (boot !!! 16%nat) 0); [done|].
  destruct (Z.eqb_spec fs 0); cbn [orb]; [done|].
  set (rs := div_ceil (u16_at boot 17 * Z.of_nat DIR_ENTRY_SIZE) BLOCK_SIZE).
  assert (Hrs : 0 <= rs).
  { unfold rs, div_ceil, BLOCK_SIZE. unfold uint in H17. apply Z.div_pos; cbn; lia. }
  clearbody rs. set (ds := u16_at boot 14 + boot !!! 16%nat * fs + rs).
  destruct (Z.leb_spec total ds) as [|Hds]; [done|].
  set (q := (total - ds) / boot !!! 13%nat).
  assert (Hq : 0 <= q ∧ q * (boot !!! 13%nat) <= total - ds).
  { unfold q. split; [apply Z.div_pos; lia|]. rewrite Z.mul_comm. apply Z.mul_div_le. lia. }
  clearbody q. set (cnt := Z.min q 0x0FFFFFF5).
  assert (Hn : cnt <= 0x0FFFFFF5 ∧ 0 <= cnt <= q) by (unfold cnt; lia). clearbody cnt.
  assert (Hend : ds + cnt * (boot !!! 13%nat) < 2 ^ 32) by (unfold uint in Ht; nia).
  destruct (Z.ltb_spec cnt 4085); [done|].
  set (lab := λ n, trim_end (from_utf8_lossy 11 (take 11 (drop n boot)))). clearbody lab.
  unfold uint in *. assert (Hds' : ds < 2 ^ 32) by nia.
  destruct (Z.ltb_spec cnt 65525); cbn [mbind result_bind]; intros Hv%Ok_inj; subst v; (split; [|done]);
    constructor; cbn [start fat_type sectors_per_cluster fat_start root data_start cluster_count fat_count
      fat_size fsinfo]; try lia.
  - split_and!; [reflexivity|reflexivity|lia|reflexivity].
  - rewrite bool_decide_false by discriminate. exact I.
  - split; [reflexivity|]. done.
  - rewrite bool_decide_true by reflexivity. destruct (Z.eqb_spec (u16_at boot 48) 0); cbn [negb andb]; [exact I|].
    destruct (Z.eqb_spec (u16_at boot 48) 0xFFFF); cbn [negb andb]; [exact I|]. split; [reflexivity|]. lia.
Qed.

Definition in_range (v : Volume) (c : Z) : Prop := 2 <= c < cluster_count v + 2.

(** What mount does not check: the FAT has an entry for every cluster, and the FSInfo sector is in
    the reserved area. *)
Record sound (v : Volume) : Prop := {
  sd_laid : laid_out v;
  sd_reach : start v + data_start v + cluster_count v * sectors_per_cluster v <= 2 ^ 55;
  sd_covers : (cluster_count v + 2) * entry_width (fat_type v) <= fat_size v * BLOCK_SIZE;
  sd_fsinfo : match fsinfo v with Some s => s < fat_start v | None => True end }.

Lemma first_sector_bounds v c : laid_out v → in_range v c →
  data_start v <= first_sector v c ∧
  first_sector v c + sectors_per_cluster v <= data_start v + cluster_count v * sectors_per_cluster v.
Proof. intros [] Hc. unfold first_sector, in_range in *. nia. Qed.

Lemma first_sector_disjoint v c c' : laid_out v → c ≠ c' →
  first_sector v c + sectors_per_cluster v <= first_sector v c' ∨
  first_sector v c' + sectors_per_cluster v <= first_sector v c.
Proof. intros [] Hc. unfold first_sector. assert (c < c' ∨ c' < c) as [] by lia; [left|right]; nia. Qed.

(** ** Where the entries are *)
Lemma entry_width_cases t : entry_width t = 2 ∨ entry_width t = 4.
Proof. destruct t; auto. Qed.

Lemma fat_position_bounds v c s i : sound v → 0 <= c < cluster_count v + 2 → fat_position v c = (s, i) →
  fat_start v <= s < fat_start v + fat_size v ∧ (i + Z.to_nat (entry_width (fat_type v)) ≤ 512)%nat.
Proof.
  intros [Hl _ Hf _] Hc. unfold fat_position, BLOCK_SIZE in *.
  destruct (entry_width_cases (fat_type v)) as [Hw|Hw]; rewrite Hw in *; intros [= <- <-];
    clear Hl Hw; (split; [|apply Nat2Z.inj_le; rewrite Nat2Z.inj_add, !Z2Nat.id]);
    Z.to_euclidean_division_equations; lia.
Qed.

(** Two clusters have different entries, that do not overlap in their sector. *)
Lemma fat_position_apart v c c' s i i' : c ≠ c' → 0 <= c → 0 <= c' →
  fat_position v c = (s, i) → fat_position v c' = (s, i') →
  (i + Z.to_nat (entry_width (fat_type v)) ≤ i' ∨ i' + Z.to_nat (entry_width (fat_type v)) ≤ i)%nat.
Proof.
  intros Hne H0 H0'. unfold fat_position, BLOCK_SIZE.
  destruct (entry_width_cases (fat_type v)) as [-> | ->]; intros [= <- <-] [= Hs <-];
    Z.to_euclidean_division_equations; lia.
Qed.

(** ** What the entries hold *)
Definition value_ok (t : FatType) (x : Z) : Prop := 0 <= x <= entry_mask t.

Lemma patch_block t i x b : is_block b → (i + Z.to_nat (entry_width t) ≤ 512)%nat → is_block (patch t i x b).
Proof.
  intros [Hl Hb] Hi. unfold patch. destruct t; cbn in Hi; (split; [rewrite put_length; rewrite ?length_le_bytes; lia|]);
    auto with bytes.
Qed.

Lemma decode_patch t i x b : is_block b → (i + Z.to_nat (entry_width t) ≤ 512)%nat → value_ok t x →
  decode t (patch t i x b) i = x.
Proof.
  intros [Hl Hb] Hi [Hx0 Hx]. unfold decode, patch, u16_at. destruct t; cbn [entry_mask entry_width] in *; cbn in Hi.
  - rewrite decide_True by done. rewrite <-(length_le_bytes 2 x) at 1. rewrite put_field by lia.
    rewrite le_value_le_bytes by (unfold uint; lia). change 0xFFFF with (Z.ones 16). rewrite Z.land_ones by lia.
    apply Z.mod_small. lia.
  - rewrite decide_False by done. set (k := Z.land (u32_at b i) (bnot 32 _)). assert (Hk : uint 32 k).
    { apply uint_land; [lia|by apply u32_field_uint|]. by vm_compute. }
    unfold u32_at at 1. rewrite <-(length_le_bytes 4 (Z.lor k x)) at 1. rewrite put_field by lia.
    rewrite le_value_le_bytes by (apply (uint_lor 32); [lia|done|unfold uint; lia]).
    change 0x0FFFFFFF with (Z.ones 28). apply Z.bits_inj'. intros j Hj.
    rewrite Z.land_spec, Z.lor_spec. unfold k. rewrite Z.land_spec. destruct (Z.lt_ge_cases j 28).
    + rewrite testbit_bnot, Z.ones_spec_low by lia. change 0xFFFFFFF with (Z.ones 28).
      rewrite Z.ones_spec_low by lia. cbn [negb]. by rewrite andb_false_r, andb_true_r.
    + rewrite Z.ones_spec_high by lia. rewrite andb_false_r. symmetry. apply (testbit_high 28); [unfold uint; lia|lia].
Qed.

Lemma decode_patch_other t i j x b : is_block b → (i + Z.to_nat (entry_width t) ≤ 512)%nat →
  (i + Z.to_nat (entry_width t) ≤ j ∨ j + Z.to_nat (entry_width t) ≤ i)%nat →
  decode t (patch t i x b) j = decode t b j.
Proof.
  intros [Hl Hb] Hi Hj. unfold decode, patch. f_equal. destruct t; cbn in Hi, Hj.
  - rewrite !decide_True by done. unfold u16_at. by rewrite put_other by (rewrite length_le_bytes; lia).
  - rewrite !decide_False by done. unfold u32_at at 1 3. by rewrite put_other by (rewrite length_le_bytes; lia).
Qed.

Lemma land_ones_bound x n : 0 <= n → 0 <= Z.land x (Z.ones n) <= Z.ones n.
Proof.
  intros. rewrite Z.land_ones by done. pose proof (Z.mod_pos_bound x (2 ^ n) ltac:(apply Z.pow_pos_nonneg; lia)).
  rewrite Z.ones_equiv. lia.
Qed.

Lemma decode_ok t b i : value_ok t (decode t b i).
Proof.
  unfold decode, value_ok. destruct t; [apply (land_ones_bound _ 16)|apply (land_ones_bound _ 28)]; lia.
Qed.

(** * Reasoning about the monad

    One rule besides those of [Effect]. *)
Section wp.
Context {D E : Type}.
Implicit Types (f : Fat D).

Lemma wp_volume_bind {B} (k : Volume → M D E B) f Q R : wp (k (vol f)) f Q R → wp (volume ≫= k) f Q R.
Proof. done. Qed.
End wp.

(** Steps through binds whose first part only reads the state, changes a field or returns. *)
Ltac wp_pure :=
  repeat (progress wp_step || match goal with |- wp (mbind _ volume) _ _ _ => apply wp_volume_bind end; cbn beta).

(** * The cached table *)
Section table.
Context `{LawfulDevice D E}.
Implicit Types (f : Fat D) (s c : Z) (b : Block).
Local Notation M := (M D E).

Definition is_device (e : FatError E) : Prop := ∃ e', e = Device e'.

(** Sector [s] of the volume, as it is on the disk. *)
Definition sector f s : Block := contents (device f) (start (vol f) + s).

(** A sector of the first FAT. *)
Definition fat_sector (v : Volume) s : Prop := fat_start v <= s < fat_start v + fat_size v.

(** The cached sector is what the disk has; a pending one is never cached too. *)
Record coherent f : Prop := {
  co_sound : sound (vol f);
  co_cache s b : fat_cache f = Some (s, b) → fat_sector (vol f) s ∧ b = sector f s;
  co_dirty s b : fat_dirty f = Some (s, b) →
    fat_sector (vol f) s ∧ is_block b ∧ ∀ b', fat_cache f ≠ Some (s, b') }.

(** The FAT as the driver sees it: a pending sector wins over the disk. *)
Definition fat_block f s : Block :=
  match fat_dirty f with Some (s', b) => if s' =? s then b else sector f s | None => sector f s end.
Definition table f c : Z :=
  let '(s, i) := fat_position (vol f) c in decode (fat_type (vol f)) (fat_block f s) i.

(** Only the cache may differ. *)
Record same f f' : Prop := {
  sm_vol : vol f' = vol f;
  sm_contents k : contents (device f') k = contents (device f) k;
  sm_free : free_count f' = free_count f;
  sm_dirty : fat_dirty f' = fat_dirty f;
  sm_stamp : stamp f' = stamp f;
  sm_next : next_free f' = next_free f;
  sm_coherent : coherent f' }.

Lemma same_refl f : coherent f → same f f.
Proof. by constructor. Qed.

Lemma same_trans f g h : same f g → same g h → same f h.
Proof. intros [] []. constructor; congruence. Qed.

Lemma same_sector f f' s : same f f' → sector f' s = sector f s.
Proof. intros []. unfold sector. by rewrite sm_contents0, sm_vol0. Qed.

Lemma same_fat_block f f' s : same f f' → fat_block f' s = fat_block f s.
Proof. intros Hs. unfold fat_block. rewrite (sm_dirty _ _ Hs). by rewrite (same_sector _ _ _ Hs). Qed.

Lemma same_table f f' c : same f f' → table f' c = table f c.
Proof.
  intros Hs. unfold table. rewrite (sm_vol _ _ Hs). destruct (fat_position _ _). by rewrite (same_fat_block _ _ _ Hs).
Qed.

Lemma sector_block f s : is_block (sector f s).
Proof. apply contents_block. Qed.

Lemma fat_block_block f s : coherent f → is_block (fat_block f s).
Proof.
  intros Hc. unfold fat_block. destruct (fat_dirty f) as [[s' b]|] eqn:Ed; [|apply sector_block].
  destruct (s' =? s); [|apply sector_block]. by apply (co_dirty f Hc) in Ed as (_ & ? & _).
Qed.

Lemma table_value_ok f c : value_ok (fat_type (vol f)) (table f c).
Proof. unfold table. destruct (fat_position _ _). apply decode_ok. Qed.

(** Inside the volume, a sector's block number does not wrap around. *)
Lemma lba_eq v s : sound v → 0 <= s <= data_start v + cluster_count v * sectors_per_cluster v → lba v s = start v + s.
Proof. intros [[] ? _ _] Hs. unfold lba, offset. apply wrap_small. unfold uint. lia. Qed.

Lemma fat_end v s n : sound v → fat_sector v s → 0 <= n < fat_count v →
  0 <= s + n * fat_size v < data_start v + cluster_count v * sectors_per_cluster v ∧
  s + n * fat_size v < fat_start v + fat_count v * fat_size v.
Proof.
  intros [[] ? _ _] Hs Hn. unfold fat_sector in Hs. destruct lo_fats0.
  assert (0 <= cluster_count v) by (destruct (fat_type v); lia). nia.
Qed.

Lemma sector_reach v s : sound v → 0 <= s < data_start v + cluster_count v * sectors_per_cluster v →
  in_reach (start v + s) 1.
Proof. intros [[] ? _ _] Hs. unfold in_reach. lia. Qed.

(** Reading one sector. *)
Lemma read_sector_wp f s (Q : Fat D → Block → Prop) R :
  sound (vol f) → 0 <= s < data_start (vol f) + cluster_count (vol f) * sectors_per_cluster (vol f) →
  (∀ d, (∀ k, contents d k = contents (device f) k) → Q (with_device d f) (sector f s)) →
  (∀ d e, (∀ k, contents d k = contents (device f) k) → R (with_device d f) (Device e)) →
  wp (dev (read_block (lba (vol f) s)) : M Block) f Q R.
Proof.
  intros Hv Hs HQ HR. rewrite lba_eq by (done || lia). unfold wp, dev.
  destruct (read_block _ _) as [d r] eqn:Er. destruct (read_block_spec _ _ _ _ Er) as [Hk Hb]; [by apply sector_reach|].
  destruct r as [b|e]; [|by apply HR]. rewrite (Hb b eq_refl). by apply HQ.
Qed.

Lemma coherent_device f d : coherent f → (∀ k, contents d k = contents (device f) k) → coherent (with_device d f).
Proof.
  intros [Hv Hcache Hdirty] Hk. constructor; [done| |done]. cbn. intros s b Hs.
  destruct (Hcache s b Hs) as [? ->]. split; [done|]. unfold sector. cbn. by rewrite Hk.
Qed.

Lemma coherent_cache f s : coherent f → fat_sector (vol f) s → (∀ b, fat_dirty f ≠ Some (s, b)) →
  coherent (with_fat_cache (Some (s, sector f s)) f).
Proof.
  intros [Hv Hcache Hdirty] Hs Hd. constructor; [done| |]; cbn.
  - intros s' b [= <- <-]. done.
  - intros s' b Hs'. destruct (Hdirty _ _ Hs') as (? & ? & _). split_and!; [done|done|].
    intros b' [= <- <-]. by eapply Hd.
Qed.

Lemma fat_entry_spec f c : coherent f → 0 <= c < cluster_count (vol f) + 2 →
  wp (fat_entry c) f (λ f' x, same f f' ∧ x = table f c) (λ f' e, same f f' ∧ is_device e).
Proof.
  intros Hc Hr. pose proof (co_sound f Hc) as Hv. unfold fat_entry. wp_pure.
  destruct (fat_position (vol f) c) as [s i] eqn:Ep.
  destruct (fat_position_bounds _ _ _ _ Hv Hr Ep) as [Hs _]. wp_pure.
  assert (Ht : table f c = decode (fat_type (vol f)) (fat_block f s) i) by (unfold table; by rewrite Ep).
  set (read := block ← dev (read_block (lba (vol f) s)); _). cbv zeta. 
  set (cached := match fat_cache f with
                 | Some (cached, block) => if cached =? s then mret (decode (fat_type (vol f)) block i) else read
                 | None => read
                 end).
  assert (Hd : (∀ b, fat_dirty f ≠ Some (s, b)) → table f c = decode (fat_type (vol f)) (sector f s) i).
  { intros Hd. rewrite Ht. unfold fat_block. destruct (fat_dirty f) as [[s' b]|] eqn:Ed; [|done].
    destruct (Z.eqb_spec s' s) as [->|]; [|done]. by destruct (Hd b). }
  assert (Hread : (∀ b, fat_dirty f ≠ Some (s, b)) →
    wp read f (λ f' x, same f f' ∧ x = table f c) (λ f' e, same f f' ∧ is_device e)).
  { intros Hn. apply wp_bind. pose proof (fat_end (vol f) s 0 Hv Hs ltac:(destruct Hv as [[] _ _ _]; lia)) as Hb.
    rewrite Z.mul_0_l, Z.add_0_r in Hb. apply read_sector_wp; [done|apply Hb| |].
    - intros d Hk. wp_pure. split; [|by rewrite Hd].
      pose proof (coherent_device f d Hc Hk) as Hcd.
      replace (sector f s) with (sector (with_device d f) s) by (unfold sector; cbn; apply Hk).
      constructor; try done. by apply coherent_cache.
    - intros d e Hk. split; [|by eexists]. constructor; try done. by apply coherent_device. }
  assert (Hcached : (∀ b, fat_dirty f ≠ Some (s, b)) →
    wp cached f (λ f' x, same f f' ∧ x = table f c) (λ f' e, same f f' ∧ is_device e)).
  { intros Hn. unfold cached. destruct (fat_cache f) as [[s' b]|] eqn:Ec; [|by apply Hread].
    destruct (Z.eqb_spec s' s) as [->|]; [|by apply Hread]. wp_pure. split; [by apply same_refl|].
    destruct (co_cache f Hc _ _ Ec) as [_ ->]. by rewrite Hd. }
  destruct (fat_dirty f) as [[s' b]|] eqn:Ed; [|by apply Hcached].
  destruct (Z.eqb_spec s' s) as [->|Hne]; [|apply Hcached; congruence].
  wp_pure. split; [by apply same_refl|]. rewrite Ht. unfold fat_block. by rewrite Ed, Z.eqb_refl.
Qed.

(** ** Changing the table *)

(** The FAT as it is on the disk. *)
Definition disk f c : Z :=
  let '(s, i) := fat_position (vol f) c in decode (fat_type (vol f)) (sector f s) i.

(** No change of this entry is pending. *)
Definition settled f c : Prop := disk f c = table f c.

(** An entry that is left alone, in memory and on the disk. *)
Definition entry_kept f f' c : Prop := settled f c → settled f' c ∧ table f' c = table f c.

Lemma entry_kept_trans f g h c : entry_kept f g c → entry_kept g h c → entry_kept f h c.
Proof. intros H1 H2 Hs. destruct (H1 Hs) as [Hg Ht]. destruct (H2 Hg) as [? ->]. done. Qed.

Lemma entry_kept_refl f c : entry_kept f f c.
Proof. done. Qed.

(** Every copy of the FAT is the same. *)
Definition mirrored f : Prop := ∀ s j, fat_sector (vol f) s → 0 <= j < fat_count (vol f) →
  sector f (s + j * fat_size (vol f)) = sector f s.

(** Nothing but the FATs, the cache and the pending sector has changed. *)
Record fat_only f f' : Prop := {
  fo_vol : vol f' = vol f;
  fo_free : free_count f' = free_count f;
  fo_stamp : stamp f' = stamp f;
  fo_next : next_free f' = next_free f;
  fo_coherent : coherent f';
  fo_sector s : ¬ (fat_start (vol f) <= s < fat_start (vol f) + fat_count (vol f) * fat_size (vol f)) →
    sector f' s = sector f s }.

Lemma fat_only_refl f : coherent f → fat_only f f.
Proof. by constructor. Qed.

Lemma fat_only_trans f g h : fat_only f g → fat_only g h → fat_only f h.
Proof.
  intros [] []. constructor; try congruence. intros s Hs. rewrite fo_sector1 by (by rewrite fo_vol0). by apply fo_sector0.
Qed.

Lemma same_fat_only f f' : same f f' → fat_only f f'.
Proof. intros Hs. pose proof Hs as []. constructor; try done. intros. by apply same_sector. Qed.

Lemma same_disk f f' c : same f f' → disk f' c = disk f c.
Proof.
  intros Hs. unfold disk. rewrite (sm_vol _ _ Hs). destruct (fat_position _ _). by rewrite (same_sector _ _ _ Hs).
Qed.

Lemma same_kept f f' c : same f f' → entry_kept f f' c.
Proof. intros Hs. unfold entry_kept, settled. by rewrite (same_table _ _ _ Hs), (same_disk _ _ _ Hs). Qed.

Lemma same_mirrored f f' : same f f' → mirrored f → mirrored f'.
Proof.
  intros Hs Hm s j. rewrite (sm_vol _ _ Hs), !(same_sector _ _ _ Hs). apply Hm.
Qed.

(** Writing one sector.  A call that fails may have written it all the same. *)
Lemma write_sector_wp f s b (Q : Fat D → unit → Prop) R :
  sound (vol f) → 0 <= s < data_start (vol f) + cluster_count (vol f) * sectors_per_cluster (vol f) →
  is_block b →
  (∀ d, (∀ s', sector (with_device d f) s' = if decide (s' = s) then b else sector f s') →
     Q (with_device d f) tt ∧ ∀ e, R (with_device d f) (Device e)) →
  (∀ d e, (∀ k, contents d k = contents (device f) k) → R (with_device d f) (Device e)) →
  wp (dev (write_block (lba (vol f) s) b) : M unit) f Q R.
Proof.
  intros Hv Hs Hb HQ HR. rewrite lba_eq by (done || lia). unfold wp, dev.
  destruct (write_block _ _ _) as [d r] eqn:Ew. pose proof (write_block_spec _ _ _ _ _ Ew Hb (sector_reach _ _ Hv Hs)) as Hk.
  apply wrote_one in Hk as [Hk|[Hr Hk]].
  - destruct (HQ d) as [HQ1 HQ2]; [|by destruct r as [[]|e]].
    intros s'. unfold sector. cbn. rewrite Hk. case_decide as Hd.
    + subst s'. pose proof (overlay_inside (start (vol f) + s) [b] (contents (device f)) 0 ltac:(cbn; lia)) as Ho.
      by rewrite Z.add_0_r in Ho.
    + apply overlay_outside. cbn. lia.
  - destruct r as [[]|e]; [done|]. by apply HR.
Qed.

(** Block [b] written to copies [lo..hi] of FAT sector [s]. *)
Record copied f f' s b (lo hi : Z) : Prop := {
  cp_dev : ∃ d, f' = with_device d f;
  cp_in j : lo <= j < hi → sector f' (s + j * fat_size (vol f)) = b;
  cp_out s' : (∀ j, lo <= j < hi → s' ≠ s + j * fat_size (vol f)) → sector f' s' = sector f s' }.

Lemma with_device_same d f : (∀ k, contents d k = contents (device f) k) → ∀ s, sector (with_device d f) s = sector f s.
Proof. intros Hk s. unfold sector. apply Hk. Qed.

Lemma copied_cons f d f' s b lo hi : sound (vol f) → lo < hi →
  (∀ s', sector (with_device d f) s' = if decide (s' = s + lo * fat_size (vol f)) then b else sector f s') →
  copied (with_device d f) f' s b (lo + 1) hi → copied f f' s b lo hi.
Proof.
  intros Hv Hlo Hd [[d' ->] Hin Hout]. cbn in *. constructor; cbn; [by exists d'| |].
  - intros j Hj. destruct (decide (j = lo)) as [->|]; [|apply Hin; lia].
    rewrite Hout; [rewrite Hd; by rewrite decide_True|]. destruct Hv as [[] _ _ _]. nia.
  - intros s' Hs'. rewrite Hout by (intros; apply Hs'; lia). rewrite Hd, decide_False; [done|]. apply Hs'. lia.
Qed.

Lemma flush_copies_spec n f lo s b : sound (vol f) → fat_sector (vol f) s → is_block b →
  0 <= lo → lo + Z.of_nat n <= fat_count (vol f) →
  wp (flush_copies n lo s b) f (λ f' _, copied f f' s b lo (lo + Z.of_nat n))
    (λ f' e, is_device e ∧ ∃ hi, lo <= hi <= lo + Z.of_nat n ∧ copied f f' s b lo hi).
Proof.
  intros Hv Hs Hb. revert f lo Hv Hs. induction n as [|n IH]; intros f lo Hv Hs Hlo Hn; cbn [flush_copies].
  { wp_pure. constructor; [by exists (device f); destruct f| |done]. intros j Hj. lia. }
  wp_pure. apply wp_bind. destruct (fat_end (vol f) s lo Hv Hs ltac:(lia)) as [Hr _].
  apply write_sector_wp; [done|done|done| |].
  - intros d Hd. split.
    2: { intros e. split; [by eexists|]. exists (lo + 1). split; [lia|]. eapply copied_cons; [done|lia|exact Hd|].
         constructor; [by exists d|lia|done]. }
    eapply wp_mono; [apply IH; cbn; [done|done|lia|lia]| |].
    + intros f' [] Hc. replace (lo + Z.of_nat (S n)) with (lo + 1 + Z.of_nat n) by lia.
      eapply copied_cons; [done|lia|done|done].
    + intros f' e [He (hi & Hhi & Hc)]. split; [done|]. exists hi. split; [lia|].
      eapply copied_cons; [done|lia|done|done].
  - intros d e Hk. split; [by eexists|]. exists lo. split; [lia|]. constructor; [by exists d|lia|].
    intros s' _. by apply with_device_same.
Qed.

(** ** Flushing *)

(** What writing [b] to the first copies of FAT sector [s] does to the first FAT. *)
Lemma copied_fat_sector f f' s b hi s' : sound (vol f) → fat_sector (vol f) s → fat_sector (vol f) s' →
  copied f f' s b 0 hi → 0 <= hi →
  sector f' s' = if decide (s' = s ∧ 0 < hi) then b else sector f s'.
Proof.
  intros Hv Hs Hs' [_ Hin Hout] Hhi. case_decide as Hd.
  - destruct Hd as [-> Hd]. rewrite <-(Hin 0) by lia. f_equal. lia.
  - apply Hout. intros j Hj ->. unfold fat_sector in *. destruct Hv as [[] _ _ _].
    destruct (decide (j = 0)) as [->|]; [apply Hd; split; lia|]. nia.
Qed.

Lemma copied_outside f f' s b hi s' : sound (vol f) → fat_sector (vol f) s → hi <= fat_count (vol f) →
  copied f f' s b 0 hi →
  ¬ (fat_start (vol f) <= s' < fat_start (vol f) + fat_count (vol f) * fat_size (vol f)) →
  sector f' s' = sector f s'.
Proof.
  intros Hv Hs Hhi [_ _ Hout] Hs'. apply Hout. intros j Hj ->. apply Hs'.
  destruct (fat_end (vol f) s j Hv Hs ltac:(lia)) as [Hr ?]. split; [|done].
  unfold fat_sector in Hs. destruct Hv as [[] _ _ _]. nia.
Qed.

(** The state after flushing [f]: nothing pending, and the first FAT as the driver saw it. *)
Record flushed f f' : Prop := {
  fl_only : fat_only f f';
  fl_dirty : fat_dirty f' = None;
  fl_block s : fat_sector (vol f) s → sector f' s = fat_block f s;
  fl_mirrored : mirrored f → mirrored f' }.

(** A flush that failed: every FAT sector is the old or the new one. *)
Record unflushed f f' : Prop := {
  uf_only : fat_only f f';
  uf_dirty : fat_dirty f' = None;
  uf_block s : fat_sector (vol f) s → sector f' s = sector f s ∨ sector f' s = fat_block f s }.

Lemma flush_fat_spec f : coherent f →
  wp flush_fat f (λ f' _, flushed f f') (λ f' e, unflushed f f' ∧ is_device e).
Proof.
  intros Hc. pose proof Hc as [Hv Hcache Hdirty]. unfold flush_fat. wp_pure.
  destruct (fat_dirty f) as [[s b]|] eqn:Ed; wp_pure.
  2: { constructor; [by apply fat_only_refl|done| |done]. intros s Hs. unfold fat_block. by rewrite Ed. }
  destruct (Hdirty s b eq_refl) as (Hs & Hb & Hne).
  assert (Hblock : ∀ s', fat_block f s' = if decide (s' = s) then b else sector f s').
  { intros s'. unfold fat_block. rewrite Ed. case_decide as Hd; [subst; by rewrite Z.eqb_refl|].
    by rewrite (proj2 (Z.eqb_neq s s')) by congruence. }
  set (g := with_fat_dirty None f).
  assert (Hn : 0 + Z.of_nat (Z.to_nat (fat_count (vol f))) = fat_count (vol f)) by (destruct Hv as [[] _ _ _]; lia).
  assert (Hpos : 0 < fat_count (vol f)) by (destruct Hv as [[] _ _ _]; lia).
  eapply wp_call; [apply (flush_copies_spec _ g 0 s b); [done|done|done|lia|cbn; lia]| |].
  - intros f' [] Hcp. rewrite Hn in Hcp. wp_pure. pose proof Hcp as [[d ->] Hin Hout].
    assert (Hfs : ∀ s', fat_sector (vol f) s' → sector (with_device d g) s' = fat_block f s').
    { intros s' Hs'. rewrite (copied_fat_sector g _ s b (fat_count (vol f)) s' Hv Hs Hs' Hcp) by lia.
      rewrite Hblock. change (sector g s') with (sector f s').
      destruct (decide (s' = s)); [by rewrite decide_True|]. rewrite decide_False; [done|]. tauto. }
    constructor.
    + constructor; try done.
      * constructor; cbn; [done| |done]. intros s' b' [= <- <-]. split; [done|].
        change (b = sector (with_device d g) s). rewrite Hfs by done. by rewrite Hblock, decide_True.
      * intros s' Hs'. apply (copied_outside g _ s b (fat_count (vol f)) s' Hv Hs ltac:(cbn; lia) Hcp Hs').
    + done.
    + exact Hfs.
    + intros Hm s' j Hs' Hj. change (sector (with_device d g) (s' + j * fat_size (vol f)) = sector (with_device d g) s').
      rewrite (Hfs s' Hs'), Hblock. case_decide as Hd; [subst s'; by apply Hin|].
      rewrite Hout; [by apply Hm|]. intros j' Hj' He. apply Hd. unfold fat_sector in *. cbn in *.
      destruct Hv as [[] _ _ _]. assert (j = j') by nia. subst. lia.
  - intros f' e [He (hi & Hhi & Hcp)]. rewrite Hn in Hhi. split; [|done]. pose proof Hcp as [[d ->] Hin Hout].
    assert (Hfs : ∀ s', fat_sector (vol f) s' →
      sector (with_device d g) s' = sector f s' ∨ sector (with_device d g) s' = fat_block f s').
    { intros s' Hs'. rewrite (copied_fat_sector g _ s b hi s' Hv Hs Hs' Hcp) by lia. rewrite Hblock.
      change (sector g s') with (sector f s'). destruct (decide (s' = s)) as [->|]; [case_decide; tauto|].
      rewrite decide_False by tauto. tauto. }
    constructor; [|done|done]. constructor; try done.
    + constructor; cbn; [done| |done]. intros s' b' Hs'. destruct (Hcache _ _ Hs') as [Hs'' ->]. split; [done|].
      change (sector f s' = sector (with_device d g) s').
      rewrite (copied_fat_sector g _ s b hi s' Hv Hs Hs'' Hcp) by lia. rewrite decide_False; [done|].
      intros [-> _]. by eapply Hne.
    + intros s' Hs'. by apply (copied_outside g _ s b hi s' Hv Hs ltac:(cbn; lia) Hcp Hs').
Qed.

Definition in_table (v : Volume) c : Prop := 0 <= c < cluster_count v + 2.

Lemma in_range_table v c : in_range v c → in_table v c.
Proof. unfold in_range, in_table. lia. Qed.

Lemma flushed_table f f' c : coherent f → flushed f f' → in_table (vol f) c →
  table f' c = table f c ∧ disk f' c = table f c.
Proof.
  intros Hc [Ho Hd Hb _] Hr. unfold table, disk. rewrite (fo_vol _ _ Ho).
  destruct (fat_position (vol f) c) as [s i] eqn:Ep.
  destruct (fat_position_bounds _ _ _ _ (co_sound f Hc) Hr Ep) as [Hs _].
  unfold fat_block at 1. rewrite Hd. by rewrite Hb.
Qed.

Lemma flushed_kept f f' c : coherent f → flushed f f' → in_table (vol f) c → entry_kept f f' c.
Proof. intros Hc Hf Hr _. destruct (flushed_table f f' c Hc Hf Hr) as [Ht Hd]. unfold settled. by rewrite Ht, Hd. Qed.

Lemma unflushed_kept f f' c : coherent f → unflushed f f' → in_table (vol f) c → entry_kept f f' c.
Proof.
  intros Hc [Ho Hd Hb] Hr Hse. unfold settled, table, disk in *. rewrite (fo_vol _ _ Ho).
  destruct (fat_position (vol f) c) as [s i] eqn:Ep.
  destruct (fat_position_bounds _ _ _ _ (co_sound f Hc) Hr Ep) as [Hs _].
  assert (He : fat_block f' s = sector f' s) by (unfold fat_block; by rewrite Hd). rewrite He.
  split; [done|]. by destruct (Hb s Hs) as [-> | ->].
Qed.

(** [f'] is [f] with the same table; changes may have been written out. *)
Record same_view f f' : Prop := {
  sv_only : fat_only f f';
  sv_table c : in_table (vol f) c → table f' c = table f c;
  sv_kept c : in_table (vol f) c → entry_kept f f' c;
  sv_mirrored : mirrored f → mirrored f' }.

(** [f'] is [f] with entry [c] changed to [x]. *)
Record changed f f' c x : Prop := {
  ch_only : fat_only f f';
  ch_table c' : in_table (vol f) c' → table f' c' = if decide (c' = c) then x else table f c';
  ch_kept c' : in_table (vol f) c' → c' ≠ c → entry_kept f f' c';
  ch_mirrored : mirrored f → mirrored f' }.

(** A change that failed: every entry without a pending change is as it was. *)
Record left_alone f f' : Prop := {
  la_only : fat_only f f';
  la_kept c : in_table (vol f) c → entry_kept f f' c }.

Lemma same_same_view f f' : same f f' → same_view f f'.
Proof.
  intros Hs. constructor; [by apply same_fat_only| | |by apply same_mirrored].
  - intros. by apply same_table.
  - intros. by apply same_kept.
Qed.

Lemma same_view_trans f g h : same_view f g → same_view g h → same_view f h.
Proof.
  intros [Ho Ht Hk Hm] [Ho' Ht' Hk' Hm']. pose proof (fo_vol _ _ Ho) as Hv. rewrite Hv in *.
  constructor; [by eapply fat_only_trans| | |auto].
  - intros c Hc. by rewrite Ht', Ht.
  - intros c Hc. eapply entry_kept_trans; auto.
Qed.

Lemma flushed_same_view f f' : coherent f → flushed f f' → same_view f f'.
Proof.
  intros Hc Hf. constructor; [apply Hf| | |apply Hf].
  - intros c Hr. by apply flushed_table.
  - intros c Hr. by apply flushed_kept.
Qed.

Lemma view_changed f g h c x : same_view f g → changed g h c x → changed f h c x.
Proof.
  intros [Ho Ht Hk Hm] [Ho' Ht' Hk' Hm']. pose proof (fo_vol _ _ Ho) as Hv. rewrite Hv in *.
  constructor; [by eapply fat_only_trans| | |auto].
  - intros c' Hc. by rewrite Ht', Ht.
  - intros c' Hc Hne. eapply entry_kept_trans; auto.
Qed.

Lemma view_left_alone f g h : same_view f g → left_alone g h → left_alone f h.
Proof.
  intros [Ho Ht Hk Hm] [Ho' Hk']. pose proof (fo_vol _ _ Ho) as Hv. rewrite Hv in *.
  constructor; [by eapply fat_only_trans|]. intros c Hc. eapply entry_kept_trans; auto.
Qed.

(** The pending sector patched: one entry changes, and the disk not at all. *)
Lemma patched_changed f s b c i x : coherent f → fat_dirty f = Some (s, b) → in_table (vol f) c →
  fat_position (vol f) c = (s, i) → value_ok (fat_type (vol f)) x →
  changed f (with_fat_dirty (Some (s, patch (fat_type (vol f)) i x b)) f) c x.
Proof.
  intros Hc Ed Hr Ep Hx. pose proof Hc as [Hv Hcache Hdirty]. destruct (Hdirty s b Ed) as (Hs & Hb & Hne).
  destruct (fat_position_bounds _ _ _ _ Hv Hr Ep) as [_ Hi].
  set (g := with_fat_dirty _ f).
  assert (Ht : ∀ c', in_table (vol f) c' → table g c' = if decide (c' = c) then x else table f c').
  { intros c' Hr'. unfold table. cbn [vol g with_fat_dirty]. destruct (fat_position (vol f) c') as [s' i'] eqn:Ep'.
    unfold fat_block. cbn [fat_dirty g with_fat_dirty]. rewrite Ed. case_decide as Hd.
    - subst c'. rewrite Ep in Ep'. injection Ep' as <- <-. rewrite Z.eqb_refl. by apply decode_patch.
    - destruct (Z.eqb_spec s s') as [<-|]; [|done].
      apply decode_patch_other; [done|done|]. unfold in_table in *.
      apply (fat_position_apart (vol f) c c' s); [congruence|lia|lia|done|done]. }
  constructor; [|done| |done].
  - constructor; try done. constructor; cbn; [done|done|]. intros s' b' [= <- <-].
    split_and!; [done|by apply patch_block|done].
  - intros c' Hr' Hd. unfold entry_kept, settled. rewrite Ht, decide_False by done. done.
Qed.

Lemma set_fat_entry_spec f c x : coherent f → in_table (vol f) c → value_ok (fat_type (vol f)) x →
  wp (set_fat_entry c x) f (λ f' _, changed f f' c x) (λ f' e, left_alone f f' ∧ is_device e).
Proof.
  intros Hc Hr Hx. unfold set_fat_entry. wp_pure. destruct (fat_position (vol f) c) as [s i] eqn:Ep. wp_pure.
  destruct (fat_position_bounds _ _ _ _ (co_sound f Hc) Hr Ep) as [Hs _].
  (* Another pending sector is written out first. *)
  eapply (wp_call _ _ _ (λ g _, same_view f g ∧ (fat_dirty g = None ∨ ∃ b, fat_dirty g = Some (s, b)))
    (λ g e, left_alone f g ∧ is_device e)).
  { destruct (fat_dirty f) as [[s' b]|] eqn:Ed; [|wp_pure; split; [|by left]; by apply same_same_view, same_refl].
    destruct (Z.eqb_spec s' s) as [->|].
    - wp_pure. split; [by apply same_same_view, same_refl|]. right. by eexists.
    - eapply wp_mono; [by apply flush_fat_spec| |].
      + intros g ? Hg. split; [by apply flushed_same_view|]. left. apply Hg.
      + intros g e [Hg He]. split; [|done]. constructor; [apply Hg|]. intros. by apply unflushed_kept. }
  2: { done. }
  intros g [] [Hg Hdg]. wp_pure. pose proof (fo_vol _ _ (sv_only _ _ Hg)) as Hvg.
  pose proof (fo_coherent _ _ (sv_only _ _ Hg)) as Hcg. rewrite <-Hvg in Hr, Hx, Ep, Hs |- *.
  (* The sector is loaded. *)
  eapply (wp_call _ _ _ (λ h _, same_view g h ∧ ∃ b, fat_dirty h = Some (s, b)) (λ h e, left_alone f h ∧ is_device e)).
  { destruct (fat_dirty g) as [[s' b]|] eqn:Ed.
    { wp_pure. split; [by apply same_same_view, same_refl|]. destruct Hdg as [|[b' [= -> ->]]]; [done|]. by eexists. }
    wp_pure. set (g' := with_fat_cache None g).
    assert (Hload : ∀ d, (∀ k, contents d k = contents (device g) k) →
      same_view g (with_fat_dirty (Some (s, sector g s)) (with_device d g'))).
    { intros d Hk. set (h := with_fat_dirty _ _).
      assert (Hsec : ∀ s', sector h s' = sector g s') by (intros s'; by apply (with_device_same d g Hk)).
      assert (Ht : ∀ c', table h c' = table g c').
      { intros c'. unfold table. cbn [vol h with_fat_dirty with_device g' with_fat_cache].
        destruct (fat_position (vol g) c') as [s' i']. unfold fat_block. rewrite Ed. cbn [fat_dirty h with_fat_dirty].
        destruct (Z.eqb_spec s s') as [<-|]; [done|]. by rewrite Hsec. }
      constructor; [|done| |].
      - constructor; try done. constructor; cbn; [apply Hcg|done|]. intros s' b' [= <- <-].
        split_and!; [done|apply sector_block|done].
      - intros c' _ Hse. unfold settled in *. rewrite Ht, <-Hse. split; [|done]. unfold disk.
        cbn [vol h with_fat_dirty with_device g' with_fat_cache]. destruct (fat_position (vol g) c') as [s' i'].
        by rewrite Hsec.
      - intros Hm s' j Hs' Hj. rewrite !Hsec. by apply Hm. }
    eapply (wp_call _ _ _ (λ h b, b = sector g s ∧ ∃ d, h = with_device d g' ∧ ∀ k, contents d k = contents (device g) k)
      (λ h e, left_alone f h ∧ is_device e)).
    - pose proof (fat_end (vol g) s 0 (co_sound g Hcg) Hs ltac:(destruct (co_sound g Hcg) as [[] _ _ _]; lia)) as Hb.
      rewrite Z.mul_0_l, Z.add_0_r in Hb.
      assert (Hread : wp (dev (read_block (lba (vol g) s)) : M Block) g'
        (λ h b, b = sector g s ∧ ∃ d, h = with_device d g' ∧ ∀ k, contents d k = contents (device g) k)
        (λ h e, left_alone f h ∧ is_device e)).
      { apply (read_sector_wp g'); [apply Hcg|apply Hb| |].
        - intros d Hk. split; [done|]. by exists d.
        - intros d e Hk. split; [|by eexists]. eapply view_left_alone; [done|].
          assert (Hsm : same g (with_device d g')); [|by split; [apply same_fat_only|intros; apply same_kept]].
          constructor; try done. constructor; cbn; [apply Hcg|done|]. by rewrite Ed. }
      destruct (fat_cache g) as [[s' b]|] eqn:Ec; [|exact Hread]. destruct (Z.eqb_spec s' s) as [->|]; [|exact Hread].
      wp_pure. destruct (co_cache g Hcg _ _ Ec) as [_ ->]. split; [done|]. exists (device g). split; [|done].
      unfold g'. by destruct g.
    - intros h b [-> (d & -> & Hk)]. wp_pure. split; [by apply Hload|]. by eexists.
    - done. }
  2: { done. }
  intros h [] [Hh (b & Hb)]. wp_pure. rewrite Hb. wp_pure. rewrite <-(fo_vol _ _ (sv_only _ _ Hh)) in Hr, Hx, Ep |- *.
  eapply view_changed; [eapply same_view_trans; [exact Hg|exact Hh]|].
  apply patched_changed; [apply Hh|done|done|done|done].
Qed.

(** ** Chains *)

Definition end_mark (t : FatType) : Z := match t with Fat16 => 0xFFF8 | Fat32 => 0x0FFFFFF8 end.
Definition bad_mark (t : FatType) : Z := match t with Fat16 => 0xFFF7 | Fat32 => 0x0FFFFFF7 end.

(** What an entry says: the next cluster, or that there is none. *)
Definition follows (t : FatType) (x : Z) : option (option Z) :=
  if end_mark t <=? x then Some None else if x =? bad_mark t then None else Some (Some x).

(** [cs] is the chain that starts at [first] in table [t]. *)
Fixpoint chain_is (v : Volume) (t : Z → Z) (first : option Z) (cs : list Z) : Prop :=
  match cs with
  | [] => first = None
  | c :: cs => first = Some c ∧ in_range v c ∧ ∃ n, follows (fat_type v) (t c) = Some n ∧ chain_is v t n cs
  end.

Lemma chain_is_unique v t first cs cs' : chain_is v t first cs → chain_is v t first cs' → cs = cs'.
Proof.
  revert first cs'. induction cs as [|c cs IH]; intros first [|c' cs']; cbn; [done| | |].
  - by intros -> (? & _).
  - by intros (-> & _) ?.
  - intros (-> & _ & n & Hn & Hc) ([= <-] & _ & n' & Hn' & Hc'). rewrite Hn in Hn'. injection Hn' as <-.
    f_equal. by eapply IH.
Qed.

Lemma chain_is_in_range v t first cs : chain_is v t first cs → Forall (in_range v) cs.
Proof. revert first. induction cs as [|c cs IH]; intros first; cbn; [constructor|]. intros (_ & ? & n & _ & Hc). constructor; eauto. Qed.

Lemma chain_is_drop v t first cs c cs' : chain_is v t first (cs ++ c :: cs') → chain_is v t (Some c) (c :: cs').
Proof.
  revert first. induction cs as [|d cs IH]; intros first; cbn [app].
  - intros Hc. pose proof Hc as (-> & _). done.
  - intros (_ & _ & n & _ & Hc). by eapply IH.
Qed.

(** A chain that ends does not come back to a cluster. *)
Lemma chain_is_NoDup v t first cs : chain_is v t first cs → NoDup cs.
Proof.
  revert first. induction cs as [|c cs IH]; intros first Hc; [constructor|].
  pose proof Hc as (-> & _ & n & _ & Hc'). constructor; [|by eapply IH].
  intros (a & b & ->)%list_elem_of_split.
  pose proof (chain_is_drop v t (Some c) (c :: a) c b Hc) as Hd.
  pose proof (chain_is_unique _ _ _ _ _ Hc Hd) as He. apply (f_equal length) in He.
  cbn in He. rewrite length_app in He. cbn in He. lia.
Qed.

Lemma NoDup_in_range v cs : 0 <= cluster_count v → NoDup cs → Forall (in_range v) cs →
  Z.of_nat (length cs) <= cluster_count v.
Proof.
  intros Hge Hn Hr. assert (Hs : cs ⊆+ seqZ 2 (cluster_count v)).
  { apply NoDup_submseteq; [done|]. intros c Hc. rewrite Forall_forall in Hr. specialize (Hr c Hc).
    unfold in_range in Hr. apply elem_of_seqZ. lia. }
  apply submseteq_length in Hs. rewrite length_seqZ in Hs. lia.
Qed.

Lemma chain_is_length v t first cs : laid_out v → chain_is v t first cs → Z.of_nat (length cs) <= cluster_count v.
Proof.
  intros [] Hc. apply NoDup_in_range; [destruct (fat_type v); lia|by eapply chain_is_NoDup|by eapply chain_is_in_range].
Qed.

Lemma chain_is_ext v t t' first cs : (∀ c, c ∈ cs → t' c = t c) → chain_is v t first cs → chain_is v t' first cs.
Proof.
  revert first. induction cs as [|c cs IH]; intros first He; cbn; [done|].
  intros (-> & Hr & n & Hn & Hc). split_and!; [done|done|]. exists n. rewrite He by left. split; [done|].
  apply IH; [|done]. intros c' Hc'. apply He. by right.
Qed.

Lemma check_spec f c : wp (check c : M unit) f (λ f' _, f' = f ∧ in_range (vol f) c)
  (λ f' e, f' = f ∧ e = BadCluster c ∧ ¬ in_range (vol f) c).
Proof.
  unfold check, in_range. wp_pure. destruct (Z.ltb_spec c 2), (Z.leb_spec (cluster_count (vol f) + 2) c); cbn [orb];
    wp_pure; split_and!; done || lia.
Qed.

Lemma next_spec f c : coherent f → in_range (vol f) c →
  wp (next c) f (λ f' n, same f f' ∧ follows (fat_type (vol f)) (table f c) = Some n)
    (λ f' e, same f f' ∧ (is_device e ∨ follows (fat_type (vol f)) (table f c) = None)).
Proof.
  intros Hc Hr. unfold next. wp_pure.
  assert (He : (match fat_type (vol f) with Fat16 => (0xFFF8, 0xFFF7) | Fat32 => (0x0FFFFFF8, 0x0FFFFFF7) end)
    = (end_mark (fat_type (vol f)), bad_mark (fat_type (vol f)))) by (by destruct (fat_type (vol f))).
  rewrite He. eapply wp_call; [apply fat_entry_spec; [done|by apply in_range_table]| |].
  - intros f' x [Hs ->]. unfold follows. destruct (end_mark _ <=? _); [by wp_pure|].
    destruct (_ =? bad_mark _); wp_pure; auto.
  - intros f' e [Hs Hd]. auto.
Qed.

Lemma chain_from_spec fuel f first acc : coherent f →
  (S (S (Z.to_nat (cluster_count (vol f)))) ≤ fuel + length acc)%nat →
  (length acc ≤ Z.to_nat (cluster_count (vol f)))%nat →
  wp (chain_from fuel first acc) f
    (λ f' r, same f f' ∧ ∃ cs, r = acc ++ cs ∧ chain_is (vol f) (table f) first cs)
    (λ f' e, same f f' ∧ (is_device e ∨ ∀ cs, chain_is (vol f) (table f) first cs →
                                          cluster_count (vol f) < Z.of_nat (length acc + length cs))).
Proof.
  revert f first acc. induction fuel as [|fuel IH]; intros f first acc Hc Hf Ha; cbn [chain_from]; [lia|].
  destruct first as [c|].
  2: { wp_pure. split; [by apply same_refl|]. exists []. by rewrite app_nil_r. }
  wp_pure. eapply wp_call; [apply check_spec| |].
  2: { intros f' e (-> & -> & Hr). split; [by apply same_refl|]. right. intros [|c' cs]; cbn [chain_is length]; [done|].
       by intros ([= <-] & ? & _). }
  intros f' _ [-> Hr]. destruct (Z.leb_spec (cluster_count (vol f)) (Z.of_nat (length acc))).
  { wp_pure. split; [by apply same_refl|]. right. intros [|c' cs]; cbn [chain_is length]; [done|]. lia. }
  eapply wp_call; [by apply next_spec| |].
  - intros g n [Hs Hn]. pose proof (sm_vol _ _ Hs) as Hv.
    eapply wp_mono; [apply IH; [apply Hs|rewrite length_app, Hv; cbn; lia|rewrite length_app, Hv; cbn; lia]| |].
    + intros h r [Hs' (cs & -> & Hcs)]. split; [by eapply same_trans|]. exists (c :: cs).
      rewrite <-app_assoc. split; [done|]. rewrite Hv in Hcs. split_and!; [done|done|]. exists n. split; [done|].
      eapply chain_is_ext; [|done]. intros. symmetry. by apply same_table.
    + intros h e [Hs' He]. split; [by eapply same_trans|]. destruct He as [|He]; [by left|]. right.
      intros [|c' cs]; cbn [chain_is length]; [done|]. intros ([= <-] & _ & n' & Hn' & Hcs). rewrite Hn in Hn'. injection Hn' as <-.
      rewrite Hv, length_app in He. cbn in He. specialize (He cs). rewrite Nat.add_succ_r, <-Nat.add_succ_l.
      replace (S (length acc)) with (length acc + 1)%nat by lia. apply He.
      eapply chain_is_ext; [|done]. intros. by apply same_table.
  - intros g e [Hs He]. split; [done|]. destruct He as [|He]; [by left|]. right. intros [|c' cs]; cbn [chain_is length]; [done|].
    intros ([= <-] & _ & n' & Hn' & _). congruence.
Qed.

(** Following a chain gives exactly the chain there is, or an error when there is none. *)
Lemma chain_spec f first : coherent f →
  wp (chain first) f
    (λ f' cs, same f f' ∧ chain_is (vol f) (table f) (Some first) cs)
    (λ f' e, same f f' ∧ (is_device e ∨ ∀ cs, ¬ chain_is (vol f) (table f) (Some first) cs)).
Proof.
  intros Hc. unfold chain. wp_pure. eapply wp_mono; [apply chain_from_spec; [done|cbn; lia|cbn; lia]| |].
  - intros f' r [Hs (cs & -> & Hcs)]. done.
  - intros f' e [Hs He]. split; [done|]. destruct He as [|He]; [by left|]. right. intros cs Hcs.
    specialize (He cs Hcs). cbn in He. pose proof (chain_is_length _ _ _ _ (sd_laid _ (co_sound _ Hc)) Hcs). lia.
Qed.
End table.

End FatTable.
