(* ===== verification/FatChains.v ===== *)
(** Cluster chains: allocating free clusters, linking them, and freeing a chain.  The specifications
    of [allocate], [link], [free_chain] and [free_clusters] of Fat over the table of FatTable, and
    the theorems about them. *)
From S2P Require Import Prelude Bytes Text Effect Disk Fat FatTable.
Open Scope Z_scope.

Module FatChains.
Import Effect Text Disk Fat FatTable.

Section chains.
Context `{LawfulDevice D E}.
Implicit Types (f g h : Fat D) (s c : Z) (cs : list Z).
Local Notation M := (M D E).

(** Only the entries of [cs] may have changed, in memory or on the disk. *)
Record edited f f' cs : Prop := {
  ed_only : fat_only f f';
  ed_table c : in_table (vol f) c → c ∉ cs → table f' c = table f c;
  ed_kept c : in_table (vol f) c → c ∉ cs → entry_kept f f' c;
  ed_mirrored : mirrored f → mirrored f' }.

(** The same after a failure, which may also have lost a change that was pending. *)
Record left_but f f' cs : Prop := {
  lb_only : fat_only f f';
  lb_kept c : in_table (vol f) c → c ∉ cs → entry_kept f f' c }.

Lemma edited_refl f : coherent f → edited f f [].
Proof. intros. constructor; auto using fat_only_refl, entry_kept_refl. Qed.

Lemma edited_trans f g h cs ds : edited f g cs → edited g h ds → edited f h (cs ++ ds).
Proof.
  intros [Ho Ht Hk Hm] [Ho' Ht' Hk' Hm']. pose proof (fo_vol _ _ Ho) as Hv. rewrite Hv in *.
  constructor; [by eapply fat_only_trans| | |auto].
  - intros c Hc [? ?]%not_elem_of_app. by rewrite Ht', Ht.
  - intros c Hc [? ?]%not_elem_of_app. eapply entry_kept_trans; auto.
Qed.

Lemma edited_left f g h cs ds : edited f g cs → left_but g h ds → left_but f h (cs ++ ds).
Proof.
  intros [Ho Ht Hk Hm] [Ho' Hk']. pose proof (fo_vol _ _ Ho) as Hv. rewrite Hv in *.
  constructor; [by eapply fat_only_trans|]. intros c Hc [? ?]%not_elem_of_app. eapply entry_kept_trans; auto.
Qed.

Lemma edited_left_but f g cs : edited f g cs → left_but f g cs.
Proof. intros []. by constructor. Qed.

Lemma changed_edited f g c x : changed f g c x → edited f g [c].
Proof.
  intros [Ho Ht Hk Hm]. constructor; auto.
  - intros c' Hc Hn. rewrite Ht by done. rewrite decide_False; [done|]. intros ->. by apply Hn, list_elem_of_singleton.
  - intros c' Hc Hn. apply Hk; [done|]. intros ->. by apply Hn, list_elem_of_singleton.
Qed.

Lemma left_alone_but f g : left_alone f g → left_but f g [].
Proof. intros [Ho Hk]. constructor; auto. Qed.

Lemma left_but_mono f g cs ds : (∀ c, c ∈ cs → c ∈ ds) → left_but f g cs → left_but f g ds.
Proof. intros Hi [Ho Hk]. constructor; [done|]. intros c Hc Hn. apply Hk; auto. Qed.

Lemma same_view_edited f g : same_view f g → edited f g [].
Proof. intros []. constructor; auto. Qed.

Lemma edited_coherent f g cs : edited f g cs → coherent g.
Proof. intros Hed. apply Hed. Qed.

Lemma edited_vol f g cs : edited f g cs → vol g = vol f.
Proof. intros Hed. apply Hed. Qed.

(** ** Setting several entries *)
Lemma set_all_spec cs x f : coherent f → Forall (in_table (vol f)) cs → value_ok (fat_type (vol f)) x →
  wp (set_all cs x) f (λ f' _, edited f f' cs ∧ ∀ c, c ∈ cs → table f' c = x)
    (λ f' e, left_but f f' cs ∧ is_device e).
Proof.
  revert f. induction cs as [|c cs IH]; intros f Hc Hr Hx; cbn [set_all].
  { wp_pure. split; [by apply edited_refl|]. intros c Hn. by apply elem_of_nil in Hn. }
  apply Forall_cons in Hr as [Hrc Hr]. eapply wp_call; [by apply set_fat_entry_spec| |].
  - intros g ? Hg. pose proof (changed_edited _ _ _ _ Hg) as Heg. pose proof (edited_vol _ _ _ Heg) as Hv.
    eapply wp_mono; [apply IH; [by eapply edited_coherent|by rewrite Hv|by rewrite Hv]| |].
    + intros h ? [Hh Ht]. split; [by apply (edited_trans f g h [c])|]. intros c' Hin.
      destruct (decide (c' ∈ cs)); [by apply Ht|]. apply elem_of_cons in Hin as [->|]; [|done].
      rewrite (ed_table _ _ _ Hh), (ch_table _ _ _ _ Hg) by (done || by rewrite Hv). by rewrite decide_True.
    + intros h e [Hh He]. split; [|done]. by apply (edited_left f g h [c]).
  - intros g e [Hg He]. split; [|done]. eapply left_but_mono; [|by apply left_alone_but].
    intros c' Hn. by apply elem_of_nil in Hn.
Qed.

(** ** Linking *)
Lemma follows_cluster v c : laid_out v → in_range v c → follows (fat_type v) c = Some (Some c) ∧ value_ok (fat_type v) c.
Proof.
  intros [] Hc. unfold follows, value_ok, in_range in *. destruct (fat_type v); cbn [end_mark bad_mark entry_mask];
    rewrite (proj2 (Z.leb_gt _ _)), (proj2 (Z.eqb_neq _ _)) by lia; split; done || lia.
Qed.

Lemma follows_mask t : follows t (entry_mask t) = Some None ∧ value_ok t (entry_mask t).
Proof. by destruct t. Qed.

Lemma link_from_spec cs f : coherent f → Forall (in_range (vol f)) cs → NoDup cs →
  wp (link_from cs) f (λ f' _, edited f f' cs ∧ chain_is (vol f) (table f') (head cs) cs)
    (λ f' e, left_but f f' cs ∧ is_device e).
Proof.
  revert f. induction cs as [|c cs IH]; intros f Hc Hr Hn; cbn [link_from].
  { wp_pure. split; [by apply edited_refl|done]. }
  apply Forall_cons in Hr as [Hrc Hr]. apply NoDup_cons in Hn as [Hnc Hn]. wp_pure.
  set (x := default _ _). pose proof (sd_laid _ (co_sound _ Hc)) as Hl.
  assert (Hx : follows (fat_type (vol f)) x = Some (head cs) ∧ value_ok (fat_type (vol f)) x).
  { unfold x. destruct cs as [|c' cs]; cbn [head default]; [apply follows_mask|].
    apply Forall_cons in Hr as [Hr _]. by apply follows_cluster. }
  destruct Hx as [Hfx Hx].
  eapply wp_call; [apply set_fat_entry_spec; [done|by apply in_range_table|done]| |].
  - intros g ? Hg. pose proof (changed_edited _ _ _ _ Hg) as Heg. pose proof (edited_vol _ _ _ Heg) as Hv.
    eapply wp_mono; [apply IH; [by eapply edited_coherent|by rewrite Hv|done]| |].
    + intros h ? [Hh Ht]. split; [by apply (edited_trans f g h [c])|]. rewrite Hv in Ht.
      split_and!; [done|done|]. exists (head cs). split; [|done].
      rewrite (ed_table _ _ _ Hh), (ch_table _ _ _ _ Hg) by (by rewrite ?Hv; apply in_range_table || done).
      by rewrite decide_True.
    + intros h e [Hh He]. split; [|done]. by apply (edited_left f g h [c]).
  - intros g e [Hg He]. split; [|done]. eapply left_but_mono; [|by apply left_alone_but].
    intros c' Hc'. by apply elem_of_nil in Hc'.
Qed.

(** The free-cluster count after [delta] more clusters are free. *)
Definition recount (delta : Z) h : Fat D :=
  match free_count h with
  | Some n => with_free_count (Some (wrap 32 (n + delta))) h
  | None => h
  end.

Lemma recount_table n h c : table (recount n h) c = table h c.
Proof. unfold recount. by destruct (free_count h). Qed.

Lemma recount_sector n h s : sector (recount n h) s = sector h s.
Proof. unfold recount. by destruct (free_count h). Qed.

Lemma recount_vol n h : vol (recount n h) = vol h.
Proof. unfold recount. by destruct (free_count h). Qed.

Lemma recount_dirty n h : fat_dirty (recount n h) = fat_dirty h.
Proof. unfold recount. by destruct (free_count h). Qed.

Lemma flush_edited f g cs h : edited f g cs → flushed g h → edited f h cs ∧ fat_dirty h = None ∧
  ∀ c, in_table (vol f) c → table h c = table g c.
Proof.
  intros Hg Hh. pose proof (edited_vol _ _ _ Hg) as Hv. split_and!; [|apply Hh|].
  - rewrite <-(app_nil_r cs). eapply edited_trans; [done|].
    apply same_view_edited, flushed_same_view; [by eapply edited_coherent|done].
  - intros c Hc. apply flushed_table; [by eapply edited_coherent|done|by rewrite Hv].
Qed.

Lemma unflushed_edited f g cs h : edited f g cs → unflushed g h → left_but f h cs.
Proof.
  intros Hg Hh. rewrite <-(app_nil_r cs). eapply edited_left; [done|]. constructor; [apply Hh|].
  intros c Hc _. apply unflushed_kept; [by eapply edited_coherent|done|done].
Qed.

Lemma link_spec cs f : coherent f → Forall (in_range (vol f)) cs → NoDup cs →
  wp (link cs) f
    (λ f' _, ∃ h, edited f h cs ∧ chain_is (vol f) (table h) (head cs) cs ∧ fat_dirty h = None ∧
                  f' = recount (- Z.of_nat (length cs)) h)
    (λ f' e, left_but f f' cs ∧ is_device e).
Proof.
  intros Hc Hr Hn. unfold link. eapply wp_call; [by apply link_from_spec| |].
  - intros g ? [Hg Ht]. eapply wp_call; [apply flush_fat_spec; by eapply edited_coherent| |].
    + intros h ? Hh. destruct (flush_edited _ _ _ _ Hg Hh) as (Heh & Hd & Hth). wp_pure.
      assert (Hch : chain_is (vol f) (table h) (head cs) cs).
      { eapply chain_is_ext; [|done]. intros c Hin. apply Hth, in_range_table. by rewrite Forall_forall in Hr; apply Hr. }
      unfold recount. destruct (free_count h) as [n|] eqn:En; wp_pure; exists h; rewrite En; by rewrite ?Z.add_opp_r.
    + intros h e [Hh He]. split; [|done]. by eapply unflushed_edited.
  - done.
Qed.

(** ** Freeing *)

(** The state after freeing [cs]: the count and the next-free hint are brought up to date. *)
Definition give_back cs h : Fat D :=
  let h := recount (Z.of_nat (length cs)) h in
  match cs with [] => h | c :: cs => with_next_free (Z.min (next_free h) (foldr Z.min c cs)) h end.

(** The clusters [free_chain first] frees. *)
Definition chain_of f first cs : Prop :=
  if first =? 0 then cs = [] else chain_is (vol f) (table f) (Some first) cs.

Lemma value_0 t : value_ok t 0.
Proof. by destruct t. Qed.

Lemma free_chain_spec first f : coherent f →
  wp (free_chain first) f
    (λ f' _, ∃ cs h, chain_of f first cs ∧ edited f h cs ∧ (∀ c, c ∈ cs → table h c = 0) ∧ fat_dirty h = None ∧
                     f' = give_back cs h)
    (λ f' e, (same f f' ∧ (is_device e ∨ ∀ cs, ¬ chain_of f first cs)) ∨
             ∃ cs, chain_of f first cs ∧ left_but f f' cs ∧ is_device e).
Proof.
  intros Hc. unfold free_chain.
  apply (wp_call _ _ _ (λ f' cs, same f f' ∧ chain_of f first cs)
    (λ f' e, same f f' ∧ (is_device e ∨ ∀ cs, ¬ chain_of f first cs))).
  { unfold chain_of. destruct (first =? 0); [wp_pure; split; [by apply same_refl|done]|by apply chain_spec]. }
  2: { intros f' e He. by left. }
  intros g cs [Hs Hcs]. pose proof (sm_vol _ _ Hs) as Hv.
  assert (Hr : Forall (in_table (vol g)) cs).
  { rewrite Hv. unfold chain_of in Hcs. destruct (first =? 0); [subst; constructor|].
    eapply Forall_impl; [by eapply chain_is_in_range|]. apply in_range_table. }
  pose proof (same_view_edited _ _ (same_same_view _ _ Hs)) as Hfg.
  eapply wp_call; [apply (set_all_spec cs 0 g); [apply Hs|done|apply value_0]| |].
  - intros h ? [Hh Ht]. pose proof (edited_trans _ _ _ _ _ Hfg Hh) as Hfh. cbn [app] in Hfh.
    eapply wp_call; [apply flush_fat_spec; by eapply edited_coherent| |].
    + intros k ? Hk. destruct (flush_edited _ _ _ _ Hfh Hk) as (Hek & Hd & Htk). wp_pure.
      assert (Hz : ∀ c, c ∈ cs → table k c = 0).
      { intros c Hin. rewrite Htk; [by apply Ht|]. rewrite <-Hv. by rewrite Forall_forall in Hr; apply Hr. }
      apply (wp_call _ _ _ (λ k' _, k' = recount (Z.of_nat (length cs)) k) (λ _ _, False)); [| |done].
      { unfold recount. destruct (free_count k) as [n|]; by wp_pure. }
      intros k' ? ->. destruct cs as [|c cs']; wp_pure; (eexists _, k; split_and!; [exact Hcs|done|done|done|done]).
    + intros k e [Hk He]. right. exists cs. split_and!; [done| |done]. by eapply unflushed_edited.
  - intros h e [Hh He]. right. exists cs. split_and!; [done| |done]. by apply (edited_left f g h []).
Qed.

(** ** Free clusters *)
Definition free_list f : list Z := filter (λ c, table f c = 0) (seqZ 2 (cluster_count (vol f))).

Lemma elem_of_free_list f c : c ∈ free_list f ↔ in_range (vol f) c ∧ table f c = 0.
Proof. unfold free_list, in_range. rewrite list_elem_of_filter, elem_of_seqZ. intuition lia. Qed.

Lemma NoDup_free_list f : NoDup (free_list f).
Proof. apply NoDup_filter, NoDup_seqZ. Qed.

Lemma same_free_list f f' : same f f' → free_list f' = free_list f.
Proof.
  intros Hs. unfold free_list. rewrite (sm_vol _ _ Hs). apply list_filter_iff. intros c. by rewrite (same_table _ _ _ Hs).
Qed.

Lemma count_free_spec n f c k : coherent f → 2 <= c → c + Z.of_nat n <= cluster_count (vol f) + 2 →
  wp (count_free n c k) f
    (λ f' r, same f f' ∧ r = k + Z.of_nat (length (filter (λ c, table f c = 0) (seqZ c (Z.of_nat n)))))
    (λ f' e, same f f' ∧ is_device e).
Proof.
  revert f c k. induction n as [|n IH]; intros f c k Hc Hlo Hhi; cbn [count_free].
  { wp_pure. split; [by apply same_refl|]. rewrite seqZ_nil by lia. cbn [filter list_filter length]. lia. }
  eapply wp_call; [apply fat_entry_spec; [done|lia]| |].
  - intros g x [Hs ->]. pose proof (sm_vol _ _ Hs) as Hv.
    eapply wp_mono; [apply IH; [apply Hs|lia|rewrite Hv; lia]| |].
    + intros h r [Hs' ->]. split; [by eapply same_trans|].
      rewrite (seqZ_cons c (Z.of_nat (S n))) by lia.
      replace (Z.pred (Z.of_nat (S n))) with (Z.of_nat n) by lia. rewrite <-Z.add_1_r.
      rewrite (list_filter_iff _ (λ c, table f c = 0)) by (intros c'; by rewrite (same_table _ _ _ Hs)).
      rewrite filter_cons. destruct (Z.eqb_spec (table f c) 0); case_decide; try done; cbn [length]; lia.
    + intros h e [Hs' He]. split; [by eapply same_trans|done].
  - done.
Qed.

(** [free_clusters] counts the free clusters. *)
Lemma free_clusters_spec f : coherent f →
  wp free_clusters f (λ f' n, same f f' ∧ n = Z.of_nat (length (free_list f))) (λ f' e, same f f' ∧ is_device e).
Proof.
  intros Hc. pose proof (sd_laid _ (co_sound _ Hc)) as []. unfold free_clusters. wp_pure.
  assert (Hge : 0 <= cluster_count (vol f)) by (destruct (fat_type (vol f)); lia).
  eapply wp_mono; [apply count_free_spec; [done|lia|lia]| |done].
  intros f' r [Hs ->]. split; [done|]. rewrite Z2Nat.id by done. done.
Qed.

(** The clusters in the order [allocate] looks at them. *)
Definition search_order (v : Volume) (first : Z) (i : Z) (n : Z) : list Z :=
  (λ j, 2 + (first - 2 + j) mod cluster_count v) <$> seqZ i n.

Lemma search_order_perm v first : 0 < cluster_count v →
  search_order v first 0 (cluster_count v) ≡ₚ seqZ 2 (cluster_count v).
Proof.
  intros Hpos. apply NoDup_Permutation; [|apply NoDup_seqZ|].
  - apply NoDup_fmap_2_strong; [|apply NoDup_seqZ]. intros j k Hj%elem_of_seqZ Hk%elem_of_seqZ He.
    assert (Hm : (first - 2 + j) mod cluster_count v = (first - 2 + k) mod cluster_count v) by lia.
    pose proof (Z_div_mod_eq_full (first - 2 + j) (cluster_count v)).
    pose proof (Z_div_mod_eq_full (first - 2 + k) (cluster_count v)).
    rewrite Hm in *.
    assert ((first - 2 + j) / cluster_count v = (first - 2 + k) / cluster_count v) by nia. nia.
  - intros c. unfold search_order. rewrite list_elem_of_fmap, elem_of_seqZ. split.
    + intros (j & -> & _). pose proof (Z.mod_pos_bound (first - 2 + j) (cluster_count v) Hpos). lia.
    + intros Hc. exists ((c - first) mod cluster_count v).
      split; [|apply elem_of_seqZ; pose proof (Z.mod_pos_bound (c - first) (cluster_count v) Hpos); lia].
      rewrite Zplus_mod_idemp_r. replace (first - 2 + (c - first)) with (c - 2) by lia.
      rewrite Z.mod_small by lia. lia.
Qed.

Lemma find_free_spec n f first i count acc : coherent f → (length acc ≤ count)%nat →
  wp (find_free n first i count acc) f
    (λ f' r, same f f' ∧
       r = acc ++ take (count - length acc)
                    (filter (λ c, table f c = 0) (search_order (vol f) first i (Z.of_nat n))))
    (λ f' e, same f f' ∧ is_device e).
Proof.
  revert f i acc. induction n as [|n IH]; intros f i acc Hc Ha; cbn [find_free].
  { wp_pure. split; [by apply same_refl|]. unfold search_order. rewrite seqZ_nil by lia.
    cbn [fmap list_fmap filter list_filter]. by rewrite take_nil, app_nil_r. }
  destruct (Nat.eqb_spec (length acc) count) as [He|Hne]; wp_pure.
  { split; [by apply same_refl|]. rewrite He, Nat.sub_diag, take_0. by rewrite app_nil_r. }
  set (c := 2 + _). pose proof (sd_laid _ (co_sound _ Hc)) as [].
  assert (Hpos : 0 < cluster_count (vol f)) by (destruct (fat_type (vol f)); lia).
  eapply wp_call; [apply fat_entry_spec; [done|unfold c]| |].
  { pose proof (Z.mod_pos_bound (first - 2 + i) (cluster_count (vol f)) Hpos). lia. }
  2: { done. }
  intros g x [Hs ->]. pose proof (sm_vol _ _ Hs) as Hv.
  assert (Ho : search_order (vol f) first i (Z.of_nat (S n)) = c :: search_order (vol g) first (i + 1) (Z.of_nat n)).
  { unfold search_order. rewrite seqZ_cons by lia. cbn [fmap list_fmap]. rewrite Hv. f_equal. f_equal. f_equal; lia. }
  eapply wp_mono; [apply IH; [apply Hs|]| |].
  - destruct (table f c =? 0); [rewrite length_app; cbn|]; lia.
  - intros h r [Hs' ->]. split; [by eapply same_trans|]. rewrite Ho.
    rewrite (list_filter_iff _ (λ c, table f c = 0)) by (intros c'; by rewrite (same_table _ _ _ Hs)).
    rewrite filter_cons. destruct (Z.eqb_spec (table f c) 0); case_decide; try done.
    rewrite length_app, <-app_assoc. cbn [length app]. f_equal.
    replace (count - length acc)%nat with (S (count - (length acc + 1)))%nat by lia. done.
  - intros h e [Hs' He]. split; [by eapply same_trans|done].
Qed.

(** [allocate] finds the first [count] free clusters from the hint on; it fails only when there
    are fewer. *)
Lemma allocate_spec count f : coherent f →
  wp (allocate count) f
    (λ f' cs, ∃ g n, same f g ∧ f' = with_next_free n g ∧
       length cs = count ∧ NoDup cs ∧ Forall (λ c, in_range (vol f) c ∧ table f c = 0) cs)
    (λ f' e, same f f' ∧ (is_device e ∨ e = NoSpace ∧ (length (free_list f) < count)%nat)).
Proof.
  intros Hc. unfold allocate. wp_pure. pose proof (sd_laid _ (co_sound _ Hc)) as [].
  assert (Hpos : 0 < cluster_count (vol f)) by (destruct (fat_type (vol f)); lia).
  set (first := clamp _ _ _).
  eapply wp_call; [apply find_free_spec; [done|cbn; lia]| |].
  2: { intros f' e [Hs He]. auto. }
  intros g r [Hs ->]. cbn [app length]. rewrite Nat.sub_0_r, Z2Nat.id by lia.
  set (ff := filter _ _). assert (Hp : ff ≡ₚ free_list f).
  { unfold ff, free_list. apply filter_Permutation, search_order_perm. done. }
  assert (Hlen : length (take count ff) = (count `min` length (free_list f))%nat).
  { rewrite length_take. by rewrite (Permutation_length Hp). }
  destruct (Nat.ltb_spec (length (take count ff)) count); wp_pure.
  { split; [done|]. right. split; [done|]. lia. }
  eexists g, _. split_and!; [done|done|lia| |].
  - assert (Hn : NoDup ff) by (rewrite Hp; apply NoDup_free_list).
    eapply sublist_NoDup; [exact Hn|apply sublist_take].
  - apply Forall_take, Forall_forall. intros c Hin. apply elem_of_free_list. by rewrite <-Hp.
Qed.
End chains.

End FatChains.
