(* ===== verification/FatData.v ===== *)
(** File data: [read_chain] reads, and [write_clusters] writes, runs of consecutive clusters in one
    go.  Both are shown equal to handling the clusters one by one, and [write_chain] followed by
    [read_chain] to give the data back. *)
From S2P Require Import Prelude Bytes Text Effect Disk Fat FatTable FatChains.
Open Scope Z_scope.

Module FatData.
Import Effect Text Disk Fat FatTable FatChains.

Section data.
Context `{LawfulDevice D E}.
Implicit Types (f g h : Fat D) (s c : Z) (cs : list Z).
Local Notation M := (M D E).

(** ** The reference: cluster by cluster *)
Definition sector_run f s n : list Z := concat (sector f <$> seqZ s n).
Definition cluster_bytes f c : list Z := sector_run f (first_sector (vol f) c) (sectors_per_cluster (vol f)).
Definition chain_bytes f cs : list Z := concat (cluster_bytes f <$> cs).

Lemma length_sector_run f s n : 0 <= n → Z.of_nat (length (sector_run f s n)) = n * 512.
Proof.
  intros Hn. unfold sector_run. rewrite <-(Z2Nat.id n) by done. clear Hn. generalize (Z.to_nat n). clear n. intros n.
  revert s. induction n as [|n IH]; intros s; [done|].
  rewrite seqZ_cons by lia. cbn [fmap list_fmap concat]. rewrite length_app.
  destruct (sector_block f s) as [-> _]. replace (Z.pred (Z.of_nat (S n))) with (Z.of_nat n) by lia.
  rewrite Nat2Z.inj_add, IH. lia.
Qed.

Lemma sector_run_app f s n m : 0 <= n → 0 <= m → sector_run f s (n + m) = sector_run f s n ++ sector_run f (s + n) m.
Proof. intros. unfold sector_run. by rewrite seqZ_app, fmap_app, concat_app by done. Qed.

(** A run of consecutive clusters is a run of sectors. *)
Lemma chain_bytes_run f c n : sound (vol f) → 0 <= n →
  chain_bytes f (seqZ c n) = sector_run f (first_sector (vol f) c) (n * sectors_per_cluster (vol f)).
Proof.
  intros [[] _ _ _] Hn. rewrite <-(Z2Nat.id n) by done. generalize (Z.to_nat n). clear n Hn. intros n.
  revert c. induction n as [|n IH]; intros c; [done|].
  rewrite seqZ_cons by lia. unfold chain_bytes. cbn [fmap list_fmap concat].
  replace (Z.pred (Z.of_nat (S n))) with (Z.of_nat n) by lia. fold (chain_bytes f (seqZ (Z.succ c) (Z.of_nat n))).
  rewrite IH. replace (Z.of_nat (S n) * sectors_per_cluster (vol f))
    with (sectors_per_cluster (vol f) + Z.of_nat n * sectors_per_cluster (vol f)) by lia.
  rewrite sector_run_app by lia. unfold cluster_bytes. f_equal. f_equal. unfold first_sector. lia.
Qed.

Lemma chain_bytes_app f cs ds : chain_bytes f (cs ++ ds) = chain_bytes f cs ++ chain_bytes f ds.
Proof. unfold chain_bytes. by rewrite fmap_app, concat_app. Qed.

Lemma length_chain_bytes f cs : sound (vol f) →
  Z.of_nat (length (chain_bytes f cs)) = Z.of_nat (length cs) * cluster_size (vol f).
Proof.
  intros Hv. induction cs as [|c cs IH]; [done|]. unfold chain_bytes. cbn [fmap list_fmap concat].
  fold (chain_bytes f cs). rewrite length_app. unfold cluster_bytes. destruct Hv as [[] _ _ _].
  rewrite Nat2Z.inj_add, IH, length_sector_run by lia. unfold cluster_size, BLOCK_SIZE. cbn [length]. lia.
Qed.

Lemma same_chain_bytes f f' cs : same f f' → chain_bytes f' cs = chain_bytes f cs.
Proof.
  intros Hs. unfold chain_bytes, cluster_bytes, sector_run. rewrite (sm_vol _ _ Hs). f_equal. apply list_fmap_ext.
  intros _ c _. f_equal. apply list_fmap_ext. intros _ s _. by apply same_sector.
Qed.

(** ** Reading *)

(** Following the table from [first] over [cs] leads to [rest]. *)
Fixpoint path (v : Volume) (t : Z → Z) (first : option Z) cs (rest : option Z) : Prop :=
  match cs with
  | [] => first = rest
  | c :: cs => first = Some c ∧ in_range v c ∧ ∃ n, follows (fat_type v) (t c) = Some n ∧ path v t n cs rest
  end.

Lemma path_snoc v t first cs c n : path v t first cs (Some c) → in_range v c → follows (fat_type v) (t c) = Some n →
  path v t first (cs ++ [c]) n.
Proof.
  revert first. induction cs as [|d cs IH]; intros first; cbn [path app].
  - intros -> Hr Hn. split_and!; [done|done|]. by exists n.
  - intros (-> & Hd & m & Hm & Hp) Hr Hn. split_and!; [done|done|]. exists m. split; [done|]. by apply IH.
Qed.

Lemma path_chain v t first cs rest ds : path v t first cs rest → chain_is v t first ds →
  ∃ tail, ds = cs ++ tail ∧ chain_is v t rest tail.
Proof.
  revert first ds. induction cs as [|c cs IH]; intros first ds; cbn [path].
  - intros -> Hd. by exists ds.
  - intros (-> & _ & n & Hn & Hp). destruct ds as [|d ds]; cbn [chain_is]; [done|].
    intros ([= <-] & _ & m & Hm & Hd). rewrite Hn in Hm. injection Hm as <-.
    destruct (IH _ _ Hp Hd) as (tail & -> & Ht). by exists tail.
Qed.

Lemma path_ext v t t' first cs rest : (∀ c, t' c = t c) → path v t first cs rest → path v t' first cs rest.
Proof.
  intros He. revert first. induction cs as [|c cs IH]; intros first; cbn [path]; [done|].
  intros (-> & Hr & n & Hn & Hp). split_and!; [done|done|]. exists n. rewrite He. auto.
Qed.

Lemma path_end v t first cs : path v t first cs None → chain_is v t first cs.
Proof.
  revert first. induction cs as [|c cs IH]; intros first; cbn [path chain_is]; [done|].
  intros (-> & Hr & n & Hn & Hp). split_and!; [done|done|]. exists n. auto.
Qed.

Lemma path_in_range v t first cs rest : path v t first cs rest → Forall (in_range v) cs.
Proof.
  revert first. induction cs as [|c cs IH]; intros first; cbn [path]; [constructor|].
  intros (_ & Hr & n & _ & Hp). constructor; [done|]. by eapply IH.
Qed.

(** A path that goes on is part of no chain if its next cluster is bad, or it is too long. *)
Lemma no_chain_out v t first cs c : path v t first cs (Some c) → ¬ in_range v c → ∀ ds, ¬ chain_is v t first ds.
Proof.
  intros Hp Hr ds Hd. destruct (path_chain _ _ _ _ _ _ Hp Hd) as ([|d tail] & -> & Ht); cbn [chain_is] in Ht; [done|].
  by destruct Ht as ([= <-] & ? & _).
Qed.

Lemma no_chain_bad v t first cs c : path v t first cs (Some c) → follows (fat_type v) (t c) = None →
  ∀ ds, ¬ chain_is v t first ds.
Proof.
  intros Hp Hr ds Hd. destruct (path_chain _ _ _ _ _ _ Hp Hd) as ([|d tail] & -> & Ht); cbn [chain_is] in Ht; [done|].
  destruct Ht as ([= <-] & _ & n & Hn & _). congruence.
Qed.

Lemma no_chain_long v t first cs c : laid_out v → path v t first cs (Some c) →
  cluster_count v <= Z.of_nat (length cs) → ∀ ds, ¬ chain_is v t first ds.
Proof.
  intros Hl Hp Hr ds Hd. destruct (path_chain _ _ _ _ _ _ Hp Hd) as ([|d tail] & -> & Ht); cbn [chain_is] in Ht; [done|].
  pose proof (chain_is_length _ _ _ _ Hl Hd) as Hlen. rewrite length_app in Hlen. cbn [length] in Hlen. lia.
Qed.

(** Why following a chain may fail. *)
Definition chain_error f first (e : FatError E) : Prop :=
  is_device e ∨ ∀ cs, ¬ chain_is (vol f) (table f) first cs.

Lemma extend_run_spec fuel f first done c0 limit len max_run run steps : coherent f → 0 <= run →
  path (vol f) (table f) first (done ++ seqZ c0 run) (Some (c0 + run)) →
  steps = Z.of_nat (length done) + run → (Z.to_nat (cluster_count (vol f) - steps) < fuel)%nat →
  wp (extend_run fuel limit len max_run (c0 + run) run steps) f
    (λ f' '(run', steps', rest), same f f' ∧ run < run' ∧ steps' = Z.of_nat (length done) + run' ∧
       path (vol f) (table f) first (done ++ seqZ c0 run') rest ∧ steps' <= cluster_count (vol f))
    (λ f' e, same f f' ∧ chain_error f first e).
Proof.
  revert f run steps. induction fuel as [|fuel IH]; intros f run steps Hc Hrun Hp Hst Hf; cbn [extend_run]; [lia|].
  wp_pure. eapply wp_call; [apply check_spec| |].
  2: { intros f' e (-> & -> & Hr). split; [by apply same_refl|]. right. by eapply no_chain_out. }
  intros f' ? [-> Hr]. destruct (Z.ltb_spec (cluster_count (vol f)) (steps + 1)).
  { wp_pure. split; [by apply same_refl|]. right. eapply no_chain_long; [apply Hc|done|].
    rewrite length_app, length_seqZ. lia. }
  eapply wp_call; [by apply next_spec| |].
  2: { intros f' e [Hs [He|He]]; (split; [done|]); [by left|]. right. by eapply no_chain_bad. }
  intros g n [Hs Hn]. pose proof (sm_vol _ _ Hs) as Hv.
  assert (Hp' : path (vol f) (table f) first (done ++ seqZ c0 (run + 1)) n).
  { rewrite seqZ_app by lia. cbn [app]. rewrite app_assoc. by apply path_snoc. }
  assert (Hstop : same f g ∧ run < run + 1 ∧ steps + 1 = Z.of_nat (length done) + (run + 1) ∧
    path (vol f) (table f) first (done ++ seqZ c0 (run + 1)) n ∧ steps + 1 <= cluster_count (vol f))
    by (split_and!; done || lia).
  destruct n as [n|]; [|by wp_pure]. destruct (Z.eqb_spec n (c0 + run + 1)) as [->|]; cbn [andb]; [|by wp_pure].
  destruct (_ && _); [|by wp_pure]. rewrite <-Z.add_assoc in *.
  eapply wp_mono; [apply (IH g (run + 1)); [apply Hs|lia| |lia|rewrite Hv; lia]| |].
  - rewrite Hv. eapply path_ext; [|done]. intros. by apply same_table.
  - rewrite Hv. intros h [[run' steps'] rest] (Hs' & Hlt & Hst' & Hpp & Hle). split_and!; [by eapply same_trans|lia|done| |done].
    eapply path_ext; [|done]. intros. symmetry. by apply same_table.
  - intros h e [Hs' He]. split; [by eapply same_trans|]. destruct He as [|He]; [by left|]. right.
    intros cs Hcs. apply (He cs). rewrite Hv. eapply chain_is_ext; [|done]. intros. by apply same_table.
Qed.

Lemma read_sectors_spec f s n : coherent f → 0 <= s → 0 <= n →
  s + n <= data_start (vol f) + cluster_count (vol f) * sectors_per_cluster (vol f) →
  wp (read_sectors s n) f (λ f' b, same f f' ∧ b = sector_run f s n) (λ f' e, same f f' ∧ is_device e).
Proof.
  intros Hc Hs Hn Hend. unfold read_sectors. wp_pure. pose proof (co_sound f Hc) as Hv.
  rewrite lba_eq by (done || lia). apply wp_bind. unfold wp, dev.
  destruct (read_blocks _ _ _) as [d r] eqn:Er. apply read_blocks_spec in Er as [Hk Hb].
  2: { destruct Hv as [[] ? _ _]. unfold in_reach. lia. }
  assert (Hsame : same f (with_device d f)) by (constructor; try done; by apply coherent_device).
  destruct r as [bs|e]; [|split; [done|by eexists]]. rewrite (Hb bs eq_refl). wp_pure. split; [done|].
  unfold sector_run, seqZ. rewrite <-list_fmap_compose. f_equal. apply list_fmap_ext. intros _ i _. cbn.
  unfold sector. f_equal. lia.
Qed.

Lemma read_runs_spec fuel f first done limit max_run cluster steps : coherent f →
  path (vol f) (table f) first done cluster → steps = Z.of_nat (length done) →
  steps <= cluster_count (vol f) → (Z.to_nat (cluster_count (vol f) - steps) + 1 < fuel)%nat →
  wp (read_runs fuel limit max_run cluster (chain_bytes f done) steps) f
    (λ f' r, same f f' ∧ ∃ cs rest, path (vol f) (table f) first cs rest ∧ r = chain_bytes f cs ∧
       (rest = None ∨ covered limit (Z.of_nat (length r)) = true))
    (λ f' e, same f f' ∧ chain_error f first e).
Proof.
  revert f done cluster steps. induction fuel as [|fuel IH]; intros f done cluster steps Hc Hp Hst Hle Hf;
    cbn [read_runs]; [lia|]. wp_pure. destruct cluster as [c0|].
  2: { wp_pure. split; [by apply same_refl|]. exists done, None. auto. }
  destruct (covered limit _) eqn:Hcov.
  { wp_pure. split; [by apply same_refl|]. exists done, (Some c0). auto. }
  pose proof (sd_laid _ (co_sound f Hc)) as Hl.
  pose proof (extend_run_spec (S (Z.to_nat (cluster_count (vol f)))) f first done c0 limit
    (Z.of_nat (length (chain_bytes f done))) max_run 0 steps Hc ltac:(lia)) as Hx.
  rewrite seqZ_nil, app_nil_r, Z.add_0_r in Hx by lia. specialize (Hx Hp ltac:(lia) ltac:(lia)).
  eapply wp_call; [exact Hx| |done]. clear Hx.
  intros g [[run steps'] rest] (Hs & Hrun & Hst' & Hp' & Hle'). pose proof (sm_vol _ _ Hs) as Hv.
  assert (Hr : ∀ j, 0 <= j < run → in_range (vol f) (c0 + j)).
  { intros j Hj. apply path_in_range in Hp'. rewrite Forall_forall in Hp'. apply Hp', elem_of_app. right.
    apply elem_of_seqZ. lia. }
  pose proof (first_sector_bounds _ _ Hl (Hr 0 ltac:(lia))) as Hlo.
  pose proof (first_sector_bounds _ _ Hl (Hr (run - 1) ltac:(lia))) as Hhi. rewrite Z.add_0_r in Hlo.
  assert (Hbytes : sector_run g (first_sector (vol f) c0) (run * sectors_per_cluster (vol f)) = chain_bytes f (seqZ c0 run)).
  { rewrite <-Hv, <-chain_bytes_run by (apply Hs || lia). by apply same_chain_bytes. }
  eapply wp_call; [apply (read_sectors_spec g); [apply Hs| | |]| |].
  { destruct Hl. lia. }
  { destruct Hl. nia. }
  { rewrite Hv. unfold first_sector in *. destruct Hl. nia. }
  2: { intros h e [Hs' He]. split; [by eapply same_trans|]. by left. }
  intros h b [Hs' ->]. rewrite Hbytes. pose proof (same_trans _ _ _ Hs Hs') as Hsh.
  rewrite <-(chain_bytes_app f), <-(same_chain_bytes f h) by done. pose proof (sm_vol _ _ Hsh) as Hvh.
  eapply wp_mono; [apply (IH h (done ++ seqZ c0 run) rest); [apply Hsh| | | |]| |].
  - rewrite Hvh. eapply path_ext; [|done]. intros. by apply same_table.
  - rewrite length_app, length_seqZ. lia.
  - rewrite Hvh. lia.
  - rewrite Hvh. lia.
  - rewrite Hvh. intros k r [Hsk (cs & rest' & Hpp & -> & Hend)]. split; [by eapply same_trans|]. exists cs, rest'.
    split_and!; [|by apply same_chain_bytes|done]. eapply path_ext; [|done]. intros. symmetry. by apply same_table.
  - intros k e [Hsk He]. split; [by eapply same_trans|]. destruct He as [|He]; [by left|]. right.
    intros cs Hcs. apply (He cs). rewrite Hvh. eapply chain_is_ext; [|done]. intros. by apply same_table.
Qed.

(** [read_chain] gives what the chain's clusters hold, one after the other, up to the limit. *)
Lemma read_chain_spec f first limit : coherent f → (∀ l, limit = Some l → 0 <= l) →
  wp (read_chain first limit) f
    (λ f' r, same f f' ∧ (∀ cs, limit ≠ Some 0 → chain_is (vol f) (table f) (Some first) cs →
       r = match limit with Some l => take (Z.to_nat l) (chain_bytes f cs) | None => chain_bytes f cs end) ∧
       (limit = None → ∃ cs, chain_is (vol f) (table f) (Some first) cs))
    (λ f' e, same f f' ∧ (chain_error f (Some first) e ∨ ∃ l, e = Truncated ∧ limit = Some l ∧
       ∀ cs, chain_is (vol f) (table f) (Some first) cs → Z.of_nat (length (chain_bytes f cs)) < l)).
Proof.
  intros Hc Hlim. unfold read_chain. case_bool_decide as H0'.
  { wp_pure. subst limit. split_and!; [by apply same_refl|done|done]. }
  wp_pure.
  pose proof (sd_laid _ (co_sound f Hc)) as Hl.
  eapply wp_call; [apply (read_runs_spec _ f (Some first) []); [done|done|done| |]| |].
  { cbn. destruct Hl. destruct (fat_type (vol f)); lia. }
  { cbn. lia. }
  2: { intros g e [Hs He]. auto. }
  intros g r [Hs (cs & rest & Hp & -> & Hend)].
  assert (Hwhole : ∀ ds, chain_is (vol f) (table f) (Some first) ds →
    ∃ tail, ds = cs ++ tail ∧ (rest = None → tail = [])).
  { intros ds Hd. destruct (path_chain _ _ _ _ _ _ Hp Hd) as (tail & -> & Ht). exists tail. split; [done|].
    intros ->. destruct tail; [done|]. by destruct Ht. }
  destruct limit as [l|]; [|wp_pure].
  - destruct (Z.ltb_spec (Z.of_nat (length (chain_bytes f cs))) l); wp_pure; (split; [done|]).
    + right. exists l. split_and!; [done|done|]. intros ds Hd. destruct (Hwhole ds Hd) as (tail & -> & Ht).
      destruct Hend as [Hr|Hr]; [rewrite Ht by done; by rewrite app_nil_r|]. apply Z.leb_le in Hr. lia.
    + split; [|done]. intros ds _ Hd. destruct (Hwhole ds Hd) as (tail & -> & Ht). rewrite chain_bytes_app.
      rewrite take_app_le; [done|]. lia.
  - destruct Hend as [->|Hr]; [|done]. split_and!; [done| |intros _; exists cs; by apply path_end].
    intros ds _ Hd. destruct (Hwhole ds Hd) as (tail & -> & Ht).
    rewrite Ht by done. by rewrite app_nil_r.
Qed.

(** ** Writing *)

Lemma chunks_fuel_spec n k fuel l : (0 < n)%nat → length l = (k * n)%nat → (k ≤ fuel)%nat →
  chunks_fuel fuel n l = (λ i, take n (drop (i * n) l)) <$> seq 0 k.
Proof.
  intros Hn. revert fuel l. induction k as [|k IH]; intros fuel l Hl Hf.
  - destruct fuel as [|fuel]; cbn [chunks_fuel]; [done|]. rewrite (proj2 (Nat.ltb_lt _ _)) by lia. done.
  - destruct fuel as [|fuel]; [lia|]. cbn [chunks_fuel]. rewrite (proj2 (Nat.ltb_ge _ _)) by lia.
    rewrite IH by (rewrite ?length_drop; lia). cbn [seq fmap list_fmap]. rewrite Nat.mul_0_l, drop_0. f_equal.
    rewrite <-(fmap_S_seq 0 k), <-list_fmap_compose. apply list_fmap_ext. intros _ i _. cbn. by rewrite drop_drop.
Qed.

Lemma chunks_spec n k l : (0 < n)%nat → length l = (k * n)%nat →
  chunks n l = (λ i, take n (drop (i * n) l)) <$> seq 0 k.
Proof. intros Hn Hl. unfold chunks. apply chunks_fuel_spec; [done|done|]. nia. Qed.

Lemma chunks_fuel_concat n k fuel l : (0 < n)%nat → length l = (k * n)%nat → (k ≤ fuel)%nat →
  concat (chunks_fuel fuel n l) = l.
Proof.
  intros Hn. revert fuel l. induction k as [|k IH]; intros fuel l Hl Hf.
  - destruct l; [|done]. destruct fuel; cbn [chunks_fuel]; [done|]. by rewrite (proj2 (Nat.ltb_lt _ _)) by (cbn; lia).
  - destruct fuel as [|fuel]; [lia|]. cbn [chunks_fuel]. rewrite (proj2 (Nat.ltb_ge _ _)) by lia. cbn [concat].
    rewrite IH by (rewrite ?length_drop; lia). apply take_drop.
Qed.

Lemma chunks_concat n k l : (0 < n)%nat → length l = (k * n)%nat → concat (chunks n l) = l.
Proof. intros Hn Hl. eapply chunks_fuel_concat; [done|done|]. nia. Qed.

Lemma chunks_blocks k l : length l = (k * 512)%nat → is_bytes l →
  length (chunks 512 l) = k ∧ Forall is_block (chunks 512 l).
Proof.
  intros Hl Hb. rewrite (chunks_spec 512 k) by (done || lia). rewrite length_fmap, length_seq. split; [done|].
  apply Forall_fmap, Forall_forall. intros i Hi%elem_of_seq. split; [|auto with bytes].
  rewrite length_take, length_drop. nia.
Qed.

Lemma overlay_sector f s bs s' :
  overlay (start (vol f) + s) bs (contents (device f)) (start (vol f) + s') = overlay s bs (sector f) s'.
Proof.
  unfold overlay, sector.
  replace (start (vol f) + s <=? start (vol f) + s') with (s <=? s')
    by (destruct (Z.leb_spec s s'), (Z.leb_spec (start (vol f) + s) (start (vol f) + s')); lia).
  replace (start (vol f) + s' <? start (vol f) + s + Z.of_nat (length bs)) with (s' <? s + Z.of_nat (length bs))
    by (destruct (Z.ltb_spec s' (s + Z.of_nat (length bs))),
          (Z.ltb_spec (start (vol f) + s') (start (vol f) + s + Z.of_nat (length bs))); lia).
  by replace (start (vol f) + s' - (start (vol f) + s)) with (s' - s) by lia.
Qed.

Lemma write_sectors_wp f s bs (Q : Fat D → unit → Prop) R :
  sound (vol f) → 0 <= s → bs ≠ [] →
  s + Z.of_nat (length bs) <= data_start (vol f) + cluster_count (vol f) * sectors_per_cluster (vol f) →
  Forall is_block bs →
  (∀ d, (∀ s', sector (with_device d f) s' = overlay s bs (sector f) s') → Q (with_device d f) tt) →
  (∀ d e n, (∀ s', sector (with_device d f) s' = overlay s (take n bs) (sector f) s') → R (with_device d f) (Device e)) →
  wp (dev (write_blocks (lba (vol f) s) bs) : M unit) f Q R.
Proof.
  intros Hv Hs Hne Hend Hb HQ HR. assert (0 < length bs)%nat by (destruct bs; cbn; [done|lia]).
  rewrite lba_eq by (done || lia). unfold wp, dev.
  destruct (write_blocks _ _ _) as [d r] eqn:Ew. apply write_blocks_spec in Ew as (n & Hn & Hok & Hk); [|done|].
  2: { destruct Hv as [[] ? _ _]. unfold in_reach. lia. }
  assert (Hsec : ∀ s', sector (with_device d f) s' = overlay s (take n bs) (sector f) s').
  { intros s'. rewrite <-overlay_sector, <-Hk. done. }
  destruct r as [[]|e]; [|by eapply HR]. apply HQ. intros s'. rewrite Hsec, (Hok eq_refl). by rewrite take_ge.
Qed.

(** The sectors of cluster [c]. *)
Definition in_cluster (v : Volume) c s : Prop := first_sector v c <= s < first_sector v c + sectors_per_cluster v.

(** Clusters [cs] from the [i]th on hold the blocks [bs], and other sectors are as in [f]. *)
Definition stored f f' cs (bs : list Block) (i : nat) : Prop :=
  (∃ d, f' = with_device d f) ∧
  (∀ j c k, (i ≤ j)%nat → cs !! j = Some c → (k < Z.to_nat (sectors_per_cluster (vol f)))%nat →
     bs !! (j * Z.to_nat (sectors_per_cluster (vol f)) + k)%nat = Some (sector f' (first_sector (vol f) c + Z.of_nat k))) ∧
  (∀ s, (∀ c, c ∈ drop i cs → ¬ in_cluster (vol f) c s) → sector f' s = sector f s).

(** Nothing but the clusters [cs] has changed on the disk. *)
Definition spilled f f' cs : Prop :=
  (∃ d, f' = with_device d f) ∧ ∀ s, (∀ c, c ∈ cs → ¬ in_cluster (vol f) c s) → sector f' s = sector f s.

Lemma run_length_spec fuel cs i run max_run c : cs !! i = Some c → (1 ≤ run)%nat → (i + run ≤ length cs)%nat →
  (∀ j, (j < run)%nat → cs !! (i + j)%nat = Some (c + Z.of_nat j)) →
  let r := run_length fuel cs i run max_run in
  (run ≤ r)%nat ∧ (i + r ≤ length cs)%nat ∧ ∀ j, (j < r)%nat → cs !! (i + j)%nat = Some (c + Z.of_nat j).
Proof.
  intros Hi. revert run. induction fuel as [|fuel IH]; intros run H1 Hlen Hj; cbn [run_length]; [done|].
  destruct (Nat.ltb_spec (i + run) (length cs)); cbn [andb]; [|done].
  case_bool_decide as Hb; cbn [andb]; [|done]. destruct (run <? max_run)%nat; [|done].
  rewrite Hi in Hb. cbn in Hb. destruct (IH (S run)) as (? & ? & ?); [lia|lia| |].
  - intros j Hlt. destruct (decide (j = run)) as [->|]; [done|]. apply Hj. lia.
  - split_and!; [lia|done|done].
Qed.

Lemma in_cluster_unique v c c' s : laid_out v → in_cluster v c s → in_cluster v c' s → c = c'.
Proof.
  intros Hl H1 H2. destruct (decide (c = c')) as [|Hne]; [done|]. unfold in_cluster in *.
  destruct (first_sector_disjoint v c c' Hl Hne); lia.
Qed.

(** Sector [m] of a run that starts at cluster [c] is in the cluster [m / spc] further on. *)
Lemma run_sector v c m : laid_out v → 0 <= m →
  in_cluster v (c + m / sectors_per_cluster v) (first_sector v c + m).
Proof.
  intros [] Hm. unfold in_cluster, first_sector.
  pose proof (Z.mod_pos_bound m (sectors_per_cluster v) ltac:(lia)).
  pose proof (Z_div_mod_eq_full m (sectors_per_cluster v)). lia.
Qed.

Lemma run_outside v cs i run c s : laid_out v →
  (∀ j, (j < run)%nat → cs !! (i + j)%nat = Some (c + Z.of_nat j)) →
  (∀ c', c' ∈ drop i cs → ¬ in_cluster v c' s) →
  ¬ (first_sector v c <= s < first_sector v c + Z.of_nat (run * Z.to_nat (sectors_per_cluster v))).
Proof.
  intros Hl Hj Hs Hr. set (m := s - first_sector v c). set (n := sectors_per_cluster v) in *.
  assert (Hn : 0 < n) by (destruct Hl; lia). assert (Hm : 0 <= m < Z.of_nat run * n) by (unfold m; nia).
  apply (Hs (c + m / n)).
  - pose proof (Z.div_pos m n ltac:(lia) ltac:(lia)) as Hq.
    pose proof (Z.div_lt_upper_bound m n (Z.of_nat run) ltac:(lia) ltac:(nia)).
    apply list_elem_of_lookup. exists (Z.to_nat (m / n)). rewrite lookup_drop, Hj by lia.
    by rewrite Z2Nat.id.
  - replace s with (first_sector v c + m) by (unfold m; lia). apply run_sector; [done|lia].
Qed.

Lemma overlay_spilled f d cs i run c m piece : sound (vol f) →
  (∀ s, sector (with_device d f) s = overlay (first_sector (vol f) c) (take m piece) (sector f) s) →
  length piece = (run * Z.to_nat (sectors_per_cluster (vol f)))%nat →
  (∀ j, (j < run)%nat → cs !! (i + j)%nat = Some (c + Z.of_nat j)) → spilled f (with_device d f) cs.
Proof.
  intros Hv Hd Hlen Hj. split; [by exists d|]. intros s Hs. rewrite Hd. apply overlay_outside.
  rewrite length_take. intros Hr. eapply (run_outside (vol f) cs i run c s); [apply Hv|done| |lia].
  intros c' Hc'. apply Hs. rewrite <-(take_drop i cs). apply elem_of_app. by right.
Qed.

(** A run written at once stores its clusters, and only those. *)
Lemma overlay_run f g d cs bs i run c : sound (vol f) →
  (∀ s, sector (with_device d f) s =
     overlay (first_sector (vol f) c) (take (run * Z.to_nat (sectors_per_cluster (vol f)))
       (drop (i * Z.to_nat (sectors_per_cluster (vol f))) bs)) (sector f) s) →
  length bs = (length cs * Z.to_nat (sectors_per_cluster (vol f)))%nat → (i + run ≤ length cs)%nat →
  (∀ j, (j < run)%nat → cs !! (i + j)%nat = Some (c + Z.of_nat j)) → NoDup cs →
  stored (with_device d f) g cs bs (i + run) → stored f g cs bs i.
Proof.
  intros Hv Hd Hlen Hrun Hj Hn ([d' ->] & Hin & Hout). cbn [vol with_device] in *.
  pose proof (sd_laid _ Hv) as Hl. set (n := Z.to_nat (sectors_per_cluster (vol f))) in *.
  assert (Hspc : sectors_per_cluster (vol f) = Z.of_nat n ∧ (0 < n)%nat) by (destruct Hl; lia).
  destruct Hspc as [Hspc Hpos]. set (piece := take (run * n) (drop (i * n) bs)) in *.
  assert (Hpl : length piece = (run * n)%nat) by (unfold piece; rewrite length_take, length_drop; nia).
  split_and!; [by exists d'| |].
  - intros j c' k Hlo Hc Hk. destruct (decide (i + run ≤ j)%nat); [by apply Hin|].
    assert (∃ o, j = (i + o)%nat ∧ (o < run)%nat) as (o & -> & Ho) by (exists (j - i)%nat; lia).
    rewrite (Hj o Ho) in Hc. injection Hc as <-.
    assert (Hs : first_sector (vol f) (c + Z.of_nat o) + Z.of_nat k = first_sector (vol f) c + Z.of_nat (o * n + k))
      by (unfold first_sector; rewrite Hspc; nia).
    rewrite Hout.
    + rewrite Hd, Hs, overlay_inside by (rewrite Hpl; nia). unfold piece.
      rewrite list_lookup_total_alt, lookup_take_lt, lookup_drop by nia.
      replace (i * n + (o * n + k))%nat with ((i + o) * n + k)%nat by lia.
      destruct (bs !! ((i + o) * n + k)%nat) eqn:Eb; [done|]. apply lookup_ge_None in Eb. nia.
    + intros c'' Hc'' Hcl. apply list_elem_of_lookup in Hc'' as (m & Hm). rewrite lookup_drop in Hm.
      assert (He : c + Z.of_nat o = c'').
      { eapply in_cluster_unique; [exact Hl| |exact Hcl]. unfold in_cluster. lia. }
      pose proof (NoDup_lookup cs (i + o) (i + run + m) c'' Hn) as Hinj. rewrite (Hj o Ho), He in Hinj.
      specialize (Hinj eq_refl Hm). lia.
  - intros s Hs. rewrite Hout.
    + rewrite Hd. apply overlay_outside. rewrite Hpl. by eapply run_outside.
    + intros c' Hc'. apply Hs. rewrite <-drop_drop in Hc'. rewrite <-(take_drop run (drop i cs)).
      apply elem_of_app. by right.
Qed.

Lemma spilled_trans f g h cs : spilled f g cs → spilled g h cs → spilled f h cs.
Proof.
  intros [[d ->] Hs] [[d' ->] Hs']. split; [by exists d'|]. intros s Hc. rewrite Hs' by done. by apply Hs.
Qed.

Lemma stored_spilled f g cs bs : stored f g cs bs 0 → spilled f g cs.
Proof. intros (Hd & _ & Hs). split; [done|]. intros s Hc. by apply Hs. Qed.

Lemma write_runs_spec fuel f cs bs i : sound (vol f) → Forall (in_range (vol f)) cs → NoDup cs →
  length bs = (length cs * Z.to_nat (sectors_per_cluster (vol f)))%nat → Forall is_block bs →
  (i ≤ length cs)%nat → (length cs < fuel + i)%nat →
  wp (write_runs fuel cs bs i : M unit) f (λ f' _, stored f f' cs bs i) (λ f' e, spilled f f' cs ∧ is_device e).
Proof.
  intros Hv Hr Hn Hlen Hb. revert f Hv Hr Hlen i. induction fuel as [|fuel IH]; intros f Hv Hr Hlen i Hi Hf;
    cbn [write_runs]; [lia|].
  destruct (Nat.ltb_spec i (length cs)) as [Hlt|Hge]; cbn [negb]; wp_pure.
  2: { split_and!; [by exists (device f); destruct f| |done].
       intros j c k Hj Hc. apply lookup_lt_Some in Hc. lia. }
  destruct (lookup_lt_is_Some_2 cs i Hlt) as [c Hc].
  set (n := Z.to_nat (sectors_per_cluster (vol f))) in *. pose proof (sd_laid _ Hv) as Hl.
  assert (Hspc : sectors_per_cluster (vol f) = Z.of_nat n ∧ (0 < n)%nat) by (destruct Hl; lia).
  destruct Hspc as [Hspc Hpos]. set (mx := Nat.max _ _). set (run := run_length _ _ _ _ _).
  destruct (run_length_spec (length cs) cs i 1 mx c Hc ltac:(lia) ltac:(lia)) as (H1 & Hrun & Hj).
  { intros j Hj. replace j with 0%nat by lia. by rewrite Nat.add_0_r, Z.add_0_r. }
  change (run_length _ _ _ _ _) with run in H1, Hrun, Hj.
  apply wp_bind. eapply wp_unwrap; [exact Hc|]. apply wp_bind.
  eapply wp_unwrap; [apply slice_Some; split; [nia|reflexivity]|].
  replace ((i + run) * n - i * n)%nat with (run * n)%nat by nia.
  assert (Hpl : length (take (run * n) (drop (i * n) bs)) = (run * n)%nat) by (rewrite length_take, length_drop; nia).
  rewrite Forall_forall in Hr.
  assert (Hlo : in_range (vol f) c) by (apply Hr; by eapply list_elem_of_lookup_2).
  assert (Hhi : in_range (vol f) (c + Z.of_nat (run - 1))).
  { apply Hr. eapply list_elem_of_lookup_2. apply (Hj (run - 1)%nat). lia. }
  rewrite <-Forall_forall in Hr.
  pose proof (first_sector_bounds _ _ Hl Hlo) as Bl. pose proof (first_sector_bounds _ _ Hl Hhi) as Bh.
  apply wp_bind, write_sectors_wp; [done| | | |by apply Forall_take, Forall_drop| |].
  - destruct Hl. lia.
  - intros He. rewrite He in Hpl. cbn in Hpl. nia.
  - rewrite Hpl. unfold first_sector in *. rewrite Hspc in *. nia.
  - intros d Hd. eapply wp_mono; [apply (IH (with_device d f)); [done|done|done|lia|lia]| |].
    + intros g ? Hg. by eapply overlay_run.
    + intros g e [Hg He]. split; [|done]. eapply spilled_trans; [|exact Hg].
      rewrite <-(firstn_all (take _ _)) in Hd. by eapply overlay_spilled.
  - intros d e m Hd. split; [|by eexists]. by eapply overlay_spilled.
Qed.

Lemma stored_cluster f g cs bs i c : sound (vol f) → stored f g cs bs 0 →
  length bs = (length cs * Z.to_nat (sectors_per_cluster (vol f)))%nat → cs !! i = Some c →
  cluster_bytes g c = concat (take (Z.to_nat (sectors_per_cluster (vol f)))
                                (drop (i * Z.to_nat (sectors_per_cluster (vol f))) bs)).
Proof.
  intros Hv ([d ->] & Hin & _) Hlen Hc. unfold cluster_bytes, sector_run. cbn [vol with_device]. f_equal.
  set (n := Z.to_nat (sectors_per_cluster (vol f))) in *. pose proof (lookup_lt_Some _ _ _ Hc) as Hi.
  assert (Hspc : sectors_per_cluster (vol f) = Z.of_nat n) by (destruct (sd_laid _ Hv); lia).
  apply list_eq. intros k. destruct (decide (k < n)%nat) as [Hk|Hk].
  - rewrite lookup_take_lt, lookup_drop by done. etransitivity; [|symmetry; apply (Hin i c k); done || lia].
    rewrite list_lookup_fmap, lookup_seqZ_lt by lia. done.
  - rewrite lookup_take_ge by lia. apply lookup_ge_None. rewrite length_fmap, length_seqZ. lia.
Qed.

Lemma stored_bytes f g cs bs : sound (vol f) → stored f g cs bs 0 →
  length bs = (length cs * Z.to_nat (sectors_per_cluster (vol f)))%nat → chain_bytes g cs = concat bs.
Proof.
  intros Hv Hs Hlen. set (n := Z.to_nat (sectors_per_cluster (vol f))) in *.
  assert (Hall : ∀ k i, (i + k = length cs)%nat → chain_bytes g (drop i cs) = concat (drop (i * n) bs)).
  { induction k as [|k IH]; intros i Hi.
    - rewrite !drop_ge by (rewrite ?Hlen; lia). done.
    - destruct (lookup_lt_is_Some_2 cs i ltac:(lia)) as [c Hc]. rewrite (drop_S _ _ _ Hc).
      unfold chain_bytes. cbn [fmap list_fmap concat]. fold (chain_bytes g (drop (S i) cs)).
      rewrite (stored_cluster f g cs bs i c) by done. fold n. rewrite IH by lia.
      rewrite <-concat_app. f_equal. replace (S i * n)%nat with (i * n + n)%nat by lia.
      by rewrite <-drop_drop, take_drop. }
  specialize (Hall (length cs) 0%nat ltac:(lia)). by rewrite Nat.mul_0_l, !drop_0 in Hall.
Qed.

Lemma length_resize n x l : length (resize n x l) = n.
Proof. unfold resize. rewrite length_app, length_take, length_replicate. lia. Qed.

Lemma resize_grow n x l : (length l ≤ n)%nat → resize n x l = l ++ replicate (n - length l) x.
Proof. intros. unfold resize. by rewrite take_ge. Qed.

Lemma is_bytes_resize n x l : uint 8 x → is_bytes l → is_bytes (resize n x l).
Proof. intros. unfold resize. auto with bytes. Qed.

Lemma write_clusters_spec f cs data : sound (vol f) → Forall (in_range (vol f)) cs → NoDup cs → is_bytes data →
  wp (write_clusters cs data : M unit) f
    (λ f' _, spilled f f' cs ∧ chain_bytes f' cs = resize (length cs * Z.to_nat (cluster_size (vol f))) 0 data)
    (λ f' e, spilled f f' cs ∧ is_device e).
Proof.
  intros Hv Hr Hn Hb. unfold write_clusters. wp_pure. set (padded := resize _ _ _).
  assert (Hlen : length padded = (length cs * Z.to_nat (sectors_per_cluster (vol f)) * 512)%nat).
  { unfold padded. rewrite length_resize. destruct (sd_laid _ Hv). unfold cluster_size, BLOCK_SIZE. lia. }
  assert (Hpb : is_bytes padded) by (apply is_bytes_resize; done).
  destruct (chunks_blocks _ _ Hlen Hpb) as [Hcl Hcb].
  eapply wp_mono; [apply write_runs_spec; [done|done|done|done|done|lia|lia]| |done].
  intros g ? Hg. cbn beta in Hg. change (Z.to_nat BLOCK_SIZE) with 512%nat in Hg.
  split; [by eapply stored_spilled|]. rewrite (stored_bytes f g cs _ Hv Hg Hcl).
  eapply chunks_concat; [|done]. cbn. lia.
Qed.

(** ** What an operation may touch *)

(** Only the FAT entries and the data of clusters [cs] may have changed. *)
Record touched f f' cs : Prop := {
  to_vol : vol f' = vol f;
  to_stamp : stamp f' = stamp f;
  to_coherent : coherent f';
  to_kept c : in_table (vol f) c → c ∉ cs → entry_kept f f' c;
  to_sector s : ¬ (fat_start (vol f) <= s < fat_start (vol f) + fat_count (vol f) * fat_size (vol f)) →
    (∀ c, c ∈ cs → ¬ in_cluster (vol f) c s) → sector f' s = sector f s }.

Lemma touched_refl f cs : coherent f → touched f f cs.
Proof. by constructor. Qed.

Lemma touched_trans f g h cs : touched f g cs → touched g h cs → touched f h cs.
Proof.
  intros [Hv Hs Hc Hk Hsec] [Hv' Hs' Hc' Hk' Hsec']. rewrite Hv in *. constructor; [congruence|congruence|done| |].
  - intros c Hr Hn. eapply entry_kept_trans; auto.
  - intros s Hf Hn. rewrite Hsec' by done. by apply Hsec.
Qed.

Lemma touched_mono f g cs ds : (∀ c, c ∈ cs → c ∈ ds) → touched f g cs → touched f g ds.
Proof. intros Hi [Hv Hs Hc Hk Hsec]. constructor; auto. Qed.

Lemma same_touched f g cs : same f g → touched f g cs.
Proof.
  intros Hs. pose proof Hs as []. constructor; try done.
  - intros. by apply same_kept.
  - intros. by apply same_sector.
Qed.

Lemma left_but_touched f g cs : left_but f g cs → touched f g cs.
Proof. intros [[] Hk]. constructor; auto. Qed.

(** Cluster data is never in a FAT. *)
Lemma fat_not_cluster v c s : sound v → in_range v c →
  fat_start v <= s < fat_start v + fat_count v * fat_size v → ¬ in_cluster v c s.
Proof. intros [Hl _ _ _] Hc Hs Hin. pose proof (first_sector_bounds _ _ Hl Hc). unfold in_cluster in Hin. destruct Hl. lia. Qed.

Lemma fat_sector_in_fats v s : sound v → fat_sector v s → fat_start v <= s < fat_start v + fat_count v * fat_size v.
Proof. intros [[] _ _ _] Hs. unfold fat_sector in Hs. nia. Qed.

Lemma spilled_same_fat f g cs s : sound (vol f) → Forall (in_range (vol f)) cs → spilled f g cs →
  fat_start (vol f) <= s < fat_start (vol f) + fat_count (vol f) * fat_size (vol f) → sector g s = sector f s.
Proof.
  intros Hv Hr [_ Hs] Hf. apply Hs. intros c Hc. apply fat_not_cluster; [done| |done].
  rewrite Forall_forall in Hr. by apply Hr.
Qed.

Lemma spilled_table f g cs c : coherent f → Forall (in_range (vol f)) cs → spilled f g cs → in_table (vol f) c →
  table g c = table f c ∧ disk g c = disk f c.
Proof.
  intros Hc Hr Hsp Ht. pose proof (co_sound f Hc) as Hv. pose proof (spilled_same_fat f g cs) as Hf.
  pose proof Hsp as [[d ->] _]. unfold table, disk. cbn [vol with_device].
  destruct (fat_position (vol f) c) as [s i] eqn:Ep. destruct (fat_position_bounds _ _ _ _ Hv Ht Ep) as [Hs _].
  apply fat_sector_in_fats in Hs; [|done]. unfold fat_block. cbn [fat_dirty with_device].
  rewrite Hf by done. done.
Qed.

Lemma spilled_coherent f g cs : coherent f → Forall (in_range (vol f)) cs → spilled f g cs → coherent g.
Proof.
  intros Hc Hr Hsp. pose proof Hc as [Hv Hcache Hdirty]. pose proof (spilled_same_fat f g cs) as Hf.
  pose proof Hsp as [[d ->] _]. constructor; cbn [vol with_device fat_cache fat_dirty]; [done| |done].
  intros s b Hs. destruct (Hcache s b Hs) as [Hfs ->]. split; [done|]. symmetry.
  by apply Hf, fat_sector_in_fats.
Qed.

Lemma spilled_touched f g cs : coherent f → Forall (in_range (vol f)) cs → spilled f g cs → touched f g cs.
Proof.
  intros Hc Hr Hsp. pose proof Hsp as [[d ->] Hs]. constructor; [done|done|by eapply spilled_coherent| |auto].
  intros c Ht Hn. unfold entry_kept, settled. destruct (spilled_table _ _ _ c Hc Hr Hsp Ht) as [-> ->]. done.
Qed.

Lemma recount_touched n h cs : coherent h → touched h (recount n h) cs.
Proof. intros [Hv Hc Hd]. unfold recount. destruct (free_count h); by constructor. Qed.

Lemma next_free_touched n h cs : coherent h → touched h (with_next_free n h) cs.
Proof. intros [Hv Hc Hd]. by constructor. Qed.

(** ** A file's data, written and read back *)
Definition clusters_for (v : Volume) (data : list Z) : nat :=
  Z.to_nat (div_ceil (Z.of_nat (length data)) (cluster_size v)).

Lemma clusters_for_enough v data : laid_out v → data ≠ [] →
  (0 < clusters_for v data)%nat ∧ (length data ≤ clusters_for v data * Z.to_nat (cluster_size v))%nat.
Proof.
  intros [] Hd. unfold clusters_for, div_ceil, cluster_size, BLOCK_SIZE.
  set (n := sectors_per_cluster v * 512). assert (Hn : 0 < n) by lia.
  assert (Hl : 0 < Z.of_nat (length data)) by (destruct data; cbn; [done|lia]). set (l := Z.of_nat (length data)) in *.
  pose proof (Z_div_mod_eq_full (l + n - 1) n). pose proof (Z.mod_pos_bound (l + n - 1) n Hn).
  assert (0 < (l + n - 1) / n) by nia. split; [lia|]. apply Nat2Z.inj_le. rewrite Nat2Z.inj_mul, !Z2Nat.id by lia.
  fold l. nia.
Qed.

(** [cs] is a chain in [f'] of clusters that were free in [f]. *)
Definition fresh_chain f f' first cs : Prop :=
  NoDup cs ∧ Forall (λ c, in_range (vol f) c ∧ table f c = 0) cs ∧
  chain_is (vol f) (table f') (Some first) cs.

Lemma fresh_in_range f cs : Forall (λ c, in_range (vol f) c ∧ table f c = 0) cs → Forall (in_range (vol f)) cs.
Proof. intros Hf. eapply Forall_impl; [exact Hf|]. by intros c [? _]. Qed.

Lemma chain_bytes_outside_fats f g cs : sound (vol f) → vol g = vol f → Forall (in_range (vol f)) cs →
  (∀ s, ¬ (fat_start (vol f) <= s < fat_start (vol f) + fat_count (vol f) * fat_size (vol f)) →
     sector g s = sector f s) → chain_bytes g cs = chain_bytes f cs.
Proof.
  intros Hv Hvg Hr Hs. unfold chain_bytes, cluster_bytes, sector_run. rewrite Hvg. f_equal.
  apply list_fmap_ext. intros i c Hc. f_equal. apply list_fmap_ext. intros j s Hj.
  apply Hs. intros Hf. rewrite Forall_lookup in Hr.
  apply (fat_not_cluster (vol f) c s Hv (Hr _ _ Hc) Hf). apply list_elem_of_lookup_2, elem_of_seqZ in Hj. exact Hj.
Qed.

Lemma write_chain_spec f data : coherent f → is_bytes data → data ≠ [] →
  wp (write_chain data) f
    (λ f' first, ∃ cs, fresh_chain f f' first cs ∧ length cs = clusters_for (vol f) data ∧ touched f f' cs ∧
       fat_dirty f' = None ∧ (∀ c, in_table (vol f) c → c ∉ cs → table f' c = table f c) ∧
       chain_bytes f' cs = resize (length cs * Z.to_nat (cluster_size (vol f))) 0 data ∧
       free_count f' = (λ n, wrap 32 (n - Z.of_nat (length cs))) <$> free_count f)
    (λ f' e, (∃ cs, Forall (λ c, in_range (vol f) c ∧ table f c = 0) cs ∧ touched f f' cs) ∧
       (is_device e ∨ e = NoSpace ∧ (length (free_list f) < clusters_for (vol f) data)%nat)).
Proof.
  intros Hc Hb Hne. unfold write_chain. destruct data as [|x data']; [done|]. set (data := x :: data') in *. wp_pure.
  pose proof (co_sound f Hc) as Hv. fold (clusters_for (vol f) data).
  eapply wp_call; [by apply allocate_spec| |].
  2: { intros g e [Hs He]. split; [|done]. exists []. split; [constructor|by apply same_touched]. }
  intros g0 cs (g & n & Hs & -> & Hlen & Hn & Hfree). pose proof (sm_vol _ _ Hs) as Hvg.
  set (g1 := with_next_free n g). assert (Hg1 : touched f g1 cs).
  { eapply touched_trans; [by apply same_touched|]. apply next_free_touched, Hs. }
  assert (Ht1 : ∀ c, table g1 c = table f c) by (intros c; exact (same_table f g c Hs)).
  pose proof (fresh_in_range _ _ Hfree) as Hr.
  eapply wp_call; [apply (write_clusters_spec g1 cs data); [apply Hg1|by rewrite (to_vol _ _ _ Hg1)|done|done]| |].
  2: { intros h e [Hh He]. split; [|by left]. exists cs. split; [done|].
       eapply touched_trans; [exact Hg1|]. apply spilled_touched; [apply Hg1|by rewrite (to_vol _ _ _ Hg1)|done]. }
  intros h ? [Hh Hbytes]. rewrite (to_vol _ _ _ Hg1) in Hbytes.
  assert (Hh' : touched g1 h cs) by (apply spilled_touched; [apply Hg1|by rewrite (to_vol _ _ _ Hg1)|done]).
  pose proof (touched_trans _ _ _ _ Hg1 Hh') as Hfh. pose proof (to_vol _ _ _ Hfh) as Hvh.
  assert (Hth : ∀ c, in_table (vol f) c → table h c = table f c).
  { intros c Hct. rewrite <-Ht1. apply (spilled_table g1 h cs); [apply Hg1| |done|]; by rewrite (to_vol _ _ _ Hg1). }
  eapply wp_call; [apply (link_spec cs h); [apply Hfh|by rewrite Hvh|done]| |].
  2: { intros k e [Hk He]. split; [|by left]. exists cs. split; [done|].
       eapply touched_trans; [exact Hfh|by apply left_but_touched]. }
  intros k0 ? (k & Hk & Hchain & Hd & ->). rewrite Hvh in Hchain.
  pose proof (clusters_for_enough (vol f) data (sd_laid _ Hv) Hne) as [Hpos Hfit].
  destruct cs as [|first cs']; [cbn in Hlen; lia|]. set (cs := first :: cs') in *.
  eapply wp_unwrap; [done|]. exists cs. cbn [head cs] in Hchain.
  assert (Hkv : vol k = vol f) by (by rewrite (edited_vol _ _ _ Hk)).
  split_and!; [|done| | | | |].
  - split_and!; [done|done|]. eapply chain_is_ext; [|done]. intros. apply recount_table.
  - eapply touched_trans; [exact Hfh|]. eapply touched_trans; [apply left_but_touched, edited_left_but, Hk|].
    apply recount_touched. by eapply edited_coherent.
  - by rewrite recount_dirty.
  - intros c Hct Hnc. rewrite recount_table. rewrite (ed_table _ _ _ Hk) by (done || by rewrite Hvh). by apply Hth.
  - rewrite <-Hbytes. apply (chain_bytes_outside_fats h); [by rewrite Hvh|rewrite recount_vol; congruence|by rewrite Hvh|].
    intros s Hsf. rewrite recount_sector. by apply (fo_sector _ _ (ed_only _ _ _ Hk)).
  - pose proof (fo_free _ _ (ed_only _ _ _ Hk)) as Hfk. destruct Hh as [[d ->] _].
    unfold recount. rewrite Hfk. cbn [free_count with_device g1 with_next_free]. rewrite (sm_free _ _ Hs).
    destruct (free_count f) eqn:Ef; [done|]. rewrite Hfk. cbn. by rewrite (sm_free _ _ Hs), Ef.
Qed.
End data.

End FatData.
