(* ===== verification/FatNames.v ===== *)
(** Names in directories: the bytes [add_entry] writes for a name are read back by [parse_located]
    as that name, short aliases are fresh, and parsing any bytes at all never panics. *)
From S2P Require Import Prelude Bytes Text Effect Disk Fat FatTable FatData.
Open Scope Z_scope.

Module FatNames.
Import Effect Text Disk Fat FatTable FatData.

(** * Reading any directory *)

(** There is room for every piece still expected. *)
Definition roomy (n : LongName) : Prop :=
  0 <= expected n < 32 ∧ (Z.to_nat (expected n) * LFN_CHARS ≤ length (units n))%nat.

Lemma roomy_reset n : roomy (reset n).
Proof. split; cbn; lia. Qed.

Lemma add_piece_roomy e n : roomy n → ∃ n', add_piece e n = Some n' ∧ roomy n'.
Proof.
  intros Hn. unfold add_piece. set (seq := Z.land (e !!! 0%nat) 0x1F).
  assert (Hseq : 0 <= seq < 32) by (pose proof (land_ones_bound (e !!! 0%nat) 5 ltac:(lia)) as Hb; unfold seq; change (Z.ones 5) with 31 in Hb; lia).
  set (m := if negb _ then _ else n). assert (Hm : roomy m).
  { unfold m. destruct (negb _); [|done]. split; cbn [expected units]; [done|]. by rewrite length_replicate. }
  clearbody m. clearbody seq. destruct (Z.eqb_spec seq 0) as [|Hnz]; cbn [orb]; [eexists; split; [done|apply roomy_reset]|].
  destruct (Z.eqb_spec seq (expected m)) as [He|]; cbn [negb orb]; [|eexists; split; [done|apply roomy_reset]].
  destruct (negb _); [eexists; split; [done|apply roomy_reset]|]. destruct Hm as [Hr Hl]. rewrite <-He in *. unfold LFN_CHARS in *.
  assert (Hb : (Z.to_nat (seq - 1) * 13 + 13 ≤ length (units m))%nat)
    by (replace (Z.to_nat seq) with (S (Z.to_nat (seq - 1))) in Hl by lia; lia).
  rewrite (proj2 (Nat.ltb_ge _ _)) by done. eexists. split; [done|]. split; cbn [expected units]; unfold LFN_CHARS.
  - rewrite wrap_small by (unfold uint; lia). lia.
  - rewrite wrap_small by (unfold uint; lia). rewrite put_length; [lia|]. rewrite length_fmap. cbn [length LFN_OFFSETS].
    lia.
Qed.

Section names.
Context `{Unicode}.

(** Any bytes parse, and every entry found takes up slots of the directory. *)
Lemma parse_from_total t es index long_start long : roomy long → (long_start ≤ index)%nat →
  ∃ ls, parse_from t index long_start long es = Some ls ∧
    Forall (λ l, ((slots l).1 < (slots l).2 ∧ (slots l).2 ≤ index + length es)%nat) ls.
Proof.
  revert index long_start long. induction es as [|e es IH]; intros index long_start long Hr Hls; cbn [parse_from].
  { exists []. split; [done|constructor]. }
  assert (Hmono : ∀ ls, Forall (λ l, ((slots l).1 < (slots l).2 ∧ (slots l).2 ≤ S index + length es)%nat) ls →
    Forall (λ l, ((slots l).1 < (slots l).2 ∧ (slots l).2 ≤ index + length (e :: es))%nat) ls).
  { intros ls Hf. eapply Forall_impl; [exact Hf|]. cbn [length]. intros l [? ?]. split; [done|lia]. }
  destruct (_ =? ENTRY_END); [exists []; split; [done|constructor]|].
  destruct (_ =? ENTRY_DELETED).
  { destruct (IH (S index) long_start (reset long)) as (ls & -> & Hls'); [apply roomy_reset|lia|]. eauto. }
  destruct (Z.land _ 0x3F =? ATTR_LONG_NAME).
  { destruct (add_piece_roomy e long Hr) as (long' & -> & Hr'). cbn [mbind option_bind].
    destruct (IH (S index) (if negb (Z.land (e !!! 0%nat) LFN_LAST =? 0) then index else long_start) long')
      as (ls & -> & Hls'); [done|destruct (negb _); lia|]. eauto. }
  destruct (negb (Z.land _ ATTR_VOLUME_ID =? 0)).
  { destruct (IH (S index) long_start (reset long)) as (ls & -> & Hls'); [apply roomy_reset|lia|]. eauto. }
  unfold take_name. set (ln := if _ && _ then _ else None).
  destruct (IH (S index) long_start (reset long)) as (ls & Hp & Hls'); [apply roomy_reset|lia|].
  destruct (is_dot _); [eauto|]. rewrite Hp. cbn [mbind option_bind]. eexists. split; [done|].
  constructor; [|by apply Hmono]. cbn [slots length]. destruct ln; cbn; lia.
Qed.

Lemma parse_located_total t bytes : ∃ ls, parse_located t bytes = Some ls ∧
  Forall (λ l, ((slots l).1 < (slots l).2 ∧ (slots l).2 ≤ length (chunks DIR_ENTRY_SIZE bytes))%nat) ls.
Proof.
  unfold parse_located.
  destruct (parse_from_total t (chunks DIR_ENTRY_SIZE bytes) 0 0 (mkLongName [] 0 0)) as (ls & Hp & Hl);
    [split; cbn; lia|lia|]. eauto.
Qed.

(** * The bytes of an entry *)

Lemma list_len_11 (l : list Z) : length l = 11%nat →
  ∃ a b c d e f g h i j k, l = [a; b; c; d; e; f; g; h; i; j; k].
Proof. intros Hl. do 12 (destruct l as [|? l]; try (cbn in Hl; lia)). eauto 20. Qed.

Lemma le_bytes_low x : le_value (le_bytes 2 x) = x mod 2 ^ 16.
Proof.
  rewrite <-(le_value_le_bytes 2 (x mod 2 ^ 16)) by (apply Z.mod_pos_bound; lia). f_equal. cbn [le_bytes].
  f_equal; [|f_equal]; Z.to_euclidean_division_equations; lia.
Qed.

Lemma le_bytes_high x : uint 32 x → le_value (le_bytes 2 (Z.shiftr x 16)) = x / 2 ^ 16.
Proof.
  intros Hx. rewrite Z.shiftr_div_pow2 by lia. apply le_value_le_bytes. unfold uint in *.
  Z.to_euclidean_division_equations; lia.
Qed.

(** What [parse_from] looks at in an 8.3 entry. *)
Lemma short_entry_fields short case attr cluster size date time : length short = 11%nat →
  uint 32 cluster → uint 32 size → uint 16 date → uint 16 time →
  let e := short_entry short case attr cluster size (date, time) in
  take 11 e = short ∧ e !!! 0%nat = short !!! 0%nat ∧ e !!! 11%nat = attr ∧ e !!! 12%nat = case ∧
  u16_at e 20 = cluster / 2 ^ 16 ∧ u16_at e 26 = cluster mod 2 ^ 16 ∧ u32_at e 28 = size ∧
  u16_at e 24 = date ∧ u16_at e 22 = time ∧ length e = 32%nat ∧ take 8 e = take 8 short ∧
  take 3 (drop 8 e) = drop 8 short.
Proof.
  intros Hl Hc Hs Hd Ht. destruct (list_len_11 short Hl) as (a & b & c & d & e0 & f & g & h & i & j & k & ->).
  assert (H16 : ∀ x, uint 16 x → le_value (le_bytes 2 x) = x) by (intros; by apply le_value_le_bytes).
  assert (H32 : ∀ x, uint 32 x → le_value (le_bytes 4 x) = x) by (intros; by apply le_value_le_bytes).
  cbv zeta. split_and!; try reflexivity.
  - exact (le_bytes_high cluster Hc).
  - exact (le_bytes_low cluster).
  - exact (H32 size Hs).
  - exact (H16 date Hd).
  - exact (H16 time Ht).
Qed.

Lemma list_len_13 (l : list Z) : length l = 13%nat →
  ∃ a b c d e f g h i j k m n, l = [a; b; c; d; e; f; g; h; i; j; k; m; n].
Proof. intros Hl. do 14 (destruct l as [|? l]; try (cbn in Hl; lia)). eauto 20. Qed.

(** What [add_piece] reads of a long name entry. *)
Lemma long_piece_fields ck us pieces k : (length us = pieces * 13)%nat → Forall (uint 16) us → (k < pieces)%nat →
  let e := long_piece ck us pieces (S k) in
  e !!! 0%nat = Z.lor (Z.of_nat (S k)) (if (S k =? pieces)%nat then LFN_LAST else 0) ∧
  e !!! 11%nat = ATTR_LONG_NAME ∧ e !!! 13%nat = ck ∧
  u16_at e <$> LFN_OFFSETS = take 13 (drop (k * 13) us) ∧ length e = 32%nat.
Proof.
  intros Hl Hu Hk. unfold long_piece. replace (S k - 1)%nat with k by lia. cbv zeta.
  change LFN_CHARS with 13%nat.
  assert (Hlen : length (take 13 (drop (k * 13) us)) = 13%nat) by (rewrite length_take, length_drop; lia).
  assert (Hf : Forall (uint 16) (take 13 (drop (k * 13) us))) by (by apply Forall_take, Forall_drop).
  revert Hlen Hf. generalize (take 13 (drop (k * 13) us)). intros l Hlen Hf.
  generalize (Z.lor (Z.of_nat (S k)) (if (S k =? pieces)%nat then LFN_LAST else 0)). intros e0.
  destruct (list_len_13 l Hlen) as (a & b & c & d & e & f & g & h & i & j & m & n & o & ->).
  assert (H16 : ∀ x, uint 16 x → le_value (le_bytes 2 x) = x) by (intros; by apply le_value_le_bytes).
  split_and!; try reflexivity. repeat (apply Forall_cons in Hf as [? Hf]).
  cbn [fmap list_fmap LFN_OFFSETS].
  repeat (f_equal; [match goal with |- _ = ?x => exact (H16 x ltac:(assumption)) end|]).
  f_equal. exact (H16 o ltac:(assumption)).
Qed.

(** The sequence bytes of up to 20 pieces are told apart from everything else in a directory. *)
Lemma seq_byte k pieces : (k < pieces ≤ 20)%nat →
  let e0 := Z.lor (Z.of_nat (S k)) (if (S k =? pieces)%nat then LFN_LAST else 0) in
  Z.land e0 0x1F = Z.of_nat (S k) ∧ (Z.land e0 LFN_LAST =? 0) = negb (S k =? pieces)%nat ∧
  (e0 =? ENTRY_END) = false ∧ (e0 =? ENTRY_DELETED) = false.
Proof.
  intros Hk e0. assert (Hs : (k < 20)%nat) by lia. unfold e0. clear e0.
  destruct (S k =? pieces)%nat; clear Hk pieces;
    (do 20 (destruct k as [|k]; [split_and!; reflexivity|])); lia.
Qed.

(** Long name entries for the units [us], added last piece first, put the units together. *)
Lemma parse_pieces t us ck pieces es index k long_start long : (length us = pieces * 13)%nat → Forall (uint 16) us →
  (k ≤ pieces ≤ 20)%nat →
  ((k < pieces)%nat → long = mkLongName (replicate (k * 13) 0xFFFF ++ drop (k * 13) us) ck (Z.of_nat k) ∧
                      (long_start + (pieces - k) = index)%nat) →
  parse_from t index long_start long ((long_piece ck us pieces <$> rev (seq 1 k)) ++ es) =
  parse_from t (index + k) (if (0 <? k)%nat && (k =? pieces)%nat then index else long_start)
    (if (0 <? k)%nat then mkLongName us ck 0 else long) es.
Proof.
  intros Hl Hu. revert index long_start long. induction k as [|k IH]; intros index long_start long Hk Hlong.
  { cbn [seq rev fmap list_fmap app Nat.ltb Nat.leb andb]. by rewrite Nat.add_0_r. }
  rewrite seq_S, rev_app_distr. cbn [rev app fmap list_fmap parse_from]. rewrite Nat.add_1_l.
  destruct (long_piece_fields ck us pieces k Hl Hu ltac:(lia)) as (H0 & H11 & H13 & Hus & _).
  destruct (seq_byte k pieces ltac:(lia)) as (Hseq & Hlast & Hend & Hdel).
  rewrite H0, H11, Hend, Hdel. change (Z.land ATTR_LONG_NAME 0x3F =? ATTR_LONG_NAME) with true.
  rewrite Hlast, negb_involutive.
  assert (Hadd : add_piece (long_piece ck us pieces (S k)) long =
    Some (mkLongName (replicate (k * 13) 0xFFFF ++ drop (k * 13) us) ck (Z.of_nat k))).
  { unfold add_piece. rewrite H0, H13, Hseq, Hlast, negb_involutive, Hus. cbv zeta.
    set (m := if (S k =? pieces)%nat then _ else long).
    assert (Hm : m = mkLongName (replicate (S k * 13) 0xFFFF ++ drop (S k * 13) us) ck (Z.of_nat (S k))).
    { unfold m. destruct (Nat.eqb_spec (S k) pieces) as [->|Hne]; [|by apply Hlong; lia].
      rewrite drop_ge by lia. by rewrite app_nil_r, Nat2Z.id. }
    rewrite Hm. cbn [expected checksum units]. rewrite (proj2 (Z.eqb_neq (Z.of_nat (S k)) 0)) by lia.
    rewrite !Z.eqb_refl. cbn [orb negb]. replace (Z.to_nat (Z.of_nat (S k) - 1)) with k by lia.
    change LFN_CHARS with 13%nat. rewrite (proj2 (Nat.ltb_ge _ _)) by (rewrite length_app, length_replicate; lia).
    f_equal. f_equal.
    - unfold put. replace (S k * 13)%nat with (k * 13 + 13)%nat by lia. rewrite replicate_add, <-app_assoc.
      rewrite take_app_length' by (by rewrite length_replicate). f_equal.
      rewrite length_take, length_drop, Nat.min_l by lia.
      rewrite drop_app_ge by (rewrite length_replicate; lia). rewrite length_replicate.
      rewrite drop_app_length' by (rewrite length_replicate; lia).
      rewrite <-drop_drop. apply take_drop.
    - rewrite wrap_small by (unfold uint; lia). lia. }
  rewrite Hadd. cbn [mbind option_bind]. rewrite IH by (destruct (Nat.eqb_spec (S k) pieces); lia || (intros; split; [done|lia])).
  replace (index + S k)%nat with (S index + k)%nat by lia. f_equal.
  - destruct (Nat.eqb_spec (S k) pieces), (Nat.eqb_spec k pieces); destruct k; cbn; try done; lia.
  - destruct k; [|done]. cbn. by rewrite drop_0.
Qed.

(** * Long names *)

(** A name FAT can hold and read back: also without U+FFFF, whose UTF-16 unit marks the padding. *)
Definition storable (name : list Z) : Prop :=
  valid_name name = true ∧ Forall is_char name ∧ 0xFFFF ∉ name.

Lemma valid_name_spec name : valid_name name = true →
  name ≠ [] ∧ (length (encode_utf16 name) ≤ 255)%nat ∧ is_dot name = false ∧
  last name ≠ Some 0x20 ∧ last name ≠ Some 0x2E ∧ Forall (λ c, 0x20 <= c ∧ c ∉ FORBIDDEN) name.
Proof.
  unfold valid_name, ends_with, contains, MAX_NAME. rewrite negb_true_iff, !orb_false_iff.
  intros (((((He & Hl) & Hd) & Hs) & Hp) & Hc). apply bool_decide_eq_false in He, Hs, Hp. apply Nat.ltb_ge in Hl.
  split_and!; try done. apply Forall_forall. intros c Hin.
  destruct (Z.ltb c 0x20 || bool_decide (c ∈ FORBIDDEN)) eqn:E.
  - assert (Hx : existsb (λ c, (c <? 0x20) || bool_decide (c ∈ FORBIDDEN)) name = true).
    { apply existsb_exists. exists c. split; [by apply list_elem_of_In|done]. }
    by rewrite Hx in Hc.
  - apply orb_false_iff in E as [?%Z.ltb_ge ?%bool_decide_eq_false]. done.
Qed.

Lemma encode_utf16_units name : Forall is_char name → Forall (λ c, 0x20 <= c) name → 0xFFFF ∉ name →
  Forall (λ u, uint 16 u ∧ is_end_unit u = false) (encode_utf16 name).
Proof.
  intros Hc Hlo Hn. unfold encode_utf16. apply Forall_concat, Forall_fmap, Forall_forall. intros c Hin.
  rewrite Forall_forall in Hc, Hlo. specialize (Hc c Hin). specialize (Hlo c Hin).
  eapply Forall_impl; [by apply encode_char_units|]. cbn. intros u (Hu & Hl & Hh). split; [done|].
  unfold is_end_unit. unfold uint in Hu. destruct (Z.eqb_spec u 0) as [->|]; [lia|]. cbn [orb].
  apply Z.eqb_neq. intros ->. apply Hn. by rewrite Hh.
Qed.

Lemma until_end_app us rest : Forall (λ u, is_end_unit u = false) us →
  until_end (us ++ rest) = us ++ until_end rest.
Proof. induction 1 as [|u us Hu _ IH]; cbn; [done|]. by rewrite Hu, IH. Qed.

Lemma until_end_padding n : until_end (replicate n 0xFFFF) = [].
Proof. by destruct n. Qed.

(** The units as they are stored: with a terminator if there is room, and padded. *)
Lemma long_units us : Forall (λ u, uint 16 u ∧ is_end_unit u = false) us → us ≠ [] → (length us ≤ 255)%nat →
  let pieces := Z.to_nat (div_ceil (Z.of_nat (length us)) (Z.of_nat LFN_CHARS)) in
  let stored := resize (pieces * LFN_CHARS) 0xFFFF (if (length us mod LFN_CHARS =? 0)%nat then us else us ++ [0]) in
  (0 < pieces ≤ 20)%nat ∧ length stored = (pieces * 13)%nat ∧ Forall (uint 16) stored ∧ until_end stored = us.
Proof.
  intros Hu Hne Hlen. change LFN_CHARS with 13%nat. cbv zeta. unfold div_ceil.
  assert (Hl : (0 < length us)%nat) by (destruct us; cbn; [done|lia]).
  set (pieces := Z.to_nat _). assert (Hp : (pieces = (length us + 12) / 13)%nat).
  { unfold pieces. apply Nat2Z.inj. rewrite Z2Nat.id by (apply Z.div_pos; lia).
    rewrite Nat2Z.inj_div. f_equal. lia. }
  pose proof (Nat.div_mod_eq (length us + 12) 13). pose proof (Nat.mod_upper_bound (length us + 12) 13 ltac:(lia)).
  pose proof (Nat.div_mod_eq (length us) 13). pose proof (Nat.mod_upper_bound (length us) 13 ltac:(lia)).
  clearbody pieces. subst pieces.
  assert (Hw : Forall (uint 16) us) by (eapply Forall_impl; [exact Hu|]; by intros u [? _]).
  assert (Hv : Forall (λ u, is_end_unit u = false) us) by (eapply Forall_impl; [exact Hu|]; by intros u [_ ?]).
  split; [lia|]. split; [apply length_resize|].
  assert (Hpad : ∀ n, Forall (uint 16) (replicate n 0xFFFF)) by (intros; by apply Forall_replicate).
  destruct (Nat.eqb_spec (length us mod 13) 0) as [Hz|Hz].
  - rewrite resize_grow by lia. replace ((length us + 12) / 13 * 13 - length us)%nat with 0%nat by lia. cbn [replicate].
    rewrite app_nil_r. split; [done|]. rewrite <-(app_nil_r us) at 1. rewrite until_end_app by done. apply app_nil_r.
  - rewrite resize_grow by (rewrite length_app; cbn [length]; lia). split.
    + apply Forall_app. split; [|done]. apply Forall_app. split; [done|]. by repeat constructor.
    + rewrite <-app_assoc, until_end_app by done. cbn. apply app_nil_r.
Qed.

(** The entry that ends a name's slots, if its bytes are those of [short_entry]. *)
Definition made_entry (t : FatType) (name : list Z) (attr cluster size : Z) (stamp : Z * Z) : DirEntry :=
  let directory := negb (Z.land attr ATTR_DIRECTORY =? 0) in
  mkDirEntry name (if directory then Directory else File) (if directory then 0 else size)
    (mkStamp stamp.1 stamp.2) cluster.

Definition fits_type (t : FatType) (cluster : Z) : Prop := match t with Fat16 => uint 16 cluster | Fat32 => uint 32 cluster end.

(** The two halves an entry keeps of a cluster number. *)
Lemma cluster_halves t c : fits_type t c →
  Z.lor (Z.shiftl (if decide (t = Fat32) then c / 2 ^ 16 else 0) 16) (c mod 2 ^ 16) = c.
Proof.
  intros Hc. destruct t; cbn [fits_type] in Hc.
  - rewrite decide_False by done. rewrite Z.shiftl_0_l, Z.lor_0_l. apply Z.mod_small. unfold uint in Hc. lia.
  - rewrite decide_True by done. rewrite lor_shiftl_add by (lia || apply Z.mod_pos_bound; lia).
    pose proof (Z.div_mod c (2 ^ 16) ltac:(lia)). lia.
Qed.

Lemma fits_type_uint t c : fits_type t c → uint 32 c.
Proof. destruct t; unfold fits_type, uint; lia. Qed.

Lemma dir_entry_made t name short case attr cluster size date time : length short = 11%nat →
  fits_type t cluster → uint 32 size → uint 16 date → uint 16 time →
  dir_entry t name (short_entry short case attr cluster size (date, time)) =
  made_entry t name attr cluster size (date, time).
Proof.
  intros Hl Hc Hs Hd Ht. pose proof (fits_type_uint _ _ Hc) as Hc'.
  destruct (short_entry_fields short case attr cluster size date time Hl Hc' Hs Hd Ht)
    as (_ & _ & H11 & _ & H20 & H26 & H28 & H24 & H22 & _).
  unfold dir_entry, made_entry. rewrite H11, H20, H26, H28, H24, H22. f_equal. by apply cluster_halves.
Qed.

(** An 8.3 entry after its long name, or after nothing: it is listed under the name it should be. *)
Lemma parse_short t short case attr cluster size date time es index long_start long name :
  length short = 11%nat → (short !!! 0%nat =? ENTRY_END) = false → (short !!! 0%nat =? ENTRY_DELETED) = false →
  attr = ATTR_ARCHIVE ∨ attr = ATTR_DIRECTORY →
  fits_type t cluster → uint 32 size → uint 16 date → uint 16 time → is_dot name = false →
  let e := short_entry short case attr cluster size (date, time) in
  let '(_, ln) := take_name short long in
  name = match ln with Some n => n | None => short_name e end →
  parse_from t index long_start long (e :: es) =
  (rest ← parse_from t (S index) long_start (reset long) es;
   Some (mkLocated (made_entry t name attr cluster size (date, time))
           (match ln with Some _ => long_start | None => index end, S index) :: rest)).
Proof.
  intros Hl H0 He5 Ha Hc Hs Hd Ht Hdot e.
  pose proof (fits_type_uint _ _ Hc) as Hc'.
  destruct (short_entry_fields short case attr cluster size date time Hl Hc' Hs Hd Ht) as (H11 & Hb & Hat & _).
  unfold take_name. set (ln := if _ && _ then _ else None). intros Hname. cbn [parse_from]. fold e in Hb, H11, Hat.
  rewrite Hb, Hat, H0, He5, H11.
  assert (Hk : (Z.land attr 0x3F =? ATTR_LONG_NAME) = false ∧ negb (Z.land attr ATTR_VOLUME_ID =? 0) = false)
    by (destruct Ha as [-> | ->]; done).
  destruct Hk as [-> ->]. unfold take_name. fold ln. rewrite <-Hname, Hdot. unfold e. rewrite dir_entry_made by done.
  by destruct ln.
Qed.

(** * Short names *)

Lemma between_spec lo hi b : between lo hi b = true ↔ lo <= b <= hi.
Proof. unfold between. rewrite andb_true_iff, Z.leb_le, Z.leb_le. done. Qed.

Lemma is_short_char_ascii c : is_short_char c = true → 0x21 <= c <= 0x7E.
Proof.
  unfold is_short_char, is_ascii_alphanumeric, is_ascii_uppercase, is_ascii_lowercase, is_ascii_digit, contains.
  rewrite !orb_true_iff, !between_spec, bool_decide_eq_true. intros [?|Hin]; [lia|].
  unfold SHORT_EXTRA in Hin. repeat (apply elem_of_cons in Hin as [->|Hin]; [lia|]). by apply elem_of_nil in Hin.
Qed.

Lemma to_upper_ascii c : 0x21 <= c <= 0x7E → 0x21 <= to_ascii_uppercase c <= 0x7E.
Proof.
  intros Hc. unfold to_ascii_uppercase. destruct (is_ascii_lowercase c) eqn:El; [|done].
  unfold is_ascii_lowercase in El. apply between_spec in El. lia.
Qed.

Lemma not_whitespace c : 0x21 <= c <= 0x7E → is_whitespace c = false.
Proof.
  intros Hc. unfold is_whitespace, between.
  repeat match goal with |- context [?a =? ?b] => rewrite (proj2 (Z.eqb_neq a b)) by lia end.
  rewrite (proj2 (Z.leb_gt c 0x0D)), (proj2 (Z.leb_gt 0x2000 c)) by lia. by rewrite andb_false_r.
Qed.

Lemma upper_id part : existsb is_ascii_lowercase part = false → to_ascii_uppercase <$> part = part.
Proof.
  induction part as [|c part IH]; cbn [existsb fmap list_fmap]; [done|].
  intros [Hl El]%orb_false_iff. rewrite IH by done. unfold to_ascii_uppercase. by rewrite Hl.
Qed.

(** Bringing a part to upper case and back, as its flag says, is the part. *)
Lemma part_case_back part lower : part_case part = Some lower →
  Forall (λ c, 0x21 <= c <= 0x7E) part ∧
  (if lower then lowercase (to_ascii_uppercase <$> part) else to_ascii_uppercase <$> part) = part.
Proof.
  unfold part_case. destruct (forallb is_short_char part) eqn:Hs; cbn [andb]; [|done].
  assert (Ha : Forall (λ c, 0x21 <= c <= 0x7E) part).
  { apply Forall_forall. intros c Hc. apply is_short_char_ascii. rewrite forallb_forall in Hs. by apply Hs, list_elem_of_In. }
  destruct (existsb is_ascii_lowercase part) eqn:El, (existsb is_ascii_uppercase part) eqn:Eu; cbn [andb negb];
    try done; intros [= <-]; (split; [done|]).
  - clear El Hs. unfold lowercase. induction Ha as [|c part Hc Ha IH]; cbn [fmap list_fmap concat existsb] in *; [done|].
    apply orb_false_iff in Eu as [Hu Eu]. rewrite to_lowercase_ascii by (pose proof (to_upper_ascii c Hc); lia).
    cbn [app]. rewrite IH by done. f_equal. unfold to_ascii_lowercase, to_ascii_uppercase.
    destruct (is_ascii_lowercase c) eqn:Ec; [|by rewrite Hu].
    unfold is_ascii_lowercase, is_ascii_uppercase in *. apply between_spec in Ec.
    replace (between 0x41 0x5A (c - 32)) with true by (symmetry; apply between_spec; lia). lia.
  - by apply upper_id.
  - by apply upper_id.
Qed.

Lemma str_len_ascii part : Forall (λ c, 0x21 <= c <= 0x7E) part → str_len part = Z.of_nat (length part).
Proof.
  induction 1 as [|c part Hc _ IH]; [done|]. cbn [str_len foldr length] in *. unfold str_len in IH. rewrite IH.
  unfold len_utf8. rewrite (proj2 (Z.ltb_lt c 0x80)) by lia. lia.
Qed.

Lemma short_padding base ext : (length base ≤ 8)%nat → (length ext ≤ 3)%nat →
  let short := put 8 ext (put 0 base (replicate 11 0x20)) in
  length short = 11%nat ∧ take 8 short = base ++ replicate (8 - length base) 0x20 ∧
  drop 8 short = ext ++ replicate (3 - length ext) 0x20.
Proof.
  intros Hb He. cbv zeta. assert (H0' : put 0 base (replicate 11 0x20) = base ++ replicate (11 - length base) 0x20).
  { unfold put. rewrite take_0, Nat.add_0_l, drop_replicate. done. }
  assert (Hl : length (base ++ replicate (11 - length base) 0x20) = 11%nat) by (rewrite length_app, length_replicate; lia).
  rewrite H0'. unfold put. split_and!.
  - rewrite !length_app, length_take, length_drop, Hl. lia.
  - rewrite take_app_le by (rewrite length_take, Hl; lia). rewrite take_take, Nat.min_l by lia.
    rewrite take_app_ge by lia. by rewrite take_replicate, Nat.min_l by lia.
  - rewrite drop_app_ge by (rewrite length_take, Hl; lia). rewrite length_take, Hl, Nat.min_l, Nat.sub_diag, drop_0 by lia.
    f_equal. rewrite drop_app_ge by lia. rewrite drop_replicate. f_equal. lia.
Qed.

Lemma trim_padded part n : Forall (λ c, 0x21 <= c <= 0x7E) part → trim_end (part ++ replicate n 0x20) = part.
Proof.
  intros Hp. apply trim_end_by_app; [by apply Forall_replicate|]. intros c Hc. apply not_whitespace.
  rewrite Forall_forall in Hp. apply Hp. apply last_Some in Hc as (l & ->). apply elem_of_app. right.
  by apply list_elem_of_singleton.
Qed.

Lemma case_flags bl el :
  let case := Z.lor (if bl : bool then CASE_LOWER_BASE else 0) (if el : bool then CASE_LOWER_EXT else 0) in
  negb (Z.land case CASE_LOWER_BASE =? 0) = bl ∧ negb (Z.land case CASE_LOWER_EXT =? 0) = el.
Proof. by destruct bl, el. Qed.

Lemma upper_forall part : Forall (λ c, 0x21 <= c <= 0x7E) part → Forall (λ c, 0x21 <= c <= 0x7E) (to_ascii_uppercase <$> part).
Proof. intros Hp. apply Forall_fmap. eapply Forall_impl; [exact Hp|]. intros c. apply to_upper_ascii. Qed.

(** A name stored in 8.3 form alone comes back as it was. *)
Lemma exact_short_name_back name short case : last name ≠ Some 0x2E → exact_short_name name = Some (short, case) →
  length short = 11%nat ∧ 0x21 <= short !!! 0%nat <= 0x7E ∧ is_bytes short ∧ uint 8 case ∧
  ∀ e, take 8 e = take 8 short → take 3 (drop 8 e) = drop 8 short → e !!! 0%nat = short !!! 0%nat →
    e !!! 12%nat = case → short_name e = name.
Proof.
  intros Hlast. unfold exact_short_name. destruct (default _ _) as [base ext] eqn:Hsplit.
  destruct (bool_decide _) eqn:Hbe; cbn [orb]; [done|]. apply bool_decide_eq_false in Hbe.
  destruct (Z.ltb_spec 8 (str_len base)); cbn [orb]; [done|].
  destruct (Z.ltb_spec 3 (str_len ext)); cbn [orb]; [done|]. destruct (contains 0x2E ext); [done|].
  intros (bl & Hbl & (el & Hel & Heq)%bind_Some)%bind_Some. apply (inj Some), pair_equal_spec in Heq as [<- <-].
  destruct (part_case_back _ _ Hbl) as [Hba Hbb]. destruct (part_case_back _ _ Hel) as [Hea Heb].
  rewrite str_len_ascii in * by done.
  destruct (short_padding (to_ascii_uppercase <$> base) (to_ascii_uppercase <$> ext)) as (Hlen & Htk & Hdr);
    [rewrite length_fmap; lia..|]. set (short := put 8 _ _) in *.
  assert (Hfirst : 0x21 <= short !!! 0%nat <= 0x7E).
  { assert (Hs0 : short !! 0%nat = (to_ascii_uppercase <$> base) !! 0%nat).
    { rewrite <-(lookup_take_lt short 8) by lia. rewrite Htk. apply lookup_app_l. rewrite length_fmap. destruct base; [done|cbn; lia]. }
    destruct base as [|c base]; [done|]. change (short !! 0%nat = Some (to_ascii_uppercase c)) in Hs0.
    rewrite (list_lookup_total_correct _ _ _ Hs0).
    apply Forall_cons in Hba as [? _]. by apply to_upper_ascii. }
  assert (Hbytes : is_bytes short).
  { rewrite <-(take_drop 8 short), Htk, Hdr. assert (∀ p, Forall (λ c, 0x21 <= c <= 0x7E) p → is_bytes p).
    { intros p Hp. eapply Forall_impl; [exact Hp|]. cbn. intros. unfold uint. lia. }
    auto using upper_forall with bytes. }
  split; [done|]. split; [done|]. split; [done|]. split; [by destruct bl, el|].
  intros e H8 H3 He0 Hcase. unfold short_name, short_part. rewrite H8, H3, Hcase, Htk, Hdr, He0.
  destruct (case_flags bl el) as [-> ->]. rewrite !trim_padded by (by apply upper_forall).
  rewrite Hbb, Heb, (proj2 (Z.eqb_neq _ ENTRY_KANJI_E5)) by (unfold ENTRY_KANJI_E5; lia).
  destruct (split_once 0x2E name) as [[b x]|] eqn:Hs; cbn in Hsplit; injection Hsplit as <- <-; [|done].
  apply split_once_Some in Hs as [-> _]. destruct x as [|c x]; [|done]. by rewrite last_snoc in Hlast.
Qed.

(** * Aliases *)

Lemma rsplit_once_app sep a b : sep ∉ b → rsplit_once sep (a ++ sep :: b) = Some (a, b).
Proof.
  intros Hb. unfold rsplit_once. rewrite rev_app_distr. cbn [rev]. rewrite <-app_assoc. cbn [app].
  rewrite split_once_app by (by rewrite list_elem_of_In, <-in_rev, <-list_elem_of_In). cbn [mbind option_bind].
  by rewrite !rev_involutive.
Qed.

Lemma dec_inj n m : 0 <= n < 10 ^ 19 → 0 <= m < 10 ^ 19 → dec n = dec m → n = m.
Proof.
  intros Hn Hm He. pose proof (parse_dec (10 ^ 19) n ltac:(lia) ltac:(lia)) as Hpn.
  rewrite He, parse_dec in Hpn by lia. by injection Hpn.
Qed.

Lemma dec_range n : 0 <= n → Forall (λ c, 0x30 <= c <= 0x39) (dec n).
Proof. apply dec_digits. Qed.

(** What alias number [n] looks like. *)
Lemma numbered_spec basis ext n : (1 ≤ length basis ≤ 6)%nat → (length ext ≤ 3)%nat → 1 <= n < 10 ^ 7 →
  ∃ short keep, numbered basis ext n = Some short ∧ length short = 11%nat ∧
    take 8 short = take keep basis ++ 0x7E :: dec n ++ replicate (8 - (keep + S (length (dec n)))) 0x20 ∧
    drop 8 short = ext ++ replicate (3 - length ext) 0x20 ∧ (keep + S (length (dec n)) ≤ 8)%nat ∧ (keep ≤ length basis)%nat.
Proof.
  intros Hb He Hn. unfold numbered.
  assert (Hd : (length (dec n) ≤ 7)%nat) by (apply length_dec_fuel; [cbn; lia|lia]).
  set (tail := 0x7E :: dec n). assert (Ht : length tail = S (length (dec n))) by done.
  set (keep := Nat.min _ _).
  assert (Hk : keep = Nat.min (length basis) (8 - length tail)).
  { unfold keep. rewrite wrap_small by (unfold uint; lia). f_equal. lia. }
  clearbody keep. assert (Hkt : (keep + length tail ≤ 8)%nat) by lia.
  rewrite (proj2 (Nat.ltb_ge _ _)) by lia.
  set (a := put 8 ext _). assert (Ha : length a = 11%nat ∧ drop 8 a = ext ++ replicate (3 - length ext) 0x20).
  { destruct (short_padding [] ext) as (? & _ & ?); [cbn; lia|lia|]. unfold a.
    change (put 0 [] (replicate 11 0x20)) with (replicate 11 0x20) in *. done. }
  clearbody a. destruct Ha as [Hla Hda].
  set (b := put 0 (replicate 8 0x20) a).
  assert (Hb' : length b = 11%nat ∧ take 8 b = replicate 8 0x20 ∧ drop 8 b = drop 8 a).
  { unfold b, put. rewrite take_0, Nat.add_0_l, length_replicate. cbn [app]. rewrite !length_app, length_replicate, length_drop.
    split_and!; [lia|by rewrite take_app_length' by done|by rewrite drop_app_length' by done]. }
  clearbody b. destruct Hb' as (Hlb & Htb & Hdb).
  set (c := put 0 (take keep basis) b).
  assert (Htl : length (take keep basis) = keep) by (rewrite length_take; lia).
  assert (Hc : length c = 11%nat ∧ take keep c = take keep basis ∧ (∀ k, (keep ≤ k)%nat → drop k c = drop k b)).
  { unfold c, put. rewrite take_0, Nat.add_0_l. cbn [app]. rewrite Htl. split_and!.
    - rewrite length_app, Htl, length_drop. lia.
    - by rewrite take_app_length' by done.
    - intros k Hkk. rewrite drop_app_ge by lia. rewrite Htl, drop_drop. f_equal. lia. }
  clearbody c. destruct Hc as (Hlc & Htc & Hdc). exists (put keep tail c), keep.
  assert (Hlen : length (put keep tail c) = 11%nat) by (rewrite put_length; lia).
  split_and!; [done|done| | |lia|lia].
  - unfold put. rewrite Htc, app_assoc. rewrite take_app_ge by (rewrite length_app; lia).
    rewrite length_app, Htl, <-app_assoc. f_equal. cbn [app tail]. f_equal. f_equal.
    rewrite Hdc by lia. rewrite take_drop_commute.
    replace (keep + length tail + (8 - (keep + length tail)))%nat with 8%nat by lia.
    by rewrite Htb, drop_replicate.
  - unfold put. rewrite Htc, app_assoc, drop_app_ge by (rewrite length_app; lia). rewrite length_app, Htl, drop_drop.
    replace (keep + length tail + (8 - (keep + length tail)))%nat with 8%nat by lia. by rewrite Hdc, Hdb by lia.
Qed.

Lemma numbered_inj basis ext n m short : (1 ≤ length basis ≤ 6)%nat → (length ext ≤ 3)%nat → 1 <= n < 10 ^ 7 →
  1 <= m < 10 ^ 7 → numbered basis ext n = Some short → numbered basis ext m = Some short → n = m.
Proof.
  intros Hb He Hn Hm H1 H2. destruct (numbered_spec basis ext n Hb He Hn) as (s & k & Hs & _ & Ht & _).
  destruct (numbered_spec basis ext m Hb He Hm) as (s' & k' & Hs' & _ & Ht' & _).
  assert (s = short ∧ s' = short) as [-> ->] by (split; congruence). rewrite Ht in Ht'.
  assert (Hno : ∀ n k, 0 <= n → 0x7E ∉ dec n ++ replicate k 0x20).
  { intros x j Hx [Hin|Hin]%elem_of_app.
    - pose proof (dec_range x Hx) as Hr. rewrite Forall_forall in Hr. specialize (Hr _ Hin). lia.
    - by apply elem_of_replicate in Hin as [? _]. }
  apply (f_equal (rsplit_once 0x7E)) in Ht'. rewrite !rsplit_once_app in Ht' by (apply Hno; lia).
  apply (inj Some), pair_equal_spec in Ht' as [_ Ht']. apply (f_equal trim_end) in Ht'.
  assert (Hd : ∀ n, 0 <= n → Forall (λ c, 0x21 <= c <= 0x7E) (dec n)).
  { intros x Hx. eapply Forall_impl; [by apply dec_range|]. cbn. lia. }
  rewrite !trim_padded in Ht' by (apply Hd; lia). apply dec_inj; [lia|lia|done].
Qed.

Lemma alias_from_spec fuel basis ext taken n : (1 ≤ length basis ≤ 6)%nat → (length ext ≤ 3)%nat → 1 <= n →
  n + Z.of_nat fuel <= 10 ^ 7 →
  (∃ short m, alias_from fuel basis ext taken n = Some short ∧ short ∉ taken ∧ 1 <= m < 10 ^ 7 ∧
              numbered basis ext m = Some short) ∨
  ∀ i, n <= i < n + Z.of_nat fuel → ∃ short, numbered basis ext i = Some short ∧ short ∈ taken.
Proof.
  intros Hb He. revert n. induction fuel as [|fuel IH]; intros n Hn Hf; cbn [alias_from]; [right; lia|].
  destruct (numbered_spec basis ext n Hb He ltac:(lia)) as (s & _ & Hs & _). rewrite Hs. cbn [mbind option_bind].
  case_decide as Hin; [|left; exists s, n; split_and!; done || lia].
  destruct (IH (n + 1)) as [|Hall]; [lia|lia|by left|]. right. intros i Hi.
  destruct (decide (i = n)) as [->|]; [by exists s|]. apply Hall. lia.
Qed.

(** An alias is found after at most one more try than there are names taken. *)
Lemma alias_from_fresh basis ext taken : (1 ≤ length basis ≤ 6)%nat → (length ext ≤ 3)%nat →
  Z.of_nat (length taken) < 10 ^ 7 - 1 →
  ∃ short m, alias_from (S (length taken)) basis ext taken 1 = Some short ∧ short ∉ taken ∧ 1 <= m < 10 ^ 7 ∧
             numbered basis ext m = Some short.
Proof.
  intros Hb He Hl. destruct (alias_from_spec (S (length taken)) basis ext taken 1 Hb He) as [|Hall]; [lia|lia|done|].
  exfalso. set (name := λ i : nat, default [] (numbered basis ext (1 + Z.of_nat i))).
  assert (Hs : ∀ i, (i < S (length taken))%nat → numbered basis ext (1 + Z.of_nat i) = Some (name i) ∧ name i ∈ taken).
  { intros i Hi. destruct (Hall (1 + Z.of_nat i)) as (s & Hn & Hin); [lia|]. unfold name. by rewrite Hn. }
  assert (Hsub : name <$> seq 0 (S (length taken)) ⊆+ taken).
  { apply NoDup_submseteq.
    - apply NoDup_fmap_2_strong; [|apply NoDup_seq]. intros i j Hi%elem_of_seq Hj%elem_of_seq Heq.
      destruct (Hs i ltac:(lia)) as [Hi' _]. destruct (Hs j ltac:(lia)) as [Hj' _]. rewrite Heq in Hi'.
      assert (1 + Z.of_nat i = 1 + Z.of_nat j); [|lia].
      eapply (numbered_inj basis ext _ _ (name j)); [done|done|lia|lia|done|done].
    - intros s (i & -> & Hi%elem_of_seq)%list_elem_of_fmap. by apply Hs; lia. }
  apply submseteq_length in Hsub. rewrite length_fmap, length_seq in Hsub. lia.
Qed.

Lemma clean_range part max : Forall (λ c, 0x21 <= c <= 0x7E) (clean part max) ∧ (length (clean part max) ≤ max)%nat.
Proof.
  unfold clean. split; [|rewrite length_take; lia]. apply Forall_take, Forall_fmap, Forall_forall. intros c _. cbn.
  destruct (is_short_char c) eqn:Es; [|lia]. by apply to_upper_ascii, is_short_char_ascii.
Qed.

Lemma alias_spec name taken : Z.of_nat (length taken) < 10 ^ 7 - 1 →
  ∃ short, alias name taken = Some short ∧ short ∉ taken ∧ length short = 11%nat ∧
           0x21 <= short !!! 0%nat <= 0x7E ∧ is_bytes short.
Proof.
  intros Ht. unfold alias. destruct (default _ _) as [base ext].
  destruct (clean_range ext 3) as [Hea Hel]. set (basis := match clean base 6 with [] => _ | b => b end).
  assert (Hb : Forall (λ c, 0x21 <= c <= 0x7E) basis ∧ (1 ≤ length basis ≤ 6)%nat).
  { unfold basis. destruct (clean_range base 6) as [Hba Hbl]. destruct (clean base 6); [split; [|cbn; lia]|].
    - constructor; [lia|constructor].
    - split; [done|]. cbn [length] in *. lia. }
  clearbody basis. destruct Hb as [Hba Hbl].
  destruct (alias_from_fresh basis (clean ext 3) taken Hbl Hel Ht) as (short & m & Ha & Hn & Hm & Hs).
  destruct (numbered_spec basis (clean ext 3) m Hbl Hel Hm) as (s & k & Hs' & Hlen & H8 & H3 & Hk & Hkb).
  rewrite Hs in Hs'. injection Hs' as <-. exists short. split_and!; [done|done|done| | |].
  1, 2: assert (Hf : 0x21 <= short !!! 0%nat <= 0x7E); [|lia].
  1, 2: assert (Hs0 : short !! 0%nat = (take k basis ++ 0x7E :: dec m ++
          replicate (8 - (k + S (length (dec m)))) 0x20) !! 0%nat) by (by rewrite <-H8, lookup_take_lt by lia).
  1, 2: destruct k as [|k]; [cbn in Hs0; rewrite (list_lookup_total_correct _ _ _ Hs0); lia|].
  1, 2: destruct basis as [|b basis]; [cbn in Hbl; lia|]; cbn in Hs0; rewrite (list_lookup_total_correct _ _ _ Hs0).
  1, 2: by apply Forall_cons in Hba as [? _].
  assert (Hby : ∀ p, Forall (λ c, 0x21 <= c <= 0x7E) p → is_bytes p).
  { intros p Hp. eapply Forall_impl; [exact Hp|]. cbn. intros. unfold uint. lia. }
  assert (Hdig : is_bytes (dec m)).
  { eapply Forall_impl; [apply dec_range; lia|]. cbn. intros. unfold uint. lia. }
  rewrite <-(take_drop 8 short), H8, H3. auto 10 with bytes.
Qed.

(** Whatever the short names already in a directory, as long as there are fewer than
    9,999,999 of them, [alias] ends with an 11-byte name that none of them is: no more than one
    number per name taken is tried, and the name never looks like a deleted entry or the end of
    the directory. *)
Theorem alias_is_fresh name taken : Z.of_nat (length taken) < 9999999 →
  ∃ short, alias name taken = Some short ∧ short ∉ taken ∧ length short = 11%nat ∧
           short !!! 0%nat ≠ ENTRY_END ∧ short !!! 0%nat ≠ ENTRY_DELETED.
Proof.
  intros Ht. destruct (alias_spec name taken Ht) as (short & Ha & Hn & Hl & Hf & _). exists short.
  unfold ENTRY_END, ENTRY_DELETED. split_and!; [done|done|done|lia|lia].
Qed.

Lemma alias_is_fresh_witness : ∃ short, alias [0x61; 0x2B; 0x62] [[0x41]] = Some short ∧ length short = 11%nat.
Proof.
  destruct (alias_is_fresh [0x61; 0x2B; 0x62] [[0x41]] ltac:(cbn; lia)) as (short & Ha & _ & Hl & _).
  exact (ex_intro _ short (conj Ha Hl)).
Defined.

(** * New entries *)

Lemma storable_units name : storable name → encode_utf16 name ≠ [] ∧ (length (encode_utf16 name) ≤ 255)%nat ∧
  Forall (λ u, uint 16 u ∧ is_end_unit u = false) (encode_utf16 name).
Proof.
  intros (Hv & Hc & Hn). apply valid_name_spec in Hv as (Hne & Hl & _ & _ & _ & Hf). split_and!; [|done|].
  - destruct name as [|c name]; [done|]. unfold encode_utf16. cbn [fmap list_fmap concat]. unfold encode_char.
    by destruct (c <? 0x10000).
  - apply encode_utf16_units; [done| |done]. eapply Forall_impl; [exact Hf|]. by intros c [? _].
Qed.

Lemma ascii_not_marked b : 0x21 <= b <= 0x7E → (b =? ENTRY_END) = false ∧ (b =? ENTRY_DELETED) = false.
Proof. intros. unfold ENTRY_END, ENTRY_DELETED. rewrite !Z.eqb_neq. lia. Qed.

(** What [add_entry] writes for a name is listed under that name, in exactly those slots. *)
Lemma new_entries_back t name taken attr cluster size date time : storable name →
  Z.of_nat (length taken) < 10 ^ 7 - 1 → attr = ATTR_ARCHIVE ∨ attr = ATTR_DIRECTORY →
  fits_type t cluster → uint 32 size → uint 16 date → uint 16 time →
  ∃ es, new_entries name taken attr cluster size (date, time) = Some es ∧ (0 < length es)%nat ∧
    Forall (λ e, length e = 32%nat) es ∧
    ∀ index long_start long rest, units long = [] →
    ∃ long_start' long', units long' = [] ∧ (long_start' ≤ index + length es ∨ long_start' = long_start)%nat ∧
      roomy long' ∧
      parse_from t index long_start long (es ++ rest) =
      (ls ← parse_from t (index + length es) long_start' long' rest;
       Some (mkLocated (made_entry t name attr cluster size (date, time)) (index, index + length es)%nat :: ls)).
Proof.
  intros Hst Ht Ha Hc Hs Hd Hti. pose proof Hst as (Hv & Hch & _). pose proof (storable_units name Hst) as (Hne & Hlen & Hu).
  apply valid_name_spec in Hv as (_ & _ & Hdot & _ & Hlast & _).
  pose proof (fits_type_uint _ _ Hc) as Hc'. unfold new_entries.
  destruct (exact_short_name name) as [[short case]|] eqn:Hex.
  - destruct (exact_short_name_back name short case Hlast Hex) as (Hl & Hf & _ & _ & Hback).
    destruct (ascii_not_marked _ Hf) as [Hend Hdel].
    destruct (short_entry_fields short case attr cluster size date time Hl Hc' Hs Hd Hti)
      as (_ & H0' & _ & H12 & _ & _ & _ & _ & _ & H32 & H8 & H3).
    eexists. split; [done|]. split; [cbn; lia|]. split; [by repeat constructor|].
    intros index long_start long rest Hlong. exists long_start, (reset long).
    split_and!; [done|by right|apply roomy_reset|]. cbn [app length]. rewrite Nat.add_1_r.
    pose proof (parse_short t short case attr cluster size date time rest index long_start long name
      Hl Hend Hdel Ha Hc Hs Hd Hti Hdot) as Hp.
    unfold take_name in Hp. rewrite Hlong in Hp. rewrite (bool_decide_true (@nil Z = [])) in Hp by done.
    cbn [negb] in Hp. rewrite andb_false_r in Hp. cbn [andb] in Hp. apply Hp.
    symmetry. by apply Hback.
  - destruct (alias_spec name taken Ht) as (short & Has & _ & Hl & Hf & _). rewrite Has. cbn [mbind option_bind].
    destruct (ascii_not_marked _ Hf) as [Hend Hdel].
    unfold long_entries. destruct (long_units _ Hu Hne Hlen) as (Hp & Hsl & Hsu & Hun).
    set (pieces := Z.to_nat _) in *. set (us := resize _ _ _) in *.
    set (longs := long_piece _ us pieces <$> _). set (se := short_entry _ _ _ _ _ _).
    assert (Hll : length longs = pieces) by (unfold longs; by rewrite length_fmap, length_rev, length_seq).
    exists (longs ++ [se]). rewrite length_app, Hll. cbn [length]. split; [done|]. split; [lia|]. split.
    { apply Forall_app. split.
      - apply Forall_fmap, Forall_forall. intros k Hk. rewrite list_elem_of_In, <-in_rev, <-list_elem_of_In, elem_of_seq in Hk.
        destruct k as [|k]; [lia|]. by apply (long_piece_fields _ us pieces k); lia || done.
      - constructor; [|constructor]. by apply short_entry_fields. }
    intros index long_start long rest Hlong.
    rewrite <-app_assoc. unfold longs. cbn [app].
    rewrite (parse_pieces t us _ pieces (se :: rest) index pieces) by (done || lia).
    rewrite (proj2 (Nat.ltb_lt 0 pieces)), Nat.eqb_refl by lia. cbn [andb].
    exists index, (reset (mkLongName us (short_name_checksum short) 0)).
    split_and!; [done|lia|apply roomy_reset|].
    pose proof (parse_short t short 0 attr cluster size date time rest (index + pieces) index
      (mkLongName us (short_name_checksum short) 0) name Hl Hend Hdel Ha Hc Hs Hd Hti Hdot) as Hpp.
    unfold take_name in Hpp. cbn [expected units checksum] in Hpp. rewrite !Z.eqb_refl in Hpp.
    rewrite (bool_decide_false (us = [])) in Hpp by (intros ->; cbn in Hsl; lia). cbn [negb andb] in Hpp.
    rewrite Hun, decode_encode_utf16 in Hpp by done. replace (index + (pieces + 1))%nat with (S (index + pieces)) by lia.
    by apply Hpp.
Qed.
End names.

End FatNames.
