(* ===== verification/FatDirs.v ===== *)
(** Directories: what [load_dir], [entries], [find_dir] and [store_dir] of Fat do, stated with
    relations on the state: the sectors a directory is in, what it lists, and where a path leads. *)
From S2P Require Import Prelude Bytes Text Effect Disk Fat FatTable FatChains FatData FatNames.
Open Scope Z_scope.

Module FatDirs.
Import Effect Text Disk Fat FatTable FatChains FatData FatNames.

Section dirs.
Context `{LawfulDevice D E} `{Unicode}.
Implicit Types (f g h : Fat D) (s c : Z) (cs : list Z).
Local Notation M := (M D E).

(** ** Relations *)

(** The clusters of a directory: none for FAT16's root. *)
Definition dir_clusters f (dir : Dir) cs : Prop :=
  match dir, root (vol f) with
  | Root, Fixed _ _ => cs = []
  | Root, RootChain c | Chain c, _ => chain_is (vol f) (table f) (Some c) cs
  end.

(** The sectors of a directory whose clusters are [cs]. *)
Definition dir_sectors (v : Volume) (dir : Dir) cs : list Z :=
  match dir, root v with
  | Root, Fixed s n => seqZ s n
  | Root, RootChain _ | Chain _, _ => chain_sectors v cs
  end.

Definition sector_bytes f (ss : list Z) : list Z := concat (sector f <$> ss).

(** The bytes of directory [dir], and what it lists. *)
Definition dir_holds f dir (bs : list Z) : Prop :=
  ∃ cs, dir_clusters f dir cs ∧ bs = sector_bytes f (dir_sectors (vol f) dir cs).
Definition lists f dir (ls : list Located) : Prop :=
  ∃ bs, dir_holds f dir bs ∧ parse_located (fat_type (vol f)) bs = Some ls.

(** Where the directory of an entry is. *)
Definition dir_at (e : DirEntry) : Dir := if first_cluster e =? 0 then Root else Chain (first_cluster e).

(** Following [names] from [dir] leads to [dir']. *)
Fixpoint leads f dir (names : list (list Z)) dir' : Prop :=
  match names with
  | [] => dir = dir'
  | n :: names => ∃ ls l, lists f dir ls ∧ find_located n ls = Some l ∧ kind (entry l) = Directory ∧
                          leads f (dir_at (entry l)) names dir'
  end.

Definition parts (path : list Z) : list (list Z) :=
  List.filter (λ part, negb (bool_decide (part = []))) (Bytes.split 0x2F path).

Lemma dir_clusters_unique f dir cs cs' : dir_clusters f dir cs → dir_clusters f dir cs' → cs = cs'.
Proof. unfold dir_clusters. destruct dir, (root (vol f)); try apply chain_is_unique. by intros -> ->. Qed.

Lemma lists_unique f dir ls ls' : lists f dir ls → lists f dir ls' → ls = ls'.
Proof.
  intros (bs & (cs & Hc & ->) & Hp) (bs' & (cs' & Hc' & ->) & Hp').
  rewrite (dir_clusters_unique _ _ _ _ Hc Hc') in Hp. congruence.
Qed.

Lemma leads_unique f dir names d d' : leads f dir names d → leads f dir names d' → d = d'.
Proof.
  revert dir. induction names as [|n names IH]; intros dir; cbn [leads]; [congruence|].
  intros (ls & l & Hl & Hf & _ & Hd) (ls' & l' & Hl' & Hf' & _ & Hd').
  rewrite (lists_unique _ _ _ _ Hl Hl') in Hf. rewrite Hf in Hf'. injection Hf' as <-. by eapply IH.
Qed.

Lemma same_dir_clusters f g dir cs : same f g → dir_clusters g dir cs ↔ dir_clusters f dir cs.
Proof.
  intros Hs. unfold dir_clusters. rewrite (sm_vol _ _ Hs).
  destruct dir, (root (vol f)); try done; split; apply chain_is_ext; intros; by rewrite (same_table _ _ _ Hs).
Qed.

Lemma same_sector_bytes f g ss : same f g → sector_bytes g ss = sector_bytes f ss.
Proof. intros Hs. unfold sector_bytes. f_equal. apply list_fmap_ext. intros. by apply same_sector. Qed.

Lemma same_lists f g dir ls : same f g → lists g dir ls ↔ lists f dir ls.
Proof.
  intros Hs. unfold lists, dir_holds. rewrite (sm_vol _ _ Hs).
  setoid_rewrite (same_dir_clusters f g dir _ Hs). setoid_rewrite (same_sector_bytes f g _ Hs). done.
Qed.

Lemma same_leads f g names : same f g → ∀ dir dir', leads g dir names dir' ↔ leads f dir names dir'.
Proof.
  intros Hs. induction names as [|n names IH]; intros dir dir'; cbn [leads]; [done|].
  setoid_rewrite IH. setoid_rewrite (same_lists f g dir _ Hs). done.
Qed.

(** ** Geometry *)
Lemma chain_sectors_bytes f cs : sector_bytes f (chain_sectors (vol f) cs) = chain_bytes f cs.
Proof.
  unfold sector_bytes, chain_sectors, chain_bytes. induction cs as [|c cs IH]; [done|].
  cbn [fmap list_fmap concat]. rewrite fmap_app, concat_app, IH. done.
Qed.

Lemma elem_of_chain_sectors v cs s : s ∈ chain_sectors v cs ↔ ∃ c, c ∈ cs ∧ in_cluster v c s.
Proof.
  unfold chain_sectors, in_cluster. induction cs as [|c' cs IH]; cbn [fmap list_fmap concat].
  - split; [by intros ?%elem_of_nil|]. by intros (c & ?%elem_of_nil & _).
  - rewrite elem_of_app, IH, elem_of_seqZ. split.
    + intros [Hs|(c & Hc & Hs)]; [exists c'|exists c]; (split; [|done]); [by left|by right].
    + intros (c & [->|Hc]%elem_of_cons & Hs); eauto.
Qed.

(** A directory's sectors are inside the volume and not in the FATs. *)
Lemma dir_sectors_bounds f dir cs s : sound (vol f) → dir_clusters f dir cs → s ∈ dir_sectors (vol f) dir cs →
  fat_start (vol f) + fat_count (vol f) * fat_size (vol f) <= s <
  data_start (vol f) + cluster_count (vol f) * sectors_per_cluster (vol f).
Proof.
  intros Hv Hd Hs. pose proof (sd_laid _ Hv) as Hl.
  assert (Hchain : ∀ c0, chain_is (vol f) (table f) (Some c0) cs → s ∈ chain_sectors (vol f) cs →
    fat_start (vol f) + fat_count (vol f) * fat_size (vol f) <= s <
    data_start (vol f) + cluster_count (vol f) * sectors_per_cluster (vol f)).
  { intros c0 Hc (c & Hin & Hcl)%elem_of_chain_sectors. apply chain_is_in_range in Hc. rewrite Forall_forall in Hc.
    pose proof (first_sector_bounds _ _ Hl (Hc c Hin)). unfold in_cluster in Hcl. destruct Hl. lia. }
  unfold dir_clusters, dir_sectors in *. destruct dir as [|c0]; [|eauto].
  destruct (root (vol f)) as [st n|c0] eqn:Er; [|eauto]. apply elem_of_seqZ in Hs.
  pose proof (lo_root _ Hl) as Hroot. rewrite Er in Hroot. destruct Hroot as (Ht & -> & Hn & He).
  pose proof (lo_count _ Hl) as Hcount. rewrite Ht in Hcount. pose proof (lo_spc _ Hl). nia.
Qed.

(** ** Reading *)
Lemma read_each_spec ss f : coherent f →
  (∀ s, s ∈ ss → 0 <= s < data_start (vol f) + cluster_count (vol f) * sectors_per_cluster (vol f)) →
  wp (read_each ss : M (list Z)) f (λ f' b, same f f' ∧ b = sector_bytes f ss) (λ f' e, same f f' ∧ is_device e).
Proof.
  revert f. induction ss as [|s ss IH]; intros f Hc Hr; cbn [read_each].
  { wp_pure. split; [by apply same_refl|done]. }
  wp_pure. apply wp_bind, read_sector_wp; [apply Hc|apply Hr; by left| |].
  - intros d Hk. assert (Hs : same f (with_device d f)) by (constructor; try done; by apply coherent_device).
    eapply wp_call; [apply IH; [apply Hs|]| |].
    + intros s' Hin. apply Hr. by right.
    + intros g b [Hg ->]. wp_pure. split; [by eapply same_trans|]. unfold sector_bytes. cbn [fmap list_fmap concat].
      f_equal. exact (same_sector_bytes _ _ ss Hs).
    + intros g e [Hg He]. split; [by eapply same_trans|done].
  - intros d e Hk. split; [|by eexists]. constructor; try done. by apply coherent_device.
Qed.

(** Why a directory may not be readable. *)
Definition dir_error f dir (e : FatError E) : Prop := is_device e ∨ ∀ cs, ¬ dir_clusters f dir cs.

Lemma load_dir_spec f dir : coherent f →
  wp (load_dir dir) f
    (λ f' i, same f f' ∧ ∃ cs, dir_clusters f dir cs ∧ sectors i = dir_sectors (vol f) dir cs ∧
       bytes i = sector_bytes f (sectors i))
    (λ f' e, same f f' ∧ dir_error f dir e).
Proof.
  intros Hc. unfold load_dir. wp_pure.
  apply (wp_call _ _ _ (λ g ss, same f g ∧ ∃ cs, dir_clusters f dir cs ∧ ss = dir_sectors (vol f) dir cs)
    (λ g e, same f g ∧ dir_error f dir e)).
  - unfold dir_error, dir_clusters, dir_sectors.
    assert (Hch : ∀ c, wp (cs ← chain c; mret (chain_sectors (vol f) cs) : M (list Z)) f
      (λ g ss, same f g ∧ ∃ cs, chain_is (vol f) (table f) (Some c) cs ∧ ss = chain_sectors (vol f) cs)
      (λ g e, same f g ∧ (is_device e ∨ ∀ cs, ¬ chain_is (vol f) (table f) (Some c) cs))).
    { intros c. eapply wp_call; [by apply chain_spec| |done]. intros g cs [Hs Hcs]. wp_pure. eauto. }
    destruct dir; [destruct (root (vol f))|]; try apply Hch. wp_pure. split; [by apply same_refl|]. by exists [].
  - intros g ss [Hs (cs & Hcs & ->)]. eapply wp_call; [apply read_each_spec; [apply Hs|]| |].
    + intros s Hin. rewrite (sm_vol _ _ Hs). destruct (dir_sectors_bounds f dir cs s (co_sound _ Hc) Hcs Hin) as [Hlo Hhi].
      split; [|done]. destruct (sd_laid _ (co_sound _ Hc)). nia.
    + intros h b [Hh ->]. wp_pure. split; [by eapply same_trans|]. exists cs. cbn [sectors bytes].
      split_and!; [done|done|]. by apply same_sector_bytes.
    + intros h e [Hh He]. split; [by eapply same_trans|]. by left.
  - done.
Qed.

Lemma entries_spec f dir : coherent f →
  wp (entries dir) f (λ f' es, same f f' ∧ ∃ ls, lists f dir ls ∧ es = entry <$> ls) (λ f' e, same f f' ∧ dir_error f dir e).
Proof.
  intros Hc. unfold entries. wp_pure.
  apply (wp_call _ _ _ (λ g bs, same f g ∧ dir_holds f dir bs) (λ g e, same f g ∧ dir_error f dir e)).
  - pose proof (sd_laid _ (co_sound _ Hc)) as Hl. unfold dir_error, dir_holds, dir_clusters, dir_sectors.
    assert (Hch : ∀ c, wp (read_chain c None : M (list Z)) f
      (λ g bs, same f g ∧ ∃ cs, chain_is (vol f) (table f) (Some c) cs ∧ bs = sector_bytes f (chain_sectors (vol f) cs))
      (λ g e, same f g ∧ (is_device e ∨ ∀ cs, ¬ chain_is (vol f) (table f) (Some c) cs))).
    { intros c. eapply wp_mono; [by apply read_chain_spec| |].
      - intros g bs (Hs & Hbs & Hex). split; [done|]. destruct (Hex eq_refl) as (cs & Hcs). exists cs. split; [done|].
        rewrite chain_sectors_bytes. by apply Hbs.
      - intros g e (Hs & [He|(l & _ & [=] & _)]). done. }
    destruct dir; [destruct (root (vol f)) as [s n|] eqn:Er|]; try apply Hch.
    pose proof (lo_root _ Hl) as Hroot. rewrite Er in Hroot. destruct Hroot as (Ht & -> & Hn & He).
    pose proof (lo_count _ Hl) as Hcount. rewrite Ht in Hcount. pose proof (lo_spc _ Hl).
    pose proof (lo_fats _ Hl) as [Hfc Hfs]. pose proof (lo_fat_start _ Hl).
    eapply wp_mono; [apply read_sectors_spec; [done|nia|done|nia]| |].
    + intros g b [Hs ->]. split; [done|]. by exists [].
    + intros g e [Hs Hd]. auto.
  - intros g bs [Hs Hbs]. destruct (parse_located_total (fat_type (vol f)) bs) as (ls & Hp & _).
    eapply wp_unwrap; [unfold parse_entries; rewrite Hp; reflexivity|]. split; [done|]. exists ls. split; [by exists bs|done].
  - done.
Qed.

(** ** Looking names up *)
Lemma find_entry wanted ls :
  List.find (λ e, names_match (name e) wanted) (entry <$> ls) = entry <$> find_located wanted ls.
Proof.
  unfold find_located. induction ls as [|l ls IH]; cbn [List.find fmap list_fmap]; [done|].
  by destruct (names_match _ _).
Qed.

(** [wanted] names [l] in [dir]. *)
Definition names_in f dir (wanted : list Z) (l : Located) : Prop :=
  ∃ ls, lists f dir ls ∧ find_located wanted ls = Some l.

Lemma names_in_unique f dir wanted l l' : names_in f dir wanted l → names_in f dir wanted l' → l = l'.
Proof. intros (ls & Hl & Hf) (ls' & Hl' & Hf'). rewrite (lists_unique _ _ _ _ Hl Hl') in Hf. congruence. Qed.

Lemma find_in_spec f dir wanted : coherent f →
  wp (find_in dir wanted) f (λ f' e, same f f' ∧ ∃ l, names_in f dir wanted l ∧ e = entry l)
    (λ f' e, same f f' ∧ (is_device e ∨ ∀ l, ¬ names_in f dir wanted l)).
Proof.
  intros Hc. unfold find_in. eapply wp_call; [by apply entries_spec| |].
  - intros g es [Hs (ls & Hls & ->)]. rewrite find_entry. destruct (find_located wanted ls) as [l|] eqn:Ef; cbn; wp_pure.
    + split; [done|]. exists l. split; [by exists ls|done].
    + split; [done|]. right. intros l (ls' & Hls' & Hf'). rewrite (lists_unique _ _ _ _ Hls Hls') in Ef. congruence.
  - intros g e [Hs [He|He]]; (split; [done|]); [by left|]. right. by intros l (ls & (bs & (cs & Hcs & _) & _) & _); destruct (He cs).
Qed.

Lemma walk_spec names f dir : coherent f →
  wp (walk dir names) f (λ f' d, same f f' ∧ leads f dir names d)
    (λ f' e, same f f' ∧ (is_device e ∨ ∀ d, ¬ leads f dir names d)).
Proof.
  revert f dir. induction names as [|n names IH]; intros f dir Hc; cbn [walk].
  { wp_pure. split; [by apply same_refl|done]. }
  eapply wp_call; [by apply find_in_spec| |].
  - intros g e [Hs (l & (ls & Hls & Hf) & ->)]. case_bool_decide as Hk; cbn [negb].
    + fold (dir_at (entry l)). eapply wp_mono; [apply IH, Hs| |].
      * intros h d [Hh Hd]. split; [by eapply same_trans|]. exists ls, l. split_and!; [done|done|done|]. by apply (same_leads f g names Hs).
      * intros h e [Hh [He|He]]; (split; [by eapply same_trans|]); [by left|]. right.
        intros d (ls' & l' & Hls' & Hf' & _ & Hd). rewrite (lists_unique _ _ _ _ Hls Hls') in Hf.
        rewrite Hf in Hf'. injection Hf' as <-. apply (He d). by apply (same_leads f g names Hs).
    + wp_pure. split; [done|]. right. intros d (ls' & l' & Hls' & Hf' & Hk' & _).
      rewrite (lists_unique _ _ _ _ Hls Hls') in Hf. rewrite Hf in Hf'. injection Hf' as <-. done.
  - intros g e [Hs [He|He]]; (split; [done|]); [by left|]. right. intros d (ls & l & Hls & Hf & _). eapply He. by exists ls.
Qed.

Lemma find_dir_spec f path : coherent f →
  wp (find_dir path) f (λ f' d, same f f' ∧ leads f Root (parts path) d)
    (λ f' e, same f f' ∧ (is_device e ∨ ∀ d, ¬ leads f Root (parts path) d)).
Proof. apply walk_spec. Qed.

(** ** Writing a directory back *)
Definition image_block (i : DirImage) (n : nat) : Block := take 512 (drop (n * 512) (bytes i)).

(** An image whose sectors can be written: whole blocks, distinct sectors of the volume outside the FATs. *)
Record good_image (v : Volume) (i : DirImage) : Prop := {
  gi_length : length (bytes i) = (length (sectors i) * 512)%nat;
  gi_bytes : is_bytes (bytes i);
  gi_NoDup : NoDup (sectors i);
  gi_sectors s : s ∈ sectors i → fat_start v + fat_count v * fat_size v <= s <
                                 data_start v + cluster_count v * sectors_per_cluster v }.

(** Sectors [lo..hi] of the image are on the disk, and nothing else has changed. *)
Record dir_written f f' (i : DirImage) (lo hi : nat) : Prop := {
  dw_dev : ∃ d, f' = with_device d f;
  dw_in n s : (lo ≤ n < hi)%nat → sectors i !! n = Some s → sector f' s = image_block i n;
  dw_out s : (∀ n, (lo ≤ n < hi)%nat → sectors i !! n ≠ Some s) → sector f' s = sector f s }.

Lemma image_block_block v i n : good_image v i → (n < length (sectors i))%nat → is_block (image_block i n).
Proof.
  intros [Hl Hb _ _] Hn. unfold image_block. split; [|auto with bytes]. rewrite length_take, length_drop. lia.
Qed.

Lemma dir_written_cons f d f' i lo hi s : NoDup (sectors i) → sectors i !! lo = Some s → (lo < hi)%nat →
  (∀ s', sector (with_device d f) s' = if decide (s' = s) then image_block i lo else sector f s') →
  dir_written (with_device d f) f' i (S lo) hi → dir_written f f' i lo hi.
Proof.
  intros Hn Hs Hlo Hd [[d' ->] Hin Hout]. constructor; [by exists d'| |].
  - intros n s' Hr Hs'. destruct (decide (n = lo)) as [->|]; [|apply Hin; [lia|done]].
    assert (s' = s) as -> by congruence.
    rewrite Hout; [by rewrite Hd, decide_True|]. intros m Hm Hm'. pose proof (NoDup_lookup _ _ _ _ Hn Hs Hm'). lia.
  - intros s' Hs'. rewrite Hout by (intros; apply Hs'; lia). rewrite Hd, decide_False; [done|]. intros ->.
    by eapply (Hs' lo); [lia|].
Qed.

Lemma store_from_spec n f i lo : sound (vol f) → good_image (vol f) i → (lo + n ≤ length (sectors i))%nat →
  wp (store_from n lo i : M unit) f (λ f' _, dir_written f f' i lo (lo + n))
    (λ f' e, is_device e ∧ ∃ hi, (lo ≤ hi ≤ lo + n)%nat ∧ dir_written f f' i lo hi).
Proof.
  intros Hv Hi. revert f lo Hv Hi. induction n as [|n IH]; intros f lo Hv Hi Hn; cbn [store_from].
  { wp_pure. constructor; [by exists (device f); destruct f|lia|done]. }
  wp_pure. apply wp_bind. change (Z.to_nat BLOCK_SIZE) with 512%nat. pose proof Hi as [Hl Hb Hnd Hbounds].
  eapply wp_unwrap; [apply slice_Some; split; [lia|reflexivity]|].
  replace ((lo + 1) * 512 - lo * 512)%nat with 512%nat by lia. fold (image_block i lo).
  destruct (lookup_lt_is_Some_2 (sectors i) lo ltac:(lia)) as [s Hs]. apply wp_bind. eapply wp_unwrap; [exact Hs|].
  pose proof (Hbounds s ltac:(by eapply list_elem_of_lookup_2)) as Hsb.
  apply wp_bind, write_sector_wp; [done| |by eapply image_block_block; [done|lia]| |].
  - split; [|lia]. destruct (sd_laid _ Hv). nia.
  - intros d Hd. split.
    2: { intros e. split; [by eexists|]. exists (S lo). split; [lia|]. eapply dir_written_cons; [done|done|lia|exact Hd|].
         constructor; [by exists d|lia|done]. }
    eapply wp_mono; [apply IH; [done|done|lia]| |].
    + intros g ? Hg. replace (lo + S n)%nat with (S lo + n)%nat by lia. eapply dir_written_cons; [done|done|lia|done|done].
    + intros g e [He (hi & Hhi & Hg)]. split; [done|]. exists hi. split; [lia|].
      eapply dir_written_cons; [done|done|lia|done|done].
  - intros d e Hk. split; [by eexists|]. exists lo. split; [lia|]. constructor; [by exists d|lia|].
    intros s' _. by apply with_device_same.
Qed.

(** Writing a directory leaves the FATs alone. *)
Lemma dir_written_same_fat f g i lo hi s : good_image (vol f) i → dir_written f g i lo hi →
  fat_start (vol f) <= s < fat_start (vol f) + fat_count (vol f) * fat_size (vol f) → sector g s = sector f s.
Proof.
  intros Hi [_ _ Hout] Hs. apply Hout. intros n _ Hn. apply list_elem_of_lookup_2 in Hn.
  pose proof (gi_sectors _ _ Hi s Hn). lia.
Qed.

Lemma same_fat_coherent f d : coherent f →
  (∀ s, fat_sector (vol f) s → sector (with_device d f) s = sector f s) → coherent (with_device d f) ∧
  ∀ c, in_table (vol f) c → table (with_device d f) c = table f c ∧ disk (with_device d f) c = disk f c.
Proof.
  intros [Hv Hcache Hdirty] Hs. split.
  - constructor; cbn [vol with_device fat_cache fat_dirty]; [done| |done]. intros s b Hb.
    destruct (Hcache s b Hb) as [Hf ->]. split; [done|]. symmetry. by apply Hs.
  - intros c Hc. unfold table, disk. cbn [vol with_device]. destruct (fat_position (vol f) c) as [s i] eqn:Ep.
    destruct (fat_position_bounds _ _ _ _ Hv Hc Ep) as [Hf _]. unfold fat_block. cbn [fat_dirty with_device].
    rewrite Hs by done. done.
Qed.

Lemma dir_written_keeps f g i lo hi : coherent f → good_image (vol f) i → dir_written f g i lo hi →
  coherent g ∧ vol g = vol f ∧ ∀ c, in_table (vol f) c → table g c = table f c ∧ disk g c = disk f c.
Proof.
  intros Hc Hi Hw. pose proof (dir_written_same_fat f g i lo hi) as Hf. pose proof Hw as [[d ->] _ _].
  destruct (same_fat_coherent f d Hc) as [? ?]; [|done]. intros s Hs. apply Hf; [done|done|].
  apply fat_sector_in_fats; [apply Hc|done].
Qed.
End dirs.

End FatDirs.
