(* ===== verification/FatFiles.v ===== *)
(** Files: replacing what a file holds, creating and removing files, whatever the device does.
    Theorems about [write_file], [create_dir], [remove] and [read_file] of Fat: which clusters they
    touch, and what a power cut can leave. *)
From S2P Require Import Prelude Bytes Text Effect Disk Fat FatTable FatChains FatData FatNames FatDirs.
Open Scope Z_scope.

Module FatFiles.
Import Effect Text Disk Fat FatTable FatChains FatData FatNames FatDirs.

(** * Changing one entry of a listing *)

Definition updated (first size : Z) (st : Z * Z) (e : DirEntry) : DirEntry :=
  mkDirEntry (name e) (kind e) size (mkStamp st.1 st.2) first.

Definition update_at (k : nat) (first size : Z) (st : Z * Z) (l : Located) : Located :=
  if ((slots l).2 =? S k)%nat then mkLocated (updated first size st (entry l)) (slots l) else l.

Definition changed_entry (st : Z * Z) (first size : Z) (e : list Z) : list Z :=
  set_modified st (set_cluster_and_size first size e).

Lemma changed_entry_bytes st first size e : is_bytes e → is_bytes (changed_entry st first size e).
Proof. intros. unfold changed_entry, set_modified, set_cluster_and_size. auto 10 with bytes. Qed.

(** The change touches nothing before byte 20. *)
Lemma changed_entry_fields st first size e : length e = 32%nat → uint 32 first → uint 32 size →
  uint 16 st.1 → uint 16 st.2 →
  let e' := changed_entry st first size e in
  length e' = 32%nat ∧ take 20 e' = take 20 e ∧
  u16_at e' 20 = first / 2 ^ 16 ∧ u16_at e' 26 = first mod 2 ^ 16 ∧ u32_at e' 28 = size ∧
  u16_at e' 24 = st.1 ∧ u16_at e' 22 = st.2.
Proof.
  intros Hl Hf Hs Hd Ht. do 33 (destruct e as [|? e]; try (cbn in Hl; lia)). destruct st as [d t].
  cbv zeta. split_and!; try reflexivity.
  - exact (le_bytes_high first Hf).
  - exact (le_bytes_low first).
  - exact (le_value_le_bytes 4 size Hs).
  - exact (le_value_le_bytes 2 d Hd).
  - exact (le_value_le_bytes 2 t Ht).
Qed.

Section listing.
Context `{Unicode}.

(** What parsing looks at before byte 20. *)
Lemma take_20 (e e' : list Z) : length e = 32%nat → length e' = 32%nat → take 20 e' = take 20 e →
  (∀ i, (i < 20)%nat → e' !!! i = e !!! i) ∧ take 11 e' = take 11 e ∧ take 8 e' = take 8 e ∧
  take 3 (drop 8 e') = take 3 (drop 8 e).
Proof.
  intros Hl Hl' Ht.
  assert (Hlk : ∀ i, (i < 20)%nat → e' !! i = e !! i).
  { intros i Hi. rewrite <-(lookup_take_lt e' 20), <-(lookup_take_lt e 20) by done. by rewrite Ht. }
  assert (Htk : ∀ a n, (a + n ≤ 20)%nat → take n (drop a e') = take n (drop a e)).
  { intros a n Hn. apply list_eq. intros i. destruct (decide (i < n)%nat).
    - rewrite !lookup_take_lt, !lookup_drop by done. apply Hlk. lia.
    - by rewrite !lookup_take_ge by lia. }
  split_and!; [|by apply (Htk 0%nat); lia|by apply (Htk 0%nat); lia|by apply Htk; lia].
  intros i Hi. by rewrite !list_lookup_total_alt, Hlk.
Qed.

(** The last slot of an entry comes after everything listed before it. *)
Lemma parse_from_slots t es index long_start long ls : parse_from t index long_start long es = Some ls →
  Forall (λ l, (index < (slots l).2)%nat) ls.
Proof.
  revert index long_start long ls. induction es as [|e es IH]; intros index long_start long ls; cbn [parse_from].
  { intros [= <-]. constructor. }
  assert (Hstep : ∀ ls0 st lg, parse_from t (S index) st lg es = Some ls0 → Forall (λ l, (index < (slots l).2)%nat) ls0).
  { intros ls0 st lg Hp. eapply Forall_impl; [by eapply IH|]. cbn. lia. }
  destruct (_ =? ENTRY_END); [by intros [= <-]|]. destruct (_ =? ENTRY_DELETED); [by apply Hstep|].
  destruct (Z.land _ 0x3F =? ATTR_LONG_NAME); [by intros (n & _ & Hp)%bind_Some; eapply Hstep|].
  destruct (negb _); [by apply Hstep|]. destruct (take_name _ _) as [lg ln]. destruct (is_dot _); [by apply Hstep|].
  intros (rest & Hp & [= <-])%bind_Some. constructor; [|by eapply Hstep]. destruct ln; cbn; lia.
Qed.

Lemma parse_from_bound t es index long_start long ls : parse_from t index long_start long es = Some ls →
  Forall (λ l, ((slots l).2 ≤ index + length es)%nat) ls.
Proof.
  revert index long_start long ls. induction es as [|e es IH]; intros index long_start long ls; cbn [parse_from length].
  { intros [= <-]. constructor. }
  assert (Hstep : ∀ ls0 st lg, parse_from t (S index) st lg es = Some ls0 →
    Forall (λ l, ((slots l).2 ≤ index + S (length es))%nat) ls0).
  { intros ls0 st lg Hp. eapply Forall_impl; [by eapply IH|]. cbn. lia. }
  destruct (_ =? ENTRY_END); [by intros [= <-]|]. destruct (_ =? ENTRY_DELETED); [by apply Hstep|].
  destruct (Z.land _ 0x3F =? ATTR_LONG_NAME); [by intros (n & _ & Hp)%bind_Some; eapply Hstep|].
  destruct (negb _); [by apply Hstep|]. destruct (take_name _ _) as [lg ln]. destruct (is_dot _); [by apply Hstep|].
  intros (rest & Hp & [= <-])%bind_Some. constructor; [|by eapply Hstep]. destruct ln; cbn; lia.
Qed.

(** Updating an entry does not change which one a name finds. *)
Lemma find_located_update wanted k first size st ls :
  find_located wanted (update_at k first size st <$> ls) = update_at k first size st <$> find_located wanted ls.
Proof.
  assert (Hn : ∀ l, name (entry (update_at k first size st l)) = name (entry l)).
  { intros l. unfold update_at. by destruct (_ =? _)%nat. }
  unfold find_located. induction ls as [|l ls IH]; [done|]. cbn [fmap list_fmap List.find]. rewrite Hn.
  destruct (names_match _ _); [done|]. exact IH.
Qed.

Lemma find_located_in wanted ls l : find_located wanted ls = Some l → l ∈ ls.
Proof. intros Hf. apply List.find_some in Hf as [Hin _]. by apply list_elem_of_In. Qed.

Lemma dir_entry_changed t n e st first size : length e = 32%nat → fits_type t first → uint 32 size →
  uint 16 st.1 → uint 16 st.2 → kind (dir_entry t n e) = File →
  dir_entry t n (changed_entry st first size e) = updated first size st (dir_entry t n e).
Proof.
  intros Hl Hf Hs Hd Ht. pose proof (fits_type_uint _ _ Hf) as Hf'.
  destruct (changed_entry_fields st first size e Hl Hf' Hs Hd Ht) as (Hl' & H20 & Hc1 & Hc2 & Hc3 & Hc4 & Hc5).
  destruct (take_20 e _ Hl Hl' H20) as (Hi & _). unfold dir_entry, updated. cbn [name kind].
  rewrite Hi, Hc1, Hc2, Hc3, Hc4, Hc5 by lia. destruct (negb _); [done|]. intros _. f_equal. by apply cluster_halves.
Qed.

(** Changing the entry that ends at slot [k] changes what is listed for it, and nothing else. *)
Lemma parse_from_update t es index long_start long ls k e st first size :
  parse_from t index long_start long es = Some ls → es !! k = Some e → length e = 32%nat →
  (∃ l, l ∈ ls ∧ (slots l).2 = S (index + k) ∧ kind (entry l) = File) →
  fits_type t first → uint 32 size → uint 16 st.1 → uint 16 st.2 →
  parse_from t index long_start long (<[k := changed_entry st first size e]> es) =
  Some (update_at (index + k) first size st <$> ls).
Proof.
  intros Hp Hk Hl Hex Hf Hs Hd Ht. pose proof (fits_type_uint _ _ Hf) as Hf'.
  destruct (changed_entry_fields st first size e Hl Hf' Hs Hd Ht) as (Hl' & H20 & Hc1 & Hc2 & Hc3 & Hc4 & Hc5).
  destruct (take_20 e _ Hl Hl' H20) as (Hi & H11 & H8 & H38).
  revert index long_start long ls es Hp Hk Hex. induction k as [|k IH]; intros index long_start long ls es Hp Hk Hex.
  - destruct es as [|e0 es]; [done|]. injection Hk as ->. cbn [insert list_insert parse_from] in *.
    rewrite Nat.add_0_r in *. destruct Hex as (l & Hin & Hsl & Hkind).
    assert (Hnot : ∀ ls0 sta lg, parse_from t (S index) sta lg es = Some ls0 → l ∉ ls0).
    { intros ls0 sta lg Hp0 Hin0. apply parse_from_slots in Hp0. rewrite Forall_forall in Hp0. specialize (Hp0 l Hin0). lia. }
    rewrite !Hi by lia. destruct (_ =? ENTRY_END); [injection Hp as <-; by apply elem_of_nil in Hin|].
    destruct (_ =? ENTRY_DELETED); [by eapply Hnot in Hp|].
    destruct (Z.land _ 0x3F =? ATTR_LONG_NAME); [by apply bind_Some in Hp as (n & _ & Hp); eapply Hnot in Hp|].
    destruct (negb (Z.land _ ATTR_VOLUME_ID =? 0)); [by eapply Hnot in Hp|]. rewrite H11.
    destruct (take_name (take 11 e) long) as [lg ln].
    assert (Hsn : short_name (changed_entry st first size e) = short_name e) by (unfold short_name; by rewrite H8, H38, !Hi by lia).
    rewrite Hsn. destruct (is_dot _); [by eapply Hnot in Hp|].
    apply bind_Some in Hp as (rest & Hp & [= <-]). rewrite Hp. cbn [mbind option_bind fmap list_fmap]. f_equal.
    assert (Hl0 : l = mkLocated (dir_entry t (match ln with Some n => n | None => short_name e end) e)
      (match ln with Some _ => (long_start, S index) | None => (index, S index) end)).
    { apply elem_of_cons in Hin as [->|Hin]; [done|]. by apply (Hnot _ _ _ Hp) in Hin. }
    f_equal.
    + unfold update_at. cbn [slots entry]. assert (Hs2 : ((match ln with Some _ => (long_start, S index) | None => (index, S index) end).2
        =? S index)%nat = true) by (destruct ln; apply Nat.eqb_refl).
      rewrite Hs2. f_equal. apply dir_entry_changed; try done. by rewrite Hl0 in Hkind.
    + symmetry. rewrite <-(list_fmap_id rest) at 2. apply list_fmap_ext. intros j l' Hj. unfold update_at.
      apply parse_from_slots in Hp. rewrite Forall_lookup in Hp. specialize (Hp _ _ Hj).
      by rewrite (proj2 (Nat.eqb_neq _ _)) by lia.
  - destruct es as [|e0 es]; [done|]. cbn [lookup list_lookup] in Hk. cbn [insert list_insert parse_from] in *.
    change (list_insert k (changed_entry st first size e) es) with (<[k := changed_entry st first size e]> es).
    replace (index + S k)%nat with (S index + k)%nat in * by lia.
    assert (Hrec : ∀ ls0 sta lg, parse_from t (S index) sta lg es = Some ls0 →
      (∃ l, l ∈ ls0 ∧ (slots l).2 = S (S index + k) ∧ kind (entry l) = File) →
      parse_from t (S index) sta lg (<[k := changed_entry st first size e]> es) =
      Some (update_at (S index + k) first size st <$> ls0)) by (intros; by apply IH).
    destruct (_ =? ENTRY_END); [injection Hp as <-; by destruct Hex as (l & ?%elem_of_nil & _)|].
    destruct (_ =? ENTRY_DELETED); [by apply Hrec|].
    destruct (Z.land _ 0x3F =? ATTR_LONG_NAME).
    { apply bind_Some in Hp as (n & Hn & Hp). rewrite Hn. cbn [mbind option_bind]. by apply Hrec. }
    destruct (negb (Z.land _ ATTR_VOLUME_ID =? 0)); [by apply Hrec|].
    destruct (take_name (take 11 e0) long) as [lg ln]. destruct (is_dot _); [by apply Hrec|].
    apply bind_Some in Hp as (rest & Hp & [= <-]).
    match goal with |- mbind _ ?m = _ => replace m with (Some (update_at (S index + k) first size st <$> rest)) end.
    + cbn [mbind option_bind fmap list_fmap]. f_equal. f_equal. unfold update_at. cbn [slots].
      rewrite (proj2 (Nat.eqb_neq _ _)); [done|]. destruct ln; cbn; lia.
    + symmetry. apply (Hrec rest long_start lg Hp).
      destruct Hex as (l & Hin & Hsl & Hkd). exists l. split_and!; [|done|done].
      apply elem_of_cons in Hin as [->|]; [|done]. destruct ln; cbn in Hsl; lia.
Qed.
End listing.

Section files.
Context `{LawfulDevice D E} `{Unicode}.
Implicit Types (f g h : Fat D) (s c : Z) (cs : list Z).
Local Notation M := (M D E).

(** * How states may differ *)

(** The same table, on the disk too, and the same sectors from the FATs on. *)
Record alike f g : Prop := {
  al_vol : vol g = vol f;
  al_stamp : stamp g = stamp f;
  al_coherent : coherent g;
  al_table c : in_table (vol f) c → table g c = table f c;
  al_disk c : in_table (vol f) c → disk g c = disk f c;
  al_sector s : fat_start (vol f) <= s → sector g s = sector f s }.

(** Only what [P] allows: the entries and the data of its clusters. *)
Record within f g (P : Z → Prop) : Prop := {
  wi_vol : vol g = vol f;
  wi_coherent : coherent g;
  wi_kept c : in_table (vol f) c → ¬ P c → entry_kept f g c;
  wi_sector s : data_start (vol f) <= s → (∀ c, P c → ¬ in_cluster (vol f) c s) → sector g s = sector f s }.

Lemma same_alike f g : same f g → alike f g.
Proof.
  intros Hs. pose proof Hs as []. constructor; try done; intros; [by apply same_table|by apply same_disk|by apply same_sector].
Qed.

Lemma alike_trans f g h : alike f g → alike g h → alike f h.
Proof.
  intros [Hv Hs Hc Ht Hd Hsec] [Hv' Hs' Hc' Ht' Hd' Hsec']. rewrite Hv in *.
  constructor; [congruence|congruence|done|..]; intros; [rewrite Ht'|rewrite Hd'|rewrite Hsec']; auto.
Qed.

Lemma alike_kept f g c : alike f g → in_table (vol f) c → entry_kept f g c.
Proof. intros Ha Hc Hs. unfold settled in *. by rewrite (al_table _ _ Ha), (al_disk _ _ Ha). Qed.

Lemma alike_within f g P : alike f g → within f g P.
Proof.
  intros Ha. constructor; [apply Ha|apply Ha|intros; by apply alike_kept|].
  intros s Hs _. apply Ha. destruct (sd_laid _ (co_sound _ (al_coherent _ _ Ha))) as [Hst].
  rewrite (al_vol _ _ Ha) in *. nia.
Qed.

Lemma within_trans f g h P : within f g P → within g h P → within f h P.
Proof.
  intros [Hv Hc Hk Hs] [Hv' Hc' Hk' Hs']. rewrite Hv in *. constructor; [done|done| |].
  - intros c Hr Hn. eapply entry_kept_trans; auto.
  - intros s Hd Hn. rewrite Hs' by done. by apply Hs.
Qed.

Lemma within_mono f g (P Q : Z → Prop) : (∀ c, in_range (vol f) c → P c → Q c) → (∀ c, P c → in_range (vol f) c) →
  within f g P → within f g Q.
Proof.
  intros HPQ Hr [Hv Hc Hk Hs]. constructor; [done|done| |].
  - intros c Hin Hn. apply Hk; [done|]. intros Hp. apply Hn. auto.
  - intros s Hd Hn. apply Hs; [done|]. intros c Hp. apply Hn. auto.
Qed.

Lemma touched_within f g cs (P : Z → Prop) : sound (vol f) → (∀ c, c ∈ cs → P c) → touched f g cs → within f g P.
Proof.
  intros Hv HP [Hvol Hs Hc Hk Hsec]. constructor; [done|done| |].
  - intros c Hin Hn. apply Hk; [done|]. intros Hp. auto.
  - intros s Hd Hn. apply Hsec; [|auto]. destruct (sd_laid _ Hv). lia.
Qed.

Lemma dir_written_within f g i lo hi (P : Z → Prop) : coherent f → good_image (vol f) i →
  (∀ s, s ∈ sectors i → data_start (vol f) <= s → ∃ c, P c ∧ in_cluster (vol f) c s) →
  dir_written f g i lo hi → within f g P.
Proof.
  intros Hc Hi HP Hw. destruct (dir_written_keeps f g i lo hi Hc Hi Hw) as (Hcg & Hv & Ht). pose proof Hw as [Hdev _ Hout].
  constructor; [done|done| |].
  - intros c Hin _ Hs. destruct (Ht c Hin) as [Htt Hdd]. unfold settled in *. by rewrite Htt, Hdd.
  - intros s Hd Hn. apply Hout. intros n _ Hs. apply list_elem_of_lookup_2 in Hs.
    destruct (HP s Hs Hd) as (c & HPc & Hcl). by apply (Hn c HPc).
Qed.

(** A cluster that is free after changes within [P] is in [P] or was free before. *)
Lemma within_free f g (P : Z → Prop) c : within f g P → (∀ c, table f c = 0 → in_range (vol f) c → P c) →
  (∀ c, in_table (vol f) c → settled f c) → in_range (vol f) c → table g c = 0 → ¬ ¬ P c.
Proof.
  intros Hw Hfree Hset Hr Ht Hn. pose proof (in_range_table _ _ Hr) as Hit.
  destruct (wi_kept _ _ _ Hw c Hit Hn (Hset c Hit)) as [_ He]. apply Hn, Hfree; congruence.
Qed.

Lemma clean_settled f : fat_dirty f = None → ∀ c, settled f c.
Proof. intros Hd c. unfold settled, table, disk, fat_block. rewrite Hd. done. Qed.

(** * Before and after a change *)
Lemma with_count_alike n f : coherent f → alike f (with_free_count n f).
Proof. intros [Hv Hc Hd]. by constructor. Qed.

Lemma with_next_alike n f : coherent f → alike f (with_next_free n f).
Proof. intros [Hv Hc Hd]. by constructor. Qed.

Lemma recount_alike n f : coherent f → alike f (recount n f).
Proof. intros Hc. unfold recount. destruct (free_count f); [by apply with_count_alike|by apply same_alike, same_refl]. Qed.

Lemma give_back_alike cs f : coherent f → alike f (give_back cs f).
Proof.
  intros Hc. unfold give_back. pose proof (recount_alike (Z.of_nat (length cs)) f Hc) as Hr. destruct cs; [done|].
  eapply alike_trans; [exact Hr|]. apply with_next_alike, Hr.
Qed.

Lemma begin_change_spec f : coherent f →
  wp begin_change f (λ g _, alike f g ∧ fat_dirty g = fat_dirty f) (λ g e, alike f g ∧ is_device e).
Proof.
  intros Hc. unfold begin_change. wp_pure. destruct (_ || _); wp_pure.
  { split; [by apply same_alike, same_refl|done]. }
  eapply wp_call; [by apply free_clusters_spec| |].
  - intros g n [Hs _]. wp_pure. split; [|apply Hs]. eapply alike_trans; [by apply same_alike|]. apply with_count_alike, Hs.
  - intros g e [Hs He]. split; [by apply same_alike|done].
Qed.

Lemma fsinfo_alike f d s : coherent f → s < fat_start (vol f) →
  (∀ s', s' ≠ s → sector (with_device d f) s' = sector f s') → alike f (with_device d f).
Proof.
  intros Hc Hs Hsec. destruct (same_fat_coherent f d Hc) as [Hcd Ht].
  { intros s' Hs'. apply Hsec. unfold fat_sector in Hs'. lia. }
  constructor; [done|done|done|..]; intros; [by apply Ht|by apply Ht|apply Hsec; lia].
Qed.

Lemma with_device_alike f d : coherent f → (∀ k, contents d k = contents (device f) k) → alike f (with_device d f).
Proof. intros Hc Hk. apply same_alike. constructor; try done. by apply coherent_device. Qed.

(** [finish_change] gives the result back, or fails with a device error; either way it only writes FSInfo. *)
Lemma finish_change_spec f (r : result (FatError E) unit) : coherent f →
  wp (finish_change r) f (λ g _, alike f g ∧ r = Ok tt) (λ g e, alike f g ∧ (is_device e ∨ r = Err e)).
Proof.
  intros Hc. unfold finish_change. wp_pure. pose proof (co_sound f Hc) as Hv.
  apply (wp_call _ _ _ (λ g _, alike f g) (λ g e, alike f g ∧ is_device e)).
  - destruct (fsinfo (vol f)) as [s|] eqn:Es; [|wp_pure; by apply same_alike, same_refl].
    destruct (free_count f) as [n|] eqn:En; [|wp_pure; by apply same_alike, same_refl].
    assert (Hs : 0 < s < fat_start (vol f)).
    { pose proof (sd_fsinfo _ Hv) as Hf1. pose proof (lo_fsinfo _ (sd_laid _ Hv)) as Hf2. rewrite Es in Hf1, Hf2. lia. }
    assert (Hb : 0 <= s < data_start (vol f) + cluster_count (vol f) * sectors_per_cluster (vol f)).
    { pose proof (sd_laid _ Hv) as Hl. destruct Hl. destruct (fat_type (vol f)); nia. }
    apply wp_bind, read_sector_wp; [done|done| |].
    + intros d Hk. pose proof (with_device_alike f d Hc Hk) as Ha. destruct (_ && _); [|by wp_pure].
      set (b := put 492 _ _). assert (Hblk : is_block b).
      { destruct (sector_block f s) as [Hl Hby]. unfold b. split; [|auto with bytes].
        rewrite !put_length; rewrite ?put_length; rewrite ?length_le_bytes, ?Hl; lia. }
      apply (write_sector_wp (with_device d f)); [done|done|done| |].
      * intros d' Hd'. assert (Ha' : alike f (with_device d' (with_device d f))); [|split; [done|intros e; split; [done|by eexists]]].
        eapply alike_trans; [exact Ha|]. eapply (fsinfo_alike _ d' s); [apply Ha|cbn; lia|].
        intros s' Hne. by rewrite Hd', decide_False.
      * intros d' e Hk'. split; [|by eexists]. eapply alike_trans; [exact Ha|]. apply with_device_alike; [apply Ha|done].
    + intros d e Hk. split; [by apply with_device_alike|by eexists].
  - intros g ? Ha. destruct r as [[]|e]; cbn [lift]; wp_pure; auto.
  - intros g e [Ha He]. auto.
Qed.

(** * New data in free clusters *)
Definition is_free f c : Prop := in_range (vol f) c ∧ table f c = 0.

Lemma cluster_fits v c : laid_out v → in_range v c → fits_type (fat_type v) c.
Proof. intros [] Hc. unfold in_range, fits_type, uint in *. destruct (fat_type v); lia. Qed.

Lemma chain_entry_nonzero v t first cs c : chain_is v t first cs → c ∈ cs → t c ≠ 0.
Proof.
  revert first. induction cs as [|c' cs IH]; intros first; cbn [chain_is]; [by intros _ ?%elem_of_nil|].
  intros (_ & Hr & n & Hn & Hch) [->|Hin]%elem_of_cons; [|by eapply IH]. intros Hz. rewrite Hz in Hn.
  assert (Hf : follows (fat_type v) 0 = Some (Some 0)) by (by destruct (fat_type v)). rewrite Hf in Hn. injection Hn as <-.
  destruct cs as [|c0 cs]; cbn [chain_is] in Hch; [done|]. destruct Hch as ([= <-] & Hr0 & _). unfold in_range in Hr0. lia.
Qed.

Lemma write_chain_any f data : coherent f → is_bytes data →
  wp (write_chain data) f
    (λ g first, ∃ cs, chain_of g first cs ∧ Forall (is_free f) cs ∧ touched f g cs ∧
       (fat_dirty f = None → fat_dirty g = None) ∧ (∀ c, in_table (vol f) c → c ∉ cs → table g c = table f c) ∧
       take (length data) (chain_bytes g cs) = data ∧ fits_type (fat_type (vol f)) first)
    (λ g e, (∃ cs, Forall (is_free f) cs ∧ touched f g cs) ∧
       (is_device e ∨ e = NoSpace ∧ (length (free_list f) < clusters_for (vol f) data)%nat)).
Proof.
  intros Hc Hb. destruct data as [|x data'].
  { cbn [write_chain]. wp_pure. exists []. split_and!; try done; by destruct (fat_type (vol f)). }
  set (data := x :: data') in *. assert (Hne : data ≠ []) by done. pose proof (co_sound f Hc) as Hv.
  eapply wp_mono; [by apply write_chain_spec| |].
  - intros g first (cs & (Hn & Hfree & Hch) & Hlen & Ht & Hd & Htab & Hby & _). exists cs.
    pose proof (to_vol _ _ _ Ht) as Hvg.
    assert (Hin : in_range (vol f) first) by (destruct cs; [done|]; by destruct Hch as ([= ->] & ? & _)).
    destruct (clusters_for_enough (vol f) data (sd_laid _ Hv) Hne) as [_ Hfit].
    split_and!; try done.
    + unfold chain_of. rewrite Hvg. destruct (Z.eqb_spec first 0); [|done]. unfold in_range in Hin. lia.
    + rewrite Hby, resize_grow by (rewrite Hlen; lia). by rewrite take_app_length.
    + apply cluster_fits; [apply Hv|done].
  - intros g e He. exact He.
Qed.

(** * Directory images *)
Lemma length_sector_bytes f ss : length (sector_bytes f ss) = (length ss * 512)%nat.
Proof.
  unfold sector_bytes. induction ss as [|s ss IH]; [done|]. cbn [fmap list_fmap concat length].
  rewrite length_app, IH. destruct (sector_block f s) as [-> _]. lia.
Qed.

Lemma is_bytes_sector_bytes f ss : is_bytes (sector_bytes f ss).
Proof.
  unfold sector_bytes. induction ss as [|s ss IH]; [constructor|]. cbn [fmap list_fmap concat].
  apply is_bytes_app; [apply sector_block|done].
Qed.

Lemma sector_bytes_block f ss n s : ss !! n = Some s → take 512 (drop (n * 512) (sector_bytes f ss)) = sector f s.
Proof.
  revert n. induction ss as [|s' ss IH]; intros [|n]; cbn [lookup list_lookup]; [done|done| |].
  - intros [= ->]. unfold sector_bytes. cbn [fmap list_fmap concat Nat.mul]. rewrite drop_0.
    rewrite take_app_length'; [done|]. symmetry. apply sector_block.
  - intros Hs. unfold sector_bytes. cbn [fmap list_fmap concat]. fold (sector_bytes f ss).
    replace (S n * 512)%nat with (length (sector f s') + n * 512)%nat by (destruct (sector_block f s') as [-> _]; lia).
    rewrite <-drop_drop, drop_app_length. by apply IH.
Qed.

(** Bytes that agree with the disk block by block are the disk's. *)
Lemma sector_bytes_eq f ss bs : length bs = (length ss * 512)%nat →
  (∀ n s, ss !! n = Some s → take 512 (drop (n * 512) bs) = sector f s) → sector_bytes f ss = bs.
Proof.
  revert bs. induction ss as [|s ss IH]; intros bs Hl Hb.
  { destruct bs; [done|]. cbn in Hl. lia. }
  unfold sector_bytes. cbn [fmap list_fmap concat length] in *. fold (sector_bytes f ss).
  pose proof (Hb 0%nat s eq_refl) as Hs. rewrite Nat.mul_0_l, drop_0 in Hs.
  rewrite (IH (drop 512 bs)), <-Hs; [apply take_drop|rewrite length_drop; lia|].
  intros n s' Hn. rewrite drop_drop. by rewrite <-(Hb (S n) s' Hn).
Qed.

Lemma NoDup_chain_sectors v cs : laid_out v → NoDup cs → NoDup (chain_sectors v cs).
Proof.
  intros Hl. unfold chain_sectors. induction 1 as [|c cs Hc Hn IH]; cbn [fmap list_fmap concat]; [constructor|].
  apply NoDup_app. split_and!; [apply NoDup_seqZ| |done]. intros s Hs Hin.
  apply elem_of_seqZ in Hs. fold (chain_sectors v cs) in Hin. apply elem_of_chain_sectors in Hin as (c' & Hc' & Hcl).
  apply Hc. rewrite (in_cluster_unique v c c' s Hl Hs Hcl). done.
Qed.

Lemma good_dir_image f dir cs bs : sound (vol f) → dir_clusters f dir cs → is_bytes bs →
  length bs = (length (dir_sectors (vol f) dir cs) * 512)%nat →
  good_image (vol f) (mkDirImage (dir_sectors (vol f) dir cs) bs).
Proof.
  intros Hv Hd Hb Hl. constructor; cbn [sectors bytes]; [done|done| |].
  - unfold dir_clusters, dir_sectors in *. destruct dir; [destruct (root (vol f)); [apply NoDup_seqZ|]|];
      apply NoDup_chain_sectors; (apply Hv || by eapply chain_is_NoDup).
  - intros s Hs. by eapply dir_sectors_bounds.
Qed.

(** A directory's sectors in the data area are those of its clusters. *)
Lemma dir_sectors_cluster f dir cs s : sound (vol f) → dir_clusters f dir cs → s ∈ dir_sectors (vol f) dir cs →
  data_start (vol f) <= s → ∃ c, c ∈ cs ∧ in_cluster (vol f) c s.
Proof.
  intros Hv Hd Hs Hlo. unfold dir_clusters, dir_sectors in *.
  destruct dir; [destruct (root (vol f)) as [st n|] eqn:Er|]; try by apply elem_of_chain_sectors.
  apply elem_of_seqZ in Hs. pose proof (lo_root _ (sd_laid _ Hv)) as Hroot. rewrite Er in Hroot. lia.
Qed.

(** ** One slot *)
Lemma chunks_put bs k e slot : length bs = (k * 32)%nat → length e = 32%nat → (slot < k)%nat →
  chunks 32 (put (slot * 32) e bs) = <[slot := e]> (chunks 32 bs).
Proof.
  intros Hl He Hs. assert (Hlp : length (put (slot * 32) e bs) = (k * 32)%nat) by (rewrite put_length; lia).
  rewrite (chunks_spec 32 k (put _ _ _)), (chunks_spec 32 k bs) by (done || lia).
  apply list_eq. intros i. destruct (decide (i < k)%nat) as [Hi|Hi].
  2: { rewrite !lookup_ge_None_2; [done| |]; rewrite ?length_insert, length_fmap, length_seq; lia. }
  rewrite list_lookup_fmap, lookup_seq_lt by done. cbn [fmap option_fmap option_map Nat.add].
  destruct (decide (i = slot)) as [->|Hne].
  - rewrite list_lookup_insert_eq by (rewrite length_fmap, length_seq; lia). f_equal.
    rewrite <-He at 1. apply put_field. lia.
  - rewrite list_lookup_insert_ne by done. rewrite list_lookup_fmap, lookup_seq_lt by done. cbn. f_equal.
    apply put_other; lia.
Qed.

Lemma chunks_lookup bs k slot : length bs = (k * 32)%nat → (slot < k)%nat →
  chunks 32 bs !! slot = Some (take 32 (drop (slot * 32) bs)).
Proof. intros Hl Hs. rewrite (chunks_spec 32 k) by (done || lia). by rewrite list_lookup_fmap, lookup_seq_lt by done. Qed.

Lemma store_slot_range slot : (slot / 16 = slot / 16 ∧ (S slot + 16 - 1) / 16 = S (slot / 16))%nat.
Proof.
  split; [done|]. replace (S slot + 16 - 1)%nat with (slot + 1 * 16)%nat by lia. rewrite Nat.div_add by lia. lia.
Qed.

Lemma good_slot_image f dir cs slot e : coherent f → dir_clusters f dir cs →
  let ss := dir_sectors (vol f) dir cs in
  (slot * 32 < length (sector_bytes f ss))%nat → length e = 32%nat → is_bytes e →
  good_image (vol f) (mkDirImage ss (put (slot * 32) e (sector_bytes f ss))).
Proof.
  intros Hc Hd ss Hs He Hb. assert (Hl : length (sector_bytes f ss) = (length ss * 512)%nat) by apply length_sector_bytes.
  apply good_dir_image; [apply Hc|done| |rewrite put_length; [exact Hl|lia]].
  apply put_bytes; [done|apply is_bytes_sector_bytes].
Qed.

(** The block of slots [n] is on the disk, so the directory's bytes are the image's. *)
Definition slot_stored f g (i : DirImage) (n : nat) : Prop :=
  dir_written f g i n (S n) ∧ sector_bytes g (sectors i) = bytes i.

(** Writing one slot back is one block: all of it, or nothing, and a call that fails may have done either. *)
Lemma store_slot_spec f dir cs slot e : coherent f → dir_clusters f dir cs →
  let ss := dir_sectors (vol f) dir cs in
  let bs := sector_bytes f ss in
  (slot * 32 < length bs)%nat → length e = 32%nat → is_bytes e →
  wp (store_dir (mkDirImage ss (put (slot * 32) e bs)) (slot, S slot) : M unit) f
    (λ g _, slot_stored f g (mkDirImage ss (put (slot * 32) e bs)) (slot / 16))
    (λ g e', is_device e' ∧ (slot_stored f g (mkDirImage ss (put (slot * 32) e bs)) (slot / 16) ∨
       (∃ d, g = with_device d f) ∧ ∀ s, sector g s = sector f s)).
Proof.
  intros Hc Hd ss bs Hs He Hb. unfold store_dir. cbn [fst snd].
  destruct (store_slot_range slot) as [_ ->]. replace (S (slot / 16) - slot / 16)%nat with 1%nat by lia.
  assert (Hlb : length bs = (length ss * 512)%nat) by apply length_sector_bytes.
  pose proof (Nat.div_mod_eq slot 16) as Hdm. pose proof (Nat.mod_upper_bound slot 16 ltac:(lia)) as Hm.
  assert (Hlp : length (put (slot * 32) e bs) = length bs) by (apply put_length; lia).
  assert (Hgood : good_image (vol f) (mkDirImage ss (put (slot * 32) e bs))).
  { by apply good_slot_image. }
  assert (Hall : ∀ g, dir_written f g (mkDirImage ss (put (slot * 32) e bs)) (slot / 16) (S (slot / 16)) →
    slot_stored f g (mkDirImage ss (put (slot * 32) e bs)) (slot / 16)).
  { intros g Hg. split; [done|]. cbn [sectors bytes]. apply sector_bytes_eq; [lia|].
    intros n s Hn. destruct (decide (n = slot / 16)%nat) as [->|Hne].
    + symmetry. apply (dw_in _ _ _ _ _ Hg (slot / 16)%nat s); [lia|done].
    + rewrite (dw_out _ _ _ _ _ Hg).
      * rewrite put_other by lia. by apply sector_bytes_block.
      * intros m Hm' Hs'. cbn [sectors] in Hs'. pose proof (gi_NoDup _ _ Hgood) as Hnd. cbn [sectors] in Hnd.
        pose proof (NoDup_lookup _ _ _ _ Hnd Hn Hs'). lia. }
  eapply wp_mono; [apply store_from_spec; [apply Hc|done|cbn [sectors]; lia]| |].
  - intros g ? Hg. rewrite Nat.add_1_r in Hg. by apply Hall.
  - intros g e' [He' (hi & Hhi & Hg)]. split; [done|]. destruct (decide (hi = S (slot / 16))%nat) as [->|].
    + left. by apply Hall.
    + assert (hi = slot / 16)%nat as -> by lia. right. split; [apply Hg|]. intros s. apply (dw_out _ _ _ _ _ Hg). lia.
Qed.

(** * Replacing a file *)

(** Directory [dir], of clusters [cd], has a file [wanted] with [data] in it: entry [l], clusters [cs].
    All of its entries are on the disk, so a volume mounted from it has the file too. *)
Record holds f dir cd (wanted : list Z) (l : Located) cs (data : list Z) : Prop := {
  ho_cd : dir_clusters f dir cd;
  ho_entry : names_in f dir wanted l;
  ho_file : kind (entry l) = File;
  ho_cs : chain_of f (first_cluster (entry l)) cs;
  ho_settled c : c ∈ cd ++ cs → settled f c;
  ho_size : size (entry l) = Z.of_nat (length data);
  ho_data : take (length data) (chain_bytes f cs) = data }.

(** Nothing from the FATs' end on has changed outside clusters [cs], nor their entries if they were on the disk. *)
Record spares f g cs : Prop := {
  sp_vol : vol g = vol f;
  sp_stamp : stamp g = stamp f;
  sp_coherent : coherent g;
  sp_kept c : in_table (vol f) c → c ∉ cs → entry_kept f g c;
  sp_sector s : fat_start (vol f) + fat_count (vol f) * fat_size (vol f) <= s →
    (∀ c, c ∈ cs → ¬ in_cluster (vol f) c s) → sector g s = sector f s }.

Lemma touched_spares f g cs : touched f g cs → spares f g cs.
Proof. intros []. constructor; try done. intros s Hs. apply to_sector0. lia. Qed.

Lemma left_but_spares f g cs : left_but f g cs → spares f g cs.
Proof. intros [[] Hk]. constructor; try done. intros s Hs _. apply fo_sector0. lia. Qed.

Lemma alike_spares f g : alike f g → spares f g [].
Proof.
  intros Ha. pose proof Ha as []. constructor; try done; [intros; by apply alike_kept|].
  intros s Hs _. apply al_sector0. pose proof (sd_laid _ (co_sound _ al_coherent0)) as Hl. rewrite al_vol0 in Hl. destruct Hl. nia.
Qed.

Lemma chain_bytes_ext f g cs : vol g = vol f →
  (∀ c s, c ∈ cs → in_cluster (vol f) c s → sector g s = sector f s) → chain_bytes g cs = chain_bytes f cs.
Proof.
  intros Hv Hs. unfold chain_bytes, cluster_bytes, sector_run. rewrite Hv. f_equal. apply list_fmap_ext.
  intros i c Hc. f_equal. apply list_fmap_ext. intros j s Hj. apply (Hs c); [by eapply list_elem_of_lookup_2|].
  apply list_elem_of_lookup_2, elem_of_seqZ in Hj. done.
Qed.

Lemma chain_of_range f first cs c : chain_of f first cs → c ∈ cs → in_range (vol f) c ∧ table f c ≠ 0.
Proof.
  unfold chain_of. destruct (first =? 0); [intros ->; by intros ?%elem_of_nil|]. intros Hch Hc. split.
  - apply chain_is_in_range in Hch. rewrite Forall_forall in Hch. auto.
  - by eapply chain_entry_nonzero.
Qed.

Lemma dir_clusters_range f dir cd c : dir_clusters f dir cd → c ∈ cd → in_range (vol f) c ∧ table f c ≠ 0.
Proof.
  unfold dir_clusters. intros Hd Hc.
  assert (∀ c0, chain_is (vol f) (table f) (Some c0) cd → in_range (vol f) c ∧ table f c ≠ 0).
  { intros c0 Hch. split; [apply chain_is_in_range in Hch; rewrite Forall_forall in Hch; auto|by eapply chain_entry_nonzero]. }
  destruct dir; [destruct (root (vol f))|]; eauto. subst. by apply elem_of_nil in Hc.
Qed.

Lemma dir_clusters_ext f g dir cd : vol g = vol f → (∀ c, c ∈ cd → table g c = table f c) →
  dir_clusters f dir cd → dir_clusters g dir cd.
Proof.
  intros Hv Ht. unfold dir_clusters. rewrite Hv. destruct dir; [destruct (root (vol f))|]; try done;
    apply chain_is_ext; auto.
Qed.

Lemma chain_of_ext f g first cs : vol g = vol f → (∀ c, c ∈ cs → table g c = table f c) →
  chain_of f first cs → chain_of g first cs.
Proof. intros Hv Ht. unfold chain_of. rewrite Hv. destruct (first =? 0); [done|]. by apply chain_is_ext. Qed.

(** A change elsewhere leaves a file alone. *)
Lemma spares_dir_bytes f g ds dir cd : sound (vol f) → spares f g ds → dir_clusters f dir cd →
  (∀ c, c ∈ cd → c ∉ ds) → (∀ c, c ∈ ds → in_range (vol f) c) →
  sector_bytes g (dir_sectors (vol f) dir cd) = sector_bytes f (dir_sectors (vol f) dir cd).
Proof.
  intros Hv Hs Hd Hn Hr. unfold sector_bytes. f_equal. apply list_fmap_ext. intros n s Hin. apply list_elem_of_lookup_2 in Hin.
  pose proof (dir_sectors_bounds f dir cd s Hv Hd Hin) as Hb. apply (sp_sector _ _ _ Hs); [lia|]. intros c Hc Hcl.
  pose proof (first_sector_bounds _ _ (sd_laid _ Hv) (Hr c Hc)) as Hfs.
  destruct (dir_sectors_cluster f dir cd s Hv Hd Hin) as (c' & Hc' & Hcl'); [unfold in_cluster in Hcl; lia|].
  pose proof (in_cluster_unique _ _ _ _ (sd_laid _ Hv) Hcl Hcl') as <-. by apply (Hn c).
Qed.

Lemma spares_chain_bytes f g ds cs : sound (vol f) → spares f g ds →
  (∀ c, c ∈ cs → c ∉ ds ∧ in_range (vol f) c) → chain_bytes g cs = chain_bytes f cs.
Proof.
  intros Hv Hs Hn. apply chain_bytes_ext; [apply Hs|]. intros c s Hc Hcl. destruct (Hn c Hc) as [Hnc Hr].
  apply (sp_sector _ _ _ Hs).
  - pose proof (first_sector_bounds _ _ (sd_laid _ Hv) Hr). destruct (sd_laid _ Hv). unfold in_cluster in Hcl. lia.
  - intros c' Hc' Hcl'. by rewrite (in_cluster_unique _ _ _ _ (sd_laid _ Hv) Hcl Hcl') in Hnc.
Qed.

Lemma holds_frame f g ds dir cd wanted l cs data : coherent f → spares f g ds →
  (∀ c, c ∈ ds → in_range (vol f) c) → (∀ c, c ∈ cd ++ cs → c ∉ ds) →
  holds f dir cd wanted l cs data → holds g dir cd wanted l cs data.
Proof.
  intros Hc Hs Hr Hn [Hcd (ls & (bs & (cd' & Hcd' & ->) & Hp) & Hf) Hk Hcs Hset Hsz Hda].
  rewrite (dir_clusters_unique _ _ _ _ Hcd' Hcd) in Hp. pose proof (co_sound f Hc) as Hv.
  assert (Hrange : ∀ c, c ∈ cd ++ cs → in_range (vol f) c).
  { intros c [Hi|Hi]%elem_of_app; [by apply (dir_clusters_range f dir cd c)|by apply (chain_of_range f _ cs c Hcs)]. }
  assert (Hkept : ∀ c, c ∈ cd ++ cs → settled g c ∧ table g c = table f c).
  { intros c Hi. apply (sp_kept _ _ _ Hs); auto using in_range_table. }
  assert (Hcd2 : dir_clusters g dir cd).
  { eapply dir_clusters_ext; [apply Hs| |done]. intros c Hi. apply Hkept, elem_of_app. by left. }
  constructor; [done| |done| |apply Hkept|done|].
  - exists ls. split; [|done]. eexists. split; [by exists cd|].
    rewrite (sp_vol _ _ _ Hs), (spares_dir_bytes f g ds); try done. intros c Hi. apply Hn, elem_of_app. by left.
  - eapply chain_of_ext; [apply Hs| |done]. intros c Hi. apply Hkept, elem_of_app. by right.
  - rewrite (spares_chain_bytes f g ds); try done. intros c Hi. assert (c ∈ cd ++ cs) by (apply elem_of_app; by right). auto.
Qed.

Definition last_slot (l : Located) : nat := ((slots l).2 - 1)%nat.

(** The last slot of a listed entry is inside the directory. *)
Lemma last_slot_bound t bs ls l k : parse_located t bs = Some ls → l ∈ ls → length bs = (k * 32)%nat →
  (last_slot l < k)%nat ∧ (slots l).2 = S (last_slot l).
Proof.
  intros Hp Hin Hl. pose proof (parse_from_slots _ _ _ _ _ _ Hp) as Hlo. pose proof (parse_from_bound _ _ _ _ _ _ Hp) as Hhi.
  rewrite Forall_forall in Hlo, Hhi. specialize (Hlo l Hin). specialize (Hhi l Hin).
  change DIR_ENTRY_SIZE with 32%nat in Hhi. rewrite (chunks_spec 32 k), length_fmap, length_seq in Hhi by lia.
  unfold last_slot. lia.
Qed.

(** Pointing the entry at a new chain makes the name that file. *)
Lemma repointed_holds f g dir cd wanted l first cs data : coherent f → coherent g → vol g = vol f →
  dir_clusters f dir cd → names_in f dir wanted l → kind (entry l) = File →
  (∀ c, settled g c) → (∀ c, c ∈ cd ++ cs → table g c = table f c) → chain_bytes g cs = chain_bytes f cs →
  sector_bytes g (dir_sectors (vol f) dir cd) =
    (let bs := sector_bytes f (dir_sectors (vol f) dir cd) in
     put (last_slot l * 32) (changed_entry (stamp f) first (Z.of_nat (length data)) (take 32 (drop (last_slot l * 32) bs))) bs) →
  chain_of f first cs → take (length data) (chain_bytes f cs) = data → fits_type (fat_type (vol f)) first →
  Z.of_nat (length data) < 2 ^ 32 → uint 16 (stamp f).1 → uint 16 (stamp f).2 →
  holds g dir cd wanted (update_at (last_slot l) first (Z.of_nat (length data)) (stamp f) l) cs data.
Proof.
  intros Hcf Hcg Hv Hcd (ls & (bs & (cd' & Hcd' & ->) & Hp) & Hf) Hk Hset Ht Hby Hdir Hch Hda Hfit Hlen Hs1 Hs2.
  rewrite (dir_clusters_unique _ _ _ _ Hcd' Hcd) in Hp. clear cd' Hcd'.
  set (bs := sector_bytes f (dir_sectors (vol f) dir cd)) in *. cbv zeta in Hdir.
  pose proof (find_located_in _ _ _ Hf) as Hin.
  assert (Hlb : length bs = (length (dir_sectors (vol f) dir cd) * 16 * 32)%nat) by (unfold bs; rewrite length_sector_bytes; lia).
  destruct (last_slot_bound _ _ _ _ _ Hp Hin Hlb) as [Hb Hsl].
  assert (He : update_at (last_slot l) first (Z.of_nat (length data)) (stamp f) l =
    mkLocated (updated first (Z.of_nat (length data)) (stamp f) (entry l)) (slots l)).
  { unfold update_at. by rewrite Hsl, Nat.eqb_refl. }
  assert (He32 : length (take 32 (drop (last_slot l * 32) bs)) = 32%nat) by (rewrite length_take, length_drop; lia).
  assert (Hcd2 : dir_clusters g dir cd).
  { eapply dir_clusters_ext; [done| |done]. intros c Hc. apply Ht, elem_of_app. by left. }
  constructor; [done| | | |by intros|by rewrite He|].
  - eexists. split.
    + eexists. split; [exists cd; split; [done|]; rewrite Hv; symmetry; exact Hdir|].
      rewrite Hv. unfold parse_located in *. change DIR_ENTRY_SIZE with 32%nat in *.
      rewrite (chunks_put bs (length (dir_sectors (vol f) dir cd) * 16)); [|lia| |done].
      * apply (parse_from_update _ _ 0 0 _ ls (last_slot l)); try done; [by eapply chunks_lookup|eexists; split_and!; done|unfold uint; lia].
      * apply changed_entry_fields; unfold uint; try done; [by apply fits_type_uint in Hfit|lia].
    + rewrite find_located_update, Hf. done.
  - by rewrite He.
  - rewrite He. cbn [entry updated first_cluster]. eapply chain_of_ext; [done| |done].
    intros c Hc. apply Ht, elem_of_app. by right.
  - by rewrite Hby.
Qed.

(** Freeing a chain spares every other cluster, even if it fails half way. *)
Lemma free_chain_spares f first cs : coherent f → chain_of f first cs →
  wp (free_chain first) f (λ g _, spares f g cs) (λ g e, spares f g cs ∧ is_device e).
Proof.
  intros Hc Hch.
  assert (Hu : ∀ cs', chain_of f first cs' → cs' = cs).
  { intros cs'. unfold chain_of in *. destruct (first =? 0); [congruence|]. intros. by eapply chain_is_unique. }
  eapply wp_mono; [by apply free_chain_spec| |].
  - intros g ? (cs' & h & Hch' & Hed & _ & _ & ->). rewrite (Hu _ Hch') in *. clear cs' Hch'.
    pose proof (left_but_spares _ _ _ (edited_left_but _ _ _ Hed)) as Hs.
    pose proof (alike_spares _ _ (give_back_alike cs h (edited_coherent _ _ _ Hed))) as Ha.
    destruct Hs as [Hv Hst Hco Hk Hsec], Ha as [Hv' Hst' Hco' Hk' Hsec']. rewrite Hv in *.
    constructor; [congruence|congruence|done| |].
    + intros c Hin Hn. eapply entry_kept_trans; [by apply Hk|]. apply Hk'; [done|]. by intros ?%elem_of_nil.
    + intros s Hs Hn. rewrite Hsec' by (done || by intros ? ?%elem_of_nil). by apply Hsec.
  - intros g e [[Hs [He|Hno]]|(cs' & Hch' & Hlb & He)]; [|by destruct (Hno cs)|]; (split; [|done]).
    + apply touched_spares. constructor; [apply Hs|apply Hs|apply Hs|intros; by apply same_kept|intros; by apply same_sector].
    + rewrite (Hu _ Hch') in Hlb. by apply left_but_spares.
Qed.

(** The name holds [data] in clusters that were free before. *)
Definition replaced f g dir cd wanted data : Prop :=
  ∃ l cs, holds g dir cd wanted l cs data ∧ Forall (is_free f) cs.

Lemma alike_free f g c : alike f g → is_free g c → is_free f c.
Proof.
  intros Ha [Hr Ht]. rewrite (al_vol _ _ Ha) in Hr. split; [done|]. rewrite <-(al_table _ _ Ha); [done|]. by apply in_range_table.
Qed.

Lemma alike_free_list f g : alike f g → free_list g = free_list f.
Proof.
  intros Ha. unfold free_list. rewrite (al_vol _ _ Ha).
  assert (Hr : ∀ c, c ∈ seqZ 2 (cluster_count (vol f)) → table g c = table f c).
  { intros c Hc%elem_of_seqZ. apply (al_table _ _ Ha), in_range_table. unfold in_range. lia. }
  induction (seqZ _ _) as [|c cs IH]; [done|]. rewrite !filter_cons, (Hr c) by left.
  rewrite IH by (intros; apply Hr; by right). done.
Qed.

Section replacing.
Context (f : Fat D) (dir : Dir) (wanted : list Z) (l : Located) (cd co old cs data : list Z) (first : Z).
Context (Hc : coherent f) (Hclean : fat_dirty f = None).
Context (Hold : holds f dir cd wanted l co old) (Hch : chain_of f first cs).
Context (Hda : take (length data) (chain_bytes f cs) = data) (Hfit : fits_type (fat_type (vol f)) first).
Context (Hlen : Z.of_nat (length data) < 2 ^ 32) (Hs1 : uint 16 (stamp f).1) (Hs2 : uint 16 (stamp f).2).
Context (Hapart : ∀ c, c ∈ cs → c ∉ cd).
Local Notation ss := (dir_sectors (vol f) dir cd).
Local Notation bs := (sector_bytes f (dir_sectors (vol f) dir cd)).
Local Notation new := (changed_entry (stamp f) first (Z.of_nat (length data)) (take 32 (drop (last_slot l * 32) bs))).

Lemma last_slot_inside : (last_slot l * 32 + 32 ≤ length bs)%nat.
Proof.
  destruct Hold as [Hcd (ls & (bs' & (cd' & Hcd' & ->) & Hp) & Hf) _ _ _ _ _].
  rewrite (dir_clusters_unique _ _ _ _ Hcd' Hcd) in Hp.
  assert (Hlb : length bs = (length ss * 16 * 32)%nat) by (rewrite length_sector_bytes; lia).
  destruct (last_slot_bound _ _ _ _ _ Hp (find_located_in _ _ _ Hf) Hlb). lia.
Qed.

Lemma new_slot : length new = 32%nat ∧ is_bytes new.
Proof.
  pose proof last_slot_inside as Hb. split.
  - apply changed_entry_fields; unfold uint; try done; [|by apply fits_type_uint in Hfit|lia].
    rewrite length_take, length_drop. lia.
  - apply changed_entry_bytes, is_bytes_take, is_bytes_drop, is_bytes_sector_bytes.
Qed.

(** The name is on the new file, and the old chain is as it was. *)
Definition repointed_to_new f g : Prop :=
  coherent g ∧ chain_of g (first_cluster (entry l)) co ∧ vol g = vol f ∧ stamp g = stamp f ∧
  ∃ l', holds g dir cd wanted l' cs data.

(** The block with the entry, once written, switches the name from the old file to the new one. *)
Lemma stored_repoints g : slot_stored f g (mkDirImage ss (put (last_slot l * 32) new bs)) (last_slot l / 16) →
  repointed_to_new f g.
Proof.
  pose proof last_slot_inside as Hb. destruct new_slot as [Hnl Hnb]. pose proof Hold as [Hcd Hnm Hk Hco Hset _ _].
  pose proof (co_sound f Hc) as Hv. intros [Hw Hdir]. cbn [sectors bytes] in Hdir.
  assert (Hin : (last_slot l * 32 < length bs)%nat) by lia.
  destruct (dir_written_keeps _ _ _ _ _ Hc (good_slot_image f dir cd _ _ Hc Hcd Hin Hnl Hnb) Hw) as (Hcg & Hvg & Htg).
  assert (Hrange : ∀ c, c ∈ cd ++ cs → in_range (vol f) c).
  { intros c [Hi|Hi]%elem_of_app; [by apply (dir_clusters_range f dir cd c)|by apply (chain_of_range f _ cs c Hch)]. }
  assert (Hcl : ∀ c, settled g c) by (apply clean_settled; destruct (dw_dev _ _ _ _ _ Hw) as [d ->]; done).
  unfold repointed_to_new. split_and!; [done| |done|by destruct (dw_dev _ _ _ _ _ Hw) as [d ->]|].
  { eapply chain_of_ext; [done| |done]. intros c Hi. apply Htg, in_range_table. by apply (chain_of_range f _ co c Hco). }
  eexists. apply (repointed_holds f g); try done.
  - intros c Hi. by apply Htg, in_range_table, Hrange.
  - apply chain_bytes_ext; [done|]. intros c s Hi Hcl'. apply (dw_out _ _ _ _ _ Hw). intros n _ Hs.
    apply list_elem_of_lookup_2 in Hs. cbn [sectors] in Hs.
    pose proof (first_sector_bounds _ _ (sd_laid _ Hv) (Hrange c ltac:(apply elem_of_app; by right))) as Hfs.
    destruct (dir_sectors_cluster f dir cd s Hv Hcd Hs) as (c' & Hc' & Hcl2); [unfold in_cluster in Hcl'; lia|].
    apply (Hapart c Hi). by rewrite (in_cluster_unique _ _ _ _ (sd_laid _ Hv) Hcl' Hcl2).
Qed.

Lemma store_repoints :
  wp (store_dir (mkDirImage ss (put (last_slot l * 32) new bs)) (last_slot l, S (last_slot l)) : M unit) f
    (λ g _, repointed_to_new f g) (λ g e, is_device e ∧ (repointed_to_new f g ∨ alike f g)).
Proof.
  pose proof last_slot_inside as Hb. destruct new_slot as [Hnl Hnb]. pose proof (ho_cd _ _ _ _ _ _ _ Hold) as Hcd.
  eapply wp_mono; [apply (store_slot_spec f dir cd (last_slot l)); [done|done|lia|done|done]| |].
  - intros g ? Hst. by apply stored_repoints.
  - intros g e [He [Hst|[(d & ->) Hsec]]]; (split; [done|]); [left; by apply stored_repoints|right].
    apply with_device_alike; [done|]. intros k.
    specialize (Hsec (k - start (vol f))). unfold sector in Hsec. cbn [vol with_device device] in Hsec.
    by replace (start (vol f) + (k - start (vol f))) with k in Hsec by lia.
Qed.

(** The old chain is freed only after that. *)
Lemma replace_entry_spec : (∀ c, c ∈ co → c ∉ cd ++ cs) →
  wp (replace_entry (mkDirImage ss bs) l first (Z.of_nat (length data))) f
    (λ g _, coherent g ∧ ∃ l', holds g dir cd wanted l' cs data)
    (λ g e, coherent g ∧ is_device e ∧ (holds g dir cd wanted l co old ∨ ∃ l', holds g dir cd wanted l' cs data)).
Proof.
  intros Hdis. unfold replace_entry. fold (last_slot l). pose proof last_slot_inside as Hb.
  assert (Hie : image_entry (last_slot l) (mkDirImage ss bs) = Some (take 32 (drop (last_slot l * 32) bs))).
  { unfold image_entry. change DIR_ENTRY_SIZE with 32%nat. cbn [bytes].
    replace 32%nat with ((last_slot l + 1) * 32 - last_slot l * 32)%nat at 3 by lia. apply slice_Some. split; [lia|done]. }
  apply wp_bind. eapply wp_unwrap; [exact Hie|]. wp_pure. apply wp_bind. eapply wp_unwrap.
  { unfold set_image_entry. rewrite Hie. reflexivity. }
  cbn [sectors bytes]. eapply wp_call; [exact store_repoints| |].
  - intros g ? (Hcg & Hcog & Hvg & _ & l' & Hnew).
    assert (Hframe : ∀ h, spares g h co → coherent h ∧ ∃ l', holds h dir cd wanted l' cs data).
    { intros h Hs. split; [apply Hs|]. exists l'. apply (holds_frame g h co); try done.
      - intros c Hi. by apply (chain_of_range g _ co c Hcog).
      - intros c Hi Hco'. by apply (Hdis c). }
    eapply wp_mono; [by apply free_chain_spares| |]; [by intros h ? Hs; apply Hframe|].
    intros h e [Hs He]. destruct (Hframe h Hs). auto.
  - intros g e [He [(Hcg & _ & _ & _ & Hnew)|Ha]]; [by auto|]. split_and!; [apply Ha|done|]. left.
    apply (holds_frame f g []); try done; [by apply alike_spares|by intros ? ?%elem_of_nil|by intros ? _ ?%elem_of_nil].
Qed.
End replacing.

Lemma holds_alike f g dir cd wanted l cs data : coherent f → alike f g →
  holds f dir cd wanted l cs data → holds g dir cd wanted l cs data.
Proof.
  intros Hc Ha. apply (holds_frame f g []); try done;
    [by apply alike_spares|by intros ? ?%elem_of_nil|by intros ? _ ?%elem_of_nil].
Qed.

(** Why a write may fail. *)
Definition write_error f data (e : FatError E) : Prop :=
  is_device e ∨ e = NoSpace ∧ (length (free_list f) < clusters_for (vol f) data)%nat.

(** What [write_file_inner] does once the directory is loaded. *)
Lemma replace_spec f dir cd wanted l co old data : coherent f → fat_dirty f = None →
  holds f dir cd wanted l co old → (∀ c, c ∈ co → c ∉ cd) → is_bytes data → Z.of_nat (length data) < 2 ^ 32 →
  uint 16 (stamp f).1 → uint 16 (stamp f).2 →
  let ss := dir_sectors (vol f) dir cd in
  wp (_ ← begin_change; first ← write_chain data;
      replace_entry (mkDirImage ss (sector_bytes f ss)) l first (Z.of_nat (length data))) f
    (λ g _, coherent g ∧ replaced f g dir cd wanted data)
    (λ g e, coherent g ∧ write_error f data e ∧ (holds g dir cd wanted l co old ∨ replaced f g dir cd wanted data)).
Proof.
  intros Hc Hcl Hold Hap Hb Hlen Hs1 Hs2 ss. unfold write_error.
  eapply wp_call; [by apply begin_change_spec| |].
  2: { intros g e [Ha He]. split_and!; [apply Ha|by left|left; by eapply holds_alike]. }
  intros g ? [Ha Hd]. rewrite Hcl in Hd. pose proof (holds_alike _ _ _ _ _ _ _ _ Hc Ha Hold) as Hold1.
  pose proof (al_coherent _ _ Ha) as Hcg. pose proof (al_vol _ _ Ha) as Hvg.
  assert (Hused : ∀ cs c, Forall (is_free g) cs → c ∈ cd ++ co → c ∉ cs).
  { intros cs c Hf Hi Hin. rewrite Forall_forall in Hf. destruct (Hf c Hin) as [_ Hz].
    apply elem_of_app in Hi as [Hi|Hi]; [by eapply dir_clusters_range in Hi as [_ ?]; [|apply Hold1]|
      by eapply chain_of_range in Hi as [_ ?]; [|apply Hold1]]. }
  assert (Hframe : ∀ h cs, Forall (is_free g) cs → touched g h cs → holds h dir cd wanted l co old).
  { intros h cs Hf Ht. apply (holds_frame g h cs); try done; [by apply touched_spares| |by intros c Hi; apply Hused].
    intros c Hi. rewrite Forall_forall in Hf. by apply Hf. }
  eapply wp_call; [by apply write_chain_any| |].
  2: { intros h e [(cs & Hf & Ht) He]. split_and!; [apply Ht| |left; by eapply Hframe].
       rewrite <-(alike_free_list f g), <-Hvg by done. done. }
  intros h first (cs & Hch & Hf & Ht & Hdh & Htab & Hda & Hfit). pose proof (Hframe h cs Hf Ht) as Hold2.
  assert (Hdir : sector_bytes f ss = sector_bytes h ss). {
    pose proof (spares_dir_bytes f g [] dir cd (co_sound _ Hc) (alike_spares _ _ Ha) (ho_cd _ _ _ _ _ _ _ Hold)) as Hfg.
    pose proof (spares_dir_bytes g h cs dir cd (co_sound _ Hcg) (touched_spares _ _ _ Ht) (ho_cd _ _ _ _ _ _ _ Hold1)) as Hgh.
    rewrite Hvg in Hgh. unfold ss. rewrite Hgh, Hfg; [done|by intros ? _ ?%elem_of_nil|by intros ? ?%elem_of_nil| |].
    - intros c Hi. apply (Hused cs); [done|]. apply elem_of_app. by left.
    - intros c Hi. rewrite Forall_forall in Hf. rewrite <-Hvg. by apply Hf. }
  assert (ss = dir_sectors (vol h) dir cd) as Hss by (unfold ss; by rewrite (to_vol _ _ _ Ht), Hvg).
  rewrite Hdir, Hss.
  assert (Hrep : ∀ k l', holds k dir cd wanted l' cs data → replaced f k dir cd wanted data).
  { intros k l' Hh. exists l', cs. split; [done|]. eapply Forall_impl; [exact Hf|]. intros c. by apply alike_free. }
  eapply wp_mono; [eapply (replace_entry_spec h dir wanted l cd co old cs data first); try done| |].
  - apply Ht.
  - by apply Hdh.
  - by rewrite (to_vol _ _ _ Ht).
  - by rewrite (to_stamp _ _ _ Ht), (al_stamp _ _ Ha).
  - by rewrite (to_stamp _ _ _ Ht), (al_stamp _ _ Ha).
  - intros c Hi Hcd. apply (Hused cs c Hf); [apply elem_of_app; by left|done].
  - intros c Hi [Hcd|Hcs]%elem_of_app; [by apply (Hap c)|]. apply (Hused cs c Hf); [apply elem_of_app; by right|done].
  - intros k ? (Hck & l' & Hh). split; [done|]. by eapply Hrep.
  - intros k e (Hck & He & [Hh|(l' & Hh)]); (split_and!; [done|by left|]); [by left|right]. by eapply Hrep.
Qed.

Lemma same_free f g cs : same f g → Forall (is_free g) cs → Forall (is_free f) cs.
Proof. intros Hs Hf. eapply Forall_impl; [exact Hf|]. intros c. apply alike_free. by apply same_alike. Qed.

Lemma alike_replaced f g h dir cd wanted data : coherent g → alike g h →
  replaced f g dir cd wanted data → replaced f h dir cd wanted data.
Proof. intros Hc Ha (l & cs & Hh & Hf). exists l, cs. split; [by eapply holds_alike|done]. Qed.

Lemma same_replaced f g h dir cd wanted data : same f g → replaced g h dir cd wanted data → replaced f h dir cd wanted data.
Proof. intros Hs (l & cs & Hh & Hf). exists l, cs. split; [done|by eapply same_free]. Qed.

Lemma same_write_error f g data e : same f g → write_error g data e → write_error f data e.
Proof.
  intros Hs. unfold write_error. by rewrite (alike_free_list f g), (sm_vol _ _ Hs) by (by apply same_alike).
Qed.

Lemma write_file_inner_spec f path dir cd l co old data : coherent f → fat_dirty f = None →
  leads f Root (parts (split_path path).1) dir → valid_name (split_path path).2 = true →
  holds f dir cd (split_path path).2 l co old → (∀ c, c ∈ co → c ∉ cd) →
  is_bytes data → Z.of_nat (length data) < 2 ^ 32 → uint 16 (stamp f).1 → uint 16 (stamp f).2 →
  wp (write_file_inner path data) f
    (λ g _, coherent g ∧ replaced f g dir cd (split_path path).2 data)
    (λ g e, coherent g ∧ write_error f data e ∧
       (holds g dir cd (split_path path).2 l co old ∨ replaced f g dir cd (split_path path).2 data)).
Proof.
  intros Hc Hcl Hdir Hname Hold Hap Hb Hlen Hs1 Hs2. unfold write_file_inner.
  rewrite (proj2 (Z.leb_gt _ _) Hlen). destruct (split_path path) as [parent name]. cbn [fst snd] in *.
  unfold check_name. rewrite Hname. cbn [lift]. wp_pure.
  eapply wp_call; [by apply find_dir_spec| |].
  2: { intros g e [Hs [He|Hno]]; [|by destruct (Hno dir)].
       split_and!; [apply Hs|by left|left; eapply holds_alike; [done|by apply same_alike|done]]. }
  intros g dir' [Hs Hdir']. rewrite (leads_unique _ _ _ _ _ Hdir' Hdir). clear dir' Hdir'.
  eapply wp_call; [apply load_dir_spec, Hs| |].
  2: { intros h e [Hs' [He|Hno]]. 2: { destruct (Hno cd). apply (same_dir_clusters f g); [done|apply Hold]. }
       pose proof (same_trans _ _ _ Hs Hs') as Hsh.
       split_and!; [apply Hsh|by left|left; eapply holds_alike; [done|by apply same_alike|done]]. }
  intros h [ss bs] [Hs' (cd' & Hcd' & Hss & Hbs)]. cbn [sectors bytes] in *.
  pose proof (same_trans _ _ _ Hs Hs') as Hsh. apply (same_dir_clusters f g) in Hcd'; [|done].
  pose proof Hold as [Hcd (ls & (bs' & (cd1 & Hcd1 & ->) & Hp) & Hf) Hk _ _ _ _].
  rewrite (dir_clusters_unique _ _ _ _ Hcd' Hcd) in Hss. rewrite (dir_clusters_unique _ _ _ _ Hcd1 Hcd) in Hp.
  clear cd' cd1 Hcd' Hcd1. wp_pure. rewrite (sm_vol _ _ Hs) in Hss. subst bs ss.
  rewrite (sm_vol _ _ Hsh). apply wp_bind. eapply wp_unwrap; [rewrite (same_sector_bytes f g) by done; exact Hp|].
  rewrite Hf, Hk. rewrite bool_decide_false by done.
  assert (Hh : holds h dir cd name l co old) by (eapply holds_alike; [done|by apply same_alike|done]).
  rewrite <-(same_sector_bytes g h), <-(sm_vol _ _ Hsh) by done.
  eapply wp_mono; [apply (replace_spec h dir cd name l co old data); try done| |].
  - apply Hsh.
  - by rewrite (sm_dirty _ _ Hsh).
  - by rewrite (sm_stamp _ _ Hsh).
  - by rewrite (sm_stamp _ _ Hsh).
  - intros k ? [Hck Hr]. split; [done|by eapply same_replaced].
  - intros k e (Hck & He & Hr). split_and!; [done|by eapply same_write_error|]. destruct Hr; [by left|right; by eapply same_replaced].
Qed.

(** ** Reading a file *)

(** [metadata] and the writing operations agree on the parent and the name of a path. *)
Lemma metadata_target path : (split_path path).2 ≠ [] →
  metadata path = (dir ← find_dir (split_path path).1; find_in dir (split_path path).2 : M DirEntry).
Proof.
  unfold metadata, split_path. set (p := trim_end_by (Z.eqb 0x2F) path).
  destruct (rsplit_once 0x2F p) as [[parent [|x name]]|] eqn:Er; cbn [default fst snd]; [done|done|].
  intros Hp. assert (Htr : trim_start_by (Z.eqb 0x2F) p = p).
  { destruct p as [|x p']; [done|]. cbn [trim_start_by]. destruct (Z.eqb_spec 0x2F x) as [<-|]; [|done].
    apply rsplit_once_None in Er. destruct Er. by left. }
  rewrite Htr. by destruct p.
Qed.

End files.
End FatFiles.
