(* ===== verification/FatProps.v ===== *)
(** What the FAT driver promises, stated of Fat and proved with the lemmas of the FatTable, FatChains,
    FatData, FatNames, FatDirs and FatFiles files, and a small volume on a disk in memory that the
    statements are evaluated on. *)
From S2P Require Import Prelude Bytes Text Effect Disk Fat FatTable FatChains FatData FatNames FatDirs FatFiles.
Open Scope Z_scope.

(** * A volume
    FAT16, one sector per cluster, two FATs of 16 sectors, a root directory of 16 entries, 4085 clusters.
    The root holds one file, a.txt, of three bytes in cluster 2. *)
Module FatDemo.
Import Effect Text Disk MemDisk Fat.
#[local] Existing Instance ascii_only.

Definition padded (bytes : list Z) : Block := bytes ++ replicate (512 - length bytes) 0.

Definition boot : Block :=
  let b := put 11 (le_bytes 2 512 ++ [1] ++ le_bytes 2 1 ++ [2] ++ le_bytes 2 16 ++ le_bytes 2 4119) (replicate 512 0) in
  put 510 [0x55; 0xAA] (put 43 (replicate 11 0x20) (put 22 (le_bytes 2 16) b)).

(** Entries 0 and 1 are reserved; cluster 2 ends its chain. *)
Definition fat : Block := padded [0xF8; 0xFF; 0xFF; 0xFF; 0xFF; 0xFF].

(** The name A.TXT, in lower case. *)
Definition file_entry : list Z :=
  short_entry [0x41; 0x20; 0x20; 0x20; 0x20; 0x20; 0x20; 0x20; 0x54; 0x58; 0x54] 0x18 ATTR_ARCHIVE 2 3 DEFAULT_STAMP.

Definition old : list Z := [0x6F; 0x6C; 0x64].

(** [budget] writes are left before the power goes. *)
Definition disk (budget : option nat) : MemDisk :=
  mkMemDisk (list_to_map [(0, boot); (1, fat); (17, fat); (33, padded file_entry); (34, padded old)]) 4119 budget.

Definition v : Volume := mkVolume 0 Fat16 1 1 (Fixed 33 1) 34 4085 [] 2 16 None.

Definition fs (budget : option nat) : Fat MemDisk := mkFat (disk budget) v None None None DEFAULT_STAMP 2.

(** /a.txt and /new.txt. *)
Definition a_txt : list Z := [0x2F; 0x61; 0x2E; 0x74; 0x78; 0x74].

Lemma mounts : mount (E:=DiskError) (disk None) 0 = Ok (fs None).
Proof. vm_compute. reflexivity. Qed.

Import FatTable FatChains FatData FatNames FatDirs FatFiles.

Lemma is_sound : sound v.
Proof. constructor; [constructor|..]; cbn; rewrite ?Z.pow_pos_fold; try lia; done. Qed.

Lemma is_coherent budget : coherent (fs budget).
Proof. constructor; [exact is_sound|done|done]. Qed.

(** What the volume holds. *)
Definition located : Located := mkLocated (mkDirEntry [0x61; 0x2E; 0x74; 0x78; 0x74] File 3 (mkStamp 23585 0) 2) (0, 1)%nat.

Lemma holds_a budget : holds (fs budget) Root [] [0x61; 0x2E; 0x74; 0x78; 0x74] located [2] old.
Proof.
  constructor; [done| |done| |by intros c _; apply clean_settled|done|by vm_compute].
  - exists [located]. split; [|by vm_compute]. eexists. split; [by exists []|]. by vm_compute.
  - unfold chain_of. cbn [first_cluster entry located Z.eqb chain_is]. split_and!; [done|unfold in_range; cbn; lia|].
    exists None. split; [by vm_compute|done].
Qed.
End FatDemo.

Module FatProps.
Import Effect Text Disk MemDisk Fat FatTable FatChains FatData FatNames FatDirs FatFiles.

(** * Operations on the FAT *)
Inductive FatOp := Get (c : Z) | Put (c x : Z) | Flush.

Definition op_ok (v : Volume) (o : FatOp) : Prop :=
  match o with
  | Get c => in_table v c
  | Put c x => in_table v c ∧ value_ok (fat_type v) x
  | Flush => True
  end.

(** The table the driver stands for: a function from clusters to values. *)
Fixpoint spec_ops (t : Z → Z) (ops : list FatOp) : list Z * (Z → Z) :=
  match ops with
  | [] => ([], t)
  | Get c :: ops => let '(xs, t') := spec_ops t ops in (t c :: xs, t')
  | Put c x :: ops => spec_ops (λ c', if decide (c' = c) then x else t c') ops
  | Flush :: ops => spec_ops t ops
  end.

Section claims.
Context `{LawfulDevice D E}.
Implicit Types (f g h : Fat D) (c : Z) (cs : list Z).
Local Notation M := (M D E).

Fixpoint run_ops (ops : list FatOp) : M (list Z) :=
  match ops with
  | [] => mret []
  | Get c :: ops => x ← fat_entry c; xs ← run_ops ops; mret (x :: xs)
  | Put c x :: ops => _ ← set_fat_entry c x; run_ops ops
  | Flush :: ops => _ ← flush_fat; run_ops ops
  end.

Lemma run_ops_spec ops f t : coherent f → Forall (op_ok (vol f)) ops → (∀ c, in_table (vol f) c → table f c = t c) →
  wp (run_ops ops) f
    (λ g xs, vol g = vol f ∧ xs = (spec_ops t ops).1 ∧ (∀ c, in_table (vol f) c → table g c = (spec_ops t ops).2 c) ∧
             (mirrored f → mirrored g) ∧ (last ops = Some Flush → ∀ c, disk g c = table g c))
    (λ g e, is_device e ∧ coherent g).
Proof.
  revert f t. induction ops as [|o ops IH]; intros f t Hc Hok Ht; cbn [run_ops spec_ops].
  { wp_pure. done. }
  apply Forall_cons in Hok as [Ho Hok]. destruct o as [c|c x|]; cbn [op_ok] in Ho.
  - eapply wp_call; [by apply fat_entry_spec| |]; [|intros g e [Hs He]; split; [done|apply Hs]].
    intros g x [Hs ->]. pose proof (sm_vol _ _ Hs) as Hv.
    eapply wp_call; [apply (IH g t); [apply Hs|by rewrite Hv|]| |done].
    { intros c' Hc'. rewrite (same_table f g) by done. apply Ht. by rewrite <-Hv. }
    intros h xs (Hvh & -> & Hth & Hm & Hl). wp_pure. rewrite Hv in *. destruct (spec_ops t ops) as [xs t'] eqn:Es.
    split_and!; [done|cbn [fst]; by rewrite Ht|done|intros; by apply Hm, (same_mirrored f)|].
    destruct ops; [done|exact Hl].
  - destruct Ho as [Hin Hx]. eapply wp_call; [by apply set_fat_entry_spec| |]; [|intros g e [Hs He]; split; [done|apply Hs]].
    intros g ? Hch. pose proof (fo_vol _ _ (ch_only _ _ _ _ Hch)) as Hv.
    eapply wp_mono; [apply (IH g (λ c', if decide (c' = c) then x else t c')); [apply (ch_only _ _ _ _ Hch)|by rewrite Hv|]| |done].
    { intros c' Hc'. rewrite Hv in Hc'. rewrite (ch_table _ _ _ _ Hch) by done. case_decide; [done|by apply Ht]. }
    intros h xs (Hvh & -> & Hth & Hm & Hl). rewrite Hv in *.
    split_and!; [done|done|done|intros; by apply Hm, (ch_mirrored _ _ _ _ Hch)|]. destruct ops; [done|exact Hl].
  - eapply wp_call; [by apply flush_fat_spec| |]; [|intros g e [Hs He]; split; [done|apply Hs]].
    intros g ? Hfl. pose proof (fo_vol _ _ (fl_only _ _ Hfl)) as Hv.
    destruct ops as [|o ops].
    { cbn [run_ops spec_ops fst snd]. wp_pure. split_and!; [done|done| |apply Hfl|intros _ c; apply clean_settled, Hfl].
      intros c Hin. rewrite <-Ht by done. by apply (flushed_table f g). }
    eapply wp_mono; [apply (IH g t); [apply (fl_only _ _ Hfl)|by rewrite Hv|]| |done].
    { intros c Hin. rewrite Hv in Hin. rewrite <-Ht by done. by apply (flushed_table f g). }
    intros h xs (Hvh & -> & Hth & Hm & Hl). rewrite Hv in *. split_and!; [done|done|done| |exact Hl].
    intros. by apply Hm, Hfl.
Qed.

(** C17: Behind its clean sector and its pending sector, the driver keeps one table. Any sequence of FAT
    reads, FAT writes and flushes gives the values a plain map from clusters to entries would give, leaves
    the table that map, keeps the copies of the FAT equal, and after a flush has all of it on the disk. It
    fails only if the device does. *)
Theorem fat_is_one_table f ops : coherent f → Forall (op_ok (vol f)) ops →
  wp (run_ops ops) f
    (λ g xs, vol g = vol f ∧ xs = (spec_ops (table f) ops).1 ∧
             (∀ c, in_table (vol f) c → table g c = (spec_ops (table f) ops).2 c) ∧
             (mirrored f → mirrored g) ∧ (last ops = Some Flush → ∀ c, disk g c = table g c))
    (λ g e, is_device e ∧ coherent g).
Proof. intros Hc Hok. by apply run_ops_spec. Qed.

(** C18: A volume that mounts is the one its boot sector describes: sizes and counts are the fields of that sector (the
    long ones where the short ones are 0), the FATs follow the reserved area, the root directory of FAT16 follows
    them, the data area follows that, and every number fits its type.  Its clusters are all that are whole: each
    is a run of sectors in the data area, within the sectors the boot sector says the volume has, and no
    two clusters share a sector. *)
Theorem mounted_volume_is_laid_out (d : D) at_ f : uint 32 at_ → mount (E:=E) d at_ = Ok f →
  let boot := contents d at_ in
  laid_out (vol f) ∧ described boot (vol f) ∧ start (vol f) = at_ ∧ fat_cache f = None ∧ fat_dirty f = None ∧
  (∀ c, in_range (vol f) c → data_start (vol f) <= first_sector (vol f) c ∧
     first_sector (vol f) c + sectors_per_cluster (vol f) <= total_sectors boot ∧
     data_start (vol f) + cluster_count (vol f) * sectors_per_cluster (vol f) < 2 ^ 32) ∧
  ∀ c c' s, in_cluster (vol f) c s → in_cluster (vol f) c' s → c = c'.
Proof.
  intros Hat. unfold mount. destruct (read_block at_ d) as [d' [boot|e]] eqn:Er; [|done].
  destruct (read_block_spec _ _ _ _ Er) as [_ Hb]; [unfold in_reach, uint in *; lia|]. pose proof (contents_block d at_) as Hblk. rewrite <-(Hb _ eq_refl) in Hblk.
  destruct (boot_volume at_ boot) as [v|e] eqn:Ev; cbn [mbind result_bind]; [|done]. intros <-%Ok_inj. cbv zeta. cbn [vol fat_cache fat_dirty].
  rewrite <-(Hb _ eq_refl). destruct (boot_volume_laid_out _ _ _ (proj1 Hat) Hblk Ev) as [Hl Hs]. pose proof (boot_volume_described _ _ _ Hblk Ev) as Hd.
  split_and!; try done.
  - intros c Hc. pose proof (first_sector_bounds _ _ Hl Hc). pose proof (lo_end _ Hl). pose proof (de_inside _ _ Hd). lia.
  - intros c c' s. by apply in_cluster_unique.
Qed.

(** The clusters [allocate] hands out are as many as asked for, distinct, clusters of the volume and free;
    it changes neither the disk nor the table. It says there is no space exactly when fewer are free. *)
Theorem allocated_clusters_are_free f count : coherent f →
  wp (allocate count) f
    (λ g cs, length cs = count ∧ NoDup cs ∧ Forall (λ c, 2 <= c < cluster_count (vol f) + 2 ∧ table f c = 0) cs ∧
       (count ≤ length (free_list f))%nat ∧ (∀ s, sector g s = sector f s) ∧ ∀ c, table g c = table f c)
    (λ g e, same f g ∧ (is_device e ∨ e = NoSpace ∧ (length (free_list f) < count)%nat)).
Proof.
  intros Hc. eapply wp_mono; [by apply allocate_spec| |done].
  intros g0 cs (g & n & Hs & -> & Hlen & Hn & Hfree). split_and!; try done.
  - rewrite <-Hlen. apply submseteq_length, NoDup_submseteq; [done|]. intros c Hin. apply elem_of_free_list.
    rewrite Forall_forall in Hfree. by apply Hfree.
  - intros s. by apply (same_sector f g).
  - intros c. by apply (same_table f g).
Qed.

(** C19: What [write_chain] stores is what [read_chain] reads: byte for byte, for data of any length and
    whatever runs the free clusters form, from clusters that were free; every other entry of the FAT that was
    on the disk and every sector of other clusters is as before. *)
Theorem stored_data_reads_back f data : coherent f → is_bytes data → data ≠ [] →
  wp (first ← write_chain data; r ← read_chain first (Some (Z.of_nat (length data))); mret (first, r)) f
    (λ g '(first, r), r = data ∧ ∃ cs, fresh_chain f g first cs ∧ length cs = clusters_for (vol f) data ∧ touched f g cs)
    (λ g e, is_device e ∨ e = NoSpace ∧ (length (free_list f) < clusters_for (vol f) data)%nat).
Proof.
  intros Hc Hb Hne. eapply wp_call; [by apply write_chain_spec| |by intros g e [_ He]].
  intros g first (cs & (Hn & Hfree & Hch) & Hlen & Ht & Hd & Htab & Hby & _).
  pose proof (to_vol _ _ _ Ht) as Hv. rewrite <-Hv in Hch.
  destruct (clusters_for_enough (vol f) data (sd_laid _ (co_sound _ Hc)) Hne) as [_ Hfit].
  assert (Hd' : take (length data) (chain_bytes g cs) = data).
  { rewrite Hby, resize_grow by (rewrite Hlen; lia). by rewrite take_app_length. }
  eapply wp_call; [apply read_chain_spec; [apply Ht|intros ? [= <-]; lia]| |].
  - intros h r (Hs & Hr & _). wp_pure. rewrite (Hr cs), Nat2Z.id, Hd'; [|destruct data; done|done]. split; [done|].
    exists cs. split_and!; [split_and!; [done|done|]|done|].
    + rewrite Hv in Hch. eapply chain_is_ext; [|exact Hch]. intros c _. by apply same_table.
    + eapply touched_trans; [exact Ht|by apply same_touched].
  - intros h e [Hs [[He|Hno]|(l & -> & [= <-] & Hlt)]]; [by left|by destruct (Hno cs)|].
    specialize (Hlt cs Hch). apply (f_equal length) in Hd'. rewrite length_take in Hd'. lia.
Qed.

(** C37: [read_chain] reads runs of neighbouring clusters at once, up to a bound; what it returns is the
    chain's clusters read one at a time, cut at the limit. It fails only if the device does, if the FAT has
    no chain there, or if the chain is shorter than the limit. *)
Theorem runs_read_like_clusters f first limit : coherent f → (∀ l, limit = Some l → 0 < l) →
  wp (read_chain first limit) f
    (λ g r, same f g ∧ ∀ cs, chain_is (vol f) (table f) (Some first) cs →
       r = match limit with
           | Some l => take (Z.to_nat l) (concat (cluster_bytes f <$> cs))
           | None => concat (cluster_bytes f <$> cs)
           end)
    (λ g e, same f g ∧ (is_device e ∨ (∀ cs, ¬ chain_is (vol f) (table f) (Some first) cs) ∨
       ∃ l, e = Truncated ∧ limit = Some l ∧
         ∀ cs, chain_is (vol f) (table f) (Some first) cs → Z.of_nat (length (concat (cluster_bytes f <$> cs))) < l)).
Proof.
  intros Hc Hl. eapply wp_mono; [apply read_chain_spec; [done|]| |].
  - intros l Hl'. specialize (Hl l Hl'). lia.
  - intros g r (Hs & Hr & _). split; [done|]. intros cs Hch. apply (Hr cs); [|done].
    intros ->. specialize (Hl 0 eq_refl). lia.
  - intros g e [Hs [[He|Hno]|Ht]]; auto.
Qed.
(** ** The free count *)
Definition counted f : Prop := free_count f = Some (Z.of_nat (length (free_list f))).

(** Taking [cs] out of the free clusters of [f] leaves those of [g]. *)
Lemma free_list_taken f g cs : vol g = vol f → NoDup cs → (∀ c, c ∈ cs → is_free f c) → (∀ c, c ∈ cs → table g c ≠ 0) →
  (∀ c, in_table (vol f) c → c ∉ cs → table g c = table f c) → free_list f ≡ₚ cs ++ free_list g.
Proof.
  intros Hv Hn Hfree Hused Hsame. apply NoDup_Permutation; [apply NoDup_free_list| |].
  { apply NoDup_app. split_and!; [done| |apply NoDup_free_list]. intros c Hc [_ Hz]%elem_of_free_list. by apply (Hused c). }
  intros c. rewrite elem_of_app, !elem_of_free_list, Hv. split.
  - intros [Hr Hz]. destruct (decide (c ∈ cs)); [by left|right]. split; [done|]. rewrite Hsame; auto using in_range_table.
  - intros [Hin|[Hr Hz]]; [by apply Hfree|]. split; [done|]. destruct (decide (c ∈ cs)) as [Hin|Hin]; [by apply Hfree|].
    rewrite <-Hsame; auto using in_range_table.
Qed.

Lemma free_list_small f : coherent f → Z.of_nat (length (free_list f)) < 2 ^ 32.
Proof.
  intros Hc. destruct (sd_laid _ (co_sound _ Hc)). pose proof (length_filter (λ c, table f c = 0) (seqZ 2 (cluster_count (vol f)))) as Hl.
  unfold free_list. rewrite length_seqZ in Hl. destruct (fat_type (vol f)); lia.
Qed.

Lemma free_chain_counts f first : coherent f → counted f → wp (free_chain first) f (λ g _, counted g) (λ _ _, True).
Proof.
  intros Hc Hn. eapply wp_mono; [by apply free_chain_spec| |done].
  intros g0 ? (cs & g & Hch & Hed & Hz & _ & ->). pose proof (edited_vol _ _ _ Hed) as Hv.
  assert (Hused : ∀ c, c ∈ cs → in_range (vol f) c ∧ table f c ≠ 0) by (intros c; by apply (chain_of_range f first)).
  assert (Hnd : NoDup cs).
  { unfold chain_of in Hch. destruct (first =? 0); [subst; constructor|by eapply chain_is_NoDup]. }
  assert (Hp : free_list g ≡ₚ cs ++ free_list f).
  { apply free_list_taken; [done|done| |by apply Hused|].
    - intros c Hin. split; [rewrite Hv; by apply Hused|by apply Hz].
    - intros c Hin Hnin. rewrite Hv in Hin. symmetry. by apply (ed_table _ _ _ Hed). }
  pose proof (give_back_alike cs g (edited_coherent _ _ _ Hed)) as Ha. unfold counted. rewrite (alike_free_list _ _ Ha), Hp, length_app.
  pose proof (free_list_small g (edited_coherent _ _ _ Hed)) as Hs. rewrite Hp, length_app in Hs.
  assert (Hw : free_count (give_back cs g) = Some (wrap 32 (Z.of_nat (length (free_list f)) + Z.of_nat (length cs)))).
  { unfold give_back, recount. rewrite (fo_free _ _ (ed_only _ _ _ Hed)), Hn. by destruct cs. }
  rewrite Hw, wrap_small by (unfold uint; lia). f_equal. lia.
Qed.

Lemma write_chain_counts f data : coherent f → counted f → is_bytes data →
  wp (write_chain data) f (λ g _, counted g) (λ _ _, True).
Proof.
  intros Hc Hn Hb. destruct data as [|x data']; [by cbn [write_chain]; wp_pure|]. set (data := x :: data') in *.
  eapply wp_mono; [by apply write_chain_spec| |done].
  intros g first (cs & (Hnd & Hfree & Hch) & Hlen & Ht & _ & Htab & _ & Hcount). unfold counted.
  pose proof (to_vol _ _ _ Ht) as Hv. rewrite Forall_forall in Hfree.
  assert (Hp : free_list f ≡ₚ cs ++ free_list g).
  { apply free_list_taken; [done|done|done| |done]. intros c Hin. by eapply chain_entry_nonzero. }
  pose proof (free_list_small f Hc) as Hs. rewrite Hcount, Hn. cbn [fmap option_fmap option_map].
  rewrite Hp, length_app in Hs |- *. rewrite wrap_small by (unfold uint; lia). f_equal. lia.
Qed.

(** The number of free clusters the driver keeps stays exact: if it counts the free entries of the FAT,
    it still does after any chain has been stored and after any chain has been freed. *)
Theorem free_count_stays_exact f : coherent f → counted f →
  (∀ data, is_bytes data → wp (write_chain data) f (λ g _, counted g) (λ _ _, True)) ∧
  ∀ first, wp (free_chain first) f (λ g _, counted g) (λ _ _, True).
Proof. intros Hc Hn. split; intros; [by apply write_chain_counts|by apply free_chain_counts]. Qed.

(** ** Files *)
Context `{Unicode}.

(** Reading a file gives exactly the bytes it holds, changes nothing, and fails only if the device does. *)
Theorem read_file_gives_its_bytes f path dir cd l cs data : coherent f →
  leads f Root (parts (split_path path).1) dir → (split_path path).2 ≠ [] →
  holds f dir cd (split_path path).2 l cs data →
  wp (read_file path) f (λ g r, same f g ∧ r = data) (λ g e, same f g ∧ is_device e).
Proof.
  intros Hc Hdir Hne [Hcd Hnm Hk Hcs _ Hsz Hda]. unfold read_file. rewrite metadata_target by done.
  apply (wp_call _ _ _ (λ g e, same f g ∧ e = entry l) (λ g e, same f g ∧ is_device e)).
  - eapply wp_call; [by apply find_dir_spec| |].
    2: { intros g e [Hs [He|Hno]]; [done|by destruct (Hno dir)]. }
    intros g dir' [Hs Hdir']. rewrite (leads_unique _ _ _ _ _ Hdir' Hdir).
    assert (Hn : ∀ l', names_in g dir (split_path path).2 l' ↔ names_in f dir (split_path path).2 l').
    { intros l'. unfold names_in. by setoid_rewrite (same_lists f g dir _ Hs). }
    eapply wp_mono; [apply find_in_spec, Hs| |].
    + intros h e [Hs' (l' & Hl' & ->)]. apply Hn in Hl'. rewrite (names_in_unique _ _ _ _ _ Hl' Hnm).
      split; [by eapply same_trans|done].
    + intros h e [Hs' [He|Hno]]; [split; [by eapply same_trans|done]|]. destruct (Hno l). by apply Hn.
  - intros g e [Hs ->]. rewrite Hk, Hsz, bool_decide_true by done. cbn [negb].
    destruct data as [|x data']. { unfold read_chain. rewrite bool_decide_true by done. by wp_pure. }
    set (data := x :: data') in *. assert (Hch : chain_is (vol g) (table g) (Some (first_cluster (entry l))) cs).
    { unfold chain_of in Hcs. destruct (_ =? 0); [by subst cs|]. rewrite (sm_vol _ _ Hs).
      eapply chain_is_ext; [|done]. intros c _. by apply same_table. }
    assert (Hdg : take (length data) (chain_bytes g cs) = data) by (by rewrite (same_chain_bytes f g)).
    eapply wp_mono; [apply read_chain_spec; [apply Hs|intros ? [= <-]; lia]| |].
    + intros h r (Hs' & Hr & _). split; [by eapply same_trans|]. rewrite (Hr cs) by done. by rewrite Nat2Z.id.
    + intros h e [Hs' [[He|Hno]|(n & -> & Hn & Hlt)]]; (split; [by eapply same_trans|]); [done|by destruct (Hno cs)|]. apply (inj Some) in Hn as <-. clearbody data.
      specialize (Hlt cs Hch). apply (f_equal length) in Hdg. rewrite length_take in Hdg. lia.
  - done.
Qed.

(** C6: Replacing a file is atomic, on any device that obeys the block interface. If [write_file] succeeds,
    the name holds the new data, in clusters that were free before. If it fails, because the device did at
    any write (before or after the write took place) or because the free clusters are too few, the name holds the old data, untouched, or the new
    data; never a mixture, a shortened file or no file. Either way everything the file needs is on the disk,
    so the same is true of the volume mounted again after the power was cut. *)
Theorem replacing_is_atomic f path dir cd l co old data : coherent f → fat_dirty f = None →
  leads f Root (parts (split_path path).1) dir → valid_name (split_path path).2 = true →
  holds f dir cd (split_path path).2 l co old → (∀ c, c ∈ co → c ∉ cd) →
  is_bytes data → Z.of_nat (length data) < 2 ^ 32 → uint 16 (stamp f).1 → uint 16 (stamp f).2 →
  wp (write_file path data) f
    (λ g _, replaced f g dir cd (split_path path).2 data)
    (λ g e, write_error f data e ∧
       (holds g dir cd (split_path path).2 l co old ∨ replaced f g dir cd (split_path path).2 data)).
Proof.
  intros Hc Hcl Hdir Hname Hold Hap Hb Hlen Hs1 Hs2. unfold write_file. apply wp_bind, wp_catch.
  eapply wp_mono; [by eapply (write_file_inner_spec f path dir cd l co old)| |].
  - intros g [] [Hcg Hr]. eapply wp_mono; [by apply finish_change_spec| |].
    + intros h ? [Ha _]. by eapply alike_replaced.
    + intros h e [Ha [He|?]]; [|done]. split; [by left|right; by eapply alike_replaced].
  - intros g e (Hcg & He & Hr). eapply wp_mono; [by apply finish_change_spec| |]; [by intros h ? [_ ?]|].
    intros h e' [Ha He']. split; [destruct He' as [?|[= ->]]; [by left|done]|].
    destruct Hr; [left; by eapply holds_alike|right; by eapply alike_replaced].
Qed.

(** What a new entry's slots say is what the directory then lists: wherever they are put, after whatever
    complete entries and before whatever others, parsing them gives that name, in exactly those slots, with
    that cluster, size and time. So every name without U+FFFF that [check_name] accepts reads back as it is,
    whether it fits an 8.3 name or needs long-name slots and an alias. *)
Theorem new_name_reads_back t name taken attr cluster size date time : storable name →
  Z.of_nat (length taken) < 10 ^ 7 - 1 → attr = ATTR_ARCHIVE ∨ attr = ATTR_DIRECTORY →
  fits_type t cluster → uint 32 size → uint 16 date → uint 16 time →
  ∃ es, new_entries name taken attr cluster size (date, time) = Some es ∧
    ∀ index long_start long rest, units long = [] → ∃ long_start' long', units long' = [] ∧
      parse_from t index long_start long (es ++ rest) =
      (ls ← parse_from t (index + length es) long_start' long' rest;
       Some (mkLocated (made_entry t name attr cluster size (date, time)) (index, index + length es)%nat :: ls)).
Proof.
  intros Hn Ht Ha Hc Hs Hd Hti.
  destruct (new_entries_back t name taken attr cluster size date time Hn Ht Ha Hc Hs Hd Hti) as (es & He & _ & _ & Hp).
  exists es. split; [done|]. intros index long_start long rest Hl.
  destruct (Hp index long_start long rest Hl) as (ls' & lg' & Hu & _ & _ & Hpp). eauto.
Qed.
End claims.

#[local] Existing Instance ascii_only.

Lemma fat_is_one_table_witness :
  Forall (op_ok (vol (FatDemo.fs None))) [Put 2 3; Put 300 0xFFFF; Get 2; Flush] ∧
  ∃ g, run_ops [Put 2 3; Put 300 0xFFFF; Get 2; Flush] (FatDemo.fs None) = Ret g [3] ∧ disk g 300 = 0xFFFF.
Proof.
  assert (Hok : Forall (op_ok (vol (FatDemo.fs None))) [Put 2 3; Put 300 0xFFFF; Get 2; Flush]).
  { repeat constructor; cbn; lia. }
  split; [exact Hok|]. pose proof (fat_is_one_table (FatDemo.fs None) _ (FatDemo.is_coherent None) Hok) as Hw.
  assert (Hx : (spec_ops (table (FatDemo.fs None)) [Put 2 3; Put 300 0xFFFF; Get 2; Flush]).1 = [3]) by (vm_compute; reflexivity).
  assert (Hy : (spec_ops (table (FatDemo.fs None)) [Put 2 3; Put 300 0xFFFF; Get 2; Flush]).2 300 = 0xFFFF) by (vm_compute; reflexivity).
  destruct (wp_returns _ _ _ _ Hw ltac:(vm_compute; reflexivity)) as (g & xs & Hr & Hv & Hxs & Ht & _ & Hd).
  exists g. rewrite Hr, Hxs, Hx. split; [reflexivity|]. rewrite (Hd eq_refl), Ht, Hy; [reflexivity|]. split; cbn; lia.
Defined.
Lemma mounted_volume_is_laid_out_witness : laid_out (vol (FatDemo.fs None)).
Proof.
  pose proof (mounted_volume_is_laid_out (E:=DiskError) (FatDemo.disk None) 0 (FatDemo.fs None) ltac:(unfold uint; lia) FatDemo.mounts) as Hm.
  apply Hm.
Defined.

Lemma allocated_clusters_are_free_witness : ∃ g cs, allocate (E:=DiskError) 2 (FatDemo.fs None) = Ret g cs ∧ NoDup cs ∧ length cs = 2%nat.
Proof.
  pose proof (allocated_clusters_are_free (FatDemo.fs None) 2 (FatDemo.is_coherent None)) as Hw.
  destruct (wp_returns _ _ _ _ Hw ltac:(vm_compute; reflexivity)) as (g & cs & Hr & Hlen & Hn & _).
  exact (ex_intro _ g (ex_intro _ cs (conj Hr (conj Hn Hlen)))).
Defined.

Lemma stored_data_reads_back_witness : ∃ g first,
  (first ← write_chain FatDemo.old; r ← read_chain first (Some 3); mret (first, r)) (FatDemo.fs None)
    = Ret (S:=Fat MemDisk) (X:=FatError DiskError) g (first, FatDemo.old).
Proof.
  assert (Hb : is_bytes FatDemo.old) by (repeat constructor; unfold uint; lia).
  pose proof (stored_data_reads_back (FatDemo.fs None) FatDemo.old (FatDemo.is_coherent None) Hb ltac:(discriminate)) as Hw.
  destruct (wp_returns _ _ _ _ Hw ltac:(vm_compute; reflexivity)) as (g & [first r] & Hr & -> & _). exists g, first. exact Hr.
Defined.

Lemma runs_read_like_clusters_witness : ∃ g r, read_chain (E:=DiskError) 2 (Some 3) (FatDemo.fs None) = Ret g r ∧ same (FatDemo.fs None) g.
Proof.
  assert (Hl : ∀ l, Some 3 = Some l → 0 < l) by (intros l [= <-]; lia).
  pose proof (runs_read_like_clusters (FatDemo.fs None) 2 (Some 3) (FatDemo.is_coherent None) Hl) as Hw.
  destruct (wp_returns _ _ _ _ Hw ltac:(vm_compute; reflexivity)) as (g & r & Hr & Hs & _).
  exact (ex_intro _ g (ex_intro _ r (conj Hr Hs))).
Defined.

(** With the free clusters counted first. *)
Definition counted_fs : Fat MemDisk := with_free_count (Some 4084) (FatDemo.fs None).

Lemma free_count_stays_exact_witness :
  ∃ g, free_chain (E:=DiskError) 2 counted_fs = Ret g tt ∧ counted g.
Proof.
  assert (Hc : coherent counted_fs) by (apply with_count_alike, FatDemo.is_coherent).
  assert (Hn : counted counted_fs) by (vm_compute; reflexivity).
  destruct (free_count_stays_exact counted_fs Hc Hn) as [_ Hw].
  destruct (wp_returns _ _ _ _ (Hw 2) ltac:(vm_compute; reflexivity)) as (g & [] & Hr & Hg).
  exact (ex_intro _ g (conj Hr Hg)).
Defined.

Lemma read_file_gives_its_bytes_witness : ∃ g, read_file (E:=DiskError) FatDemo.a_txt (FatDemo.fs None) = Ret g FatDemo.old.
Proof.
  pose proof (read_file_gives_its_bytes (FatDemo.fs None) FatDemo.a_txt Root [] FatDemo.located [2] FatDemo.old
    (FatDemo.is_coherent None) eq_refl ltac:(discriminate) (FatDemo.holds_a None)) as Hw.
  destruct (wp_returns _ _ _ _ Hw ltac:(vm_compute; reflexivity)) as (g & r & Hr & _ & ->).
  exact (ex_intro _ g Hr).
Defined.

(** The power goes after two writes: the old file is still there. *)
Lemma replacing_is_atomic_witness : ∃ g e,
  write_file (E:=DiskError) FatDemo.a_txt [0x6E; 0x65; 0x77; 0x21] (FatDemo.fs (Some 2%nat)) = Fail g e ∧
  (holds g Root [] [0x61; 0x2E; 0x74; 0x78; 0x74] FatDemo.located [2] FatDemo.old ∨
   replaced (FatDemo.fs (Some 2%nat)) g Root [] [0x61; 0x2E; 0x74; 0x78; 0x74] [0x6E; 0x65; 0x77; 0x21]).
Proof.
  assert (Hb : is_bytes [0x6E; 0x65; 0x77; 0x21]) by (repeat constructor; unfold uint; lia).
  assert (Hap : ∀ c, c ∈ [2] → c ∉ @nil Z) by (intros c _; apply not_elem_of_nil).
  pose proof (replacing_is_atomic (FatDemo.fs (Some 2%nat)) FatDemo.a_txt Root [] FatDemo.located [2] FatDemo.old
    [0x6E; 0x65; 0x77; 0x21] (FatDemo.is_coherent _) eq_refl eq_refl ltac:(vm_compute; reflexivity)
    (FatDemo.holds_a _) Hap Hb ltac:(cbn; lia) ltac:(split; vm_compute; congruence) ltac:(split; vm_compute; congruence)) as Hw.
  destruct (wp_fails _ _ _ _ Hw ltac:(vm_compute; reflexivity)) as (g & e & Hr & _ & Ho).
  exact (ex_intro _ g (ex_intro _ e (conj Hr Ho))).
Defined.

Lemma new_name_reads_back_witness : ∃ es, new_entries [0x61; 0x2B; 0x62] [] ATTR_ARCHIVE 5 9 (1, 2) = Some es ∧
  parse_from Fat16 0 0 (mkLongName [] 0 0) (es ++ []) =
  Some [mkLocated (made_entry Fat16 [0x61; 0x2B; 0x62] ATTR_ARCHIVE 5 9 (1, 2)) (0, 0 + length es)%nat].
Proof.
  assert (Hn : storable [0x61; 0x2B; 0x62]).
  { split_and!; [vm_compute; reflexivity| |]; [repeat constructor; unfold is_char; lia|].
    rewrite !not_elem_of_cons. split_and!; [lia..|apply not_elem_of_nil]. }
  destruct (new_name_reads_back Fat16 [0x61; 0x2B; 0x62] [] ATTR_ARCHIVE 5 9 1 2 Hn ltac:(cbn; lia) (or_introl eq_refl)
    ltac:(split; lia) ltac:(split; lia) ltac:(split; lia) ltac:(split; lia)) as (es & He & Hp).
  exists es. split; [exact He|]. destruct (Hp 0%nat 0%nat (mkLongName [] 0 0) [] eq_refl) as (ls & lg & _ & Hpp). exact Hpp.
Defined.

(** * Where the code and its documentation part *)

(** [check_name] accepts a name with U+FFFF in it, but the directory lists the name cut off before that
    character, since its UTF-16 unit is what pads long names: the file that was just written cannot be found. *)
Theorem name_with_ffff_is_lost :
  let path := [0x2F; 0x61; 0xFFFF; 0x62] in
  check_name (E:=DiskError) (split_path path).2 = Ok tt ∧
  match write_file (E:=DiskError) path FatDemo.old (FatDemo.fs None) with
  | Ret g _ =>
    match read_dir (E:=DiskError) [0x2F] g, read_file (E:=DiskError) path g with
    | Ret _ es, Fail _ e => map name es = [name (entry FatDemo.located); [0x61]] ∧ e = NotFound
    | _, _ => False
    end
  | _ => False
  end.
Proof. vm_compute. split_and!; reflexivity. Qed.

(** A volume like [FatDemo.disk], but with FATs of one sector, which hold 256 entries. *)
Definition small_fat_disk : MemDisk :=
  mkMemDisk {[0 := put 22 (le_bytes 2 1) (put 19 (le_bytes 2 4089) FatDemo.boot)]} 4089 None.

(** A volume whose FAT is too small for its clusters mounts, and the entries past the end of the FAT are
    then read from and written to the data area: setting the entry of cluster 4000 changes what is in
    cluster 14. *)
Theorem short_fat_overlaps_data :
  match mount (E:=DiskError) small_fat_disk 0 with
  | Ok f =>
    in_cluster (vol f) 14 (fat_position (vol f) 4000).1 ∧
    match run_ops (E:=DiskError) [Put 4000 0xFFFF; Flush] f with
    | Ret g _ => cluster_count (vol f) = 4085 ∧ take 4 (drop 320 (cluster_bytes f 14)) = [0; 0; 0; 0] ∧
                 take 4 (drop 320 (cluster_bytes g 14)) = [0xFF; 0xFF; 0; 0]
    | _ => False
    end
  | Err _ => False
  end.
Proof. vm_compute. split_and!; (reflexivity || discriminate). Qed.
End FatProps.
