(* ===== verification/Fs.v ===== *)
(** The kernel's file system ([src/sys/fs.rs]): the FAT volume of the SD card behind one lock, the files the Pi
    boots from, which it leaves alone, and a write test outside the volume.  Each operation is one section of
    the lock [FS]; the state is what it holds.  The card driver is a device ([Disk], [SdDevice]); its start-up and what the
    clock says are arguments.  A [&str] is the list of its characters, as in [Fat]. *)
From Stdlib Require Import String.
From S2P Require Import Prelude Bytes Abi Text Calendar Effect Disk Fat FatProps.
Open Scope list_scope.
Open Scope Z_scope.

Module Fs.
Import Effect Text Disk Fat.

Inductive FsError (E : Type) :=
| Card (e : E)
| NoFatVolume
| FatErr (e : FatError E)
| NotMounted
| NoSpareBlocks
| Protected
| TooBig.
Arguments Card {E}.
Arguments NoFatVolume {E}.
Arguments FatErr {E}.
Arguments NotMounted {E}.
Arguments NoSpareBlocks {E}.
Arguments Protected {E}.
Arguments TooBig {E}.

(** What is known of the card besides is not used by any operation. *)
Record MountInfo := mkMountInfo {
  info_fat_type : FatType; info_label : list Z; info_volume : Mbr.Volume; info_cluster_size : Z }.

Record Mounted (D : Type) := mkMounted { fat : Fat D; info_ : MountInfo }.
Arguments mkMounted {D}.
Arguments fat {D}.
Arguments info_ {D}.

(** * Protected files *)
Definition starts_with (prefix s : list Z) : bool := bool_decide (prefix `prefix_of` s).
Definition ends_with (suffix s : list Z) : bool := bool_decide (suffix `suffix_of` s).

(** The parts of a path that are not empty. *)
Definition parts (path : list Z) : list (list Z) :=
  List.filter (λ part, negb (bool_decide (part = []))) (Bytes.split 0x2F path).

(** The first part in lower case ASCII: is it, in the root or (the directory of overlays) anywhere, something
    the Pi boots from? *)
Definition boots (first : list Z) (in_root : bool) : bool :=
  bool_decide (first = str "overlays") ||
  (in_root &&
   (bool_decide (first = str "bootcode.bin") || bool_decide (first = str "config.txt") ||
    bool_decide (first = str "cmdline.txt") ||
    (starts_with (str "start") first && ends_with (str ".elf") first) ||
    (starts_with (str "fixup") first && ends_with (str ".dat") first) ||
    (starts_with (str "kernel") first && ends_with (str ".img") first) ||
    ends_with (str ".dtb") first)).

Definition is_protected (path : list Z) : bool :=
  match parts path with
  | [] => true
  | first :: rest => boots (to_ascii_lowercase <$> first) (bool_decide (rest = []))
  end.

(** [path.trim_matches('/').is_empty()]. *)
Definition is_root (path : list Z) : bool :=
  bool_decide (trim_start_by (Z.eqb 0x2F) (trim_end_by (Z.eqb 0x2F) path) = []).

(** * Operations *)
Section operations.
Context `{WritableBlockDevice D E} `{Unicode}.

(** The lock [FS] holds the volume once it is mounted. *)
Local Notation FS := (option (Mounted D)).
Local Notation M := (Eff FS (FsError E)).

(** [init] is what [SdCard::init] gives. *)
Definition mount (init : result E D) : M MountInfo :=
  match init with
  | Err e => fail (Card e)
  | Ok card =>
    match read_block 0 card with
    | (_, Err e) => fail (Card e)
    | (card, Ok block0) =>
      match Mbr.find_fat_volume block0 with
      | None => fail NoFatVolume
      | Some volume =>
        match Fat.mount card (Mbr.volume_start volume) with
        | Err e => fail (FatErr e)
        | Ok f =>
          let i := mkMountInfo (fat_type (vol f)) (label (vol f)) volume (cluster_size (vol f)) in
          _ ← Effect.put (Some (mkMounted f i)); mret i
        end
      end
    end
  end.

(** [with_fs]: an operation on the volume, whose errors are the file system's. *)
Definition with_fs {A} (op : Eff (Mounted D) (FsError E) A) : M A := λ s,
  match s with
  | None => Fail s NotMounted
  | Some m => match op m with
              | Ret m a => Ret (Some m) a
              | Fail m e => Fail (Some m) e
              | Panic => Panic
              end
  end.

(** An operation of the FAT driver. *)
Definition on_fat {A} (op : Fat.M D E A) : Eff (Mounted D) (FsError E) A := λ m,
  match op (fat m) with
  | Ret f a => Ret (mkMounted f (info_ m)) a
  | Fail f e => Fail (mkMounted f (info_ m)) (FatErr e)
  | Panic => Panic
  end.

(** [now] is what the clock says, if it knows the time. *)
Definition with_fs_writing {A} (now : option Calendar.DateTime) (op : Eff (Mounted D) (FsError E) A) : M A :=
  with_fs (_ ← match now with Some now => on_fat (set_time now) | None => mret tt end; op).

Definition info : M MountInfo := with_fs (m ← get; mret (info_ m)).

Definition read_dir (path : list Z) : M (list DirEntry) := with_fs (on_fat (Fat.read_dir path)).
Definition metadata (path : list Z) : M DirEntry := with_fs (on_fat (Fat.metadata path)).

Definition check_dir (path : list Z) : M unit :=
  if is_root path then mret tt else
  e ← metadata path;
  match kind e with Directory => mret tt | File => fail (FatErr NotADirectory) end.

Definition check_writable (path : list Z) : M unit :=
  if is_protected path then fail Protected else
  let '(parent, name) := default ([], path) (rsplit_once 0x2F (trim_end_by (Z.eqb 0x2F) path)) in
  _ ← lift (map_err FatErr (check_name name));
  with_fs
    (not_dir ← (if is_root parent then mret false
                else e ← on_fat (Fat.metadata parent); mret (negb (bool_decide (kind e = Directory))));
     if not_dir : bool then fail (FatErr NotADirectory) else
     r ← catch (on_fat (Fat.metadata path));
     match r with
     | Ok e => if bool_decide (kind e = Directory) then fail (FatErr NotAFile) else mret tt
     | Err (FatErr NotFound) => mret tt
     | Err error => fail error
     end).

Definition write_file (now : option Calendar.DateTime) (path data : list Z) : M unit :=
  if is_protected path then fail Protected else with_fs_writing now (on_fat (Fat.write_file path data)).

Definition KERNEL : list Z := str "/kernel8.img".
Definition KERNEL_BACKUP : list Z := str "/kernel8.bak".

Definition install_kernel (now : option Calendar.DateTime) (image : list Z) : M unit :=
  with_fs_writing now
    (r ← catch (on_fat (Fat.read_file KERNEL));
     _ ← match r with
         | Ok old => on_fat (Fat.write_file KERNEL_BACKUP old)
         | Err (FatErr NotFound) => mret tt
         | Err error => fail error
         end;
     on_fat (Fat.write_file KERNEL image)).

Definition create_dir (now : option Calendar.DateTime) (path : list Z) : M unit :=
  if is_protected path then fail Protected else with_fs_writing now (on_fat (Fat.create_dir path)).

Definition remove (now : option Calendar.DateTime) (path : list Z) : M unit :=
  if is_protected path then fail Protected else with_fs_writing now (on_fat (Fat.remove path)).

Definition free_space : M Z :=
  with_fs (n ← on_fat free_clusters; m ← get; mret (wrap 64 (n * info_cluster_size (info_ m)))).

Definition read_file (path : list Z) : M (list Z) :=
  with_fs
    (e ← on_fat (Fat.metadata path);
     if bool_decide (kind e = File) && (MAX_FILE <? size e) then fail TooBig else on_fat (Fat.read_file path)).

(** ** The write test *)
Definition WRITE_TEST_BLOCKS : nat := 9.

(** A call of the card. *)
Definition with_card (d : D) (m : Mounted D) : Mounted D := mkMounted (with_device d (fat m)) (info_ m).
Definition on_card {A} (op : D → D * result E A) : Eff (Mounted D) (FsError E) A := λ m,
  let '(d, r) := op (device (fat m)) in
  match r with Ok a => Ret (with_card d m) a | Err e => Fail (with_card d m) (Card e) end.

Definition pattern (i : nat) : Block :=
  (λ j, Z.lxor (wrap 8 (Z.of_nat i * 31 + Z.of_nat j * 7)) 0xA5) <$> seq 0 512.
Definition patterns : list Block := pattern <$> seq 0 WRITE_TEST_BLOCKS.

(** Whether the patterns, and then what was there, read back. *)
Definition write_test : M (bool * bool) :=
  with_fs
    (block0 ← on_card (read_block 0);
     match Mbr.first_partition_start block0 with
     | None => fail NoSpareBlocks
     | Some first =>
       if first <? 2 * Z.of_nat WRITE_TEST_BLOCKS + 2 then fail NoSpareBlocks else
       let at_ := first / 2 in
       saved ← on_card (read_blocks at_ WRITE_TEST_BLOCKS);
       written ← catch (_ ← on_card (write_block at_ (patterns !!! 0%nat));
                        _ ← on_card (write_blocks (offset at_ 1) (drop 1 patterns));
                        on_card (read_blocks at_ WRITE_TEST_BLOCKS));
       _ ← on_card (write_blocks at_ saved);
       back ← lift written;
       again ← on_card (read_blocks at_ WRITE_TEST_BLOCKS);
       mret (bool_decide (back = patterns), bool_decide (again = saved))
     end).
End operations.

(** * Protected files are left alone *)
Section protection.
Context `{WritableBlockDevice D E} `{Unicode}.

Definition is_ascii (s : list Z) : Prop := Forall (λ c, 0 <= c < 128) s.

(** Paths the volume takes for the same: their parts match one by one. *)
Definition same_file (a b : list Z) : Prop := Forall2 (λ x y, names_match x y = true) (parts a) (parts b).

Lemma lowercase_ascii s : is_ascii s → lowercase s = to_ascii_lowercase <$> s.
Proof.
  unfold lowercase. induction 1 as [|c s Hc _ IH]; [done|]. cbn [fmap list_fmap concat]. by rewrite IH, to_lowercase_ascii.
Qed.

Lemma split_ascii sep s : is_ascii s → Forall is_ascii (Bytes.split sep s).
Proof.
  induction 1 as [|c s Hc _ IH]; cbn [Bytes.split]; [by apply Forall_singleton, Forall_nil|]. destruct (c =? sep); [by apply Forall_cons; split; [apply Forall_nil|]|].
  destruct (Bytes.split sep s) as [|p r].
  - apply Forall_singleton, Forall_singleton. done.
  - apply Forall_cons in IH as [Hp Hr]. apply Forall_cons. split; [by apply Forall_cons|done].
Qed.

Lemma parts_ascii s : is_ascii s → Forall is_ascii (parts s).
Proof.
  intros Hs. apply Forall_forall. intros p Hp. unfold parts in Hp. apply list_elem_of_In, filter_In in Hp as [Hp _].
  apply list_elem_of_In in Hp. by apply (proj1 (Forall_forall _ _) (split_ascii 0x2F s Hs)).
Qed.

Lemma is_protected_same a b : is_ascii a → is_ascii b → same_file a b → is_protected a = is_protected b.
Proof.
  intros Ha%parts_ascii Hb%parts_ascii Hs. unfold same_file in Hs. unfold is_protected.
  destruct Hs as [|x y xs ys Hxy Hrest]; [done|]. apply Forall_cons in Ha as [Hx _]. apply Forall_cons in Hb as [Hy _].
  unfold names_match in Hxy. apply bool_decide_eq_true in Hxy. rewrite !lowercase_ascii in Hxy by done. rewrite Hxy. f_equal.
  apply bool_decide_ext. apply Forall2_length in Hrest. by destruct xs, ys.
Qed.

(** However a path is spelled in ASCII, if the volume takes it for one of the files the Pi boots from (or for
    something in the overlays, or the root), writing, removing and making a directory there are refused, and
    nothing is done to the volume. *)
Theorem boot_files_are_left_alone now a b data (s : option (Mounted D)) :
  is_ascii a → is_ascii b → same_file a b → is_protected b = true →
  write_file now a data s = Fail s Protected ∧ create_dir now a s = Fail s Protected ∧
  remove now a s = Fail s Protected ∧ check_writable a s = Fail s Protected.
Proof.
  intros Ha Hb Hs Hp. rewrite <-(is_protected_same a b Ha Hb Hs) in Hp.
  unfold write_file, create_dir, remove, check_writable. by rewrite Hp.
Qed.
End protection.

(** * The write test leaves the card as it was *)
Section testing.
Context `{LawfulDevice D E} `{Unicode}.

Definition card_of (m : Mounted D) : Lba → Block := contents (device (fat m)).

(** Only blocks between [at_] and [at_ + 9] may differ from [c]. *)
Definition spared (c : Lba → Block) (at_ : Lba) (m : Mounted D) : Prop :=
  ∀ k, ¬ (at_ <= k < at_ + 9) → card_of m k = c k.

Lemma on_card_bind {A B} (op : D → D * result E A) (k : A → Eff (Mounted D) (FsError E) B) m Q R :
  (∀ d r, op (device (fat m)) = (d, r) →
     match r with Ok a => wp (k a) (with_card d m) Q R | Err e => R (with_card d m) (Card e) end) →
  wp (on_card op ≫= k) m Q R.
Proof.
  intros Hop. apply wp_bind. unfold wp, on_card. destruct (op (device (fat m))) as [d r]. specialize (Hop d r eq_refl).
  by destruct r.
Qed.

Lemma patterns_blocks : Forall is_block patterns.
Proof.
  apply Forall_fmap, Forall_true. intros i. split; [unfold pattern; by rewrite length_fmap, length_seq|].
  apply Forall_fmap, Forall_true. intros j. cbn. change 0xA5 with (wrap 8 0xA5).
  pose proof (wrap_uint 8 (Z.of_nat i * 31 + Z.of_nat j * 7) ltac:(lia)) as Hw. revert Hw.
  generalize (wrap 8 (Z.of_nat i * 31 + Z.of_nat j * 7)). intros x Hx. unfold uint in *.
  assert (Hn : 0 <= Z.lxor x (wrap 8 165)) by (apply Z.lxor_nonneg; change (wrap 8 165) with 165; lia).
  split; [done|]. destruct (decide (Z.lxor x (wrap 8 165) = 0)) as [->|]; [lia|]. apply Z.log2_lt_pow2; [lia|].
  eapply Z.le_lt_trans; [apply Z.log2_lxor; change (wrap 8 165) with 165; lia|]. apply Z.max_lub_lt; [|by vm_compute].
  destruct (decide (x = 0)) as [->|]; [done|]. apply Z.log2_lt_pow2; lia.
Qed.

(** Writing the patterns and reading them back: it touches nothing else, and if it works gives the patterns. *)
Lemma patterns_spec c at_ m : in_reach at_ 9 → spared c at_ m →
  wp (_ ← on_card (write_block at_ (patterns !!! 0%nat)); _ ← on_card (write_blocks (offset at_ 1) (drop 1 patterns));
      on_card (read_blocks at_ WRITE_TEST_BLOCKS)) m
    (λ m' back, spared c at_ m' ∧ back = patterns) (λ m' _, spared c at_ m').
Proof.
  intros Hr Hm. pose proof patterns_blocks as Hp. assert (Hlen : length patterns = 9%nat) by done.
  assert (Hall : patterns = (patterns !!! 0%nat) :: drop 1 patterns) by done.
  assert (Hoff : offset at_ 1 = at_ + 1) by (unfold offset, in_reach in *; apply wrap_small; unfold uint; lia).
  rewrite Hall in Hp. apply Forall_cons in Hp as [Hp0 Hp1]. rewrite Hoff. revert Hp0 Hp1 Hall.
  generalize (patterns !!! 0%nat), (drop 1 patterns). intros p0 ps Hp0 Hp1 Hall.
  assert (Hps : length ps = 8%nat) by (rewrite Hall in Hlen; by injection Hlen).
  apply on_card_bind. intros d r Hw. assert (Hr1 : in_reach at_ 1) by (unfold in_reach in *; lia).
  destruct (write_block_spec at_ p0 _ d r Hw Hp0 Hr1) as (n1 & Hn1 & Hok1 & Hd1).
  assert (Hsp1 : ∀ k, ¬ (at_ <= k < at_ + 9) → contents d k = c k).
  { intros k Hk. rewrite Hd1, overlay_outside by (rewrite length_take; cbn [length]; lia). by apply Hm. }
  destruct r as [u|e]; cbn [is_ok] in Hok1; [|exact Hsp1]. rewrite (Hok1 eq_refl) in Hd1. cbn [length take] in Hd1.
  apply on_card_bind. intros d2 r2 Hw2. destruct (write_blocks_spec (at_ + 1) ps _ d2 r2 Hw2 Hp1) as (n & Hn & Hok & Hd2).
  { unfold in_reach in *. lia. }
  assert (Hsp : ∀ k, ¬ (at_ <= k < at_ + 9) → contents d2 k = c k).
  { intros k Hk. rewrite Hd2, overlay_outside by (rewrite length_take; lia). cbn [fat device with_device with_card]. by apply Hsp1. }
  destruct r2 as [u2|e2]; [|done]. unfold wp, on_card. cbn [fat device with_device with_card].
  destruct (read_blocks at_ WRITE_TEST_BLOCKS d2) as [d3 r3] eqn:Hr3.
  destruct (read_blocks_spec at_ WRITE_TEST_BLOCKS d2 d3 r3 Hr3 Hr) as [Hd3 Hv].
  assert (Hsp3 : ∀ k, ¬ (at_ <= k < at_ + 9) → contents d3 k = c k) by (intros k Hk; rewrite Hd3; by apply Hsp).
  destruct r3 as [back|e3]; [|done]. split; [done|]. rewrite (Hv back eq_refl), Hall.
  assert (Hc2 : ∀ k, contents d2 k = overlay at_ (p0 :: ps) (contents (device (fat m))) k).
  { intros k. rewrite Hd2, (Hok eq_refl), firstn_all. cbn [fat device with_device with_card]. rewrite overlay_cons. apply overlay_proper.
    intros k'. by rewrite Hd1. }
  apply list_eq_same_length with 9%nat; [by rewrite Hall in Hlen|by rewrite length_fmap, length_seq|].
  intros i x y Hi Hx Hy. rewrite list_lookup_fmap, lookup_seq_lt in Hx by done. apply (inj Some) in Hx. subst x.
  rewrite Hc2, overlay_inside by (cbn [length]; lia). by apply list_lookup_total_correct.
Qed.

(** The write test leaves the card as it found it.  If it returns, every block is as before, and it reports
    that the patterns and what was there read back.  If it fails, whichever call did, only blocks after the
    first and before the first partition can differ, which belong to nothing; and on a card without such
    blocks it writes nothing. *)
Theorem write_test_is_harmless (m : Mounted D) :
  match write_test (Some m) with
  | Ret (Some m') answer => (∀ k, card_of m' k = card_of m k) ∧ answer = (true, true)
  | Fail (Some m') _ => ∀ k, card_of m' k ≠ card_of m k →
      ∃ first, Mbr.first_partition_start (card_of m 0) = Some first ∧ 0 < k < first
  | _ => False
  end.
Proof.
  unfold write_test, with_fs. lazymatch goal with |- context [match ?op m with Ret _ _ => _ | _ => _ end] =>
    assert (Hwp : wp op m (λ m' answer, (∀ k, card_of m' k = card_of m k) ∧ answer = (true, true))
      (λ m' _, ∀ k, card_of m' k ≠ card_of m k →
         ∃ first, Mbr.first_partition_start (card_of m 0) = Some first ∧ 0 < k < first));
    [|unfold wp in Hwp; by destruct (op m)] end.
  set (c := card_of m).
  apply on_card_bind. intros d0 r0 Hr0. destruct (read_block_spec 0 _ d0 r0 Hr0 ltac:(unfold in_reach; lia)) as [Hd0 Hb0].
  assert (Hc0 : ∀ k, contents d0 k = c k) by exact Hd0.
  destruct r0 as [block0|e]; [|intros k []; apply Hc0]. rewrite (Hb0 block0 eq_refl). fold (card_of m). fold c.
  destruct (Mbr.first_partition_start (c 0)) as [first|] eqn:Hf; [|intros k []; apply Hc0].
  pose proof (Mbr.first_partition_small (c 0) first (proj2 (contents_block _ _)) Hf) as Hsmall.
  destruct (Z.ltb_spec first (2 * Z.of_nat WRITE_TEST_BLOCKS + 2)) as [|Hbig]; [intros k []; apply Hc0|].
  set (at_ := first / 2). assert (Hat : 10 <= at_ ∧ at_ + 9 <= first) by (subst at_; unfold WRITE_TEST_BLOCKS in Hbig; Z.to_euclidean_division_equations; lia).
  assert (Hreach : in_reach at_ 9) by (unfold in_reach, uint in *; lia).
  assert (Hspare : ∀ m', spared c at_ m' → ∀ k, card_of m' k ≠ c k → ∃ first', Some first = Some first' ∧ 0 < k < first').
  { intros m' Hs k Hk. exists first. split; [done|]. destruct (decide (at_ <= k < at_ + 9)); [lia|]. by rewrite Hs in Hk. }
  apply on_card_bind. intros d1 r1 Hr1. destruct (read_blocks_spec at_ WRITE_TEST_BLOCKS _ d1 r1 Hr1 Hreach) as [Hd1 Hs1].
  cbn [fat device with_device with_card info_] in *. assert (Hc1 : ∀ k, contents d1 k = c k) by (intros k; by rewrite Hd1).
  destruct r1 as [saved|e]; [|apply Hspare; intros k _; apply Hc1]. specialize (Hs1 saved eq_refl).
  assert (Hsaved : saved = (λ i, c (at_ + Z.of_nat i)) <$> seq 0 9).
  { rewrite Hs1. apply list_fmap_ext. intros i x _. apply Hc0. }
  assert (Hlen : length saved = 9%nat) by (by rewrite Hsaved, length_fmap, length_seq).
  assert (Hsb : Forall is_block saved) by (rewrite Hsaved; apply Forall_fmap, Forall_true; intros i; apply contents_block).
  apply wp_bind, wp_catch. eapply wp_mono; [apply (patterns_spec c at_); [done|intros k _; apply Hc1]| |].
  all: intros m2 x2 Hx2; apply on_card_bind; intros d3 r3 Hr3;
    destruct (write_blocks_spec at_ saved _ d3 r3 Hr3 Hsb ltac:(by rewrite Hlen)) as (n & Hn & Hok & Hd3).
  all: assert (Hsp2 : spared c at_ m2) by (apply Hx2 || exact Hx2).
  all: assert (Hsp3 : ∀ k, ¬ (at_ <= k < at_ + 9) → contents d3 k = c k) by
    (intros k Hk; rewrite Hd3, overlay_outside by (rewrite length_take; lia); by apply Hsp2).
  all: destruct r3 as [u|e]; [|by apply Hspare].
  all: assert (Hc3 : ∀ k, contents d3 k = c k) by
    (intros k; destruct (decide (at_ <= k < at_ + 9)) as [Hk|Hk]; [|by apply Hsp3];
     rewrite Hd3, (Hok eq_refl), firstn_all; replace k with (at_ + Z.of_nat (Z.to_nat (k - at_))) by lia;
     rewrite overlay_inside by lia; rewrite Hsaved; apply list_lookup_total_correct;
     by rewrite list_lookup_fmap, lookup_seq_lt by lia).
  2: { cbn [lift]. intros k []; apply Hc3. }
  cbn [lift]. wp_step. destruct Hx2 as [_ ->]. apply on_card_bind. intros d4 r4 Hr4.
  destruct (read_blocks_spec at_ WRITE_TEST_BLOCKS _ d4 r4 Hr4 Hreach) as [Hd4 Hs4]. cbn [fat device with_device with_card info_] in *.
  destruct r4 as [again|e]; [|intros k []; rewrite <-Hc3; apply Hd4]. wp_step. rewrite (Hs4 again eq_refl). split.
  - intros k. unfold card_of. cbn [fat device with_device with_card]. by rewrite Hd4, Hc3.
  - rewrite !bool_decide_eq_true_2; [done| |done]. rewrite Hsaved. apply list_fmap_ext. intros i x _. apply Hc3.
Qed.
End testing.

(** * A volume with a kernel
    The volume of [FatDemo], with kernel8.img instead of a.txt. *)
Import MemDisk.

Definition kernel_volume : option (Mounted MemDisk) :=
  let entry := short_entry (str "KERNEL8 IMG") 0x18 ATTR_ARCHIVE 2 3 DEFAULT_STAMP in
  let disk := mkMemDisk (list_to_map [(0, FatDemo.boot); (1, FatDemo.fat); (17, FatDemo.fat);
                                      (33, FatDemo.padded entry); (34, FatDemo.padded FatDemo.old)]) 4119 None in
  Some (mkMounted (mkFat disk FatDemo.v None None None DEFAULT_STAMP 2) (mkMountInfo Fat16 [] Mbr.WholeDisk 512)).

Lemma boot_files_are_left_alone_witness :
  remove (H0 := ascii_only) (E := DiskError) None (str "//Kernel8.IMG/") kernel_volume = Fail kernel_volume Protected.
Proof.
  refine (proj1 (proj2 (proj2 (boot_files_are_left_alone (H0 := ascii_only) None (str "//Kernel8.IMG/") KERNEL [] kernel_volume _ _ _ _))));
    [..|vm_compute; reflexivity].
  - apply Forall_forall. intros c Hc. revert c Hc. apply Forall_forall. cbn. repeat constructor; lia.
  - cbn. repeat constructor; lia.
  - unfold same_file. change (parts (str "//Kernel8.IMG/")) with [str "Kernel8.IMG"]. change (parts KERNEL) with [str "kernel8.img"].
    constructor; [vm_compute; reflexivity|constructor].
Defined.

(** A card whose first partition starts at block 40. *)
Definition partitioned : Mounted MemDisk :=
  let mbr := Fat.put 510 [0x55; 0xAA] (Fat.put 446 ([0; 0; 0; 0; 0x0C; 0; 0; 0] ++ le_bytes 4 40 ++ le_bytes 4 10) (replicate 512 0)) in
  mkMounted (mkFat (mkMemDisk {[0 := mbr]} 100 None) FatDemo.v None None None DEFAULT_STAMP 2) (mkMountInfo Fat16 [] Mbr.WholeDisk 512).

Lemma write_test_is_harmless_witness :
  match write_test (E := DiskError) (Some partitioned) with
  | Ret (Some m') answer => (∀ k, card_of m' k = card_of partitioned k) ∧ answer = (true, true)
  | _ => False
  end.
Proof.
  pose proof (write_test_is_harmless (E := DiskError) partitioned) as Hm.
  assert (Hr : returns (write_test (E := DiskError) (Some partitioned)) = true) by (vm_compute; reflexivity).
  destruct (write_test (Some partitioned)) as [[m'|]|[m'|]|]; [exact Hm|exact Hm|discriminate Hr..].
Defined.

(** Lower case as Unicode has it for one more character than ASCII: the Kelvin sign, U+212A, is a k. *)
Program Definition with_kelvin : Unicode := {|
  to_lowercase c := if c =? 0x212A then [0x6B] else [to_ascii_lowercase c] |}.
Next Obligation. intros c Hc. cbn. destruct (Z.eqb_spec c 0x212A); [lia|done]. Qed.

(** Protection looks at ASCII letters only, the volume at all of Unicode: written with a Kelvin sign, the
    kernel's name is not protected and still finds the kernel, which can then be removed or replaced. *)
Theorem kelvin_sign_gets_past_protection :
  let path := 0x2F :: 0x212A :: str "ernel8.img" in
  is_protected path = false ∧ same_file (H0 := with_kelvin) path KERNEL ∧
  match remove (H0 := with_kelvin) (E := DiskError) None path kernel_volume with
  | Ret s _ => match metadata (H0 := with_kelvin) (E := DiskError) KERNEL s with Fail _ e => e = FatErr NotFound | _ => False end
  | _ => False
  end ∧
  match write_file (H0 := with_kelvin) (E := DiskError) None path [1; 2] kernel_volume with
  | Ret s _ => match read_file (H0 := with_kelvin) (E := DiskError) KERNEL s with Ret _ data => data = [1; 2] | _ => False end
  | _ => False
  end.
Proof.
  cbv zeta. split_and!; [vm_compute; reflexivity| |vm_compute; reflexivity..].
  unfold same_file. change (parts KERNEL) with [str "kernel8.img"].
  change (parts (0x2F :: 0x212A :: str "ernel8.img")) with [0x212A :: str "ernel8.img"].
  constructor; [vm_compute; reflexivity|constructor].
Qed.
End Fs.
