(* ===== verification/SdDemo.v ===== *)
(** An SD controller and a card, as a machine that can be run: it behaves as SdHost says, so what is relied on
    can be had.  The file system is run on the driver on this machine; and two runs show where the driver's
    word is not enough: a card that is slow once mixes up files, and one that is write protected loses them. *)
From S2P Require Import Prelude Bytes Text Effect Mmio Disk Firmware SdCard SdTime SdHost SdDevice Fat FatProps Fs.
From stdpp Require Import strings.
Open Scope Z_scope.

Module SdDemo.
Import Effect Text Mailbox Exchange Mmio Disk SdCard SdTime SdHost SdDevice.

(** * The machine *)

(** An access takes a millisecond.  A write to block [slow], if there is one, is not reported finished, once: the
    next is when the lines were reset.  A [protected] card stores nothing, and says so in its status. *)
Record Emulator (protected : bool) := mkEmulator {
  time : Z; control : Ctl; blocks : gmap Z Block; slow : option Lba }.
Arguments mkEmulator {protected}.
Arguments time {protected}.
Arguments control {protected}.
Arguments blocks {protected}.
Arguments slow {protected}.

Definition get (l : Lba) (m : gmap Z Block) : Block :=
  let b := default MemDisk.zero_block (m !! l) in if MemDisk.good_block b then b else MemDisk.zero_block.

Definition WP_VIOLATION : Z := Z.shiftl 1 26.
Definition READY : Z := Z.lor STATUS_READY_FOR_DATA STATUS_STATE_TRANSFER.

Section machine.
Context (protected : bool).
Implicit Types (e : Emulator protected).

(** The card stores the blocks it has received. *)
Fixpoint store (fuel : nat) (l : Lba) (got : list Z) (m : nat) (disk : gmap Z Block) : nat * gmap Z Block :=
  match fuel with
  | O => (m, disk)
  | S fuel =>
    let b := take 512 (drop (m * 512) got) in
    if negb protected && (S m * 512 <=? length got)%nat && MemDisk.good_block b
    then store fuel l got (S m) (<[l + Z.of_nat m := b]> disk) else (m, disk)
  end.

Definition settle (st : Stage) (disk : gmap Z Block) : Stage * gmap Z Block :=
  match st with
  | Send l n got m room => let '(m', disk') := store (length got) l got m disk in (Send l n got m' room, disk')
  | st => (st, disk)
  end.

(** The response to a command, and what it starts. *)
Definition answer (cmd : Z) (C : Ctl) (slow : option Lba) (disk : gmap Z Block) (st : Stage) : Z * Stage :=
  if is_data cmd then
    if is_read cmd then
      (0, Receive (if (cmd_index cmd =? 17) || (cmd_index cmd =? 18)
                   then (λ i, get (arg C + Z.of_nat i) disk) <$> seq 0 (blocks_of cmd (size C))
                   else [replicate 64 0]) false)
    else (0, Send (arg C) (blocks_of cmd (size C)) [] 0 false)
  else if cmd_index cmd =? 12 then (0, Quiet)
  else if cmd_index cmd =? 13 then
    match st with
    | Send l _ got m _ =>
      if bool_decide (slow = Some l) then (0, st)
      else if protected then (Z.lor READY WP_VIOLATION, Quiet)
      else if (m =? length got / 512)%nat then (READY, Quiet) else (0, st)
    | _ => (READY, Quiet)
    end
  else (if cmd_index cmd =? 41 then Z.lor OCR_READY OCR_HCS
        else if cmd_index cmd =? 8 then IF_COND_ARG else if cmd_index cmd =? 3 then 0x10000 else 0, st).

Definition set (e : Emulator protected) (C : Ctl) (disk : gmap Z Block) : Emulator protected :=
  mkEmulator (time e) C disk (slow e).

Definition poll e : Emulator protected * Z :=
  let C := control e in
  let '(st, disk) := settle (stage C) (blocks e) in
  match issued C with
  | Some cmd =>
    let '(r, st') := answer cmd C (slow e) disk st in
    (set e (mkCtl (size C) (arg C) None r st') disk, INT_CMD_DONE)
  | None =>
    match st with
    | Quiet | Receive [] _ => (set e (with_stage Quiet C) disk, INT_DATA_DONE)
    | Receive bs _ => (set e (with_stage (Receive bs true) C) disk, INT_READ_RDY)
    | Send l n got m room =>
      if (n * 512 <=? length got)%nat then (set e (with_stage st C) disk, INT_DATA_DONE)
      else (set e (with_stage (Send l n got m true) C) disk, INT_WRITE_RDY)
    end
  end.

Definition fetch e : Emulator protected * Z :=
  match stage (control e) with
  | Receive (b :: bs) true => (set e (with_stage (popped b bs false) (control e)) (blocks e), le_value (take 4 b))
  | _ => (e, 0)
  end.

Definition emu_read (r : Z) e : Emulator protected * Z :=
  let '(e', v) :=
    if r =? INTERRUPT then poll e
    else if r =? DATA then fetch e
    else (e, if r =? TIMER_CLO then wrap 32 (time e) else if r =? TIMER_CHI then wrap 32 (time e / 2 ^ 32)
             else if r =? RESP0 then resp (control e) else if r =? CONTROL1 then CLK_STABLE
             else if r =? SLOTISR_VER then Z.shiftl 2 16 else if r =? MBOX0_READ then mail 0 else 0) in
  (mkEmulator (time e + 1000) (control e') (blocks e') (slow e'), v).

Definition emu_write (r v : Z) e : Emulator protected :=
  let C := control e in
  let keep C' := mkEmulator (time e + 1000) C' (blocks e) (slow e) in
  if r =? DATA then
    match stage C with
    | Send l n got m true =>
      keep (with_stage (Send l n (got ++ le_bytes 4 v) m (negb ((length got + 4) mod 512 =? 0)%nat)) C)
    | _ => keep C
    end
  else if r =? CMDTM then keep (with_issued (Some v) C)
  else if r =? ARG1 then keep (mkCtl (size C) v (issued C) (resp C) (stage C))
  else if r =? BLKSIZECNT then keep (mkCtl v (arg C) (issued C) (resp C) (stage C))
  else if r =? CONTROL1 then
    if any v (Z.lor SRST_DATA SRST_HC)
    then mkEmulator (time e + 1000) (with_issued None (with_stage Quiet C)) (blocks e)
           (match stage C with Send _ _ _ _ _ => None | _ => slow e end)
    else if any v SRST_CMD then keep (with_issued None C) else keep C
  else keep C.
End machine.

#[export] Instance emu_mmio p : Mmio (Emulator p) := { read := emu_read p; write := emu_write p; pace := 1 }.

(** * It behaves as documented *)
Section behaviour.
Context (p : bool).
Implicit Types (e : Emulator p).

Lemma poll_time e : time (poll p e).1 = time e.
Proof.
  unfold poll. destruct (settle _ _ _) as [st disk]. destruct (issued _).
  - by destruct (answer _ _ _ _ _ _).
  - destruct st as [|[|b bs]|]; [done..|]. by destruct (_ <=? _)%nat.
Qed.

Lemma emu_read_time r e : time (emu_read p r e).1 = time e + 1000.
Proof. unfold emu_read. destruct (r =? INTERRUPT); [by destruct (poll p e)|]. destruct (r =? DATA); [by destruct (fetch p e)|done]. Qed.

Lemma emu_write_time r v e : time (emu_write p r v e) = time e + 1000.
Proof.
  unfold emu_write. repeat (destruct (_ =? _)%Z; [try done|]); try done.
  - by destruct (stage (control e)) as [| |l n got m []].
  - destruct (any v _); [done|]. by destruct (any v _).
Qed.

#[export] Program Instance emu_clocked : Clocked (Emulator p) := { cycles := time; latency := 1000 }.
Next Obligation. cbn. lia. Qed.
Next Obligation. intros r e. cbn [read emu_mmio]. rewrite emu_read_time. lia. Qed.
Next Obligation. intros r v e. cbn [write emu_mmio]. rewrite emu_write_time. lia. Qed.
Next Obligation. intros e. exists (time e). cbn [read emu_mmio pace]. rewrite emu_read_time, Z.div_1_r. split; [lia|done]. Qed.
Next Obligation. intros e. exists (time e). cbn [read emu_mmio pace]. rewrite emu_read_time, Z.div_1_r. split; [lia|done]. Qed.

Definition on_card e (l : Lba) : Block := get l (blocks e).

Lemma get_block l m : is_block (get l m).
Proof. apply MemDisk.good_block_spec. unfold get. destruct (MemDisk.good_block (default _ _)) eqn:E; done. Qed.

Lemma store_spec fuel l got m disk m' disk' : store p fuel l got m disk = (m', disk') →
  (m ≤ m')%nat ∧ (m' = m ∨ m' * 512 ≤ length got)%nat ∧
  ∀ k, get k disk' = overlay (l + Z.of_nat m) (sent_blocks got m m') (λ k, get k disk) k.
Proof.
  revert m disk. induction fuel as [|fuel IH]; intros m disk; cbn [store].
  { intros [= <- <-]. split_and!; [done|by left|]. intros k. unfold sent_blocks. rewrite Nat.sub_diag. cbn [seq fmap list_fmap]. by rewrite overlay_nil. }
  destruct (negb p && _ && _) eqn:Ec.
  2: { intros [= <- <-]. split_and!; [done|by left|]. intros k. unfold sent_blocks. rewrite Nat.sub_diag. cbn [seq fmap list_fmap]. by rewrite overlay_nil. }
  apply andb_prop in Ec as [[_ Hl%Nat.leb_le]%andb_prop Hg]. intros (Hm & Hm' & Hk)%IH. split_and!; [lia|lia|].
  intros k. rewrite Hk. rewrite (sent_blocks_app got m (S m) m') by lia. rewrite overlay_app, length_sent_blocks.
  replace (l + Z.of_nat m + Z.of_nat (S m - m)) with (l + Z.of_nat (S m)) by lia. apply overlay_proper. intros k'.
  unfold sent_blocks. replace (S m - m)%nat with 1%nat by lia. cbn [seq fmap list_fmap].
  destruct (decide (k' = l + Z.of_nat m)) as [->|Hne].
  - pose proof (overlay_inside (l + Z.of_nat m) [take 512 (drop (m * 512) got)] (λ k, get k disk) 0 ltac:(cbn; lia)) as Ho.
    cbn in Ho. rewrite Z.add_0_r in Ho. rewrite Ho. unfold get. rewrite lookup_insert_eq.
    cbv zeta. change (default MemDisk.zero_block (Some ?x)) with x. by rewrite Hg.
  - rewrite overlay_outside by (cbn; lia). unfold get. by rewrite lookup_insert_ne.
Qed.

Lemma settle_evolves st disk st' disk' : settle p st disk = (st', disk') →
  evolves st (λ k, get k disk) st' (λ k, get k disk').
Proof.
  destruct st as [|bs ready|l n got m room]; cbn [settle]; [intros [= <- <-]; apply evolves_refl..|].
  destruct (store p (length got) l got m disk) as [m' d'] eqn:Es. intros [= <- <-].
  destruct (store_spec _ _ _ _ _ _ _ Es) as (Hm & Hl & Hk). by exists m', room.
Qed.

Lemma answer_begins cmd C sl disk st : let '(r, st') := answer p cmd C sl disk st in
  begins true cmd (arg C) (size C) r (λ k, get k disk) st st'.
Proof.
  unfold answer, begins. destruct (is_data cmd).
  { destruct (is_read cmd); [|done]. eexists. split; [done|]. intros Hi _.
    by replace ((cmd_index cmd =? 17) || (cmd_index cmd =? 18)) with true by lia. }
  destruct (cmd_index cmd =? 12); [done|]. destruct (cmd_index cmd =? 13).
  { destruct st as [|bs ready|l n got m room]; [done..|]. destruct (bool_decide _); [done|]. destruct p; [done|].
    destruct (_ =? _)%nat eqn:E; [|done]. split; [done|]. intros _. by apply Nat.eqb_eq. }
  split; [done|]. intros ->. done.
Qed.

Lemma poll_acts e : on_read true INTERRUPT (poll p e).2 (control e) (on_card e) (control (poll p e).1) (on_card (poll p e).1).
Proof.
  unfold poll, on_read. change (INTERRUPT =? DATA) with false. change (INTERRUPT =? INTERRUPT) with true. cbv iota.
  destruct (settle p (stage (control e)) (blocks e)) as [st disk] eqn:Es. apply settle_evolves in Es.
  destruct (issued (control e)) as [cmd|] eqn:Ei.
  - pose proof (answer_begins cmd (control e) (slow e) disk st) as Hb.
    destruct (answer p cmd (control e) (slow e) disk st) as [r st']. cbn [fst snd set control blocks].
    change (any INT_CMD_DONE INT_ERROR) with false. change (any INT_CMD_DONE INT_CMD_DONE) with true. cbv iota.
    split; [by destruct st'|]. split_and!; [done..|]. do 3 eexists. split_and!; [exact Es|exact Hb|apply evolves_refl].
  - destruct st as [|[|b bs] ready|l n got m room]; [| | |destruct (_ <=? _)%nat];
      (split; [done|]; split_and!; [done..|]); (eapply evolves_trans; [exact Es|]); try apply evolves_refl.
    + split; [done|]. by right.
    + split; [done|]. left. by exists true.
    + exists m, true. split_and!; [done..|by left|]. intros k. unfold sent_blocks. rewrite Nat.sub_diag. by rewrite overlay_nil.
Qed.

Lemma fetch_acts e : on_read true DATA (fetch p e).2 (control e) (on_card e) (control (fetch p e).1) (on_card (fetch p e).1).
Proof.
  unfold fetch, on_read. change (DATA =? DATA) with true. cbv iota.
  destruct (stage (control e)) as [|[|b bs] []|l n got m room] eqn:Es; (split; [done|]);
    do 2 eexists; (split; [apply evolves_refl|]); (split; [done|]); try done.
  split; [done|]. by exists false.
Qed.

Lemma emu_read_acts r e : on_read true r (emu_read p r e).2 (control e) (on_card e) (control (emu_read p r e).1) (on_card (emu_read p r e).1).
Proof.
  unfold emu_read. destruct (Z.eqb_spec r INTERRUPT) as [->|Hi].
  { pose proof (poll_acts e) as Hp. by destruct (poll p e) as [e' v]. }
  destruct (Z.eqb_spec r DATA) as [->|Hd].
  { pose proof (fetch_acts e) as Hp. by destruct (fetch p e) as [e' v]. }
  unfold on_read. rewrite (proj2 (Z.eqb_neq _ _) Hi), (proj2 (Z.eqb_neq _ _) Hd).
  split; [done|]. split; [apply evolves_refl|]. by intros ->.
Qed.

Lemma emu_write_acts r v e : on_write r v (control e) (on_card e) (control (emu_write p r v e)) (on_card (emu_write p r v e)).
Proof.
  exists (stage (control e)). unfold emu_write, written, on_card.
  replace (with_stage (stage (control e)) (control e)) with (control e) by (by destruct (control e)).
  repeat (destruct (r =? _)%Z); try (split; [apply evolves_refl|done]).
  - destruct (stage (control e)) as [| |l n got m []] eqn:Es; (split; [apply evolves_refl|]); try done.
    split; [done|]. eexists. split; [done|]. intros Hr%Nat.eqb_neq. by rewrite Hr.
  - destruct (any v (Z.lor SRST_DATA SRST_HC)); [|destruct (any v SRST_CMD)]; (split; [apply evolves_refl|done]).
Qed.

#[export] Instance emu_slot : SdSlot (Emulator p) := {|
  ctl := control; stored := on_card; block_addressed := true;
  stored_block h l := get_block l (blocks h); read_acts := emu_read_acts; write_acts := emu_write_acts |}.
End behaviour.

(** A card that is not protected never reports an error. *)
#[export] Instance emu_faultless : Faultless (Emulator false).
Proof.
  intros e Hi _ _. cbn [ctl emu_slot read emu_mmio] in *. unfold emu_read. change (INTERRUPT =? INTERRUPT) with true. cbv iota.
  unfold poll. destruct (settle false _ _) as [st disk]. rewrite Hi. unfold answer.
  change (is_data (encode SEND_STATUS)) with false. change (cmd_index (encode SEND_STATUS)) with 13. cbn -[READY].
  destruct st as [| |l n got m room]; [done..|]. destruct (bool_decide _); [done|]. by destruct (_ =? _)%nat.
Qed.

(** * Runs *)

(** Firmware that knows one rate: it answers every tag with two words, the second 41.666 MHz. *)
Definition firmware (message : list Z) : list Z :=
  <[1%nat := 0x80000000]> (<[4%nat := 0x80000008]> (<[6%nat := 41666666]> message)).

(** The machine when it is switched on. *)
Definition off p (disk : gmap Z Block) (slow : option Lba) : Emulator p := mkEmulator 0 (mkCtl 0 0 None 0 Quiet) disk slow.

Definition demo_disk : gmap Z Block := <[0 := Fat.put 0 [0xEB] FatDemo.boot]> (MemDisk.blocks (FatDemo.disk None)).

Lemma off_calm p disk slow : calm (stored (off p disk slow)) (off p disk slow).
Proof. done. Qed.

#[local] Existing Instance ascii_only.

(** The volume of FatDemo on a card, mounted. *)
Definition mounted (slow : option Lba) : option (Fs.Mounted (Device (HW := Emulator false))) :=
  match Fs.mount (start firmware (off false demo_disk slow) (off_calm _ _ _)) None with Ret s _ => s | _ => None end.

(** A file that could not be made takes another's data.  The card is slow once, and the directory's block,
    though written, is not reported finished in time: making /b.txt fails.  The driver's law says no more of a
    failed write than that it may have happened; but the file system takes it that the new entry is not there
    and gives the clusters back, while on the card /b.txt points at them.  The next file made gets them. *)
Theorem late_card_mixes_files :
  match Fs.write_file None (str "/b.txt") (str "bbb") (mounted (Some 33)) with
  | Fail s e => e = Fs.FatErr (Fat.Device (Timeout (str "card to finish writing"))) ∧
    match Fs.write_file None (str "/c.txt") (str "ccc") s with
    | Ret s _ => match Fs.read_file (str "/b.txt") s with Ret _ data => data = str "ccc" | _ => False end
    | _ => False
    end
  | _ => False
  end.
Proof. vm_compute. split; reflexivity. Qed.

(** A write to a write-protected card succeeds and stores nothing: the card reports WP_VIOLATION in the status
    the driver polls, and only its ready and state bits are looked at. *)
Theorem status_errors_are_ignored :
  match (init firmware : Eff _ _ _) (off true demo_disk None) with
  | Ret h self =>
    match (write_block self 40 (replicate 512 7) : Eff _ _ _) h with
    | Ret h' _ => stored h' 40 = stored h 40 ∧ stored h 40 = replicate 512 0 ∧ any (resp (ctl h')) WP_VIOLATION = true
    | _ => False
    end
  | _ => False
  end.
Proof. vm_compute. split_and!; reflexivity. Qed.

(** ** What is promised, on this machine *)

Lemma wp_returned {S X A} (m : Eff S X A) h Q R (Q' : S → A → Prop) :
  wp m h Q R → returns (m h) = true → (∀ h' a, Q h' a → Q' h' a) → wp m h Q' (λ _ _, False).
Proof. unfold wp, returns. destruct (m h); [auto|done..]. Qed.

Lemma card_calls_end_witness :
  takes (write_block (HW := Emulator true) (mkCard 0 true None 0 4 0) 7 MemDisk.zero_block) (span (HW := Emulator true) 4800014 825) ∧
  takes (init_on (exchange 1 0 firmware) : Eff (Emulator true) SdError Card)
    (4 * latency (HW := Emulator true) + span (HW := Emulator true) 16000000 2000).
Proof.
  pose proof (card_calls_end (HW := Emulator true) (mkCard 0 true None 0 4 0) 7) as (_ & _ & Hw & _ & Hi).
  split; [apply Hw; by apply MemDisk.good_block_spec|].
  apply Hi; [intros m; apply takes_prompt; constructor; intros h; vm_compute; reflexivity|vm_compute; discriminate].
Defined.

Definition returns_clean {p X A} (o : outcome (Emulator p) X A) : bool :=
  match o with Ret h _ => bool_decide (clean h) | _ => false end.

Lemma wp_clean {p X A} (m : Eff (Emulator p) X A) h Q R (Q' : Emulator p → A → Prop) :
  wp m h Q R → returns_clean (m h) = true → (∀ h' a, clean h' → Q h' a → Q' h' a) → wp m h Q' (λ _ _, False).
Proof. unfold wp, returns_clean. destruct (m h); [|done..]. intros Hq Hc%bool_decide_eq_true Hm. by apply Hm. Qed.

Lemma driver_keeps_its_word_witness :
  let h := off false demo_disk None in
  wp (write_block (mkCard 0 true None 0 4 0) 40 (replicate 512 7) : Eff _ _ _) h
    (λ h' _, stored h' 40 = replicate 512 7 ∧ stored h' 0 = stored h 0) (λ _ _, False).
Proof.
  cbv zeta. pose proof (driver_keeps_its_word (HW := Emulator false) (mkCard 0 true None 0 4 0) (off false demo_disk None) 40 eq_refl
    ltac:(done)) as (_ & _ & Hw & _).
  specialize (Hw (replicate 512 7) ltac:(by apply MemDisk.good_block_spec) ltac:(unfold in_reach; lia)).
  assert (Hr : returns_clean ((write_block (mkCard 0 true None 0 4 0) 40 (replicate 512 7) : Eff _ _ _) (off false demo_disk None)) = true)
    by (vm_compute; reflexivity).
  apply (wp_clean _ _ _ _ _ Hw Hr). intros h' a Hc [_ (n & _ & Hn & Hk)]. rewrite (Hn Hc) in Hk. split.
  - rewrite Hk. exact (overlay_inside 40 [replicate 512 7] _ 0 ltac:(cbn; lia)).
  - rewrite Hk. apply overlay_outside. cbn. lia.
Defined.

Lemma init_finds_the_card_witness :
  wp (init firmware : Eff _ _ _) (off false demo_disk None)
    (λ h self, high_capacity self = true ∧ idle h ∧ ∀ k, stored h k = get k demo_disk) (λ _ _, False).
Proof.
  pose proof (init_finds_the_card (HW := Emulator false) firmware (off false demo_disk None) (off_calm _ _ _)
    ltac:(vm_compute; discriminate)) as Hw.
  assert (Hr : returns ((init firmware : Eff _ _ _) (off false demo_disk None)) = true) by (vm_compute; reflexivity).
  exact (wp_returned _ _ _ _ _ Hw Hr (λ _ _ H, H)).
Defined.
End SdDemo.
