(* ===== verification/NetTask.v ===== *)
(** The network task ([src/src/sys/net/mod.rs]) and the kernel updates it takes ([src/src/sys/update.rs]).

    The task is a state machine: a step is one turn of one of the loops of its round, with at most one
    locked section of each of the queues it shares with other tasks, whose own sections ([ask], [take_answer],
    [reply], ...) come between its steps in any order.  What the hardware says during a step (the timer, the
    random numbers, the transfers of the Ethernet controller) is the step's input [Hardware].  What the
    task prints, and its waking and sleeping, are left out. *)
From Stdlib Require Import String.
From S2P Require Import Prelude Bytes Abi Text Calendar Net Interface Lookup Update Effect Disk Fat FatProps Fs.
Open Scope list_scope.
Open Scope Z_scope.

(** * Installing a kernel *)
Module Install.
Import Effect Text Disk Fat Fs.

Definition ARMED_FOR_US : Z := 60000000.
Definition FIRST_INSTRUCTION : Z := 0xD53800A0.

(** [ARMED_UNTIL] after the call, from what the timer reads in it. *)
Definition arm (now : Z) : Z := wrap 64 (now + ARMED_FOR_US).
Definition disarm : Z := 0.

(** The timer is read again to arm it again. *)
Definition still_armed (now again armed_until : Z) : bool * Z :=
  if armed_until <=? now then (false, armed_until) else (true, arm again).

Inductive InstallError (E : Type) := NotAKernel | FsErr (e : FsError E).
Arguments NotAKernel {E}.
Arguments FsErr {E}.

Definition fat_fmt {E} (device : E → list Z) (e : FatError E) : list Z :=
  match e with
  | Device e => str "device: " ++ device e
  | NotFat reason => str "not a FAT volume: " ++ str reason
  | UnsupportedSectorSize size => dec size ++ str "-byte sectors not supported"
  | Fat12 => str "FAT12 not supported"
  | BadCluster cluster => str "bad cluster " ++ dec cluster
  | ChainLoop => str "cluster chain loops"
  | Truncated => str "file shorter than its size"
  | NotFound => str "not found"
  | NotADirectory => str "not a directory"
  | NotAFile => str "not a file"
  | AlreadyExists => str "already exists"
  | NotEmpty => str "directory not empty"
  | InvalidName => str "invalid name"
  | NoSpace => str "no space left"
  | DirectoryFull => str "root directory full"
  | Fat.TooBig => str "too big for FAT"
  end.

Definition fs_fmt {E} (device : E → list Z) (e : FsError E) : list Z :=
  match e with
  | Card e => str "sd card: " ++ device e
  | NoFatVolume => str "no FAT volume on the card"
  | FatErr e => fat_fmt device e
  | NotMounted => str "no filesystem mounted"
  | NoSpareBlocks => str "no blocks before the first partition to test on"
  | Protected => str "the Pi needs it to boot, so it can't be changed"
  | Fs.TooBig => str "bigger than " ++ dec (Z.shiftr Abi.MAX_FILE 20) ++ str " MB, too big to read"
  end.

Definition fmt {E} (device : E → list Z) (e : InstallError E) : list Z :=
  match e with NotAKernel => str "not a RustyPI kernel image" | FsErr e => fs_fmt device e end.

Definition is_kernel (image : list Z) : bool :=
  bool_decide (le_value <$> slice 0 4 image = Some FIRST_INSTRUCTION).

(** [time] is what the wall clock says. *)
Definition install `{WritableBlockDevice D E} `{Unicode} (time : option Calendar.DateTime) (image : list Z)
    : Eff (option (Mounted D)) (InstallError E) unit := λ fs,
  if negb (is_kernel image) then Fail fs NotAKernel else
  match install_kernel time image fs with
  | Ret fs tt => Ret fs tt
  | Fail fs e => Fail fs (FsErr e)
  | Panic => Panic
  end.
End Install.

Module NetTask.
Import Effect Text Lookup Interface Disk Fs.

Definition LINK_CHECK_US : Z := 1000000.
Definition BUSY_WINDOW_US : Z := 50000.
Definition USB_WAIT_US : Z := 20000000.
Definition CONSOLE_PORT : Z := 2323.
Definition UPDATE_PORT : Z := 2324.
Definition REBOOT_DELAY_US : Z := 500000.
Definition MAX_REPLY_DATAGRAM : nat := 1024.
Definition MAX_CONSOLE_QUEUE : nat := 64.

Record Peer := mkPeer { p_address : list Z; p_port : Z }.
#[export] Instance Peer_eq_dec : EqDecision Peer.
Proof. solve_decision. Defined.

Inductive State := Starting | NoController | StateFailed | Running.
Record Link := mkLink { up : bool; speed : option (Z * bool) }.
Record Status := mkStatus { s_state : State; s_mac : option (list Z); s_link : option Link; s_config : option Config }.
Record Request := mkRequest { number : Z; request_name : list Z }.

(** ** The statics other tasks share, those of [net], [sys::update], [sys::clock] and [sys::fs] *)
Record Shared (D : Type) := mkShared {
  status : Status;
  ping_requests : list (list Z * Z);
  ping_replies : list (list Z * Z * Z);
  resolve_requests : list Request;
  resolve_answers : list (Z * Resolved);
  next_request : Z;
  console_out : list (Peer * list Z);
  task_id : Z;
  attached : option Peer;
  armed_until : Z;
  wall : WallClock.WallClock;
  card : option (Mounted D);
}.
Arguments mkShared {D}. Arguments status {D}. Arguments ping_requests {D}. Arguments ping_replies {D}.
Arguments resolve_requests {D}. Arguments resolve_answers {D}. Arguments next_request {D}. Arguments console_out {D}.
Arguments task_id {D}. Arguments attached {D}. Arguments armed_until {D}. Arguments wall {D}. Arguments card {D}.

Section setters.
Context {D : Type}.
Implicit Types s : Shared D.
Definition with_status x s := mkShared x (ping_requests s) (ping_replies s) (resolve_requests s) (resolve_answers s)
  (next_request s) (console_out s) (task_id s) (attached s) (armed_until s) (wall s) (card s).
Definition with_ping_requests x s := mkShared (status s) x (ping_replies s) (resolve_requests s) (resolve_answers s)
  (next_request s) (console_out s) (task_id s) (attached s) (armed_until s) (wall s) (card s).
Definition with_ping_replies x s := mkShared (status s) (ping_requests s) x (resolve_requests s) (resolve_answers s)
  (next_request s) (console_out s) (task_id s) (attached s) (armed_until s) (wall s) (card s).
Definition with_resolve_requests x s := mkShared (status s) (ping_requests s) (ping_replies s) x (resolve_answers s)
  (next_request s) (console_out s) (task_id s) (attached s) (armed_until s) (wall s) (card s).
Definition with_resolve_answers x s := mkShared (status s) (ping_requests s) (ping_replies s) (resolve_requests s) x
  (next_request s) (console_out s) (task_id s) (attached s) (armed_until s) (wall s) (card s).
Definition with_next_request x s := mkShared (status s) (ping_requests s) (ping_replies s) (resolve_requests s)
  (resolve_answers s) x (console_out s) (task_id s) (attached s) (armed_until s) (wall s) (card s).
Definition with_console_out x s := mkShared (status s) (ping_requests s) (ping_replies s) (resolve_requests s)
  (resolve_answers s) (next_request s) x (task_id s) (attached s) (armed_until s) (wall s) (card s).
Definition with_attached x s := mkShared (status s) (ping_requests s) (ping_replies s) (resolve_requests s)
  (resolve_answers s) (next_request s) (console_out s) (task_id s) x (armed_until s) (wall s) (card s).
Definition with_armed_until x s := mkShared (status s) (ping_requests s) (ping_replies s) (resolve_requests s)
  (resolve_answers s) (next_request s) (console_out s) (task_id s) (attached s) x (wall s) (card s).
Definition with_wall x s := mkShared (status s) (ping_requests s) (ping_replies s) (resolve_requests s)
  (resolve_answers s) (next_request s) (console_out s) (task_id s) (attached s) (armed_until s) x (card s).
Definition with_card (x : option (Mounted D)) s : Shared D := mkShared (status s) (ping_requests s) (ping_replies s) (resolve_requests s)
  (resolve_answers s) (next_request s) (console_out s) (task_id s) (attached s) (armed_until s) (wall s) x.

Definition set_state x s := let t := status s in with_status (mkStatus x (s_mac t) (s_link t) (s_config t)) s.
Definition set_mac x s := let t := status s in with_status (mkStatus (s_state t) x (s_link t) (s_config t)) s.
Definition set_link x s := let t := status s in with_status (mkStatus (s_state t) (s_mac t) x (s_config t)) s.
Definition set_config x s := let t := status s in with_status (mkStatus (s_state t) (s_mac t) (s_link t) x) s.

(** ** What other tasks call *)

(** [push_back], then [pop_front] while the queue is longer than [cap]. *)
Definition push_bounded {A} (cap : nat) (x : A) (q : list A) : list A :=
  let q := q ++ [x] in drop (length q - cap) q.

Definition queue (peer : Peer) (data : list Z) s : Shared D :=
  with_console_out (push_bounded MAX_CONSOLE_QUEUE (peer, data) (console_out s)) s.

(** [slice::chunks]. *)
Fixpoint chunks (fuel n : nat) (l : list Z) : list (list Z) :=
  match fuel, l with
  | S fuel, _ :: _ => take n l :: chunks fuel n (drop n l)
  | _, _ => []
  end.

Definition mirror (irqs_enabled panicking : bool) (current : Z) (text : list Z) s : Shared D :=
  if negb irqs_enabled || panicking then s else
  match attached s with
  | None => s
  | Some peer =>
    if (1 <=? task_id s) && (task_id s - 1 =? current) then s else
    foldl (λ s chunk, queue peer chunk s) s (chunks (length text) MAX_REPLY_DATAGRAM text)
  end.

(** [rposition] of a newline. *)
Fixpoint last_newline (l : list Z) : option nat :=
  match l with
  | [] => None
  | b :: l => match last_newline l with
              | Some i => Some (S i)
              | None => if b =? 0x0A then Some 0%nat else None
              end
  end.

(** How much of [rest] goes into the next datagram. *)
Definition reply_end (rest : list Z) : nat :=
  let n := (length rest `min` MAX_REPLY_DATAGRAM)%nat in
  if decide (n < length rest)%nat then
    match last_newline (take n rest) with Some newline => (newline + 1)%nat | None => n end
  else n.

Fixpoint reply_chunks (fuel : nat) (rest : list Z) : list (list Z) :=
  match fuel, rest with
  | S fuel, _ :: _ => let n := reply_end rest in take n rest :: reply_chunks fuel (drop n rest)
  | _, _ => []
  end.

(** Every turn of the loop takes at least one byte of the text. *)
Definition reply (peer : Peer) (text : list Z) s : Shared D :=
  foldl (λ s chunk, queue peer chunk s) s (reply_chunks (length text) text).

Definition answer_lookup (n : Z) (result : Resolved) s : Shared D :=
  with_resolve_answers (push_bounded 16 (n, result) (resolve_answers s)) s.

(** [resolve]: its request, and each look at the answers. *)
Definition ask_name (name : list Z) s : Shared D * Z :=
  let n := next_request s in
  let s := with_next_request (wrap 32 (n + 1)) s in
  (with_resolve_requests (resolve_requests s ++ [mkRequest n name]) s, n).

Definition take_answer (n : Z) s : Shared D * option Resolved :=
  match list_find (λ a, a.1 = n) (resolve_answers s) with
  | Some (index, (_, result)) => (with_resolve_answers (delete index (resolve_answers s)) s, Some result)
  | None => (s, None)
  end.

Inductive PingError := NoAddress | PingTimeout.

(** [ping]: its request, and each look at the replies. *)
Definition ask_ping (target : list Z) (seq : Z) s : Shared D * result PingError unit :=
  match s_config (status s) with
  | None => (s, Err NoAddress)
  | Some _ =>
    let s := with_ping_replies (filter (λ r, r.1.2 ≠ seq) (ping_replies s)) s in
    (with_ping_requests (ping_requests s ++ [(target, seq)]) s, Ok tt)
  end.

(** [None]: the caller sleeps a millisecond and looks again. *)
Definition take_reply (target : list Z) (seq started now timeout_us : Z) s : Shared D * option (result PingError Z) :=
  match list_find (λ r, r.1.2 = seq ∧ r.1.1 = target) (ping_replies s) with
  | Some (index, (_, _, rtt_us)) => (with_ping_replies (delete index (ping_replies s)) s, Some (Ok rtt_us))
  | None => (s, if timeout_us <? wrap 64 (now - started) then Some (Err PingTimeout) else None)
  end.
End setters.

(** ** The task *)

(** The locals of [run]'s loop; [t_now] is the round's time, and before the first when the controller came up. *)
Record Task := mkTask {
  t_now : Z;
  interface : Interface;
  next_link_check : Z;
  link_up : bool;
  failing : bool;
  updates : Update.Receiver;
  resolver : Resolver;
  clock : ClockSync;
  datagrams : list Datagram;
  busy_until : Z;
  reboot_at : option Z;
}.

Definition with_interface x t := mkTask (t_now t) x (next_link_check t) (link_up t) (failing t) (updates t) (resolver t)
  (clock t) (datagrams t) (busy_until t) (reboot_at t).
Definition with_link now next up t := mkTask now (interface t) next up (failing t) (updates t) (resolver t)
  (clock t) (datagrams t) (busy_until t) (reboot_at t).
Definition with_failing x t := mkTask (t_now t) (interface t) (next_link_check t) (link_up t) x (updates t) (resolver t)
  (clock t) (datagrams t) (busy_until t) (reboot_at t).
Definition with_updates x t := mkTask (t_now t) (interface t) (next_link_check t) (link_up t) (failing t) x (resolver t)
  (clock t) (datagrams t) (busy_until t) (reboot_at t).
Definition with_lookups r c ds t := mkTask (t_now t) (interface t) (next_link_check t) (link_up t) (failing t) (updates t)
  r c ds (busy_until t) (reboot_at t).
Definition with_busy_until x t := mkTask (t_now t) (interface t) (next_link_check t) (link_up t) (failing t) (updates t)
  (resolver t) (clock t) (datagrams t) x (reboot_at t).
Definition with_reboot_at x t := mkTask (t_now t) (interface t) (next_link_check t) (link_up t) (failing t) (updates t)
  (resolver t) (clock t) (datagrams t) (busy_until t) x.

(** Where in its round the task is: [out] are the frames to send, [config] the address of the round. *)
Inductive Phase :=
| Top
| Pings (out : list (list Z))
| Replies (out : list (list Z))
| Requests (out : list (list Z)) (config : option Config)
| Timers (out : list (list Z)) (config : option Config)
| Transfers (out : list (list Z))
| Events (events : list Event) (received : bool)
| Rest (received : bool).

Inductive Net :=
| Spawned
| BringingUp (mac : list Z) (started : Z)
| Up (t : Task) (p : Phase)
| Stopped
| Rebooted.

(** What the hardware says in a step: the successive readings of the timer, the random numbers drawn, the board's MAC
    address, whether USB has failed, whether the Ethernet controller started once USB runs ([None] inside:
    no such device), its link, and the frames it received.  An error's text is only printed. *)
Record Hardware := mkHardware {
  h_time : nat → Z;
  h_random : nat → Z;
  h_mac : option (list Z);
  h_usb_failed : bool;
  h_found : option (option bool);
  h_link : option (option Link);
  h_frames : option (option (list (list Z)));
}.

(** What can be seen of a step from outside the task; of an update datagram also when it was asked whether updates
    are armed, and when they were armed again, if they were. *)
Inductive Act :=
| Asked (n : Z)
| Began (n at_ : Z)
| Answered (n : Z) (result : Resolved)
| Taken (n : Z) (result : Resolved)
| Sent (frame : list Z)
| ConsoleLine (text : list Z) (peer : Peer)
| Armed (at_ : Z)
| UpdateDatagram (at_ again : Z) (data : list Z)
| Installing (image : list Z).

Section task.
Context `{WritableBlockDevice D E} `{Unicode}.
(** How the card's errors are displayed. *)
Context (device_fmt : E → list Z).
Implicit Types (s : Shared D) (h : Hardware).

Definition bring_up h s (mac : list Z) (started : Z) : Shared D * Net :=
  let fail x := (set_state x s, Stopped) in
  if h_usb_failed h then fail NoController else
  match h_found h with
  | Some (Some true) =>
    let i := Interface.new mac (wrap 32 (h_random h 0)) in
    let s := set_mac (Some mac) (set_state Running s) in
    (s, Up (mkTask (h_time h 0) i 0 false false Update.new (Lookup.new (wrap 16 (h_random h 1))) new_clock [] 0 None) Top)
  | Some (Some false) => fail StateFailed
  | Some None => fail NoController
  | None => if USB_WAIT_US <? wrap 64 (h_time h 0 - started) then fail NoController else (s, BringingUp mac started)
  end.

Definition top h s t : Shared D * Net :=
  let now := h_time h 0 in
  if (match reboot_at t with Some at_ => at_ <=? now | None => false end) then (s, Rebooted) else
  if next_link_check t <=? now then
    let next := wrap 64 (now + LINK_CHECK_US) in
    match h_link h with
    | Some (Some link) => (set_link (Some link) s, Up (with_link now next (up link) t) (Pings []))
    | _ => (s, Up (with_link now next (link_up t) t) (Pings []))
    end
  else (s, Up (with_link now (next_link_check t) (link_up t) t) (Pings [])).

Definition pings s t (out : list (list Z)) : option (Shared D * Net) :=
  match ping_requests s with
  | (target, seq) :: rest =>
    '(i, frames) ← Interface.ping target seq (t_now t) (interface t);
    Some (with_ping_requests rest s, Up (with_interface i t) (Pings (out ++ frames)))
  | [] => Some (s, Up t (Replies out))
  end.

Definition replies s t (out : list (list Z)) : option (Shared D * Net) :=
  match console_out s with
  | (peer, data) :: rest =>
    '(i, frames) ← send_udp (p_address peer) (p_port peer) CONSOLE_PORT data (t_now t) (interface t);
    Some (with_console_out rest s, Up (with_interface i t) (Replies (out ++ frames)))
  | [] => Some (s, Up t (Requests out (i_config (interface t))))
  end.

Definition requests s t (out : list (list Z)) (config : option Config) : Shared D * Net * list Act :=
  match resolve_requests s with
  | [] => (s, Up t (Timers out config), [])
  | mkRequest n name :: rest =>
    let s := with_resolve_requests rest s in
    let again t := Up t (Requests out config) in
    let refuse error t := (answer_lookup n (Err error) s, again t, [Answered n (Err error)]) in
    match config with
    | None => refuse NoNetwork t
    | Some c =>
      match c_dns c with
      | None => refuse NoServer t
      | Some server =>
        let '(r, ds, started) := start name server (Command n) (t_now t) (resolver t) (datagrams t) in
        let t := with_lookups r (clock t) ds t in
        match started with
        | Ok _ => (s, again t, [Began n (t_now t)])
        | Err error => refuse error t
        end
      end
    end
  end.

Definition finish_lookup (purpose : Purpose) (result : Resolved) (now random : Z) s t : Shared D * Task * list Act :=
  match purpose with
  | Command n => (answer_lookup n result s, t, [Answered n result])
  | Clock =>
    let '(c, ds) := resolved result now random (clock t) (datagrams t) in
    (s, with_lookups (resolver t) c ds t, [])
  end.

Fixpoint finish_lookups (done : list (Purpose * Resolved)) (now : Z) (random : nat → Z) s t : Shared D * Task * list Act :=
  match done with
  | [] => (s, t, [])
  | (purpose, result) :: done =>
    let '(s, t, acts) := finish_lookup purpose result now (random 0%nat) s t in
    let '(s, t, acts') := finish_lookups done now (λ i, random (S i)) s t in
    (s, t, acts ++ acts')
  end.

(** [datagrams.drain(..)], sending each. *)
Fixpoint send_datagrams (now : Z) (ds : list Datagram) (i : Interface) : option (Interface * list (list Z)) :=
  match ds with
  | [] => Some (i, [])
  | d :: ds =>
    '(i, frames) ← send_udp (d_to d) (d_port d) (d_from_port d) (d_data d) now i;
    '(i, rest) ← send_datagrams now ds i;
    Some (i, frames ++ rest)
  end.

Definition timers h s t (out : list (list Z)) (config : option Config) : option (Shared D * Net * list Act) :=
  let now := t_now t in
  let t := match config with
           | Some c =>
             let '(c, r, ds) := poll_clock now (c_dns c) (h_random h 0) (clock t) (resolver t) (datagrams t) in
             with_lookups r c ds t
           | None => t
           end in
  let '(r, ds, done) := Lookup.poll now (resolver t) (datagrams t) in
  let t := with_lookups r (clock t) ds t in
  let '(s, t, acts) := finish_lookups done now (λ i, h_random h (S i)) s t in
  '(i, frames) ← send_datagrams now (datagrams t) (interface t);
  Some (s, Up (with_interface i (with_lookups (resolver t) (clock t) [] t)) (Transfers (out ++ frames)), acts).

Fixpoint receive_frames (now : Z) (frames : list (list Z)) (i : Interface) : option (Interface * list (list Z)) :=
  match frames with
  | [] => Some (i, [])
  | frame :: frames =>
    '(i, out) ← Interface.receive frame now i;
    '(i, rest) ← receive_frames now frames i;
    Some (i, out ++ rest)
  end.

(** [None]: USB runs no more, and the task ends. *)
Definition transfers h s t (out : list (list Z)) : option (Shared D * Net * list Act) :=
  match h_frames h with
  | None => Some (s, Stopped, [])
  | Some got =>
    let '(t, frames) := match got with
                        | Some frames => (with_failing false t, frames)
                        | None => (with_failing true t, [])
                        end in
    '(i, answers) ← receive_frames (t_now t) frames (interface t);
    '(i, polled) ← Interface.poll (t_now t) i;
    let '(i, events) := take_events i in
    let sent := if link_up t then Sent <$> out ++ answers ++ polled else [] in
    Some (s, Up (with_interface i t) (Events events (negb (bool_decide (frames = [])))), sent)
  end.

(** An update datagram: the shared state, the receiver, the answer and when to reboot. *)
Definition take_update h (data : list Z) s t : option (Shared D * Task * list Z * list Act) :=
  let '(armed, until) := Install.still_armed (h_time h 0) (h_time h 1) (armed_until s) in
  let s := with_armed_until until s in
  if armed then
    let '(receiver, response) := Update.handle data (updates t) in
    let t := with_updates receiver t in
    match response with
    | Update.Reply answer => Some (s, t, answer, [])
    | Update.Complete image =>
      let s := with_armed_until Install.disarm s in
      time ← WallClock.now (h_time h 2) (wall s);
      match Install.install (fst <$> time) image (card s) with
      | Panic => None
      | Ret fs tt =>
        Some (with_card fs s, with_reboot_at (Some (wrap 64 (h_time h 3 + REBOOT_DELAY_US))) t, str "F", [Installing image])
      | Fail fs error => Some (with_card fs s, t, str "X" ++ Install.fmt device_fmt error, [Installing image])
      end
    end
  else Some (s, with_updates (Update.reset (updates t)) t, str "Xnot armed: run update on the Pi first", []).

Definition handle_event h (event : Event) s t : option (Shared D * Task * list Act) :=
  match event with
  | Configured config => Some (set_config (Some config) s, t, [])
  | Unconfigured => Some (set_config None s, t, [])
  | PingReply from seq rtt_us => Some (with_ping_replies (push_bounded 16 (from, seq, rtt_us) (ping_replies s)) s, t, [])
  | UdpEvent from from_port port data =>
    if port =? CONSOLE_PORT then
      let peer := mkPeer from from_port in
      Some (with_attached (Some peer) s, t, [ConsoleLine (from_utf8_lossy (length data) data) peer])
    else if port =? UPDATE_PORT then
      '(s, t, answer, acts) ← take_update h data s t;
      '(i, frames) ← send_udp from from_port UPDATE_PORT answer (h_time h 4) (interface t);
      Some (s, with_interface i t, UpdateDatagram (h_time h 0) (h_time h 1) data :: acts ++ (if link_up t then Sent <$> frames else []))
    else if port =? DNS_PORT then
      '(r, done) ← Lookup.receive from data (resolver t);
      let t := with_lookups r (clock t) (datagrams t) t in
      match done with
      | Some (purpose, result) => Some (finish_lookup purpose result (h_time h 0) (h_random h 0) s t)
      | None => Some (s, t, [])
      end
    else if port =? SNTP_PORT then
      '(c, w) ← receive_clock from data (h_time h 0) (h_time h 1) (clock t) (wall s);
      Some (with_wall w s, with_lookups (resolver t) c (datagrams t) t, [])
    else Some (s, t, [])
  end.

(** The end of a round: straight on or, with nothing under way, a sleep, and then the next. *)
Definition rest h t (received : bool) : Task * bool :=
  let t := if received then with_busy_until (wrap 64 (h_time h 0 + BUSY_WINDOW_US)) t else t in
  (t, (busy_until t <=? h_time h 1) && negb (awaiting (interface t)) && bool_decide (datagrams t = [])).

(** A step of the task; [None] is a panic. *)
Definition net_step h s (n : Net) : option (Shared D * Net * list Act) :=
  match n with
  | Spawned =>
    match h_mac h with
    | Some mac => Some (s, BringingUp mac (h_time h 0), [])
    | None => Some (set_state StateFailed s, Stopped, [])
    end
  | BringingUp mac started => Some (bring_up h s mac started, [])
  | Up t Top => Some (top h s t, [])
  | Up t (Pings out) => '(s, n) ← pings s t out; Some (s, n, [])
  | Up t (Replies out) => '(s, n) ← replies s t out; Some (s, n, [])
  | Up t (Requests out config) => Some (requests s t out config)
  | Up t (Timers out config) => timers h s t out config
  | Up t (Transfers out) => transfers h s t out
  | Up t (Events [] received) => Some (s, Up t (Rest received), [])
  | Up t (Events (event :: events) received) =>
    '(s, t, acts) ← handle_event h event s t; Some (s, Up t (Events events received), acts)
  | Up t (Rest received) => Some (s, Up (rest h t received).1 Top, [])
  | Stopped => Some (s, Stopped, [])
  | Rebooted => Some (s, Rebooted, [])
  end.

(** ** The task among the others *)
Record World := mkWorld { shared : Shared D; net : Net; uptime : Z }.
Definition with_shared (s : Shared D) (w : World) : World := mkWorld s (net w) (uptime w).

(** The timer counts up from boot, and is not read past [2 ^ 63] microseconds; frames are bytes. *)
Record sensible (h : Hardware) (since : Z) : Prop := {
  time_since : since <= h_time h 0%nat;
  time_up : ∀ i, h_time h i <= h_time h (S i);
  time_small : ∀ i, h_time h i < 2 ^ 63;
  frames_bytes : ∀ frames, h_frames h = Some (Some frames) → Forall is_bytes frames;
}.

(** A round starts at most [G] microseconds after the one before it. *)
Definition in_time (G : Z) (h : Hardware) (n : Net) : Prop :=
  match n with Up t Top => h_time h 0%nat <= t_now t + G | _ => True end.

Section system.
Context (G : Z).

Inductive step : World → list Act → World → Prop :=
| step_net h w s n acts : sensible h (uptime w) → in_time G h (net w) →
    net_step h (shared w) (net w) = Some (s, n, acts) → step w acts (mkWorld s n (h_time h 5%nat))
| step_ask name w : step w [Asked (next_request (shared w))] (with_shared (ask_name name (shared w)).1 w)
| step_take n w : step w (Taken n <$> option_list (take_answer n (shared w)).2) (with_shared (take_answer n (shared w)).1 w)
| step_ping target seq w : step w [] (with_shared (ask_ping target seq (shared w)).1 w)
| step_pong target seq started now timeout w :
    step w [] (with_shared (take_reply target seq started now timeout (shared w)).1 w)
| step_reply peer text w : step w [] (with_shared (reply peer text (shared w)) w)
| step_mirror irqs panicking current text w : step w [] (with_shared (mirror irqs panicking current text (shared w)) w)
| step_arm at_ w : uptime w <= at_ → step w [Armed at_] (with_shared (with_armed_until (Install.arm at_) (shared w)) w)
| step_zone z c w : WallClock.use_zone z (wall (shared w)) = Some c → step w [] (with_shared (with_wall c (shared w)) w)
| step_files fs w : step w [] (with_shared (with_card fs (shared w)) w).

Inductive run (w : World) : list Act → World → Prop :=
| run_nil : run w [] w
| run_step tr w1 acts w2 : run w tr w1 → step w1 acts w2 → run w (tr ++ acts) w2.
End system.

(** As the kernel starts the task ([net::start]), with the card mounted or not. *)
Definition booted (id : Z) (fs : option (Mounted D)) : World :=
  mkWorld (mkShared (mkStatus Starting None None None) [] [] [] [] 0 [] (id + 1) None 0 WallClock.unset fs) Spawned 0.
End task.
End NetTask.
