(* ===== verification/NetProps.v ===== *)
(** What the network task ([NetTask]) promises the tasks that use it: while it is up every name asked for is
    answered once and in time, the clock is never left waiting for a lookup that is not there, only a whole kernel sent
    while updates are armed goes onto the card; and when it has stopped, [resolve] waits for ever. *)
From Stdlib Require Import String.
From S2P Require Import Prelude Bytes Text Calendar Net Interface Lookup Update Effect Disk Fat FatProps Fs NetTask.
Open Scope list_scope.
Open Scope Z_scope.

Module NetProps.
Import Effect Text Lookup Disk Fs NetTask.

(** * What a trace says *)
Definition asked (tr : list Act) : list Z := omap (λ a, match a with Asked n => Some n | _ => None end) tr.
Definition answered (tr : list Act) : list Z := omap (λ a, match a with Answered n _ => Some n | _ => None end) tr.
Definition began (tr : list Act) : list (Z * Z) := omap (λ a, match a with Began n b => Some (n, b) | _ => None end) tr.
Definition update_data (tr : list Act) : list (list Z) :=
  omap (λ a, match a with UpdateDatagram _ _ d => Some d | _ => None end) tr.

Definition commands (ps : list Purpose) : list Z := omap (λ p, match p with Command n => Some n | Clock => None end) ps.
Definition clocks (ps : list Purpose) : nat := length (filter (λ p, p = Clock) ps).
Definition resolving (c : ClockSync) : bool := match sync c with Resolving => true | _ => false end.

#[export] Instance commands_Proper : Proper ((≡ₚ) ==> (≡ₚ)) commands.
Proof. intros ps ps' Hp. unfold commands. by rewrite Hp. Qed.
#[export] Instance clocks_Proper : Proper ((≡ₚ) ==> (=)) clocks.
Proof. intros ps ps' Hp. unfold clocks. by rewrite Hp. Qed.

Lemma commands_app ps ps' : commands (ps ++ ps') = commands ps ++ commands ps'.
Proof. apply omap_app. Qed.
Lemma clocks_app ps ps' : clocks (ps ++ ps') = (clocks ps + clocks ps')%nat.
Proof. unfold clocks. by rewrite filter_app, length_app. Qed.

Lemma clocks_command n ps : clocks (Command n :: ps) = clocks ps.
Proof. unfold clocks. by rewrite filter_cons_False. Qed.
Lemma clocks_clock ps : clocks (Clock :: ps) = S (clocks ps).
Proof. unfold clocks. by rewrite filter_cons_True. Qed.

Lemma asked_app tr tr' : asked (tr ++ tr') = asked tr ++ asked tr'.
Proof. apply omap_app. Qed.
Lemma answered_app tr tr' : answered (tr ++ tr') = answered tr ++ answered tr'.
Proof. apply omap_app. Qed.
Lemma began_app tr tr' : began (tr ++ tr') = began tr ++ began tr'.
Proof. apply omap_app. Qed.
Lemma update_data_app tr tr' : update_data (tr ++ tr') = update_data tr ++ update_data tr'.
Proof. apply omap_app. Qed.

(** * Lookups *)
Section lookups.
Context {D : Type} (G : Z).

(** After the trace [tr]: [ls] are the lookups in flight, [ps] those ended that nobody has been told of yet;
    the last poll was at [prev], and no lookup was started or polled after [now]. *)
Record Ledger (tr : list Act) (s : Shared D) (prev now : Z) (ls : list Lookup) (ps : list Purpose) (c : ClockSync) : Prop := {
  led_numbers : asked tr ≡ₚ (number <$> resolve_requests s) ++ commands ((l_purpose <$> ls) ++ ps) ++ answered tr;
  led_began : ∀ n b, (n, b) ∈ began tr →
    n ∈ answered tr ∨ Command n ∈ ps ∨
    ∃ l, l ∈ ls ∧ l_purpose l = Command n ∧ timely G b l ∧ l_sent_at l <= now ∧ prev < l_sent_at l + DNS_RETRY_US;
  led_clock : clocks ((l_purpose <$> ls) ++ ps) = if resolving c then 1%nat else 0%nat;
}.

(** The ledger looks at the queue of requests only, and at three kinds of act. *)
Lemma Ledger_frame tr acts s s' prev now ls ps c c' : resolve_requests s' = resolve_requests s → asked acts = [] →
  answered acts = [] → began acts = [] → resolving c' = resolving c → Ledger tr s prev now ls ps c →
  Ledger (tr ++ acts) s' prev now ls ps c'.
Proof.
  intros Hr Ha Hn Hb Hc [H1 H2 H3].
  split; rewrite ?asked_app, ?answered_app, ?began_app, ?Ha, ?Hn, ?Hb, ?app_nil_r, ?Hr, ?Hc; done.
Qed.

Lemma Ledger_ask tr s prev now ls ps c name : Ledger tr s prev now ls ps c →
  Ledger (tr ++ [Asked (next_request s)]) (ask_name name s).1 prev now ls ps c.
Proof.
  intros [H1 H2 H3]. split; rewrite ?asked_app, ?answered_app, ?began_app; cbn; rewrite ?app_nil_r; [|done..].
  rewrite fmap_app, H1. cbn. solve_Permutation.
Qed.

Lemma Ledger_refuse tr s prev now ls ps c n name rest res : resolve_requests s = mkRequest n name :: rest →
  Ledger tr s prev now ls ps c →
  Ledger (tr ++ [Answered n res]) (answer_lookup n res (with_resolve_requests rest s)) prev now ls ps c.
Proof.
  intros Hr [H1 H2 H3]. split; rewrite ?asked_app, ?answered_app, ?began_app; cbn; rewrite ?app_nil_r; [| |done].
  - rewrite H1, Hr. cbn. solve_Permutation.
  - intros m b Hm. destruct (H2 m b Hm) as [?|?]; [left; set_solver|by right].
Qed.

Lemma Ledger_began tr s prev now ls ps c n name rest id query server : resolve_requests s = mkRequest n name :: rest →
  0 <= now → prev <= now → Ledger tr s prev now ls ps c →
  Ledger (tr ++ [Began n now]) (with_resolve_requests rest s) prev now
    (ls ++ [mkLookup id query server (Command n) now 1]) ps c.
Proof.
  intros Hr Hn Hp [H1 H2 H3]. split; rewrite ?asked_app, ?answered_app, ?began_app; cbn; rewrite ?app_nil_r.
  - rewrite H1, Hr, !commands_app, fmap_app, commands_app. cbn. solve_Permutation.
  - intros m b [Hm|[= -> ->]%list_elem_of_singleton]%elem_of_app.
    + destruct (H2 m b Hm) as [?|[?|(l & ? & ?)]]; [by left|by right; left|right; right; exists l]. set_solver.
    + right; right. eexists. split; [apply elem_of_app; right; by left|]. unfold timely, DNS_TRIES, DNS_RETRY_US.
      cbn [l_tries l_sent_at l_purpose]. split_and!; (done || lia).
  - rewrite fmap_app, !clocks_app. rewrite clocks_app in H3. cbn [fmap list_fmap l_purpose]. rewrite clocks_command. cbn. lia.
Qed.

Lemma Ledger_clock_start tr s prev now ls ps c id query server : resolving c = false → Ledger tr s prev now ls ps c →
  Ledger tr s prev now (ls ++ [mkLookup id query server Clock now 1]) ps (with_sync Resolving c).
Proof.
  intros Hc [H1 H2 H3]. rewrite Hc in H3. split.
  - rewrite H1, !commands_app, fmap_app, commands_app. cbn. solve_Permutation.
  - intros m b Hm. destruct (H2 m b Hm) as [?|[?|(l & ? & ?)]]; [by left|by right; left|right; right; exists l]. set_solver.
  - rewrite fmap_app, !clocks_app. rewrite clocks_app in H3. cbn [fmap list_fmap l_purpose]. rewrite clocks_clock. cbn in *. lia.
Qed.

Lemma Ledger_finish tr s prev now ls p ps res when random t : Ledger tr s prev now ls (p :: ps) (clock t) →
  let '(s', t', acts) := finish_lookup p res when random s t in
  Ledger (tr ++ acts) s' prev now ls ps (clock t') ∧ resolver t' = resolver t ∧ t_now t' = t_now t ∧
  asked acts = [] ∧ update_data acts = [].
Proof.
  intros [H1 H2 H3]. destruct p as [n|]; cbn [finish_lookup].
  - split; [|done]. split; rewrite ?asked_app, ?answered_app, ?began_app; cbn; rewrite ?app_nil_r.
    + rewrite H1, !commands_app. cbn. solve_Permutation.
    + intros m b Hm. destruct (H2 m b Hm) as [?|[?|?]]; [left; set_solver| |by right; right].
      set_unfold. naive_solver.
    + rewrite clocks_app, clocks_command in H3. by rewrite clocks_app.
  - destruct (resolved res when random (clock t) (datagrams t)) as [c ds] eqn:E. split; [|done].
    assert (Hc : resolving c = false).
    { unfold resolved, ask in E. repeat case_match; injection E as <- _; done. }
    rewrite app_nil_r. split; cbn [clock with_lookups].
    + rewrite H1, !commands_app. cbn. done.
    + intros m b Hm. destruct (H2 m b Hm) as [?|[?|?]]; [by left| |by right; right]. set_unfold. naive_solver.
    + rewrite clocks_app, clocks_clock in H3. rewrite clocks_app, Hc. destruct (resolving (clock t)); cbn in *; lia.
Qed.

Lemma Ledger_finish_all tr s prev now ls done when random t : Ledger tr s prev now ls done.*1 (clock t) →
  let '(s', t', acts) := finish_lookups done when random s t in
  Ledger (tr ++ acts) s' prev now ls [] (clock t') ∧ resolver t' = resolver t ∧ t_now t' = t_now t.
Proof.
  revert tr s random t. induction done as [|[p res] done IH]; intros tr s random t HL; cbn [finish_lookups].
  { by rewrite app_nil_r. }
  pose proof (Ledger_finish tr s prev now ls p done.*1 res when (random 0%nat) t HL) as HF.
  destruct (finish_lookup p res when (random 0%nat) s t) as [[s1 t1] a1]. destruct HF as (HF & Hr1 & Hn1 & _).
  specialize (IH (tr ++ a1) s1 (λ i, random (S i)) t1 HF).
  destruct (finish_lookups done when (λ i, random (S i)) s1 t1) as [[s2 t2] a2].
  rewrite (assoc_L (++)), <-Hr1, <-Hn1. done.
Qed.

Lemma Ledger_poll tr s prev now ls c kept sent done : poll_pending now ls = (kept, sent, done) →
  now <= prev + G → 0 <= now → now + DNS_RETRY_US < 2 ^ 64 → Ledger tr s prev now ls [] c →
  Ledger tr s now now kept done.*1 c.
Proof.
  intros Hp Hg H0 Hmax [H1 H2 H3]. pose proof (poll_pending_purposes _ _ _ _ _ Hp) as Hperm. rewrite app_nil_r, Hperm in H1, H3.
  split; [done| |done]. intros n b Hn. destruct (H2 n b Hn) as [?|[[]%elem_of_nil|(l & Hl & Hpu & Ht & Hs & Hpr)]]; [by left|].
  right. destruct (poll_pending_elem _ _ _ _ _ l Hp Hl) as [(l' & Hone & Hl')|Hd].
  - right. exists l'. split; [done|]. destruct (poll_one_timely G b prev now l l') as (? & ? & ?); try done. split_and!; (congruence || lia || done).
  - left. rewrite <-Hpu. apply list_elem_of_fmap. eexists. split; [|exact Hd]. done.
Qed.

Lemma Ledger_receive tr s prev now ls c i l : ls !! i = Some l → Ledger tr s prev now ls [] c →
  Ledger tr s prev now (delete i ls) [l_purpose l] c.
Proof.
  intros Hi [H1 H2 H3]. pose proof (delete_purposes i l ls Hi) as Hperm.
  assert (Hp : l_purpose <$> ls ≡ₚ (l_purpose <$> delete i ls) ++ [l_purpose l]) by (rewrite Hperm; solve_Permutation).
  rewrite app_nil_r, Hp in H1, H3. split; [done| |done].
  intros n b Hn. destruct (H2 n b Hn) as [?|[[]%elem_of_nil|(l' & Hl' & Hpu & ?)]]; [by left|]. right.
  rewrite (delete_Permutation ls i l Hi) in Hl'. apply elem_of_cons in Hl' as [->|Hl']; [left; rewrite Hpu; by left|right; eauto].
Qed.
End lookups.

(** * The ledger holds in every run *)
Section runs.
Context `{WritableBlockDevice D E} `{Unicode} (device_fmt : E → list Z) (G : Z).
Hypothesis G_pos : 0 <= G.
Implicit Types (s : Shared D) (h : Hardware) (w : World (D := D)).

(** Whether the round's poll of the lookups is behind it. *)
Definition polled (p : Phase) : bool :=
  match p with Pings _ | Replies _ | Requests _ _ | Timers _ _ => false | _ => true end.

Definition booked (tr : list Act) s (n : Net) : Prop :=
  match n with
  | Spawned | BringingUp _ _ => asked tr ≡ₚ (number <$> resolve_requests s) ++ answered tr ∧ began tr = []
  | Up t p => ∃ prev, prev <= t_now t <= prev + G ∧ (polled p = true → prev = t_now t) ∧
      Ledger G tr s prev (t_now t) (pending (resolver t)) [] (clock t)
  | Stopped | Rebooted => True
  end.

(** The timer has passed the time of the round. *)
Definition clocked (since : Z) (n : Net) : Prop :=
  0 <= since < 2 ^ 63 ∧ match n with Up t _ => 0 <= t_now t <= since | _ => True end.

(** Acts the ledger does not look at. *)
Definition silent (acts : list Act) : Prop := asked acts = [] ∧ answered acts = [] ∧ began acts = [].

Lemma silent_app acts acts' : silent acts → silent acts' → silent (acts ++ acts').
Proof. intros (Ha & Hw & Hb) (Ha' & Hw' & Hb'). unfold silent. by rewrite asked_app, answered_app, began_app, Ha, Hw, Hb. Qed.

Lemma silent_sent frames : silent (Sent <$> frames).
Proof. induction frames as [|f frames IH]; done. Qed.

(** What a step leaves as it was, of what the ledger looks at. *)
Definition quiet s s' t t' (acts : list Act) : Prop :=
  resolve_requests s' = resolve_requests s ∧ resolver t' = resolver t ∧ resolving (clock t') = resolving (clock t) ∧
  t_now t' = t_now t ∧ silent acts.

Lemma booked_quiet tr acts s s' t t' p p' : quiet s s' t t' acts → (polled p' = true → polled p = true) →
  booked tr s (Up t p) → booked (tr ++ acts) s' (Up t' p').
Proof.
  intros (Hr & Hv & Hc & Hn & Ha & Hw & Hb) Hp (prev & Hg & Hprev & HL). exists prev. rewrite Hn, Hv.
  split; [done|]. split; [auto|]. by apply (Ledger_frame G tr acts s s' prev (t_now t) _ [] (clock t)).
Qed.

Lemma take_update_quiet h data s t s' t' answer acts : take_update device_fmt h data s t = Some (s', t', answer, acts) →
  quiet s s' t t' acts.
Proof.
  unfold take_update. destruct (Install.still_armed _ _ _) as [armed until]. destruct armed; [|by intros [= <- <- <- <-]].
  destruct (Update.handle _ _) as [receiver [answer'|image]]; [by intros [= <- <- <- <-]|].
  intros (time & _ & Hi)%bind_Some. destruct (Install.install _ _ _) as [fs []|fs error|]; by simplify_eq.
Qed.

Lemma booked_event tr h event s t s' t' acts (p : Phase) : polled p = true → booked tr s (Up t p) →
  handle_event device_fmt h event s t = Some (s', t', acts) → booked (tr ++ acts) s' (Up t' p).
Proof.
  intros Hp Hb He. assert (Hquiet : quiet s s' t t' acts → booked (tr ++ acts) s' (Up t' p)) by (intros; by eapply booked_quiet).
  destruct event as [c| |from seq rtt|from from_port port data]; [by simplify_eq/=; apply Hquiet..|].
  unfold handle_event in He. repeat case_match; [by simplify_eq; apply Hquiet|..|by simplify_eq; apply Hquiet].
  - apply bind_Some in He as ([[[s1 t1] answer] acts1] & Hu%take_update_quiet & He).
    apply bind_Some in He as ([i frames] & _ & [= <- <- <-]). apply Hquiet. destruct Hu as (Hr & Hv & Hc & Hn & Hs).
    unfold quiet. cbn [resolver clock t_now with_interface]. split_and!; [done..|].
    apply (silent_app [UpdateDatagram (h_time h 0) (h_time h 1) data]); [done|]. apply silent_app; [done|].
    destruct (link_up t1); [apply silent_sent|done].
  - apply bind_Some in He as ([r done] & Hr & He). destruct (receive_total from data (resolver t)) as (r' & done' & Heq & Hnone & Hsome).
    rewrite Hr in Heq. injection Heq as <- <-. destruct Hb as (prev & Hg & Hprev & HL). destruct done as [[purpose res]|].
    + injection He as He. destruct (Hsome purpose res eq_refl) as (i & l & answer & Hi & <- & _ & _ & _ & ->).
      apply (Ledger_receive _ _ _ _ _ _ _ _ _ Hi) in HL.
      pose proof (Ledger_finish G tr s prev (t_now t) (delete i (pending (resolver t))) (l_purpose l) [] res (h_time h 0) (h_random h 0)
        (with_lookups (mkResolver (next_id (resolver t)) (delete i (pending (resolver t)))) (clock t) (datagrams t) t) HL) as HF.
      rewrite He in HF. destruct HF as (HF & Hres & Hnow & _ & _). exists prev. rewrite Hres, Hnow. done.
    + rewrite (Hnone eq_refl) in *. injection He as <- <- <-. rewrite app_nil_r. by exists prev.
  - apply bind_Some in He as ([c wl] & Hc & [= <- <- <-]). apply Hquiet. unfold quiet. cbn [resolver clock t_now with_lookups].
    split_and!; try done. unfold receive_clock in Hc. destruct (sync (clock t)) as [| |server cookie sent tries] eqn:Es;
      [by simplify_eq..|]. case_decide; [by simplify_eq|]. apply bind_Some in Hc as ([u|] & _ & Hc); simplify_eq; [|done].
    unfold resolving. by rewrite Es.
Qed.

Lemma booked_requests tr s t out config s' n' acts : 0 <= t_now t → booked tr s (Up t (Requests out config)) →
  requests s t out config = (s', n', acts) → booked (tr ++ acts) s' n'.
Proof.
  intros Hnow (prev & Hg & Hprev & HL). unfold requests. destruct (resolve_requests s) as [|[n name] queue] eqn:Hq.
  { intros [= <- <- <-]. rewrite app_nil_r. by exists prev. }
  assert (Href : ∀ res, booked (tr ++ [Answered n res]) (answer_lookup n res (with_resolve_requests queue s)) (Up t (Requests out config))).
  { intros res. exists prev. split; [done|]. split; [done|]. by eapply Ledger_refuse. }
  destruct config as [c|]; [|intros [= <- <- <-]; apply Href].
  destruct (Interface.c_dns c) as [server|]; [|intros [= <- <- <-]; apply Href].
  destruct (start _ _ _ _ _ _) as [[r ds] started] eqn:Hs. apply start_purposes in Hs.
  destruct started as [u|e]; intros [= <- <- <-].
  - destruct Hs as [query Hs]. exists prev. cbn [t_now resolver clock with_lookups]. rewrite Hs.
    split; [done|]. split; [done|]. eapply Ledger_began; [done|done|lia|done].
  - exists prev. cbn [t_now resolver clock with_lookups]. rewrite Hs. split; [done|]. split; [done|]. by eapply Ledger_refuse.
Qed.

Lemma booked_poll_clock tr s prev now dns cookie c r ds c' r' ds' : poll_clock now dns cookie c r ds = (c', r', ds') →
  Ledger G tr s prev now (pending r) [] c → Ledger G tr s prev now (pending r') [] c'.
Proof.
  intros Hp HL. assert (Hsame : ∀ c', resolving c' = resolving c → Ledger G tr s prev now (pending r) [] c').
  { intros c0 Hc. rewrite <-(app_nil_r tr). by apply (Ledger_frame G tr [] s s prev now _ [] c). }
  unfold poll_clock in Hp. destruct (sync c) as [next_at| |server k sent_at tries] eqn:Es.
  - assert (Hc : resolving c = false) by (unfold resolving; by rewrite Es).
    destruct (next_at <=? now); [|by simplify_eq]. destruct dns as [server|].
    + destruct (start _ _ _ _ _ _) as [[r1 ds1] started] eqn:Hs. apply start_purposes in Hs. destruct started as [u|e]; simplify_eq.
      * destruct Hs as [query ->]. by apply Ledger_clock_start.
      * rewrite Hs. by apply Hsame.
    + cbn in Hp. simplify_eq. by apply Hsame.
  - by simplify_eq.
  - assert (Hc : resolving c = false) by (unfold resolving; by rewrite Es).
    destruct (_ <=? now); [|by simplify_eq]. destruct (_ <=? tries); cbn in Hp; simplify_eq; by apply Hsame.
Qed.

Lemma booked_timers tr h s t out config s' n' acts : 0 <= t_now t < 2 ^ 63 → booked tr s (Up t (Timers out config)) →
  timers h s t out config = Some (s', n', acts) → booked (tr ++ acts) s' n'.
Proof.
  intros Hnow (prev & Hg & Hprev & HL) Ht. unfold timers in Ht.
  set (t1 := match config with Some _ => _ | None => t end) in Ht.
  assert (H1 : Ledger G tr s prev (t_now t) (pending (resolver t1)) [] (clock t1) ∧ t_now t1 = t_now t).
  { subst t1. destruct config as [c|]; [|done]. destruct (poll_clock _ _ _ _ _ _) as [[c' r'] ds'] eqn:Hp.
    split; [|done]. by eapply booked_poll_clock. }
  clearbody t1. destruct H1 as [HL1 Hn1]. unfold Lookup.poll in Ht.
  destruct (poll_pending (t_now t) (pending (resolver t1))) as [[kept sent] done] eqn:Hp.
  apply (Ledger_poll G tr s prev (t_now t) _ (clock t1) kept sent done Hp) in HL1; [|lia|lia|unfold DNS_RETRY_US; lia].
  pose proof (Ledger_finish_all G tr s (t_now t) (t_now t) kept done (t_now t) (λ i, h_random h (S i))
    (with_lookups (mkResolver (next_id (resolver t1)) kept) (clock t1) (datagrams t1 ++ sent) t1) HL1) as HF.
  destruct (finish_lookups _ _ _ _ _) as [[s2 t2] acts2]. destruct HF as (HF & Hr2 & Hn2).
  apply bind_Some in Ht as ([i frames] & _ & [= <- <- <-]). exists (t_now t).
  cbn [t_now resolver clock with_lookups with_interface] in *. rewrite Hr2, Hn2, Hn1. cbn [pending]. split; [lia|]. done.
Qed.

Lemma booked_top tr h s t s' n' : in_time G h (Up t Top) → t_now t <= h_time h 0 → booked tr s (Up t Top) →
  top h s t = (s', n') → booked tr s' n'.
Proof.
  intros Hg Hn (prev & _ & Hprev & HL) Ht. rewrite (Hprev eq_refl) in HL. clear Hprev.
  assert (Hb : ∀ s' next l, resolve_requests s' = resolve_requests s → booked tr s' (Up (with_link (h_time h 0) next l t) (Pings []))).
  { intros s1 next l Hr. exists (t_now t). cbn [in_time t_now with_link resolver clock] in *. split; [lia|]. split; [done|].
    destruct HL as [H1 H2 H3]. split; [by rewrite Hr| |done]. intros n b Hb.
    destruct (H2 n b Hb) as [?|[?|(l' & ? & ? & ? & ? & ?)]]; [by left|by right; left|right; right; exists l'].
    split_and!; (done || lia). }
  unfold top in Ht. repeat case_match; simplify_eq; (done || by apply Hb).
Qed.

Lemma booked_net tr h s n s' n' acts since : sensible h since → in_time G h n → clocked since n → booked tr s n →
  net_step device_fmt h s n = Some (s', n', acts) → booked (tr ++ acts) s' n'.
Proof.
  intros Hh Hg [Hs Hc] Hb Hn. pose proof (time_since _ _ Hh).
  destruct n as [|mac started|t p| |]; cbn [net_step] in Hn; [| | |by simplify_eq..].
  - destruct (h_mac h); simplify_eq; rewrite app_nil_r; done.
  - injection Hn as Hn <-. rewrite app_nil_r. unfold bring_up in Hn. repeat case_match; simplify_eq; try done.
    destruct Hb as [Ha Hbe]. exists (h_time h 0). cbn [t_now resolver clock]. split; [lia|]. split; [done|].
    split; [done| |done]. intros m b Hm. rewrite Hbe in Hm. by apply elem_of_nil in Hm.
  - destruct p as [|out|out|out config|out config|out|[|event events] received|received].
    + injection Hn as Hn <-. rewrite app_nil_r. eapply booked_top; [done| |done|done]. cbn in *. lia.
    + apply bind_Some in Hn as ([s1 n1] & Hp & [= <- <- <-]). unfold pings in Hp. destruct (ping_requests s) as [|[target seq] queue].
      * injection Hp as <- <-. by refine (booked_quiet tr _ s _ t _ _ _ _ _ Hb).
      * apply bind_Some in Hp as ([i frames] & _ & [= <- <-]). by refine (booked_quiet tr _ s _ t _ _ _ _ _ Hb).
    + apply bind_Some in Hn as ([s1 n1] & Hp & [= <- <- <-]). unfold replies in Hp. destruct (console_out s) as [|[peer data] queue].
      * injection Hp as <- <-. by refine (booked_quiet tr _ s _ t _ _ _ _ _ Hb).
      * apply bind_Some in Hp as ([i frames] & _ & [= <- <-]). by refine (booked_quiet tr _ s _ t _ _ _ _ _ Hb).
    + injection Hn as Hn. eapply booked_requests; [|done|done]. lia.
    + eapply booked_timers; [|done|done]. lia.
    + unfold transfers in Hn. destruct (h_frames h) as [got|]; [|by simplify_eq].
      destruct (match got with Some _ => _ | None => _ end) as [t1 frames] eqn:Et.
      apply bind_Some in Hn as ([i1 answers] & _ & Hn). apply bind_Some in Hn as ([i2 timed] & _ & Hn).
      injection Hn as <- <- <-. refine (booked_quiet tr _ s _ t _ _ _ _ _ Hb); [|done].
      destruct got; injection Et as <- _; (split_and!; [done..|]; cbn [link_up with_failing];
        destruct (link_up t); [apply silent_sent|done]).
    + injection Hn as <- <- <-. by refine (booked_quiet tr _ s _ t _ _ _ _ _ Hb).
    + apply bind_Some in Hn as ([[s1 t1] acts1] & He & [= <- <- <-]).
      eapply booked_event in He; [by destruct He as (prev & ?); exists prev| |]; [|exact Hb]. done.
    + injection Hn as <- <- <-. refine (booked_quiet tr _ s _ t _ _ _ _ _ Hb); [|done]. unfold rest. by destruct received.
Qed.

(** ** Steps that take no update datagram *)

(** The answers that acts give, and the list of those not yet taken after them. *)
Definition given (tr : list Act) : list (Z * Resolved) := omap (λ a, match a with Answered n r => Some (n, r) | _ => None end) tr.
Definition shelve (xs l : list (Z * Resolved)) : list (Z * Resolved) := foldl (λ l x, push_bounded 16 x l) l xs.

Lemma given_app tr tr' : given (tr ++ tr') = given tr ++ given tr'.
Proof. apply omap_app. Qed.
Lemma given_sent frames : given (Sent <$> frames) = [].
Proof. by induction frames. Qed.
Lemma shelve_app xs ys l : shelve (xs ++ ys) l = shelve ys (shelve xs l).
Proof. apply foldl_app. Qed.

Definition plain (a : Act) : Prop := match a with Armed _ | UpdateDatagram _ _ _ | Installing _ => False | _ => True end.

Definition aside s s' t t' (acts : list Act) : Prop :=
  card s' = card s ∧ armed_until s' = armed_until s ∧ updates t' = updates t ∧ t_now t' = t_now t ∧ Forall plain acts ∧
  resolve_answers s' = shelve (given acts) (resolve_answers s).

Lemma plain_sent frames : Forall plain (Sent <$> frames).
Proof. by apply Forall_fmap, Forall_true. Qed.

Lemma finish_lookup_aside p res now random s t s' t' acts : finish_lookup p res now random s t = (s', t', acts) → aside s s' t t' acts.
Proof.
  unfold finish_lookup. destruct p as [n|]; [intros [= <- <- <-]|].
  - split_and!; try done. by constructor.
  - destruct (resolved _ _ _ _ _) as [c ds]. by intros [= <- <- <-].
Qed.

Lemma finish_lookups_aside done now random s t s' t' acts : finish_lookups done now random s t = (s', t', acts) → aside s s' t t' acts.
Proof.
  revert random s t acts. induction done as [|[p res] done IH]; intros random s t acts; cbn [finish_lookups]; [by intros [= <- <- <-]|].
  destruct (finish_lookup _ _ _ _ _ _) as [[s1 t1] a1] eqn:E1. destruct (finish_lookups _ _ _ _ _) as [[s2 t2] a2] eqn:E2.
  intros [= <- <- <-]. apply finish_lookup_aside in E1 as (? & ? & ? & ? & ? & Hg1). apply IH in E2 as (? & ? & ? & ? & ? & Hg2).
  split_and!; try congruence; [by apply Forall_app|]. by rewrite given_app, shelve_app, <-Hg1.
Qed.

Definition from_update (e : Interface.Event) : option (list Z * Z * list Z) :=
  match e with Interface.UdpEvent from from_port port data => if port =? UPDATE_PORT then Some (from, from_port, data) else None | _ => None end.

Lemma handle_event_aside h e s t s' t' acts : from_update e = None → handle_event device_fmt h e s t = Some (s', t', acts) →
  aside s s' t t' acts.
Proof.
  destruct e as [c| |from seq rtt|from from_port port data]; try (intros _ [= <- <- <-]; by split_and!).
  cbn [from_update handle_event]. destruct (port =? CONSOLE_PORT).
  { intros _ [= <- <- <-]. split_and!; try done. by constructor. }
  destruct (port =? UPDATE_PORT); [done|]. intros _ He. repeat case_match; [| |by simplify_eq].
  - apply bind_Some in He as ([r [[purpose res]|]] & _ & He); [|by simplify_eq]. injection He as He.
    apply finish_lookup_aside in He. done.
  - by apply bind_Some in He as ([c wl] & _ & [= <- <- <-]).
Qed.

(** A step of the task, seen from the updates: it stands aside, it begins or ends the task's run, or it is an
    update datagram's. *)
Lemma net_step_cases h s n s' n' acts : net_step device_fmt h s n = Some (s', n', acts) →
  (card s' = card s ∧ armed_until s' = armed_until s ∧ (Forall plain acts ∧ resolve_answers s' = shelve (given acts) (resolve_answers s)) ∧
   ∀ t' p', n' = Up t' p' →
     (t_now t' = h_time h 0 ∨ ∃ t p, n = Up t p ∧ t_now t' = t_now t) ∧
     (updates t' = Update.new ∨ ∃ t p, n = Up t p ∧ updates t' = updates t)) ∨
  ∃ t e events received from from_port data t1 answer acts1 i frames,
    n = Up t (Events (e :: events) received) ∧ from_update e = Some (from, from_port, data) ∧
    take_update device_fmt h data s t = Some (s', t1, answer, acts1) ∧ n' = Up (with_interface i t1) (Events events received) ∧
    acts = UpdateDatagram (h_time h 0) (h_time h 1) data :: acts1 ++ (Sent <$> frames).
Proof.
  intros Hn. destruct n as [|mac started|t p| |]; cbn [net_step] in Hn.
  1: left; destruct (h_mac h); simplify_eq; done.
  1: left; injection Hn as Hn <-; unfold bring_up in Hn; repeat case_match; simplify_eq; split_and!; try done;
     intros t' p' [= <- <-]; by split; left.
  2, 3: left; by simplify_eq.
  assert (Haside : ∀ s' t' p' acts, aside s s' t t' acts → card s' = card s ∧ armed_until s' = armed_until s ∧
    (Forall plain acts ∧ resolve_answers s' = shelve (given acts) (resolve_answers s)) ∧
    ∀ t'' p'', Up t' p' = Up t'' p'' → (t_now t'' = h_time h 0 ∨ ∃ t0 p0, Up t p = Up t0 p0 ∧ t_now t'' = t_now t0) ∧
      (updates t'' = Update.new ∨ ∃ t0 p0, Up t p = Up t0 p0 ∧ updates t'' = updates t0)).
  { intros s0 t0 p0 acts0 (Hc & Ha & Hu & Hnow & Hp & Hans). split_and!; try done. intros t'' p'' [= <- <-].
    split; right; by exists t, p. }
  destruct p as [|out|out|out config|out config|out|[|event events] received|received].
  - left. injection Hn as Hn <-. unfold top in Hn. repeat case_match; simplify_eq; split_and!; try done;
      intros t' p' [= <- <-]; (split; [by left|right; by exists t, Top]).
  - left. apply bind_Some in Hn as ([s1 n1] & Hp & [= <- <- <-]). unfold pings in Hp. destruct (ping_requests s) as [|[target seq] queue].
    + injection Hp as <- <-. by apply Haside.
    + apply bind_Some in Hp as ([i frames] & _ & [= <- <-]). by apply Haside.
  - left. apply bind_Some in Hn as ([s1 n1] & Hp & [= <- <- <-]). unfold replies in Hp. destruct (console_out s) as [|[peer data] queue].
    + injection Hp as <- <-. by apply Haside.
    + apply bind_Some in Hp as ([i frames] & _ & [= <- <-]). by apply Haside.
  - left. injection Hn as Hn. unfold requests in Hn.
    repeat case_match; simplify_eq; apply Haside; (split_and!; try done; by constructor).
  - left. unfold timers in Hn. set (t1 := match config with Some _ => _ | None => t end) in Hn.
    assert (Ht1 : updates t1 = updates t ∧ t_now t1 = t_now t).
    { subst t1. destruct config; [|done]. by destruct (poll_clock _ _ _ _ _ _) as [[c' r'] ds']. }
    clearbody t1. destruct (Lookup.poll _ _ _) as [[r ds] done]. destruct (finish_lookups _ _ _ _ _) as [[s2 t2] acts2] eqn:Ef.
    apply finish_lookups_aside in Ef as (? & ? & Hu & Hnow & ? & ?). apply bind_Some in Hn as ([i frames] & _ & [= <- <- <-]).
    apply Haside. cbn [updates t_now with_lookups with_interface] in *. destruct Ht1. split_and!; try done. all: cbn [updates t_now with_lookups with_interface]; congruence.
  - left. unfold transfers in Hn. destruct (h_frames h) as [got|]; [|by simplify_eq].
    destruct (match got with Some _ => _ | None => _ end) as [t1 frames] eqn:Et.
    apply bind_Some in Hn as ([i1 answers] & _ & Hn). apply bind_Some in Hn as ([i2 timed] & _ & Hn).
    injection Hn as <- <- <-. apply Haside.
    destruct got; injection Et as <- _; (split_and!; try done; cbn [link_up with_failing];
        destruct (link_up t); rewrite ?given_sent; done || apply plain_sent).
  - left. injection Hn as <- <- <-. by apply Haside.
  - apply bind_Some in Hn as ([[s1 t1] acts1] & He & [= <- <- <-]). destruct (from_update event) as [[[from from_port] data]|] eqn:Eu.
    + right. destruct event as [| | |from' from_port' port data']; try done. cbn [from_update] in Eu.
      destruct (port =? UPDATE_PORT) eqn:Ep; [|done]. injection Eu as -> -> ->.
      cbn [handle_event] in He. apply Z.eqb_eq in Ep as ->. cbn [Z.eqb] in He. change (UPDATE_PORT =? CONSOLE_PORT) with false in He.
      change (UPDATE_PORT =? UPDATE_PORT) with true in He. cbv iota in He.
      apply bind_Some in He as ([[[s2 t2] answer] acts2] & Hu & He). apply bind_Some in He as ([i frames] & _ & [= <- <- <-]).
      exists t. do 11 eexists. split_and!; [done|done|exact Hu|done|]. f_equal. f_equal. instantiate (1 := if link_up t2 then _ else []).
      by destruct (link_up t2).
    + left. by apply Haside, (handle_event_aside _ _ _ _ _ _ _ Eu He).
  - left. injection Hn as <- <- <-. apply Haside. unfold rest. by destruct received.
Qed.

Lemma take_update_now h data s t s' t' answer acts : take_update device_fmt h data s t = Some (s', t', answer, acts) →
  t_now t' = t_now t.
Proof. by intros (_ & _ & _ & ? & _)%take_update_quiet. Qed.

Lemma take_update_answers h data s t s' t' answer acts : take_update device_fmt h data s t = Some (s', t', answer, acts) →
  resolve_answers s' = resolve_answers s ∧ given acts = [].
Proof.
  unfold take_update. destruct (Install.still_armed _ _ _) as [armed until]. destruct armed; [|by intros [= <- <- <- <-]].
  destruct (Update.handle _ _) as [receiver [answer'|image]]; [by intros [= <- <- <- <-]|].
  intros (time & _ & Hi)%bind_Some. destruct (Install.install _ _ _) as [fs []|fs error|]; by simplify_eq.
Qed.

(** The answers a step gives are put in the list, and no others. *)
Lemma net_step_answers h s n s' n' acts : net_step device_fmt h s n = Some (s', n', acts) →
  resolve_answers s' = shelve (given acts) (resolve_answers s).
Proof.
  intros [(_ & _ & [_ Ha] & _)|(t & e & es & r & f & fp & d & t1 & a & a1 & i & fr & _ & _ & Hu & _ & ->)]%net_step_cases; [done|].
  apply take_update_answers in Hu as [-> Hg]. change (?x :: ?l ++ ?k) with ([x] ++ l ++ k). by rewrite !given_app, Hg, given_sent.
Qed.

Lemma sensible_le h since i : sensible h since → since <= h_time h i < 2 ^ 63.
Proof.
  intros Hh. split; [|apply (time_small _ _ Hh)]. induction i as [|i IH]; [apply (time_since _ _ Hh)|].
  pose proof (time_up _ _ Hh i). lia.
Qed.

Lemma clocked_net h s n s' n' acts since : sensible h since → clocked since n →
  net_step device_fmt h s n = Some (s', n', acts) → clocked (h_time h 5) n'.
Proof.
  intros Hh [Hs Hc] Hn. pose proof (sensible_le h since 5 Hh). pose proof (sensible_le h since 0 Hh).
  assert (h_time h 0 <= h_time h 5) by (do 5 (etrans; [apply (time_up _ _ Hh)|]); done).
  split; [lia|]. apply net_step_cases in Hn as [(_ & _ & _ & Hn)|(t & e & es & r & f & fp & d & t1 & a & a1 & i & fr & -> & _ & Hu & -> & _)].
  - destruct n' as [| |t' p'| |]; try done. destruct (Hn t' p' eq_refl) as [[->|(t & p & -> & ->)] _]; lia.
  - apply take_update_now in Hu. cbn in *. lia.
Qed.

(** ** What the other tasks do *)
Lemma queue_all peer cs s : ∃ q, foldl (λ s chunk, queue peer chunk s) s cs = with_console_out q s.
Proof.
  revert s. induction cs as [|c cs IH]; intros s; [exists (console_out s); by destruct s|]. cbn [foldl].
  destruct (IH (queue peer c s)) as [q ->]. by exists q.
Qed.

(** A step of another task: it asks for a name, arms the updates, writes the card, or none of these. *)
Lemma step_cases w acts w' : step device_fmt G w acts w' →
  (∃ h s n, sensible h (uptime w) ∧ in_time G h (net w) ∧ net_step device_fmt h (shared w) (net w) = Some (s, n, acts) ∧
    w' = mkWorld s n (h_time h 5)) ∨
  (∃ name, acts = [Asked (next_request (shared w))] ∧ w' = with_shared (ask_name name (shared w)).1 w) ∨
  (∃ at_, acts = [Armed at_] ∧ uptime w <= at_ ∧ w' = with_shared (with_armed_until (Install.arm at_) (shared w)) w) ∨
  (∃ n, acts = Taken n <$> option_list (take_answer n (shared w)).2 ∧ w' = with_shared (take_answer n (shared w)).1 w) ∨
  acts = [] ∧ resolve_requests (shared w') = resolve_requests (shared w) ∧
    resolve_answers (shared w') = resolve_answers (shared w) ∧
    armed_until (shared w') = armed_until (shared w) ∧ net w' = net w ∧ uptime w' = uptime w.
Proof.
  destruct 1 as [h w s n acts Hh Hg Hn|name w|n w|target seq w|target seq started now timeout w|peer text w
                |irqs panicking current text w|at_ w Hat|z c w Hz|fs w].
  - left. by exists h, s, n.
  - right; left. by exists name.
  - right; right; right; left. by exists n.
  - do 4 right. unfold ask_ping. by repeat case_match.
  - do 4 right. unfold take_reply. by repeat case_match.
  - do 4 right. unfold reply. destruct (queue_all peer (reply_chunks (length text) text) (shared w)) as [q ->]. done.
  - do 4 right. unfold mirror. repeat case_match; try done. cbn [with_shared shared].
    match goal with |- context [foldl _ _ ?cs] => destruct (queue_all p cs (shared w)) as [q ->] end. done.
  - right; right; left. by exists at_.
  - by do 4 right.
  - by do 4 right.
Qed.

(** Taking an answer leaves the rest of what is shared as it was. *)
Lemma take_answer_quiet n s : let s' := (take_answer n s).1 in
  resolve_requests s' = resolve_requests s ∧ armed_until s' = armed_until s ∧ card s' = card s ∧
  resolve_answers s' ⊆ resolve_answers s.
Proof.
  unfold take_answer. destruct (list_find _ _) as [[index [m result]]|]; [|done]. split_and!; try done.
  by apply list_subseteq_delete.
Qed.

Lemma silent_taken n (r : option Resolved) : silent (Taken n <$> option_list r).
Proof. by destruct r. Qed.

Lemma booked_others tr acts s s' n : resolve_requests s' = resolve_requests s → silent acts → booked tr s n → booked (tr ++ acts) s' n.
Proof.
  intros Hr (Ha & Hw & Hb) HB. destruct n as [|mac st|t p| |]; cbn [booked] in *; try done.
  1, 2: by rewrite asked_app, answered_app, began_app, Ha, Hw, Hb, !app_nil_r, Hr.
  destruct HB as (prev & Hg & Hp & HL). exists prev. split; [done|]. split; [done|]. by eapply Ledger_frame.
Qed.

Lemma booked_ask tr s n name : booked tr s n → booked (tr ++ [Asked (next_request s)]) (ask_name name s).1 n.
Proof.
  destruct n as [|mac st|t p| |]; cbn [booked]; try done.
  1, 2: intros [Ha Hb]; rewrite asked_app, answered_app, began_app; cbn; rewrite !app_nil_r, fmap_app, Ha;
    split; [cbn; solve_Permutation|done].
  intros (prev & Hg & Hp & HL). exists prev. split; [done|]. split; [done|]. by apply Ledger_ask.
Qed.

Lemma run_booked id fs tr w : run device_fmt G (booted id fs) tr w → clocked (uptime w) (net w) ∧ booked tr (shared w) (net w).
Proof.
  induction 1 as [|tr w1 acts w2 _ [Hc Hb] Hs]; [by split; [split; [cbn; lia|]|]|].
  apply step_cases in Hs as [(h & s & n & Hh & Hg & Hn & ->)|[(name & -> & ->)|[(at_ & -> & _ & ->)|[(n & -> & ->)|(-> & Hr & _ & _ & Hnet & Hup)]]]].
  - cbn [shared net uptime]. split; [by eapply clocked_net|by eapply booked_net].
  - split; [done|]. by apply booked_ask.
  - split; [done|]. by apply (booked_others tr _ (shared w1)).
  - split; [done|]. apply (booked_others tr _ (shared w1)); [apply take_answer_quiet|apply silent_taken|done].
  - rewrite Hnet, Hup. split; [done|]. by apply (booked_others tr _ (shared w1)).
Qed.

(** ** The answers wait for their takers *)
(** Where an answer is, after acts [b]: in the list [l], with no more behind it than were given since; or it was
    taken; or sixteen more were given. *)
Definition placed (n : Z) (r : Resolved) (b : list Act) (l : list (Z * Resolved)) : Prop :=
  (∃ l1 l2, l = l1 ++ (n, r) :: l2 ∧ (length l2 ≤ length (answered b))%nat) ∨ (∃ r', Taken n r' ∈ b) ∨ (16 ≤ length (answered b))%nat.
Definition awaits (tr : list Act) (l : list (Z * Resolved)) : Prop := ∀ a n r b, tr = a ++ Answered n r :: b → placed n r b l.

(** One act more. *)
Lemma awaits_snoc tr x l l' : (∀ n r b, placed n r b l → placed n r (b ++ [x]) l') →
  (∀ n r, x = Answered n r → ∃ l1, l' = l1 ++ [(n, r)]) → awaits tr l → awaits (tr ++ [x]) l'.
Proof.
  intros Hold Hnew Ha a n r b. destruct b as [|y b _] using rev_ind; intros Heq.
  - apply app_inj_tail in Heq as [-> ->]. destruct (Hnew n r eq_refl) as [l1 ->]. left. exists l1, []. by split; [|cbn; lia].
  - rewrite (app_comm_cons b [y] (Answered n r)), app_assoc in Heq. apply app_inj_tail in Heq as [-> <-]. by apply Hold, (Ha a).
Qed.

Lemma placed_more n r b x l l' : placed n r b l →
  (∀ l1 l2, l = l1 ++ (n, r) :: l2 → (length l2 ≤ length (answered b))%nat → placed n r (b ++ [x]) l') → placed n r (b ++ [x]) l'.
Proof.
  intros [(l1 & l2 & Hl & Hlen)|[(r' & Hin)|Hlen]] Hp; [by eapply Hp|right; left; exists r'; set_solver|right; right].
  rewrite answered_app, length_app. lia.
Qed.

Lemma awaits_push tr l n r : awaits tr l → awaits (tr ++ [Answered n r]) (push_bounded 16 (n, r) l).
Proof.
  apply awaits_snoc.
  - intros m q b Hp. apply (placed_more _ _ _ _ _ _ Hp). intros l1 l2 -> Hlen. unfold push_bounded.
    rewrite <-app_assoc, <-app_comm_cons. set (k := (_ - 16)%nat).
    assert (Hk : k = (length l1 + length l2 + 2 - 16)%nat) by (unfold k; rewrite length_app; cbn [length]; rewrite length_app; cbn; lia).
    clearbody k. assert (Hb : length (answered (b ++ [Answered n r])) = S (length (answered b))) by (rewrite answered_app, length_app; cbn; lia).
    destruct (decide (k ≤ length l1)%nat).
    + left. exists (drop k l1), (l2 ++ [(n, r)]). rewrite drop_app_le by done. split; [done|]. rewrite Hb, length_app. cbn. lia.
    + right; right. lia.
  - intros m q [= -> ->]. unfold push_bounded. exists (drop (length (l ++ [(m, q)]) - 16) l).
    rewrite drop_app_le; [done|]. rewrite length_app. cbn. lia.
Qed.

Lemma awaits_other tr l x : given [x] = [] → awaits tr l → awaits (tr ++ [x]) l.
Proof.
  intros Hx. apply awaits_snoc; [|by intros n r ->]. intros n r b Hp. apply (placed_more _ _ _ _ _ _ Hp). intros l1 l2 -> Hlen.
  left. exists l1, l2. split; [done|]. rewrite answered_app, length_app. lia.
Qed.

Lemma awaits_acts tr l acts : awaits tr l → awaits (tr ++ acts) (shelve (given acts) l).
Proof.
  revert tr l. induction acts as [|x acts IH]; intros tr l Ha; [by rewrite app_nil_r|].
  rewrite (assoc_L (++) tr [x] acts : tr ++ x :: acts = _). change (x :: acts) with ([x] ++ acts). rewrite given_app, shelve_app. apply IH.
  destruct (decide (given [x] = [])) as [Hx|Hx]; [rewrite Hx; by apply awaits_other|]. destruct x; try done. by apply awaits_push.
Qed.

Lemma awaits_take tr s n : awaits tr (resolve_answers s) →
  awaits (tr ++ (Taken n <$> option_list (take_answer n s).2)) (resolve_answers (take_answer n s).1).
Proof.
  intros Ha. unfold take_answer. destruct (list_find _ _) as [[index [m res]]|] eqn:Ef; cbn [fst snd option_list fmap list_fmap]; [|by rewrite app_nil_r].
  apply list_find_Some in Ef as (Hi & Hm & _). cbn [fst] in Hm. subst m. revert Ha. apply awaits_snoc; [|done].
  intros m r b Hp. apply (placed_more _ _ _ _ _ _ Hp). intros l1 l2 Hl Hlen.
  destruct (decide (m = n)) as [->|Hne]; [right; left; exists res; set_solver|]. left. cbn [resolve_answers with_resolve_answers].
  rewrite Hl in Hi |- *. destruct (decide (index < length l1)%nat) as [Hlt|Hge].
  - exists (take index l1 ++ drop (S index) l1), l2. rewrite delete_take_drop, take_app_le, drop_app_le by lia.
    split; [by rewrite app_assoc|]. rewrite answered_app, length_app. lia.
  - destruct (decide (index = length l1)) as [->|Hgt]; [rewrite lookup_app_r, Nat.sub_diag in Hi by lia; cbn in Hi; congruence|].
    destruct (Nat.le_exists_sub (S (length l1)) index) as (j & -> & _); [lia|].
    exists l1, (take j l2 ++ drop (S j) l2). rewrite delete_take_drop. replace (j + S (length l1))%nat with (length l1 + S j)%nat by lia.
    rewrite take_app_add. replace (S (length l1 + S j)) with (length l1 + S (S j))%nat by lia. rewrite drop_app_add. cbn [take drop].
    split; [by rewrite <-app_assoc|]. rewrite answered_app, !length_app, length_take, length_drop. lia.
Qed.

Lemma run_kept id fs tr w : run device_fmt G (booted id fs) tr w → awaits tr (resolve_answers (shared w)).
Proof.
  induction 1 as [|tr w1 acts w2 _ IH Hs]; [intros [] ? ? ? [=]|].
  apply step_cases in Hs as [(h & s & n & _ & _ & Hn & ->)|[(name & -> & ->)|[(at_ & -> & _ & ->)|[(n & -> & ->)|(-> & _ & Hans & _)]]]].
  - cbn [shared]. rewrite (net_step_answers _ _ _ _ _ _ Hn). by apply awaits_acts.
  - by apply awaits_other.
  - by apply awaits_other.
  - by apply awaits_take.
  - by rewrite app_nil_r, Hans.
Qed.

(** C30: while the network task runs, every name that a command asks for is answered once, in time, and the answer
    can be taken.  Whatever the hardware and the other tasks do, as long as the task is up (where USB fails it stops,
    and [resolve_waits_for_ever]), each request made is in exactly one place: the queue, the lookups in flight,
    or the answers given.  A lookup begun at a time [b] is answered before [b] plus three tries of a second, if
    the rounds of the task are never more than [G] apart: [G] more per try and once more, for the round that
    finds it late.  An answer given is in the list the commands look at, with its result, until it is taken, or
    sixteen later answers have pushed it out.  And the clock waits for the time server's address exactly while a lookup
    for it is in flight. *)
Theorem lookups_are_answered_in_time id fs tr w t p : run device_fmt G (booted id fs) tr w → net w = Up t p →
  asked tr ≡ₚ (number <$> resolve_requests (shared w)) ++ commands (purposes (resolver t)) ++ answered tr ∧
  (∀ n b, (n, b) ∈ began tr → n ∈ answered tr ∨ t_now t < b + DNS_TRIES * (DNS_RETRY_US + G) + G) ∧
  (∀ a n r b, tr = a ++ Answered n r :: b →
     (n, r) ∈ resolve_answers (shared w) ∨ (∃ r', Taken n r' ∈ b) ∨ (16 ≤ length (answered b))%nat) ∧
  (sync (clock t) = Resolving ↔ Clock ∈ purposes (resolver t)).
Proof.
  intros Hr Hn. destruct (run_booked _ _ _ _ Hr) as [_ Hb]. rewrite Hn in Hb. destruct Hb as (prev & Hg & _ & [H1 H2 H3]).
  rewrite app_nil_r in H1, H3. split; [done|]. split_and!.
  - intros n b Hnb. destruct (H2 n b Hnb) as [?|[[]%elem_of_nil|(l & _ & _ & Ht & Hl & Hpl)]]; [by left|]. right.
    pose proof (timely_bound G b prev l Ht G_pos Hpl). lia.
  - intros a n r b Htr. destruct (run_kept _ _ _ _ Hr a n r b Htr) as [(l1 & l2 & -> & _)|?]; [left|by right].
    apply elem_of_app. right. by left.
  - unfold resolving, purposes, clocks in *. split.
    + intros Hs. rewrite Hs in H3. destruct (filter _ _) as [|x xs] eqn:Ef; [done|].
      assert (Hx : x ∈ filter (λ p, p = Clock) (l_purpose <$> pending (resolver t))) by (rewrite Ef; left).
      by apply list_elem_of_filter in Hx as [-> ?].
    + intros Hc. destruct (sync (clock t)); [|done|]; exfalso; apply length_zero_iff_nil in H3;
        (assert (Hx : Clock ∈ filter (λ p, p = Clock) (l_purpose <$> pending (resolver t))) by (by apply list_elem_of_filter));
        rewrite H3 in Hx; by apply elem_of_nil in Hx.
Qed.

(** * Updates *)
Definition installing (a : Act) : Prop := match a with Installing _ => True | _ => False end.

(** Updates are taken at the time [now], after the acts [tr]: in the last sixty seconds, and since the last
    kernel was installed (or refused), a command armed them, or they were armed again for a datagram that came while they
    were taken. *)
Inductive armed_at : list Act → Z → Prop :=
| armed_by_command a at_ b now : Forall (λ x, ¬ installing x) b → now < at_ + 60 * 1000000 →
    armed_at (a ++ Armed at_ :: b) now
| armed_by_datagram a at_ again data b now : armed_at a at_ → Forall (λ x, ¬ installing x) b → now < again + 60 * 1000000 →
    armed_at (a ++ UpdateDatagram at_ again data :: b) now.

Lemma armed_at_more tr acts now : armed_at tr now → Forall (λ x, ¬ installing x) acts → armed_at (tr ++ acts) now.
Proof.
  intros [a at_ b now' Hb Hn|a at_ again data b now' Ha Hb Hn] Hacts; rewrite <-app_assoc, <-app_comm_cons.
  - constructor; [by apply Forall_app|done].
  - by constructor; [|apply Forall_app|].
Qed.

(** As long as [ARMED_UNTIL] says. *)
Definition armed_for tr (until : Z) : Prop := ∀ now, 0 <= now < until → armed_at tr now.

Lemma armed_for_more tr acts until : armed_for tr until → Forall (λ x, ¬ installing x) acts → armed_for (tr ++ acts) until.
Proof. intros Ha Hacts now Hn. apply armed_at_more; auto. Qed.

Lemma arm_le at_ : 0 <= at_ → Install.arm at_ <= at_ + 60 * 1000000.
Proof. intros. unfold Install.arm, Install.ARMED_FOR_US. apply Z.mod_le; lia. Qed.

Local Ltac no_install := repeat (apply Forall_cons; split; [by intros []|]); by constructor.

Lemma plain_not_installing acts : Forall plain acts → Forall (λ x, ¬ installing x) acts.
Proof. apply List.Forall_impl. intros []; naive_solver. Qed.

Lemma plain_update_data acts : Forall plain acts → update_data acts = [].
Proof. induction 1 as [|a acts Ha _ IH]; [done|]. by destruct a. Qed.

(** The datagrams waiting in the task are made of bytes. *)
Definition events_bytes (n : Net) : Prop :=
  match n with
  | Up t p => Forall Interface.event_bytes (Interface.i_events (interface t)) ∧
              match p with Events es _ => Forall Interface.event_bytes es | _ => True end
  | _ => True
  end.

Lemma send_datagrams_events now ds i i' out : send_datagrams now ds i = Some (i', out) →
  Interface.i_events i' = Interface.i_events i.
Proof.
  revert i i' out. induction ds as [|d ds IH]; intros i i' out; cbn [send_datagrams]; [by intros [= <- _]|].
  intros ([i1 f1] & H1 & ([i2 f2] & H2 & [= <- _])%bind_Some)%bind_Some.
  apply Interface.send_udp_events in H1. apply IH in H2. congruence.
Qed.

Lemma receive_frames_events now frames i i' out : Forall is_bytes frames → Forall Interface.event_bytes (Interface.i_events i) →
  receive_frames now frames i = Some (i', out) → Forall Interface.event_bytes (Interface.i_events i').
Proof.
  revert i i' out. induction frames as [|f frames IH]; intros i i' out Hf Hi; cbn [receive_frames]; [by intros [= <- _]|].
  apply Forall_cons in Hf as [Hf Hfs]. intros ([i1 f1] & H1 & ([i2 f2] & H2 & [= <- _])%bind_Some)%bind_Some.
  eapply IH; [done| |done]. by eapply Interface.receive_events.
Qed.

Lemma finish_lookups_interface done now random s t s' t' acts : finish_lookups done now random s t = (s', t', acts) →
  interface t' = interface t.
Proof.
  revert random s t acts. induction done as [|[p res] done IH]; intros random s t acts; cbn [finish_lookups]; [by intros [= <- <- <-]|].
  destruct (finish_lookup _ _ _ _ _ _) as [[s1 t1] a1] eqn:E1. destruct (finish_lookups _ _ _ _ _) as [[s2 t2] a2] eqn:E2.
  intros [= <- <- <-]. apply IH in E2. rewrite E2. unfold finish_lookup in E1.
  destruct p; [by simplify_eq|]. destruct (resolved _ _ _ _ _); by simplify_eq.
Qed.

Lemma take_update_interface h data s t s' t' answer acts : take_update device_fmt h data s t = Some (s', t', answer, acts) →
  interface t' = interface t.
Proof.
  unfold take_update. destruct (Install.still_armed _ _ _) as [armed until]. destruct armed; [|by intros [= <- <- <- <-]].
  destruct (Update.handle _ _) as [receiver [answer'|image]]; [by intros [= <- <- <- <-]|].
  intros (time & _ & Hi)%bind_Some. destruct (Install.install _ _ _) as [fs []|fs error|]; by simplify_eq.
Qed.

Lemma handle_event_interface h e s t s' t' acts : handle_event device_fmt h e s t = Some (s', t', acts) →
  Interface.i_events (interface t') = Interface.i_events (interface t).
Proof.
  destruct e as [c| |from seq rtt|from from_port port data]; cbn [handle_event]; [by intros [= <- <- <-]..|].
  intros He. repeat case_match; [by simplify_eq|..|by simplify_eq].
  - apply bind_Some in He as ([[[s1 t1] answer] acts1] & Hu%take_update_interface & He).
    apply bind_Some in He as ([i frames] & Hi & [= <- <- <-]). apply Interface.send_udp_events in Hi. cbn. congruence.
  - apply bind_Some in He as ([r [[purpose res]|]] & _ & He); [|by simplify_eq]. injection He as He.
    unfold finish_lookup in He. destruct purpose; [by simplify_eq|]. destruct (resolved _ _ _ _ _); by simplify_eq.
  - by apply bind_Some in He as ([c wl] & _ & [= <- <- <-]).
Qed.

Lemma events_bytes_net h s n s' n' acts since : sensible h since → events_bytes n →
  net_step device_fmt h s n = Some (s', n', acts) → events_bytes n'.
Proof.
  intros Hh Hb Hn. destruct n as [|mac started|t p| |]; cbn [net_step] in Hn; [| | |by simplify_eq..].
  - destruct (h_mac h); by simplify_eq.
  - injection Hn as Hn <-. unfold bring_up in Hn. repeat case_match; by simplify_eq.
  - destruct Hb as [Hi Hp]. destruct p as [|out|out|out config|out config|out|[|event events] received|received].
    + injection Hn as Hn <-. unfold top in Hn. repeat case_match; by simplify_eq.
    + apply bind_Some in Hn as ([s1 n1] & Hq & [= <- <- <-]). unfold pings in Hq. destruct (ping_requests s) as [|[target seq] queue].
      * by injection Hq as <- <-.
      * apply bind_Some in Hq as ([i frames] & Hs%Interface.ping_events & [= <- <-]). split; [|done]. cbn. by rewrite Hs.
    + apply bind_Some in Hn as ([s1 n1] & Hq & [= <- <- <-]). unfold replies in Hq. destruct (console_out s) as [|[peer data] queue].
      * by injection Hq as <- <-.
      * apply bind_Some in Hq as ([i frames] & Hs%Interface.send_udp_events & [= <- <-]). split; [|done]. cbn. by rewrite Hs.
    + injection Hn as Hn. unfold requests in Hn. repeat case_match; by simplify_eq.
    + unfold timers in Hn. set (t1 := match config with Some _ => _ | None => t end) in Hn.
      assert (Ht1 : interface t1 = interface t).
      { subst t1. destruct config; [|done]. by destruct (poll_clock _ _ _ _ _ _) as [[c' r'] ds']. }
      clearbody t1. destruct (Lookup.poll _ _ _) as [[r ds] done]. destruct (finish_lookups _ _ _ _ _) as [[s2 t2] acts2] eqn:Ef.
      apply finish_lookups_interface in Ef. apply bind_Some in Hn as ([i frames] & Hs%send_datagrams_events & [= <- <- <-]).
      split; [|done]. cbn in *. by rewrite Hs, Ef, Ht1.
    + unfold transfers in Hn. destruct (h_frames h) as [got|] eqn:Eg; [|by simplify_eq].
      destruct (match got with Some _ => _ | None => _ end) as [t1 frames] eqn:Et.
      apply bind_Some in Hn as ([i1 answers] & H1 & Hn). apply bind_Some in Hn as ([i2 timed] & H2%Interface.poll_events & Hn).
      injection Hn as <- <- <-. split; [by constructor|]. cbn. rewrite H2. eapply receive_frames_events; [| |exact H1].
      * destruct got as [got|]; injection Et as _ <-; [|by constructor]. by apply (frames_bytes _ _ Hh).
      * destruct got; injection Et as <- _; done.
    + by injection Hn as <- <- <-.
    + apply bind_Some in Hn as ([[s1 t1] acts1] & He%handle_event_interface & [= <- <- <-]). apply Forall_cons in Hp as [_ Hp].
      split; [by rewrite He|done].
    + injection Hn as <- <- <-. split; [|done]. unfold rest. by destruct received.
Qed.

(** What installing does to the card. *)
Definition installed (image : list Z) (fs fs' : option (Mounted D)) : Prop :=
  Install.is_kernel image = true ∧
  ∃ time, install_kernel time image fs = Ret fs' tt ∨ ∃ e, install_kernel time image fs = Fail fs' e.

Lemma install_installed time image (fs fs' : option (Mounted D)) :
  Install.install time image fs = Ret fs' tt ∨ (∃ e, Install.install time image fs = Fail fs' e) → fs' = fs ∨ installed image fs fs'.
Proof.
  unfold Install.install. destruct (Install.is_kernel image) eqn:Ek; cbn [negb]; [|intros [?|[e ?]]; simplify_eq; by left].
  intros Hi. right. split; [done|]. exists time. destruct (install_kernel time image fs) as [fs1 []|fs1 e1|];
    destruct Hi as [?|[e ?]]; simplify_eq; [by left|right; by eexists].
Qed.

Lemma take_update_spec h data s t s' t' answer acts tr since : sensible h since → 0 <= since → is_bytes data →
  Update.traced (update_data tr) (updates t) → armed_for tr (armed_until s) →
  take_update device_fmt h data s t = Some (s', t', answer, acts) →
  Update.traced (update_data tr ++ [data]) (updates t') ∧
  (acts = [] ∧ card s' = card s ∧ armed_for (tr ++ [UpdateDatagram (h_time h 0) (h_time h 1) data]) (armed_until s') ∨
   ∃ image, acts = [Installing image] ∧ armed_until s' = 0 ∧ armed_at tr (h_time h 0) ∧ Update.was_sent (update_data tr) image ∧
     (card s' = card s ∨ installed image (card s) (card s'))).
Proof.
  intros Hh H0' Hd Ht Ha Hu. unfold take_update, Install.still_armed in Hu. pose proof (time_since _ _ Hh).
  destruct (Z.leb_spec (armed_until s) (h_time h 0)) as [Hle|Hlt].
  { injection Hu as <- <- <- <-. split; [done|]. left. split; [done|]. split; [done|].
    apply armed_for_more; [exact Ha|no_install]. }
  assert (Hs : armed_at tr (h_time h 0)) by (apply Ha; lia). pose proof (time_up _ _ Hh 0%nat).
  pose proof (Update.traced_handle _ _ _ Hd Ht) as Ht'. destruct (Update.handle data (updates t)) as [receiver response] eqn:Eh.
  destruct response as [reply|image].
  { injection Hu as <- <- <- <-. split; [done|]. left. split; [done|]. split; [done|]. intros now Hnow. cbn [armed_until with_armed_until] in Hnow.
    pose proof (arm_le (h_time h 1) ltac:(lia)). apply (armed_by_datagram tr _ _ data []); [done|constructor|lia]. }
  apply (Update.complete_traced _ _ _ _ _ Ht) in Eh. apply bind_Some in Hu as (time & _ & Hu). cbn [card with_armed_until] in Hu.
  destruct (Install.install (fst <$> time) image (card s)) as [fs []|fs e|] eqn:Ei; [..|done];
    injection Hu as <- <- <- <-; (split; [done|]); right; exists image; (split_and!; [done..|]);
    cbn [card with_card with_armed_until]; apply (install_installed (fst <$> time)); eauto.
Qed.

(** The state of the updates in a run. *)
Definition guarded (tr : list Act) s (n : Net) : Prop :=
  armed_for tr (armed_until s) ∧ events_bytes n ∧
  match n with Up t _ => Update.traced (update_data tr) (updates t) | _ => True end.

Lemma sent_no_updates frames : update_data (Sent <$> frames) = [] ∧ Forall (λ x, ¬ installing x) (Sent <$> frames).
Proof. split; [apply plain_update_data|apply plain_not_installing]; apply plain_sent. Qed.

(** A step of the task keeps the updates guarded, and writes the card only to install a kernel. *)
Lemma guarded_net tr h s n s' n' acts since : sensible h since → 0 <= since → guarded tr s n →
  net_step device_fmt h s n = Some (s', n', acts) →
  guarded (tr ++ acts) s' n' ∧
  (card s' = card s ∨ ∃ image again data rest, acts = UpdateDatagram (h_time h 0) again data :: Installing image :: rest ∧ armed_at tr (h_time h 0) ∧
     Update.was_sent (update_data tr) image ∧ installed image (card s) (card s')).
Proof.
  intros Hh Hs (Ha & He & Ht) Hn. pose proof (events_bytes_net _ _ _ _ _ _ _ Hh He Hn) as He'. unfold guarded.
  apply net_step_cases in Hn as [(Hc & Hu & Hp & Hn)|(t & e & es & r & from & fp & data & t1 & answer & a1 & i & frames & -> & Hfrom & Hup & -> & ->)].
  - split; [|by left]. rewrite Hu. destruct Hp as [Hp _]. split; [apply armed_for_more; [exact Ha|by apply plain_not_installing]|].
    split; [done|]. destruct n' as [| |t' p'| |]; try done. rewrite update_data_app, (plain_update_data acts Hp), app_nil_r.
    destruct (Hn t' p' eq_refl) as [_ [->|(t & p & -> & ->)]]; [|done]. intros t0 [=].
  - assert (Hd : is_bytes data).
    { destruct He as [_ [Hev _]%Forall_cons]. destruct e as [| | |f0 fp0 port d0]; try done. cbn in Hfrom.
      destruct (port =? UPDATE_PORT); [|done]. by simplify_eq. }
    destruct (sent_no_updates frames) as [Hdata Hno].
    destruct (take_update_spec _ _ _ _ _ _ _ _ tr _ Hh Hs Hd Ht Ha Hup)
      as [Htr [(-> & Hc & Hau)|(image & -> & Hau & Has & Hsent & Hc)]].
    + split; [|by left]. split_and!; [|done|].
      * cbn [app]. rewrite (assoc_L (++) tr [_] _ : tr ++ UpdateDatagram (h_time h 0) (h_time h 1) data :: (Sent <$> frames) = _). by apply armed_for_more.
      * cbn [updates with_interface]. rewrite update_data_app.
        change (update_data (UpdateDatagram (h_time h 0) (h_time h 1) data :: [] ++ (Sent <$> frames))) with (data :: update_data (Sent <$> frames)). by rewrite Hdata.
    + split; [split_and!; [intros now; lia|done|]|].
      * cbn [updates with_interface]. rewrite update_data_app.
        change (update_data (UpdateDatagram (h_time h 0) (h_time h 1) data :: [Installing image] ++ (Sent <$> frames))) with (data :: update_data (Sent <$> frames)). by rewrite Hdata.
      * destruct Hc as [Hc|Hc]; [by left|right]. by exists image, (h_time h 1), data, (Sent <$> frames).
Qed.

Lemma run_guarded id fs tr w : run device_fmt G (booted id fs) tr w → guarded tr (shared w) (net w).
Proof.
  intros Hr. induction Hr as [|tr w1 acts w2 Hr IH Hs]; [split; [intros now; cbn; lia|done]|]. destruct (run_booked _ _ _ _ Hr) as [[Hup _] _].
  apply step_cases in Hs as [(h & s & n & Hh & Hg & Hn & ->)|[(name & -> & ->)|[(at_ & -> & Hat & ->)|[(n & -> & ->)|(-> & _ & _ & Ha & Hnet & _)]]]].
  - eapply guarded_net; [done|lia|exact IH|done].
  - destruct IH as (IH1 & IH2 & IH3). split; [apply armed_for_more; [exact IH1|no_install]|].
    split; [done|]. rewrite update_data_app, app_nil_r. done.
  - destruct IH as (IH1 & IH2 & IH3). split; [|split; [done|]; rewrite update_data_app, app_nil_r; done].
    intros now Hnow. cbn in Hnow. pose proof (arm_le at_ ltac:(lia)). constructor; [constructor|lia].
  - destruct IH as (IH1 & IH2 & IH3). destruct (take_answer_quiet n (shared w1)) as (_ & Hau & _). unfold guarded. cbn [shared net with_shared].
    rewrite Hau, update_data_app. split; [apply armed_for_more; [exact IH1|]|split; [done|]]; destruct (take_answer n (shared w1)).2; cbn; rewrite ?app_nil_r; (done || no_install).
  - unfold guarded. by rewrite Ha, Hnet, app_nil_r.
Qed.

(** C29: over the network, only a whole kernel goes onto the card, and only while updates are armed.  Whatever
    frames arrive and whatever the other tasks do, a step of the network task that changes the card is an update
    datagram's, and it installs a kernel image (one that starts with the kernel's first instruction): of the
    datagrams received, the last begin announced its size and CRC-32 and every chunk of it has come since.  And when it
    came updates were armed: less than sixty seconds before, and since the last install, a command armed them, or
    a datagram came that was itself in time. *)
Theorem only_armed_whole_kernels_are_installed id fs tr w h s' n' acts :
  run device_fmt G (booted id fs) tr w → sensible h (uptime w) → net_step device_fmt h (shared w) (net w) = Some (s', n', acts) →
  card s' ≠ card (shared w) →
  ∃ image again data rest, acts = UpdateDatagram (h_time h 0) again data :: Installing image :: rest ∧ armed_at tr (h_time h 0) ∧
    Update.was_sent (update_data tr) image ∧ installed image (card (shared w)) (card s').
Proof.
  intros Hr Hh Hn Hne. destruct (run_booked _ _ _ _ Hr) as [[Hup _] _].
  destruct (guarded_net tr h (shared w) (net w) s' n' acts (uptime w)) as [_ [?|?]]; [done|lia|by eapply run_guarded|done..].
Qed.

(** * Waiting for an answer that nobody gives *)
Lemma stopped_gives_no_answers w tr w' n : run device_fmt G w tr w' → net w = Stopped →
  (∀ r, (n, r) ∉ resolve_answers (shared w)) → net w' = Stopped ∧ ∀ r, (n, r) ∉ resolve_answers (shared w').
Proof.
  intros Hr Hn Ha. induction Hr as [|tr w1 acts w2 _ [IHn IHa] Hs]; [done|].
  apply step_cases in Hs as [(h & s & m & _ & _ & Hm & ->)|[(name & _ & ->)|[(at_ & _ & _ & ->)|[(m & _ & ->)|(_ & _ & Hans & _ & -> & _)]]]]; try done.
  - rewrite IHn in Hm. by injection Hm as <- <- _.
  - split; [done|]. intros r Hin. apply (IHa r). by apply (take_answer_quiet m (shared w1)).
  - split; [done|]. by rewrite Hans.
Qed.

(** [resolve] can wait for ever.  Its loop ends when the network task answers, as the comment in it says the
    task always does; but where USB fails the task stops before its first round, and then no name asked for is
    ever answered, whatever any task does: the command that asked waits for good. *)
Theorem resolve_waits_for_ever id fs : ∃ tr w,
  run device_fmt G (booted id fs) tr w ∧ s_state (status (shared w)) = NoController ∧
  ∀ name tr' w', run device_fmt G (with_shared (ask_name name (shared w)).1 w) tr' w' →
    (take_answer (ask_name name (shared w)).2 (shared w')).2 = None.
Proof.
  set (h := mkHardware (λ _, 0) (λ _, 0) (Some [2; 0; 0; 0; 0; 1]) true None None None).
  assert (Hh : sensible h 0) by (split; cbn; (done || lia)).
  set (s1 := shared (booted id fs)). set (w1 := mkWorld s1 (BringingUp [2; 0; 0; 0; 0; 1] 0) 0).
  set (w2 := mkWorld (set_state NoController s1) Stopped 0). exists [], w2. split_and!; [|done|].
  - apply (run_step _ _ _ [] w1 [] w2); [apply (run_step _ _ _ [] (booted id fs) [] w1); [apply run_nil|]|];
      by apply (step_net _ _ h).
  - intros name tr' w' Hr. destruct (stopped_gives_no_answers _ _ _ 0 Hr eq_refl) as [_ Hno].
    { intros r Hin. by apply elem_of_nil in Hin. }
    unfold take_answer. destruct (list_find _ _) as [[index [m result]]|] eqn:Ef; [|done].
    apply list_find_Some in Ef as (Hi & Hm & _). apply list_elem_of_lookup_2 in Hi. cbn in Hm. subst m. by apply Hno in Hi.
Qed.
End runs.

(** * Console replies *)
Lemma last_newline_Some l i : last_newline l = Some i → l !! i = Some 0x0A ∧ (i < length l)%nat.
Proof.
  revert i. induction l as [|b l IH]; intros i; cbn [last_newline]; [done|]. destruct (last_newline l) as [j|].
  - intros [= <-]. destruct (IH j eq_refl) as [? ?]. split; [done|]. cbn. lia.
  - destruct (Z.eqb_spec b 0x0A) as [->|]; [|done]. intros [= <-]. split; [done|]. cbn. lia.
Qed.

Lemma last_newline_None l : last_newline l = None → 0x0A ∉ l.
Proof.
  induction l as [|b l IH]; cbn [last_newline]; [by intros _ []%elem_of_nil|]. destruct (last_newline l); [done|].
  destruct (Z.eqb_spec b 0x0A); [done|]. intros _ [?|Hin]%elem_of_cons; [congruence|by apply IH in Hin].
Qed.

Lemma reply_end_spec rest : rest ≠ [] →
  (0 < reply_end rest <= length rest)%nat ∧ (reply_end rest <= MAX_REPLY_DATAGRAM)%nat ∧
  ((reply_end rest < length rest)%nat → last (take (reply_end rest) rest) = Some 0x0A ∨
     reply_end rest = MAX_REPLY_DATAGRAM ∧ 0x0A ∉ take (reply_end rest) rest).
Proof.
  intros Hne. assert (0 < length rest)%nat by (destruct rest; cbn; [done|lia]). unfold reply_end.
  set (n := (length rest `min` MAX_REPLY_DATAGRAM)%nat). assert (0 < n)%nat by (unfold n, MAX_REPLY_DATAGRAM; lia).
  case_decide as Hn; [|split_and!; lia]. destruct (last_newline (take n rest)) as [i|] eqn:El.
  - apply last_newline_Some in El as [Hi Hlt]. rewrite length_take in Hlt. split_and!; [lia..|]. intros _. left.
    rewrite lookup_take_lt in Hi by lia. rewrite last_lookup, length_take. replace (pred _) with i by lia.
    by rewrite lookup_take_lt by lia.
  - split_and!; [lia..|]. intros _. right. split; [lia|by apply last_newline_None].
Qed.

(** A console answer goes out whole and in order, in datagrams of at most [MAX_REPLY_DATAGRAM] bytes, none of them
    empty, each but the last ending with a line unless it holds part of a line too long for a datagram. *)
Theorem replies_are_split_between_lines text :
  let cs := reply_chunks (length text) text in
  concat cs = text ∧ Forall (λ c, (0 < length c <= MAX_REPLY_DATAGRAM)%nat) cs ∧
  ∀ i c, cs !! i = Some c → (S i < length cs)%nat → last c = Some 0x0A ∨ length c = MAX_REPLY_DATAGRAM ∧ 0x0A ∉ c.
Proof.
  cbv zeta. assert (Hg : ∀ fuel, (length text <= fuel)%nat → let cs := reply_chunks fuel text in
    concat cs = text ∧ Forall (λ c, (0 < length c <= MAX_REPLY_DATAGRAM)%nat) cs ∧ (text = [] ↔ cs = []) ∧
    ∀ i c, cs !! i = Some c → (S i < length cs)%nat → last c = Some 0x0A ∨ length c = MAX_REPLY_DATAGRAM ∧ 0x0A ∉ c);
    [|destruct (Hg (length text) ltac:(lia)) as (? & ? & _ & ?); done].
  intros fuel. revert text. induction fuel as [|fuel IH]; intros text Hf.
  { destruct text; [|cbn in Hf; lia]. by split_and!; [|constructor|split|]. }
  destruct text as [|b text]; [by split_and!; [|constructor|split|]|]. set (l := b :: text) in *.
  destruct (reply_end_spec l ltac:(done)) as (Hpos & Hmax & Hlast). set (n := reply_end l) in *.
  change (reply_chunks (S fuel) l) with (take n l :: reply_chunks fuel (drop n l)).
  destruct (IH (drop n l)) as (H1 & H2 & H3 & H4); [rewrite length_drop; lia|].
  assert (Hlen : length (take n l) = n) by (rewrite length_take; lia). split_and!.
  - cbn [concat]. by rewrite H1, take_drop.
  - constructor; [lia|done].
  - done.
  - intros [|i] c Hc Hi; [|apply H4 with i; [done|cbn in Hi; lia]]. injection Hc as <-. rewrite Hlen. apply Hlast.
    cbn in Hi. destruct (decide (n < length l)%nat) as [|Hge]; [done|]. rewrite drop_ge in H3, Hi by lia.
    rewrite (proj1 H3 eq_refl) in Hi. cbn in Hi. lia.
Qed.

(** * A run
    The controller comes up, a command asks for a name and another arms updates; in its second round the task
    receives an address from DHCP and, in three datagrams, a kernel of five bytes. *)
Module Demo.
Import MemDisk.

Definition hw (now : Z) (frames : list (list Z)) : Hardware :=
  mkHardware (λ _, now) (λ _, 0x12345678) (Some Interface.demo_mac) false (Some (Some true)) (Some (Some (mkLink true None)))
    (Some (Some frames)).

Definition image : list Z := [0xA0; 0x00; 0x38; 0xD5; 7].

Definition udp_frame (data : list Z) : option (list Z) :=
  datagram ← Udp.build [10; 0; 0; 1] 1000 [10; 0; 0; 5] UPDATE_PORT data;
  packet ← Ipv4.build [10; 0; 0; 1] [10; 0; 0; 5] Ipv4.UDP 8 datagram;
  Some (Ethernet.build Interface.demo_mac Interface.demo_server Ethernet.IPV4 packet).

Definition frames : list (list Z) :=
  option_list (Interface.demo_dhcp 0x12345678 2) ++ option_list (Interface.demo_dhcp 0x12345678 5) ++
  option_list (udp_frame (Update.begin_datagram image)) ++ option_list (udp_frame (Update.data_datagram image 0)) ++
  option_list (udp_frame [0x45]).

(** The task's steps from [w], each at time [now]. *)
Local Notation wd := (World (D := MemDisk)).
#[local] Existing Instance ascii_only.
Definition fmt_error (_ : DiskError) : list Z := [].

Fixpoint drive (k : nat) (now : Z) (fs : list (list Z)) (w : wd) : option (list Act * wd) :=
  match k with
  | O => Some ([], w)
  | S k =>
    '(s, n, acts) ← net_step fmt_error (hw now fs) (shared w) (net w);
    '(tr, w) ← drive k now fs (mkWorld s n now);
    Some (acts ++ tr, w)
  end.

Lemma run_app w tr1 w1 tr2 w2 : run fmt_error 1000 w tr1 w1 → run fmt_error 1000 w1 tr2 w2 → run fmt_error 1000 w (tr1 ++ tr2) w2.
Proof. intros H1 H2. induction H2; [by rewrite app_nil_r|]. rewrite (assoc_L (++)). by eapply run_step. Qed.

(** [now] is in time for any round begun in the last millisecond. *)
Definition recent (now : Z) (n : Net) : bool := match n with Up t _ => now <=? t_now t + 1000 | _ => true end.

Lemma net_step_recent now fs s n s' n' acts : net_step fmt_error (hw now fs) s n = Some (s', n', acts) → recent now n = true → recent now n' = true.
Proof.
  intros Hn Hr. assert (Hnow : now <=? now + 1000 = true) by (apply Z.leb_le; lia).
  apply net_step_cases in Hn as [(_ & _ & _ & Hn)|(t & e & es & r & f & fp & d & t1 & a & a1 & i & fr & -> & _ & Hu & -> & _)].
  - destruct n' as [| |t' p'| |]; try done. unfold recent. destruct (Hn t' p' eq_refl) as [[->|(t & p & -> & ->)] _]; done.
  - apply take_update_now in Hu. unfold recent in *. cbn [t_now with_interface]. by rewrite Hu.
Qed.

Lemma hw_sensible now fs since : Forall is_bytes fs → since <= now < 2 ^ 63 → sensible (hw now fs) since.
Proof. intros Hf Hn. split; cbn; try (intros; lia). by intros ? [= <-]. Qed.

Lemma drive_run k now fs w tr w' : drive k now fs w = Some (tr, w') → Forall is_bytes fs → uptime w <= now < 2 ^ 63 →
  recent now (net w) = true → run fmt_error 1000 w tr w'.
Proof.
  intros Hd Hf. revert w tr w' Hd. induction k as [|k IH]; intros w tr w' Hd Hnow Hr; [injection Hd as <- <-; apply run_nil|].
  cbn [drive] in Hd. apply bind_Some in Hd as ([[s n] acts] & Hn & Hd). apply bind_Some in Hd as ([tr1 w1] & Hd & [= <- <-]).
  eapply (run_app w acts (mkWorld s n now)).
  - apply (run_step _ _ _ [] w acts); [apply run_nil|]. apply (step_net _ _ (hw now fs)); [|..|done].
    + by apply hw_sensible.
    + unfold recent in Hr. destruct (net w) as [| |t []| |]; try done. cbn in *. lia.
  - eapply IH; [done| |by eapply net_step_recent]. cbn. lia.
Qed.

Definition start : wd := booted 3 kernel_volume.
(** Up to the first reception of frames, at time 10. *)
Definition up : list Act * wd := default ([], start) (drive 2 10 [] start).
Definition asked_world : wd := with_shared (ask_name (str "pi.local") (shared up.2)).1 up.2.
Definition armed_world : wd := with_shared (with_armed_until (Install.arm 10) (shared asked_world)) asked_world.
(** A round, with the frames, to the last datagram's event. *)
Definition before : list Act * wd := default ([], start) (drive 10 20 frames armed_world).
Definition trace : list Act := up.1 ++ [Asked 0] ++ [Armed 10] ++ before.1.

Lemma drive_default k now fs w : is_Some (drive k now fs w) →
  drive k now fs w = Some (default ([], start) (drive k now fs w)).
Proof. by intros [x ->]. Qed.

Definition all_bytes (l : list Z) : bool := forallb (λ b, (0 <=? b) && (b <? 256)) l.

Lemma all_bytes_spec fs : forallb all_bytes fs = true → Forall is_bytes fs.
Proof.
  intros Hf. apply Forall_forall. intros f Hin. rewrite forallb_forall in Hf. apply list_elem_of_In, Hf in Hin. unfold all_bytes in Hin.
  rewrite forallb_forall in Hin. apply Forall_forall. intros b Hb. apply list_elem_of_In, Hin in Hb.
  apply andb_true_iff in Hb as [H1%Z.leb_le H2%Z.ltb_lt]. unfold uint. lia.
Qed.

Lemma frames_are_bytes : Forall is_bytes frames.
Proof. apply all_bytes_spec. by vm_compute. Qed.

Lemma demo_run : run fmt_error 1000 start trace before.2.
Proof.
  assert (Hup : run fmt_error 1000 start up.1 up.2).
  { eapply (drive_run 2 10 []); [|by constructor|done|done]. rewrite <-surjective_pairing. apply drive_default.
    by vm_compute; eexists. }
  eapply run_app; [exact Hup|]. eapply (run_app _ [Asked 0] asked_world).
  { apply (run_step _ _ _ [] up.2 [Asked 0]); [apply run_nil|]. apply (step_ask _ _ (str "pi.local")). }
  eapply (run_app _ [Armed 10] armed_world).
  { apply (run_step _ _ _ [] asked_world [Armed 10]); [apply run_nil|]. apply step_arm. by vm_compute. }
  eapply (drive_run 10 20 frames); [|exact frames_are_bytes|by vm_compute|by vm_compute].
  rewrite <-surjective_pairing. apply drive_default. by vm_compute; eexists.
Qed.

Lemma before_up : ∃ t p, net before.2 = Up t p ∧ purposes (resolver t) = [] ∧ resolve_requests (shared before.2) = [].
Proof.
  do 2 eexists. split; [vm_compute; reflexivity|]. split; [reflexivity|vm_compute; reflexivity].
Qed.

Lemma lookups_are_answered_in_time_witness : asked trace ≡ₚ answered trace ∧ asked trace = [0].
Proof.
  assert (HG : 0 <= 1000) by lia. destruct before_up as (t & p & En & Hq & Hr).
  destruct (lookups_are_answered_in_time fmt_error 1000 HG 3 kernel_volume trace before.2 t p demo_run En) as [Hp _].
  split; [|vm_compute; reflexivity]. rewrite Hr, Hq in Hp. change (asked trace ≡ₚ [] ++ [] ++ answered trace) in Hp.
  rewrite !app_nil_l in Hp. exact Hp.
Defined.

(** A block of the card, which the last datagram's step writes the kernel to. *)
Definition kernel_block (fs : option (Mounted MemDisk)) : option (list Z) :=
  match fs with Some m => blocks (Fat.device (fat m)) !! 36%Z | None => None end.

Lemma last_step_installs : ∃ s n acts, net_step fmt_error (hw 20 frames) (shared before.2) (net before.2) = Some (s, n, acts) ∧
  take 5 <$> kernel_block (card s) = Some image ∧ kernel_block (card (shared before.2)) = None.
Proof.
  assert (Hk : match net_step fmt_error (hw 20 frames) (shared before.2) (net before.2) with
    | Some (s, _, _) => bool_decide (take 5 <$> kernel_block (card s) = Some image) && bool_decide (kernel_block (card (shared before.2)) = None)
    | None => false end = true) by (vm_compute; reflexivity).
  destruct (net_step _ _ _ _) as [[[s n] acts]|]; [|discriminate Hk]. exists s, n, acts.
  apply andb_true_iff in Hk as [H1%bool_decide_eq_true H2%bool_decide_eq_true]. split; [reflexivity|]. split; [exact H1|exact H2].
Qed.

Lemma before_sensible : sensible (hw 20 frames) (uptime before.2).
Proof. apply hw_sensible; [exact frames_are_bytes|]. vm_compute. split; [discriminate|reflexivity]. Qed.

Lemma only_armed_whole_kernels_are_installed_witness : ∃ s,
  take 5 <$> kernel_block (card s) = Some image ∧ armed_at trace 20 ∧
  ∃ img, Update.was_sent (update_data trace) img ∧ installed img (card (shared before.2)) (card s).
Proof.
  assert (HG : 0 <= 1000) by lia. destruct last_step_installs as (s & n & acts & Hn & H1 & H2). exists s. split; [exact H1|].
  assert (Hne : card s ≠ card (shared before.2)) by (intros Heq; rewrite Heq, H2 in H1; discriminate H1).
  destruct (only_armed_whole_kernels_are_installed fmt_error 1000 HG 3 kernel_volume trace before.2 (hw 20 frames) s n acts
    demo_run before_sensible Hn Hne) as (img & again & data & rest & _ & Ha & Hs & Hi).
  split; [exact Ha|]. exists img. split; [exact Hs|exact Hi].
Defined.
End Demo.
End NetProps.
