(* ===== verification/Spaces.v ===== *)
(** Address spaces side by side: what an operation on one of them does to the frames of the others.

    [acts a c a' c'] says that from [c] to [c'] only frames of [a] were written to, and that [a'] has them and
    frames nobody had.  Mapping, loading and copying act; making an address space and dropping one have lemmas
    of their own.  An address space whose frames are not [a]'s is then left as it was: the same pages, with the
    same bytes ([other_kept]). *)
From S2P Require Import Prelude Bytes Abi Frames Paging Elf.
Import layout.
Open Scope Z_scope.

Module Spaces.
Import Paging.
#[local] Notation address := Elf.address.
#[local] Notation size := Elf.size.
#[local] Notation access := Elf.access.

Section spaces.
Context {Src : Type} `{FrameSource Src}.
Implicit Types (a b : AddressSpace) (c : Machine (Src := Src)) (P : gmap Z (Z * Access)).

(** What a program reads at [x], and whether it may write there. *)
Definition sees a c (x : Z) : option (Z * Access) :=
  '(p, acc) ← translate x a (mem c); Some (mem c p, acc).

(** Frames handed out in [c] that are not [a]'s keep their contents. *)
Definition spares a c c' : Prop :=
  ∀ y x, y ∈ fs_held (source c) → frame_ok y → y ∉ owned a → y <= x < y + PAGE_SIZE → mem c' x = mem c x.

Definition acts a c a' c' : Prop := fs_ok (source c') ∧ grows a c a' c' ∧ spares a c c'.

Lemma acts_refl a c P : Rep a c P → acts a c a c.
Proof. intros HR. split; [apply HR|]. split; [by apply (grows_refl a c P)|done]. Qed.

Lemma acts_trans a c a1 c1 a2 c2 : acts a c a1 c1 → acts a1 c1 a2 c2 → acts a c a2 c2.
Proof.
  intros (_ & Hg1 & Hs1) (Hok & Hg2 & Hs2). split; [done|]. split; [by apply (grows_trans a c a1 c1)|].
  intros y x Hy Hf Hn Hx. rewrite (Hs2 y x); [by apply (Hs1 y x)|apply Hg1; by left|done| |done].
  intros Ha1. apply Hg1 in Ha1 as [?|?]; done.
Qed.

Lemma sees_rep a c P x : Rep a c P →
  sees a c x = if in_window x then '(f, acc) ← P !! page x; Some (mem c (f + x mod PAGE_SIZE), acc) else None.
Proof.
  intros HR. unfold sees. rewrite (translate_rep a c P x HR). destruct (in_window x); [|done].
  by destruct (P !! page x) as [[f acc]|].
Qed.

(** Its frames keep their contents, so it keeps its pages. *)
Lemma frames_kept b P c c' : Rep b c P → (∀ y x, y ∈ owned b → y <= x < y + PAGE_SIZE → mem c' x = mem c x) →
  fs_ok (source c') → (∀ y, y ∈ owned b → y ∈ fs_held (source c')) → Rep b c' P ∧ ∀ x, sees b c' x = sees b c x.
Proof.
  intros HR Hmem Hok Hh.
  assert (HR' : Rep b c' P).
  { assert (HR1 : Rep b (with_mem (mem c') c) P).
    { apply (Rep_memory b c P); [done|]. intros t x Ht. apply Hmem, elem_of_owned. by right. }
    pose proof (Rep_source b _ P (source c') HR1 Hok Hh) as HR2. by destruct c'. }
  split; [done|]. intros x. rewrite (sees_rep b c' P x HR'), (sees_rep b c P x HR). destruct (in_window x); [|done].
  destruct (P !! page x) as [[f acc]|] eqn:Hp; [|done]. cbn [mbind option_bind]. do 2 f_equal.
  destruct (frame_of b c P _ f acc HR Hp) as (Hf & _). apply (Hmem f); [done|].
  unfold PAGE_SIZE. pose proof (Z.mod_pos_bound x 4096). lia.
Qed.

(** Another address space does not notice. *)
Lemma other_kept b P a c c' : Rep b c P → (∀ y, y ∈ owned b → y ∉ owned a) →
  fs_ok (source c') → (∀ y, y ∈ owned b → y ∈ fs_held (source c')) → spares a c c' →
  Rep b c' P ∧ ∀ x, sees b c' x = sees b c x.
Proof.
  intros HR Hd Hok Hh Hs. apply frames_kept; [done| |done|done]. intros y x Hy Hx.
  destruct (rep_held b c P HR y Hy) as [Hyc Hyf]. by apply (Hs y); [..|apply Hd|].
Qed.

(** All frames in use keep their contents. *)
Definition keeps c c' : Prop := ∀ y x, y ∈ fs_held (source c) → frame_ok y → y <= x < y + PAGE_SIZE → mem c' x = mem c x.

Lemma keeps_acts c c1 a a' c2 : keeps c c1 → (∀ x, x ∈ fs_held (source c1) ↔ x ∈ fs_held (source c) ∨ x ∈ owned a) →
  (∀ x, x ∈ owned a → x ∉ fs_held (source c)) → acts a c1 a' c2 → keeps c c2.
Proof.
  intros Hk Hh Hf (_ & _ & Hs) y x Hy Hfr Hx. rewrite (Hs y x); [by apply (Hk y)|apply Hh; by left|done| |done].
  intros Ha. by apply (Hf y).
Qed.

(** ** Mapping *)
Lemma untouched_spares a c c' : untouched (tables a) c c' → spares a c c'.
Proof.
  intros [_ Hm] y x Hy Hf Hn Hx. apply (Hm y x); [done..| |done]. intros Ht. apply Hn, elem_of_owned. by right.
Qed.

Lemma map_acts va acc a c P : Rep a c P → let '(a', c', _) := Paging.map va acc a c in acts a c a' c'.
Proof.
  intros HR. pose proof (map_spec va acc a c P HR) as Hm. pose proof (map_grows va acc a c P HR) as Hg.
  destruct (Paging.map va acc a c) as [[a' c'] r]. destruct Hm as [Hu _], Hg as [[P' HR'] Hg].
  split; [apply HR'|]. split; [done|]. by apply untouched_spares.
Qed.

(** Pages to be mapped: aligned, in the window, and not mapped. *)
Definition mappable P (va : Z) : Prop := va mod PAGE_SIZE = 0 ∧ in_window va = true ∧ P !! va = None.

Lemma map_all_acts vas acc a c P : Rep a c P → NoDup vas → Forall (mappable P) vas →
  let '(a', c', r) := map_all vas acc a c in
  acts a c a' c' ∧ ∃ P', Rep a' c' P' ∧
    (∀ va, is_Some (P' !! va) → is_Some (P !! va) ∨ va ∈ vas) ∧
    (∀ va e, P !! va = Some e → P' !! va = Some e) ∧
    match r with
    | Ok _ => ∀ va, va ∈ vas → ∃ f, P' !! va = Some (f, acc)
    | Err e => e = Paging.OutOfMemory
    end.
Proof.
  revert a c P. induction vas as [|va vas IH]; intros a c P HR Hn Hok; cbn [map_all].
  { split; [by apply (acts_refl a c P)|]. exists P. split_and!; [done|by left|done|]. intros va []%not_elem_of_nil. }
  apply NoDup_cons in Hn as [Hni Hn]. apply Forall_cons in Hok as [(Hal & Hw & Hp) Hok].
  pose proof (map_spec va acc a c P HR) as Hm. pose proof (map_acts va acc a c P HR) as Ha.
  destruct (Paging.map va acc a c) as [[a1 c1] r]. destruct Hm as [_ Hm]. destruct r as [u|e].
  - destruct Hm as (_ & _ & _ & f & Hf & HR1 & _).
    specialize (IH a1 c1 (<[va := (f, acc)]> P) HR1 Hn). destruct (map_all vas acc a1 c1) as [[a2 c2] r2].
    destruct IH as (Ha2 & P2 & HR2 & Hnew & Hold & Hr2).
    { apply Forall_forall. intros v Hv. destruct (proj1 (Forall_forall _ _) Hok v Hv) as (? & ? & ?).
      split_and!; [done..|]. rewrite lookup_insert_ne; [done|]. by intros ->. }
    split; [by apply (acts_trans a c a1 c1)|]. exists P2. split_and!; [done|..].
    + intros v [[->|Hv]%lookup_insert_is_Some'|Hv]%Hnew; [right; by left|by left|right; by right].
    + intros v e Hv. apply Hold. rewrite lookup_insert_ne; [done|]. intros ->. congruence.
    + destruct r2 as [u2|e2]; [|done]. intros v [->|Hv]%elem_of_cons; [|by apply Hr2].
      exists f. apply Hold. by rewrite lookup_insert_eq.
  - destruct Hm as [HR1 He]. split; [done|]. exists P. split_and!; [done|by left|done|].
    destruct e; [done|by rewrite Hw in He; destruct He|rewrite Hp in He; by destruct He|done].
Qed.
(** ** Copying *)
Lemma copy_acts va bytes allowed a c P m r : Rep a c P → 0 <= va →
  for_each_piece va (Z.of_nat (length bytes)) allowed (copy_in bytes) a (λ m, m) (mem c) = (m, r) →
  acts a c a (with_mem m c) ∧ Rep a (with_mem m c) P ∧ copied P allowed va bytes va (va + Z.of_nat (length bytes)) (mem c) m r.
Proof.
  intros HR Hva Hc. assert (HR0 : Rep a (with_mem (mem c) c) P) by (by destruct c).
  pose proof (copy_pieces (length bytes) a c P va bytes allowed 0 (mem c) HR0 Hva ltac:(lia) ltac:(lia)) as Hp.
  unfold for_each_piece in Hc. rewrite Nat2Z.id in Hc. rewrite Hc, Z.add_0_r in Hp. destruct Hp as (HR' & Hcop).
  split_and!; [|done|done]. split; [apply HR|]. split; [exact (grows_refl a c P HR)|].
  intros y x Hy Hf Hn Hx. cbn [with_mem mem]. apply (proj1 Hcop). intros v acc Hv Hat. exfalso.
  apply at_Some in Hat as (_ & f & Hp & ->). destruct (frame_of a c P _ f acc HR Hp) as (Hfo & Hff & _).
  assert (f ≠ y) by (by intros ->). unfold PAGE_SIZE in *. pose proof (Z.mod_pos_bound v 4096).
  destruct (frames_disjoint f y Hff Hf) as [?|?]; [done|unfold PAGE_SIZE in *; lia..].
Qed.

Lemma write_user_acts va bytes a c P m r : Rep a c P → 0 <= va → Paging.write_user va bytes a (mem c) = (m, r) →
  acts a c a (with_mem m c) ∧ Rep a (with_mem m c) P.
Proof. intros HR Hva Hw. destruct (copy_acts va bytes writable a c P m r HR Hva Hw) as (? & ? & _). done. Qed.

(** A byte stored by the program itself. *)
Lemma store_acts x v a c P p acc : Rep a c P → translate x a (mem c) = Some (p, acc) →
  acts a c a (with_mem (store p [v] (mem c)) c) ∧ Rep a (with_mem (store p [v] (mem c)) c) P.
Proof.
  intros HR Ht. rewrite (translate_rep a c P x HR) in Ht. destruct (in_window x); [|done].
  destruct (P !! page x) as [[f acc']|] eqn:Hp; [|done]. injection Ht as <- _. destruct (frame_of a c P _ f acc' HR Hp) as (Hf & Hfr & Hnt).
  assert (Hout : ∀ y z, y ≠ f → frame_ok y → y <= z < y + PAGE_SIZE → store (f + x mod PAGE_SIZE) [v] (mem c) z = mem c z).
  { intros y z Hne Hy Hz. apply store_outside. cbn [length]. pose proof (Z.mod_pos_bound x PAGE_SIZE ltac:(done)).
    destruct (frames_disjoint f y Hfr Hy) as [?|?]; [done|unfold PAGE_SIZE in *; lia..]. }
  split.
  - split; [apply HR|]. split; [exact (grows_refl a c P HR)|]. intros y z _ Hy Hn Hz. apply (Hout y); [by intros ->|done|done].
  - apply (Rep_memory a c P); [done|]. intros t z Htab Hz. apply (Hout t); [by intros ->|by apply (table_ok a c P)|done].
Qed.

(** A copy to pages that are mapped works. *)
Lemma load_works va bytes a c P : Rep a c P → 0 <= va → va + Z.of_nat (length bytes) <= 2 ^ 64 →
  (∀ x, va <= x < va + Z.of_nat (length bytes) → is_Some (at_ P x)) →
  ∃ m, Paging.load va bytes a (mem c) = (m, Ok tt) ∧ acts a c a (with_mem m c) ∧ Rep a (with_mem m c) P.
Proof.
  intros HR Hva Hend Hall. unfold Paging.load. destruct (for_each_piece _ _ _ _ _ _ _) as [m r] eqn:Hl.
  destruct (copy_acts va bytes (λ _, true) a c P m r HR Hva Hl) as (Ha & HR' & _ & Hr).
  destruct r as [[]|e]; [by exists m|]. exfalso. destruct Hr as (x & Hx & Hno & _). destruct (Hall x Hx) as [[p acc] Hp].
  apply Hno. split; [lia|eauto].
Qed.

(** ** Making and dropping *)
Lemma zeroed_spares c c' f : fs_ok (source c) → zeroed_frame c = Some (c', f) →
  ∀ y x, y ∈ fs_held (source c) → frame_ok y → y <= x < y + PAGE_SIZE → mem c' x = mem c x.
Proof.
  intros Hok Hz y x Hy Hf Hx. destruct (zeroed_frame_spec c c' f Hok Hz) as (_ & _ & _ & _ & _ & [_ Hu]).
  apply (Hu y); [done|done|apply not_elem_of_nil|done].
Qed.

Lemma new_spares kernel c c' oa : kernel_ok kernel → fs_ok (source c) → Paging.new kernel c = Some (c', oa) → keeps c c'.
Proof.
  intros [Hlen _] Hok Hn y x Hy Hf Hx. unfold Paging.new in Hn. destruct (zeroed_frame c) as [[c1 root]|] eqn:E1.
  2: { apply Some_inj, pair_equal_spec in Hn as [<- _]. done. }
  pose proof (zeroed_spares c c1 root Hok E1 y x Hy Hf Hx) as H1.
  destruct (zeroed_frame_spec c c1 root Hok E1) as (Hok1 & Hr & Hh1 & Hrf & _).
  destruct (zeroed_frame c1) as [[c2 l2]|] eqn:E2.
  - apply Some_inj, pair_equal_spec in Hn as [<- _]. cbn [with_mem mem].
    assert (Hne : y ≠ root) by (by intros ->). destruct (frames_disjoint y root Hf Hrf Hne) as [Hd|Hd];
      (rewrite set_entry_outside; [|by vm_compute|lia];
       rewrite store_outside by (rewrite length_words, Hlen; unfold PAGE_SIZE in *; lia);
       rewrite <-H1; apply (zeroed_spares c1 c2 l2 Hok1 E2 y); [rewrite Hh1; by apply elem_of_union_l|done|lia]).
  - apply bind_Some in Hn as (s & _ & Hs). apply Some_inj, pair_equal_spec in Hs as [<- _]. done.
Qed.

Lemma drop_space_spec a c P : Rep a c P →
  ∃ c', drop_space a c = Some c' ∧ mem c' = mem c ∧ fs_ok (source c') ∧
    ∀ x, x ∈ fs_held (source c') ↔ x ∈ fs_held (source c) ∧ x ∉ owned a.
Proof.
  intros HR. unfold drop_space. destruct (free_all_spec (owned a) (source c)) as (s & -> & Hok & Hs); [apply HR..|].
  eexists. split; [reflexivity|]. done.
Qed.

(** ** Loading *)
Lemma map_range_acts start len acc a c P : Rep a c P → 0 <= start → start + len < 2 ^ 64 →
  Forall (mappable P) (pages_of start len) →
  let '(a', c', r) := map_range start len acc a c in
  acts a c a' c' ∧ ∃ P', Rep a' c' P' ∧
    (∀ va, is_Some (P' !! va) → is_Some (P !! va) ∨ va ∈ pages_of start len) ∧
    (∀ va e, P !! va = Some e → P' !! va = Some e) ∧
    match r with
    | Ok _ => ∀ va, va ∈ pages_of start len → ∃ f, P' !! va = Some (f, acc)
    | Err e => e = Paging.OutOfMemory
    end.
Proof.
  intros HR Hs He Hok. unfold map_range. rewrite (proj2 (Z.leb_gt _ _)) by lia.
  apply map_all_acts; [done|apply Elf.NoDup_pages_of|done].
Qed.

(** The pages of [P] are in [P'], and what else is there is [fresh]. *)
Definition extends P P' (fresh : Z → Prop) : Prop :=
  (∀ va, is_Some (P' !! va) → is_Some (P !! va) ∨ fresh va) ∧ ∀ va e, P !! va = Some e → P' !! va = Some e.

Lemma extends_trans P P1 P2 (new1 new2 : Z → Prop) : extends P P1 new1 → extends P1 P2 new2 →
  extends P P2 (λ va, new1 va ∨ new2 va).
Proof.
  intros [H1 H1'] [H2 H2']. split; [|auto]. intros va [[?|?]%H1|?]%H2; auto.
Qed.

Lemma extends_weaken P P' (new1 new2 : Z → Prop) : (∀ va, new1 va → new2 va) → extends P P' new1 → extends P P' new2.
Proof. intros Hn [H1 H2]. split; [|done]. intros va [?|?]%H1; auto. Qed.

(** A byte of a mapped segment. *)
Lemma segment_at bytes s P x : Elf.segment_ok bytes s → address s <= x < Elf.page_end s →
  (∀ va, va ∈ pages_of (address s) (size s) → ∃ f, P !! va = Some (f, access s)) → is_Some (at_ P x).
Proof.
  intros Hs Hx Hp. destruct (Elf.segment_pages bytes s x Hs Hx) as [Hw Hin]. destruct (Hp _ Hin) as [f Hf].
  exists (f + x mod PAGE_SIZE, access s). apply at_Some. eauto.
Qed.

(** One segment: mapped and filled, or memory ran out. *)
Lemma load_segment_acts bytes s a c P : Rep a c P → Elf.segment_ok bytes s →
  (∀ va, is_Some (P !! va) → va < address s) →
  match map_range (address s) (size s) (access s) a c with
  | (a', c', Ok _) => ∃ m P', load (address s) (Elf.data s) a' (mem c') = (m, Ok tt) ∧ acts a c a' (with_mem m c') ∧
      Rep a' (with_mem m c') P' ∧ extends P P' (λ va, va ∈ pages_of (address s) (size s)) ∧
      ∀ va, va ∈ pages_of (address s) (size s) → ∃ f, P' !! va = Some (f, access s)
  | (a', c', Err e) => acts a c a' c' ∧ (∃ P', Rep a' c' P') ∧ e = Paging.OutOfMemory
  end.
Proof.
  intros HR Hs Hlow. destruct (Elf.page_end_spec bytes s Hs) as (He & _ & Hend). pose proof (Elf.seg_low _ _ Hs) as Hlo.
  pose proof (Elf.seg_data _ _ Hs) as Hd.
  assert (Hbounds : 0 <= address s ∧ address s + size s < 2 ^ 64) by (unfold USER_BASE, USER_END in *; lia).
  pose proof (map_range_acts (address s) (size s) (access s) a c P HR (proj1 Hbounds) (proj2 Hbounds)) as Hm.
  destruct (map_range _ _ _ a c) as [[a' c'] r]. destruct Hm as (Ha & P' & HR' & Hnew & Hold & Hr).
  { apply Forall_forall. intros va Hva. destruct (Elf.segment_pages_ok bytes s va Hs Hva) as (? & ? & ?).
    split_and!; [done..|]. apply eq_None_not_Some. intros Hp%Hlow. lia. }
  destruct r as [u|e]; [|eauto].
  destruct (load_works (address s) (Elf.data s) a' c' P' HR') as (m & Hl & Ha' & HR'').
  - lia.
  - lia.
  - intros x Hx. apply (segment_at bytes s); [done|lia|done].
  - exists m, P'. split_and!; [done|by apply (acts_trans a c a' c')|done|done|done].
Qed.

Lemma load_segments_acts bytes l a c P : Rep a c P → Forall (Elf.segment_ok bytes) l → Elf.apart l →
  match l with [] => True | s :: _ => ∀ va, is_Some (P !! va) → va < address s end →
  let '(a', c', r) := Elf.load_segments l a c in
  acts a c a' c' ∧ ∃ P', Rep a' c' P' ∧
  match r with
  | Ok _ => extends P P' (λ va, ∃ s, s ∈ l ∧ va ∈ pages_of (address s) (size s)) ∧
      ∀ s va, s ∈ l → va ∈ pages_of (address s) (size s) → ∃ f, P' !! va = Some (f, access s)
  | Err e => e = Elf.Map Paging.OutOfMemory
  end.
Proof.
  revert a c P. induction l as [|s l IH]; intros a c P HR Hok Hap Hlow; cbn [Elf.load_segments].
  { split; [by apply (acts_refl a c P)|]. exists P. split; [done|]. split; [split; [by left|done]|].
    intros s va []%not_elem_of_nil. }
  apply Forall_cons in Hok as [Hs Hok]. pose proof (load_segment_acts bytes s a c P HR Hs Hlow) as H1.
  destruct (map_range _ _ _ a c) as [[a1 c1] [u|e]].
  2: { destruct H1 as (Ha & [P' HR'] & ->). eauto. }
  destruct H1 as (m & P1 & -> & Ha1 & HR1 & Hx1 & Hf1).
  specialize (IH a1 (with_mem m c1) P1 HR1 Hok). destruct (Elf.load_segments l a1 _) as [[a2 c2] r2].
  destruct IH as (Ha2 & P2 & HR2 & Hr2).
  { by destruct l; [|destruct Hap]. }
  { destruct l as [|s' l]; [done|]. destruct Hap as [Hle _]. intros va [Hp%Hlow|Hv]%(proj1 Hx1).
    - apply Forall_cons in Hok as [Hs' _]. destruct (Elf.page_end_spec bytes s Hs) as (? & _).
      pose proof (Elf.seg_size _ _ Hs). lia.
    - destruct (Elf.segment_pages_ok bytes s va Hs Hv) as (_ & _ & ?). lia. }
  split; [by apply (acts_trans a c a1 (with_mem m c1))|]. exists P2. split; [done|]. destruct r2 as [u2|e2]; [|done].
  destruct Hr2 as [Hx2 Hf2]. split.
  - apply (extends_weaken P P2 (λ va, va ∈ pages_of (address s) (size s) ∨ ∃ s', s' ∈ l ∧ va ∈ pages_of (address s') (size s'))).
    + intros va [?|(s' & ? & ?)]; [exists s|exists s']; split; try done; [by left|by right].
    + by apply (extends_trans P P1 P2).
  - intros s' va [->|Hs']%elem_of_cons Hva; [|by apply Hf2]. destruct (Hf1 va Hva) as [f Hf]. exists f. by apply (proj2 Hx2).
Qed.
End spaces.
End Spaces.
