(* ===== verification/Programs.v ===== *)
(** User programs ([src/process/mod.rs]) and their system calls on handles ([src/process/handles.rs]).

    The state is the kernel's: the table [PROCESSES], the ASIDs in use, memory and page frames ([Paging]), pipes,
    the budget of file bytes and the handle tables ([Process]), the screen, and the file system behind the
    class [Files].  What a function does under one lock is an [Eff] of that state; a system call is a [Call], a
    sequence of such sections with waits in between, and other tasks' sections may come between any two.

    A [Running] that [exit] has taken out of [PROCESSES] is still in [programs] until it is dropped, with
    [listed] false; [locals] are the counted things a call holds in local variables. *)
From S2P Require Import Prelude Bytes Abi Frames Paging Elf Link Path Process Effect Fat Fs.
Import layout.
Open Scope Z_scope.

Module Programs.
Import Effect.

Definition TaskId : Type := nat.

Definition CODE_BASE : Z := USER_BASE.

Record Fault := mkFault { esr : Z; pc : Z; far : Z }.

Inductive Exit :=
| Code (code : Z)
| Crashed (fault : Fault)
| Killed.

Inductive SpawnError := TooManyPrograms | ArgsTooLong | OutOfMemory.

(** What a program runs: a built-in one, by its offset in their image, or a parsed executable. *)
Inductive Image :=
| Builtin (offset : Z)
| ElfImage (program : Elf.Program).

(** * Address space identifiers *)
Definition COUNT : nat := 256.

(** [ASIDS]: four words, bit [n] of which is set while ASID [n] is in use. *)
Definition boot_asids : list Z := [1; 0; 0; 0].

Definition asid_used (used : list Z) (n : nat) : bool :=
  negb (Z.land (used !!! (n / 64)%nat) (Z.shiftl 1 (Z.of_nat (n mod 64))) =? 0).

Definition allocate_asid (used : list Z) : option (list Z * Z) :=
  n ← List.find (λ n, negb (asid_used used n)) (seq 0 COUNT);
  Some (<[(n / 64)%nat := Z.lor (used !!! (n / 64)%nat) (Z.shiftl 1 (Z.of_nat (n mod 64)))]> used, Z.of_nat n).

Definition drop_asid (asid : Z) (used : list Z) : list Z :=
  let n := Z.to_nat asid in
  <[(n / 64)%nat := Z.land (used !!! (n / 64)%nat) (bnot 64 (Z.shiftl 1 (Z.of_nat (n mod 64))))]> used.

(** * What programs hold *)

(** An end of a pipe: which pipe, and which end. *)
Record PipeEnd := mkPipeEnd { of_pipe : nat; which : Pipe.End }.
#[local] Existing Instances Pipe.End_eq_dec Paging.Access_eq_dec.
#[export] Instance PipeEnd_eq_dec : EqDecision PipeEnd.
Proof. solve_decision. Defined.

Inductive Stream := Console | PipeStream (e : PipeEnd).

Record Io := mkIo { io_input : Stream; io_output : Stream }.
Definition console : Io := mkIo Console Console.

(** A started program: its task, and the cell its exit goes to. *)
Record Process := mkProcess { id : TaskId; exit_cell : nat }.

(** A directory entry, its name in UTF-8. *)
Record Entry := mkEntry { entry_name : list Z; is_directory : bool; entry_size : Z }.

Inductive Open :=
| File (data : Buffer.FileBuffer) (position : nat)
| Dir (entries : list Entry) (position : nat)
| Child (child : Process)
| PipeHandle (e : PipeEnd)
| Screen (width height : Z)
| NewFile (path : list Z) (data : Buffer.FileBuffer).

Record Running := mkRunning {
  name : list Z;
  memory : Paging.AddressSpace;
  asid : Z;
  exit : nat;
  killed : bool;
  heap_end : Z;
  input : list Z;
  reading_input : bool;
  handles : list (option Open);
  waiting_for : option TaskId;
  io : Io;
  parent : option TaskId;
  cwd : list Z;
  listed : bool;
  locals : list Open;
}.

Definition with_memory x r := mkRunning (name r) x (asid r) (exit r) (killed r) (heap_end r) (input r) (reading_input r) (handles r) (waiting_for r) (io r) (parent r) (cwd r) (listed r) (locals r).
Definition with_killed x r := mkRunning (name r) (memory r) (asid r) (exit r) x (heap_end r) (input r) (reading_input r) (handles r) (waiting_for r) (io r) (parent r) (cwd r) (listed r) (locals r).
Definition with_heap_end x r := mkRunning (name r) (memory r) (asid r) (exit r) (killed r) x (input r) (reading_input r) (handles r) (waiting_for r) (io r) (parent r) (cwd r) (listed r) (locals r).
Definition with_input x r := mkRunning (name r) (memory r) (asid r) (exit r) (killed r) (heap_end r) x (reading_input r) (handles r) (waiting_for r) (io r) (parent r) (cwd r) (listed r) (locals r).
Definition with_reading x r := mkRunning (name r) (memory r) (asid r) (exit r) (killed r) (heap_end r) (input r) x (handles r) (waiting_for r) (io r) (parent r) (cwd r) (listed r) (locals r).
Definition with_handles x r := mkRunning (name r) (memory r) (asid r) (exit r) (killed r) (heap_end r) (input r) (reading_input r) x (waiting_for r) (io r) (parent r) (cwd r) (listed r) (locals r).
Definition with_waiting x r := mkRunning (name r) (memory r) (asid r) (exit r) (killed r) (heap_end r) (input r) (reading_input r) (handles r) x (io r) (parent r) (cwd r) (listed r) (locals r).
Definition with_cwd x r := mkRunning (name r) (memory r) (asid r) (exit r) (killed r) (heap_end r) (input r) (reading_input r) (handles r) (waiting_for r) (io r) (parent r) x (listed r) (locals r).
Definition with_listed x r := mkRunning (name r) (memory r) (asid r) (exit r) (killed r) (heap_end r) (input r) (reading_input r) (handles r) (waiting_for r) (io r) (parent r) (cwd r) x (locals r).
Definition with_locals x r := mkRunning (name r) (memory r) (asid r) (exit r) (killed r) (heap_end r) (input r) (reading_input r) (handles r) (waiting_for r) (io r) (parent r) (cwd r) (listed r) x.

(** [MAX_INPUT] bytes of unread input at most. *)
Definition MAX_INPUT : Z := 4096.

(** What a handle table has open, in order. *)
Definition opened (h : list (option Open)) : list Open := omap (λ o, o) h.

(** Whether a table holds the handle of child [t]. *)
Definition watches (t : TaskId) (h : list (option Open)) : bool :=
  existsb (λ o, match o with Some (Child c) => bool_decide (id c = t) | _ => false end) h.

(** What a program's task starts with: [sched::UserStart]. *)
Record UserStart := mkUserStart { start_base : Z; start_entry : Z; stack_top : Z; start_args : Z * Z }.

(** * The file system, as the system calls use it
    [E] is the card's errors.  A file that is read is a [Vec] with its capacity. *)
Class Files (FS E : Type) := {
  fs_read_file : list Z → FS → FS * result (Fs.FsError E) Buffer.FileBuffer;
  fs_read_dir : list Z → FS → FS * result (Fs.FsError E) (list Entry);
  fs_check_writable : list Z → FS → FS * result (Fs.FsError E) unit;
  fs_check_dir : list Z → FS → FS * result (Fs.FsError E) unit;
  fs_write_file : list Z → list Z → FS → FS * result (Fs.FsError E) unit;
  fs_create_dir : list Z → FS → FS * result (Fs.FsError E) unit;
  fs_remove : list Z → FS → FS * result (Fs.FsError E) unit;
  fs_file_fits path fs fs' v : fs_read_file path fs = (fs', Ok v) →
    Z.of_nat (length (Buffer.data v)) <= Buffer.capacity v ∧ is_bytes (Buffer.data v) }.

Definition errno {E} (error : Fs.FsError E) : Errno.Errno :=
  match error with
  | Fs.FatErr Fat.NotFound => Errno.NotFound
  | Fs.FatErr Fat.NotAFile => Errno.IsADirectory
  | Fs.FatErr Fat.NotADirectory => Errno.NotADirectory
  | Fs.FatErr (Fat.NoSpace | Fat.DirectoryFull) => Errno.NoSpace
  | Fs.FatErr Fat.AlreadyExists => Errno.AlreadyExists
  | Fs.FatErr Fat.NotEmpty => Errno.NotEmpty
  | Fs.FatErr (Fat.InvalidName | Fat.TooBig) => Errno.Invalid
  | Fs.Protected => Errno.Protected
  | Fs.TooBig => Errno.NoMemory
  | _ => Errno.Io
  end.

(** * The kernel *)
Section kernel.
Context {Src : Type} `{FrameSource Src} {FS E : Type} `{Files FS E}.

Record Kernel := mkKernel {
  machine : Paging.Machine (Src := Src);
  asids : list Z;
  programs : gmap TaskId Running;
  starts : gmap TaskId UserStart;
  tasks : nat;                          (* how many tasks the scheduler has been given *)
  exits : list (option Exit);           (* the cells exits go to *)
  pipes : gmap nat Pipe.State;
  held : Z;                             (* file bytes, [buffer::HELD] *)
  fs : FS;
  screen : option (Z * Z);              (* its size, if there is one *)
  busy : bool;                          (* whether [SCREEN] is locked *)
  lent : bool;
  drawn : list (Z * Z * list Z);        (* rows drawn through leases *)
  printed : list Z;                     (* programs' console output *)
  reports : list (TaskId * list Z * Exit);  (* exits the console was told of *)
}.

Definition with_machine x k := mkKernel x (asids k) (programs k) (starts k) (tasks k) (exits k) (pipes k) (held k) (fs k) (screen k) (busy k) (lent k) (drawn k) (printed k) (reports k).
Definition with_asids x k := mkKernel (machine k) x (programs k) (starts k) (tasks k) (exits k) (pipes k) (held k) (fs k) (screen k) (busy k) (lent k) (drawn k) (printed k) (reports k).
Definition with_programs x k := mkKernel (machine k) (asids k) x (starts k) (tasks k) (exits k) (pipes k) (held k) (fs k) (screen k) (busy k) (lent k) (drawn k) (printed k) (reports k).
Definition with_exits x k := mkKernel (machine k) (asids k) (programs k) (starts k) (tasks k) x (pipes k) (held k) (fs k) (screen k) (busy k) (lent k) (drawn k) (printed k) (reports k).
Definition with_pipes x k := mkKernel (machine k) (asids k) (programs k) (starts k) (tasks k) (exits k) x (held k) (fs k) (screen k) (busy k) (lent k) (drawn k) (printed k) (reports k).
Definition with_held x k := mkKernel (machine k) (asids k) (programs k) (starts k) (tasks k) (exits k) (pipes k) x (fs k) (screen k) (busy k) (lent k) (drawn k) (printed k) (reports k).
Definition with_fs x k := mkKernel (machine k) (asids k) (programs k) (starts k) (tasks k) (exits k) (pipes k) (held k) x (screen k) (busy k) (lent k) (drawn k) (printed k) (reports k).
Definition with_lent x k := mkKernel (machine k) (asids k) (programs k) (starts k) (tasks k) (exits k) (pipes k) (held k) (fs k) (screen k) (busy k) x (drawn k) (printed k) (reports k).
Definition with_drawn x k := mkKernel (machine k) (asids k) (programs k) (starts k) (tasks k) (exits k) (pipes k) (held k) (fs k) (screen k) (busy k) (lent k) x (printed k) (reports k).
Definition print x k := mkKernel (machine k) (asids k) (programs k) (starts k) (tasks k) (exits k) (pipes k) (held k) (fs k) (screen k) (busy k) (lent k) (drawn k) (printed k ++ x) (reports k).

Definition report x k := mkKernel (machine k) (asids k) (programs k) (starts k) (tasks k) (exits k) (pipes k) (held k) (fs k) (screen k) (busy k) (lent k) (drawn k) (printed k) (reports k ++ [x]).

Local Notation Section_ X := (Eff Kernel X).

(** A pipe that an end refers to; there is always one. *)
Definition pipe_state (p : nat) (k : Kernel) : Pipe.State := default Pipe.pair (pipes k !! p).
Definition set_pipe (p : nat) (s : Pipe.State) (k : Kernel) : Kernel := with_pipes (<[p := s]> (pipes k)) k.

(** ** Counted things, duplicated and dropped *)
Definition duplicate_end (e : PipeEnd) (k : Kernel) : Kernel :=
  set_pipe (of_pipe e) (Pipe.duplicate (which e) (pipe_state (of_pipe e) k)) k.
Definition drop_end (e : PipeEnd) (k : Kernel) : Kernel :=
  set_pipe (of_pipe e) (Pipe.drop_end (which e) (pipe_state (of_pipe e) k)) k.

Definition duplicate (s : Stream) (k : Kernel) : Kernel :=
  match s with Console => k | PipeStream e => duplicate_end e k end.
Definition drop_stream (s : Stream) (k : Kernel) : Kernel :=
  match s with Console => k | PipeStream e => drop_end e k end.

(** Giving the screen back also draws the console again. *)
Definition drop_open (o : Open) (k : Kernel) : Kernel :=
  match o with
  | File data _ | NewFile _ data => with_held (Buffer.give_back (Buffer.capacity data) (held k)) k
  | PipeHandle e => drop_end e k
  | Screen _ _ => with_lent false k
  | Dir _ _ | Child _ => k
  end.
Definition drop_opens (os : list Open) (k : Kernel) : Kernel := foldl (λ k o, drop_open o k) k os.

(** ** Programs in the table *)
Definition lookup_program (t : TaskId) (k : Kernel) : option Running :=
  match programs k !! t with Some r => if listed r then Some r else None | None => None end.
Definition set_program (t : TaskId) (r : Running) (k : Kernel) : Kernel := with_programs (<[t := r]> (programs k)) k.

Definition is_running (t : TaskId) (k : Kernel) : bool := bool_decide (is_Some (lookup_program t k)).
Definition was_killed (t : TaskId) (k : Kernel) : bool :=
  match lookup_program t k with Some r => killed r | None => false end.

(** ** Starting programs *)

(** The image of the built-in programs, and the kernel's level 1 table. *)
Context (image kernel_table : list Z).

(** [None] is the panic of [unreachable!]. *)
Definition out_of_memory (e : Paging.MapError) : option SpawnError :=
  match e with Paging.OutOfMemory => Some OutOfMemory | _ => None end.

(** A program's code put in its memory: the entry point, the ranges of code and the end.  The inner [None] is a
    panic. *)
Definition load_image (i : Image) (a : Paging.AddressSpace) (c : Paging.Machine (Src := Src)) :
    Paging.AddressSpace * Paging.Machine * option (result SpawnError (Z * list (Z * Z) * Z)) :=
  match i with
  | Builtin offset =>
    let len := Z.of_nat (length image) in
    match Paging.map_range CODE_BASE len Paging.ReadExecute a c with
    | (a, c, Err e) => (a, c, Err <$> out_of_memory e)
    | (a, c, Ok _) =>
      match Paging.load CODE_BASE image a (Paging.mem c) with
      | (m, Err _) => (a, Paging.with_mem m c, None)
      | (m, Ok _) => (a, Paging.with_mem m c, Some (Ok (CODE_BASE + offset, [(CODE_BASE, len)], CODE_BASE + len)))
      end
    end
  | ElfImage p =>
    match Elf.load_program p a c with
    | (a, c, Err (Elf.Map e)) => (a, c, Err <$> out_of_memory e)
    | (a, c, Err (Elf.AccessError _)) => (a, c, None)
    | (a, c, Ok _) =>
      let code := List.filter (λ s, bool_decide (Elf.access s = Paging.ReadExecute)) (Elf.segments p) in
      (a, c, match Elf.end_ <$> Elf.segments p with
             | [] => None
             | e :: es => Some (Ok (Elf.entry_point p, (λ s, (Elf.address s, Elf.size s)) <$> code, foldr Z.max e es))
             end)
    end
  end.

(** Every page of code is translated, to synchronise the instruction cache with it. *)
Definition code_mapped (ranges : list (Z * Z)) (a : Paging.AddressSpace) (m : Paging.Mem) : bool :=
  forallb (λ '(start, len), forallb (λ va, bool_decide (is_Some (Paging.translate va a m))) (Paging.pages_of start len)) ranges.

(** All of a new program's memory: entry point, where its arguments are, and its end. *)
Definition prepare (i : Image) (args : list Z) (a : Paging.AddressSpace) (c : Paging.Machine (Src := Src)) :
    Paging.AddressSpace * Paging.Machine * option (result SpawnError (Z * Z * Z)) :=
  match load_image i a c with
  | (a, c, None) => (a, c, None)
  | (a, c, Some (Err e)) => (a, c, Some (Err e))
  | (a, c, Some (Ok (entry, ranges, program_end))) =>
    if negb (code_mapped ranges a (Paging.mem c)) then (a, c, None) else
    match Paging.map_range (STACK_TOP - STACK_SIZE) STACK_SIZE Paging.ReadWrite a c with
    | (a, c, Err e) => (a, c, Err <$> out_of_memory e)
    | (a, c, Ok _) =>
      let args_at := Z.land (STACK_TOP - Z.of_nat (length args)) (bnot 64 15) in
      match Paging.load args_at args a (Paging.mem c) with
      | (m, Err _) => (a, Paging.with_mem m c, None)
      | (m, Ok _) => (a, Paging.with_mem m c, Some (Ok (entry, args_at, program_end)))
      end
    end
  end.

(** [sched::spawn_user] gives the next task, which starts in [start]; [PROCESSES] is locked meanwhile. *)
Definition register (r : Running) (start : UserStart) (k : Kernel) : Kernel :=
  mkKernel (machine k) (asids k) (<[tasks k := r]> (programs k)) (<[tasks k := start]> (starts k)) (S (tasks k)) (exits k)
    (pipes k) (held k) (fs k) (screen k) (busy k) (lent k) (drawn k) (printed k) (reports k).

(** From the first allocation to the registration it shares only the pools of ASIDs and frames with other tasks. *)
Definition spawn_with (name : list Z) (code : Image) (args : list Z) (streams : Io) (parent : option TaskId)
    (cwd : list Z) : Section_ SpawnError Process :=
  if MAX_ARGS <? Z.of_nat (length args) then fail ArgsTooLong else
  k ← get;
  match allocate_asid (asids k) with
  | None => fail TooManyPrograms
  | Some (used, asid) =>
    _ ← modify (with_asids used);
    match Paging.new kernel_table (machine k) with
    | None => panic
    | Some (c, None) =>
      _ ← modify (with_machine c); _ ← modify (with_asids (drop_asid asid used)); fail OutOfMemory
    | Some (c, Some memory) =>
      match prepare code args memory c with
      | (memory, c, None) => panic
      | (memory, c, Some (Err e)) =>
        c ← unwrap (Paging.drop_space memory c);
        _ ← modify (with_machine c); _ ← modify (with_asids (drop_asid asid used)); fail e
      | (memory, c, Some (Ok (entry, args_at, program_end))) =>
        let start := mkUserStart (Paging.translation_base asid memory) entry args_at (args_at, Z.of_nat (length args)) in
        let cell := length (exits k) in
        let r := mkRunning name memory asid cell false (Frames.next_multiple_of program_end PAGE_SIZE) [] false
                   Handles.new None streams parent cwd true [] in
        let child := tasks k in
        _ ← modify (with_machine c);
        _ ← modify (with_exits (exits k ++ [None]));
        _ ← modify (register r start);
        mret (mkProcess child cell)
      end
    end
  end.

(** [spawn]: on the console, with no parent. *)
Definition spawn_program (name : list Z) (code : Image) (args cwd : list Z) : Section_ SpawnError Process :=
  spawn_with name code args console None cwd.

(** ** Input from the keyboard *)
Inductive InputError := NotAProgram | Full.
Record Delivered := mkDelivered { delivered_to : TaskId; delivered_name : list Z; reading : bool }.

(** The loop of [send_line]: down the programs that wait on a child.  Each child is a later task than its
    parent, so as many rounds as there are tasks are enough; [None] is running out of them. *)
Fixpoint input_target (fuel : nat) (t : TaskId) (k : Kernel) : option TaskId :=
  match fuel with
  | O => None
  | S fuel =>
    match lookup_program t k ≫= waiting_for with
    | Some child => if is_running child k then input_target fuel child k else Some t
    | None => Some t
    end
  end.

Definition send_line (t : TaskId) (line : list Z) : Section_ InputError Delivered :=
  k ← get;
  target ← unwrap (input_target (S (tasks k)) t k);
  match lookup_program target k with
  | None => fail NotAProgram
  | Some r =>
    if MAX_INPUT <? Z.of_nat (length (input r)) + Z.of_nat (length line) + 1 then fail Full else
    _ ← modify (set_program target (with_input (input r ++ line ++ [0x0A]) r));
    mret (mkDelivered target (name r) (reading_input r))
  end.

(** ** Killing *)
Inductive KillError := KillNotAProgram.

(** A program at EL0 is then sent to [exit]; one in a system call is woken. *)
Definition kill (t : TaskId) : Section_ KillError unit :=
  k ← get;
  match lookup_program t k with
  | None => fail KillNotAProgram
  | Some r => modify (set_program t (with_killed true r))
  end.

(** * Calls
    A call by a program's task: sections under a lock, waits, values from outside ([sys::random], the timer), and
    its end: it returns, or its task is gone ([sched::exit]), or the kernel panics. *)
Inductive Call (A : Type) :=
| Done (a : A)
| Locked (section : Kernel → Kernel * Call A)
| Until (ready : Kernel → bool) (c : Call A)
| Given (possible : list Z → bool) (c : list Z → Call A)
| Gone
| Stuck.
Arguments Done {A}.
Arguments Locked {A}.
Arguments Until {A}.
Arguments Given {A}.
Arguments Gone {A}.
Arguments Stuck {A}.

Fixpoint call_bind {A B} (c : Call A) (g : A → Call B) : Call B :=
  match c with
  | Done a => g a
  | Locked f => Locked (λ k, let '(k, c) := f k in (k, call_bind c g))
  | Until ready c => Until ready (call_bind c g)
  | Given possible f => Given possible (λ x, call_bind (f x) g)
  | Gone => Gone
  | Stuck => Stuck
  end.

(** System calls, whose errors [?] passes on. *)
Definition Sys (A : Type) : Type := Call (result Errno.Errno A).
#[export] Instance Sys_ret : MRet Sys := λ A a, Done (Ok a).
#[export] Instance Sys_bind : MBind Sys := λ A B g c,
  call_bind c (λ r, match r with Ok a => g a | Err e => Done (Err e) end).

Definition err {A} (e : Errno.Errno) : Sys A := Done (Err e).
Definition wait_until (ready : Kernel → bool) : Sys unit := Until ready (Done (Ok tt)).
Definition given (possible : list Z → bool) : Sys (list Z) := Given possible (λ x, Done (Ok x)).

(** The result as a value, for the code that looks at it. *)
Definition attempt {A} (c : Sys A) : Sys (result Errno.Errno A) := call_bind c (λ r, Done (Ok r)).

Definition locked {A} (m : Section_ Errno.Errno A) : Sys A :=
  Locked (λ k, match m k with
               | Ret k a => (k, Done (Ok a))
               | Fail k e => (k, Done (Err e))
               | Panic => (k, Stuck)
               end).

(** * System calls *)

Context `{allocator : !Buffer.Allocator}.

Section calls.
(** The running program: [sched::current()]. *)
Variable me : TaskId.
Local Notation M := (Section_ Errno.Errno).

(** ** In a section *)

(** [with_running]: the running program is in the table. *)
Definition running : M Running := k ← get; unwrap (lookup_program me k).
Definition set_running (r : Running) : M unit := modify (set_program me r).

Definition write_user (va : Z) (bytes : list Z) : M unit :=
  r ← running;
  k ← get;
  let '(m, answer) := Paging.write_user va bytes (memory r) (Paging.mem (machine k)) in
  _ ← modify (with_machine (Paging.with_mem m (machine k)));
  match answer with Ok _ => mret tt | Err _ => fail Errno.Fault end.

(** The first [len] bytes at [va]. *)
Definition read_user (va : Z) (len : nat) : M (list Z) :=
  r ← running;
  k ← get;
  let '(buf, answer) := Paging.read_user va (replicate len 0) (memory r) (Paging.mem (machine k)) in
  match answer with Ok _ => mret buf | Err _ => fail Errno.Fault end.

Definition get_handle (handle : Z) : M Open := r ← running; lift (Handles.get_mut (handles r) handle).

(** What an open handle refers to, changed in place. *)
Definition set_handle (handle : Z) (o : Open) : M unit :=
  r ← running;
  match Handles.slot (handles r) handle with
  | Ok n => set_running (with_handles (<[n := Some o]> (handles r)) r)
  | Err e => fail e
  end.

(** If there is no room what was to be inserted is dropped. *)
Definition insert_handle (o : Open) : M Z :=
  r ← running;
  let '(h, answer) := Handles.insert (handles r) o in
  _ ← set_running (with_handles h r);
  match answer with Ok handle => mret handle | Err e => _ ← modify (drop_open o); fail e end.

Definition take_handle (handle : Z) : M Open :=
  r ← running;
  let '(h, answer) := Handles.take (handles r) handle in
  _ ← set_running (with_handles h r);
  lift answer.

(** A counted thing in a local variable; it is dropped, or moved out of it, later. *)
Definition hold (os : list Open) : M unit := r ← running; set_running (with_locals (os ++ locals r) r).
Definition moved (os : list Open) : M unit := r ← running; set_running (with_locals os r).
Definition drop_locals : M unit :=
  r ← running; _ ← modify (drop_opens (locals r)); r ← running; set_running (with_locals [] r).

(** ** Memory *)
Definition copy_from_user (addr : Z) (len : nat) : Sys (list Z) := locked (read_user addr len).

Definition user_string (ptr len max : Z) : Sys (list Z) :=
  if max <? len then err Errno.Invalid else
  buf ← copy_from_user ptr (Z.to_nat len);
  if is_utf8 buf then mret buf else err Errno.Invalid.

Definition user_path (ptr len : Z) : Sys (list Z) :=
  path ← user_string ptr len MAX_PATH;
  locked (r ← running; mret (Path.resolve (cwd r) path)).

Definition random (ptr len : Z) : Sys Z :=
  let n := Z.to_nat (Z.min len MAX_RANDOM) in
  buf ← given (λ l, (length l =? n)%nat && forallb (λ b, (0 <=? b) && (b <? 256)) l);
  _ ← locked (write_user ptr buf);
  mret (Z.of_nat (length buf)).

(** The heap grows a page per section; [page] is the next of [n]. *)
Fixpoint map_pages (n : nat) (page : Z) : Sys unit :=
  match n with
  | O => mret tt
  | S n =>
    _ ← locked (r ← running;
                k ← get;
                let '(a, c, answer) := Paging.map page Paging.ReadWrite (memory r) (machine k) in
                _ ← modify (with_machine c);
                match answer with
                | Ok _ => set_running (with_heap_end (wrap 64 (page + PAGE_SIZE)) (with_memory a r))
                | Err _ => _ ← set_running (with_memory a r); fail Errno.NoMemory
                end);
    map_pages n (page + PAGE_SIZE)
  end.

Definition map (len : Z) : Sys Z :=
  start ← locked (r ← running; mret (heap_end r));
  let size := (len + PAGE_SIZE - 1) / PAGE_SIZE * PAGE_SIZE in
  if (size <? 2 ^ 64) && (start + size <? 2 ^ 64) && (start + size <=? PROGRAM_END) then
    _ ← map_pages (Z.to_nat (size / PAGE_SIZE)) start; mret start
  else err Errno.NoMemory.

(** ** Pipes and typed input *)
Definition read_pipe (p : nat) (ptr len : Z) : Sys Z :=
  let n := Z.to_nat (Z.min len MAX_READ) in
  if (n =? 0)%nat then mret 0 else
  _ ← wait_until (λ k, was_killed me k || Pipe.readable (pipe_state p k));
  bytes ← locked (k ← get;
                  let '(s, bytes) := Pipe.read_section n (pipe_state p k) in
                  _ ← modify (set_pipe p s); mret bytes);
  _ ← locked (write_user ptr bytes);
  mret (Z.of_nat (length bytes)).

Definition write_pipe (p : nat) (ptr len : Z) : Sys Z :=
  bytes ← copy_from_user ptr (Z.to_nat (Z.min len MAX_WRITE));
  if bool_decide (bytes = []) then mret 0 else
  _ ← wait_until (λ k, was_killed me k || Pipe.writable (pipe_state p k));
  locked (k ← get;
          let '(s, answer) := Pipe.write_section bytes (pipe_state p k) in
          _ ← modify (set_pipe p s);
          count ← lift answer; mret (Z.of_nat count)).

(** The pipe behind a standard stream. *)
Definition stream_pipe (stream : Io → Stream) : Sys (option nat) :=
  locked (r ← running; mret (match stream (io r) with Console => None | PipeStream e => Some (of_pipe e) end)).

Definition set_reading (reading : bool) : Sys unit :=
  locked (k ← get; match lookup_program me k with Some r => set_running (with_reading reading r) | None => mret tt end).

Definition read_typed (ptr len : Z) : Sys Z :=
  let n := Z.to_nat (Z.min len MAX_READ) in
  if (n =? 0)%nat then mret 0 else
  _ ← set_reading true;
  _ ← wait_until (λ k, match lookup_program me k with
                       | None => true
                       | Some r => killed r || negb (bool_decide (input r = []))
                       end);
  _ ← set_reading false;
  locked (r ← running;
          let count := (n `min` length (input r))%nat in
          _ ← write_user ptr (take count (input r));
          r ← running;
          _ ← set_running (with_input (drop count (input r)) r);
          mret (Z.of_nat count)).

Definition read_input (ptr len : Z) : Sys Z :=
  pipe ← stream_pipe io_input;
  match pipe with Some p => read_pipe p ptr len | None => read_typed ptr len end.

Definition write_output (ptr len : Z) : Sys Z :=
  pipe ← stream_pipe io_output;
  match pipe with
  | Some p => write_pipe p ptr len
  | None =>
    let n := Z.to_nat (Z.min len MAX_WRITE) in
    bytes ← copy_from_user ptr n;
    _ ← locked (modify (print (concat (Link.plain_text bytes))));
    mret (Z.of_nat n)
  end.

(** ** Files and directories *)
Definition fs_call {A} (op : FS → FS * result (Fs.FsError E) A) : Sys A :=
  locked (k ← get; let '(f, answer) := op (fs k) in _ ← modify (with_fs f); lift (map_err errno answer)).

(** [FileBuffer::adopt], into a local variable. *)
Definition adopt (v : Buffer.FileBuffer) : Sys Buffer.FileBuffer :=
  locked (k ← get;
          let '(h, answer) := Buffer.adopt v (held k) in
          _ ← modify (with_held h);
          data ← lift answer;
          _ ← hold [File data 0]; mret data).

Definition open (path len : Z) : Sys Z :=
  path ← user_path path len;
  v ← fs_call (fs_read_file path);
  data ← adopt v;
  locked (_ ← moved []; insert_handle (File data 0)).

Definition open_dir (path len : Z) : Sys Z :=
  path ← user_path path len;
  entries ← fs_call (fs_read_dir path);
  locked (insert_handle (Dir entries 0)).

Definition read (handle ptr len : Z) : Sys Z :=
  pipe ← locked (o ← get_handle handle;
                 match o with
                 | PipeHandle e => if decide (which e = Pipe.Read) then mret (Some (of_pipe e)) else fail Errno.BadHandle
                 | _ => mret None
                 end);
  match pipe with
  | Some p => read_pipe p ptr len
  | None =>
    locked (o ← get_handle handle;
            match o with
            | File data position =>
              let bytes := Buffer.data data in
              if (length bytes <? position)%nat then panic else
              let count := (Z.to_nat (Z.min len MAX_READ) `min` (length bytes - position))%nat in
              _ ← write_user ptr (take count (drop position bytes));
              _ ← set_handle handle (File data (position + count));
              mret (Z.of_nat count)
            | Dir _ _ => fail Errno.IsADirectory
            | Child _ | PipeHandle _ | Screen _ _ | NewFile _ _ => fail Errno.BadHandle
            end)
  end.

Definition write (handle ptr len : Z) : Sys Z :=
  pipe ← locked (o ← get_handle handle;
                 match o with
                 | PipeHandle e => if decide (which e = Pipe.Write) then mret (Some (of_pipe e)) else fail Errno.BadHandle
                 | NewFile _ _ => mret None
                 | _ => fail Errno.BadHandle
                 end);
  match pipe with
  | Some p => write_pipe p ptr len
  | None =>
    bytes ← copy_from_user ptr (Z.to_nat (Z.min len MAX_WRITE));
    locked (o ← get_handle handle;
            match o with
            | NewFile path data =>
              k ← get;
              let '(h, data, answer) := Buffer.extend data bytes (held k) in
              _ ← modify (with_held h);
              _ ← set_handle handle (NewFile path data);
              _ ← lift answer;
              mret (Z.of_nat (length bytes))
            | _ => fail Errno.BadHandle
            end)
  end.

Definition create (path len : Z) : Sys Z :=
  path ← user_path path len;
  _ ← fs_call (fs_check_writable path);
  locked (insert_handle (NewFile path Buffer.new)).

Definition remove (path len : Z) : Sys Z := path ← user_path path len; _ ← fs_call (fs_remove path); mret 0.
Definition make_dir (path len : Z) : Sys Z := path ← user_path path len; _ ← fs_call (fs_create_dir path); mret 0.

Definition change_dir (path len : Z) : Sys Z :=
  path ← user_path path len;
  if MAX_PATH <? Z.of_nat (length path) then err Errno.Invalid else
  _ ← fs_call (fs_check_dir path);
  _ ← locked (r ← running; set_running (with_cwd path r));
  mret 0.

Definition current_dir (buf len : Z) : Sys Z :=
  locked (r ← running;
          if len <? Z.of_nat (length (cwd r)) then fail Errno.Invalid else
          _ ← write_user buf (cwd r);
          mret (Z.of_nat (length (cwd r)))).

Definition read_dir (handle entry : Z) : Sys Z :=
  locked (o ← get_handle handle;
          match o with
          | Dir entries position =>
            match entries !! position with
            | None => mret 0
            | Some next =>
              let next := DirEntry.new (entry_name next) (is_directory next) (entry_size next) in
              _ ← write_user entry (DirEntry.as_bytes next);
              _ ← set_handle handle (Dir entries (position + 1));
              mret 1
            end
          | File _ _ => fail Errno.NotADirectory
          | Child _ | PipeHandle _ | Screen _ _ | NewFile _ _ => fail Errno.BadHandle
          end).

(** ** Pipes *)
Definition pipe (ends : Z) : Sys Z :=
  locked (r ← running;
          if Handles.free_slots (handles r) <? 2 then fail Errno.TooMany else
          k ← get;
          let p := fresh (dom (pipes k)) in
          _ ← modify (set_pipe p Pipe.pair);
          reader ← catch (insert_handle (PipeHandle (mkPipeEnd p Pipe.Read)));
          match reader with
          | Err e => _ ← modify (drop_end (mkPipeEnd p Pipe.Write)); fail e
          | Ok reader =>
            writer ← insert_handle (PipeHandle (mkPipeEnd p Pipe.Write));
            answer ← catch (write_user ends (le_bytes 8 reader ++ le_bytes 8 writer));
            match answer with
            | Ok _ => mret 0
            | Err _ =>
              o ← catch (take_handle reader); _ ← match o with Ok o => modify (drop_open o) | Err _ => mret tt end;
              o ← catch (take_handle writer); _ ← match o with Ok o => modify (drop_open o) | Err _ => mret tt end;
              fail Errno.Fault
            end
          end).

(** The stream a child gets for [handle]: a duplicate of this program's, or of a pipe end it has. *)
Definition stream_for (handle : Z) (end_ : Pipe.End) : M Stream :=
  r ← running;
  if (handle =? INPUT) && bool_decide (end_ = Pipe.Read) then _ ← modify (duplicate (io_input (io r))); mret (io_input (io r)) else
  if (handle =? OUTPUT) && bool_decide (end_ = Pipe.Write) then _ ← modify (duplicate (io_output (io r))); mret (io_output (io r)) else
  o ← get_handle handle;
  match o with
  | PipeHandle e => if decide (which e = end_) then _ ← modify (duplicate_end e); mret (PipeStream e) else fail Errno.BadHandle
  | _ => fail Errno.BadHandle
  end.

(** ** The screen *)

(** [console::lend]. *)
Definition lend : M (Z * Z) :=
  k ← get;
  match (if busy k then None else screen k) with
  | None => fail Errno.NoDevice
  | Some size => if lent k then fail Errno.Busy else _ ← modify (with_lent true); mret size
  end.

Definition open_screen (size : Z) : Sys Z :=
  locked (r ← running;
          if negb (Handles.has_room (handles r)) then fail Errno.TooMany else
          '(width, height) ← lend;
          let bytes := ScreenSize.as_bytes (ScreenSize.mkScreenSize (wrap 32 width) (wrap 32 height)) in
          answer ← catch (write_user size bytes);
          match answer with
          | Err e => _ ← modify (drop_open (Screen width height)); fail e
          | Ok _ => insert_handle (Screen width height)
          end).

(** A row drawn through the lease, unless the screen is locked. *)
Definition draw_row (x y : Z) (words : list Z) (k : Kernel) : Kernel :=
  if busy k then k else with_drawn (drawn k ++ [(x, y, words)]) k.

(** [chunks_exact(4)] as little endian words. *)
Fixpoint words_of (bytes : list Z) : list Z :=
  match bytes with
  | a :: b :: c :: d :: rest => le_value [a; b; c; d] :: words_of rest
  | _ => []
  end.

(** [n] rows from row [r] on. *)
Fixpoint draw_rows (n : nat) (r handle x y row_bytes pixels : Z) (visible_width : nat) : Sys Z :=
  match n with
  | O => mret 0
  | S n =>
    if negb ((r * row_bytes <? 2 ^ 64) && (pixels + r * row_bytes <? 2 ^ 64)) then err Errno.Fault else
    row ← copy_from_user (pixels + r * row_bytes) (visible_width * 4);
    _ ← locked (o ← catch (get_handle handle);
                match o with
                | Ok (Screen _ _) => modify (draw_row x (y + r) (words_of row))
                | _ => fail Errno.BadHandle
                end);
    draw_rows n (r + 1) handle x y row_bytes pixels visible_width
  end.

Definition draw (handle x y width height pixels : Z) : Sys Z :=
  '(screen_width, screen_height) ← locked (o ← get_handle handle;
                                           match o with Screen w h => mret (w, h) | _ => fail Errno.BadHandle end);
  let x := Z.min x screen_width in
  let y := Z.min y screen_height in
  let visible_width := Z.min width (screen_width - x) in
  let visible_height := Z.min height (screen_height - y) in
  if negb (width * 4 <? 2 ^ 64) then err Errno.Invalid else
  draw_rows (Z.to_nat visible_height) 0 handle x y (width * 4) pixels (Z.to_nat visible_width).

(** ** Closing *)
Definition close (handle : Z) : Sys Z :=
  o ← locked (o ← take_handle handle; _ ← hold [o]; mret o);
  match o with
  | NewFile path data =>
    answer ← attempt (fs_call (fs_write_file path (Buffer.data data)));
    _ ← locked drop_locals;
    match answer with Ok _ => mret 0 | Err e => err e end
  | _ => _ ← locked drop_locals; mret 0
  end.

(** ** Children *)
Definition stream_opens (s : Stream) : list Open := match s with Console => [] | PipeStream e => [PipeHandle e] end.

Definition spawn_errno (e : SpawnError) : Errno.Errno :=
  match e with
  | TooManyPrograms => Errno.TooMany
  | ArgsTooLong => Errno.Invalid
  | OutOfMemory => Errno.NoMemory
  end.

(** [spawn_with] takes the streams: if it fails it drops them. *)
Definition start_child (name : list Z) (p : Elf.Program) (args : list Z) (streams : Io) (cwd : list Z) : M Process := λ k,
  match spawn_with name (ElfImage p) args streams (Some me) cwd k with
  | Ret k child => Ret k child
  | Fail k e => Fail (drop_stream (io_output streams) (drop_stream (io_input streams) k)) (spawn_errno e)
  | Panic => Panic
  end.

Definition spawn (path path_len args args_len input output : Z) : Sys Z :=
  path ← user_path path path_len;
  args ← user_string args args_len MAX_ARGS;
  '(streams, cwd) ← locked (r ← running;
                            if negb (Handles.has_room (handles r)) then fail Errno.TooMany else
                            i ← stream_for input Pipe.Read;
                            o ← catch (stream_for output Pipe.Write);
                            match o with
                            | Err e => _ ← modify (drop_stream i); fail e
                            | Ok o => _ ← hold (stream_opens i ++ stream_opens o); mret (mkIo i o, cwd r)
                            end);
  started ← attempt (v ← fs_call (fs_read_file path);
                     file ← adopt v;
                     match Elf.parse (Buffer.data file) with
                     | Err _ => err Errno.NotExecutable
                     | Ok program =>
                       let name := default path (last (split 0x2F path)) in
                       locked (_ ← moved [File file 0]; start_child name program args streams cwd)
                     end);
  answer ← match started with
           | Ok child => attempt (locked (insert_handle (Child child)))
           | Err e => mret (Err e)
           end;
  _ ← locked drop_locals;
  match answer with Ok handle => mret handle | Err e => err e end.

(** [Process::exit]: how a program ended, if it has. *)
Definition exit_of (p : Process) (k : Kernel) : option Exit := mjoin (exits k !! exit_cell p).

(** The loop that looks every [WAIT_POLL] ends once there is an exit, or this program was killed: then it exits
    itself, whatever this returns. *)
Definition wait (handle : Z) : Sys Z :=
  child ← locked (o ← get_handle handle;
                  match o with
                  | Child _ =>
                    o ← take_handle handle;
                    match o with
                    | Child child => r ← running; _ ← set_running (with_waiting (Some (id child)) r); mret child
                    | _ => panic
                    end
                  | _ => fail Errno.BadHandle
                  end);
  _ ← wait_until (λ k, bool_decide (is_Some (exit_of child k)) || was_killed me k);
  exit ← locked (k ← get; mret (exit_of child k));
  _ ← locked (r ← running; set_running (with_waiting None r));
  mret (ExitStatus.encode match exit with
                          | Some (Code code) => ExitStatus.Code code
                          | Some (Crashed _) => ExitStatus.Crashed
                          | Some Killed | None => ExitStatus.Killed
                          end).

(** ** Exits *)

(** Whether its parent still watches: it holds its handle, or waits on it. *)
Definition watched (r : Running) (k : Kernel) : bool :=
  match parent r ≫= λ p, lookup_program p k with
  | Some p => bool_decide (waiting_for p = Some me) || watches me (handles p)
  | None => false
  end.

Definition is_crash (status : Exit) : bool := match status with Crashed _ => true | _ => false end.

(** Its memory, its ASID, what it has open and its streams are given back; [None] is a panic. *)
Definition drop_running (r : Running) (k : Kernel) : option Kernel :=
  c ← Paging.drop_space (memory r) (machine k);
  let k := with_machine c k in
  let k := with_asids (drop_asid (asid r) (asids k)) k in
  let k := drop_opens (opened (handles r)) k in
  let k := drop_stream (io_output (io r)) (drop_stream (io_input (io r)) k) in
  Some (with_programs (delete me (programs k)) k).

(** Out of the table, its exit known, reported if nobody watches, and dropped: each under a lock of its own. *)
Definition exit_program {A} (status : Exit) : Call A :=
  Locked (λ k, match lookup_program me k with
    | None => (k, Stuck)
    | Some r => (set_program me (with_listed false r) k,
  Locked (λ k, (with_exits (<[exit r := Some status]> (exits k)) k,
  Locked (λ k, (if negb (watched r k) || is_crash status then report (me, name r, status) k else k,
  Locked (λ k, match programs k !! me with
    | Some r => match drop_running r k with Some k => (k, Gone) | None => (k, Stuck) end
    | None => (k, Stuck)
    end)))))) end).

(** ** Traps from a program
    Yielding and sleeping let other tasks run, as they may between any two sections. *)
Definition syscall (call : Syscall.Syscall) : Sys Z :=
  match call with
  | Syscall.Exit code => exit_program (Code code)
  | Syscall.Write handle ptr len => if handle =? OUTPUT then write_output ptr len else write handle ptr len
  | Syscall.Yield => mret 0
  | Syscall.Sleep _ => mret 0
  | Syscall.Uptime => l ← given (λ l, match l with [t] => (0 <=? t) && (t <=? MAX_RESULT) | _ => false end); mret (hd 0 l)
  | Syscall.Map len => map len
  | Syscall.Read handle ptr len => if handle =? INPUT then read_input ptr len else read handle ptr len
  | Syscall.Pipe ends => pipe ends
  | Syscall.OpenScreen size => open_screen size
  | Syscall.Create path len => create path len
  | Syscall.Remove path len => remove path len
  | Syscall.MakeDir path len => make_dir path len
  | Syscall.ChangeDir path len => change_dir path len
  | Syscall.CurrentDir buf len => current_dir buf len
  | Syscall.Draw handle x y width height pixels => draw handle x y width height pixels
  | Syscall.Open path len => open path len
  | Syscall.OpenDir path len => open_dir path len
  | Syscall.ReadDir handle entry => read_dir handle entry
  | Syscall.Close handle => close handle
  | Syscall.Spawn path path_len args args_len input output => spawn path path_len args args_len input output
  | Syscall.Wait handle => wait handle
  | Syscall.Random ptr len => random ptr len
  end.

Definition CLASS_SVC : Z := 0x15.
Definition CLASS_FP : Z := 0x07.
Definition class (esr : Z) : Z := Z.shiftr esr 26.
Definition SVC_SYSCALL : Z := 0.

(** What the program gets in x0; [None] is its registers as they were, when it only takes the FP registers. *)
Definition on_user_sync (fault : Fault) (registers : Syscall.Registers) : Call (option Z) :=
  if class (esr fault) =? CLASS_FP then Done None else
  if negb (class (esr fault) =? CLASS_SVC) || negb (Z.land (esr fault) 0xFFFF =? SVC_SYSCALL)
  then exit_program (Crashed fault) else
  call_bind (match Syscall.decode registers with Ok call => syscall call | Err e => err e end) (λ result,
  Locked (λ k, if was_killed me k then (k, exit_program Killed)
               else (k, match encode_result result with Some x0 => Done (Some x0) | None => Stuck end))).
End calls.
End kernel.
Arguments Done {Src FS A}.
Arguments Locked {Src FS A}.
Arguments Until {Src FS A}.
Arguments Given {Src FS A}.
Arguments Gone {Src FS A}.
Arguments Stuck {Src FS A}.
End Programs.
