(* ===== verification/Launch.v ===== *)
(** Starting programs: address space identifiers are handed out once, and a new program's memory is put together
    in frames nobody else has, or memory ran out: it never panics. *)
From S2P Require Import Prelude Bytes Abi Frames Paging Elf Process Effect Spaces Programs.
Import layout.
Open Scope Z_scope.

Module Launch.
Import Effect Programs Spaces.

(** * ASIDs *)
Definition asids_ok (used : list Z) : Prop := length used = 4%nat ∧ Forall (uint 64) used.

Lemma asid_used_bit used n : asid_used used n = Z.testbit (used !!! (n / 64)%nat) (Z.of_nat (n mod 64)).
Proof. unfold asid_used. change (Z.shiftl 1) with bit. by rewrite land_bit_0, negb_involutive by lia. Qed.

(** Changing one bit of one word changes one ASID. *)
Lemma asid_update used n v w m : asids_ok used → (n < COUNT)%nat →
  (∀ i, 0 <= i < 64 → Z.testbit w i = if i =? Z.of_nat (n mod 64) then v else Z.testbit (used !!! (n / 64)%nat) i) →
  asid_used (<[(n / 64)%nat := w]> used) m = if decide (m = n) then v else asid_used used m.
Proof.
  intros [Hl _] Hn Hw. rewrite !asid_used_bit.
  apply (Frames.used_bit_update (Frames.mkFrames 0 COUNT used 0 0) (Frames.mkFrames 0 COUNT (<[(n / 64)%nat := w]> used) 0 0) n v w);
    [done| |done].
  cbn [Frames.used]. rewrite Hl. unfold COUNT in Hn. apply Nat.Div0.div_lt_upper_bound; lia.
Qed.

Lemma asids_word used n : asids_ok used → (n < COUNT)%nat → uint 64 (used !!! (n / 64)%nat).
Proof.
  intros [Hl Hw] Hn. destruct (lookup_lt_is_Some_2 used (n / 64)) as [x Hx].
  { rewrite Hl. unfold COUNT in Hn. apply Nat.Div0.div_lt_upper_bound; lia. }
  rewrite (list_lookup_total_correct _ _ _ Hx). by apply (Forall_lookup_1 _ _ _ _ Hw Hx).
Qed.

Lemma find_seq (f : nat → bool) n m : match List.find f (seq n m) with
  | Some k => (n <= k < n + m)%nat ∧ f k = true
  | None => ∀ k, (n <= k < n + m)%nat → f k = false
  end.
Proof.
  destruct (List.find f (seq n m)) as [k|] eqn:E.
  - apply List.find_some in E as [Hin Hf]. apply List.in_seq in Hin. done.
  - intros k Hk. by apply (List.find_none _ _ E), List.in_seq.
Qed.

(** A new ASID was free and is now in use; without one all are in use. *)
Lemma allocate_asid_spec used : asids_ok used →
  match allocate_asid used with
  | Some (used', a) => asids_ok used' ∧ 0 <= a < Z.of_nat COUNT ∧ asid_used used (Z.to_nat a) = false ∧
      ∀ n, asid_used used' n = if decide (n = Z.to_nat a) then true else asid_used used n
  | None => ∀ n, (n < COUNT)%nat → asid_used used n = true
  end.
Proof.
  intros Hok. unfold allocate_asid. pose proof (find_seq (λ n, negb (asid_used used n)) 0 COUNT) as Hf.
  destruct (List.find _ _) as [k|]; cbn [mbind option_bind].
  - destruct Hf as [Hk Hfree%negb_true_iff]. rewrite Nat2Z.id. pose proof (Nat.mod_upper_bound k 64 ltac:(done)).
    split; [|split; [lia|split; [done|]]].
    + split; [rewrite length_insert; apply Hok|]. apply Forall_insert; [apply Hok|].
      apply uint_lor; [done|apply asids_word; [done|lia]|apply uint_bit; lia].
    + intros n. apply asid_update; [done|lia|]. intros i Hi. change (Z.shiftl 1) with bit.
      rewrite Z.lor_spec, testbit_bit, Z.eqb_sym by lia.
      destruct (i =? _); [apply orb_true_r|apply orb_false_r].
  - intros n Hn. specialize (Hf n). cbv beta in Hf. apply negb_false_iff, Hf. lia.
Qed.

Lemma drop_asid_spec used a : asids_ok used → 0 <= a < Z.of_nat COUNT →
  asids_ok (drop_asid a used) ∧ ∀ n, asid_used (drop_asid a used) n = if decide (n = Z.to_nat a) then false else asid_used used n.
Proof.
  intros Hok Ha. unfold drop_asid. set (k := Z.to_nat a). assert (Hk : (k < COUNT)%nat) by lia.
  pose proof (Nat.mod_upper_bound k 64 ltac:(done)). split.
  - split; [rewrite length_insert; apply Hok|]. apply Forall_insert; [apply Hok|].
    apply uint_land; [done|by apply asids_word|]. apply Z.lxor_nonneg. split; intros _; [|done]. apply (uint_bit 64). lia.
  - intros n. apply asid_update; [done|done|]. intros i Hi.
    change (Z.shiftl 1) with bit. rewrite Z.land_spec, testbit_bnot, testbit_bit, Z.eqb_sym by lia.
    destruct (i =? _); [apply andb_false_r|apply andb_true_r].
Qed.

(** * A new program's memory *)
Section memory.
Context {Src : Type} `{FrameSource Src} (image : list Z).
Implicit Types (a : Paging.AddressSpace) (c : Paging.Machine (Src := Src)) (P : gmap Z (Z * Paging.Access)).

(** The built-in programs fit below the stack. *)
Context (image_fits : 0 < Z.of_nat (length image) <= PROGRAM_END - USER_BASE).

(** An image that can be loaded: one of the built-in programs, or what [parse] returns. *)
Definition image_ok (i : Image) : Prop :=
  match i with Builtin _ => True | ElfImage p => ∃ bytes, Elf.program_ok bytes p end.

(** The built-in programs' image as a segment. *)
Definition image_segment : Elf.Segment := Elf.mkSegment CODE_BASE (Z.of_nat (length image)) image Paging.ReadExecute.

Lemma image_segment_ok : Elf.segment_ok image image_segment.
Proof.
  split; cbn [image_segment Elf.address Elf.size Elf.data]; unfold CODE_BASE; [done|done|lia|lia|lia|].
  exists 0%nat. unfold slice. rewrite decide_True by lia. rewrite Nat.add_0_l, Nat.sub_0_r, drop_0, take_ge by lia. done.
Qed.

(** Segments that are all mapped, as [spawn_with] goes on with them. *)
Definition mapped (l : list Elf.Segment) P : Prop :=
  extends ∅ P (λ va, ∃ s, s ∈ l ∧ va ∈ Paging.pages_of (Elf.address s) (Elf.size s)) ∧
  ∀ s va, s ∈ l → va ∈ Paging.pages_of (Elf.address s) (Elf.size s) → ∃ f, P !! va = Some (f, Elf.access s).

Lemma mapped_code bytes l l' a c P : Paging.Rep a c P → mapped l P → Forall (Elf.segment_ok bytes) l → l' ⊆ l →
  code_mapped ((λ s, (Elf.address s, Elf.size s)) <$> l') a (Paging.mem c) = true.
Proof.
  intros HR [_ Hm] Hok Hl. unfold code_mapped. apply forallb_forall. intros [start len] Hin%list_elem_of_In.
  apply list_elem_of_fmap in Hin as (s & [= -> ->] & Hs%Hl). apply forallb_forall. intros va Hva%list_elem_of_In.
  apply bool_decide_eq_true_2. rewrite (Paging.translate_rep a c P va HR).
  destruct (Elf.segment_pages_ok bytes s va (proj1 (Forall_forall _ _) Hok s Hs) Hva) as (Hal & -> & _).
  unfold Paging.page. rewrite Hal, Z.sub_0_r. destruct (Hm s va Hs Hva) as [f ->]. by eexists.
Qed.

Lemma max_spec e es : let m := foldr Z.max e es in m ∈ e :: es ∧ ∀ x, x ∈ e :: es → x <= m.
Proof.
  induction es as [|x es IH]; cbn [foldr]; cbv zeta.
  - split; [by left|]. intros x ->%list_elem_of_singleton. done.
  - destruct IH as [Hin Hle]. split.
    + destruct (Z.max_spec x (foldr Z.max e es)) as [[_ ->]|[_ ->]]; [|by right; left].
      apply elem_of_cons in Hin as [->|?]; [by left|by right; right].
    + intros y [->|[->|Hy]%elem_of_cons]%elem_of_cons; [etrans; [apply Hle; by left|lia]|lia|].
      etrans; [apply Hle; by right|lia].
Qed.

Lemma next_multiple_mono x y : 0 <= x <= y → y <= USER_END → Frames.next_multiple_of x PAGE_SIZE <= Frames.next_multiple_of y PAGE_SIZE.
Proof.
  intros Hx Hy. unfold USER_END in Hy. destruct (Frames.next_multiple_of_spec x) as [H1 H2]; [lia|unfold PAGE_SIZE; lia|].
  destruct (Frames.next_multiple_of_spec y) as [H3 H4]; [lia|unfold PAGE_SIZE; lia|]. unfold PAGE_SIZE in *.
  Z.to_euclidean_division_equations. lia.
Qed.

(** Where mapped segments are: below the end of the last one. *)
Lemma mapped_below bytes l P s0 l0 : mapped l P → Forall (Elf.segment_ok bytes) l → l = s0 :: l0 →
  let e := foldr Z.max (Elf.end_ s0) (Elf.end_ <$> l0) in
  USER_BASE <= e <= PROGRAM_END ∧ ∀ va, is_Some (P !! va) → USER_BASE <= va < Frames.next_multiple_of e PAGE_SIZE.
Proof.
  intros [[Hnew _] _] Hok ->. destruct (max_spec (Elf.end_ s0) (Elf.end_ <$> l0)) as [Hin Hle]. cbv zeta. set (e := foldr _ _ _) in *.
  change (Elf.end_ s0 :: (Elf.end_ <$> l0)) with (Elf.end_ <$> s0 :: l0) in Hin, Hle.
  rewrite Forall_forall in Hok.
  assert (He : USER_BASE <= e <= PROGRAM_END).
  { apply list_elem_of_fmap in Hin as (s & -> & Hs%Hok). rewrite (Elf.end_small _ _ Hs).
    pose proof (Elf.seg_low _ _ Hs). pose proof (Elf.seg_high _ _ Hs). pose proof (Elf.seg_size _ _ Hs). lia. }
  split; [done|]. intros va Hva. destruct (Hnew va Hva) as [[? Hn]|(s & Hs & Hp)]; [by rewrite lookup_empty in Hn|].
  pose proof (Hok s Hs) as Hsok. destruct (Elf.segment_pages_ok _ s va Hsok Hp) as (_ & _ & Hb).
  pose proof (Elf.seg_low _ _ Hsok). pose proof (Elf.seg_size _ _ Hsok). split; [lia|].
  apply Z.lt_le_trans with (Elf.page_end s); [lia|]. apply next_multiple_mono.
  - rewrite <-(Elf.end_small _ _ Hsok). split.
    + rewrite (Elf.end_small _ _ Hsok). unfold USER_BASE in *. lia.
    + apply Hle, list_elem_of_fmap. eauto.
  - unfold PROGRAM_END, STACK_TOP, STACK_SIZE, PAGE_SIZE, USER_END in *. lia.
Qed.

(** The code is in place below the end, or memory ran out. *)
Definition image_loaded P a c (r : option (result SpawnError (Z * list (Z * Z) * Z))) : Prop :=
  match r with
  | None => False
  | Some (Err e) => e = OutOfMemory
  | Some (Ok (_, ranges, e)) => code_mapped ranges a (Paging.mem c) = true ∧ USER_BASE <= e <= PROGRAM_END ∧
      ∀ va, is_Some (P !! va) → USER_BASE <= va < Frames.next_multiple_of e PAGE_SIZE
  end.

Lemma load_image_spec i a c : image_ok i → Paging.Rep a c ∅ →
  let '(a', c', r) := load_image image i a c in acts a c a' c' ∧ ∃ P, Paging.Rep a' c' P ∧ image_loaded P a' c' r.
Proof.
  assert (Hlow : ∀ s va, is_Some ((∅ : gmap Z (Z * Paging.Access)) !! va) → va < Elf.address s)
    by (intros s va; rewrite lookup_empty; by intros [? ?]).
  intros Hi HR. destruct i as [offset|p]; cbn [load_image].
  - pose proof (load_segment_acts image image_segment a c ∅ HR image_segment_ok (Hlow _)) as Hs.
    cbn [image_segment Elf.address Elf.size Elf.access Elf.data] in Hs.
    destruct (Paging.map_range _ _ _ a c) as [[a1 c1] [u|e]].
    + destruct Hs as (m & P & -> & Ha & HR1 & Hx & Hf). split; [done|]. exists P. split; [done|]. cbn [image_loaded].
      assert (Hm : mapped [image_segment] P).
      { split.
        - apply (extends_weaken ∅ P (λ va, va ∈ Paging.pages_of CODE_BASE (Z.of_nat (length image)))); [|done].
          intros va Hva. exists image_segment. split; [by left|done].
        - intros s va ->%list_elem_of_singleton. apply Hf. }
      pose proof (mapped_below image _ P image_segment [] Hm (proj2 (Forall_singleton _ _) image_segment_ok) eq_refl) as Hb.
      cbn [foldr fmap list_fmap] in Hb. rewrite (Elf.end_small _ _ image_segment_ok) in Hb. split; [|exact Hb].
      exact (mapped_code image [image_segment] [image_segment] _ _ P HR1 Hm (proj2 (Forall_singleton _ _) image_segment_ok) ltac:(done)).
    + destruct Hs as (Ha & [P HR1] & ->). split; [done|]. by exists P.
  - destruct Hi as [bytes [Hok Hap Hentry]]. unfold Elf.load_program.
    pose proof (load_segments_acts bytes (Elf.segments p) a c ∅ HR Hok Hap ltac:(destruct (Elf.segments p); [done|apply Hlow])) as Hs.
    destruct (Elf.load_segments _ a c) as [[a1 c1] [u|e]].
    + destruct Hs as (Ha & P & HR1 & Hm). split; [done|]. exists P. split; [done|].
      pose proof (mapped_below bytes (Elf.segments p) P) as Hb. destruct (Elf.segments p) as [|s0 l0] eqn:El.
      { destruct Hentry as (s & []%not_elem_of_nil & _). }
      cbn [fmap list_fmap image_loaded]. split; [|by apply (Hb s0 l0 Hm Hok)].
      apply (mapped_code bytes (s0 :: l0) _ _ _ P); [done|done|done|]. intros s Hs%list_elem_of_In.
      apply List.filter_In in Hs as [Hs _]. by apply list_elem_of_In.
    + destruct Hs as (Ha & P & HR1 & ->). split; [done|]. by exists P.
Qed.

(** The whole window is mapped below the end of the program, its heap starts there, and its stack. *)
Definition in_place P (heap : Z) : Prop :=
  heap mod PAGE_SIZE = 0 ∧ USER_BASE <= heap <= PROGRAM_END ∧
  ∀ va, is_Some (P !! va) → va < heap ∨ STACK_TOP - STACK_SIZE <= va.

Definition prepared P (r : option (result SpawnError (Z * Z * Z))) : Prop :=
  match r with
  | None => False
  | Some (Err e) => e = OutOfMemory
  | Some (Ok (_, _, e)) => in_place P (Frames.next_multiple_of e PAGE_SIZE)
  end.

(** The end of the code, rounded up to a page. *)
Lemma heap_start e : USER_BASE <= e <= PROGRAM_END →
  Frames.next_multiple_of e PAGE_SIZE mod PAGE_SIZE = 0 ∧ USER_BASE <= Frames.next_multiple_of e PAGE_SIZE <= PROGRAM_END.
Proof.
  unfold USER_BASE, PROGRAM_END, STACK_TOP, STACK_SIZE, USER_END. intros He.
  destruct (Frames.next_multiple_of_spec e) as [H1 H2]; [lia|unfold PAGE_SIZE in *; lia|]. split; [done|].
  unfold PAGE_SIZE in *. Z.to_euclidean_division_equations. lia.
Qed.

(** The arguments lie on the stack. *)
Lemma args_fit (args : list Z) : Z.of_nat (length args) <= MAX_ARGS →
  let at_ := Z.land (STACK_TOP - Z.of_nat (length args)) (bnot 64 15) in
  STACK_TOP - MAX_ARGS - 16 <= at_ ∧ at_ + Z.of_nat (length args) <= STACK_TOP.
Proof.
  intros Hl. change (bnot 64 15) with (Z.shiftl (Z.ones 60) 4). cbv zeta.
  rewrite land_high_mask; [|lia|lia|unfold uint, STACK_TOP, USER_END, MAX_ARGS, PAGE_SIZE in *; lia].
  unfold MAX_ARGS in *. Z.to_euclidean_division_equations. lia.
Qed.

Lemma stack_page va : va ∈ Paging.pages_of (STACK_TOP - STACK_SIZE) STACK_SIZE →
  va mod PAGE_SIZE = 0 ∧ Paging.in_window va = true ∧ STACK_TOP - STACK_SIZE <= va.
Proof.
  rewrite Elf.elem_of_pages_of by done. intros (k & Hk & -> & Hlt). unfold Paging.in_window.
  unfold STACK_TOP, STACK_SIZE, USER_END, USER_BASE, PAGE_SIZE in *. split_and!; [|apply andb_true_iff; split;
    [apply Z.leb_le|apply Z.ltb_lt]; lia|lia]. Z.to_euclidean_division_equations. lia.
Qed.

Lemma stack_at P x : (∀ va, va ∈ Paging.pages_of (STACK_TOP - STACK_SIZE) STACK_SIZE → ∃ f, P !! va = Some (f, Paging.ReadWrite)) →
  STACK_TOP - STACK_SIZE <= x < STACK_TOP → is_Some (Paging.at_ P x).
Proof.
  intros Hs Hx. destruct (Hs (Paging.page x)) as [f Hf].
  { apply Elf.elem_of_pages_of; [done|]. exists ((Paging.page x - (STACK_TOP - STACK_SIZE)) / PAGE_SIZE).
    unfold Paging.page, STACK_TOP, STACK_SIZE, USER_END, PAGE_SIZE in *. Z.to_euclidean_division_equations. lia. }
  exists (f + x mod PAGE_SIZE, Paging.ReadWrite). apply Paging.at_Some. split; [|eauto].
  unfold Paging.in_window, STACK_TOP, STACK_SIZE, USER_END, USER_BASE, PAGE_SIZE in *.
  apply andb_true_iff. split; [apply Z.leb_le|apply Z.ltb_lt]; lia.
Qed.

Lemma prepare_spec i args a c : image_ok i → Z.of_nat (length args) <= MAX_ARGS → Paging.Rep a c ∅ →
  let '(a', c', r) := prepare image i args a c in acts a c a' c' ∧ ∃ P, Paging.Rep a' c' P ∧ prepared P r.
Proof.
  intros Hi Hargs HR. unfold prepare. pose proof (load_image_spec i a c Hi HR) as Hl.
  destruct (load_image image i a c) as [[a1 c1] r]. destruct Hl as (Ha & P & HR1 & Hr).
  destruct r as [[[[entry ranges] e]|e]|]; [|eauto|done]. destruct Hr as (-> & He & Hbelow). cbn [negb].
  destruct (heap_start e He) as [Hal Hheap].
  pose proof (map_range_acts (STACK_TOP - STACK_SIZE) STACK_SIZE Paging.ReadWrite a1 c1 P HR1 ltac:(by vm_compute) ltac:(by vm_compute)) as Hm.
  destruct (Paging.map_range _ _ _ a1 c1) as [[a2 c2] r2]. destruct Hm as (Ha2 & P2 & HR2 & Hnew & Hold & Hr2).
  { apply Forall_forall. intros va Hva%stack_page. destruct Hva as (? & ? & Hva). split_and!; [done..|].
    apply eq_None_not_Some. intros [_ Hlt]%Hbelow. unfold PROGRAM_END, PAGE_SIZE in *. lia. }
  pose proof (acts_trans _ _ _ _ _ _ Ha Ha2) as Ha'.
  destruct r2 as [u|e2]; [|subst e2; split; [done|by exists P2]].
  destruct (args_fit args Hargs) as [Hlo Hhi]. set (at_ := Z.land _ _) in *.
  assert (Hst : STACK_TOP - STACK_SIZE <= at_) by (unfold MAX_ARGS, STACK_SIZE in *; lia).
  destruct (load_works at_ args a2 c2 P2 HR2) as (m & -> & Ha3 & HR3).
  - unfold STACK_TOP, STACK_SIZE, USER_END, PAGE_SIZE in *. lia.
  - unfold STACK_TOP, STACK_SIZE, USER_END, PAGE_SIZE in *. lia.
  - intros x Hx. apply stack_at; [done|lia].
  - split; [by apply (acts_trans _ _ _ _ _ _ Ha')|]. exists P2. split; [done|]. cbn [prepared]. split; [done|]. split; [done|].
    intros va [[_ ?]%Hbelow|(_ & _ & ?)%stack_page]%Hnew; [by left|by right].
Qed.
End memory.
End Launch.
