(* ===== verification/Ownership.v ===== *)
(** Who has what: every pipe end, file byte, screen lease, page frame and ASID that is handed out belongs to one
    program, or to the hand of the section that moves it.

    [Inv hand k] says so of a kernel [k]: the counters of pipes, [HELD], [LENT], the bits of [ASIDS] and the
    frames in use are exactly what the programs in the table own together with [hand]. *)
From S2P Require Import Prelude Bytes Abi Frames Paging Elf Process Effect Spaces Programs Launch.
Import layout.
Open Scope Z_scope.

Module Ownership.
Import Effect Programs Spaces Launch.
#[local] Existing Instances Pipe.End_eq_dec PipeEnd_eq_dec.

(** * Counted things *)

(** Everything counted a program has: its streams, its handles, and what a call of it holds. *)
Definition opens_of (r : Running) : list Open :=
  stream_opens (io_input (io r)) ++ stream_opens (io_output (io r)) ++ opened (handles r) ++ locals r.

Definition weight (w : Open → Z) (os : list Open) : Z := foldr (λ o n, w o + n) 0 os.
Definition total (w : Open → Z) (ps : gmap TaskId Running) : Z := map_fold (λ _ r n, weight w (opens_of r) + n) 0 ps.

Definition ends (e : PipeEnd) (o : Open) : Z := match o with PipeHandle e' => if decide (e' = e) then 1 else 0 | _ => 0 end.
Definition allocated (o : Open) : Z := match o with File d _ | NewFile _ d => Buffer.capacity d | _ => 0 end.
Definition screens (o : Open) : Z := match o with Screen _ _ => 1 | _ => 0 end.

Lemma weight_cons w o os : weight w (o :: os) = w o + weight w os.
Proof. done. Qed.

Lemma weight_app w os os' : weight w (os ++ os') = weight w os + weight w os'.
Proof. induction os as [|o os IH]; [done|]. cbn [app]. rewrite !weight_cons. lia. Qed.

Lemma weight_perm w os os' : os ≡ₚ os' → weight w os = weight w os'.
Proof. induction 1; rewrite ?weight_cons; [done|lia..]. Qed.

Lemma weight_bounds w os b : (∀ o, o ∈ os → 0 <= w o <= b) → 0 <= weight w os <= b * Z.of_nat (length os).
Proof.
  induction os as [|o os IH]; intros Hw; [cbn; lia|]. cbn [length]. rewrite weight_cons.
  pose proof (Hw o ltac:(by left)). specialize (IH ltac:(intros; apply Hw; by right)). lia.
Qed.

Lemma weight_nonneg w os : (∀ o, o ∈ os → 0 <= w o) → 0 <= weight w os.
Proof.
  induction os as [|o os IH]; intros Hw; [done|]. rewrite weight_cons. pose proof (Hw o ltac:(by left)).
  specialize (IH ltac:(intros; apply Hw; by right)). lia.
Qed.

Lemma weight_ge w os o : (∀ o, o ∈ os → 0 <= w o) → o ∈ os → w o <= weight w os.
Proof.
  intros Hw (l1 & l2 & ->)%list_elem_of_split. rewrite weight_app, weight_cons.
  pose proof (weight_nonneg w l1 ltac:(intros; apply Hw, elem_of_app; by left)).
  pose proof (weight_nonneg w l2 ltac:(intros; apply Hw, elem_of_app; right; by right)). lia.
Qed.

Lemma total_insert w t r ps : ps !! t = None → total w (<[t := r]> ps) = weight w (opens_of r) + total w ps.
Proof. intros. unfold total. rewrite map_fold_insert_L; [done| |done]. intros. lia. Qed.

Lemma total_delete w t r ps : ps !! t = Some r → total w ps = weight w (opens_of r) + total w (delete t ps).
Proof. intros. unfold total. rewrite (map_fold_delete_L _ 0 t r ps); [done| |done]. intros. lia. Qed.

Lemma total_update w t r r' ps : ps !! t = Some r →
  total w (<[t := r']> ps) + weight w (opens_of r) = weight w (opens_of r') + total w ps.
Proof.
  intros H. rewrite <-insert_delete_eq, total_insert by apply lookup_delete_eq. rewrite (total_delete w t r ps H). lia.
Qed.

Lemma total_bounds w ps b : (∀ t r, ps !! t = Some r → 0 <= weight w (opens_of r) <= b) →
  0 <= total w ps <= b * Z.of_nat (size ps).
Proof.
  unfold total. apply (map_fold_weak_ind (λ n ps, (∀ t r, ps !! t = Some r → 0 <= weight w (opens_of r) <= b) →
    0 <= n <= b * Z.of_nat (size ps))); [rewrite map_size_empty; lia|].
  intros t r m n Hm IH Hw. rewrite map_size_insert, Hm. pose proof (Hw t r ltac:(apply lookup_insert_eq)).
  destruct IH; [|lia]. intros t' r' Ht'. apply (Hw t'). rewrite lookup_insert_ne; [done|]. intros ->. congruence.
Qed.

Lemma total_nonneg w ps : (∀ t r o, ps !! t = Some r → o ∈ opens_of r → 0 <= w o) → 0 <= total w ps.
Proof.
  unfold total. apply (map_fold_weak_ind (λ n ps, (∀ t r o, ps !! t = Some r → o ∈ opens_of r → 0 <= w o) → 0 <= n)); [done|].
  intros t r m n Hm IH Hw. pose proof (weight_nonneg w (opens_of r) (λ o, Hw t r o (lookup_insert_eq _ _ _))).
  destruct (decide (0 <= n)); [lia|]. exfalso. apply n0, IH. intros t' r' o Ht'. apply (Hw t').
  rewrite lookup_insert_ne; [done|]. intros ->. congruence.
Qed.

(** Two lists that count the same. *)
Definition same (os os' : list Open) : Prop :=
  (∀ e, weight (ends e) os = weight (ends e) os') ∧ weight allocated os = weight allocated os' ∧ weight screens os = weight screens os'.

Lemma same_perm os os' : os ≡ₚ os' → same os os'.
Proof. intros Hp. split_and!; [intros e|..]; by apply weight_perm. Qed.

Lemma ends_bounds e o : 0 <= ends e o <= 1.
Proof. destruct o; cbn; try lia. case_decide; lia. Qed.

Lemma screens_bounds o : 0 <= screens o <= 1.
Proof. destruct o; cbn; lia. Qed.

Section counted.
Context `{allocator : !Buffer.Allocator}.

(** [HELD], [LENT] and the pipes count what programs and the hand have. *)
Record Counted (hand : list Open) (ps : gmap TaskId Running) (pipes : gmap nat Pipe.State) (held : Z) (lent : bool) : Prop := {
  counted_ends e : total (ends e) ps + weight (ends e) hand =
    match pipes !! of_pipe e with Some s => Pipe.count (which e) s | None => 0 end;
  counted_room p s : pipes !! p = Some s → Z.of_nat (length (Pipe.bytes s)) <= PIPE_CAPACITY;
  counted_held : held = total allocated ps + weight allocated hand;
  counted_budget : held <= Buffer.BUDGET + Buffer.most;
  counted_screens : total screens ps + weight screens hand = if lent then 1 else 0;
}.

(** * Each program *)
Definition open_ok (t : TaskId) (o : Open) : Prop :=
  match o with
  | File d position => Z.of_nat (length (Buffer.data d)) <= Buffer.capacity d ∧ (position ≤ length (Buffer.data d))%nat
  | NewFile _ d => Z.of_nat (length (Buffer.data d)) <= Buffer.capacity d
  | Child c => (t < id c)%nat
  | _ => True
  end.

(** Most things a call holds in local variables: a file and a child's streams. *)
Definition MAX_LOCALS : nat := 3.

Record Own (t : TaskId) (r : Running) : Prop := {
  own_opens o : o ∈ opens_of r → open_ok t o;
  own_handles : Handles.wf (handles r);
  own_locals : (length (locals r) ≤ MAX_LOCALS)%nat;
  own_input : Z.of_nat (length (input r)) <= MAX_INPUT;
  own_cwd : Z.of_nat (length (cwd r)) <= MAX_PATH;
  own_waits c : waiting_for r = Some c → (t < c)%nat;
  own_asid : 0 < asid r < Z.of_nat COUNT;
}.

Definition Tasks (ps : gmap TaskId Running) (tasks : nat) : Prop := ∀ t r, ps !! t = Some r → (t < tasks)%nat ∧ Own t r.

(** Each ASID in use is the kernel's or one program's. *)
Record Tags (ps : gmap TaskId Running) (used : list Z) : Prop := {
  tags_ok : asids_ok used;
  tags_used n : (n < COUNT)%nat → asid_used used n = true ↔ n = 0%nat ∨ ∃ t r, ps !! t = Some r ∧ asid r = Z.of_nat n;
  tags_inj t t' r r' : ps !! t = Some r → ps !! t' = Some r' → asid r = asid r' → t = t';
}.

(** Few programs, so counters never wrap. *)
Definition MAX_OPENS : Z := 1 + 1 + MAX_HANDLES + Z.of_nat MAX_LOCALS.

Lemma opened_length h : (length (opened h) ≤ length h)%nat.
Proof.
  induction h as [|[o|] h IH]; [done|change (opened (Some o :: h)) with (o :: opened h)|change (opened (None :: h)) with (opened h)];
    cbn [length]; lia.
Qed.

Lemma opens_length t r : Own t r → Z.of_nat (length (opens_of r)) <= MAX_OPENS.
Proof.
  intros HO. unfold opens_of, MAX_OPENS. rewrite !length_app. pose proof (own_handles t r HO) as Hh. unfold Handles.wf in Hh.
  pose proof (opened_length (handles r)). pose proof (own_locals t r HO).
  assert (Hs : ∀ s, (length (stream_opens s) ≤ 1)%nat) by (intros []; cbn; lia).
  pose proof (Hs (io_input (io r))). pose proof (Hs (io_output (io r))). lia.
Qed.

Lemma few_programs ps used tasks : Tags ps used → Tasks ps tasks → Z.of_nat (size ps) < Z.of_nat COUNT.
Proof.
  intros HT HK. rewrite <-length_map_to_list. set (l := (λ p : TaskId * Running, Z.to_nat (asid p.2)) <$> map_to_list ps).
  assert (Hn : NoDup l).
  { apply NoDup_fmap_2_strong; [|apply NoDup_map_to_list]. intros [t r] [t' r'] H1%elem_of_map_to_list H2%elem_of_map_to_list Ha.
    cbn [snd] in Ha. pose proof (own_asid _ _ (proj2 (HK t r H1))). pose proof (own_asid _ _ (proj2 (HK t' r' H2))).
    assert (t = t') as -> by (apply (tags_inj _ _ HT t t' r r'); [done..|lia]). rewrite H1 in H2. by injection H2 as ->. }
  assert (Hsub : ∀ n, n ∈ l → n ∈ seq 1 (COUNT - 1)).
  { intros n ([t r] & -> & H1%elem_of_map_to_list)%list_elem_of_fmap. cbn [snd].
    pose proof (own_asid _ _ (proj2 (HK t r H1))). apply elem_of_seq. unfold COUNT in *. lia. }
  apply NoDup_submseteq in Hsub; [|done]. apply submseteq_length in Hsub. unfold l in Hsub.
  rewrite length_fmap, length_seq in Hsub. unfold COUNT in *. lia.
Qed.

Lemma few_ends e ps used tasks : Tags ps used → Tasks ps tasks → 0 <= total (ends e) ps <= 2 ^ 16.
Proof.
  intros HT HK. pose proof (few_programs ps used tasks HT HK). destruct (total_bounds (ends e) ps MAX_OPENS) as [H1 H2].
  - intros t r Hr. destruct (HK t r Hr) as [_ HO]. pose proof (opens_length t r HO).
    destruct (weight_bounds (ends e) (opens_of r) 1); [intros; apply ends_bounds|lia].
  - unfold MAX_OPENS, MAX_HANDLES, MAX_LOCALS, COUNT in *. lia.
Qed.

(** * What a handle table has open *)
Lemma opened_update h n x y : h !! n = Some x → option_list x ++ opened (<[n := y]> h) ≡ₚ option_list y ++ opened h.
Proof.
  assert (Hc : ∀ z l, opened (z :: l) = option_list z ++ opened l) by (by intros []).
  revert n. induction h as [|z h IH]; intros [|n] Hn; [done..| |].
  - injection Hn as ->. cbn [insert list_insert]. rewrite !Hc. by rewrite !app_assoc, (Permutation_app_comm (option_list x)).
  - cbn [insert list_insert]. rewrite !Hc, !app_assoc, (Permutation_app_comm _ (option_list z)), <-!app_assoc, IH by done.
    by rewrite !app_assoc, (Permutation_app_comm (option_list z)).
Qed.

Lemma opened_push h : opened (h ++ [None]) = opened h.
Proof. unfold opened. by rewrite omap_app, app_nil_r. Qed.

Lemma handles_insert h o : Handles.wf h →
  match Handles.insert h o with
  | (h', Ok k) => opened h' ≡ₚ o :: opened h ∧ Handles.wf h' ∧ 0 <= k <= MAX_RESULT
  | (h', Err _) => h' = h ∧ Handles.has_room h = false
  end.
Proof.
  intros Hw. pose proof (Handles.position_spec h Hw) as Hp. unfold Handles.insert.
  destruct (Handles.position h) as [n|].
  - destruct Hp as [Hn _]. pose proof (lookup_lt_Some _ _ _ Hn). unfold Handles.wf in *. split_and!.
    + exact (opened_update h n None (Some o) Hn).
    + by rewrite length_insert.
    + unfold Handles.FIRST, OUTPUT. lia.
    + unfold Handles.FIRST, OUTPUT, MAX_RESULT, MAX_HANDLES in *. lia.
  - unfold Handles.wf in *. unfold Handles.has_room. rewrite Hp. destruct (Z.ltb_spec (Z.of_nat (length h)) MAX_HANDLES).
    + rewrite length_app. cbn [length]. replace (length h + 1 - 1)%nat with (length h) by lia. split_and!.
      * rewrite <-(opened_push h). apply (opened_update (h ++ [None]) (length h) None (Some o)). by rewrite list_lookup_middle.
      * rewrite length_insert, length_app. cbn [length]. lia.
      * unfold Handles.FIRST, OUTPUT. lia.
      * unfold Handles.FIRST, OUTPUT, MAX_RESULT, MAX_HANDLES in *. lia.
    + split; [done|]. apply Z.ltb_ge. lia.
Qed.

Lemma handles_slot h k n : Handles.slot h k = Ok n → ∃ o : Open, h !! n = Some (Some o) ∧ Handles.get_mut h k = Ok o.
Proof.
  unfold Handles.get_mut. unfold Handles.slot. destruct (_ <? _); [done|]. destruct (h !! _) as [[o|]|] eqn:E; [|done..].
  intros [= <-]. exists o. by rewrite E.
Qed.

Lemma handles_get h k (o : Open) : Handles.get_mut h k = Ok o → ∃ n, Handles.slot h k = Ok n ∧ h !! n = Some (Some o).
Proof.
  unfold Handles.get_mut. destruct (Handles.slot h k) as [n|e] eqn:E; [|done].
  destruct (handles_slot h k n E) as (o' & Hn & _). rewrite Hn. intros [= ->]. eauto.
Qed.

Lemma handles_take h k : Handles.wf h →
  match Handles.take h k with
  | (h', Ok o) => opened h ≡ₚ o :: opened h' ∧ Handles.wf h' ∧ Handles.get_mut h k = Ok o
  | (h', Err e) => h' = h ∧ Handles.get_mut h k = Err e
  end.
Proof.
  intros Hw. unfold Handles.take. destruct (Handles.slot h k) as [n|e] eqn:E.
  - destruct (handles_slot h k n E) as (o & Hn & Hg). rewrite Hn. split_and!; [|unfold Handles.wf; by rewrite length_insert|done].
    symmetry. exact (opened_update h n (Some o) None Hn).
  - split; [done|]. unfold Handles.get_mut. by rewrite E.
Qed.

Lemma get_opened h k o : Handles.get_mut h k = Ok o → o ∈ opened h.
Proof.
  intros (n & _ & Hn)%handles_get. unfold opened. apply list_elem_of_omap. exists (Some o). split; [|done].
  by apply list_elem_of_lookup_2 in Hn.
Qed.

(** * Counters *)
Lemma count_drop w w' s : Pipe.count w' (Pipe.drop_end w s) = if decide (w' = w) then wrap 64 (Pipe.count w s - 1) else Pipe.count w' s.
Proof. by destruct w, w'. Qed.

Lemma count_duplicate w w' s :
  Pipe.count w' (Pipe.duplicate w s) = if decide (w' = w) then wrap 64 (Pipe.count w s + 1) else Pipe.count w' s.
Proof. by destruct w, w'. Qed.

Lemma end_eq (e e' : PipeEnd) : of_pipe e = of_pipe e' → which e = which e' → e = e'.
Proof. destruct e, e'. cbn. congruence. Qed.

Lemma ends_self e : ends e (PipeHandle e) = 1.
Proof. cbn [ends]. by rewrite decide_True. Qed.

Lemma ends_other e e' : e ≠ e' → ends e' (PipeHandle e) = 0.
Proof. intros. cbn [ends]. by rewrite decide_False. Qed.

(** One pipe changes, as do the ends of it in the hand. *)
Lemma counted_pipe hand hand' ps pipes held lent p s' : Counted hand ps pipes held lent →
  (∀ e, of_pipe e = p → total (ends e) ps + weight (ends e) hand' = Pipe.count (which e) s') →
  (∀ e, of_pipe e ≠ p → weight (ends e) hand' = weight (ends e) hand) →
  Z.of_nat (length (Pipe.bytes s')) <= PIPE_CAPACITY →
  weight allocated hand' = weight allocated hand → weight screens hand' = weight screens hand →
  Counted hand' ps (<[p := s']> pipes) held lent.
Proof.
  intros [H1 H2 H3 H4 H5] Hp Ho Hb Ha Hs. split; [| |lia|done|lia].
  - intros e. destruct (decide (of_pipe e = p)) as [E|E].
    + rewrite E, lookup_insert_eq. by apply Hp.
    + rewrite lookup_insert_ne by done. rewrite Ho by done. apply H1.
  - intros p' s0 [[<- <-]|[_ Hs0]]%lookup_insert_Some; [done|by apply (H2 p')].
Qed.

Lemma counted_same hand hand' ps pipes held lent : Counted hand ps pipes held lent → same hand' hand → Counted hand' ps pipes held lent.
Proof. intros [H1 H2 H3 H4 H5] (Se & Sa & Ss). split; [intros e; rewrite Se; apply H1|done|lia|done|lia]. Qed.

(** An end that is owned is of a pipe, which counts it. *)
Lemma counted_end hand ps pipes held lent e : Counted hand ps pipes held lent → 0 < total (ends e) ps + weight (ends e) hand →
  ∃ s, pipes !! of_pipe e = Some s ∧ Pipe.count (which e) s = total (ends e) ps + weight (ends e) hand.
Proof. intros HC Hpos. rewrite (counted_ends _ _ _ _ _ HC) in *. destruct (pipes !! of_pipe e) as [s|]; [eauto|lia]. Qed.

Lemma weight_ends_pos e os : 0 <= weight (ends e) os <= Z.of_nat (length os).
Proof. destruct (weight_bounds (ends e) os 1); [intros; apply ends_bounds|lia]. Qed.

(** Hands are small. *)
Definition few (hand : list Open) : Prop := (length hand ≤ 64)%nat.

Lemma counted_drop_end e hand ps pipes held lent : 0 <= total (ends e) ps <= 2 ^ 16 → few hand →
  Counted (PipeHandle e :: hand) ps pipes held lent →
  Counted hand ps (<[of_pipe e := Pipe.drop_end (which e) (default Pipe.pair (pipes !! of_pipe e))]> pipes) held lent.
Proof.
  intros Hfew Hhand HC. pose proof (weight_ends_pos e hand) as Hw. unfold few in Hhand.
  destruct (counted_end _ _ _ _ _ e HC) as (s & Hs & Hc); [rewrite weight_cons, ends_self; lia|].
  rewrite weight_cons, ends_self in Hc. rewrite Hs. change (default Pipe.pair (Some s)) with s.
  apply (counted_pipe (PipeHandle e :: hand)); [done| | |by destruct (which e); apply (counted_room _ _ _ _ _ HC _ _ Hs)|done|done].
  - intros e' He'. rewrite count_drop. case_decide as Hd.
    + rewrite (end_eq e' e He' Hd). rewrite Hc, wrap_small by (unfold uint; lia). lia.
    + pose proof (counted_ends _ _ _ _ _ HC e') as H1. rewrite He', Hs, weight_cons, ends_other in H1 by (by intros ->). lia.
  - intros e' He'. rewrite weight_cons, ends_other by (by intros ->). lia.
Qed.

Lemma counted_duplicate e hand ps pipes held lent : 0 <= total (ends e) ps <= 2 ^ 16 → few hand →
  0 < total (ends e) ps + weight (ends e) hand → Counted hand ps pipes held lent →
  Counted (PipeHandle e :: hand) ps (<[of_pipe e := Pipe.duplicate (which e) (default Pipe.pair (pipes !! of_pipe e))]> pipes) held lent.
Proof.
  intros Hfew Hhand Hpos HC. pose proof (weight_ends_pos e hand) as Hw. unfold few in Hhand.
  destruct (counted_end _ _ _ _ _ e HC Hpos) as (s & Hs & Hc). rewrite Hs. change (default Pipe.pair (Some s)) with s.
  apply (counted_pipe hand); [done| | |by destruct (which e); apply (counted_room _ _ _ _ _ HC _ _ Hs)|done|done].
  - intros e' He'. rewrite count_duplicate, weight_cons. case_decide as Hd.
    + rewrite (end_eq e' e He' Hd), ends_self. rewrite Hc, wrap_small by (unfold uint; lia). lia.
    + pose proof (counted_ends _ _ _ _ _ HC e') as H1. rewrite He', Hs in H1. rewrite ends_other by (by intros ->). lia.
  - intros e' He'. rewrite weight_cons, ends_other by (by intros ->). lia.
Qed.

(** Anything in the hand is dropped. *)
Lemma counted_free o hand ps pipes held lent : (∀ t r x, ps !! t = Some r → x ∈ opens_of r → 0 <= allocated x) →
  (∀ x, x ∈ o :: hand → 0 <= allocated x) → (∀ e, ends e o = 0) → screens o = 0 →
  Counted (o :: hand) ps pipes held lent → Counted hand ps pipes (Buffer.give_back (allocated o) held) lent.
Proof.
  intros Hpos Hhand He Hs [H1 H2 H3 H4 H5]. rewrite !weight_cons in *.
  pose proof (total_nonneg allocated ps Hpos). pose proof (weight_nonneg allocated hand ltac:(intros; apply Hhand; by right)).
  pose proof (Hhand o ltac:(by left)).
  pose proof Buffer.most_bound. unfold Buffer.give_back. rewrite wrap_small by (unfold uint, Buffer.BUDGET in *; lia). split; [|done|lia|lia|lia].
  intros e. specialize (H1 e). rewrite weight_cons, He in H1. done.
Qed.

End counted.

(** * The kernel *)
Section kernel.
Context `{allocator : !Buffer.Allocator} {Src : Type} `{FrameSource Src} {FS : Type}.
Local Notation Kernel := (Kernel (Src := Src) (FS := FS)).
Local Notation Machine := (Paging.Machine (Src := Src)).

(** The frames in use before any program. *)
Context (boot : gset Z).

(** Each program has its memory in frames of its own, its heap where nothing is mapped yet. *)
Record Memories (ps : gmap TaskId Running) (c : Machine) : Prop := {
  mem_source : fs_ok (Paging.source c);
  mem_rep t r : ps !! t = Some r → ∃ P, Paging.Rep (memory r) c P ∧ in_place P (heap_end r);
  mem_apart t t' r r' x : ps !! t = Some r → ps !! t' = Some r' → x ∈ Paging.owned (memory r) → x ∈ Paging.owned (memory r') → t = t';
  mem_held x : x ∈ fs_held (Paging.source c) ↔ x ∈ boot ∨ ∃ t r, ps !! t = Some r ∧ x ∈ Paging.owned (memory r);
  mem_boot t r x : ps !! t = Some r → x ∈ Paging.owned (memory r) → x ∉ boot;
}.

Definition Inv (hand : list Open) (k : Kernel) : Prop :=
  Counted hand (programs k) (pipes k) (held k) (lent k) ∧ Memories (programs k) (machine k) ∧
  Tags (programs k) (asids k) ∧ Tasks (programs k) (tasks k).

(** From [k] to [k'] nothing happens to programs other than [me]: they keep what they have and see the same
    memory.  A program that is new has not run yet. *)
Record others (me : TaskId) (k k' : Kernel) : Prop := {
  others_tasks : (tasks k ≤ tasks k')%nat;
  others_programs t : t ≠ me → (t < tasks k)%nat → programs k' !! t = programs k !! t;
  others_see t r x : t ≠ me → programs k !! t = Some r → sees (memory r) (machine k') x = sees (memory r) (machine k) x;
  others_new t r : (tasks k ≤ t)%nat → t ≠ me → programs k' !! t = Some r → listed r = true ∧ locals r = [];
}.

Lemma others_refl me k : Tasks (programs k) (tasks k) → others me k k.
Proof. intros HT. split; [done..|]. intros t r Ht _ Hr. destruct (HT t r Hr). lia. Qed.

Lemma others_trans me k1 k2 k3 : Tasks (programs k1) (tasks k1) → others me k1 k2 → others me k2 k3 → others me k1 k3.
Proof.
  intros HT H1 H2. pose proof (others_tasks _ _ _ H1). pose proof (others_tasks _ _ _ H2). split.
  - lia.
  - intros t Hne Ht. rewrite (others_programs _ _ _ H2) by lia. by apply (others_programs _ _ _ H1).
  - intros t r x Hne Ht. destruct (HT t r Ht). rewrite (others_see _ _ _ H2 t r); [by apply (others_see _ _ _ H1 t)|done|].
    by rewrite (others_programs _ _ _ H1).
  - intros t r Ht Hne Hr. destruct (decide (t < tasks k2)%nat).
    + apply (others_new _ _ _ H1 t); [done|done|]. by rewrite <-(others_programs _ _ _ H2).
    + apply (others_new _ _ _ H2 t); [lia|done|done].
Qed.

(** ** Changing one program's record *)
Lemma counted_update hand hand' ps pipes held lent t r r' : Counted hand ps pipes held lent → ps !! t = Some r →
  same (opens_of r' ++ hand') (opens_of r ++ hand) → Counted hand' (<[t := r']> ps) pipes held lent.
Proof.
  intros [H1 H2 H3 H4 H5] Hr (Se & Sa & Ss). rewrite !weight_app in *. split; [intros e| |..]; try done.
  - specialize (Se e). rewrite !weight_app in Se. rewrite <-H1. pose proof (total_update (ends e) t r r' ps Hr). lia.
  - pose proof (total_update allocated t r r' ps Hr). lia.
  - pose proof (total_update screens t r r' ps Hr). lia.
Qed.

Lemma tags_update ps used t r r' : Tags ps used → ps !! t = Some r → asid r' = asid r → Tags (<[t := r']> ps) used.
Proof.
  intros [H1 H2 H3] Hr Ha.
  assert (Hat : ∀ t' r0, <[t := r']> ps !! t' = Some r0 → ∃ r1, ps !! t' = Some r1 ∧ asid r0 = asid r1).
  { intros t' r0 [[<- <-]|[Hne Hr0]]%lookup_insert_Some; eauto. }
  split; [done| |].
  - intros n Hn. rewrite H2 by done. apply or_iff_compat_l. split.
    + intros (t' & r0 & Hr0 & <-). destruct (decide (t' = t)) as [->|Hne].
      * exists t, r'. rewrite lookup_insert_eq. split; [done|congruence].
      * exists t', r0. by rewrite lookup_insert_ne.
    + intros (t' & r0 & (r1 & Hr1 & ->)%Hat & Hn0). eauto.
  - intros t1 t2 r1 r2 (r1' & Hr1 & ->)%Hat (r2' & Hr2 & ->)%Hat. by apply H3.
Qed.

Lemma tasks_update ps n t r' : Tasks ps n → (t < n)%nat → Own t r' → Tasks (<[t := r']> ps) n.
Proof. intros HT Ht HO t' r0 [[<- <-]|[_ Hr0]]%lookup_insert_Some; [done|by apply HT]. Qed.

(** A program's memory grows, in frames of its own. *)
Lemma memories_update ps c c' t r r' P' : Memories ps c → ps !! t = Some r →
  acts (memory r) c (memory r') c' → Paging.Rep (memory r') c' P' → in_place P' (heap_end r') → Memories (<[t := r']> ps) c'.
Proof.
  intros [H1 H2 H3 H4 H5] Hr (Hok & (Hh & Hg1 & Hg2) & Hs) HR' Hp.
  assert (Hother : ∀ t' r0, <[t := r']> ps !! t' = Some r0 → t' ≠ t → ps !! t' = Some r0).
  { intros t' r0 [[<- _]|[_ ?]]%lookup_insert_Some; done. }
  assert (Hfresh : ∀ t' r0 x, t' ≠ t → ps !! t' = Some r0 → x ∈ Paging.owned (memory r0) → x ∉ Paging.owned (memory r')).
  { intros t' r0 x Hne Hr0 Hx [Hx'|Hx']%Hg2; [by apply Hne, (H3 t' t r0 r x)|]. apply Hx', H4. eauto 6. }
  split.
  - done.
  - intros t' r0 [[<- <-]|[Hne Hr0]]%lookup_insert_Some; [eauto|]. destruct (H2 t' r0 Hr0) as (P & HR & Hin).
    exists P. split; [|done]. refine (proj1 (other_kept _ P (memory r) c c' HR _ Hok _ Hs)).
    + intros y Hy Hy'. by apply Hne, (H3 t t' r r0 y).
    + intros y Hy. apply Hh. left. apply H4. eauto 6.
  - intros t1 t2 r1 r2 x E1 E2 X1 X2. destruct (decide (t1 = t)) as [->|N1], (decide (t2 = t)) as [->|N2]; [done|..].
    + rewrite lookup_insert_eq in E1. injection E1 as <-. exfalso. by apply (Hfresh t2 r2 x N2 (Hother _ _ E2 N2) X2).
    + rewrite lookup_insert_eq in E2. injection E2 as <-. exfalso. by apply (Hfresh t1 r1 x N1 (Hother _ _ E1 N1) X1).
    + by apply (H3 t1 t2 r1 r2 x (Hother _ _ E1 N1) (Hother _ _ E2 N2)).
  - intros x. rewrite Hh, H4. split.
    + intros [[?|(t' & r0 & Hr0 & Hx)]|Hx]; [by left| |right; exists t, r'; by rewrite lookup_insert_eq].
      right. destruct (decide (t' = t)) as [->|Hne]; [|exists t', r0; by rewrite lookup_insert_ne].
      rewrite Hr in Hr0. injection Hr0 as <-. exists t, r'. rewrite lookup_insert_eq. auto.
    + intros [?|(t' & r0 & [[<- <-]|[Hne Hr0]]%lookup_insert_Some & Hx)]; [auto|by right|]. left. right. eauto.
  - intros t' r0 x [[<- <-]|[Hne Hr0]]%lookup_insert_Some Hx; [|by apply (H5 t' r0)].
    destruct (Hg2 x Hx) as [?|Hn]; [by apply (H5 t r)|]. intros Hb. apply Hn, H4. by left.
Qed.

(** What others see meanwhile. *)
Lemma others_memory ps c c' t r a' t' r0 x : Memories ps c → ps !! t = Some r → acts (memory r) c a' c' →
  ps !! t' = Some r0 → t' ≠ t → sees (memory r0) c' x = sees (memory r0) c x.
Proof.
  intros [H1 H2 H3 H4 H5] Hr (Hok & (Hh & _) & Hs) Hr0 Hne. destruct (H2 t' r0 Hr0) as (P & HR & _).
  refine (proj2 (other_kept _ P (memory r) c c' HR _ Hok _ Hs) x).
  - intros y Hy Hy'. by apply Hne, (H3 t' t r0 r y).
  - intros y Hy. apply Hh. left. apply H4. eauto 6.
Qed.

Lemma open_ok_allocated t o : open_ok t o → 0 <= allocated o.
Proof. destruct o; cbn; lia. Qed.

Lemma inv_ends hand (k : Kernel) e : Inv hand k → 0 <= total (ends e) (programs k) <= 2 ^ 16.
Proof. intros (_ & _ & HT & HK). by apply (few_ends e _ (asids k) (tasks k)). Qed.

Lemma inv_allocated hand (k : Kernel) t r o : Inv hand k → programs k !! t = Some r → o ∈ opens_of r → 0 <= allocated o.
Proof. intros (_ & _ & _ & HK) Hr Ho. apply (open_ok_allocated t). by apply (own_opens t r); [apply HK|]. Qed.

(** What is dropped is no longer counted. *)
Lemma counted_drop o hand (k : Kernel) : Inv (o :: hand) k → few hand → (∀ x, x ∈ o :: hand → 0 <= allocated x) →
  Counted hand (programs k) (pipes (drop_open o k)) (held (drop_open o k)) (lent (drop_open o k)).
Proof.
  intros HI Hf Hh. pose proof HI as (HC & _).
  assert (Hfree : (∀ e, ends e o = 0) → screens o = 0 → Counted hand (programs k) (pipes k) (Buffer.give_back (allocated o) (held k)) (lent k)).
  { intros He Hs. apply (counted_free o); [intros t r' x; by apply (inv_allocated (o :: hand) k)|done..]. }
  destruct o as [d pos|es pos|c|e|w h|path d]; cbn [drop_open]; try by apply Hfree.
  - destruct HC as [H1 H2 H3 H4 H5]. by split.
  - destruct HC as [H1 H2 H3 H4 H5]. by split.
  - apply counted_drop_end; [by apply (inv_ends (PipeHandle e :: hand))|done|done].
  - destruct HC as [H1 H2 H3 H4 H5]. rewrite weight_cons in H5. split; [done..|]. cbn [screens] in H5.
    pose proof (total_nonneg screens (programs k) ltac:(intros; apply screens_bounds)).
    pose proof (weight_nonneg screens hand ltac:(intros; apply screens_bounds)). cbn [lent with_lent]. destruct (lent k); lia.
Qed.

Lemma inv_drops os hand (k : Kernel) : Inv (os ++ hand) k → few (os ++ hand) → (∀ x, x ∈ os ++ hand → 0 <= allocated x) →
  Inv hand (drop_opens os k).
Proof.
  revert k. induction os as [|o os IH]; intros k HI Hf Hh; [done|]. unfold few in Hf. cbn [app length] in Hf.
  apply (IH (drop_open o k)); [|unfold few; lia|intros; apply Hh; by right].
  pose proof HI as (_ & H2 & H3 & H4). split; [|by destruct o].
  replace (programs (drop_open o k)) with (programs k) by (by destruct o). apply counted_drop; [done|unfold few; lia|done].
Qed.

Lemma drop_opens_keeps os (k : Kernel) : let k' := drop_opens os k in
  programs k' = programs k ∧ machine k' = machine k ∧ asids k' = asids k ∧ tasks k' = tasks k.
Proof.
  revert k. induction os as [|o os IH]; intros k; [done|]. cbv zeta. change (drop_opens (o :: os) k) with (drop_opens os (drop_open o k)).
  destruct (IH (drop_open o k)) as (-> & -> & -> & ->). by destruct o.
Qed.

Lemma drop_stream_opens s (k : Kernel) : drop_stream s k = drop_opens (stream_opens s) k.
Proof. by destruct s. Qed.

Lemma drop_opens_programs os ps (k : Kernel) : with_programs ps (drop_opens os k) = drop_opens os (with_programs ps k).
Proof.
  revert k. induction os as [|o os IH]; intros k; [done|]. change (drop_opens (o :: os) k) with (drop_opens os (drop_open o k)).
  rewrite IH. change (drop_opens (o :: os) (with_programs ps k)) with (drop_opens os (drop_open o (with_programs ps k))).
  f_equal. by destruct o.
Qed.

Lemma drop_opens_app os os' (k : Kernel) : drop_opens (os ++ os') k = drop_opens os' (drop_opens os k).
Proof. apply foldl_app. Qed.

(** * In a section of program [me]
    From [k0], where the section began, [k] is reached; [hand] has what is being moved, and [me]'s record is [r]. *)
Section at_.
Context (me : TaskId).

Record At (hand : list Open) (r : Running) (k0 k : Kernel) : Prop := {
  at_inv : Inv hand k;
  at_begin : Tasks (programs k0) (tasks k0);
  at_others : others me k0 k;
  at_me : programs k !! me = Some r;
  at_listed : listed r = true;
  at_hand o : o ∈ hand → open_ok me o;
  at_few : few hand;
}.

Lemma at_start r k : Inv [] k → programs k !! me = Some r → listed r = true → At [] r k k.
Proof.
  intros HI Hr Hl. destruct HI as (H1 & H2 & H3 & H4).
  split; [done|done|by apply others_refl|done|done|by intros o []%not_elem_of_nil|unfold few; cbn; lia].
Qed.

(** A step that keeps every record but [me]'s, and what others see. *)
Lemma others_step (k k' : Kernel) : Tasks (programs k) (tasks k) → tasks k' = tasks k → (∀ t, t ≠ me → programs k' !! t = programs k !! t) →
  (∀ t r x, t ≠ me → programs k !! t = Some r → sees (memory r) (machine k') x = sees (memory r) (machine k) x) → others me k k'.
Proof.
  intros HT Ht Hp Hs. split; [by rewrite Ht|auto|done|]. intros t r Hge Hne Hr. rewrite Hp in Hr by done.
  destruct (HT t r Hr). lia.
Qed.

Lemma at_step hand hand' r r' k0 (k k' : Kernel) : At hand r k0 k → Inv hand' k' → others me k k' → programs k' !! me = Some r' →
  listed r' = true → (∀ o, o ∈ hand' → open_ok me o) → few hand' → At hand' r' k0 k'.
Proof. intros HA HI Ho Hr Hl Hh Hf. split; [done|apply HA|apply (others_trans me k0 k k'); [apply HA..|done]|done..]. Qed.

(** Only the counters change. *)
Lemma at_counted hand hand' r k0 (k k' : Kernel) : At hand r k0 k →
  programs k' = programs k → machine k' = machine k → asids k' = asids k → tasks k' = tasks k →
  Counted hand' (programs k) (pipes k') (held k') (lent k') → (∀ o, o ∈ hand' → open_ok me o) → few hand' → At hand' r k0 k'.
Proof.
  intros HA Hp Hm Ha Ht HC Hh Hf. destruct (at_inv _ _ _ _ HA) as (H1 & H2 & H3 & H4).
  apply (at_step hand hand' r r k0 k k' HA); [| |by rewrite Hp; apply HA|apply HA|done|done].
  - unfold Inv. by rewrite Hp, Hm, Ha, Ht.
  - apply others_step; [done|done|by rewrite Hp|by rewrite Hm].
Qed.

Lemma at_same hand r k0 (k k' : Kernel) : At hand r k0 k →
  programs k' = programs k → machine k' = machine k → asids k' = asids k → tasks k' = tasks k →
  pipes k' = pipes k → held k' = held k → lent k' = lent k → At hand r k0 k'.
Proof.
  intros HA Hp Hm Ha Ht H1 H2 H3. apply (at_counted hand hand r k0 k k' HA); try done; [|apply HA|apply HA].
  rewrite H1, H2, H3. apply HA.
Qed.

Lemma few_tail o hand : few (o :: hand) → few hand.
Proof. unfold few. cbn [length]. lia. Qed.

(** ** Dropping and duplicating *)
Lemma at_drop o hand r k0 k : At (o :: hand) r k0 k → At hand r k0 (drop_open o k).
Proof.
  intros HA. pose proof (few_tail _ _ (at_few _ _ _ _ HA)) as Hf.
  assert (Hh : ∀ o', o' ∈ hand → open_ok me o') by (intros; apply (at_hand _ _ _ _ HA); by right).
  apply (at_counted _ hand r k0 k _ HA); try (by destruct o as [| | |e| |]).
  apply counted_drop; [apply HA|done|]. intros x Hx. by apply (open_ok_allocated me), (at_hand _ _ _ _ HA).
Qed.

Lemma at_drops os hand r k0 k : At (os ++ hand) r k0 k → At hand r k0 (drop_opens os k).
Proof. revert k. induction os as [|o os IH]; intros k HA; [done|]. apply IH. by apply (at_drop o). Qed.

Lemma at_drop_stream s hand r k0 k : At (stream_opens s ++ hand) r k0 k → At hand r k0 (drop_stream s k).
Proof. destruct s as [|e]; [done|]. apply (at_drop (PipeHandle e)). Qed.

Lemma at_duplicate e hand r k0 k : At hand r k0 k → PipeHandle e ∈ opens_of r → (length hand < 64)%nat →
  At (PipeHandle e :: hand) r k0 (duplicate_end e k).
Proof.
  intros HA He Hl. pose proof (at_inv _ _ _ _ HA) as HI. pose proof (inv_ends _ _ e HI) as Hb.
  apply (at_counted _ (PipeHandle e :: hand) r k0 k _ HA); try done; [|intros o [->|Ho]%elem_of_cons; [done|by apply HA]].
  apply counted_duplicate; [done|apply HA| |apply HI]. pose proof (weight_ends_pos e hand).
  rewrite (total_delete _ _ _ _ (at_me _ _ _ _ HA)).
  pose proof (total_nonneg (ends e) (delete me (programs k)) ltac:(intros; apply ends_bounds)).
  pose proof (weight_ge (ends e) (opens_of r) (PipeHandle e) ltac:(intros; apply ends_bounds) He) as Hge.
  rewrite ends_self in Hge. lia.
Qed.

Lemma at_duplicate_stream s hand r k0 k : At hand r k0 k → stream_opens s ⊆ opens_of r → (length hand < 64)%nat →
  At (stream_opens s ++ hand) r k0 (duplicate s k).
Proof. intros HA Hs Hl. destruct s as [|e]; [done|]. apply at_duplicate; [done| |done]. apply Hs. by left. Qed.

(** ** [me]'s record *)
Lemma at_set hand hand' r r' k0 k : At hand r k0 k → Own me r' → same (opens_of r' ++ hand') (opens_of r ++ hand) →
  memory r' = memory r → heap_end r' = heap_end r → asid r' = asid r → listed r' = true →
  (∀ o, o ∈ hand' → open_ok me o) → few hand' → At hand' r' k0 (set_program me r' k).
Proof.
  intros HA HO Hs Hm Hh Ha Hl Ho Hf. pose proof (at_me _ _ _ _ HA) as Hr. pose proof (at_inv _ _ _ _ HA) as (H1 & H2 & H3 & H4).
  destruct (mem_rep _ _ H2 me r Hr) as (P & HR & Hin).
  apply (at_step hand hand' r r' k0 k _ HA); try done.
  - split; [by apply (counted_update hand hand' _ _ _ _ me r r')|]. split; [|split].
    + apply (memories_update _ (machine k) _ me r r' P); [done|done| |by rewrite Hm|by rewrite Hh]. rewrite Hm. by apply (acts_refl _ _ P).
    + by apply (tags_update _ _ me r r').
    + apply tasks_update; [done|exact (proj1 (H4 me r Hr))|done].
  - apply others_step; [done|done| |done]. intros t Hne. by apply lookup_insert_ne.
  - apply lookup_insert_eq.
Qed.

(** [me]'s memory. *)
Lemma at_memory hand r r' k0 k c P : At hand r k0 k → acts (memory r) (machine k) (memory r') c → Paging.Rep (memory r') c P →
  in_place P (heap_end r') → Own me r' → opens_of r' = opens_of r → asid r' = asid r → listed r' = true →
  At hand r' k0 (set_program me r' (with_machine c k)).
Proof.
  intros HA Hac HR Hin HO Hs Ha Hl. pose proof (at_me _ _ _ _ HA) as Hr. pose proof (at_inv _ _ _ _ HA) as (H1 & H2 & H3 & H4).
  apply (at_step hand hand r r' k0 k _ HA); [|..|apply lookup_insert_eq|done|apply HA|apply HA].
  - split; [apply (counted_update hand hand _ _ _ _ me r r'); [done|done|by rewrite Hs]|]. split; [|split].
    + by apply (memories_update _ (machine k) _ me r r' P).
    + by apply (tags_update _ _ me r r').
    + apply tasks_update; [done|exact (proj1 (H4 me r Hr))|done].
  - apply others_step; [done|done|intros t Hne; by apply lookup_insert_ne|].
    intros t r0 x Hne Hr0. by apply (others_memory (programs k) _ _ me r (memory r') t).
Qed.

Lemma set_same (k : Kernel) r : programs k !! me = Some r → set_program me r k = k.
Proof. intros Hr. unfold set_program, with_programs. rewrite insert_id by done. by destruct k. Qed.

Lemma own_me hand r k0 k : At hand r k0 k → Own me r.
Proof. intros HA. apply (proj2 (proj2 (proj2 (at_inv _ _ _ _ HA))) me r). apply HA. Qed.

Lemma at_write hand r k0 k va bytes : At hand r k0 k → 0 <= va →
  At hand r k0 (with_machine (Paging.with_mem (Paging.write_user va bytes (memory r) (Paging.mem (machine k))).1 (machine k)) k).
Proof.
  intros HA Hva. pose proof (at_me _ _ _ _ HA) as Hr. pose proof (at_inv _ _ _ _ HA) as (_ & H2 & _).
  destruct (mem_rep _ _ H2 me r Hr) as (P & HR & Hin). destruct (Paging.write_user _ _ _ _) as [m a] eqn:E.
  destruct (write_user_acts va bytes (memory r) (machine k) P m a HR Hva E) as [Hac HR'].
  rewrite <-(set_same (with_machine _ k) r) by done.
  apply (at_memory hand r r k0 k _ P); try done; [by apply (own_me hand r k0 k)|apply HA].
Qed.
End at_.
End kernel.
End Ownership.
