(* ===== verification/Lifetimes.v ===== *)
(** Programs start and end: [spawn_with] gives a new program resources of its own or leaves everything as it was,
    and the end of a program gives back all it had. *)
From S2P Require Import Prelude Bytes Abi Frames Paging Elf Process Effect Spaces Programs Launch Ownership.
Import layout.
Open Scope Z_scope.

Module Lifetimes.
Import Effect Programs Spaces Launch Ownership.

Section lifetimes.
Context `{allocator : !Buffer.Allocator} {Src : Type} `{FrameSource Src} {FS : Type}.
Local Notation Kernel := (Kernel (Src := Src) (FS := FS)).
Local Notation Machine := (Paging.Machine (Src := Src)).
Context (boot : gset Z).
Implicit Types (ps : gmap TaskId Running) (c : Machine) (k : Kernel).

(** * Memory *)
Lemma memories_kept ps c c' t r : Memories boot ps c → ps !! t = Some r → fs_ok (Paging.source c') →
  (∀ x, x ∈ fs_held (Paging.source c) → x ∈ fs_held (Paging.source c')) → keeps c c' →
  (∃ P, Paging.Rep (memory r) c' P ∧ in_place P (heap_end r)) ∧ ∀ x, sees (memory r) c' x = sees (memory r) c x.
Proof.
  intros HM Hr Hok Hh Hk. destruct (mem_rep _ _ _ HM t r Hr) as (P & HR & Hin).
  destruct (frames_kept (memory r) P c c' HR) as [HR' Hs]; [|done| |].
  - intros y x Hy. destruct (Paging.rep_held _ _ _ HR y Hy). by apply (Hk y).
  - intros y Hy. by apply Hh, (Paging.rep_held _ _ _ HR).
  - eauto.
Qed.

(** The same frames are in use. *)
Lemma memories_same ps c c' : Memories boot ps c → fs_ok (Paging.source c') →
  (∀ x, x ∈ fs_held (Paging.source c') ↔ x ∈ fs_held (Paging.source c)) → keeps c c' → Memories boot ps c'.
Proof.
  intros HM Hok Hh Hk. pose proof HM as [H1 H2 H3 H4 H5]. split; [done| |done| |done].
  - intros t r Hr. apply (memories_kept ps c c' t r HM Hr Hok); [|done]. intros x. by rewrite Hh.
  - intros x. by rewrite Hh.
Qed.

(** A new program, in frames that were not in use. *)
Lemma memories_birth ps c c' t r P : Memories boot ps c → ps !! t = None → Paging.Rep (memory r) c' P → in_place P (heap_end r) →
  (∀ x, x ∈ fs_held (Paging.source c') ↔ x ∈ fs_held (Paging.source c) ∨ x ∈ Paging.owned (memory r)) →
  (∀ x, x ∈ Paging.owned (memory r) → x ∉ fs_held (Paging.source c)) → keeps c c' → Memories boot (<[t := r]> ps) c'.
Proof.
  intros HM Ht HR Hin Hh Hf Hk. pose proof HM as [H1 H2 H3 H4 H5]. pose proof (Paging.rep_source _ _ _ HR) as Hok.
  assert (Hown : ∀ t' r' x, ps !! t' = Some r' → x ∈ Paging.owned (memory r') → x ∉ Paging.owned (memory r)).
  { intros t' r' x Hr' Hx Hx'. apply (Hf x Hx'), H4. eauto. }
  split.
  - done.
  - intros t' r' [[<- <-]|[_ Hr']]%lookup_insert_Some; [eauto|].
    apply (memories_kept ps c c' t' r' HM Hr' Hok); [|done]. intros x Hx. apply Hh. by left.
  - intros t1 t2 r1 r2 x [[<- <-]|[N1 E1]]%lookup_insert_Some [[<- <-]|[N2 E2]]%lookup_insert_Some X1 X2;
      [done|by destruct (Hown t2 r2 x)|by destruct (Hown t1 r1 x)|by apply (H3 t1 t2 r1 r2 x)].
  - intros x. rewrite Hh, H4. split.
    + intros [[?|(t' & r' & Hr' & Hx)]|Hx]; [by left| |right; exists t, r; by rewrite lookup_insert_eq].
      right. exists t', r'. rewrite lookup_insert_ne; [done|]. intros ->. congruence.
    + intros [?|(t' & r' & [[<- <-]|[_ Hr']]%lookup_insert_Some & Hx)]; [auto|by right|eauto 6].
  - intros t' r' x [[<- <-]|[_ Hr']]%lookup_insert_Some Hx; [|by apply (H5 t' r')]. intros Hb. apply (Hf x Hx), H4. by left.
Qed.

(** A program's frames are given back. *)
Lemma memories_death ps c t r : Memories boot ps c → ps !! t = Some r →
  ∃ c', Paging.drop_space (memory r) c = Some c' ∧ Memories boot (delete t ps) c' ∧
    ∀ t' r' x, ps !! t' = Some r' → t' ≠ t → sees (memory r') c' x = sees (memory r') c x.
Proof.
  intros HM Hr. pose proof HM as [H1 H2 H3 H4 H5]. destruct (H2 t r Hr) as (P & HR & _).
  destruct (drop_space_spec (memory r) c P HR) as (c' & Hd & Hm & Hok & Hh). exists c'. split; [done|].
  assert (Hkept : ∀ t' r', ps !! t' = Some r' → t' ≠ t →
    (∃ P, Paging.Rep (memory r') c' P ∧ in_place P (heap_end r')) ∧ ∀ x, sees (memory r') c' x = sees (memory r') c x).
  { intros t' r' Hr' Hne. destruct (H2 t' r' Hr') as (P' & HR' & Hin).
    destruct (frames_kept (memory r') P' c c' HR') as [HR'' Hs]; [by rewrite Hm|done| |eauto].
    intros y Hy. apply Hh. split; [by apply (Paging.rep_held _ _ _ HR')|]. intros Hy'. by apply Hne, (H3 t' t r' r y). }
  split; [|intros t' r' x Hr' Hne; by apply (Hkept t')]. split.
  - done.
  - intros t' r' [Hne Hr']%lookup_delete_Some. by apply (Hkept t').
  - intros t1 t2 r1 r2 x [_ E1]%lookup_delete_Some [_ E2]%lookup_delete_Some. by apply (H3 t1 t2 r1 r2 x).
  - intros x. rewrite Hh, H4. split.
    + intros [[?|(t' & r' & Hr' & Hx)] Hn]; [by left|]. right. exists t', r'. split; [|done].
      apply lookup_delete_Some. split; [|done]. intros <-. rewrite Hr in Hr'. by injection Hr' as <-.
    + intros [Hb|(t' & r' & [Hne Hr']%lookup_delete_Some & Hx)].
      * split; [by left|]. intros Hx. by apply (H5 t r x).
      * split; [eauto 6|]. intros Hx'. by apply Hne, (H3 t t' r r' x).
  - intros t' r' x [_ Hr']%lookup_delete_Some. by apply (H5 t').
Qed.

(** * ASIDs, counters and the table *)
Lemma tags_ext ps used used' : Tags ps used → asids_ok used' → (∀ n, asid_used used' n = asid_used used n) → Tags ps used'.
Proof. intros [H1 H2 H3] Hok Hu. split; [done| |done]. intros n Hn. rewrite Hu. by apply H2. Qed.

Lemma tags_birth ps used used' t r : Tags ps used → ps !! t = None → asids_ok used' → 0 <= asid r < Z.of_nat COUNT →
  asid_used used (Z.to_nat (asid r)) = false →
  (∀ n, asid_used used' n = if decide (n = Z.to_nat (asid r)) then true else asid_used used n) → Tags (<[t := r]> ps) used'.
Proof.
  intros [H1 H2 H3] Ht Hok Ha Hfree Hu.
  assert (Hnew : ∀ t' r', ps !! t' = Some r' → asid r' ≠ asid r).
  { intros t' r' Hr' E. rewrite (proj2 (H2 (Z.to_nat (asid r)) ltac:(lia))) in Hfree; [done|]. right. exists t', r'. split; [done|lia]. }
  split; [done| |].
  - intros n Hn. rewrite Hu. case_decide as E.
    + split; [|done]. intros _. right. exists t, r. rewrite lookup_insert_eq. split; [done|lia].
    + rewrite H2 by done. apply or_iff_compat_l. split.
      * intros (t' & r' & Hr' & Ea). exists t', r'. rewrite lookup_insert_ne; [done|]. intros ->. congruence.
      * intros (t' & r' & [[<- <-]|[_ Hr']]%lookup_insert_Some & Ea); [lia|eauto].
  - intros t1 t2 r1 r2 [[<- <-]|[N1 E1]]%lookup_insert_Some [[<- <-]|[N2 E2]]%lookup_insert_Some E; [done| | |by apply (H3 t1 t2 r1 r2)].
    + by destruct (Hnew t2 r2 E2).
    + by destruct (Hnew t1 r1 E1).
Qed.

Lemma tags_death ps used t r : Tags ps used → ps !! t = Some r → 0 < asid r < Z.of_nat COUNT →
  Tags (delete t ps) (drop_asid (asid r) used).
Proof.
  intros [H1 H2 H3] Hr Ha. destruct (drop_asid_spec used (asid r) H1 ltac:(lia)) as [Hok Hu]. split; [done| |].
  - intros n Hn. rewrite Hu. case_decide as E.
    + split; [done|]. intros [->|(t' & r' & [Hne Hr']%lookup_delete_Some & Ea)]; [lia|]. exfalso. apply Hne, (H3 t t' r r'); [done..|lia].
    + rewrite H2 by done. apply or_iff_compat_l. split.
      * intros (t' & r' & Hr' & Ea). exists t', r'. rewrite lookup_delete_ne; [done|]. intros <-. rewrite Hr in Hr'. injection Hr' as <-. lia.
      * intros (t' & r' & [_ Hr']%lookup_delete_Some & Ea). eauto.
  - intros t1 t2 r1 r2 [_ E1]%lookup_delete_Some [_ E2]%lookup_delete_Some. by apply (H3 t1 t2 r1 r2).
Qed.

Lemma counted_birth hand ps pipes held lent t r : Counted (opens_of r ++ hand) ps pipes held lent → ps !! t = None →
  Counted hand (<[t := r]> ps) pipes held lent.
Proof.
  intros [H1 H2 H3 H4 H5] Ht. rewrite !weight_app in *. split; [intros e; specialize (H1 e); rewrite weight_app in H1|..];
    rewrite ?total_insert by done; try done; lia.
Qed.

Lemma counted_death hand ps pipes held lent t r : Counted hand ps pipes held lent → ps !! t = Some r →
  Counted (opens_of r ++ hand) (delete t ps) pipes held lent.
Proof.
  intros [H1 H2 H3 H4 H5] Ht. split; [intros e; specialize (H1 e)|..]; rewrite ?weight_app; try done.
  - rewrite (total_delete _ t r ps Ht) in H1. lia.
  - rewrite (total_delete _ t r ps Ht) in H3. lia.
  - rewrite (total_delete _ t r ps Ht) in H5. lia.
Qed.

Lemma tasks_birth ps n r : Tasks ps n → Own n r → Tasks (<[n := r]> ps) (S n).
Proof. intros HT HO t' r' [[<- <-]|[_ Hr']]%lookup_insert_Some; [split; [lia|done]|]. destruct (HT t' r' Hr'). split; [lia|done]. Qed.

Lemma tasks_death ps n t : Tasks ps n → Tasks (delete t ps) n.
Proof. intros HT t' r' [_ Hr']%lookup_delete_Some. by apply HT. Qed.

Lemma tasks_fresh ps n : Tasks ps n → ps !! n = None.
Proof. intros HT. destruct (ps !! n) as [r|] eqn:E; [|done]. destruct (HT n r E). lia. Qed.

Lemma new_works kernel c : fs_ok (Paging.source c) → is_Some (Paging.new kernel c).
Proof.
  intros Hok. unfold Paging.new. destruct (Paging.zeroed_frame c) as [[c1 root]|] eqn:E1; [|by eexists].
  destruct (Paging.zeroed_frame_spec c c1 root Hok E1) as (Hok1 & _ & Hh & _).
  destruct (Paging.zeroed_frame c1) as [[c2 l2]|]; [by eexists|].
  destruct (fs_free_ok (Paging.source c1) root Hok1) as (s & -> & _); [rewrite Hh; by apply elem_of_union_r, elem_of_singleton|].
  by eexists.
Qed.

(** * Ending *)
Lemma drop_running_spec me r k : Inv boot [] k → programs k !! me = Some r → locals r = [] →
  ∃ k', drop_running me r k = Some k' ∧ Inv boot [] k' ∧ programs k' = delete me (programs k) ∧ others me k k'.
Proof.
  intros (HC & HM & HT & HK) Hr Hl. destruct (HK me r Hr) as [Hme HO].
  destruct (memories_death (programs k) (machine k) me r HM Hr) as (c & Hd & HM' & Hsee). unfold drop_running. rewrite Hd.
  cbn [mbind option_bind]. eexists. split; [reflexivity|].
  set (os := opened (handles r) ++ stream_opens (io_input (io r)) ++ stream_opens (io_output (io r))).
  set (k1 := with_asids _ _). rewrite !drop_stream_opens, <-!drop_opens_app. fold os.
  rewrite (proj1 (drop_opens_keeps os k1)), drop_opens_programs. change (programs k1) with (programs k). set (k2 := with_programs _ k1).
  assert (Hperm : os ≡ₚ opens_of r) by (unfold os, opens_of; rewrite Hl, app_nil_r; by rewrite (Permutation_app_comm (opened _)), <-app_assoc).
  destruct (drop_opens_keeps os k2) as (Hp & Hm & Ha & Ht).
  assert (HI : Inv boot (os ++ []) k2).
  { rewrite app_nil_r. split; [|split; [done|split; [|by apply tasks_death]]].
    - apply (counted_same (opens_of r ++ [])); [by apply counted_death|]. rewrite app_nil_r. by apply same_perm.
    - apply tags_death; [done|done|apply (own_asid me r HO)]. }
  split; [|split; [done|]].
  - apply (inv_drops boot os [] k2 HI).
    + unfold few. rewrite app_nil_r, Hperm. pose proof (opens_length me r HO). unfold MAX_OPENS, MAX_HANDLES, MAX_LOCALS in *. lia.
    + intros x. rewrite app_nil_r, Hperm. intros Hx. by apply (open_ok_allocated me), (own_opens me r HO).
  - apply others_step; [done|done| |].
    + intros t Hne. rewrite Hp. by apply lookup_delete_ne.
    + intros t r0 x Hne Hr0. rewrite Hm. by apply (Hsee t r0).
Qed.

(** * Starting *)
Context (image kernel_table : list Z).
Context (image_fits : 0 < Z.of_nat (length image) <= PROGRAM_END - USER_BASE) (table_ok : Paging.kernel_ok kernel_table).

(** Programs there were keep their records and see the same memory. *)
Definition unnoticed k k' : Prop :=
  ∀ t r, programs k !! t = Some r → programs k' !! t = Some r ∧ ∀ x, sees (memory r) (machine k') x = sees (memory r) (machine k) x.

(** One more program runs, which has made no call yet. *)
Definition born k k' : Prop :=
  tasks k' = S (tasks k) ∧ unnoticed k k' ∧
  ∃ r, programs k' = <[tasks k := r]> (programs k) ∧ listed r = true ∧ locals r = [].

Definition stillborn k k' : Prop := tasks k' = tasks k ∧ programs k' = programs k ∧ unnoticed k k'.

(** What a new program is given: an address space in place, and an ASID. *)
Lemma new_memory code args k (hand : list Open) : Inv boot hand k → image_ok code → Z.of_nat (length args) <= MAX_ARGS →
  match Paging.new kernel_table (machine k) with
  | None => False
  | Some (c, None) => fs_ok (Paging.source c) ∧ (∀ x, x ∈ fs_held (Paging.source c) ↔ x ∈ fs_held (Paging.source (machine k))) ∧ keeps (machine k) c
  | Some (c, Some a) =>
    let '(a', c', r) := prepare image code args a c in
    keeps (machine k) c' ∧ (∀ x, x ∈ fs_held (Paging.source c') ↔ x ∈ fs_held (Paging.source (machine k)) ∨ x ∈ Paging.owned a') ∧
    (∀ x, x ∈ Paging.owned a' → x ∉ fs_held (Paging.source (machine k))) ∧ ∃ P, Paging.Rep a' c' P ∧ prepared P r
  end.
Proof.
  intros (_ & HM & _) Hi Ha. pose proof (mem_source _ _ _ HM) as Hok. destruct (new_works kernel_table (machine k) Hok) as [[c oa] E].
  pose proof (Paging.new_spec kernel_table (machine k) c oa table_ok Hok E) as Hs. pose proof (new_spares kernel_table (machine k) c oa table_ok Hok E) as Hk.
  rewrite E. destruct oa as [a|]; [|by destruct Hs]. destruct Hs as (HR & Hh & Hf & _).
  pose proof (prepare_spec image image_fits code args a c Hi Ha HR) as Hp. destruct (prepare image code args a c) as [[a' c'] r].
  destruct Hp as (Hac & HP). pose proof (keeps_acts _ _ _ _ _ Hk Hh Hf Hac) as Hk'. destruct Hac as (_ & (Hh' & Ho & Hn) & _).
  split_and!; [done| | |done].
  - intros x. rewrite Hh', Hh. split; [intros [[?|?%Ho]|?]; auto|intros [?|?]; auto].
  - intros x [Hx|Hx]%Hn; [by apply Hf|]. intros Hx'. apply Hx, Hh. by left.
Qed.

Lemma unnoticed_same k k' (hand : list Open) : Inv boot hand k → programs k' = programs k → fs_ok (Paging.source (machine k')) →
  (∀ x, x ∈ fs_held (Paging.source (machine k)) → x ∈ fs_held (Paging.source (machine k'))) → keeps (machine k) (machine k') → unnoticed k k'.
Proof.
  intros (_ & HM & _) Hp Hok Hh Hk t r Hr. rewrite Hp. split; [done|].
  by apply (memories_kept (programs k) (machine k) (machine k') t r HM Hr Hok).
Qed.

(** The ASID goes back when there is no memory. *)
Lemma tags_return ps used used' a : Tags ps used → allocate_asid used = Some (used', a) → Tags ps (drop_asid a used').
Proof.
  intros HT Ha. pose proof (allocate_asid_spec used (tags_ok _ _ HT)) as Hs. rewrite Ha in Hs. destruct Hs as (Hok & Hr & Hf & Hu).
  destruct (drop_asid_spec used' a Hok Hr) as [Hok' Hu']. apply (tags_ext ps used); [done|done|].
  intros n. rewrite Hu', Hu. case_decide as E; [by subst n|done].
Qed.

Lemma spawn_with_spec name code args streams parent cwd hand k : image_ok code → Z.of_nat (length cwd) <= MAX_PATH →
  Inv boot (stream_opens (io_input streams) ++ stream_opens (io_output streams) ++ hand) k →
  wp (spawn_with image kernel_table name code args streams parent cwd) k
    (λ k' p, Inv boot hand k' ∧ id p = tasks k ∧ born k k')
    (λ k' _, Inv boot (stream_opens (io_input streams) ++ stream_opens (io_output streams) ++ hand) k' ∧ stillborn k k').
Proof.
  intros Hi Hcwd HI. pose proof HI as (HC & HM & HT & HK). unfold spawn_with.
  assert (Hself : stillborn k k) by (split_and!; [done..|]; by intros t r).
  apply wp_if; intros Hargs; [by apply wp_fail|]. apply Z.ltb_ge in Hargs. apply wp_get_bind.
  pose proof (new_memory code args k _ HI Hi Hargs) as Hm. pose proof (allocate_asid_spec (asids k) (tags_ok _ _ HT)) as Ha.
  destruct (allocate_asid (asids k)) as [[used a]|] eqn:Ea; [|by apply wp_fail]. pose proof (tags_return _ _ _ _ HT Ea) as HT'.
  apply wp_modify_bind. destruct (Paging.new kernel_table (machine k)) as [[c [sp|]]|]; [| |done].
  - destruct (prepare image code args sp c) as [[sp' c'] res]. destruct Hm as (Hk & Hh & Hf & P & HR & Hp).
    assert (Hheld : ∀ x, x ∈ fs_held (Paging.source (machine k)) → x ∈ fs_held (Paging.source c')) by (intros; apply Hh; by left).
    destruct res as [[[[entry args_at] e]|e]|]; [| |done].
    + wp_step. set (r := mkRunning _ _ _ _ _ _ _ _ _ _ _ _ _ _ _). destruct Ha as (Hok & Hr & Hfree & Hu).
      assert (Hfresh := tasks_fresh _ _ HK).
      assert (Ha0 : a ≠ 0).
      { intros ->. change (Z.to_nat 0) with 0%nat in Hfree. rewrite (proj2 (tags_used _ _ HT 0%nat ltac:(unfold COUNT; lia)) ltac:(by left)) in Hfree. done. }
      assert (HO : Own (tasks k) r).
      { split; cbn [handles locals input Programs.cwd waiting_for asid r]; [|unfold Handles.wf, Handles.new, MAX_HANDLES; cbn; lia|cbn; lia|unfold MAX_INPUT; cbn; lia|done|done|lia].
        unfold opens_of. cbn [io handles locals r]. intros o [Ho|[Ho|Ho]%elem_of_app]%elem_of_app; [| |by apply not_elem_of_nil in Ho];
          [destruct (io_input streams)|destruct (io_output streams)]; cbn [stream_opens] in Ho;
          [by apply not_elem_of_nil in Ho|by apply list_elem_of_singleton in Ho as ->|by apply not_elem_of_nil in Ho|by apply list_elem_of_singleton in Ho as ->]. }
      split; [|split; [done|]].
      * split; [|split; [|split]].
        -- apply counted_birth; [|done]. unfold opens_of. cbn [io handles locals r]. by rewrite app_nil_r, <-app_assoc.
        -- by apply (memories_birth (programs k) (machine k) c' (tasks k) r P).
        -- by apply (tags_birth (programs k) (asids k) used (tasks k) r).
        -- by apply tasks_birth.
      * split; [done|]. split; [|by exists r]. intros t r0 Hr0. split.
        -- change (<[tasks k := r]> (programs k) !! t = Some r0). rewrite lookup_insert_ne; [done|]. intros <-. destruct (HK _ _ Hr0). lia.
        -- by apply (memories_kept (programs k) (machine k) c' t r0 HM Hr0 (Paging.rep_source _ _ _ HR)).
    + destruct (drop_space_spec sp' c' P HR) as (c2 & Hd & Hm2 & Hok2 & Hh2). rewrite Hd. wp_step.
      assert (Hsame : ∀ x, x ∈ fs_held (Paging.source c2) ↔ x ∈ fs_held (Paging.source (machine k))).
      { intros x. rewrite Hh2, Hh. split; [by intros [[?|?] ?]|]. intros Hx. split; [by left|]. intros Hx'. by apply (Hf x). }
      assert (Hk2 : keeps (machine k) c2) by (intros y x; rewrite Hm2; by apply Hk).
      split; [split; [done|split; [by apply (memories_same _ (machine k))|done]]|]. split; [done|]. split; [done|].
      apply (unnoticed_same k _ _ HI); [done|done|intros x; by rewrite Hsame|done].
  - destruct Hm as (Hok & Hh & Hk). wp_step.
    split; [split; [done|split; [by apply (memories_same _ (machine k))|done]]|]. split; [done|]. split; [done|].
    apply (unnoticed_same k _ _ HI); [done|done|intros x; by rewrite Hh|done].
Qed.
End lifetimes.
End Lifetimes.
