(* ===== verification/Calls.v ===== *)
(** What system calls do to who has what.

    [sound me o c Q] says of a call [c] by program [me], whose record is [o] up to what others may change of it:
    whatever other tasks do between its sections, no section panics, each keeps the invariant of [Ownership] and
    leaves other programs alone, and where the call returns [Q] holds. *)
From S2P Require Import Prelude Bytes Abi Frames Paging Elf Link Path Process Effect Fat Fs Spaces Programs Launch Ownership Lifetimes.
Import layout.
Open Scope Z_scope.

Module Calls.
Import Effect Programs Spaces Launch Ownership Lifetimes.
#[local] Existing Instances Pipe.End_eq_dec PipeEnd_eq_dec Paging.Access_eq_dec.

Section calls.
Context `{allocator : !Buffer.Allocator} {Src : Type} `{FrameSource Src} {FS E : Type} `{Files FS E}.
Local Notation Kernel := (Kernel (Src := Src) (FS := FS)).
Local Notation Call := (Call (Src := Src) (FS := FS)).
Local Notation Sys := (Sys (Src := Src) (FS := FS)).
Context (boot : gset Z) (me : TaskId).
Local Notation M := (Eff Kernel Errno.Errno).
Local Notation At := (At boot me).
Implicit Types (k : Kernel) (r : Running) (hand : list Open).

(** What another task may change of a program's record: that it was killed, and its input. *)
Definition strip r : Running := with_killed false (with_input [] r).
Definition view (t : TaskId) k : option Running := strip <$> programs k !! t.

Fixpoint sound {A} (o : option Running) (c : Call A) (Q : option Running → A → Prop) {struct c} : Prop :=
  match c with
  | Done a => Q o a
  | Locked section => ∀ k, Inv boot [] k → view me k = o →
      let '(k', c') := section k in Inv boot [] k' ∧ others me k k' ∧ sound (view me k') c' Q
  | Until _ c => sound o c Q
  | Given possible c => ∀ l, possible l = true → sound o (c l) Q
  | Gone => o = None
  | Stuck => False
  end.

Lemma sound_mono {A} : ∀ (c : Call A) o (Q Q' : option Running → A → Prop), sound o c Q → (∀ o a, Q o a → Q' o a) → sound o c Q'.
Proof.
  fix IH 1. intros c o Q Q'. destruct c as [a|f|ready c|possible f| |]; cbn [sound]; intros Hs HQ; [by apply HQ| | | |done|done].
  - intros k HI Hv. specialize (Hs k HI Hv). destruct (f k) as [k' c']. destruct Hs as (HI' & Ho & Hs).
    split; [done|]. split; [done|]. by apply (IH c' _ Q).
  - by apply (IH c _ Q).
  - intros l Hl. apply (IH (f l) _ Q); [by apply Hs|done].
Qed.

Lemma sound_bind {A B} : ∀ (c : Call A) o (g : A → Call B) Q, sound o c (λ o a, sound o (g a) Q) → sound o (call_bind c g) Q.
Proof.
  fix IH 1. intros c o g Q. destruct c as [a|f|ready c|possible f| |]; cbn [sound call_bind]; intros Hs; [done| | | |done|done].
  - intros k HI Hv. specialize (Hs k HI Hv). destruct (f k) as [k' c']. destruct Hs as (HI' & Ho & Hs).
    split; [done|]. split; [done|]. by apply IH.
  - by apply IH.
  - intros l Hl. by apply IH, Hs.
Qed.

(** ** Calls that return *)
Definition runs {A} r (c : Sys A) (Q : Running → result Errno.Errno A → Prop) : Prop :=
  sound (Some r) c (λ o a, ∃ r', o = Some r' ∧ Q r' a).

Lemma runs_mono {A} r (c : Sys A) (Q Q' : Running → result Errno.Errno A → Prop) : runs r c Q → (∀ r a, Q r a → Q' r a) → runs r c Q'.
Proof. intros Hr HQ. apply (sound_mono _ _ _ _ Hr). intros o a (r' & -> & Ha). eauto. Qed.

Lemma runs_bind {A B} r (c : Sys A) (g : A → Sys B) Q :
  runs r c (λ r' a, match a with Ok a => runs r' (g a) Q | Err e => Q r' (Err e) end) → runs r (c ≫= g) Q.
Proof.
  intros Hr. apply sound_bind. apply (sound_mono _ _ _ _ Hr). intros o a (r' & -> & Ha). destruct a as [a|e]; [done|].
  cbn [sound]. eauto.
Qed.

Lemma runs_call {A B} r (c : Sys A) (g : A → Sys B) (Q0 : Running → result Errno.Errno A → Prop) Q : runs r c Q0 →
  (∀ r' a, Q0 r' (Ok a) → runs r' (g a) Q) → (∀ r' e, Q0 r' (Err e) → Q r' (Err e)) → runs r (c ≫= g) Q.
Proof. intros Hr Ha He. apply runs_bind. apply (runs_mono _ _ _ _ Hr). intros r' [a|e] Hq; auto. Qed.

Lemma runs_attempt {A} r (c : Sys A) Q : runs r c (λ r' a, Q r' (Ok a)) → runs r (attempt c) Q.
Proof. intros Hr. apply sound_bind. apply (sound_mono _ _ _ _ Hr). intros o a (r' & -> & Ha). cbn [sound]. eauto. Qed.

Lemma runs_ret {A} r (a : A) (Q : Running → result Errno.Errno A → Prop) : Q r (Ok a) → runs r (mret a) Q.
Proof. intros. exists r. done. Qed.

Lemma runs_err {A} r e (Q : Running → result Errno.Errno A → Prop) : Q r (Err e) → runs r (err e) Q.
Proof. intros. exists r. done. Qed.

Lemma runs_if {A} r (b : bool) (c c' : Sys A) Q : (b = true → runs r c Q) → (b = false → runs r c' Q) → runs r (if b then c else c') Q.
Proof. destruct b; auto. Qed.

Lemma runs_wait r ready (Q : Running → result Errno.Errno unit → Prop) : Q r (Ok tt) → runs r (wait_until ready) Q.
Proof. intros. exists r. done. Qed.

Lemma runs_given r possible (Q : Running → result Errno.Errno (list Z) → Prop) : (∀ l, possible l = true → Q r (Ok l)) → runs r (given possible) Q.
Proof. intros Hq l Hl. exists r. eauto. Qed.

(** ** Sections *)

(** How a section that began in [k0] leaves [me]. *)
Definition leaves {A} k0 (Q : Running → result Errno.Errno A → Prop) k' (a : result Errno.Errno A) : Prop :=
  ∃ r', At [] r' k0 k' ∧ Q (strip r') a.

Lemma view_me hand r k0 k : At hand r k0 k → view me k = Some (strip r).
Proof. intros HA. unfold view. by rewrite (at_me _ _ _ _ _ _ HA). Qed.

Lemma runs_locked {A} r (m : M A) Q : listed r = true →
  (∀ k r0, At [] r0 k k → strip r0 = r → wp m k (λ k' a, leaves k Q k' (Ok a)) (λ k' e, leaves k Q k' (Err e))) → runs r (locked m) Q.
Proof.
  intros Hl Hm k HI Hv. unfold view in Hv. destruct (programs k !! me) as [r0|] eqn:Er; [|done]. injection Hv as Hv.
  assert (HA : At [] r0 k k) by (apply at_start; [done|done|by rewrite <-Hl, <-Hv]).
  specialize (Hm k r0 HA Hv). unfold wp in Hm.
  destruct (m k) as [k' a|k' e|]; [| |done]; destruct Hm as (r' & HA' & Hq);
    (split; [apply HA'|]; split; [apply HA'|]; cbn [sound]; rewrite (view_me _ _ _ _ HA'); eauto).
Qed.

(** * What sections do to [me]'s record *)
Lemma opens_with_handles h r : opens_of (with_handles h r) ≡ₚ opened h ++ (stream_opens (io_input (io r)) ++ stream_opens (io_output (io r)) ++ locals r).
Proof. unfold opens_of. cbn [with_handles io handles locals]. by rewrite !app_assoc, <-(Permutation_app_comm (opened h)), <-!app_assoc. Qed.

Lemma opens_with_locals os r : opens_of (with_locals os r) ≡ₚ os ++ (stream_opens (io_input (io r)) ++ stream_opens (io_output (io r)) ++ opened (handles r)).
Proof. unfold opens_of. cbn [with_locals io handles locals]. by rewrite !app_assoc, <-(Permutation_app_comm os), <-!app_assoc. Qed.

Lemma with_handles_id r : with_handles (handles r) r = r.
Proof. by destruct r. Qed.
Lemma with_locals_id r : with_locals (locals r) r = r.
Proof. by destruct r. Qed.

Lemma own_with_handles h r : Own me r → Handles.wf h → (∀ o, o ∈ opened h → open_ok me o) → Own me (with_handles h r).
Proof.
  intros HO Hw Ho. pose proof (own_opens me r HO) as Hold. rewrite <-(with_handles_id r) in Hold. destruct HO. split; try done.
  intros o. rewrite opens_with_handles. intros [?|Hx]%elem_of_app; [by apply Ho|]. apply Hold. rewrite opens_with_handles.
  apply elem_of_app. by right.
Qed.

Lemma own_with_locals os r : Own me r → (length os ≤ MAX_LOCALS)%nat → (∀ o, o ∈ os → open_ok me o) → Own me (with_locals os r).
Proof.
  intros HO Hw Ho. pose proof (own_opens me r HO) as Hold. rewrite <-(with_locals_id r) in Hold. destruct HO. split; try done.
  intros o. rewrite opens_with_locals. intros [?|Hx]%elem_of_app; [by apply Ho|]. apply Hold. rewrite opens_with_locals.
  apply elem_of_app. by right.
Qed.

Lemma opened_ok hand r k0 k o : At hand r k0 k → o ∈ opened (handles r) → open_ok me o.
Proof.
  intros HA Ho. apply (own_opens me r); [by apply (own_me boot me hand r k0 k)|]. unfold opens_of. rewrite !elem_of_app. auto.
Qed.

(** The handle table, with what is moved in or out of it. *)
Lemma at_handles hand hand' h r k0 k : At hand r k0 k → opened h ++ hand' ≡ₚ opened (handles r) ++ hand → Handles.wf h → few hand' →
  At hand' (with_handles h r) k0 (set_program me (with_handles h r) k).
Proof.
  intros HA Hp Hw Hf. pose proof (own_me boot me hand r k0 k HA) as HO.
  assert (Hall : ∀ o, o ∈ opened h ++ hand' → open_ok me o).
  { intros o. rewrite Hp. intros [Ho|Ho]%elem_of_app; [by apply (opened_ok hand r k0 k)|by apply (at_hand _ _ _ _ _ _ HA)]. }
  apply (at_set boot me hand hand' r); try done.
  - apply own_with_handles; [done|done|]. intros o Ho. apply Hall, elem_of_app. by left.
  - apply same_perm. rewrite <-(with_handles_id r) at 2. rewrite !opens_with_handles, <-!app_assoc.
    rewrite !(Permutation_app_comm _ (_ ++ _ ++ locals r ++ _)), <-!app_assoc.
    by rewrite !(Permutation_app_comm hand'), !(Permutation_app_comm hand), Hp.
  - apply HA.
  - intros o Ho. apply Hall, elem_of_app. by right.
Qed.

(** The same for local variables. *)
Lemma at_locals hand hand' os r k0 k : At hand r k0 k → os ++ hand' ≡ₚ locals r ++ hand → (length os ≤ MAX_LOCALS)%nat → few hand' →
  At hand' (with_locals os r) k0 (set_program me (with_locals os r) k).
Proof.
  intros HA Hp Hw Hf. pose proof (own_me boot me hand r k0 k HA) as HO.
  assert (Hall : ∀ o, o ∈ os ++ hand' → open_ok me o).
  { intros o. rewrite Hp. intros [Ho|Ho]%elem_of_app; [|by apply (at_hand _ _ _ _ _ _ HA)].
    apply (own_opens me r HO). unfold opens_of. rewrite !elem_of_app. auto. }
  apply (at_set boot me hand hand' r); try done.
  - apply own_with_locals; [done|done|]. intros o Ho. apply Hall, elem_of_app. by left.
  - apply same_perm. rewrite <-(with_locals_id r) at 2. rewrite !opens_with_locals, <-!app_assoc.
    rewrite !(Permutation_app_comm _ (_ ++ _ ++ opened _ ++ _)), <-!app_assoc.
    by rewrite !(Permutation_app_comm hand'), !(Permutation_app_comm hand), Hp.
  - apply HA.
  - intros o Ho. apply Hall, elem_of_app. by right.
Qed.

(** Fields nothing is counted by. *)
Lemma at_fields hand r r' k0 k : At hand r k0 k → opens_of r' = opens_of r → memory r' = memory r → heap_end r' = heap_end r →
  asid r' = asid r → listed r' = true → Own me r' → At hand r' k0 (set_program me r' k).
Proof. intros HA Ho Hm Hh Ha Hl HO. apply (at_set boot me hand hand r); try done; [by rewrite Ho|apply HA|apply HA]. Qed.

Lemma at_reading b hand r k0 k : At hand r k0 k → At hand (with_reading b r) k0 (set_program me (with_reading b r) k).
Proof. intros HA. pose proof (own_me _ _ _ _ _ _ HA) as []. apply (at_fields hand r); try done; [apply HA]. Qed.

Lemma at_waiting w hand r k0 k : At hand r k0 k → (∀ c, w = Some c → (me < c)%nat) →
  At hand (with_waiting w r) k0 (set_program me (with_waiting w r) k).
Proof. intros HA Hw. pose proof (own_me _ _ _ _ _ _ HA) as []. apply (at_fields hand r); try done; [apply HA]. Qed.

Lemma at_cwd d hand r k0 k : At hand r k0 k → Z.of_nat (length d) <= MAX_PATH → At hand (with_cwd d r) k0 (set_program me (with_cwd d r) k).
Proof. intros HA Hw. pose proof (own_me _ _ _ _ _ _ HA) as []. apply (at_fields hand r); try done; [apply HA]. Qed.

Lemma at_input i hand r k0 k : At hand r k0 k → Z.of_nat (length i) <= MAX_INPUT →
  At hand (with_input i r) k0 (set_program me (with_input i r) k).
Proof. intros HA Hw. pose proof (own_me _ _ _ _ _ _ HA) as []. apply (at_fields hand r); try done; [apply HA]. Qed.

(** What an open handle refers to, replaced by something that counts the same. *)
Lemma at_replace n o o' hand hand' r k0 k : At hand r k0 k → handles r !! n = Some (Some o) → same (o' :: hand') (o :: hand) → open_ok me o' →
  hand' ⊆ hand → few hand' →
  At hand' (with_handles (<[n := Some o']> (handles r)) r) k0 (set_program me (with_handles (<[n := Some o']> (handles r)) r) k).
Proof.
  intros HA Hn Hs Ho' Hsub Hf. pose proof (own_me boot me hand r k0 k HA) as HO. set (h := <[n := Some o']> (handles r)).
  assert (Hp : o :: opened h ≡ₚ o' :: opened (handles r)) by exact (opened_update (handles r) n (Some o) (Some o') Hn).
  assert (Hw : ∀ w, weight w (o' :: hand') = weight w (o :: hand) →
    weight w (opens_of (with_handles h r) ++ hand') = weight w (opens_of r ++ hand)).
  { intros w Hw. pose proof (weight_perm w _ _ Hp) as Hq. rewrite !weight_cons in Hq, Hw. unfold opens_of.
    cbn [with_handles io handles locals]. rewrite !weight_app. lia. }
  apply (at_set boot me hand hand' r); try done; [| |apply HA|intros x Hx; apply (at_hand _ _ _ _ _ _ HA), Hsub, Hx].
  - apply own_with_handles; [done| |].
    + unfold Handles.wf, h. rewrite length_insert. apply HO.
    + intros x Hx. assert (Hin : x ∈ o' :: opened (handles r)) by (rewrite <-Hp; by right).
      apply elem_of_cons in Hin as [->|Hin]; [done|by apply (opened_ok hand r k0 k)].
  - destruct Hs as (Se & Sa & Ss). split; [intros e|split]; by apply Hw.
Qed.

(** * What the parts of a section do *)
Lemma lookup_me hand r k0 k : At hand r k0 k → lookup_program me k = Some r.
Proof. intros HA. unfold lookup_program. by rewrite (at_me _ _ _ _ _ _ HA), (at_listed _ _ _ _ _ _ HA). Qed.

Lemma wp_running {B} hand r k0 k (g : Running → M B) Q R : At hand r k0 k → wp (g r) k Q R → wp (running me ≫= g) k Q R.
Proof. intros HA Hg. unfold wp, mbind, Eff_bind, running, get, unwrap in *. cbn. unfold mbind, Eff_bind. by rewrite (lookup_me _ _ _ _ HA). Qed.

Lemma write_user_at va bytes hand r k0 k : At hand r k0 k → 0 <= va →
  wp (write_user me va bytes) k (λ k' _, At hand r k0 k') (λ k' _, At hand r k0 k').
Proof.
  intros HA Hva. unfold write_user. apply (wp_running hand r k0 k); [done|]. apply wp_get_bind.
  pose proof (at_write boot me hand r k0 k va bytes HA Hva) as HA'. destruct (Paging.write_user _ _ _ _) as [m answer].
  apply wp_modify_bind. cbn [fst] in HA'. destruct answer; [by apply wp_ret|by apply wp_fail].
Qed.

Lemma read_user_at va n hand r k0 k : At hand r k0 k → 0 <= va →
  wp (read_user me va n) k (λ k' buf, k' = k ∧ length buf = n) (λ k' _, k' = k).
Proof.
  intros HA Hva. unfold read_user. apply (wp_running hand r k0 k); [done|]. apply wp_get_bind.
  pose proof (at_inv _ _ _ _ _ _ HA) as (_ & HM & _). destruct (mem_rep _ _ _ HM me r (at_me _ _ _ _ _ _ HA)) as (P & HR & _).
  pose proof (Paging.read_pieces n (memory r) (machine k) P va n 0 (replicate n 0) HR Hva (length_replicate n 0) ltac:(lia) ltac:(lia)) as Hp.
  unfold Paging.read_user, Paging.for_each_piece. rewrite length_replicate, Nat2Z.id.
  change (λ physical offset len buf, take (Z.to_nat offset) buf ++ Paging.fetch physical (Z.to_nat len) (Paging.mem (machine k)) ++
            drop (Z.to_nat (offset + len)) buf) with (Paging.fetch_piece (Paging.mem (machine k))).
  destruct (Paging.pieces _ _ _ _ _ _ _ _ _) as [buf answer]. destruct Hp as [Hl _]. destruct answer; [by apply wp_ret|by apply wp_fail].
Qed.

Lemma get_handle_at h hand r k0 k : At hand r k0 k →
  wp (get_handle me h) k (λ k' o, k' = k ∧ Handles.get_mut (handles r) h = Ok o) (λ k' _, k' = k).
Proof.
  intros HA. unfold get_handle. apply (wp_running hand r k0 k); [done|]. by destruct (Handles.get_mut (handles r) h).
Qed.

Lemma set_handle_at h o o' hand hand' r k0 k : At hand r k0 k → Handles.get_mut (handles r) h = Ok o → same (o' :: hand') (o :: hand) →
  open_ok me o' → hand' ⊆ hand → few hand' →
  wp (set_handle me h o') k (λ k' _, ∃ h', At hand' (with_handles h' r) k0 k') (λ _ _, False).
Proof.
  intros HA Hg Hs Ho Hsub Hf. unfold set_handle. apply (wp_running hand r k0 k); [done|]. destruct (handles_get _ _ _ Hg) as (n & -> & Hn).
  apply wp_modify. eexists. by apply (at_replace n o o' hand hand' r k0 k).
Qed.

Lemma insert_handle_at o hand r k0 k : At (o :: hand) r k0 k →
  wp (insert_handle me o) k (λ k' n, ∃ h', At hand (with_handles h' r) k0 k' ∧ 0 <= n <= MAX_RESULT)
    (λ k' _, At hand r k0 k' ∧ Handles.has_room (handles r) = false).
Proof.
  intros HA. unfold insert_handle. apply (wp_running (o :: hand) r k0 k); [done|].
  pose proof (handles_insert (handles r) o (own_handles me r (own_me _ _ _ _ _ _ HA))) as Hi. destruct (Handles.insert _ _) as [h [n|e]].
  - destruct Hi as (Hp & Hw & Hn). apply wp_modify_bind. apply wp_ret. exists h. split; [|done].
    apply (at_handles (o :: hand)); [done| |done|by apply (few_tail o), (at_few _ _ _ _ _ _ HA)].
    rewrite Hp. by rewrite <-Permutation_middle.
  - destruct Hi as [-> Hroom]. apply wp_modify_bind. apply wp_modify_bind. apply wp_fail. split; [|done].
    rewrite with_handles_id, (set_same me) by apply HA. by apply (at_drop boot me o).
Qed.

Lemma take_handle_at h hand r k0 k : At hand r k0 k → (length hand < 64)%nat →
  wp (take_handle me h) k (λ k' o, ∃ h', At (o :: hand) (with_handles h' r) k0 k' ∧ Handles.get_mut (handles r) h = Ok o)
    (λ k' _, k' = k).
Proof.
  intros HA Hl. unfold take_handle. apply (wp_running hand r k0 k); [done|].
  pose proof (handles_take (handles r) h (own_handles me r (own_me _ _ _ _ _ _ HA))) as Hi. destruct (Handles.take _ _) as [h' [o|e]].
  - destruct Hi as (Hp & Hw & Hg). apply wp_modify_bind. apply wp_ret. exists h'. split; [|done].
    apply (at_handles hand); [done| |done|by unfold few; cbn [length]]. rewrite Hp. by rewrite <-Permutation_middle.
  - destruct Hi as [-> Hg]. apply wp_modify_bind. apply wp_fail. by rewrite with_handles_id, (set_same me) by apply HA.
Qed.

(** Into local variables, out of them, and dropped. *)
Lemma hold_at os hand r k0 k : At (os ++ hand) r k0 k → (length (os ++ locals r) ≤ MAX_LOCALS)%nat →
  wp (hold me os) k (λ k' _, At hand (with_locals (os ++ locals r) r) k0 k') (λ _ _, False).
Proof.
  intros HA Hl. unfold hold. apply (wp_running (os ++ hand) r k0 k); [done|]. apply wp_modify. apply (at_locals (os ++ hand)); [done| |done|].
  - by rewrite (Permutation_app_comm os (locals r)), <-app_assoc.
  - pose proof (at_few _ _ _ _ _ _ HA) as Hf. unfold few in *. rewrite length_app in Hf. lia.
Qed.

Lemma moved_at os out hand r k0 k : At hand r k0 k → locals r ≡ₚ os ++ out → (length hand ≤ 32)%nat →
  wp (moved me os) k (λ k' _, At (out ++ hand) (with_locals os r) k0 k') (λ _ _, False).
Proof.
  intros HA Hp Hl. unfold moved. apply (wp_running hand r k0 k); [done|]. apply wp_modify.
  pose proof (own_locals me r (own_me _ _ _ _ _ _ HA)) as Hlen. rewrite Hp, length_app in Hlen. unfold MAX_LOCALS in *.
  apply (at_locals hand); [done|by rewrite Hp, app_assoc|unfold MAX_LOCALS; lia|]. unfold few. rewrite length_app. lia.
Qed.

Lemma drop_locals_at hand r k0 k : At hand r k0 k → (length hand ≤ 32)%nat →
  wp (drop_locals me) k (λ k' _, At hand (with_locals [] r) k0 k') (λ _ _, False).
Proof.
  intros HA Hl. unfold drop_locals. apply (wp_running hand r k0 k); [done|]. apply wp_modify_bind.
  set (k1 := drop_opens (locals r) k). assert (Hlook : lookup_program me k1 = Some r).
  { unfold lookup_program, k1. rewrite (proj1 (drop_opens_keeps _ _)). apply (lookup_me _ _ _ _ HA). }
  unfold wp, mbind, Eff_bind, running, get, unwrap. cbn. unfold mbind, Eff_bind. rewrite Hlook. cbn.
  assert (Heq : set_program me (with_locals [] r) k1 = drop_opens (locals r) (set_program me (with_locals [] r) k)).
  { unfold set_program, k1. rewrite (proj1 (drop_opens_keeps _ _)). apply drop_opens_programs. }
  rewrite Heq. apply at_drops. pose proof (own_locals me r (own_me _ _ _ _ _ _ HA)) as Hlen. unfold MAX_LOCALS in *.
  apply (at_locals hand); [done|done|cbn; lia|]. unfold few. rewrite length_app. lia.
Qed.

(** * System calls *)

(** A result that fits in x0. *)
Definition fits (a : result Errno.Errno Z) : Prop := match a with Ok v => 0 <= v <= MAX_RESULT | Err _ => True end.

(** A call is over: its program is in the table, and the call holds nothing. *)
Definition idle r : Prop := listed r = true ∧ locals r = [].
Definition finished r (a : result Errno.Errno Z) : Prop := idle r ∧ fits a.

(** [me]'s record is the same after the call, whose result has [P]. *)
Definition same_as {A} r (P : A → Prop) r' (a : result Errno.Errno A) : Prop := r' = r ∧ match a with Ok a => P a | Err _ => True end.

Lemma leaves_at {A} r (P : A → Prop) k0 k (a : result Errno.Errno A) : At [] r k0 k → match a with Ok a => P a | Err _ => True end →
  leaves k0 (same_as (strip r) P) k a.
Proof. intros HA Ha. exists r. done. Qed.

Ltac section k r HA := apply runs_locked; [done|]; intros k r HA <-.

(** ** Memory *)
Lemma copy_from_user_runs addr n r : listed r = true → 0 <= addr → runs r (copy_from_user me addr n) (same_as r (λ l, length l = n)).
Proof.
  intros Hl Ha. section k r0 HA. eapply wp_mono; [apply (read_user_at addr n [] r0 k k HA Ha)| |].
  - intros k' buf [-> Hb]. by apply leaves_at.
  - intros k' e ->. by apply leaves_at.
Qed.

Lemma user_string_runs ptr len max r : listed r = true → 0 <= ptr →
  runs r (user_string me ptr len max) (same_as r (λ l, Z.of_nat (length l) = Z.max 0 len ∧ len <= max)).
Proof.
  intros Hl Hp. apply runs_if; intros Hmax; [by apply runs_err|]. apply Z.ltb_ge in Hmax.
  eapply runs_call; [by apply copy_from_user_runs| |by intros ? ? [-> _]]. intros r' buf [-> Hb].
  apply runs_if; intros _; [apply runs_ret|by apply runs_err]. split; [done|]. lia.
Qed.

Lemma user_path_runs ptr len r : listed r = true → 0 <= ptr → runs r (user_path me ptr len) (same_as r (λ _, True)).
Proof.
  intros Hl Hp. eapply runs_call; [by apply user_string_runs| |by intros ? ? [-> _]]. intros r' path [-> _].
  section k r0 HA. apply (wp_running [] r0 k k); [done|]. apply wp_ret. by apply leaves_at.
Qed.

(** Writing to the program's memory, alone in a section. *)
Lemma write_user_runs va bytes r : listed r = true → 0 <= va → runs r (locked (write_user me va bytes)) (same_as r (λ _, True)).
Proof.
  intros Hl Hva. section k r0 HA. eapply wp_mono; [by apply (write_user_at va bytes [] r0 k k)| |]; intros k' a HA'; by apply leaves_at.
Qed.

Lemma random_runs ptr len r : idle r → 0 <= ptr → runs r (random me ptr len) finished.
Proof.
  intros Hr Hp. apply runs_bind, runs_given. intros l [Hl%Nat.eqb_eq _]%andb_true_iff.
  eapply runs_call; [by apply write_user_runs; [apply Hr|]| |by intros ? ? [-> _]]. intros r' _ [-> _].
  apply runs_ret. split; [done|]. cbn [fits]. unfold MAX_RESULT, MAX_RANDOM in *. lia.
Qed.

(** The next page of the heap: mapped there, or memory ran out. *)
Lemma map_page_at hand r k0 k : At hand r k0 k → heap_end r + PAGE_SIZE <= PROGRAM_END →
  let '(a, c, answer) := Paging.map (heap_end r) Paging.ReadWrite (memory r) (machine k) in
  let r' := match answer with
            | Ok _ => with_heap_end (wrap 64 (heap_end r + PAGE_SIZE)) (with_memory a r)
            | Err _ => with_memory a r
            end in
  At hand r' k0 (set_program me r' (with_machine c k)).
Proof.
  intros HA Hend. pose proof (at_inv _ _ _ _ _ _ HA) as (_ & HM & _). pose proof (own_me _ _ _ _ _ _ HA) as HO.
  destruct (mem_rep _ _ _ HM me r (at_me _ _ _ _ _ _ HA)) as (P & HR & Hal & Hh & Hbelow).
  pose proof (map_acts (heap_end r) Paging.ReadWrite (memory r) (machine k) P HR) as Hac.
  pose proof (Paging.map_spec (heap_end r) Paging.ReadWrite (memory r) (machine k) P HR) as Hs.
  destruct (Paging.map _ _ _ _) as [[a c] answer]. destruct Hs as [_ Hs]. cbv zeta. destruct answer as [u|e].
  - destruct Hs as (_ & _ & _ & f & _ & HR' & _). rewrite wrap_small by (unfold uint, PROGRAM_END, STACK_TOP, STACK_SIZE, USER_END, USER_BASE, PAGE_SIZE in *; lia).
    apply (at_memory boot me hand r (with_heap_end (heap_end r + PAGE_SIZE) (with_memory a r)) k0 k c _ HA Hac HR'); try done; [|by destruct HO|apply HA].
    cbn [heap_end with_heap_end].
    split; [by rewrite <-Z.add_mod_idemp_l, Hal by done|]. split; [unfold PAGE_SIZE in *; lia|].
    intros va [->|Hva]%lookup_insert_is_Some'; [left; unfold PAGE_SIZE; lia|].
    destruct (Hbelow va Hva) as [?|?]; [left; unfold PAGE_SIZE; lia|by right].
  - destruct Hs as [HR' _]. apply (at_memory boot me hand r (with_memory a r) k0 k c P HA Hac HR'); try done; [by destruct HO|apply HA].
Qed.

Lemma map_pages_runs n r : listed r = true → heap_end r + Z.of_nat n * PAGE_SIZE <= PROGRAM_END → 0 <= heap_end r →
  runs r (map_pages me n (heap_end r)) (λ r' _, listed r' = true ∧ locals r' = locals r).
Proof.
  revert r. induction n as [|n IH]; intros r Hl Hend Hpos; cbn [map_pages]; [by apply runs_ret|].
  assert (Hpage : heap_end r + PAGE_SIZE <= PROGRAM_END) by (unfold PAGE_SIZE in *; lia).
  eapply (runs_call _ _ _ (λ r' a, listed r' = true ∧ locals r' = locals r ∧
    match a with Ok _ => heap_end r' = heap_end r + PAGE_SIZE | Err _ => True end)).
  - section k r0 HA. change (heap_end (strip r0)) with (heap_end r0) in *. apply (wp_running [] r0 k k); [done|]. apply wp_get_bind.
    pose proof (map_page_at [] r0 k k HA Hpage) as Hm. destruct (Paging.map _ _ _ _) as [[a c] answer]. apply wp_modify_bind.
    destruct answer as [u|e]; cbv zeta in Hm.
    + apply wp_modify. eexists. split; [exact Hm|]. split; [done|]. split; [done|]. cbn [strip heap_end with_killed with_input with_heap_end].
      apply wrap_small. unfold uint, PROGRAM_END, STACK_TOP, STACK_SIZE, USER_END, PAGE_SIZE in *. lia.
    + apply wp_modify_bind, wp_fail. eexists. split; [exact Hm|]. done.
  - intros r' _ (Hl' & Hlo & Hh). rewrite <-Hh. eapply runs_mono; [apply IH; [done|rewrite Hh; unfold PAGE_SIZE in *; lia|rewrite Hh; unfold PAGE_SIZE; lia]|].
    intros r'' a [? E']. by rewrite E', Hlo.
  - by intros r' e (? & ? & _).
Qed.

Lemma map_runs len r : idle r → 0 <= len → runs r (map me len) finished.
Proof.
  intros [Hl Hlo] Hlen. eapply (runs_call _ _ _ (λ r' a, r' = r ∧ match a with Ok h => h = heap_end r ∧ 0 <= h | Err _ => True end)).
  - section k r0 HA. apply (wp_running [] r0 k k); [done|]. apply wp_ret. apply (leaves_at r0 (λ h, h = heap_end r0 ∧ 0 <= h) k k (Ok (heap_end r0)) HA).
    pose proof (at_inv _ _ _ _ _ _ HA) as (_ & HM & _). destruct (mem_rep _ _ _ HM me r0 (at_me _ _ _ _ _ _ HA)) as (P & _ & _ & Hh & _).
    unfold USER_BASE in Hh. split; [done|lia].
  - intros r' h (-> & -> & Hpos). apply runs_if; [|intros _; by apply runs_err]. intros [[_ _]%andb_true_iff Hend%Z.leb_le]%andb_true_iff.
    set (size := _ * PAGE_SIZE) in *. assert (Hs : size = Z.of_nat (Z.to_nat (size / PAGE_SIZE)) * PAGE_SIZE).
    { unfold size. rewrite Z.div_mul by done. rewrite Z2Nat.id; [done|]. apply Z.div_pos; unfold PAGE_SIZE; lia. }
    eapply runs_call; [apply map_pages_runs; [done|by rewrite <-Hs|done]| |].
    + intros r' _ [Hl' Hlo']. apply runs_ret. split; [split; [done|by rewrite Hlo']|]. cbn [fits].
      unfold PROGRAM_END, STACK_TOP, STACK_SIZE, USER_END, MAX_RESULT, PAGE_SIZE in *. pose proof (Z.div_pos (len + 4096 - 1) 4096). lia.
    + intros r' e [Hl' Hlo']. split; [split; [done|by rewrite Hlo']|done].
  - by intros r' e [-> _].
Qed.

(** ** Pipes *)

(** [p] is the pipe of an end [r] has. *)
Definition has_pipe (p : nat) r : Prop := ∃ e, of_pipe e = p ∧ PipeHandle e ∈ opens_of r.

Lemma at_pipe p s hand r k0 k : At hand r k0 k → has_pipe p r →
  (∀ w, Pipe.count w s = Pipe.count w (pipe_state p k)) → Z.of_nat (length (Pipe.bytes s)) <= PIPE_CAPACITY →
  At hand r k0 (set_pipe p s k).
Proof.
  intros HA (e & <- & He) Hc Hb. pose proof (at_inv _ _ _ _ _ _ HA) as (HC & _).
  apply (at_counted boot me hand hand r k0 k _ HA); try done; [|apply HA|apply HA].
  destruct (counted_end _ _ _ _ _ e HC) as (s0 & Hs0 & _).
  { pose proof (weight_ends_pos e hand). rewrite (total_delete _ _ _ _ (at_me _ _ _ _ _ _ HA)).
    pose proof (total_nonneg (ends e) (delete me (programs k)) ltac:(intros; apply ends_bounds)).
    pose proof (weight_ge (ends e) (opens_of r) _ ltac:(intros; apply ends_bounds) He) as Hge. rewrite ends_self in Hge. lia. }
  apply (counted_pipe hand); [done| |done|done|done|done].
  intros e' He'. pose proof (counted_ends _ _ _ _ _ HC e') as Hx. rewrite He', Hs0 in Hx. rewrite Hc, Hx. unfold pipe_state. by rewrite Hs0.
Qed.

Lemma pipe_room p hand r k0 k : At hand r k0 k → Z.of_nat (length (Pipe.bytes (pipe_state p k))) <= PIPE_CAPACITY.
Proof.
  intros HA. unfold pipe_state. destruct (pipes k !! p) as [s|] eqn:Es; cbn [default]; [|by vm_compute].
  apply (counted_room _ _ _ _ _ (proj1 (at_inv _ _ _ _ _ _ HA)) p s Es).
Qed.

Lemma read_pipe_runs p ptr len r : idle r → has_pipe p r → 0 <= ptr → runs r (read_pipe me p ptr len) finished.
Proof.
  intros Hr Hp Hptr. unfold read_pipe. apply runs_if; intros _; [apply runs_ret; split; [done|cbn; unfold MAX_RESULT; lia]|].
  set (n := Z.to_nat _). apply runs_bind, runs_wait.
  eapply (runs_call _ _ _ (same_as r (λ l, (length l ≤ n)%nat))).
  - apply runs_locked; [apply Hr|]. intros k r0 HA <-. apply wp_get_bind.
    pose proof (pipe_room p [] r0 k k HA) as Hroom. unfold Pipe.read_section.
    apply wp_modify_bind, wp_ret. apply (leaves_at r0 (λ l, (length l ≤ n)%nat)); [|rewrite length_take; lia].
    apply at_pipe; [done|done|by intros []|]. cbn [Pipe.bytes]. rewrite length_drop. lia.
  - intros r' l [-> Hl]. eapply runs_call; [by apply write_user_runs; [apply Hr|]| |by intros ? ? [-> _]]. intros r' _ [-> _].
    apply runs_ret. split; [done|]. cbn [fits]. unfold MAX_RESULT, MAX_READ in *. lia.
  - by intros ? ? [-> _].
Qed.

Lemma write_pipe_runs p ptr len r : idle r → has_pipe p r → 0 <= ptr → runs r (write_pipe me p ptr len) finished.
Proof.
  intros Hr Hp Hptr. eapply runs_call; [by apply copy_from_user_runs; [apply Hr|]| |by intros ? ? [-> _]]. intros r' bytes [-> Hb].
  apply runs_if; intros _; [apply runs_ret; split; [done|cbn; unfold MAX_RESULT; lia]|]. apply runs_bind, runs_wait.
  apply runs_locked; [apply Hr|]. intros k r0 HA <-. apply wp_get_bind. pose proof (pipe_room p [] r0 k k HA) as Hroom.
  unfold Pipe.write_section. destruct (_ =? 0).
  - apply wp_modify_bind. apply wp_fail. exists r0. split; [|done]. by apply at_pipe.
  - apply wp_modify_bind, wp_ret. exists r0. split.
    + apply at_pipe; [done|done|by intros []|]. cbn [Pipe.bytes]. rewrite length_app, length_take. unfold PIPE_CAPACITY in *. lia.
    + split; [done|]. cbn [fits]. unfold MAX_RESULT, PIPE_CAPACITY in *. lia.
Qed.

Lemma stream_pipe_runs (stream : Io → Stream) r : listed r = true → (∀ io, stream io = io_input io) ∨ (∀ io, stream io = io_output io) →
  runs r (stream_pipe me stream) (same_as r (λ p, ∀ n, p = Some n → has_pipe n r)).
Proof.
  intros Hl Hs. section k r0 HA. apply (wp_running [] r0 k k); [done|]. apply wp_ret.
  apply (leaves_at r0 (λ p, ∀ n, p = Some n → has_pipe n (strip r0))); [done|]. intros n Hn.
  destruct (stream (io r0)) as [|e] eqn:Es; [done|]. injection Hn as <-. exists e. split; [done|].
  unfold opens_of. cbn [strip io with_killed with_input]. rewrite !elem_of_app.
  destruct Hs as [Hs|Hs]; rewrite Hs in Es; rewrite Es; [left|right; left]; by left.
Qed.

(** ** Typed input and the console *)
Lemma set_reading_runs b r : listed r = true → runs r (set_reading me b) (λ r' a, r' = with_reading b r ∧ a = Ok tt).
Proof.
  intros Hl. section k r0 HA. apply wp_get_bind. rewrite (lookup_me _ _ _ _ HA). apply wp_modify.
  exists (with_reading b r0). split; [by apply at_reading|done].
Qed.

Lemma read_typed_runs ptr len r : idle r → 0 <= ptr → runs r (read_typed me ptr len) finished.
Proof.
  intros Hr Hptr. unfold read_typed. apply runs_if; intros _; [apply runs_ret; split; [done|cbn; unfold MAX_RESULT; lia]|].
  eapply runs_call; [apply set_reading_runs, Hr| |by intros ? ? [_ ?]]. intros r1 u [-> _]. apply runs_bind, runs_wait.
  eapply runs_call; [apply set_reading_runs, Hr| |by intros ? ? [_ ?]]. intros r2 u' [-> _].
  apply runs_locked; [apply Hr|]. intros k r0 HA Hr0. assert (Hi : idle (strip r0)) by (rewrite Hr0; apply Hr).
  apply (wp_running [] r0 k k); [done|]. cbv zeta.
  eapply wp_call; [by apply (write_user_at ptr _ [] r0 k k)| |].
  - intros k' u1 HA'. apply (wp_running [] r0 k k'); [done|]. apply wp_modify_bind, wp_ret.
    eexists. split; [apply at_input; [done|]|].
    + rewrite length_drop. pose proof (own_input me r0 (own_me _ _ _ _ _ _ HA)). lia.
    + split; [done|]. cbn [fits]. unfold MAX_RESULT, MAX_READ. lia.
  - intros k' e HA'. by exists r0.
Qed.

Lemma read_input_runs ptr len r : idle r → 0 <= ptr → runs r (read_input me ptr len) finished.
Proof.
  intros Hr Hptr. eapply runs_call; [apply (stream_pipe_runs io_input); [apply Hr|by left]| |by intros ? ? [-> _]].
  intros r' [p|] [-> Hp]; [by apply read_pipe_runs; [|apply Hp|]|by apply read_typed_runs].
Qed.

Lemma write_output_runs ptr len r : idle r → 0 <= ptr → runs r (write_output me ptr len) finished.
Proof.
  intros Hr Hptr. eapply runs_call; [apply (stream_pipe_runs io_output); [apply Hr|by right]| |by intros ? ? [-> _]].
  intros r' [p|] [-> Hp]; [by apply write_pipe_runs; [|apply Hp|]|].
  eapply runs_call; [by apply copy_from_user_runs; [apply Hr|]| |by intros ? ? [-> _]]. intros r' bytes [-> Hb].
  eapply (runs_call _ _ _ (same_as r (λ _, True))); [| |by intros ? ? [-> _]].
  - apply runs_locked; [apply Hr|]. intros k r0 HA <-. apply wp_modify. apply (leaves_at r0 (λ _, True)); [|done].
    by apply (at_same boot me [] r0 k k).
  - intros r' _ [-> _]. apply runs_ret. split; [done|]. cbn [fits]. unfold MAX_RESULT, MAX_WRITE. lia.
Qed.

(** ** Files and directories *)
Lemma fs_call_runs {A} (op : FS → FS * result (Fs.FsError E) A) r : listed r = true →
  runs r (fs_call op) (same_as r (λ a, ∃ f f', op f = (f', Ok a))).
Proof.
  intros Hl. section k r0 HA. apply wp_get_bind. destruct (op (fs k)) as [f [a|e]] eqn:Eop; apply wp_modify_bind.
  - apply wp_ret. apply (leaves_at r0 (λ a, ∃ f f', op f = (f', Ok a))); [by apply (at_same boot me [] r0 k k)|eauto].
  - apply wp_fail. apply (leaves_at r0 (λ a, ∃ f f', op f = (f', Ok a))); [by apply (at_same boot me [] r0 k k)|done].
Qed.

(** More bytes are counted. *)
Lemma counted_more o hand ps pipes held lent : Counted hand ps pipes held lent → (∀ e, ends e o = 0) → screens o = 0 →
  held + allocated o <= Buffer.BUDGET + Buffer.most → Counted (o :: hand) ps pipes (held + allocated o) lent.
Proof.
  intros [H1 H2 H3 H4 H5] He Hs Hb. split; [intros e|done|..]; rewrite ?weight_cons, ?He, ?Hs; [apply H1|lia..].
Qed.

Lemma adopt_runs v r : listed r = true → Z.of_nat (length (Buffer.data v)) <= Buffer.capacity v → (length (locals r) ≤ 2)%nat →
  runs r (adopt me v) (λ r' a, match a with Ok d => d = v ∧ r' = with_locals (File v 0 :: locals r) r | Err _ => r' = r end).
Proof.
  intros Hl Hv Hlo. section k r0 HA. apply wp_get_bind. unfold Buffer.adopt. destruct (Buffer.take _ _) as [h|e] eqn:Et; apply wp_modify_bind.
  - apply Buffer.take_Ok in Et as [-> Hb]. pose proof Buffer.most_nonneg. apply wp_ret_bind.
    assert (HA' : At [File v 0] r0 k (with_held (held k + Buffer.capacity v) k)).
    { apply (at_counted boot me [] [File v 0] r0 k k _ HA); try done; [|by intros o ->%list_elem_of_singleton; split; [|lia]|unfold few; cbn; lia].
      apply (counted_more (File v 0)); [apply (at_inv _ _ _ _ _ _ HA)|done|done|cbn [allocated]; lia]. }
    eapply wp_call; [apply (hold_at [File v 0] []); [by rewrite app_nil_r|cbn [length app]; unfold MAX_LOCALS; change (locals (strip r0)) with (locals r0) in Hlo; lia]| |done].
    intros k' u HA''. apply wp_ret. by exists (with_locals ([File v 0] ++ locals r0) r0).
  - apply wp_fail. exists r0. split; [|done]. by apply (at_same boot me [] r0 k k).
Qed.

(** A new handle, at the end of a call. *)
Lemma insert_runs o r : idle r → open_ok me o → (∀ e, ends e o = 0) → allocated o = 0 → screens o = 0 → runs r (locked (insert_handle me o)) finished.
Proof.
  intros Hr Ho He Ha Hs. apply runs_locked; [apply Hr|]. intros k r0 HA <-.
  eapply wp_mono; [apply (insert_handle_at o [] r0 k k)| |].
  - apply (at_counted boot me [] [o] r0 k k _ HA); try done; [|by intros o' ->%list_elem_of_singleton|unfold few; cbn; lia].
    pose proof (counted_more o [] (programs k) (pipes k) (held k) (lent k)) as Hm. rewrite Ha, Z.add_0_r in Hm.
    pose proof (at_inv _ _ _ _ _ _ HA) as (HC & _). apply Hm; [done..|apply HC].
  - intros k' n (h & HA' & Hn). eexists. split; [exact HA'|]. done.
  - intros k' e [HA' _]. by exists r0.
Qed.

Lemma open_runs path len r : idle r → 0 <= path → runs r (open me path len) finished.
Proof.
  intros Hr Hp. eapply runs_call; [by apply user_path_runs; [apply Hr|]| |by intros ? ? [-> _]]. intros r' name [-> _].
  eapply runs_call; [apply fs_call_runs, Hr| |by intros ? ? [-> _]]. intros r' v [-> (f & f' & Hv)].
  destruct (fs_file_fits _ _ _ _ Hv) as [Hcap _]. destruct Hr as [Hl Hlo].
  eapply runs_call; [apply adopt_runs; [done|done|rewrite Hlo; cbn; lia]| |by intros r' e ->; split].
  intros r' d [-> ->]. apply runs_locked; [done|]. intros k r0 HA Hr0.
  assert (Hlo0 : locals r0 = [File v 0]) by (change (locals r0) with (locals (strip r0)); by rewrite Hr0, Hlo).
  eapply wp_call; [apply (moved_at [] [File v 0] [] r0 k k HA); [by rewrite Hlo0|cbn; lia]| |done].
  intros k' u HA'. eapply wp_mono; [by apply (insert_handle_at (File v 0) [] (with_locals [] r0) k k')| |].
  - intros k'' n (h & HA'' & Hn). eexists. split; [exact HA''|]. split; [|done]. split; [|done]. apply HA'.
  - intros k'' e [HA'' _]. eexists. split; [exact HA''|]. split; [|done]. split; [|done]. apply HA'.
Qed.

Lemma open_dir_runs path len r : idle r → 0 <= path → runs r (open_dir me path len) finished.
Proof.
  intros Hr Hp. eapply runs_call; [by apply user_path_runs; [apply Hr|]| |by intros ? ? [-> _]]. intros r' name [-> _].
  eapply runs_call; [apply fs_call_runs, Hr| |by intros ? ? [-> _]]. intros r' es [-> _]. by apply insert_runs.
Qed.

Lemma create_runs path len r : idle r → 0 <= path → runs r (create me path len) finished.
Proof.
  intros Hr Hp. eapply runs_call; [by apply user_path_runs; [apply Hr|]| |by intros ? ? [-> _]]. intros r' name [-> _].
  eapply runs_call; [apply fs_call_runs, Hr| |by intros ? ? [-> _]]. intros r' es [-> _]. by apply insert_runs.
Qed.

(** Calls that only change the file system. *)
Lemma on_path_runs {A} (op : list Z → FS → FS * result (Fs.FsError E) A) path len r : idle r → 0 <= path →
  runs r (p ← user_path me path len; _ ← fs_call (op p); mret 0) finished.
Proof.
  intros Hr Hp. eapply runs_call; [by apply user_path_runs; [apply Hr|]| |by intros ? ? [-> _]]. intros r' name [-> _].
  eapply runs_call; [apply fs_call_runs, Hr| |by intros ? ? [-> _]]. intros r' a [-> _]. apply runs_ret. split; [done|].
  cbn [fits]. unfold MAX_RESULT. lia.
Qed.

Lemma change_dir_runs path len r : idle r → 0 <= path → runs r (change_dir me path len) finished.
Proof.
  intros Hr Hp. eapply runs_call; [by apply user_path_runs; [apply Hr|]| |by intros ? ? [-> _]]. intros r' name [-> _].
  apply runs_if; intros Hlen; [by apply runs_err|]. apply Z.ltb_ge in Hlen.
  eapply runs_call; [apply fs_call_runs, Hr| |by intros ? ? [-> _]]. intros r' a [-> _].
  eapply (runs_call _ _ _ (λ r' _, idle r')).
  - apply runs_locked; [apply Hr|]. intros k r0 HA <-. apply (wp_running [] r0 k k); [done|]. apply wp_modify.
    eexists. split; [by apply at_cwd|done].
  - intros r' _ Hr'. apply runs_ret. split; [done|]. cbn [fits]. unfold MAX_RESULT. lia.
  - by intros.
Qed.

Lemma current_dir_runs buf len r : idle r → 0 <= buf → runs r (current_dir me buf len) finished.
Proof.
  intros Hr Hp. apply runs_locked; [apply Hr|]. intros k r0 HA <-. apply (wp_running [] r0 k k); [done|].
  apply wp_if; intros _; [apply wp_fail; by exists r0|].
  eapply wp_call; [by apply (write_user_at buf _ [] r0 k k)| |intros k' e HA'; by exists r0].
  intros k' u HA'. apply wp_ret. exists r0. split; [done|]. split; [done|]. cbn [fits].
  pose proof (own_cwd me r0 (own_me _ _ _ _ _ _ HA)). unfold MAX_RESULT, MAX_PATH in *. lia.
Qed.

(** ** Reading and writing *)
Lemma opened_pipe r h e : Handles.get_mut (handles r) h = Ok (PipeHandle e) → PipeHandle e ∈ opens_of r.
Proof. intros Hg%get_opened. unfold opens_of. rewrite !elem_of_app. auto. Qed.

Lemma few_nil : few [].
Proof. unfold few. cbn. lia. Qed.

Lemma read_runs handle ptr len r : idle r → 0 <= ptr → runs r (read me handle ptr len) finished.
Proof.
  intros Hr Hptr. eapply (runs_call _ _ _ (same_as r (λ p, ∀ n, p = Some n → has_pipe n r))); [| |by intros ? ? [-> _]].
  - apply runs_locked; [apply Hr|]. intros k r0 HA <-. eapply wp_call; [by apply (get_handle_at handle [] r0 k k)| |].
    + intros k' o [-> Hg]. destruct o as [| | |e| |]; try (apply wp_ret; by apply (leaves_at r0 (λ p, ∀ n, p = Some n → has_pipe n (strip r0)))).
      destruct (decide _).
      * apply wp_ret. apply (leaves_at r0 (λ p, ∀ n, p = Some n → has_pipe n (strip r0))); [done|]. intros n [= <-]. exists e.
        split; [done|]. by apply (opened_pipe _ handle).
      * apply wp_fail. by apply leaves_at.
    + intros k' e ->. by apply leaves_at.
  - intros r' [p|] [-> Hp]; [by apply read_pipe_runs; [|apply Hp|]|].
    apply runs_locked; [apply Hr|]. intros k r0 HA <-.
    assert (Hfail : ∀ e, wp (fail e : M Z) k (λ k' a, leaves k finished k' (Ok a)) (λ k' e, leaves k finished k' (Err e)))
      by (intros; apply wp_fail; by exists r0).
    eapply wp_call; [by apply (get_handle_at handle [] r0 k k)| |intros k' e ->; by exists r0].
    intros k' o [-> Hg]. destruct o as [d pos| | | | |]; try apply Hfail.
    pose proof (opened_ok [] r0 k k _ HA (get_opened _ _ _ Hg)) as [Hd Hpos]. cbv zeta. apply wp_if; intros Hlt; [apply Nat.ltb_lt in Hlt; lia|].
    eapply wp_call; [by apply (write_user_at ptr _ [] r0 k k)| |intros k' e HA'; by exists r0].
    intros k' u HA'. set (count := (_ `min` _)%nat).
    eapply wp_call; [apply (set_handle_at handle (File d pos) (File d (pos + count)) [] [] r0 k k'); [done|done|done| |done|apply few_nil]| |done].
    + split; [done|]. unfold count. lia.
    + intros k'' u' [h HA'']. apply wp_ret. eexists. split; [exact HA''|]. split; [done|]. cbn [fits]. unfold MAX_RESULT, MAX_READ in *. lia.
Qed.

Lemma extend_spec d bytes held h d' answer : Z.of_nat (length (Buffer.data d)) <= Buffer.capacity d → 0 <= held <= Buffer.BUDGET + Buffer.most →
  Buffer.extend d bytes held = (h, d', answer) →
  Z.of_nat (length (Buffer.data d')) <= Buffer.capacity d' ∧ Buffer.capacity d <= Buffer.capacity d' ∧
  h = held + (Buffer.capacity d' - Buffer.capacity d) ∧ h <= Buffer.BUDGET + Buffer.most.
Proof.
  intros Hd Hheld. unfold Buffer.extend. destruct (Z.ltb_spec MAX_FILE (Z.of_nat (length (Buffer.data d)) + Z.of_nat (length bytes))).
  { intros [= <- <- _]. lia. }
  destruct (Z.ltb_spec (Buffer.capacity d) (Z.of_nat (length (Buffer.data d)) + Z.of_nat (length bytes))).
  - destruct (Buffer.take _ _) as [h0|e] eqn:Et; intros [= <- <- _]; [|lia]. apply Buffer.take_Ok in Et as [-> Hb].
    set (grown := Z.min _ _) in *. pose proof (Buffer.surplus_bound grown). pose proof Buffer.most_bound. cbn [Buffer.capacity Buffer.data].
    assert (Buffer.capacity d <= grown) by lia. rewrite wrap_small by (unfold uint, Buffer.BUDGET in *; lia). rewrite length_app. lia.
  - intros [= <- <- _]. cbn [Buffer.capacity Buffer.data]. rewrite length_app. lia.
Qed.

Lemma held_nonneg hand r k0 k : At hand r k0 k → 0 <= held k <= Buffer.BUDGET + Buffer.most.
Proof.
  intros HA. pose proof (at_inv _ _ _ _ _ _ HA) as HI. pose proof HI as (HC & _). split; [|apply HC]. rewrite (counted_held _ _ _ _ _ HC).
  pose proof (total_nonneg allocated (programs k) ltac:(intros t r' o; by apply (inv_allocated boot hand k))).
  pose proof (weight_nonneg allocated hand ltac:(intros o Ho; by apply (open_ok_allocated me), (at_hand _ _ _ _ _ _ HA))). lia.
Qed.

Lemma write_runs handle ptr len r : idle r → 0 <= ptr → runs r (write me handle ptr len) finished.
Proof.
  intros Hr Hptr. eapply (runs_call _ _ _ (same_as r (λ p, ∀ n, p = Some n → has_pipe n r))); [| |by intros ? ? [-> _]].
  - apply runs_locked; [apply Hr|]. intros k r0 HA <-. eapply wp_call; [by apply (get_handle_at handle [] r0 k k)| |intros k' e ->; by apply leaves_at].
    intros k' o [-> Hg]. destruct o as [| | |e| |]; try (apply wp_fail; by apply leaves_at).
    + destruct (decide _); [|apply wp_fail; by apply leaves_at].
      apply wp_ret. apply (leaves_at r0 (λ p, ∀ n, p = Some n → has_pipe n (strip r0))); [done|]. intros n [= <-]. exists e.
      split; [done|]. by apply (opened_pipe _ handle).
    + apply wp_ret. by apply (leaves_at r0 (λ p, ∀ n, p = Some n → has_pipe n (strip r0))).
  - intros r' [p|] [-> Hp]; [by apply write_pipe_runs; [|apply Hp|]|].
    eapply runs_call; [by apply copy_from_user_runs; [apply Hr|]| |by intros ? ? [-> _]]. intros r' bytes [-> Hb].
    apply runs_locked; [apply Hr|]. intros k r0 HA <-.
    eapply wp_call; [by apply (get_handle_at handle [] r0 k k)| |intros k' e ->; by exists r0].
    intros k' o [-> Hg]. destruct o as [| | | | |path d]; try (apply wp_fail; by exists r0).
    pose proof (opened_ok [] r0 k k _ HA (get_opened _ _ _ Hg)) as Hd. apply wp_get_bind.
    destruct (Buffer.extend _ _ _) as [[h d'] answer] eqn:Ex.
    destruct (extend_spec d bytes _ h d' answer Hd (held_nonneg _ _ _ _ HA) Ex) as (Hd' & Hgrow & -> & Hbud).
    apply wp_modify_bind. set (more := NewFile [] (Buffer.mkFileBuffer [] (Buffer.capacity d' - Buffer.capacity d))).
    assert (HA' : At [more] r0 k (with_held (held k + (Buffer.capacity d' - Buffer.capacity d)) k)).
    { apply (at_counted boot me [] [more] r0 k k _ HA); try done; [| |unfold few; cbn; lia].
      - apply (counted_more more); [apply (at_inv _ _ _ _ _ _ HA)|done|done|done].
      - intros o ->%list_elem_of_singleton. cbn. lia. }
    eapply wp_call; [apply (set_handle_at handle (NewFile path d) (NewFile path d') [more] [] r0 k _ HA' Hg); [|done|set_solver|apply few_nil]| |done].
    + split; [done|]. split; [|done]. rewrite !weight_cons. cbn. lia.
    + intros k' u [h' HA'']. destruct answer as [[]|e].
      * apply wp_ret_bind, wp_ret. eexists. split; [exact HA''|]. split; [done|]. cbn [fits]. unfold MAX_RESULT, MAX_WRITE in *. lia.
      * eexists. split; [exact HA''|]. done.
Qed.

Lemma read_dir_runs handle entry r : idle r → 0 <= entry → runs r (read_dir me handle entry) finished.
Proof.
  intros Hr Hp. apply runs_locked; [apply Hr|]. intros k r0 HA <-.
  eapply wp_call; [by apply (get_handle_at handle [] r0 k k)| |intros k' e ->; by exists r0].
  intros k' o [-> Hg]. destruct o as [|es pos| | | |]; try (apply wp_fail; by exists r0).
  destruct (es !! pos) as [next|]; [|apply wp_ret; exists r0; split; [done|]; split; [done|]; cbn; unfold MAX_RESULT; lia]. cbv zeta.
  eapply wp_call; [by apply (write_user_at entry _ [] r0 k k)| |intros k' e HA'; by exists r0]. intros k' u HA'.
  eapply wp_call; [by apply (set_handle_at handle (Dir es pos) (Dir es (pos + 1)) [] [] r0 k k'); [..|apply few_nil]| |done].
  intros k'' u' [h HA'']. apply wp_ret. eexists. split; [exact HA''|]. split; [done|]. cbn [fits]. unfold MAX_RESULT. lia.
Qed.

(** ** New pipes *)
Lemma at_new_pipe r k0 k p : At [] r k0 k → pipes k !! p = None →
  At [PipeHandle (mkPipeEnd p Pipe.Read); PipeHandle (mkPipeEnd p Pipe.Write)] r k0 (set_pipe p Pipe.pair k).
Proof.
  intros HA Hp. pose proof (at_inv _ _ _ _ _ _ HA) as (HC & _). set (e1 := mkPipeEnd p Pipe.Read). set (e2 := mkPipeEnd p Pipe.Write).
  apply (at_counted boot me [] _ r k0 k _ HA); try done;
    [|intros o [->|[->|[]%not_elem_of_nil]%elem_of_cons]%elem_of_cons; done|unfold few; cbn; lia].
  apply (counted_pipe []); [done| | |by vm_compute|done|done].
  - intros e He. pose proof (counted_ends _ _ _ _ _ HC e) as Hx. rewrite He, Hp in Hx. cbn [weight foldr] in Hx. rewrite !weight_cons.
    destruct e as [p' []]; cbn [of_pipe which] in *; subst p'; unfold e1, e2; rewrite ends_self, ends_other by done;
      change (weight _ []) with 0; cbn [Pipe.count Pipe.pair Pipe.readers Pipe.writers]; lia.
  - intros e He. rewrite !weight_cons, !ends_other; [done|..]; intros <-; by apply He.
Qed.

Lemma fresh_pipe k : pipes k !! (fresh (dom (pipes k))) = None.
Proof. apply not_elem_of_dom, is_fresh. Qed.

Lemma pipe_runs ends_at r : idle r → 0 <= ends_at → runs r (pipe me ends_at) finished.
Proof.
  intros Hr Hp. apply runs_locked; [apply Hr|]. intros k r0 HA <-. apply (wp_running [] r0 k k); [done|].
  apply wp_if; intros _; [apply wp_fail; by exists r0|]. apply wp_get_bind.
  pose proof (at_new_pipe r0 k k _ HA (fresh_pipe k)) as HA1. set (p := fresh _) in *.
  set (e1 := mkPipeEnd p Pipe.Read) in *. set (e2 := mkPipeEnd p Pipe.Write) in *. apply wp_modify_bind.
  apply wp_bind, wp_catch. eapply wp_mono; [exact (insert_handle_at (PipeHandle e1) [PipeHandle e2] r0 k _ HA1)| |].
  2: { intros k' e [HA' _]. apply wp_modify_bind, wp_fail. exists r0. split; [|done]. by apply (at_drop boot me (PipeHandle e2)). }
  intros k' reader (h & HA' & _).
  eapply wp_call; [exact (insert_handle_at (PipeHandle e2) [] _ k k' HA')| |intros k'' e [HA'' _]; eexists; split; [exact HA''|done]].
  intros k'' writer (h' & HA'' & _). set (r1 := with_handles h' _) in *.
  apply wp_bind, wp_catch. eapply wp_mono; [by apply (write_user_at ends_at _ [] r1 k k'')| |].
  { intros k3 u HA3. apply wp_ret. exists r1. split; [done|]. split; [done|]. cbn [fits]. unfold MAX_RESULT. lia. }
  intros k3 e HA3.
  assert (Hundo : ∀ x ra ka (g : unit → M Z) Q R, At [] ra k ka → (∀ rb kb, At [] rb k kb → locals rb = locals ra → wp (g tt) kb Q R) →
    wp (o ← catch (take_handle me x); _ ← match o with Ok o => modify (drop_open o) | Err _ => mret tt end; g tt) ka Q R).
  { intros x ra ka g Q R Hra Hg. apply wp_bind, wp_catch. eapply wp_mono; [apply (take_handle_at x [] ra k ka Hra); cbn; lia| |].
    - intros kb o (hb & Hb & _). apply wp_modify_bind. apply (Hg (with_handles hb ra)); [by apply at_drop|done].
    - intros kb e' ->. apply wp_ret_bind. by apply (Hg ra). }
  apply (Hundo reader r1 k3 (λ _, _)); [done|]. intros rb kb Hb Elb. apply (Hundo writer rb kb (λ _, _)); [done|]. intros rc kc Hc Elc.
  apply wp_fail. exists rc. split; [done|]. split; [|done]. split; [apply Hc|]. change (locals rc = []). rewrite Elc, Elb. apply Hr.
Qed.

Lemma stream_for_at handle w hand r k0 k : At hand r k0 k → (length hand < 64)%nat →
  wp (stream_for me handle w) k (λ k' s, At (stream_opens s ++ hand) r k0 k') (λ k' _, k' = k).
Proof.
  intros HA Hl. unfold stream_for. apply (wp_running hand r k0 k); [done|].
  assert (Hin : stream_opens (io_input (io r)) ⊆ opens_of r) by (intros x Hx; unfold opens_of; rewrite !elem_of_app; auto).
  assert (Hout : stream_opens (io_output (io r)) ⊆ opens_of r) by (intros x Hx; unfold opens_of; rewrite !elem_of_app; auto).
  apply wp_if; intros _; [apply wp_modify_bind, wp_ret; by apply at_duplicate_stream|].
  apply wp_if; intros _; [apply wp_modify_bind, wp_ret; by apply at_duplicate_stream|].
  eapply wp_call; [by apply (get_handle_at handle hand r k0 k)| |done]. intros k' o [-> Hg].
  destruct o as [| | |e| |]; try by apply wp_fail. destruct (decide _); [|by apply wp_fail]. apply wp_modify_bind, wp_ret.
  apply (at_duplicate boot me e); [done|by apply (opened_pipe r handle)|done].
Qed.

(** ** The screen *)
Lemma lend_at r k0 k : At [] r k0 k → wp lend k (λ k' '(w, h), At [Screen w h] r k0 k') (λ k' (_ : Errno.Errno), k' = k).
Proof.
  intros HA. unfold lend. apply wp_get_bind. destruct (if busy k then None else screen k) as [[w h]|]; [|by apply wp_fail].
  destruct (lent k) eqn:El; [by apply wp_fail|]. apply wp_modify_bind, wp_ret. pose proof (at_inv _ _ _ _ _ _ HA) as (HC & _).
  apply (at_counted boot me [] [Screen w h] r k0 k _ HA); try done; [|by intros o ->%list_elem_of_singleton|unfold few; cbn; lia].
  destruct HC as [C1 C2 C3 C4 C5]. rewrite El in C5. split; [done..|]. rewrite weight_cons. cbn [lent with_lent screens]. lia.
Qed.

Lemma open_screen_runs size r : idle r → 0 <= size → runs r (open_screen me size) finished.
Proof.
  intros Hr Hp. apply runs_locked; [apply Hr|]. intros k r0 HA <-. apply (wp_running [] r0 k k); [done|].
  apply wp_if; intros _; [apply wp_fail; by exists r0|].
  eapply wp_call; [by apply (lend_at r0 k k)| |intros k' e ->; by exists r0]. intros k' [w h] HA'. cbv zeta.
  apply wp_bind, wp_catch. eapply wp_mono; [by apply (write_user_at size _ [Screen w h] r0 k k')| |].
  - intros k'' u HA''. eapply wp_mono; [by apply (insert_handle_at (Screen w h) [] r0 k k'')| |].
    + intros k3 n (h' & HA3 & Hn). eexists. split; [exact HA3|done].
    + intros k3 e [HA3 _]. by exists r0.
  - intros k'' e HA''. apply wp_modify_bind, wp_fail. exists r0. split; [|done]. by apply (at_drop boot me (Screen w h)).
Qed.

Lemma draw_rows_runs n i handle x y row_bytes pixels width r : idle r → 0 <= i → 0 <= row_bytes → 0 <= pixels →
  runs r (draw_rows me n i handle x y row_bytes pixels width) finished.
Proof.
  intros Hr Hi Hb Hp. revert i Hi. induction n as [|n IH]; intros i Hi; cbn [draw_rows].
  { apply runs_ret. split; [done|]. cbn. unfold MAX_RESULT. lia. }
  apply runs_if; intros _; [by apply runs_err|].
  eapply runs_call; [apply copy_from_user_runs; [apply Hr|nia]| |by intros ? ? [-> _]]. intros r' row [-> _].
  eapply (runs_call _ _ _ (same_as r (λ _, True))); [| |by intros ? ? [-> _]].
  - apply runs_locked; [apply Hr|]. intros k r0 HA <-. apply wp_bind, wp_catch.
    eapply wp_mono; [by apply (get_handle_at handle [] r0 k k)| |intros k' e ->; apply wp_fail; by apply leaves_at].
    intros k' o [-> _]. destruct o; try (apply wp_fail; by apply leaves_at). apply wp_modify. apply (leaves_at r0 (λ _, True)); [|done].
    unfold draw_row. destruct (busy k); [done|]. by apply (at_same boot me [] r0 k k).
  - intros r' _ [-> _]. apply IH. lia.
Qed.

Lemma draw_runs handle x y width height pixels r : idle r → 0 <= width → 0 <= pixels →
  runs r (draw me handle x y width height pixels) finished.
Proof.
  intros Hr Hw Hp. eapply (runs_call _ _ _ (same_as r (λ _, True))); [| |by intros ? ? [-> _]].
  - apply runs_locked; [apply Hr|]. intros k r0 HA <-.
    eapply wp_call; [by apply (get_handle_at handle [] r0 k k)| |intros k' e ->; by apply leaves_at].
    intros k' o [-> _]. destruct o; try (apply wp_fail; by apply leaves_at). apply wp_ret. by apply (leaves_at r0 (λ _, True)).
  - intros r' [sw sh] [-> _]. cbv zeta. apply runs_if; intros _; [by apply runs_err|]. apply draw_rows_runs; [done|lia|lia|done].
Qed.

(** ** Closing and waiting *)
Lemma drop_locals_runs r : listed r = true → runs r (locked (drop_locals me)) (λ r' a, r' = with_locals [] r ∧ a = Ok tt).
Proof.
  intros Hl. section k r0 HA. eapply wp_mono; [apply (drop_locals_at [] r0 k k HA); cbn; lia| |done].
  intros k' [] HA'. by exists (with_locals [] r0).
Qed.

Lemma close_runs handle r : idle r → runs r (close me handle) finished.
Proof.
  intros [Hl Hlo]. eapply (runs_call _ _ _ (λ r' a, listed r' = true ∧ match a with Ok _ => True | Err _ => locals r' = [] end)).
  - section k r0 HA. eapply wp_call; [apply (take_handle_at handle [] r0 k k HA); cbn; lia| |intros k' e ->; by exists r0].
    intros k' o (h & HA' & _). eapply wp_call; [apply (hold_at [o] [] (with_handles h r0) k k' HA')| |done].
    + change (locals (with_handles h r0)) with (locals (strip r0)). rewrite Hlo. cbn. unfold MAX_LOCALS. lia.
    + intros k'' u HA''. apply wp_ret. eexists. split; [exact HA''|done].
  - intros r1 o [Hl1 _].
    assert (Hdone : ∀ a : result Errno.Errno Z, fits a → runs r1 (_ ← locked (drop_locals me); match a with Ok v => mret v | Err e => err e end) finished).
    { intros a Ha. eapply runs_call; [by apply drop_locals_runs| |by intros ? ? [_ ?]]. intros r2 u [-> _].
      destruct a; [by apply runs_ret|by apply runs_err]. }
    assert (Hzero : fits (Ok 0)) by (cbn; unfold MAX_RESULT; lia).
    destruct o as [| | | | |path d]; try exact (Hdone (Ok 0) Hzero).
    apply runs_bind, runs_attempt. eapply runs_mono; [by apply fs_call_runs|]. intros r2 answer [-> _].
    destruct answer as [u|e]; [exact (Hdone (Ok 0) Hzero)|exact (Hdone (Err e) I)].
  - intros r1 e [? ?]. done.
Qed.

Lemma status_fits status : fits (Ok (ExitStatus.encode status)).
Proof.
  destruct status as [code| |]; cbn [fits ExitStatus.encode]; [|by vm_compute..].
  change (Z.shiftl ExitStatus.STATUS_CODE 32) with 0. rewrite Z.lor_0_l. destruct (wrap_uint 32 code) as [? Hw]; [done|]. unfold MAX_RESULT. lia.
Qed.

Lemma wait_runs handle r : idle r → runs r (wait me handle) finished.
Proof.
  intros Hr. eapply (runs_call _ _ _ (λ r' _, idle r')); [| |by intros].
  - apply runs_locked; [apply Hr|]. intros k r0 HA <-.
    eapply wp_call; [by apply (get_handle_at handle [] r0 k k)| |intros k' e ->; by exists r0].
    intros k' o [-> Hg]. destruct o as [| |c| | |]; try (apply wp_fail; by exists r0).
    eapply wp_call; [apply (take_handle_at handle [] r0 k k HA); cbn; lia| |intros k' e ->; by exists r0].
    intros k' o (h & HA' & Hg'). rewrite Hg in Hg'. injection Hg' as <-.
    assert (Hc : (me < id c)%nat) by exact (at_hand _ _ _ _ _ _ HA' (Child c) ltac:(by left)).
    apply (wp_running [Child c] (with_handles h r0) k k' _ _ _ HA'). apply wp_modify_bind, wp_ret. exists (with_waiting (Some (id c)) (with_handles h r0)). split; [|done].
    apply at_waiting; [by apply (at_drop boot me (Child c))|]. by intros c' [= <-].
  - intros r1 c Hr1. apply runs_bind, runs_wait.
    eapply (runs_call _ _ _ (same_as r1 (λ _, True))); [| |by intros ? ? [-> _]].
    { apply runs_locked; [apply Hr1|]. intros k r0 HA <-. apply wp_get_bind, wp_ret. by apply (leaves_at r0 (λ _, True)). }
    intros r2 exit [-> _]. eapply (runs_call _ _ _ (λ r' _, idle r')); [| |by intros].
    { apply runs_locked; [apply Hr1|]. intros k r0 HA <-. apply (wp_running [] r0 k k); [done|]. apply wp_modify.
      eexists. split; [by apply at_waiting|done]. }
    intros r3 _ Hr3. apply runs_ret. split; [done|]. apply status_fits.
Qed.

(** ** Children *)
Lemma at_perm hand hand' r k0 k : At hand r k0 k → hand' ≡ₚ hand → At hand' r k0 k.
Proof.
  intros HA Hp. apply (at_counted boot me hand hand' r k0 k k HA); try done.
  - apply (counted_same hand); [apply (at_inv _ _ _ _ _ _ HA)|by apply same_perm].
  - intros o. rewrite Hp. apply (at_hand _ _ _ _ _ _ HA).
  - unfold few. rewrite Hp. apply (at_few _ _ _ _ _ _ HA).
Qed.

Lemma stream_length x : (length (stream_opens x) ≤ 1)%nat.
Proof. destruct x; cbn; lia. Qed.

(** The streams of a child, held until it starts. *)
Definition held_streams (i : Io) : list Open := stream_opens (io_input i) ++ stream_opens (io_output i).

Lemma streams_length i : (length (held_streams i) ≤ 2)%nat.
Proof. unfold held_streams. rewrite length_app. pose proof (stream_length (io_input i)). pose proof (stream_length (io_output i)). lia. Qed.

Lemma take_streams_runs input output r : idle r →
  runs r (locked (r ← running me;
                  if negb (Handles.has_room (handles r)) then fail Errno.TooMany else
                  i ← stream_for me input Pipe.Read;
                  o ← catch (stream_for me output Pipe.Write);
                  match o with
                  | Err e => _ ← modify (drop_stream i); fail e
                  | Ok o => _ ← hold me (stream_opens i ++ stream_opens o); mret (mkIo i o, cwd r)
                  end))
    (λ r' a, match a with
             | Ok (i, d) => r' = with_locals (held_streams i) r ∧ Z.of_nat (length d) <= MAX_PATH
             | Err _ => r' = r
             end).
Proof.
  intros [Hl Hlo]. section k r0 HA. apply (wp_running [] r0 k k); [done|]. apply wp_if; intros _; [apply wp_fail; by exists r0|].
  eapply wp_call; [apply (stream_for_at input Pipe.Read [] r0 k k HA); cbn; lia| |intros k' e ->; by exists r0].
  intros k1 i HA1. apply wp_bind, wp_catch. pose proof (stream_length i) as Hi.
  eapply wp_mono; [apply (stream_for_at output Pipe.Write _ r0 k k1 HA1); rewrite app_nil_r; lia| |].
  - intros k2 o HA2. pose proof (stream_length o) as Ho. change (locals (strip r0)) with (locals r0) in Hlo.
    assert (HA3 : At ((stream_opens i ++ stream_opens o) ++ []) r0 k k2).
    { apply (at_perm _ _ _ _ _ HA2). rewrite !app_nil_r. by rewrite Permutation_app_comm. }
    eapply wp_call; [apply (hold_at _ [] r0 k k2 HA3)| |done].
    + rewrite Hlo, app_nil_r, length_app. unfold MAX_LOCALS. lia.
    + intros k3 u HA4. rewrite Hlo, app_nil_r in HA4. apply wp_ret. eexists. split; [exact HA4|]. split; [done|].
      apply (own_cwd me r0 (own_me _ _ _ _ _ _ HA)).
  - intros k2 e ->. apply wp_modify_bind, wp_fail. exists r0. split; [|done]. by apply (at_drop_stream boot me i).
Qed.

Context (image kernel_table : list Z).
Context (image_fits : 0 < Z.of_nat (length image) <= PROGRAM_END - USER_BASE) (table_ok : Paging.kernel_ok kernel_table).

Lemma born_others k k' : born k k' → Tasks (programs k) (tasks k) → others me k k'.
Proof.
  intros (Ht & Hu & r & Hp & Hl & Hlo) HT. split; [lia| | |].
  - intros t _ Hlt. rewrite Hp, lookup_insert_ne by lia. done.
  - intros t r0 x _ Hr0. by apply (Hu t r0).
  - intros t r0 Hge _ Hr0. rewrite Hp in Hr0. apply lookup_insert_Some in Hr0 as [[<- <-]|[_ Hr0]]; [done|]. destruct (HT t r0 Hr0). lia.
Qed.

Lemma stillborn_others k k' : stillborn k k' → Tasks (programs k) (tasks k) → others me k k'.
Proof. intros (Ht & Hp & Hu) HT. apply others_step; [done|done|by rewrite Hp|]. intros t r0 x _ Hr0. by apply (Hu t r0). Qed.

Lemma start_child_at name p args streams d bytes r k0 k : At (held_streams streams) r k0 k → Elf.program_ok bytes p →
  Z.of_nat (length d) <= MAX_PATH →
  wp (start_child image kernel_table me name p args streams d) k (λ k' c, At [] r k0 k' ∧ (me < id c)%nat) (λ k' _, At [] r k0 k').
Proof.
  intros HA Hp Hd. pose proof (at_inv _ _ _ _ _ _ HA) as HI. pose proof HI as (_ & _ & _ & HT).
  destruct (HT me r (at_me _ _ _ _ _ _ HA)) as [Hme _]. unfold wp, start_child.
  pose proof (spawn_with_spec boot image kernel_table image_fits table_ok name (ElfImage p) args streams (Some me) d [] k) as Hs.
  unfold wp in Hs. rewrite app_nil_r in Hs. specialize (Hs ltac:(by exists bytes) Hd HI).
  destruct (spawn_with _ _ _ _ _ _ _ _ k) as [k' c|k' e|]; [| |done].
  - destruct Hs as (HI' & Hid & Hb). split; [|by rewrite Hid]. apply (at_step boot me _ [] r r k0 k k' HA HI'); [by apply born_others| |apply HA|by intros o []%not_elem_of_nil|apply few_nil].
    destruct Hb as (_ & Hu & _). apply (Hu me r), (at_me _ _ _ _ _ _ HA).
  - destruct Hs as (HI' & Hb). apply at_drop_stream. rewrite app_nil_r. apply at_drop_stream.
    apply (at_step boot me (held_streams streams) (held_streams streams) r r k0 k k' HA HI'); [by apply stillborn_others| |apply HA|apply HA|apply HA].
    destruct Hb as (_ & _ & Hu). apply (Hu me r), (at_me _ _ _ _ _ _ HA).
Qed.

(** The program file read, checked and started; the call still has the file, and the streams if it failed. *)
Lemma load_child_runs path args streams d r : listed r = true → locals r = held_streams streams → Z.of_nat (length d) <= MAX_PATH →
  runs r (v ← fs_call (fs_read_file path);
          file ← adopt me v;
          match Elf.parse (Buffer.data file) with
          | Err _ => err Errno.NotExecutable
          | Ok program =>
            let name := default path (last (split 0x2F path)) in
            locked (_ ← moved me [File file 0]; start_child image kernel_table me name program args streams d)
          end)
    (λ r' a, listed r' = true ∧ match a with Ok c => (me < id c)%nat | Err _ => True end).
Proof.
  intros Hl Hlo Hd. eapply runs_call; [by apply fs_call_runs| |by intros ? ? [-> _]]. intros r1 v [-> (f & f' & Hv)].
  destruct (fs_file_fits _ _ _ _ Hv) as [Hcap Hbytes].
  eapply runs_call; [apply adopt_runs; [done|done|rewrite Hlo; apply streams_length]| |by intros r2 e ->].
  intros r2 file [-> ->]. destruct (Elf.parse (Buffer.data v)) as [p|e] eqn:Ep; [|by apply runs_err].
  apply (Elf.parse_ok _ _ Hbytes) in Ep. cbv zeta. apply runs_locked; [done|]. intros k r0 HA Hr0.
  assert (Hlo0 : locals r0 = File v 0 :: held_streams streams) by (change (locals r0) with (locals (strip r0)); by rewrite Hr0, <-Hlo).
  eapply wp_call; [apply (moved_at [File v 0] (held_streams streams) [] r0 k k HA); [by rewrite Hlo0|cbn; lia]| |done].
  intros k' u HA'. cbv beta in HA'. rewrite app_nil_r in HA'.
  eapply wp_mono; [exact (start_child_at _ p args streams d _ _ k k' HA' Ep Hd)| |].
  - intros k'' c [HA'' Hc]. eexists. split; [exact HA''|]. split; [apply HA|done].
  - intros k'' e HA''. eexists. split; [exact HA''|]. split; [apply HA|done].
Qed.

Lemma insert_child_runs c r : listed r = true → (me < id c)%nat →
  runs r (locked (insert_handle me (Child c))) (λ r' a, listed r' = true ∧ fits a).
Proof.
  intros Hl Hc. section k r0 HA. eapply wp_mono; [apply (insert_handle_at (Child c) [] r0 k k)| |].
  - apply (at_counted boot me [] [Child c] r0 k k _ HA); try done; [|by intros o ->%list_elem_of_singleton|unfold few; cbn; lia].
    apply (counted_same []); [apply (at_inv _ _ _ _ _ _ HA)|done].
  - intros k' n (h & HA' & Hn). eexists. split; [exact HA'|done].
  - intros k' e [HA' _]. by exists r0.
Qed.

Lemma spawn_runs path path_len args args_len input output r : idle r → 0 <= path → 0 <= args →
  runs r (spawn image kernel_table me path path_len args args_len input output) finished.
Proof.
  intros Hr Hp Ha. eapply runs_call; [by apply user_path_runs; [apply Hr|]| |by intros ? ? [-> _]]. intros r' name [-> _].
  eapply runs_call; [by apply user_string_runs; [apply Hr|]| |by intros ? ? [-> _]]. intros r' argv [-> _].
  eapply runs_call; [by apply take_streams_runs| |by intros ? ? ->]. intros r' [streams d] [-> Hd].
  apply runs_bind, runs_attempt. eapply runs_mono; [apply load_child_runs; [apply Hr|done|done]|]. intros r1 started [Hl1 Hs].
  eapply (runs_call _ _ _ (λ r' a, listed r' = true ∧ match a with Ok a => fits a | Err _ => False end)); [| |by intros ? ? [_ []]].
  - destruct started as [c|e]; [apply runs_attempt; by apply insert_child_runs|by apply runs_ret].
  - intros r2 answer [Hl2 Hf]. eapply runs_call; [by apply drop_locals_runs| |by intros ? ? [_ ?]]. intros r3 u [-> _].
    destruct answer; [by apply runs_ret|by apply runs_err].
Qed.

(** ** Exits *)
Lemma view_Some k r : view me k = Some r → ∃ r0, programs k !! me = Some r0 ∧ strip r0 = r.
Proof. unfold view. destruct (programs k !! me) as [r0|]; [|done]. intros [= <-]. eauto. Qed.

(** A section that changes none of what is counted. *)
Lemma sound_aside {A} o (f : Kernel → Kernel) (c : Kernel → Call A) Q :
  (∀ k, programs (f k) = programs k ∧ machine (f k) = machine k ∧ asids (f k) = asids k ∧ tasks (f k) = tasks k ∧
        pipes (f k) = pipes k ∧ held (f k) = held k ∧ lent (f k) = lent k) →
  (∀ k, sound o (c k) Q) → sound o (Locked (λ k, (f k, c k))) Q.
Proof.
  intros Hf Hc k HI Hv. destruct (Hf k) as (Hp & Hm & Ha & Ht & H1 & H2 & H3). split; [|split].
  - unfold Inv. by rewrite Hp, Hm, Ha, Ht, H1, H2, H3.
  - apply others_step; [apply HI|done|by rewrite Hp|by rewrite Hm].
  - unfold view in *. by rewrite Hp, Hv.
Qed.

(** Ending: the program is gone, and all it had. *)
Lemma exit_sound {A} status r (Q : option Running → A → Prop) : idle r → sound (Some r) (exit_program me status) Q.
Proof.
  intros [Hl Hlo] k HI Hv. destruct (view_Some k r Hv) as (r0 & Hr0 & <-). unfold lookup_program. rewrite Hr0.
  change (listed r0 = true) in Hl. rewrite Hl. pose proof HI as (HC & HM & HT & HK).
  destruct (HK me r0 Hr0) as [Hme HO]. split; [|split].
  - split; [|split; [|split]].
    + apply (counted_update [] [] _ _ _ _ me r0); [done|done|done].
    + destruct (mem_rep _ _ _ HM me r0 Hr0) as (P & HR & Hin).
      apply (memories_update boot _ (machine k) _ me r0 _ P); [done|done|by apply (acts_refl _ _ P)|done|done].
    + by apply (tags_update _ _ me r0).
    + apply tasks_update; [done|done|]. by destruct HO.
  - apply others_step; [done|done| |done]. intros t Hne. by apply lookup_insert_ne.
  - unfold view. change (programs (set_program me ?r k)) with (<[me := r]> (programs k)). rewrite lookup_insert_eq.
    apply sound_aside; [done|]. intros k1. apply (sound_aside _ (λ k, if negb (watched me r0 k) || is_crash status then report (me, name r0, status) k else k)).
    { intros k2. by destruct (negb _ || _). }
    intros k2 k3 HI3 Hv3. destruct (view_Some k3 _ Hv3) as (r3 & Hr3 & Hs3). rewrite Hr3.
    destruct (drop_running_spec boot me r3 k3 HI3 Hr3) as (k4 & -> & HI4 & Hp4 & Ho4).
    { change (locals r3) with (locals (strip r3)). by rewrite Hs3. }
    split; [done|]. split; [done|]. cbn [sound]. unfold view. rewrite Hp4. by rewrite lookup_delete_eq.
Qed.

(** ** Traps *)

(** A call whose arguments are unsigned. *)
Definition unsigned (call : Syscall.Syscall) : Prop := Forall (λ x, 0 <= x) (Syscall.args_list (Syscall.encode call)).

Lemma decode_unsigned registers call : Forall (uint 64) (Syscall.args_list registers) → Syscall.decode registers = Ok call → unsigned call.
Proof.
  destruct registers as [n [[[[[a0 a1] a2] a3] a4] a5]]. intros Ha Hd. unfold Syscall.args_list in Ha. cbn [Syscall.r_args] in Ha.
  rewrite !Forall_cons in Ha. destruct Ha as ([? _] & [? _] & [? _] & [? _] & [? _] & [? _] & _).
  unfold Syscall.decode in Hd. cbn [Syscall.r_args Syscall.r_number] in Hd. apply bind_Ok in Hd as (num & _ & Hd).
  unfold unsigned. destruct num; try (apply bind_Ok in Hd as (c & _ & Hd)); injection Hd as <-;
    unfold Syscall.args_list, Syscall.encode; cbn [Syscall.r_args]; rewrite !Forall_cons, Forall_nil; split_and!; try done; try lia.
  by apply wrap_uint.
Qed.

Lemma syscall_runs call r : idle r → unsigned call → runs r (syscall image kernel_table me call) finished.
Proof.
  intros Hr Ha. unfold unsigned, Syscall.args_list, Syscall.encode in Ha.
  assert (Hzero : runs r (mret 0 : Sys Z) finished) by (apply runs_ret; split; [done|cbn; unfold MAX_RESULT; lia]).
  destruct call; cbn [Syscall.r_args] in Ha; rewrite !Forall_cons in Ha; destruct Ha as (? & ? & ? & ? & ? & ? & _); cbn [syscall].
  - by apply exit_sound.
  - apply runs_if; intros _; [by apply write_output_runs|by apply write_runs].
  - done.
  - done.
  - apply runs_bind, runs_given. intros l Hl. apply runs_ret. split; [done|]. destruct l as [|t [|? ?]]; [done| |done].
    apply andb_true_iff in Hl as [?%Z.leb_le ?%Z.leb_le]. done.
  - by apply map_runs.
  - apply runs_if; intros _; [by apply read_input_runs|by apply read_runs].
  - by apply random_runs.
  - by apply open_runs.
  - by apply open_dir_runs.
  - by apply read_dir_runs.
  - by apply close_runs.
  - by apply spawn_runs.
  - by apply wait_runs.
  - by apply pipe_runs.
  - by apply open_screen_runs.
  - by apply draw_runs.
  - by apply create_runs.
  - by apply on_path_runs.
  - by apply on_path_runs.
  - by apply change_dir_runs.
  - by apply current_dir_runs.
Qed.

(** What the program resumes with: it is in the table, and no call of it is left. *)
Definition resumes (o : option Running) (_ : option Z) : Prop := ∃ r, o = Some r ∧ idle r.

Lemma fits_encodes a : fits a → is_Some (encode_result a).
Proof. destruct a as [v|e]; [|by eexists]. cbn [fits encode_result]. intros [_ Hv]. rewrite (proj2 (Z.leb_le _ _) Hv). by eexists. Qed.

Lemma on_user_sync_sound fault registers r : idle r → Forall (uint 64) (Syscall.args_list registers) →
  sound (Some r) (on_user_sync image kernel_table me fault registers) resumes.
Proof.
  intros Hr Ha. unfold on_user_sync. destruct (_ =? CLASS_FP); [by exists r|]. destruct (_ || _); [by apply exit_sound|].
  apply sound_bind. eapply (sound_mono _ _ (λ o a, ∃ r', o = Some r' ∧ finished r' a)).
  - destruct (Syscall.decode registers) as [call|e] eqn:Ed; [|by exists r].
    apply (syscall_runs call r Hr), (decode_unsigned registers call Ha Ed).
  - intros o a (r1 & -> & Hr1 & Hf). destruct (fits_encodes a Hf) as [x0 ->]. intros k HI Hv.
    assert (Ho : others me k k) by apply others_refl, HI. destruct (was_killed me k); (split; [done|]; split; [done|]); rewrite Hv.
    + by apply exit_sound.
    + by exists r1.
Qed.
End calls.
End Calls.
