(* ===== verification/System.v ===== *)
(** All programs together: user code, system calls interleaved section by section, kills, typed lines, the shell's
    programs and other tasks, as steps of one system; and what holds in every state it can reach. *)
From S2P Require Import Prelude Bytes Abi Frames Paging Elf Link Path Process Effect Fat Fs Spaces Programs Launch Ownership Lifetimes Calls.
Import layout.
Open Scope Z_scope.

Module System.
Import Effect Programs Spaces Launch Ownership Lifetimes Calls.

Section system.
Context `{allocator : !Buffer.Allocator} {Src : Type} `{FrameSource Src} {FS E : Type} `{Files FS E}.
Local Notation Kernel := (Kernel (Src := Src) (FS := FS)).
Local Notation Call := (Call (Src := Src) (FS := FS)).

(** The image of the built-in programs, the kernel's table, and what [Vec] allocates beyond what is asked for. *)
Context (image kernel_table : list Z).

(** [calls] has the system calls in progress; [redirects] the programs that were killed while at EL0, which go to
    [exit_killed] when they next would resume there. *)
Record System := mkSystem { kernel : Kernel; calls : gmap TaskId (Call (option Z)); redirects : gset TaskId }.

(** Who makes a step: a program, or the rest of the kernel. *)
Inductive Actor := Program (t : TaskId) | Outside.

Definition with_tasks n (k : Kernel) : Kernel :=
  mkKernel (machine k) (asids k) (programs k) (starts k) n (exits k) (pipes k) (held k) (fs k) (screen k) (busy k) (lent k) (drawn k) (printed k) (reports k).
Definition with_screen s b (k : Kernel) : Kernel :=
  mkKernel (machine k) (asids k) (programs k) (starts k) (tasks k) (exits k) (pipes k) (held k) (fs k) s b (lent k) (drawn k) (printed k) (reports k).

(** [t] runs user code, or would if it had a core. *)
Definition at_user (t : TaskId) (s : System) (r : Running) : Prop := programs (kernel s) !! t = Some r ∧ calls s !! t = None.

(** Where [kill] leaves a program that is at EL0, or on a core: sent to [exit_killed]. *)
Definition redirected (t : TaskId) (on_core : bool) (s : System) : gset TaskId :=
  if on_core || bool_decide (calls s !! t = None) then {[t]} ∪ redirects s else redirects s.

Inductive step : Actor → System → System → Prop :=
| step_trap s t r fault registers : at_user t s r → Forall (uint 64) (Syscall.args_list registers) →
    step (Program t) s (mkSystem (kernel s) (<[t := on_user_sync image kernel_table t fault registers]> (calls s)) (redirects s))
| step_store s t r x v p : at_user t s r → Paging.translate x (memory r) (Paging.mem (machine (kernel s))) = Some (p, Paging.ReadWrite) →
    step (Program t) s
      (mkSystem (with_machine (Paging.with_mem (Paging.store p [v] (Paging.mem (machine (kernel s)))) (machine (kernel s))) (kernel s)) (calls s) (redirects s))
| step_section s t section k c : calls s !! t = Some (Locked section) → section (kernel s) = (k, c) →
    step (Program t) s (mkSystem k (<[t := c]> (calls s)) (redirects s))
| step_wake s t ready c : calls s !! t = Some (Until ready c) → ready (kernel s) = true →
    step (Program t) s (mkSystem (kernel s) (<[t := c]> (calls s)) (redirects s))
| step_given s t possible c l : calls s !! t = Some (Given possible c) → possible l = true →
    step (Program t) s (mkSystem (kernel s) (<[t := c l]> (calls s)) (redirects s))
| step_return s t x0 : calls s !! t = Some (Done x0) →
    step (Program t) s (mkSystem (kernel s) (delete t (calls s)) (redirects s))
| step_gone s t : calls s !! t = Some Gone →
    step (Program t) s (mkSystem (kernel s) (delete t (calls s)) (redirects s))
| step_redirect s t r : at_user t s r → t ∈ redirects s →
    step (Program t) s (mkSystem (kernel s) (<[t := exit_program t Killed]> (calls s)) (redirects s ∖ {[t]}))
| step_kill s t on_core k : kill t (kernel s) = Ret k tt →
    step Outside s (mkSystem k (calls s) (redirected t on_core s))
| step_line s t line k d : send_line t line (kernel s) = Ret k d →
    step Outside s (mkSystem k (calls s) (redirects s))
| step_spawn s name code args cwd k p : image_ok code → Z.of_nat (length cwd) <= MAX_PATH →
    spawn_program image kernel_table name code args cwd (kernel s) = Ret k p →
    step Outside s (mkSystem k (calls s) (redirects s))
| step_spawn_fails s name code args cwd k e : image_ok code → Z.of_nat (length cwd) <= MAX_PATH →
    spawn_program image kernel_table name code args cwd (kernel s) = Fail k e →
    step Outside s (mkSystem k (calls s) (redirects s))
| step_task s : step Outside s (mkSystem (with_tasks (S (tasks (kernel s))) (kernel s)) (calls s) (redirects s))
| step_screen s size locked : step Outside s (mkSystem (with_screen size locked (kernel s)) (calls s) (redirects s))
| step_files s f : step Outside s (mkSystem (with_fs f (kernel s)) (calls s) (redirects s)).

(** Before any program: the frames in use are the kernel's own. *)
Definition boot_kernel (c : Paging.Machine (Src := Src)) (n : nat) (f : FS) : Kernel :=
  mkKernel c boot_asids ∅ ∅ n [] ∅ 0 f None false false [] [] [].

Inductive reachable (c : Paging.Machine (Src := Src)) : System → Prop :=
| reachable_start n f : reachable c (mkSystem (boot_kernel c n f) ∅ ∅)
| reachable_step a s s' : reachable c s → step a s s' → reachable c s'.

(** * Executions
    One step at a time as functions, which change nothing where there is no such step. *)
Definition trap (t : TaskId) (fault : Fault) (registers : Syscall.Registers) (s : System) : System :=
  match programs (kernel s) !! t, calls s !! t with
  | Some _, None => mkSystem (kernel s) (<[t := on_user_sync image kernel_table t fault registers]> (calls s)) (redirects s)
  | _, _ => s
  end.

Definition next (t : TaskId) (s : System) : System :=
  match calls s !! t with
  | Some (Locked section) => let '(k, c) := section (kernel s) in mkSystem k (<[t := c]> (calls s)) (redirects s)
  | Some (Until ready c) => if ready (kernel s) then mkSystem (kernel s) (<[t := c]> (calls s)) (redirects s) else s
  | Some (Done _ | Gone) => mkSystem (kernel s) (delete t (calls s)) (redirects s)
  | _ => s
  end.

Definition start (name : list Z) (code : Image) (args cwd : list Z) (s : System) : System :=
  match spawn_program image kernel_table name code args cwd (kernel s) with
  | Ret k _ => mkSystem k (calls s) (redirects s)
  | _ => s
  end.

Definition kill_now (t : TaskId) (on_core : bool) (s : System) : System :=
  match kill t (kernel s) with Ret k _ => mkSystem k (calls s) (redirected t on_core s) | _ => s end.

Lemma trap_reachable c t fault registers s : Forall (uint 64) (Syscall.args_list registers) → reachable c s → reachable c (trap t fault registers s).
Proof.
  intros Ha Hs. unfold trap. destruct (programs (kernel s) !! t) as [r|] eqn:Hr; [|done]. destruct (calls s !! t) eqn:Hc; [done|].
  eapply reachable_step; [done|]. by apply (step_trap s t r).
Qed.

Lemma next_reachable c t s : reachable c s → reachable c (next t s).
Proof.
  intros Hs. unfold next. destruct (calls s !! t) as [[x0|section|ready k|possible k| |]|] eqn:Hc; try done.
  - eapply reachable_step; [done|]. by apply (step_return s t x0).
  - destruct (section (kernel s)) as [k c'] eqn:E1. eapply reachable_step; [done|]. by apply (step_section s t section).
  - destruct (ready (kernel s)) eqn:E1; [|done]. eapply reachable_step; [done|]. by apply (step_wake s t ready).
  - eapply reachable_step; [done|]. by apply (step_gone s t).
Qed.

Lemma nexts_reachable c t n s : reachable c s → reachable c (Nat.iter n (next t) s).
Proof. intros Hs. induction n as [|n IH]; [done|]. by apply next_reachable. Qed.

Lemma start_reachable c name code args d s : image_ok code → Z.of_nat (length d) <= MAX_PATH → reachable c s → reachable c (start name code args d s).
Proof.
  intros Hi Hd Hs. unfold start. destruct (spawn_program _ _ _ _ _ _ (kernel s)) as [k p| |] eqn:E1; [|done..].
  eapply reachable_step; [done|]. by apply (step_spawn s name code args d k p).
Qed.

Lemma kill_reachable c t on_core s : reachable c s → reachable c (kill_now t on_core s).
Proof.
  intros Hs. unfold kill_now. destruct (kill t (kernel s)) as [k []| |] eqn:E1; [|done..]. eapply reachable_step; [done|]. by apply step_kill.
Qed.

(** * The invariant *)
Context (image_fits : 0 < Z.of_nat (length image) <= PROGRAM_END - USER_BASE) (table_ok : Paging.kernel_ok kernel_table).

Section invariant.
Context (boot : gset Z).
Implicit Types (k : Kernel) (t : TaskId).

Record Good (s : System) : Prop := {
  good_inv : Inv boot [] (kernel s);
  good_calls t c : calls s !! t = Some c → (t < tasks (kernel s))%nat ∧ sound boot t (view t (kernel s)) c resumes;
  good_idle t r : programs (kernel s) !! t = Some r → calls s !! t = None → idle r;
}.

(** A step of [t]: its call goes on, the others' calls do not notice. *)
Lemma good_own s t k cs rs : Good s → (t < tasks (kernel s))%nat → Inv boot [] k → others t (kernel s) k →
  (∀ t', t' ≠ t → cs !! t' = calls s !! t') → (∀ c, cs !! t = Some c → sound boot t (view t k) c resumes) →
  (∀ r, programs k !! t = Some r → cs !! t = None → idle r) → Good (mkSystem k cs rs).
Proof.
  intros HG Ht HI Ho Hcs Hc Hi. pose proof (others_tasks _ _ _ Ho). split; cbn [kernel calls]; [done| |].
  - intros t' c Hc'. destruct (decide (t' = t)) as [->|Hne]; [split; [lia|by apply Hc]|]. rewrite Hcs in Hc' by done.
    destruct (good_calls s HG t' c Hc') as [Ht' Hs]. split; [lia|]. unfold view in *. by rewrite (others_programs _ _ _ Ho).
  - intros t' r Hr Hc'. destruct (decide (t' = t)) as [->|Hne]; [by apply Hi|]. rewrite Hcs in Hc' by done.
    destruct (decide (t' < tasks (kernel s))%nat).
    + rewrite (others_programs _ _ _ Ho) in Hr by done. by apply (good_idle s HG t').
    + apply (others_new _ _ _ Ho t' r); [lia|done..].
Qed.

Lemma idle_strip r r' : strip r = strip r' → idle r' → idle r.
Proof. intros Hs. change (idle r') with (idle (strip r')). rewrite <-Hs. exact (λ Hi, Hi). Qed.

(** A step of the rest of the kernel: programs keep all but what they were sent. *)
Lemma good_outside s k rs : Good s → Inv boot [] k → (tasks (kernel s) ≤ tasks k)%nat → (∀ t, (t < tasks (kernel s))%nat → view t k = view t (kernel s)) →
  (∀ t r, (tasks (kernel s) ≤ t)%nat → programs k !! t = Some r → idle r) → Good (mkSystem k (calls s) rs).
Proof.
  intros HG HI Ht Hv Hn. split; cbn [kernel calls]; [done| |].
  - intros t c Hc. destruct (good_calls s HG t c Hc) as [Ht' Hs]. split; [lia|]. by rewrite Hv.
  - intros t r Hr Hc. destruct (decide (t < tasks (kernel s))%nat) as [Hlt|Hge]; [|apply (Hn t r); [lia|done]].
    specialize (Hv t Hlt). unfold view in Hv. rewrite Hr in Hv. destruct (programs (kernel s) !! t) as [r0|] eqn:Hr0; [|done].
    apply Some_inj in Hv. apply (idle_strip r r0); [done|]. by apply (good_idle s HG t).
Qed.

(** A program's record changed where only its calls look, and not at what it has. *)
Lemma inv_sent t r r' k : Inv boot [] k → programs k !! t = Some r → strip r' = strip r → Z.of_nat (length (input r')) <= MAX_INPUT →
  Inv boot [] (set_program t r' k).
Proof.
  intros (HC & HM & HT & HK) Hr Hs Hin. destruct (HK t r Hr) as [Ht HO].
  assert (Hf : opens_of r' = opens_of r ∧ memory r' = memory r ∧ heap_end r' = heap_end r ∧ asid r' = asid r ∧ handles r' = handles r ∧
    locals r' = locals r ∧ cwd r' = cwd r ∧ waiting_for r' = waiting_for r) by (destruct r, r'; injection Hs; intros; subst; done).
  destruct Hf as (Ho & Hm & Hh & Ha & Hha & Hlo & Hcw & Hw). split; [|split; [|split]].
  - apply (counted_update [] [] _ _ _ _ t r r'); [done|done|by rewrite Ho].
  - destruct (mem_rep _ _ _ HM t r Hr) as (P & HR & Hi).
    apply (memories_update boot _ (machine k) _ t r r' P); [done|done|rewrite Hm; by apply (acts_refl _ _ P)|by rewrite Hm|by rewrite Hh].
  - by apply (tags_update _ _ t r r').
  - apply tasks_update; [done|done|]. destruct HO. split; rewrite ?Ho, ?Hha, ?Hlo, ?Hcw, ?Hw, ?Ha; done.
Qed.

Lemma view_set t r r' k t' : programs k !! t = Some r → strip r' = strip r → view t' (set_program t r' k) = view t' k.
Proof.
  intros Hr Hs. unfold view. change (programs (set_program t r' k)) with (<[t := r']> (programs k)).
  destruct (decide (t' = t)) as [->|Hne]; [rewrite lookup_insert_eq, Hr; cbn; by rewrite Hs|by rewrite lookup_insert_ne].
Qed.

Lemma lookup_program_Some t k r : lookup_program t k = Some r → programs k !! t = Some r.
Proof. unfold lookup_program. destruct (programs k !! t) as [r0|]; [|done]. destruct (listed r0); [|done]. done. Qed.

Lemma good_sent s t r r' rs : Good s → programs (kernel s) !! t = Some r → strip r' = strip r → Z.of_nat (length (input r')) <= MAX_INPUT →
  Good (mkSystem (set_program t r' (kernel s)) (calls s) rs).
Proof.
  intros HG Hr Hs Hin. pose proof (good_inv s HG) as HI. apply good_outside; [done|by apply (inv_sent t r)|done|intros t' _; by apply (view_set t r)|].
  intros t' r0 Hge Hr0. destruct (inv_sent t r r' (kernel s) HI Hr Hs Hin) as (_ & _ & _ & HK).
  destruct (HK t' r0 Hr0) as [Hlt _]. cbn [tasks set_program with_programs] in Hlt. lia.
Qed.

(** Program [t] notices nothing but what it was sent: its record is the same, and its memory. *)
Definition undisturbed (t : TaskId) (k k' : Kernel) : Prop :=
  ∀ r, programs k !! t = Some r → ∃ r', programs k' !! t = Some r' ∧ strip r' = strip r ∧
    ∀ x, sees (memory r') (machine k') x = sees (memory r) (machine k) x.

Lemma others_undisturbed hand t t' k k' : Inv boot hand k → others t k k' → t' ≠ t → undisturbed t' k k'.
Proof.
  intros (_ & _ & _ & HK) Ho Hne r Hr. destruct (HK t' r Hr) as [Hlt _]. exists r. rewrite (others_programs _ _ _ Ho) by done.
  split; [done|]. split; [done|]. intros x. by apply (others_see _ _ _ Ho t').
Qed.

Lemma sent_undisturbed t r r' t' k : programs k !! t = Some r → strip r' = strip r → undisturbed t' k (set_program t r' k).
Proof.
  intros Hr Hs r0 Hr0. change (programs (set_program t r' k)) with (<[t := r']> (programs k)). destruct (decide (t' = t)) as [->|Hne].
  - rewrite Hr in Hr0. injection Hr0 as <-. exists r'. rewrite lookup_insert_eq. split; [done|]. split; [done|].
    assert (Hm : memory r' = memory r) by (change (memory (strip r') = memory (strip r)); by rewrite Hs). intros x. by rewrite Hm.
  - exists r0. by rewrite lookup_insert_ne.
Qed.

Lemma unnoticed_undisturbed t k k' : unnoticed k k' → undisturbed t k k'.
Proof. intros Hu r Hr. destruct (Hu t r Hr). eauto. Qed.

Lemma at_user_view t s r : Good s → at_user t s r → (t < tasks (kernel s))%nat ∧ view t (kernel s) = Some (strip r) ∧ idle r.
Proof.
  intros HG [Hr Hc]. destruct (proj2 (proj2 (proj2 (good_inv s HG))) t r Hr) as [Ht _]. split; [done|]. split; [|by apply (good_idle s HG t)].
  unfold view. by rewrite Hr.
Qed.

(** Where no lock is taken, only the call moves on. *)
Lemma good_call s t cs rs : Good s → (t < tasks (kernel s))%nat → (∀ t', t' ≠ t → cs !! t' = calls s !! t') →
  (∀ c, cs !! t = Some c → sound boot t (view t (kernel s)) c resumes) → (∀ r, programs (kernel s) !! t = Some r → cs !! t = None → idle r) →
  Good (mkSystem (kernel s) cs rs) ∧ ∀ t', Program t ≠ Program t' → undisturbed t' (kernel s) (kernel s).
Proof.
  intros HG Ht Hcs Hc Hi. pose proof (good_inv s HG) as HI. assert (Ho : others t (kernel s) (kernel s)) by apply others_refl, HI.
  split; [by apply (good_own s t)|]. intros t' Hne. apply (others_undisturbed [] t); [done|done|congruence].
Qed.

Lemma insert_call {A} (cs : gmap TaskId A) t c t' : t' ≠ t → <[t := c]> cs !! t' = cs !! t'.
Proof. intros. by apply lookup_insert_ne. Qed.

Lemma inserted_call {A} (cs : gmap TaskId A) t c c' : <[t := c]> cs !! t = Some c' → c' = c.
Proof. rewrite lookup_insert_eq. congruence. Qed.

(** Steps of programs. *)
Lemma program_step_good t s s' : Good s → step (Program t) s s' → Good s' ∧ ∀ t', Program t ≠ Program t' → undisturbed t' (kernel s) (kernel s').
Proof.
  intros HG Hs. inversion Hs; subst; cbn [kernel].
  - destruct (at_user_view t s r HG) as (Ht & Hv & Hi); [done|]. apply good_call; [done|done|apply insert_call| |by rewrite lookup_insert_eq].
    intros c ->%inserted_call. rewrite Hv. by apply (on_user_sync_sound boot t image kernel_table image_fits table_ok).
  - destruct (at_user_view t s r HG) as (Ht & Hv & Hi); [done|]. pose proof (good_inv s HG) as HI. pose proof HI as (_ & HM & _ & HK).
    match goal with Hu : at_user t s r |- _ => destruct Hu as [Hr Hc] end. destruct (mem_rep _ _ _ HM t r Hr) as (P & HR & Hin).
    destruct (store_acts x v (memory r) (machine (kernel s)) P p Paging.ReadWrite HR) as [Hac HR']; [done|].
    pose proof (at_start boot t r (kernel s) HI Hr (proj1 Hi)) as HA.
    pose proof (at_memory boot t [] r r (kernel s) (kernel s) _ P HA Hac HR' Hin (own_me _ _ _ _ _ _ HA) eq_refl eq_refl (proj1 Hi)) as HA'.
    rewrite (set_same t) in HA' by done. split.
    + apply (good_own s t); [done|done|apply HA'|apply HA'|done|intros c Hc'; change (calls s !! t = Some c) in Hc'; by rewrite Hc in Hc'|].
      intros r0 Hr0 _. change (programs (kernel s) !! t = Some r0) in Hr0. rewrite Hr in Hr0. by injection Hr0 as <-.
    + intros t' Hne. apply (others_undisturbed [] t); [done|apply HA'|congruence].
  - match goal with Hc : calls s !! t = Some _ |- _ => destruct (good_calls s HG t _ Hc) as [Ht Hsd] end.
    cbn [sound] in Hsd. specialize (Hsd (kernel s) (good_inv s HG) eq_refl).
    match goal with He : section (kernel s) = _ |- _ => rewrite He in Hsd end. destruct Hsd as (HI & Ho & Hsd). split.
    + apply (good_own s t); [done|done|done|done|apply insert_call|by intros c' ->%inserted_call|by rewrite lookup_insert_eq].
    + intros t' Hne. apply (others_undisturbed [] t); [apply HG|done|congruence].
  - match goal with Hc : calls s !! t = Some _ |- _ => destruct (good_calls s HG t _ Hc) as [Ht Hsd] end.
    apply good_call; [done|done|apply insert_call|by intros c' ->%inserted_call|by rewrite lookup_insert_eq].
  - match goal with Hc : calls s !! t = Some _ |- _ => destruct (good_calls s HG t _ Hc) as [Ht Hsd] end.
    apply good_call; [done|done|apply insert_call|intros c' ->%inserted_call; by apply Hsd|by rewrite lookup_insert_eq].
  - match goal with Hc : calls s !! t = Some _ |- _ => destruct (good_calls s HG t _ Hc) as [Ht Hsd] end.
    apply good_call; [done|done|intros; by apply lookup_delete_ne|by rewrite lookup_delete_eq|].
    intros r Hr _. destruct Hsd as (r0 & Hv & Hi). unfold view in Hv. rewrite Hr in Hv. by injection Hv as <-.
  - match goal with Hc : calls s !! t = Some _ |- _ => destruct (good_calls s HG t _ Hc) as [Ht Hsd] end.
    apply good_call; [done|done|intros; by apply lookup_delete_ne|by rewrite lookup_delete_eq|].
    intros r Hr _. cbn [sound] in Hsd. unfold view in Hsd. by rewrite Hr in Hsd.
  - destruct (at_user_view t s r HG) as (Ht & Hv & Hi); [done|]. apply good_call; [done|done|apply insert_call| |by rewrite lookup_insert_eq].
    intros c ->%inserted_call. rewrite Hv. by apply exit_sound.
Qed.

(** ** The rest of the kernel *)

(** [send_line]'s loop ends: a child is a later task than the program that waits on it. *)
Lemma input_target_ends k n fuel t : Tasks (programs k) n → (n - t < fuel)%nat →
  ∃ u, input_target fuel t k = Some u ∧ (lookup_program t k = None → u = t) ∧
    (is_Some (lookup_program t k) → is_Some (lookup_program u k)) ∧
    ∀ c, lookup_program u k ≫= waiting_for = Some c → lookup_program c k = None.
Proof.
  intros HK. revert t. induction fuel as [|fuel IH]; intros t Hf; [lia|]. cbn [input_target].
  destruct (lookup_program t k ≫= waiting_for) as [c|] eqn:Ew.
  - destruct (lookup_program t k) as [r|] eqn:Er; [|done]. cbn [mbind option_bind] in Ew.
    destruct (HK t r (lookup_program_Some t k r Er)) as [Ht HO]. pose proof (own_waits t r HO c Ew) as Hc.
    unfold is_running. destruct (bool_decide_reflect (is_Some (lookup_program c k))) as [Hrun|Hno].
    + destruct (IH c ltac:(lia)) as (u & Hu & _ & Hsome & Hlast). exists u. split; [done|]. split; [done|]. split; [auto|done].
    + exists t. split; [done|]. split; [done|]. split; [by rewrite Er|]. rewrite Er. cbn [mbind option_bind]. intros c' Hc'.
      rewrite Ew in Hc'. injection Hc' as <-. by apply eq_None_not_Some.
  - exists t. split; [done|]. split; [done|]. split; [done|]. rewrite Ew. done.
Qed.

Lemma kill_sent t k k' : kill t k = Ret k' tt → ∃ r, programs k !! t = Some r ∧ k' = set_program t (with_killed true r) k.
Proof.
  unfold kill. intros Hk. cbn in Hk. unfold mbind, Eff_bind, get in Hk. destruct (lookup_program t k) as [r|] eqn:Er; [|done].
  injection Hk as <-. exists r. split; [by apply lookup_program_Some|done].
Qed.

Lemma send_line_sent t line k k' d : send_line t line k = Ret k' d →
  ∃ u r, lookup_program u k = Some r ∧ k' = set_program u (with_input (input r ++ line ++ [0x0A]) r) k ∧
    Z.of_nat (length (input r ++ line ++ [0x0A])) <= MAX_INPUT ∧ delivered_to d = u.
Proof.
  unfold send_line. unfold mbind, Eff_bind, get. cbn beta iota. destruct (input_target _ t k) as [u|]; [|done]. unfold unwrap.
  cbn beta iota. unfold mret, Eff_ret. destruct (lookup_program u k) as [r|] eqn:Er; [|done].
  destruct (Z.ltb_spec MAX_INPUT (Z.of_nat (length (input r)) + Z.of_nat (length line) + 1)) as [|Hlen]; [done|].
  intros [= <- <-]. exists u, r. split; [done|]. split; [done|]. split; [|done]. rewrite !length_app. cbn [length]. lia.
Qed.

Lemma spawn_program_spec name code args d k : Inv boot [] k → image_ok code → Z.of_nat (length d) <= MAX_PATH →
  wp (spawn_program image kernel_table name code args d) k (λ k' p, Inv boot [] k' ∧ id p = tasks k ∧ born k k') (λ k' _, Inv boot [] k' ∧ stillborn k k').
Proof. intros HI Hi Hd. by apply (spawn_with_spec boot image kernel_table image_fits table_ok name code args console None d [] k). Qed.

Lemma spawn_good s k rs : Good s → Inv boot [] k → born (kernel s) k ∨ stillborn (kernel s) k →
  Good (mkSystem k (calls s) rs) ∧ ∀ t, undisturbed t (kernel s) k.
Proof.
  intros HG HI Hb. pose proof (good_inv s HG) as (_ & _ & _ & HK).
  assert (Ho : ∀ t, others t (kernel s) k) by (intros t; destruct Hb; [by apply born_others|by apply stillborn_others]).
  assert (Hu : unnoticed (kernel s) k) by (destruct Hb as [(_ & ? & _)|(_ & _ & ?)]; done).
  split; [|intros t; by apply unnoticed_undisturbed]. apply good_outside; [done|done|apply (others_tasks _ _ _ (Ho 0%nat))| |].
  - intros t Ht. unfold view. by rewrite (others_programs _ _ _ (Ho (S t))) by lia.
  - intros t r Ht Hr. apply (others_new _ _ _ (Ho (S t)) t r); [done|lia|done].
Qed.

(** Fields that programs have nothing in. *)
Lemma aside_good s k rs : Good s → programs k = programs (kernel s) → machine k = machine (kernel s) → asids k = asids (kernel s) →
  (tasks (kernel s) ≤ tasks k)%nat → pipes k = pipes (kernel s) → held k = held (kernel s) → lent k = lent (kernel s) →
  Good (mkSystem k (calls s) rs) ∧ ∀ t, undisturbed t (kernel s) k.
Proof.
  intros HG Hp Hm Ha Ht H1 H2 H3. pose proof (good_inv s HG) as (HC & HM & HT & HK).
  split; [|intros t r Hr; exists r; by rewrite Hp, Hm]. apply good_outside; [done| |done| |].
  - unfold Inv. rewrite Hp, Hm, Ha, H1, H2, H3. split; [done|]. split; [done|]. split; [done|]. intros t r Hr. destruct (HK t r Hr). split; [lia|done].
  - intros t _. unfold view. by rewrite Hp.
  - intros t r Hge Hr. rewrite Hp in Hr. destruct (HK t r Hr). lia.
Qed.

Lemma outside_step_good s s' : Good s → step Outside s s' → Good s' ∧ ∀ t, undisturbed t (kernel s) (kernel s').
Proof.
  intros HG Hs. pose proof (good_inv s HG) as HI. inversion Hs; subst; cbn [kernel].
  - match goal with Hk : kill _ _ = _ |- _ => apply kill_sent in Hk as (r & Hr & ->) end.
    split; [|intros; by apply (sent_undisturbed t r)]. apply (good_sent s t r); [done|done|done|].
    apply (own_input t r), (proj2 (proj2 (proj2 HI)) t r Hr).
  - match goal with Hk : send_line _ _ _ = _ |- _ => apply send_line_sent in Hk as (u & r & Hr%lookup_program_Some & -> & Hlen & _) end.
    split; [by apply (good_sent s u r)|intros; by apply (sent_undisturbed u r)].
  - match goal with Hk : spawn_program _ _ ?n ?i ?args ?d _ = _ |- _ =>
      pose proof (spawn_program_spec n i args d (kernel s) HI) as Hw; unfold wp in Hw; rewrite Hk in Hw end. destruct Hw as (HI' & _ & Hb); [done..|].
    apply spawn_good; [done|done|by left].
  - match goal with Hk : spawn_program _ _ ?n ?i ?args ?d _ = _ |- _ =>
      pose proof (spawn_program_spec n i args d (kernel s) HI) as Hw; unfold wp in Hw; rewrite Hk in Hw end. destruct Hw as (HI' & Hb); [done..|].
    apply spawn_good; [done|done|by right].
  - apply aside_good; try done. cbn [tasks with_tasks]. lia.
  - by apply aside_good.
  - by apply aside_good.
Qed.

Lemma step_good a s s' : Good s → step a s s' → Good s' ∧ ∀ t, a ≠ Program t → undisturbed t (kernel s) (kernel s').
Proof. intros HG Hs. destruct a as [t|]; [by apply program_step_good|]. destruct (outside_step_good s s' HG Hs). auto. Qed.
End invariant.

(** * Every reachable state *)
Lemma boot_tags : Tags ∅ boot_asids.
Proof.
  split.
  - split; [done|]. unfold boot_asids. rewrite !Forall_cons, Forall_nil. unfold uint. lia.
  - intros n Hn. assert (Hall : forallb (λ n, Bool.eqb (asid_used boot_asids n) (n =? 0)%nat) (seq 0 COUNT) = true) by (vm_compute; reflexivity).
    rewrite forallb_forall in Hall. assert (Hin : List.In n (seq 0 COUNT)) by (apply List.in_seq; lia). specialize (Hall n Hin). apply Bool.eqb_prop in Hall. rewrite Hall, Nat.eqb_eq.
    split; [by left|]. intros [->|(t & r & Hr & _)]; [done|]. by rewrite lookup_empty in Hr.
  - intros t t' r r' Hr. by rewrite lookup_empty in Hr.
Qed.

Lemma boot_inv c n f : fs_ok (Paging.source c) → Inv (fs_held (Paging.source c)) [] (boot_kernel c n f).
Proof.
  intros Hok. split; [|split; [|split]].
  - split; [|intros p q Hp; cbn [pipes boot_kernel] in Hp; by rewrite lookup_empty in Hp|done| |done]; [|pose proof Buffer.most_nonneg; cbn [held boot_kernel]; unfold Buffer.BUDGET; lia]. intros e. cbn [programs pipes boot_kernel]. by rewrite lookup_empty.
  - split; cbn [programs machine boot_kernel]; [done|..].
    + intros t r Hr. by rewrite lookup_empty in Hr.
    + intros t t' r r' x Hr. by rewrite lookup_empty in Hr.
    + intros x. split; [by left|]. intros [?|(t & r & Hr & _)]; [done|]. by rewrite lookup_empty in Hr.
    + intros t r x Hr. by rewrite lookup_empty in Hr.
  - apply boot_tags.
  - intros t r Hr. cbn [programs boot_kernel] in Hr. by rewrite lookup_empty in Hr.
Qed.

Lemma reachable_good c s : fs_ok (Paging.source c) → reachable c s → Good (fs_held (Paging.source c)) s.
Proof.
  intros Hok. induction 1 as [n f|a s s' _ IH Hs]; [|by apply (step_good _ a s)].
  split; cbn [kernel calls]; [by apply boot_inv|..]; intros t x Hx; [|cbn [programs boot_kernel] in Hx]; by rewrite lookup_empty in Hx.
Qed.

(** C2: programs are isolated: in whatever state, whatever another program does (its user code, any section of its
    system calls, its exit) or the rest of the kernel does, a program keeps its handles, streams, heap, current
    directory and all else the kernel keeps about it, and reads the same bytes at every address with the same
    rights; only typed input and a kill reach it. *)
Theorem programs_are_isolated c s a s' t : fs_ok (Paging.source c) → reachable c s → step a s s' → a ≠ Program t →
  undisturbed t (kernel s) (kernel s').
Proof. intros Hok Hr Hs Ha. by apply (proj2 (step_good _ a s s' (reachable_good c s Hok Hr) Hs)). Qed.

(** C3: the kernel's books are exact in every state: the readers and writers of each pipe are the ends its
    programs have, [HELD] is what their files have allocated, the screen is lent exactly when one of them has its lease,
    an ASID is in use exactly when it is the kernel's or one program's, and the page frames in use are the kernel's
    own and those of the programs' address spaces, no frame in two of them.  [HELD] is within [BUDGET], but for what
    the allocator hands out beyond one request (at most [most], of which nothing is assumed but that a
    capacity stays below [isize::MAX]). *)
Theorem resources_are_exact c s : fs_ok (Paging.source c) → reachable c s → let k := kernel s in
  (∀ e, match pipes k !! of_pipe e with Some p => Pipe.count (which e) p | None => 0 end = total (ends e) (programs k)) ∧
  (held k = total allocated (programs k) ∧ held k <= Buffer.BUDGET + Buffer.most) ∧
  total screens (programs k) = (if lent k then 1 else 0) ∧
  (∀ n, (n < COUNT)%nat → asid_used (asids k) n = true ↔ n = 0%nat ∨ ∃ t r, programs k !! t = Some r ∧ asid r = Z.of_nat n) ∧
  (∀ t t' r r', programs k !! t = Some r → programs k !! t' = Some r' → asid r = asid r' → t = t') ∧
  (∀ x, x ∈ fs_held (Paging.source (machine k)) ↔
     x ∈ fs_held (Paging.source c) ∨ ∃ t r, programs k !! t = Some r ∧ x ∈ Paging.owned (memory r)) ∧
  (∀ t t' r r' x, programs k !! t = Some r → programs k !! t' = Some r' →
     x ∈ Paging.owned (memory r) → x ∈ Paging.owned (memory r') → t = t').
Proof.
  intros Hok Hr. cbv zeta. destruct (good_inv _ s (reachable_good c s Hok Hr)) as ([C1 C2 C3 C4 C5] & [M1 M2 M3 M4 M5] & [T1 T2 T3] & _).
  change (weight _ []) with 0 in *. split_and!; [|lia|done|lia|done|done|done|done].
  intros e. specialize (C1 e). change (weight (ends e) []) with 0 in C1. lia.
Qed.

(** C11: programs leave nothing behind: once the last one is gone, whatever they had opened, mapped, started and
    drawn and however each of them ended, the page frames in use are those there were before, every ASID but
    the kernel's is free, no file byte is counted, the screen is the console's and no pipe has an end. *)
Theorem programs_leave_nothing_behind c s : fs_ok (Paging.source c) → reachable c s → programs (kernel s) = ∅ →
  fs_held (Paging.source (machine (kernel s))) = fs_held (Paging.source c) ∧
  (∀ n, (n < COUNT)%nat → asid_used (asids (kernel s)) n = true ↔ n = 0%nat) ∧
  held (kernel s) = 0 ∧ lent (kernel s) = false ∧
  ∀ p q, pipes (kernel s) !! p = Some q → Pipe.readers q = 0 ∧ Pipe.writers q = 0.
Proof.
  intros Hok Hr Hp. destruct (good_inv _ s (reachable_good c s Hok Hr)) as ([C1 C2 C3 C4 C5] & [M1 M2 M3 M4 M5] & [T1 T2 T3] & _).
  rewrite Hp in *. split_and!.
  - apply set_eq. intros x. rewrite M4. split; [|by left]. intros [?|(t & r & Hx & _)]; [done|]. by rewrite lookup_empty in Hx.
  - intros n Hn. rewrite T2 by done. split; [|by left]. intros [?|(t & r & Hx & _)]; [done|]. by rewrite lookup_empty in Hx.
  - exact C3.
  - change (total screens ∅ + weight screens []) with 0 in C5. by destruct (lent (kernel s)).
  - intros p q Hq. pose proof (C1 (mkPipeEnd p Pipe.Read)) as C1r. pose proof (C1 (mkPipeEnd p Pipe.Write)) as C1w. cbn [of_pipe which] in C1r, C1w.
    rewrite Hq in C1r, C1w. by split.
Qed.


(** A typed line goes to whoever reads: [send_line] always ends, with the line at the end of the input of a
    program that is not itself waiting on a running child (from the one it was meant for, down its children),
    whose input stays within [MAX_INPUT], or with nothing changed, because that input is full or because no
    such program runs. *)
Theorem lines_reach_the_reader c s t line : fs_ok (Paging.source c) → reachable c s →
  match send_line t line (kernel s) with
  | Ret k d => ∃ r, lookup_program (delivered_to d) (kernel s) = Some r ∧
      (∀ child, waiting_for r = Some child → lookup_program child (kernel s) = None) ∧
      k = set_program (delivered_to d) (with_input (input r ++ line ++ [0x0A]) r) (kernel s) ∧
      Z.of_nat (length (input r ++ line ++ [0x0A])) <= MAX_INPUT
  | Fail k NotAProgram => k = kernel s ∧ lookup_program t (kernel s) = None
  | Fail k Full => k = kernel s
  | Panic => False
  end.
Proof.
  intros Hok Hr. pose proof (reachable_good c s Hok Hr) as HG. pose proof (good_inv _ s HG) as HI.
  destruct (input_target_ends (kernel s) (tasks (kernel s)) (S (tasks (kernel s))) t (proj2 (proj2 (proj2 HI)))) as (u & Hu & Hself & Hsome & Hlast); [lia|].
  unfold send_line, mbind, Eff_bind, get. cbn beta iota. rewrite Hu. cbn [unwrap]. unfold mret, Eff_ret.
  destruct (lookup_program u (kernel s)) as [r|] eqn:Er.
  - destruct (Z.ltb_spec MAX_INPUT (Z.of_nat (length (input r)) + Z.of_nat (length line) + 1)); [done|].
    exists r. cbn [delivered_to]. split; [done|]. split; [|split; [done|rewrite !length_app; cbn [length]; lia]].
    intros child Hc. by apply Hlast.
  - split; [done|]. destruct (lookup_program t (kernel s)) eqn:Et; [|done]. by destruct (Hsome ltac:(by eexists)).
Qed.
End system.

(** * Witnesses: two built-in programs *)
Module Demo.
#[local] Existing Instance PageFrames.page_frames.

(** Every file is one executable. *)
Definition file : Buffer.FileBuffer := Buffer.mkFileBuffer Elf.demo_elf (Z.of_nat (length Elf.demo_elf)).
#[refine] Instance files : Files unit unit := {|
  fs_read_file _ f := (f, Ok file);
  fs_read_dir _ f := (f, Ok []);
  fs_check_writable _ f := (f, Ok tt);
  fs_check_dir _ f := (f, Ok tt);
  fs_write_file _ _ f := (f, Ok tt);
  fs_create_dir _ f := (f, Ok tt);
  fs_remove _ f := (f, Ok tt) |}.
Proof. intros path f f' v [= _ <-]. split; [done|apply Elf.demo_elf_bytes]. Defined.

Definition image : list Z := replicate 8 0.
Definition machine0 : Paging.Machine := Paging.mkMachine (λ _, 7) (Frames.new 0x1000 0x60000).
#[local] Existing Instance Buffer.words.
Notation reachable := (reachable image Paging.demo_kernel machine0).

Lemma machine0_ok : fs_ok (Paging.source machine0).
Proof. split; [apply Frames.Frames_Inv_new; [lia|by vm_compute|lia]|]. split; by vm_compute. Qed.

Lemma image_fits : 0 < Z.of_nat (length image) <= PROGRAM_END - USER_BASE.
Proof. by vm_compute. Qed.

(** Two programs run. *)
Definition booted : System := mkSystem (boot_kernel machine0 0 tt) ∅ ∅.
Definition two : System :=
  start image Paging.demo_kernel [98] (Builtin 0) [] [0x2F] (start image Paging.demo_kernel [97] (Builtin 0) [65] [0x2F] booted).

Lemma two_reachable : reachable two.
Proof. apply start_reachable; [done|by vm_compute|]. apply start_reachable; [done|by vm_compute|]. apply reachable_start. Qed.

(** A trap into a system call. *)
Definition svc : Fault := mkFault (Z.shiftl CLASS_SVC 26) 0 0.
Definition trapped (t : TaskId) (call : Syscall.Syscall) (s : System) : System :=
  trap image Paging.demo_kernel t svc (Syscall.encode call) s.

Lemma trapped_reachable t call s : forallb (λ x, (0 <=? x) && (x <? 2 ^ 64)) (Syscall.args_list (Syscall.encode call)) = true →
  reachable s → reachable (trapped t call s).
Proof.
  intros Ha. apply trap_reachable. apply Forall_forall. intros x Hx. rewrite forallb_forall in Ha.
  specialize (Ha x (proj1 (list_elem_of_In _ _) Hx)). apply andb_true_iff in Ha as [?%Z.leb_le ?%Z.ltb_lt]. unfold uint. lia.
Qed.

(** Both have exited. *)
Definition gone : System :=
  Nat.iter 5 (next 1%nat) (trapped 1%nat (Syscall.Exit 7) (Nat.iter 5 (next 0%nat) (trapped 0%nat (Syscall.Exit 3) two))).

Lemma gone_reachable : reachable gone.
Proof.
  apply nexts_reachable, trapped_reachable; [by vm_compute|]. apply nexts_reachable, trapped_reachable; [by vm_compute|]. apply two_reachable.
Qed.

Lemma gone_empty : programs (kernel gone) = ∅.
Proof. apply map_size_empty_inv. vm_compute. reflexivity. Qed.

(** Program 0 in the middle of making a pipe. *)
Definition piping : System := trapped 0%nat (Syscall.Pipe (STACK_TOP - 64)) two.

Lemma piping_reachable : reachable piping.
Proof. apply trapped_reachable; [by vm_compute|]. apply two_reachable. Qed.

(** It has both ends; program 1 has nothing. *)
Definition piped : System := next 0%nat piping.

Lemma piped_reachable : reachable piped.
Proof. apply next_reachable, piping_reachable. Qed.

Lemma programs_are_isolated_witness : ∃ s',
  step image Paging.demo_kernel (Program 0%nat) piping s' ∧ is_Some (programs (kernel piping) !! 1%nat) ∧
  undisturbed 1%nat (kernel piping) (kernel s').
Proof.
  assert (Hc : match calls piping !! 0%nat with Some (Locked _) => true | _ => false end = true) by (vm_compute; reflexivity).
  destruct (calls piping !! 0%nat) as [[x0|section|ready k|possible k| |]|] eqn:Ec; try discriminate Hc.
  assert (Hs : step image Paging.demo_kernel (Program 0%nat) piping
    (mkSystem (section (kernel piping)).1 (<[0%nat := (section (kernel piping)).2]> (calls piping)) (redirects piping))).
  { refine (step_section _ _ piping 0%nat section _ _ Ec _). apply surjective_pairing. }
  eexists. split; [exact Hs|]. split; [apply (bool_decide_unpack (is_Some (programs (kernel piping) !! 1%nat))); vm_compute; exact I|].
  refine (programs_are_isolated image Paging.demo_kernel image_fits Paging.demo_kernel_ok
    machine0 piping (Program 0%nat) _ 1%nat machine0_ok piping_reachable Hs _). discriminate.
Defined.

Lemma resources_are_exact_witness :
  Pipe.count Pipe.Read (pipe_state 0 (kernel piped)) = 1 ∧ total (ends (mkPipeEnd 0 Pipe.Read)) (programs (kernel piped)) = 1.
Proof.
  assert (Hp : match pipes (kernel piped) !! 0%nat with Some q => Pipe.readers q =? 1 | None => false end = true) by (vm_compute; reflexivity).
  pose proof (proj1 (resources_are_exact image Paging.demo_kernel image_fits Paging.demo_kernel_ok
    machine0 piped machine0_ok piped_reachable) (mkPipeEnd 0 Pipe.Read)) as He.
  unfold pipe_state. cbn [of_pipe which] in He. destruct (pipes (kernel piped) !! 0%nat) as [q|]; [|discriminate Hp].
  apply Z.eqb_eq in Hp. cbn [default Pipe.count] in *. split; [exact Hp|]. by rewrite <-He.
Defined.

Lemma programs_leave_nothing_behind_witness :
  programs (kernel gone) = ∅ ∧ held (kernel gone) = 0 ∧ fs_held (Paging.source (machine (kernel gone))) = fs_held (Paging.source machine0).
Proof.
  pose proof (programs_leave_nothing_behind image Paging.demo_kernel image_fits Paging.demo_kernel_ok
    machine0 gone machine0_ok gone_reachable gone_empty) as (Hf & _ & Hh & _).
  split; [exact gone_empty|]. split; [exact Hh|exact Hf].
Defined.


Lemma lines_reach_the_reader_witness : ∃ k d, send_line 1%nat [104; 105] (kernel two) = Ret k d ∧
  ∃ r, lookup_program (delivered_to d) (kernel two) = Some r ∧ k = set_program (delivered_to d) (with_input (input r ++ [104; 105] ++ [0x0A]) r) (kernel two).
Proof.
  pose proof (lines_reach_the_reader image Paging.demo_kernel image_fits Paging.demo_kernel_ok
    machine0 two 1%nat [104; 105] machine0_ok two_reachable) as Hl.
  assert (Hr : returns (send_line 1%nat [104; 105] (kernel two)) = true) by (vm_compute; reflexivity).
  destruct (send_line 1%nat [104; 105] (kernel two)) as [k d| |]; [|discriminate Hr..]. exists k, d. split; [reflexivity|].
  destruct Hl as (r & Hl & _ & Hk & _). exists r. split; [exact Hl|exact Hk].
Defined.

(** Program 0 yields and is killed just after the check for that, while it has no core. *)
Definition missed : System := next 0%nat (kill_now 0%nat false (next 0%nat (trapped 0%nat Syscall.Yield two))).

(** A kill can be missed.  [on_user_sync] looks whether the program was killed with interrupts on, and then
    returns to it; a kill that comes in between, while the task has been preempted there, finds it in the
    kernel, so it is not redirected: the program goes on running user code, killed, with nothing to send it to
    its exit until it makes another system call. *)
Theorem kill_can_be_missed : ∃ s t r, reachable s ∧ at_user t s r ∧ killed r = true ∧ listed r = true ∧ t ∉ redirects s.
Proof.
  assert (Hr : match programs (kernel missed) !! 0%nat with Some r => killed r && listed r | None => false end = true) by (vm_compute; reflexivity).
  assert (Hc : bool_decide (calls missed !! 0%nat = None) = true) by (vm_compute; reflexivity).
  destruct (programs (kernel missed) !! 0%nat) as [r|] eqn:Er; [|discriminate Hr]. apply andb_true_iff in Hr as [Hk Hl]. apply bool_decide_eq_true in Hc.
  assert (Hn : bool_decide (0%nat ∈ redirects missed) = false) by (vm_compute; reflexivity). apply bool_decide_eq_false in Hn.
  exists missed, 0%nat, r. split; [|split; [exact (conj Er Hc)|exact (conj Hk (conj Hl Hn))]].
  apply next_reachable, kill_reachable, next_reachable, trapped_reachable; [by vm_compute|]. apply two_reachable.
Qed.
End Demo.
End System.
