(* ===== verification/User.v ===== *)
(** The library programs are linked with ([rustypi-user/src/]): input and output, files, other programs, the
    screen, random numbers and the heap, each over system calls.

    The kernel is any type with [Os]: a call's registers go in, and with them the memory its pointers refer
    to; x0 comes back, and what the kernel left in that memory.  What a program can rely on is the class
    [LawfulOs], on a view of what is open, what is on the card and what was printed; a kernel in memory
    ([MemOs]) has it.  The state of a function is the kernel's, its errors are [Errno]s.  A handle that goes out of
    scope is closed ([scoped]), whether the scope ends with a value or an error. *)
From S2P Require Import Prelude Bytes Text Abi Effect Link Heap.
From stdpp Require Import strings.
Open Scope Z_scope.

Module User.
Import Effect Text Abi.

(** [as_ptr]: where a buffer is. *)
Class Os (W : Type) := {
  svc : Syscall.Registers → list (list Z) → W → W * (Z * list (list Z));
  as_ptr : list Z → Z }.

Definition len (bytes : list Z) : Z := Z.of_nat (length bytes).

Section library.
Context {W : Type} `{Os W}.
Local Notation M := (Eff W Errno.Errno).

(** ** System calls *)
Definition call (c : Syscall.Syscall) (buffers : list (list Z)) : M (Z * list (list Z)) := λ w,
  let '(w, (x0, after)) := svc (Syscall.encode c) buffers w in
  match decode_result x0 with Ok v => Ret w (v, after) | Err e => Fail w e end.

Definition call_ (c : Syscall.Syscall) (buffers : list (list Z)) : M Z := r ← call c buffers; mret r.1.

(** ** Handles *)
Record Handle := mkHandle { raw : Z }.

Definition drop_handle (h : Handle) : M unit := _ ← catch (call_ (Syscall.Close (raw h)) []); mret tt.

(** A scope that owns a handle. *)
Definition scoped {A} (h : Handle) (body : M A) : M A := r ← catch body; _ ← drop_handle h; lift r.

(** ** Input and output *)
Definition read_handle (handle : Z) (buf : list Z) : M (nat * list Z) :=
  r ← call (Syscall.Read handle (as_ptr buf) (len buf)) [buf];
  mret (Z.to_nat r.1, r.2 !!! 0%nat).

Definition write_handle (handle : Z) (bytes : list Z) : M nat :=
  n ← call_ (Syscall.Write handle (as_ptr bytes) (len bytes)) [bytes]; mret (Z.to_nat n).

Definition io_read (buf : list Z) : M (nat * list Z) := read_handle INPUT buf.
Definition io_write (bytes : list Z) : M nat := write_handle OUTPUT bytes.

(** Each turn reads some bytes or ends, so as many turns as there is input are enough, and one. *)
Fixpoint read_to_end_from (fuel : nat) (handle : Z) (bytes : list Z) (total : nat) : M (list Z * nat) :=
  match fuel with
  | O => panic
  | S fuel =>
    r ← read_handle handle (replicate (Z.to_nat MAX_READ) 0);
    let '(read, chunk) := r in
    if (read =? 0)%nat then mret (bytes, total)
    else if (length chunk <? read)%nat then panic
    else read_to_end_from fuel handle (bytes ++ take read chunk) (total + read)
  end.
Definition io_read_to_end (fuel : nat) (bytes : list Z) : M (list Z * nat) := read_to_end_from fuel INPUT bytes 0.

(** [String::from_utf8], or with what is not UTF-8 replaced, as characters. *)
Definition to_text (line : list Z) : list Z := from_utf8_lossy (length line) line.

Fixpoint read_line_from (fuel : nat) (line : list Z) : M (option (list Z)) :=
  match fuel with
  | O => panic
  | S fuel =>
    r ← io_read [0];
    let '(read, byte) := r in
    if (read =? 0)%nat then mret (if bool_decide (line = []) then None else Some (to_text line))
    else if byte !!! 0%nat =? 10 then mret (Some (to_text line))
    else read_line_from fuel (line ++ [byte !!! 0%nat])
  end.
Definition read_line (fuel : nat) : M (option (list Z)) := read_line_from fuel [].

(** The kernel takes at least a byte each time. *)
Fixpoint write_from (fuel : nat) (handle : Z) (bytes : list Z) : M unit :=
  match bytes, fuel with
  | [], _ => mret tt
  | _, O => panic
  | _, S fuel =>
    written ← write_handle handle bytes;
    if (length bytes <? written)%nat then panic else write_from fuel handle (drop written bytes)
  end.
Definition write_all_to (handle : Z) (bytes : list Z) : M unit := write_from (length bytes) handle bytes.
Definition io_write_all (bytes : list Z) : M unit := write_all_to OUTPUT bytes.

(** [Buffered]: its bytes, of which there are at most [MAX_WRITE]. *)
Definition flush (buf : list Z) : M (list Z) := _ ← io_write_all buf; mret [].

Fixpoint write_str_from (fuel : nat) (buf s : list Z) : M (list Z) :=
  match s, fuel with
  | [], _ => mret buf
  | _, O => panic
  | _, S fuel =>
    let n := floor_char_boundary s (length s `min` (Z.to_nat MAX_WRITE - length buf)) in
    if (n =? 0)%nat then buf ← flush buf; write_str_from fuel buf s
    else write_str_from fuel (buf ++ take n s) (drop n s)
  end.

(** A turn takes a character or empties the buffer. *)
Definition write_str (buf s : list Z) : M (list Z) := write_str_from (2 * length s + 1) buf s.

(** The pieces of text that formatting gives. *)
Fixpoint write_fmt (buf : list Z) (pieces : list (list Z)) : M (list Z) :=
  match pieces with
  | [] => mret buf
  | s :: pieces => buf ← write_str buf s; write_fmt buf pieces
  end.

Definition _print (pieces : list (list Z)) : M unit :=
  _ ← catch (buf ← write_fmt [] pieces; flush buf); mret tt.

(** ** Files *)
Definition path_call (c : Z → Z → Syscall.Syscall) (path : list Z) : M Z := call_ (c (as_ptr path) (len path)) [path].
Definition handle_from (c : Z → Z → Syscall.Syscall) (path : list Z) : M Handle := h ← path_call c path; mret (mkHandle h).

Definition File_open (path : list Z) : M Handle := handle_from Syscall.Open path.
Definition File_read (f : Handle) (buf : list Z) : M (nat * list Z) := read_handle (raw f) buf.
Definition File_read_to_end (fuel : nat) (f : Handle) (bytes : list Z) : M (list Z * nat) := read_to_end_from fuel (raw f) bytes 0.

Definition fs_read (fuel : nat) (path : list Z) : M (list Z) :=
  file ← File_open path;
  scoped file (r ← File_read_to_end fuel file []; mret r.1).

Definition read_to_string (fuel : nat) (path : list Z) : M (list Z) :=
  bytes ← fs_read fuel path; if is_utf8 bytes then mret bytes else fail Errno.Invalid.

Definition NewFile_create (path : list Z) : M Handle := handle_from Syscall.Create path.
Definition NewFile_write (f : Handle) (bytes : list Z) : M nat := write_handle (raw f) bytes.
Definition NewFile_write_all (f : Handle) (bytes : list Z) : M unit := write_all_to (raw f) bytes.
Definition commit (f : Handle) : M unit := _ ← call_ (Syscall.Close (raw f)) []; mret tt.

(** [commit] takes the file, so only an error of [write_all] drops it here. *)
Definition fs_write (path bytes : list Z) : M unit :=
  file ← NewFile_create path;
  r ← catch (NewFile_write_all file bytes);
  match r with Ok _ => commit file | Err e => _ ← drop_handle file; fail e end.

Definition remove (path : list Z) : M unit := _ ← path_call Syscall.Remove path; mret tt.
Definition create_dir (path : list Z) : M unit := _ ← path_call Syscall.MakeDir path; mret tt.
Definition read_dir (path : list Z) : M Handle := handle_from Syscall.OpenDir path.

(** The entry as it lies in memory. *)
Definition ReadDir_next (d : Handle) : M (option (result Errno.Errno (list Z))) :=
  let entry := DirEntry.as_bytes DirEntry.EMPTY in
  r ← catch (call (Syscall.ReadDir (raw d) (as_ptr entry)) [entry]);
  mret (match r with
        | Ok (v, after) => if v =? 0 then None else Some (Ok (after !!! 0%nat))
        | Err e => Some (Err e)
        end).

(** ** Programs *)
Inductive Stream := Inherit | Pipe (h : Handle).
Definition stream_handle (own : Z) (s : Stream) : Z := match s with Inherit => own | Pipe h => raw h end.

Definition spawn_with (path args : list Z) (input output : Stream) : M Handle :=
  h ← call_ (Syscall.Spawn (as_ptr path) (len path) (as_ptr args) (len args) (stream_handle INPUT input) (stream_handle OUTPUT output))
        [path; args];
  mret (mkHandle h).
Definition spawn (path args : list Z) : M Handle := spawn_with path args Inherit Inherit.

Definition wait (child : Handle) : M ExitStatus.ExitStatus :=
  status ← call_ (Syscall.Wait (raw child)) [];
  lift (ok_or (ExitStatus.decode status) Errno.Unknown).

Definition pipe : M (Handle * Handle) :=
  let ends := replicate 16 0 in
  r ← call (Syscall.Pipe (as_ptr ends)) [ends];
  let after := r.2 !!! 0%nat in
  mret (mkHandle (le_value (take 8 after)), mkHandle (le_value (take 8 (drop 8 after)))).

(** ** The screen *)
Definition rgb (r g b : Z) : Z := Z.lor (Z.lor (Z.shiftl r 16) (Z.shiftl g 8)) b.

Record Screen := mkScreen { screen_handle : Handle; width : Z; height : Z }.

Definition screen_open : M Screen :=
  let size := ScreenSize.as_bytes (ScreenSize.mkScreenSize 0 0) in
  r ← call (Syscall.OpenScreen (as_ptr size)) [size];
  let after := r.2 !!! 0%nat in
  mret (mkScreen (mkHandle r.1) (le_value (take 4 after)) (le_value (take 4 (drop 4 after)))).

Definition draw (s : Screen) (x y w : Z) (pixels : list Z) : M unit :=
  if w =? 0 then mret tt else
  let memory := pixels ≫= le_bytes 4 in
  _ ← call (Syscall.Draw (raw (screen_handle s)) x y w (len pixels / w) (as_ptr memory)) [memory]; mret tt.

Fixpoint fill_rows (s : Screen) (x y w : Z) (row : list Z) (rows : nat) : M unit :=
  match rows with
  | O => mret tt
  | S rows => _ ← draw s x y w row; fill_rows s x (y + 1) w row rows
  end.
Definition fill (s : Screen) (x y w h color : Z) : M unit := fill_rows s x y w (replicate (Z.to_nat w) color) (Z.to_nat h).
Definition clear (s : Screen) (color : Z) : M unit := fill s 0 0 (width s) (height s) color.

(** ** Environment and time *)
Definition current_dir : M (list Z) :=
  let buf := replicate (Z.to_nat MAX_PATH) 0 in
  r ← call (Syscall.CurrentDir (as_ptr buf) (len buf)) [buf];
  if MAX_PATH <? r.1 then panic else
  let path := take (Z.to_nat r.1) (r.2 !!! 0%nat) in
  if is_utf8 path then mret path else fail Errno.Invalid.
Definition set_current_dir (path : list Z) : M unit := _ ← path_call Syscall.ChangeDir path; mret tt.

(** [Duration] in microseconds, of which a [u64] may hold too few. *)
Definition uptime : M Z := r ← catch (call_ Syscall.Uptime []); mret (match r with Ok us => us | Err _ => 0 end).
Definition sleep (micros : Z) : M unit := _ ← catch (call_ (Syscall.Sleep (Z.min micros (2 ^ 64 - 1))) []); mret tt.
Definition yield_now : M unit := _ ← catch (call_ Syscall.Yield []); mret tt.

(** ** Start and end *)
(** [unreachable!] if the kernel came back. *)
Definition exit {A} (code : Z) : M A := _ ← catch (call_ (Syscall.Exit code) []); panic.

(** What main may return: nothing, a code, or an error, whose text is printed. *)
Inductive Termination := Nothing | Code (code : Z) | Failed (error : list (list Z)).
Definition exit_code (t : Termination) : M Z :=
  match t with
  | Nothing => mret 0
  | Code code => mret code
  | Failed error => _ ← _print (str "error: " :: error ++ [[10]]); mret 1
  end.
Definition start (main : M Termination) : M unit := t ← main; code ← exit_code t; exit code.

(** The arguments the kernel left on the stack. *)
Definition args (memory : list Z) : list Z := if is_utf8 memory then memory else [].

(** ** Random numbers *)
Fixpoint fill_chunks (fuel : nat) (n : nat) : M (list Z) :=
  match fuel, n with
  | S fuel, S _ =>
    let chunk := replicate (Nat.min (Z.to_nat MAX_RANDOM) n) 0 in
    r ← catch (call (Syscall.Random (as_ptr chunk) (len chunk)) [chunk]);
    filled ← (match r with Ok (_, after) => mret (after !!! 0%nat) | Err _ => panic end);
    rest ← fill_chunks fuel (n - length chunk)%nat;
    mret (filled ++ rest)
  | _, _ => mret []
  end.
Definition random_fill (n : nat) : M (list Z) := fill_chunks n n.
Definition random_u32 : M Z := bytes ← random_fill 4; mret (le_value bytes).
Definition random_u64 : M Z := bytes ← random_fill 8; mret (le_value bytes).

(** What [range] makes of a draw; [None] is to draw again. *)
Definition pick (start end_ draw : Z) : option Z :=
  let span := end_ - start in
  let fair := (2 ^ 64 - 1) / span * span in
  if draw <? fair then Some (start + draw mod span) else None.

(** [fuel] draws are made at most: how many are needed is a matter of luck. *)
Fixpoint range_from (fuel : nat) (start end_ : Z) : M Z :=
  match fuel with
  | O => panic
  | S fuel =>
    draw ← random_u64;
    match pick start end_ draw with Some v => mret v | None => range_from fuel start end_ end
  end.
Definition random_range (fuel : nat) (start end_ : Z) : M Z := if end_ <=? start then panic else range_from fuel start end_.
End library.

(** ** The heap *)
Module Allocator.
Import Heap.

Definition GROW_BY : Z := 64 * 1024.

Definition next_multiple_of (x m : Z) : Z := (x + m - 1) / m * m.

Section allocator.
Context {W : Type} `{Os W}.
Local Notation M := (Eff (W * State) Empty_set).

Definition on_heap {A} (op : State → result Failure (State * A)) : M A := λ '(w, h),
  match op h with Ok (h, a) => Ret (w, h) a | Err _ => Panic end.
Definition ask (c : Syscall.Syscall) : M (result Errno.Errno Z) := λ '(w, h),
  match call_ c [] w with Ret w v => Ret (w, h) (Ok v) | Fail w e => Ret (w, h) (Err e) | Panic => Panic end.

Definition heap_extend (start end_ : Z) : M unit := on_heap (λ h, h ← extend start end_ h; Ok (h, tt)).

Definition grow_len (layout : Layout) : Z :=
  next_multiple_of (Z.max (l_size layout + l_align layout) GROW_BY) layout.PAGE_SIZE.

Definition alloc (layout : Layout) : M Z :=
  block ← on_heap (Heap.alloc layout);
  if negb (block =? 0) then mret block else
  let len := grow_len layout in
  r ← ask (Syscall.Map len);
  match r with
  | Ok start => _ ← heap_extend start (start + len); on_heap (Heap.alloc layout)
  | Err _ => mret 0
  end.

Definition dealloc (block : Z) (layout : Layout) : M unit := on_heap (λ h, h ← Heap.dealloc block layout h; Ok (h, tt)).
Definition stats : M Stats := on_heap (λ h, s ← Heap.stats h; Ok (h, s)).
End allocator.
End Allocator.
End User.
