(* ===== verification/UserProps.v ===== *)
(** What programs can rely on of the kernel, and what the library then promises them: text is printed whole,
    files are read and written whole and no handle is left open, the heap grows until the kernel has no more
    memory, random numbers are fair. *)
From S2P Require Import Prelude Bytes Text Abi Effect Link Heap User.
From stdpp Require Import strings.
Open Scope Z_scope.

Module UserProps.
Import Effect Text Abi User.

(** * What is relied on *)

(** What a handle is: a file with the bytes still to be read, a new file with those written so far, or
    something else. *)
Inductive Obj := Reading (rest : list Z) | Writing (path data : list Z) | Another.

(** The kernel as one program sees it while nobody else uses the card.  [on_console]: the output is the
    console, and not a pipe. *)
Class LawfulOs (W : Type) `{Os W} := {
  opened : W → gmap Z Obj;
  file : W → list Z → option (list Z);
  on_console : W → bool;
  printed : W → list Z;
  heap_end : W → Z;
  (** Open *)
  open_law w path : wp (call_ (Syscall.Open (as_ptr path) (len path)) [path]) w
    (λ w' h, opened w !! h = None ∧ file w' = file w ∧
       ∃ data, file w path = Some data ∧ opened w' = <[h := Reading data]> (opened w))
    (λ w' _, opened w' = opened w ∧ file w' = file w);
  (** Read: at most what is left and fits, and nothing only at the end *)
  read_law w h rest buf : opened w !! h = Some (Reading rest) →
    wp (call (Syscall.Read h (as_ptr buf) (len buf)) [buf]) w
      (λ w' r, ∃ n buf', r = (Z.of_nat n, [buf']) ∧ (n ≤ length rest)%nat ∧ (n ≤ length buf)%nat ∧ (n = 0 → rest = [] ∨ buf = [])%nat ∧
         length buf' = length buf ∧ take n buf' = take n rest ∧
         opened w' = <[h := Reading (drop n rest)]> (opened w) ∧ file w' = file w)
      (λ w' _, opened w' = opened w ∧ file w' = file w);
  (** Create *)
  create_law w path : wp (call_ (Syscall.Create (as_ptr path) (len path)) [path]) w
    (λ w' h, opened w !! h = None ∧ file w' = file w ∧ opened w' = <[h := Writing path []]> (opened w))
    (λ w' _, opened w' = opened w ∧ file w' = file w);
  (** Write: some of the bytes, or an error and none *)
  write_law w h path data bytes : opened w !! h = Some (Writing path data) → bytes ≠ [] →
    wp (call_ (Syscall.Write h (as_ptr bytes) (len bytes)) [bytes]) w
      (λ w' v, ∃ n, v = Z.of_nat n ∧ (0 < n ≤ length bytes)%nat ∧
         opened w' = <[h := Writing path (data ++ take n bytes)]> (opened w) ∧ file w' = file w)
      (λ w' _, opened w' = opened w ∧ file w' = file w);
  (** Close: a new file goes onto the card, replacing the old one at once *)
  close_law w h o : opened w !! h = Some o →
    wp (call_ (Syscall.Close h) []) w
      (λ w' _, opened w' = delete h (opened w) ∧
         match o with Writing path data => file w' path = Some data | _ => file w' = file w end)
      (λ w' _, opened w' = delete h (opened w) ∧
         match o with Writing path data => file w' path = file w path ∨ file w' path = Some data | _ => file w' = file w end);
  (** The console shows text as it is, but for [$], and [?] for what is not text *)
  print_law w bytes : on_console w = true →
    wp (call_ (Syscall.Write OUTPUT (as_ptr bytes) (len bytes)) [bytes]) w
      (λ w' v, let n := Nat.min (length bytes) (Z.to_nat MAX_WRITE) in
         v = Z.of_nat n ∧ printed w' = printed w ++ concat (Link.plain_text (take n bytes)) ∧ on_console w' = true)
      (λ _ _, False);
  (** Map: whole pages, right after the last; pages mapped before memory ran out stay mapped *)
  heap_end_aligned w : 0 < heap_end w <= layout.PROGRAM_END ∧ heap_end w mod layout.PAGE_SIZE = 0;
  map_law w n : 0 < n → n mod layout.PAGE_SIZE = 0 →
    wp (call_ (Syscall.Map n) []) w
      (λ w' start, start = heap_end w ∧ heap_end w' = heap_end w + n) (λ w' _, heap_end w <= heap_end w' < heap_end w + n) }.

(** * Characters *)
Lemma next_char_short l n : next_char l = Some n → (n ≤ 4)%nat.
Proof. unfold next_char. intros Hn. repeat (case_match; try discriminate; simplify_eq); lia. Qed.

Lemma next_char_start b l n : next_char (b :: l) = Some n → cont b = false.
Proof.
  unfold next_char. intros Hn. destruct (cont b) eqn:Ec; [|done]. exfalso. unfold cont in Ec. apply andb_prop in Ec as [?%Z.leb_le ?%Z.leb_le].
  revert Hn. unfold Bytes.between. repeat (case_match; try discriminate); lia.
Qed.

(** A character ends at a boundary. *)
Lemma next_char_boundary l n : next_char l = Some n → is_utf8 (drop n l) = true → is_char_boundary l n = true.
Proof.
  intros Hn Hd. pose proof (next_char_bounds _ _ Hn). unfold is_char_boundary. destruct (decide _); [done|].
  destruct (l !! n) as [b|] eqn:El.
  - rewrite (drop_S l b n El) in Hd. rewrite is_utf8_cons in Hd by done. destruct (next_char (b :: _)) eqn:E; [|done].
    by rewrite (next_char_start _ _ _ E).
  - apply lookup_ge_None in El. apply bool_decide_eq_true. lia.
Qed.

Lemma is_utf8_drop l i : is_utf8 l = true → is_char_boundary l i = true → (i ≤ length l)%nat → is_utf8 (drop i l) = true.
Proof.
  intros Hl. revert i. revert l Hl. apply (is_utf8_ind (λ l, ∀ i, is_char_boundary l i = true → (i ≤ length l)%nat → is_utf8 (drop i l) = true)).
  { intros i _ _. by rewrite drop_nil. }
  intros l n Hne Hn Hu IH i Hi Hil. destruct (decide (i = 0%nat)) as [->|Hi0].
  { rewrite drop_0, is_utf8_cons by done. by rewrite Hn. }
  assert (n ≤ i)%nat.
  { destruct (Nat.le_gt_cases n i) as [|Hlt]; [done|]. destruct (next_char_shape l n i Hn ltac:(lia)) as (b & Hb & Hc).
    unfold is_char_boundary in Hi. by rewrite decide_False, Hb, Hc in Hi by done. }
  destruct (decide (i = n)) as [->|]; [done|]. replace i with (n + (i - n))%nat by lia. rewrite <-drop_drop.
  apply IH; [apply is_char_boundary_drop; [lia|done]|rewrite length_drop; lia].
Qed.

Section library.
Context {W : Type} `{LawfulOs W}.
Local Notation M := (Eff W Errno.Errno).

Lemma wp_write_handle h bytes w Q R :
  wp (call_ (Syscall.Write h (as_ptr bytes) (len bytes)) [bytes]) w Q R →
  wp (write_handle h bytes) w (λ w' n, ∃ v, n = Z.to_nat v ∧ Q w' v) R.
Proof. intros Hw. eapply wp_call; [exact Hw| |done]. intros w' v Hq. by exists v. Qed.

(** * Printing *)
Lemma write_console w bytes : on_console w = true → is_utf8 bytes = true → (length bytes ≤ 256)%nat →
  wp (io_write_all bytes : M _) w
    (λ w' _, on_console w' = true ∧ printed w' = printed w ++ (Link.hide_dollar <$> bytes)) (λ _ _, False).
Proof.
  intros Hc Hu Hl. unfold io_write_all, write_all_to. destruct bytes as [|b bytes].
  { apply wp_ret. by rewrite app_nil_r. }
  cbn [length write_from]. eapply wp_call; [by apply wp_write_handle, print_law| |done]; cbv zeta beta.
  intros w' n (? & -> & -> & Hp & Hc'). rewrite Nat.min_l, firstn_all in * by (unfold MAX_WRITE; cbn [length] in *; lia).
  rewrite Nat2Z.id, Nat.ltb_irrefl, drop_all. destruct (length bytes); (apply wp_ret; split; [done|]); rewrite Hp;
    by rewrite (proj2 (proj2 (Link.plain_text_cannot_forge_frames _))).
Qed.

(** Text in the buffer is whole characters, and there is room for another in an empty one. *)
Definition buffers (buf : list Z) : Prop := is_utf8 buf = true ∧ (length buf ≤ 256)%nat.

Lemma buffers_nil : buffers [].
Proof. split; [done|cbn; lia]. Qed.

Lemma first_char_fits s : is_utf8 s = true → s ≠ [] → (0 < floor_char_boundary s (length s `min` 256))%nat.
Proof.
  intros Hs Hne. rewrite is_utf8_cons in Hs by done. destruct (next_char s) as [n|] eqn:En; [|done].
  pose proof (next_char_bounds _ _ En). pose proof (next_char_short _ _ En).
  destruct (floor_char_boundary_spec s (length s `min` 256)) as (_ & _ & Hj).
  destruct (Nat.eq_dec (floor_char_boundary s (length s `min` 256)) 0%nat) as [E0|]; [|lia].
  specialize (Hj n ltac:(lia)). by rewrite (next_char_boundary s n En Hs) in Hj.
Qed.

Lemma flush_spec w buf : on_console w = true → buffers buf →
  wp (flush buf : M _) w (λ w' buf', buf' = [] ∧ on_console w' = true ∧ printed w' = printed w ++ (Link.hide_dollar <$> buf)) (λ _ _, False).
Proof. intros Hc [Hu Hl]. eapply wp_call; [by apply write_console| |done]. by intros w' ? [? ?]. Qed.

Lemma write_str_from_spec fuel w buf s : on_console w = true → buffers buf → is_utf8 s = true →
  (2 * length s + (if bool_decide (buf = []) then 0 else 1) ≤ fuel)%nat →
  wp (write_str_from fuel buf s : M _) w
    (λ w' buf', on_console w' = true ∧ buffers buf' ∧ ∃ out, printed w' = printed w ++ (Link.hide_dollar <$> out) ∧ out ++ buf' = buf ++ s)
    (λ _ _, False).
Proof.
  revert w buf s. induction fuel as [|fuel IH]; intros w buf s Hc [Hbu Hbl] Hs Hf.
  { destruct s; [|cbn [length] in Hf; lia]. apply wp_ret. split_and!; [done..|]. exists []. by rewrite !app_nil_r. }
  destruct s as [|c s]; cbn [write_str_from].
  { apply wp_ret. split_and!; [done..|]. exists []. by rewrite !app_nil_r. }
  change (Z.to_nat MAX_WRITE) with 256%nat. set (t := c :: s) in *.
  destruct (floor_char_boundary_spec t (length t `min` (256 - length buf))) as (Hn & Hcut & _).
  pose proof (first_char_fits t Hs ltac:(done)) as Hfit.
  set (n := floor_char_boundary t (length t `min` (256 - length buf))) in *.
  destruct (Nat.eqb_spec n 0) as [En|En].
  - destruct (decide (buf = [])) as [->|Hne]; [change n with (floor_char_boundary t (length t `min` 256)) in En; lia|].
    rewrite bool_decide_false in Hf by done.
    eapply wp_call; [by apply flush_spec| |done]; cbn beta.
    intros w1 buf1 (-> & Hc1 & Hp1). eapply wp_mono; [apply IH; [done|apply buffers_nil|done|]|..]; cbn beta.
    + rewrite bool_decide_true by done. lia.
    + intros w2 buf2 (Hc2 & Hb2 & out & Hp2 & Ho). split_and!; [done..|]. exists (buf ++ out).
        rewrite Hp2, Hp1, fmap_app, <-!app_assoc. by rewrite Ho.
    + done.
  - eapply wp_mono; [apply IH|..]; cbn beta; [done| | | |..].
    + split; [apply is_utf8_app; [done|by apply is_utf8_take]|]. rewrite length_app, length_take. lia.
    + apply is_utf8_drop; [done|done|lia].
    + rewrite length_drop. case_bool_decide; case_bool_decide; lia.
    + intros w2 buf2 (Hc2 & Hb2 & out & Hp2 & Ho). split_and!; [done..|]. exists out. split; [done|].
      by rewrite Ho, <-app_assoc, take_drop.
    + done.
Qed.

Lemma write_fmt_spec pieces w buf : on_console w = true → buffers buf → Forall (λ s, is_utf8 s = true) pieces →
  wp (write_fmt buf pieces : M _) w
    (λ w' buf', on_console w' = true ∧ buffers buf' ∧
       ∃ out, printed w' = printed w ++ (Link.hide_dollar <$> out) ∧ out ++ buf' = buf ++ concat pieces)
    (λ _ _, False).
Proof.
  intros Hc Hb Hp. revert w buf Hc Hb. induction Hp as [|s pieces Hs _ IH]; intros w buf Hc Hb; cbn [write_fmt concat].
  { apply wp_ret. split_and!; [done..|]. exists []. by rewrite !app_nil_r. }
  eapply wp_call; [apply write_str_from_spec; [done|done|done|]| |done]; cbn beta; [case_bool_decide; lia|].
  intros w1 buf1 (Hc1 & Hb1 & out1 & Hp1 & Ho1). eapply wp_mono; [by apply IH|..]; cbn beta; [|done].
  intros w2 buf2 (Hc2 & Hb2 & out2 & Hp2 & Ho2). split_and!; [done..|]. exists (out1 ++ out2).
  rewrite Hp2, Hp1, fmap_app, <-!app_assoc, Ho2. split; [done|]. by rewrite app_assoc, Ho1, <-app_assoc.
Qed.

(** Printing shows all of the text, once and in order, as if it went in one piece: however long it is, in
    how many pieces formatting delivers it and where they are cut to fit the kernel's limit, no character is
    split or replaced (only [$] shows as [?]), and printing always ends. *)
Theorem text_is_printed_whole w pieces : on_console w = true → Forall (λ s, is_utf8 s = true) pieces →
  wp (_print pieces : M unit) w (λ w' _, printed w' = printed w ++ (Link.hide_dollar <$> concat pieces)) (λ _ _, False).
Proof.
  intros Hc Hp. unfold _print.
  eapply (wp_call _ _ _ (λ w' _, printed w' = printed w ++ (Link.hide_dollar <$> concat pieces)) (λ _ _, False)); [apply wp_catch|by intros|done].
  eapply wp_call; [apply write_fmt_spec; [done|apply buffers_nil|done]| |done]; cbn beta.
  intros w1 buf (Hc1 & Hb & out & Hp1 & Ho). eapply wp_mono; [by apply flush_spec|..]; cbn beta; [|done].
  intros w2 buf' (_ & _ & Hp2). by rewrite Hp2, Hp1, <-app_assoc, <-fmap_app, Ho.
Qed.

(** * Files *)

Lemma wp_read_handle w h rest buf : opened w !! h = Some (Reading rest) →
  wp (read_handle h buf : M _) w
    (λ w' r, (r.1 ≤ length rest)%nat ∧ (r.1 ≤ length r.2)%nat ∧ (r.1 = 0%nat → rest = [] ∨ buf = []) ∧ take r.1 r.2 = take r.1 rest ∧
       opened w' = <[h := Reading (drop r.1 rest)]> (opened w) ∧ file w' = file w)
    (λ w' _, opened w' = opened w ∧ file w' = file w).
Proof.
  intros Ho. eapply wp_call; [by apply read_law| |done]. intros w' r (n & buf' & -> & Hr & Hb & H0' & Hl & Ht & Ho' & Hf').
  apply wp_ret. cbn [fst snd]. rewrite Nat2Z.id. change ([buf'] !!! 0%nat) with buf'. split_and!; [done|lia|done..].
Qed.

(** Reading to the end gives what was left, and leaves nothing. *)
Lemma read_to_end_spec fuel w h rest acc n : opened w !! h = Some (Reading rest) → (length rest < fuel)%nat →
  wp (read_to_end_from fuel h acc n : M _) w
    (λ w' r, r.1 = acc ++ rest ∧ r.2 = (n + length rest)%nat ∧ opened w' = <[h := Reading []]> (opened w) ∧ file w' = file w)
    (λ w' _, file w' = file w ∧ ∃ rest', opened w' = <[h := Reading rest']> (opened w)).
Proof.
  revert w rest acc n. induction fuel as [|fuel IH]; intros w rest acc n Ho Hf; [lia|]. cbn [read_to_end_from].
  eapply wp_call; [by apply (wp_read_handle w h rest)| |]; cbn beta.
  2: { intros w' e [Ho' Hf']. split; [done|]. exists rest. by rewrite Ho', insert_id. }
  intros w1 [k chunk]. cbn [fst snd]. intros (Hk & Hkc & Hz & Ht & Ho1 & Hf1). destruct (Nat.eqb_spec k 0) as [->|Hk0].
  - destruct (Hz eq_refl) as [->|?]; [|done]. apply wp_ret. cbn [fst snd length]. rewrite app_nil_r, Nat.add_0_r. by rewrite drop_nil in Ho1.
  - rewrite (proj2 (Nat.ltb_ge _ _)) by done. eapply wp_mono; [apply (IH w1 (drop k rest))|..]; cbn beta.
    + rewrite Ho1. by rewrite lookup_insert_eq.
    + rewrite length_drop. lia.
    + intros w2 r (-> & -> & Ho2 & Hf2). rewrite Ht, <-app_assoc, take_drop, length_drop, Ho2, Ho1, insert_insert_eq, Hf2.
      split_and!; [done|lia|done|done].
    + intros w2 e [Hf2 [rest' Ho2]]. rewrite Hf2. split; [done|]. exists rest'. by rewrite Ho2, Ho1, insert_insert_eq.
Qed.

(** Dropping a file that was read: nothing changes on the card. *)
Lemma drop_reading w h rest : opened w !! h = Some (Reading rest) →
  wp (drop_handle (mkHandle h) : M unit) w (λ w' _, opened w' = delete h (opened w) ∧ file w' = file w) (λ _ _, False).
Proof.
  intros Ho. eapply (wp_call _ _ _ (λ w' _, opened w' = delete h (opened w) ∧ file w' = file w) (λ _ _, False)); [|by intros|done].
  apply wp_catch. by eapply wp_mono; [apply (close_law w h (Reading rest))|..].
Qed.

Lemma wp_handle_from c path w Q R :
  wp (call_ (c (as_ptr path) (len path)) [path]) w Q R → wp (handle_from c path : M _) w (λ w' h, Q w' (raw h)) R.
Proof. intros Hw. eapply wp_call; [exact Hw| |done]. done. Qed.

(** The scope of a file that is read. *)
Lemma scoped_reading {A} w h (body : M A) (Q : A → Prop) :
  wp body w (λ w' a, Q a ∧ file w' = file w ∧ ∃ rest, opened w' = <[h := Reading rest]> (opened w))
    (λ w' _, file w' = file w ∧ ∃ rest, opened w' = <[h := Reading rest]> (opened w)) →
  wp (scoped (mkHandle h) body) w (λ w' a, Q a ∧ file w' = file w ∧ opened w' = delete h (opened w))
    (λ w' _, file w' = file w ∧ opened w' = delete h (opened w)).
Proof.
  intros Hb. eapply (wp_call _ _ _ (λ w' r, (∀ a, r = Ok a → Q a) ∧ file w' = file w ∧ ∃ rest, opened w' = <[h := Reading rest]> (opened w))
    (λ _ _, False)); [apply wp_catch; eapply wp_mono; [exact Hb|..]; cbn beta| |done].
  - intros w' x (Hq & Hr). split; [by intros ? [= <-]|done].
  - by intros w' e Hr.
  - intros w1 r (Hq & Hf1 & rest & Ho1). eapply wp_call; [apply (drop_reading w1 h rest); rewrite Ho1; by rewrite lookup_insert_eq| |done].
    intros w2 ? [Ho2 Hf2]. rewrite Ho1, delete_insert_eq in Ho2. rewrite Hf1 in Hf2.
    destruct r as [x|e]; [apply wp_ret|apply wp_fail]; [by split; [apply Hq|]|done].
Qed.

(** A whole file is read, whatever the kernel gives at a time; nothing is left open, and nothing changes. *)
Lemma fs_read_spec fuel w path : (∀ data, file w path = Some data → (length data < fuel)%nat) →
  wp (fs_read fuel path : M _) w
    (λ w' data, file w path = Some data ∧ opened w' = opened w ∧ file w' = file w)
    (λ w' _, opened w' = opened w ∧ file w' = file w).
Proof.
  intros Hf. unfold fs_read, File_open. eapply wp_call; [apply wp_handle_from, open_law| |done]; cbn beta.
  intros w1 [h] (Hn & Hf1 & data & Hd & Ho1). cbn [raw] in *.
  eapply wp_mono; [apply (scoped_reading w1 h _ (λ r, r = data))|..]; cbn beta.
  - assert (Hh : opened w1 !! h = Some (Reading data)) by (rewrite Ho1; by rewrite lookup_insert_eq).
    eapply wp_call; [apply (read_to_end_spec fuel w1 h data [] 0); [done|by apply Hf]| |done]; cbn beta.
    intros w2 [r k]. cbn [fst snd]. intros (-> & _ & Ho2 & Hf2). apply wp_ret. split_and!; [done|done|by exists []].
  - intros w2 r (-> & Hf2 & Ho2). rewrite Ho2, Ho1, delete_insert_id, Hf2, Hf1 by done. done.
  - intros w2 e (Hf2 & Ho2). rewrite Ho2, Ho1, delete_insert_id, Hf2, Hf1 by done. done.
Qed.

(** ** Writing *)
Lemma write_from_spec fuel w h path data bytes : opened w !! h = Some (Writing path data) → (length bytes ≤ fuel)%nat →
  wp (write_from fuel h bytes : M _) w
    (λ w' _, opened w' = <[h := Writing path (data ++ bytes)]> (opened w) ∧ file w' = file w)
    (λ w' _, file w' = file w ∧ ∃ k, (k < length bytes)%nat ∧ opened w' = <[h := Writing path (data ++ take k bytes)]> (opened w)).
Proof.
  revert w data bytes. induction fuel as [|fuel IH]; intros w data bytes Ho Hl; destruct bytes as [|b bytes]; cbn [write_from];
    [|cbn [length] in Hl; lia| |]; [apply wp_ret; by rewrite app_nil_r, insert_id..|].
  set (t := b :: bytes) in *. eapply wp_call; [apply wp_write_handle; by apply (write_law w h path data)| |]; cbn beta.
  2: { intros w' e [Ho' Hf']. split; [done|]. exists 0%nat. rewrite app_nil_r, Ho', insert_id by done. split; [cbn; lia|done]. }
  intros w1 ? (? & -> & k & -> & Hk & Ho1 & Hf1). rewrite Nat2Z.id, (proj2 (Nat.ltb_ge _ _)) by lia.
  assert (Hh : opened w1 !! h = Some (Writing path (data ++ take k t))) by (rewrite Ho1; by rewrite lookup_insert_eq).
  eapply wp_mono; [apply (IH w1 _ (drop k t) Hh); rewrite length_drop; lia|..]; cbn beta.
  - intros w2 ? [Ho2 Hf2]. rewrite Ho2, Ho1, insert_insert_eq, <-app_assoc, take_drop, Hf2. done.
  - intros w2 e (Hf2 & k' & Hk' & Ho2). rewrite length_drop in Hk'. rewrite Hf2. split; [done|]. exists (k + k')%nat. split; [lia|].
    rewrite Ho2, Ho1, insert_insert_eq, <-app_assoc. by rewrite take_take_drop.
Qed.

(** Closing a new file, whether it is told of an error or not. *)
Definition part_stored (w w' : W) (path bytes : list Z) : Prop :=
  file w' path = file w path ∨ ∃ k, (k ≤ length bytes)%nat ∧ file w' path = Some (take k bytes).

Lemma fs_write_spec w path bytes :
  wp (fs_write path bytes : M unit) w
    (λ w' _, opened w' = opened w ∧ file w' path = Some bytes)
    (λ w' _, opened w' = opened w ∧ part_stored w w' path bytes).
Proof.
  unfold fs_write, NewFile_create. eapply wp_call; [apply wp_handle_from, create_law| |]; cbn beta.
  2: { intros w' e [Ho Hf]. split; [done|]. left. by rewrite Hf. }
  intros w1 [h] (Hn & Hf1 & Ho1). cbn [raw] in *.
  assert (Hh : opened w1 !! h = Some (Writing path [])) by (rewrite Ho1; by rewrite lookup_insert_eq).
  eapply (wp_call _ _ _ (λ w2 r, file w2 = file w1 ∧ ∃ k, (k ≤ length bytes)%nat ∧ (is_ok r = true → k = length bytes) ∧
    opened w2 = <[h := Writing path (take k bytes)]> (opened w1)) (λ _ _, False)); [apply wp_catch| |done].
  - eapply wp_mono; [by apply (write_from_spec (length bytes) w1 h path [] bytes)|..]; cbn beta.
    + intros w2 ? [Ho2 Hf2]. split; [done|]. exists (length bytes). rewrite firstn_all. done.
    + intros w2 e (Hf2 & k & Hk & Ho2). split; [done|]. exists k. split_and!; [lia|done|done].
  - intros w2 r (Hf2 & k & Hk & Hr & Ho2).
    assert (Hh2 : opened w2 !! h = Some (Writing path (take k bytes))) by (rewrite Ho2; by rewrite lookup_insert_eq).
    assert (Hback : delete h (opened w2) = opened w) by (rewrite Ho2, Ho1, insert_insert_eq; by apply delete_insert_id).
    pose proof (close_law w2 h _ Hh2) as Hc. rewrite Hback, Hf2, Hf1 in Hc. destruct r as [[]|e].
    + eapply wp_call; [exact Hc|..]; cbn beta.
      * intros w3 ? [Ho3 Hf3]. rewrite (Hr eq_refl), firstn_all in Hf3. done.
      * intros w3 e [Ho3 Hf3]. split; [done|]. destruct Hf3; [by left|right; eauto].
    + eapply (wp_call _ _ _ (λ w3 _, opened w3 = opened w ∧ part_stored w w3 path bytes) (λ _ _, False)); [|by intros|done].
      eapply (wp_call _ _ _ (λ w3 _, opened w3 = opened w ∧ part_stored w w3 path bytes) (λ _ _, False)); [|by intros|done].
      apply wp_catch. eapply wp_mono; [exact Hc|..]; cbn beta.
      * intros w3 ? [Ho3 Hf3]. split; [done|]. right. eauto.
      * intros w3 ? [Ho3 Hf3]. split; [done|]. destruct Hf3; [by left|right; eauto].
Qed.

(** C24: A file that was written reads back as it was written, however little the kernel takes or gives at a
    time.  Reading changes nothing.  A write that fails leaves the old file, or the first part of the new one
    (and not always the old one: [failed_write_truncates]).  No handle stays open, whatever fails. *)
Theorem written_files_read_back fuel w path bytes : (length bytes < fuel)%nat →
  wp (_ ← fs_write path bytes; fs_read fuel path : M (list Z)) w
    (λ w' data, data = bytes ∧ opened w' = opened w ∧ file w' path = Some bytes)
    (λ w' _, opened w' = opened w ∧ (file w' path = Some bytes ∨ part_stored w w' path bytes)).
Proof.
  intros Hf. eapply wp_call; [apply fs_write_spec| |]; cbn beta.
  - intros w1 ? [Ho Hd]. eapply wp_mono; [apply fs_read_spec|..]; cbn beta.
    + intros data. rewrite Hd. by intros [= <-].
    + intros w2 data (Hd2 & Ho2 & Hf2). rewrite Hd in Hd2. injection Hd2 as <-. by rewrite Ho2, Hf2.
    + intros w2 e (Ho2 & Hf2). rewrite Ho2, Hf2. auto.
  - intros w' e [Ho Hp]. auto.
Qed.
End library.

(** * Random numbers *)

(** [range] is fair: the draws that give one value of the range are as many as those that give any other
    (every value [v] of the range is picked by the draws [v - start + i * span], for as many [i] as there are
    whole spans in a draw), no draw gives anything outside the range, and at least every second draw is used. *)
Theorem range_is_fair start end_ : 0 <= start → start < end_ → end_ < 2 ^ 64 →
  let span := end_ - start in
  (∀ draw v, 0 <= draw → pick start end_ draw = Some v → start <= v < end_) ∧
  (∀ v draw, start <= v < end_ → 0 <= draw →
     pick start end_ draw = Some v ↔ ∃ i, 0 <= i < (2 ^ 64 - 1) / span ∧ draw = v - start + i * span) ∧
  (∀ draw, 0 <= draw < 2 ^ 63 → pick start end_ draw ≠ None).
Proof.
  intros Hs Hse He. cbv zeta. unfold pick. remember (end_ - start) as span eqn:Hspan. assert (Hsp : 0 < span < 2 ^ 64) by lia.
  remember (2 ^ 64 - 1) as m eqn:Hm. remember (m / span) as k eqn:Hk.
  assert (Hks : k * span <= m < k * span + span) by (subst k; pose proof (Z.div_mod m span); pose proof (Z.mod_pos_bound m span); lia).
  assert (1 <= k) by nia.
  split_and!.
  - intros draw v Hd. destruct (Z.ltb_spec draw (k * span)); [|done]. intros [= <-]. pose proof (Z.mod_pos_bound draw span). lia.
  - intros v draw Hv Hd. split.
    + destruct (Z.ltb_spec draw (k * span)); [|done]. intros [= <-]. exists (draw / span). pose proof (Z.div_mod draw span).
      split; [|lia]. split; [apply Z.div_pos; lia|]. apply Z.div_lt_upper_bound; lia.
    + intros (i & Hi & ->). rewrite (proj2 (Z.ltb_lt _ _)) by nia. f_equal. rewrite Z.mod_add, Z.mod_small; lia.
  - intros draw Hd. rewrite (proj2 (Z.ltb_lt _ _)); [done|]. destruct (Z.le_gt_cases span (2 ^ 63)); nia.
Qed.


(** * The heap *)
Section heap.
Import Heap FreeList.
Context {W : Type} `{LawfulOs W}.

Lemma alloc_cases L s l : layout_ok L → Inv s l → ∃ s' p l', Heap.alloc L s = Ok (s', p) ∧ Inv s' l' ∧ total (heap s') = total (heap s) ∧
  ((p = 0 ∧ l' = l ∧ ∀ q, q mod Z.max (l_align L) 16 = 0 → ¬ ∀ x, q <= x < q + block_size L → is_free l x) ∨
   (0 < p ∧ p mod Z.max (l_align L) 16 = 0 ∧ (∀ x, p <= x < p + block_size L → is_free l x) ∧
    (∀ x, is_free l' x ↔ is_free l x ∧ ¬ p <= x < p + block_size L))).
Proof.
  intros HL HI. pose proof (alloc_sim L s l HL HI) as Hsim. cbv zeta in *. destruct (block_size_spec L HL) as (_ & _ & _ & Hreq & _).
  destruct (alloc_list _ _ l) as [l' p] eqn:E. destruct Hsim as (s' & Ha & HI' & Ht & _).
  destruct (alloc_list_spec _ _ 0 l l' p Hreq ltac:(lia) (inv_wf s l HI) E) as [_ Hcase].
  exists s', p, l'. split_and!; [done..|]. destruct Hcase as [(-> & -> & Hno)|(Hp & Hm & Hf & Hiff & _)]; [by left|by right].
Qed.

Lemma align_up_16 x : 0 <= x < 2 ^ 62 → x mod 16 = 0 → align_up x BLOCK_ALIGN = x.
Proof.
  intros Hx Hm. rewrite align_up_ceil by (apply power_of_two_16 || lia). unfold BLOCK_ALIGN.
  destruct (ceil_spec x 16 ltac:(lia)) as (H1' & _ & H3). specialize (H3 x ltac:(lia) Hm). lia.
Qed.

Lemma align_down_16 x : 0 <= x < 2 ^ 63 → x mod 16 = 0 → align_down x = x.
Proof.
  intros Hx Hm. unfold align_down, BLOCK_ALIGN. change (16 - 1) with (2 ^ 4 - 1). rewrite land_bnot by (unfold uint; lia).
  change (2 ^ 4) with 16. pose proof (Z.div_mod x 16). lia.
Qed.

Lemma heap_extend_spec start n s l : Inv s l → 0 < start → start mod 16 = 0 → 0 < n → n mod 16 = 0 → start + n < LIMIT →
  total (heap s) + n < 2 ^ 63 → (∀ x, start <= x < start + n → ¬ is_free l x) →
  ∃ s' l', extend start (start + n) s = Ok s' ∧ Inv s' l' ∧ total (heap s') = total (heap s) + n ∧
    ∀ x, is_free l' x ↔ is_free l x ∨ start <= x < start + n.
Proof.
  intros HI Hs Hsm Hn Hnm Hl Ht Hno. unfold LIMIT in Hl. pose proof (inv_used s l HI). pose proof (inv_total s l HI).
  pose proof (free_bytes_nonneg 0 l (inv_wf s l HI)).
  unfold extend. rewrite align_up_16, align_down_16 by (lia || by apply mod16_add). rewrite (proj2 (Z.ltb_lt _ _)) by lia.
  replace (start + n - start) with n by lia. rewrite wrap_small by (unfold uint; lia).
  set (s1 := set_total (total (heap s) + n) s).
  assert (Hok : block_ok (start, n)) by (unfold block_ok, LIMIT; cbn; split_and!; [done|lia|done|lia]).
  pose proof (free_list_spec start n 0 l Hs Hok (inv_wf s l HI)) as Hspec.
  pose proof (free_sim start n s1 l (inv_wf s l HI) (inv_holds s l HI) Hok Hs) as Hsim.
  destruct (free_list start n l) as [l'|]; [|destruct Hspec as (x & Hx & Hfx); by destruct (Hno x Hx)].
  destruct Hspec as (_ & Hwf & Hiff & Hb), Hsim as (s' & Hf & Hh & Ht' & Hu'). exists s', l'.
  cbn [s1 set_total heap total used] in Ht', Hu'. rewrite wrap_small in Ht' by (unfold uint; lia).
  split_and!; [done|split; rewrite ?Ht', ?Hu'; [done|done|lia..]|done|done].
Qed.

(** What the program's heap keeps: free memory is below the end of what was mapped. *)
Record fits (w : W) (h : State) (l : list Range) : Prop := {
  fits_inv : Inv h l;
  fits_below x : is_free l x → x < heap_end w;
  fits_total : total (heap h) <= heap_end w }.

(** The new memory holds the block, wherever its alignment puts it. *)
Lemma grown_enough L start : layout_ok L → start mod 4096 = 0 → let n := Allocator.grow_len L in
  0 < n ∧ n mod 4096 = 0 ∧ ∃ q, q mod Z.max (l_align L) 16 = 0 ∧ start <= q ∧ q + block_size L <= start + n.
Proof.
  intros HL Hs. cbv zeta. unfold Allocator.grow_len, Allocator.next_multiple_of, Allocator.GROW_BY, layout.PAGE_SIZE.
  destruct (ceil_spec (Z.max (l_size L + l_align L) (64 * 1024)) 4096 ltac:(lia)) as (Hn1 & Hn2 & _). unfold ceil in Hn1, Hn2.
  set (n := (_ / 4096) * 4096) in *. destruct HL as (Hp & Hsz & Hb). pose proof Hp as (k & Hk & Hal).
  assert (Hpos : 0 < 2 ^ k) by (apply Z.pow_pos_nonneg; lia). split_and!; [lia|done|].
  unfold block_size, BLOCK_ALIGN. rewrite align_up_ceil by (apply power_of_two_16 || lia).
  destruct (ceil_spec (Z.max (l_size L) 1) 16 ltac:(lia)) as (Hb1 & Hb2 & Hb3).
  assert (Hn16 : n mod 16 = 0) by (Z.to_euclidean_division_equations; lia).
  assert (Hs16 : start mod 16 = 0) by (Z.to_euclidean_division_equations; lia).
  destruct (Z.lt_ge_cases (l_align L) 16) as [Hlt|Hge].
  - rewrite Z.max_r by lia. exists start. split_and!; [done|lia|]. specialize (Hb3 n ltac:(lia) Hn16). lia.
  - rewrite Z.max_l by lia. destruct (ceil_spec start (l_align L) ltac:(lia)) as (Hq1 & Hq2 & _). exists (ceil start (l_align L)).
    split_and!; [done|lia|]. assert (Ha16 : l_align L mod 16 = 0).
    { rewrite Hal. assert (4 <= k) by (destruct (Z.le_gt_cases 4 k); [done|]; assert (2 ^ k <= 2 ^ 3) by (apply Z.pow_le_mono_r; lia); lia).
      replace k with (k - 4 + 4) by lia. rewrite Z.pow_add_r by lia. by apply Z.mod_mul. }
    pose proof (mod16_align _ _ Ha16 ltac:(lia) Hq2) as Hq16.
    assert (ceil start (l_align L) <= start + l_align L - 16) by (Z.to_euclidean_division_equations; lia). lia.
Qed.

(** Memory a call of [alloc] took: it was free, or is new. *)
Definition taken (w w' : W) (L : Layout) (l l' : list Range) (p : Z) : Prop :=
  0 < p ∧ p mod Z.max (l_align L) 16 = 0 ∧
  (∀ x, p <= x < p + block_size L → is_free l x ∨ heap_end w <= x < heap_end w') ∧
  ∀ x, is_free l' x ↔ (is_free l x ∨ heap_end w <= x < heap_end w') ∧ ¬ p <= x < p + block_size L.

(** C25: A program's heap grows until the kernel has no more memory: [alloc] gives a null pointer only when the
    kernel refused the pages it asked for, and then what is free and what is not is as it was; the pages the
    kernel had mapped before it ran out, fewer than were asked for, stay mapped and are lost to the heap.  Otherwise
    it gives an aligned block of memory that was free or is new, and the rest of the new memory is free, joined to
    what was free.  A heap that lost pages goes on working: the next ones are right after them. *)
Theorem heap_grows_until_refused L w h l : layout_ok L → fits w h l →
  wp (Allocator.alloc L : Eff (W * State) Empty_set Z) (w, h)
    (λ '(w', h') p, ∃ l', fits w' h' l' ∧
       (p = 0 ∧ (∃ e, call_ (Syscall.Map (Allocator.grow_len L)) [] w = Fail w' e) ∧ l' = l ∧
          heap_end w <= heap_end w' < heap_end w + Allocator.grow_len L ∨
        taken w w' L l l' p))
    (λ _ _, False).
Proof.
  intros HL [HI Hb Ht]. destruct (alloc_cases L h l HL HI) as (h1 & p & l1 & Ha & HI1 & Ht1 & Hcase).
  unfold wp, Allocator.alloc. unfold mbind at 1, Eff_bind at 1, Allocator.on_heap at 1. rewrite Ha.
  destruct Hcase as [(-> & -> & Hno)|(Hp & Hm & Hfree & Hiff)].
  2: { rewrite (proj2 (Z.eqb_neq p 0)) by lia. exists l1. split.
       - constructor; [done|intros x [Hx _]%Hiff; by apply Hb|lia].
       - right. split_and!; [done|done|intros; left; by apply Hfree|]. intros x. rewrite Hiff. intuition lia. }
  change (negb (0 =? 0)) with false. cbv iota zeta. unfold mbind, Eff_bind, Allocator.ask.
  destruct (heap_end_aligned w) as [Hbound Hal]. destruct (grown_enough L (heap_end w) HL Hal) as (Hn & Hnm & q & Hqm & Hq1 & Hq2).
  pose proof (map_law w (Allocator.grow_len L) Hn Hnm) as Hmap. unfold wp in Hmap.
  destruct (call_ (Syscall.Map (Allocator.grow_len L)) [] w) as [w1 start|w1 e|] eqn:Ec; [|exists l; split; [constructor; [done|intros x ?%Hb; lia|lia]|left; eauto 8]|done].
  destruct Hmap as [-> He]. destruct (heap_end_aligned w1) as [Hbound1 _]. set (n := Allocator.grow_len L) in *.
  unfold layout.PROGRAM_END, layout.STACK_TOP, layout.USER_END, layout.STACK_SIZE, layout.PAGE_SIZE in *.
  destruct (heap_extend_spec (heap_end w) n h1 l HI1) as (h2 & l2 & Hx & HI2 & Ht2 & Hiff2);
    [lia|Z.to_euclidean_division_equations; lia|lia|Z.to_euclidean_division_equations; lia|unfold LIMIT; lia|lia|intros x Hx ?%Hb; lia|].
  unfold Allocator.heap_extend, Allocator.on_heap. rewrite Hx. cbn [mbind result_bind].
  destruct (alloc_cases L h2 l2 HL HI2) as (h3 & p & l3 & Ha3 & HI3 & Ht3 & Hcase). rewrite Ha3. exists l3.
  destruct Hcase as [(-> & -> & Hno3)|(Hp & Hm & Hfree & Hiff)].
  { destruct (Hno3 q Hqm). intros x Hxq. apply Hiff2. right. lia. }
  split; [constructor; [done|intros x [Hx' _]%Hiff; apply Hiff2 in Hx' as [?%Hb|?]; lia|lia]|]. right.
  unfold taken. rewrite He. split_and!; [done|done|intros x Hx'; by apply Hiff2, Hfree|]. intros x. by rewrite Hiff, Hiff2.
Qed.
End heap.

(** * A kernel in memory *)
Module MemOs.

(** New files may have [limit] bytes; handles go from 2 to 9; a thousand pages can be mapped. *)
Record MemOs := mkMemOs { handles : gmap Z Obj; files : gmap (list Z) (list Z); console : list Z; pages : nat; limit : nat }.

Definition with_handles hs w := mkMemOs hs (files w) (console w) (pages w) (limit w).
Definition with_files fs w := mkMemOs (handles w) fs (console w) (pages w) (limit w).
Definition with_console out w := mkMemOs (handles w) (files w) out (pages w) (limit w).
Definition with_pages n w := mkMemOs (handles w) (files w) (console w) n (limit w).

Definition mapped w : nat := Nat.min (pages w) 1000.
Definition end_of_heap w : Z := 4096 * (1 + Z.of_nat (mapped w)).

Definition vacant (hs : gmap Z Obj) : option Z := List.find (λ h, bool_decide (hs !! h = None)) (seqZ 2 8).

Definition insert_handle (o : Obj) w : MemOs * result Errno.Errno Z :=
  match vacant (handles w) with
  | Some h => (with_handles (<[h := o]> (handles w)) w, Ok h)
  | None => (w, Err Errno.TooMany)
  end.

Definition serve (c : Syscall.Syscall) (buf : list Z) w : MemOs * result Errno.Errno Z * list Z :=
  match c with
  | Syscall.Open _ _ =>
    match files w !! buf with Some data => (insert_handle (Reading data) w, buf) | None => (w, Err Errno.NotFound, buf) end
  | Syscall.Create _ _ => (insert_handle (Writing buf []) w, buf)
  | Syscall.Read h _ _ =>
    match handles w !! h with
    | Some (Reading rest) =>
      let n := Nat.min (Nat.min (length buf) 256) (length rest) in
      (with_handles (<[h := Reading (drop n rest)]> (handles w)) w, Ok (Z.of_nat n), take n rest ++ drop n buf)
    | _ => (w, Err Errno.BadHandle, buf)
    end
  | Syscall.Write h _ _ =>
    let n := Nat.min (length buf) 256 in
    match handles w !! h with
    | Some (Writing path data) =>
      if (limit w <? length data + n)%nat then (w, Err Errno.NoSpace, buf)
      else (with_handles (<[h := Writing path (data ++ take n buf)]> (handles w)) w, Ok (Z.of_nat n), buf)
    | _ =>
      if h =? OUTPUT then (with_console (console w ++ concat (Link.plain_text (take n buf))) w, Ok (Z.of_nat n), buf)
      else (w, Err Errno.BadHandle, buf)
    end
  | Syscall.Close h =>
    let w' := with_handles (delete h (handles w)) w in
    match handles w !! h with
    | Some (Writing path data) => (with_files (<[path := data]> (files w)) w', Ok 0, buf)
    | Some _ => (w', Ok 0, buf)
    | None => (w, Err Errno.BadHandle, buf)
    end
  | Syscall.Map n =>
    let k := Z.to_nat (n / 4096) in
    if (mapped w + k <=? 1000)%nat then (with_pages (mapped w + k)%nat w, Ok (end_of_heap w), buf)
    else (with_pages 1000%nat w, Err Errno.NoMemory, buf)
  | _ => (w, Err Errno.NoSys, buf)
  end.

#[export] Instance mem_os : Os MemOs := {
  svc r buffers w :=
    match Syscall.decode r with
    | Ok c =>
      let '(w, answer, after) := serve c (buffers !!! 0%nat) w in
      (w, (match answer with Ok v => v | Err e => wrap 64 (- Errno.code e) end, [after]))
    | Err e => (w, (wrap 64 (- Errno.code e), buffers))
    end;
  as_ptr _ := 0x80000000 }.

Lemma vacant_spec hs h : vacant hs = Some h → hs !! h = None ∧ 2 <= h < 10.
Proof.
  unfold vacant. intros [Hin Hb]%find_some. apply bool_decide_eq_true in Hb. split; [done|].
  apply list_elem_of_In, elem_of_seqZ in Hin. lia.
Qed.

(** A call that is served, and its answer. *)
Lemma call_served c bufs w (Q : MemOs → Z * list (list Z) → Prop) (R : MemOs → Errno.Errno → Prop) :
  Syscall.decode (Syscall.encode c) = Ok c →
  (let '(w', answer, after) := serve c (bufs !!! 0%nat) w in
   match answer with Ok v => v <= MAX_RESULT ∧ Q w' (v, [after]) | Err e => R w' e end) → wp (call c bufs) w Q R.
Proof.
  intros Hd. unfold wp, call. cbn [svc mem_os]. rewrite Hd. destruct (serve c (bufs !!! 0%nat) w) as [[w' [v|e]] after].
  - intros [Hv Hq]. unfold decode_result. by rewrite (proj2 (Z.leb_le _ _) Hv).
  - unfold decode_result. by destruct e.
Qed.

Lemma call__served c bufs w (Q : MemOs → Z → Prop) R : Syscall.decode (Syscall.encode c) = Ok c →
  (let '(w', answer, _) := serve c (bufs !!! 0%nat) w in
   match answer with Ok v => v <= MAX_RESULT ∧ Q w' v | Err e => R w' e end) → wp (call_ c bufs) w Q R.
Proof. intros Hd Hs. apply wp_bind, call_served; [done|]. by destruct (serve c _ w) as [[w' [v|e]] after]. Qed.

Lemma insert_handle_spec o w : let '(w', answer) := insert_handle o w in
  files w' = files w ∧ match answer with
  | Ok h => h <= MAX_RESULT ∧ handles w !! h = None ∧ handles w' = <[h := o]> (handles w)
  | Err _ => handles w' = handles w
  end.
Proof.
  unfold insert_handle. destruct (vacant (handles w)) as [h|] eqn:Ev; [|done]. apply vacant_spec in Ev as [? ?].
  unfold MAX_RESULT. split_and!; [done|lia|done|done].
Qed.

#[export] Program Instance mem_lawful : LawfulOs MemOs := {
  opened := handles; file w path := files w !! path; on_console w := bool_decide (handles w !! OUTPUT = None);
  printed := console; heap_end := end_of_heap }.
Next Obligation.
  intros w path. apply call__served; [done|]. change ([path] !!! 0%nat) with path. cbn [serve].
  destruct (files w !! path) as [data|] eqn:Ef; [|done]. pose proof (insert_handle_spec (Reading data) w) as Hi.
  destruct (insert_handle (Reading data) w) as [w' [h|e]]; destruct Hi as [Hf Hi]; [|by rewrite Hf].
  destruct Hi as (Hm & Hn & Hh). split_and!; [done|done|by rewrite Hf|eauto].
Qed.
Next Obligation.
  intros w h rest buf Ho. apply call_served; [done|]. change ([buf] !!! 0%nat) with buf. cbn [serve]. rewrite Ho.
  set (n := Nat.min _ _). split; [unfold MAX_RESULT; lia|]. exists n, (take n rest ++ drop n buf). split_and!; try done; try lia.
  - destruct rest; [by left|]. destruct buf; [by right|]. subst n. cbn [length]. lia.
  - rewrite length_app, length_take, length_drop. lia.
  - rewrite take_app_le by (rewrite length_take; lia). rewrite take_take. f_equal. lia.
Qed.
Next Obligation.
  intros w path. apply call__served; [done|]. change ([path] !!! 0%nat) with path. cbn [serve].
  pose proof (insert_handle_spec (Writing path []) w) as Hi.
  destruct (insert_handle (Writing path []) w) as [w' [h|e]]; destruct Hi as [Hf Hi]; [|by rewrite Hf].
  destruct Hi as (Hm & Hn & Hh). split_and!; [done|done|by rewrite Hf|done].
Qed.
Next Obligation.
  intros w h path data bytes Ho Hne. apply call__served; [done|]. change ([bytes] !!! 0%nat) with bytes. cbn [serve]. rewrite Ho.
  destruct (_ <? _)%nat; [done|]. split; [unfold MAX_RESULT; lia|]. eexists. split_and!; [done| |lia|done|done].
  destruct bytes; [done|cbn [length]; lia].
Qed.
Next Obligation.
  intros w h o Ho. apply call__served; [done|]. cbn [serve]. rewrite Ho. destruct o as [rest|path data|]; (split; [done|]); [done| |done].
  split; [done|]. cbn. by rewrite lookup_insert_eq.
Qed.
Next Obligation.
  intros w bytes Hc. apply bool_decide_eq_true in Hc. apply call__served; [done|]. change ([bytes] !!! 0%nat) with bytes. cbn [serve].
  rewrite Hc. change (OUTPUT =? OUTPUT) with true. cbv iota. split; [unfold MAX_RESULT; lia|]. split_and!; [done|done|].
  by apply bool_decide_eq_true.
Qed.
Next Obligation.
  intros w. unfold end_of_heap, mapped, layout.PROGRAM_END, layout.STACK_TOP, layout.USER_END, layout.STACK_SIZE, layout.PAGE_SIZE.
  split; [lia|]. rewrite Z.mul_comm. by apply Z.mod_mul.
Qed.
Next Obligation.
  intros w n Hn Hm. unfold layout.PAGE_SIZE in Hm. apply call__served; [done|]. cbn [serve].
  pose proof (Z.div_mod n 4096). pose proof (Z.div_pos n 4096).
  destruct (Nat.leb_spec (mapped w + Z.to_nat (n / 4096)) 1000) as [Hl|Hl].
  2: { assert (Hw : (mapped w ≤ 1000)%nat) by apply Nat.le_min_r. unfold end_of_heap.
       change (mapped (with_pages 1000 w)) with 1000%nat. generalize dependent (mapped w). intros m **. lia. }
  split; [unfold MAX_RESULT, end_of_heap, mapped; lia|]. split; [done|]. unfold end_of_heap. unfold mapped at 1. cbn [with_pages pages].
  rewrite Nat.min_l by done. lia.
Qed.
End MemOs.

(** ** On this kernel *)
Import MemOs.

Definition docs : list Z := str "/notes.txt".
Definition machine (limit : nat) : MemOs := mkMemOs ∅ {[ docs := str "old" ]} [] 0 limit.

(** A write that fails cuts the old file: when the kernel takes no more (the file is too long, or the memory for
    such files is used up), [fs::write] returns the error and drops the new file, which closes its handle, and the
    kernel puts what there is of it in place of the old file. *)
Theorem failed_write_truncates :
  match (fs_write docs (replicate 600 7) : Eff _ _ _) (machine 300) with
  | Fail w e => e = Errno.NoSpace ∧ file (machine 300) docs = Some (str "old") ∧ file w docs = Some (replicate 256 7)
  | _ => False
  end.
Proof. vm_compute. split_and!; reflexivity. Qed.

(** 255 letters and a character of two bytes, which does not fit into what is left, then a dollar. *)
Definition long_text : list Z := replicate 255 0x61 ++ [0xC3; 0xA9; 0x24].

Lemma text_is_printed_whole_witness :
  ∃ w, (_print [long_text; str "!"] : Eff _ _ _) (machine 0) = Ret w tt ∧ console w = replicate 255 0x61 ++ [0xC3; 0xA9; 0x3F; 0x21].
Proof.
  pose proof (text_is_printed_whole (machine 0) [long_text; str "!"] eq_refl ltac:(repeat constructor; vm_compute; reflexivity)) as Hw.
  destruct (wp_returns _ _ _ _ Hw ltac:(vm_compute; reflexivity)) as (w & [] & Hr & Hp). exists w. split; [exact Hr|exact Hp].
Defined.

Lemma written_files_read_back_witness :
  ∃ w, (_ ← fs_write docs (replicate 600 7); fs_read 601 docs : Eff _ _ (list Z)) (machine 1000) = Ret w (replicate 600 7) ∧ handles w = ∅.
Proof.
  pose proof (written_files_read_back 601 (machine 1000) docs (replicate 600 7) ltac:(rewrite length_replicate; lia)) as Hw.
  destruct (wp_returns _ _ _ _ Hw ltac:(vm_compute; reflexivity)) as (w & data & Hr & -> & Ho & _). exists w. split; [exact Hr|exact Ho].
Defined.

Lemma range_is_fair_witness : (∀ draw, 0 <= draw → pick 10 16 draw = Some 12 ↔ ∃ i, 0 <= i < 3074457345618258602 ∧ draw = 2 + i * 6) ∧
  pick 10 16 20 = Some 12.
Proof.
  destruct (range_is_fair 10 16 ltac:(lia) ltac:(lia) ltac:(lia)) as (_ & Hf & _).
  split; [intros draw Hd; exact (Hf 12 draw ltac:(lia) Hd)|reflexivity].
Defined.

Lemma heap_grows_until_refused_witness :
  ∃ w h, (Allocator.alloc (Heap.mkLayout 100000 4096) : Eff _ Empty_set _) (machine 0, Heap.mkState Heap.empty ∅) = Ret (w, h) 4096 ∧
    end_of_heap w = 4096 + 106496.
Proof.
  assert (Hf : fits (machine 0) (Heap.mkState Heap.empty ∅) []).
  { constructor; [constructor; done|by intros x ?%FreeList.is_free_nil|done]. }
  assert (HL : FreeList.layout_ok (Heap.mkLayout 100000 4096)) by (split_and!; [by exists 12|cbn; lia..]).
  pose proof (heap_grows_until_refused (Heap.mkLayout 100000 4096) (machine 0) _ [] HL Hf) as Hw.
  destruct (wp_returns _ _ _ _ Hw ltac:(vm_compute; reflexivity)) as ([w h] & p & Hr & _).
  exists w, h. vm_compute in Hr. injection Hr as <- <- <-. split; vm_compute; reflexivity.
Defined.
End UserProps.
